(* ===== verification/_CoqProject ===== *)
-Q . S2P
Prelude.v
Model.v
NodeKeys.v
Encodings.v
Topology.v
AccessSnapshot.v
Rbac.v
McpAuth.v
Capability.v
AuditRisk.v
SubscriptionOrder.v
PlanMembership.v
Prog.v
ChangesetStore.v
Automation.v
AutomationSafety.v
AutomationContracts.v
AutomationRace.v
Workflows.v
WorkflowSafety.v
WorkflowContracts.v
WorkflowRaces.v
AgentLink.v
AgentSession.v
AccessChanges.v
AccessChangeSafety.v
AccessChangeProgress.v
NetAddr.v
ListenResources.v
PortPolicy.v
MieruPorts.v
PortLedger.v
PortLedgerSafety.v
PortLedgerContracts.v
PlanVersions.v
PlanVersionSafety.v
PlanNodeRemoval.v
PlanVersionContracts.v
PlanVersionRefinement.v
ProxyPathNames.v
ProxyPathNameSafety.v
ExitRegions.v
ExitRegionSafety.v
NodeNames.v
NodeNameSafety.v
NodeCatalog.v
NodeCatalogSafety.v
PlanPreview.v
PlanPreviewSafety.v
JsonText.v
StoredTimes.v
Security.v
SecuritySafety.v
StepUp.v
StepUpSafety.v
Credentials.v
CredentialSafety.v
CredentialStore.v
CredentialStoreSafety.v
CredentialLifecycle.v
CredentialSync.v
