(* ===== verification/Prelude.v ===== *)
(** * OBoard controller: verification library

    OBoard is a controller for networks of proxy servers.  Operators and automated
    clients (an MCP server, an HTTP API) change servers, paths, plans and users through the
    controller; the controller decides who may use which node, pushes the resulting
    configuration to the agents on the servers and renders the subscriptions of the
    users.  This library models the decision logic of the controller, in Go under
    [src/internal], and proves what makes it correct.

    ** Parts of the program and the files that model them

    - [Prelude] (this file): the error monad of functions of type [(T, error)], loops with
      early return ([foldM]), [sort.Slice] and [sort.SliceStable] as a stable insertion
      sort with the theory of strict weak orders, [range] over a Go map as a class
      [MapRange] of enumerations in any order, [strings.TrimSpace], [ToLower], [ToUpper],
      [strconv.ParseInt] and [FormatInt] on bytes.
    - [Model]: the fields of the structs of [model/types.go] that the components share.
    - [Encodings], [JsonText], [StoredTimes]: hexadecimal, base64, splitting and joining, the JSON
      text of flat structs, and the order of the texts that times are stored as.
    - [NodeKeys]: node keys and region codes ([core/assignable_nodes.go], [core/exit_regions.go]).
    - [Topology]: [ValidateTopologyDAG] ([core/topology.go]).
    - [AccessSnapshot]: the effective access snapshot, its projections and the
      classification of access changes ([core/access_snapshot.go]): which user may use
      which node, and which credentials every inbound and path carries.
    - [Rbac]: role permissions and approval rules ([authorization]).
    - [McpAuth]: access levels, resource boundaries and the evaluator of MCP grants ([mcpauth]).
    - [Capability]: the capability catalog and the scopes of a grant ([capability/catalog.go],
      [application/principal.go]).
    - [AuditRisk]: the account risk model with exact rationals ([auditrisk]).
    - [SubscriptionOrder]: ordering policies, the order of subscription nodes and the
      placement of new nodes ([core/subscription_order.go]).
    - [PlanMembership]: membership rules of subscription plans ([core/plan_membership_rules.go]).
    - [Prog]: programs of atomic steps, run alone or interleaved in a pool.
    - [ChangesetStore]: the rows and SQL statements of changesets and approvals
      ([store/automation.go], [model/automation.go]).
    - [Automation]: the changeset methods of [automation/service.go],
      [automation/idempotency.go] and [automation/revisions.go] as such programs.
    - [AutomationSafety], [AutomationContracts], [AutomationRace]: what these methods
      guarantee one call at a time, per call, and when calls interleave.
    - [Workflows]: the workflows on top of changesets ([automation/service.go],
      [store/workflows.go]); [WorkflowSafety] the machine that calls implement one at a time,
      [WorkflowContracts] progress of polls, torn retries, lost cancellations,
      [WorkflowRaces] what holds however calls overlap.
    - [AgentLink]: frames, padding and the session with an agent ([agentlink]);
      [AgentSession] what a session guarantees to its callers.
    - [AccessChanges]: the two-phase deployment of an authorization change
      ([store/access_changes.go], [controller/access_changes.go] and the statements of
      [store/plans.go] it executes); [AccessChangeSafety] its state machine under all
      interleavings, [AccessChangeProgress] completion, and two races.
    - [NetAddr]: the part of [net/netip] the code uses.
    - [ListenResources]: listeners and their conflicts, the deployment check
      ([core/listen_resources.go]) and the port ranges of Mieru ([core/protocols.go]);
      [MieruPorts] the normal form of these ranges.
    - [PortPolicy]: port ranges of a server, the preview of their change and the port allocator
      ([core/port_policy.go], [core/proxy_paths.go]).
    - [PortLedger]: the ledger of generated ports and its table ([core/proxy_paths.go],
      [store/store.go]); [PortLedgerSafety] its invariant and the effect of every
      operation, [PortLedgerContracts] stability, migration, and saving and reading back.
    - [PlanVersions]: the rows of subscription plans and their versions, and the transactions
      that create, clone, save, activate, cancel and delete them, edit their drafts and remove
      nodes from them
      ([store/plans.go], [store/plan_reconcile.go], [store/access_changes.go]);
      [PlanVersionSafety] and [PlanNodeRemoval] the effect of each transaction,
      [PlanVersionContracts] what holds over all sequences of them,
      [PlanVersionRefinement] that they implement the pointers [AccessChanges] works with.
    - [ProxyPathNames]: the names of proxy paths, their templates and the configuration of
      generated chains ([core/proxy_path_names.go], [core/proxy_paths.go]);
      [ProxyPathNameSafety] that names are unique and stable.
    - [ExitRegions]: the region where a path leaves, probes of imported nodes and their
      topology fingerprints ([core/exit_regions.go]); [ExitRegionSafety] that regions are
      those of the current topology.
    - [NodeNames]: names and tags of subscription nodes ([core/subscription.go],
      [core/node_names.go]); [NodeNameSafety] that they are distinct.
    - [NodeCatalog]: topologies and the catalog of assignable nodes
      ([core/assignable_node_topology.go], [core/assignable_nodes.go]);
      [NodeCatalogSafety] that it is complete.
    - [PlanPreview]: previews of plan changes and the servers a change affects
      ([core/assignable_nodes.go], [core/proxy_paths.go]); [PlanPreviewSafety] that they are exact.
    - [Security]: encrypted secrets, passwords, session and step-up tokens and the signed
      envelopes of the agent link ([security]); [SecuritySafety] round trips, and that tokens and
      signatures are bound to what they carry.
    - [StepUp]: the step-up challenges and tokens ([controller/step_up.go],
      [store/remote_access.go]); [StepUpSafety] what a token authorizes and how often.
    - [Credentials]: identities, the credential of a route, listeners and the scopes that need a
      credential ([core/device_identity.go], [core/protocols.go]); [CredentialSafety] that they agree.
    - [CredentialStore]: the table of credentials with its reconciliation, loading and rewrapping
      ([store/proxy_credentials.go]); [CredentialStoreSafety] that a reconciliation is exact,
      [CredentialLifecycle] that what is issued can be loaded and used, and survives a change
      of the secret; [CredentialSync] the pass of the controller
      ([controller/authorization_lease.go]) and that credentials follow access.

    How they interact: [AccessSnapshot] uses the node keys; [SubscriptionOrder] and
    [PlanMembership] use the region codes and keys; [Rbac] implements the permission and
    approval interfaces (the classes [RBACChecker] and [ApprovalResolver]) against which the
    evaluator of [McpAuth] is proved; [Capability] authorizes through both; [Automation]
    authorizes every operation through [Capability] and keeps its state in
    [ChangesetStore]; [Workflows] follows the changesets of [ChangesetStore] and extends its
    world with their rows; [AccessChanges] classifies a change with
    [AccessSnapshot]; [PortPolicy] allocates with the conflict predicate of
    [ListenResources], and the requirements of [PortLedger] carry the ports it gives;
    [PlanVersions] holds the plans behind [AccessSnapshot] and the pointers behind
    [AccessChanges]; [NodeCatalog] builds its entries from the names of [ProxyPathNames] and
    [NodeNames] and the regions of [ExitRegions], and its entries are what the rules of
    [PlanMembership] select; [PlanPreview] compares the effective nodes of [AccessSnapshot]
    and the projections of an access change; [Credentials] takes the scopes from the bindings of
    [AccessSnapshot], [CredentialStore] issues secrets for them with the encryption of [Security],
    and [CredentialSync] composes the three; [StepUp] signs and verifies with [Security].

    ** Conventions

    A struct is a record, an enumeration of string constants its strings (an inductive type
    where the code only uses the constants), [int] and [int64] are [Z] with the wrap-around
    written out where a value can reach it, times are nanoseconds in [Z], a nil pointer is
    [None], a Go map is a [gmap].  A map that the code ranges over is enumerated by a
    [MapRange] instance, so a theorem over all instances holds for every iteration order
    of the runtime.  A function that returns an error has a result of type [result].
    Definitions are executable; the examples and witnesses evaluate them.

    ** What the theorems show

    - Changesets: in every reachable store a mutation was only executed for a stored plan
      that an operator approved with this hash or that automatic policies cover; calls that
      run one at a time, and any interleaving of [Apply] calls, execute every operation at
      most once; what [Apply] executes passed every guard; a retried [Create] never creates
      a second changeset and returns the first one; one-time results are never
      stored.  However calls overlap, changesets keep their plans and their keys are unique; closed
      changesets are never reopened by calls of [Create] and [Apply], nor by any calls that
      run one at a time.  Interleaved approvals do execute twice
      ([double_approval_executes_twice]).
    - Access: the snapshot grants exactly what plans and exceptions specify, independently of
      map order; the credential lists are exactly the authorized users; the projections
      used during a change are the union of both sides, and changes are classified exactly.
    - Authorization: the evaluator allows exactly the permitted operations and names only
      resources outside a boundary when it refuses, never approves
      the highest risk automatically, boundaries survive normalization, privilege grows
      with the role, derived scopes are consistent with the catalog.
    - Topology: validation accepts exactly the acyclic topologies on known servers, and its
      depth-first search terminates.
    - Subscriptions: the order is a permutation that respects the policy, independent of
      the input order; placement conserves the nodes and keeps the template order;
      validation of policies is idempotent; membership rules resolve to their specification.
    - Workflows: one at a time, calls move statuses along a small machine with transitions of
      their own and leave other rows alone, and a poll reaches the state of the changeset, the
      access change or the server that the workflow follows; however they overlap, workflows are
      unique, keep their identity and their step; a retry torn between its two statements is
      stuck ([torn_retry_stuck]) and a cancellation can be overwritten ([cancellation_lost]).
    - Access changes: under every interleaving of worker, creation, retry and cancellation
      the status follows the documented machine and finalize tasks come after activation;
      a due change that is alone on its plan is finalized when nothing fails; a cancelled change can still be
      activated ([cancelled_change_activated]).
    - Agent link: a peer reads the frames that were sent, up to a failed write or a frame above its
      limit, and the padding is removed again; a request gets the response with its
      identifier; large messages end a session, a waiting request may get nil.
    - Ports: the conflict check is exact with respect to the endpoints a listener
      occupies; the allocator is sound and complete; previews are exact; Mieru ranges
      survive normalization; active ports are stable, a migration moves them in two steps,
      and saved ledgers are read back with the same ports.
    - Plan versions: identifiers and pointers stay consistent; only an activation, the removal
      of a node, a deletion or the edit of a draft that is current changes what a plan
      authorizes; a stale save is refused; the
      removal of nodes leaves every plan what it had without them; a cancellation discards
      a version saved meanwhile ([cancel_discards_saved_version]).
    - Names: the resolution of path names ends and active paths have distinct names, in any
      order of maps and paths; hidden intermediate nodes are a longest common subsequence;
      templates survive normalization; the tags of a subscription are distinct.
    - Regions: a region that comes from a probe was found on the current topology; an imported
      node has a probed region exactly when all paths through it agree; the error text alone
      depends on map order ([region_error_depends_on_order]).
    - Catalog: it lists every assignable node once with its topology, and a rule on a server
      selects a path exactly when the path touches the server; names of standalone nodes can
      differ from the subscription ([catalog_name_diverges]).
    - Previews: they list exactly the nodes users gain and lose and exactly the servers that
      authenticate their users, with the paths and capacities affected, but they apply revoked exceptions
      ([preview_applies_revoked_exception]).
    - Credentials: the listeners of an inbound are exactly the granted scopes that hold a
      credential, for accounts without a path in their names ([marked_name_locked_out] shows one
      that registration admits); a route never falls back to other secrets, a reconciliation leaves exactly the
      authorized credentials and never renews the window for devices, and after a pass of the
      controller an account has the secrets of exactly the routes that a snapshot grants.
    - Secrets and tokens: what is encrypted, hashed or signed is read back; tokens are accepted
      only with the signature of their payload, as one kind, before they expire; signatures of
      envelopes determine the envelopes.  A step-up leads to a token for what was asked for,
      which is used once, but the same token in another encoding is accepted again
      ([reencoded_token_accepted]).
    - Risk: scores are intervals within 0 and 100 with the status and level that belong to
      them, narrower evidence gives nested
      intervals, aggregation and baselines compute what they document.

    ** Fuel and parameters

    The depth-first search of [Topology] recurses with fuel one more than the number of
    known servers, and is proved not to run out; [TrimSpace] has the length of its input
    as fuel, of which every step consumes a byte.  The loops that read frames have the
    length of the stream, of which every frame consumes its header; the parser of IPv6
    addresses the eight groups of an address; the search for a port the width of its range;
    the loop over a port range its length.  In [ProxyPathNames] the loop that lengthens names
    has the number of labels and features not shown yet, of which every iteration consumes
    one, the search for a free number one attempt more than there are used names, and the
    walk of a common subsequence the length of both routes.  The escapes of a JSON string have
    the length of the string.  Everything else is structural.
    Parameters stand for the digest of [PlanMembership], the decoder of stored boundaries in
    [McpAuth], and in [Automation] the JSON codec with SHA-256 (class [Codec]), the
    registered handlers, validators and resolvers (record [Service]) and the environment
    (record [Env]: clock, random tokens, failures of statements, policies, principals,
    servers, each a function of the step).  The classes [WorkflowCodec], [LinkCodec] and
    [ListenDecoder] are the JSON encodings of workflow rows, of frames of the agent link, and
    of stored configurations, [PlanCodec] those of plan versions with their digest, and
    [EgressCodec] the JSON encoding and SHA-256 of a topology; [Crypto] is SHA-256, HMAC, AES-GCM
    and Argon2, with their lengths and the round trip of the encryption in [CryptoLaws],
    [CredentialCodec] the JSON decoding of credential material, [SecretDerivation] the derived
    secrets of internal users, and random bytes are arguments; the record [CEnv] is the environment of access changes (clock,
    failing statements, deployment of a server, tasks of agents, the activation of changes
    other than publications).  The theorems hold for all of them; [Create_replays] assumes
    that an encoded object is neither the empty text nor null, [request_response] that the
    frames of the link decode to what was encoded ([LinkCodecLaws]), and the progress
    theorems that statements and deployments succeed.

    ** Not modelled

    HTTP, SQL text and migrations, the generation of proxy and client
    configurations, the plugin runtime, the TLS transport and dialing of agents, updates,
    backups, the language model clients and the web interface: input and output, external
    programs or text generation.  The mutex around deployments is left out of
    [AccessChanges], which only adds interleavings.  The planner of a port migration runs
    the projection of all paths and is not modelled.  Of [store/plans.go] the draft
    operations that no handler calls (limits, ordering, publication, restoring), bindings of
    users, exceptions and migrations are not modelled; of the retirement
    of device credentials neither are the review batches and the preview.  The dial
    constraints and the projection of proxy paths to configurations have logic of their
    own and would be the next parts, in this order. *)

From Stdlib Require Export ZArith Lia Ascii.
From stdpp Require Export base gmap strings list sorting pretty.

(** ** Scope, result type and its monad *)

Declare Scope go_scope.
Delimit Scope go_scope with go.

(** A Go function of type [(T, error)] returns [Ok v] or [Err e]; the error type
    is an inductive type of the component, one constructor per error site. *)
Inductive result (E A : Type) : Type :=
| Ok (a : A)
| Err (e : E).
Arguments Ok {E A} a.
Arguments Err {E A} e.

Definition rbind {E A B : Type} (r : result E A) (k : A → result E B) : result E B :=
  match r with
  | Ok a => k a
  | Err e => Err e
  end.

Notation "'let*' x ':=' c 'in' k" := (rbind c (λ x, k))
  (at level 10, x pattern, c at level 100, k at level 200) : go_scope.

(** A statement that only returns early with an error when its guard holds. *)
Definition fail_if {E : Type} (b : bool) (e : E) : result E unit :=
  if b then Err e else Ok ().

(** A loop whose body may return an error: [for _, x := range l]. *)
Fixpoint foldM {E S A : Type} (f : A → S → result E S) (l : list A) (s : S) : result E S :=
  match l with
  | [] => Ok s
  | x :: l => match f x s with
              | Ok s' => foldM f l s'
              | Err e => Err e
              end
  end.

Definition is_ok {E A : Type} (r : result E A) : bool :=
  match r with Ok _ => true | Err _ => false end.

(** ** Development tactics *)

Create HintDb oboard discriminated.

(** Case on the scrutinee of some [match] or [if] of the goal or a hypothesis. *)
Ltac case_any :=
  match goal with
  | |- context [match ?e with _ => _ end] => destruct e eqn:?
  | H : context [match ?e with _ => _ end] |- _ => destruct e eqn:?
  end.

(** Turn boolean facts about [Z], [string], [&&] and [||] into propositions. *)
Ltac bprop :=
  repeat match goal with
  | H : _ && _ = true |- _ => apply andb_true_iff in H as [? ?]
  | H : _ || _ = false |- _ => apply orb_false_iff in H as [? ?]
  | H : negb _ = true |- _ => apply negb_true_iff in H
  | H : negb _ = false |- _ => apply negb_false_iff in H
  | H : bool_decide _ = true |- _ => apply bool_decide_eq_true in H
  | H : bool_decide _ = false |- _ => apply bool_decide_eq_false in H
  | H : (_ =? _)%Z = true |- _ => apply Z.eqb_eq in H
  | H : (_ =? _)%Z = false |- _ => apply Z.eqb_neq in H
  | H : (_ <? _)%Z = true |- _ => apply Z.ltb_lt in H
  | H : (_ <? _)%Z = false |- _ => apply Z.ltb_ge in H
  | H : (_ <=? _)%Z = true |- _ => apply Z.leb_le in H
  | H : (_ <=? _)%Z = false |- _ => apply Z.leb_gt in H
  end.

(** ** Early returns *)

Lemma fail_if_ok {E} b (e : E) u : fail_if b e = Ok u → b = false.
Proof. by destruct b. Qed.

Lemma rbind_ok {E A B} (r : result E A) (k : A → result E B) b :
  rbind r k = Ok b → ∃ a, r = Ok a ∧ k a = Ok b.
Proof. destruct r; simpl; [eauto|done]. Qed.

(** ** Loops with errors *)

Section foldM_facts.
Context {E S A : Type}.
Implicit Types (f : A → S → result E S) (I : S → Prop).

Lemma foldM_app f l1 l2 s :
  foldM f (l1 ++ l2) s =
  match foldM f l1 s with Ok s' => foldM f l2 s' | Err e => Err e end.
Proof. revert s; induction l1 as [|x l1 IH]; intros s; simpl; [done|]. by case_any. Qed.

(** An invariant kept by the body holds when the loop ends without an error. *)
Lemma foldM_inv I f l s s' :
  (∀ x t t', x ∈ l → I t → f x t = Ok t' → I t') →
  I s → foldM f l s = Ok s' → I s'.
Proof.
  revert s; induction l as [|x l IH]; intros s Hf Hs Hok; simpl in *.
  { by simplify_eq. }
  case_any; [|done]. eapply IH; [| |done].
  - intros y t t' Hy; apply Hf; by right.
  - eapply Hf; eauto. by left.
Qed.

(** A loop that fails, fails in some iteration of its body. *)
Lemma foldM_err f l s e : foldM f l s = Err e → ∃ x t, f x t = Err e.
Proof.
  revert s; induction l as [|x l IH]; intros s Herr; simpl in *; [done|].
  case_any; simplify_eq; eauto.
Qed.

Lemma foldM_fmap {B} (h : B → A) f l s : foldM f (h <$> l) s = foldM (λ b, f (h b)) l s.
Proof. revert s; induction l as [|x l IH]; intros s; simpl; [done|]. by case_any. Qed.
End foldM_facts.

(** ** Keys *)

(** Two elements with the same key are equal when keys are unique. *)
Lemma NoDup_fmap_key {A B} (f : A → B) (l : list A) x y :
  NoDup (f <$> l) → x ∈ l → y ∈ l → f x = f y → x = y.
Proof.
  intros Hnd (i & Hi)%list_elem_of_lookup (j & Hj)%list_elem_of_lookup Heq.
  assert (i = j) as ->; [|congruence].
  eapply NoDup_lookup; [exact Hnd|rewrite list_lookup_fmap, Hi; done|]. rewrite list_lookup_fmap, Hj. simpl. by rewrite Heq.
Qed.

Lemma NoDup_map_filter {A B} (f : A → B) (p : A → bool) l : NoDup (f <$> l) → NoDup (f <$> List.filter p l).
Proof.
  induction l as [|x l IH]; [done|]. simpl. intros [Hn Hnd]%NoDup_cons. destruct (p x); [|auto]. simpl. constructor; [|auto].
  intros (y & Heq & Hy)%list_elem_of_fmap. apply Hn. rewrite Heq. apply list_elem_of_fmap_2.
  apply list_elem_of_In in Hy. apply List.filter_In in Hy as [Hy _]. by apply list_elem_of_In.
Qed.

Lemma List_filter_perm {A} (P : A → bool) l1 l2 : l1 ≡ₚ l2 → List.filter P l1 ≡ₚ List.filter P l2.
Proof.
  induction 1 as [|x l l' _ IH|x y l|l l' l'' _ IH1 _ IH2]; simpl; [done| | |by etrans].
  - destruct (P x); [by constructor|done].
  - destruct (P x), (P y); solve [constructor | done].
Qed.

#[export] Instance List_filter_Permutation {A} (P : A → bool) : Proper ((≡ₚ) ==> (≡ₚ)) (List.filter P).
Proof. intros l1 l2. apply List_filter_perm. Qed.

Lemma existsb_perm {A} (f : A → bool) l l' : l ≡ₚ l' → existsb f l = existsb f l'.
Proof.
  intros Hp. apply eq_true_iff_eq. rewrite !List.existsb_exists. by setoid_rewrite <- list_elem_of_In; setoid_rewrite Hp.
Qed.

(** A key selects one element. *)
Lemma filter_key_length {A B} (f : A → B) (P : A → bool) (l : list A) x :
  NoDup (f <$> l) → x ∈ l → (∀ y, y ∈ l → P y = true ↔ f y = f x) → length (List.filter P l) = 1.
Proof.
  intros Hnd Hx HP. apply list_elem_of_split in Hx as (l1 & l2 & ->).
  rewrite fmap_app, fmap_cons in Hnd. apply NoDup_app in Hnd as (_ & Hd & Hnd2%NoDup_cons). destruct Hnd2 as [Hnx _].
  assert (∀ l', (∀ y, y ∈ l' → P y = false) → List.filter P l' = []) as Hnone.
  { induction l' as [|y l' IH]; intros Hf; simpl; [done|]. rewrite Hf by constructor. apply IH. intros; apply Hf; by constructor. }
  rewrite List.filter_app, length_app. simpl. rewrite (proj2 (HP x ltac:(set_solver)) eq_refl).
  rewrite !Hnone; [done| |]; intros y Hy; destruct (P y) eqn:Hp; try done; apply HP in Hp; try set_solver.
Qed.

(** ** Orders used as Go comparators *)

(** [sort.Slice] and [sort.SliceStable] take a [less] function.  The comparators of
    this code base chain key comparisons, so they are strict weak orders. *)
Class StrictWeak {A : Type} (lt : A → A → bool) : Prop := {
  sw_irrefl x : lt x x = false;
  sw_trans x y z : lt x y = true → lt y z = true → lt x z = true;
  sw_ge_trans x y z : lt y x = false → lt z y = false → lt z x = false }.

(** Three-way comparisons, and their lexicographic product. *)
Class Cmp {A : Type} (c : A → A → comparison) : Prop := {
  cmp_refl x : c x x = Eq;
  cmp_anti x y : c y x = CompOpp (c x y);
  cmp_lt x y z : c x y = Lt → c y z = Lt → c x z = Lt;
  cmp_eq x y z : c x y = Eq → c x z = c y z }.

Definition lexc {A : Type} (c1 c2 : A → A → comparison) (x y : A) : comparison :=
  match c1 x y with Eq => c2 x y | r => r end.

Definition ltc {A : Type} (c : A → A → comparison) (x y : A) : bool :=
  match c x y with Lt => true | _ => false end.

Definition onc {A B : Type} (f : A → B) (c : B → B → comparison) (x y : A) : comparison :=
  c (f x) (f y).

(** [true] before [false], the order of [if a.b != b.b { return a.b }]. *)
Definition true_first (a b : bool) : comparison :=
  match a, b with
  | true, false => Lt
  | false, true => Gt
  | _, _ => Eq
  end.

Section cmp_facts.
Context {A : Type}.
Implicit Types c : A → A → comparison.

Lemma cmp_eq_r c `{!Cmp c} x y z : c x y = Eq → c z x = c z y.
Proof. intros H. rewrite !(cmp_anti _ z). f_equal. by apply cmp_eq. Qed.

#[export] Instance lexc_cmp c1 c2 `{!Cmp c1, !Cmp c2} : Cmp (lexc c1 c2).
Proof.
  split; unfold lexc.
  - intros x. by rewrite !cmp_refl.
  - intros x y. rewrite (cmp_anti x y), (cmp_anti (c:=c2) x y). by destruct (c1 x y).
  - intros x y z. destruct (c1 x y) eqn:Hxy; try done.
    + rewrite (cmp_eq _ _ z Hxy). destruct (c1 y z); try done. apply cmp_lt.
    + intros _. destruct (c1 y z) eqn:Hyz; try done; intros _.
      * by rewrite <-(cmp_eq_r c1 _ _ x Hyz), Hxy.
      * by rewrite (cmp_lt _ _ _ Hxy Hyz).
  - intros x y z. destruct (c1 x y) eqn:Hxy; try done.
    intros H2. rewrite (cmp_eq _ _ z Hxy). destruct (c1 y z); try done. by apply cmp_eq.
Qed.

#[export] Instance ltc_strict_weak c `{!Cmp c} : StrictWeak (ltc c).
Proof.
  split; unfold ltc.
  - intros x. by rewrite cmp_refl.
  - intros x y z. destruct (c x y) eqn:?, (c y z) eqn:?; try done.
    by erewrite cmp_lt.
  - intros x y z. rewrite (cmp_anti x y), (cmp_anti y z), (cmp_anti x z).
    destruct (c x y) eqn:Hxy, (c y z) eqn:Hyz; try done; intros _ _.
    + by rewrite (cmp_eq _ _ z Hxy), Hyz.
    + by rewrite (cmp_eq _ _ z Hxy), Hyz.
    + by rewrite <-(cmp_eq_r c _ _ x Hyz), Hxy.
    + by rewrite (cmp_lt _ _ _ Hxy Hyz).
Qed.
End cmp_facts.

#[export] Instance onc_cmp {A B} (f : A → B) c `{!Cmp c} : Cmp (onc f c).
Proof.
  split; unfold onc; intros; [apply cmp_refl|apply cmp_anti|by eapply cmp_lt|by apply cmp_eq].
Qed.

#[export] Instance Z_cmp : Cmp Z.compare.
Proof.
  split; intros.
  - apply Z.compare_refl.
  - apply Z.compare_antisym.
  - rewrite Z.compare_lt_iff in *. lia.
  - by apply Z.compare_eq in H as ->.
Qed.

#[export] Instance true_first_cmp : Cmp true_first.
Proof. split; intros; repeat match goal with b : bool |- _ => destruct b end; done. Qed.

#[export] Instance string_cmp : Cmp String.compare.
Proof.
  split.
  - intros s. destruct (String.compare s s) eqn:H; [done|..];
      pose proof (String.compare_antisym s s) as H'; by rewrite H in H'.
  - intros x y. rewrite String.compare_antisym. done.
  - intros x y z Hxy Hyz.
    assert (String.le x z) as Hle.
    { transitivity y; unfold String.le, String.leb; [by rewrite Hxy|by rewrite Hyz]. }
    unfold String.le, String.leb in Hle.
    destruct (String.compare x z) eqn:Hxz; try done.
    apply String.compare_eq_iff in Hxz as ->.
    rewrite String.compare_antisym, Hxy in Hyz. done.
  - by intros x y z ->%String.compare_eq_iff.
Qed.

(** ** Sorting *)

(** [sort.SliceStable]: insertion sort, which keeps equal elements in their input
    order.  [sort.Slice] promises only a sorted permutation; it is modelled by the
    same function, and where the code uses it the theorems below that say the sorted
    permutation is unique show that the choice of algorithm cannot be observed. *)
Fixpoint insert_sorted {A : Type} (lt : A → A → bool) (x : A) (l : list A) : list A :=
  match l with
  | [] => [x]
  | y :: l' => if lt y x then y :: insert_sorted lt x l' else x :: l
  end.

Definition sort_slice {A : Type} (lt : A → A → bool) (l : list A) : list A :=
  foldr (insert_sorted lt) [] l.

(** The order a sorted slice is in: no later element is less than an earlier one. *)
Definition le_of {A : Type} (lt : A → A → bool) (x y : A) : Prop := lt y x = false.

Section sort_facts.
Context {A : Type} (lt : A → A → bool).

Lemma insert_sorted_perm x l : insert_sorted lt x l ≡ₚ x :: l.
Proof.
  induction l as [|y l IH]; simpl; [done|]. case_match; [|done].
  rewrite IH. constructor.
Qed.

Lemma sort_slice_perm l : sort_slice lt l ≡ₚ l.
Proof. induction l as [|x l IH]; simpl; [done|]. by rewrite insert_sorted_perm, IH. Qed.

Lemma elem_of_sort_slice x l : x ∈ sort_slice lt l ↔ x ∈ l.
Proof. by rewrite sort_slice_perm. Qed.

Lemma NoDup_sort_slice l : NoDup (sort_slice lt l) ↔ NoDup l.
Proof. by rewrite sort_slice_perm. Qed.

Lemma length_sort_slice l : length (sort_slice lt l) = length l.
Proof. by rewrite sort_slice_perm. Qed.

Context `{!StrictWeak lt}.

Lemma insert_sorted_sorted x l :
  StronglySorted (le_of lt) l → StronglySorted (le_of lt) (insert_sorted lt x l).
Proof.
  induction 1 as [|y l Hl IH Hy]; simpl; [repeat constructor|].
  destruct (lt y x) eqn:Hyx.
  - constructor; [done|]. rewrite insert_sorted_perm. constructor; [|done].
    unfold le_of. destruct (lt x y) eqn:Hxy; [|done].
    pose proof (sw_trans _ _ _ Hxy Hyx). by rewrite sw_irrefl in *.
  - constructor; [by constructor|]. constructor; [done|].
    eapply Forall_impl; [done|]. intros z Hz. by apply (sw_ge_trans x y z).
Qed.

Lemma sort_slice_sorted l : StronglySorted (le_of lt) (sort_slice lt l).
Proof. induction l as [|x l IH]; simpl; [constructor|by apply insert_sorted_sorted]. Qed.

(** When the comparator separates the elements of [l], every sorted permutation of
    [l] is the one computed here: the result does not depend on the algorithm. *)
Lemma sort_slice_unique l l' :
  (∀ x y, x ∈ l → y ∈ l → lt x y = false → lt y x = false → x = y) →
  StronglySorted (le_of lt) l' → l' ≡ₚ l → l' = sort_slice lt l.
Proof.
  intros Hsep Hsorted Hperm. apply (StronglySorted_unique_strong (le_of lt)).
  - intros x y Hx Hy Hxy Hyx. rewrite Hperm in Hx. rewrite elem_of_sort_slice in Hy.
    by apply Hsep.
  - done.
  - apply sort_slice_sorted.
  - by rewrite sort_slice_perm.
Qed.

(** Two permutations sort to the same list when the comparator separates them. *)
Lemma sort_slice_perm_eq l l' :
  (∀ x y, x ∈ l → y ∈ l → lt x y = false → lt y x = false → x = y) →
  l' ≡ₚ l → sort_slice lt l' = sort_slice lt l.
Proof.
  intros Hsep Hperm. apply sort_slice_unique; [done|apply sort_slice_sorted|].
  by rewrite sort_slice_perm.
Qed.

Lemma insert_sorted_filter (P : A → bool) x l :
  (∀ y z, P y = true → P z = true → lt y z = false) →
  filter P (insert_sorted lt x l) = filter P (x :: l).
Proof.
  intros HP. induction l as [|y l IH]; [done|]. simpl insert_sorted.
  destruct (lt y x) eqn:Hyx; [|done].
  rewrite (filter_cons _ y), IH, !filter_cons. repeat case_decide; try done.
  rewrite !Is_true_true in *. by rewrite HP in Hyx.
Qed.

(** Stability: elements the comparator does not separate keep their input order. *)
Lemma sort_slice_stable (P : A → bool) l :
  (∀ y z, P y = true → P z = true → lt y z = false) →
  filter P (sort_slice lt l) = filter P l.
Proof.
  intros HP. induction l as [|x l IH]; [done|]. simpl.
  rewrite insert_sorted_filter by done. rewrite !filter_cons, IH. done.
Qed.
End sort_facts.

(** [sort.Strings] and sorting of [int64] slices. *)
Definition str_lt : string → string → bool := ltc String.compare.
Definition Z_lt : Z → Z → bool := ltc Z.compare.
Definition sort_strings : list string → list string := sort_slice str_lt.
Definition sort_ints : list Z → list Z := sort_slice Z_lt.

#[export] Instance str_lt_sw : StrictWeak str_lt.
Proof. apply ltc_strict_weak, _. Qed.

#[export] Instance Z_lt_sw : StrictWeak Z_lt.
Proof. apply ltc_strict_weak, _. Qed.

Lemma str_lt_sep x y : str_lt x y = false → str_lt y x = false → x = y.
Proof.
  unfold str_lt, ltc. rewrite (String.compare_antisym y x).
  destruct (String.compare x y) eqn:H; try done. intros _ _. by apply String.compare_eq_iff.
Qed.

Lemma Z_lt_ltb x y : Z_lt x y = (x <? y)%Z.
Proof. unfold Z_lt, ltc. by rewrite Z.ltb_compare. Qed.

Lemma Z_lt_sep x y : Z_lt x y = false → Z_lt y x = false → x = y.
Proof. rewrite (Z_lt_ltb x), (Z_lt_ltb y). intros. bprop. lia. Qed.

Lemma sort_strings_perm_eq l l' : l' ≡ₚ l → sort_strings l' = sort_strings l.
Proof. apply sort_slice_perm_eq; eauto using str_lt_sep, str_lt_sw. Qed.

Lemma sort_ints_perm_eq l l' : l' ≡ₚ l → sort_ints l' = sort_ints l.
Proof. apply sort_slice_perm_eq; eauto using Z_lt_sep, Z_lt_sw. Qed.

(** ** Go maps *)

(** [for k, v := range m] visits every entry once in an order the runtime chooses.
    A model of such a loop takes that order from this class, so a theorem that holds
    for every instance holds for every order. *)
Class MapRange (K V : Type) `{Countable K} := {
  map_range : gmap K V → list (K * V);
  map_range_perm m : map_range m ≡ₚ map_to_list m }.

(** The order of stdpp's own enumeration, used to run the models. *)
Definition map_range_default (K V : Type) `{Countable K} : MapRange K V :=
  {| map_range := map_to_list; map_range_perm m := reflexivity (map_to_list m) |}.

(** The opposite order, to compare runs. *)
Definition map_range_reverse (K V : Type) `{Countable K} : MapRange K V :=
  {| map_range m := reverse (map_to_list m); map_range_perm m := reverse_Permutation (map_to_list m) |}.

(** [m[k]] for a map of booleans: a missing key reads as [false]. *)
Definition mget {K} `{Countable K} (m : gmap K bool) (k : K) : bool := default false (m !! k).

(** [m[k]] for a map of slices: a missing key reads as the nil slice, and
    [m[k] = append(m[k], v)]. *)
Definition mlist {K V} `{Countable K} (m : gmap K (list V)) (k : K) : list V := default [] (m !! k).
Definition mappend {K V} `{Countable K} (k : K) (v : V) (m : gmap K (list V)) : gmap K (list V) :=
  <[k := mlist m k ++ [v]]> m.

Section map_facts.
Context {K : Type} `{Countable K}.

Lemma elem_of_map_range {V} `{!MapRange K V} (m : gmap K V) k v :
  (k, v) ∈ map_range m ↔ m !! k = Some v.
Proof. by rewrite map_range_perm, elem_of_map_to_list. Qed.

Lemma NoDup_map_range {V} `{!MapRange K V} (m : gmap K V) : NoDup (map_range m).*1.
Proof. rewrite map_range_perm. apply NoDup_fst_map_to_list. Qed.

Lemma mget_insert (m : gmap K bool) k k' b :
  mget (<[k := b]> m) k' = if decide (k = k') then b else mget m k'.
Proof. unfold mget. rewrite lookup_insert. by case_decide. Qed.

Lemma mlist_mappend {V} (m : gmap K (list V)) k k' v :
  mlist (mappend k v m) k' = if decide (k = k') then mlist m k ++ [v] else mlist m k'.
Proof. unfold mlist at 1, mappend. rewrite lookup_insert. by case_decide. Qed.

Lemma mappend_nonempty {V} (m : gmap K (list V)) k v k' :
  (∀ j, m !! j ≠ Some []) → mappend k v m !! k' ≠ Some [].
Proof.
  intros Hm. unfold mappend. rewrite lookup_insert. case_decide; [|apply Hm].
  intros [= Hn]. by destruct (mlist m k).
Qed.

Lemma elem_of_mlist_mappend {V} (m : gmap K (list V)) k k' v v' :
  v' ∈ mlist (mappend k v m) k' ↔ v' ∈ mlist m k' ∨ (k = k' ∧ v' = v).
Proof. rewrite mlist_mappend. case_decide; rewrite ?elem_of_app, ?list_elem_of_singleton; intuition congruence. Qed.
End map_facts.

(** ** Folds *)

Section fold_facts.
Context {S A : Type}.

(** A fact each step of a loop adds to, and never removes, holds afterwards iff it
    held before or some step added it. *)
Lemma foldl_iff (P : S → Prop) (Q : A → Prop) (f : S → A → S) l s :
  (∀ t x, x ∈ l → P (f t x) ↔ P t ∨ Q x) →
  P (foldl f s l) ↔ P s ∨ ∃ x, x ∈ l ∧ Q x.
Proof.
  revert s; induction l as [|x l IH]; intros s Hf; simpl.
  - setoid_rewrite elem_of_nil. naive_solver.
  - rewrite IH, Hf by (try (intros; apply Hf); set_solver).
    setoid_rewrite elem_of_cons. naive_solver.
Qed.

(** A projection no step changes. *)
Lemma foldl_inv (P : S → Prop) (f : S → A → S) l s : P s → (∀ t x, x ∈ l → P t → P (f t x)) → P (foldl f s l).
Proof.
  revert s; induction l as [|x l IH]; intros s Hs Hf; [done|]. apply IH; [apply Hf; [left|done]|].
  intros t y Hy. apply Hf. by right.
Qed.

Lemma foldl_const {B} (h : S → B) (f : S → A → S) l s :
  (∀ t x, x ∈ l → h (f t x) = h t) → h (foldl f s l) = h s.
Proof.
  revert s; induction l as [|x l IH]; intros s Hf; simpl; [done|].
  rewrite IH; [apply Hf; by left|]. intros t y Hy. apply Hf. by right.
Qed.

(** A component of the state that evolves on its own. *)
Lemma foldl_proj {T} (h : S → T) (f : S → A → S) (f' : T → A → T) l s :
  (∀ t x, h (f t x) = f' (h t) x) → h (foldl f s l) = foldl f' (h s) l.
Proof. intros Hf. revert s; induction l as [|x l IH]; intros s; simpl; [done|]. by rewrite IH, Hf. Qed.
End fold_facts.

(** The index [m[f(x)] = x] built by a loop: the last element with the key wins. *)
Definition indexBy {K A} `{Countable K} (f : A → K) (l : list A) : gmap K A :=
  foldl (λ m x, <[f x := x]> m) ∅ l.

(** The groups [m[f(x)] = append(m[f(x)], x)] built by a loop. *)
Definition groupBy {K A} `{Countable K} (f : A → K) (l : list A) : gmap K (list A) :=
  foldl (λ m x, mappend (f x) x m) ∅ l.

Section index_facts.
Context {K A : Type} `{Countable K} (f : A → K).

Lemma indexBy_snoc l x : indexBy f (l ++ [x]) = <[f x := x]> (indexBy f l).
Proof. unfold indexBy. by rewrite foldl_app. Qed.

Lemma indexBy_Some l k x : indexBy f l !! k = Some x → x ∈ l ∧ f x = k.
Proof.
  induction l as [|y l IH] using rev_ind; [unfold indexBy; simpl; by rewrite lookup_empty|].
  rewrite indexBy_snoc, lookup_insert. case_decide; intros; simplify_eq; [set_solver|].
  destruct (IH ltac:(done)). set_solver.
Qed.

Lemma indexBy_last l k : indexBy f l !! k = last (filter (λ x, f x = k) l).
Proof.
  induction l as [|y l IH] using rev_ind; [done|].
  rewrite indexBy_snoc, lookup_insert, filter_app, filter_cons, filter_nil.
  case_decide; [by rewrite last_snoc|]. by rewrite app_nil_r.
Qed.

Lemma indexBy_is_Some l k : is_Some (indexBy f l !! k) ↔ ∃ x, x ∈ l ∧ f x = k.
Proof.
  induction l as [|y l IH] using rev_ind.
  - setoid_rewrite elem_of_nil. split; [by intros [? ?]|naive_solver].
  - rewrite indexBy_snoc, lookup_insert. setoid_rewrite elem_of_app.
    setoid_rewrite list_elem_of_singleton. case_decide; naive_solver.
Qed.

(** With distinct keys the index finds every element. *)
Lemma indexBy_NoDup l x : NoDup (f <$> l) → x ∈ l → indexBy f l !! f x = Some x.
Proof.
  induction l as [|y l IH] using rev_ind; [by intros _ ?%not_elem_of_nil|].
  rewrite fmap_app, indexBy_snoc. intros (Hl & Hd & _)%NoDup_app Hx.
  rewrite lookup_insert. apply elem_of_app in Hx as [Hx|Hx%list_elem_of_singleton]; [|subst].
  - case_decide as Heq; [|by apply IH]. destruct (Hd (f x)); [by apply list_elem_of_fmap_2|].
    rewrite <-Heq. set_solver.
  - by rewrite decide_True.
Qed.

Lemma groupBy_filter l k : mlist (groupBy f l) k = filter (λ x, f x = k) l.
Proof.
  induction l as [|y l IH] using rev_ind; [done|].
  unfold groupBy in *. rewrite foldl_app. simpl. rewrite mlist_mappend, filter_app, filter_cons.
  case_decide; subst; rewrite ?IH, ?filter_nil, ?app_nil_r; done.
Qed.
End index_facts.

(** Updating [m[k]] for every entry of another map, in any order. *)
Lemma range_update_lookup {K V W} `{Countable K, !MapRange K V}
    (f : K → V → option W → W) (b : gmap K V) (m : gmap K W) k :
  foldl (λ m '(k, v), <[k := f k v (m !! k)]> m) m (map_range b) !! k =
  match b !! k with Some v => Some (f k v (m !! k)) | None => m !! k end.
Proof.
  pose proof (NoDup_map_range b) as Hnd.
  assert (∀ l : list (K * V), NoDup l.*1 → ∀ m : gmap K W,
    foldl (λ m '(k, v), <[k := f k v (m !! k)]> m) m l !! k =
    match list_to_map (M:=gmap K V) l !! k with Some v => Some (f k v (m !! k)) | None => m !! k end) as Hg.
  { induction l as [|[k' v'] l IH]; intros Hl m'; simpl; [done|].
    apply NoDup_cons in Hl as [Hk' Hl]. rewrite IH by done.
    rewrite !lookup_insert. case_decide; subst; [|done].
    by rewrite not_elem_of_list_to_map_1. }
  rewrite Hg by done.
  by rewrite (list_to_map_proper (M:=gmap K) _ _ Hnd (map_range_perm b)), list_to_map_to_list.
Qed.

(** ** Strings *)

Definition byte_of (a : ascii) : Z := Z.of_nat (nat_of_ascii a).

Fixpoint bytes_of (s : string) : list ascii :=
  match s with
  | EmptyString => []
  | String a s => a :: bytes_of s
  end.

Fixpoint of_bytes (l : list ascii) : string :=
  match l with
  | [] => EmptyString
  | a :: l => String a (of_bytes l)
  end.

Lemma bytes_of_of_bytes l : bytes_of (of_bytes l) = l.
Proof. induction l; simpl; congruence. Qed.

Lemma of_bytes_bytes_of s : of_bytes (bytes_of s) = s.
Proof. induction s; simpl; congruence. Qed.

(** One white-space character of [unicode.IsSpace] at the front of a byte string, in
    its UTF-8 encoding; the result is the rest. *)
Definition drop_space (l : list ascii) : option (list ascii) :=
  match l with
  | a :: l1 =>
      let x := byte_of a in
      if (9 <=? x)%Z && (x <=? 13)%Z || (x =? 32)%Z then Some l1
      else match l1 with
      | b :: l2 =>
          let y := byte_of b in
          if (x =? 0xC2)%Z && ((y =? 0x85)%Z || (y =? 0xA0)%Z) then Some l2
          else match l2 with
          | c :: l3 =>
              let z := byte_of c in
              if (x =? 0xE1)%Z && (y =? 0x9A)%Z && (z =? 0x80)%Z
                 || (x =? 0xE2)%Z && (y =? 0x80)%Z &&
                    ((0x80 <=? z)%Z && (z <=? 0x8A)%Z || (z =? 0xA8)%Z || (z =? 0xA9)%Z || (z =? 0xAF)%Z)
                 || (x =? 0xE2)%Z && (y =? 0x81)%Z && (z =? 0x9F)%Z
                 || (x =? 0xE3)%Z && (y =? 0x80)%Z && (z =? 0x80)%Z
              then Some l3 else None
          | [] => None
          end
      | [] => None
      end
  | [] => None
  end.

Fixpoint trim_front (fuel : nat) (l : list ascii) : list ascii :=
  match fuel with
  | 0 => l
  | S fuel => match drop_space l with
              | Some l' => trim_front fuel l'
              | None => l
              end
  end.

(** The same at the back, on the reversed bytes. *)
Definition drop_space_back (l : list ascii) : option (list ascii) :=
  match l with
  | a :: l1 =>
      match drop_space [a] with
      | Some _ => Some l1
      | None =>
          match l1 with
          | b :: l2 =>
              match drop_space [b; a] with
              | Some [] => Some l2
              | _ => match l2 with
                     | c :: l3 => match drop_space [c; b; a] with
                                  | Some [] => Some l3
                                  | _ => None
                                  end
                     | [] => None
                     end
              end
          | [] => None
          end
      end
  | [] => None
  end.

Fixpoint trim_back (fuel : nat) (l : list ascii) : list ascii :=
  match fuel with
  | 0 => l
  | S fuel => match drop_space_back l with
              | Some l' => trim_back fuel l'
              | None => l
              end
  end.

(** [strings.TrimSpace]. *)
Definition TrimSpace (s : string) : string :=
  let l := trim_front (String.length s) (bytes_of s) in
  of_bytes (rev (trim_back (length l) (rev l))).

(** [strings.ToLower] and [strings.ToUpper] on ASCII letters and on the code points
    whose image is ASCII (U+0130 and U+212A, U+0131 and U+017F).  Every use in the
    modelled code compares the result with ASCII constants or ranges, for which the
    other code points do not matter. *)
Definition lower_byte (a : ascii) : ascii :=
  if (65 <=? byte_of a)%Z && (byte_of a <=? 90)%Z then ascii_of_nat (nat_of_ascii a + 32) else a.

Definition upper_byte (a : ascii) : ascii :=
  if (97 <=? byte_of a)%Z && (byte_of a <=? 122)%Z then ascii_of_nat (nat_of_ascii a - 32) else a.

Definition is2 (a b : ascii) (x y : Z) : bool := (byte_of a =? x)%Z && (byte_of b =? y)%Z.

Fixpoint lower_bytes (l : list ascii) : list ascii :=
  match l with
  | a :: l1 =>
      match l1 with
      | b :: l2 =>
          if is2 a b 0xC4 0xB0 then "i"%char :: lower_bytes l2
          else match l2 with
               | c :: l3 => if is2 a b 0xE2 0x84 && (byte_of c =? 0xAA)%Z
                            then "k"%char :: lower_bytes l3
                            else lower_byte a :: lower_bytes l1
               | [] => lower_byte a :: lower_bytes l1
               end
      | [] => [lower_byte a]
      end
  | [] => []
  end.

Fixpoint upper_bytes (l : list ascii) : list ascii :=
  match l with
  | a :: l1 =>
      match l1 with
      | b :: l2 => if is2 a b 0xC4 0xB1 then "I"%char :: upper_bytes l2
                   else if is2 a b 0xC5 0xBF then "S"%char :: upper_bytes l2
                   else upper_byte a :: upper_bytes l1
      | [] => [upper_byte a]
      end
  | [] => []
  end.

Definition ToLower (s : string) : string := of_bytes (lower_bytes (bytes_of s)).
Definition ToUpper (s : string) : string := of_bytes (upper_bytes (bytes_of s)).

(** *** [TrimSpace] is idempotent *)

Lemma drop_space_length l r : drop_space l = Some r → length r < length l.
Proof. destruct l as [|a [|b [|c l]]]; simpl; repeat case_match; intros; simplify_eq; simpl; lia. Qed.

Lemma drop_space_back_length l r : drop_space_back l = Some r → length r < length l.
Proof.
  unfold drop_space_back. destruct l as [|a [|b [|c l]]]; repeat case_match; intros; simplify_eq; simpl; lia.
Qed.

Lemma drop_space_prefix l x : drop_space (l ++ x) = None → drop_space l = None.
Proof.
  intros H. destruct (drop_space l) as [r|] eqn:Hd; [|done]. exfalso. revert H Hd.
  destruct l as [|a [|b [|c l]]]; simpl; repeat case_match; intros; simplify_eq.
Qed.

Lemma trim_front_done fuel l : length l ≤ fuel → drop_space (trim_front fuel l) = None.
Proof.
  revert l. induction fuel as [|fuel IH]; intros l Hl; simpl.
  - by destruct l; [|simpl in Hl; lia].
  - destruct (drop_space l) as [r|] eqn:Hd; [|done]. apply IH. apply drop_space_length in Hd. lia.
Qed.

Lemma trim_back_done fuel l : length l ≤ fuel → drop_space_back (trim_back fuel l) = None.
Proof.
  revert l. induction fuel as [|fuel IH]; intros l Hl; simpl.
  - by destruct l; [|simpl in Hl; lia].
  - destruct (drop_space_back l) as [r|] eqn:Hd; [|done]. apply IH. apply drop_space_back_length in Hd. lia.
Qed.

Lemma drop_space_back_suffix l r : drop_space_back l = Some r → ∃ x, l = x ++ r.
Proof.
  unfold drop_space_back. destruct l as [|a [|b [|c l]]]; repeat case_match; intros; simplify_eq;
    first [by exists [a]|by exists [a; b]|by exists [a; b; c]].
Qed.

Lemma trim_back_suffix fuel l : ∃ x, l = x ++ trim_back fuel l.
Proof.
  revert l. induction fuel as [|fuel IH]; intros l; simpl; [by exists []|].
  destruct (drop_space_back l) as [r|] eqn:Hd; [|by exists []].
  apply drop_space_back_suffix in Hd as [x ->]. destruct (IH r) as [y Hy]. exists (x ++ y).
  by rewrite <-app_assoc, <-Hy.
Qed.

Lemma trim_front_id fuel l : drop_space l = None → trim_front fuel l = l.
Proof. intros H. by destruct fuel; simpl; rewrite ?H. Qed.

Lemma trim_back_id fuel l : drop_space_back l = None → trim_back fuel l = l.
Proof. intros H. by destruct fuel; simpl; rewrite ?H. Qed.

Lemma TrimSpace_idem s : TrimSpace (TrimSpace s) = TrimSpace s.
Proof.
  unfold TrimSpace. set (l := trim_front (String.length s) (bytes_of s)).
  assert (∀ t, length (bytes_of t) = String.length t) as Hlen by (induction t; simpl; congruence).
  assert (drop_space l = None) as Hl by (apply trim_front_done; by rewrite Hlen).
  set (r := trim_back (length l) (rev l)).
  assert (drop_space_back r = None) as Hr by (apply trim_back_done; by rewrite length_rev).
  assert (drop_space (rev r) = None) as Hf.
  { destruct (trim_back_suffix (length l) (rev l)) as [x Hx]. fold r in Hx.
    apply (drop_space_prefix _ (rev x)). by rewrite <-rev_app_distr, <-Hx, rev_involutive. }
  by rewrite bytes_of_of_bytes, (trim_front_id _ _ Hf), rev_involutive, trim_back_id.
Qed.

Example TrimSpace_ex : TrimSpace "	 a b  " = "a b".
Proof. reflexivity. Qed.

Example ToLower_ex : ToLower "Selected" = "selected".
Proof. reflexivity. Qed.

(** [strconv.FormatInt(n, 10)]. *)
Definition FormatInt (n : Z) : string := pretty n.

Definition int64_min : Z := - 2 ^ 63.
Definition int64_max : Z := 2 ^ 63 - 1.

(** Two's complement wrap-around of Go's [int]. *)
Definition int_wrap (z : Z) : Z := ((z + 2 ^ 63) `mod` 2 ^ 64 - 2 ^ 63)%Z.

Lemma int_wrap_small z : (- 2 ^ 63 ≤ z < 2 ^ 63)%Z → int_wrap z = z.
Proof. intros. unfold int_wrap. rewrite Z.mod_small; lia. Qed.

(** The digits of [strconv.ParseInt(s, 10, 64)], most significant first. *)
Fixpoint parse_digits (l : list ascii) (acc : Z) : option Z :=
  match l with
  | [] => Some acc
  | a :: l =>
      let d := (byte_of a - 48)%Z in
      if (0 <=? d)%Z && (d <=? 9)%Z then parse_digits l (acc * 10 + d)%Z else None
  end.

(** [strconv.ParseInt(s, 10, 64)]: an optional sign, then at least one digit, and the
    value must fit 64 bits. *)
Definition ParseInt (s : string) : option Z :=
  let unsigned neg l :=
    match l with
    | [] => None
    | _ =>
        match parse_digits l 0 with
        | Some n =>
            let v := if neg : bool then (- n)%Z else n in
            if (int64_min <=? v)%Z && (v <=? int64_max)%Z then Some v else None
        | None => None
        end
    end in
  match bytes_of s with
  | a :: l => if ascii_dec a "+" then unsigned false l
              else if ascii_dec a "-" then unsigned true l
              else unsigned false (a :: l)
  | [] => None
  end.

Example ParseInt_ex : ParseInt "-42" = Some (-42)%Z ∧ ParseInt "4a" = None ∧
  ParseInt "9223372036854775808" = None ∧ ParseInt (FormatInt 120) = Some 120%Z.
Proof. repeat split. Qed.
