(* ===== verification/Model.v ===== *)
(** * Data model ([internal/model/types.go])

    Records for the structs the components share, with the fields the modelled code
    reads or copies, and the string constants of the enumerations.  Go's enumeration
    types are named string types, so any string can occur; they are strings here too.
    An instant is the number of nanoseconds since Go's zero time, so [IsZero] is
    [= 0] and [After] is [>]; a pointer is an [option]. *)

From S2P Require Import Prelude.

Local Open Scope Z_scope.

Record Server := {
  Server_ID : Z;
  Server_PortRangeStart : Z;
  Server_PortRangeEnd : Z;
  Server_InternalPortRangeStart : Z;
  Server_InternalPortRangeEnd : Z;
  Server_ListenIP : string;
  Server_ListenMode : string;
  Server_PublicIPv6 : string;
  Server_InterfaceIPv6 : string;
  Server_Name : string;
  Server_Status : string;
  Server_RegionMode : string;
  Server_RegionCode : string;
  Server_DetectedRegionCode : string;
  Server_EntryAddress : string;
  Server_PublicIPv4 : string;
  Server_EntryIPMode : string;
  Server_IPStack : string }.

Definition IPStackAuto : string := "auto".
Definition IPStackIPv4Only : string := "ipv4_only".
Definition IPStackIPv6Only : string := "ipv6_only".
Definition IPStackDualStack : string := "dual_stack".

Definition ServerOnline : string := "online".

Definition ListenModeDual : string := "dual".
Definition ListenModeIPv4Only : string := "ipv4_only".

Definition ForwardProtocolTCP : string := "tcp".
Definition ForwardProtocolUDP : string := "udp".
Definition ForwardProtocolTCPUDP : string := "tcp_udp".

Record PortForward := {
  PortForward_ID : Z;
  PortForward_Name : string;
  PortForward_SourceServerID : Z;
  PortForward_TargetServerID : Z;
  PortForward_ListenIP : string;
  PortForward_ListenPort : Z;
  PortForward_Protocol : string;
  PortForward_Enabled : bool }.

Definition TunnelTypeWireGuard : string := "wireguard".
Definition TunnelTypeSSH : string := "ssh".

Record Tunnel := {
  Tunnel_ID : Z;
  Tunnel_Name : string;
  Tunnel_SourceServerID : Z;
  Tunnel_TargetServerID : Z;
  Tunnel_Type : string;
  Tunnel_ListenPort : Z;
  Tunnel_ConfigJSON : string;
  Tunnel_Enabled : bool }.

Definition RoleAdmin : string := "admin".
Definition RoleOperator : string := "operator".
Definition RoleViewer : string := "viewer".
Definition RoleNone : string := "none".

Definition HasManagementAccess (role : string) : bool :=
  (role =? RoleAdmin)%string || (role =? RoleOperator)%string.

Record User := {
  User_ID : Z;
  User_Status : string;
  User_SpeedLimitMbps : Z;
  User_TrafficLimitBytes : Z;
  User_TrafficResetMode : string;
  User_TrafficResetDay : Z }.

Definition AssignableNodeProxyPath : string := "proxy_path".
Definition AssignableNodeExternalOutbound : string := "external_outbound".
Definition AssignableNodeInbound : string := "inbound".

Definition PlanNodeSourceExplicit : string := "explicit".
Definition PlanNodeSourceRule : string := "rule".

Record SubscriptionPlan := {
  SubscriptionPlan_ID : Z;
  SubscriptionPlan_Name : string;
  SubscriptionPlan_Enabled : bool;
  SubscriptionPlan_SpeedLimitMbps : Z;
  SubscriptionPlan_TrafficLimitBytes : Z;
  SubscriptionPlan_TrafficResetMode : string;
  SubscriptionPlan_TrafficResetDay : Z }.

Record SubscriptionPlanNode := {
  SubscriptionPlanNode_PlanID : Z;
  SubscriptionPlanNode_NodeType : string;
  SubscriptionPlanNode_NodeID : Z;
  SubscriptionPlanNode_DisplayGroup : string;
  SubscriptionPlanNode_SourceType : string;
  SubscriptionPlanNode_SourceRuleID : Z;
  SubscriptionPlanNode_SortPosition : option Z;
  SubscriptionPlanNode_Enabled : bool }.

Record PlanMembershipRule := {
  PlanMembershipRule_RuleID : Z;
  PlanMembershipRule_Kind : string;
  PlanMembershipRule_ScopeKey : string }.

Record PlanNodeExclusion := {
  PlanNodeExclusion_NodeType : string;
  PlanNodeExclusion_NodeID : Z }.

Record UserPlanBinding := {
  UserPlanBinding_UserID : Z;
  UserPlanBinding_PlanID : Z;
  UserPlanBinding_Enabled : bool;
  UserPlanBinding_StartsAt : option Z;
  UserPlanBinding_ExpiresAt : option Z;
  UserPlanBinding_TrafficResetAnchorAt : option Z;
  UserPlanBinding_TrafficResetHourAligned : bool }.

Definition UserNodeExceptionAllow : string := "allow".
Definition UserNodeExceptionDeny : string := "deny".
Definition UserNodeExceptionActive : string := "active".

Record UserNodeException := {
  UserNodeException_UserID : Z;
  UserNodeException_NodeType : string;
  UserNodeException_NodeID : Z;
  UserNodeException_Effect : string;
  UserNodeException_Status : string;
  UserNodeException_StartsAt : option Z;
  UserNodeException_ExpiresAt : option Z }.

Definition AccessChangeKindGrant : string := "grant".
Definition AccessChangeKindMigration : string := "migration".
Definition AccessChangeKindRevoke : string := "revoke".

Record Inbound := {
  Inbound_ID : Z;
  Inbound_ServerID : Z;
  Inbound_Name : string;
  Inbound_Protocol : string;
  Inbound_ListenIP : string;
  Inbound_Port : Z;
  Inbound_ConfigJSON : string;
  Inbound_Enabled : bool;
  Inbound_EntryIPMode : string;
  Inbound_ExternalIP : string }.

Definition ProtocolVLESS : string := "vless".
Definition ProtocolHY2 : string := "hy2".
Definition ProtocolAnyTLS : string := "anytls".
Definition ProtocolSS : string := "shadowsocks".
Definition ProtocolMieru : string := "mieru".
Definition ProtocolSocks : string := "socks".
Definition ProtocolSSH : string := "ssh".

Record ProxyPathNamePart := {
  NP_Kind : string;
  NP_Value : string;
  NP_ServerID : Z;
  NP_ExternalOutboundID : Z }.

Definition ProxyPathNameAuto : string := "auto".
Definition ProxyPathNameCustom : string := "custom".
Definition ProxyPathNameLiteral : string := "literal".
Definition ProxyPathNameServer : string := "server".
Definition ProxyPathNameExternalOutbound : string := "external_outbound".

Record ProxyPath := {
  ProxyPath_ID : Z;
  ProxyPath_Kind : string;
  ProxyPath_Name : string;
  ProxyPath_NameMode : string;
  ProxyPath_NameTemplate : list ProxyPathNamePart;
  ProxyPath_InboundID : Z;
  ProxyPath_ExitRegionMode : string;
  ProxyPath_ExitRegionCode : string;
  ProxyPath_DetectedExitRegionCode : string;
  ProxyPath_EffectiveExitRegionCode : string;
  ProxyPath_ExitRegionSource : string;
  ProxyPath_ExitRegionStatus : string;
  ProxyPath_ExitRegionError : string;
  ProxyPath_ExitRegionProbedAt : option Z;
  ProxyPath_Enabled : bool }.

Definition ProxyPathKindDirect : string := "direct".

Record ProxyPathStep := {
  Step_ID : Z;
  Step_PathID : Z;
  Step_Position : Z;
  Step_NodeType : string;
  Step_TransportMode : string;
  Step_ProcessingRole : bool;
  Step_ServerID : option Z;
  Step_InboundID : option Z;
  Step_ExternalOutboundID : option Z;
  Step_ConfigJSON : string }.

Definition ProxyPathStepServerInbound : string := "server_inbound".
Definition ProxyPathStepImported : string := "imported".
Definition ProxyPathStepWARP : string := "warp".
Definition ProxyPathStepVPNGate : string := "vpngate".
Definition ProxyPathTransportSingBox : string := "singbox".
Definition ProxyPathTransportPortForward : string := "port_forward".
Definition ProxyPathTransportTunnel : string := "tunnel".

Record ExternalOutbound := {
  External_ID : Z;
  External_ServerID : option Z;
  External_Name : string;
  External_Protocol : string;
  External_Scope : string;
  External_RegionMode : string;
  External_RegionCode : string;
  External_DetectedRegionCode : string;
  External_EffectiveRegionCode : string;
  External_RegionSource : string;
  External_RegionStatus : string;
  External_RegionError : string;
  External_RegionProbedAt : option Z;
  External_ExposeToUsers : bool;
  External_Enabled : bool;
  External_TargetAddress : string;
  External_TargetPort : Z;
  External_ConfigJSON : string }.

Definition ExternalOutboundScopeServer : string := "server".

Record ProxyPathEgressResult := {
  Egress_PathID : Z;
  Egress_TopologyFingerprint : string;
  Egress_Status : string;
  Egress_LastRegionCode : string;
  Egress_LastError : string;
  Egress_LastAttemptAt : option Z }.

Record ExternalEgressProbeTarget := {
  Target_ProbeID : string;
  Target_PathID : Z;
  Target_ExternalOutboundID : Z;
  Target_OwnerServerID : Z;
  Target_OutboundTag : string;
  Target_TopologyFingerprint : string }.

Record ProxyPathPortAllocation := {
  PA_ID : Z;
  PA_Kind : string;
  PA_ScopeKey : string;
  PA_ServerID : Z;
  PA_Pool : string;
  PA_ListenIP : string;
  PA_Network : string;
  PA_Generation : Z;
  PA_Ordinal : Z;
  PA_Port : Z;
  PA_State : string;
  PA_PolicyRevision : Z }.

Definition ProxyPathPortKindTunnelSSH : string := "tunnel_ssh_loopback".
Definition ProxyPathPortKindSnellUser : string := "snell_user_inbound".
Definition PortPoolPublic : string := "public".
Definition PortPoolInternal : string := "internal".
Definition PortAllocationStateActive : string := "active".
Definition PortAllocationStatePreparing : string := "preparing".
Definition PortAllocationStateRetiring : string := "retiring".
