(* ===== verification/NodeKeys.v ===== *)
(** * Node keys ([internal/core/assignable_nodes.go], [exit_regions.go])

    A client-visible node is named by the key ["<type>:<id>"]; keys are compared, used
    as map keys and parsed back.  Regions are two-letter codes. *)

From S2P Require Import Prelude.

Local Open Scope Z_scope.

Definition NodeKeyOf (nodeType : string) (nodeID : Z) : string :=
  (nodeType +:+ ":" +:+ FormatInt nodeID)%string.

(** [strings.SplitN(key, ":", 2)]: the parts before and after the first colon, or
    [None] when there is no colon. *)
Fixpoint splitColon (s : string) : option (string * string) :=
  match s with
  | EmptyString => None
  | String a s =>
      if ascii_dec a ":" then Some (EmptyString, s)
      else match splitColon s with
           | Some (l, r) => Some (String a l, r)
           | None => None
           end
  end.

Definition ParseNodeKey (key : string) : option (string * Z) :=
  match splitColon key with
  | None => None
  | Some (nodeType, rest) =>
      match ParseInt rest with
      | Some id => if id <=? 0 then None else Some (nodeType, id)
      | None => None
      end
  end.

Definition NormalizeRegionCode (code : string) : string :=
  let code := ToUpper (TrimSpace code) in
  match code with
  | String a (String b EmptyString) =>
      if (byte_of a <? 65) || (byte_of a >? 90) || (byte_of b <? 65) || (byte_of b >? 90)
      then EmptyString else code
  | _ => EmptyString
  end.

Example ParseNodeKey_ex : ParseNodeKey "inbound:12" = Some ("inbound"%string, 12) ∧
  ParseNodeKey "inbound:-3" = None ∧ NormalizeRegionCode " hk " = "HK"%string ∧
  NormalizeRegionCode "usa" = ""%string.
Proof. repeat split. Qed.

(** ** Decimal printing and parsing are inverse *)

Definition is_digit (a : ascii) : bool := (48 <=? byte_of a) && (byte_of a <=? 57).

Lemma byte_of_digit x : (x < 10)%N → byte_of (pretty_N_char x) = 48 + Z.of_N x.
Proof.
  intros Hx.
  assert (x = 0 ∨ x = 1 ∨ x = 2 ∨ x = 3 ∨ x = 4 ∨ x = 5 ∨ x = 6 ∨ x = 7 ∨ x = 8 ∨ x = 9)%N
    as Hc by lia.
  by repeat destruct Hc as [->|Hc]; subst.
Qed.

Lemma is_digit_char x : (x < 10)%N → is_digit (pretty_N_char x) = true.
Proof. intros Hx. unfold is_digit. rewrite byte_of_digit by done. lia. Qed.

Lemma parse_digits_go x s :
  parse_digits (bytes_of (pretty_N_go x s)) 0 = parse_digits (bytes_of s) (Z.of_N x).
Proof.
  revert s. induction (N.lt_wf_0 x) as [x _ IH]; intros s.
  destruct (decide (x = 0%N)) as [->|Hx]; [by rewrite pretty_N_go_0|].
  rewrite pretty_N_go_step by lia. rewrite IH by (apply N.div_lt; lia).
  assert (x `mod` 10 < 10)%N as Hm by (apply N.mod_lt; lia).
  cbn [bytes_of parse_digits]. rewrite byte_of_digit by done.
  pose proof (N.div_mod x 10 ltac:(done)) as Hdm.
  revert Hm Hdm. generalize (x `div` 10)%N, (x `mod` 10)%N. intros q r Hm Hdm.
  replace (48 + Z.of_N r - 48) with (Z.of_N r) by lia.
  rewrite (proj2 (Z.leb_le 0 _)), (proj2 (Z.leb_le _ 9)) by lia. simpl. f_equal. lia.
Qed.

Lemma digits_go x s :
  Forall (λ a, is_digit a = true) (bytes_of s) →
  Forall (λ a, is_digit a = true) (bytes_of (pretty_N_go x s)).
Proof.
  revert s. induction (N.lt_wf_0 x) as [x _ IH]; intros s Hs.
  destruct (decide (x = 0%N)) as [->|Hx]; [by rewrite pretty_N_go_0|].
  rewrite pretty_N_go_step by lia. apply IH; [apply N.div_lt; lia|].
  simpl. constructor; [|done]. apply is_digit_char, N.mod_lt. lia.
Qed.

Lemma FormatInt_pos n : 0 < n → FormatInt n = pretty_N_go (Z.to_N n) ""%string.
Proof. by destruct n. Qed.

Lemma FormatInt_digits n :
  Forall (λ a, is_digit a = true ∨ a = "-"%char) (bytes_of (FormatInt n)).
Proof.
  assert (∀ x, (0 < x)%N → Forall (λ a, is_digit a = true ∨ a = "-"%char)
                              (bytes_of (pretty_N_go x ""))) as Hd.
  { intros x _. eapply Forall_impl; [apply digits_go; constructor|]. naive_solver. }
  destruct n as [|p|p]; unfold FormatInt, pretty, pretty_Z.
  - repeat constructor.
  - unfold pretty, pretty_positive, pretty, pretty_N. case_decide; [done|]. by apply Hd.
  - simpl. constructor; [by right|]. unfold pretty, pretty_positive, pretty, pretty_N.
    case_decide; [done|]. by apply Hd.
Qed.

Lemma ParseInt_FormatInt n : 0 < n ≤ int64_max → ParseInt (FormatInt n) = Some n.
Proof.
  intros [Hn Hmax]. rewrite FormatInt_pos by done.
  pose proof (parse_digits_go (Z.to_N n) ""%string) as Hp.
  pose proof (digits_go (Z.to_N n) ""%string (Forall_nil_2 _)) as Hd.
  simpl in Hp. rewrite Z2N.id in Hp by lia. unfold ParseInt.
  destruct (bytes_of (pretty_N_go (Z.to_N n) "")) as [|a l]; [naive_solver lia|].
  apply Forall_cons in Hd as [Ha _].
  repeat destruct (ascii_dec _ _); subst; [done..|].
  rewrite Hp. replace (int64_min <=? n) with true by (unfold int64_min; lia).
  by replace (n <=? int64_max) with true by lia.
Qed.

(** ** Keys *)

Lemma splitColon_app t r :
  ":"%char ∉ bytes_of t → splitColon (t +:+ ":" +:+ r) = Some (t, r).
Proof.
  induction t as [|a t IH]; simpl; [done|]. intros Hn.
  destruct (ascii_dec a ":") as [->|Ha]; [by destruct Hn; left|].
  rewrite IH; [done|]. set_solver.
Qed.

(**  A node key round-trips: parsing the key of a node whose type has no colon and
    whose identifier is a positive 64-bit integer gives the type and identifier back. *)
Theorem ParseNodeKey_NodeKeyOf t id :
  ":"%char ∉ bytes_of t → 0 < id ≤ int64_max → ParseNodeKey (NodeKeyOf t id) = Some (t, id).
Proof.
  intros Ht Hid. unfold ParseNodeKey, NodeKeyOf.
  rewrite splitColon_app, ParseInt_FormatInt by done.
  by replace (id <=? 0) with false by lia.
Qed.

Lemma ParseNodeKey_NodeKeyOf_witness :
  ParseNodeKey (NodeKeyOf "proxy_path" 7) = Some ("proxy_path"%string, 7).
Proof.
  apply ParseNodeKey_NodeKeyOf; [|unfold int64_max; lia].
  apply (bool_decide_unpack _). vm_compute. exact I.
Defined.

Lemma app_colon_inj (l1 l2 r1 r2 : list ascii) :
  ":"%char ∉ r1 → ":"%char ∉ r2 → l1 ++ ":"%char :: r1 = l2 ++ ":"%char :: r2 → l1 = l2 ∧ r1 = r2.
Proof.
  intros H1 H2. revert l2. induction l1 as [|a l1 IH]; intros [|b l2]; simpl; intros Heq.
  - by injection Heq as ->.
  - injection Heq as _ ->. destruct H1. set_solver.
  - injection Heq as _ <-. destruct H2. set_solver.
  - injection Heq as -> Heq. by destruct (IH _ Heq) as [-> ->].
Qed.

Lemma bytes_of_app s t : bytes_of (s +:+ t) = bytes_of s ++ bytes_of t.
Proof. induction s as [|a s IH]; [done|].
  change (a :: bytes_of (s +:+ t) = a :: bytes_of s ++ bytes_of t). by rewrite IH. Qed.

Lemma bytes_of_inj s t : bytes_of s = bytes_of t → s = t.
Proof. intros H. by rewrite <-(of_bytes_bytes_of s), H, of_bytes_bytes_of. Qed.

Lemma FormatInt_no_colon n : ":"%char ∉ bytes_of (FormatInt n).
Proof.
  intros Hin. pose proof (FormatInt_digits n) as Hd. rewrite Forall_forall in Hd.
  by destruct (Hd _ Hin).
Qed.

(** Distinct nodes have distinct keys, whatever string the type is. *)
Lemma NodeKeyOf_inj t1 t2 id1 id2 : NodeKeyOf t1 id1 = NodeKeyOf t2 id2 → t1 = t2 ∧ id1 = id2.
Proof.
  unfold NodeKeyOf. intros Heq. apply (f_equal bytes_of) in Heq. rewrite !bytes_of_app in Heq.
  apply app_colon_inj in Heq as [?%bytes_of_inj Hid%bytes_of_inj]; [|apply FormatInt_no_colon..].
  split; [done|]. by apply (inj (pretty : Z → string)).
Qed.

(** ** Region codes *)

Definition is_upper (a : ascii) : Prop := 65 ≤ byte_of a ≤ 90.

Lemma NormalizeRegionCode_cases c :
  NormalizeRegionCode c = "" ∨
  ∃ a b, NormalizeRegionCode c = String a (String b "") ∧ is_upper a ∧ is_upper b.
Proof.
  unfold NormalizeRegionCode, is_upper. destruct (ToUpper (TrimSpace c)) as [|a [|b [|]]]; auto.
  rewrite !Z.gtb_ltb. case_match; [auto|]. right. exists a, b. bprop. split; [done|]. lia.
Qed.

Lemma drop_space_upper a l : is_upper a → drop_space (a :: l) = None.
Proof.
  unfold is_upper. intros H. unfold drop_space. cbv zeta.
  rewrite (proj2 (Z.leb_gt (byte_of a) 13)), (proj2 (Z.eqb_neq _ 32)) by lia.
  rewrite (proj2 (Z.eqb_neq _ 0xC2)), (proj2 (Z.eqb_neq _ 0xE1)), (proj2 (Z.eqb_neq _ 0xE2)),
    (proj2 (Z.eqb_neq _ 0xE3)) by lia.
  rewrite andb_false_r. simpl. by destruct l as [|b [|c l]].
Qed.

Lemma NormalizeRegionCode_id a b :
  is_upper a → is_upper b → NormalizeRegionCode (String a (String b "")) = String a (String b "").
Proof.
  intros Ha Hb. unfold NormalizeRegionCode, TrimSpace.
  assert (trim_front (String.length (String a (String b ""))) (bytes_of (String a (String b ""))) = [a; b]) as ->.
  { apply trim_front_id. by apply drop_space_upper. }
  assert (trim_back (length [a; b]) (rev [a; b]) = [b; a]) as ->.
  { apply trim_back_id. unfold drop_space_back. simpl rev.
    by rewrite (drop_space_upper b), (drop_space_upper a) by done. }
  unfold ToUpper. simpl rev. rewrite bytes_of_of_bytes. unfold is_upper in *.
  assert (∀ x, 65 ≤ byte_of x ≤ 90 → upper_byte x = x) as Hu.
  { intros x Hx. unfold upper_byte. by rewrite (proj2 (Z.leb_gt 97 _)) by lia. }
  unfold upper_bytes, is2. rewrite !(proj2 (Z.eqb_neq (byte_of a) _)) by lia. cbn [andb].
  rewrite !Hu by done. simpl. rewrite !Z.gtb_ltb, !(proj2 (Z.ltb_ge _ _)) by lia. done.
Qed.

Lemma NormalizeRegionCode_idem c : NormalizeRegionCode (NormalizeRegionCode c) = NormalizeRegionCode c.
Proof.
  destruct (NormalizeRegionCode_cases c) as [-> | (a & b & -> & Ha & Hb)]; [done|].
  by apply NormalizeRegionCode_id.
Qed.
