(* ===== verification/Encodings.v ===== *)
(** * Text encodings of bytes

    What the code uses of [encoding/hex], [encoding/base64] without padding, [strings.Split],
    [strings.Join] and [strconv.ParseUint], with their round trips. *)

From S2P Require Import Prelude.

Local Open Scope Z_scope.

(** ** Bytes *)

Definition byteZ (z : Z) : ascii := ascii_of_nat (Z.to_nat z).

Lemma byte_of_range a : 0 ≤ byte_of a < 256.
Proof. unfold byte_of. pose proof (nat_ascii_bounded a). lia. Qed.

Lemma byteZ_byte_of a : byteZ (byte_of a) = a.
Proof. unfold byteZ, byte_of. by rewrite Nat2Z.id, ascii_nat_embedding. Qed.

Lemma byte_of_byteZ z : 0 ≤ z < 256 → byte_of (byteZ z) = z.
Proof. intros. unfold byteZ, byte_of. rewrite nat_ascii_embedding; lia. Qed.

(** ** Hexadecimal *)

Definition hexDigits : list ascii := bytes_of "0123456789abcdef".

Definition hexDigit (n : Z) : ascii := default "0"%char (hexDigits !! Z.to_nat n).

Definition hexByte (a : ascii) : list ascii := [hexDigit (byte_of a / 16); hexDigit (byte_of a `mod` 16)].

(** [hex.EncodeToString] *)
Definition hexEncode (l : list ascii) : string := of_bytes (l ≫= hexByte).

(** ** Base64 without padding *)

Record alphabet := { alphabet_chars : list ascii }.

Definition StdEncoding : alphabet := {| alphabet_chars := bytes_of "ABCDEFGHIJKLMNOPQRSTUVWXYZabcdefghijklmnopqrstuvwxyz0123456789+/" |}.
Definition URLEncoding : alphabet := {| alphabet_chars := bytes_of "ABCDEFGHIJKLMNOPQRSTUVWXYZabcdefghijklmnopqrstuvwxyz0123456789-_" |}.

Fixpoint indexOf (c : ascii) (l : list ascii) (i : Z) : option Z :=
  match l with
  | [] => None
  | x :: rest => if bool_decide (x = c) then Some i else indexOf c rest (i + 1)
  end.

Definition encodeDigit (enc : alphabet) (d : Z) : ascii := default "A"%char (alphabet_chars enc !! Z.to_nat d).
Definition decodeDigit (enc : alphabet) (c : ascii) : option Z := indexOf c (alphabet_chars enc) 0.

(** Three bytes are four digits of six bits. *)
Fixpoint packDigits (l : list ascii) : list Z :=
  match l with
  | [] => []
  | [a] => [byte_of a / 4; byte_of a `mod` 4 * 16]
  | [a; b] => [byte_of a / 4; byte_of a `mod` 4 * 16 + byte_of b / 16; byte_of b `mod` 16 * 4]
  | a :: b :: c :: rest =>
      byte_of a / 4 :: byte_of a `mod` 4 * 16 + byte_of b / 16 :: byte_of b `mod` 16 * 4 + byte_of c / 64 :: byte_of c `mod` 64 :: packDigits rest
  end.

(** The bits of the last digit that no byte uses are ignored. *)
Fixpoint unpackDigits (l : list Z) : option (list ascii) :=
  match l with
  | [] => Some []
  | [_] => None
  | [d; e] => Some [byteZ (d * 4 + e / 16)]
  | [d; e; f] => Some [byteZ (d * 4 + e / 16); byteZ (e `mod` 16 * 16 + f / 4)]
  | d :: e :: f :: g :: rest =>
      (λ l, byteZ (d * 4 + e / 16) :: byteZ (e `mod` 16 * 16 + f / 4) :: byteZ (f `mod` 4 * 64 + g) :: l) <$> unpackDigits rest
  end.

Definition lineBreak (c : ascii) : bool := (byte_of c =? 10) || (byte_of c =? 13).

(** [EncodeToString] *)
Definition encode64 (enc : alphabet) (l : list ascii) : string := of_bytes (encodeDigit enc <$> packDigits l).

(** [DecodeString]: line breaks are skipped. *)
Definition decode64 (enc : alphabet) (s : string) : option (list ascii) :=
  mapM (decodeDigit enc) (List.filter (λ c, negb (lineBreak c)) (bytes_of s)) ≫= unpackDigits.

Example encode64_ex : encode64 URLEncoding (bytes_of "Hello?>") = "SGVsbG8_Pg"%string ∧ decode64 URLEncoding "SGVsbG8_Pg" = Some (bytes_of "Hello?>").
Proof. split; vm_compute; reflexivity. Qed.

(** *** Round trip *)

Definition wellFormed (enc : alphabet) : bool :=
  forallb (λ i, bool_decide (decodeDigit enc (encodeDigit enc (Z.of_nat i)) = Some (Z.of_nat i)) && negb (lineBreak (encodeDigit enc (Z.of_nat i)))) (seq 0 64).

Lemma digit_roundtrip enc d : wellFormed enc = true → 0 ≤ d < 64 →
  decodeDigit enc (encodeDigit enc d) = Some d ∧ lineBreak (encodeDigit enc d) = false.
Proof.
  unfold wellFormed. rewrite forallb_forall. intros H Hd. specialize (H (Z.to_nat d)). rewrite in_seq, Z2Nat.id in H by lia.
  destruct (andb_prop _ _ (H ltac:(lia))) as [?%bool_decide_eq_true ?%negb_true_iff]. done.
Qed.

Lemma wellFormed_Std : wellFormed StdEncoding = true.
Proof. vm_compute. reflexivity. Qed.

Lemma wellFormed_URL : wellFormed URLEncoding = true.
Proof. vm_compute. reflexivity. Qed.

#[export] Hint Resolve wellFormed_Std wellFormed_URL : core.

(** Induction over the quanta of three bytes. *)
Lemma quantum_ind {A} (P : list A → Prop) :
  P [] → (∀ a, P [a]) → (∀ a b, P [a; b]) → (∀ a b c l, P l → P (a :: b :: c :: l)) → ∀ l, P l.
Proof.
  intros H0 H1 H2 H3. fix IH 1. intros [|a [|b [|c l]]]; [apply H0|apply H1|apply H2|apply H3, IH].
Qed.

Local Ltac byte_bounds := repeat match goal with a : ascii |- _ => lazymatch goal with _ : 0 ≤ byte_of a < 256 |- _ => fail | _ => pose proof (byte_of_range a) end end.

Lemma packDigits_range l : Forall (λ d, 0 ≤ d < 64) (packDigits l).
Proof. induction l as [| | |a b c l IH] using quantum_ind; cbn [packDigits]; byte_bounds; repeat constructor; try done; Z.to_euclidean_division_equations; lia. Qed.

Lemma byteZ_eq z a : z = byte_of a → byteZ z = a.
Proof. intros ->. apply byteZ_byte_of. Qed.

Lemma unpack_pack l : unpackDigits (packDigits l) = Some l.
Proof.
  induction l as [| | |a b c l IH] using quantum_ind; cbn [packDigits unpackDigits]; [done|..]; byte_bounds; [| |rewrite IH; cbn [fmap option_fmap option_map]];
    f_equal; repeat (apply f_equal2); try done; apply byteZ_eq; Z.to_euclidean_division_equations; lia.
Qed.

Lemma decode_digits enc l : wellFormed enc = true → Forall (λ d, 0 ≤ d < 64) l →
  mapM (decodeDigit enc) (List.filter (λ c, negb (lineBreak c)) (encodeDigit enc <$> l)) = Some l.
Proof.
  intros Hw. induction 1 as [|d l Hd _ IH]; [done|]. cbn [fmap list_fmap List.filter]. destruct (digit_roundtrip enc d Hw Hd) as [H1 H2].
  rewrite H2. cbn. by rewrite H1, IH.
Qed.

Lemma decode64_encode64 enc l : wellFormed enc = true → decode64 enc (encode64 enc l) = Some l.
Proof.
  intros Hw. unfold decode64, encode64. rewrite bytes_of_of_bytes, decode_digits by (done || apply packDigits_range). cbn. apply unpack_pack.
Qed.

(** A line break anywhere does not change what a text decodes to. *)
Lemma decode64_lineBreak enc l c r : lineBreak c = true → decode64 enc (of_bytes (l ++ c :: r)) = decode64 enc (of_bytes (l ++ r)).
Proof. intros Hc. unfold decode64. rewrite !bytes_of_of_bytes, !List.filter_app. cbn [List.filter]. by rewrite Hc. Qed.

Lemma encode64_chars enc l c : c ∈ bytes_of (encode64 enc l) → ∃ d, 0 ≤ d < 64 ∧ c = encodeDigit enc d.
Proof.
  unfold encode64. rewrite bytes_of_of_bytes. intros (d & -> & Hd)%list_elem_of_fmap. exists d. split; [|done].
  pose proof (packDigits_range l) as H. rewrite Forall_forall in H. by apply H.
Qed.

(** A character outside of the alphabet does not occur in an encoding. *)
Lemma encode64_not enc l c : forallb (λ i, bool_decide (encodeDigit enc (Z.of_nat i) ≠ c)) (seq 0 64) = true → c ∉ bytes_of (encode64 enc l).
Proof.
  rewrite forallb_forall. intros H (d & Hd & ->)%encode64_chars. specialize (H (Z.to_nat d)). rewrite in_seq, Z2Nat.id in H by lia.
  assert (bool_decide (encodeDigit enc d ≠ encodeDigit enc d) = true) as Hb by (apply H; lia). by apply bool_decide_eq_true in Hb.
Qed.

(** ** Plain texts *)

(** A printable byte that is no white space. *)
Definition plain_byte (a : ascii) : Prop := 32 < byte_of a < 128.

Lemma drop_space_plain_byte l : Forall plain_byte l → drop_space l = None.
Proof.
  assert (∀ a z, plain_byte a → z ≤ 32 ∨ 128 ≤ z → (byte_of a =? z) = false) as Hne.
  { unfold plain_byte. intros a z Ha Hz. apply Z.eqb_neq. lia. }
  intros Hl. destruct Hl as [|a l Ha Hl]; [done|]. unfold drop_space.
  rewrite !(Hne a) by (done || lia). unfold plain_byte in Ha.
  replace (byte_of a <=? 13) with false by lia. rewrite andb_false_r. simpl.
  by destruct l as [|b [|c l]].
Qed.

Lemma drop_space_back_plain_byte l : Forall plain_byte l → drop_space_back l = None.
Proof.
  intros Hl. unfold drop_space_back. destruct l as [|a [|b [|c l]]]; [done|..];
    repeat match goal with H : Forall _ (_ :: _) |- _ => apply Forall_cons in H as [? ?] end;
    rewrite ?(drop_space_plain_byte [a]), ?(drop_space_plain_byte [b; a]), ?(drop_space_plain_byte [c; b; a]) by auto; done.
Qed.

Lemma TrimSpace_plain_byte s : Forall plain_byte (bytes_of s) → TrimSpace s = s.
Proof.
  intros Hs. unfold TrimSpace. rewrite trim_front_id by by apply drop_space_plain_byte.
  rewrite trim_back_id, rev_involutive, of_bytes_bytes_of; [done|].
  apply drop_space_back_plain_byte. rewrite Forall_forall in *. intros a Ha. apply Hs.
  apply list_elem_of_In. apply in_rev. by apply list_elem_of_In.
Qed.

(** ** Splitting and joining *)

(** [strings.Split(s, sep)] for a separator of one byte. *)
Fixpoint splitBytes (sep : ascii) (l : list ascii) : list (list ascii) :=
  match l with
  | [] => [[]]
  | c :: rest => if bool_decide (c = sep) then [] :: splitBytes sep rest
                 else match splitBytes sep rest with
                      | first :: others => (c :: first) :: others
                      | [] => [[c]]
                      end
  end.

Definition Split (s : string) (sep : ascii) : list string := of_bytes <$> splitBytes sep (bytes_of s).

(** [strings.Join] *)
Fixpoint joinBytes (sep : list ascii) (parts : list (list ascii)) : list ascii :=
  match parts with
  | [] => []
  | [l] => l
  | l :: rest => l ++ sep ++ joinBytes sep rest
  end.

Definition Join (parts : list string) (sep : string) : string := of_bytes (joinBytes (bytes_of sep) (bytes_of <$> parts)).

(** [strings.SplitN(s, sep, 2)] *)
Fixpoint cutBytes (sep : ascii) (l : list ascii) : option (list ascii * list ascii) :=
  match l with
  | [] => None
  | c :: rest => if bool_decide (c = sep) then Some ([], rest) else (λ '(a, b), (c :: a, b)) <$> cutBytes sep rest
  end.

Definition contains (c : ascii) (s : string) : bool := bool_decide (c ∈ bytes_of s).

Example split_ex : Split "a,,b" "," = ["a"; ""; "b"]%string ∧ Split "" "," = [""]%string ∧ Join ["a"; ""; "b"]%string "," = "a,,b"%string.
Proof. split_and!; reflexivity. Qed.

Lemma splitBytes_app sep l r : sep ∉ l → splitBytes sep (l ++ r) = match splitBytes sep r with first :: others => (l ++ first) :: others | [] => [l] end.
Proof.
  induction l as [|c l IH]; intros Hl; cbn [app splitBytes].
  - by destruct r as [|c r]; cbn; [|case_bool_decide; [done|case_match]].
  - apply not_elem_of_cons in Hl as [Hc Hl]. rewrite bool_decide_false by (by intros ->). rewrite IH by done.
    by destruct (splitBytes sep r).
Qed.

Lemma splitBytes_plain sep l : sep ∉ l → splitBytes sep l = [l].
Proof. intros H. rewrite <-(app_nil_r l) at 1. rewrite splitBytes_app by done. cbn. by rewrite app_nil_r. Qed.

Lemma splitBytes_sep sep l r : sep ∉ l → splitBytes sep (l ++ sep :: r) = l :: splitBytes sep r.
Proof. intros H. rewrite splitBytes_app by done. cbn [splitBytes]. by rewrite bool_decide_true, app_nil_r. Qed.

Lemma split_join sep parts : parts ≠ [] → Forall (λ l, sep ∉ l) parts → splitBytes sep (joinBytes [sep] parts) = parts.
Proof.
  intros Hne H. induction H as [|l parts Hl H IH]; [done|]. destruct parts as [|m parts]; [by apply splitBytes_plain|].
  change (joinBytes [sep] (l :: m :: parts)) with (l ++ sep :: joinBytes [sep] (m :: parts)). rewrite splitBytes_sep by done. by rewrite IH.
Qed.

(** Every text is the join of its parts, and no part contains the separator. *)
Lemma join_split sep l : joinBytes [sep] (splitBytes sep l) = l ∧ Forall (λ p, sep ∉ p) (splitBytes sep l) ∧ splitBytes sep l ≠ [].
Proof.
  induction l as [|c l IH]; cbn [splitBytes].
  { split_and!; [done| |done]. repeat constructor. apply not_elem_of_nil. }
  destruct IH as (Hj & Hf & Hne). destruct (splitBytes sep l) as [|first others]; [done|]. case_bool_decide as Hc.
  - subst c. split_and!; [|constructor; [apply not_elem_of_nil|done]|done]. by change (sep :: joinBytes [sep] (first :: others) = sep :: l); rewrite Hj.
  - apply Forall_cons in Hf as [? ?]. split_and!; [|constructor; [by apply not_elem_of_cons|done]|done]. destruct others; cbn in *; by rewrite <-Hj.
Qed.

(** The number of parts is one more than the number of separators. *)
Definition occurrences (c : ascii) (l : list ascii) : nat := length (List.filter (λ x, bool_decide (x = c)) l).

Lemma length_split sep l : length (splitBytes sep l) = S (occurrences sep l).
Proof.
  unfold occurrences. induction l as [|c l IH]; cbn [splitBytes List.filter]; [done|].
  case_bool_decide; cbn [length]; [by rewrite IH|]. destruct (splitBytes sep l); [done|]. exact IH.
Qed.

Lemma occurrences_app c l r : occurrences c (l ++ r) = (occurrences c l + occurrences c r)%nat.
Proof. unfold occurrences. by rewrite List.filter_app, length_app. Qed.

Lemma occurrences_none c l : c ∉ l ↔ occurrences c l = 0%nat.
Proof.
  unfold occurrences. induction l as [|x l IH]; cbn; [split; [done|intros _; apply not_elem_of_nil]|].
  rewrite not_elem_of_cons, IH. case_bool_decide; cbn; naive_solver.
Qed.

Lemma occurrences_join sep parts : parts ≠ [] →
  occurrences sep (joinBytes [sep] parts) = (length parts - 1 + sum_list (occurrences sep <$> parts))%nat.
Proof.
  induction parts as [|l parts IH]; [done|]. intros _. destruct parts as [|m parts]; [change (occurrences sep l = 1 - 1 + (occurrences sep l + 0))%nat; lia|].
  change (joinBytes [sep] (l :: m :: parts)) with (l ++ [sep] ++ joinBytes [sep] (m :: parts)). rewrite !occurrences_app, IH by done.
  assert (occurrences sep [sep] = 1%nat) as -> by (unfold occurrences; cbn; by rewrite bool_decide_true).
  change (sum_list (occurrences sep <$> l :: m :: parts)) with (occurrences sep l + sum_list (occurrences sep <$> m :: parts))%nat. cbn [length]. lia.
Qed.

(** ** Unsigned numbers *)

(** [strconv.ParseUint(s, 10, bits)] *)
Definition ParseUint (s : string) (bits : Z) : option Z :=
  match bytes_of s with
  | [] => None
  | l => match parse_digits l 0 with
         | Some n => if n <? 2 ^ bits then Some n else None
         | None => None
         end
  end.

Example ParseUint_ex : ParseUint "65536" 32 = Some 65536 ∧ ParseUint "256" 8 = None ∧ ParseUint "+1" 8 = None ∧ ParseUint "" 8 = None.
Proof. split_and!; reflexivity. Qed.
