(* ===== verification/Topology.v ===== *)
(** * Topology validation ([internal/core/topology.go])

    [ValidateTopologyDAG] collects an edge per enabled port forward and tunnel,
    rejects self loops and unknown servers, and then runs a depth-first search that
    fails on a back edge.  The search mutates the maps [visiting] and [visited]; here
    they are a state passed through [visit].  Recursion takes fuel, one unit more than
    the number of known servers, and the theorems show that it never runs out.  The
    outer loop ranges over a Go map, so its order is a [MapRange] instance. *)

From S2P Require Import Prelude Model.

Local Open Scope Z_scope.
Local Open Scope go_scope.

Record topologyEdge := { source : Z; target : Z }.

Inductive topologyError :=
| SourceTargetMustDiffer
| SourceServerMissing (id : Z)
| TargetServerMissing (id : Z)
| TopologyCycle
| OutOfFuel.

(** The two maps the search mutates; a key that is absent reads as [false]. *)
Record visitState := { visiting : gset Z; visited : gset Z }.

Section search.
Variable graph : gmap Z (list Z).

Fixpoint visit (fuel : nat) (node : Z) (st : visitState) : result topologyError visitState :=
  match fuel with
  | O => Err OutOfFuel
  | S fuel =>
      if bool_decide (node ∈ visiting st) then Err TopologyCycle
      else if bool_decide (node ∈ visited st) then Ok st
      else
        let* st := foldM (visit fuel) (mlist graph node)
                     {| visiting := {[node]} ∪ visiting st; visited := visited st |} in
        Ok {| visiting := visiting st ∖ {[node]}; visited := {[node]} ∪ visited st |}
  end.
End search.

Definition topologyEdges (forwards : list PortForward) (tunnels : list Tunnel) : list topologyEdge :=
  ((λ f, {| source := PortForward_SourceServerID f; target := PortForward_TargetServerID f |}) <$>
     List.filter (λ f, PortForward_Enabled f && negb (PortForward_TargetServerID f =? 0)) forwards) ++
  ((λ t, {| source := Tunnel_SourceServerID t; target := Tunnel_TargetServerID t |}) <$>
     List.filter Tunnel_Enabled tunnels).

Definition addEdge (known : gmap Z bool) (edge : topologyEdge) (graph : gmap Z (list Z))
    : result topologyError (gmap Z (list Z)) :=
  if source edge =? target edge then Err SourceTargetMustDiffer
  else if negb (mget known (source edge)) then Err (SourceServerMissing (source edge))
  else if negb (mget known (target edge)) then Err (TargetServerMissing (target edge))
  else Ok (mappend (source edge) (target edge) graph).

Definition knownServers (servers : list Server) : gmap Z bool :=
  foldl (λ m s, <[Server_ID s := true]> m) ∅ servers.

Definition ValidateTopologyDAG `{!MapRange Z bool} (servers : list Server)
    (forwards : list PortForward) (tunnels : list Tunnel) : result topologyError unit :=
  let known := knownServers servers in
  let* graph := foldM (addEdge known) (topologyEdges forwards tunnels) ∅ in
  let* _ := foldM (λ p, visit graph (S (size known)) p.1) (map_range known)
              {| visiting := ∅; visited := ∅ |} in
  Ok ().

(** ** Specification *)

Definition hasEdge (edges : list topologyEdge) (x y : Z) : Prop :=
  {| source := x; target := y |} ∈ edges.

(** Every edge joins two different known servers and no server reaches itself. *)
Definition ValidDAG (servers : list Server) (forwards : list PortForward) (tunnels : list Tunnel) : Prop :=
  let edges := topologyEdges forwards tunnels in
  (∀ x y, hasEdge edges x y →
     x ≠ y ∧ (∃ s, s ∈ servers ∧ Server_ID s = x) ∧ (∃ s, s ∈ servers ∧ Server_ID s = y)) ∧
  ∀ x, ¬ tc (hasEdge edges) x x.

(** ** The graph the edge loop builds *)

Definition succ (graph : gmap Z (list Z)) (x y : Z) : Prop := y ∈ mlist graph x.

Lemma mget_known servers id :
  mget (knownServers servers) id = true ↔ ∃ s, s ∈ servers ∧ Server_ID s = id.
Proof.
  unfold knownServers.
  assert (∀ m, mget (foldl (λ m s, <[Server_ID s := true]> m) m servers) id = true ↔
     mget m id = true ∨ ∃ s, s ∈ servers ∧ Server_ID s = id) as ->.
  { induction servers as [|s l IH]; intros m; simpl.
    - split; [by left|]. intros [|(?&[]%not_elem_of_nil&_)]; done.
    - rewrite IH, mget_insert. setoid_rewrite elem_of_cons. case_decide; naive_solver. }
  unfold mget. rewrite lookup_empty. naive_solver.
Qed.

Lemma known_lookup servers id b : knownServers servers !! id = Some b → b = true.
Proof.
  unfold knownServers.
  assert (∀ m : gmap Z bool, (m !! id = Some b → b = true) →
    foldl (λ m s, <[Server_ID s := true]> m) m servers !! id = Some b → b = true) as Hg.
  { induction servers as [|s l IH]; intros m Hm; simpl; [done|]. apply IH.
    rewrite lookup_insert. case_decide; naive_solver. }
  apply Hg. by rewrite lookup_empty.
Qed.

Lemma addEdge_ok known e g g' :
  addEdge known e g = Ok g' ↔
  source e ≠ target e ∧ mget known (source e) = true ∧ mget known (target e) = true ∧
  g' = mappend (source e) (target e) g.
Proof.
  unfold addEdge. destruct (Z.eqb_spec (source e) (target e)); [naive_solver|].
  destruct (mget known (source e)), (mget known (target e)); naive_solver.
Qed.

(** The loop succeeds exactly when every edge is admissible, and then the graph has
    exactly the edges given to it. *)
Lemma addEdges_ok known edges g g' :
  foldM (addEdge known) edges g = Ok g' →
  (∀ x y, hasEdge edges x y → x ≠ y ∧ mget known x = true ∧ mget known y = true) ∧
  ∀ x y, succ g' x y ↔ succ g x y ∨ hasEdge edges x y.
Proof.
  revert g; induction edges as [|[a b] edges IH]; intros g Hok; simpl in Hok.
  { simplify_eq. unfold hasEdge. split; [by intros ?? ?%not_elem_of_nil|].
    intros x y. rewrite elem_of_nil. tauto. }
  case_any; [|done]. apply addEdge_ok in Heqr as (Hne & Ha & Hb & ->); simpl in *.
  apply IH in Hok as [Hadm Hsucc]. unfold hasEdge. setoid_rewrite elem_of_cons. split.
  - intros x y [?|?]; [by simplify_eq|by apply Hadm].
  - intros x y. rewrite Hsucc. unfold succ. rewrite elem_of_mlist_mappend.
    unfold hasEdge. naive_solver.
Qed.

Lemma addEdges_total known edges g :
  (∀ x y, hasEdge edges x y → x ≠ y ∧ mget known x = true ∧ mget known y = true) →
  ∃ g', foldM (addEdge known) edges g = Ok g'.
Proof.
  revert g; induction edges as [|[a b] edges IH]; intros g Hadm; simpl; [eauto|].
  destruct (Hadm a b) as (Hne & Ha & Hb); [by left|].
  rewrite (proj2 (addEdge_ok known {| source := a; target := b |} g _)) by done.
  apply IH. intros x y Hxy. apply Hadm. by right.
Qed.

(** ** The search *)

Section search_facts.
Context (g : gmap Z (list Z)).

(** What holds of the state between calls: the visited set is closed under edges,
    free of cycles and disjoint from the nodes on the stack. *)
Record searchInv (st : visitState) : Prop := {
  si_closed x y : x ∈ visited st → succ g x y → y ∈ visited st;
  si_acyclic x : x ∈ visited st → ¬ tc (succ g) x x;
  si_disjoint : visited st ## visiting st }.

Lemma closed_tc st x y : searchInv st → x ∈ visited st → tc (succ g) x y → y ∈ visited st.
Proof. intros Hi Hx Hxy. induction Hxy; eauto using si_closed. Qed.

(** A successful call leaves the stack as it was, marks its node and keeps the
    invariant. *)
Definition visitPost (nodes : list Z) (st st' : visitState) : Prop :=
  searchInv st' ∧ visiting st' = visiting st ∧ visited st ⊆ visited st' ∧
  (∀ x, x ∈ nodes → x ∈ visited st').

Lemma visitPost_fold fuel nodes st st' :
  (∀ n t t', searchInv t → visit g fuel n t = Ok t' → visitPost [n] t t') →
  searchInv st → foldM (visit g fuel) nodes st = Ok st' → visitPost nodes st st'.
Proof.
  intros Hv. revert st; induction nodes as [|n nodes IH]; intros st Hinv Hok; simpl in Hok.
  { simplify_eq. split_and!; try done. by intros x ?%not_elem_of_nil. }
  case_any; [|done].
  destruct (Hv _ _ _ Hinv Heqr) as (Hi & Hvg & Hvd & Hn).
  destruct (IH _ Hi Hok) as (Hi' & Hvg' & Hvd' & Hn').
  split_and!; [done|congruence|set_solver|].
  intros x [->|?]%elem_of_cons; [|auto]. apply Hvd', Hn, list_elem_of_singleton. done.
Qed.

Lemma visit_sound fuel n st st' :
  searchInv st → visit g fuel n st = Ok st' → visitPost [n] st st'.
Proof.
  revert n st st'; induction fuel as [|fuel IH]; intros n st st' Hinv Hok; simpl in Hok; [done|].
  repeat case_bool_decide; [done| |].
  { simplify_eq. split_and!; try done. by intros x ->%list_elem_of_singleton. }
  unfold rbind in Hok. case_any; [|done]. injection Hok as <-.
  apply visitPost_fold in Heqr as (Hi & Hvg & Hvd & Hn); [|by apply IH|].
  2: { split; simpl; [apply Hinv|apply Hinv|]. pose proof (si_disjoint _ Hinv). set_solver. }
  assert (n ∉ visited a) as Hna by (pose proof (si_disjoint _ Hi); set_solver).
  split_and!; simpl; [|set_solver|set_solver|set_solver].
  split; simpl.
  - intros x y [->%elem_of_singleton|Hx]%elem_of_union Hxy; [set_solver|].
    apply elem_of_union_r. by eapply si_closed.
  - intros x [->%elem_of_singleton|Hx]%elem_of_union; [|by eapply si_acyclic].
    intros Hc. apply Hna. inversion Hc; subst; [auto|]. eapply closed_tc; eauto.
  - pose proof (si_disjoint _ Hi). set_solver.
Qed.

(** The stack is a chain of ancestors of the node being called, so a back edge is a
    cycle. *)
Lemma visits_cycle fuel nodes st :
  (∀ n t, searchInv t → (∀ x, x ∈ visiting t → tc (succ g) x n) →
     visit g fuel n t = Err TopologyCycle → ∃ x, tc (succ g) x x) →
  searchInv st → (∀ x n, x ∈ visiting st → n ∈ nodes → tc (succ g) x n) →
  foldM (visit g fuel) nodes st = Err TopologyCycle → ∃ x, tc (succ g) x x.
Proof.
  intros IH. revert st; induction nodes as [|n nodes IHn]; intros st Hinv Hanc Herr; [done|].
  simpl in Herr. case_any; simplify_eq.
  - apply visit_sound in Heqr as (Hi & Hvg & _ & _); [|done].
    apply (IHn a); [done| |done]. rewrite Hvg. set_solver.
  - eapply IH; [done| |done]. set_solver.
Qed.

Lemma searchInv_push n st :
  searchInv st → n ∉ visited st →
  searchInv {| visiting := {[n]} ∪ visiting st; visited := visited st |}.
Proof.
  intros Hinv Hn. split; simpl; try apply Hinv. pose proof (si_disjoint _ Hinv). set_solver.
Qed.

Lemma visit_cycle fuel n st :
  searchInv st → (∀ x, x ∈ visiting st → tc (succ g) x n) →
  visit g fuel n st = Err TopologyCycle → ∃ x, tc (succ g) x x.
Proof.
  revert n st; induction fuel as [|fuel IH]; intros n st Hinv Hanc Herr; simpl in Herr; [done|].
  repeat case_bool_decide; [eauto|done|].
  unfold rbind in Herr. destruct (foldM _ _ _) as [|e] eqn:Hf in Herr; [done|]. simplify_eq.
  eapply visits_cycle in Hf; [done|done|by apply searchInv_push|].
  simpl. intros x m [->%elem_of_singleton|Hx]%elem_of_union Hm; [by constructor|].
  eapply tc_r; eauto.
Qed.

(** Fuel for every node not on the stack is enough. *)
Lemma visits_fuel (known : gset Z) fuel nodes st :
  (∀ n t, n ∈ known → searchInv t → (size (known ∖ visiting t) < fuel)%nat →
     visit g fuel n t ≠ Err OutOfFuel) →
  (∀ n, n ∈ nodes → n ∈ known) → searchInv st → (size (known ∖ visiting st) < fuel)%nat →
  foldM (visit g fuel) nodes st ≠ Err OutOfFuel.
Proof.
  intros IH. revert st; induction nodes as [|n nodes IHn]; intros st Hk Hinv Hsz; simpl; [done|].
  case_any.
  - apply visit_sound in Heqr as (Hi & Hvg & _ & _); [|done].
    apply IHn; [set_solver|done|by rewrite Hvg].
  - intros [= ->]. eapply (IH n); [|done..]. set_solver.
Qed.

Lemma visit_fuel (known : gset Z) fuel n st :
  (∀ x y, succ g x y → y ∈ known) → n ∈ known →
  searchInv st → (size (known ∖ visiting st) < fuel)%nat →
  visit g fuel n st ≠ Err OutOfFuel.
Proof.
  intros Hk. revert n st; induction fuel as [|fuel IH]; intros n st Hn Hinv Hsz; simpl; [lia|].
  repeat case_bool_decide; [done|done|]. unfold rbind.
  destruct (foldM _ _ _) as [|e] eqn:Hf; [done|]. intros [= ->].
  eapply visits_fuel in Hf; [done|exact IH|by eauto|by apply searchInv_push|].
  simpl. apply Nat.lt_le_trans with (size (known ∖ visiting st)); [|lia].
  apply subset_size. set_solver.
Qed.

(** The search has no other failure. *)
Lemma visit_errors fuel n st e :
  visit g fuel n st = Err e → e = TopologyCycle ∨ e = OutOfFuel.
Proof.
  revert n st; induction fuel as [|fuel IH]; intros n st Herr; simpl in Herr; [naive_solver|].
  repeat case_bool_decide; [naive_solver..|].
  unfold rbind in Herr. destruct (foldM _ _ _) as [|e'] eqn:Hf in Herr; simplify_eq.
  apply foldM_err in Hf as (m & t & Hm). by eapply IH.
Qed.

(** The outer loop over all known nodes, each started with an empty stack. *)
Lemma visit_all_cases (known : gset Z) nodes :
  (∀ x y, succ g x y → x ∈ known ∧ y ∈ known) → (∀ n, n ∈ nodes ↔ n ∈ known) →
  match foldM (visit g (S (size known))) nodes {| visiting := ∅; visited := ∅ |} with
  | Ok _ => ∀ x, ¬ tc (succ g) x x
  | Err e => e = TopologyCycle ∧ ∃ x, tc (succ g) x x
  end.
Proof.
  intros Hk Hn. set (st := {| visiting := ∅; visited := ∅ |}).
  assert (searchInv st) as Hinv by (split; simpl; set_solver).
  destruct (foldM _ _ _) as [st'|e] eqn:Hf.
  - apply visitPost_fold in Hf as (Hi & _ & _ & Hvd); [|apply visit_sound|done].
    intros x Hx. apply (si_acyclic _ Hi x); [|done]. apply Hvd, Hn.
    assert (∃ y, succ g x y) as [y [? _]%Hk] by (inversion Hx; eauto). done.
  - assert (e = TopologyCycle) as ->.
    { pose proof (foldM_err _ _ _ _ Hf) as (m & t & Hm).
      destruct (visit_errors _ _ _ _ Hm) as [|Ho]; [done|]. exfalso. rewrite Ho in Hf. revert Hf.
      apply (visits_fuel known); [|by intros ? ?%Hn|done|].
      - intros. apply visit_fuel with known; [naive_solver|done..].
      - simpl. rewrite difference_empty_L. lia. }
    split; [done|]. eapply visits_cycle; [apply visit_cycle|done| |done]. set_solver.
Qed.
End search_facts.

(** ** Correctness *)

Section correctness.
Context `{!MapRange Z bool}.
Implicit Types (servers : list Server) (forwards : list PortForward) (tunnels : list Tunnel).

Lemma elem_of_known servers id :
  id ∈ (dom (knownServers servers) : gset Z) ↔ ∃ s, s ∈ servers ∧ Server_ID s = id.
Proof.
  rewrite <-mget_known, elem_of_dom. unfold mget. split.
  - intros [b Hb]. rewrite Hb. by eapply known_lookup.
  - destruct (_ !! id); [eauto|done].
Qed.

Lemma range_known servers n :
  n ∈ (map_range (knownServers servers)).*1 ↔ n ∈ (dom (knownServers servers) : gset Z).
Proof.
  rewrite elem_of_dom, list_elem_of_fmap. split.
  - intros ([k b] & -> & Hk%elem_of_map_range). by exists b.
  - intros [b Hb]. exists (n, b). by rewrite elem_of_map_range.
Qed.

(** What the whole validation computes, error by error. *)
Lemma ValidateTopologyDAG_cases servers forwards tunnels :
  let edges := topologyEdges forwards tunnels in
  let known := knownServers servers in
  match foldM (addEdge known) edges ∅ with
  | Err e => ValidateTopologyDAG servers forwards tunnels = Err e
  | Ok g =>
      (∀ x y, succ g x y ↔ hasEdge edges x y) ∧
      (ValidateTopologyDAG servers forwards tunnels = Ok () ∧ (∀ x, ¬ tc (succ g) x x) ∨
       ValidateTopologyDAG servers forwards tunnels = Err TopologyCycle ∧ ∃ x, tc (succ g) x x)
  end.
Proof.
  intros edges known. unfold ValidateTopologyDAG. fold edges known.
  destruct (foldM (addEdge known) edges ∅) as [g|e] eqn:Hg; simpl; [|done].
  apply addEdges_ok in Hg as [Hadm Hsucc].
  assert (∀ x y, succ g x y ↔ hasEdge edges x y) as Hse.
  { intros x y. rewrite Hsucc. unfold succ, mlist. rewrite lookup_empty; simpl.
    rewrite elem_of_nil. naive_solver. }
  split; [done|].
  assert (∀ x y, succ g x y → x ∈ (dom known : gset Z) ∧ y ∈ (dom known : gset Z)) as Hk.
  { intros x y [? Hk]%Hse%Hadm. unfold known. by rewrite !elem_of_known, <-!mget_known. }
  pose proof (visit_all_cases g (dom known) (map_range known).*1 Hk (range_known servers)) as Hv.
  rewrite foldM_fmap, size_dom in Hv.
  destruct (foldM _ (map_range known) _); simpl.
  - by left.
  - right. by destruct Hv as [-> ?].
Qed.

Lemma hasEdge_tc edges g :
  (∀ x y, succ g x y ↔ hasEdge edges x y) →
  ∀ x y, tc (succ g) x y ↔ tc (hasEdge edges) x y.
Proof.
  intros Hse x y. split; induction 1 as [? ? He|? ? ? He]; apply Hse in He;
    eauto using tc_once, tc_l.
Qed.

(** C21.  The validation accepts a topology exactly when every enabled edge joins two
    different known servers and no server reaches itself along the edges, whatever
    order the loop over the server map takes. *)
Theorem ValidateTopologyDAG_correct servers forwards tunnels :
  ValidateTopologyDAG servers forwards tunnels = Ok () ↔ ValidDAG servers forwards tunnels.
Proof.
  pose proof (ValidateTopologyDAG_cases servers forwards tunnels) as Hc. simpl in Hc.
  unfold ValidDAG. setoid_rewrite <-mget_known. destruct (foldM _ _ _) as [g|e] eqn:Hg.
  - apply addEdges_ok in Hg as [Hadm _]. destruct Hc as [Hse Hc].
    setoid_rewrite <-(hasEdge_tc _ _ Hse).
    destruct Hc as [[-> Hac]|[-> [x Hx]]]; split; try done. by intros [_ []%(λ H, H x)].
  - split; [congruence|]. intros [Hadm _].
    destruct (addEdges_total (knownServers servers) (topologyEdges forwards tunnels) ∅ Hadm). congruence.
Qed.

(** C40.  The depth-first search terminates: one unit of fuel more than the number of
    known servers is always enough. *)
Theorem ValidateTopologyDAG_terminates servers forwards tunnels :
  ValidateTopologyDAG servers forwards tunnels ≠ Err OutOfFuel.
Proof.
  pose proof (ValidateTopologyDAG_cases servers forwards tunnels) as Hc. simpl in Hc.
  destruct (foldM _ _ _) as [g|e] eqn:Hg.
  - destruct Hc as [_ [[-> _]|[-> _]]]; done.
  - rewrite Hc. intros [= ->]. apply foldM_err in Hg as (x & t & Hx).
    unfold addEdge in Hx. by repeat case_match.
Qed.
End correctness.

(** The result, error included, does not depend on the order in which Go ranges over
    the map of known servers. *)
Lemma ValidateTopologyDAG_order (r1 r2 : MapRange Z bool) servers forwards tunnels :
  @ValidateTopologyDAG r1 servers forwards tunnels = @ValidateTopologyDAG r2 servers forwards tunnels.
Proof.
  pose proof (@ValidateTopologyDAG_cases r1 servers forwards tunnels) as H1.
  pose proof (@ValidateTopologyDAG_cases r2 servers forwards tunnels) as H2. simpl in *.
  destruct (foldM _ _ _) as [g|e]; [|congruence].
  destruct H1 as [_ [[-> Ha]|[-> [x Hx]]]], H2 as [_ [[-> Ha']|[-> [y Hy]]]];
    solve [done | by destruct (Ha y) | by destruct (Ha' x)].
Qed.
