(* ===== verification/AccessSnapshot.v ===== *)
(** * Effective access ([internal/core/access_snapshot.go])

    [BuildEffectiveAccessSnapshot] is the single authorization source of the runtime:
    it resolves, for every active user, the set of nodes the user may use, with the
    fixed priority deny exception > allow exception > active plan > default deny, and
    projects the result into per-inbound, per-path, per-external and per-node user
    lists.  Two loops range over Go maps, so the model takes their orders from
    [MapRange] instances; [time.Now()] is the argument [clock]. *)

From S2P Require Import Prelude Model NodeKeys.

Local Open Scope Z_scope.
Local Open Scope go_scope.

Record EffectiveUserPolicy := {
  Policy_SpeedLimitMbps : Z;
  Policy_TrafficLimitBytes : Z;
  Policy_TrafficResetMode : string;
  Policy_TrafficResetDay : Z;
  Policy_TrafficResetAnchor : Z;
  Policy_TrafficResetHourAligned : bool;
  Policy_Source : string }.

Record EffectiveNodeGrant := {
  Grant_NodeType : string;
  Grant_NodeID : Z;
  Grant_DisplayGroup : string;
  Grant_Source : string;
  Grant_PlanID : Z;
  Grant_PlanName : string;
  Grant_Exception : option UserNodeException }.

Record EffectiveAccessSnapshot := {
  At : Z;
  Users : gmap Z User;
  UserNodes : gmap Z (gmap string EffectiveNodeGrant);
  InboundUsers : gmap Z (list Z);
  ProxyPathUsers : gmap Z (list Z);
  ExternalOutboundUsers : gmap Z (list Z);
  NodeUsers : gmap string (list Z);
  UserPolicies : gmap Z EffectiveUserPolicy;
  PathInboundIDs : gmap Z Z }.

Record EffectiveAccessInput := {
  In_Users : list User;
  In_Bindings : list UserPlanBinding;
  In_Plans : list SubscriptionPlan;
  In_PlanNodes : list SubscriptionPlanNode;
  In_Exceptions : list UserNodeException;
  In_Paths : list ProxyPath;
  In_Inbounds : list Inbound;
  In_Now : Z }.

(** ** The helpers *)

(** [t != nil && t.After(now)] and [t != nil && !t.After(now)]. *)
Definition startsLater (t : option Z) (now : Z) : bool :=
  match t with Some t => now <? t | None => false end.
Definition expired (t : option Z) (now : Z) : bool :=
  match t with Some t => t <=? now | None => false end.

Definition effectiveUserPolicy (user : User) (plan : option SubscriptionPlan)
    (binding : option UserPlanBinding) : EffectiveUserPolicy :=
  let '(speed, traffic, mode, day, anchor, source) :=
    match plan with
    | Some plan =>
        (SubscriptionPlan_SpeedLimitMbps plan, SubscriptionPlan_TrafficLimitBytes plan,
         SubscriptionPlan_TrafficResetMode plan, SubscriptionPlan_TrafficResetDay plan,
         default 0 (binding ≫= UserPlanBinding_TrafficResetAnchorAt), "plan"%string)
    | None => (0, 0, User_TrafficResetMode user, User_TrafficResetDay user, 0, "default"%string)
    end in
  let '(speed, source) :=
    if User_SpeedLimitMbps user =? 0 then (speed, source)
    else (User_SpeedLimitMbps user, "user_override"%string) in
  let '(traffic, mode, day, anchor, source) :=
    if User_TrafficLimitBytes user =? 0 then (traffic, mode, day, anchor, source)
    else (User_TrafficLimitBytes user, User_TrafficResetMode user, User_TrafficResetDay user, 0,
          "user_override"%string) in
  {| Policy_SpeedLimitMbps := if speed <? 0 then 0 else speed;
     Policy_TrafficLimitBytes := if traffic <? 0 then 0 else traffic;
     Policy_TrafficResetMode := if (TrimSpace mode =? "")%string then "monthly"%string else mode;
     Policy_TrafficResetDay := if day <=? 0 then 1 else day;
     Policy_TrafficResetAnchor := anchor;
     Policy_TrafficResetHourAligned :=
       match plan with Some _ => true | None => false end &&
       (User_TrafficLimitBytes user =? 0) &&
       match binding with Some b => UserPlanBinding_TrafficResetHourAligned b | None => false end;
     Policy_Source := source |}.

Fixpoint compactFrom (prev : Z) (ids : list Z) : list Z :=
  match ids with
  | [] => []
  | id :: ids => if id =? prev then compactFrom prev ids else id :: compactFrom id ids
  end.

Definition compactSortedUserIDs (ids : list Z) : list Z :=
  match ids with
  | [] => []
  | id :: rest => id :: compactFrom id rest
  end.

(** ** The indexes built before the user loop *)

Definition activeUsers (users : list User) : gmap Z User :=
  indexBy User_ID (List.filter (λ u, User_Status u =? "active")%string users).

Definition planNodesByPlan (planNodes : list SubscriptionPlanNode) : gmap Z (list SubscriptionPlanNode) :=
  groupBy SubscriptionPlanNode_PlanID (List.filter SubscriptionPlanNode_Enabled planNodes).

Definition bindingEffective (now : Z) (b : UserPlanBinding) : bool :=
  UserPlanBinding_Enabled b && negb (startsLater (UserPlanBinding_StartsAt b) now) &&
  negb (expired (UserPlanBinding_ExpiresAt b) now).

Definition bindingByUser (now : Z) (bindings : list UserPlanBinding) : gmap Z UserPlanBinding :=
  indexBy UserPlanBinding_UserID (List.filter (bindingEffective now) bindings).

Definition exceptionEffective (now : Z) (ex : UserNodeException) : bool :=
  ((UserNodeException_Status ex =? "")%string ||
   (UserNodeException_Status ex =? UserNodeExceptionActive)%string) &&
  negb (startsLater (UserNodeException_StartsAt ex) now) &&
  negb (expired (UserNodeException_ExpiresAt ex) now).

Definition exceptionsByUser (now : Z) (exceptions : list UserNodeException) : gmap Z (list UserNodeException) :=
  groupBy UserNodeException_UserID (List.filter (exceptionEffective now) exceptions).

(** ** One user's grants *)

Definition exceptionKey (ex : UserNodeException) : string :=
  NodeKeyOf (UserNodeException_NodeType ex) (UserNodeException_NodeID ex).

Definition planNodeKey (pn : SubscriptionPlanNode) : string :=
  NodeKeyOf (SubscriptionPlanNode_NodeType pn) (SubscriptionPlanNode_NodeID pn).

Definition planGrants (plan : option SubscriptionPlan) (planNodes : list SubscriptionPlanNode)
    : gmap string EffectiveNodeGrant :=
  match plan with
  | None => ∅
  | Some plan =>
      foldl (λ m pn, <[planNodeKey pn :=
        {| Grant_NodeType := SubscriptionPlanNode_NodeType pn;
           Grant_NodeID := SubscriptionPlanNode_NodeID pn;
           Grant_DisplayGroup := SubscriptionPlanNode_DisplayGroup pn;
           Grant_Source := "plan";
           Grant_PlanID := SubscriptionPlan_ID plan;
           Grant_PlanName := SubscriptionPlan_Name plan;
           Grant_Exception := None |}]> m) ∅ planNodes
  end.

(** The first pass over the exceptions: deny removes the grant and is remembered. *)
Definition denyPass (exceptions : list UserNodeException)
    (st : gmap string bool * gmap string EffectiveNodeGrant)
    : gmap string bool * gmap string EffectiveNodeGrant :=
  foldl (λ '(denied, grants) ex,
    if (UserNodeException_Effect ex =? UserNodeExceptionDeny)%string
    then (<[exceptionKey ex := true]> denied, delete (exceptionKey ex) grants)
    else (denied, grants)) st exceptions.

(** The second pass: an allow exception that is not denied replaces the grant. *)
Definition allowPass (denied : gmap string bool) (exceptions : list UserNodeException)
    (grants : gmap string EffectiveNodeGrant) : gmap string EffectiveNodeGrant :=
  foldl (λ grants ex,
    if negb (UserNodeException_Effect ex =? UserNodeExceptionAllow)%string then grants
    else if mget denied (exceptionKey ex) then grants
    else <[exceptionKey ex :=
      {| Grant_NodeType := UserNodeException_NodeType ex;
         Grant_NodeID := UserNodeException_NodeID ex;
         Grant_DisplayGroup := "";
         Grant_Source := "exception_allow";
         Grant_PlanID := 0;
         Grant_PlanName := "";
         Grant_Exception := Some ex |}]> grants) grants exceptions.

Definition userGrants (plan : option SubscriptionPlan) (planNodes : list SubscriptionPlanNode)
    (exceptions : list UserNodeException) : gmap string EffectiveNodeGrant :=
  let '(denied, grants) := denyPass exceptions (∅, planGrants plan planNodes) in
  allowPass denied exceptions grants.

(** ** The user loop *)

Record accessIndexes := {
  ix_now : Z;
  ix_plans : gmap Z SubscriptionPlan;
  ix_planNodes : gmap Z (list SubscriptionPlanNode);
  ix_bindings : gmap Z UserPlanBinding;
  ix_exceptions : gmap Z (list UserNodeException);
  ix_inbounds : gmap Z Inbound;
  ix_paths : gmap Z ProxyPath }.

Definition buildIndexes (now : Z) (input : EffectiveAccessInput) : accessIndexes :=
  {| ix_now := now;
     ix_plans := indexBy SubscriptionPlan_ID (In_Plans input);
     ix_planNodes := planNodesByPlan (In_PlanNodes input);
     ix_bindings := bindingByUser now (In_Bindings input);
     ix_exceptions := exceptionsByUser now (In_Exceptions input);
     ix_inbounds := indexBy Inbound_ID (In_Inbounds input);
     ix_paths := indexBy ProxyPath_ID (In_Paths input) |}.

Definition userPlan (ix : accessIndexes) (userID : Z) : option SubscriptionPlan :=
  match ix_bindings ix !! userID with
  | Some binding =>
      match ix_plans ix !! UserPlanBinding_PlanID binding with
      | Some p => if SubscriptionPlan_Enabled p then Some p else None
      | None => None
      end
  | None => None
  end.

Definition grantsOf (ix : accessIndexes) (userID : Z) : gmap string EffectiveNodeGrant :=
  let plan := userPlan ix userID in
  userGrants plan
    (match plan with Some p => mlist (ix_planNodes ix) (SubscriptionPlan_ID p) | None => [] end)
    (mlist (ix_exceptions ix) userID).

Definition enabledInbound (ix : accessIndexes) (id : Z) : bool :=
  match ix_inbounds ix !! id with Some i => Inbound_Enabled i | None => false end.

(** The body of [for key, grant := range grantByKey]. *)
Definition projectGrant (ix : accessIndexes) (userID : Z) (snap : EffectiveAccessSnapshot)
    (entry : string * EffectiveNodeGrant) : EffectiveAccessSnapshot :=
  let '(key, grant) := entry in
  let id := Grant_NodeID grant in
  let inboundUsers :=
    if (Grant_NodeType grant =? AssignableNodeProxyPath)%string then
      match ix_paths ix !! id with
      | Some path => if enabledInbound ix (ProxyPath_InboundID path)
                     then mappend (ProxyPath_InboundID path) userID (InboundUsers snap)
                     else InboundUsers snap
      | None => InboundUsers snap
      end
    else if (Grant_NodeType grant =? AssignableNodeInbound)%string then
      if enabledInbound ix id then mappend id userID (InboundUsers snap) else InboundUsers snap
    else InboundUsers snap in
  let proxyPathUsers :=
    if (Grant_NodeType grant =? AssignableNodeProxyPath)%string then
      match ix_paths ix !! id with
      | Some path => if enabledInbound ix (ProxyPath_InboundID path)
                     then mappend id userID (ProxyPathUsers snap)
                     else ProxyPathUsers snap
      | None => ProxyPathUsers snap
      end
    else ProxyPathUsers snap in
  let externalUsers :=
    if (Grant_NodeType grant =? AssignableNodeExternalOutbound)%string
    then mappend id userID (ExternalOutboundUsers snap) else ExternalOutboundUsers snap in
  {| At := At snap; Users := Users snap; UserNodes := UserNodes snap;
     InboundUsers := inboundUsers; ProxyPathUsers := proxyPathUsers;
     ExternalOutboundUsers := externalUsers;
     NodeUsers := mappend key userID (NodeUsers snap);
     UserPolicies := UserPolicies snap; PathInboundIDs := PathInboundIDs snap |}.

(** The body of [for userID := range active]; [user] is [snap.Users[userID]]. *)
Definition projectUser `{!MapRange string EffectiveNodeGrant} (ix : accessIndexes)
    (snap : EffectiveAccessSnapshot) (entry : Z * User) : EffectiveAccessSnapshot :=
  let '(userID, user) := entry in
  let grantByKey := grantsOf ix userID in
  foldl (projectGrant ix userID)
    {| At := At snap; Users := Users snap;
       UserNodes := if bool_decide (size grantByKey = 0%nat) then UserNodes snap
                    else <[userID := grantByKey]> (UserNodes snap);
       InboundUsers := InboundUsers snap; ProxyPathUsers := ProxyPathUsers snap;
       ExternalOutboundUsers := ExternalOutboundUsers snap; NodeUsers := NodeUsers snap;
       UserPolicies := <[userID := effectiveUserPolicy user (userPlan ix userID)
                                     (ix_bindings ix !! userID)]> (UserPolicies snap);
       PathInboundIDs := PathInboundIDs snap |}
    (map_range grantByKey).

(** The loops that sort every list and drop its duplicates. *)
Definition compactSnapshot (snap : EffectiveAccessSnapshot) : EffectiveAccessSnapshot :=
  let tidy ids := compactSortedUserIDs (sort_ints ids) in
  {| At := At snap; Users := Users snap; UserNodes := UserNodes snap;
     InboundUsers := tidy <$> InboundUsers snap;
     ProxyPathUsers := tidy <$> ProxyPathUsers snap;
     ExternalOutboundUsers := tidy <$> ExternalOutboundUsers snap;
     NodeUsers := tidy <$> NodeUsers snap;
     UserPolicies := UserPolicies snap; PathInboundIDs := PathInboundIDs snap |}.

Definition effectiveNow (clock : Z) (input : EffectiveAccessInput) : Z :=
  if In_Now input =? 0 then clock else In_Now input.

Definition pathInboundIDs (paths : list ProxyPath) : gmap Z Z :=
  ProxyPath_InboundID <$> indexBy ProxyPath_ID paths.

Definition BuildEffectiveAccessSnapshot
    `{!MapRange Z User, !MapRange string EffectiveNodeGrant}
    (clock : Z) (input : EffectiveAccessInput) : EffectiveAccessSnapshot :=
  let now := effectiveNow clock input in
  let ix := buildIndexes now input in
  let users := activeUsers (In_Users input) in
  compactSnapshot
    (foldl (projectUser ix)
      {| At := now; Users := users; UserNodes := ∅; InboundUsers := ∅; ProxyPathUsers := ∅;
         ExternalOutboundUsers := ∅; NodeUsers := ∅; UserPolicies := ∅;
         PathInboundIDs := pathInboundIDs (In_Paths input) |}
      (map_range users)).

(** ** The projection views *)

Record InboundUser := { InboundUser_InboundID : Z; InboundUser_UserID : Z; InboundUser_Enabled : bool }.
Record ProxyPathUser := {
  ProxyPathUser_ProxyPathID : Z; ProxyPathUser_InboundID : Z; ProxyPathUser_UserID : Z;
  ProxyPathUser_Enabled : bool }.

Definition inboundUserLt (a b : InboundUser) : bool :=
  if InboundUser_InboundID a =? InboundUser_InboundID b
  then InboundUser_UserID a <? InboundUser_UserID b
  else InboundUser_InboundID a <? InboundUser_InboundID b.

Definition InboundUserBindings `{!MapRange Z (list Z)} (s : EffectiveAccessSnapshot) : list InboundUser :=
  sort_slice inboundUserLt
    (map_range (InboundUsers s) ≫= λ '(inboundID, userIDs),
       (λ u, {| InboundUser_InboundID := inboundID; InboundUser_UserID := u; InboundUser_Enabled := true |})
         <$> userIDs).

Definition proxyPathUserLt (a b : ProxyPathUser) : bool :=
  if ProxyPathUser_ProxyPathID a =? ProxyPathUser_ProxyPathID b
  then ProxyPathUser_UserID a <? ProxyPathUser_UserID b
  else ProxyPathUser_ProxyPathID a <? ProxyPathUser_ProxyPathID b.

Definition ProxyPathUserBindings `{!MapRange Z (list Z)} (s : EffectiveAccessSnapshot) : list ProxyPathUser :=
  sort_slice proxyPathUserLt
    (map_range (ProxyPathUsers s) ≫= λ '(pathID, userIDs),
       (λ u, {| ProxyPathUser_ProxyPathID := pathID;
                ProxyPathUser_InboundID := default 0 (PathInboundIDs s !! pathID);
                ProxyPathUser_UserID := u; ProxyPathUser_Enabled := true |}) <$> userIDs).

(** [nil] when the user has no grants. *)
Definition EffectiveNodeKeys (s : EffectiveAccessSnapshot) (userID : Z) : option (gmap string bool) :=
  match UserNodes s !! userID with
  | Some grants => if bool_decide (size grants = 0%nat) then None else Some ((λ _, true) <$> grants)
  | None => None
  end.

Definition EffectiveNodeGroups (s : EffectiveAccessSnapshot) (userID : Z) : option (gmap string string) :=
  match UserNodes s !! userID with
  | Some grants =>
      Some (omap (λ g, if (TrimSpace (Grant_DisplayGroup g) =? "")%string then None
                       else Some (TrimSpace (Grant_DisplayGroup g))) grants)
  | None => None
  end.

(** ** Projections *)

Record AccessProjection := {
  Proj_InboundUsers : gmap Z (list Z);
  Proj_ProxyPathUsers : gmap Z (list Z);
  Proj_UserPolicies : gmap Z EffectiveUserPolicy;
  Proj_PathInboundIDs : gmap Z Z }.

Record AccessScope := {
  Scope_InboundUsers : gmap Z (list Z);
  Scope_ProxyPathUsers : gmap Z (list Z) }.

Record UserLimitPolicy := {
  Limit_SpeedLimitMbps : Z;
  Limit_TrafficLimitBytes : Z;
  Limit_TrafficResetMode : string;
  Limit_TrafficResetDay : Z;
  Limit_TrafficResetAnchor : Z;
  Limit_TrafficResetHourAligned : bool }.

Definition UserLimitPolicyMap (s : EffectiveAccessSnapshot) : gmap Z UserLimitPolicy :=
  (λ p, {| Limit_SpeedLimitMbps := Policy_SpeedLimitMbps p;
           Limit_TrafficLimitBytes := Policy_TrafficLimitBytes p;
           Limit_TrafficResetMode := Policy_TrafficResetMode p;
           Limit_TrafficResetDay := Policy_TrafficResetDay p;
           Limit_TrafficResetAnchor := Policy_TrafficResetAnchor p;
           Limit_TrafficResetHourAligned := Policy_TrafficResetHourAligned p |}) <$> UserPolicies s.

(** The clone functions copy every entry; a gmap is immutable, so the copy is the map. *)
Definition Projection (s : EffectiveAccessSnapshot) : AccessProjection :=
  {| Proj_InboundUsers := InboundUsers s; Proj_ProxyPathUsers := ProxyPathUsers s;
     Proj_UserPolicies := UserPolicies s; Proj_PathInboundIDs := PathInboundIDs s |}.

Definition ProjectionScope (p : AccessProjection) : AccessScope :=
  {| Scope_InboundUsers := Proj_InboundUsers p; Scope_ProxyPathUsers := Proj_ProxyPathUsers p |}.

Definition containsInt64 (ids : list Z) (id : Z) : bool := existsb (Z.eqb id) ids.

(** One direction of the closure [compare]: some user of [current] is not in [old]. *)
Definition addsUsers `{!MapRange Z (list Z)} (old current : gmap Z (list Z)) : bool :=
  existsb (λ '(node, users), existsb (λ u, negb (containsInt64 (mlist old node) u)) users)
    (map_range current).

Definition ClassifyProjectionChange `{!MapRange Z (list Z)} (before after : AccessProjection) : string :=
  let added := addsUsers (Proj_InboundUsers before) (Proj_InboundUsers after) ||
               addsUsers (Proj_ProxyPathUsers before) (Proj_ProxyPathUsers after) in
  let removed := addsUsers (Proj_InboundUsers after) (Proj_InboundUsers before) ||
                 addsUsers (Proj_ProxyPathUsers after) (Proj_ProxyPathUsers before) in
  if removed && added then AccessChangeKindMigration
  else if removed then AccessChangeKindRevoke
  else AccessChangeKindGrant.

Definition mergeUsers (old : option (list Z)) (ids : list Z) : list Z :=
  sort_ints (foldl (λ merged u, if containsInt64 merged u then merged else merged ++ [u])
    (default [] old) ids).

Definition mergeUserMap `{!MapRange Z (list Z)} (a b : gmap Z (list Z)) : gmap Z (list Z) :=
  foldl (λ m '(key, ids), <[key := mergeUsers (m !! key) ids]> m) a (map_range b).

Definition MergeProjections
    `{!MapRange Z (list Z), !MapRange Z EffectiveUserPolicy, !MapRange Z Z}
    (a b : AccessProjection) : AccessProjection :=
  {| Proj_InboundUsers := mergeUserMap (Proj_InboundUsers a) (Proj_InboundUsers b);
     Proj_ProxyPathUsers := mergeUserMap (Proj_ProxyPathUsers a) (Proj_ProxyPathUsers b);
     Proj_UserPolicies :=
       foldl (λ m '(k, p), <[k := p]> m)
         (foldl (λ m '(k, p), <[k := p]> m) ∅ (map_range (Proj_UserPolicies a)))
         (map_range (Proj_UserPolicies b));
     Proj_PathInboundIDs :=
       foldl (λ m '(k, i), <[k := i]> m) (Proj_PathInboundIDs a) (map_range (Proj_PathInboundIDs b)) |}.

Definition ProjectionSnapshot (clock : Z) (projection : AccessProjection) (users : list User)
    : EffectiveAccessSnapshot :=
  {| At := clock; Users := indexBy User_ID users; UserNodes := ∅;
     InboundUsers := Proj_InboundUsers projection;
     ProxyPathUsers := Proj_ProxyPathUsers projection;
     ExternalOutboundUsers := ∅; NodeUsers := ∅;
     UserPolicies := Proj_UserPolicies projection;
     PathInboundIDs := Proj_PathInboundIDs projection |}.

(** ** Specification of authorization *)

(** Which exceptions of the list have an effect on a key. *)
Definition excepts (effect : string) (exs : list UserNodeException) (k : string) : Prop :=
  ∃ ex, ex ∈ exs ∧ UserNodeException_Effect ex = effect ∧ exceptionKey ex = k.

(** An exception of the input that is in force for the user. *)
Definition inForce (effect : string) (input : EffectiveAccessInput) (now userID : Z) (k : string) : Prop :=
  ∃ ex, ex ∈ In_Exceptions input ∧ exceptionEffective now ex = true ∧
        UserNodeException_UserID ex = userID ∧ UserNodeException_Effect ex = effect ∧
        exceptionKey ex = k.

(** The plan the user is bound to: the last effective binding of the user, and the last
    plan row with its identifier. *)
Definition boundPlan (input : EffectiveAccessInput) (now userID : Z) (plan : SubscriptionPlan) : Prop :=
  ∃ b, last (filter (λ b, UserPlanBinding_UserID b = userID)
               (List.filter (bindingEffective now) (In_Bindings input))) = Some b ∧
       last (filter (λ p, SubscriptionPlan_ID p = UserPlanBinding_PlanID b) (In_Plans input)) = Some plan ∧
       SubscriptionPlan_Enabled plan = true.

Definition planned (input : EffectiveAccessInput) (now userID : Z) (k : string) : Prop :=
  ∃ plan pn, boundPlan input now userID plan ∧ pn ∈ In_PlanNodes input ∧
    SubscriptionPlanNode_Enabled pn = true ∧
    SubscriptionPlanNode_PlanID pn = SubscriptionPlan_ID plan ∧ planNodeKey pn = k.

Definition activeUser (input : EffectiveAccessInput) (userID : Z) : Prop :=
  ∃ u, u ∈ In_Users input ∧ User_ID u = userID ∧ User_Status u = "active"%string.

(** Deny exception > allow exception > active plan > default deny. *)
Definition authorized (input : EffectiveAccessInput) (now userID : Z) (k : string) : Prop :=
  activeUser input userID ∧
  ¬ inForce UserNodeExceptionDeny input now userID k ∧
  (inForce UserNodeExceptionAllow input now userID k ∨ planned input now userID k).

(** ** Facts about one user's grants *)

Lemma excepts_cons effect ex exs k :
  excepts effect (ex :: exs) k ↔
  (UserNodeException_Effect ex = effect ∧ exceptionKey ex = k) ∨ excepts effect exs k.
Proof. unfold excepts. setoid_rewrite elem_of_cons. naive_solver. Qed.

Lemma excepts_nil effect k : ¬ excepts effect [] k.
Proof. by intros (? & ?%not_elem_of_nil & _). Qed.

Lemma excepts_dec effect exs k : {excepts effect exs k} + {¬ excepts effect exs k}.
Proof.
  induction exs as [|ex exs IH]; [right; apply excepts_nil|].
  destruct (decide (UserNodeException_Effect ex = effect ∧ exceptionKey ex = k)) as [H|H];
    [left|destruct IH as [IH|IH]; [left|right]]; rewrite excepts_cons; tauto.
Defined.

Lemma denyPass_spec exs denied grants k :
  let '(d, g) := denyPass exs (denied, grants) in
  (mget d k = true ↔ mget denied k = true ∨ excepts UserNodeExceptionDeny exs k) ∧
  g !! k = if excepts_dec UserNodeExceptionDeny exs k then None else grants !! k.
Proof.
  revert denied grants. induction exs as [|ex exs IH]; intros denied grants.
  { simpl. pose proof (excepts_nil UserNodeExceptionDeny k). naive_solver. }
  unfold denyPass. simpl foldl. fold (denyPass exs).
  set (st := if (UserNodeException_Effect ex =? UserNodeExceptionDeny)%string then _ else _).
  destruct st as [d0 g0] eqn:Hst. specialize (IH d0 g0). fold (denyPass exs (d0, g0)).
  destruct (denyPass exs (d0, g0)) as [d g]. destruct IH as [-> ->].
  subst st. rewrite excepts_cons.
  destruct (excepts_dec _ exs k) as [He|He], (excepts_dec _ (ex :: exs) k) as [He'|He'];
    rewrite excepts_cons in He'; destruct (String.eqb_spec (UserNodeException_Effect ex) UserNodeExceptionDeny);
    simplify_eq; rewrite ?mget_insert, ?lookup_delete; repeat case_decide; try naive_solver.
Qed.

(** Every grant is filed under the key of its node. *)
Definition keyed (grants : gmap string EffectiveNodeGrant) : Prop :=
  ∀ k g, grants !! k = Some g → k = NodeKeyOf (Grant_NodeType g) (Grant_NodeID g).

Lemma keyed_insert grants k g :
  keyed grants → k = NodeKeyOf (Grant_NodeType g) (Grant_NodeID g) → keyed (<[k := g]> grants).
Proof. intros Hk Hg k' g'. rewrite lookup_insert. case_decide; naive_solver. Qed.

Lemma foldl_keyed {A} (f : gmap string EffectiveNodeGrant → A → gmap string EffectiveNodeGrant) l m :
  (∀ m x, keyed m → keyed (f m x)) → keyed m → keyed (foldl f m l).
Proof. intros Hf. revert m; induction l; simpl; auto. Qed.

Lemma planGrants_keyed plan pns : keyed (planGrants plan pns).
Proof.
  destruct plan; [|by intros ??]. apply foldl_keyed; [|by intros ??].
  intros. by apply keyed_insert.
Qed.

Lemma planGrants_dom plan pns k :
  is_Some (planGrants plan pns !! k) ↔ is_Some plan ∧ ∃ pn, pn ∈ pns ∧ planNodeKey pn = k.
Proof.
  destruct plan as [plan|]; simpl.
  2: { rewrite lookup_empty. split; [by intros [? ?]|by intros [[? ?] _]]. }
  rewrite (foldl_iff (λ m : gmap string EffectiveNodeGrant, is_Some (m !! k)) (λ pn, planNodeKey pn = k)).
  - rewrite lookup_empty. split; [intros [[? ?]|?]; [done|]; eauto|]. intros [_ ?]. by right.
  - intros m pn _. rewrite lookup_insert. case_decide; naive_solver.
Qed.

Lemma denyPass_keyed exs denied grants : keyed grants → keyed (denyPass exs (denied, grants)).2.
Proof.
  revert denied grants. induction exs as [|ex exs IH]; intros denied grants Hk; [done|].
  unfold denyPass. simpl foldl. case_match; apply IH; [|done].
  intros k g. rewrite lookup_delete. case_decide; [done|]. apply Hk.
Qed.

Lemma allowPass_keyed denied exs grants : keyed grants → keyed (allowPass denied exs grants).
Proof.
  apply foldl_keyed. intros m ex Hm. repeat case_match; try done. by apply keyed_insert.
Qed.

Lemma allowPass_dom denied exs grants k :
  is_Some (allowPass denied exs grants !! k) ↔
  is_Some (grants !! k) ∨ (excepts UserNodeExceptionAllow exs k ∧ mget denied k = false).
Proof.
  unfold allowPass.
  rewrite (foldl_iff (λ m : gmap string EffectiveNodeGrant, is_Some (m !! k))
    (λ ex, (UserNodeException_Effect ex = UserNodeExceptionAllow ∧ exceptionKey ex = k) ∧ mget denied k = false)).
  - unfold excepts. naive_solver.
  - intros m ex _.
    destruct (String.eqb_spec (UserNodeException_Effect ex) UserNodeExceptionAllow); simpl; [|naive_solver].
    destruct (mget denied (exceptionKey ex)) eqn:Hd.
    + split; [naive_solver|]. intros [?|[[_ <-] ?]]; [done|congruence].
    + rewrite lookup_insert. case_decide; naive_solver.
Qed.

(** The grants of one user: deny beats allow beats plan. *)
Lemma userGrants_dom plan pns exs k :
  is_Some (userGrants plan pns exs !! k) ↔
  ¬ excepts UserNodeExceptionDeny exs k ∧
  (excepts UserNodeExceptionAllow exs k ∨ is_Some plan ∧ ∃ pn, pn ∈ pns ∧ planNodeKey pn = k).
Proof.
  unfold userGrants. pose proof (denyPass_spec exs ∅ (planGrants plan pns) k) as Hd.
  destruct (denyPass _ _) as [d g]. destruct Hd as [Hd Hg].
  rewrite allowPass_dom, Hg, <-planGrants_dom.
  assert (mget (∅ : gmap string bool) k = false) as He by (unfold mget; by rewrite lookup_empty).
  rewrite He in Hd. destruct (excepts_dec UserNodeExceptionDeny exs k) as [Hx|Hx].
  - split; [|tauto]. intros [[? ?]|[_ ?]]; [done|]. destruct (mget d k) eqn:?; naive_solver.
  - destruct (mget d k) eqn:Hk; [naive_solver|]. naive_solver.
Qed.

Lemma userGrants_keyed plan pns exs : keyed (userGrants plan pns exs).
Proof.
  unfold userGrants. pose proof (denyPass_keyed exs ∅ _ (planGrants_keyed plan pns)) as Hk.
  destruct (denyPass _ _). by apply allowPass_keyed.
Qed.

(** ** The indexes agree with the input lists *)

Lemma exceptions_index now input userID effect k :
  excepts effect (mlist (exceptionsByUser now (In_Exceptions input)) userID) k ↔
  inForce effect input now userID k.
Proof.
  unfold excepts, inForce, exceptionsByUser. setoid_rewrite groupBy_filter.
  setoid_rewrite list_elem_of_filter. setoid_rewrite list_elem_of_In.
  setoid_rewrite filter_In. setoid_rewrite <-list_elem_of_In. naive_solver.
Qed.

Lemma plan_index now input userID plan :
  userPlan (buildIndexes now input) userID = Some plan ↔ boundPlan input now userID plan.
Proof.
  unfold userPlan, boundPlan. simpl. unfold bindingByUser. rewrite indexBy_last.
  destruct (last _) as [b|]; [|naive_solver]. rewrite indexBy_last.
  split.
  - intros Hp. exists b. repeat case_match; naive_solver.
  - intros (b' & [= <-] & -> & ->). done.
Qed.

Lemma planNodes_index now input plan pn :
  pn ∈ mlist (ix_planNodes (buildIndexes now input)) (SubscriptionPlan_ID plan) ↔
  pn ∈ In_PlanNodes input ∧ SubscriptionPlanNode_Enabled pn = true ∧
  SubscriptionPlanNode_PlanID pn = SubscriptionPlan_ID plan.
Proof.
  simpl. unfold planNodesByPlan. rewrite groupBy_filter, list_elem_of_filter, list_elem_of_In, filter_In.
  rewrite <-list_elem_of_In. naive_solver.
Qed.

Lemma activeUsers_index input userID :
  is_Some (activeUsers (In_Users input) !! userID) ↔ activeUser input userID.
Proof.
  unfold activeUsers, activeUser. rewrite indexBy_is_Some. setoid_rewrite list_elem_of_In.
  setoid_rewrite filter_In. setoid_rewrite <-list_elem_of_In. setoid_rewrite String.eqb_eq.
  naive_solver.
Qed.

Lemma grantsOf_dom now input userID k :
  is_Some (grantsOf (buildIndexes now input) userID !! k) ↔
  ¬ inForce UserNodeExceptionDeny input now userID k ∧
  (inForce UserNodeExceptionAllow input now userID k ∨ planned input now userID k).
Proof.
  unfold grantsOf. rewrite userGrants_dom. change (ix_exceptions _) with (exceptionsByUser now (In_Exceptions input)).
  rewrite !exceptions_index. unfold planned. setoid_rewrite <-plan_index.
  destruct (userPlan _ userID) as [plan|] eqn:Hp.
  - setoid_rewrite planNodes_index. naive_solver.
  - setoid_rewrite elem_of_nil. naive_solver.
Qed.

(** ** Sorting and compaction *)

Lemma elem_of_compactFrom x prev ids : x ∈ compactFrom prev ids ∨ x = prev ↔ x ∈ ids ∨ x = prev.
Proof.
  revert prev. induction ids as [|id ids IH]; intros prev; simpl; [done|].
  destruct (Z.eqb_spec id prev) as [->|Hne]; rewrite ?elem_of_cons; [rewrite IH; tauto|].
  specialize (IH id). tauto.
Qed.

Lemma elem_of_tidy x ids : x ∈ compactSortedUserIDs (sort_ints ids) ↔ x ∈ ids.
Proof.
  rewrite <-(elem_of_sort_slice Z_lt x ids). fold (sort_ints ids).
  destruct (sort_ints ids) as [|id rest]; simpl; [done|].
  rewrite !elem_of_cons. pose proof (elem_of_compactFrom x id rest). tauto.
Qed.

Lemma compactFrom_sorted prev ids :
  StronglySorted Z.le (prev :: ids) →
  StronglySorted Z.lt (prev :: compactFrom prev ids).
Proof.
  revert prev. induction ids as [|id ids IH]; intros prev Hs; simpl; [repeat constructor|].
  apply StronglySorted_cons in Hs as [Hp Hs]. apply Forall_cons in Hp as [Hid Hp].
  destruct (Z.eqb_spec id prev) as [->|Hne]; [by apply IH|].
  specialize (IH id Hs). constructor; [done|]. constructor; [lia|].
  apply StronglySorted_cons in IH as [IH _]. eapply Forall_impl; [done|]. simpl. lia.
Qed.

Lemma sort_ints_sorted ids : StronglySorted Z.le (sort_ints ids).
Proof.
  pose proof (sort_slice_sorted Z_lt ids) as Hs. fold (sort_ints ids) in Hs.
  induction Hs as [|x l Hl IH Hx]; constructor; [done|]. eapply Forall_impl; [done|].
  unfold le_of. intros y. rewrite Z_lt_ltb. intros. bprop. lia.
Qed.

Lemma tidy_sorted ids : StronglySorted Z.lt (compactSortedUserIDs (sort_ints ids)).
Proof.
  pose proof (sort_ints_sorted ids) as Hs. destruct (sort_ints ids) as [|id rest]; [constructor|].
  by apply compactFrom_sorted.
Qed.

(** A strictly increasing list is determined by its elements. *)
Lemma sorted_lt_ext (l1 l2 : list Z) :
  StronglySorted Z.lt l1 → StronglySorted Z.lt l2 → (∀ x, x ∈ l1 ↔ x ∈ l2) → l1 = l2.
Proof.
  intros H1 H2 Hin. apply (StronglySorted_unique_strong Z.lt); [lia|done..|].
  assert (∀ l, StronglySorted Z.lt l → NoDup l) as Hnd.
  { intros l Hl. induction Hl as [|x l Hl IH Hx]; constructor; [|done].
    intros Hx'. rewrite Forall_forall in Hx. specialize (Hx _ Hx'). lia. }
  apply NoDup_Permutation; auto.
Qed.

Lemma mlist_fmap {K} `{Countable K} (f : list Z → list Z) (m : gmap K (list Z)) k :
  f [] = [] → mlist (f <$> m) k = f (mlist m k).
Proof. intros Hf. unfold mlist. rewrite lookup_fmap. by destruct (m !! k). Qed.

(** ** The user loop *)

Section loop.
Context `{!MapRange Z User, !MapRange string EffectiveNodeGrant}.
Implicit Types (ix : accessIndexes) (s : EffectiveAccessSnapshot).

(** What one grant adds to the per-inbound and per-path lists. *)
Definition reachesInbound ix (g : EffectiveNodeGrant) (i : Z) : Prop :=
  enabledInbound ix i = true ∧
  (Grant_NodeType g = AssignableNodeInbound ∧ Grant_NodeID g = i ∨
   Grant_NodeType g = AssignableNodeProxyPath ∧
     ∃ path, ix_paths ix !! Grant_NodeID g = Some path ∧ ProxyPath_InboundID path = i).

Definition reachesPath ix (g : EffectiveNodeGrant) (p : Z) : Prop :=
  Grant_NodeType g = AssignableNodeProxyPath ∧ Grant_NodeID g = p ∧
  ∃ path, ix_paths ix !! p = Some path ∧ enabledInbound ix (ProxyPath_InboundID path) = true.

Definition reachesExternal (g : EffectiveNodeGrant) (e : Z) : Prop :=
  Grant_NodeType g = AssignableNodeExternalOutbound ∧ Grant_NodeID g = e.

(** A view of the snapshot as a user list per name, with what one grant adds. *)
Record view (N : Type) := {
  view_users : EffectiveAccessSnapshot → N → list Z;
  view_adds : accessIndexes → string → EffectiveNodeGrant → N → Prop;
  view_grant ix u s k g n x :
    x ∈ view_users (projectGrant ix u s (k, g)) n ↔
    x ∈ view_users s n ∨ (x = u ∧ view_adds ix k g n) }.

Ltac view_tac :=
  intros; simpl; unfold reachesInbound, reachesPath, reachesExternal;
  repeat match goal with
  | |- context [(?a =? ?b)%string] => destruct (String.eqb_spec a b) as [->|]; simpl
  end;
  try match goal with |- context [ix_paths ?ix !! ?i] => destruct (ix_paths ix !! i) eqn:? end;
  try match goal with |- context [if enabledInbound ?ix ?i then _ else _] =>
        destruct (enabledInbound ix i) eqn:? end;
  rewrite ?elem_of_mlist_mappend;
  first [naive_solver
        |split; [by left|]; intros [?|(?&?&[[? ?]|(?&?&?&?)])]; [done|..]; simplify_eq; congruence
        |split; [by left|]; intros [?|(?&?&<-&?&?&?)]; [done|]; simplify_eq; congruence].

Program Definition inboundView : view Z :=
  {| view_users s i := mlist (InboundUsers s) i; view_adds ix _ g i := reachesInbound ix g i |}.
Next Obligation. view_tac. Qed.

Program Definition pathView : view Z :=
  {| view_users s p := mlist (ProxyPathUsers s) p; view_adds ix _ g p := reachesPath ix g p |}.
Next Obligation. view_tac. Qed.

Program Definition externalView : view Z :=
  {| view_users s e := mlist (ExternalOutboundUsers s) e; view_adds _ _ g e := reachesExternal g e |}.
Next Obligation. view_tac. Qed.

Program Definition nodeView : view string :=
  {| view_users s k := mlist (NodeUsers s) k; view_adds _ k' _ k := k' = k |}.
Next Obligation. view_tac. Qed.

Lemma view_user {N} (v : view N) ix s u user n x :
  (∀ s t, InboundUsers s = InboundUsers t → ProxyPathUsers s = ProxyPathUsers t →
          ExternalOutboundUsers s = ExternalOutboundUsers t → NodeUsers s = NodeUsers t →
          view_users _ v s n = view_users _ v t n) →
  x ∈ view_users _ v (projectUser ix s (u, user)) n ↔
  x ∈ view_users _ v s n ∨
  (x = u ∧ ∃ k g, grantsOf ix u !! k = Some g ∧ view_adds _ v ix k g n).
Proof.
  intros Hv. simpl.
  rewrite (foldl_iff (λ s, x ∈ view_users _ v s n) (λ kg, x = u ∧ view_adds _ v ix kg.1 kg.2 n)).
  2: { intros t [k g] _. apply view_grant. }
  match goal with |- context [view_users _ v ?t n] => rewrite (Hv t s) by done end.
  f_equiv. split.
  - intros ([k g] & Hin%elem_of_map_range & -> & Ha). eauto.
  - intros (-> & k & g & Hg%elem_of_map_range & Ha). by exists (k, g).
Qed.

(** The user lists after the loop, before sorting. *)
Lemma view_loop {N} (v : view N) ix (users : gmap Z User) s n x :
  (∀ s t, InboundUsers s = InboundUsers t → ProxyPathUsers s = ProxyPathUsers t →
          ExternalOutboundUsers s = ExternalOutboundUsers t → NodeUsers s = NodeUsers t →
          view_users _ v s n = view_users _ v t n) →
  x ∈ view_users _ v (foldl (projectUser ix) s (map_range users)) n ↔
  x ∈ view_users _ v s n ∨
  (is_Some (users !! x) ∧ ∃ k g, grantsOf ix x !! k = Some g ∧ view_adds _ v ix k g n).
Proof.
  intros Hv.
  rewrite (foldl_iff (λ s, x ∈ view_users _ v s n)
    (λ e : Z * User, x = e.1 ∧ ∃ k g, grantsOf ix e.1 !! k = Some g ∧ view_adds _ v ix k g n)).
  2: { intros t [u user] _. by apply view_user. }
  f_equiv. split.
  - intros ([u user] & Hin%elem_of_map_range & -> & Ha). eauto.
  - intros [[user Hu%elem_of_map_range] Ha]. by exists (x, user).
Qed.

(** The grant maps after the loop. *)
Lemma UserNodes_loop ix (users : gmap Z User) s u :
  UserNodes (foldl (projectUser ix) s (map_range users)) !! u =
  if decide (is_Some (users !! u) ∧ size (grantsOf ix u) ≠ 0%nat)
  then Some (grantsOf ix u) else UserNodes s !! u.
Proof.
  set (f := λ (m : gmap Z (gmap string EffectiveNodeGrant)) (e : Z * User),
    if bool_decide (size (grantsOf ix e.1) = 0%nat) then m else <[e.1 := grantsOf ix e.1]> m).
  rewrite (foldl_proj UserNodes _ f).
  2: { intros t [u' user]. simpl. rewrite (foldl_const UserNodes); [done|]. by intros ? [] _. }
  assert (∀ l m, foldl f m l !! u =
    if decide (u ∈ l.*1 ∧ size (grantsOf ix u) ≠ 0%nat) then Some (grantsOf ix u) else m !! u) as ->.
  { induction l as [|[u' user] l IH]; intros m.
    - rewrite decide_False; [done|]. by intros [?%not_elem_of_nil _].
    - change (foldl f m ((u', user) :: l)) with (foldl f (f m (u', user)) l). rewrite IH, fmap_cons.
      unfold f at 1. cbn [fst]. case_bool_decide as Hs; rewrite ?lookup_insert;
        repeat case_decide; set_solver. }
  apply decide_ext. f_equiv. rewrite list_elem_of_fmap. split.
  - intros ([u' user] & -> & Hin%elem_of_map_range). eauto.
  - intros [user Hu%elem_of_map_range]. by exists (u, user).
Qed.

Lemma UserPolicies_loop ix (users : gmap Z User) s u :
  UserPolicies (foldl (projectUser ix) s (map_range users)) !! u =
  match users !! u with
  | Some user => Some (effectiveUserPolicy user (userPlan ix u) (ix_bindings ix !! u))
  | None => UserPolicies s !! u
  end.
Proof.
  rewrite (foldl_proj UserPolicies _ (λ m '(u, user),
    <[u := effectiveUserPolicy user (userPlan ix u) (ix_bindings ix !! u)]> m)).
  2: { intros t [u' user]. simpl. rewrite (foldl_const UserPolicies); [done|]. by intros ? [] _. }
  apply (range_update_lookup (λ u user _, effectiveUserPolicy user (userPlan ix u) (ix_bindings ix !! u))).
Qed.

Lemma const_loop {B} (h : EffectiveAccessSnapshot → B) ix users s :
  (∀ t u e, h (projectGrant ix u t e) = h t) →
  (∀ a b c d e f g i j g' j', h {| At := a; Users := b; UserNodes := g; InboundUsers := c;
     ProxyPathUsers := d; ExternalOutboundUsers := e; NodeUsers := f; UserPolicies := j;
     PathInboundIDs := i |} =
   h {| At := a; Users := b; UserNodes := g'; InboundUsers := c;
     ProxyPathUsers := d; ExternalOutboundUsers := e; NodeUsers := f; UserPolicies := j';
     PathInboundIDs := i |}) →
  h (foldl (projectUser ix) s users) = h s.
Proof.
  intros Hg Hr. apply foldl_const. intros t [u user] _. simpl.
  rewrite (foldl_const h) by auto. destruct t. apply Hr.
Qed.

(** No list of a view is empty: a name without users has no entry. *)
Definition listsOk s : Prop :=
  (∀ i, InboundUsers s !! i ≠ Some []) ∧ (∀ i, ProxyPathUsers s !! i ≠ Some []) ∧
  (∀ i, ExternalOutboundUsers s !! i ≠ Some []) ∧ (∀ k, NodeUsers s !! k ≠ Some []).

Lemma listsOk_loop ix users s : listsOk s → listsOk (foldl (projectUser ix) s users).
Proof.
  revert s; induction users as [|[u user] users IH]; intros s Hs; [done|]. apply IH. clear IH users.
  simpl. set (s0 := Build_EffectiveAccessSnapshot _ _ _ _ _ _ _ _ _).
  assert (listsOk s0) as Hs0 by exact Hs. clearbody s0. clear Hs s.
  revert s0 Hs0. induction (map_range (grantsOf ix u)) as [|[k g] l IH]; intros s Hs; [done|].
  apply IH. clear IH l. destruct Hs as (H1 & H2 & H3 & H4). unfold listsOk. simpl.
  split_and!; intros n; repeat case_match; auto using mappend_nonempty.
Qed.
End loop.

(** ** Theorems *)

Section theorems.
Context `{!MapRange Z User, !MapRange string EffectiveNodeGrant}.
Implicit Types (input : EffectiveAccessInput).

Lemma grants_node now input u t id :
  (∃ k g, grantsOf (buildIndexes now input) u !! k = Some g ∧ Grant_NodeType g = t ∧ Grant_NodeID g = id) ↔
  is_Some (grantsOf (buildIndexes now input) u !! NodeKeyOf t id).
Proof.
  split.
  - intros (k & g & Hg & <- & <-). rewrite <-(userGrants_keyed _ _ _ k g Hg). eauto.
  - intros [g Hg]. exists (NodeKeyOf t id), g. split; [done|].
    apply userGrants_keyed, NodeKeyOf_inj in Hg. naive_solver.
Qed.

Lemma authorized_grants now input u k :
  authorized input now u k ↔
  is_Some (activeUsers (In_Users input) !! u) ∧ is_Some (grantsOf (buildIndexes now input) u !! k).
Proof. unfold authorized. by rewrite grantsOf_dom, activeUsers_index. Qed.

(** C5.  Every consumer of the snapshot sees the same relation: a user holds a grant
    for a node key exactly when the account is active, no deny exception for the node
    is in force, and an allow exception is in force or the enabled plan of the user's
    effective binding contains the node. *)
Theorem snapshot_authorized clock input u k :
  is_Some (UserNodes (BuildEffectiveAccessSnapshot clock input) !! u ≫= lookup k) ↔
  authorized input (effectiveNow clock input) u k.
Proof.
  rewrite authorized_grants. unfold BuildEffectiveAccessSnapshot. simpl. rewrite UserNodes_loop.
  cbn [UserNodes]. rewrite lookup_empty. case_decide as Hd; simpl; [tauto|].
  split; [by intros [? ?]|]. intros [Ha Hk]. destruct Hd. split; [done|].
  intros He%map_size_empty_inv. by rewrite He, lookup_empty in Hk; destruct Hk.
Qed.

(** The four list views of the snapshot, before they are specialised. *)
Lemma snapshot_view {N} `{Countable N} (v : view N) clock input n u
    (field : EffectiveAccessSnapshot → gmap N (list Z)) :
  (∀ s, view_users _ v s n = mlist (field s) n) →
  (∀ s, field (compactSnapshot s) = (λ ids, compactSortedUserIDs (sort_ints ids)) <$> field s) →
  (∀ s t, InboundUsers s = InboundUsers t → ProxyPathUsers s = ProxyPathUsers t →
          ExternalOutboundUsers s = ExternalOutboundUsers t → NodeUsers s = NodeUsers t →
          field s = field t) →
  (∀ a b c d e, field {| At := a; Users := b; UserNodes := c; InboundUsers := ∅;
     ProxyPathUsers := ∅; ExternalOutboundUsers := ∅; NodeUsers := ∅; UserPolicies := d;
     PathInboundIDs := e |} = ∅) →
  let users := mlist (field (BuildEffectiveAccessSnapshot clock input)) n in
  let ix := buildIndexes (effectiveNow clock input) input in
  StronglySorted Z.lt users ∧
  (u ∈ users ↔ is_Some (activeUsers (In_Users input) !! u) ∧
     ∃ k g, grantsOf ix u !! k = Some g ∧ view_adds _ v ix k g n).
Proof.
  intros Hv Hc Hext Hempty users ix. unfold users, BuildEffectiveAccessSnapshot.
  rewrite Hc, mlist_fmap by done. split; [apply tidy_sorted|].
  rewrite elem_of_tidy, <-Hv, view_loop.
  - rewrite Hv, Hempty. unfold mlist at 1. rewrite lookup_empty. simpl.
    rewrite elem_of_nil. tauto.
  - intros. rewrite !Hv. f_equal. by apply Hext.
Qed.

(**  The per-node list of the snapshot holds exactly the authorized users, each
    once, in increasing order. *)
Theorem snapshot_node_users clock input u k :
  let users := mlist (NodeUsers (BuildEffectiveAccessSnapshot clock input)) k in
  StronglySorted Z.lt users ∧ (u ∈ users ↔ authorized input (effectiveNow clock input) u k).
Proof.
  pose proof (snapshot_view nodeView clock input k u NodeUsers) as [Hs Hu]; [done..|].
  split; [done|]. rewrite Hu, authorized_grants. unfold is_Some. simpl. naive_solver.
Qed.

(**  The per-inbound list holds exactly the users authorized for the inbound as a
    standalone node or for a proxy path that enters through it, provided the inbound
    exists and is enabled; each user appears once, in increasing order. *)
Theorem snapshot_inbound_users clock input u i :
  let now := effectiveNow clock input in
  let users := mlist (InboundUsers (BuildEffectiveAccessSnapshot clock input)) i in
  StronglySorted Z.lt users ∧
  (u ∈ users ↔
     (∃ inbound, indexBy Inbound_ID (In_Inbounds input) !! i = Some inbound ∧ Inbound_Enabled inbound = true) ∧
     (authorized input now u (NodeKeyOf AssignableNodeInbound i) ∨
      ∃ pid path, indexBy ProxyPath_ID (In_Paths input) !! pid = Some path ∧
        ProxyPath_InboundID path = i ∧ authorized input now u (NodeKeyOf AssignableNodeProxyPath pid))).
Proof.
  pose proof (snapshot_view inboundView clock input i u InboundUsers) as [Hs Hu];
    [done..|].
  split; [done|]. rewrite Hu. setoid_rewrite authorized_grants. setoid_rewrite <-grants_node.
  assert (enabledInbound (buildIndexes (effectiveNow clock input) input) i = true ↔
    ∃ inbound, indexBy Inbound_ID (In_Inbounds input) !! i = Some inbound ∧ Inbound_Enabled inbound = true) as <-.
  { unfold enabledInbound. simpl. destruct (_ !! i); naive_solver. }
  unfold inboundView, reachesInbound. simpl. naive_solver.
Qed.
End theorems.

(** ** Independence of the map iteration order *)

Lemma view_maps_eq {N} `{Countable N} (m1 m2 : gmap N (list Z)) :
  (∀ n, m1 !! n ≠ Some []) → (∀ n, m2 !! n ≠ Some []) →
  (∀ n x, x ∈ mlist m1 n ↔ x ∈ mlist m2 n) →
  (λ ids, compactSortedUserIDs (sort_ints ids)) <$> m1 =
  (λ ids, compactSortedUserIDs (sort_ints ids)) <$> m2.
Proof.
  intros H1 H2 Hin. apply map_eq. intros n. rewrite !lookup_fmap.
  specialize (H1 n). specialize (H2 n). specialize (Hin n). unfold mlist in Hin.
  destruct (m1 !! n) as [l1|], (m2 !! n) as [l2|]; simpl in *; [|exfalso..|done].
  - f_equal. apply sorted_lt_ext; [apply tidy_sorted..|]. intros x. by rewrite !elem_of_tidy.
  - destruct l1 as [|x l1]; [done|]. destruct (Hin x) as [Hx _]. by apply not_elem_of_nil in Hx; [|left].
  - destruct l2 as [|x l2]; [done|]. destruct (Hin x) as [_ Hx]. by apply not_elem_of_nil in Hx; [|left].
Qed.

Lemma view_order {N} (v : view N) (r1 r2 : MapRange Z User) (g1 g2 : MapRange string EffectiveNodeGrant)
    ix users s n x :
  (∀ s t, InboundUsers s = InboundUsers t → ProxyPathUsers s = ProxyPathUsers t →
          ExternalOutboundUsers s = ExternalOutboundUsers t → NodeUsers s = NodeUsers t →
          view_users _ v s n = view_users _ v t n) →
  x ∈ view_users _ v (foldl (@projectUser g1 ix) s (@map_range _ _ _ _ r1 users)) n ↔
  x ∈ view_users _ v (foldl (@projectUser g2 ix) s (@map_range _ _ _ _ r2 users)) n.
Proof. intros Hv. by rewrite !view_loop. Qed.

(**  The snapshot does not depend on the order in which Go iterates its maps of
    active users and of grants: two runs give the same snapshot. *)
Theorem snapshot_order_independent (r1 r2 : MapRange Z User)
    (g1 g2 : MapRange string EffectiveNodeGrant) clock input :
  @BuildEffectiveAccessSnapshot r1 g1 clock input = @BuildEffectiveAccessSnapshot r2 g2 clock input.
Proof.
  unfold BuildEffectiveAccessSnapshot.
  set (ix := buildIndexes _ _). set (users := activeUsers _).
  set (s0 := Build_EffectiveAccessSnapshot _ _ _ _ _ _ _ _ _).
  assert (listsOk s0) as Hs0 by (unfold listsOk; simpl; split_and!; by intros).
  set (s1 := foldl _ _ _). set (s2 := foldl _ _ (@map_range _ _ _ _ r2 _)).
  assert (listsOk s1) as (Hi1 & Hp1 & He1 & Hn1) by by apply listsOk_loop.
  assert (listsOk s2) as (Hi2 & Hp2 & He2 & Hn2) by by apply listsOk_loop.
  unfold compactSnapshot. f_equal.
  - unfold s1, s2. rewrite !(const_loop At); solve [done | by intros ?? []].
  - unfold s1, s2. rewrite !(const_loop Users); solve [done | by intros ?? []].
  - apply map_eq. intros u. unfold s1, s2. by rewrite !UserNodes_loop.
  - apply view_maps_eq; [done..|]. intros n x. apply (view_order inboundView r1 r2 g1 g2 ix users s0). simpl. congruence.
  - apply view_maps_eq; [done..|]. intros n x. apply (view_order pathView r1 r2 g1 g2 ix users s0). simpl. congruence.
  - apply view_maps_eq; [done..|]. intros n x. apply (view_order externalView r1 r2 g1 g2 ix users s0). simpl. congruence.
  - apply view_maps_eq; [done..|]. intros n x. apply (view_order nodeView r1 r2 g1 g2 ix users s0). simpl. congruence.
  - apply map_eq. intros u. unfold s1, s2. by rewrite !UserPolicies_loop.
  - unfold s1, s2. rewrite !(const_loop PathInboundIDs); solve [done | by intros ?? []].
Qed.

(** ** Projections: classification and merge *)

Lemma containsInt64_spec ids u : containsInt64 ids u = true ↔ u ∈ ids.
Proof.
  unfold containsInt64. rewrite existsb_exists, list_elem_of_In. setoid_rewrite Z.eqb_eq. naive_solver.
Qed.

Section projection_facts.
Context `{!MapRange Z (list Z), !MapRange Z EffectiveUserPolicy, !MapRange Z Z}.

Lemma addsUsers_spec old current :
  addsUsers old current = true ↔ ∃ n u, u ∈ mlist current n ∧ u ∉ mlist old n.
Proof.
  unfold addsUsers. rewrite existsb_exists. setoid_rewrite <-list_elem_of_In. split.
  - intros ([n us] & Hn%elem_of_map_range & (u & Hu & Hc)%existsb_exists).
    exists n, u. rewrite list_elem_of_In. unfold mlist at 1. rewrite Hn. split; [done|].
    rewrite <-containsInt64_spec. by destruct (containsInt64 _ _).
  - intros (n & u & Hu & Hn). unfold mlist in Hu.
    destruct (current !! n) as [us|] eqn:Hc; [|by apply not_elem_of_nil in Hu].
    exists (n, us). rewrite elem_of_map_range. split; [done|].
    apply existsb_exists. exists u. rewrite <-list_elem_of_In. split; [done|].
    rewrite <-containsInt64_spec in Hn. by destruct (containsInt64 _ _).
Qed.

(** Access relation of a projection, over inbounds and proxy paths. *)
Definition canReach (p : AccessProjection) (viaPath : bool) (n u : Z) : Prop :=
  u ∈ mlist (if viaPath then Proj_ProxyPathUsers p else Proj_InboundUsers p) n.

Definition gains (before after : AccessProjection) : Prop :=
  ∃ b n u, canReach after b n u ∧ ¬ canReach before b n u.

Lemma adds_gains before after :
  addsUsers (Proj_InboundUsers before) (Proj_InboundUsers after) ||
  addsUsers (Proj_ProxyPathUsers before) (Proj_ProxyPathUsers after) = true ↔ gains before after.
Proof.
  rewrite orb_true_iff, !addsUsers_spec. unfold gains, canReach. split.
  - intros [?|?]; [exists false|exists true]; done.
  - intros ([] & n & u & ?); [right|left]; eauto.
Qed.

(**  The kind of an access change is exact: "migration" when some user both gains
    and some user loses access to an inbound or path, "revoke" when access is only
    lost, and "grant" precisely when nobody loses access. *)
Theorem ClassifyProjectionChange_correct before after :
  (ClassifyProjectionChange before after = AccessChangeKindMigration ↔ gains after before ∧ gains before after) ∧
  (ClassifyProjectionChange before after = AccessChangeKindRevoke ↔ gains after before ∧ ¬ gains before after) ∧
  (ClassifyProjectionChange before after = AccessChangeKindGrant ↔ ¬ gains after before).
Proof.
  unfold ClassifyProjectionChange. rewrite <-(adds_gains before after), <-(adds_gains after before).
  set (added := addsUsers (Proj_InboundUsers before) _ || _).
  set (removed := addsUsers (Proj_InboundUsers after) _ || _).
  destruct added, removed; simpl; split_and!; split; try done; try (by intros [? ?]).
Qed.

Lemma merge_step_elem old ids x :
  x ∈ foldl (λ merged u, if containsInt64 merged u then merged else merged ++ [u]) old ids ↔
  x ∈ old ∨ x ∈ ids.
Proof.
  rewrite (foldl_iff (λ m, x ∈ m) (λ u, x = u)).
  - split; (intros [?|?]; [by left|right]); naive_solver.
  - intros m u _. destruct (containsInt64 m u) eqn:Hc.
    + apply containsInt64_spec in Hc. naive_solver.
    + rewrite elem_of_app, list_elem_of_singleton. done.
Qed.

Lemma merge_step_NoDup old ids :
  NoDup old → NoDup (foldl (λ merged u, if containsInt64 merged u then merged else merged ++ [u]) old ids).
Proof.
  revert old; induction ids as [|u ids IH]; intros old Hold; simpl; [done|]. apply IH.
  destruct (containsInt64 old u) eqn:Hc; [done|].
  apply NoDup_app. split_and!; [done| |apply NoDup_singleton].
  intros x Hx ->%list_elem_of_singleton. apply containsInt64_spec in Hx. congruence.
Qed.

Lemma mergeUserMap_elem a b n x : x ∈ mlist (mergeUserMap a b) n ↔ x ∈ mlist a n ∨ x ∈ mlist b n.
Proof.
  unfold mergeUserMap, mlist at 1. rewrite (range_update_lookup (λ _ ids old, mergeUsers old ids)).
  unfold mlist. destruct (b !! n) as [ids|]; simpl; [|rewrite elem_of_nil; tauto].
  unfold mergeUsers, sort_ints. rewrite elem_of_sort_slice. apply merge_step_elem.
Qed.

(**  The prepare projection is the union of the two sides: during a change a user
    reaches a node exactly when the old or the new state lets it; the limits and the
    path entry of the new side win. *)
Theorem MergeProjections_union a b :
  (∀ p n u, canReach (MergeProjections a b) p n u ↔ canReach a p n u ∨ canReach b p n u) ∧
  (∀ u, Proj_UserPolicies (MergeProjections a b) !! u =
        match Proj_UserPolicies b !! u with Some q => Some q | None => Proj_UserPolicies a !! u end) ∧
  (∀ p, Proj_PathInboundIDs (MergeProjections a b) !! p =
        match Proj_PathInboundIDs b !! p with Some i => Some i | None => Proj_PathInboundIDs a !! p end).
Proof.
  split_and!.
  - intros [] n u; apply mergeUserMap_elem.
  - intros u. simpl. rewrite (range_update_lookup (λ _ q _, q)). case_match; [done|].
    rewrite (range_update_lookup (λ _ q _, q)). by case_match.
  - intros p. simpl. rewrite (range_update_lookup (λ _ q _, q)). by case_match.
Qed.
End projection_facts.

(** ** The standalone node set ([internal/core/assignable_nodes.go]) *)

Definition nodeSetPlanKeys (plan : option SubscriptionPlan) (planNodes : list SubscriptionPlanNode)
    : gmap string bool :=
  match plan with
  | Some p => if SubscriptionPlan_Enabled p then
                foldl (λ m pn, if SubscriptionPlanNode_Enabled pn then <[planNodeKey pn := true]> m else m)
                  ∅ planNodes
              else ∅
  | None => ∅
  end.

Definition nodeSetDenied (exceptions : list UserNodeException) (now : Z) : gmap string bool :=
  foldl (λ m ex, if expired (UserNodeException_ExpiresAt ex) now then m
                 else if (UserNodeException_Effect ex =? UserNodeExceptionDeny)%string
                 then <[exceptionKey ex := true]> m else m) ∅ exceptions.

Definition UserEffectiveNodeSet `{!MapRange string bool} (plan : option SubscriptionPlan)
    (planNodes : list SubscriptionPlanNode) (exceptions : list UserNodeException) (now : Z) : gmap string bool :=
  let planKeys := nodeSetPlanKeys plan planNodes in
  let denied := nodeSetDenied exceptions now in
  let out := foldl (λ m '(key, _), if mget denied key then m else <[key := true]> m) ∅ (map_range planKeys) in
  foldl (λ m ex,
    if expired (UserNodeException_ExpiresAt ex) now ||
       negb (UserNodeException_Effect ex =? UserNodeExceptionAllow)%string then m
    else if mget denied (exceptionKey ex) then m
    else <[exceptionKey ex := true]> m) out exceptions.

Section node_set.
Context `{!MapRange string bool}.

Definition unexpired (now : Z) (exs : list UserNodeException) : list UserNodeException :=
  List.filter (λ ex, negb (expired (UserNodeException_ExpiresAt ex) now)) exs.

Lemma excepts_unexpired effect now exs k :
  excepts effect (unexpired now exs) k ↔
  ∃ ex, ex ∈ exs ∧ expired (UserNodeException_ExpiresAt ex) now = false ∧
        UserNodeException_Effect ex = effect ∧ exceptionKey ex = k.
Proof.
  unfold excepts, unexpired. setoid_rewrite list_elem_of_In. setoid_rewrite filter_In.
  setoid_rewrite negb_true_iff. naive_solver.
Qed.

(** A loop that sets [m[key x] = true] under a condition. *)
Lemma set_loop {A} (c : A → bool) (key : A → string) l (m : gmap string bool) k :
  mget (foldl (λ m x, if c x then <[key x := true]> m else m) m l) k = true ↔
  mget m k = true ∨ ∃ x, x ∈ l ∧ c x = true ∧ key x = k.
Proof.
  rewrite (foldl_iff (λ m, mget m k = true) (λ x, c x = true ∧ key x = k)); [done|].
  intros t x _. destruct (c x); [|naive_solver]. rewrite mget_insert. case_decide; naive_solver.
Qed.

Lemma nodeSetDenied_spec exs now k :
  mget (nodeSetDenied exs now) k = true ↔ excepts UserNodeExceptionDeny (unexpired now exs) k.
Proof.
  rewrite excepts_unexpired. unfold nodeSetDenied.
  rewrite (foldl_iff (λ m, mget m k = true) (λ ex, expired (UserNodeException_ExpiresAt ex) now = false ∧
    UserNodeException_Effect ex = UserNodeExceptionDeny ∧ exceptionKey ex = k)).
  - unfold mget at 1. rewrite lookup_empty. naive_solver.
  - intros t ex _. destruct (expired _ _); [naive_solver|].
    destruct (String.eqb_spec (UserNodeException_Effect ex) UserNodeExceptionDeny); [|naive_solver].
    rewrite mget_insert. case_decide; naive_solver.
Qed.

Definition enabledPlan (plan : option SubscriptionPlan) : option SubscriptionPlan :=
  match plan with Some p => if SubscriptionPlan_Enabled p then Some p else None | None => None end.

Lemma nodeSetPlanKeys_spec plan pns k :
  (is_Some (nodeSetPlanKeys plan pns !! k) → mget (nodeSetPlanKeys plan pns) k = true) ∧
  (mget (nodeSetPlanKeys plan pns) k = true ↔
   is_Some (enabledPlan plan) ∧
   ∃ pn, pn ∈ List.filter SubscriptionPlanNode_Enabled pns ∧ planNodeKey pn = k).
Proof.
  unfold nodeSetPlanKeys, enabledPlan. assert (mget (∅ : gmap string bool) k = true ↔ False) as He.
  { unfold mget. by rewrite lookup_empty. }
  destruct plan as [p|]; [destruct (SubscriptionPlan_Enabled p)|].
  2,3: rewrite He, lookup_empty; split; [by intros [? ?]|]; split; [done|by intros [[? ?] _]].
  split.
  - intros Hk. apply set_loop.
    rewrite (foldl_iff (λ m : gmap string bool, is_Some (m !! k))
      (λ pn, SubscriptionPlanNode_Enabled pn = true ∧ planNodeKey pn = k)) in Hk.
    + rewrite lookup_empty in Hk. destruct Hk as [[? ?]|?]; [done|by right].
    + intros t pn _. destruct (SubscriptionPlanNode_Enabled pn); [|naive_solver].
      rewrite lookup_insert. case_decide; naive_solver.
  - rewrite set_loop, He. setoid_rewrite list_elem_of_In. setoid_rewrite filter_In.
    unfold is_Some. naive_solver.
Qed.

(**  The stand-alone computation of a user's node set agrees with the grants the
    snapshot builds from the same enabled plan nodes and unexpired exceptions. *)
Theorem UserEffectiveNodeSet_agrees plan planNodes exceptions now k :
  mget (UserEffectiveNodeSet plan planNodes exceptions now) k = true ↔
  is_Some (userGrants (enabledPlan plan) (List.filter SubscriptionPlanNode_Enabled planNodes)
             (unexpired now exceptions) !! k).
Proof.
  rewrite userGrants_dom. unfold UserEffectiveNodeSet.
  destruct (nodeSetPlanKeys_spec plan planNodes k) as [Hkey Hpk].
  rewrite <-Hpk, <-nodeSetDenied_spec.
  rewrite (foldl_iff (λ m, mget m k = true) (λ ex, (expired (UserNodeException_ExpiresAt ex) now = false ∧
    UserNodeException_Effect ex = UserNodeExceptionAllow ∧ exceptionKey ex = k) ∧
    mget (nodeSetDenied exceptions now) k ≠ true)).
  - rewrite (foldl_iff (λ m, mget m k = true) (λ e, e.1 = k ∧ mget (nodeSetDenied exceptions now) k ≠ true)).
    + rewrite excepts_unexpired. unfold mget at 1. rewrite lookup_empty.
      assert ((∃ e, e ∈ map_range (nodeSetPlanKeys plan planNodes) ∧ e.1 = k) ↔
              mget (nodeSetPlanKeys plan planNodes) k = true) as Hrange.
      { split.
        - intros ([k' b] & Hin%elem_of_map_range & <-). apply Hkey. eauto.
        - unfold mget. destruct (_ !! k) as [b|] eqn:Hb; [|done]. exists (k, b).
          by rewrite elem_of_map_range. }
      naive_solver.
    + intros t [k' b] _. destruct (mget _ k') eqn:Hd; simpl.
      * split; [by left|]. intros [?|[-> ?]]; [done|congruence].
      * rewrite mget_insert. case_decide as Hk; [subst k'; intuition congruence|tauto].
  - intros t ex _. destruct (expired _ _); simpl; [naive_solver|].
    destruct (String.eqb_spec (UserNodeException_Effect ex) UserNodeExceptionAllow); simpl; [|naive_solver].
    destruct (mget _ (exceptionKey ex)) eqn:Hd.
    + split; [by left|]. intros [?|[(_ & _ & <-) ?]]; [done|congruence].
    + rewrite mget_insert. case_decide as Hk; [|tauto]. rewrite Hk in Hd. intuition congruence.
Qed.
End node_set.
