(* ===== verification/Rbac.v ===== *)
(** * Role permissions and approvals ([internal/authorization])

    [RBAC] maps permission names to specifications and answers whether a role grants a
    permission; its mutex serialises calls, so every call is one step on the map.
    [ApprovalResolver] decides whether an operation needs a human.  Both are Go
    interfaces to the evaluator, and type classes here. *)

From S2P Require Import Prelude Model.

Local Open Scope Z_scope.

Record PermissionSpec := {
  ReadOnly : bool;
  ManagementOnly : bool;
  AdminOnly : bool }.

Record RBAC := { permissions : gmap string PermissionSpec }.

Definition NewRBAC : RBAC := {| permissions := ∅ |}.

Definition Register (r : RBAC) (name : string) (spec : PermissionSpec) : RBAC :=
  {| permissions := <[name := spec]> (permissions r) |}.

Definition RegisterAll `{!MapRange string PermissionSpec} (r : RBAC) (specs : gmap string PermissionSpec) : RBAC :=
  {| permissions := foldl (λ m '(name, spec), <[name := spec]> m) (permissions r) (map_range specs) |}.

Definition Allows (r : RBAC) (role permission : string) : bool :=
  match permissions r !! permission with
  | None => false
  | Some spec =>
      if (role =? RoleAdmin)%string then true
      else if (role =? RoleOperator)%string then negb (AdminOnly spec)
      else if (role =? RoleViewer)%string then
        ReadOnly spec && negb (ManagementOnly spec) && negb (AdminOnly spec)
      else false
  end.

Definition RoleRank (role : string) : Z :=
  if (role =? RoleNone)%string then 0
  else if (role =? RoleViewer)%string then 1
  else if (role =? RoleOperator)%string then 2
  else if (role =? RoleAdmin)%string then 3
  else 0.

Definition ApprovalDenied : string := "denied".
Definition ApprovalRequired : string := "required".
Definition ApprovalAutomatic : string := "automatic".

Definition Resolve (maxAutoApproveRisk riskClass : Z) (approvalRequired : bool) : string :=
  if negb approvalRequired then ApprovalAutomatic
  else if 4 <=? riskClass then ApprovalRequired
  else if riskClass <=? maxAutoApproveRisk then ApprovalAutomatic
  else ApprovalRequired.

(** ** Interfaces used by the evaluator *)

(** [mcpauth.RBACChecker]: an opaque permission service that refuses a role without any
    panel permission, and grants more privileged roles at least as much. *)
Class RBACChecker (R : Type) := {
  rbac_allows : R → string → string → bool;
  rbac_none r permission : rbac_allows r RoleNone permission = false;
  rbac_monotone r role1 role2 permission :
    RoleRank role1 ≤ RoleRank role2 → rbac_allows r role1 permission = true →
    rbac_allows r role2 permission = true }.

(** [authorization.ApprovalResolver]: an answer is one of the approval modes, and the
    highest risk class is never approved automatically. *)
Class ApprovalResolver (A : Type) := {
  resolve : A → Z → Z → bool → string;
  resolve_mode a maxRisk risk required :
    resolve a maxRisk risk required = ApprovalAutomatic ∨ resolve a maxRisk risk required = ApprovalRequired;
  resolve_high_risk a maxRisk risk : 4 ≤ risk → resolve a maxRisk risk true = ApprovalRequired }.

(** ** Theorems *)

Lemma Allows_none r permission : Allows r RoleNone permission = false.
Proof. unfold Allows. by case_match. Qed.

Lemma RoleRank_cases role :
  (role = RoleAdmin ∧ RoleRank role = 3) ∨ (role = RoleOperator ∧ RoleRank role = 2) ∨
  (role = RoleViewer ∧ RoleRank role = 1) ∨
  (role ≠ RoleAdmin ∧ role ≠ RoleOperator ∧ role ≠ RoleViewer ∧ RoleRank role = 0).
Proof.
  unfold RoleRank.
  repeat match goal with |- context [(role =? ?b)%string] => destruct (String.eqb_spec role b) as [->|] end;
    by eauto 10.
Qed.

Lemma Allows_monotone r role1 role2 permission :
  RoleRank role1 ≤ RoleRank role2 → Allows r role1 permission = true → Allows r role2 permission = true.
Proof.
  unfold Allows. destruct (permissions r !! permission) as [spec|]; [|done].
  intros Hr. destruct (RoleRank_cases role1) as [[-> H1]|[[-> H1]|[[-> H1]|(Ha & Ho & Hv & H1)]]];
  destruct (RoleRank_cases role2) as [[-> H2]|[[-> H2]|[[-> H2]|(Ha' & Ho' & Hv' & H2)]]];
    rewrite ?H1, ?H2 in Hr; try lia; try done; simpl.
  - intros H. by apply andb_true_iff in H as [_ ->].
  - apply String.eqb_neq in Ha, Ho, Hv. by rewrite Ha, Ho, Hv.
  - apply String.eqb_neq in Ha, Ho, Hv. by rewrite Ha, Ho, Hv.
  - apply String.eqb_neq in Ha, Ho, Hv. by rewrite Ha, Ho, Hv.
Qed.

#[export] Instance RBAC_checker : RBACChecker RBAC := {|
  rbac_allows := Allows;
  rbac_none := Allows_none;
  rbac_monotone := Allows_monotone |}.

Inductive GrantApprovalResolver := GrantApproval.

Lemma Resolve_mode maxRisk risk required :
  Resolve maxRisk risk required = ApprovalAutomatic ∨ Resolve maxRisk risk required = ApprovalRequired.
Proof. unfold Resolve. repeat case_match; eauto. Qed.

Lemma Resolve_high_risk maxRisk risk : 4 ≤ risk → Resolve maxRisk risk true = ApprovalRequired.
Proof. intros H. unfold Resolve. simpl. by rewrite (proj2 (Z.leb_le 4 risk) H). Qed.

#[export] Instance GrantApproval_resolver : ApprovalResolver GrantApprovalResolver := {|
  resolve _ := Resolve;
  resolve_mode _ := Resolve_mode;
  resolve_high_risk _ := Resolve_high_risk |}.

(**  Privilege grows with the role: a permission one role grants is granted by every
    role of the same or a higher rank, an unregistered permission is granted to nobody,
    and a write permission is never granted to a viewer. *)
Theorem Allows_role_order r permission :
  (∀ role1 role2, RoleRank role1 ≤ RoleRank role2 → Allows r role1 permission = true →
     Allows r role2 permission = true) ∧
  (permissions r !! permission = None → ∀ role, Allows r role permission = false) ∧
  (∀ spec, permissions r !! permission = Some spec → ReadOnly spec = false →
     Allows r RoleViewer permission = false).
Proof.
  split_and!; [intros; by eapply Allows_monotone| |]; unfold Allows.
  - by intros ->.
  - by intros spec -> ->.
Qed.

(** Registering a batch is order-independent and later registrations win. *)
Lemma RegisterAll_lookup `{!MapRange string PermissionSpec} r specs name :
  permissions (RegisterAll r specs) !! name =
  match specs !! name with Some spec => Some spec | None => permissions r !! name end.
Proof. apply (range_update_lookup (λ _ spec _, spec)). Qed.
