(* ===== verification/McpAuth.v ===== *)
(** * MCP authorization ([internal/mcpauth])

    Access levels, the versioned resource boundary of a grant, decisions, and the
    evaluator every MCP read, tool call and changeset operation goes through.  The
    evaluator is generic in the permission service and the approval resolver (type
    classes of [Rbac]).  [time.Now()] is called twice by [Authorize]; the two readings
    are the arguments [now1] and [now2].  JSON decoding is an argument of
    [ParseBoundary]. *)

From S2P Require Import Prelude Model Rbac.

Local Open Scope Z_scope.

(** ** Access levels *)

Definition AccessRead : string := "read".
Definition AccessOperate : string := "operate".
Definition ScopeRead : string := "oboard:read".
Definition ScopeOperate : string := "oboard:operate".
Definition ScopeOffline : string := "offline_access".

Definition ParseAccessLevel (raw : string) : string :=
  if (raw =? AccessRead)%string || (raw =? AccessOperate)%string then raw else "".

Definition AccessAllows (a minimum : string) : bool :=
  if (a =? AccessOperate)%string then true
  else (a =? AccessRead)%string && (minimum =? AccessRead)%string.

Definition RequiredScope (a : string) : string :=
  if (a =? AccessOperate)%string then ScopeOperate else ScopeRead.

Definition NormalizedScopes (a : string) (offline : bool) : list string :=
  [ScopeRead] ++ (if (a =? AccessOperate)%string then [ScopeOperate] else []) ++
  (if offline then [ScopeOffline] else []).

Definition contains (l : list string) (x : string) : bool := existsb (String.eqb x) l.

Definition RequestsOperate (scopes : list string) : bool := contains scopes ScopeOperate.
Definition RequestsOffline (scopes : list string) : bool := contains scopes ScopeOffline.

Definition KnownScope (scope : string) : bool :=
  (scope =? ScopeRead)%string || (scope =? ScopeOperate)%string || (scope =? ScopeOffline)%string.

(** ** Resource boundary *)

Definition ResourceBoundaryVersion : Z := 1.
Definition SelectionAll : string := "all".
Definition SelectionSelected : string := "selected".
Definition SelectionNone : string := "none".

Record ResourceSelection := {
  Selection : string;
  IDs : list string;
  IncludeFuture : bool;
  AllowCreate : bool }.

Record ResourceBoundary := {
  Version : Z;
  Resources : gmap string ResourceSelection;
  GlobalCapabilities : list string;
  DestructiveOperations : bool }.

Record ResourceRef := { Ref_Type : string; Ref_ID : string }.

(** [slices.Compact]: drop adjacent duplicates. *)
Fixpoint compact (l : list string) : list string :=
  match l with
  | x :: ((y :: _) as l') => if (x =? y)%string then compact l' else x :: compact l'
  | _ => l
  end.

Definition normalizeSelection (sel : ResourceSelection) : ResourceSelection :=
  {| Selection := ToLower (TrimSpace (Selection sel));
     IDs := compact (sort_strings (IDs sel));
     IncludeFuture := IncludeFuture sel;
     AllowCreate := AllowCreate sel |}.

Definition Normalized (b : ResourceBoundary) : ResourceBoundary :=
  {| Version := if Version b =? 0 then ResourceBoundaryVersion else Version b;
     Resources := normalizeSelection <$> Resources b;
     GlobalCapabilities := sort_strings (GlobalCapabilities b);
     DestructiveOperations := DestructiveOperations b |}.

Definition validSelection (sel : ResourceSelection) : bool :=
  if (Selection sel =? SelectionAll)%string || (Selection sel =? SelectionNone)%string then true
  else if (Selection sel =? SelectionSelected)%string then
    match IDs sel with [] => false | _ => true end
  else false.

Definition Valid `{!MapRange string ResourceSelection} (b : ResourceBoundary) : bool :=
  if Version b =? 0 then false
  else forallb (λ '(_, sel), validSelection sel) (map_range (Resources b)).

Definition refDenied (b : ResourceBoundary) (ref : ResourceRef) : bool :=
  match Resources b !! Ref_Type ref with
  | None => true
  | Some sel =>
      if (Selection sel =? SelectionAll)%string then
        negb (IncludeFuture sel) && (0 <? Z.of_nat (length (IDs sel))) && negb (contains (IDs sel) (Ref_ID ref))
      else if (Selection sel =? SelectionSelected)%string then negb (contains (IDs sel) (Ref_ID ref))
      else true
  end.

Definition Denied (b : ResourceBoundary) (refs : list ResourceRef) : list ResourceRef :=
  List.filter (refDenied b) refs.

Definition AllowsCreate (b : ResourceBoundary) (resourceType : string) : bool :=
  match Resources b !! resourceType with Some sel => AllowCreate sel | None => false end.

Definition AllowsResource (b : ResourceBoundary) (ref : ResourceRef) : bool :=
  match Denied b [ref] with [] => true | _ => false end.

Definition SelectionOf (b : ResourceBoundary) (resourceType : string) : ResourceSelection :=
  match Resources b !! resourceType with
  | Some sel => sel
  | None => {| Selection := SelectionNone; IDs := []; IncludeFuture := false; AllowCreate := false |}
  end.

Definition emptyBoundary : ResourceBoundary :=
  {| Version := ResourceBoundaryVersion; Resources := ∅; GlobalCapabilities := [];
     DestructiveOperations := false |}.

Definition ParseBoundary (unmarshal : string → option ResourceBoundary) (raw : string) : ResourceBoundary :=
  if (raw =? "")%string || (raw =? "null")%string then emptyBoundary
  else match unmarshal raw with
       | None => emptyBoundary
       | Some boundary => Normalized boundary
       end.

(** ** Grants, specifications and decisions *)

Record GrantPolicy := {
  Grant_AccessLevel : string;
  Grant_ResourceBoundary : ResourceBoundary;
  Grant_ApprovalMaxRisk : Z;
  Grant_ExpiresAt : option Z;
  Grant_RevokedAt : option Z }.

Record PrivilegedGrantPolicy := {
  Privileged_Capabilities : list string;
  Privileged_ResourceBoundary : ResourceBoundary;
  Privileged_ExpiresAt : option Z;
  Privileged_RevokedAt : option Z }.

Record GrantPrincipal := {
  Principal_Grant : GrantPolicy;
  Principal_Role : string;
  Principal_PrivilegedGrant : option PrivilegedGrantPolicy }.

(** [ResolveResourceRefs] is a function value that may be [nil]; an error is its text. *)
Record CapabilitySpec (input : Type) := {
  MinimumAccess : string;
  RBACPermission : string;
  RiskClass : Z;
  Spec_ApprovalRequired : bool;
  ResolveResourceRefs : option (input → result string (list ResourceRef));
  PrivilegeClass : string }.
Arguments MinimumAccess {input} _.
Arguments RBACPermission {input} _.
Arguments RiskClass {input} _.
Arguments Spec_ApprovalRequired {input} _.
Arguments ResolveResourceRefs {input} _.
Arguments PrivilegeClass {input} _.

Record AuthorizationDecision := {
  Allowed : bool;
  Code : string;
  Reason : string;
  Decision_RequiredScope : string;
  Decision_RequiredRole : string;
  DeniedResources : list ResourceRef;
  ApprovalMode : string;
  Decision_RiskClass : Z;
  Recoverable : bool }.

Definition AllowDecision (approval : string) (riskClass : Z) : AuthorizationDecision :=
  {| Allowed := true; Code := "allowed"; Reason := ""; Decision_RequiredScope := "";
     Decision_RequiredRole := ""; DeniedResources := []; ApprovalMode := approval;
     Decision_RiskClass := riskClass; Recoverable := true |}.

Definition DenyDecision (code reason : string) (recoverable : bool) : AuthorizationDecision :=
  {| Allowed := false; Code := code; Reason := reason; Decision_RequiredScope := "";
     Decision_RequiredRole := ""; DeniedResources := []; ApprovalMode := "";
     Decision_RiskClass := 0; Recoverable := recoverable |}.

Definition DenyScope (minimum : string) : AuthorizationDecision :=
  {| Allowed := false; Code := "insufficient_scope";
     Reason := "this operation requires " +:+ RequiredScope minimum;
     Decision_RequiredScope := RequiredScope minimum; Decision_RequiredRole := "";
     DeniedResources := []; ApprovalMode := ""; Decision_RiskClass := 0; Recoverable := true |}.

Definition DenyRole (permission : string) : AuthorizationDecision :=
  {| Allowed := false; Code := "role_denied"; Reason := "the current role does not permit this operation";
     Decision_RequiredScope := ""; Decision_RequiredRole := permission;
     DeniedResources := []; ApprovalMode := ""; Decision_RiskClass := 0; Recoverable := true |}.

Definition DenyResources (refs : list ResourceRef) : AuthorizationDecision :=
  {| Allowed := false; Code := "resource_denied";
     Reason := "the current grant does not include one or more requested resources";
     Decision_RequiredScope := ""; Decision_RequiredRole := "";
     DeniedResources := refs; ApprovalMode := ""; Decision_RiskClass := 0; Recoverable := true |}.

Definition DenyInput (err : string) : AuthorizationDecision :=
  {| Allowed := false; Code := "invalid_input"; Reason := err;
     Decision_RequiredScope := ""; Decision_RequiredRole := "";
     DeniedResources := []; ApprovalMode := ""; Decision_RiskClass := 0; Recoverable := false |}.

Definition Active (p : option PrivilegedGrantPolicy) (now : Z) : bool :=
  match p with
  | None => false
  | Some p =>
      negb (match Privileged_RevokedAt p with Some t => negb (t =? 0) | None => false end) &&
      negb (match Privileged_ExpiresAt p with Some t => negb (t =? 0) && negb (now <? t) | None => false end)
  end.

Definition HasCapability (p : option PrivilegedGrantPolicy) (name : string) : bool :=
  match p with Some p => contains (Privileged_Capabilities p) name | None => false end.

(** [t != nil && time.Now().After( *t )]. *)
Definition pastExpiry (t : option Z) (now : Z) : bool :=
  match t with Some t => t <? now | None => false end.

(** ** The evaluator *)

Section evaluator.
Context {R A : Type} `{!RBACChecker R, !ApprovalResolver A} {input : Type}.

Record Evaluator := { rbac : R; approvals : A }.

(** The checks of a privileged host operation, after the refs were resolved. *)
Definition authorizePrivileged (principal : GrantPrincipal) (spec : CapabilitySpec input)
    (refs : list ResourceRef) (now2 : Z) : AuthorizationDecision :=
  match Principal_PrivilegedGrant principal with
  | None => DenyDecision "privileged_grant_required" "this operation requires a dedicated privileged MCP grant" true
  | Some privileged =>
      if match Privileged_RevokedAt privileged with Some _ => true | None => false end then
        DenyDecision "privileged_grant_revoked" "the privileged MCP grant has been revoked" false
      else if pastExpiry (Privileged_ExpiresAt privileged) now2 then
        DenyDecision "privileged_grant_expired" "the privileged MCP grant has expired" true
      else if negb (HasCapability (Some privileged) (PrivilegeClass spec)) then
        if (PrivilegeClass spec =? "remote_shell")%string
        then DenyDecision "raw_shell_not_granted" "raw shell is not included in the privileged grant" true
        else DenyDecision "privileged_grant_required" "the privileged grant does not include this host operation" true
      else
        match Denied (Privileged_ResourceBoundary privileged) refs with
        | [] => AllowDecision ApprovalAutomatic (RiskClass spec)
        | denied => DenyResources denied
        end
  end.

Definition Authorize (e : Evaluator) (principal : GrantPrincipal) (spec : CapabilitySpec input)
    (arg : input) (now1 now2 : Z) : AuthorizationDecision :=
  let grant := Principal_Grant principal in
  if match Grant_RevokedAt grant with Some _ => true | None => false end then
    DenyDecision "grant_revoked" "the OAuth grant has been revoked" false
  else if pastExpiry (Grant_ExpiresAt grant) now1 then
    DenyDecision "grant_expired" "the OAuth grant has expired" false
  else if negb (AccessAllows (Grant_AccessLevel grant) (MinimumAccess spec)) then DenyScope (MinimumAccess spec)
  else if negb (rbac_allows (rbac e) (Principal_Role principal) (RBACPermission spec)) then
    DenyRole (RBACPermission spec)
  else
    match (match ResolveResourceRefs spec with Some f => f arg | None => Ok [] end) with
    | Err err => DenyInput err
    | Ok refs =>
        match Denied (Grant_ResourceBoundary grant) refs with
        | [] =>
            if negb (PrivilegeClass spec =? "")%string then authorizePrivileged principal spec refs now2
            else AllowDecision
                   (resolve (approvals e) (Grant_ApprovalMaxRisk grant) (RiskClass spec) (Spec_ApprovalRequired spec))
                   (RiskClass spec)
        | denied => DenyResources denied
        end
    end.

(** ** Specification *)

(** The refs the operation names; [None] when the input cannot be resolved. *)
Definition refsOf (spec : CapabilitySpec input) (arg : input) : option (list ResourceRef) :=
  match ResolveResourceRefs spec with
  | Some f => match f arg with Ok refs => Some refs | Err _ => None end
  | None => Some []
  end.




(** ** Lemmas *)

Lemma contains_spec l x : contains l x = true ↔ x ∈ l.
Proof.
  unfold contains. rewrite existsb_exists, list_elem_of_In. setoid_rewrite String.eqb_eq. naive_solver.
Qed.

Lemma AllowsResource_refDenied b ref : AllowsResource b ref = negb (refDenied b ref).
Proof. unfold AllowsResource, Denied. simpl. by destruct (refDenied b ref). Qed.







(** The result once every check before the privileged stage has passed. *)
Lemma Authorize_passed e principal spec arg now1 now2 refs :
  refsOf spec arg = Some refs →
  Grant_RevokedAt (Principal_Grant principal) = None ∧
  pastExpiry (Grant_ExpiresAt (Principal_Grant principal)) now1 = false →
  AccessAllows (Grant_AccessLevel (Principal_Grant principal)) (MinimumAccess spec) = true →
  rbac_allows (rbac e) (Principal_Role principal) (RBACPermission spec) = true →
  Denied (Grant_ResourceBoundary (Principal_Grant principal)) refs = [] →
  Authorize e principal spec arg now1 now2 =
  if negb (PrivilegeClass spec =? "")%string then authorizePrivileged principal spec refs now2
  else AllowDecision
         (resolve (approvals e) (Grant_ApprovalMaxRisk (Principal_Grant principal)) (RiskClass spec)
            (Spec_ApprovalRequired spec)) (RiskClass spec).
Proof.
  intros Hr [H1 H2] H3 H4 H5. unfold Authorize. rewrite H1, H2, H3, H4. simpl.
  unfold refsOf in Hr. destruct (ResolveResourceRefs spec) as [f|]; [destruct (f arg)|];
    simplify_eq; by rewrite H5.
Qed.

(** Every check before the privileged stage is passed by an allowed operation. *)
Lemma Authorize_checked e principal spec arg now1 now2 :
  Allowed (Authorize e principal spec arg now1 now2) = true →
  ∃ refs, refsOf spec arg = Some refs ∧
  (Grant_RevokedAt (Principal_Grant principal) = None ∧
   pastExpiry (Grant_ExpiresAt (Principal_Grant principal)) now1 = false) ∧
  AccessAllows (Grant_AccessLevel (Principal_Grant principal)) (MinimumAccess spec) = true ∧
  rbac_allows (rbac e) (Principal_Role principal) (RBACPermission spec) = true ∧
  Denied (Grant_ResourceBoundary (Principal_Grant principal)) refs = [].
Proof.
  unfold Authorize, refsOf.
  destruct (Grant_RevokedAt _); [done|]. destruct (pastExpiry _ now1); [done|].
  destruct (AccessAllows _ _); [|done]. destruct (rbac_allows _ _ _); [|done]. simpl.
  destruct (ResolveResourceRefs spec) as [f|]; [destruct (f arg) as [refs|]; [|done]|].
  - destruct (Denied _ _) eqn:Hd; [|done]. intros _. by exists refs.
  - intros _. by exists [].
Qed.




(**  An allowed operation of the highest risk class that needs approval is never
    approved automatically, whatever the grant's approval profile, unless it is a
    privileged host operation covered by its own grant. *)
Theorem Authorize_high_risk e principal spec arg now1 now2 :
  Allowed (Authorize e principal spec arg now1 now2) = true →
  PrivilegeClass spec = ""%string → Spec_ApprovalRequired spec = true → 4 ≤ RiskClass spec →
  ApprovalMode (Authorize e principal spec arg now1 now2) = ApprovalRequired.
Proof.
  intros Hok Hp Ha Hrisk.
  pose proof (Authorize_checked _ _ _ _ _ _ Hok) as (refs & Hr & H1 & H2 & H3 & H4).
  erewrite Authorize_passed by done. rewrite Hp, Ha. simpl. by apply resolve_high_risk.
Qed.
End evaluator.

(** ** A concrete evaluation *)

Definition exampleBoundary : ResourceBoundary :=
  {| Version := 1;
     Resources := {[ "server"%string := {| Selection := SelectionSelected; IDs := ["7"%string; "3"%string];
                                           IncludeFuture := false; AllowCreate := false |} ]};
     GlobalCapabilities := []; DestructiveOperations := false |}.

Definition exampleSpec : CapabilitySpec string :=
  {| MinimumAccess := AccessOperate; RBACPermission := "servers.write"; RiskClass := 4;
     Spec_ApprovalRequired := true;
     ResolveResourceRefs := Some (λ id, Ok [{| Ref_Type := "server"; Ref_ID := id |}]);
     PrivilegeClass := "" |}.

Definition examplePrincipal : GrantPrincipal :=
  {| Principal_Grant := {| Grant_AccessLevel := AccessOperate; Grant_ResourceBoundary := exampleBoundary;
                           Grant_ApprovalMaxRisk := 9; Grant_ExpiresAt := Some 100; Grant_RevokedAt := None |};
     Principal_Role := RoleOperator; Principal_PrivilegedGrant := None |}.

Definition exampleEvaluator : @Evaluator RBAC GrantApprovalResolver :=
  {| rbac := Register NewRBAC "servers.write" {| ReadOnly := false; ManagementOnly := true; AdminOnly := false |};
     approvals := GrantApproval |}.

Lemma Authorize_high_risk_witness :
  ApprovalMode (Authorize exampleEvaluator examplePrincipal exampleSpec "3"%string 50 51) = ApprovalRequired.
Proof. apply Authorize_high_risk; [vm_compute; reflexivity|reflexivity|reflexivity|simpl; lia]. Defined.

(** ** Boundaries *)

Definition canonical (b : ResourceBoundary) : Prop :=
  ∀ t sel, Resources b !! t = Some sel →
    Selection sel ∈ [SelectionAll; SelectionSelected; SelectionNone].

Lemma compact_elem l x : x ∈ compact l ↔ x ∈ l.
Proof.
  induction l as [|a [|b l] IH]; [done|done|]. simpl compact in *.
  destruct (String.eqb_spec a b) as [->|]; rewrite ?elem_of_cons, ?IH, ?elem_of_cons; tauto.
Qed.

Lemma normal_ids_elem ids x : x ∈ compact (sort_strings ids) ↔ x ∈ ids.
Proof. by rewrite compact_elem, (elem_of_sort_slice str_lt). Qed.

Lemma contains_normal ids x : contains (compact (sort_strings ids)) x = contains ids x.
Proof. apply eq_bool_prop_intro. rewrite !Is_true_true, !contains_spec. apply normal_ids_elem. Qed.

Lemma normal_ids_nonempty ids :
  (0 <? Z.of_nat (length (compact (sort_strings ids)))) = (0 <? Z.of_nat (length ids)).
Proof.
  destruct ids as [|x ids]; [done|].
  assert (x ∈ compact (sort_strings (x :: ids))) as Hx by (apply normal_ids_elem; by left).
  destruct (compact _); [by apply not_elem_of_nil in Hx|done].
Qed.

Lemma canonical_mode s :
  s ∈ [SelectionAll; SelectionSelected; SelectionNone] → ToLower (TrimSpace s) = s.
Proof. rewrite !elem_of_cons, elem_of_nil. intros [->|[->|[->|[]]]]; reflexivity. Qed.

(**  Normalizing a boundary whose selection modes are spelled canonically never
    changes an authorization: the same references are denied, creation is allowed for
    the same types, and a valid boundary stays valid. *)
Theorem Normalized_preserves `{!MapRange string ResourceSelection} b refs t :
  canonical b →
  Denied (Normalized b) refs = Denied b refs ∧
  AllowsCreate (Normalized b) t = AllowsCreate b t ∧
  (Valid b = true → Valid (Normalized b) = true).
Proof.
  intros Hc. split_and!.
  - unfold Denied. apply List.filter_ext. intros ref. unfold refDenied. simpl. rewrite lookup_fmap.
    destruct (Resources b !! Ref_Type ref) as [sel|] eqn:Hs; [|done]. simpl.
    by rewrite (canonical_mode _ (Hc _ _ Hs)), contains_normal, normal_ids_nonempty.
  - unfold AllowsCreate. simpl. rewrite lookup_fmap. by destruct (Resources b !! t).
  - unfold Valid. simpl. destruct (Z.eqb_spec (Version b) 0) as [|Hv]; [done|].
    apply Z.eqb_neq in Hv. rewrite Hv. rewrite !forallb_forall. setoid_rewrite <-list_elem_of_In.
    intros Hval [k sel'] Hin%elem_of_map_range. rewrite lookup_fmap in Hin.
    destruct (Resources b !! k) as [sel|] eqn:Hs; [|done]. simpl in Hin. injection Hin as <-.
    specialize (Hval (k, sel)). rewrite elem_of_map_range in Hval. specialize (Hval Hs). simpl in *.
    revert Hval. unfold validSelection. simpl. rewrite (canonical_mode _ (Hc _ _ Hs)).
    pose proof (normal_ids_nonempty (IDs sel)) as Hn. by repeat case_match.
Qed.

Lemma Normalized_preserves_witness :
  Denied (Normalized exampleBoundary) [{| Ref_Type := "server"; Ref_ID := "9" |}] =
    [{| Ref_Type := "server"; Ref_ID := "9" |}] ∧
  AllowsCreate (Normalized exampleBoundary) "server" = false.
Proof.
  destruct (@Normalized_preserves (map_range_default _ _) exampleBoundary
    [{| Ref_Type := "server"; Ref_ID := "9" |}] "server"%string) as (Hd & Hc & _).
  - intros t sel Hs. unfold exampleBoundary in Hs. cbn [Resources] in Hs. apply lookup_singleton_Some in Hs as [_ <-]. right. left.
  - rewrite Hd, Hc. split; reflexivity.
Defined.

(** A boundary in mode "all" whose id list is empty, as the field's documentation asks
    for, allows every object of the type: [IncludeFuture = false] does not exclude
    objects created after consent. *)
Lemma all_without_ids_ignores_include_future b t sel id :
  Resources b !! t = Some sel → Selection sel = SelectionAll → IDs sel = [] →
  AllowsResource b {| Ref_Type := t; Ref_ID := id |} = true.
Proof.
  intros Hs Ha Hi. rewrite AllowsResource_refDenied. unfold refDenied. simpl.
  rewrite Hs, Ha, Hi. simpl. by rewrite andb_false_r.
Qed.

(** At the expiry instant itself [Active] already reports the privileged grant as
    inactive while the expiry test of [Authorize] still lets it pass. *)
Lemma privileged_expiry_instant p t :
  Privileged_ExpiresAt p = Some t → t ≠ 0 → Privileged_RevokedAt p = None →
  Active (Some p) t = false ∧ pastExpiry (Privileged_ExpiresAt p) t = false.
Proof.
  intros He Ht Hr. unfold Active, pastExpiry. rewrite He, Hr, Z.ltb_irrefl.
  apply Z.eqb_neq in Ht. by rewrite Ht.
Qed.
