(* ===== verification/Capability.v ===== *)
(** * Capability catalog ([internal/capability/catalog.go], [internal/application/principal.go])

    The catalog lists the capabilities of the controller and decides which principal may
    use one: an OAuth grant through its access level and the shared permission service,
    every other principal through its scopes.  Of a descriptor only the fields that
    decisions read are kept. *)

From S2P Require Import Prelude Model NodeKeys Rbac McpAuth.

Local Open Scope Z_scope.

Record Principal := {
  P_ID : string;
  P_GrantID : string;
  P_UserID : option Z;
  P_Role : string;
  P_Scopes : list string;
  P_ResourceFilter : string;
  P_Interactive : bool;
  P_AccessLevel : string;
  P_PrivilegedClasses : list string }.

(** [strings.Cut(required, ":")] is the split at the first colon. *)
Definition HasScope (p : Principal) (required : string) : bool :=
  let required := TrimSpace required in
  if (required =? "")%string then true
  else if contains (P_Scopes p) "*" || contains (P_Scopes p) required then true
  else match splitColon required with
  | Some (domain, _) => contains (P_Scopes p) (domain +:+ ":*")%string
  | None => false
  end.

Record Descriptor := {
  D_Name : string;
  D_RequiredScopes : list string;
  D_RiskClass : Z;
  D_ReadOnly : bool;
  D_MCPEnabled : bool;
  D_Executable : bool;
  D_MinimumAccess : string;
  D_RBACPermission : string;
  D_ResolveResourceRefs : option (string → result string (list ResourceRef));
  D_PrivilegeClass : string;
  D_AdminOnly : bool }.

Definition PermissionServersRemoteAccess : string := "servers.remote_access".

Definition ManagementOnlyDescriptor (d : Descriptor) : bool :=
  (D_RBACPermission d =? "admin.settings")%string || (D_RBACPermission d =? PermissionServersRemoteAccess)%string.

Record Catalog := { items : gmap string Descriptor; catalog_rbac : RBAC }.

(** [item.RBACPermission = item.Name] when it is empty. *)
Definition defaultPermission (d : Descriptor) : Descriptor :=
  {| D_Name := D_Name d; D_RequiredScopes := D_RequiredScopes d; D_RiskClass := D_RiskClass d;
     D_ReadOnly := D_ReadOnly d; D_MCPEnabled := D_MCPEnabled d; D_Executable := D_Executable d;
     D_MinimumAccess := D_MinimumAccess d;
     D_RBACPermission := if (D_RBACPermission d =? "")%string then D_Name d else D_RBACPermission d;
     D_ResolveResourceRefs := D_ResolveResourceRefs d; D_PrivilegeClass := D_PrivilegeClass d;
     D_AdminOnly := D_AdminOnly d |}.

Definition addDescriptor (c : Catalog) (d : Descriptor) : Catalog :=
  let d := defaultPermission d in
  {| items := <[D_Name d := d]> (items c);
     catalog_rbac := Register (catalog_rbac c) (D_RBACPermission d)
       {| ReadOnly := D_ReadOnly d; ManagementOnly := ManagementOnlyDescriptor d; AdminOnly := D_AdminOnly d |} |}.

(** The descriptors themselves ([defaultDescriptors]) are data and an argument. *)
Definition NewCatalog (descriptors : list Descriptor) : Catalog :=
  let c := foldl addDescriptor {| items := ∅; catalog_rbac := NewRBAC |} descriptors in
  {| items := items c;
     catalog_rbac := Register (catalog_rbac c) PermissionServersRemoteAccess
       {| ReadOnly := false; ManagementOnly := true; AdminOnly := false |} |}.

Definition GetDescriptor (c : Catalog) (name : string) : option Descriptor := items c !! TrimSpace name.

Definition scopesAllow (p : Principal) (scopes : list string) : bool := forallb (HasScope p) scopes.

Definition authorizePrincipal (c : Catalog) (p : Principal) (d : Descriptor) : bool :=
  if D_AdminOnly d && negb (P_Role p =? RoleAdmin)%string then false
  else if negb (P_AccessLevel p =? "")%string then
    if negb (D_MCPEnabled d) then false
    else if negb (AccessAllows (P_AccessLevel p) (D_MinimumAccess d)) then false
    else Allows (catalog_rbac c) (P_Role p) (D_RBACPermission d)
  else scopesAllow p (D_RequiredScopes d).

(** [Authorize]: the descriptor when the principal may use it. *)
Definition AuthorizeCatalog (c : Catalog) (p : Principal) (name : string) : option Descriptor :=
  match GetDescriptor c name with
  | Some d => if authorizePrincipal c p d then Some d else None
  | None => None
  end.

Definition principalAllowsPrivilege (p : Principal) (d : Descriptor) : bool :=
  if (D_PrivilegeClass d =? "")%string then true
  else existsb (λ class, (class =? D_PrivilegeClass d)%string) (P_PrivilegedClasses p).

Definition descriptorLess (a b : Descriptor) : bool := str_lt (D_Name a) (D_Name b).

Section listings.
Context `{!MapRange string Descriptor, !MapRange string bool}.

Definition ListMCP (c : Catalog) (p : Principal) : list Descriptor :=
  sort_slice descriptorLess
    (List.filter (λ d, D_MCPEnabled d && authorizePrincipal c p d && principalAllowsPrivilege p d)
       (snd <$> map_range (items c))).

Definition grantScopeStep (c : Catalog) (p : Principal) (seen : gmap string bool) (d : Descriptor) : gmap string bool :=
  if negb (D_MCPEnabled d) || negb (authorizePrincipal c p d) || negb (D_PrivilegeClass d =? "")%string then seen
  else foldl (λ seen scope, <[scope := true]> seen) seen (D_RequiredScopes d).

Definition ScopesForGrant (c : Catalog) (p : Principal) : list string :=
  let seen := foldl (grantScopeStep c p) ∅ (snd <$> map_range (items c)) in
  sort_strings (fst <$> map_range seen).
End listings.

Definition withScopes (p : Principal) (scopes : list string) : Principal :=
  {| P_ID := P_ID p; P_GrantID := P_GrantID p; P_UserID := P_UserID p; P_Role := P_Role p; P_Scopes := scopes;
     P_ResourceFilter := P_ResourceFilter p; P_Interactive := P_Interactive p; P_AccessLevel := P_AccessLevel p;
     P_PrivilegedClasses := P_PrivilegedClasses p |}.

(** ** Facts *)

Section listing_facts.
Context `{!MapRange string Descriptor, !MapRange string bool}.

Lemma elem_of_ScopesForGrant c p scope :
  scope ∈ ScopesForGrant c p ↔
  ∃ d, (∃ k, items c !! k = Some d) ∧ D_MCPEnabled d = true ∧ authorizePrincipal c p d = true ∧
    D_PrivilegeClass d = "" ∧ scope ∈ D_RequiredScopes d.
Proof.
  unfold ScopesForGrant, sort_strings. rewrite elem_of_sort_slice.
  set (seen := foldl (grantScopeStep c p) ∅ _).
  assert (is_Some (seen !! scope) ↔ ∃ d, d ∈ (snd <$> map_range (items c)) ∧ D_MCPEnabled d = true ∧
    authorizePrincipal c p d = true ∧ D_PrivilegeClass d = "" ∧ scope ∈ D_RequiredScopes d) as Hseen.
  { unfold seen. rewrite (foldl_iff (λ m, is_Some (m !! scope)) (λ d, D_MCPEnabled d = true ∧
      authorizePrincipal c p d = true ∧ D_PrivilegeClass d = "" ∧ scope ∈ D_RequiredScopes d)).
    - rewrite lookup_empty. split; [intros [[? ?]|?]; done|by right].
    - intros m d _. unfold grantScopeStep.
      destruct (D_MCPEnabled d), (authorizePrincipal c p d), (D_PrivilegeClass d =? "")%string eqn:Hpc; simpl;
        try (split; [by left|]; intros [?|(? & ? & Hc & _)]; try done; apply String.eqb_neq in Hpc; done).
      apply String.eqb_eq in Hpc.
      rewrite (foldl_iff (λ m, is_Some (m !! scope)) (λ s, s = scope)).
      + split; [intros [?|(s & Hs & ->)]; [by left|by right]|]. intros [?|(_ & _ & _ & Hs)]; [by left|right; eauto].
      + intros t s _. rewrite lookup_insert. case_decide; naive_solver. }
  rewrite list_elem_of_fmap. trans (is_Some (seen !! scope)).
  - split.
    + intros ([k b] & -> & Hin%elem_of_map_range). by exists b.
    + intros [b Hb]. exists (scope, b). by rewrite elem_of_map_range.
  - rewrite Hseen. split.
    + intros (d & ([k d'] & -> & Hin%elem_of_map_range)%list_elem_of_fmap & H). exists d'. split; [by exists k|done].
    + intros (d & [k Hk] & H). exists d. split; [|done]. apply list_elem_of_fmap. exists (k, d).
      by rewrite elem_of_map_range.
Qed.

(** The scopes of the catalog carry no surrounding space, as [defaultDescriptors] has them. *)
Definition trimmedScopes (c : Catalog) : Prop :=
  ∀ k d scope, items c !! k = Some d → scope ∈ D_RequiredScopes d → TrimSpace scope = scope.

(** The scopes derived for an OAuth grant are consistent with the catalog: a handler
    that still checks scopes accepts the grant's principal for every unprivileged
    capability the catalog authorizes it to use over MCP, and every derived scope is
    required by such a capability. *)
Theorem ScopesForGrant_consistent c p :
  P_AccessLevel p ≠ "" → trimmedScopes c →
  (∀ k d, items c !! k = Some d → authorizePrincipal c p d = true → D_PrivilegeClass d = "" →
     scopesAllow (withScopes p (ScopesForGrant c p)) (D_RequiredScopes d) = true) ∧
  (∀ scope, scope ∈ ScopesForGrant c p → ∃ k d, items c !! k = Some d ∧ authorizePrincipal c p d = true ∧
     D_PrivilegeClass d = "" ∧ scope ∈ D_RequiredScopes d).
Proof.
  intros Hal Htrim. split.
  - intros k d Hk Ha Hpc. unfold scopesAllow. apply forallb_forall. intros scope Hs%list_elem_of_In.
    assert (D_MCPEnabled d = true) as Hmcp.
    { unfold authorizePrincipal in Ha. rewrite (proj2 (String.eqb_neq _ _) Hal) in Ha. simpl in Ha.
      destruct (D_AdminOnly d && _); [done|]. by destruct (D_MCPEnabled d). }
    unfold HasScope. destruct (TrimSpace scope =? "")%string eqn:He; [done|].
    rewrite (Htrim k d scope Hk Hs). simpl.
    assert (contains (ScopesForGrant c p) scope = true) as ->; [|by rewrite orb_true_r].
    unfold contains. apply existsb_exists. exists scope. split; [|apply String.eqb_refl].
    apply list_elem_of_In, elem_of_ScopesForGrant. exists d. split; [by exists k|done].
  - intros scope (d & [k Hk] & _ & Ha & Hpc & Hs)%elem_of_ScopesForGrant. exists k, d. done.
Qed.
End listing_facts.

(** ** Runs of the model *)

Definition sampleDescriptor : Descriptor :=
  {| D_Name := "servers.list"; D_RequiredScopes := ["servers:read"]; D_RiskClass := 1; D_ReadOnly := true;
     D_MCPEnabled := true; D_Executable := true; D_MinimumAccess := AccessRead; D_RBACPermission := "";
     D_ResolveResourceRefs := None; D_PrivilegeClass := ""; D_AdminOnly := false |}.

Definition samplePrincipal : Principal :=
  {| P_ID := "p1"; P_GrantID := "g1"; P_UserID := Some 1; P_Role := RoleViewer; P_Scopes := [];
     P_ResourceFilter := ""; P_Interactive := false; P_AccessLevel := AccessRead; P_PrivilegedClasses := [] |}.

Lemma ScopesForGrant_consistent_witness :
  scopesAllow (withScopes samplePrincipal
    (ScopesForGrant (MapRange0 := map_range_default _ _) (MapRange1 := map_range_default _ _)
       (NewCatalog [sampleDescriptor]) samplePrincipal)) ["servers:read"] = true.
Proof.
  refine (proj1 (ScopesForGrant_consistent (MapRange0 := map_range_default _ _) (MapRange1 := map_range_default _ _)
    (NewCatalog [sampleDescriptor]) samplePrincipal _ _) "servers.list" (defaultPermission sampleDescriptor) _ _ _).
  - discriminate.
  - intros k d scope Hk Hs. unfold NewCatalog, addDescriptor in Hk. simpl in Hk. rewrite lookup_insert in Hk.
    destruct (decide ("servers.list"%string = k)); [|discriminate Hk].
    injection Hk as <-. apply list_elem_of_singleton in Hs as ->. reflexivity.
  - reflexivity.
  - vm_compute. reflexivity.
  - reflexivity.
Defined.
