(* ===== verification/AuditRisk.v ===== *)
(** * Account risk ([internal/auditrisk])

    [Evaluate] turns bounded per-minute evidence into score intervals with exact
    rational arithmetic ([big.Rat], here [Q]); [AggregateMinute] builds one minute's
    evidence, [SummarizeBaseline] and [AdaptPolicy] raise the thresholds of accounts
    with a high normal activity.  Fixed-size arrays are vectors; [uint64] counters keep
    their width.  Times are nanoseconds since the zero [time.Time], so that [IsZero] is
    [= 0] and [Truncate(time.Minute)] drops the remainder. *)

From Stdlib Require Import QArith Qminmax Lqa.
From stdpp Require Import vector.
From S2P Require Import Prelude.

Local Open Scope Z_scope.
Local Open Scope go_scope.

Definition WindowMinutes : nat := 30.

Definition Satisfied : string := "satisfied".
Definition Unsatisfied : string := "unsatisfied".
Definition Unknown : string := "unknown".

Record Dimension := { State : string; ReasonCode : string }.

Record Quality := {
  IdentityTrusted : Dimension;
  SourceUsable : Dimension;
  Deduplicated : Dimension;
  MeasurementValid : Dimension;
  CoverageComplete : Dimension;
  TimeAligned : Dimension;
  SourceSetComplete : Dimension;
  BaselineReady : Dimension;
  HistoryComplete : Dimension;
  Freshness : Dimension;
  CapabilitySupported : Dimension }.

Definition dimensions (q : Quality) : list Dimension :=
  [IdentityTrusted q; SourceUsable q; Deduplicated q; MeasurementValid q; CoverageComplete q;
   TimeAligned q; SourceSetComplete q; BaselineReady q; HistoryComplete q; Freshness q;
   CapabilitySupported q].

Record Scale := { Start : Z; Full : Z }.

Record Policy := {
  Policy_Version : string;
  ActivitySources : Scale;
  ActivityMinutes : Scale;
  ExposureSources : Scale;
  SourceCapacity : Z;
  MinimumBytes : Z;
  MinimumSlices : Z }.

Definition DefaultPolicy : Policy :=
  {| Policy_Version := "account-risk-v1";
     ActivitySources := {| Start := 3; Full := 8 |};
     ActivityMinutes := {| Start := 5; Full := 20 |};
     ExposureSources := {| Start := 3; Full := 8 |};
     SourceCapacity := 32; MinimumBytes := 16 * 1024; MinimumSlices := 3 |}.

Definition validScale (s : Scale) : bool := (0 <=? Start s) && (Start s <? Full s).

Inductive riskError :=
| InvalidRiskPolicy
| InvalidEvaluation
| InvalidQualityDimension
| InvalidMinute (i : nat)
| InvalidNoveltyBounds
| TooManyResourceDimensions
| InvalidResourceDimension
| IncompleteResourceThresholds
| InvalidResourceThresholds
| ActivityInputExceedsBudget
| InvalidSourceActivity
| BaselineExceedsDays
| BaselineInactiveMinutes
| BaselineDayExceedsMinutes.

Definition Validate (p : Policy) : result riskError unit :=
  fail_if
    ((Policy_Version p =? "")%string || negb (validScale (ActivitySources p)) ||
     negb (validScale (ActivityMinutes p)) || negb (validScale (ExposureSources p)) ||
     (SourceCapacity p <? 1) || (SourceCapacity p >? 32) ||
     (Full (ActivitySources p) >? SourceCapacity p) || (Full (ExposureSources p) >? SourceCapacity p) ||
     (Full (ActivityMinutes p) >? Z.of_nat WindowMinutes) || (MinimumBytes p =? 0) ||
     (MinimumSlices p <? 1) || (MinimumSlices p >? 12))
    InvalidRiskPolicy.

Record CountRange := { Lower : Z; Upper : Z }.
Record Minute := { Minute_Start : Z; Sources : CountRange }.
Record Contribution := {
  Contribution_Sources : Z; Contribution_Minutes : Z;
  SourceThresholds : Scale; DurationThresholds : Scale }.
Record Score := {
  Score_Lower : Z; Score_Upper : Z; Score_Status : string; Level : string;
  LowerContribution : option Contribution; UpperContribution : option Contribution }.
Record ResourceDimension := {
  Res_Name : string; Unit : string;
  Value : option Z; Res_Start : option Z; Res_Full : option Z }.
Record Features := {
  AccountID : Z;
  Activity : vec Minute WindowMinutes;
  ExposureActivity : vec Minute WindowMinutes;
  NovelRepeatedSources : CountRange;
  Resources : list ResourceDimension;
  DataRevision : Z;
  EvidenceCutoff : Z }.
Record Versions := { Ver_Model : string; Ver_Baseline : string; Ver_Source : string }.
Record Snapshot := {
  Snap_AccountID : Z;
  Snap_Activity : option Score;
  Snap_Exposure : option Score;
  Snap_Resource : option Score;
  Snap_Attention : option Score;
  Snap_Quality : Quality;
  Snap_Features : Features;
  Snap_Policy : Policy;
  Snap_Versions : Versions;
  AsOf : Z;
  WindowStart : Z;
  WindowEnd : Z;
  Status : string;
  AutomaticActionEligible : bool;
  ActionBlockReasons : list string }.

(** ** Scores *)

Definition normalized (x : Z) (s : Scale) : Q :=
  if x <=? Start s then 0%Q
  else if Full s <=? x then 1%Q
  else Qmake (x - Start s) (Z.to_pos (Full s - Start s)).

Definition halfUp (r : Q) : Z := Z.quot (Qnum r * 200 + Zpos (Qden r)) (Zpos (Qden r) * 2).

Definition level (n : Z) : string :=
  if 90 <=? n then "very_high" else if 70 <=? n then "high" else if 40 <=? n then "medium" else "low".

Definition score (lo hi : Q) : Score :=
  {| Score_Lower := halfUp lo; Score_Upper := halfUp hi;
     Score_Status := if Qeq_bool lo hi then "complete" else "range";
     Level := if Qeq_bool lo hi then level (halfUp lo) else "uncertain";
     LowerContribution := None; UpperContribution := None |}.

(** [a.Cmp(b) > 0]. *)
Definition Qgtb (a b : Q) : bool := negb (Qle_bool a b).

Definition minuteCount (upper : bool) (m : Minute) : Z :=
  if upper then Upper (Sources m) else Lower (Sources m).

Definition durationAt (minutes : list Minute) (upper : bool) (k : Z) : Z :=
  Z.of_nat (length (List.filter (λ m, k <=? minuteCount upper m) minutes)).

Definition activityStep (minutes : list Minute) (p : Policy) (upper : bool)
    (st : Q * option Contribution) (k : Z) : Q * option Contribution :=
  let '(best, evidence) := st in
  let d := durationAt minutes upper k in
  let v := Qmult (normalized k (ActivitySources p)) (normalized d (ActivityMinutes p)) in
  if Qgtb v best then
    (v, Some {| Contribution_Sources := k; Contribution_Minutes := d;
                SourceThresholds := ActivitySources p; DurationThresholds := ActivityMinutes p |})
  else (best, evidence).

(** The loop [for k := Start+1; k <= Full; k++]. *)
Definition activity (minutes : list Minute) (p : Policy) (upper : bool) : Q * option Contribution :=
  let s := ActivitySources p in
  foldl (activityStep minutes p upper) (0%Q, None)
    ((λ i, Start s + 1 + Z.of_nat i) <$> seq 0 (Z.to_nat (Full s - Start s))).

Definition activityBounds (m : list Minute) (p : Policy) : Q * Q * Score :=
  let '(lo, lc) := activity m p false in
  let '(hi, hc) := activity m p true in
  let s := score lo hi in
  (lo, hi, {| Score_Lower := Score_Lower s; Score_Upper := Score_Upper s; Score_Status := Score_Status s;
              Level := Level s; LowerContribution := lc; UpperContribution := hc |}).

Definition minute_ns : Z := 60 * 1000000000.

Definition badMinute (end_ : Z) (capacity : Z) (i : nat) (v : Minute) : bool :=
  negb (Minute_Start v =? end_ + (Z.of_nat i - Z.of_nat WindowMinutes) * minute_ns) ||
  (Lower (Sources v) <? 0) || (Upper (Sources v) <? Lower (Sources v)) || (Upper (Sources v) >? capacity).

Definition validateMinutes (m : list Minute) (end_ capacity : Z) : result riskError unit :=
  foldM (λ '(i, v) _, fail_if (badMinute end_ capacity i v) (InvalidMinute i)) (imap pair m) ().

(** [maxRat] on exact rationals. *)
Definition maxRat (a b : Q) : Q := if Qle_bool b a then a else b.

(** ** Resource dimensions *)

Definition resourceRatio (value start full : Z) : Q :=
  if full <=? value then 1%Q
  else if start <? value then Qmake (value - start) (Z.to_pos (full - start))
  else 0%Q.

Record resourceState := { rs_lo : Q; rs_hi : Q; rs_known : Z; rs_seen : gset string }.

Definition resourceStep (d : ResourceDimension) (st : resourceState) : result riskError resourceState :=
  if negb ((Res_Name d =? "request_rate")%string || (Res_Name d =? "connections")%string ||
           (Res_Name d =? "traffic_rate")%string) || (Unit d =? "")%string ||
     bool_decide (Res_Name d ∈ rs_seen st)
  then Err InvalidResourceDimension
  else
    let seen := {[Res_Name d]} ∪ rs_seen st in
    match Res_Start d, Res_Full d with
    | Some _, None | None, Some _ => Err IncompleteResourceThresholds
    | None, None => Ok {| rs_lo := rs_lo st; rs_hi := 1%Q; rs_known := rs_known st; rs_seen := seen |}
    | Some start, Some full =>
        if full <=? start then Err InvalidResourceThresholds
        else match Value d with
        | None => Ok {| rs_lo := rs_lo st; rs_hi := 1%Q; rs_known := rs_known st; rs_seen := seen |}
        | Some value =>
            let r := resourceRatio value start full in
            Ok {| rs_lo := maxRat (rs_lo st) r; rs_hi := maxRat (rs_hi st) r;
                  rs_known := rs_known st + 1; rs_seen := seen |}
        end
    end.

Definition resource (ds : list ResourceDimension) : result riskError (option Score) :=
  if 3 <? Z.of_nat (length ds) then Err TooManyResourceDimensions
  else
    let* st := foldM resourceStep ds {| rs_lo := 0%Q; rs_hi := 0%Q; rs_known := 0; rs_seen := ∅ |} in
    if rs_known st =? 0 then Ok None
    else Ok (Some (score (rs_lo st) (if Z.of_nat (length ds) <? 3 then 1%Q else rs_hi st))).

(** ** Evaluation *)

Definition minute_trunc (t : Z) : Z := t - t `mod` minute_ns.

Definition withScores (s : Snapshot) (a e r t : option Score) (status : string) (reasons : list string) :
    Snapshot :=
  {| Snap_AccountID := Snap_AccountID s; Snap_Activity := a; Snap_Exposure := e; Snap_Resource := r;
     Snap_Attention := t; Snap_Quality := Snap_Quality s; Snap_Features := Snap_Features s;
     Snap_Policy := Snap_Policy s; Snap_Versions := Snap_Versions s; AsOf := AsOf s;
     WindowStart := WindowStart s; WindowEnd := WindowEnd s; Status := status;
     AutomaticActionEligible := AutomaticActionEligible s; ActionBlockReasons := reasons |}.

(** The snapshot every return of [Evaluate] starts from. *)
Definition initialSnapshot (f : Features) (q : Quality) (p : Policy) (v : Versions) (asOf : Z) : Snapshot :=
  let end_ := minute_trunc asOf in
  {| Snap_AccountID := AccountID f; Snap_Activity := None; Snap_Exposure := None; Snap_Resource := None;
     Snap_Attention := None; Snap_Quality := q; Snap_Features := f; Snap_Policy := p; Snap_Versions := v;
     AsOf := asOf; WindowStart := end_ - Z.of_nat WindowMinutes * minute_ns; WindowEnd := end_;
     Status := "not_evaluable"; AutomaticActionEligible := false;
     ActionBlockReasons := ["behavior_alert_only"] |}.

Definition badDimension (d : Dimension) : bool :=
  (negb (State d =? Satisfied)%string && negb (State d =? Unsatisfied)%string &&
   negb (State d =? Unknown)%string) || (ReasonCode d =? "")%string.

(** The guards of [Evaluate], in order; the last one returns the resource score. *)
Definition evaluateInputs (f : Features) (q : Quality) (p : Policy) (v : Versions) (asOf : Z) :
    result riskError (option Score) :=
  let end_ := minute_trunc asOf in
  let* _ := Validate p in
  let* _ := fail_if ((AccountID f <=? 0) || (asOf =? 0) || (Ver_Model v =? "")%string ||
                     (Ver_Baseline v =? "")%string || (Ver_Source v =? "")%string ||
                     (EvidenceCutoff f =? 0) || (asOf <? EvidenceCutoff f)) InvalidEvaluation in
  let* _ := fail_if (existsb badDimension (dimensions q)) InvalidQualityDimension in
  let* _ := validateMinutes (Activity f) end_ (SourceCapacity p) in
  let* _ := validateMinutes (ExposureActivity f) end_ (SourceCapacity p) in
  let n := NovelRepeatedSources f in
  let* _ := fail_if ((Lower n <? 0) || (Upper n <? Lower n) || (Upper n >? SourceCapacity p))
                    InvalidNoveltyBounds in
  resource (Resources f).

(** The dimensions without which nothing is scored, in the order they are reported. *)
Definition gateDimensions (q : Quality) : list Dimension :=
  [IdentityTrusted q; SourceUsable q; Deduplicated q; MeasurementValid q; TimeAligned q].

Definition satisfied (d : Dimension) : bool := (State d =? Satisfied)%string.

Definition unsupported (q : Quality) : bool := (State (CapabilitySupported q) =? Unsatisfied)%string.

(** [activityMinutes]: without collection support every minute is unknown. *)
Definition activityMinutes (f : Features) (q : Quality) (p : Policy) : list Minute :=
  if unsupported q then
    (λ m, {| Minute_Start := Minute_Start m;
             Sources := {| Lower := 0; Upper := Full (ActivitySources p) |} |}) <$> vec_to_list (Activity f)
  else vec_to_list (Activity f).

Definition exposureActivity (f : Features) (q : Quality) (p : Policy) : Q * Q :=
  let '(ml, mh, _) := activityBounds (ExposureActivity f) p in
  if unsupported q then (0%Q, 1%Q) else (ml, mh).

Definition noveltyBounds (f : Features) (q : Quality) (p : Policy) : CountRange :=
  if satisfied (HistoryComplete q) then NovelRepeatedSources f
  else {| Lower := 0; Upper := Full (ExposureSources p) |}.

Definition exposure (p : Policy) (n : Z) (m : Q) : Q :=
  Qmult (Qdiv (Qplus 1 m) 2) (normalized n (ExposureSources p)).

Definition Evaluate (f : Features) (q : Quality) (p : Policy) (v : Versions) (asOf : Z) :
    Snapshot * option riskError :=
  let s := initialSnapshot f q p v asOf in
  match evaluateInputs f q p v asOf with
  | Err e => (s, Some e)
  | Ok r =>
      match List.find (λ d, negb (satisfied d)) (gateDimensions q) with
      | Some d => (withScores s None None r None (Status s) (ActionBlockReasons s ++ [ReasonCode d]), None)
      | None =>
          let '(al, ah, a) := activityBounds (activityMinutes f q p) p in
          let '(ml, mh) := exposureActivity f q p in
          let n := noveltyBounds f q p in
          let el := exposure p (Lower n) ml in
          let eh := exposure p (Upper n) mh in
          let fresh := satisfied (Freshness q) in
          (withScores s (Some a) (Some (score el eh)) r (Some (score (maxRat al el) (maxRat ah eh)))
             (if fresh then "evaluated" else "stale")
             (ActionBlockReasons s ++ if fresh then [] else ["evidence_not_fresh"]), None)
      end
  end.

(** ** One minute of evidence *)

Record SourceActivity := { SourceGroup : string; Bitmap : Z; Bytes : Z }.

Record Aggregation := {
  Agg_Sources : CountRange; Qualified : Z; Agg_Overflow : bool; CounterOverflow : bool }.

Definition uint64_max : Z := 2 ^ 64 - 1.

(** [r.Bitmap & ^uint16(0xfff)]: the bits outside the twelve slices. *)
Definition badActivity (r : SourceActivity) : bool :=
  (SourceGroup r =? "")%string || (128 <? Z.of_nat (String.length (SourceGroup r))) ||
  negb (Z.land (Bitmap r) (0xffff - 0xfff) =? 0) ||
  ((0 <? Bytes r) && (Bitmap r =? 0)) || ((Bytes r =? 0) && negb (Bitmap r =? 0)).

Record aggState := { groups : gmap string SourceActivity; agg_overflow : bool; agg_counter : bool }.

Definition zeroActivity : SourceActivity := {| SourceGroup := ""; Bitmap := 0; Bytes := 0 |}.

(** One row of the first loop.  The stored value keeps the zero [SourceGroup] it was
    read with, as the source does. *)
Definition aggregateRow (p : Policy) (r : SourceActivity) (st : aggState) : result riskError aggState :=
  if badActivity r then Err InvalidSourceActivity
  else
    let found := groups st !! SourceGroup r in
    if negb (bool_decide (is_Some found)) && (SourceCapacity p <=? Z.of_nat (size (groups st)))
    then Ok {| groups := groups st; agg_overflow := true; agg_counter := agg_counter st |}
    else
      let old := default zeroActivity found in
      let over := uint64_max - Bytes old <? Bytes r in
      Ok {| groups := <[SourceGroup r := {| SourceGroup := SourceGroup old;
                                            Bitmap := Z.lor (Bitmap old) (Bitmap r);
                                            Bytes := if over then uint64_max else Bytes old + Bytes r |}]>
                        (groups st);
            agg_overflow := agg_overflow st;
            agg_counter := if over then true else agg_counter st |}.

Definition slices : nat := 12.

(** [bits.OnesCount16]. *)
Definition OnesCount16 (b : Z) : Z :=
  Z.of_nat (length (List.filter (λ j, Z.testbit b (Z.of_nat j)) (seq 0 16))).

Definition qualifies (p : Policy) (g : SourceActivity) : bool :=
  negb ((Bytes g <? MinimumBytes p) || (OnesCount16 (Bitmap g) <? MinimumSlices p)).

(** [counts[j]++] for every slice of a qualified group. *)
Definition countGroup (p : Policy) (st : Z * list Z) (g : SourceActivity) : Z * list Z :=
  let '(qualified, counts) := st in
  if qualifies p g then
    (qualified + 1, imap (λ j n, if Z.testbit (Bitmap g) (Z.of_nat j) then n + 1 else n) counts)
  else (qualified, counts).

(** The inner loop [for j := range top]: [n] sinks into its place. *)
Fixpoint pushTop (n : Z) (top : list Z) : list Z :=
  match top with
  | [] => []
  | t :: top => if t <? n then n :: pushTop t top else t :: pushTop n top
  end.

Definition topThree (counts : list Z) : list Z := foldl (λ top n, pushTop n top) [0; 0; 0] counts.

Definition AggregateMinute `{!MapRange string SourceActivity} (rows : list SourceActivity)
    (complete : bool) (p : Policy) : result riskError Aggregation :=
  let* _ := Validate p in
  let* _ := fail_if (65536 <? Z.of_nat (length rows)) ActivityInputExceedsBudget in
  let* st := foldM (aggregateRow p) rows {| groups := ∅; agg_overflow := false; agg_counter := false |} in
  let '(qualified, counts) :=
    foldl (countGroup p) (0, replicate slices 0) (snd <$> map_range (groups st)) in
  let third := default 0 (topThree counts !! 2%nat) in
  Ok {| Agg_Sources :=
          {| Lower := third;
             Upper := if negb complete || agg_overflow st || agg_counter st
                      then if third >? Full (ActivitySources p) then third else Full (ActivitySources p)
                      else third |};
        Qualified := qualified;
        Agg_Overflow := agg_overflow st;
        CounterOverflow := agg_counter st |}.

(** ** Baselines *)

Record BaselineDay := { Histogram : vec N 33; Day_Overflow : bool }.
Record Baseline := { Ready : bool; Limited : bool; ValidDays : Z; ActiveMinutes : Z; Q95 : Z }.

Definition dayCounts (d : BaselineDay) : list Z := Z.of_N <$> vec_to_list (Histogram d).
Definition sumZ (l : list Z) : Z := foldr Z.add 0 l.

Record baseState := { base_limited : bool; base_days : Z; base_minutes : Z; merged : list Z }.

(** One day: the first check of the inner loop concerns bucket 0 only. *)
Definition baselineDay (d : BaselineDay) (st : baseState) : result riskError baseState :=
  if Day_Overflow d then
    Ok {| base_limited := true; base_days := base_days st; base_minutes := base_minutes st;
          merged := merged st |}
  else
    let total := sumZ (dayCounts d) in
    let* _ := fail_if (negb (default 0 (dayCounts d !! 0%nat) =? 0)) BaselineInactiveMinutes in
    let* _ := fail_if (1440 <? total) BaselineDayExceedsMinutes in
    if total =? 0 then Ok st
    else Ok {| base_limited := base_limited st; base_days := base_days st + 1;
               base_minutes := base_minutes st + total;
               merged := zip_with Z.add (merged st) (dayCounts d) |}.

(** The last loop: the first bucket at which the running sum reaches the target; [Q95]
    keeps its zero value when there is none. *)
Fixpoint quantile (l : list Z) (i sum target : Z) : Z :=
  match l with
  | [] => 0
  | n :: l => if target <=? sum + n then i else quantile l (i + 1) (sum + n) target
  end.

Definition SummarizeBaseline (days : list BaselineDay) : result riskError Baseline :=
  let* _ := fail_if (14 <? Z.of_nat (length days)) BaselineExceedsDays in
  let* st := foldM baselineDay days
    {| base_limited := false; base_days := 0; base_minutes := 0; merged := replicate 33 0 |} in
  Ok {| Ready := (7 <=? base_days st) && (200 <=? base_minutes st);
        Limited := base_limited st;
        ValidDays := base_days st;
        ActiveMinutes := base_minutes st;
        Q95 := quantile (merged st) 0 0 (Z.quot (base_minutes st * 95 + 99) 100) |}.

Definition setActivitySources (p : Policy) (s : Scale) : Policy :=
  {| Policy_Version := Policy_Version p; ActivitySources := s; ActivityMinutes := ActivityMinutes p;
     ExposureSources := ExposureSources p; SourceCapacity := SourceCapacity p;
     MinimumBytes := MinimumBytes p; MinimumSlices := MinimumSlices p |}.

Definition AdaptPolicy (p : Policy) (b : Baseline) : result riskError (Policy * bool) :=
  let* _ := Validate p in
  if negb (Ready b) || Limited b then Ok (p, false)
  else
    let start := Z.max (Start (ActivitySources p)) (int_wrap (Q95 b + 1)) in
    let full := int_wrap (int_wrap (start + Full (ActivitySources p)) - Start (ActivitySources p)) in
    if SourceCapacity p <? full then Ok (p, true)
    else Ok (setActivitySources p {| Start := start; Full := full |}, false).

(** ** Facts on scales and scores *)

Definition unitQ (x : Q) : Prop := (0 <= x)%Q ∧ (x <= 1)%Q.

(** What [Validate] guarantees about a policy. *)
Record validPolicy (p : Policy) : Prop := {
  vp_version : Policy_Version p ≠ "";
  vp_activity : 0 ≤ Start (ActivitySources p) < Full (ActivitySources p) ∧ Full (ActivitySources p) ≤ SourceCapacity p;
  vp_minutes : 0 ≤ Start (ActivityMinutes p) < Full (ActivityMinutes p) ∧ Full (ActivityMinutes p) ≤ 30;
  vp_exposure : 0 ≤ Start (ExposureSources p) < Full (ExposureSources p) ∧ Full (ExposureSources p) ≤ SourceCapacity p;
  vp_capacity : 1 ≤ SourceCapacity p ≤ 32;
  vp_bytes : MinimumBytes p ≠ 0;
  vp_slices : 1 ≤ MinimumSlices p ≤ 12 }.

Lemma Validate_ok p : Validate p = Ok () ↔ validPolicy p.
Proof.
  unfold Validate, fail_if, validScale, WindowMinutes. split.
  - case_match eqn:H; [done|]. intros _. rewrite !Z.gtb_ltb in H. bprop.
    split; try lia. by apply String.eqb_neq.
  - intros [H1 H2 H3 H4 H5 H6 H7]. apply String.eqb_neq in H1. rewrite H1.
    rewrite !(proj2 (Z.leb_le _ _)), !(proj2 (Z.ltb_lt _ _)) by lia.
    rewrite !(proj2 (Z.ltb_ge _ _)), !Z.gtb_ltb, !(proj2 (Z.ltb_ge _ _)), (proj2 (Z.eqb_neq _ _)) by (done || lia).
    done.
Qed.

Lemma Validate_unit p u : Validate p = Ok u → validPolicy p.
Proof. destruct u. apply Validate_ok. Qed.

Lemma normalized_unit x s : unitQ (normalized x s).
Proof.
  unfold normalized, unitQ. repeat case_match; bprop; [split; lra|split; lra|].
  unfold Qle. simpl. rewrite Z2Pos.id by lia. lia.
Qed.

Lemma normalized_mono x y s : x ≤ y → (normalized x s <= normalized y s)%Q.
Proof.
  intros Hxy. unfold normalized.
  destruct (x <=? Start s) eqn:H1; [apply normalized_unit|].
  destruct (Full s <=? x) eqn:H2; bprop.
  - rewrite (proj2 (Z.leb_gt y _)), (proj2 (Z.leb_le _ y)) by lia. apply Qle_refl.
  - rewrite (proj2 (Z.leb_gt y _)) by lia. case_match; bprop; unfold Qle; simpl; rewrite ?Z2Pos.id by lia; nia.
Qed.

Lemma Qmult_mono a b c d : (0 <= a)%Q → (a <= b)%Q → (0 <= c)%Q → (c <= d)%Q → (a * c <= b * d)%Q.
Proof. intros. nra. Qed.

Lemma halfUp_div r : (0 <= r)%Q → halfUp r = (200 * Qnum r + Zpos (Qden r)) / (2 * Zpos (Qden r)).
Proof.
  intros Hr. unfold Qle in Hr. simpl in Hr. unfold halfUp.
  rewrite Z.quot_div_nonneg by lia. f_equal; lia.
Qed.

Lemma halfUp_mono a b : (0 <= a)%Q → (a <= b)%Q → halfUp a ≤ halfUp b.
Proof.
  intros Ha Hab. rewrite !halfUp_div by lra.
  destruct a as [n1 d1], b as [n2 d2]. unfold Qle in *. simpl in *.
  set (q := (200 * n1 + Z.pos d1) / (2 * Z.pos d1)).
  assert (2 * Z.pos d1 * q ≤ 200 * n1 + Z.pos d1) by (apply Z.mul_div_le; lia).
  apply Z.div_le_lower_bound; [lia|]. apply (Z.mul_le_mono_pos_l _ _ (Z.pos d1)); [lia|]. nia.
Qed.

#[export] Instance halfUp_proper : Proper ((λ a b, (0 <= a)%Q ∧ (a == b)%Q) ==> eq)%signature halfUp.
Proof. intros a b [Ha Hab]. apply Z.le_antisymm; apply halfUp_mono; lra. Qed.

Lemma halfUp_bounds r : unitQ r → 0 ≤ halfUp r ≤ 100.
Proof.
  intros [H0 H1]. split.
  - apply (halfUp_mono 0 r); lra.
  - apply (halfUp_mono r 1); lra.
Qed.

Lemma maxRat_spec a b : (a <= maxRat a b)%Q ∧ (b <= maxRat a b)%Q ∧ (maxRat a b = a ∨ maxRat a b = b).
Proof.
  unfold maxRat. destruct (Qle_bool b a) eqn:H.
  - apply Qle_bool_iff in H. split; [lra|]. auto.
  - assert (¬ (b <= a)%Q) by (rewrite <-Qle_bool_iff; congruence). split; [lra|]. split; [lra|auto].
Qed.

Lemma maxRat_unit a b : unitQ a → unitQ b → unitQ (maxRat a b).
Proof. unfold maxRat. by case_match. Qed.

Lemma maxRat_mono a b c d : (a <= b)%Q → (c <= d)%Q → (maxRat a c <= maxRat b d)%Q.
Proof.
  intros. destruct (maxRat_spec a c) as (_ & _ & [-> | ->]), (maxRat_spec b d) as (? & ? & _); lra.
Qed.

Lemma halfUp_max a b : unitQ a → unitQ b → halfUp (maxRat a b) = Z.max (halfUp a) (halfUp b).
Proof.
  intros [Ha ?] [Hb ?]. destruct (maxRat_spec a b) as (H1 & H2 & H3).
  apply halfUp_mono in H1, H2; [|lra..]. destruct H3 as [H3|H3]; rewrite H3 in *; lia.
Qed.

(** The levels and the scores that have them. *)
Definition levelBands : list (string * (Z * Z)) :=
  [("low", (0, 39)); ("medium", (40, 69)); ("high", (70, 89)); ("very_high", (90, 100))].

(** A published score: an interval within 0..100 that is either a single number with the
    level of its band, or a range, whose level is left open. *)
Definition okScore (s : Score) : Prop :=
  (0 ≤ Score_Lower s ≤ Score_Upper s ∧ Score_Upper s ≤ 100) ∧
  (Score_Status s = "complete" ∧ Score_Lower s = Score_Upper s ∧
     (∃ a b, (Level s, (a, b)) ∈ levelBands ∧ a ≤ Score_Lower s ≤ b) ∨
   Score_Status s = "range" ∧ Level s = "uncertain").

Lemma level_band n : 0 ≤ n ≤ 100 → ∃ a b, (level n, (a, b)) ∈ levelBands ∧ a ≤ n ≤ b.
Proof.
  intros Hn. unfold level, levelBands. repeat case_match; bprop; eexists _, _;
    (split; [repeat (apply list_elem_of_here || apply list_elem_of_further)|lia]).
Qed.

Lemma halfUp_Qeq a b : unitQ a → unitQ b → (a == b)%Q → halfUp a = halfUp b.
Proof.
  intros [Ha _] [Hb _] He. apply Z.le_antisymm; apply halfUp_mono; try lra; rewrite He; apply Qle_refl.
Qed.

Lemma score_ok lo hi : unitQ lo → unitQ hi → (lo <= hi)%Q → okScore (score lo hi).
Proof.
  intros Hlo Hhi Hle. unfold okScore. simpl.
  pose proof (halfUp_bounds lo Hlo). pose proof (halfUp_bounds hi Hhi).
  pose proof (halfUp_mono lo hi (proj1 Hlo) Hle). split; [lia|].
  destruct (Qeq_bool lo hi) eqn:He; [left|by right]. apply Qeq_bool_iff in He.
  split_and!; [done|by apply halfUp_Qeq|by apply level_band].
Qed.

(** ** Activity *)

Definition activityValue (minutes : list Minute) (p : Policy) (upper : bool) (k : Z) : Q :=
  Qmult (normalized k (ActivitySources p)) (normalized (durationAt minutes upper k) (ActivityMinutes p)).

Lemma activityValue_unit m p u k : unitQ (activityValue m p u k).
Proof.
  unfold activityValue, unitQ.
  destruct (normalized_unit k (ActivitySources p)), (normalized_unit (durationAt m u k) (ActivityMinutes p)).
  split; nra.
Qed.

(** Each minute of the first list counts at most as much as that of the second. *)
Definition countsLe (m1 : list Minute) (u1 : bool) (m2 : list Minute) (u2 : bool) : Prop :=
  Forall2 (λ a b, minuteCount u1 a ≤ minuteCount u2 b) m1 m2.

Lemma durationAt_mono m1 u1 m2 u2 k : countsLe m1 u1 m2 u2 → durationAt m1 u1 k ≤ durationAt m2 u2 k.
Proof.
  unfold durationAt. induction 1 as [|a b m1 m2 Hab _ IH]; simpl; [lia|].
  destruct (k <=? minuteCount u1 a) eqn:H1, (k <=? minuteCount u2 b) eqn:H2; simpl; bprop; lia.
Qed.

Lemma activityValue_mono p m1 u1 m2 u2 k :
  countsLe m1 u1 m2 u2 → (activityValue m1 p u1 k <= activityValue m2 p u2 k)%Q.
Proof.
  intros H. apply Qmult_mono; [apply normalized_unit|apply Qle_refl|apply normalized_unit|].
  by apply normalized_mono, durationAt_mono.
Qed.

Lemma activityStep_val m p u st k :
  (activityStep m p u st k).1 = maxRat st.1 (activityValue m p u k).
Proof.
  destruct st as [b e]. unfold activityStep, maxRat, Qgtb. simpl. unfold activityValue.
  by destruct (Qle_bool _ b).
Qed.

Lemma activity_fold_mono p m1 u1 m2 u2 ks st1 st2 :
  countsLe m1 u1 m2 u2 → (st1.1 <= st2.1)%Q →
  ((foldl (activityStep m1 p u1) st1 ks).1 <= (foldl (activityStep m2 p u2) st2 ks).1)%Q.
Proof.
  intros Hm. revert st1 st2; induction ks as [|k ks IH]; intros st1 st2 Hst; [done|]. simpl.
  apply IH. rewrite !activityStep_val. by apply maxRat_mono, activityValue_mono.
Qed.

Lemma activity_mono p m1 u1 m2 u2 :
  countsLe m1 u1 m2 u2 → ((activity m1 p u1).1 <= (activity m2 p u2).1)%Q.
Proof. intros. apply activity_fold_mono; [done|apply Qle_refl]. Qed.

Lemma activity_unit m p u : unitQ (activity m p u).1.
Proof.
  unfold activity. set (ks := _ <$> _). clearbody ks.
  assert (∀ st, unitQ st.1 → unitQ (foldl (activityStep m p u) st ks).1) as H.
  { induction ks as [|k ks IH]; intros st Hst; [done|]. simpl. apply IH.
    rewrite activityStep_val. apply maxRat_unit; [done|apply activityValue_unit]. }
  apply H. split; simpl; lra.
Qed.

(** The evidence kept with the best value is the one it was computed from. *)
Lemma activity_evidence m p u c :
  (activity m p u).2 = Some c →
  Contribution_Minutes c = durationAt m u (Contribution_Sources c) ∧
  (activity m p u).1 = activityValue m p u (Contribution_Sources c) ∧
  Start (ActivitySources p) < Contribution_Sources c ≤ Full (ActivitySources p).
Proof.
  unfold activity. set (ks := _ <$> _).
  assert (∀ st, (∀ c, st.2 = Some c →
      Contribution_Minutes c = durationAt m u (Contribution_Sources c) ∧
      st.1 = activityValue m p u (Contribution_Sources c) ∧
      Start (ActivitySources p) < Contribution_Sources c ≤ Full (ActivitySources p)) →
    ∀ l, l ⊆ ks → ∀ c, (foldl (activityStep m p u) st l).2 = Some c →
      Contribution_Minutes c = durationAt m u (Contribution_Sources c) ∧
      (foldl (activityStep m p u) st l).1 = activityValue m p u (Contribution_Sources c) ∧
      Start (ActivitySources p) < Contribution_Sources c ≤ Full (ActivitySources p)) as H.
  { intros st Hst l. revert st Hst. induction l as [|k l IH]; intros st Hst Hl; simpl; [done|].
    apply IH; [|set_solver]. clear c. intros c. destruct st as [b e]. unfold activityStep at 1 2.
    destruct (Qgtb _ b) eqn:Hg; simpl; [|apply Hst]. intros [= <-]. simpl.
    split; [done|]. split; [done|].
    assert (k ∈ ks) as (i & -> & Hi%elem_of_seq)%list_elem_of_fmap by set_solver. lia. }
  apply H; [done|set_solver].
Qed.

(** ** Evaluation facts *)

Definition okMinute (end_ capacity : Z) (i : nat) (m : Minute) : Prop :=
  Minute_Start m = end_ + (Z.of_nat i - 30) * minute_ns ∧
  0 ≤ Lower (Sources m) ≤ Upper (Sources m) ∧ Upper (Sources m) ≤ capacity.

Lemma badMinute_ok end_ capacity i m : badMinute end_ capacity i m = false ↔ okMinute end_ capacity i m.
Proof.
  unfold badMinute, okMinute, WindowMinutes. rewrite !orb_false_iff, negb_false_iff, Z.gtb_ltb.
  rewrite Z.eqb_eq, !Z.ltb_ge. lia.
Qed.

Lemma foldM_check {E A} (c : A → bool) (e : A → E) l :
  foldM (λ x (_ : unit), fail_if (c x) (e x)) l () = Ok () ↔ Forall (λ x, c x = false) l.
Proof.
  induction l as [|x l IH]; simpl; [done|]. rewrite Forall_cons.
  destruct (c x); simpl; [naive_solver|]. rewrite IH. naive_solver.
Qed.

Lemma validateMinutes_ok m end_ capacity :
  validateMinutes m end_ capacity = Ok () ↔ ∀ i x, m !! i = Some x → okMinute end_ capacity i x.
Proof.
  unfold validateMinutes.
  trans (Forall (λ x : nat * Minute, badMinute end_ capacity x.1 x.2 = false) (imap pair m)).
  { rewrite <-(foldM_check _ (λ x, InvalidMinute x.1)).
    assert (∀ l u, foldM (λ '(i, v) _, fail_if (badMinute end_ capacity i v) (InvalidMinute i)) l u =
      foldM (λ (x : nat * Minute) _, fail_if (badMinute end_ capacity x.1 x.2) (InvalidMinute x.1)) l u) as ->;
      [|done].
    induction l as [|[i x] l IH]; intros u; simpl; [done|]. by case_match. }
  rewrite Forall_lookup. setoid_rewrite list_lookup_imap. setoid_rewrite fmap_Some. split.
  - intros H i x Hx. apply badMinute_ok, (H i (i, x)). eauto.
  - intros H i [j x] (y & Hy & [= -> ->]). apply badMinute_ok. by apply H.
Qed.

(** The guards of [Evaluate] as a proposition. *)
Record okInputs (f : Features) (q : Quality) (p : Policy) (v : Versions) (asOf : Z) : Prop := {
  oi_policy : validPolicy p;
  oi_account : 0 < AccountID f;
  oi_time : asOf ≠ 0 ∧ EvidenceCutoff f ≠ 0 ∧ EvidenceCutoff f ≤ asOf;
  oi_versions : Ver_Model v ≠ "" ∧ Ver_Baseline v ≠ "" ∧ Ver_Source v ≠ "";
  oi_quality : Forall (λ d, badDimension d = false) (dimensions q);
  oi_activity : ∀ i x, vec_to_list (Activity f) !! i = Some x →
    okMinute (minute_trunc asOf) (SourceCapacity p) i x;
  oi_exposure : ∀ i x, vec_to_list (ExposureActivity f) !! i = Some x →
    okMinute (minute_trunc asOf) (SourceCapacity p) i x;
  oi_novelty : 0 ≤ Lower (NovelRepeatedSources f) ≤ Upper (NovelRepeatedSources f) ∧
    Upper (NovelRepeatedSources f) ≤ SourceCapacity p }.

Lemma existsb_false {A} (P : A → bool) l : existsb P l = false ↔ Forall (λ x, P x = false) l.
Proof. induction l; simpl; [done|]. by rewrite orb_false_iff, Forall_cons, IHl. Qed.

Lemma evaluateInputs_ok f q p v asOf r :
  evaluateInputs f q p v asOf = Ok r ↔ okInputs f q p v asOf ∧ resource (Resources f) = Ok r.
Proof.
  unfold evaluateInputs. split.
  - intros H. repeat (apply rbind_ok in H as ([] & ? & H)). split; [|done].
    repeat match goal with X : fail_if _ _ = Ok _ |- _ => apply fail_if_ok in X end.
    rewrite Z.gtb_ltb in *. bprop.
    repeat match goal with X : (_ =? _)%string = false |- _ => apply String.eqb_neq in X end.
    split; try lia; try done; try (by apply Validate_ok); try (by apply validateMinutes_ok).
    by apply existsb_false.
  - intros [[Hp Ha (Ht1 & Ht2 & Ht3) (Hv1 & Hv2 & Hv3) Hq Hm He Hn] Hr].
    apply Validate_ok in Hp as ->. cbn [rbind].
    rewrite (proj2 (Z.leb_gt _ _)), !(proj2 (Z.eqb_neq _ _)), !(proj2 (String.eqb_neq _ _)),
      (proj2 (Z.ltb_ge _ _)) by (done || lia). cbn [rbind fail_if orb].
    rewrite (proj2 (existsb_false _ _) Hq). cbn [rbind fail_if orb].
    rewrite (proj2 (validateMinutes_ok _ _ _) Hm), (proj2 (validateMinutes_ok _ _ _) He).
    cbn [rbind]. rewrite Z.gtb_ltb, !(proj2 (Z.ltb_ge _ _)) by lia. done.
Qed.

(** *** Resource score *)

Definition okResourceState (st : resourceState) : Prop :=
  unitQ (rs_lo st) ∧ unitQ (rs_hi st) ∧ (rs_lo st <= rs_hi st)%Q.

Lemma resourceRatio_unit v s f : s < f → unitQ (resourceRatio v s f).
Proof.
  intros. unfold resourceRatio, unitQ. repeat case_match; bprop; try (split; lra).
  unfold Qle. simpl. rewrite Z2Pos.id by lia. lia.
Qed.

Lemma unitQ_1 : unitQ 1.
Proof. split; lra. Qed.

Lemma resourceStep_ok d st st' : okResourceState st → resourceStep d st = Ok st' → okResourceState st'.
Proof.
  intros (Hlo & Hhi & Hle) H. unfold resourceStep in H. unfold okResourceState.
  repeat case_match; simplify_eq; simpl; bprop;
    try (split; [done|]; split; [apply unitQ_1|apply Hlo]).
  assert (unitQ (resourceRatio z1 z z0)) by (apply resourceRatio_unit; lia).
  split; [by apply maxRat_unit|]. split; [by apply maxRat_unit|].
  apply maxRat_mono; [done|apply Qle_refl].
Qed.

Lemma resource_ok ds s : resource ds = Ok (Some s) → okScore s.
Proof.
  unfold resource. case_match; [done|]. intros (st & Hst & Hs)%rbind_ok.
  eapply (foldM_inv okResourceState) in Hst as (Hlo & Hhi & Hle).
  - case_match; [done|]. injection Hs as <-.
    apply score_ok; [done|..]; case_match; first [done|apply unitQ_1|apply Hlo].
  - intros d t t' _. apply resourceStep_ok.
  - split; [split; simpl; lra|]. split; [split; simpl; lra|]. simpl. lra.
Qed.

(** *** Narrower evidence *)

Definition nested (a b : CountRange) : Prop := Lower b ≤ Lower a ≤ Upper a ∧ Upper a ≤ Upper b.

Definition narrowMinute (a b : Minute) : Prop :=
  Minute_Start a = Minute_Start b ∧ nested (Sources a) (Sources b).

(** [f'] tells more than [f]: every count range of [f'] is inside the one of [f], in
    particular every assignment of exact counts the ranges of [f] allow. *)
Record narrows (f' f : Features) : Prop := {
  nr_account : AccountID f' = AccountID f;
  nr_cutoff : EvidenceCutoff f' = EvidenceCutoff f;
  nr_resources : Resources f' = Resources f;
  nr_activity : Forall2 narrowMinute (Activity f') (Activity f);
  nr_exposure : Forall2 narrowMinute (ExposureActivity f') (ExposureActivity f);
  nr_novelty : nested (NovelRepeatedSources f') (NovelRepeatedSources f) }.

Lemma okMinute_narrow end_ capacity (m' m : list Minute) :
  Forall2 narrowMinute m' m → (∀ i x, m !! i = Some x → okMinute end_ capacity i x) →
  ∀ i x, m' !! i = Some x → okMinute end_ capacity i x.
Proof.
  intros Hn Hm i x Hx. destruct (Forall2_lookup_l _ _ _ _ _ Hn Hx) as (y & Hy & [HS [H1 H2]]).
  destruct (Hm i y Hy) as (? & ? & ?). unfold okMinute. rewrite HS. split; [done|]. lia.
Qed.

Lemma okInputs_narrow f' f q p v asOf : narrows f' f → okInputs f q p v asOf → okInputs f' q p v asOf.
Proof.
  intros [Ha Hc _ Hm He [Hn1 Hn2]] []. split; rewrite ?Ha, ?Hc; try done.
  - by eapply okMinute_narrow.
  - by eapply okMinute_narrow.
  - lia.
Qed.

Lemma narrow_counts m' m :
  Forall2 narrowMinute m' m → countsLe m false m' false ∧ countsLe m' true m true ∧ countsLe m' false m' true.
Proof.
  unfold countsLe. induction 1 as [|a b m' m [_ [H1 H2]] _ (I1 & I2 & I3)]; [done|].
  repeat split; constructor; simpl; try done; lia.
Qed.

Lemma ok_counts end_ capacity (m : list Minute) :
  (∀ i x, m !! i = Some x → okMinute end_ capacity i x) → countsLe m false m true.
Proof.
  intros H. apply Forall2_same_length_lookup. split; [done|]. intros i x y Hx Hy.
  rewrite Hx in Hy. injection Hy as <-. destruct (H i x Hx) as (_ & ? & _). simpl. lia.
Qed.

(** *** The four rational bounds [Evaluate] publishes *)

Definition actLo f q p : Q := (activity (activityMinutes f q p) p false).1.
Definition actHi f q p : Q := (activity (activityMinutes f q p) p true).1.
Definition expLo f q p : Q := exposure p (Lower (noveltyBounds f q p)) (exposureActivity f q p).1.
Definition expHi f q p : Q := exposure p (Upper (noveltyBounds f q p)) (exposureActivity f q p).2.

Lemma exposure_mono p n m a b :
  n ≤ m → (0 <= a)%Q → (a <= b)%Q → (exposure p n a <= exposure p m b)%Q.
Proof.
  intros Hnm Ha Hab. unfold exposure, Qdiv. change (/ 2)%Q with (1#2).
  apply Qmult_mono; [lra|lra|apply normalized_unit|by apply normalized_mono].
Qed.

Lemma exposure_unit p n a : unitQ a → unitQ (exposure p n a).
Proof.
  intros [H0 H1]. destruct (normalized_unit n (ExposureSources p)) as [N0 N1].
  unfold exposure, unitQ, Qdiv. set (x := normalized _ _) in *. change (/ 2)%Q with (1#2).
  split; nra.
Qed.

Lemma exposureActivity_eq f q p :
  exposureActivity f q p =
  if unsupported q then (0%Q, 1%Q)
  else ((activity (ExposureActivity f) p false).1, (activity (ExposureActivity f) p true).1).
Proof.
  unfold exposureActivity, activityBounds.
  destruct (activity _ p false), (activity _ p true). done.
Qed.

Lemma exposureActivity_unit f q p : unitQ (exposureActivity f q p).1 ∧ unitQ (exposureActivity f q p).2.
Proof.
  rewrite exposureActivity_eq. destruct (unsupported q); simpl.
  - split; split; lra.
  - split; apply activity_unit.
Qed.

(** The bounds of narrower evidence lie inside; with [f' = f] this is [lo <= hi]. *)
Lemma bounds_narrow f' f q p v asOf :
  narrows f' f → okInputs f q p v asOf →
  ((actLo f q p <= actLo f' q p)%Q ∧ (actLo f' q p <= actHi f' q p)%Q ∧ (actHi f' q p <= actHi f q p)%Q) ∧
  ((expLo f q p <= expLo f' q p)%Q ∧ (expLo f' q p <= expHi f' q p)%Q ∧ (expHi f' q p <= expHi f q p)%Q).
Proof.
  intros Hn Hf. destruct Hn as [_ _ _ Hm He [Hn1 Hn2]]. destruct Hf as [Hp _ _ _ _ _ _ _].
  apply narrow_counts in Hm as (M1 & M2 & M3), He as (E1 & E2 & E3).
  unfold actLo, actHi, activityMinutes, expLo, expHi. rewrite !exposureActivity_eq.
  split.
  - destruct (unsupported q); [|repeat split; by apply activity_mono].
    assert (∀ a b : list Minute, length a = length b → ∀ u w, (u = true → w = true) →
      countsLe ((λ m, {| Minute_Start := Minute_Start m;
                 Sources := {| Lower := 0; Upper := Full (ActivitySources p) |} |}) <$> a) u
               ((λ m, {| Minute_Start := Minute_Start m;
                 Sources := {| Lower := 0; Upper := Full (ActivitySources p) |} |}) <$> b) w) as H.
    { intros a b Hab u w Huw. apply Forall2_fmap, Forall2_same_length_lookup. split; [done|].
      intros i x y _ _. destruct (vp_activity p Hp). destruct u, w; simpl; try lia; by specialize (Huw eq_refl). }
    repeat split; apply activity_mono, H; rewrite ?length_vec_to_list; done.
  - unfold noveltyBounds. destruct (vp_exposure p Hp).
    pose proof (activity_unit (ExposureActivity f) p false) as [U1 _].
    pose proof (activity_unit (ExposureActivity f') p false) as [U2 _].
    pose proof (activity_unit (ExposureActivity f') p true) as [U3 _].
    destruct (unsupported q), (satisfied _); simpl; repeat split; apply exposure_mono; simpl;
      try lra; try lia; by apply activity_mono.
Qed.

Lemma narrows_refl f q p v asOf : okInputs f q p v asOf → narrows f f.
Proof.
  intros []. split; try done.
  - apply Forall2_same_length_lookup. split; [done|]. intros i x y Hx Hy. rewrite Hx in Hy.
    injection Hy as <-. destruct (oi_activity0 i x Hx) as (_ & ? & _). repeat split; lia.
  - apply Forall2_same_length_lookup. split; [done|]. intros i x y Hx Hy. rewrite Hx in Hy.
    injection Hy as <-. destruct (oi_exposure0 i x Hx) as (_ & ? & _). repeat split; lia.
  - repeat split; lia.
Qed.

(** The evidence leaves no bound open. *)
Definition exactEvidence (f : Features) (q : Quality) : Prop :=
  Forall (λ m, Lower (Sources m) = Upper (Sources m)) (Activity f) ∧
  Forall (λ m, Lower (Sources m) = Upper (Sources m)) (ExposureActivity f) ∧
  Lower (NovelRepeatedSources f) = Upper (NovelRepeatedSources f) ∧
  State (CapabilitySupported q) ≠ Unsatisfied ∧ State (HistoryComplete q) = Satisfied.

Lemma exact_counts (m : list Minute) p :
  Forall (λ x, Lower (Sources x) = Upper (Sources x)) m → ((activity m p false).1 == (activity m p true).1)%Q.
Proof.
  intros Hm. apply Qle_antisym; apply activity_mono, Forall2_same_length_lookup; (split; [done|]);
    intros i x y Hx Hy; rewrite Hx in Hy; injection Hy as <-; rewrite Forall_lookup in Hm; specialize (Hm i x Hx);
    simpl; lia.
Qed.

(** With exact evidence the bounds meet. *)
Lemma exact_bounds f q p :
  exactEvidence f q → (actLo f q p == actHi f q p)%Q ∧ (expLo f q p == expHi f q p)%Q.
Proof.
  intros (Ha & He & Hn & Hc & Hh). assert (unsupported q = false) as Hu.
  { unfold unsupported. by apply String.eqb_neq. }
  assert (satisfied (HistoryComplete q) = true) as Hs by (unfold satisfied; by rewrite Hh).
  unfold actLo, actHi, expLo, expHi, activityMinutes, noveltyBounds. rewrite exposureActivity_eq, Hu, Hs, Hn. simpl.
  split; [by apply exact_counts|]. unfold exposure. by rewrite (exact_counts _ p He).
Qed.

Lemma maxRat_Qeq a b c d : (a == b)%Q → (c == d)%Q → (maxRat a c == maxRat b d)%Q.
Proof. intros Hab Hcd. apply Qle_antisym; apply maxRat_mono; rewrite ?Hab, ?Hcd; apply Qle_refl. Qed.

Lemma score_complete lo hi : (lo == hi)%Q → Score_Status (score lo hi) = "complete".
Proof. intros He%Qeq_bool_iff. simpl. by rewrite He. Qed.

(** The score with the evidence it rests on. *)
Definition withContributions (lc uc : option Contribution) (s : Score) : Score :=
  {| Score_Lower := Score_Lower s; Score_Upper := Score_Upper s; Score_Status := Score_Status s;
     Level := Level s; LowerContribution := lc; UpperContribution := uc |}.

(** What a successful evaluation publishes. *)
Lemma Evaluate_scored f q p v asOf r :
  okInputs f q p v asOf → resource (Resources f) = Ok r → Forall (λ d, satisfied d = true) (gateDimensions q) →
  ∃ a, Snap_Activity (Evaluate f q p v asOf).1 = Some a ∧
  (∃ lc uc, a = withContributions lc uc (score (actLo f q p) (actHi f q p))) ∧
  (Evaluate f q p v asOf).2 = None ∧
  Snap_Exposure (Evaluate f q p v asOf).1 = Some (score (expLo f q p) (expHi f q p)) ∧
  Snap_Resource (Evaluate f q p v asOf).1 = r ∧
  Snap_Attention (Evaluate f q p v asOf).1 =
    Some (score (maxRat (actLo f q p) (expLo f q p)) (maxRat (actHi f q p) (expHi f q p))) ∧
  Status (Evaluate f q p v asOf).1 = if satisfied (Freshness q) then "evaluated" else "stale".
Proof.
  intros Hok Hr Hq. unfold Evaluate. rewrite (proj2 (evaluateInputs_ok f q p v asOf r)) by done.
  assert (List.find (λ d, negb (satisfied d)) (gateDimensions q) = None) as ->.
  { destruct (List.find _ _) as [d|] eqn:Hd; [|done]. apply find_some in Hd as [Hin Hd].
    rewrite Forall_forall in Hq. apply list_elem_of_In in Hin. by rewrite (Hq _ Hin) in Hd. }
  unfold actLo, actHi, expLo, expHi, activityBounds.
  destruct (activity _ p false), (activity _ p true), (exposureActivity f q p).
  eexists. split; [reflexivity|]. split; [by eexists _, _|]. repeat split.
Qed.

(** The other outcomes publish no behaviour score. *)
Lemma Evaluate_unscored f q p v asOf :
  ¬ (okInputs f q p v asOf ∧ is_ok (resource (Resources f)) = true ∧
     Forall (λ d, satisfied d = true) (gateDimensions q)) →
  Snap_Activity (Evaluate f q p v asOf).1 = None ∧ Snap_Exposure (Evaluate f q p v asOf).1 = None ∧
  Snap_Attention (Evaluate f q p v asOf).1 = None ∧ Status (Evaluate f q p v asOf).1 = "not_evaluable" ∧
  (Snap_Resource (Evaluate f q p v asOf).1 = None ∨
   resource (Resources f) = Ok (Snap_Resource (Evaluate f q p v asOf).1)).
Proof.
  intros Hn. unfold Evaluate. destruct (evaluateInputs f q p v asOf) as [r|e] eqn:He.
  - apply evaluateInputs_ok in He as [Hok Hr].
    destruct (List.find _ _) as [d|] eqn:Hd; [by simpl; auto 10|].
    destruct Hn. split; [done|]. split; [by rewrite Hr|].
    apply Forall_forall. intros d Hin%list_elem_of_In. pose proof (find_none _ _ Hd d Hin) as H.
    by apply negb_false_iff in H.
  - simpl. auto 10.
Qed.

Lemma scored_dec f q p v asOf :
  Decision (okInputs f q p v asOf ∧ is_ok (resource (Resources f)) = true ∧
     Forall (λ d, satisfied d = true) (gateDimensions q)).
Proof.
  destruct (evaluateInputs f q p v asOf) as [r|e] eqn:He.
  - apply evaluateInputs_ok in He as [Hok Hr].
    destruct (decide (Forall (λ d, satisfied d = true) (gateDimensions q))); [left|right]; [|tauto].
    by rewrite Hr.
  - right. intros (Hok & Hr & _). destruct (resource (Resources f)) as [r|] eqn:Hr'; [|done].
    pose proof (proj2 (evaluateInputs_ok f q p v asOf r) (conj Hok Hr')). congruence.
Qed.

(** ** Properties of [Evaluate] *)

Definition published (s : Snapshot) : list Score :=
  omap id [Snap_Activity s; Snap_Exposure s; Snap_Resource s; Snap_Attention s].

Definition behaviour (s : Snapshot) : list Score := omap id [Snap_Activity s; Snap_Exposure s; Snap_Attention s].

(** The attention score is the larger of the two behaviour scores, bound by bound; the
    three are published together or not at all. *)
Definition attentionIsMax (s : Snapshot) : Prop :=
  match Snap_Activity s, Snap_Exposure s, Snap_Attention s with
  | Some a, Some e, Some t =>
      Score_Lower t = Z.max (Score_Lower a) (Score_Lower e) ∧
      Score_Upper t = Z.max (Score_Upper a) (Score_Upper e)
  | None, None, None => Status s = "not_evaluable"
  | _, _, _ => False
  end.

Definition nestedScore (a b : option Score) : Prop :=
  match a, b with
  | Some a, Some b => Score_Lower b ≤ Score_Lower a ∧ Score_Upper a ≤ Score_Upper b
  | None, None => True
  | _, _ => False
  end.

Lemma bounds_unit f q p :
  unitQ (actLo f q p) ∧ unitQ (actHi f q p) ∧ unitQ (expLo f q p) ∧ unitQ (expHi f q p).
Proof.
  destruct (exposureActivity_unit f q p).
  split; [apply activity_unit|]. split; [apply activity_unit|]. split; by apply exposure_unit.
Qed.

(** C39. Whatever the evidence, every score [Evaluate] publishes is an interval within
    0..100 that is either complete, a single number with the level of its band, or a
    range of uncertain level; exact evidence gives complete behaviour scores.  The
    attention score is the maximum of the activity and exposure scores bound by bound,
    the three are published together or not at all, and the snapshot is never eligible
    for automatic action. *)
Theorem Evaluate_scores f q p v asOf :
  let s := (Evaluate f q p v asOf).1 in
  Forall okScore (published s) ∧ attentionIsMax s ∧
  (exactEvidence f q → Forall (λ x, Score_Status x = "complete") (behaviour s)) ∧
  AutomaticActionEligible s = false ∧ "behavior_alert_only" ∈ ActionBlockReasons s.
Proof.
  intros s. subst s. split_and!.
  4: unfold Evaluate; by repeat case_match.
  4: unfold Evaluate; repeat case_match; by left.
  all: destruct (scored_dec f q p v asOf) as [(Hok & Hr & Hq)|Hn];
    [destruct (resource (Resources f)) as [r|] eqn:Hr'; [|done];
     destruct (Evaluate_scored f q p v asOf r Hok Hr' Hq) as (a & Ha & (lc & uc & ->) & _ & He & Hre & Ht & _);
     destruct (bounds_unit f q p) as (U1 & U2 & U3 & U4)
    |destruct (Evaluate_unscored f q p v asOf Hn) as (Ha & He & Ht & Hs & Hr)].
  - unfold published. rewrite Ha, He, Hre, Ht.
    destruct (bounds_narrow f f q p v asOf (narrows_refl _ _ _ _ _ Hok) Hok) as [(_ & H1 & _) (_ & H2 & _)].
    pose proof (score_ok _ _ U1 U2 H1 : okScore (withContributions lc uc _)). pose proof (score_ok _ _ U3 U4 H2).
    assert (okScore (score (maxRat (actLo f q p) (expLo f q p)) (maxRat (actHi f q p) (expHi f q p)))).
    { apply score_ok; [by apply maxRat_unit..|by apply maxRat_mono]. }
    destruct r; simpl; repeat apply Forall_cons_2; try done; by eapply resource_ok.
  - unfold published. rewrite Ha, He, Ht. destruct (Snap_Resource _) eqn:Hsn; simpl; [|done].
    destruct Hr as [?|Hr]; [done|]. constructor; [by eapply resource_ok|done].
  - unfold attentionIsMax. rewrite Ha, He, Ht. simpl. by rewrite !halfUp_max.
  - unfold attentionIsMax. by rewrite Ha, He, Ht.
  - intros [Hx1 Hx2]%(exact_bounds f q p). unfold behaviour. rewrite Ha, He, Ht.
    repeat apply Forall_cons_2; [apply score_complete..|done]; [done|done|by apply maxRat_Qeq].
  - intros _. unfold behaviour. by rewrite Ha, He, Ht.
Qed.

(** C10. More precise evidence never contradicts what was published: when every count
    range of [f'] lies inside the corresponding range of [f] and [f] is accepted, [f']
    is accepted and each of its scores lies inside the interval published for [f]. *)
Theorem Evaluate_narrow f' f q p v asOf :
  narrows f' f → (Evaluate f q p v asOf).2 = None →
  let s' := (Evaluate f' q p v asOf).1 in
  let s := (Evaluate f q p v asOf).1 in
  (Evaluate f' q p v asOf).2 = None ∧ nestedScore (Snap_Activity s') (Snap_Activity s) ∧
  nestedScore (Snap_Exposure s') (Snap_Exposure s) ∧ nestedScore (Snap_Attention s') (Snap_Attention s) ∧
  Snap_Resource s' = Snap_Resource s.
Proof.
  intros Hn Hnone s' s. subst s' s.
  destruct (evaluateInputs f q p v asOf) as [r|e] eqn:Hin; [|unfold Evaluate in Hnone; by rewrite Hin in Hnone].
  apply evaluateInputs_ok in Hin as [Hok Hr].
  pose proof (okInputs_narrow _ _ _ _ _ _ Hn Hok) as Hok'.
  assert (resource (Resources f') = Ok r) as Hr' by (by rewrite (nr_resources _ _ Hn)).
  destruct (decide (Forall (λ d, satisfied d = true) (gateDimensions q))) as [Hq|Hq].
  - destruct (Evaluate_scored f q p v asOf r Hok Hr Hq) as (a & Ha & (lc & uc & ->) & _ & He & Hre & Ht & _).
    destruct (Evaluate_scored f' q p v asOf r Hok' Hr' Hq) as (a' & Ha' & (lc' & uc' & ->) & Hno & He' & Hre' & Ht' & _).
    rewrite Ha, He, Ht, Hre, Ha', He', Ht', Hre'. simpl.
    destruct (bounds_narrow f' f q p v asOf Hn Hok) as [(A1 & A2 & A3) (E1 & E2 & E3)].
    destruct (bounds_unit f q p) as ([? ?] & [? ?] & [? ?] & [? ?]).
    destruct (bounds_unit f' q p) as ([? ?] & [? ?] & [? ?] & [? ?]).
    split; [done|]. rewrite !halfUp_max by (split; lra).
    apply halfUp_mono in A1, A3, E1, E3; [|lra..]. repeat split; lia.
  - unfold Evaluate. rewrite !(proj2 (evaluateInputs_ok _ q p v asOf r)) by done.
    destruct (List.find _ _) eqn:Hd; [done|]. destruct Hq. apply Forall_forall.
    intros d Hin%list_elem_of_In. pose proof (find_none _ _ Hd d Hin) as H. by apply negb_false_iff in H.
Qed.

(** An hour of evidence used to run the model: six sources in the last twelve minutes. *)
Definition sampleMinutes (lo hi : Z) : vec Minute WindowMinutes :=
  fun_to_vec (λ i : fin WindowMinutes,
    {| Minute_Start := 60 * minute_ns + (Z.of_nat (fin_to_nat i) - 30) * minute_ns;
       Sources := if (18 <=? Z.of_nat (fin_to_nat i)) then {| Lower := lo; Upper := hi |}
                  else {| Lower := 0; Upper := 0 |} |}).

Definition sampleFeatures (lo hi : Z) : Features :=
  {| AccountID := 7; Activity := sampleMinutes lo hi; ExposureActivity := sampleMinutes lo hi;
     NovelRepeatedSources := {| Lower := lo; Upper := hi |}; Resources := []; DataRevision := 1;
     EvidenceCutoff := 60 * minute_ns |}.

Definition sampleQuality : Quality :=
  let d := {| State := Satisfied; ReasonCode := "ok" |} in
  {| IdentityTrusted := d; SourceUsable := d; Deduplicated := d; MeasurementValid := d;
     CoverageComplete := d; TimeAligned := d; SourceSetComplete := d; BaselineReady := d;
     HistoryComplete := d; Freshness := d; CapabilitySupported := d |}.

Definition sampleVersions : Versions := {| Ver_Model := "m"; Ver_Baseline := "b"; Ver_Source := "s" |}.

Example Evaluate_ex :
  (Score_Lower <$> Snap_Attention (Evaluate (sampleFeatures 4 7) sampleQuality DefaultPolicy sampleVersions
     (60 * minute_ns + 5)).1) = Some 11 ∧
  (Score_Upper <$> Snap_Attention (Evaluate (sampleFeatures 4 7) sampleQuality DefaultPolicy sampleVersions
     (60 * minute_ns + 5)).1) = Some 55.
Proof. vm_compute. done. Qed.

Lemma Evaluate_narrow_witness :
  (Evaluate (sampleFeatures 5 6) sampleQuality DefaultPolicy sampleVersions (60 * minute_ns + 5)).2 = None.
Proof.
  refine (proj1 (Evaluate_narrow (sampleFeatures 5 6) (sampleFeatures 4 7) sampleQuality DefaultPolicy
    sampleVersions (60 * minute_ns + 5) _ _)); [|vm_compute; reflexivity].
  split; [reflexivity..| | |vm_compute; repeat split; discriminate].
  all: cbv [sampleFeatures Activity ExposureActivity]; vm_compute; repeat constructor; discriminate.
Defined.

(** ** Properties of [AggregateMinute] *)

(** The types of the source: [Bitmap] is a [uint16] and [Bytes] a [uint64]. *)
Definition wfRow (r : SourceActivity) : Prop := 0 ≤ Bitmap r < 2 ^ 16 ∧ 0 ≤ Bytes r ≤ uint64_max.

Definition rowsOf (rows : list SourceActivity) (g : string) : list SourceActivity :=
  filter (λ r, SourceGroup r = g) rows.

(** What a source group did in the minute, over all its rows. *)
Definition groupOf (rows : list SourceActivity) (g : string) : SourceActivity :=
  {| SourceGroup := "";
     Bitmap := foldl Z.lor 0 (Bitmap <$> rowsOf rows g);
     Bytes := Z.min uint64_max (sumZ (Bytes <$> rowsOf rows g)) |}.

Definition activeIn (p : Policy) (j : nat) (g : SourceActivity) : bool :=
  qualifies p g && Z.testbit (Bitmap g) (Z.of_nat j).

(** The number of qualified source groups active in slice [j]. *)
Definition active (p : Policy) (rows : list SourceActivity) (j : nat) : nat :=
  length (List.filter (activeIn p j) (groupOf rows <$> remove_dups (SourceGroup <$> rows))).

(** The number of slices in which at least [k] qualified groups are active. *)
Definition slicesWith (p : Policy) (rows : list SourceActivity) (k : Z) : nat :=
  length (List.filter (λ j, k <=? Z.of_nat (active p rows j)) (seq 0 slices)).

Lemma sumZ_app l1 l2 : sumZ (l1 ++ l2) = sumZ l1 + sumZ l2.
Proof. unfold sumZ. induction l1; simpl; lia. Qed.

Lemma sumZ_nonneg l : Forall (λ x, 0 ≤ x) l → 0 ≤ sumZ l.
Proof. unfold sumZ. induction 1; simpl; lia. Qed.

Lemma rowsOf_snoc rows r g :
  rowsOf (rows ++ [r]) g = if decide (SourceGroup r = g) then rowsOf rows g ++ [r] else rowsOf rows g.
Proof. unfold rowsOf. rewrite filter_app, filter_cons, filter_nil. by case_decide; rewrite ?app_nil_r. Qed.

Lemma groupOf_snoc rows r g :
  Forall wfRow rows → wfRow r →
  groupOf (rows ++ [r]) g =
  if decide (SourceGroup r = g) then
    let old := groupOf rows g in
    {| SourceGroup := SourceGroup old; Bitmap := Z.lor (Bitmap old) (Bitmap r);
       Bytes := if uint64_max - Bytes old <? Bytes r then uint64_max else Bytes old + Bytes r |}
  else groupOf rows g.
Proof.
  intros Hrows [_ Hr]. unfold groupOf. rewrite rowsOf_snoc. case_decide; [|done]. simpl.
  rewrite !fmap_app, foldl_app, sumZ_app. simpl. f_equal.
  assert (0 ≤ sumZ (Bytes <$> rowsOf rows g)).
  { apply sumZ_nonneg, Forall_fmap, Forall_forall. intros x [_ Hx]%list_elem_of_filter.
    rewrite Forall_forall in Hrows. destruct (Hrows x Hx) as [_ ?]. simpl. lia. }
  destruct (_ <? _) eqn:?; bprop; lia.
Qed.

(** The groups kept are exact; none is missing unless [Overflow] is reported. *)
Record aggInv (p : Policy) (rows : list SourceActivity) (st : aggState) : Prop := {
  ai_exact g a : groups st !! g = Some a → a = groupOf rows g ∧ g ∈ SourceGroup <$> rows;
  ai_complete r : agg_overflow st = false → r ∈ rows → is_Some (groups st !! SourceGroup r);
  ai_size : Z.of_nat (size (groups st)) ≤ SourceCapacity p;
  ai_dropped r : r ∈ rows → groups st !! SourceGroup r = None →
    SourceCapacity p ≤ Z.of_nat (size (groups st)) }.

Lemma groupOf_new rows g : g ∉ SourceGroup <$> rows → groupOf rows g = zeroActivity.
Proof.
  intros H. assert (rowsOf rows g = []) as Hr.
  { apply elem_of_nil_inv. intros r [<- Hr]%list_elem_of_filter. apply H. by apply list_elem_of_fmap_2. }
  unfold groupOf. by rewrite Hr.
Qed.

Lemma aggregateRow_inv p rows r st st' :
  Forall wfRow rows → wfRow r → aggInv p rows st → aggregateRow p r st = Ok st' →
  aggInv p (rows ++ [r]) st'.
Proof.
  intros Hrows Hr [Hex Hcomp Hsize Hdrop] H. unfold aggregateRow in H. case_match; [done|].
  destruct (negb _ && _) eqn:Hover; injection H as <-; simpl.
  - apply andb_true_iff in Hover as [HN Hcap]. bprop. apply eq_None_not_Some in HN. split; simpl; [| |done|].
    + intros g a Hg. destruct (Hex g a Hg) as [-> Hin]. rewrite groupOf_snoc by done.
      rewrite decide_False by congruence. split; [done|]. rewrite fmap_app. set_solver.
    + done.
    + intros r' _ _. done.
  - set (st' := <[_ := _]> _).
    assert (agg_eq : default zeroActivity (groups st !! SourceGroup r) = groupOf rows (SourceGroup r)).
    { destruct (groups st !! SourceGroup r) eqn:Hg; [by apply Hex|]. simpl. symmetry. apply groupOf_new.
      intros (r' & Heq & Hin)%list_elem_of_fmap. rewrite Heq in Hg.
      specialize (Hdrop r' Hin Hg). simpl in Hover. apply Z.leb_gt in Hover. lia. }
    subst st'. rewrite agg_eq. split; simpl.
    + intros g a. rewrite lookup_insert, groupOf_snoc, fmap_app by done. case_decide.
      * subst. intros [= <-]. split; [done|]. set_solver.
      * intros [-> Hin]%Hex. split; [done|]. set_solver.
    + intros r' Ho [Hin|Hin%list_elem_of_singleton]%elem_of_app; rewrite lookup_insert;
        case_decide; subst; try done; eauto.
    + rewrite map_size_insert. case_match eqn:Hg; [done|].
      simpl in Hover. bprop. lia.
    + intros r' [Hin|Hin%list_elem_of_singleton]%elem_of_app; rewrite lookup_insert;
        case_decide; subst; try done.
      intros Hg. specialize (Hdrop r' Hin Hg). rewrite map_size_insert. case_match; unfold id; lia.
Qed.

Lemma aggregate_inv p rows st :
  Forall wfRow rows → 1 ≤ SourceCapacity p →
  foldM (aggregateRow p) rows {| groups := ∅; agg_overflow := false; agg_counter := false |} = Ok st →
  aggInv p rows st.
Proof.
  intros Hwf Hcap. revert st. induction rows as [|r rows IH] using rev_ind; intros st H.
  - injection H as <-. split; simpl; try set_solver. rewrite map_size_empty. lia.
  - apply Forall_app in Hwf as [Hrows [Hr _]%Forall_cons]. rewrite foldM_app in H.
    case_match eqn:Hst; [|done]. simpl in H. case_match eqn:Hstep; [|done]. injection H as <-.
    by eapply aggregateRow_inv; [| |apply IH|].
Qed.

(** The counting loop counts, slice by slice, the active qualified groups. *)
Lemma countGroup_spec p gs qc counts :
  (foldl (countGroup p) (qc, counts) gs).2 =
  imap (λ j n, n + Z.of_nat (length (List.filter (activeIn p j) gs))) counts.
Proof.
  revert qc counts. induction gs as [|g gs IH]; intros qc counts; simpl; apply list_eq; intros j.
  - rewrite list_lookup_imap. destruct (counts !! j) as [n|]; [|done]. simpl. f_equal. lia.
  - unfold activeIn at 1. destruct (qualifies p g); rewrite IH, !list_lookup_imap; [|done].
    destruct (counts !! j) as [n|]; [|done]. simpl. f_equal.
    destruct (Z.testbit _ _); simpl; lia.
Qed.

(** *** The third largest count *)

Definition geCount (k : Z) (l : list Z) : nat := length (List.filter (λ n, k <=? n) l).

Lemma geCount_cons k n l : geCount k (n :: l) = ((if (k <=? n)%Z then 1 else 0) + geCount k l)%nat.
Proof. unfold geCount. simpl. by case_match. Qed.

Lemma geCount_app k l1 l2 : geCount k (l1 ++ l2) = (geCount k l1 + geCount k l2)%nat.
Proof. unfold geCount. by rewrite List.filter_app, length_app. Qed.

Lemma geCount_0 k l : Forall (λ n, n < k) l → geCount k l = 0%nat.
Proof. induction 1 as [|n l Hn _ IH]; [done|]. rewrite geCount_cons, IH. case_match; bprop; lia. Qed.

Lemma geCount_le k l : (geCount k l ≤ length l)%nat.
Proof. induction l; rewrite ?geCount_cons; simpl; [unfold geCount; simpl; lia|]. case_match; lia. Qed.

Lemma pushTop_elem n t x : x ∈ pushTop n t → x = n ∨ x ∈ t.
Proof.
  revert n. induction t as [|a t IH]; intros n; simpl; [set_solver|].
  case_match; intros [->|Hx]%elem_of_cons; set_solver.
Qed.

Lemma pushTop_sorted n t : StronglySorted Z.ge t → StronglySorted Z.ge (pushTop n t).
Proof.
  intros H. revert n. induction H as [|a t Ht IH Ha]; intros n; simpl; [constructor|].
  rewrite Forall_forall in Ha.
  destruct (a <? n) eqn:Hlt; bprop; constructor; try apply IH;
    apply Forall_forall; intros x [->|Hx]%pushTop_elem; try lia; specialize (Ha x Hx); lia.
Qed.

Lemma pushTop_geCount k n t :
  StronglySorted Z.ge t →
  geCount k (pushTop n t) = Nat.min (length t) (geCount k (n :: t)).
Proof.
  intros H. revert n. induction H as [|a t Ht IH Ha]; intros n; cbn [length pushTop]; [done|].
  pose proof (geCount_le k t).
  assert (k ≤ a ∨ geCount k t = 0%nat).
  { destruct (Z.le_gt_cases k a); [by left|right]. apply geCount_0. eapply Forall_impl; [done|]. simpl. lia. }
  destruct (a <? n) eqn:Hlt; bprop; rewrite !geCount_cons, IH, ?geCount_cons;
    destruct (k <=? n) eqn:?, (k <=? a) eqn:?; bprop; lia.
Qed.

Lemma length_pushTop n t : length (pushTop n t) = length t.
Proof. revert n. induction t as [|a t IH]; intros n; simpl; [done|]. case_match; simpl; auto. Qed.

Lemma topThree_geCount k counts :
  1 ≤ k →
  StronglySorted Z.ge (topThree counts) ∧ length (topThree counts) = 3%nat ∧
  geCount k (topThree counts) = Nat.min 3 (geCount k counts).
Proof.
  intros Hk. unfold topThree. induction counts as [|n counts IH] using rev_ind.
  - simpl. split; [repeat constructor; lia|]. split; [done|]. rewrite !geCount_cons.
    rewrite (proj2 (Z.leb_gt _ _)) by lia. done.
  - rewrite foldl_app. cbn [foldl]. destruct IH as (Hs & Hl & Hc).
    split; [by apply pushTop_sorted|]. split; [by rewrite length_pushTop|].
    rewrite pushTop_geCount, geCount_cons, Hc, Hl, geCount_app, geCount_cons by done.
    change (geCount k []) with 0%nat. lia.
Qed.

(** The third entry is at least [k] iff at least three counts are. *)
Lemma third_spec k counts :
  1 ≤ k → k ≤ default 0 (topThree counts !! 2%nat) ↔ (3 ≤ geCount k counts)%nat.
Proof.
  intros Hk. destruct (topThree_geCount k counts Hk) as (Hs & Hl & Hc).
  destruct (topThree counts) as [|a [|b [|c [|]]]]; try discriminate Hl. simpl.
  apply StronglySorted_inv in Hs as [Hs [Hab [Hac _]%Forall_cons]%Forall_cons].
  apply StronglySorted_inv in Hs as [_ [Hbc _]%Forall_cons].
  rewrite !geCount_cons in Hc. change (geCount k []) with 0%nat in Hc.
  destruct (k <=? a) eqn:?, (k <=? b) eqn:?, (k <=? c) eqn:?; bprop; lia.
Qed.

Lemma third_nonneg counts : 0 ≤ default 0 (topThree counts !! 2%nat).
Proof.
  unfold topThree. assert (∀ t, Forall (λ x, 0 ≤ x) t → Forall (λ x, 0 ≤ x) (foldl (λ top n, pushTop n top) t counts)) as H.
  { induction counts as [|n counts IH]; intros t Ht; [done|]. simpl. apply IH. clear IH. revert n.
    induction Ht as [|a t Ha _ IHt]; intros n; simpl; [constructor|].
    case_match; bprop; constructor; try lia; apply IHt. }
  specialize (H [0; 0; 0] ltac:(repeat constructor; lia)).
  destruct (_ !! _) eqn:Hl; simpl; [|lia]. by apply (Forall_lookup_1 _ _ _ _ H Hl).
Qed.

(** The kept groups, listed in any order, are among the groups of the rows, and are all
    of them when nothing was dropped. *)
Lemma kept_groups `{!MapRange string SourceActivity} p rows st :
  aggInv p rows st →
  (snd <$> map_range (groups st)) ⊆+ (groupOf rows <$> remove_dups (SourceGroup <$> rows)) ∧
  (agg_overflow st = false →
   (snd <$> map_range (groups st)) ≡ₚ (groupOf rows <$> remove_dups (SourceGroup <$> rows))).
Proof.
  intros [Hex Hcomp _ _].
  assert (snd <$> map_range (groups st) = groupOf rows <$> (map_range (groups st)).*1) as ->.
  { rewrite <-list_fmap_compose. apply list_fmap_ext. intros i [g a] Hi. simpl.
    apply list_elem_of_lookup_2, elem_of_map_range, Hex in Hi. by destruct Hi. }
  split.
  - apply fmap_submseteq, NoDup_submseteq; [apply NoDup_map_range|].
    intros g ([g' a] & -> & Hin)%list_elem_of_fmap. rewrite elem_of_remove_dups.
    apply elem_of_map_range, Hex in Hin. by destruct Hin.
  - intros Ho. apply fmap_Permutation, NoDup_Permutation; [apply NoDup_map_range|apply NoDup_remove_dups|].
    intros g. rewrite elem_of_remove_dups, !list_elem_of_fmap. split.
    + intros ([g' a] & -> & Hin). apply elem_of_map_range, Hex in Hin as [_ Hin].
      by apply list_elem_of_fmap in Hin.
    + intros (r & -> & Hr). destruct (Hcomp r Ho Hr) as [a Ha]. exists (SourceGroup r, a).
      by rewrite elem_of_map_range.
Qed.

Lemma length_filter_submseteq {A} (P : A → bool) (l1 l2 : list A) :
  l1 ⊆+ l2 → (length (List.filter P l1) ≤ length (List.filter P l2))%nat.
Proof. induction 1; simpl; repeat case_match; simpl; lia. Qed.

Lemma length_filter_perm {A} (P : A → bool) (l1 l2 : list A) :
  l1 ≡ₚ l2 → length (List.filter P l1) = length (List.filter P l2).
Proof. intros H. apply Nat.le_antisymm; apply length_filter_submseteq; by rewrite H. Qed.

Lemma length_filter_le {A} (P : A → bool) (l : list A) : (length (List.filter P l) ≤ length l)%nat.
Proof. induction l; simpl; [done|]. case_match; simpl; lia. Qed.

(** The counts of the loop as a function of the slice. *)
Lemma geCount_imap k (f : nat → nat) n :
  geCount k (imap (λ j z, z + Z.of_nat (f j)) (replicate n 0)) =
  length (List.filter (λ j, k <=? Z.of_nat (f j)) (seq 0 n)).
Proof.
  revert f. induction n as [|n IH]; intros f; [done|]. simpl. rewrite geCount_cons, <-seq_shift.
  specialize (IH (λ j, f (S j))). unfold compose. rewrite IH.
  assert (∀ l, length (List.filter (λ j : nat, k <=? Z.of_nat (f j)) (map S l)) =
    length (List.filter (λ j : nat, k <=? Z.of_nat (f (S j))) l)) as Hl.
  { induction l; simpl; [done|]. case_match; simpl; auto. }
  destruct (k <=? Z.of_nat (f 0%nat)) eqn:Hk; simpl; by rewrite Hl, Z.add_0_l, Hk.
Qed.

Lemma filter_length_mono {A} (P Q : A → bool) l :
  (∀ x, P x = true → Q x = true) → (length (List.filter P l) ≤ length (List.filter Q l))%nat.
Proof.
  intros H. induction l as [|x l IH]; simpl; [done|].
  destruct (P x) eqn:HP; [rewrite (H x HP); simpl; lia|]. destruct (Q x); simpl; lia.
Qed.

Lemma filter_length_ext {A} (P Q : A → bool) l :
  (∀ x, P x = Q x) → length (List.filter P l) = length (List.filter Q l).
Proof. intros H. apply Nat.le_antisymm; apply filter_length_mono; intros x; by rewrite H. Qed.

(** [AggregateMinute] with any map iteration order: the range it returns lies within
    0..[SourceCapacity] as [Evaluate] requires; its lower bound is never more than the
    third largest per-slice number of qualified source groups, and is exactly that
    number when no group was dropped; the range is a single value when the input was
    complete and nothing overflowed, and otherwise reaches the saturation point. *)
Theorem AggregateMinute_correct `{!MapRange string SourceActivity} rows complete p out :
  Forall wfRow rows → AggregateMinute rows complete p = Ok out →
  let s := Agg_Sources out in
  (0 ≤ Lower s ≤ Upper s ∧ Upper s ≤ SourceCapacity p) ∧
  (∀ k, 1 ≤ k → k ≤ Lower s → (3 ≤ slicesWith p rows k)%nat) ∧
  (Agg_Overflow out = false → ∀ k, 1 ≤ k → k ≤ Lower s ↔ (3 ≤ slicesWith p rows k)%nat) ∧
  (if complete && negb (Agg_Overflow out) && negb (CounterOverflow out)
   then Upper s = Lower s else Full (ActivitySources p) ≤ Upper s).
Proof.
  intros Hwf H. unfold AggregateMinute in H.
  apply rbind_ok in H as (u & Hp%Validate_unit & H). apply rbind_ok in H as (u' & _ & H).
  apply rbind_ok in H as (st & Hst & H).
  apply aggregate_inv in Hst as Hinv; [|done|apply vp_capacity, Hp].
  set (gs := snd <$> map_range (groups st)) in H.
  destruct (foldl (countGroup p) _ gs) as [qc counts] eqn:Hfold.
  assert (counts = imap (λ j z, z + Z.of_nat (length (List.filter (activeIn p j) gs))) (replicate slices 0)) as ->.
  { rewrite <-(countGroup_spec p gs 0), Hfold. done. }
  set (third := default 0 (topThree _ !! 2%nat)) in H. injection H as <-. simpl.
  assert (∀ k, 1 ≤ k → k ≤ third ↔
    (3 ≤ length (List.filter (λ j, (k <=? Z.of_nat (length (List.filter (activeIn p j) gs)))%Z) (seq 0 slices)))%nat) as Hthird.
  { intros k Hk. unfold third. rewrite third_spec, geCount_imap by done. done. }
  assert (0 ≤ third) as Hnn by apply third_nonneg.
  destruct (kept_groups p rows st Hinv) as [Hsub Hperm]. fold gs in Hsub, Hperm.
  assert (third ≤ SourceCapacity p) as Hcap.
  { destruct (Z.le_gt_cases third (SourceCapacity p)) as [|Hgt]; [done|exfalso].
    destruct (vp_capacity p Hp) as [? _].
    pose proof (proj1 (Hthird third ltac:(lia)) ltac:(lia)) as H3.
    rewrite (filter_length_ext _ (λ _, false)), List.filter_false in H3; [simpl in H3; lia|].
    intros j. apply Z.leb_gt.
    pose proof (length_filter_le (activeIn p j) gs). pose proof (ai_size _ _ _ Hinv).
    assert (length gs = size (groups st)) by (unfold gs; by rewrite length_fmap, map_range_perm, length_map_to_list).
    lia. }
  destruct (vp_activity p Hp) as [_ HF]. rewrite Z.gtb_ltb.
  split_and!; try (repeat case_match; bprop; lia).
  - intros k Hk H3%Hthird; [|done]. etrans; [exact H3|]. apply filter_length_mono. intros j Hj%Z.leb_le.
    apply Z.leb_le. unfold active. pose proof (length_filter_submseteq (activeIn p j) _ _ Hsub). lia.
  - intros Ho k Hk. rewrite Hthird by done. unfold slicesWith, active.
    erewrite (filter_length_ext (λ j, k <=? Z.of_nat (length (List.filter (activeIn p j) gs)))); [reflexivity|].
    intros j. by rewrite (length_filter_perm _ _ _ (Hperm Ho)).
  - destruct complete, (agg_overflow st), (agg_counter st); simpl; try done; case_match; bprop; lia.
Qed.

(** Four sources, three of them busy in the first four slices. *)
Definition sampleRows : list SourceActivity :=
  [{| SourceGroup := "a"; Bitmap := 0xF; Bytes := 20000 |};
   {| SourceGroup := "b"; Bitmap := 0x7; Bytes := 20000 |};
   {| SourceGroup := "a"; Bitmap := 0x30; Bytes := 50 |};
   {| SourceGroup := "c"; Bitmap := 0xFFF; Bytes := 20000 |};
   {| SourceGroup := "d"; Bitmap := 0xFFF; Bytes := 3 |}].

Definition stdRange : MapRange string SourceActivity := map_range_default _ _.

Lemma AggregateMinute_correct_witness :
  AggregateMinute (MapRange0 := stdRange) sampleRows true DefaultPolicy =
    Ok {| Agg_Sources := {| Lower := 3; Upper := 3 |}; Qualified := 3;
          Agg_Overflow := false; CounterOverflow := false |} ∧
  (3 ≤ slicesWith DefaultPolicy sampleRows 3)%nat.
Proof.
  assert (AggregateMinute (MapRange0 := stdRange) sampleRows true DefaultPolicy =
    Ok {| Agg_Sources := {| Lower := 3; Upper := 3 |}; Qualified := 3;
          Agg_Overflow := false; CounterOverflow := false |}) as H by (vm_compute; reflexivity).
  split; [exact H|].
  refine (proj1 (proj2 (AggregateMinute_correct (MapRange0 := stdRange) sampleRows true DefaultPolicy _ _ H)) 3 _ _).
  - repeat (apply Forall_cons_2; [vm_compute; repeat split; discriminate|]). apply Forall_nil_2.
  - lia.
  - simpl. lia.
Defined.

(** ** Properties of baselines *)

(** The days that count: not truncated and with some active minute. *)
Definition countedDay (d : BaselineDay) : bool :=
  negb (Day_Overflow d) && negb (sumZ (dayCounts d) =? 0).

(** Active minutes of the counted days whose bucket is at most [i]. *)
Definition minutesUpTo (days : list BaselineDay) (i : nat) : Z :=
  sumZ ((λ d, sumZ (take (S i) (dayCounts d))) <$> List.filter countedDay days).

Lemma zip_with_add_take n (l1 l2 : list Z) :
  length l1 = length l2 → sumZ (take n (zip_with Z.add l1 l2)) = sumZ (take n l1) + sumZ (take n l2).
Proof.
  revert n l2. induction l1 as [|x l1 IH]; intros n [|y l2] Hl; try discriminate Hl.
  - simpl; by rewrite !take_nil.
  - destruct n; [done|]. simpl. unfold sumZ in *. simpl. rewrite IH by (simpl in Hl; lia). lia.
Qed.

Lemma length_dayCounts d : length (dayCounts d) = 33%nat.
Proof. unfold dayCounts. by rewrite length_fmap, length_vec_to_list. Qed.

Lemma dayCounts_nonneg d : Forall (λ x, 0 ≤ x) (dayCounts d).
Proof. unfold dayCounts. apply Forall_fmap, Forall_forall. intros x _. simpl. lia. Qed.

Record baseInv (days : list BaselineDay) (st : baseState) : Prop := {
  bi_length : length (merged st) = 33%nat;
  bi_upto i : sumZ (take (S i) (merged st)) = minutesUpTo days i;
  bi_nonneg : Forall (λ x, 0 ≤ x) (merged st);
  bi_zero : merged st !! 0%nat = Some 0;
  bi_days : base_days st = Z.of_nat (length (List.filter countedDay days));
  bi_limited : base_limited st = existsb Day_Overflow days;
  bi_minutes : base_minutes st = sumZ (merged st) }.

Lemma minutesUpTo_snoc days d i :
  minutesUpTo (days ++ [d]) i =
  minutesUpTo days i + if countedDay d then sumZ (take (S i) (dayCounts d)) else 0.
Proof.
  unfold minutesUpTo. rewrite List.filter_app, fmap_app, sumZ_app. f_equal. simpl.
  destruct (countedDay d); unfold sumZ; simpl; lia.
Qed.

Lemma baselineDay_inv days d st st' :
  baseInv days st → baselineDay d st = Ok st' → baseInv (days ++ [d]) st'.
Proof.
  intros [Hlen Hup Hnn Hz Hd Hlim Hmin] H. unfold baselineDay in H.
  assert (∀ i, minutesUpTo (days ++ [d]) i =
    sumZ (take (S i) (merged st)) + if countedDay d then sumZ (take (S i) (dayCounts d)) else 0) as Hs.
  { intros i. by rewrite minutesUpTo_snoc, Hup. }
  destruct (Day_Overflow d) eqn:Ho.
  { injection H as <-. assert (countedDay d = false) as Hc by (unfold countedDay; by rewrite Ho).
    split; simpl; try done.
    - intros i. rewrite Hs, Hc. lia.
    - rewrite List.filter_app. simpl. rewrite Hc, app_nil_r. done.
    - rewrite existsb_app. simpl. rewrite Ho. by rewrite orb_true_r. }
  apply rbind_ok in H as (? & Hfirst%fail_if_ok & H). apply rbind_ok in H as (? & _ & H). bprop.
  destruct (sumZ (dayCounts d) =? 0) eqn:Ht; injection H as <-.
  { assert (countedDay d = false) as Hc by (unfold countedDay; by rewrite Ho, Ht).
    split; simpl; try done.
    - intros i. rewrite Hs, Hc. lia.
    - rewrite List.filter_app. simpl. rewrite Hc, app_nil_r. done.
    - rewrite existsb_app. simpl. by rewrite Ho, !orb_false_r. }
  assert (countedDay d = true) as Hc by (unfold countedDay; by rewrite Ho, Ht).
  pose proof (length_dayCounts d) as Hld.
  split; simpl.
  - rewrite length_zip_with. lia.
  - intros i. rewrite zip_with_add_take by lia. by rewrite Hs, Hc.
  - apply Forall_lookup. intros i y (a & b & -> & Ha & Hb)%lookup_zip_with_Some.
    pose proof (Forall_lookup_1 _ _ _ _ Hnn Ha). pose proof (Forall_lookup_1 _ _ _ _ (dayCounts_nonneg d) Hb).
    simpl in *. lia.
  - rewrite lookup_zip_with, Hz. destruct (dayCounts d) as [|n0 l]; [discriminate Hld|].
    simpl in Hfirst |- *. by subst.
  - rewrite List.filter_app, length_app. simpl. rewrite Hc. simpl. lia.
  - rewrite existsb_app. simpl. by rewrite Ho, !orb_false_r.
  - pose proof (zip_with_add_take 33 (merged st) (dayCounts d) ltac:(lia)) as Hz'.
    rewrite !take_ge in Hz' by (rewrite ?length_zip_with; lia). lia.
Qed.

Lemma baseline_inv days st :
  foldM baselineDay days
    {| base_limited := false; base_days := 0; base_minutes := 0; merged := replicate 33 0 |} = Ok st →
  baseInv days st.
Proof.
  revert st. induction days as [|d days IH] using rev_ind; intros st H.
  - assert (st = {| base_limited := false; base_days := 0; base_minutes := 0; merged := replicate 33 0 |}) as ->
      by (cbn [foldM] in H; congruence). split; try done.
    + intros i. cbn [merged]. rewrite take_replicate. change (minutesUpTo [] i) with 0.
      generalize (S i `min` 33)%nat. intros n. unfold sumZ. by induction n.
    + cbn [merged]. by apply Forall_replicate.
  - rewrite foldM_app in H. case_match eqn:Hst; [|done]. simpl in H. case_match eqn:Hd; [|done].
    injection H as <-. by eapply baselineDay_inv; [apply IH|].
Qed.

(** The scan finds the first bucket whose running sum reaches the target. *)
Lemma quantile_spec l i sum target :
  Forall (λ x, 0 ≤ x) l → sum < target ≤ sum + sumZ l →
  ∃ n, (n < length l)%nat ∧ quantile l i sum target = i + Z.of_nat n ∧
    target ≤ sum + sumZ (take (S n) l) ∧ ∀ m, (m < n)%nat → sum + sumZ (take (S m) l) < target.
Proof.
  intros Hl. revert i sum. induction Hl as [|x l Hx _ IH]; intros i sum Ht; simpl.
  { unfold sumZ in Ht. simpl in Ht. lia. }
  unfold sumZ in *. simpl in *. destruct (target <=? sum + x) eqn:He; bprop.
  - exists 0%nat. rewrite take_0. simpl. repeat split; try lia.
  - destruct (IH (i + 1) (sum + x)) as (n & Hn & Hq & Hge & Hlt); [lia|].
    exists (S n). repeat split; [lia|rewrite Hq; lia|simpl in *; lia|].
    intros [|m] Hm; [rewrite take_0; simpl; lia|]. specialize (Hlt m ltac:(lia)). simpl in *. lia.
Qed.

(** The baseline of accepted days: it is limited iff some day was truncated; it is
    ready iff seven counted days hold 200 active minutes; and [Q95] is the nearest-rank
    95th percentile, the least number of sources, within 1..32, that 95% of the active
    minutes do not exceed (0 when there is no active minute). *)
Theorem SummarizeBaseline_correct days b :
  SummarizeBaseline days = Ok b →
  let total := minutesUpTo days 32 in
  Limited b = existsb Day_Overflow days ∧
  ActiveMinutes b = total ∧
  (Ready b = true ↔ (7 ≤ length (List.filter countedDay days))%nat ∧ 200 ≤ total) ∧
  (total = 0 → Q95 b = 0) ∧
  (total ≠ 0 → 1 ≤ Q95 b ≤ 32 ∧ 95 * total ≤ 100 * minutesUpTo days (Z.to_nat (Q95 b)) ∧
     ∀ i, Z.of_nat i < Q95 b → 100 * minutesUpTo days i < 95 * total).
Proof.
  intros H total. unfold SummarizeBaseline in H. apply rbind_ok in H as (? & _ & H).
  apply rbind_ok in H as (st & [Hlen Hup Hnn Hz Hd Hlim Hmin]%baseline_inv & H). injection H as <-. cbn -[quantile Z.quot].
  assert (base_minutes st = total) as Hm.
  { unfold total. rewrite <-Hup, take_ge by lia. done. }
  assert (0 ≤ total) by (rewrite <-Hm, Hmin; by apply sumZ_nonneg).
  rewrite Hm, Z.quot_div_nonneg by lia.
  split; [done|]. split; [done|]. split.
  { rewrite andb_true_iff, !Z.leb_le, Hd. lia. }
  set (target := (total * 95 + 99) / 100).
  assert (100 * target ≤ total * 95 + 99 < 100 * target + 100) as Htarget.
  { unfold target. pose proof (Z.div_mod (total * 95 + 99) 100 ltac:(lia)).
    pose proof (Z.mod_pos_bound (total * 95 + 99) 100 ltac:(lia)). lia. }
  destruct (merged st) as [|n0 l] eqn:Hl; [done|]. injection Hz as ->.
  split.
  - intros Ht0. assert (target = 0) as -> by lia. done.
  - intros Ht. destruct (quantile_spec (0 :: l) 0 0 target) as (n & Hn & Hq & Hge & Hlt).
    + done.
    + rewrite <-Hmin, Hm. lia.
    + rewrite Hq, Z.add_0_l, Nat2Z.id. rewrite <-Hup.
      assert (n ≠ 0%nat) by (intros ->; simpl in Hge; unfold sumZ in Hge; simpl in Hge; lia).
      split; [rewrite Hlen in Hn; lia|]. split; [lia|].
      intros i Hi. rewrite <-Hup. specialize (Hlt i ltac:(lia)). lia.
Qed.

Lemma Q95_bounds days b : SummarizeBaseline days = Ok b → 0 ≤ Q95 b ≤ 32.
Proof.
  unfold SummarizeBaseline. intros H. apply rbind_ok in H as (? & _ & H).
  apply rbind_ok in H as (st & [Hlen _ _ _ _ _ _]%baseline_inv & H). injection H as <-. cbn -[quantile Z.quot].
  assert (∀ l i s t, 0 ≤ i → 0 ≤ quantile l i s t ≤ Z.max 0 (i + Z.of_nat (length l) - 1)) as Hq.
  { induction l as [|n l IH]; intros i s t Hi; simpl; [lia|]. case_match; [lia|].
    specialize (IH (i + 1) (s + n) t). lia. }
  pose proof (Hq (merged st) 0 0 (Z.quot (base_minutes st * 95 + 99) 100)). rewrite Hlen in *. lia.
Qed.

(** Adapting a valid policy to the baseline of accepted days never fails and gives a
    valid policy that differs only in the activity source thresholds, which keep their
    distance, never fall and lie above the baseline when they were moved; it reports
    saturation exactly when the moved thresholds would not fit the capacity, and then
    leaves the policy as it was. *)
Theorem AdaptPolicy_correct p days b :
  Validate p = Ok () → SummarizeBaseline days = Ok b →
  ∃ p' saturated, AdaptPolicy p b = Ok (p', saturated) ∧ Validate p' = Ok () ∧
    p' = setActivitySources p (ActivitySources p') ∧
    Full (ActivitySources p') - Start (ActivitySources p') = Full (ActivitySources p) - Start (ActivitySources p) ∧
    Start (ActivitySources p) ≤ Start (ActivitySources p') ∧
    (Ready b = true → Limited b = false → saturated = false → Q95 b < Start (ActivitySources p')) ∧
    (saturated = true → p' = p) ∧
    (saturated = true ↔ Ready b = true ∧ Limited b = false ∧
       SourceCapacity p < Z.max (Start (ActivitySources p)) (Q95 b + 1) +
         Full (ActivitySources p) - Start (ActivitySources p)).
Proof.
  intros Hp Hb%Q95_bounds. apply Validate_ok in Hp as Hv. unfold AdaptPolicy. rewrite Hp. cbn [rbind].
  assert (p = setActivitySources p (ActivitySources p)) as Hid by (by destruct p).
  destruct Hv as [Hver [Ha1 Ha2] Hmi Hex Hca Hby Hsl].
  rewrite (int_wrap_small (Q95 b + 1)), (int_wrap_small (_ + _)), int_wrap_small by lia.
  destruct (negb (Ready b) || Limited b) eqn:Hr.
  { exists p, false. split_and!; try done; try lia.
    - intros HR HL. by rewrite HR, HL in Hr.
    - split; [done|]. intros (HR & HL & _). by rewrite HR, HL in Hr. }
  bprop. case_match eqn:Hc; bprop.
  { exists p, true. split_and!; try done; lia. }
  exists (setActivitySources p {| Start := Z.max (Start (ActivitySources p)) (Q95 b + 1);
    Full := Z.max (Start (ActivitySources p)) (Q95 b + 1) + Full (ActivitySources p) - Start (ActivitySources p) |}),
    false.
  split; [done|]. split; [apply Validate_ok; split; simpl; done || lia|].
  split; [done|]. simpl. split_and!; try done; try lia.
Qed.

(** Seven days of two hours with five sources each. *)
Definition sampleDay : BaselineDay :=
  {| Histogram := fun_to_vec (λ i : fin 33, if (fin_to_nat i =? 5)%nat then 120%N else 0%N);
     Day_Overflow := false |}.

Lemma SummarizeBaseline_correct_witness : 1 ≤ 5 ≤ 32.
Proof.
  refine (proj1 (proj2 (proj2 (proj2 (proj2 (SummarizeBaseline_correct (replicate 7 sampleDay)
    {| Ready := true; Limited := false; ValidDays := 7; ActiveMinutes := 840; Q95 := 5 |} _)))) _)).
  - vm_compute. reflexivity.
  - vm_compute. discriminate.
Defined.

Lemma AdaptPolicy_correct_witness :
  ∃ p' saturated,
    AdaptPolicy DefaultPolicy {| Ready := true; Limited := false; ValidDays := 7; ActiveMinutes := 840; Q95 := 5 |}
      = Ok (p', saturated) ∧ Validate p' = Ok ().
Proof.
  destruct (AdaptPolicy_correct DefaultPolicy (replicate 7 sampleDay)
    {| Ready := true; Limited := false; ValidDays := 7; ActiveMinutes := 840; Q95 := 5 |})
    as (p' & s & H1 & H2 & _).
  - reflexivity.
  - vm_compute. reflexivity.
  - exists p', s. split; [exact H1|exact H2].
Defined.
