(* ===== verification/SubscriptionOrder.v ===== *)
(** * Subscription node order ([internal/core/subscription_order.go])

    The ordering policy of a plan revision is normalised by
    [ValidateSubscriptionNodeOrderPolicy]; [OrderSubscriptionNodes] applies it to the
    final node list that every renderer shares, and [AutoPlaceNewManualNodes] places new
    nodes into a manual order.  The fields of a node that the ordering never reads (the
    rendered payload [Raw] and the embedded [Inbound] and [Server]) are left out. *)

From S2P Require Import Prelude Model NodeKeys.

Local Open Scope Z_scope.
Local Open Scope go_scope.

Definition OrderLegacyGroupName : string := "legacy_group_name".
Definition OrderExitRegion : string := "exit_region".
Definition OrderEntry : string := "entry".
Definition OrderManual : string := "manual".
Definition OrderVersion : Z := 2.
Definition EntryRegionInheritExit : string := "inherit_exit".
Definition EntryRegionCustom : string := "custom".
Definition PlacementByTemplate : string := "by_template".
Definition PlacementAppend : string := "append".
Definition PlacementPending : string := "pending".

Record OrderPolicy := {
  Version : Z;
  Mode : string;
  ManualSeed : string;
  ExitRegionOrder : list string;
  EntryRegionOrderMode : string;
  EntryRegionOrder : list string;
  EntryOrder : list string;
  NewNodePlacement : string;
  UnmatchedPlacement : string;
  GroupByLanding : bool }.

Definition DefaultSubscriptionNodeOrderPolicy : OrderPolicy :=
  {| Version := 1; Mode := OrderLegacyGroupName; ManualSeed := OrderExitRegion; ExitRegionOrder := [];
     EntryRegionOrderMode := EntryRegionInheritExit; EntryRegionOrder := []; EntryOrder := [];
     NewNodePlacement := PlacementPending; UnmatchedPlacement := PlacementPending; GroupByLanding := false |}.

Definition NewSubscriptionNodeOrderPolicy : OrderPolicy :=
  {| Version := OrderVersion; Mode := OrderExitRegion; ManualSeed := OrderExitRegion; ExitRegionOrder := [];
     EntryRegionOrderMode := EntryRegionInheritExit; EntryRegionOrder := []; EntryOrder := [];
     NewNodePlacement := PlacementByTemplate; UnmatchedPlacement := PlacementAppend; GroupByLanding := true |}.

Definition setMode (p : OrderPolicy) (mode : string) : OrderPolicy :=
  {| Version := Version p; Mode := mode; ManualSeed := ManualSeed p; ExitRegionOrder := ExitRegionOrder p;
     EntryRegionOrderMode := EntryRegionOrderMode p; EntryRegionOrder := EntryRegionOrder p;
     EntryOrder := EntryOrder p; NewNodePlacement := NewNodePlacement p;
     UnmatchedPlacement := UnmatchedPlacement p; GroupByLanding := GroupByLanding p |}.

Inductive orderError :=
| InvalidMode (mode : string)
| InvalidManualSeed (seed : string)
| InvalidEntryRegionOrderMode (mode : string)
| InvalidRegionCode (raw : string)
| DuplicateRegionCode (code : string)
| InvalidEntryKey (key : string)
| DuplicateEntryKey (key : string)
| InvalidPlacement (value : string)
| InvalidTemplateVersion (v : Z)
| InvalidTemplateBaseMode (mode : string).

(** ** Validation *)

(** A [switch] over string constants whose empty case takes a default. *)
Definition oneOf (v : string) (allowed : list string) : bool := existsb (String.eqb v) allowed.
Definition orDefault (v d : string) : string := if (v =? "")%string then d else v.

Definition regionStep (raw : string) (st : list string * gset string) :
    result orderError (list string * gset string) :=
  let '(out, seen) := st in
  let code := NormalizeRegionCode raw in
  if (code =? "")%string then Err (InvalidRegionCode raw)
  else if bool_decide (code ∈ seen) then Err (DuplicateRegionCode code)
  else Ok (out ++ [code], {[code]} ∪ seen).

Definition normalizeRegionOrderList (l : list string) : result orderError (list string) :=
  let* st := foldM regionStep l ([], ∅) in Ok st.1.

Definition entryStep (key : string) (st : list string * gset string) :
    result orderError (list string * gset string) :=
  let '(entries, seen) := st in
  let key := TrimSpace key in
  if (key =? "")%string then Ok (entries, seen)
  else match ParseNodeKey key with
  | Some (nodeType, id) =>
      if negb (nodeType =? AssignableNodeInbound)%string || (id <=? 0) then Err (InvalidEntryKey key)
      else if bool_decide (key ∈ seen) then Err (DuplicateEntryKey key)
      else Ok (entries ++ [key], {[key]} ∪ seen)
  | None => Err (InvalidEntryKey key)
  end.

Definition normalizeEntryOrder (l : list string) : result orderError (list string) :=
  let* st := foldM entryStep l ([], ∅) in Ok st.1.

Definition validateNodePlacement (value : string) (allowTemplate : bool) : result orderError unit :=
  fail_if (negb ((value =? PlacementAppend)%string || (value =? PlacementPending)%string ||
                 ((value =? PlacementByTemplate)%string && allowTemplate)))
          (InvalidPlacement value).

Definition ValidateSubscriptionNodeOrderPolicy (policy : OrderPolicy) : result orderError OrderPolicy :=
  let* _ := fail_if (negb (oneOf (Mode policy) [""; OrderLegacyGroupName; OrderExitRegion; OrderEntry; OrderManual]))
                    (InvalidMode (Mode policy)) in
  let* _ := fail_if (negb (oneOf (ManualSeed policy) [""; OrderExitRegion; OrderEntry]))
                    (InvalidManualSeed (ManualSeed policy)) in
  let* _ := fail_if (negb (oneOf (EntryRegionOrderMode policy) [""; EntryRegionInheritExit; EntryRegionCustom]))
                    (InvalidEntryRegionOrderMode (EntryRegionOrderMode policy)) in
  let* regions := normalizeRegionOrderList (ExitRegionOrder policy) in
  let* entryRegions := normalizeRegionOrderList (EntryRegionOrder policy) in
  let* entries := normalizeEntryOrder (EntryOrder policy) in
  let newNode := orDefault (NewNodePlacement policy)
    (if Version policy <=? 1 then PlacementPending else PlacementByTemplate) in
  let unmatched := orDefault (UnmatchedPlacement policy)
    (if Version policy <=? 1 then PlacementPending else PlacementAppend) in
  let* _ := validateNodePlacement newNode true in
  let* _ := validateNodePlacement unmatched false in
  Ok {| Version := OrderVersion;
        Mode := orDefault (Mode policy) OrderLegacyGroupName;
        ManualSeed := orDefault (ManualSeed policy) OrderExitRegion;
        ExitRegionOrder := regions;
        EntryRegionOrderMode := orDefault (EntryRegionOrderMode policy) EntryRegionInheritExit;
        EntryRegionOrder := entryRegions;
        EntryOrder := entries;
        NewNodePlacement := newNode;
        UnmatchedPlacement := unmatched;
        GroupByLanding := GroupByLanding policy |}.

Record TemplatePolicy := {
  T_Version : Z;
  T_BaseMode : string;
  T_ExitRegionOrder : list string;
  T_EntryRegionOrderMode : string;
  T_EntryRegionOrder : list string;
  T_EntryOrder : list string;
  T_NewNodePlacement : string;
  T_UnmatchedPlacement : string;
  T_GroupByLanding : bool }.

Definition SubscriptionPolicyFromTemplate (t : TemplatePolicy) (mode : string) : OrderPolicy :=
  {| Version := OrderVersion;
     Mode := orDefault mode (T_BaseMode t);
     ManualSeed := T_BaseMode t;
     ExitRegionOrder := T_ExitRegionOrder t;
     EntryRegionOrderMode := T_EntryRegionOrderMode t;
     EntryRegionOrder := T_EntryRegionOrder t;
     EntryOrder := T_EntryOrder t;
     NewNodePlacement := T_NewNodePlacement t;
     UnmatchedPlacement := T_UnmatchedPlacement t;
     GroupByLanding := T_GroupByLanding t |}.

Definition ValidateNodeOrderTemplatePolicy (t : TemplatePolicy) : result orderError TemplatePolicy :=
  let version := if T_Version t =? 0 then 1 else T_Version t in
  let* _ := fail_if (negb (version =? 1)) (InvalidTemplateVersion version) in
  let* _ := fail_if (negb (T_BaseMode t =? OrderExitRegion)%string && negb (T_BaseMode t =? OrderEntry)%string)
                    (InvalidTemplateBaseMode (T_BaseMode t)) in
  let* p := ValidateSubscriptionNodeOrderPolicy (SubscriptionPolicyFromTemplate t (T_BaseMode t)) in
  Ok {| T_Version := version; T_BaseMode := T_BaseMode t;
        T_ExitRegionOrder := ExitRegionOrder p; T_EntryRegionOrderMode := EntryRegionOrderMode p;
        T_EntryRegionOrder := EntryRegionOrder p; T_EntryOrder := EntryOrder p;
        T_NewNodePlacement := NewNodePlacement p; T_UnmatchedPlacement := UnmatchedPlacement p;
        T_GroupByLanding := GroupByLanding p |}.

(** ** Ranking *)

Record SubscriptionNode := {
  Key : string;
  NodeType : string;
  NodeID : Z;
  Name : string;
  Group : string;
  SourceName : string;
  GlobalName : string;
  PlanNameOverride : option string;
  HasPlanNameOverride : bool;
  EntryKey : string;
  EntryInboundID : Z;
  EntryServerID : Z;
  EntryRegion : string;
  ExitServerID : Z;
  ExitExternalOutboundID : Z;
  ExitRegion : string;
  ManualPosition : option Z;
  NodeServerID : Z }.

Record subscriptionOrderRank := {
  exitRegionRank : Z;
  exitRegionCode : string;
  entryRegionRank : Z;
  entryListed : bool;
  entryIndex : Z;
  entryServerID : Z;
  entryInboundID : Z;
  entryKey : string;
  manualPosition : Z;
  hasManual : bool;
  rank_name : string;
  rank_key : string;
  landingKey : string }.

Record rankedSubscriptionNode := { node : SubscriptionNode; rank : subscriptionOrderRank }.

(** [rank[code] = index] over a list: the last index of a code wins. *)
Definition buildRegionRank (l : list string) : gmap string Z :=
  foldl (λ m '(i, code), <[code := Z.of_nat i]> m) ∅ (imap pair l).

Definition regionRankOf (m : gmap string Z) (code : string) : Z :=
  match m !! code with
  | Some i => i
  | None => if (code =? "")%string then Z.shiftl 1 30 else Z.of_nat (size m)
  end.

Definition subscriptionNodeLandingKey (n : SubscriptionNode) : string :=
  if 0 <? ExitServerID n then ("server:" +:+ FormatInt (ExitServerID n))%string
  else if 0 <? ExitExternalOutboundID n then ("external:" +:+ FormatInt (ExitExternalOutboundID n))%string
  else ""%string.

(** The rank of one node; [entryRankByKey] is built like a region rank. *)
Definition rankNode (exitRank entryRegionRanks entryRankByKey : gmap string Z) (n : SubscriptionNode) :
    rankedSubscriptionNode :=
  let exitCode := NormalizeRegionCode (ExitRegion n) in
  let entryCode := NormalizeRegionCode (EntryRegion n) in
  let listed := entryRankByKey !! EntryKey n in
  {| node := n;
     rank := {| exitRegionRank := regionRankOf exitRank exitCode;
                exitRegionCode := exitCode;
                entryRegionRank := regionRankOf entryRegionRanks entryCode;
                entryListed := bool_decide (is_Some listed);
                entryIndex := default (Z.of_nat (size entryRankByKey)) listed;
                entryServerID := EntryServerID n;
                entryInboundID := EntryInboundID n;
                entryKey := EntryKey n;
                manualPosition := default (-1) (ManualPosition n);
                hasManual := bool_decide (is_Some (ManualPosition n));
                rank_name := Name n;
                rank_key := Key n;
                landingKey := subscriptionNodeLandingKey n |} |}.

(** *** Comparators *)

Definition legacyLess (a b : SubscriptionNode) : bool :=
  if (Group a =? Group b)%string then str_lt (Name a) (Name b) else str_lt (Group a) (Group b).

Definition entryLess (a b : subscriptionOrderRank) : bool :=
  if negb (Bool.eqb (entryListed a) (entryListed b)) then entryListed a
  else if negb (entryIndex a =? entryIndex b) then entryIndex a <? entryIndex b
  else if negb (entryServerID a =? entryServerID b) then entryServerID a <? entryServerID b
  else if negb (entryInboundID a =? entryInboundID b) then entryInboundID a <? entryInboundID b
  else str_lt (entryKey a) (entryKey b).

Definition exitRegionLess (a b : subscriptionOrderRank) : bool :=
  if negb (exitRegionRank a =? exitRegionRank b) then exitRegionRank a <? exitRegionRank b
  else if negb (exitRegionCode a =? exitRegionCode b)%string then str_lt (exitRegionCode a) (exitRegionCode b)
  else if negb (entryRegionRank a =? entryRegionRank b) then entryRegionRank a <? entryRegionRank b
  else if entryLess a b then true
  else if entryLess b a then false
  else if negb (rank_name a =? rank_name b)%string then str_lt (rank_name a) (rank_name b)
  else str_lt (rank_key a) (rank_key b).

Definition entryModeLess (a b : subscriptionOrderRank) : bool :=
  if negb (entryRegionRank a =? entryRegionRank b) then entryRegionRank a <? entryRegionRank b
  else if entryLess a b then true
  else if entryLess b a then false
  else if negb (exitRegionRank a =? exitRegionRank b) then exitRegionRank a <? exitRegionRank b
  else if negb (exitRegionCode a =? exitRegionCode b)%string then str_lt (exitRegionCode a) (exitRegionCode b)
  else if negb (rank_name a =? rank_name b)%string then str_lt (rank_name a) (rank_name b)
  else str_lt (rank_key a) (rank_key b).

Definition manualLess (a b : subscriptionOrderRank) : bool :=
  if negb (Bool.eqb (hasManual a) (hasManual b)) then hasManual a
  else if hasManual a then manualPosition a <? manualPosition b
  else false.

Definition tailExitLess (a b : subscriptionOrderRank) : bool :=
  if negb (exitRegionRank a =? exitRegionRank b) then exitRegionRank a <? exitRegionRank b
  else if negb (exitRegionCode a =? exitRegionCode b)%string then str_lt (exitRegionCode a) (exitRegionCode b)
  else if negb (entryRegionRank a =? entryRegionRank b) then entryRegionRank a <? entryRegionRank b
  else if negb (entryKey a =? entryKey b)%string then str_lt (entryKey a) (entryKey b)
  else if negb (rank_name a =? rank_name b)%string then str_lt (rank_name a) (rank_name b)
  else str_lt (rank_key a) (rank_key b).

Definition tailEntryLess (a b : subscriptionOrderRank) : bool :=
  if negb (entryRegionRank a =? entryRegionRank b) then entryRegionRank a <? entryRegionRank b
  else if negb (entryKey a =? entryKey b)%string then str_lt (entryKey a) (entryKey b)
  else if negb (exitRegionRank a =? exitRegionRank b) then exitRegionRank a <? exitRegionRank b
  else if negb (exitRegionCode a =? exitRegionCode b)%string then str_lt (exitRegionCode a) (exitRegionCode b)
  else if negb (rank_name a =? rank_name b)%string then str_lt (rank_name a) (rank_name b)
  else str_lt (rank_key a) (rank_key b).

(** *** Landing groups *)

Record landingState := { landing_index : gmap string nat; landing_buckets : list (list rankedSubscriptionNode) }.

Definition landingStep (st : landingState) (item : rankedSubscriptionNode) : landingState :=
  let landing := landingKey (rank item) in
  if (landing =? "")%string
  then {| landing_index := landing_index st; landing_buckets := landing_buckets st ++ [[item]] |}
  else match landing_index st !! landing with
  | Some index =>
      {| landing_index := landing_index st;
         landing_buckets := alter (λ b, b ++ [item]) index (landing_buckets st) |}
  | None =>
      {| landing_index := <[landing := length (landing_buckets st)]> (landing_index st);
         landing_buckets := landing_buckets st ++ [[item]] |}
  end.

(** One exit region, [ranked[start:end]]. *)
Definition groupRun (run : list rankedSubscriptionNode) : list rankedSubscriptionNode :=
  concat (landing_buckets (foldl landingStep {| landing_index := ∅; landing_buckets := [] |} run)).

Definition sameRegion (a b : rankedSubscriptionNode) : bool :=
  (exitRegionCode (rank b) =? exitRegionCode (rank a))%string.

(** The longest prefix that satisfies a test, and the rest. *)
Fixpoint spanWhile {A} (P : A → bool) (l : list A) : list A * list A :=
  match l with
  | [] => ([], [])
  | x :: l' => if P x then let '(a, b) := spanWhile P l' in (x :: a, b) else ([], l)
  end.

(** The outer loop; each round consumes at least one element, so the length is enough fuel. *)
Fixpoint groupRuns (fuel : nat) (ranked : list rankedSubscriptionNode) : list rankedSubscriptionNode :=
  match fuel, ranked with
  | S fuel, x :: rest =>
      let '(run, rest) := spanWhile (sameRegion x) rest in
      groupRun (x :: run) ++ groupRuns fuel rest
  | _, _ => []
  end.

Definition groupRankedByLanding (ranked : list rankedSubscriptionNode) : list rankedSubscriptionNode :=
  groupRuns (length ranked) ranked.

Definition byRank (less : subscriptionOrderRank → subscriptionOrderRank → bool)
    (a b : rankedSubscriptionNode) : bool := less (rank a) (rank b).

Definition orderManualTail (ranked : list rankedSubscriptionNode) (seedMode : string) (groupByLanding : bool) :
    list rankedSubscriptionNode :=
  let placedCount := length (List.filter (λ r, hasManual (rank r)) ranked) in
  if (placedCount =? length ranked)%nat then ranked
  else
    let head := take placedCount ranked in
    let tail := drop placedCount ranked in
    let entrySeed := (seedMode =? OrderEntry)%string in
    let tail := sort_slice (byRank (if entrySeed then tailEntryLess else tailExitLess)) tail in
    head ++ if groupByLanding && negb entrySeed then groupRankedByLanding tail else tail.

(** The policy the ordering works with: an invalid one is replaced by the default. *)
Definition normalizedPolicy (policy : OrderPolicy) (mode : string) : OrderPolicy :=
  match ValidateSubscriptionNodeOrderPolicy policy with
  | Ok p => p
  | Err _ => setMode NewSubscriptionNodeOrderPolicy mode
  end.

Definition rankNodes (p : OrderPolicy) (nodes : list SubscriptionNode) : list rankedSubscriptionNode :=
  let exitRank := buildRegionRank (ExitRegionOrder p) in
  let entryRegionRanks := if (EntryRegionOrderMode p =? EntryRegionCustom)%string
                          then buildRegionRank (EntryRegionOrder p) else exitRank in
  rankNode exitRank entryRegionRanks (buildRegionRank (EntryOrder p)) <$> nodes.

(** The [switch mode] that sorts the ranked nodes. *)
Definition sortRanked (p : OrderPolicy) (mode : string) (ranked : list rankedSubscriptionNode) :
    list rankedSubscriptionNode :=
  if (mode =? OrderExitRegion)%string then
    let sorted := sort_slice (byRank exitRegionLess) ranked in
    if GroupByLanding p then groupRankedByLanding sorted else sorted
  else if (mode =? OrderEntry)%string then sort_slice (byRank entryModeLess) ranked
  else if (mode =? OrderManual)%string then
    orderManualTail (sort_slice (byRank manualLess) ranked) (orDefault (ManualSeed p) OrderExitRegion)
      (GroupByLanding p)
  else ranked.

Definition OrderSubscriptionNodes (nodes : list SubscriptionNode) (policy : OrderPolicy) :
    list SubscriptionNode :=
  if (length nodes <? 2)%nat then nodes
  else
    let mode := orDefault (Mode policy) OrderLegacyGroupName in
    if (mode =? OrderLegacyGroupName)%string then sort_slice legacyLess nodes
    else
      let p := normalizedPolicy policy mode in
      node <$> sortRanked p mode (rankNodes p nodes).

(** ** Placement of new nodes *)

Record OrderingWarning := { W_Code : string; W_Message : string; W_Count : Z }.
Record AutoPlacementDetail := { D_NodeKey : string; D_Bucket : string; D_Reason : string }.
Record AutoPlacementResult := {
  OrderedNodeKeys : list string;
  PendingNodeKeys : list string;
  Warnings : list OrderingWarning;
  Details : list AutoPlacementDetail }.
Record placementBucket := { bucket_key : string; bucket_rank : Z; bucket_matched : bool }.

(** The first index of the exact entry key. *)
Fixpoint indexOfKey (k : string) (l : list string) (i : Z) : option Z :=
  match l with
  | [] => None
  | x :: l => if (x =? k)%string then Some i else indexOfKey k l (i + 1)
  end.

Definition placementBucketFor (n : SubscriptionNode) (p : OrderPolicy) : placementBucket :=
  if (ManualSeed p =? OrderEntry)%string then
    let region := NormalizeRegionCode (EntryRegion n) in
    let regionOrder := if (EntryRegionOrderMode p =? EntryRegionCustom)%string
                       then EntryRegionOrder p else ExitRegionOrder p in
    let regionFound := buildRegionRank regionOrder !! region in
    let regionRank := default 0 regionFound in
    let regionMatched := bool_decide (is_Some regionFound) in
    let exact := indexOfKey (EntryKey n) (EntryOrder p) 0 in
    let exactMatched := bool_decide (is_Some exact) in
    let base := if regionMatched then regionRank else Z.of_nat (length regionOrder) in
    let rank := match exact with
                | Some exactRank => base * 100000 + exactRank
                | None => base * 100000 + 50000
                end in
    let unlisted := regionMatched && negb exactMatched in
    {| bucket_key := if unlisted then ("entry-region:" +:+ region +:+ ":unlisted")%string
                     else ("entry:" +:+ region +:+ ":" +:+ EntryKey n)%string;
       bucket_rank := if unlisted then regionRank * 100000 + 99999 else rank;
       bucket_matched := (regionMatched || exactMatched) && negb (EntryKey n =? "")%string |}
  else
    let region := NormalizeRegionCode (ExitRegion n) in
    let found := buildRegionRank (ExitRegionOrder p) !! region in
    {| bucket_key := ("exit:" +:+ region)%string;
       bucket_rank := default 0 found;
       bucket_matched := bool_decide (is_Some found) && negb (region =? "")%string |}.

Definition SubscriptionNodeTemplateBucket (n : SubscriptionNode) (p : OrderPolicy) : string * bool :=
  (bucket_key (placementBucketFor n p), bucket_matched (placementBucketFor n p)).

Definition zeroNode : SubscriptionNode :=
  {| Key := ""; NodeType := ""; NodeID := 0; Name := ""; Group := ""; SourceName := ""; GlobalName := "";
     PlanNameOverride := None; HasPlanNameOverride := false; EntryKey := ""; EntryInboundID := 0;
     EntryServerID := 0; EntryRegion := ""; ExitServerID := 0; ExitExternalOutboundID := 0; ExitRegion := "";
     ManualPosition := None; NodeServerID := 0 |}.

Definition int_max : Z := int64_max.

Record anchorState := {
  lastSame : Z; predecessorIndex : Z; predecessorRank : Z; successorIndex : Z; successorRank : Z }.

Definition anchorStep (nodes : gmap string SubscriptionNode) (target : placementBucket) (p : OrderPolicy)
    (st : anchorState) (ik : nat * string) : anchorState :=
  let '(i, key) := ik in
  let index := Z.of_nat i in
  let b := placementBucketFor (default zeroNode (nodes !! key)) p in
  if negb (bucket_matched b) then st
  else
    let pred := (bucket_rank b <? bucket_rank target) && (predecessorRank st <=? bucket_rank b) in
    let succ := (bucket_rank target <? bucket_rank b) && (bucket_rank b <? successorRank st) in
    {| lastSame := if (bucket_key b =? bucket_key target)%string then index else lastSame st;
       predecessorIndex := if pred then index else predecessorIndex st;
       predecessorRank := if pred then bucket_rank b else predecessorRank st;
       successorIndex := if succ then index else successorIndex st;
       successorRank := if succ then bucket_rank b else successorRank st |}.

Definition manualBucketInsertionIndex (order : list string) (nodes : gmap string SubscriptionNode)
    (target : placementBucket) (p : OrderPolicy) : Z * string :=
  let st := foldl (anchorStep nodes target p)
    {| lastSame := -1; predecessorIndex := -1; predecessorRank := -1; successorIndex := -1;
       successorRank := int_max |} (imap pair order) in
  if 0 <=? lastSame st then (lastSame st + 1, "insert_after_same_bucket"%string)
  else if 0 <=? predecessorIndex st then (predecessorIndex st + 1, "insert_after_predecessor_bucket"%string)
  else if 0 <=? successorIndex st then (successorIndex st, "insert_before_successor_bucket"%string)
  else (Z.of_nat (length order), "append_without_anchor"%string).

(** [input[:at] ++ values ++ input[at:]]. *)
Definition insertStrings (input : list string) (at_ : Z) (values : list string) : list string :=
  take (Z.to_nat at_) input ++ values ++ drop (Z.to_nat at_) input.

Definition detail (p : OrderPolicy) (reason : string) (n : SubscriptionNode) : AutoPlacementDetail :=
  {| D_NodeKey := Key n; D_Bucket := bucket_key (placementBucketFor n p); D_Reason := reason |}.

(** The groups of matched new nodes, their buckets, and the unmatched ones. *)
Record grouping := {
  g_groups : gmap string (list SubscriptionNode);
  g_buckets : gmap string placementBucket;
  g_unmatched : list SubscriptionNode }.

Definition groupStep (p : OrderPolicy) (st : grouping) (n : SubscriptionNode) : grouping :=
  let b := placementBucketFor n p in
  if negb (bucket_matched b)
  then {| g_groups := g_groups st; g_buckets := g_buckets st; g_unmatched := g_unmatched st ++ [n] |}
  else {| g_groups := mappend (bucket_key b) n (g_groups st);
          g_buckets := <[bucket_key b := b]> (g_buckets st);
          g_unmatched := g_unmatched st |}.

Definition zeroBucket : placementBucket := {| bucket_key := ""; bucket_rank := 0; bucket_matched := false |}.

Definition bucketOf (buckets : gmap string placementBucket) (k : string) : placementBucket :=
  default zeroBucket (buckets !! k).

Definition groupKeyLess (buckets : gmap string placementBucket) (a b : string) : bool :=
  if bucket_rank (bucketOf buckets a) =? bucket_rank (bucketOf buckets b) then str_lt a b
  else bucket_rank (bucketOf buckets a) <? bucket_rank (bucketOf buckets b).

Record placing := {
  pl_order : list string; pl_nodes : gmap string SubscriptionNode; pl_details : list AutoPlacementDetail }.

(** One group: its nodes are inserted together at the anchor. *)
Definition placeGroup (p : OrderPolicy) (g : grouping) (st : placing) (groupKey : string) : placing :=
  let bucket := bucketOf (g_buckets g) groupKey in
  let members := mlist (g_groups g) groupKey in
  let '(insertAt, reason) := manualBucketInsertionIndex (pl_order st) (pl_nodes st) bucket p in
  {| pl_order := insertStrings (pl_order st) insertAt (Key <$> members);
     pl_nodes := foldl (λ m n, <[Key n := n]> m) (pl_nodes st) members;
     pl_details := pl_details st ++
       ((λ n, {| D_NodeKey := Key n; D_Bucket := bucket_key bucket; D_Reason := reason |}) <$> members) |}.

Definition unmatchedWarning (n : nat) : OrderingWarning :=
  {| W_Code := "unmatched_nodes";
     W_Message := (FormatInt (Z.of_nat n) +:+ " 个节点无法匹配模板")%string; W_Count := Z.of_nat n |}.

(** Placement by template. *)
Definition placeByTemplate `{!MapRange string (list SubscriptionNode)}
    (existing orderedAdded : list SubscriptionNode) (p : OrderPolicy) : AutoPlacementResult :=
  let g := foldl (groupStep p) {| g_groups := ∅; g_buckets := ∅; g_unmatched := [] |} orderedAdded in
  let groupKeys := sort_slice (groupKeyLess (g_buckets g)) (fst <$> map_range (g_groups g)) in
  let st := foldl (placeGroup p g)
    {| pl_order := Key <$> existing; pl_nodes := indexBy Key existing; pl_details := [] |} groupKeys in
  let pend := (UnmatchedPlacement p =? PlacementPending)%string in
  let un := g_unmatched g in
  match un with
  | [] => {| OrderedNodeKeys := pl_order st; PendingNodeKeys := []; Warnings := []; Details := pl_details st |}
  | _ => {| OrderedNodeKeys := pl_order st ++ (if pend then [] else Key <$> un);
            PendingNodeKeys := if pend then Key <$> un else [];
            Warnings := [unmatchedWarning (length un)];
            Details := pl_details st ++
              (detail p (if pend then "unmatched_pending" else "unmatched_append") <$> un) |}
  end.

(** The policy new nodes are sorted with before placement. *)
Definition seedPolicy (p : OrderPolicy) : OrderPolicy :=
  setMode p (if (ManualSeed p =? OrderEntry)%string then ManualSeed p else OrderExitRegion).

Definition AutoPlaceNewManualNodes `{!MapRange string (list SubscriptionNode)}
    (existing added : list SubscriptionNode) (policy : OrderPolicy) : AutoPlacementResult :=
  let p := normalizedPolicy policy OrderManual in
  match added with
  | [] => {| OrderedNodeKeys := Key <$> existing; PendingNodeKeys := []; Warnings := []; Details := [] |}
  | _ =>
      let orderedAdded := OrderSubscriptionNodes added (seedPolicy p) in
      if (NewNodePlacement p =? PlacementPending)%string then
        {| OrderedNodeKeys := Key <$> existing; PendingNodeKeys := Key <$> orderedAdded; Warnings := [];
           Details := detail p "pending_by_policy" <$> orderedAdded |}
      else if (NewNodePlacement p =? PlacementAppend)%string then
        {| OrderedNodeKeys := (Key <$> existing) ++ (Key <$> orderedAdded); PendingNodeKeys := [];
           Warnings := []; Details := detail p "append_by_policy" <$> orderedAdded |}
      else placeByTemplate existing orderedAdded p
  end.

(** ** Comparators are strict weak orders *)

Lemma ltc_lexc {A} (c1 c2 : A → A → comparison) x y :
  ltc (lexc c1 c2) x y = match c1 x y with Eq => ltc c2 x y | Lt => true | Gt => false end.
Proof. unfold ltc, lexc. by destruct (c1 x y). Qed.

(** The three shapes of a key comparison in the source. *)
Lemma cmp_int {A} (f : A → Z) a b (r : bool) :
  (if negb (f a =? f b) then f a <? f b else r) =
  match onc f Z.compare a b with Eq => r | Lt => true | Gt => false end.
Proof.
  unfold onc. destruct (Z.compare_spec (f a) (f b)) as [->|H|H].
  - by rewrite Z.eqb_refl.
  - by rewrite (proj2 (Z.eqb_neq _ _)), (proj2 (Z.ltb_lt _ _)) by lia.
  - by rewrite (proj2 (Z.eqb_neq _ _)), (proj2 (Z.ltb_ge _ _)) by lia.
Qed.

Lemma cmp_str {A} (f : A → string) a b (r : bool) :
  (if negb (f a =? f b)%string then str_lt (f a) (f b) else r) =
  match onc f String.compare a b with Eq => r | Lt => true | Gt => false end.
Proof.
  unfold onc, str_lt, ltc. destruct (String.compare (f a) (f b)) eqn:H.
  - apply String.compare_eq_iff in H. by rewrite H, String.eqb_refl.
  - rewrite (proj2 (String.eqb_neq _ _)); [done|]. intros He. by rewrite He, cmp_refl in H.
  - rewrite (proj2 (String.eqb_neq _ _)); [done|]. intros He. by rewrite He, cmp_refl in H.
Qed.

Lemma cmp_bool {A} (f : A → bool) a b (r : bool) :
  (if negb (Bool.eqb (f a) (f b)) then f a else r) =
  match onc f true_first a b with Eq => r | Lt => true | Gt => false end.
Proof. unfold onc. by destruct (f a), (f b). Qed.

Lemma cmp_less {A} (less : A → A → bool) c `{!Cmp c} a b (r : bool) :
  (∀ x y, less x y = ltc c x y) →
  (if less a b then true else if less b a then false else r) =
  match c a b with Eq => r | Lt => true | Gt => false end.
Proof. intros H. rewrite !H. unfold ltc. rewrite (cmp_anti a b). by destruct (c a b). Qed.

Definition entryCmp : subscriptionOrderRank → subscriptionOrderRank → comparison :=
  lexc (onc entryListed true_first) (lexc (onc entryIndex Z.compare) (lexc (onc entryServerID Z.compare)
    (lexc (onc entryInboundID Z.compare) (onc entryKey String.compare)))).

Definition nameCmp : subscriptionOrderRank → subscriptionOrderRank → comparison :=
  lexc (onc rank_name String.compare) (onc rank_key String.compare).

Definition regionCmp : subscriptionOrderRank → subscriptionOrderRank → comparison :=
  lexc (onc exitRegionRank Z.compare) (onc exitRegionCode String.compare).

Definition exitRegionCmp := lexc regionCmp (lexc (onc entryRegionRank Z.compare) (lexc entryCmp nameCmp)).
Definition entryModeCmp := lexc (onc entryRegionRank Z.compare) (lexc entryCmp (lexc regionCmp nameCmp)).
Definition tailExitCmp :=
  lexc regionCmp (lexc (onc entryRegionRank Z.compare) (lexc (onc entryKey String.compare) nameCmp)).
Definition tailEntryCmp :=
  lexc (onc entryRegionRank Z.compare) (lexc (onc entryKey String.compare) (lexc regionCmp nameCmp)).

#[export] Instance entryCmp_cmp : Cmp entryCmp.
Proof. apply _. Qed.
#[export] Instance nameCmp_cmp : Cmp nameCmp.
Proof. apply _. Qed.
#[export] Instance regionCmp_cmp : Cmp regionCmp.
Proof. apply _. Qed.

Lemma ltc_str {A} (f : A → string) a b : str_lt (f a) (f b) = ltc (onc f String.compare) a b.
Proof. done. Qed.

Ltac comparator :=
  rewrite ?cmp_int, ?cmp_str, ?cmp_bool, ?ltc_lexc, ?ltc_str;
  repeat match goal with |- context [onc ?f ?c ?a ?b] => destruct (onc f c a b) end; try done.

Lemma entryLess_cmp a b : entryLess a b = ltc entryCmp a b.
Proof. unfold entryLess, entryCmp. rewrite !ltc_lexc. comparator. Qed.

Lemma nameLess_cmp a b :
  (if negb (rank_name a =? rank_name b)%string then str_lt (rank_name a) (rank_name b)
   else str_lt (rank_key a) (rank_key b)) = ltc nameCmp a b.
Proof. unfold nameCmp. by rewrite ltc_lexc, cmp_str. Qed.

Lemma regionLess_cmp a b r :
  (if negb (exitRegionRank a =? exitRegionRank b) then exitRegionRank a <? exitRegionRank b
   else if negb (exitRegionCode a =? exitRegionCode b)%string then str_lt (exitRegionCode a) (exitRegionCode b)
   else r) = match regionCmp a b with Eq => r | Lt => true | Gt => false end.
Proof. unfold regionCmp, lexc. rewrite cmp_int, cmp_str. by destruct (onc exitRegionRank _ a b). Qed.

Lemma exitRegionLess_cmp a b : exitRegionLess a b = ltc exitRegionCmp a b.
Proof.
  unfold exitRegionLess, exitRegionCmp.
  by rewrite nameLess_cmp, (cmp_less _ _ _ _ _ entryLess_cmp), regionLess_cmp, cmp_int, !ltc_lexc.
Qed.

Lemma entryModeLess_cmp a b : entryModeLess a b = ltc entryModeCmp a b.
Proof.
  unfold entryModeLess, entryModeCmp.
  by rewrite nameLess_cmp, regionLess_cmp, (cmp_less _ _ _ _ _ entryLess_cmp), cmp_int, !ltc_lexc.
Qed.

Lemma tailExitLess_cmp a b : tailExitLess a b = ltc tailExitCmp a b.
Proof.
  unfold tailExitLess, tailExitCmp. by rewrite nameLess_cmp, regionLess_cmp, cmp_int, cmp_str, !ltc_lexc.
Qed.

Lemma tailEntryLess_cmp a b : tailEntryLess a b = ltc tailEntryCmp a b.
Proof.
  unfold tailEntryLess, tailEntryCmp. by rewrite nameLess_cmp, regionLess_cmp, cmp_str, cmp_int, !ltc_lexc.
Qed.

Lemma byRank_sw less c `{!Cmp c} : (∀ a b, less a b = ltc c a b) → StrictWeak (byRank less).
Proof.
  intros H. assert (StrictWeak (ltc (onc rank c))) as [] by apply _. unfold byRank.
  split; intros; rewrite ?H in *; eauto.
Qed.

#[export] Instance exitRegion_sw : StrictWeak (byRank exitRegionLess).
Proof. by eapply byRank_sw, exitRegionLess_cmp; apply _. Qed.
#[export] Instance entryMode_sw : StrictWeak (byRank entryModeLess).
Proof. by eapply byRank_sw, entryModeLess_cmp; apply _. Qed.
#[export] Instance tailExit_sw : StrictWeak (byRank tailExitLess).
Proof. by eapply byRank_sw, tailExitLess_cmp; apply _. Qed.
#[export] Instance tailEntry_sw : StrictWeak (byRank tailEntryLess).
Proof. by eapply byRank_sw, tailEntryLess_cmp; apply _. Qed.

#[export] Instance manual_sw : StrictWeak (byRank manualLess).
Proof.
  unfold byRank, manualLess.
  split; intros; destruct (hasManual (rank x)) eqn:?; try destruct (hasManual (rank y)) eqn:?;
    try destruct (hasManual (rank z)) eqn:?; simpl in *; bprop; try done; try lia.
Qed.

(** ** Landing groups *)

Definition landingBuckets (run : list rankedSubscriptionNode) : list (list rankedSubscriptionNode) :=
  landing_buckets (foldl landingStep {| landing_index := ∅; landing_buckets := [] |} run).

Definition hasLanding (L : string) (r : rankedSubscriptionNode) : Prop := landingKey (rank r) = L.
#[export] Instance hasLanding_dec L r : Decision (hasLanding L r).
Proof. unfold hasLanding. apply _. Defined.

(** [b] is the bucket of landing [L]: the nodes of [run] with that landing, in order,
    and there is no other node with it. *)
Record landingInv (run : list rankedSubscriptionNode) (st : landingState) : Prop := {
  li_perm : concat (landing_buckets st) ≡ₚ run;
  li_nonempty : Forall (λ b, b ≠ []) (landing_buckets st);
  li_heads : omap head (landing_buckets st) `sublist_of` run;
  li_none L : landing_index st !! L = None → L ≠ "" → Forall (λ r, ¬ hasLanding L r) run;
  li_some L i : landing_index st !! L = Some i → L ≠ "" ∧ ∃ B1 B2,
    landing_buckets st = B1 ++ filter (hasLanding L) run :: B2 ∧ length B1 = i ∧
    Forall (λ r, ¬ hasLanding L r) (concat B1 ++ concat B2) }.

Lemma filter_landing_snoc L run item :
  filter (hasLanding L) (run ++ [item]) =
  filter (hasLanding L) run ++ if decide (hasLanding L item) then [item] else [].
Proof. rewrite filter_app, filter_cons, filter_nil. by case_decide. Qed.

(** Appending a bucket that holds only [item]. *)
Lemma landing_new run st item idx :
  landingInv run st →
  (∀ L, idx !! L = None → landing_index st !! L = None ∧ (L ≠ "" → landingKey (rank item) ≠ L)) →
  (∀ L i, idx !! L = Some i → (landing_index st !! L = Some i ∧ landingKey (rank item) ≠ L) ∨
     (landing_index st !! L = None ∧ L ≠ "" ∧ landingKey (rank item) = L ∧ i = length (landing_buckets st))) →
  landingInv (run ++ [item]) {| landing_index := idx; landing_buckets := landing_buckets st ++ [[item]] |}.
Proof.
  intros [Hp Hne Hh Hn Hs] Hnone Hsome. split; simpl.
  - rewrite concat_app. simpl. by rewrite Hp.
  - apply Forall_app. split; [done|]. by repeat constructor.
  - rewrite omap_app. by apply sublist_app.
  - intros L HL Hne'. destruct (Hnone L HL) as [HL1 HL2]. apply Forall_app. split; [by apply Hn|].
    constructor; [by apply HL2|constructor].
  - intros L i HL. destruct (Hsome L i HL) as [[HL1 HL2]|(HL1 & HL2 & HL3 & ->)].
    + destruct (Hs L i HL1) as (? & B1 & B2 & HB & Hl & HF). split; [done|]. exists B1, (B2 ++ [[item]]).
      rewrite filter_landing_snoc, decide_False, app_nil_r by done.
      split; [by rewrite HB, <-app_assoc|]. split; [done|].
      rewrite concat_app, app_assoc. simpl. apply Forall_app. split; [done|].
      by repeat constructor.
    + split; [done|]. exists (landing_buckets st), [].
      rewrite filter_landing_snoc, decide_True by done.
      assert (filter (hasLanding L) run = []) as ->.
      { apply elem_of_nil_inv. intros r [Hr Hin]%list_elem_of_filter.
        specialize (Hn L HL1 HL2). rewrite Forall_forall in Hn. by destruct (Hn r Hin). }
      split; [done|]. split; [done|]. simpl. rewrite app_nil_r, Hp. by apply Hn.
Qed.

Lemma alter_middle {A} (f : A → A) B1 x B2 : alter f (length B1) (B1 ++ x :: B2) = B1 ++ f x :: B2.
Proof. induction B1 as [|b B1 IH]; simpl; [done|]. by f_equal. Qed.

(** Adding [item] to the bucket of its landing. *)
Lemma landing_add run st item i :
  landingInv run st → landing_index st !! landingKey (rank item) = Some i →
  landingInv (run ++ [item])
    {| landing_index := landing_index st; landing_buckets := alter (λ b, b ++ [item]) i (landing_buckets st) |}.
Proof.
  intros [Hp Hne Hh Hn Hs] Hi. destruct (Hs _ _ Hi) as (HL & B1 & B2 & HB & <- & HF).
  assert (filter (hasLanding (landingKey (rank item))) run ≠ []) as Hx.
  { rewrite HB in Hne. by apply Forall_app in Hne as [_ [? _]%Forall_cons]. }
  split; simpl.
  - rewrite HB, alter_middle, concat_app. simpl. rewrite HB, concat_app in Hp. simpl in Hp.
    etrans; [|exact (Permutation_app_tail [item] Hp)]. rewrite <-!app_assoc. do 2 (apply Permutation_app; [done|]).
    apply Permutation_app_comm.
  - rewrite HB in Hne |- *. rewrite alter_middle. apply Forall_app in Hne as [? [? ?]%Forall_cons].
    apply Forall_app. split; [done|]. constructor; [|done]. by destruct (filter _ run).
  - rewrite HB in Hh |- *. rewrite alter_middle. rewrite omap_app in Hh |- *. simpl in Hh |- *.
    destruct (filter _ run) as [|y l]; [done|]. simpl in *. by apply sublist_inserts_r.
  - intros L HN HL'. apply Forall_app. split; [by apply Hn|]. constructor; [|constructor].
    intros HL2. unfold hasLanding in HL2. congruence.
  - intros L i HLi. destruct (decide (landingKey (rank item) = L)) as [<-|Hneq].
    + assert (i = length B1) as -> by congruence. split; [done|]. exists B1, B2.
      rewrite HB, alter_middle, filter_landing_snoc, decide_True by done. done.
    + destruct (Hs L i HLi) as (HL' & C1 & C2 & HC & <- & HG). split; [done|].
      rewrite filter_landing_snoc, decide_False, app_nil_r by done. rewrite HC.
      assert (length B1 ≠ length C1) as Hlen.
      { intros Heq. rewrite HB in HC. apply app_inj_1 in HC as [_ [= HC _]]; [|done].
        destruct (filter (hasLanding (landingKey (rank item))) run) as [|y l] eqn:Hf; [done|].
        assert (y ∈ filter (hasLanding (landingKey (rank item))) run) as [H1 _]%list_elem_of_filter
          by (rewrite Hf; by left).
        assert (y ∈ filter (hasLanding L) run) as [H2 _]%list_elem_of_filter by (rewrite <-HC; by left).
        unfold hasLanding in *. congruence. }
      assert (∀ j (C : list (list rankedSubscriptionNode)),
        Forall (λ r, ¬ hasLanding L r) (concat C) →
        Forall (λ r, ¬ hasLanding L r) (concat (alter (λ b, b ++ [item]) j C))) as Halt.
      { intros j C. revert j. induction C as [|b C IH]; intros [|j]; simpl; try done.
        - rewrite !Forall_app. intros [? ?]. repeat split; try done. by repeat constructor.
        - rewrite !Forall_app. intros [? ?]. split; [done|]. by apply IH. }
      apply Forall_app in HG as [HG1 HG2].
      destruct (decide (length B1 < length C1)%nat) as [Hlt|Hge].
      * rewrite alter_app_l by done. eexists _, C2. split; [done|]. split; [apply length_alter|].
        apply Forall_app. split; [by apply Halt|done].
      * rewrite alter_app_r_alt by lia. destruct (length B1 - length C1)%nat as [|k] eqn:Hk; [lia|].
        simpl. eexists C1, _. split; [done|]. split; [done|].
        apply Forall_app. split; [done|by apply Halt].
Qed.

Lemma landing_inv run :
  landingInv run (foldl landingStep {| landing_index := ∅; landing_buckets := [] |} run).
Proof.
  induction run as [|item run IH] using rev_ind.
  { by split. }
  rewrite foldl_app. simpl. set (st := foldl landingStep _ run) in *. unfold landingStep.
  destruct (landingKey (rank item) =? "")%string eqn:He.
  - apply String.eqb_eq in He. apply landing_new; [done|..].
    + intros L HL. split; [done|congruence].
    + intros L i HL. left. split; [done|]. intros Heq. destruct (li_some _ _ IH L i HL) as [? _]. congruence.
  - apply String.eqb_neq in He. destruct (landing_index st !! landingKey (rank item)) as [i|] eqn:Hi.
    + by apply landing_add.
    + apply landing_new; [done|..].
      * intros L. rewrite lookup_insert. case_decide; [done|]. intros. split; [done|]. congruence.
      * intros L i. rewrite lookup_insert. case_decide as Hd; [intros [= <-]|]; subst; eauto 10.
Qed.

Lemma groupRun_perm run : groupRun run ≡ₚ run.
Proof. apply (li_perm _ _ (landing_inv run)). Qed.

(** The nodes of one landing form one block, in their order. *)
Lemma groupRun_block run L :
  L ≠ "" → ∃ pre post, groupRun run = pre ++ filter (hasLanding L) run ++ post ∧
    Forall (λ r, ¬ hasLanding L r) (pre ++ post).
Proof.
  intros HL. destruct (landing_inv run) as [Hp _ _ Hn Hs]. unfold groupRun.
  set (st := foldl landingStep _ run) in *. destruct (landing_index st !! L) as [i|] eqn:Hi.
  - destruct (Hs L i Hi) as (_ & B1 & B2 & HB & _ & HF). exists (concat B1), (concat B2).
    rewrite HB, concat_app. done.
  - exists (concat (landing_buckets st)), []. specialize (Hn L Hi HL).
    assert (filter (hasLanding L) run = []) as ->.
    { apply elem_of_nil_inv. intros r [Hr Hin]%list_elem_of_filter. rewrite Forall_forall in Hn.
      by destruct (Hn r Hin). }
    rewrite !app_nil_r. split; [done|]. by rewrite Hp.
Qed.

Lemma spanWhile_spec {A} (P : A → bool) l a b :
  spanWhile P l = (a, b) → l = a ++ b ∧ Forall (λ x, P x = true) a ∧
  (b = [] ∨ ∃ y b', b = y :: b' ∧ P y = false).
Proof.
  revert a b. induction l as [|x l IH]; intros a b; simpl; [intros [= <- <-]; auto|].
  destruct (P x) eqn:HP; [|intros [= <- <-]; eauto 10].
  destruct (spanWhile P l) as [a' b'] eqn:Hs. intros [= <- <-].
  destruct (IH _ _ eq_refl) as (-> & Ha & Hb). split; [done|]. split; [by constructor|done].
Qed.

Definition codeOf (r : rankedSubscriptionNode) : string := exitRegionCode (rank r).

(** Equal region codes stand together. *)
Definition contiguous (l : list rankedSubscriptionNode) : Prop :=
  ∀ l1 a l2 b l3, l = l1 ++ a :: l2 ++ b :: l3 → codeOf a = codeOf b → Forall (λ x, codeOf x = codeOf a) l2.

Definition inCell (c L : string) (r : rankedSubscriptionNode) : Prop := codeOf r = c ∧ hasLanding L r.
#[export] Instance inCell_dec c L r : Decision (inCell c L r).
Proof. unfold inCell. apply _. Defined.

Lemma groupRuns_perm fuel l : (length l ≤ fuel)%nat → groupRuns fuel l ≡ₚ l.
Proof.
  revert l. induction fuel as [|fuel IH]; intros [|x l] Hl; simpl in *; [done|lia|done|].
  destruct (spanWhile _ l) as [a b] eqn:Hs. apply spanWhile_spec in Hs as (-> & _ & _).
  rewrite length_app in Hl. rewrite IH by lia. by rewrite groupRun_perm.
Qed.

Lemma groupRun_codes x run :
  Forall (λ y, sameRegion x y = true) run → codeOf <$> groupRun (x :: run) = codeOf <$> (x :: run).
Proof.
  intros H. assert (∀ l, l ≡ₚ x :: run → codeOf <$> l = replicate (length l) (codeOf x)) as Hc.
  { intros l Hl. symmetry. apply replicate_as_Forall. rewrite length_fmap. split; [done|]. apply Forall_fmap.
    unfold compose. rewrite Hl. constructor; [done|]. eapply Forall_impl; [done|].
    intros y Hy. apply String.eqb_eq in Hy. done. }
  rewrite (Hc (groupRun (x :: run))) by apply groupRun_perm. rewrite (Hc (x :: run)) by done.
  by rewrite groupRun_perm.
Qed.

Lemma groupRuns_codes fuel l : (length l ≤ fuel)%nat → codeOf <$> groupRuns fuel l = codeOf <$> l.
Proof.
  revert l. induction fuel as [|fuel IH]; intros [|x l] Hl; simpl groupRuns; [done|simpl in Hl; lia|done|].
  destruct (spanWhile _ l) as [a b] eqn:Hs. apply spanWhile_spec in Hs as (-> & Ha & _).
  simpl in Hl. rewrite length_app in Hl. rewrite fmap_app, IH, groupRun_codes by (done || lia).
  by rewrite <-fmap_app.
Qed.

Lemma contiguous_app_r l1 l2 : contiguous (l1 ++ l2) → contiguous l2.
Proof. intros H m a n b o ->. apply (H (l1 ++ m) a n b o). by rewrite <-app_assoc. Qed.

Lemma filter_Forall_iff {A} (P1 P2 : A → Prop) `{!∀ x, Decision (P1 x), !∀ x, Decision (P2 x)} l :
  Forall (λ x, P1 x ↔ P2 x) l → filter P1 l = filter P2 l.
Proof. induction 1; [done|]. rewrite !filter_cons. repeat case_decide; first [by f_equal|tauto|done]. Qed.

Lemma groupRuns_block fuel l c L :
  (length l ≤ fuel)%nat → contiguous l → L ≠ "" →
  ∃ pre post, groupRuns fuel l = pre ++ filter (inCell c L) l ++ post ∧
    Forall (λ r, ¬ inCell c L r) (pre ++ post).
Proof.
  revert l. induction fuel as [|fuel IH]; intros [|x l] Hl Hc HL; simpl groupRuns; [by exists [], []|simpl in Hl; lia|by exists [], []|].
  destruct (spanWhile _ l) as [a b] eqn:Hs. apply spanWhile_spec in Hs as (-> & Ha & Hb).
  simpl in Hl. rewrite length_app in Hl.
  assert (Forall (λ y, codeOf y = codeOf x) (x :: a)) as Hxa.
  { constructor; [done|]. eapply Forall_impl; [done|]. intros y Hy. by apply String.eqb_eq in Hy. }
  assert (Forall (λ y, codeOf y ≠ codeOf x) b) as Hbx.
  { apply Forall_forall. intros z Hz Heq. destruct Hb as [->|(y & b' & -> & Hy)]; [set_solver|].
    apply String.eqb_neq in Hy. apply elem_of_cons in Hz as [->|Hz]; [done|].
    apply list_elem_of_split in Hz as (b1 & b2 & ->).
    specialize (Hc [] x (a ++ y :: b1) z b2). simpl in Hc. rewrite <-!app_assoc in Hc.
    specialize (Hc eq_refl (eq_sym Heq)). apply Forall_app in Hc as [_ [? _]%Forall_cons]. done. }
  change (x :: a ++ b) with ((x :: a) ++ b) in *. rewrite filter_app.
  destruct (IH b) as (pre & post & Hg & Hno); [lia|by eapply contiguous_app_r|done|].
  destruct (decide (c = codeOf x)) as [->|Hcx].
  - assert (filter (inCell (codeOf x) L) b = []) as ->.
    { apply elem_of_nil_inv. intros r [[Hr _] Hin]%list_elem_of_filter. rewrite Forall_forall in Hbx.
      by destruct (Hbx r Hin). }
    destruct (groupRun_block (x :: a) L HL) as (pre' & post' & Hg' & Hno').
    assert (filter (inCell (codeOf x) L) (x :: a) = filter (hasLanding L) (x :: a)) as ->.
    { apply filter_Forall_iff. eapply Forall_impl; [exact Hxa|]. intros y Hy. unfold inCell. naive_solver. }
    exists pre', (post' ++ groupRuns fuel b). rewrite Hg', app_nil_r, <-!app_assoc. split; [done|].
    rewrite app_assoc. apply Forall_app. split.
    + eapply Forall_impl; [done|]. unfold inCell. naive_solver.
    + rewrite groupRuns_perm by lia. eapply Forall_impl; [done|]. unfold inCell. naive_solver.
  - assert (filter (inCell c L) (x :: a) = []) as ->.
    { apply elem_of_nil_inv. intros r [[Hr _] Hin]%list_elem_of_filter. rewrite Forall_forall in Hxa.
      specialize (Hxa r Hin). congruence. }
    exists (groupRun (x :: a) ++ pre), post. rewrite Hg, <-!app_assoc. split; [done|].
    apply Forall_app. split; [|done]. rewrite groupRun_perm. eapply Forall_impl; [done|].
    intros y Hy [? _]. congruence.
Qed.

(** ** The sorted list *)

Lemma lexc_eq {A} (c1 c2 : A → A → comparison) x y : lexc c1 c2 x y = Eq → c2 x y = Eq.
Proof. unfold lexc. by destruct (c1 x y). Qed.

(** Sorting by region first keeps each region together, when the rank of a node is
    that of its region code. *)
Lemma sorted_contiguous less c `{!Cmp c} l :
  (∀ a b, less a b = ltc (lexc regionCmp c) a b) →
  (∀ a b, a ∈ l → b ∈ l → codeOf a = codeOf b → exitRegionRank (rank a) = exitRegionRank (rank b)) →
  StronglySorted (le_of (byRank less)) l → contiguous l.
Proof.
  intros Hless Hrk Hs l1 a l2 b l3 -> Hab. apply StronglySorted_app_1_r in Hs.
  apply StronglySorted_inv in Hs as [Hs Ha]. apply Forall_forall. intros y Hy.
  apply list_elem_of_split in Hy as (m1 & m2 & ->). rewrite <-app_assoc in Hs.
  apply StronglySorted_app_1_r in Hs. apply StronglySorted_inv in Hs as [_ Hyb].
  rewrite Forall_forall in Ha, Hyb.
  specialize (Ha y ltac:(set_solver)). specialize (Hyb b ltac:(set_solver)).
  unfold le_of, byRank in *. rewrite Hless, ltc_lexc in Ha, Hyb.
  assert (regionCmp (rank a) (rank b) = Eq) as Heq.
  { unfold regionCmp, lexc, onc. rewrite (Hrk a b) by set_solver. unfold codeOf in Hab.
    by rewrite Z.compare_refl, Hab, cmp_refl. }
  rewrite <-(cmp_eq _ _ (rank y) Heq) in Hyb. rewrite (cmp_anti (rank a) (rank y)) in Ha.
  destruct (regionCmp (rank a) (rank y)) eqn:Hay; try done.
  apply lexc_eq in Hay. by apply String.compare_eq_iff in Hay.
Qed.

Lemma groupRankedByLanding_perm l : groupRankedByLanding l ≡ₚ l.
Proof. by apply groupRuns_perm. Qed.

Lemma orderManualTail_perm l seed g : orderManualTail l seed g ≡ₚ l.
Proof.
  unfold orderManualTail. case_match; [done|]. set (k := length _).
  transitivity (take k l ++ drop k l); [|by rewrite take_drop]. apply Permutation_app; [done|].
  case_match; by rewrite ?groupRankedByLanding_perm, sort_slice_perm.
Qed.

Lemma sortRanked_perm p mode l : sortRanked p mode l ≡ₚ l.
Proof.
  unfold sortRanked. repeat case_match; try done;
    by rewrite ?groupRankedByLanding_perm, ?orderManualTail_perm, sort_slice_perm.
Qed.

Lemma rankNodes_node p nodes : node <$> rankNodes p nodes = nodes.
Proof. unfold rankNodes. rewrite <-list_fmap_compose. by rewrite <-(list_fmap_id nodes) at 2. Qed.

(** The order is a permutation of the nodes, whatever the policy. *)
Lemma OrderSubscriptionNodes_perm nodes policy : OrderSubscriptionNodes nodes policy ≡ₚ nodes.
Proof.
  unfold OrderSubscriptionNodes. repeat case_match; [done|by rewrite sort_slice_perm|].
  by rewrite sortRanked_perm, rankNodes_node.
Qed.

Definition exitCode (n : SubscriptionNode) : string := NormalizeRegionCode (ExitRegion n).

Lemma elem_of_rankNodes p nodes r :
  r ∈ rankNodes p nodes →
  node r ∈ nodes ∧ codeOf r = exitCode (node r) ∧ landingKey (rank r) = subscriptionNodeLandingKey (node r) ∧
  exitRegionRank (rank r) = regionRankOf (buildRegionRank (ExitRegionOrder p)) (codeOf r) ∧
  rank_key (rank r) = Key (node r) ∧ hasManual (rank r) = bool_decide (is_Some (ManualPosition (node r))) ∧
  manualPosition (rank r) = default (-1) (ManualPosition (node r)).
Proof. unfold rankNodes. by intros (n & -> & Hn)%list_elem_of_fmap. Qed.

(** Ranked nodes with equal node keys are equal when the keys are distinct. *)
Lemma rankNodes_key_inj p nodes a b :
  NoDup (Key <$> nodes) → a ∈ rankNodes p nodes → b ∈ rankNodes p nodes →
  rank_key (rank a) = rank_key (rank b) → a = b.
Proof.
  intros Hnd Ha Hb Hk. unfold rankNodes in *. apply list_elem_of_fmap in Ha as (n & -> & Hn), Hb as (m & -> & Hm).
  simpl in Hk. assert (n = m) as ->; [|done].
  apply list_elem_of_lookup in Hn as [i Hi], Hm as [j Hj].
  assert (i = j) as ->; [|congruence].
  apply (NoDup_lookup _ _ _ (Key n) Hnd); rewrite list_lookup_fmap; [by rewrite Hi|by rewrite Hj, Hk].
Qed.

Lemma ltc_sep_key c a b :
  (c a b = Eq → rank_key a = rank_key b) → Cmp c → ltc c a b = false → ltc c b a = false → rank_key a = rank_key b.
Proof. intros Hk Hc. unfold ltc. rewrite (cmp_anti a b). destruct (c a b); try done. intros _ _. by apply Hk. Qed.

Lemma nameCmp_key a b : nameCmp a b = Eq → rank_key a = rank_key b.
Proof. intros H%lexc_eq. by apply String.compare_eq_iff in H. Qed.

Lemma sort_rank_perm_eq less c `{!Cmp c} p nodes l l' :
  (∀ a b, less a b = ltc c a b) → (∀ a b, c a b = Eq → rank_key a = rank_key b) →
  NoDup (Key <$> nodes) → l ⊆ rankNodes p nodes → l' ≡ₚ l →
  sort_slice (byRank less) l' = sort_slice (byRank less) l.
Proof.
  intros Hless Hk Hnd Hsub Hp.
  apply sort_slice_perm_eq; [by eapply byRank_sw|..|done].
  intros x y Hx Hy. unfold byRank. rewrite !Hless. intros H1 H2.
  eapply rankNodes_key_inj; [done|by apply Hsub..|]. by eapply ltc_sep_key; eauto.
Qed.

(** In the two template modes the order does not depend on the order of the input or
    on the sorting algorithm: with distinct node keys, two permutations of the same nodes
    are ordered alike. *)
Theorem order_input_independent nodes nodes' policy :
  nodes' ≡ₚ nodes → NoDup (Key <$> nodes) → Mode policy = OrderExitRegion ∨ Mode policy = OrderEntry →
  OrderSubscriptionNodes nodes' policy = OrderSubscriptionNodes nodes policy.
Proof.
  intros Hp Hnd Hmode. unfold OrderSubscriptionNodes. rewrite (Permutation_length Hp).
  destruct (length nodes <? 2)%nat eqn:Hlen.
  { apply Nat.ltb_lt in Hlen. destruct nodes as [|n [|]]; simpl in Hlen; [|..|lia].
    - by apply Permutation_nil_r in Hp.
    - by apply Permutation_singleton_r in Hp. }
  assert (∀ p, rankNodes p nodes' ≡ₚ rankNodes p nodes) as Hr.
  { intros p. unfold rankNodes. by rewrite Hp. }
  destruct Hmode as [-> | ->]; simpl; f_equal; unfold sortRanked; simpl.
  - set (p := normalizedPolicy _ _).
    assert (sort_slice (byRank exitRegionLess) (rankNodes p nodes') =
            sort_slice (byRank exitRegionLess) (rankNodes p nodes)) as ->; [|done].
    eapply (sort_rank_perm_eq _ exitRegionCmp); [apply exitRegionLess_cmp| |done|done|apply Hr].
    intros a b H. do 3 apply lexc_eq in H. by apply nameCmp_key.
  - eapply (sort_rank_perm_eq _ entryModeCmp); [apply entryModeLess_cmp| |done|done|apply Hr].
    intros a b H. do 3 apply lexc_eq in H. by apply nameCmp_key.
Qed.

(** *** Exit-region mode *)

(** The order of regions the policy lists: by index, unlisted codes after the listed
    ones by code, the unresolved region last. *)
Definition regionBefore (p : OrderPolicy) (c1 c2 : string) : Prop :=
  let rk := regionRankOf (buildRegionRank (ExitRegionOrder p)) in
  rk c1 < rk c2 ∨ (rk c1 = rk c2 ∧ le_of str_lt c1 c2).

Lemma exit_sorted_codes p l :
  (∀ a, a ∈ l → exitRegionRank (rank a) = regionRankOf (buildRegionRank (ExitRegionOrder p)) (codeOf a)) →
  StronglySorted (le_of (byRank exitRegionLess)) l → StronglySorted (regionBefore p) (codeOf <$> l).
Proof.
  intros Hrk. induction 1 as [|a l _ IH Ha]; simpl; constructor.
  - apply IH. intros b Hb. apply Hrk. by right.
  - apply Forall_fmap, Forall_forall. intros b Hb. rewrite Forall_forall in Ha. specialize (Ha b Hb).
    unfold le_of, byRank in Ha. rewrite exitRegionLess_cmp in Ha. unfold exitRegionCmp in Ha.
    rewrite ltc_lexc in Ha. unfold regionCmp, lexc, onc in Ha.
    rewrite (Hrk a), (Hrk b) in Ha by set_solver. unfold regionBefore, le_of. simpl.
    destruct (Z.compare_spec (regionRankOf (buildRegionRank (ExitRegionOrder p)) (codeOf b))
      (regionRankOf (buildRegionRank (ExitRegionOrder p)) (codeOf a))) as [He|?|?]; [|done|by left].
    right. split; [done|]. unfold str_lt, ltc, codeOf. by destruct (String.compare _ _).
Qed.

Definition nodeCell (c L : string) (n : SubscriptionNode) : Prop :=
  exitCode n = c ∧ subscriptionNodeLandingKey n = L.

Lemma exit_sorted_contiguous p nodes : contiguous (sort_slice (byRank exitRegionLess) (rankNodes p nodes)).
Proof.
  apply (sorted_contiguous exitRegionLess (lexc (onc entryRegionRank Z.compare) (lexc entryCmp nameCmp)));
    [apply exitRegionLess_cmp| |apply sort_slice_sorted, _].
  intros a b Ha Hb Hc. rewrite elem_of_sort_slice in Ha, Hb.
  destruct (elem_of_rankNodes _ _ _ Ha) as (_ & _ & _ & -> & _).
  destruct (elem_of_rankNodes _ _ _ Hb) as (_ & _ & _ & -> & _). by rewrite Hc.
Qed.

(** Exit-region order: every node appears exactly as often as in the input, the
    regions follow the policy's order, and with landing grouping the nodes of one region
    that share a landing are adjacent. *)
Theorem exit_region_order nodes policy p :
  ValidateSubscriptionNodeOrderPolicy policy = Ok p → Mode policy = OrderExitRegion →
  let out := OrderSubscriptionNodes nodes policy in
  out ≡ₚ nodes ∧ StronglySorted (regionBefore p) (exitCode <$> out) ∧
  (GroupByLanding p = true → ∀ c L, L ≠ "" → ∃ pre mid post, out = pre ++ mid ++ post ∧
     Forall (nodeCell c L) mid ∧ Forall (λ n, ¬ nodeCell c L n) (pre ++ post)).
Proof.
  intros Hv Hm out. split; [apply OrderSubscriptionNodes_perm|]. subst out.
  unfold OrderSubscriptionNodes. destruct (length nodes <? 2)%nat eqn:Hlen.
  { apply Nat.ltb_lt in Hlen. destruct nodes as [|n [|]]; simpl in Hlen; [|..|lia].
    - split; [constructor|]. by exists [], [], [].
    - split; [repeat constructor|]. intros _ c L _. destruct (decide (exitCode n = c ∧ subscriptionNodeLandingKey n = L)).
      + exists [], [n], []. repeat constructor; tauto.
      + exists [n], [], []. repeat constructor; done. }
  rewrite Hm. simpl. unfold normalizedPolicy, sortRanked. rewrite Hv. simpl.
  set (l := sort_slice _ _).
  assert (∀ r, r ∈ l → r ∈ rankNodes p nodes) as Hl by (intros r; unfold l; by rewrite elem_of_sort_slice).
  assert (exitCode <$> (node <$> if GroupByLanding p then groupRankedByLanding l else l) = codeOf <$> l) as ->.
  { transitivity (codeOf <$> if GroupByLanding p then groupRankedByLanding l else l).
    - rewrite <-list_fmap_compose. apply list_fmap_ext. intros i r Hi%list_elem_of_lookup_2. simpl.
      assert (r ∈ l) as Hr by (revert Hi; case_match; by rewrite ?groupRankedByLanding_perm).
      by destruct (elem_of_rankNodes _ _ _ (Hl r Hr)) as (_ & -> & _).
    - case_match; [by apply groupRuns_codes|done]. }
  split.
  - apply exit_sorted_codes; [|apply sort_slice_sorted, _].
    intros r Hr. by destruct (elem_of_rankNodes _ _ _ (Hl r Hr)) as (_ & _ & _ & -> & _).
  - intros -> c L HL.
    destruct (groupRuns_block (length l) l c L) as (pre & post & Hg & Hno);
      [done|apply exit_sorted_contiguous|done|].
    exists (node <$> pre), (node <$> filter (inCell c L) l), (node <$> post).
    unfold groupRankedByLanding. rewrite Hg, !fmap_app. split; [done|].
    assert (∀ r, r ∈ l → inCell c L r ↔ nodeCell c L (node r)) as Hcell.
    { intros r Hr. destruct (elem_of_rankNodes _ _ _ (Hl r Hr)) as (_ & Hcode & Hland & _).
      unfold inCell, nodeCell, hasLanding. by rewrite Hcode, Hland. }
    split.
    + apply Forall_fmap, Forall_forall. intros r [Hr Hin]%list_elem_of_filter. by apply Hcell.
    + rewrite <-fmap_app. apply Forall_fmap, Forall_forall. intros r Hr. rewrite Forall_forall in Hno.
      specialize (Hno r Hr). simpl. rewrite <-Hcell; [done|].
      rewrite <-(groupRuns_perm (length l) l) by done. rewrite Hg. set_solver.
Qed.

(** *** Manual mode *)

Lemma manual_sorted_split l :
  StronglySorted (le_of (byRank manualLess)) l →
  let k := length (List.filter (λ r, hasManual (rank r)) l) in
  Forall (λ r, hasManual (rank r) = true) (take k l) ∧ Forall (λ r, hasManual (rank r) = false) (drop k l) ∧
  StronglySorted (λ a b, manualPosition (rank a) ≤ manualPosition (rank b)) (take k l).
Proof.
  induction 1 as [|a l Hs IH Ha]; simpl; [by repeat constructor|].
  destruct (hasManual (rank a)) eqn:Hm; simpl.
  - destruct IH as (I1 & I2 & I3). split; [by constructor|]. split; [done|]. constructor; [done|].
    apply Forall_forall. intros b Hb. rewrite Forall_forall in Ha, I1. specialize (I1 b Hb).
    apply elem_of_take in Hb as (i & Hb & _). specialize (Ha b ltac:(by eapply list_elem_of_lookup_2)).
    unfold le_of, byRank, manualLess in Ha. simpl in I1. rewrite I1, Hm in Ha. simpl in Ha. bprop. lia.
  - assert (Forall (λ r, hasManual (rank r) = false) l) as Hl.
    { eapply Forall_impl; [done|]. intros b Hb. unfold le_of, byRank, manualLess in Hb.
      rewrite Hm in Hb. by destruct (hasManual (rank b)). }
    assert (List.filter (λ r, hasManual (rank r)) l = []) as ->.
    { clear -Hl. induction Hl as [|b l Hb _ IH]; simpl; [done|]. by rewrite Hb. }
    simpl. split; [constructor|]. split; [by constructor|constructor].
Qed.

(** Manual order: the nodes with a position come first, by position, and the nodes
    without one follow; no node is lost or repeated. *)
Theorem manual_order nodes policy :
  Mode policy = OrderManual → (2 ≤ length nodes)%nat →
  ∃ placed unplaced, OrderSubscriptionNodes nodes policy = placed ++ unplaced ∧
    placed ++ unplaced ≡ₚ nodes ∧
    StronglySorted (λ a b, ∃ x y, ManualPosition a = Some x ∧ ManualPosition b = Some y ∧ x ≤ y) placed ∧
    Forall (λ n, is_Some (ManualPosition n)) placed ∧ Forall (λ n, ManualPosition n = None) unplaced.
Proof.
  intros Hm Hlen. pose proof (OrderSubscriptionNodes_perm nodes policy) as Hperm.
  unfold OrderSubscriptionNodes in *. rewrite (proj2 (Nat.ltb_ge _ _)) in * by done.
  rewrite Hm in *. simpl in *. unfold sortRanked in *. simpl in *. set (p := normalizedPolicy _ _) in *.
  set (l := sort_slice (byRank manualLess) _) in *.
  destruct (manual_sorted_split l ltac:(apply sort_slice_sorted, _)) as (I1 & I2 & I3).
  set (k := length (List.filter (λ r, hasManual (rank r)) l)) in *.
  assert (∃ tail, orderManualTail l (orDefault (ManualSeed p) OrderExitRegion) (GroupByLanding p) =
    take k l ++ tail ∧ tail ≡ₚ drop k l) as (tail & Htail & Hp).
  { unfold orderManualTail. fold k. case_match eqn:Hk.
    - exists []. apply Nat.eqb_eq in Hk. by rewrite Hk, take_ge, drop_ge, app_nil_r.
    - eexists. split; [done|]. case_match; by rewrite ?groupRankedByLanding_perm, sort_slice_perm. }
  assert (∀ r, r ∈ l → hasManual (rank r) = bool_decide (is_Some (ManualPosition (node r))) ∧
    manualPosition (rank r) = default (-1) (ManualPosition (node r))) as Hl.
  { intros r Hr. unfold l in Hr. rewrite elem_of_sort_slice in Hr.
    by destruct (elem_of_rankNodes _ _ _ Hr) as (_ & _ & _ & _ & _ & ? & ?). }
  assert (∀ r, r ∈ take k l → is_Some (ManualPosition (node r))) as Hsome.
  { intros r Hr. rewrite Forall_forall in I1. specialize (I1 r Hr). simpl in I1.
    destruct (Hl r) as [Hh _]; [by apply elem_of_take in Hr as (i & ? & _); eapply list_elem_of_lookup_2|].
    rewrite Hh in I1. by apply bool_decide_eq_true in I1. }
  exists (node <$> take k l), (node <$> tail). rewrite Htail, fmap_app in *. split; [done|]. split; [done|].
  split; [|split].
  - clear -I3 Hl Hsome. assert (take k l ⊆ l) as Hsub by (intros r Hr; apply elem_of_take in Hr as (i & ? & _); by eapply list_elem_of_lookup_2).
    induction I3 as [|a t _ IH Ha]; simpl; constructor.
    + apply IH; [set_solver|]. intros r Hr. apply Hsub. by right.
    + apply Forall_fmap, Forall_forall. intros b Hb. rewrite Forall_forall in Ha. specialize (Ha b Hb). simpl in *.
      destruct (Hsome a ltac:(by left)) as [x Hx], (Hsome b ltac:(by right)) as [y Hy].
      exists x, y. split; [done|]. split; [done|].
      destruct (Hl a ltac:(apply Hsub; by left)) as [_ Hpa], (Hl b ltac:(apply Hsub; by right)) as [_ Hpb].
      rewrite Hx in Hpa. rewrite Hy in Hpb. simpl in *. lia.
  - apply Forall_fmap, Forall_forall. done.
  - apply Forall_fmap, Forall_forall. intros r Hr. rewrite Hp in Hr. rewrite Forall_forall in I2.
    specialize (I2 r Hr). simpl in I2.
    destruct (Hl r) as [Hh _]; [rewrite <-(take_drop k l); set_solver|].
    rewrite Hh in I2. simpl. by apply bool_decide_eq_false, eq_None_not_Some in I2.
Qed.

(** ** Validation *)

(** A list the normalising loop returns unchanged: every element is canonical and none
    is repeated. *)
Definition canonicalList (P : string → Prop) (l : list string) : Prop := Forall P l ∧ NoDup l.

Definition canonicalRegion (c : string) : Prop := c ≠ "" ∧ NormalizeRegionCode c = c.
Definition canonicalEntry (k : string) : Prop :=
  k ≠ "" ∧ TrimSpace k = k ∧ ∃ id, ParseNodeKey k = Some (AssignableNodeInbound, id) ∧ 0 < id.

Section normalising_loops.
Context (step : string → list string * gset string → result orderError (list string * gset string)).
Context (canon : string → string) (P : string → Prop).
Hypothesis step_sound : ∀ x out seen st,
  step x (out, seen) = Ok st →
  st = (out, seen) ∨ (P (canon x) ∧ canon x ∉ seen ∧ st = (out ++ [canon x], {[canon x]} ∪ seen)).
Hypothesis step_canonical : ∀ x out seen,
  P x → x ∉ seen → step x (out, seen) = Ok (out ++ [x], {[x]} ∪ seen).

Lemma loop_canonical l st :
  foldM step l ([], ∅) = Ok st → canonicalList P st.1 ∧ ∀ x, x ∈ st.2 ↔ x ∈ st.1.
Proof using step_sound.
  clear step_canonical. intros H. eapply (foldM_inv (λ s, canonicalList P s.1 ∧ ∀ x, x ∈ s.2 ↔ x ∈ s.1)); [| |exact H].
  - intros x [out seen] t _ [[HP Hnd] Hs] Hstep. simpl in *.
    destruct (step_sound _ _ _ _ Hstep) as [-> | (HPx & Hx & ->)]; [done|]. simpl. split.
    + split; [apply Forall_app; by repeat constructor|]. apply NoDup_app. split; [done|].
      split; [|apply NoDup_singleton]. intros y Hy ->%list_elem_of_singleton. by apply Hx, Hs.
    + intros y. rewrite elem_of_union, elem_of_app, Hs. set_solver.
  - split; [by repeat constructor|]. set_solver.
Qed.

Lemma loop_fixed l : canonicalList P l → ∃ seen, foldM step l ([], ∅) = Ok (l, seen).
Proof using step_canonical.
  clear step_sound canon. intros [HP Hnd].
  assert (∀ out seen, (∀ x, x ∈ seen ↔ x ∈ out) → NoDup (out ++ l) →
    ∃ seen', foldM step l (out, seen) = Ok (out ++ l, seen')) as Hgen.
  { clear Hnd. induction HP as [|x l Hx _ IH]; intros out seen Hs Hnd.
    - exists seen. by rewrite app_nil_r.
    - simpl. rewrite step_canonical; [|done|].
      + destruct (IH (out ++ [x]) ({[x]} ∪ seen)) as [seen' Hs'].
        * intros y. rewrite elem_of_union, elem_of_app, Hs. set_solver.
        * by rewrite <-app_assoc.
        * exists seen'. by rewrite Hs', <-app_assoc.
      + rewrite Hs. intros Hin. apply NoDup_app in Hnd as (_ & Hd & _). apply (Hd x Hin). by left. }
  apply (Hgen [] ∅); [set_solver|done].
Qed.
End normalising_loops.

Lemma regionStep_sound x out seen st :
  regionStep x (out, seen) = Ok st →
  st = (out, seen) ∨ (canonicalRegion (NormalizeRegionCode x) ∧ NormalizeRegionCode x ∉ seen ∧
    st = (out ++ [NormalizeRegionCode x], {[NormalizeRegionCode x]} ∪ seen)).
Proof.
  unfold regionStep. repeat case_match; intros [=]; subst. right. bprop.
  split; [|done]. split; [by apply String.eqb_neq|apply NormalizeRegionCode_idem].
Qed.

Lemma regionStep_canonical x out seen :
  canonicalRegion x → x ∉ seen → regionStep x (out, seen) = Ok (out ++ [x], {[x]} ∪ seen).
Proof.
  intros [Hne Hn] Hx. unfold regionStep. rewrite Hn, (proj2 (String.eqb_neq _ _)) by done.
  by rewrite bool_decide_eq_false_2.
Qed.

Lemma entryStep_sound x out seen st :
  entryStep x (out, seen) = Ok st →
  st = (out, seen) ∨ (canonicalEntry (TrimSpace x) ∧ TrimSpace x ∉ seen ∧
    st = (out ++ [TrimSpace x], {[TrimSpace x]} ∪ seen)).
Proof.
  unfold entryStep. repeat case_match; intros [=]; subst; [by left|]. right. bprop.
  split; [|done]. split; [by apply String.eqb_neq|]. split; [apply TrimSpace_idem|].
  exists z. match goal with X : (_ =? AssignableNodeInbound)%string = true |- _ => apply String.eqb_eq in X as -> end.
  done.
Qed.

Lemma entryStep_canonical x out seen :
  canonicalEntry x → x ∉ seen → entryStep x (out, seen) = Ok (out ++ [x], {[x]} ∪ seen).
Proof.
  intros (Hne & Ht & id & Hp & Hid) Hx. unfold entryStep. rewrite Ht, (proj2 (String.eqb_neq _ _)), Hp by done.
  rewrite String.eqb_refl, (proj2 (Z.leb_gt _ _)) by done. simpl. by rewrite bool_decide_eq_false_2.
Qed.

Lemma normalizeRegionOrderList_ok l out : normalizeRegionOrderList l = Ok out → canonicalList canonicalRegion out.
Proof.
  unfold normalizeRegionOrderList. intros (st & Hst & [= <-])%rbind_ok.
  by destruct (loop_canonical regionStep NormalizeRegionCode canonicalRegion regionStep_sound l st Hst) as [H _].
Qed.

Lemma normalizeRegionOrderList_fixed l :
  canonicalList canonicalRegion l → normalizeRegionOrderList l = Ok l.
Proof.
  intros H. unfold normalizeRegionOrderList.
  by destruct (loop_fixed regionStep canonicalRegion regionStep_canonical l H) as [seen ->].
Qed.

Lemma normalizeEntryOrder_ok l out : normalizeEntryOrder l = Ok out → canonicalList canonicalEntry out.
Proof.
  unfold normalizeEntryOrder. intros (st & Hst & [= <-])%rbind_ok.
  by destruct (loop_canonical entryStep TrimSpace canonicalEntry entryStep_sound l st Hst) as [H _].
Qed.

Lemma normalizeEntryOrder_fixed l : canonicalList canonicalEntry l → normalizeEntryOrder l = Ok l.
Proof.
  intros H. unfold normalizeEntryOrder.
  by destruct (loop_fixed entryStep canonicalEntry entryStep_canonical l H) as [seen ->].
Qed.

(** What a validated policy satisfies. *)
Record canonicalPolicy (p : OrderPolicy) : Prop := {
  cp_version : Version p = OrderVersion;
  cp_mode : Mode p ∈ [OrderLegacyGroupName; OrderExitRegion; OrderEntry; OrderManual];
  cp_seed : ManualSeed p ∈ [OrderExitRegion; OrderEntry];
  cp_entry_mode : EntryRegionOrderMode p ∈ [EntryRegionInheritExit; EntryRegionCustom];
  cp_exit : canonicalList canonicalRegion (ExitRegionOrder p);
  cp_entry_regions : canonicalList canonicalRegion (EntryRegionOrder p);
  cp_entries : canonicalList canonicalEntry (EntryOrder p);
  cp_new : NewNodePlacement p ∈ [PlacementByTemplate; PlacementAppend; PlacementPending];
  cp_unmatched : UnmatchedPlacement p ∈ [PlacementAppend; PlacementPending] }.

Lemma oneOf_elem v l : oneOf v l = true ↔ v ∈ l.
Proof.
  unfold oneOf. rewrite existsb_exists. split.
  - intros (x & Hx & ->%String.eqb_eq). by apply list_elem_of_In.
  - intros H. exists v. split; [by apply list_elem_of_In|apply String.eqb_refl].
Qed.

Lemma orDefault_elem v d l : oneOf v ("" :: l) = true → d ∈ l → orDefault v d ∈ l.
Proof.
  rewrite oneOf_elem. unfold orDefault. intros [->|H]%elem_of_cons Hd; simpl; [done|]. by case_match.
Qed.

Lemma orDefault_id v d : v ≠ "" → orDefault v d = v.
Proof. intros H. unfold orDefault. by rewrite (proj2 (String.eqb_neq _ _)). Qed.

Lemma validateNodePlacement_ok v b u :
  validateNodePlacement v b = Ok u →
  v ∈ [PlacementAppend; PlacementPending] ∨ (b = true ∧ v = PlacementByTemplate).
Proof.
  unfold validateNodePlacement, fail_if. case_match eqn:H; [done|]. intros _.
  apply negb_false_iff, orb_true_iff in H as [[H|H]%orb_true_iff|[H ->]%andb_true_iff];
    apply String.eqb_eq in H as ->; set_solver.
Qed.

Lemma Validate_canonical policy p : ValidateSubscriptionNodeOrderPolicy policy = Ok p → canonicalPolicy p.
Proof.
  unfold ValidateSubscriptionNodeOrderPolicy. intros H.
  repeat match type of H with rbind _ _ = Ok _ => apply rbind_ok in H as (? & ? & H) end.
  injection H as <-.
  repeat match goal with X : fail_if (negb ?c) _ = Ok _ |- _ => destruct c eqn:?; [clear X|done] end.
  split; simpl; try done.
  - apply orDefault_elem; [done|]. set_solver.
  - apply orDefault_elem; [done|]. set_solver.
  - apply orDefault_elem; [done|]. set_solver.
  - by eapply normalizeRegionOrderList_ok.
  - by eapply normalizeRegionOrderList_ok.
  - by eapply normalizeEntryOrder_ok.
  - match goal with X : validateNodePlacement _ true = _ |- _ => apply validateNodePlacement_ok in X end. set_solver.
  - match goal with X : validateNodePlacement _ false = _ |- _ => apply validateNodePlacement_ok in X end. set_solver.
Qed.

Lemma canonical_Validate p : canonicalPolicy p → ValidateSubscriptionNodeOrderPolicy p = Ok p.
Proof.
  intros [Hv Hm Hs Hem Hx Her Hen Hn Hu]. unfold ValidateSubscriptionNodeOrderPolicy.
  rewrite !(proj2 (oneOf_elem _ _)) by (by right). cbn [negb fail_if rbind].
  rewrite !normalizeRegionOrderList_fixed, normalizeEntryOrder_fixed by done. cbn [rbind].
  assert (Mode p ≠ "" ∧ ManualSeed p ≠ "" ∧ EntryRegionOrderMode p ≠ "" ∧ NewNodePlacement p ≠ "" ∧
    UnmatchedPlacement p ≠ "") as (? & ? & ? & ? & ?).
  { repeat split; intros He; rewrite He in *; set_solver. }
  rewrite !orDefault_id by done.
  assert (validateNodePlacement (NewNodePlacement p) true = Ok ()) as ->.
  { repeat (apply elem_of_cons in Hn as [->|Hn]; [done|]). set_solver. }
  assert (validateNodePlacement (UnmatchedPlacement p) false = Ok ()) as ->.
  { repeat (apply elem_of_cons in Hu as [->|Hu]; [done|]). set_solver. }
  simpl. rewrite <-Hv. by destruct p.
Qed.

(** The stored snapshot is canonical: validation accepts its own result unchanged,
    and the result has known modes, region lists of distinct upper-case codes and an
    entry list of distinct inbound keys. *)
Theorem ValidateSubscriptionNodeOrderPolicy_idempotent policy p :
  ValidateSubscriptionNodeOrderPolicy policy = Ok p →
  ValidateSubscriptionNodeOrderPolicy p = Ok p ∧ canonicalPolicy p.
Proof. intros H%Validate_canonical. split; [by apply canonical_Validate|done]. Qed.

(** ** Placement of new nodes *)

(** *** Conservation *)

Definition matched (p : OrderPolicy) (n : SubscriptionNode) : Prop := bucket_matched (placementBucketFor n p) = true.
Definition inBucket (p : OrderPolicy) (k : string) (n : SubscriptionNode) : Prop :=
  matched p n ∧ bucket_key (placementBucketFor n p) = k.
#[export] Instance matched_dec p n : Decision (matched p n).
Proof. unfold matched. apply _. Defined.
#[export] Instance inBucket_dec p k n : Decision (inBucket p k n).
Proof. unfold inBucket. apply _. Defined.

Record groupInv (p : OrderPolicy) (l : list SubscriptionNode) (g : grouping) : Prop := {
  gi_groups k : mlist (g_groups g) k = filter (inBucket p k) l;
  gi_keys k : is_Some (g_groups g !! k) ↔ ∃ n, n ∈ l ∧ inBucket p k n;
  gi_buckets k : is_Some (g_groups g !! k) →
    ∃ n, n ∈ l ∧ inBucket p k n ∧ g_buckets g !! k = Some (placementBucketFor n p);
  gi_unmatched : g_unmatched g = filter (λ n, ¬ matched p n) l }.

Lemma group_inv p l :
  groupInv p l (foldl (groupStep p) {| g_groups := ∅; g_buckets := ∅; g_unmatched := [] |} l).
Proof.
  induction l as [|n l [Hg Hk Hb Hu] IH] using rev_ind.
  { split; simpl; try done.
    - intros k. rewrite lookup_empty. split; [by intros [? ?]|set_solver].
    - intros k. rewrite lookup_empty. by intros [? ?]. }
  rewrite foldl_app. simpl. set (g := foldl _ _ l) in *. unfold groupStep.
  destruct (bucket_matched (placementBucketFor n p)) eqn:Hm; simpl; split; simpl.
  - intros k. rewrite mlist_mappend, filter_app, filter_cons, filter_nil, Hg.
    destruct (decide (bucket_key (placementBucketFor n p) = k)) as [<-|Hne].
    + by rewrite decide_True by done.
    + rewrite decide_False, app_nil_r; [done|]. by intros [_ ?].
  - intros k. unfold mappend. rewrite lookup_insert. setoid_rewrite elem_of_app.
    setoid_rewrite list_elem_of_singleton. case_decide as Hd.
    + split; [intros _; exists n; split; [by right|done]|by eauto].
    + rewrite Hk. split; [naive_solver|]. intros (m & [Hm'| ->] & Hin); [by eauto|]. by destruct Hin.
  - intros k. unfold mappend. rewrite !lookup_insert. setoid_rewrite elem_of_app.
    setoid_rewrite list_elem_of_singleton. case_decide as Hd.
    + intros _. exists n. split; [by right|]. split; done.
    + intros (m & ? & ? & ?)%Hb. eauto 10.
  - rewrite filter_app, filter_cons, filter_nil, Hu. rewrite decide_False, app_nil_r; [done|].
    intros H. by apply H.
  - intros k. rewrite filter_app, filter_cons, filter_nil, Hg. rewrite decide_False, app_nil_r; [done|].
    intros [H _]. unfold matched in H. congruence.
  - intros k. rewrite Hk. setoid_rewrite elem_of_app. setoid_rewrite list_elem_of_singleton.
    split; [naive_solver|]. intros (m & [?| ->] & H1 & H2); [by exists m|]. unfold matched in H1. congruence.
  - intros k (m & ? & ? & ?)%Hb. exists m. split; [set_solver|done].
  - rewrite filter_app, filter_cons, filter_nil, Hu. rewrite decide_True; [done|].
    unfold matched. congruence.
Qed.

Lemma filter_split {A} (P : A → Prop) `{!∀ x, Decision (P x)} (l : list A) :
  filter P l ++ filter (λ x, ¬ P x) l ≡ₚ l.
Proof.
  induction l as [|x l IH]; [done|]. rewrite !filter_cons. repeat case_decide; try tauto; simpl.
  - by rewrite IH.
  - by rewrite <-Permutation_middle, IH.
Qed.

Lemma concat_fmap_ext {A K} (h1 h2 : K → list A) ks :
  (∀ k, k ∈ ks → h1 k = h2 k) → concat (h1 <$> ks) ≡ₚ concat (h2 <$> ks).
Proof.
  induction ks as [|k ks IH]; intros H; simpl; [done|].
  rewrite H by (by left). rewrite IH; [done|]. intros k' Hk'. apply H. by right.
Qed.

(** Splitting a list by key loses nothing. *)
Lemma filter_partition {A K} (P : K → A → Prop) `{!∀ k x, Decision (P k x)} (ks : list K) (l : list A) :
  (∀ k k' x, P k x → P k' x → k = k') → NoDup ks → (∀ x, x ∈ l → ∃ k, k ∈ ks ∧ P k x) →
  concat ((λ k, filter (P k) l) <$> ks) ≡ₚ l.
Proof.
  intros Hinj Hnd. revert l. induction Hnd as [|k ks Hk _ IH]; intros l Hl; simpl.
  { destruct l as [|x l]; [done|]. destruct (Hl x ltac:(by left)) as (? & ? & _). set_solver. }
  etrans; [|apply (filter_split (P k))]. apply Permutation_app; [done|].
  rewrite <-(IH (filter (λ x, ¬ P k x) l)).
  - apply concat_fmap_ext. intros k' Hk'.
    symmetry. rewrite list_filter_filter. apply list_filter_iff. intros x. split; [naive_solver|].
    intros HP. split; [done|]. intros HP'. rewrite (Hinj _ _ _ HP HP') in Hk'. done.
  - intros x [Hx Hin]%list_elem_of_filter. destruct (Hl x Hin) as (k' & [->|Hk']%elem_of_cons & HP); [done|eauto].
Qed.

Lemma insertStrings_perm input at_ values : insertStrings input at_ values ≡ₚ input ++ values.
Proof.
  unfold insertStrings. rewrite (Permutation_app_comm values), app_assoc, take_drop. done.
Qed.

Lemma insertStrings_sublist input at_ values : input `sublist_of` insertStrings input at_ values.
Proof.
  unfold insertStrings. rewrite <-(take_drop (Z.to_nat at_) input) at 1.
  apply sublist_app; [done|]. by apply sublist_inserts_l.
Qed.

Lemma placeGroup_order p g st k :
  pl_order (placeGroup p g st k) =
  insertStrings (pl_order st) (manualBucketInsertionIndex (pl_order st) (pl_nodes st) (bucketOf (g_buckets g) k) p).1
    (Key <$> mlist (g_groups g) k).
Proof. unfold placeGroup. by destruct (manualBucketInsertionIndex _ _ _ _). Qed.

Lemma placeGroups_perm p g st ks :
  pl_order (foldl (placeGroup p g) st ks) ≡ₚ
  pl_order st ++ concat ((λ k, Key <$> mlist (g_groups g) k) <$> ks).
Proof.
  revert st. induction ks as [|k ks IH]; intros st; simpl; [by rewrite app_nil_r|].
  rewrite IH, placeGroup_order, insertStrings_perm. by rewrite <-app_assoc.
Qed.

Lemma placeGroups_sublist p g st ks :
  pl_order st `sublist_of` pl_order (foldl (placeGroup p g) st ks).
Proof.
  revert st. induction ks as [|k ks IH]; intros st; simpl; [done|]. etrans; [|apply IH].
  rewrite placeGroup_order. apply insertStrings_sublist.
Qed.

(** The group keys: every bucket with a new node, once. *)
Definition groupKeysOf `{!MapRange string (list SubscriptionNode)} (g : grouping) : list string :=
  sort_slice (groupKeyLess (g_buckets g)) (fst <$> map_range (g_groups g)).

Lemma elem_of_groupKeys `{!MapRange string (list SubscriptionNode)} g k :
  k ∈ groupKeysOf g ↔ is_Some (g_groups g !! k).
Proof.
  unfold groupKeysOf. rewrite elem_of_sort_slice, list_elem_of_fmap. split.
  - intros ([k' v] & -> & H%elem_of_map_range). by exists v.
  - intros [v Hv]. exists (k, v). by rewrite elem_of_map_range.
Qed.

Lemma NoDup_groupKeys `{!MapRange string (list SubscriptionNode)} g : NoDup (groupKeysOf g).
Proof. unfold groupKeysOf. apply NoDup_sort_slice, NoDup_map_range. Qed.

Lemma groups_perm `{!MapRange string (list SubscriptionNode)} p l g :
  groupInv p l g → concat ((λ k, mlist (g_groups g) k) <$> groupKeysOf g) ++ g_unmatched g ≡ₚ l.
Proof.
  intros [Hg Hk _ Hu]. rewrite Hu. etrans; [|apply (filter_split (matched p))].
  apply Permutation_app; [|done].
  rewrite <-(filter_partition (inBucket p) (groupKeysOf g) (filter (matched p) l)).
  - apply concat_fmap_ext. intros k _. rewrite Hg, list_filter_filter.
    apply list_filter_iff. intros n. unfold inBucket. tauto.
  - intros k k' n [_ <-] [_ <-]. done.
  - apply NoDup_groupKeys.
  - intros n [Hm Hn]%list_elem_of_filter. exists (bucket_key (placementBucketFor n p)).
    split; [|done]. apply elem_of_groupKeys, Hk. by exists n.
Qed.

Lemma fmap_concat_keys {A B} (f : A → B) (h : string → list A) ks :
  concat ((λ k, f <$> h k) <$> ks) = f <$> concat (h <$> ks).
Proof. induction ks as [|k ks IH]; [done|]. rewrite !fmap_cons. simpl. by rewrite fmap_app, <-IH. Qed.

Lemma placeByTemplate_perm `{!MapRange string (list SubscriptionNode)} existing added p :
  OrderedNodeKeys (placeByTemplate existing added p) ++ PendingNodeKeys (placeByTemplate existing added p)
    ≡ₚ (Key <$> existing) ++ (Key <$> added) ∧
  (Key <$> existing) `sublist_of` OrderedNodeKeys (placeByTemplate existing added p).
Proof.
  unfold placeByTemplate. set (g := foldl (groupStep p) _ added).
  pose proof (group_inv p added) as Hinv. fold g in Hinv. fold (groupKeysOf g).
  set (st := foldl (placeGroup p g) _ _).
  assert (pl_order st ++ (Key <$> g_unmatched g) ≡ₚ (Key <$> existing) ++ (Key <$> added)) as Hperm.
  { unfold st. rewrite placeGroups_perm, fmap_concat_keys, <-app_assoc, <-fmap_app. simpl.
    by rewrite (groups_perm p added g Hinv). }
  assert ((Key <$> existing) `sublist_of` pl_order st) as Hsub.
  { unfold st. etrans; [|apply placeGroups_sublist]. done. }
  destruct (g_unmatched g) as [|u un] eqn:Hun; simpl.
  - by rewrite app_nil_r in *.
  - case_match; simpl; rewrite ?app_nil_r; split; try done. by apply sublist_inserts_r.
Qed.

(** Automatic placement neither loses nor invents a node: the ordered and the pending
    keys together are the existing and the added keys, and the existing keys keep their
    relative order. *)
Theorem AutoPlaceNewManualNodes_conserves `{!MapRange string (list SubscriptionNode)} existing added policy :
  let r := AutoPlaceNewManualNodes existing added policy in
  OrderedNodeKeys r ++ PendingNodeKeys r ≡ₚ Key <$> (existing ++ added) ∧
  (Key <$> existing) `sublist_of` OrderedNodeKeys r.
Proof.
  intros r. subst r. unfold AutoPlaceNewManualNodes.
  destruct added as [|a added]; [by rewrite !app_nil_r|]. set (p := normalizedPolicy _ _).
  pose proof (OrderSubscriptionNodes_perm (a :: added) (seedPolicy p)) as Hp. revert Hp.
  generalize (OrderSubscriptionNodes (a :: added) (seedPolicy p)) as oa. intros oa Hp.
  rewrite fmap_app, <-Hp. case_match; [done|]. case_match; cbn [OrderedNodeKeys PendingNodeKeys].
  - rewrite app_nil_r. split; [done|]. by apply sublist_inserts_r.
  - apply placeByTemplate_perm.
Qed.

(** *** The template order is kept *)

(** The list lengths for which ranks stay inside Go's [int]. *)
Definition fitsInt (p : OrderPolicy) : Prop :=
  Z.of_nat (length (ExitRegionOrder p)) < 2 ^ 31 ∧ Z.of_nat (length (EntryRegionOrder p)) < 2 ^ 31 ∧
  Z.of_nat (length (EntryOrder p)) < 2 ^ 31.

Lemma buildRegionRank_bound l c i : buildRegionRank l !! c = Some i → 0 ≤ i < Z.of_nat (length l).
Proof.
  unfold buildRegionRank. induction l as [|x l IH] using rev_ind; [done|].
  rewrite imap_app, foldl_app, length_app. simpl. rewrite lookup_insert. case_decide.
  - intros [= <-]. lia.
  - intros Hi%IH. lia.
Qed.

Lemma indexOfKey_bound k l i j : indexOfKey k l i = Some j → i ≤ j < i + Z.of_nat (length l).
Proof.
  revert i. induction l as [|x l IH]; intros i; simpl; [done|]. case_match; [intros [= <-]; lia|].
  intros Hj%IH. lia.
Qed.

Lemma bucket_rank_bound p n : fitsInt p → 0 ≤ bucket_rank (placementBucketFor n p) < int_max.
Proof.
  intros (H1 & H2 & H3). unfold placementBucketFor, int_max, int64_max. case_match.
  - set (order := if (EntryRegionOrderMode p =? EntryRegionCustom)%string then _ else _).
    assert (Z.of_nat (length order) < 2 ^ 31) by (unfold order; case_match; done).
    destruct (buildRegionRank order !! _) as [i|] eqn:Hi, (indexOfKey _ _ 0) as [j|] eqn:Hj; simpl;
      try apply buildRegionRank_bound in Hi; try apply indexOfKey_bound in Hj; lia.
  - simpl. destruct (buildRegionRank _ !! _) as [i|] eqn:Hi; simpl; [|lia].
    apply buildRegionRank_bound in Hi. lia.
Qed.

Lemma colon_not_upper : ¬ is_upper ":".
Proof. intros [H _]. by apply H. Qed.

(** A bucket key determines the rank. *)
Lemma region_prefix_inj r1 r2 k1 k2 :
  (r1 = "" ∨ ∃ a b, r1 = String a (String b "") ∧ is_upper a ∧ is_upper b) →
  (r2 = "" ∨ ∃ a b, r2 = String a (String b "") ∧ is_upper a ∧ is_upper b) →
  (r1 +:+ ":" +:+ k1 = r2 +:+ ":" +:+ k2)%string → r1 = r2 ∧ k1 = k2.
Proof.
  intros [-> | (a & b & -> & Ha & Hb)] [-> | (a' & b' & -> & Ha' & Hb')] H;
    cbv [String.append] in H; injection H; intros; subst; try done; by destruct colon_not_upper.
Qed.

Lemma append_inj (s t u : string) : (s +:+ t = s +:+ u)%string → t = u.
Proof. induction s as [|a s IH]; [done|]. intros [= H]. by apply IH. Qed.

Lemma bucket_key_rank p n m :
  bucket_key (placementBucketFor n p) = bucket_key (placementBucketFor m p) →
  bucket_rank (placementBucketFor n p) = bucket_rank (placementBucketFor m p).
Proof.
  unfold placementBucketFor. destruct (ManualSeed p =? OrderEntry)%string; simpl.
  - pose proof (NormalizeRegionCode_cases (EntryRegion n)) as Hn.
    pose proof (NormalizeRegionCode_cases (EntryRegion m)) as Hm.
    set (rn := NormalizeRegionCode (EntryRegion n)) in *. set (rm := NormalizeRegionCode (EntryRegion m)) in *.
    set (f := buildRegionRank _).
    destruct (bool_decide (is_Some (f !! rn)) && _) eqn:Un, (bool_decide (is_Some (f !! rm)) && _) eqn:Um; intros Hk.
    + apply (append_inj "entry-region:") in Hk.
      by destruct (region_prefix_inj rn rm "unlisted" "unlisted" Hn Hm Hk) as [-> _].
    + cbv [String.append] in Hk. discriminate Hk.
    + cbv [String.append] in Hk. discriminate Hk.
    + apply (append_inj "entry:") in Hk.
      by destruct (region_prefix_inj rn rm _ _ Hn Hm Hk) as [-> ->].
  - intros Hk. apply (append_inj "exit:") in Hk. by rewrite Hk.
Qed.

(** The template rank of a key, for the nodes a template matches. *)
Definition rankOfKey (nodes : gmap string SubscriptionNode) (p : OrderPolicy) (key : string) : option Z :=
  let b := placementBucketFor (default zeroNode (nodes !! key)) p in
  if bucket_matched b then Some (bucket_rank b) else None.

(** The keys are in template order. *)
Definition inTemplateOrder (nodes : gmap string SubscriptionNode) (p : OrderPolicy) (order : list string) : Prop :=
  StronglySorted Z.le (omap (rankOfKey nodes p) order).

Section anchors.
Context (nodes : gmap string SubscriptionNode) (p : OrderPolicy) (target : placementBucket).
Hypothesis fits : fitsInt p.
Hypothesis target_node : ∃ n, target = placementBucketFor n p.
Notation R := (rankOfKey nodes p).
Notation r := (bucket_rank target).

(** What the scan of [manualBucketInsertionIndex] knows about the keys it has seen. *)
Record anchorInv (order : list string) (st : anchorState) : Prop := {
  an_same : lastSame st = -1 ∨ ∃ i k, lastSame st = Z.of_nat i ∧ order !! i = Some k ∧ R k = Some r;
  an_pred : (predecessorIndex st = -1 ∧ predecessorRank st = -1 ∧
      ∀ j k a, order !! j = Some k → R k = Some a → r ≤ a) ∨
    ∃ i k, predecessorIndex st = Z.of_nat i ∧ order !! i = Some k ∧ R k = Some (predecessorRank st) ∧
      predecessorRank st < r ∧
      ∀ j k a, (i < j)%nat → order !! j = Some k → R k = Some a → r ≤ a ∨ a < predecessorRank st;
  an_succ : (successorIndex st = -1 ∧ successorRank st = int_max ∧
      ∀ j k a, order !! j = Some k → R k = Some a → a ≤ r) ∨
    ∃ i k, successorIndex st = Z.of_nat i ∧ order !! i = Some k ∧ R k = Some (successorRank st) ∧
      r < successorRank st ∧
      (∀ j k a, order !! j = Some k → R k = Some a → a ≤ r ∨ successorRank st ≤ a) ∧
      ∀ j k a, (j < i)%nat → order !! j = Some k → R k = Some a → a ≤ r ∨ successorRank st < a }.

Lemma lookup_snoc_inv {A} (l : list A) x i y :
  (l ++ [x]) !! i = Some y → l !! i = Some y ∨ (i = length l ∧ x = y).
Proof.
  intros [H|[Hle H]]%lookup_app_Some; [by left|right].
  destruct (i - length l)%nat eqn:He; simpl in H; [|by rewrite lookup_nil in H]. split; [lia|congruence].
Qed.

Lemma lookup_snoc_l {A} (l : list A) x i y : l !! i = Some y → (l ++ [x]) !! i = Some y.
Proof. intros H. by apply lookup_app_l_Some. Qed.

Lemma R_bound k a : R k = Some a → 0 ≤ a < int_max.
Proof. unfold rankOfKey. case_match; [|done]. intros [= <-]. by apply bucket_rank_bound. Qed.

Lemma R_same k :
  bucket_matched (placementBucketFor (default zeroNode (nodes !! k)) p) = true →
  bucket_key (placementBucketFor (default zeroNode (nodes !! k)) p) = bucket_key target → R k = Some r.
Proof.
  intros Hm Hk. unfold rankOfKey. rewrite Hm. f_equal. destruct target_node as [n ->]. by apply bucket_key_rank.
Qed.

Definition anchorStart : anchorState :=
  {| lastSame := -1; predecessorIndex := -1; predecessorRank := -1; successorIndex := -1;
     successorRank := int_max |}.

(** A key the scan skips leaves the facts in place. *)
Lemma anchor_skip order st x : anchorInv order st → R x = None → anchorInv (order ++ [x]) st.
Proof.
  intros [Hs Hp Hu] Hx.
  assert (∀ j k a, (order ++ [x]) !! j = Some k → R k = Some a → order !! j = Some k) as Hold.
  { intros j k a [H|[_ ->]]%lookup_snoc_inv Ha; [done|congruence]. }
  split.
  - destruct Hs as [|(i & k & ? & ? & ?)]; [by left|right]. eauto 10 using lookup_snoc_l.
  - destruct Hp as [(? & ? & H)|(i & k & ? & ? & ? & ? & H)]; [left|right].
    + split_and!; try done. intros j k a Hj Ha. eauto.
    + exists i, k. split_and!; try done; [by apply lookup_snoc_l|]. intros j k' a Hij Hj Ha. eauto.
  - destruct Hu as [(? & ? & H)|(i & k & ? & ? & ? & ? & H & H')]; [left|right].
    + split_and!; try done. intros j k a Hj Ha. eauto.
    + exists i, k. split_and!; try done; [by apply lookup_snoc_l|..]; intros j k' a; eauto.
Qed.

Lemma anchor_pred order st x a0 :
  anchorInv order st → R x = Some a0 →
  let upd := (a0 <? r) && (predecessorRank st <=? a0) in
  let pi := if upd then Z.of_nat (length order) else predecessorIndex st in
  let pr := if upd then a0 else predecessorRank st in
  (pi = -1 ∧ pr = -1 ∧ ∀ j k a, (order ++ [x]) !! j = Some k → R k = Some a → r ≤ a) ∨
  ∃ i k, pi = Z.of_nat i ∧ (order ++ [x]) !! i = Some k ∧ R k = Some pr ∧ pr < r ∧
    ∀ j k a, (i < j)%nat → (order ++ [x]) !! j = Some k → R k = Some a → r ≤ a ∨ a < pr.
Proof.
  intros [_ Hp _] Hx upd pi pr. subst upd pi pr. pose proof (R_bound _ _ Hx).
  destruct ((a0 <? r) && (predecessorRank st <=? a0)) eqn:Hu.
  - right. bprop. exists (length order), x. split_and!; try done; [by apply list_lookup_middle|].
    intros j k a Hj [Hl%lookup_lt_Some|[-> _]]%lookup_snoc_inv; lia.
  - apply andb_false_iff in Hu.
    destruct Hp as [(H1 & H2 & H3)|(i & k & H1 & H2 & H3 & H4 & H5)]; [left|right].
    + split_and!; try done. intros j k a [Hj|[_ ->]]%lookup_snoc_inv Ha; [by eauto|].
      rewrite Hx in Ha. injection Ha as <-. destruct Hu as [Hu|Hu]; bprop; lia.
    + exists i, k. split_and!; try done; [by apply lookup_snoc_l|].
      intros j k' a Hij [Hj|[_ ->]]%lookup_snoc_inv Ha; [by eauto|].
      rewrite Hx in Ha. injection Ha as <-. destruct Hu as [Hu|Hu]; bprop; lia.
Qed.

Lemma anchor_succ order st x a0 :
  anchorInv order st → R x = Some a0 →
  let upd := (r <? a0) && (a0 <? successorRank st) in
  let si := if upd then Z.of_nat (length order) else successorIndex st in
  let sr := if upd then a0 else successorRank st in
  (si = -1 ∧ sr = int_max ∧ ∀ j k a, (order ++ [x]) !! j = Some k → R k = Some a → a ≤ r) ∨
  ∃ i k, si = Z.of_nat i ∧ (order ++ [x]) !! i = Some k ∧ R k = Some sr ∧ r < sr ∧
    (∀ j k a, (order ++ [x]) !! j = Some k → R k = Some a → a ≤ r ∨ sr ≤ a) ∧
    ∀ j k a, (j < i)%nat → (order ++ [x]) !! j = Some k → R k = Some a → a ≤ r ∨ sr < a.
Proof.
  intros [_ _ Hsu] Hx upd si sr. subst upd si sr. pose proof (R_bound _ _ Hx).
  destruct ((r <? a0) && (a0 <? successorRank st)) eqn:Hu.
  - right. bprop. exists (length order), x. split; [done|]. split; [by apply list_lookup_middle|].
    assert (∀ j k a, order !! j = Some k → R k = Some a → a ≤ r ∨ a0 < a) as Hold.
    { intros j k a Hj Ha. destruct Hsu as [(_ & _ & H3)|(_ & _ & _ & _ & _ & _ & H3 & _)]; [by eauto|].
      destruct (H3 j k a Hj Ha); lia. }
    split_and!; try done.
    + intros j k a [Hj|[_ ->]]%lookup_snoc_inv Ha; [destruct (Hold j k a Hj Ha); lia|].
      rewrite Hx in Ha. injection Ha as <-. lia.
    + intros j k a Hlt [Hj|[-> _]]%lookup_snoc_inv Ha; [by eauto|lia].
  - apply andb_false_iff in Hu.
    destruct Hsu as [(H1 & H2 & H3)|(i & k & H1 & H2 & H3 & H4 & H5 & H6)]; [left|right].
    + split_and!; try done. intros j k a [Hj|[_ ->]]%lookup_snoc_inv Ha; [by eauto|].
      rewrite Hx in Ha. injection Ha as <-. destruct Hu as [Hu|Hu]; bprop; lia.
    + apply lookup_lt_Some in H2 as Hlen.
      exists i, k. split_and!; try done; [by apply lookup_snoc_l|..].
      * intros j k' a [Hj|[_ ->]]%lookup_snoc_inv Ha; [by eauto|].
        rewrite Hx in Ha. injection Ha as <-. destruct Hu as [Hu|Hu]; bprop; lia.
      * intros j k' a Hlt [Hj|[-> _]]%lookup_snoc_inv Ha; [by eauto|lia].
Qed.

Lemma anchor_inv order : anchorInv order (foldl (anchorStep nodes target p) anchorStart (imap pair order)).
Proof.
  induction order as [|x order IH] using rev_ind.
  { split; left; simpl; [done|..]; (split; [done|]; split; [done|]); intros j k a; by rewrite lookup_nil. }
  rewrite imap_app, foldl_app. simpl. rewrite Nat.add_0_r.
  set (st := foldl _ _ _) in *.
  destruct (bucket_matched (placementBucketFor (default zeroNode (nodes !! x)) p)) eqn:Hm; simpl.
  2: { apply anchor_skip; [done|]. unfold rankOfKey. by rewrite Hm. }
  assert (R x = Some (bucket_rank (placementBucketFor (default zeroNode (nodes !! x)) p))) as Hx.
  { unfold rankOfKey. by rewrite Hm. }
  split; simpl.
  - destruct (_ =? bucket_key target)%string eqn:Hk.
    + right. exists (length order), x. apply String.eqb_eq in Hk. split_and!; [done|by apply list_lookup_middle|].
      by apply R_same.
    + destruct (an_same _ _ IH) as [|(i & k & ? & ? & ?)]; [by left|right]. eauto 10 using lookup_snoc_l.
  - by apply anchor_pred.
  - by apply anchor_succ.
Qed.

Lemma sorted_lookup order i j ki kj a b :
  inTemplateOrder nodes p order → (i ≤ j)%nat → order !! i = Some ki → order !! j = Some kj →
  R ki = Some a → R kj = Some b → a ≤ b.
Proof.
  intros Hs Hij Hi Hj Ha Hb. destruct (decide (i = j)) as [->|]; [assert (a = b) by congruence; lia|].
  apply list_elem_of_split_length in Hi as (l1 & l2 & -> & ->).
  rewrite lookup_app_r in Hj by lia. destruct (j - length l1)%nat as [|m] eqn:Hm; [lia|]. simpl in Hj.
  unfold inTemplateOrder in Hs. rewrite omap_app in Hs. apply StronglySorted_app_1_r in Hs.
  simpl in Hs. rewrite Ha in Hs. apply StronglySorted_inv in Hs as [_ Hs]. rewrite Forall_forall in Hs.
  apply Hs. apply list_elem_of_omap. exists kj. split; [by eapply list_elem_of_lookup_2|done].
Qed.

(** The anchor splits an ordered list at the rank of the target. *)
Lemma insertion_splits order :
  inTemplateOrder nodes p order →
  let at_ := (manualBucketInsertionIndex order nodes target p).1 in
  Forall (λ a, a ≤ r) (omap R (take (Z.to_nat at_) order)) ∧
  Forall (λ a, r ≤ a) (omap R (drop (Z.to_nat at_) order)).
Proof.
  intros Hs at_.
  assert (∀ n, (∀ i k a, (i < n)%nat → order !! i = Some k → R k = Some a → a ≤ r) →
    (∀ i k a, (n ≤ i)%nat → order !! i = Some k → R k = Some a → r ≤ a) →
    Forall (λ a, a ≤ r) (omap R (take n order)) ∧ Forall (λ a, r ≤ a) (omap R (drop n order))) as Hgoal.
  { intros n Hlo Hhi. split; apply Forall_forall; intros a (k & Hk & Ha)%list_elem_of_omap.
    - apply elem_of_take in Hk as (i & ? & ?). eauto.
    - apply list_elem_of_lookup in Hk as [i Hi]. rewrite lookup_drop in Hi. eapply Hhi; [|done..]. lia. }
  destruct (anchor_inv order) as [Hsame Hpred Hsucc]. subst at_. unfold manualBucketInsertionIndex.
  fold anchorStart. set (st := foldl _ _ _) in *.
  destruct (0 <=? lastSame st) eqn:H1; bprop; simpl.
  { destruct Hsame as [?|(i & k & -> & Hi & Hk)]; [lia|]. apply Hgoal.
    - intros j k' a Hj Hl Ha. eapply (sorted_lookup order j i); eauto. lia.
    - intros j k' a Hj Hl Ha. eapply (sorted_lookup order i j); eauto. lia. }
  destruct (0 <=? predecessorIndex st) eqn:H2; bprop; simpl.
  { destruct Hpred as [(? & _)|(i & k & -> & Hi & Hk & Hr & Hj)]; [lia|]. apply Hgoal.
    - intros j k' a Hlt Hl Ha. assert (a ≤ predecessorRank st); [|lia].
      eapply (sorted_lookup order j i); eauto. lia.
    - intros j k' a Hle Hl Ha. destruct (Hj j k' a) as [|Hlt]; [lia|done..|].
      assert (predecessorRank st ≤ a); [|lia]. eapply (sorted_lookup order i j); eauto. lia. }
  destruct Hpred as [(_ & _ & Hge)|(i & ? & ? & _)]; [|lia].
  destruct (0 <=? successorIndex st) eqn:H3; bprop; simpl.
  { destruct Hsucc as [(? & _)|(i & k & -> & Hi & Hk & Hr & _ & Hj)]; [lia|]. apply Hgoal; [|by eauto].
    intros j k' a Hlt Hl Ha. destruct (Hj j k' a) as [|Hgt]; [lia|done..|].
    assert (a ≤ successorRank st); [|lia]. eapply (sorted_lookup order j i); eauto. lia. }
  destruct Hsucc as [(_ & _ & Hle)|(i & ? & ? & _)]; [|lia]. apply Hgoal; [by eauto|by eauto].
Qed.
End anchors.

Section template_order.
Context (p : OrderPolicy) (all : list SubscriptionNode).
Hypothesis fits : fitsInt p.
Hypothesis distinct : NoDup (Key <$> all).
Notation M := (indexBy Key all).

Record placingInv (st : placing) : Prop := {
  pi_nodes k n : pl_nodes st !! k = Some n → n ∈ all ∧ Key n = k;
  pi_known k : k ∈ pl_order st → is_Some (pl_nodes st !! k);
  pi_sorted : inTemplateOrder M p (pl_order st) }.

Lemma rankOfKey_node nodes k n :
  (∀ k n, nodes !! k = Some n → n ∈ all ∧ Key n = k) → nodes !! k = Some n → rankOfKey nodes p k = rankOfKey M p k.
Proof.
  intros Hn Hk. destruct (Hn _ _ Hk) as [Hin <-]. unfold rankOfKey.
  by rewrite Hk, (indexBy_NoDup Key all n distinct Hin).
Qed.

Lemma omap_rank st l :
  placingInv st → l ⊆ pl_order st → omap (rankOfKey (pl_nodes st) p) l = omap (rankOfKey M p) l.
Proof.
  intros [Hn Hk _] Hsub. apply list_omap_ext, Forall2_same_length_lookup. split; [done|].
  intros i k k' Hi Hi'. rewrite Hi in Hi'. injection Hi' as <-.
  destruct (Hk k) as [n Hkn]; [by eapply Hsub, list_elem_of_lookup_2|].
  by apply (rankOfKey_node _ _ n).
Qed.

Lemma sorted_insert (l1 l2 l3 : list Z) r :
  StronglySorted Z.le (l1 ++ l3) → Forall (λ a, a ≤ r) l1 → Forall (λ a, r ≤ a) l3 → Forall (λ a, a = r) l2 →
  StronglySorted Z.le (l1 ++ l2 ++ l3).
Proof.
  intros Hs H1 H3 H2. induction H1 as [|a l1 Ha _ IH]; simpl in *.
  - induction H2 as [|b l2 -> H2 IH2]; simpl; [done|]. constructor; [done|].
    apply Forall_app. split; [|done]. eapply Forall_impl; [done|]. simpl. lia.
  - apply StronglySorted_inv in Hs as [Hs Hal]. constructor; [by apply IH|].
    apply Forall_app in Hal as [Ha1 Ha3]. apply Forall_app. split; [done|]. apply Forall_app. split; [|done].
    eapply Forall_impl; [done|]. simpl. lia.
Qed.

Lemma placeGroup_inv l g st k :
  groupInv p l g → l ⊆ all → is_Some (g_groups g !! k) → placingInv st → placingInv (placeGroup p g st k).
Proof.
  intros [Hg Hkeys Hb _] Hsub Hk Hst. destruct (Hb k Hk) as (n0 & Hn0 & [_ Hkey0] & Hbk).
  assert (∀ n, n ∈ mlist (g_groups g) k → n ∈ all ∧ rankOfKey M p (Key n) = Some (bucket_rank (placementBucketFor n0 p))) as Hmem.
  { intros n Hn. rewrite Hg in Hn. apply list_elem_of_filter in Hn as [[Hm Hkey] Hn]. split; [by apply Hsub|].
    unfold rankOfKey. rewrite (indexBy_NoDup Key all n distinct) by (by apply Hsub). simpl. rewrite Hm. f_equal.
    apply bucket_key_rank. congruence. }
  assert (∀ ms k' m, (∀ n, n ∈ ms → n ∈ all) →
    foldl (λ m n, <[Key n := n]> m) (pl_nodes st) ms !! k' = Some m → m ∈ all ∧ Key m = k') as Hfold.
  { intros ms k' m. induction ms as [|n ms IH] using rev_ind; intros Hms; [apply Hst|].
    rewrite foldl_app. simpl. rewrite lookup_insert. case_decide; [intros [= <-]; set_solver|].
    apply IH. set_solver. }
  assert (∀ ms k', k' ∈ Key <$> ms ∨ is_Some (pl_nodes st !! k') →
    is_Some (foldl (λ m n, <[Key n := n]> m) (pl_nodes st) ms !! k')) as Hknown.
  { intros ms k'. induction ms as [|n ms IH] using rev_ind; [set_solver|].
    rewrite foldl_app, fmap_app. simpl. rewrite lookup_insert. case_decide; [by eauto|]. intros Hor.
    apply IH. set_solver. }
  split.
  - intros k' m. unfold placeGroup. destruct (manualBucketInsertionIndex _ _ _ _). simpl. apply Hfold.
    intros n Hn. by apply Hmem.
  - intros k'. rewrite placeGroup_order, insertStrings_perm, elem_of_app. intros Hk'.
    unfold placeGroup. destruct (manualBucketInsertionIndex _ _ _ _). simpl. apply Hknown.
    destruct Hk' as [Hk'|Hk']; [right; by apply Hst|by left].
  - unfold inTemplateOrder. rewrite placeGroup_order. unfold insertStrings. rewrite !omap_app.
    unfold bucketOf. rewrite Hbk. simpl default.
    destruct (insertion_splits (pl_nodes st) p (placementBucketFor n0 p) fits (ex_intro _ n0 eq_refl) (pl_order st)) as [H1 H2].
    { unfold inTemplateOrder. rewrite (omap_rank st) by done. apply Hst. }
    set (i := Z.to_nat _) in *.
    rewrite (omap_rank st) in H1, H2 by (done || (intros x Hx; rewrite <-(take_drop i (pl_order st)); set_solver)).
    eapply sorted_insert; [|done|done|].
    + rewrite <-omap_app, take_drop. apply Hst.
    + apply Forall_forall. intros a (k' & (n & -> & Hn)%list_elem_of_fmap & Ha)%list_elem_of_omap.
      destruct (Hmem n Hn) as [_ HR]. congruence.
Qed.

Lemma placeGroups_inv l g ks st :
  groupInv p l g → l ⊆ all → (∀ k, k ∈ ks → is_Some (g_groups g !! k)) → placingInv st →
  placingInv (foldl (placeGroup p g) st ks).
Proof.
  intros Hg Hl. revert st. induction ks as [|k ks IH]; intros st Hks Hst; simpl; [done|].
  apply IH; [set_solver|]. eapply placeGroup_inv; eauto. set_solver.
Qed.

Lemma placeByTemplate_sorted `{!MapRange string (list SubscriptionNode)} existing added :
  existing ⊆ all → added ⊆ all → inTemplateOrder M p (Key <$> existing) →
  inTemplateOrder M p (OrderedNodeKeys (placeByTemplate existing added p)).
Proof.
  intros He Ha Hs. unfold placeByTemplate. set (g := foldl (groupStep p) _ added).
  pose proof (group_inv p added) as Hinv. fold g in Hinv. fold (groupKeysOf g).
  set (st := foldl (placeGroup p g) _ _).
  assert (inTemplateOrder M p (pl_order st)) as Hst.
  { apply (pi_sorted st). eapply placeGroups_inv; [done|done|intros k; apply elem_of_groupKeys|].
    split; simpl; [| |done].
    - intros k n [Hn <-]%indexBy_Some. split; [by apply He|done].
    - intros k (n & -> & Hn)%list_elem_of_fmap. apply indexBy_is_Some. eauto. }
  destruct (g_unmatched g) as [|u un] eqn:Hun; [done|]. cbn [OrderedNodeKeys].
  case_match; [by rewrite app_nil_r|]. unfold inTemplateOrder. rewrite omap_app.
  assert (omap (rankOfKey M p) (Key <$> u :: un) = []) as ->; [|by rewrite app_nil_r].
  apply elem_of_nil_inv. intros a (k & (n & -> & Hn)%list_elem_of_fmap & HR)%list_elem_of_omap.
  rewrite <-Hun, (gi_unmatched _ _ _ Hinv) in Hn. apply list_elem_of_filter in Hn as [Hm Hn].
  unfold rankOfKey in HR. rewrite (indexBy_NoDup Key all n distinct) in HR by (by apply Ha). simpl in HR.
  unfold matched in Hm. by destruct (bucket_matched _).
Qed.
End template_order.

(** Placement by template keeps the template order: when the existing matched nodes
    follow the ranks of the template, so do all matched nodes of the result.  Keys are
    distinct and the policy's lists short enough for ranks not to overflow. *)
Theorem AutoPlaceNewManualNodes_sorted `{!MapRange string (list SubscriptionNode)} existing added policy p :
  ValidateSubscriptionNodeOrderPolicy policy = Ok p → NewNodePlacement p = PlacementByTemplate → fitsInt p →
  NoDup (Key <$> existing ++ added) →
  let nodes := indexBy Key (existing ++ added) in
  inTemplateOrder nodes p (Key <$> existing) →
  inTemplateOrder nodes p (OrderedNodeKeys (AutoPlaceNewManualNodes existing added policy)).
Proof.
  intros Hv Hn Hf Hnd nodes Hs. unfold AutoPlaceNewManualNodes, normalizedPolicy. rewrite Hv, Hn.
  destruct added as [|a added]; [done|]. simpl String.eqb. cbn iota.
  apply placeByTemplate_sorted; [done|done|set_solver| |done].
  intros n. rewrite OrderSubscriptionNodes_perm. set_solver.
Qed.

(** ** Runs of the model *)

Definition sampleNode (key name region : string) (server : Z) (pos : option Z) : SubscriptionNode :=
  {| Key := key; NodeType := "proxy_path"; NodeID := 1; Name := name; Group := "default"; SourceName := name;
     GlobalName := name; PlanNameOverride := None; HasPlanNameOverride := false; EntryKey := "inbound:1";
     EntryInboundID := 1; EntryServerID := 1; EntryRegion := "CN"; ExitServerID := server;
     ExitExternalOutboundID := 0; ExitRegion := region; ManualPosition := pos; NodeServerID := 1 |}.

Definition sampleNodes : list SubscriptionNode :=
  [sampleNode "proxy_path:1" "a" "us" 7 (Some 2); sampleNode "proxy_path:2" "b" "HK" 8 None;
   sampleNode "proxy_path:3" "c" "us" 9 (Some 1); sampleNode "proxy_path:4" "d" "US" 7 None].

Definition samplePolicy (mode : string) : OrderPolicy :=
  {| Version := 2; Mode := mode; ManualSeed := ""; ExitRegionOrder := ["hk"; " us "];
     EntryRegionOrderMode := ""; EntryRegionOrder := []; EntryOrder := ["inbound:1"; " "];
     NewNodePlacement := ""; UnmatchedPlacement := ""; GroupByLanding := true |}.

Definition sampleCanonical (mode : string) : OrderPolicy :=
  {| Version := 2; Mode := mode; ManualSeed := OrderExitRegion; ExitRegionOrder := ["HK"; "US"];
     EntryRegionOrderMode := EntryRegionInheritExit; EntryRegionOrder := []; EntryOrder := ["inbound:1"];
     NewNodePlacement := PlacementByTemplate; UnmatchedPlacement := PlacementAppend; GroupByLanding := true |}.

Example exit_order_ex :
  Key <$> OrderSubscriptionNodes sampleNodes (samplePolicy OrderExitRegion) =
    ["proxy_path:2"; "proxy_path:1"; "proxy_path:4"; "proxy_path:3"] ∧
  Key <$> OrderSubscriptionNodes sampleNodes (samplePolicy OrderManual) =
    ["proxy_path:3"; "proxy_path:1"; "proxy_path:2"; "proxy_path:4"].
Proof. vm_compute. done. Qed.

Lemma order_input_independent_witness :
  OrderSubscriptionNodes (reverse sampleNodes) (samplePolicy OrderExitRegion) =
  OrderSubscriptionNodes sampleNodes (samplePolicy OrderExitRegion).
Proof.
  refine (order_input_independent sampleNodes (reverse sampleNodes) (samplePolicy OrderExitRegion) _ _ _).
  - apply reverse_Permutation.
  - apply (bool_decide_unpack _). vm_compute. exact I.
  - left. reflexivity.
Defined.

Lemma exit_region_order_witness :
  OrderSubscriptionNodes sampleNodes (samplePolicy OrderExitRegion) ≡ₚ sampleNodes.
Proof.
  refine (proj1 (exit_region_order sampleNodes (samplePolicy OrderExitRegion) (sampleCanonical OrderExitRegion) _ _)).
  - vm_compute. reflexivity.
  - reflexivity.
Defined.

Lemma manual_order_witness :
  ∃ placed unplaced, OrderSubscriptionNodes sampleNodes (samplePolicy OrderManual) = placed ++ unplaced.
Proof.
  destruct (manual_order sampleNodes (samplePolicy OrderManual)) as (placed & unplaced & H & _).
  - reflexivity.
  - simpl. lia.
  - exists placed, unplaced. exact H.
Defined.

Lemma ValidateSubscriptionNodeOrderPolicy_idempotent_witness :
  ValidateSubscriptionNodeOrderPolicy (sampleCanonical OrderManual) = Ok (sampleCanonical OrderManual).
Proof.
  refine (proj1 (ValidateSubscriptionNodeOrderPolicy_idempotent (samplePolicy OrderManual) _ _)).
  vm_compute. reflexivity.
Defined.

Lemma AutoPlaceNewManualNodes_sorted_witness :
  inTemplateOrder (indexBy Key sampleNodes) (sampleCanonical OrderManual)
    (OrderedNodeKeys (AutoPlaceNewManualNodes (MapRange0 := map_range_default _ _)
      (drop 1 sampleNodes) (take 1 sampleNodes) (samplePolicy OrderManual))).
Proof.
  refine (AutoPlaceNewManualNodes_sorted (MapRange0 := map_range_default _ _) (drop 1 sampleNodes)
    (take 1 sampleNodes) (samplePolicy OrderManual) (sampleCanonical OrderManual) _ _ _ _ _).
  - vm_compute. reflexivity.
  - reflexivity.
  - vm_compute. repeat split.
  - apply (bool_decide_unpack _). vm_compute. exact I.
  - vm_compute. repeat constructor; discriminate.
Defined.
