(* ===== verification/PlanMembership.v ===== *)
(** * Plan membership rules ([internal/core/plan_membership_rules.go])

    A plan revision holds explicit nodes, rules that select nodes of the catalog and
    exclusions.  [ResolvePlanMembershipRules] computes the node set of the revision.
    The digest of the resolution (SHA-256 of its JSON encoding) is a parameter. *)

From S2P Require Import Prelude Model NodeKeys.

Local Open Scope Z_scope.
Local Open Scope go_scope.

Definition PlanRuleEntryInbound : string := "entry_inbound".
Definition PlanRuleEntryServer : string := "entry_server".
Definition PlanRulePathServer : string := "path_server".
Definition PlanRuleExitServer : string := "exit_server".
Definition PlanRuleExitRegion : string := "exit_region".
Definition PlanRuleExternalOutbound : string := "external_outbound".

(** The fields of the catalog entry that rules read. *)
Record AssignableNode := {
  AN_Type : string;
  AN_ID : Z;
  AN_Key : string;
  AN_EntryKey : string;
  AN_EntryServerID : Z;
  AN_ExitServerID : Z;
  AN_ExitExternalOutboundID : Z;
  AN_PathServers : list Z;
  AN_ExitRegion : string;
  AN_Enabled : bool }.

Inductive ruleError :=
| RuleIDNotPositiveUnique
| InvalidEntryScope (scope : string)
| InvalidIDScope (kind scope : string)
| InvalidExitRegionScope
| InvalidRuleKind (kind : string).

Definition isIDKind (k : string) : bool :=
  (k =? PlanRuleEntryServer)%string || (k =? PlanRulePathServer)%string || (k =? PlanRuleExitServer)%string ||
  (k =? PlanRuleExternalOutbound)%string.

(** The [switch] on the kind: the scope key as it is stored. *)
Definition normalizeScope (kind scope : string) : result ruleError string :=
  if (kind =? PlanRuleEntryInbound)%string then
    match ParseNodeKey scope with
    | Some (t, id) => if negb (t =? AssignableNodeInbound)%string || (id <=? 0)
                      then Err (InvalidEntryScope scope) else Ok scope
    | None => Err (InvalidEntryScope scope)
    end
  else if isIDKind kind then
    match ParseInt scope with
    | Some id => if id <=? 0 then Err (InvalidIDScope kind scope) else Ok scope
    | None => Err (InvalidIDScope kind scope)
    end
  else if (kind =? PlanRuleExitRegion)%string then
    let code := NormalizeRegionCode scope in
    if (code =? "")%string then Err InvalidExitRegionScope else Ok code
  else Err (InvalidRuleKind kind).

Definition normalizeRule (rule : PlanMembershipRule) (st : list PlanMembershipRule * gset Z) :
    result ruleError (list PlanMembershipRule * gset Z) :=
  let '(out, seen) := st in
  let kind := TrimSpace (PlanMembershipRule_Kind rule) in
  let scope := TrimSpace (PlanMembershipRule_ScopeKey rule) in
  let id := PlanMembershipRule_RuleID rule in
  if (id <=? 0) || bool_decide (id ∈ seen) then Err RuleIDNotPositiveUnique
  else
    let* scope := normalizeScope kind scope in
    Ok (out ++ [{| PlanMembershipRule_RuleID := id; PlanMembershipRule_Kind := kind;
                   PlanMembershipRule_ScopeKey := scope |}], {[id]} ∪ seen).

Definition ruleLess (a b : PlanMembershipRule) : bool :=
  PlanMembershipRule_RuleID a <? PlanMembershipRule_RuleID b.

Definition NormalizePlanMembershipRules (rules : list PlanMembershipRule) :
    result ruleError (list PlanMembershipRule) :=
  let* st := foldM normalizeRule rules ([], ∅) in
  Ok (sort_slice ruleLess st.1).

Definition planMembershipRuleMatches (rule : PlanMembershipRule) (n : AssignableNode) : bool :=
  let kind := PlanMembershipRule_Kind rule in
  let scope := PlanMembershipRule_ScopeKey rule in
  if (kind =? PlanRuleEntryInbound)%string then (AN_EntryKey n =? scope)%string
  else if (kind =? PlanRuleEntryServer)%string then
    (FormatInt (AN_EntryServerID n) =? scope)%string && (0 <? AN_EntryServerID n)
  else if (kind =? PlanRulePathServer)%string then
    existsb (λ id, (FormatInt id =? scope)%string) (AN_PathServers n)
  else if (kind =? PlanRuleExitServer)%string then
    (FormatInt (AN_ExitServerID n) =? scope)%string && (0 <? AN_ExitServerID n)
  else if (kind =? PlanRuleExitRegion)%string then
    (NormalizeRegionCode (AN_ExitRegion n) =? scope)%string && negb (scope =? "")%string
  else if (kind =? PlanRuleExternalOutbound)%string then
    (FormatInt (AN_ExitExternalOutboundID n) =? scope)%string && (0 <? AN_ExitExternalOutboundID n)
  else false.

Record PlanMembershipResolution := {
  R_Nodes : list SubscriptionPlanNode;
  R_MatchedBy : gmap string (list Z);
  R_Warnings : list string;
  R_AddedKeys : list string;
  R_RemovedKeys : list string;
  R_Digest : string }.

Definition planNodeKey (n : SubscriptionPlanNode) : string :=
  NodeKeyOf (SubscriptionPlanNode_NodeType n) (SubscriptionPlanNode_NodeID n).

Definition setSource (n : SubscriptionPlanNode) (source : string) (ruleID : Z) : SubscriptionPlanNode :=
  {| SubscriptionPlanNode_PlanID := SubscriptionPlanNode_PlanID n;
     SubscriptionPlanNode_NodeType := SubscriptionPlanNode_NodeType n;
     SubscriptionPlanNode_NodeID := SubscriptionPlanNode_NodeID n;
     SubscriptionPlanNode_DisplayGroup := SubscriptionPlanNode_DisplayGroup n;
     SubscriptionPlanNode_SourceType := source;
     SubscriptionPlanNode_SourceRuleID := ruleID;
     SubscriptionPlanNode_SortPosition := SubscriptionPlanNode_SortPosition n;
     SubscriptionPlanNode_Enabled := SubscriptionPlanNode_Enabled n |}.

Definition isExplicit (n : SubscriptionPlanNode) : bool :=
  negb (SubscriptionPlanNode_SourceType n =? PlanNodeSourceRule)%string.

(** The loop over the base nodes builds both maps. *)
Definition explicitNodes (base : list SubscriptionPlanNode) : gmap string SubscriptionPlanNode :=
  foldl (λ m n, if isExplicit n then <[planNodeKey n := setSource n PlanNodeSourceExplicit 0]> m else m) ∅ base.

Definition excludedKeys (exclusions : list PlanNodeExclusion) : gmap string bool :=
  foldl (λ m x, <[NodeKeyOf (PlanNodeExclusion_NodeType x) (PlanNodeExclusion_NodeID x) := true]> m) ∅ exclusions.

Definition selects (rule : PlanMembershipRule) (n : AssignableNode) : bool :=
  AN_Enabled n && planMembershipRuleMatches rule n.

Record matchState := { matchedBy : gmap string (list Z); matchedRule : gmap Z Z }.

Definition matchNode (rule : PlanMembershipRule) (st : matchState) (n : AssignableNode) : matchState :=
  if selects rule n then
    let id := PlanMembershipRule_RuleID rule in
    {| matchedBy := mappend (AN_Key n) id (matchedBy st);
       matchedRule := <[id := default 0 (matchedRule st !! id) + 1]> (matchedRule st) |}
  else st.

Definition matchRules (rules : list PlanMembershipRule) (catalog : list AssignableNode) : matchState :=
  foldl (λ st rule, foldl (matchNode rule) st catalog) {| matchedBy := ∅; matchedRule := ∅ |} rules.

(** One catalog node of the loop that adds the nodes rules select. *)
Definition addSelected (baseByKey : gmap string SubscriptionPlanNode) (excluded : gmap string bool)
    (matched : gmap string (list Z)) (result : gmap string SubscriptionPlanNode) (n : AssignableNode) :
    gmap string SubscriptionPlanNode :=
  match mlist matched (AN_Key n) with
  | [] => result
  | id :: _ =>
      if mget excluded (AN_Key n) then result
      else match result !! AN_Key n with
      | Some _ => result
      | None =>
          let fresh := {| SubscriptionPlanNode_PlanID := 0; SubscriptionPlanNode_NodeType := AN_Type n;
                          SubscriptionPlanNode_NodeID := AN_ID n; SubscriptionPlanNode_DisplayGroup := "";
                          SubscriptionPlanNode_SourceType := ""; SubscriptionPlanNode_SourceRuleID := 0;
                          SubscriptionPlanNode_SortPosition := None; SubscriptionPlanNode_Enabled := true |} in
          let pn := default fresh (baseByKey !! AN_Key n) in
          <[AN_Key n := setSource pn PlanNodeSourceRule id]> result
      end
  end.

Definition planNodeLess (a b : SubscriptionPlanNode) : bool := str_lt (planNodeKey a) (planNodeKey b).

Definition sortedNodeKeys (nodes : list SubscriptionPlanNode) : list string := sort_strings (planNodeKey <$> nodes).

Definition noMatchWarning (rule : PlanMembershipRule) : string :=
  ("规则 " +:+ FormatInt (PlanMembershipRule_RuleID rule) +:+ " 当前没有匹配节点")%string.

Section resolve.
Context `{!MapRange string SubscriptionPlanNode, !MapRange string bool}.
Context (digest : list PlanMembershipRule → list PlanNodeExclusion → list string → string).

(** [for key, node := range explicit]: the explicit nodes that are not excluded. *)
Definition keepExplicit (excluded : gmap string bool) (explicit : gmap string SubscriptionPlanNode) :
    gmap string SubscriptionPlanNode :=
  foldl (λ m '(key, n), if mget excluded key then m else <[key := n]> m) ∅ (map_range explicit).

Definition keySet (m : gmap string SubscriptionPlanNode) : gmap string bool :=
  foldl (λ s '(key, _), <[key := true]> s) ∅ (map_range m).

(** The keys of [a] that are not in [b], sorted. *)
Definition keyDiff (a b : gmap string bool) : list string :=
  sort_strings (foldl (λ out '(key, _), if mget b key then out else out ++ [key]) [] (map_range a)).

Definition resolvedNodes (base : list SubscriptionPlanNode) (rules : list PlanMembershipRule)
    (exclusions : list PlanNodeExclusion) (catalog : list AssignableNode) : gmap string SubscriptionPlanNode :=
  let excluded := excludedKeys exclusions in
  foldl (addSelected (indexBy planNodeKey base) excluded (matchedBy (matchRules rules catalog)))
    (keepExplicit excluded (explicitNodes base)) catalog.

Definition ResolvePlanMembershipRules (base : list SubscriptionPlanNode) (rules : list PlanMembershipRule)
    (exclusions : list PlanNodeExclusion) (catalog : list AssignableNode) :
    result ruleError PlanMembershipResolution :=
  let* rules := NormalizePlanMembershipRules rules in
  let st := matchRules rules catalog in
  let resultByKey := resolvedNodes base rules exclusions catalog in
  let out := sort_slice planNodeLess (snd <$> map_range resultByKey) in
  let baseKeys := keySet (indexBy planNodeKey base) in
  let resultKeys := keySet resultByKey in
  Ok {| R_Nodes := out;
        R_MatchedBy := matchedBy st;
        R_Warnings := noMatchWarning <$>
          List.filter (λ r, default 0 (matchedRule st !! PlanMembershipRule_RuleID r) =? 0) rules;
        R_AddedKeys := keyDiff resultKeys baseKeys;
        R_RemovedKeys := keyDiff baseKeys resultKeys;
        R_Digest := digest rules exclusions (sortedNodeKeys out) |}.
End resolve.

(** ** Normalised rules *)

#[export] Instance ruleLess_sw : StrictWeak ruleLess.
Proof. unfold ruleLess. split; intros; bprop; rewrite ?Z.ltb_irrefl, ?Z.ltb_lt, ?Z.ltb_ge in *; lia. Qed.

Lemma normalizeRule_ok rule out seen st :
  normalizeRule rule (out, seen) = Ok st →
  ∃ r, st = (out ++ [r], {[PlanMembershipRule_RuleID r]} ∪ seen) ∧
    PlanMembershipRule_RuleID r = PlanMembershipRule_RuleID rule ∧
    0 < PlanMembershipRule_RuleID r ∧ PlanMembershipRule_RuleID r ∉ seen ∧
    PlanMembershipRule_Kind r = TrimSpace (PlanMembershipRule_Kind rule).
Proof.
  unfold normalizeRule. case_match eqn:Hc; [done|]. intros (scope & _ & [= <-])%rbind_ok. bprop.
  exists {| PlanMembershipRule_RuleID := PlanMembershipRule_RuleID rule;
            PlanMembershipRule_Kind := TrimSpace (PlanMembershipRule_Kind rule);
            PlanMembershipRule_ScopeKey := scope |}. done.
Qed.

(** Normalised rules have distinct positive identifiers in increasing order. *)
Lemma NormalizePlanMembershipRules_ok rules rules' :
  NormalizePlanMembershipRules rules = Ok rules' →
  StronglySorted (λ a b, PlanMembershipRule_RuleID a < PlanMembershipRule_RuleID b) rules' ∧
  Forall (λ r, 0 < PlanMembershipRule_RuleID r) rules' ∧
  (PlanMembershipRule_RuleID <$> rules') ≡ₚ (PlanMembershipRule_RuleID <$> rules).
Proof.
  unfold NormalizePlanMembershipRules. intros ([out seen] & Hf & [= <-])%rbind_ok. simpl.
  assert (∀ l st st', foldM normalizeRule l st = Ok st' →
    (∀ x, x ∈ st.2 ↔ x ∈ PlanMembershipRule_RuleID <$> st.1) → NoDup (PlanMembershipRule_RuleID <$> st.1) →
    Forall (λ r, 0 < PlanMembershipRule_RuleID r) st.1 →
    NoDup (PlanMembershipRule_RuleID <$> st'.1) ∧ Forall (λ r, 0 < PlanMembershipRule_RuleID r) st'.1 ∧
    PlanMembershipRule_RuleID <$> st'.1 = (PlanMembershipRule_RuleID <$> st.1) ++ (PlanMembershipRule_RuleID <$> l)) as Hloop.
  { induction l as [|rule l IH]; intros [o s] st'; simpl.
    - intros [= <-]. rewrite app_nil_r. done.
    - case_match eqn:Hr; [|done]. apply normalizeRule_ok in Hr as (r & -> & Hid & Hpos & Hnew & _).
      intros Hl Hs Hnd Hp. apply IH in Hl as (H1 & H2 & H3); simpl.
      + split; [done|]. split; [done|]. rewrite H3. simpl. rewrite fmap_app, <-app_assoc. simpl. by rewrite Hid.
      + intros x. rewrite elem_of_union, fmap_app, elem_of_app, Hs. set_solver.
      + rewrite fmap_app. apply NoDup_app. split; [done|]. split; [|apply NoDup_singleton].
        intros x Hx Hx'. simpl in Hx'. apply list_elem_of_singleton in Hx' as ->. by apply Hnew, Hs.
      + apply Forall_app. by repeat constructor. }
  destruct (Hloop _ _ _ Hf) as (H1 & H2 & H3); [set_solver|by constructor|by constructor|]. simpl in *.
  split; [|split; [by rewrite sort_slice_perm|by rewrite sort_slice_perm, H3]].
  assert (NoDup (PlanMembershipRule_RuleID <$> sort_slice ruleLess out)) as Hnd by by rewrite sort_slice_perm.
  pose proof (sort_slice_sorted ruleLess out) as Hs. induction Hs as [|a l Hs IH Ha]; [constructor|].
  apply NoDup_cons in Hnd as [Hn Hnd]. constructor; [by apply IH|].
  apply Forall_forall. intros b Hb. rewrite Forall_forall in Ha. specialize (Ha b Hb).
  unfold le_of, ruleLess in Ha. bprop.
  assert (PlanMembershipRule_RuleID a ≠ PlanMembershipRule_RuleID b); [|lia].
  intros He. apply Hn. rewrite He. by apply list_elem_of_fmap_2.
Qed.

(** ** Which rules match a key *)

Definition matchesKey (rule : PlanMembershipRule) (key : string) (n : AssignableNode) : Prop :=
  selects rule n = true ∧ AN_Key n = key.
#[export] Instance matchesKey_dec r k n : Decision (matchesKey r k n).
Proof. unfold matchesKey. apply _. Defined.

Definition selectsKey (catalog : list AssignableNode) (key : string) (rule : PlanMembershipRule) : Prop :=
  ∃ n, n ∈ catalog ∧ matchesKey rule key n.

Lemma matchNode_fold rule catalog st key :
  mlist (matchedBy (foldl (matchNode rule) st catalog)) key =
  mlist (matchedBy st) key ++ ((λ _, PlanMembershipRule_RuleID rule) <$> filter (matchesKey rule key) catalog).
Proof.
  revert st. induction catalog as [|n catalog IH]; intros st; simpl; [by rewrite app_nil_r|].
  rewrite IH, filter_cons. unfold matchNode. destruct (selects rule n) eqn:Hs.
  - simpl. rewrite mlist_mappend. destruct (decide (AN_Key n = key)) as [<-|Hne].
    + by rewrite decide_True, <-app_assoc by done.
    + rewrite decide_False; [done|]. by intros [_ ?].
  - rewrite decide_False; [done|]. intros [? _]. congruence.
Qed.

Lemma matchRules_by rules catalog key :
  mlist (matchedBy (matchRules rules catalog)) key =
  concat ((λ r, (λ _, PlanMembershipRule_RuleID r) <$> filter (matchesKey r key) catalog) <$> rules).
Proof.
  unfold matchRules.
  assert (∀ st, mlist (matchedBy (foldl (λ st rule, foldl (matchNode rule) st catalog) st rules)) key =
    mlist (matchedBy st) key ++
    concat ((λ r, (λ _, PlanMembershipRule_RuleID r) <$> filter (matchesKey r key) catalog) <$> rules)) as H.
  { induction rules as [|r rules IH]; intros st; simpl; [by rewrite app_nil_r|].
    rewrite IH, matchNode_fold. by rewrite <-app_assoc. }
  rewrite H. done.
Qed.

(** The first identifier recorded for a key is the smallest rule that selects it. *)
Lemma matchRules_head rules catalog key :
  StronglySorted (λ a b, PlanMembershipRule_RuleID a < PlanMembershipRule_RuleID b) rules →
  match mlist (matchedBy (matchRules rules catalog)) key with
  | [] => ∀ r, r ∈ rules → ¬ selectsKey catalog key r
  | id :: _ => ∃ r, r ∈ rules ∧ PlanMembershipRule_RuleID r = id ∧ selectsKey catalog key r ∧
      ∀ r', r' ∈ rules → selectsKey catalog key r' → id ≤ PlanMembershipRule_RuleID r'
  end.
Proof.
  rewrite matchRules_by. induction 1 as [|r rules _ IH Hr]; simpl; [set_solver|].
  destruct (filter (matchesKey r key) catalog) as [|n l] eqn:Hf; simpl.
  - assert (¬ selectsKey catalog key r) as Hno.
    { intros (n & Hn & Hm). assert (n ∈ filter (matchesKey r key) catalog) by by apply list_elem_of_filter.
      rewrite Hf in *. set_solver. }
    destruct (concat _) as [|id ids].
    + intros r' [->|Hr']%elem_of_cons; [done|by apply IH].
    + destruct IH as (r' & H1 & H2 & H3 & H4). exists r'. split; [set_solver|]. split; [done|]. split; [done|].
      intros r'' [->|Hr'']%elem_of_cons Hs; [done|by apply H4].
  - assert (n ∈ filter (matchesKey r key) catalog) as [Hm Hn]%list_elem_of_filter by (rewrite Hf; by left).
    exists r. split; [by left|]. split; [done|]. split; [by exists n|].
    intros r' [->|Hr']%elem_of_cons _; [lia|]. rewrite Forall_forall in Hr. specialize (Hr r' Hr'). simpl in Hr. lia.
Qed.

(** ** Maps *)

Lemma explicitNodes_lookup base key :
  is_Some (explicitNodes base !! key) ↔ ∃ b, b ∈ base ∧ isExplicit b = true ∧ planNodeKey b = key.
Proof.
  unfold explicitNodes. rewrite (foldl_iff (λ m, is_Some (m !! key))
    (λ b, isExplicit b = true ∧ planNodeKey b = key)).
  - rewrite lookup_empty. split; [intros [[? ?]|?]; [done|done]|by right].
  - intros m b _. case_match eqn:He; [|naive_solver]. rewrite lookup_insert. case_decide; naive_solver.
Qed.

Lemma explicitNodes_source base key n :
  explicitNodes base !! key = Some n →
  planNodeKey n = key ∧ SubscriptionPlanNode_SourceType n = PlanNodeSourceExplicit ∧ SubscriptionPlanNode_SourceRuleID n = 0.
Proof.
  unfold explicitNodes. induction base as [|b base IH] using rev_ind; [done|].
  rewrite foldl_app. simpl. case_match; [|done]. rewrite lookup_insert. case_decide as Hk; [|done].
  intros [= <-]. done.
Qed.

Lemma mget_excluded exclusions key :
  mget (excludedKeys exclusions) key = true ↔
  ∃ x, x ∈ exclusions ∧ NodeKeyOf (PlanNodeExclusion_NodeType x) (PlanNodeExclusion_NodeID x) = key.
Proof.
  unfold excludedKeys. rewrite (foldl_iff (λ m, mget m key = true)
    (λ x, NodeKeyOf (PlanNodeExclusion_NodeType x) (PlanNodeExclusion_NodeID x) = key)).
  - unfold mget at 1. rewrite lookup_empty. simpl. split; [intros [?|?]; done|by right].
  - intros m x _. rewrite mget_insert. case_decide; naive_solver.
Qed.

Lemma sorted_keys_strict l :
  NoDup (planNodeKey <$> l) →
  StronglySorted (λ a b, str_lt a b = true) (planNodeKey <$> sort_slice planNodeLess l).
Proof.
  intros Hnd. assert (StrictWeak planNodeLess).
  { destruct str_lt_sw as [H1 H2 H3]. unfold planNodeLess. split; intros; [apply H1|by eapply H2|by eapply H3]. }
  rewrite <-(sort_slice_perm planNodeLess) in Hnd.
  pose proof (sort_slice_sorted planNodeLess l) as Hs. induction Hs as [|a l' Hs IH Ha]; [constructor|].
  apply NoDup_cons in Hnd as [Hn Hnd]. simpl. constructor; [by apply IH|].
  apply Forall_fmap, Forall_forall. intros b Hb. rewrite Forall_forall in Ha. specialize (Ha b Hb).
  unfold le_of, planNodeLess in Ha. simpl. destruct (str_lt (planNodeKey a) (planNodeKey b)) eqn:Hlt; [done|].
  destruct Hn. rewrite (str_lt_sep _ _ Hlt Ha). by apply list_elem_of_fmap_2.
Qed.

Section resolve_facts.
Context `{!MapRange string SubscriptionPlanNode, !MapRange string bool}.

Lemma keepExplicit_lookup excluded explicit key :
  keepExplicit excluded explicit !! key = if mget excluded key then None else explicit !! key.
Proof.
  unfold keepExplicit. pose proof (NoDup_map_range explicit) as Hnd.
  assert (∀ l : list (string * SubscriptionPlanNode), NoDup l.*1 → ∀ m : gmap string SubscriptionPlanNode,
    foldl (λ m '(key, n), if mget excluded key then m else <[key := n]> m) m l !! key =
    match list_to_map (M:=gmap string SubscriptionPlanNode) l !! key with
    | Some n => if mget excluded key then m !! key else Some n
    | None => m !! key
    end) as H.
  { induction l as [|[k n] l IH]; intros Hl m; simpl; [done|].
    apply NoDup_cons in Hl as [Hk Hl]. rewrite IH, lookup_insert by done.
    destruct (decide (k = key)) as [->|Hne].
    - rewrite not_elem_of_list_to_map_1 by done. destruct (mget excluded key); [done|].
      by rewrite lookup_insert, decide_True.
    - destruct (mget excluded k); [done|]. by rewrite lookup_insert, decide_False. }
  rewrite H by done. rewrite (list_to_map_proper (M:=gmap string) _ _ Hnd (map_range_perm explicit)).
  rewrite list_to_map_to_list, lookup_empty. by destruct (explicit !! key), (mget excluded key).
Qed.

Lemma mget_keySet m key : mget (keySet m) key = true ↔ is_Some (m !! key).
Proof.
  unfold keySet. rewrite (foldl_iff (λ s, mget s key = true) (λ kv, kv.1 = key)).
  - unfold mget at 1. rewrite lookup_empty. simpl. split.
    + intros [?|([k n] & Hin%elem_of_map_range & <-)]; [done|by exists n].
    + intros [n Hn]. right. exists (key, n). by rewrite elem_of_map_range.
  - intros s [k n] _. rewrite mget_insert. simpl. case_decide; naive_solver.
Qed.

Lemma keySet_true m key b : keySet m !! key = Some b → b = true.
Proof.
  unfold keySet. generalize (map_range m). intros l.
  assert (∀ s : gmap string bool, (∀ k b, s !! k = Some b → b = true) →
    ∀ k b, foldl (λ s '(key, _), <[key := true]> s) s l !! k = Some b → b = true) as H.
  { induction l as [|[k n] l IH]; intros s Hs; simpl; [done|]. apply IH. intros k' b'.
    rewrite lookup_insert. case_decide; [congruence|apply Hs]. }
  apply H. intros k b'. by rewrite lookup_empty.
Qed.

Lemma keyDiff_perm a b : keyDiff a b ≡ₚ filter (λ k, mget b k = false) (fst <$> map_range a).
Proof.
  unfold keyDiff, sort_strings. rewrite sort_slice_perm. generalize (map_range a). intros l.
  assert (∀ out : list string, foldl (λ out '(key, _), if mget b key then out else out ++ [key]) out l =
    out ++ filter (λ k, mget b k = false) l.*1) as H; [|by rewrite H].
  induction l as [|[k v] l IH]; intros out; simpl; [by rewrite app_nil_r|].
  rewrite IH, filter_cons. destruct (mget b k); simpl; [done|]. by rewrite <-app_assoc.
Qed.

Lemma elem_of_keyDiff m b key :
  key ∈ keyDiff (keySet m) b ↔ is_Some (m !! key) ∧ mget b key = false.
Proof.
  rewrite keyDiff_perm, list_elem_of_filter, list_elem_of_fmap, <-mget_keySet. split.
  - intros [Hb ([k v] & -> & Hin%elem_of_map_range)]. split; [|done].
    unfold mget. simpl. rewrite Hin. by eapply keySet_true.
  - intros [Hk Hb]. split; [done|]. unfold mget in Hk.
    destruct (keySet m !! key) as [v|] eqn:Hv; [|done].
    exists (key, v). by rewrite elem_of_map_range.
Qed.

Lemma NoDup_keyDiff a b : NoDup (keyDiff a b).
Proof. rewrite keyDiff_perm. apply NoDup_filter, NoDup_map_range. Qed.

(** The loop over the catalog: what is there stays, and a selected key that is not
    excluded is added with the first recorded rule. *)
Lemma addSelected_lookup baseByKey excluded m catalog start key :
  foldl (addSelected baseByKey excluded m) start catalog !! key =
  match start !! key with
  | Some v => Some v
  | None =>
      match mlist m key with
      | [] => None
      | id :: _ =>
          if mget excluded key then None
          else match filter (λ n, AN_Key n = key) catalog with
          | [] => None
          | n :: _ => foldl (addSelected baseByKey excluded m) ∅ [n] !! key
          end
      end
  end.
Proof.
  revert start. induction catalog as [|n catalog IH]; intros start; simpl.
  { by destruct (start !! key), (mlist m key), (mget excluded key). }
  rewrite IH, filter_cons. destruct (decide (AN_Key n = key)) as [<-|Hne].
  - unfold addSelected at 1 3. destruct (start !! AN_Key n) as [v|] eqn:Hs; simpl.
    + repeat case_match; simplify_eq; try done; rewrite ?Hs; done.
    + destruct (mlist m (AN_Key n)) as [|id ids] eqn:Hm; [by rewrite ?Hs|].
      destruct (mget excluded (AN_Key n)) eqn:Hx; [by rewrite ?Hs|].
      rewrite ?Hs, ?lookup_empty, !lookup_insert. by rewrite !decide_True.
  - assert (addSelected baseByKey excluded m start n !! key = start !! key) as ->; [|done].
    unfold addSelected. repeat case_match; try done; by rewrite lookup_insert, decide_False.
Qed.

(** *** The resolved set *)

Definition excludedKey (exclusions : list PlanNodeExclusion) (key : string) : Prop :=
  ∃ x, x ∈ exclusions ∧ NodeKeyOf (PlanNodeExclusion_NodeType x) (PlanNodeExclusion_NodeID x) = key.
Definition explicitKey (base : list SubscriptionPlanNode) (key : string) : Prop :=
  ∃ b, b ∈ base ∧ isExplicit b = true ∧ planNodeKey b = key.
Definition selectedKey (rules : list PlanMembershipRule) (catalog : list AssignableNode) (key : string) : Prop :=
  ∃ r, r ∈ rules ∧ selectsKey catalog key r.

(** What the plan promises: a key is a member iff it is not excluded and is explicit or
    selected by a rule. *)
Definition planMember (base : list SubscriptionPlanNode) (rules : list PlanMembershipRule)
    (exclusions : list PlanNodeExclusion) (catalog : list AssignableNode) (key : string) : Prop :=
  ¬ excludedKey exclusions key ∧ (explicitKey base key ∨ selectedKey rules catalog key).

(** Catalog entries carry the key of their type and identifier. *)
Definition wfCatalog (catalog : list AssignableNode) : Prop :=
  Forall (λ n, AN_Key n = NodeKeyOf (AN_Type n) (AN_ID n)) catalog.

(** Where a member comes from. *)
Definition provenance (base : list SubscriptionPlanNode) (rules : list PlanMembershipRule)
    (catalog : list AssignableNode) (n : SubscriptionPlanNode) : Prop :=
  (explicitKey base (planNodeKey n) ∧ SubscriptionPlanNode_SourceType n = PlanNodeSourceExplicit ∧
   SubscriptionPlanNode_SourceRuleID n = 0) ∨
  (¬ explicitKey base (planNodeKey n) ∧ SubscriptionPlanNode_SourceType n = PlanNodeSourceRule ∧
   ∃ r, r ∈ rules ∧ PlanMembershipRule_RuleID r = SubscriptionPlanNode_SourceRuleID n ∧
     selectsKey catalog (planNodeKey n) r ∧
     ∀ r', r' ∈ rules → selectsKey catalog (planNodeKey n) r' →
       SubscriptionPlanNode_SourceRuleID n ≤ PlanMembershipRule_RuleID r').

Lemma mget_excluded_false exclusions key :
  mget (excludedKeys exclusions) key = false ↔ ¬ excludedKey exclusions key.
Proof. unfold excludedKey. rewrite <-mget_excluded. by destruct (mget _ _). Qed.

Lemma resolvedNodes_lookup base rules exclusions catalog key :
  StronglySorted (λ a b, PlanMembershipRule_RuleID a < PlanMembershipRule_RuleID b) rules →
  wfCatalog catalog →
  match resolvedNodes base rules exclusions catalog !! key with
  | Some n => planMember base rules exclusions catalog key ∧ planNodeKey n = key ∧ provenance base rules catalog n
  | None => ¬ planMember base rules exclusions catalog key
  end.
Proof.
  intros Hs Hwf. unfold resolvedNodes. rewrite addSelected_lookup, keepExplicit_lookup.
  pose proof (mget_excluded exclusions key) as Hx. fold (excludedKey exclusions key) in Hx.
  pose proof (explicitNodes_lookup base key) as He. fold (explicitKey base key) in He.
  pose proof (matchRules_head rules catalog key Hs) as Hm.
  unfold planMember. destruct (mget (excludedKeys exclusions) key) eqn:Hget.
  { assert (excludedKey exclusions key) by tauto. repeat case_match; try done; tauto. }
  assert (¬ excludedKey exclusions key) as Hnx by (by apply mget_excluded_false).
  destruct (explicitNodes base !! key) as [n|] eqn:Hn.
  { assert (explicitKey base key) by (apply He; by eexists). apply explicitNodes_source in Hn as (<- & ? & ?).
    split; [tauto|]. split; [done|]. by left. }
  assert (¬ explicitKey base key) as Hne by (rewrite <-He; by intros [? ?]).
  destruct (mlist (matchedBy (matchRules rules catalog)) key) as [|id ids] eqn:Hl.
  { intros (_ & [?|(r & Hr & Hsel)]); [done|]. by apply (Hm r). }
  destruct Hm as (r & Hr & Hid & (n & Hnin & Hsel & Hkey) & Hmin).
  destruct (filter (λ n, AN_Key n = key) catalog) as [|n' l] eqn:Hf.
  { assert (n ∈ filter (λ n, AN_Key n = key) catalog) by (by apply list_elem_of_filter). rewrite Hf in *. set_solver. }
  assert (n' ∈ filter (λ n, AN_Key n = key) catalog) as [Hn' Hin']%list_elem_of_filter by (rewrite Hf; by left).
  simpl. unfold addSelected. rewrite Hn', Hl, Hget, lookup_empty, lookup_insert, decide_True by done.
  assert (planNodeKey (setSource (default {| SubscriptionPlanNode_PlanID := 0;
      SubscriptionPlanNode_NodeType := AN_Type n'; SubscriptionPlanNode_NodeID := AN_ID n';
      SubscriptionPlanNode_DisplayGroup := ""; SubscriptionPlanNode_SourceType := "";
      SubscriptionPlanNode_SourceRuleID := 0; SubscriptionPlanNode_SortPosition := None;
      SubscriptionPlanNode_Enabled := true |} (indexBy planNodeKey base !! key)) PlanNodeSourceRule id) = key) as Hpk.
  { destruct (indexBy planNodeKey base !! key) as [b|] eqn:Hb; simpl.
    - by apply indexBy_Some in Hb as [_ <-].
    - unfold wfCatalog in Hwf. rewrite Forall_forall in Hwf. rewrite <-Hn'. symmetry. apply (Hwf n' Hin'). }
  split; [split; [done|]; right; exists r; split; [done|]; by exists n|]. split; [done|].
  right. rewrite Hpk. split; [done|]. split; [done|]. exists r. simpl. split_and!; [done|done| |done]. by exists n.
Qed.

(** ** Properties *)

Context (digest : list PlanMembershipRule → list PlanNodeExclusion → list string → string).

(** C38. The resolution is the plan's specification: its nodes, sorted by key without
    repetition, are exactly the keys that are not excluded and are explicit or selected
    by a rule, each with its provenance (explicit first, otherwise the smallest rule
    that selects it); the added and removed keys are the differences with the base. *)
Theorem ResolvePlanMembershipRules_correct base rules exclusions catalog rules' :
  NormalizePlanMembershipRules rules = Ok rules' → wfCatalog catalog →
  ∃ res, ResolvePlanMembershipRules digest base rules exclusions catalog = Ok res ∧
    StronglySorted (λ a b, str_lt a b = true) (planNodeKey <$> R_Nodes res) ∧
    (∀ key, key ∈ planNodeKey <$> R_Nodes res ↔ planMember base rules' exclusions catalog key) ∧
    Forall (provenance base rules' catalog) (R_Nodes res) ∧
    (∀ key, key ∈ R_AddedKeys res ↔ planMember base rules' exclusions catalog key ∧ key ∉ planNodeKey <$> base) ∧
    (∀ key, key ∈ R_RemovedKeys res ↔ key ∈ planNodeKey <$> base ∧ ¬ planMember base rules' exclusions catalog key).
Proof.
  intros Hr Hwf. unfold ResolvePlanMembershipRules. rewrite Hr. cbn [rbind].
  destruct (NormalizePlanMembershipRules_ok _ _ Hr) as (Hs & _ & _).
  eexists. split; [reflexivity|]. cbn [R_Nodes R_AddedKeys R_RemovedKeys].
  set (m := resolvedNodes base rules' exclusions catalog).
  assert (∀ key, is_Some (m !! key) ↔ planMember base rules' exclusions catalog key) as Hm.
  { intros key. pose proof (resolvedNodes_lookup base rules' exclusions catalog key Hs Hwf) as H. fold m in H.
    destruct (m !! key); [|split; [by intros [? ?]|done]]. split; [tauto|by eexists]. }
  assert (∀ key n, m !! key = Some n → planNodeKey n = key ∧ provenance base rules' catalog n) as Hn.
  { intros key n Hk. pose proof (resolvedNodes_lookup base rules' exclusions catalog key Hs Hwf) as H.
    fold m in H. rewrite Hk in H. tauto. }
  assert (planNodeKey <$> (snd <$> map_range m) = fst <$> map_range m) as Hkeys.
  { rewrite <-list_fmap_compose. apply list_fmap_ext. intros i [k n] Hi. simpl.
    apply list_elem_of_lookup_2, elem_of_map_range in Hi. by apply Hn. }
  assert (∀ key, is_Some (indexBy planNodeKey base !! key) ↔ key ∈ planNodeKey <$> base) as Hb.
  { intros key. rewrite indexBy_is_Some, list_elem_of_fmap. naive_solver. }
  split; [|split; [|split; [|split]]].
  - apply sorted_keys_strict. by rewrite Hkeys; apply NoDup_map_range.
  - intros key. rewrite sort_slice_perm, Hkeys, <-Hm, list_elem_of_fmap. split.
    + intros ([k n] & -> & Hin%elem_of_map_range). by exists n.
    + intros [n Hk]. exists (key, n). by rewrite elem_of_map_range.
  - rewrite sort_slice_perm. apply Forall_forall.
    intros n ([k n'] & -> & Hin%elem_of_map_range)%list_elem_of_fmap. by apply (Hn k n').
  - intros key. rewrite elem_of_keyDiff, Hm, <-Hb, <-mget_keySet. destruct (mget _ _); intuition congruence.
  - intros key. rewrite elem_of_keyDiff, <-Hm, <-Hb, <-(mget_keySet m). destruct (mget _ _); intuition congruence.
Qed.
End resolve_facts.

(** *** Independence from map iteration order *)

Lemma keySet_lookup `{!MapRange string SubscriptionPlanNode} m key :
  keySet m !! key = if bool_decide (is_Some (m !! key)) then Some true else None.
Proof.
  pose proof (mget_keySet m key) as H. destruct (keySet m !! key) as [b|] eqn:Hk.
  - apply keySet_true in Hk as Hb. subst b. rewrite bool_decide_eq_true_2; [done|]. apply H.
    unfold mget. by rewrite Hk.
  - rewrite bool_decide_eq_false_2; [done|]. rewrite <-H. unfold mget. by rewrite Hk.
Qed.

Section two_orders.
Context (R1 R2 : MapRange string SubscriptionPlanNode) (B1 B2 : MapRange string bool).

Lemma resolvedNodes_order base rules exclusions catalog :
  resolvedNodes (MapRange0 := R1) base rules exclusions catalog =
  resolvedNodes (MapRange0 := R2) base rules exclusions catalog.
Proof.
  unfold resolvedNodes. f_equal. apply map_eq. intros key. by rewrite !keepExplicit_lookup.
Qed.

Lemma keyDiff_order a b : keyDiff (MapRange1 := B1) a b = keyDiff (MapRange1 := B2) a b.
Proof.
  assert (∀ B : MapRange string bool, sort_strings (keyDiff (MapRange1 := B) a b) = keyDiff (MapRange1 := B) a b) as Hs.
  { intros B. unfold keyDiff, sort_strings. symmetry. apply sort_slice_unique.
    - apply _.
    - intros x y _ _. apply str_lt_sep.
    - apply sort_slice_sorted, _.
    - done. }
  rewrite <-(Hs B1), <-(Hs B2). apply sort_strings_perm_eq.
  by rewrite (keyDiff_perm (MapRange1 := B1)), (keyDiff_perm (MapRange1 := B2)), (map_range_perm (MapRange := B1)),
    (map_range_perm (MapRange := B2)).
Qed.

(** The resolution does not depend on the order in which the runtime iterates over
    the maps of the function. *)
Theorem ResolvePlanMembershipRules_order digest base rules exclusions catalog :
  wfCatalog catalog →
  ResolvePlanMembershipRules (MapRange0 := R1) (MapRange1 := B1) digest base rules exclusions catalog =
  ResolvePlanMembershipRules (MapRange0 := R2) (MapRange1 := B2) digest base rules exclusions catalog.
Proof.
  intros Hwf. unfold ResolvePlanMembershipRules.
  destruct (NormalizePlanMembershipRules rules) as [rules'|e] eqn:Hr; [|done]. cbn [rbind].
  destruct (NormalizePlanMembershipRules_ok _ _ Hr) as (Hs & _ & _).
  rewrite (resolvedNodes_order base rules' exclusions catalog).
  set (m := resolvedNodes (MapRange0 := R2) base rules' exclusions catalog).
  assert (∀ m, keySet (MapRange0 := R1) m = keySet (MapRange0 := R2) m) as Hset.
  { intros m'. apply map_eq. intros key. by rewrite !keySet_lookup. }
  rewrite !Hset, !keyDiff_order.
  assert (sort_slice planNodeLess (snd <$> map_range (MapRange := R1) m) =
          sort_slice planNodeLess (snd <$> map_range (MapRange := R2) m)) as ->; [|done].
  assert (∀ k n, m !! k = Some n → planNodeKey n = k) as Hk.
  { intros k n Hkn. pose proof (resolvedNodes_lookup (MapRange0 := R2) base rules' exclusions catalog k Hs Hwf) as H.
    fold m in H. rewrite Hkn in H. tauto. }
  apply sort_slice_perm_eq.
  - destruct str_lt_sw as [H1 H2 H3]. unfold planNodeLess. split; intros; [apply H1|by eapply H2|by eapply H3].
  - intros x y ([k x'] & -> & Hx%elem_of_map_range)%list_elem_of_fmap ([k' y'] & -> & Hy%elem_of_map_range)%list_elem_of_fmap.
    unfold planNodeLess. intros H1 H2. simpl in *. pose proof (str_lt_sep _ _ H1 H2) as He.
    rewrite (Hk k x' Hx), (Hk k' y' Hy) in He. congruence.
  - by rewrite (map_range_perm (MapRange := R1)), (map_range_perm (MapRange := R2)).
Qed.
End two_orders.

(** *** Scopes that never match *)

(** The numeric scope of a rule is parsed but compared as text: ["+5"] is accepted and
    kept as it is, and then equals the decimal form of no server identifier. *)
Lemma noncanonical_scope_never_matches kind n :
  isIDKind kind = true →
  let rule := {| PlanMembershipRule_RuleID := 1; PlanMembershipRule_Kind := kind; PlanMembershipRule_ScopeKey := "+5" |} in
  NormalizePlanMembershipRules [rule] = Ok [rule] ∧ planMembershipRuleMatches rule n = false.
Proof.
  intros Hk rule. assert (∀ id, (FormatInt id =? "+5")%string = false) as Hf.
  { intros id. apply String.eqb_neq. intros He. pose proof (FormatInt_digits id) as Hd. rewrite He in Hd.
    apply Forall_cons in Hd as [[?|?] _]; done. }
  assert (∀ l, existsb (λ id, (FormatInt id =? "+5")%string) l = false) as Hl.
  { induction l; simpl; [done|]. by rewrite Hf. }
  unfold isIDKind in Hk. rewrite !orb_true_iff, !String.eqb_eq in Hk.
  destruct Hk as [[[-> | ->]| ->]| ->]; split; try (vm_compute; reflexivity);
    unfold planMembershipRuleMatches; simpl; by rewrite ?Hf, ?Hl.
Qed.

(** ** Runs of the model *)

Definition sampleCatalog : list AssignableNode :=
  [{| AN_Type := "proxy_path"; AN_ID := 3; AN_Key := "proxy_path:3"; AN_EntryKey := "inbound:1"; AN_EntryServerID := 1;
      AN_ExitServerID := 5; AN_ExitExternalOutboundID := 0; AN_PathServers := [1; 5]; AN_ExitRegion := "hk";
      AN_Enabled := true |}].

Definition sampleRules : list PlanMembershipRule :=
  [{| PlanMembershipRule_RuleID := 4; PlanMembershipRule_Kind := "exit_region"; PlanMembershipRule_ScopeKey := "HK" |};
   {| PlanMembershipRule_RuleID := 2; PlanMembershipRule_Kind := "path_server"; PlanMembershipRule_ScopeKey := "5" |}].

Definition noDigest (_ : list PlanMembershipRule) (_ : list PlanNodeExclusion) (_ : list string) : string := "".

Lemma ResolvePlanMembershipRules_correct_witness :
  ∃ res, ResolvePlanMembershipRules (MapRange0 := map_range_default _ _) (MapRange1 := map_range_default _ _)
    noDigest [] sampleRules [] sampleCatalog = Ok res.
Proof.
  destruct (ResolvePlanMembershipRules_correct (MapRange0 := map_range_default _ _) (MapRange1 := map_range_default _ _)
    noDigest [] sampleRules [] sampleCatalog (reverse sampleRules)) as (res & H & _).
  - vm_compute. reflexivity.
  - repeat constructor.
  - exists res. exact H.
Defined.

Lemma ResolvePlanMembershipRules_order_witness :
  ResolvePlanMembershipRules (MapRange0 := map_range_default _ _) (MapRange1 := map_range_default _ _)
    noDigest [] sampleRules [] sampleCatalog =
  ResolvePlanMembershipRules (MapRange0 := map_range_reverse _ _) (MapRange1 := map_range_reverse _ _)
    noDigest [] sampleRules [] sampleCatalog.
Proof.
  apply (ResolvePlanMembershipRules_order (map_range_default _ _) (map_range_reverse _ _) (map_range_default _ _)
    (map_range_reverse _ _)). repeat constructor.
Defined.
