(* ===== verification/Prog.v ===== *)
(** * Programs of atomic steps

    A service method is a tree of atomic steps on the world.  [run] executes a program
    alone; [pool_step] executes one step of one program of a pool, so that the reflexive
    transitive closure ranges over all interleavings. *)

From S2P Require Import Prelude.

Section prog.
Context {W : Type}.

Inductive prog (A : Type) : Type :=
| Ret (a : A)
| Call {R : Type} (c : W → R * W) (k : R → prog A).
Arguments Ret {A} a.
Arguments Call {A R} c k.

Fixpoint bind {A B : Type} (p : prog A) (f : A → prog B) : prog B :=
  match p with
  | Ret a => f a
  | Call c k => Call c (λ r, bind (k r) f)
  end.

(** [if err != nil { return nil, err }] after a call. *)
Definition try {E A B : Type} (p : prog (result E A)) (f : A → prog (result E B)) : prog (result E B) :=
  bind p (λ r, match r with Ok a => f a | Err e => Ret (Err e) end).

Fixpoint run {A : Type} (p : prog A) (w : W) : A * W :=
  match p with
  | Ret a => (a, w)
  | Call c k => let '(r, w') := c w in run (k r) w'
  end.

(** [for _, x := range l] with early return of an error. *)
Fixpoint each {E S A : Type} (f : A → S → prog (result E S)) (l : list A) (s : S) : prog (result E S) :=
  match l with
  | [] => Ret (Ok s)
  | x :: l => try (f x s) (λ s', each f l s')
  end.

(** One step of one program of a pool. *)
Inductive pool_step {A : Type} : list (prog A) * W → list (prog A) * W → Prop :=
| pool_call pre post R (c : W → R * W) (k : R → prog A) w r w' :
    c w = (r, w') →
    pool_step (pre ++ Call c k :: post, w) (pre ++ k r :: post, w').

(** Execution of a schedule: at each entry the program of that index takes a step. *)
Fixpoint interleave {A : Type} (schedule : list nat) (ps : list (prog A)) (w : W) : list (prog A) * W :=
  match schedule with
  | [] => (ps, w)
  | i :: schedule =>
      match ps !! i with
      | Some (Call c k) => let '(r, w') := c w in interleave schedule (<[i := k r]> ps) w'
      | _ => interleave schedule ps w
      end
  end.

(** ** Facts *)

Lemma run_bind {A B} (p : prog A) (f : A → prog B) w :
  run (bind p f) w = let '(a, w') := run p w in run (f a) w'.
Proof. revert w; induction p as [a|R c k IH]; intros w; simpl; [done|]. destruct (c w); apply IH. Qed.

Lemma run_try {E A B} (p : prog (result E A)) (f : A → prog (result E B)) w :
  run (try p f) w =
  match run p w with
  | (Ok a, w') => run (f a) w'
  | (Err e, w') => (Err e, w')
  end.
Proof. unfold try. rewrite run_bind. by destruct (run p w) as [[] ?]. Qed.

Lemma bind_assoc {A B C} (p : prog A) (f : A → prog B) (g : B → prog C) w :
  run (bind (bind p f) g) w = run (bind p (λ a, bind (f a) g)) w.
Proof. revert w; induction p as [a|R c k IH]; intros w; simpl; [done|]. destruct (c w); apply IH. Qed.

(** Partial-correctness triples: [P] before gives [Q] after. *)
Definition triple {A} (P : W → Prop) (p : prog A) (Q : A → W → Prop) : Prop :=
  ∀ w a w', P w → run p w = (a, w') → Q a w'.

(** The result and the final world of a run, as a predicate transformer. *)
Definition wp {A} (p : prog A) (Q : A → W → Prop) (w : W) : Prop :=
  let '(a, w') := run p w in Q a w'.

Lemma wp_run {A} (p : prog A) Q w a w' : wp p Q w → run p w = (a, w') → Q a w'.
Proof. unfold wp. intros Hwp Hrun. by rewrite Hrun in Hwp. Qed.

Lemma wp_ret {A} (a : A) (Q : A → W → Prop) w : Q a w → wp (Ret a) Q w.
Proof. done. Qed.

Lemma wp_mono {A} (p : prog A) (Q Q' : A → W → Prop) w : (∀ a w', Q a w' → Q' a w') → wp p Q w → wp p Q' w.
Proof. unfold wp. destruct (run p w). auto. Qed.

Lemma wp_conj {A} (p : prog A) (Q1 Q2 : A → W → Prop) w :
  wp p Q1 w → wp p Q2 w → wp p (λ a w', Q1 a w' ∧ Q2 a w') w.
Proof. unfold wp. by destruct (run p w). Qed.

Lemma wp_bind {A B} (p : prog A) (f : A → prog B) Q w :
  wp p (λ a w', wp (f a) Q w') w → wp (bind p f) Q w.
Proof. unfold wp. rewrite run_bind. by destruct (run p w). Qed.

Lemma wp_try {E A B} (p : prog (result E A)) (f : A → prog (result E B)) Q w :
  wp p (λ r w', match r with Ok a => wp (f a) Q w' | Err e => Q (Err e) w' end) w → wp (try p f) Q w.
Proof. intros Hp. apply wp_bind. eapply wp_mono; [|exact Hp]. by intros [] w'. Qed.

(** A program that preserves a preorder on worlds, by its steps. *)
Fixpoint steps_in {A} (R : W → W → Prop) (p : prog A) : Prop :=
  match p with
  | Ret _ => True
  | Call c k => ∀ w r w', c w = (r, w') → R w w' ∧ steps_in R (k r)
  end.

Lemma steps_in_bind {A B} R (p : prog A) (f : A → prog B) :
  steps_in R p → (∀ a, steps_in R (f a)) → steps_in R (bind p f).
Proof.
  intros Hp Hf. induction p as [a|T c k IH]; simpl in *; [apply Hf|].
  intros w r w' Hc. destruct (Hp w r w' Hc). auto.
Qed.

Lemma steps_in_try {E A B} R (p : prog (result E A)) (f : A → prog (result E B)) :
  steps_in R p → (∀ a, steps_in R (f a)) → steps_in R (try p f).
Proof. intros Hp Hf. apply steps_in_bind; [done|]. intros []; [apply Hf|exact I]. Qed.

Lemma steps_in_each {E S A} R (f : A → S → prog (result E S)) l s :
  (∀ x s, steps_in R (f x s)) → steps_in R (each f l s).
Proof. intros Hf. revert s; induction l as [|x l IH]; intros s; simpl; [done|]. apply steps_in_try; auto. Qed.

Lemma run_steps_in {A} R `{!PreOrder R} (p : prog A) w a w' :
  steps_in R p → run p w = (a, w') → R w w'.
Proof.
  revert w; induction p as [x|T c k IH]; intros w Hp Hrun; simpl in *; [by simplify_eq|].
  destruct (c w) as [r w1] eqn:Hc. destruct (Hp w r w1 Hc). etrans; eauto.
Qed.

Lemma wp_steps_in {A} R `{!PreOrder R} (p : prog A) Q w :
  steps_in R p → (∀ a w', R w w' → Q a w') → wp p Q w.
Proof. intros Hp HQ. unfold wp. destruct (run p w) as [a w'] eqn:Hrun. eapply HQ, run_steps_in; eauto. Qed.

(** A schedule is a sequence of steps of the pool. *)
Lemma interleave_steps {A} schedule (ps : list (prog A)) w :
  rtc pool_step (ps, w) (interleave schedule ps w).
Proof.
  revert ps w; induction schedule as [|i schedule IH]; intros ps w; simpl; [done|].
  destruct (ps !! i) as [[a|R c k]|] eqn:Hi; [apply IH| |apply IH].
  destruct (c w) as [r w'] eqn:Hc. eapply rtc_l; [|apply IH].
  rewrite <- (take_drop_middle ps i _ Hi) at 1.
  rewrite (insert_take_drop ps i) by (by eapply lookup_lt_Some). by constructor.
Qed.
Lemma interleave_reaches {A} schedule (ps : list (prog A)) w :
  rtc pool_step (ps, w) ((interleave schedule ps w).1, (interleave schedule ps w).2).
Proof. rewrite <- surjective_pairing. apply interleave_steps. Qed.

(** ** Rely and guarantee

    [rg p Q w]: whatever the other programs do to [w], as long as they keep the invariant [I]
    and move along [G], the steps of [p] keep [I] and move along [G], and [Q] holds of its
    result from then on. *)
Section rely_guarantee.
Context (I : W → Prop) (G : W → W → Prop) `{!PreOrder G}.

Fixpoint rg {A} (p : prog A) (Q : A → W → Prop) (w : W) : Prop :=
  match p with
  | Ret a => ∀ w1, I w1 → G w w1 → Q a w1
  | Call c k => ∀ w1, I w1 → G w w1 → let '(r, w2) := c w1 in I w2 ∧ G w1 w2 ∧ rg (k r) Q w2
  end.

Lemma rg_later {A} (p : prog A) Q w w' : G w w' → rg p Q w → rg p Q w'.
Proof. destruct p; simpl; intros HG Hp w1 HI HG1; apply Hp; auto; by etrans. Qed.

Lemma rg_mono {A} (p : prog A) (Q Q' : A → W → Prop) w :
  (∀ a w', I w' → G w w' → Q a w' → Q' a w') → rg p Q w → rg p Q' w.
Proof.
  revert w; induction p as [a|T c k IH]; simpl; intros w HQ Hp w1 HI HG; [by apply HQ, Hp|].
  specialize (Hp w1 HI HG). destruct (c w1) as [r w2]. destruct Hp as (HI2 & HG2 & Hk).
  split_and!; [done..|]. apply IH; [|done]. intros a w' HI' HG'. apply HQ; [done|]. by do 2 (etrans; [eassumption|]).
Qed.

Lemma rg_bind {A B} (p : prog A) (f : A → prog B) Q w :
  I w → rg p (λ a w', rg (f a) Q w') w → rg (bind p f) Q w.
Proof.
  revert w; induction p as [a|T c k IH]; simpl; intros w HI0 Hp; [by apply Hp|].
  intros w1 HI HG. specialize (Hp w1 HI HG). destruct (c w1) as [r w2]. destruct Hp as (? & ? & ?). auto.
Qed.

Lemma rg_try {E A B} (p : prog (result E A)) (f : A → prog (result E B)) Q w :
  I w → rg p (λ r w', match r with Ok a => rg (f a) Q w' | Err e => Q (Err e) w' end) w → rg (try p f) Q w.
Proof.
  intros HI Hp. apply rg_bind; [done|]. revert Hp. revert w HI.
  induction p as [a|T c k IH]; simpl; intros w HI0 Hp w1 HI HG.
  - destruct a as [a|e]; [by apply Hp|]. intros w2 HI2 HG2. apply Hp; [done|]. by etrans.
  - specialize (Hp w1 HI HG). destruct (c w1) as [r w2]. destruct Hp as (? & ? & ?). auto.
Qed.

(** Every interleaving of programs of the rely-guarantee form keeps the invariant. *)
Lemma rg_pool {A} (Q : A → W → Prop) ps w ps' w' :
  I w → Forall (λ p, rg p Q w) ps → rtc pool_step (ps, w) (ps', w') →
  I w' ∧ G w w' ∧ Forall (λ p, rg p Q w') ps'.
Proof.
  intros HI Hps Hsteps. remember (ps, w) as s eqn:Hs. remember (ps', w') as s' eqn:Hs'.
  revert ps w HI Hps Hs. induction Hsteps as [s|s s1 s2 Hstep _ IH]; intros ps w HI Hps ->; [by simplify_eq|].
  inversion Hstep as [pre post T c k w0 r w1 Hc]; simplify_eq.
  apply Forall_app in Hps as [Hpre [Hp Hpost]%Forall_cons].
  specialize (Hp w HI). rewrite Hc in Hp. destruct Hp as (HI1 & HG1 & Hk); [done|].
  edestruct (IH eq_refl (pre ++ k r :: post) w1) as (? & ? & ?); [done| |done|].
  - apply Forall_app; split; [|apply Forall_cons; split; [done|]];
      (eapply Forall_impl; [eassumption|]; intros q Hq; by eapply rg_later).
  - split_and!; [done| |done]. by etrans.
Qed.
End rely_guarantee.
End prog.

Arguments prog : clear implicits.
Arguments Ret {W A} a.
Arguments Call {W A R} c k.

Declare Scope prog_scope.
Delimit Scope prog_scope with prog.
Notation "'let!' x ':=' p 'in' k" := (bind p (λ x, k))
  (at level 10, x pattern, p at level 100, k at level 200) : prog_scope.
Notation "'let?' x ':=' p 'in' k" := (try p (λ x, k))
  (at level 10, x pattern, p at level 100, k at level 200) : prog_scope.
