(* ===== verification/ChangesetStore.v ===== *)
(** * Changeset store ([internal/store/automation.go], [internal/model/automation.go])

    The rows of [automation_changesets] with their operations, the rows of
    [automation_approvals], and the SQL statements on them, each an atomic step on the
    store.  A service method is a program of such steps ([prog]): [run] executes it alone,
    and a pool of programs interleaves them step by step.  Any statement may fail with
    an I/O error, at the discretion of the environment; the clock, the approval policies,
    the principals and the servers are read from the environment at the tick of the call,
    so that they may change arbitrarily between two steps.  A store method that runs several
    queries in a row, such as the row of a changeset and then its operations, is one step. *)

From S2P Require Import Prelude Model NodeKeys Rbac.

Local Open Scope Z_scope.

(** ** Data *)

Inductive ChangesetStatus :=
| ChangesetDraft | ChangesetValidated | ChangesetAwaitingApproval | ChangesetApproved
| ChangesetApplying | ChangesetSucceeded | ChangesetFailed | ChangesetExpired
| ChangesetSuperseded | ChangesetRollbackFailed.

Global Instance ChangesetStatus_eq_dec : EqDecision ChangesetStatus.
Proof. solve_decision. Defined.

(** Times are nanoseconds; [None] is the zero time or the nil pointer.  A JSON text is
    the string that [json.RawMessage] holds. *)
Record AutomationOperation := {
  OP_ID : string;
  OP_ChangesetID : string;
  OP_Position : Z;
  OP_Capability : string;
  OP_Input : string;
  OP_SecretRefs : list string;
  OP_ResourceRefs : string;
  OP_RiskClass : Z;
  OP_Status : string;
  OP_Result : string;
  OP_ErrorCode : string;
  OP_ErrorMessage : string;
  OP_CreatedAt : option Z;
  OP_CompletedAt : option Z }.

Record AutomationChangeset := {
  CS_ID : string;
  CS_PrincipalID : string;
  CS_ActorUserID : option Z;
  CS_Status : ChangesetStatus;
  CS_Reason : string;
  CS_IdempotencyKey : string;
  CS_BaseRevisions : string;
  CS_PlanHash : string;
  CS_RiskClass : Z;
  CS_AutoApply : bool;
  CS_Validation : string;
  CS_BlastRadius : string;
  CS_Result : string;
  CS_ExpiresAt : Z;
  CS_CreatedAt : option Z;
  CS_UpdatedAt : option Z;
  CS_ValidatedAt : option Z;
  CS_ApprovedAt : option Z;
  CS_AppliedAt : option Z;
  CS_CompletedAt : option Z;
  CS_Operations : list AutomationOperation }.

Record AutomationApproval := {
  AP_ID : string;
  AP_ChangesetID : string;
  AP_ApproverID : Z;
  AP_Decision : string;
  AP_PlanHash : string;
  AP_Comment : string;
  AP_ApprovedRisk : Z }.

Record ApprovalPolicy := {
  PO_ResourceFilter : string;
  PO_Mode : string;
  PO_AllowRisk4 : bool;
  PO_ExpiresAt : option Z }.

(** Errors, one constructor per kind of error site; where the method also returns the
    changeset, the error carries it. *)
Inductive AErr :=
| ErrNoRows
| ErrDB
| ErrConstraint
| ErrIdempotencyConflict
| ErrInvalid (message : string)
| ErrUnauthorized (capability : string)
| ErrNotExecutable (capability : string)
| ErrPolicyDenied (capability : string)
| ErrServerReplaced (server : Z)
| ErrRevision (resource : string)
| ErrHandler (message : string)
| ErrExpired (item : AutomationChangeset)
| ErrPlanHash (item : AutomationChangeset)
| ErrStale (item : AutomationChangeset) (cause : AErr)
| ErrApply (item : AutomationChangeset) (cause : AErr).

(** ** Updates of the two records *)

Definition setOpCreated (ts : Z) (op : AutomationOperation) : AutomationOperation :=
  {| OP_ID := OP_ID op; OP_ChangesetID := OP_ChangesetID op; OP_Position := OP_Position op;
     OP_Capability := OP_Capability op; OP_Input := OP_Input op; OP_SecretRefs := OP_SecretRefs op;
     OP_ResourceRefs := OP_ResourceRefs op; OP_RiskClass := OP_RiskClass op; OP_Status := OP_Status op;
     OP_Result := OP_Result op; OP_ErrorCode := OP_ErrorCode op; OP_ErrorMessage := OP_ErrorMessage op;
     OP_CreatedAt := Some ts; OP_CompletedAt := OP_CompletedAt op |}.

(** The columns an operation update writes. *)
Definition setOpOutcome (status result code message : string) (completed : option Z) (op : AutomationOperation) :
    AutomationOperation :=
  {| OP_ID := OP_ID op; OP_ChangesetID := OP_ChangesetID op; OP_Position := OP_Position op;
     OP_Capability := OP_Capability op; OP_Input := OP_Input op; OP_SecretRefs := OP_SecretRefs op;
     OP_ResourceRefs := OP_ResourceRefs op; OP_RiskClass := OP_RiskClass op; OP_Status := status;
     OP_Result := result; OP_ErrorCode := code; OP_ErrorMessage := message;
     OP_CreatedAt := OP_CreatedAt op; OP_CompletedAt := completed |}.

(** The fields of a changeset that may change after it is created. *)
Definition amend (c : AutomationChangeset) (status : ChangesetStatus) (planHash validation blast result : string)
    (risk : Z) (auto : bool) (updated validated approved applied completed : option Z) : AutomationChangeset :=
  {| CS_ID := CS_ID c; CS_PrincipalID := CS_PrincipalID c; CS_ActorUserID := CS_ActorUserID c; CS_Status := status;
     CS_Reason := CS_Reason c; CS_IdempotencyKey := CS_IdempotencyKey c; CS_BaseRevisions := CS_BaseRevisions c;
     CS_PlanHash := planHash; CS_RiskClass := risk; CS_AutoApply := auto; CS_Validation := validation;
     CS_BlastRadius := blast; CS_Result := result; CS_ExpiresAt := CS_ExpiresAt c; CS_CreatedAt := CS_CreatedAt c;
     CS_UpdatedAt := updated; CS_ValidatedAt := validated; CS_ApprovedAt := approved; CS_AppliedAt := applied;
     CS_CompletedAt := completed; CS_Operations := CS_Operations c |}.

Definition setStatus (s : ChangesetStatus) (c : AutomationChangeset) : AutomationChangeset :=
  amend c s (CS_PlanHash c) (CS_Validation c) (CS_BlastRadius c) (CS_Result c) (CS_RiskClass c) (CS_AutoApply c)
    (CS_UpdatedAt c) (CS_ValidatedAt c) (CS_ApprovedAt c) (CS_AppliedAt c) (CS_CompletedAt c).

Definition setApproved (at_ : Z) (c : AutomationChangeset) : AutomationChangeset :=
  amend c ChangesetApproved (CS_PlanHash c) (CS_Validation c) (CS_BlastRadius c) (CS_Result c) (CS_RiskClass c)
    (CS_AutoApply c) (CS_UpdatedAt c) (CS_ValidatedAt c) (Some at_) (CS_AppliedAt c) (CS_CompletedAt c).

Definition setApplying (at_ : Z) (c : AutomationChangeset) : AutomationChangeset :=
  amend c ChangesetApplying (CS_PlanHash c) (CS_Validation c) (CS_BlastRadius c) (CS_Result c) (CS_RiskClass c)
    (CS_AutoApply c) (CS_UpdatedAt c) (CS_ValidatedAt c) (CS_ApprovedAt c) (Some at_) (CS_CompletedAt c).

Definition setValidation (planHash validation blast : string) (at_ : Z) (c : AutomationChangeset) : AutomationChangeset :=
  amend c ChangesetAwaitingApproval planHash validation blast (CS_Result c) (CS_RiskClass c) (CS_AutoApply c)
    (CS_UpdatedAt c) (Some at_) (CS_ApprovedAt c) (CS_AppliedAt c) (CS_CompletedAt c).

Definition setCompleted (s : ChangesetStatus) (result : string) (at_ : Z) (c : AutomationChangeset) : AutomationChangeset :=
  amend c s (CS_PlanHash c) (CS_Validation c) (CS_BlastRadius c) result (CS_RiskClass c) (CS_AutoApply c)
    (CS_UpdatedAt c) (CS_ValidatedAt c) (CS_ApprovedAt c) (CS_AppliedAt c) (Some at_).

Definition setResult (result : string) (c : AutomationChangeset) : AutomationChangeset :=
  amend c (CS_Status c) (CS_PlanHash c) (CS_Validation c) (CS_BlastRadius c) result (CS_RiskClass c) (CS_AutoApply c)
    (CS_UpdatedAt c) (CS_ValidatedAt c) (CS_ApprovedAt c) (CS_AppliedAt c) (CS_CompletedAt c).

Definition setOperations (ops : list AutomationOperation) (c : AutomationChangeset) : AutomationChangeset :=
  {| CS_ID := CS_ID c; CS_PrincipalID := CS_PrincipalID c; CS_ActorUserID := CS_ActorUserID c; CS_Status := CS_Status c;
     CS_Reason := CS_Reason c; CS_IdempotencyKey := CS_IdempotencyKey c; CS_BaseRevisions := CS_BaseRevisions c;
     CS_PlanHash := CS_PlanHash c; CS_RiskClass := CS_RiskClass c; CS_AutoApply := CS_AutoApply c;
     CS_Validation := CS_Validation c; CS_BlastRadius := CS_BlastRadius c; CS_Result := CS_Result c;
     CS_ExpiresAt := CS_ExpiresAt c; CS_CreatedAt := CS_CreatedAt c; CS_UpdatedAt := CS_UpdatedAt c;
     CS_ValidatedAt := CS_ValidatedAt c; CS_ApprovedAt := CS_ApprovedAt c; CS_AppliedAt := CS_AppliedAt c;
     CS_CompletedAt := CS_CompletedAt c; CS_Operations := ops |}.

(** The changeset after [INSERT]: its creation times are those of the statement. *)
Definition setCreated (ts : Z) (c : AutomationChangeset) : AutomationChangeset :=
  {| CS_ID := CS_ID c; CS_PrincipalID := CS_PrincipalID c; CS_ActorUserID := CS_ActorUserID c; CS_Status := CS_Status c;
     CS_Reason := CS_Reason c; CS_IdempotencyKey := CS_IdempotencyKey c; CS_BaseRevisions := CS_BaseRevisions c;
     CS_PlanHash := CS_PlanHash c; CS_RiskClass := CS_RiskClass c; CS_AutoApply := CS_AutoApply c;
     CS_Validation := CS_Validation c; CS_BlastRadius := CS_BlastRadius c; CS_Result := CS_Result c;
     CS_ExpiresAt := CS_ExpiresAt c; CS_CreatedAt := Some ts; CS_UpdatedAt := Some ts;
     CS_ValidatedAt := CS_ValidatedAt c; CS_ApprovedAt := CS_ApprovedAt c; CS_AppliedAt := CS_AppliedAt c;
     CS_CompletedAt := CS_CompletedAt c; CS_Operations := setOpCreated ts <$> CS_Operations c |}.

(** ** Statements *)

Record Store := {
  rows : list AutomationChangeset;
  approvals : list AutomationApproval }.

Definition normalizedJSONObject (raw : string) : string :=
  if (raw =? "")%string || (raw =? "null")%string then "{}" else raw.

(** The row as [INSERT] stores it: JSON columns normalized, [validated_at] to
    [completed_at] left null, [completed_at] of the operations too. *)
Definition insertedOperation (changesetID : string) (op : AutomationOperation) : AutomationOperation :=
  {| OP_ID := OP_ID op; OP_ChangesetID := changesetID; OP_Position := OP_Position op;
     OP_Capability := OP_Capability op; OP_Input := OP_Input op; OP_SecretRefs := OP_SecretRefs op;
     OP_ResourceRefs := normalizedJSONObject (OP_ResourceRefs op); OP_RiskClass := OP_RiskClass op;
     OP_Status := OP_Status op; OP_Result := normalizedJSONObject (OP_Result op); OP_ErrorCode := OP_ErrorCode op;
     OP_ErrorMessage := OP_ErrorMessage op; OP_CreatedAt := OP_CreatedAt op; OP_CompletedAt := None |}.

Definition insertedRow (c : AutomationChangeset) : AutomationChangeset :=
  {| CS_ID := CS_ID c; CS_PrincipalID := CS_PrincipalID c; CS_ActorUserID := CS_ActorUserID c; CS_Status := CS_Status c;
     CS_Reason := CS_Reason c; CS_IdempotencyKey := CS_IdempotencyKey c;
     CS_BaseRevisions := normalizedJSONObject (CS_BaseRevisions c);
     CS_PlanHash := CS_PlanHash c; CS_RiskClass := CS_RiskClass c; CS_AutoApply := CS_AutoApply c;
     CS_Validation := normalizedJSONObject (CS_Validation c); CS_BlastRadius := normalizedJSONObject (CS_BlastRadius c);
     CS_Result := normalizedJSONObject (CS_Result c);
     CS_ExpiresAt := CS_ExpiresAt c; CS_CreatedAt := CS_CreatedAt c; CS_UpdatedAt := CS_UpdatedAt c;
     CS_ValidatedAt := None; CS_ApprovedAt := None; CS_AppliedAt := None; CS_CompletedAt := None;
     CS_Operations := insertedOperation (CS_ID c) <$> CS_Operations c |}.

(** The primary keys and the unique constraints of the two tables. *)
Definition insertConflict (st : Store) (c : AutomationChangeset) : bool :=
  existsb (λ row, (CS_ID row =? CS_ID c)%string) (rows st) ||
  existsb (λ row, (CS_PrincipalID row =? CS_PrincipalID c)%string &&
                  (CS_IdempotencyKey row =? CS_IdempotencyKey c)%string) (rows st) ||
  negb (bool_decide (NoDup ((OP_ID <$> CS_Operations c) ++ (rows st ≫= λ row, OP_ID <$> CS_Operations row)))) ||
  negb (bool_decide (NoDup (OP_Position <$> CS_Operations c))).

Definition CreateAutomationChangeset (ts : Z) (c : AutomationChangeset) (st : Store) :
    result AErr AutomationChangeset * Store :=
  match CS_Operations c with
  | [] => (Err (ErrInvalid "changeset operations are required"), st)
  | _ =>
      if insertConflict st c then (Err ErrConstraint, st)
      else (Ok (setCreated ts c),
            {| rows := rows st ++ [insertedRow (setCreated ts c)]; approvals := approvals st |})
  end.

Definition GetAutomationChangeset (id : string) (st : Store) : result AErr AutomationChangeset :=
  match List.find (λ row, (CS_ID row =? id)%string) (rows st) with
  | Some row => Ok row
  | None => Err ErrNoRows
  end.

Definition FindAutomationChangesetByIdempotency (principalID key : string) (st : Store) :
    result AErr AutomationChangeset :=
  match List.find (λ row, (CS_PrincipalID row =? principalID)%string && (CS_IdempotencyKey row =? key)%string)
          (rows st) with
  | Some row => GetAutomationChangeset (CS_ID row) st
  | None => Err ErrNoRows
  end.

(** The columns of the [UPDATE]; the others keep the row's values. *)
Definition updatedRow (ts : Z) (item row : AutomationChangeset) : AutomationChangeset :=
  amend row (CS_Status item) (CS_PlanHash item) (normalizedJSONObject (CS_Validation item))
    (normalizedJSONObject (CS_BlastRadius item)) (normalizedJSONObject (CS_Result item)) (CS_RiskClass item)
    (CS_AutoApply item) (Some ts) (CS_ValidatedAt item) (CS_ApprovedAt item) (CS_AppliedAt item)
    (CS_CompletedAt item).

(** [UPDATE … WHERE id = ?]: every row with the key, and no error when there is none. *)
Definition updateWhere (id : string) (f : AutomationChangeset → AutomationChangeset) (st : Store) : Store :=
  {| rows := (λ row, if (CS_ID row =? id)%string then f row else row) <$> rows st; approvals := approvals st |}.

Definition UpdateAutomationChangeset (ts : Z) (item : AutomationChangeset) (st : Store) : Store :=
  updateWhere (CS_ID item) (updatedRow ts item) st.

(** The compare-and-set on the status: true when one row was changed. *)
Definition claimedRow (appliedAt : Z) (row : AutomationChangeset) : AutomationChangeset :=
  amend row ChangesetApplying (CS_PlanHash row) (CS_Validation row) (CS_BlastRadius row) (CS_Result row)
    (CS_RiskClass row) (CS_AutoApply row) (Some appliedAt) (CS_ValidatedAt row) (CS_ApprovedAt row)
    (Some appliedAt) (CS_CompletedAt row).

Definition claimable (id : string) (row : AutomationChangeset) : bool :=
  (CS_ID row =? id)%string && bool_decide (CS_Status row = ChangesetApproved).

Definition ClaimAutomationChangesetApply (id : string) (appliedAt : Z) (st : Store) : bool * Store :=
  (Nat.eqb (length (List.filter (claimable id) (rows st))) 1,
   {| rows := (λ row, if claimable id row then claimedRow appliedAt row else row) <$> rows st;
      approvals := approvals st |}).

Definition CreateAutomationApproval (a : AutomationApproval) (st : Store) : result AErr unit * Store :=
  if existsb (λ b, (AP_ID b =? AP_ID a)%string) (approvals st) ||
     negb (existsb (λ row, (CS_ID row =? AP_ChangesetID a)%string) (rows st))
  then (Err ErrConstraint, st)
  else (Ok (), {| rows := rows st; approvals := approvals st ++ [a] |}).

Definition updatedOperation (op row : AutomationOperation) : AutomationOperation :=
  if (OP_ID row =? OP_ID op)%string
  then setOpOutcome (OP_Status op) (normalizedJSONObject (OP_Result op)) (OP_ErrorCode op) (OP_ErrorMessage op)
         (OP_CompletedAt op) row
  else row.

Definition UpdateAutomationOperation (op : AutomationOperation) (st : Store) : Store :=
  {| rows := (λ row, setOperations (updatedOperation op <$> CS_Operations row) row) <$> rows st;
     approvals := approvals st |}.

Definition GetAutomationOperation (id : string) (st : Store) : result AErr AutomationOperation :=
  match List.find (λ op, (OP_ID op =? id)%string) (rows st ≫= CS_Operations) with
  | Some op => Ok op
  | None => Err ErrNoRows
  end.

(** A policy that has expired counts as absent. *)
Definition GetApprovalPolicy (policies : string → string → option ApprovalPolicy) (principalID capability : string)
    (at_ : Z) : result AErr ApprovalPolicy :=
  match policies principalID capability with
  | None => Err ErrNoRows
  | Some p =>
      match PO_ExpiresAt p with
      | Some expires => if expires <=? at_ then Err ErrNoRows else Ok p
      | None => Ok p
      end
  end.
