(* ===== verification/Automation.v ===== *)
(** * Changesets of the automation service ([internal/automation])

    A changeset is a plan of mutations: [Create] stores it under an idempotency key,
    [Validate] checks it and fixes its plan hash, [Approve] records an operator's
    decision, and [Apply] claims it and runs its operations.  The methods are programs
    over the changeset store, in the order of the statements of the source.

    Arguments of the model: the JSON encoder and decoder and SHA-256 (the class [Codec],
    at the granularity at which the code calls them), the registered handlers, validators
    and resolvers (the record [Service]), and the environment (the record [Env]).  The
    observer that is told of a successful apply is not modelled. *)

From S2P Require Import Prelude Model NodeKeys Rbac McpAuth Capability ChangesetStore Prog.

Local Open Scope Z_scope.
Local Open Scope prog_scope.

(** ** Library functions and environment *)

(** The values the service marshals. *)
Inductive doc :=
| DString (s : string)
| DInt (n : Z)
| DBool (b : bool)
| DRaw (raw : string)
| DArray (l : list doc)
| DObject (l : list (string * doc)).

(** [encoding/json] and [crypto/sha256], as the service uses them:
    [reencode] decodes one JSON object with [UseNumber], refuses trailing data and [null],
    and encodes it again; [decodeStringMap] is [Decode] into [map[string]string], [None]
    for an error and for [null], and [unmarshalStringMap] is [Unmarshal] into that type,
    where [null] is the empty map; [decodeRawMap] and [decodeInts] are [Unmarshal] into
    [map[string]json.RawMessage] and [[]int64]; [objectKeys] are the keys of
    [Unmarshal] into [map[string]any]; [errorText] is the text of an error. *)
Class Codec := {
  reencode : string → option string;
  decodeStringMap : string → option (gmap string string);
  unmarshalStringMap : string → option (gmap string string);
  encodeStringMap : gmap string string → string;
  decodeRawMap : string → option (gmap string string);
  decodeInts : string → option (list Z);
  objectKeys : string → option (gset string);
  marshal : doc → option string;
  sha256Hex : string → string;
  errorText : AErr → string }.

(** The value of a handler: a plain value, or a [MutationResult] with the part that is
    stored and a part that is returned once. *)
Inductive HandlerResult :=
| Plain (v : doc)
| MutationResult (Public : doc) (OneTime : option doc).

(** A registered function, called at some tick.  A handler also receives the approved
    base revisions that the context carries. *)
Definition Validator : Type := nat → Principal → string → result AErr doc.
Definition MutationHandler : Type := nat → string → Principal → string → result AErr HandlerResult.
Definition RevisionResolver : Type := nat → Principal → string → result AErr (gmap string string).
Definition ReplayAuthorizer : Type := nat → Principal → AutomationOperation → option AErr.

Record Service := {
  catalog : Catalog;
  handlers : gmap string MutationHandler;
  validators : gmap string Validator;
  revisionResolvers : gmap string RevisionResolver;
  replayAuthorizer : option ReplayAuthorizer;
  resultAuthorizer : option ReplayAuthorizer }.

Record Env := {
  env_now : nat → Z;
  env_fails : nat → bool;
  env_random : nat → result AErr string;
  env_policy : nat → string → string → option ApprovalPolicy;
  env_principalType : nat → string → option string;
  env_serverCreatedAt : nat → Z → option Z }.

(** What happened outside the changeset tables: a policy the store returned, a mutation
    handler that was called for an operation of a changeset. *)
Inductive event :=
| HPolicy (principalID capability : string) (policy : ApprovalPolicy)
| HExec (changesetID : string) (position : Z).

Record World := { st : Store; history : list event; tick : nat }.

Definition initialWorld : World := {| st := {| rows := []; approvals := [] |}; history := []; tick := 0 |}.

Definition APIPrincipalOAuth : string := "oauth".

Record OperationRequest := {
  OR_Capability : string;
  OR_Input : string;
  OR_SecretRefs : list string;
  OR_ResourceRefs : string }.

Record CreateRequest := {
  CR_Reason : string;
  CR_IdempotencyKey : string;
  CR_BaseRevisions : string;
  CR_AutoApply : bool;
  CR_Operations : list OperationRequest }.

(** ** Registration *)

Definition Register (s : Service) (name : string) (h : MutationHandler) : option Service :=
  match GetDescriptor (catalog s) name with
  | None => None
  | Some _ => Some {| catalog := catalog s; handlers := <[name := h]> (handlers s); validators := validators s;
      revisionResolvers := revisionResolvers s; replayAuthorizer := replayAuthorizer s;
      resultAuthorizer := resultAuthorizer s |}
  end.

Definition RegisterValidator (s : Service) (name : string) (v : Validator) : option Service :=
  match GetDescriptor (catalog s) name with
  | None => None
  | Some _ => Some {| catalog := catalog s; handlers := handlers s; validators := <[name := v]> (validators s);
      revisionResolvers := revisionResolvers s; replayAuthorizer := replayAuthorizer s;
      resultAuthorizer := resultAuthorizer s |}
  end.

Definition RegisterRevisionResolver (s : Service) (name : string) (r : RevisionResolver) : option Service :=
  match GetDescriptor (catalog s) name with
  | None => None
  | Some _ => Some {| catalog := catalog s; handlers := handlers s; validators := validators s;
      revisionResolvers := <[name := r]> (revisionResolvers s); replayAuthorizer := replayAuthorizer s;
      resultAuthorizer := resultAuthorizer s |}
  end.

(** ** Pure helpers *)

Section pure.
Context `{!Codec, !MapRange string string}.

Definition mustJSON (d : doc) : string := default "{}" (marshal d).

Definition canonicalObject (raw : string) : result AErr string :=
  let raw := if (raw =? "")%string then "{}" else raw in
  match reencode raw with
  | Some encoded => Ok encoded
  | None => Err (ErrInvalid "input must be a JSON object")
  end.

Definition normalizedObject (raw : string) : string :=
  match canonicalObject raw with
  | Ok v => v
  | Err _ => "{}"
  end.

Definition revisionBlank (e : string * string) : bool :=
  (TrimSpace e.1 =? "")%string || (TrimSpace e.2 =? "")%string.

Definition decodeRevisions (raw : string) : result AErr (gmap string string) :=
  if (raw =? "")%string || (raw =? "null")%string then Ok ∅
  else match decodeStringMap raw with
  | None => Err (ErrInvalid "must be an object whose values are revision strings")
  | Some revisions =>
      if existsb revisionBlank (map_range revisions)
      then Err (ErrInvalid "resource keys and revision values must not be empty")
      else Ok revisions
  end.

Definition canonicalRevisions (raw : string) : result AErr string :=
  match decodeRevisions raw with
  | Ok revisions => Ok (encodeStringMap revisions)
  | Err e => Err e
  end.

(** The first resource in iteration order whose revision differs; an absent key of a Go
    map reads as the empty string. *)
Definition compareRevisions (expected current : gmap string string) : result AErr unit :=
  if negb (Nat.eqb (size expected) (size current)) then Err (ErrRevision "")
  else match List.find (λ e, negb (default "" (expected !! e.1) =? e.2)%string) (map_range current) with
  | Some (key, _) => Err (ErrRevision key)
  | None => Ok ()
  end.

Definition ApprovedResourceRevision (approved : option string) (resource : string) : option string :=
  match approved with
  | None => None
  | Some raw =>
      match unmarshalStringMap raw with
      | None => None
      | Some revisions => revisions !! resource
      end
  end.

Definition hashOperation (op : AutomationOperation) : doc :=
  DObject [("capability", DString (OP_Capability op)); ("input", DRaw (OP_Input op));
           ("resource_refs", DRaw (OP_ResourceRefs op)); ("risk_class", DInt (OP_RiskClass op))].

Definition changesetHash (item : AutomationChangeset) : result AErr string :=
  match marshal (DObject [("base_revisions", DRaw (CS_BaseRevisions item));
                          ("operations", DArray (hashOperation <$> CS_Operations item))]) with
  | None => Err (ErrInvalid "marshal")
  | Some payload => Ok (sha256Hex payload)
  end.

Definition digestOperation (op : AutomationOperation) (acc : list doc) : result AErr (list doc) :=
  (let* input := canonicalObject (OP_Input op) in
   let* refs := canonicalObject (OP_ResourceRefs op) in
   Ok (acc ++ [DObject ([("capability", DString (OP_Capability op)); ("input", DRaw input)] ++
        (match OP_SecretRefs op with [] => [] | l => [("secret_refs", DArray (DString <$> l))] end) ++
        [("resource_refs", DRaw refs)])]))%go.

(** The request is marshalled with an empty idempotency key. *)
Definition changesetRequestDigest (item : AutomationChangeset) : result AErr string :=
  (let* revisions := canonicalRevisions (CS_BaseRevisions item) in
   let* operations := foldM digestOperation (CS_Operations item) [] in
   match marshal (DObject [("reason", DString (CS_Reason item)); ("idempotency_key", DString "");
          ("base_revisions", DRaw revisions); ("auto_apply", DBool (CS_AutoApply item));
          ("operations", DArray operations)]) with
   | None => Err (ErrInvalid "marshal")
   | Some payload => Ok (sha256Hex payload)
   end)%go.

(** Whether the entry of a policy filter admits the operation's references. *)
Definition filterEntryAllows (refs : gmap string string) (e : string * string) : bool :=
  match refs !! e.1 with
  | None => false
  | Some actualRaw =>
      match decodeInts e.2, decodeInts actualRaw with
      | Some allowed, Some actual => forallb (λ v, existsb (Z.eqb v) allowed) actual
      | _, _ => (e.2 =? actualRaw)%string
      end
  end.

Definition approvalFilterAllows (policyFilter operationRefs : string) : bool :=
  if (policyFilter =? "")%string || (policyFilter =? "{}")%string || (policyFilter =? "null")%string then true
  else match decodeRawMap policyFilter, decodeRawMap operationRefs with
  | Some policy, Some refs => forallb (filterEntryAllows refs) (map_range policy)
  | _, _ => false
  end.

(** [sort.Strings] of the keys of the set. *)
Definition blastRadius (operations : list AutomationOperation) : doc :=
  let capabilities := OP_Capability <$> operations in
  let resources := foldl (λ acc op, match objectKeys (OP_ResourceRefs op) with
                                    | Some keys => acc ∪ keys
                                    | None => acc
                                    end) (∅ : gset string) operations in
  DObject [("operation_count", DInt (Z.of_nat (length operations)));
           ("capabilities", DArray (DString <$> sort_strings capabilities));
           ("resource_kinds", DArray (DString <$> sort_strings (elements resources)))].
End pure.

(** ** Atomic steps *)

Definition bump (w : World) : World := {| st := st w; history := history w; tick := S (tick w) |}.
Definition withStore (w : World) (s : Store) : World := {| st := s; history := history w; tick := tick w |}.
Definition record (w : World) (e : event) : World := {| st := st w; history := history w ++ [e]; tick := tick w |}.

Section steps.
Context (E : Env).

(** A value of the environment at the tick of the call. *)
Definition external {R : Type} (f : nat → R) : prog World R :=
  Call (λ w, (f (tick w), bump w)) Ret.

Definition now : prog World Z := external (env_now E).

Definition prefixedID (prefix : string) : prog World (result AErr string) :=
  external (λ t, match env_random E t with
                 | Ok random => Ok (prefix +:+ "_" +:+ random)%string
                 | Err e => Err e
                 end).

(** A statement of the store: it fails without effect, or it is executed; the statement
    reads the clock of the store. *)
Definition db {R : Type} (f : Z → Store → result AErr R * Store) : prog World (result AErr R) :=
  Call (λ w, if env_fails E (tick w) then (Err ErrDB, bump w)
             else let '(r, s) := f (env_now E (tick w)) (st w) in (r, bump (withStore w s))) Ret.

Definition getChangeset (id : string) : prog World (result AErr AutomationChangeset) :=
  db (λ _ s, (GetAutomationChangeset id s, s)).
Definition findChangeset (principalID key : string) : prog World (result AErr AutomationChangeset) :=
  db (λ _ s, (FindAutomationChangesetByIdempotency principalID key s, s)).
Definition createChangeset (item : AutomationChangeset) : prog World (result AErr AutomationChangeset) :=
  db (λ ts s, CreateAutomationChangeset ts item s).
Definition updateChangeset (item : AutomationChangeset) : prog World (result AErr unit) :=
  db (λ ts s, (Ok (), UpdateAutomationChangeset ts item s)).
Definition claimChangeset (id : string) (appliedAt : Z) : prog World (result AErr bool) :=
  db (λ _ s, let '(claimed, s') := ClaimAutomationChangesetApply id appliedAt s in (Ok claimed, s')).
Definition createApproval (a : AutomationApproval) : prog World (result AErr unit) :=
  db (λ _ s, CreateAutomationApproval a s).
Definition updateOperation (op : AutomationOperation) : prog World (result AErr unit) :=
  db (λ _ s, (Ok (), UpdateAutomationOperation op s)).
Definition getOperationRow (id : string) : prog World (result AErr AutomationOperation) :=
  db (λ _ s, (GetAutomationOperation id s, s)).

(** A policy lookup; a policy that is returned goes to the history. *)
Definition getPolicy (principalID capability : string) (at_ : Z) : prog World (result AErr ApprovalPolicy) :=
  Call (λ w, if env_fails E (tick w) then (Err ErrDB, bump w)
             else match GetApprovalPolicy (env_policy E (tick w)) principalID capability at_ with
                  | Ok p => (Ok p, bump (record w (HPolicy principalID capability p)))
                  | Err e => (Err e, bump w)
                  end) Ret.

Definition getPrincipalType (id : string) : prog World (result AErr string) :=
  external (λ t, if env_fails E t then Err ErrDB
                 else match env_principalType E t id with Some ty => Ok ty | None => Err ErrNoRows end).

Definition getServerCreatedAt (id : Z) : prog World (result AErr Z) :=
  external (λ t, if env_fails E t then Err ErrDB
                 else match env_serverCreatedAt E t id with Some at_ => Ok at_ | None => Err ErrNoRows end).

(** The call of a mutation handler. *)
Definition execute (h : MutationHandler) (item : AutomationChangeset) (principal : Principal)
    (op : AutomationOperation) : prog World (result AErr HandlerResult) :=
  Call (λ w, (h (tick w) (CS_BaseRevisions item) principal (OP_Input op),
              bump (record w (HExec (CS_ID item) (OP_Position op))))) Ret.
End steps.

(** ** The service *)

Section service.
Context `{!Codec, !MapRange string string}.
Context (E : Env) (s : Service).

Definition Get (id : string) : prog World (result AErr AutomationChangeset) := getChangeset E id.

Definition authorizedChangeset (principal : Principal) (id : string) : prog World (result AErr AutomationChangeset) :=
  let? item := Get id in
  if negb (CS_PrincipalID item =? P_ID principal)%string &&
     negb (P_Interactive principal && HasManagementAccess (P_Role principal))
  then Ret (Err ErrNoRows) else Ret (Ok item).

Definition GetOperation (principal : Principal) (id : string) : prog World (result AErr AutomationOperation) :=
  let? operation := getOperationRow E (TrimSpace id) in
  let! r := authorizedChangeset principal (OP_ChangesetID operation) in
  match r with
  | Err _ => Ret (Err ErrNoRows)
  | Ok _ => Ret (Ok operation)
  end.

(** One iteration of the loop of [authorizeChangesetResult]. *)
Definition authorizeResultStep (principal : Principal) (readOnly : bool) (op : AutomationOperation) (_ : unit) :
    prog World (result AErr unit) :=
  let unscoped := (P_AccessLevel principal =? "")%string in
  let authorizer := if readOnly && negb unscoped then resultAuthorizer s else replayAuthorizer s in
  if (negb readOnly || unscoped) &&
     bool_decide (AuthorizeCatalog (catalog s) principal (OP_Capability op) = None)
  then Ret (Err (ErrUnauthorized (OP_Capability op)))
  else
    let? _ := match authorizer with
              | Some f => external (λ t, match f t principal op with Some e => Err e | None => Ok () end)
              | None => Ret (if unscoped then Ok () else Err (ErrUnauthorized (OP_Capability op)))
              end in
    if negb unscoped then Ret (Ok ())
    else
      let filter := TrimSpace (P_ResourceFilter principal) in
      if negb (filter =? "")%string && negb (filter =? "{}")%string && negb (filter =? "null")%string then
        match validators s !! OP_Capability op with
        | None => Ret (Err (ErrUnauthorized (OP_Capability op)))
        | Some v =>
            external (λ t, match v t principal (OP_Input op) with
                           | Ok _ => Ok ()
                           | Err _ => Err (ErrUnauthorized (OP_Capability op))
                           end)
        end
      else Ret (Ok ()).

Definition authorizeChangesetResult (principal : Principal) (item : AutomationChangeset) (readOnly : bool) :
    prog World (result AErr unit) :=
  each (authorizeResultStep principal readOnly) (CS_Operations item) ().

Definition replayChangeset (principal : Principal) (existing requested : AutomationChangeset) :
    prog World (result AErr AutomationChangeset) :=
  let? want := Ret (changesetRequestDigest requested) in
  let? got := Ret (changesetRequestDigest existing) in
  if negb (want =? got)%string then Ret (Err ErrIdempotencyConflict)
  else
    let? _ := authorizeChangesetResult principal existing false in
    Ret (Ok existing).

(** *** Create *)

(** The operation of a request, for one [range] iteration of [Create]. *)
Definition createOperation (principal : Principal) (id : string) (requested : OperationRequest)
    (acc : list AutomationOperation * Z) : prog World (result AErr (list AutomationOperation * Z)) :=
  let '(operations, risk) := acc in
  match AuthorizeCatalog (catalog s) principal (OR_Capability requested) with
  | None => Ret (Err (ErrUnauthorized (OR_Capability requested)))
  | Some d =>
      if D_ReadOnly d || negb (D_Executable d) then Ret (Err (ErrUnauthorized (OR_Capability requested)))
      else if bool_decide (validators s !! OR_Capability requested = None) ||
              bool_decide (handlers s !! OR_Capability requested = None)
      then Ret (Err (ErrNotExecutable (OR_Capability requested)))
      else
        let? opID := prefixedID E "op" in
        let? input := Ret (canonicalObject (OR_Input requested)) in
        let refs := if (TrimSpace (OR_ResourceRefs requested) =? "null")%string then ""%string
                    else OR_ResourceRefs requested in
        let? refs := Ret (canonicalObject refs) in
        Ret (Ok (operations ++ [
          {| OP_ID := opID; OP_ChangesetID := id; OP_Position := Z.of_nat (length operations);
             OP_Capability := D_Name d; OP_Input := input; OP_SecretRefs := OR_SecretRefs requested;
             OP_ResourceRefs := refs; OP_RiskClass := D_RiskClass d; OP_Status := "pending"; OP_Result := "{}";
             OP_ErrorCode := ""; OP_ErrorMessage := ""; OP_CreatedAt := None; OP_CompletedAt := None |}],
          if risk <? D_RiskClass d then D_RiskClass d else risk))
  end.

Definition newChangeset (principal : Principal) (id key : string) (request : CreateRequest) (baseRevisions : string)
    (at_ : Z) (operations : list AutomationOperation) (risk : Z) : AutomationChangeset :=
  {| CS_ID := id; CS_PrincipalID := P_ID principal; CS_ActorUserID := P_UserID principal;
     CS_Status := ChangesetDraft; CS_Reason := TrimSpace (CR_Reason request); CS_IdempotencyKey := key;
     CS_BaseRevisions := baseRevisions; CS_PlanHash := ""; CS_RiskClass := risk;
     CS_AutoApply := CR_AutoApply request; CS_Validation := "{}"; CS_BlastRadius := "{}"; CS_Result := "{}";
     CS_ExpiresAt := at_ + 30 * 60 * 1000000000; CS_CreatedAt := None; CS_UpdatedAt := None;
     CS_ValidatedAt := None; CS_ApprovedAt := None; CS_AppliedAt := None; CS_CompletedAt := None;
     CS_Operations := operations |}.

Definition Create (principal : Principal) (request : CreateRequest) : prog World (result AErr AutomationChangeset) :=
  let key := TrimSpace (CR_IdempotencyKey request) in
  if (key =? "")%string || (128 <? Z.of_nat (String.length key))
  then Ret (Err (ErrInvalid "idempotency_key is required and must not exceed 128 characters"))
  else if Nat.eqb (length (CR_Operations request)) 0 || Nat.ltb 64 (length (CR_Operations request))
  then Ret (Err (ErrInvalid "changeset must contain between 1 and 64 operations"))
  else
    let? id := prefixedID E "chg" in
    let! at_ := now E in
    let? baseRevisions := Ret (canonicalRevisions (CR_BaseRevisions request)) in
    let? built := each (createOperation principal id) (CR_Operations request) ([], 0) in
    let item := newChangeset principal id key request baseRevisions at_ built.1 built.2 in
    let! found := findChangeset E (P_ID principal) key in
    match found with
    | Ok existing => replayChangeset principal existing item
    | Err ErrNoRows =>
        let! created := createChangeset E item in
        match created with
        | Ok created => Ret (Ok created)
        | Err e =>
            let! found := findChangeset E (P_ID principal) key in
            match found with
            | Ok existing => replayChangeset principal existing item
            | Err _ => Ret (Err e)
            end
        end
    | Err e => Ret (Err e)
    end.

(** *** Validation *)

(** A reference to a server must not be to one created after the changeset. *)
Definition checkServerRef (createdAt : Z) (ref : ResourceRef) (_ : unit) : prog World (result AErr unit) :=
  if negb (Ref_Type ref =? "server")%string then Ret (Ok ())
  else match ParseInt (Ref_ID ref) with
  | None => Ret (Err (ErrInvalid "server id"))
  | Some id =>
      let! r := getServerCreatedAt E id in
      match r with
      | Ok serverCreatedAt => Ret (if createdAt <? serverCreatedAt then Err (ErrServerReplaced id) else Ok ())
      | Err ErrNoRows => Ret (Ok ())
      | Err e => Ret (Err e)
      end
  end.

(** [current[key] = revision] unless the key has another revision already. *)
Definition mergeRevision (e : string * string) (current : gmap string string) : result AErr (gmap string string) :=
  match current !! e.1 with
  | Some existing => if negb (existing =? e.2)%string then Err (ErrRevision e.1) else Ok (<[e.1 := e.2]> current)
  | None => Ok (<[e.1 := e.2]> current)
  end.

Definition inspectOperation (principal : Principal) (item : AutomationChangeset) (operation : AutomationOperation)
    (acc : list doc * gmap string string) : prog World (result AErr (list doc * gmap string string)) :=
  let '(evidence, current) := acc in
  let capability := OP_Capability operation in
  match AuthorizeCatalog (catalog s) principal capability with
  | None => Ret (Err (ErrUnauthorized capability))
  | Some d =>
      if D_ReadOnly d || negb (D_Executable d) || negb (D_RiskClass d =? OP_RiskClass operation)
      then Ret (Err (ErrUnauthorized capability))
      else
        let? _ := match CS_CreatedAt item, D_ResolveResourceRefs d with
                  | Some createdAt, Some resolveRefs =>
                      match resolveRefs (OP_Input operation) with
                      | Err message => Ret (Err (ErrInvalid message))
                      | Ok refs => each (checkServerRef createdAt) refs ()
                      end
                  | _, _ => Ret (Ok ())
                  end in
        match validators s !! capability, handlers s !! capability with
        | Some validate, Some _ =>
            let? validated := external (λ t, validate t principal (OP_Input operation)) in
            let? current := match revisionResolvers s !! capability with
                            | Some resolve =>
                                let? resolved := external (λ t, resolve t principal (OP_Input operation)) in
                                Ret (foldM mergeRevision (map_range resolved) current)
                            | None => Ret (Ok current)
                            end in
            Ret (Ok (evidence ++ [DObject [("operation_id", DString (OP_ID operation));
                                           ("capability", DString capability); ("evidence", validated)]], current))
        | _, _ => Ret (Err (ErrNotExecutable capability))
        end
  end.

Definition inspectOperations (principal : Principal) (item : AutomationChangeset) :
    prog World (result AErr (list doc * gmap string string)) :=
  each (inspectOperation principal item) (CS_Operations item) ([], ∅).

Definition validateOperations (principal : Principal) (item : AutomationChangeset) : prog World (result AErr (list doc)) :=
  let? expected := Ret (decodeRevisions (CS_BaseRevisions item)) in
  let? inspected := inspectOperations principal item in
  let? _ := Ret (compareRevisions expected inspected.2) in
  Ret (Ok inspected.1).

(** One iteration of [policiesAllowAutomatic]; the accumulator is [automatic]. *)
Definition policyStep (item : AutomationChangeset) (oauthPrincipal : bool) (operation : AutomationOperation)
    (automatic : bool) : prog World (result AErr bool) :=
  let! at_ := now E in
  let! found := getPolicy E (CS_PrincipalID item) (OP_Capability operation) at_ in
  match found with
  | Err ErrNoRows => Ret (Ok false)
  | Err e => Ret (Err e)
  | Ok policy =>
      if (PO_Mode policy =? ApprovalDenied)%string then Ret (Err (ErrPolicyDenied (OP_Capability operation)))
      else if negb (PO_Mode policy =? ApprovalAutomatic)%string ||
              (4 <=? OP_RiskClass operation) && (oauthPrincipal || negb (PO_AllowRisk4 policy))
      then Ret (Ok false)
      else if negb (approvalFilterAllows (PO_ResourceFilter policy) (OP_ResourceRefs operation))
      then Ret (Ok false)
      else Ret (Ok automatic)
  end.

Definition policiesAllowAutomatic (item : AutomationChangeset) (oauthPrincipal : bool) : prog World (result AErr bool) :=
  each (policyStep item oauthPrincipal) (CS_Operations item) true.

Definition automaticAllowed (principal : Principal) (item : AutomationChangeset) : prog World (result AErr bool) :=
  if P_Interactive principal then policiesAllowAutomatic item false
  else
    let? ty := getPrincipalType E (CS_PrincipalID item) in
    policiesAllowAutomatic item (ty =? APIPrincipalOAuth)%string.

(** *** Apply *)

Definition failChangeset (item : AutomationChangeset) (cause : AErr) : prog World (result AErr AutomationChangeset) :=
  let! at_ := now E in
  let item := setCompleted ChangesetFailed (mustJSON (DObject [("error", DString (errorText cause))])) at_ item in
  let! _ := updateChangeset E item in
  Ret (Err (ErrApply item cause)).

Definition failOperation (item : AutomationChangeset) (operation : AutomationOperation) (code message : string) :
    prog World (result AErr AutomationChangeset) :=
  let! at_ := now E in
  let operation := setOpOutcome "failed" (OP_Result operation) code message (Some at_) operation in
  let! _ := updateOperation E operation in
  failChangeset item (ErrInvalid message).

Definition publicResult (r : HandlerResult) : doc :=
  match r with Plain v => v | MutationResult public _ => public end.
Definition responseResult (r : HandlerResult) : doc :=
  match r with MutationResult _ (Some once) => once | MutationResult public None => public | Plain v => v end.
Definition hasOneTime (r : HandlerResult) : bool :=
  match r with MutationResult _ (Some _) => true | _ => false end.

(** The loop of [Apply] over the operations that are left; [done] are the operations
    already executed, [results] their results in order.  [op] points into
    [item.Operations], so the returned item carries the updated operations. *)
Fixpoint applyOperations (principal : Principal) (item : AutomationChangeset) (done : list AutomationOperation)
    (results : list HandlerResult) (todo : list AutomationOperation) : prog World (result AErr AutomationChangeset) :=
  match todo with
  | [] =>
      let! completed := now E in
      let item := setCompleted ChangesetSucceeded
        (mustJSON (DObject [("operations", DArray (publicResult <$> results))])) completed (setOperations done item) in
      let? _ := updateChangeset E item in
      Ret (Ok (if existsb hasOneTime results
               then setResult (mustJSON (DObject [("operations", DArray (responseResult <$> results))])) item
               else item))
  | op :: todo =>
      match handlers s !! OP_Capability op with
      | None => failOperation (setOperations (done ++ op :: todo) item) op "capability_unavailable"
                  "capability is not executable in this Controller build"
      | Some handler =>
          let! result := execute handler item principal op in
          let! completed := now E in
          match result with
          | Err applyErr =>
              let op := setOpOutcome "failed" (OP_Result op) "apply_failed" (errorText applyErr) (Some completed) op in
              let! _ := updateOperation E op in
              failChangeset (setOperations (done ++ op :: todo) item) applyErr
          | Ok r =>
              let op := setOpOutcome "succeeded" (mustJSON (publicResult r)) (OP_ErrorCode op) (OP_ErrorMessage op)
                (Some completed) op in
              let! updated := updateOperation E op in
              match updated with
              | Err e => failChangeset (setOperations (done ++ op :: todo) item) e
              | Ok _ => applyOperations principal item (done ++ [op]) (results ++ [r]) todo
              end
          end
      end
  end.

Definition Apply (principal : Principal) (id : string) : prog World (result AErr AutomationChangeset) :=
  let? item := authorizedChangeset principal id in
  if bool_decide (CS_Status item = ChangesetSucceeded) then Ret (Ok item)
  else if negb (bool_decide (CS_Status item = ChangesetApproved))
  then Ret (Err (ErrInvalid "changeset is not approved"))
  else
    let! at_ := now E in
    if CS_ExpiresAt item <=? at_ then
      let item := setStatus ChangesetExpired item in
      let! _ := updateChangeset E item in Ret (Err (ErrExpired item))
    else if negb (match changesetHash item with Ok hash => (hash =? CS_PlanHash item)%string | Err _ => false end) then
      let item := setStatus ChangesetSuperseded item in
      let! _ := updateChangeset E item in Ret (Err (ErrPlanHash item))
    else
      let! validated := validateOperations principal item in
      match validated with
      | Err cause =>
          let item := setStatus ChangesetSuperseded item in
          let! _ := updateChangeset E item in Ret (Err (ErrStale item cause))
      | Ok _ =>
          let? _ := automaticAllowed principal item in
          let! at_ := now E in
          let? claimed := claimChangeset E (CS_ID item) at_ in
          if negb claimed then Ret (Err (ErrInvalid "changeset is already being applied"))
          else applyOperations principal (setApplying at_ item) [] [] (CS_Operations item)
      end.

(** *** Validate and Approve *)

Definition validationDoc (evidence : list doc) (item : AutomationChangeset) : doc :=
  DObject [("valid", DBool true); ("warnings", DArray []);
           ("validated_operations", DInt (Z.of_nat (length (CS_Operations item)))); ("evidence", DArray evidence)].

Definition Validate (principal : Principal) (id : string) : prog World (result AErr AutomationChangeset) :=
  let? item := authorizedChangeset principal id in
  let! at_ := now E in
  if CS_ExpiresAt item <=? at_ then
    let item := setStatus ChangesetExpired item in
    let! _ := updateChangeset E item in Ret (Err (ErrExpired item))
  else if negb (bool_decide (CS_Status item ∈ [ChangesetDraft; ChangesetValidated; ChangesetAwaitingApproval]))
  then Ret (Err (ErrInvalid "changeset cannot be validated in its current state"))
  else
    let? evidence := validateOperations principal item in
    let? planHash := Ret (changesetHash item) in
    let item := setValidation planHash (mustJSON (validationDoc evidence item))
      (mustJSON (blastRadius (CS_Operations item))) at_ item in
    let? automatic := automaticAllowed principal item in
    let item := if automatic then setApproved at_ item else item in
    let? _ := updateChangeset E item in
    if bool_decide (CS_Status item = ChangesetApproved) then Apply principal (CS_ID item)
    else Ret (Ok item).

Definition Approve (principal : Principal) (id comment : string) : prog World (result AErr AutomationChangeset) :=
  match P_Interactive principal, P_UserID principal, (P_Role principal =? RoleAdmin)%string || (P_Role principal =? RoleOperator)%string with
  | true, Some userID, true =>
      let? item := Get id in
      if negb (bool_decide (CS_Status item = ChangesetAwaitingApproval)) || (CS_PlanHash item =? "")%string
      then Ret (Err (ErrInvalid "changeset is not awaiting approval"))
      else if (4 <=? CS_RiskClass item) && negb (HasManagementAccess (P_Role principal))
      then Ret (Err (ErrInvalid "risk class 4 changes require a management role"))
      else
        let? approvalID := prefixedID E "apr" in
        let? _ := createApproval E {| AP_ID := approvalID; AP_ChangesetID := CS_ID item; AP_ApproverID := userID;
          AP_Decision := "approved"; AP_PlanHash := CS_PlanHash item; AP_Comment := TrimSpace comment;
          AP_ApprovedRisk := CS_RiskClass item |} in
        let! at_ := now E in
        let? _ := updateChangeset E (setApproved at_ item) in
        Apply principal id
  | _, _, _ => Ret (Err (ErrInvalid "approval requires an interactive operator session"))
  end.

(** *** Drafts *)

Record DraftValidationResult := {
  DV_PlanHash : string;
  DV_RiskClass : Z;
  DV_ExpectedRevisions : gmap string string;
  DV_Evidence : list doc }.

Definition draftOperation (principal : Principal) (requested : OperationRequest) (acc : list AutomationOperation * Z) :
    result AErr (list AutomationOperation * Z) :=
  let '(operations, risk) := acc in
  match AuthorizeCatalog (catalog s) principal (OR_Capability requested) with
  | None => Err (ErrUnauthorized (OR_Capability requested))
  | Some d =>
      if D_ReadOnly d || negb (D_Executable d) then Err (ErrUnauthorized (OR_Capability requested))
      else if bool_decide (validators s !! OR_Capability requested = None) ||
              bool_decide (handlers s !! OR_Capability requested = None)
      then Err (ErrNotExecutable (OR_Capability requested))
      else match canonicalObject (OR_Input requested) with
      | Err e => Err e
      | Ok input =>
          let position := Z.of_nat (length operations) in
          Ok (operations ++ [
            {| OP_ID := ("draft-" +:+ FormatInt (position + 1))%string; OP_ChangesetID := ""; OP_Position := position;
               OP_Capability := D_Name d; OP_Input := input; OP_SecretRefs := OR_SecretRefs requested;
               OP_ResourceRefs := normalizedObject (OR_ResourceRefs requested); OP_RiskClass := D_RiskClass d;
               OP_Status := "planned"; OP_Result := "{}"; OP_ErrorCode := ""; OP_ErrorMessage := "";
               OP_CreatedAt := None; OP_CompletedAt := None |}],
            if risk <? D_RiskClass d then D_RiskClass d else risk)
      end
  end.

(** The changeset of a draft: only its base revisions, risk and operations are set. *)
Definition draftChangeset (baseRevisions : string) (risk : Z) (operations : list AutomationOperation) :
    AutomationChangeset :=
  {| CS_ID := ""; CS_PrincipalID := ""; CS_ActorUserID := None; CS_Status := ChangesetDraft; CS_Reason := "";
     CS_IdempotencyKey := ""; CS_BaseRevisions := baseRevisions; CS_PlanHash := ""; CS_RiskClass := risk;
     CS_AutoApply := false; CS_Validation := ""; CS_BlastRadius := ""; CS_Result := ""; CS_ExpiresAt := 0;
     CS_CreatedAt := None; CS_UpdatedAt := None; CS_ValidatedAt := None; CS_ApprovedAt := None;
     CS_AppliedAt := None; CS_CompletedAt := None; CS_Operations := operations |}.

Definition ValidateDraft (principal : Principal) (baseRevisions : string) (requests : list OperationRequest) :
    prog World (result AErr DraftValidationResult) :=
  if Nat.eqb (length requests) 0 || Nat.ltb 64 (length requests)
  then Ret (Err (ErrInvalid "desired state must contain between 1 and 64 operations"))
  else
    let? built := Ret (foldM (draftOperation principal) requests ([], 0)) in
    let item := draftChangeset "{}" built.2 built.1 in
    let? inspected := inspectOperations principal item in
    let '(evidence, revisions) := inspected in
    let? _ := if negb (baseRevisions =? "")%string && negb (baseRevisions =? "null")%string &&
                 negb (baseRevisions =? "{}")%string
              then let? expected := Ret (decodeRevisions baseRevisions) in Ret (compareRevisions expected revisions)
              else Ret (Ok ()) in
    let? planHash := Ret (changesetHash (draftChangeset (encodeStringMap revisions) built.2 built.1)) in
    Ret (Ok {| DV_PlanHash := planHash; DV_RiskClass := built.2; DV_ExpectedRevisions := revisions;
               DV_Evidence := evidence |}).
End service.

(** ** Runs of the model *)

(** A codec for the examples: objects are the texts that start with a brace, a revision
    map is written as the bits of its code. *)
Fixpoint bits (p : positive) : string :=
  match p with
  | xH => ""
  | xO p => String "0" (bits p)
  | xI p => String "1" (bits p)
  end.

Fixpoint ofBits (s : string) : option positive :=
  match s with
  | EmptyString => Some xH
  | String "0" s => xO <$> ofBits s
  | String "1" s => xI <$> ofBits s
  | _ => None
  end.

Lemma ofBits_bits p : ofBits (bits p) = Some p.
Proof. induction p as [p IH|p IH|]; simpl; by rewrite ?IH. Qed.

Fixpoint demoText (d : doc) : string :=
  match d with
  | DString s => ("'" +:+ s +:+ "'")%string
  | DInt n => FormatInt n
  | DBool b => if b then "true" else "false"
  | DRaw s => s
  | DArray l => ("[" +:+ foldr (λ x t, demoText x +:+ "," +:+ t)%string "]" l)%string
  | DObject l => ("{" +:+ foldr (λ x t, x.1 +:+ ":" +:+ demoText x.2 +:+ "," +:+ t)%string "}" l)%string
  end.

Definition demoDecode (s : string) : option (gmap string string) :=
  if (s =? "{}")%string then Some ∅
  else match s with
  | String "{" rest => ofBits rest ≫= decode
  | _ => None
  end.

Definition demoCodec : Codec := {|
  reencode s := match s with String "{" _ => Some s | _ => None end;
  decodeStringMap := demoDecode;
  unmarshalStringMap := demoDecode;
  encodeStringMap m := String "{" (bits (encode m));
  decodeRawMap := demoDecode;
  decodeInts _ := None;
  objectKeys _ := Some ∅;
  marshal d := Some (demoText d);
  sha256Hex s := s;
  errorText _ := "error" |}.

Definition demoRange : MapRange string string := map_range_default string string.

#[local] Existing Instances demoCodec demoRange.

Definition demoDescriptor : Descriptor :=
  {| D_Name := "servers.update"; D_RequiredScopes := ["servers:write"]; D_RiskClass := 2; D_ReadOnly := false;
     D_MCPEnabled := true; D_Executable := true; D_MinimumAccess := AccessOperate; D_RBACPermission := "";
     D_ResolveResourceRefs := None; D_PrivilegeClass := ""; D_AdminOnly := false |}.

Definition demoService : Service :=
  {| catalog := NewCatalog [demoDescriptor];
     handlers := {[ "servers.update" := λ _ _ _ _, Ok (MutationResult (DString "stored") (Some (DString "secret"))) ]};
     validators := {[ "servers.update" := λ _ _ _, Ok (DString "valid") ]};
     revisionResolvers := ∅; replayAuthorizer := None; resultAuthorizer := None |}.

Definition demoOperator : Principal :=
  {| P_ID := "user:1"; P_GrantID := ""; P_UserID := Some 1; P_Role := RoleOperator; P_Scopes := ["*"];
     P_ResourceFilter := ""; P_Interactive := true; P_AccessLevel := ""; P_PrivilegedClasses := [] |}.

Definition demoEnv : Env :=
  {| env_now t := Z.of_nat t; env_fails _ := false; env_random t := Ok (FormatInt (Z.of_nat t));
     env_policy _ _ _ := None; env_principalType _ _ := Some "service_account"; env_serverCreatedAt _ _ := None |}.

(** The same environment with an automatic policy for every capability. *)
Definition demoAutoEnv : Env :=
  {| env_now t := Z.of_nat t; env_fails _ := false; env_random t := Ok (FormatInt (Z.of_nat t));
     env_policy _ _ _ := Some {| PO_ResourceFilter := "{}"; PO_Mode := ApprovalAutomatic; PO_AllowRisk4 := false;
                                 PO_ExpiresAt := None |};
     env_principalType _ _ := Some "service_account"; env_serverCreatedAt _ _ := None |}.

(** An environment in which the claim of the approving call of [demoApplied] fails. *)
Definition claimFailsEnv : Env :=
  {| env_now t := Z.of_nat t; env_fails t := Nat.eqb t 22; env_random t := Ok (FormatInt (Z.of_nat t));
     env_policy _ _ _ := None; env_principalType _ _ := Some "service_account"; env_serverCreatedAt _ _ := None |}.

Definition demoRequest : CreateRequest :=
  {| CR_Reason := " rename "; CR_IdempotencyKey := " k1 "; CR_BaseRevisions := ""; CR_AutoApply := false;
     CR_Operations := [{| OR_Capability := "servers.update"; OR_Input := "{}"; OR_SecretRefs := [];
                          OR_ResourceRefs := "" |}] |}.

Definition demoCreated : World := snd (run (Create demoEnv demoService demoOperator demoRequest) initialWorld).
Definition demoValidated : World := snd (run (Validate demoEnv demoService demoOperator "chg_0") demoCreated).
Definition demoApplied : World := snd (run (Approve demoEnv demoService demoOperator "chg_0" "ok") demoValidated).

Example demo_run :
  (CS_Status <$> rows (st demoCreated)) = [ChangesetDraft] ∧
  (CS_Status <$> rows (st demoValidated)) = [ChangesetAwaitingApproval] ∧
  (CS_Status <$> rows (st demoApplied)) = [ChangesetSucceeded] ∧
  history demoApplied = [HExec "chg_0" 0].
Proof. vm_compute. auto. Qed.

Definition execs_count (h : list event) : nat :=
  length (List.filter (λ e, match e with HExec _ _ => true | _ => false end) h).

Example demo_automatic :
  let w := snd (run (Validate demoAutoEnv demoService demoOperator "chg_0") demoCreated) in
  (CS_Status <$> rows (st w)) = [ChangesetSucceeded] ∧ execs_count (history w) = 1%nat.
Proof. vm_compute. auto. Qed.
