(* ===== verification/AutomationSafety.v ===== *)
(** * What the automation service guarantees when its calls run one at a time

    An invariant of the changeset store and of the history of handler calls, kept by
    [Create], [Validate], [Approve] and [Apply] under every environment, and what follows:
    no operation runs without an approval of the stored plan or an automatic policy, no
    operation runs twice, a changeset that left the open states never returns to them. *)

From S2P Require Import Prelude Model NodeKeys Rbac McpAuth Capability ChangesetStore Prog Automation.

Local Open Scope Z_scope.

(** ** Calls and reachable worlds *)

Definition execs (h : list event) : list (string * Z) :=
  omap (λ e, match e with HExec id pos => Some (id, pos) | _ => None end) h.

Definition isPolicy (e : event) : bool :=
  match e with HPolicy _ _ _ => true | HExec _ _ => false end.

(** The states that a changeset does not leave for an open one. *)
Definition closed (s : ChangesetStatus) : bool :=
  match s with
  | ChangesetDraft | ChangesetValidated | ChangesetAwaitingApproval | ChangesetApproved => false
  | _ => true
  end.

Section calls.
Context `{!Codec, !MapRange string string}.

(** One call of a method by some principal, with some registered handlers, under some
    environment. *)
Inductive call_step (w w' : World) : Prop :=
| call_create E s p request r : run (Create E s p request) w = (r, w') → call_step w w'
| call_validate E s p id r : run (Validate E s p id) w = (r, w') → call_step w w'
| call_approve E s p id comment r : run (Approve E s p id comment) w = (r, w') → call_step w w'
| call_apply E s p id r : run (Apply E s p id) w = (r, w') → call_step w w'.

(** The approval that covers a stored plan: an operator's decision on this plan hash, or
    an automatic policy for every operation. *)
Definition approvedByOperator (aps : list AutomationApproval) (row : AutomationChangeset) : Prop :=
  ∃ a, a ∈ aps ∧ AP_ChangesetID a = CS_ID row ∧ AP_Decision a = "approved" ∧ AP_PlanHash a = CS_PlanHash row ∧
       AP_ApprovedRisk a = CS_RiskClass row.

Definition policyCovers (p : ApprovalPolicy) (op : AutomationOperation) : Prop :=
  PO_Mode p = ApprovalAutomatic ∧ (4 ≤ OP_RiskClass op → PO_AllowRisk4 p = true) ∧
  approvalFilterAllows (PO_ResourceFilter p) (OP_ResourceRefs op) = true.

Definition approvedByPolicy (h : list event) (row : AutomationChangeset) : Prop :=
  ∀ op, op ∈ CS_Operations row →
    ∃ p, HPolicy (CS_PrincipalID row) (OP_Capability op) p ∈ h ∧ policyCovers p op.

Definition authorised (w : World) (row : AutomationChangeset) : Prop :=
  approvedByOperator (approvals (st w)) row ∨ approvedByPolicy (history w) row.

(** ** The invariant *)

Record Inv (w : World) : Prop := {
  inv_ids : NoDup (CS_ID <$> rows (st w));
  inv_keys : NoDup ((λ r, (CS_PrincipalID r, CS_IdempotencyKey r)) <$> rows (st w));
  inv_positions : ∀ r, r ∈ rows (st w) → NoDup (OP_Position <$> CS_Operations r);
  inv_approved : ∀ r, r ∈ rows (st w) → CS_Status r = ChangesetApproved → authorised w r;
  inv_exec : ∀ id pos, (id, pos) ∈ execs (history w) →
    ∃ r, r ∈ rows (st w) ∧ CS_ID r = id ∧ closed (CS_Status r) = true ∧ authorised w r ∧
         changesetHash r = Ok (CS_PlanHash r);
  inv_once : NoDup (execs (history w)) }.

(** What no call changes about the plan of a row. *)
Definition planOp (op : AutomationOperation) :=
  (OP_ID op, OP_Position op, OP_Capability op, OP_Input op, OP_SecretRefs op, OP_ResourceRefs op, OP_RiskClass op).

Definition samePlan (r r' : AutomationChangeset) : Prop :=
  CS_ID r' = CS_ID r ∧ CS_PrincipalID r' = CS_PrincipalID r ∧ CS_IdempotencyKey r' = CS_IdempotencyKey r ∧
  CS_BaseRevisions r' = CS_BaseRevisions r ∧ planOp <$> CS_Operations r' = planOp <$> CS_Operations r ∧
  CS_Reason r' = CS_Reason r ∧ CS_AutoApply r' = CS_AutoApply r.

(** A closed row stays closed, with its plan hash and its risk. *)
Definition keepsClosed (r r' : AutomationChangeset) : Prop :=
  closed (CS_Status r) = true →
  closed (CS_Status r') = true ∧ CS_PlanHash r' = CS_PlanHash r ∧ CS_RiskClass r' = CS_RiskClass r.

Definition evolves (w w' : World) : Prop :=
  ∀ r, r ∈ rows (st w) → ∃ r', r' ∈ rows (st w') ∧ samePlan r r' ∧ keepsClosed r r'.

(** Worlds that differ in the tick, and in policies that were looked up. *)
Definition quiet (w w' : World) : Prop :=
  st w' = st w ∧ ∃ evs, history w' = history w ++ evs ∧ forallb isPolicy evs = true.

Global Instance quiet_preorder : PreOrder quiet.
Proof.
  split.
  - intros w. split; [done|]. exists []. by rewrite app_nil_r.
  - intros w1 w2 w3 [H1 (e1 & Hh1 & Hp1)] [H2 (e2 & Hh2 & Hp2)]. split; [congruence|].
    exists (e1 ++ e2). rewrite Hh2, Hh1, forallb_app, Hp1, Hp2, <- app_assoc. done.
Qed.

Global Instance samePlan_equiv : Equivalence samePlan.
Proof.
  split; unfold samePlan.
  - intros r. by split_and!.
  - intros r r' (? & ? & ? & ? & ? & ? & ?). by split_and!.
  - intros r1 r2 r3 (? & ? & ? & ? & ? & ? & ?) (? & ? & ? & ? & ? & ? & ?). split_and!; congruence.
Qed.

Global Instance keepsClosed_preorder : PreOrder keepsClosed.
Proof.
  split; unfold keepsClosed.
  - intros r Hr. by split_and!.
  - intros r1 r2 r3 H1 H2 (H3 & ? & ?)%H1. destruct (H2 H3) as (? & ? & ?). split_and!; congruence.
Qed.

Global Instance evolves_preorder : PreOrder evolves.
Proof.
  split.
  - intros w r Hr. exists r. split; [done|]. split; reflexivity.
  - intros w1 w2 w3 H12 H23 r Hr. destruct (H12 r Hr) as (r2 & Hr2 & Hp2 & Hk2).
    destruct (H23 r2 Hr2) as (r3 & Hr3 & Hp3 & Hk3). exists r3. split; [done|]. split; by etrans.
Qed.

Lemma execs_app h1 h2 : execs (h1 ++ h2) = execs h1 ++ execs h2.
Proof. apply omap_app. Qed.

Lemma execs_policies evs : forallb isPolicy evs = true → execs evs = [].
Proof. induction evs as [|[] evs IH]; simpl; [done|apply IH|done]. Qed.

Lemma planOp_hash (l1 l2 : list AutomationOperation) : planOp <$> l1 = planOp <$> l2 → hashOperation <$> l1 = hashOperation <$> l2.
Proof.
  revert l2; induction l1 as [|x l1 IH]; intros [|y l2]; simpl; intros He; try done.
  injection He as ? ? Hc Hi ? Hr Hk Hl. unfold hashOperation at 1 3.
  rewrite Hc, Hi, Hr, Hk. f_equal. by apply IH.
Qed.

Lemma samePlan_hash r r' : samePlan r r' → changesetHash r' = changesetHash r.
Proof. intros (_ & _ & _ & Hb & Hops%planOp_hash & _). unfold changesetHash. by rewrite Hb, Hops. Qed.

Lemma samePlan_positions r r' :
  samePlan r r' → OP_Position <$> CS_Operations r' = OP_Position <$> CS_Operations r.
Proof.
  intros (_ & _ & _ & _ & Hops & _). apply (f_equal (fmap (λ t, t.1.1.1.1.1.2))) in Hops.
  by rewrite <- !list_fmap_compose in Hops.
Qed.

Lemma samePlan_op r r' op' :
  samePlan r r' → op' ∈ CS_Operations r' → ∃ op, op ∈ CS_Operations r ∧ planOp op = planOp op'.
Proof.
  intros (_ & _ & _ & _ & Hops & _) Hin. apply (list_elem_of_fmap_2 planOp) in Hin. rewrite Hops in Hin.
  apply list_elem_of_fmap in Hin as (op & ? & ?). eauto.
Qed.

(** ** Monotonicity of the authorization *)

Definition grows (w w' : World) : Prop :=
  (∀ a, a ∈ approvals (st w) → a ∈ approvals (st w')) ∧ (∀ e, e ∈ history w → e ∈ history w').

Lemma authorised_mono w w' r r' :
  grows w w' → samePlan r r' → CS_PlanHash r' = CS_PlanHash r → CS_RiskClass r' = CS_RiskClass r →
  authorised w r → authorised w' r'.
Proof.
  intros [Hap Hhi] Hp Hhash Hrisk [(a & Ha & Hid & Hd & Hh & Hr)|Hpol].
  - left. exists a. destruct Hp as (Hid' & _). split_and!; try congruence. auto.
  - right. intros op' Hop'. destruct (samePlan_op _ _ _ Hp Hop') as (op & Hop & Heq).
    destruct (Hpol op Hop) as (p & Hin & Hm & Hrk & Hf). injection Heq as ? ? Hc ? ? Hrefs Hri.
    exists p. destruct Hp as (_ & -> & _). rewrite <- Hc. split; [by apply Hhi|].
    unfold policyCovers. rewrite <- Hrefs, <- Hri. done.
Qed.

Lemma authorised_grows w w' r : grows w w' → authorised w r → authorised w' r.
Proof. intros Hg. by apply authorised_mono. Qed.

Lemma quiet_grows w w' : quiet w w' → grows w w'.
Proof. intros [Hs (evs & Hh & _)]. split; [by rewrite Hs|]. rewrite Hh. intros e He. apply elem_of_app. by left. Qed.

Lemma quiet_execs w w' : quiet w w' → execs (history w') = execs (history w).
Proof. intros [_ (evs & -> & Hp)]. rewrite execs_app, (execs_policies evs Hp). apply app_nil_r. Qed.

Lemma quiet_evolves w w' : quiet w w' → evolves w w'.
Proof. intros [Hs _] r Hr. exists r. rewrite Hs. split; [done|]. split; reflexivity. Qed.

Lemma quiet_Inv w w' : quiet w w' → Inv w → Inv w'.
Proof.
  intros Hq [H1 H2 H3 H4 H5 H6]. pose proof (quiet_grows _ _ Hq) as Hg. pose proof (quiet_execs _ _ Hq) as He.
  destruct Hq as [Hs _]. split; rewrite ?Hs, ?He; auto.
  - intros r Hr Ha. apply (authorised_grows w); auto.
  - intros id pos Hin. destruct (H5 id pos Hin) as (r & ? & ? & ? & ? & ?). exists r.
    split_and!; auto. by apply (authorised_grows w).
Qed.

(** ** Statements that rewrite rows *)

(** Every row is rewritten by a function that keeps its plan and its closedness, and an
    approved row it produces is authorised. *)
Lemma rewrite_Inv w w' f :
  rows (st w') = f <$> rows (st w) → approvals (st w') = approvals (st w) →
  history w' = history w → Inv w →
  (∀ r, r ∈ rows (st w) → samePlan r (f r) ∧ keepsClosed r (f r) ∧
        (CS_Status (f r) = ChangesetApproved → authorised w (f r))) →
  Inv w' ∧ evolves w w'.
Proof.
  intros Hrows Haps Hhist [H1 H2 H3 H4 H5 H6] Hf.
  assert (grows w w') as Hg by (split; by rewrite ?Haps, ?Hhist).
  assert (evolves w w') as Hev.
  { intros r Hr. exists (f r). rewrite Hrows. destruct (Hf r Hr) as (? & ? & _). split; [|done].
    by apply list_elem_of_fmap_2. }
  split; [|done]. split; rewrite ?Hrows, ?Hhist; auto.
  - rewrite <- list_fmap_compose. erewrite list_fmap_ext; [exact H1|]. intros i r Hr%list_elem_of_lookup_2. simpl.
    by destruct (Hf r Hr) as ((? & _) & _).
  - rewrite <- list_fmap_compose. erewrite list_fmap_ext; [exact H2|]. intros i r Hr%list_elem_of_lookup_2. simpl.
    destruct (Hf r Hr) as ((? & ? & ? & _) & _). congruence.
  - intros r' (r & -> & Hr)%list_elem_of_fmap. destruct (Hf r Hr) as (Hp & _).
    rewrite (samePlan_positions _ _ Hp). by apply H3.
  - intros r' (r & -> & Hr)%list_elem_of_fmap Ha. destruct (Hf r Hr) as (Hp & _ & Hau). specialize (Hau Ha).
    by apply (authorised_grows w).
  - intros id pos Hin. destruct (H5 id pos Hin) as (r & Hr & Hid & Hc & Hau & Hh).
    destruct (Hf r Hr) as (Hp & Hk & _). destruct (Hk Hc) as (Hc' & Hph & Hrk). exists (f r).
    split_and!; [by apply list_elem_of_fmap_2|by rewrite (proj1 Hp)|done| |].
    + eapply authorised_mono; eauto.
    + by rewrite (samePlan_hash _ _ Hp), Hph.
Qed.

Lemma row_unique w r1 r2 : Inv w → r1 ∈ rows (st w) → r2 ∈ rows (st w) → CS_ID r1 = CS_ID r2 → r1 = r2.
Proof. intros HI. apply NoDup_fmap_key, HI. Qed.

(** What a statement of the store does to the world. *)
Lemma db_run {R} E (f : Z → Store → result AErr R * Store) w r w' :
  run (db E f) w = (r, w') →
  history w' = history w ∧
  ((r = Err ErrDB ∧ st w' = st w) ∨ ∃ ts, (r, st w') = f ts (st w)).
Proof.
  unfold db. simpl. destruct (env_fails E (tick w)); simpl.
  - intros [= <- <-]. simpl. auto.
  - destruct (f (env_now E (tick w)) (st w)) as [r1 s1] eqn:Hf. intros [= <- <-]. simpl.
    split; [done|]. right. by exists (env_now E (tick w)).
Qed.

Lemma same_quiet w w' : history w' = history w → st w' = st w → quiet w w'.
Proof. intros Hh Hs. split; [done|]. exists []. by rewrite app_nil_r. Qed.

Lemma quiet_good w w' : quiet w w' → Inv w → Inv w' ∧ evolves w w'.
Proof. split; [by eapply quiet_Inv|by apply quiet_evolves]. Qed.

Lemma good_trans w1 w2 w3 : evolves w1 w2 → Inv w3 ∧ evolves w2 w3 → Inv w3 ∧ evolves w1 w3.
Proof. intros H12 [HI H23]. split; [done|by etrans]. Qed.

Lemma update_good E item row w r w' :
  run (updateChangeset E item) w = (r, w') →
  Inv w → row ∈ rows (st w) → CS_ID item = CS_ID row → CS_AutoApply item = CS_AutoApply row → keepsClosed row item →
  (CS_Status item = ChangesetApproved → ∀ ts, authorised w (updatedRow ts item row)) →
  (Inv w' ∧ evolves w w') ∧ approvals (st w') = approvals (st w) ∧ history w' = history w ∧
  (r = Ok () → ∃ ts, updatedRow ts item row ∈ rows (st w')).
Proof.
  intros Hrun HI Hrow Hid Hautoapply Hclosed Hauth.
  apply db_run in Hrun as [Hh [[-> Hs]|[ts Hts]]].
  { split; [apply quiet_good; [by apply same_quiet|done]|]. by rewrite Hs. }
  injection Hts as -> Hs.
  split; [|rewrite Hs; split_and!; try done].
  - eapply rewrite_Inv; [by rewrite Hs|by rewrite Hs|done|done|]. intros r' Hr'. simpl.
    destruct (CS_ID r' =? CS_ID item)%string eqn:Heq.
    + apply String.eqb_eq in Heq. assert (r' = row) as -> by (apply (row_unique w); auto; congruence).
      split; [by split_and!|]. split; [exact Hclosed|]. auto.
    + split; [reflexivity|]. split; [reflexivity|]. by apply inv_approved.
  - intros _. exists ts. simpl. apply list_elem_of_fmap. exists row. split; [|done].
    by rewrite Hid, String.eqb_refl.
Qed.

Lemma claim_good E id at_ w r w' :
  run (claimChangeset E id at_) w = (r, w') → Inv w →
  (Inv w' ∧ evolves w w') ∧ approvals (st w') = approvals (st w) ∧ history w' = history w ∧
  (r = Ok true → ∃ row, row ∈ rows (st w) ∧ CS_ID row = id ∧ CS_Status row = ChangesetApproved ∧
                        claimedRow at_ row ∈ rows (st w')).
Proof.
  intros Hrun HI. apply db_run in Hrun as [Hh [[-> Hs]|[ts Hts]]].
  { split; [apply quiet_good; [by apply same_quiet|done]|]. by rewrite Hs. }
  injection Hts as -> Hs.
  split; [|rewrite Hs; split_and!; try done].
  - eapply rewrite_Inv; [by rewrite Hs|by rewrite Hs|done|done|]. intros row Hrow. simpl.
    destruct (claimable id row) eqn:Hc.
    + unfold claimable in Hc. bprop. split; [by split_and!|]. unfold keepsClosed.
      split; [|done]. by rewrite H1.
    + split; [reflexivity|]. split; [reflexivity|]. by apply inv_approved.
  - intros [= Hl]. apply Nat.eqb_eq in Hl.
    destruct (List.filter (claimable id) (rows (st w))) as [|row [|]] eqn:Hfl; simpl in Hl; try lia.
    assert (In row (List.filter (claimable id) (rows (st w)))) as [Hin Hc]%filter_In by (rewrite Hfl; by left).
    exists row. simpl. pose proof Hc as Hc2. unfold claimable in Hc. bprop. apply String.eqb_eq in H0.
    apply list_elem_of_In in Hin. split_and!; try done. apply list_elem_of_fmap. exists row. by rewrite Hc2.
Qed.

Lemma updatedOperation_plan op row : planOp (updatedOperation op row) = planOp row.
Proof. unfold updatedOperation. by destruct (_ =? _)%string. Qed.

Lemma setOperations_plan op row : samePlan row (setOperations (updatedOperation op <$> CS_Operations row) row).
Proof.
  split_and!; try done. simpl. rewrite <- list_fmap_compose. apply list_fmap_ext. intros i r _.
  apply updatedOperation_plan.
Qed.

Lemma updateOperation_good E op w r w' :
  run (updateOperation E op) w = (r, w') → Inv w →
  (Inv w' ∧ evolves w w') ∧ approvals (st w') = approvals (st w) ∧ history w' = history w.
Proof.
  intros Hrun HI. apply db_run in Hrun as [Hh [[-> Hs]|[ts Hts]]].
  { split; [apply quiet_good; [by apply same_quiet|done]|]. by rewrite Hs. }
  injection Hts as -> Hs.
  split; [|by rewrite Hs]. eapply rewrite_Inv; [by rewrite Hs|by rewrite Hs|done|done|].
  intros row Hrow. pose proof (setOperations_plan op row) as Hp. split; [done|]. split; [done|].
  intros Ha. apply (authorised_mono w w row); auto; [by split|]. by apply inv_approved.
Qed.

(** The call of a handler, for a claimed changeset and a position not executed yet. *)
Lemma execute_good h item p op row w r w' :
  run (execute h item p op) w = (r, w') → Inv w →
  row ∈ rows (st w) → CS_ID row = CS_ID item → closed (CS_Status row) = true → authorised w row →
  changesetHash row = Ok (CS_PlanHash row) → (CS_ID item, OP_Position op) ∉ execs (history w) →
  (Inv w' ∧ evolves w w') ∧ st w' = st w ∧ history w' = history w ++ [HExec (CS_ID item) (OP_Position op)].
Proof.
  intros [= <- <-] HI Hrow Hid Hc Hau Hh Hn. simpl. split; [|done].
  assert (grows w (bump (record w (HExec (CS_ID item) (OP_Position op))))) as Hg.
  { split; [done|]. simpl. intros e He. apply elem_of_app. by left. }
  split; [|intros x Hx; exists x; split; [done|split; reflexivity]].
  destruct HI as [H1 H2 H3 H4 H5 H6]. split; simpl; auto.
  - intros x Hx Ha. apply (authorised_grows w); auto.
  - intros id pos. rewrite execs_app, elem_of_app. simpl. intros [Hin|Hin%list_elem_of_singleton].
    + destruct (H5 id pos Hin) as (x & ? & ? & ? & ? & ?). exists x. split_and!; auto.
      apply (authorised_grows w); auto.
    + simplify_eq. exists row. split_and!; auto. apply (authorised_grows w); auto.
  - rewrite execs_app. simpl. apply NoDup_app. split_and!; [done| |apply NoDup_singleton].
    intros x Hx ->%list_elem_of_singleton. done.
Qed.

(** ** Programs that only read *)

Lemma external_quiet {R} (f : nat → R) : steps_in quiet (external f).
Proof. simpl. intros w r w' [= <- <-]. split; [|done]. by apply same_quiet. Qed.

Lemma db_read_quiet {R} E (f : Store → result AErr R) : steps_in quiet (db E (λ _ s, (f s, s))).
Proof.
  simpl. intros w r w' Hc. split; [|done]. destruct (env_fails E (tick w)); injection Hc as <- <-; by apply same_quiet.
Qed.

Lemma getPolicy_quiet E pid cap at_ : steps_in quiet (getPolicy E pid cap at_).
Proof.
  simpl. intros w r w' Hc. split; [|done]. destruct (env_fails E (tick w)); [injection Hc as <- <-; by apply same_quiet|].
  destruct (GetApprovalPolicy _ _ _ _); injection Hc as <- <-; [|by apply same_quiet].
  split; [done|]. by exists [HPolicy pid cap a].
Qed.

(** Walk through a program and discharge its steps with the lemmas above. *)
Ltac quiet_walk :=
  repeat match goal with
  | |- steps_in _ (Ret _) => exact I
  | |- steps_in quiet (external _) => apply external_quiet
  | |- steps_in quiet (now _) => apply external_quiet
  | |- steps_in quiet (prefixedID _ _) => apply external_quiet
  | |- steps_in quiet (getPrincipalType _ _) => apply external_quiet
  | |- steps_in quiet (getServerCreatedAt _ _) => apply external_quiet
  | |- steps_in quiet (getPolicy _ _ _ _) => apply getPolicy_quiet
  | |- steps_in quiet (Get _ _) => apply db_read_quiet
  | |- steps_in quiet (getChangeset _ _) => apply db_read_quiet
  | |- steps_in quiet (findChangeset _ _ _) => apply db_read_quiet
  | |- steps_in quiet (getOperationRow _ _) => apply db_read_quiet
  | |- steps_in _ (bind _ _) => apply steps_in_bind; [|intros ?]
  | |- steps_in _ (try _ _) => apply steps_in_try; [|intros ?]
  | |- steps_in _ (each _ _ _) => apply steps_in_each; intros ? ?
  | |- steps_in _ (match ?x with _ => _ end) => destruct x
  end.

Lemma authorizedChangeset_quiet E p id : steps_in quiet (authorizedChangeset E p id).
Proof. unfold authorizedChangeset. quiet_walk. Qed.

Lemma inspectOperations_quiet E s p item : steps_in quiet (inspectOperations E s p item).
Proof.
  unfold inspectOperations. apply steps_in_each. intros op [ev cur]. unfold inspectOperation, checkServerRef.
  quiet_walk.
Qed.

Lemma validateOperations_quiet E s p item : steps_in quiet (validateOperations E s p item).
Proof. unfold validateOperations. quiet_walk. apply inspectOperations_quiet. Qed.

Lemma policiesAllowAutomatic_quiet E item oauth : steps_in quiet (policiesAllowAutomatic E item oauth).
Proof. unfold policiesAllowAutomatic. apply steps_in_each. intros op a. unfold policyStep. quiet_walk. Qed.

Lemma automaticAllowed_quiet E p item : steps_in quiet (automaticAllowed E p item).
Proof. unfold automaticAllowed. quiet_walk; apply policiesAllowAutomatic_quiet. Qed.

Lemma authorizeChangesetResult_quiet s p item ro : steps_in quiet (authorizeChangesetResult s p item ro).
Proof. unfold authorizeChangesetResult. apply steps_in_each. intros op []. unfold authorizeResultStep. quiet_walk. Qed.

Lemma replayChangeset_quiet s p existing requested : steps_in quiet (replayChangeset s p existing requested).
Proof. unfold replayChangeset. quiet_walk. by apply authorizeChangesetResult_quiet. Qed.

Lemma createOperation_quiet E s p id o acc : steps_in quiet (createOperation E s p id o acc).
Proof. unfold createOperation. destruct acc. quiet_walk. Qed.

Lemma quiet_run {A} (p : prog World A) w a w' : steps_in quiet p → run p w = (a, w') → quiet w w'.
Proof. apply run_steps_in, _. Qed.

(** [authorizedChangeset] returns a stored row with the given key. *)
Lemma Get_found E id w item w' :
  run (Get E id) w = (Ok item, w') → quiet w w' ∧ item ∈ rows (st w) ∧ CS_ID item = id.
Proof.
  intros Hrun. split; [eapply quiet_run; [|done]; apply db_read_quiet|].
  unfold Get, getChangeset in Hrun. apply db_run in Hrun as [_ [[? _]|[ts Hts]]]; [done|]. injection Hts as Hg _.
  unfold GetAutomationChangeset in Hg. destruct (List.find _ _) as [row|] eqn:Hf; [|done]. simplify_eq.
  apply find_some in Hf as [Hin He]. apply String.eqb_eq in He. split; [by apply list_elem_of_In|done].
Qed.

Definition mayAccess (p : Principal) (item : AutomationChangeset) : Prop :=
  CS_PrincipalID item = P_ID p ∨ (P_Interactive p = true ∧ HasManagementAccess (P_Role p) = true).

Lemma authorizedChangeset_found E p id w item w' :
  run (authorizedChangeset E p id) w = (Ok item, w') →
  quiet w w' ∧ item ∈ rows (st w) ∧ CS_ID item = id ∧ mayAccess p item.
Proof.
  unfold authorizedChangeset. rewrite run_try. destruct (run (Get E id) w) as [[i|e] w1] eqn:Hg; [|done].
  apply Get_found in Hg as (Hq & Hin & Hid). destruct (_ && _) eqn:Hc; simpl; [done|]. intros [= <- <-].
  split_and!; try done. unfold mayAccess. apply andb_false_iff in Hc as [Hc|Hc]; bprop.
  - left. by apply String.eqb_eq.
  - right. by split.
Qed.

(** ** Execution of a claimed changeset *)

(** The stored row of a changeset that a call has claimed. *)
Definition owner (w : World) (item : AutomationChangeset) : Prop :=
  ∃ row, row ∈ rows (st w) ∧ CS_ID row = CS_ID item ∧ closed (CS_Status row) = true ∧ authorised w row ∧
    changesetHash row = Ok (CS_PlanHash row) ∧ CS_PlanHash row = CS_PlanHash item ∧
    CS_RiskClass row = CS_RiskClass item ∧ CS_AutoApply row = CS_AutoApply item.

Lemma owner_step w w' item : evolves w w' → grows w w' → owner w item → owner w' item.
Proof.
  intros Hev Hg (row & Hin & Hid & Hc & Hau & Hh & Hph & Hrk & Haa).
  destruct (Hev row Hin) as (row' & Hin' & Hp & Hk). destruct (Hk Hc) as (Hc' & Hph' & Hrk').
  exists row'. split_and!; try done.
  - by rewrite (proj1 Hp).
  - by apply (authorised_mono w w' row).
  - by rewrite (samePlan_hash _ _ Hp), Hph'.
  - congruence.
  - congruence.
  - destruct Hp as (_ & _ & _ & _ & _ & _ & ?). congruence.
Qed.

Lemma same_grows w w' : approvals (st w') = approvals (st w) → history w' = history w → grows w w'.
Proof. intros Ha Hh. split; by rewrite ?Ha, ?Hh. Qed.

(** Writing a closed status for an owned changeset. *)
Lemma close_good E item w r w' :
  run (updateChangeset E item) w = (r, w') → Inv w → owner w item → closed (CS_Status item) = true →
  Inv w' ∧ evolves w w'.
Proof.
  intros Hrun HI (row & Hin & Hid & Hc & Hau & Hh & Hph & Hrk & Haa) Hcl.
  eapply update_good; [done|done|done|done|done|by intros _|]. intros Ha. by rewrite Ha in Hcl.
Qed.

Lemma failChangeset_good E item cause w r w' :
  run (failChangeset E item cause) w = (r, w') → Inv w → owner w item → Inv w' ∧ evolves w w'.
Proof.
  unfold failChangeset. rewrite run_bind. destruct (run (now E) w) as [t w1] eqn:Ht. rewrite run_bind.
  destruct (run (updateChangeset _ _) w1) as [u w2] eqn:Hu. intros [= <- <-] HI Ho.
  pose proof (quiet_run _ _ _ _ (external_quiet _) Ht) as Hq.
  destruct (quiet_good _ _ Hq HI) as [HI1 Hev1].
  edestruct close_good as [HI2 Hev2]; [exact Hu|done|by eapply owner_step, Ho; [done|apply quiet_grows]|done|].
  split; [done|by etrans].
Qed.

Lemma failOperation_good E item op code message w r w' :
  run (failOperation E item op code message) w = (r, w') → Inv w → owner w item → Inv w' ∧ evolves w w'.
Proof.
  unfold failOperation. rewrite run_bind. destruct (run (now E) w) as [t w1] eqn:Ht. rewrite run_bind.
  destruct (run (updateOperation _ _) w1) as [u w2] eqn:Hu. intros Hf HI Ho.
  pose proof (quiet_run _ _ _ _ (external_quiet _) Ht) as Hq.
  destruct (quiet_good _ _ Hq HI) as [HI1 Hev1].
  apply updateOperation_good in Hu as ([HI2 Hev2] & Ha & Hh); [|done].
  apply failChangeset_good in Hf as [HI3 Hev3]; [|done|].
  - split; [done|]. by do 2 (etrans; [done|]).
  - eapply owner_step; [exact Hev2|by apply same_grows|]. by eapply owner_step, Ho; [|apply quiet_grows].
Qed.

(** Only operations that were executed by this call are in the history. *)
Definition executedOnly (w : World) (id : string) (done : list AutomationOperation) : Prop :=
  ∀ pos, (id, pos) ∈ execs (history w) → pos ∈ OP_Position <$> done.

Lemma executedOnly_same w w' id done :
  execs (history w') = execs (history w) → executedOnly w id done → executedOnly w' id done.
Proof. intros He Hx pos. rewrite He. apply Hx. Qed.

Lemma applyOperations_good E s p item done results todo w r w' :
  run (applyOperations E s p item done results todo) w = (r, w') →
  Inv w → owner w item → NoDup (OP_Position <$> done ++ todo) → executedOnly w (CS_ID item) done →
  Inv w' ∧ evolves w w'.
Proof.
  revert done results w. induction todo as [|op todo IH]; intros done results w; cbn [applyOperations].
  - rewrite run_bind. destruct (run (now E) w) as [t w1] eqn:Ht. rewrite run_try.
    destruct (run (updateChangeset _ _) w1) as [u w2] eqn:Hu. intros Hr HI Ho _ _.
    assert (w' = w2) as -> by (destruct u; simpl in Hr; congruence).
    pose proof (quiet_run _ _ _ _ (external_quiet _) Ht) as Hq. destruct (quiet_good _ _ Hq HI) as [HI1 Hev1].
    edestruct close_good as [HI2 Hev2]; [exact Hu|done|by eapply owner_step, Ho; [|apply quiet_grows]|done|].
    split; [done|by etrans].
  - destruct (handlers s !! OP_Capability op) as [h|]; [|intros Hf HI Ho _ _; by eapply failOperation_good].
    rewrite run_bind. destruct (run (execute _ _ _ _) w) as [res w1] eqn:Hx. rewrite run_bind.
    destruct (run (now E) w1) as [t w2] eqn:Ht. intros Hr HI Ho Hnd Hex.
    assert (OP_Position op ∉ OP_Position <$> done) as Hfresh.
    { rewrite fmap_app, fmap_cons in Hnd. apply NoDup_app in Hnd as (_ & Hd & _). intros Hin. by apply (Hd _ Hin); left. }
    destruct Ho as (row & Ho). pose proof Ho as (Hrow & Hid & Hc & Hau & Hh & Hph & Hrk & Haa).
    destruct (execute_good _ _ _ _ row _ _ _ Hx HI) as ([HI1 Hev1] & Hst & Hhist); try done.
    { intros Hin. by apply Hfresh, Hex. }
    assert (owner w1 item) as Ho1.
    { apply (owner_step w); [done| |by exists row]. split; [by rewrite Hst|]. rewrite Hhist. intros e He.
      apply elem_of_app. by left. }
    pose proof (quiet_run _ _ _ _ (external_quiet _) Ht) as Hq. destruct (quiet_good _ _ Hq HI1) as [HI2 Hev2].
    assert (owner w2 item) as Ho2 by (by eapply owner_step, Ho1; [|apply quiet_grows]).
    assert (executedOnly w2 (CS_ID item) (done ++ [op])) as Hex2.
    { intros pos. rewrite (quiet_execs _ _ Hq), Hhist, execs_app, elem_of_app. simpl.
      rewrite fmap_app, elem_of_app. intros [Hin|Hin]; [left; by apply Hex|right].
      apply list_elem_of_singleton in Hin. simplify_eq. simpl. by left. }
    destruct res as [v|e]; rewrite run_bind in Hr; destruct (run (updateOperation _ _) w2) as [u w3] eqn:Hu;
      (apply updateOperation_good in Hu as ([HI3 Hev3] & Ha & Hh3); [|done]);
      assert (owner w3 item) as Ho3 by (eapply owner_step, Ho2; [done|by apply same_grows]).
    + destruct u as [|ue].
      * apply IH in Hr as [HI4 Hev4]; [|done|done| |].
        -- split; [done|]. by do 3 (etrans; [done|]).
        -- rewrite <- app_assoc. rewrite fmap_app in Hnd |- *. exact Hnd.
        -- eapply executedOnly_same; [by rewrite Hh3|]. intros pos Hpos%Hex2. rewrite fmap_app in Hpos |- *. exact Hpos.
      * apply failChangeset_good in Hr as [HI4 Hev4]; [|done|done]. split; [done|]. by do 3 (etrans; [done|]).
    + apply failChangeset_good in Hr as [HI4 Hev4]; [|done|done]. split; [done|]. by do 3 (etrans; [done|]).
Qed.

(** ** Automatic approval *)

Lemma getPolicy_found E pid cap at_ w p w' :
  run (getPolicy E pid cap at_) w = (Ok p, w') → HPolicy pid cap p ∈ history w'.
Proof.
  simpl. destruct (env_fails E (tick w)); [done|]. destruct (GetApprovalPolicy _ _ _ _); [|done].
  simpl. intros [= <- <-]. simpl. apply elem_of_app. right. by left.
Qed.

Lemma policyStep_true E item oauth op a w w' :
  run (policyStep E item oauth op a) w = (Ok true, w') →
  a = true ∧ ∃ p, HPolicy (CS_PrincipalID item) (OP_Capability op) p ∈ history w' ∧ policyCovers p op.
Proof.
  unfold policyStep. rewrite run_bind. destruct (run (now E) w) as [t w1]. rewrite run_bind.
  destruct (run (getPolicy _ _ _ _) w1) as [[p|e] w2] eqn:Hp; [|destruct e; simpl; congruence].
  apply getPolicy_found in Hp.
  destruct (PO_Mode p =? ApprovalDenied)%string; [simpl; congruence|].
  destruct (_ || _) eqn:Hm; [simpl; congruence|].
  destruct (negb (approvalFilterAllows _ _)) eqn:Hf; [simpl; congruence|]. simpl. intros [= -> <-].
  split; [done|]. exists p. split; [done|]. bprop. unfold policyCovers. split_and!; [|intros Hr|done].
  - by apply String.eqb_eq.
  - apply andb_false_iff in H1 as [H1|H1]; bprop; [lia|]. done.
Qed.

Lemma policiesAllowAutomatic_true E item oauth w w' :
  run (policiesAllowAutomatic E item oauth) w = (Ok true, w') → approvedByPolicy (history w') item.
Proof.
  unfold policiesAllowAutomatic, approvedByPolicy. generalize true at 1 as a. generalize (CS_Operations item) as l.
  intros l; revert w. induction l as [|op l IH]; intros w a Hrun o Ho; [by apply not_elem_of_nil in Ho|].
  cbn [each] in Hrun. rewrite run_try in Hrun. destruct (run (policyStep _ _ _ _ _) w) as [[b|e] w1] eqn:Hs; [|done].
  assert (b = true) as ->.
  { clear IH Hs Ho. revert w1 Hrun. induction l as [|x l IHl]; intros w1 Hrun; [simpl in Hrun; congruence|].
    cbn [each] in Hrun. rewrite run_try in Hrun. destruct (run (policyStep _ _ _ x b) w1) as [[b'|e] w2] eqn:Hs; [|done].
    destruct b'; [by apply policyStep_true in Hs as [-> _]|]. exfalso. clear -Hrun. revert w2 Hrun.
    induction l as [|x l IHl]; intros w2 Hrun; [simpl in Hrun; congruence|]. cbn [each] in Hrun. rewrite run_try in Hrun.
    destruct (run (policyStep _ _ _ x false) w2) as [[b'|e] w3] eqn:Hs; [|done].
    destruct b'; [by apply policyStep_true in Hs as [? _]|eauto]. }
  apply elem_of_cons in Ho as [->|Ho]; [|by eapply IH].
  apply policyStep_true in Hs as (_ & p & Hin & Hc). exists p. split; [|done].
  assert (quiet w1 w') as [_ (evs & -> & _)].
  { eapply quiet_run; [|exact Hrun]. apply steps_in_each. intros x b. unfold policyStep. quiet_walk. }
  apply elem_of_app. by left.
Qed.

Lemma automaticAllowed_true E p item w w' :
  run (automaticAllowed E p item) w = (Ok true, w') → approvedByPolicy (history w') item.
Proof.
  unfold automaticAllowed. destruct (P_Interactive p); [apply policiesAllowAutomatic_true|].
  rewrite run_try. destruct (run (getPrincipalType _ _) w) as [[ty|e] w1]; [|done]. apply policiesAllowAutomatic_true.
Qed.

(** ** The methods *)

(** Writing a closed status over a stored row. *)
Lemma retire_good E row item w r w' :
  run (updateChangeset E item) w = (r, w') → Inv w → row ∈ rows (st w) → CS_ID item = CS_ID row →
  CS_PlanHash item = CS_PlanHash row → CS_RiskClass item = CS_RiskClass row → CS_AutoApply item = CS_AutoApply row →
  closed (CS_Status item) = true → Inv w' ∧ evolves w w'.
Proof.
  intros Hrun HI Hrow Hid Hph Hrk Haa Hc. eapply update_good; [done|done|done|done|done|by intros _|].
  intros Ha. by rewrite Ha in Hc.
Qed.

(** A reading prefix of a call. *)
Lemma bind_quiet {A B} (p : prog World A) (f : A → prog World B) w r w' :
  steps_in quiet p → run (bind p f) w = (r, w') → Inv w →
  (∀ a w1, run p w = (a, w1) → quiet w w1 → Inv w1 → run (f a) w1 = (r, w') → Inv w' ∧ evolves w1 w') →
  Inv w' ∧ evolves w w'.
Proof.
  intros Hp Hrun HI Hk. rewrite run_bind in Hrun. destruct (run p w) as [a w1] eqn:Ha.
  pose proof (quiet_run _ _ _ _ Hp Ha) as Hq. destruct (quiet_good _ _ Hq HI) as [HI1 Hev1].
  destruct (Hk a w1) as [HI' Hev']; try done. split; [done|by etrans].
Qed.

Lemma try_quiet {A B} (p : prog World (result AErr A)) (f : A → prog World (result AErr B)) w r w' :
  steps_in quiet p → run (try p f) w = (r, w') → Inv w →
  (∀ a w1, run p w = (Ok a, w1) → quiet w w1 → Inv w1 → run (f a) w1 = (r, w') → Inv w' ∧ evolves w1 w') →
  Inv w' ∧ evolves w w'.
Proof.
  intros Hp Hrun HI Hk. eapply bind_quiet; [exact Hp|exact Hrun|done|].
  intros [a|e] w1 Ha Hq HI1 Hr; [by eapply Hk|]. injection Hr as <- <-. split; [done|reflexivity].
Qed.

Lemma ret_good {A} (a : A) w r w' : run (Ret a) w = (r, w') → Inv w → Inv w' ∧ evolves w w'.
Proof. intros [= <- <-] HI. split; [done|reflexivity]. Qed.

(** [item.Status = …; _ = Update(item); return item, err] *)
Lemma retire_ret_good {A} E (a : A) row item w r w' :
  run (bind (updateChangeset E item) (λ _, Ret a)) w = (r, w') → Inv w → row ∈ rows (st w) →
  CS_ID item = CS_ID row → CS_PlanHash item = CS_PlanHash row → CS_RiskClass item = CS_RiskClass row →
  CS_AutoApply item = CS_AutoApply row → closed (CS_Status item) = true → Inv w' ∧ evolves w w'.
Proof.
  rewrite run_bind. destruct (run (updateChangeset _ _) w) as [u w1] eqn:Hu. intros [= <- <-]. by apply (retire_good E row item w u).
Qed.

(** The claim and the loop after it. *)
Lemma claimed_good E s p item at_ w r w' :
  run (try (claimChangeset E (CS_ID item) at_) (λ claimed,
    if negb claimed then Ret (Err (ErrInvalid "changeset is already being applied"))
    else applyOperations E s p (setApplying at_ item) [] [] (CS_Operations item))) w = (r, w') →
  Inv w → item ∈ rows (st w) → CS_Status item = ChangesetApproved → changesetHash item = Ok (CS_PlanHash item) →
  Inv w' ∧ evolves w w'.
Proof.
  rewrite run_try. destruct (run (claimChangeset _ _ _) w) as [c w1] eqn:Hc. intros Hrun HI Hrow Hst Hhash.
  apply claim_good in Hc as ([HI1 Hev1] & Haps & Hhist & Hclaim); [|done].
  destruct c as [[|]|e]; cbn [negb] in Hrun; [|injection Hrun as <- <-; by split..].
  destruct (Hclaim eq_refl) as (row & Hrow5 & Hid5 & _ & Hin6).
  assert (row = item) as -> by (by apply (row_unique w)).
  apply applyOperations_good in Hrun as [HI2 Hev2]; [split; [done|by etrans]|done| |by apply (inv_positions w)|].
  - exists (claimedRow at_ item). split_and!; try done.
    apply (authorised_mono w w1 item); [by apply same_grows|by split_and!|done|done|by apply inv_approved].
  - intros pos Hin. rewrite Hhist in Hin. exfalso.
    destruct (inv_exec w HI _ _ Hin) as (x & Hx & Hidx & Hcx & _).
    assert (x = item) as -> by (by apply (row_unique w)). by rewrite Hst in Hcx.
Qed.

Lemma quiet_row w w' (r : AutomationChangeset) : quiet w w' → r ∈ rows (st w) → r ∈ rows (st w').
Proof. by intros [-> _]. Qed.

Lemma Apply_good E s p id w r w' : run (Apply E s p id) w = (r, w') → Inv w → Inv w' ∧ evolves w w'.
Proof.
  intros Hrun HI. eapply try_quiet; [apply authorizedChangeset_quiet|exact Hrun|done|clear Hrun HI].
  intros item w1 Hget Hq1 HI Hrun; cbv beta zeta in Hrun. apply authorizedChangeset_found in Hget as (_ & Hrow & Hid & _).
  apply (quiet_row _ _ _ Hq1) in Hrow. destruct (bool_decide (CS_Status item = ChangesetSucceeded)); [eapply ret_good; [exact Hrun|done]|].
  destruct (bool_decide (CS_Status item = ChangesetApproved)) eqn:Hst; cbn [negb] in Hrun; [|eapply ret_good; [exact Hrun|done]].
  apply bool_decide_eq_true in Hst.
  eapply bind_quiet; [apply external_quiet|exact Hrun|done|clear Hrun HI].
  intros t w2 _ Hq2 HI Hrun; cbv beta zeta in Hrun. apply (quiet_row _ _ _ Hq2) in Hrow.
  destruct (CS_ExpiresAt item <=? t); [by eapply retire_ret_good|].
  destruct (changesetHash item) as [hash|] eqn:Hhash; [destruct (hash =? CS_PlanHash item)%string eqn:Heq|];
    cbn [negb] in Hrun; [|by eapply retire_ret_good..]. apply String.eqb_eq in Heq as ->.
  eapply bind_quiet; [apply validateOperations_quiet|exact Hrun|done|clear Hrun HI].
  intros [ev|cause] w3 _ Hq3 HI Hrun; cbv beta iota zeta in Hrun; apply (quiet_row _ _ _ Hq3) in Hrow; [|by eapply retire_ret_good].
  eapply try_quiet; [apply automaticAllowed_quiet|exact Hrun|done|clear Hrun HI].
  intros a w4 _ Hq4 HI Hrun; cbv beta zeta in Hrun. apply (quiet_row _ _ _ Hq4) in Hrow.
  eapply bind_quiet; [apply external_quiet|exact Hrun|done|clear Hrun HI].
  intros t' w5 _ Hq5 HI Hrun; cbv beta zeta in Hrun. apply (quiet_row _ _ _ Hq5) in Hrow. by eapply claimed_good.
Qed.

Lemma open_keepsClosed row item : closed (CS_Status row) = false → keepsClosed row item.
Proof. intros Ho Hc. by rewrite Ho in Hc. Qed.

(** The [UPDATE] of [Validate] and what follows it. *)
Lemma validated_good E s p row item w r w' :
  run (try (updateChangeset E item) (λ _,
    if bool_decide (CS_Status item = ChangesetApproved) then Apply E s p (CS_ID item) else Ret (Ok item))) w = (r, w') →
  Inv w → row ∈ rows (st w) → CS_ID item = CS_ID row → CS_AutoApply item = CS_AutoApply row → closed (CS_Status row) = false →
  (CS_Status item = ChangesetApproved → approvedByPolicy (history w) row) →
  Inv w' ∧ evolves w w'.
Proof.
  rewrite run_try. destruct (run (updateChangeset _ _) w) as [u w1] eqn:Hu. intros Hrun HI Hrow Hid Haa Hopen Hpol.
  destruct (update_good E item row w u w1) as ([HI1 Hev1] & _); try done.
  { by apply open_keepsClosed. }
  { intros Ha ts. right. intros op Hop. by apply Hpol. }
  destruct u as [[]|e]; [|by injection Hrun as <- <-].
  destruct (bool_decide _); [|by injection Hrun as <- <-].
  apply Apply_good in Hrun as [HI2 Hev2]; [|done]. split; [done|by etrans].
Qed.

Lemma Validate_good E s p id w r w' : run (Validate E s p id) w = (r, w') → Inv w → Inv w' ∧ evolves w w'.
Proof.
  intros Hrun HI. eapply try_quiet; [apply authorizedChangeset_quiet|exact Hrun|done|clear Hrun HI].
  intros item w1 Hget Hq1 HI Hrun; cbv beta zeta in Hrun. apply authorizedChangeset_found in Hget as (_ & Hrow & Hid & _).
  apply (quiet_row _ _ _ Hq1) in Hrow.
  eapply bind_quiet; [apply external_quiet|exact Hrun|done|clear Hrun HI].
  intros t w2 _ Hq2 HI Hrun; cbv beta zeta in Hrun. apply (quiet_row _ _ _ Hq2) in Hrow.
  destruct (CS_ExpiresAt item <=? t); [by eapply retire_ret_good|].
  destruct (bool_decide (CS_Status item ∈ _)) eqn:Hst; cbn [negb] in Hrun; [|eapply ret_good; [exact Hrun|done]].
  assert (closed (CS_Status item) = false) as Hopen.
  { apply bool_decide_eq_true in Hst. rewrite !elem_of_cons in Hst.
    destruct Hst as [->|[->|[->|Hn]]]; try done. by apply not_elem_of_nil in Hn. }
  eapply try_quiet; [apply validateOperations_quiet|exact Hrun|done|clear Hrun HI].
  intros ev w3 _ Hq3 HI Hrun; cbv beta zeta in Hrun. apply (quiet_row _ _ _ Hq3) in Hrow.
  eapply try_quiet; [|exact Hrun|done|clear Hrun HI]; [exact I|].
  intros hash w4 _ Hq4 HI Hrun; cbv beta zeta in Hrun. apply (quiet_row _ _ _ Hq4) in Hrow.
  eapply try_quiet; [apply automaticAllowed_quiet|exact Hrun|done|clear Hrun HI].
  intros a w5 Hauto Hq5 HI Hrun; cbv beta zeta in Hrun. apply (quiet_row _ _ _ Hq5) in Hrow.
  eapply validated_good; [exact Hrun|done|exact Hrow|by destruct a|by destruct a|done|].
  destruct a; [|done]. intros _. by apply automaticAllowed_true in Hauto.
Qed.

(** The approval row of [Approve], the [UPDATE] to approved and the apply. *)
Lemma createApproval_good E a w r w' :
  run (createApproval E a) w = (r, w') → Inv w →
  (Inv w' ∧ evolves w w') ∧ rows (st w') = rows (st w) ∧ grows w w' ∧ (r = Ok () → a ∈ approvals (st w')).
Proof.
  intros Hrun HI. apply db_run in Hrun as [Hh [[-> Hs]|[ts Hts]]].
  { split; [apply quiet_good; [by apply same_quiet|done]|]. rewrite Hs. split_and!; try done.
    apply same_grows; by rewrite ?Hs. }
  unfold CreateAutomationApproval in Hts. destruct (_ || _); injection Hts as -> Hs.
  { split; [apply quiet_good; [by apply same_quiet|done]|]. rewrite Hs. split_and!; try done.
    apply same_grows; by rewrite ?Hs. }
  assert (grows w w') as Hg.
  { unfold grows. rewrite Hh, Hs. split; [|done]. simpl. intros b Hb. apply elem_of_app. by left. }
  split; [|rewrite Hs; simpl; split_and!; [done|done|intros _; apply elem_of_app; right; by left]].
  split; [|intros x Hx; exists x; rewrite Hs; split; [done|split; reflexivity]].
  destruct HI as [H1 H2 H3 H4 H5 H6]. split; rewrite ?Hs, ?Hh; simpl; auto.
  - intros x Hx Ha. apply (authorised_grows w); auto.
  - intros id pos Hin. destruct (H5 id pos Hin) as (x & ? & ? & ? & ? & ?). exists x. split_and!; auto.
    by apply (authorised_grows w).
Qed.

Lemma Approve_good E s p id comment w r w' :
  run (Approve E s p id comment) w = (r, w') → Inv w → Inv w' ∧ evolves w w'.
Proof.
  unfold Approve. destruct (P_Interactive p); [|apply ret_good]. destruct (P_UserID p) as [user|]; [|apply ret_good].
  destruct (_ || _); [|apply ret_good].
  intros Hrun HI. eapply try_quiet; [apply db_read_quiet|exact Hrun|done|clear Hrun HI].
  intros item w1 Hget Hq1 HI Hrun; cbv beta zeta in Hrun. apply Get_found in Hget as (_ & Hrow & Hid).
  apply (quiet_row _ _ _ Hq1) in Hrow.
  destruct (_ || _) eqn:Hst; [eapply ret_good; [exact Hrun|done]|]. bprop.
  destruct (_ && _); [eapply ret_good; [exact Hrun|done]|].
  eapply try_quiet; [apply external_quiet|exact Hrun|done|clear Hrun HI].
  intros aid w2 _ Hq2 HI Hrun; cbv beta zeta in Hrun. apply (quiet_row _ _ _ Hq2) in Hrow.
  rewrite run_try in Hrun. destruct (run (createApproval _ _) w2) as [u w3] eqn:Hu.
  apply createApproval_good in Hu as ([HI3 Hev3] & Hrows & _ & Hap); [|done].
  apply (good_trans _ w3); [done|].
  destruct u as [[]|e]; [|eapply ret_good; [exact Hrun|done]]. rewrite <- Hrows in Hrow. specialize (Hap eq_refl).
  eapply bind_quiet; [apply external_quiet|exact Hrun|done|clear Hrun HI].
  intros t w4 _ Hq4 HI Hrun; cbv beta zeta in Hrun. rewrite run_try in Hrun. rewrite <- (proj1 Hq4) in Hrow, Hap.
  destruct (run (updateChangeset _ _) w4) as [u w5] eqn:Hu.
  destruct (update_good E _ item w4 u w5 Hu) as ([HI5 Hev5] & _); try done.
  { apply open_keepsClosed. by rewrite H0. }
  { intros _ ts. left. eexists. split; [exact Hap|]. by split_and!. }
  apply (good_trans _ w5); [done|].
  destruct u as [[]|e]; [by eapply Apply_good|eapply ret_good; [exact Hrun|done]].
Qed.

Lemma existsb_false_elem {A} (f : A → bool) l x : existsb f l = false → x ∈ l → f x = false.
Proof.
  intros He Hx. destruct (f x) eqn:Hf; [|done]. rewrite <- He. symmetry. apply existsb_exists.
  exists x. by rewrite <- list_elem_of_In.
Qed.

(** A row is inserted as a draft, under a new key. *)
Lemma createChangeset_good E c w r w' :
  run (createChangeset E c) w = (r, w') → CS_Status c = ChangesetDraft → Inv w → Inv w' ∧ evolves w w'.
Proof.
  intros Hrun Hdraft HI. apply db_run in Hrun as [Hh [[-> Hs]|[ts Hts]]].
  { apply quiet_good; [by apply same_quiet|done]. }
  unfold CreateAutomationChangeset in Hts. destruct (CS_Operations c) as [|o os] eqn:Hops.
  { injection Hts as -> Hs. apply quiet_good; [by apply same_quiet|done]. }
  destruct (insertConflict _ _) eqn:Hc; injection Hts as -> Hs.
  { apply quiet_good; [by apply same_quiet|done]. }
  unfold insertConflict in Hc. apply orb_false_iff in Hc as [[[Hcid Hckey]%orb_false_iff Hcops]%orb_false_iff Hcpos].
  apply negb_false_iff, bool_decide_eq_true in Hcpos. set (row := insertedRow (setCreated ts c)) in *.
  assert (grows w w') as Hg by (unfold grows; rewrite Hs, Hh; done).
  split; [|intros x Hx; exists x; rewrite Hs; split; [simpl; apply elem_of_app; by left|split; reflexivity]].
  destruct HI as [I1 I2 I3 I4 I5 I6]. split; rewrite ?Hs, ?Hh; simpl; auto.
  - rewrite fmap_app. apply NoDup_app. split_and!; [done| |apply NoDup_singleton].
    intros id (x & -> & Hx)%list_elem_of_fmap Hid%list_elem_of_singleton.
    apply (existsb_false_elem _ _ x) in Hcid; [|done]. apply String.eqb_neq in Hcid. done.
  - rewrite fmap_app. apply NoDup_app. split_and!; [done| |apply NoDup_singleton].
    intros k (x & -> & Hx)%list_elem_of_fmap Hid%list_elem_of_singleton.
    apply (existsb_false_elem _ _ x) in Hckey; [|done]. cbv beta in Hckey. simpl in Hid. injection Hid as Hp Hk.
    rewrite Hp, Hk, !String.eqb_refl in Hckey. done.
  - intros x [Hx|Hx%list_elem_of_singleton]%elem_of_app; [auto|subst x]. simpl.
    rewrite <- !list_fmap_compose. exact Hcpos.
  - intros x [Hx|Hx%list_elem_of_singleton]%elem_of_app; [|subst x; simpl; by rewrite Hdraft].
    intros Ha. apply (authorised_grows w); auto.
  - intros id pos Hin. destruct (I5 id pos Hin) as (x & ? & ? & ? & ? & ?). exists x.
    split_and!; auto; [apply elem_of_app; by left|by apply (authorised_grows w)].
Qed.

Lemma Create_good E s p request w r w' : run (Create E s p request) w = (r, w') → Inv w → Inv w' ∧ evolves w w'.
Proof.
  unfold Create. destruct (_ || _); [apply ret_good|]. destruct (_ || _); [apply ret_good|].
  intros Hrun HI. eapply try_quiet; [apply external_quiet|exact Hrun|done|clear Hrun HI].
  intros id w1 _ _ HI Hrun; cbv beta zeta in Hrun.
  eapply bind_quiet; [apply external_quiet|exact Hrun|done|clear Hrun HI].
  intros t w2 _ _ HI Hrun; cbv beta zeta in Hrun.
  eapply try_quiet; [|exact Hrun|done|clear Hrun HI]; [exact I|]. intros revs w3 _ _ HI Hrun; cbv beta zeta in Hrun.
  eapply try_quiet; [|exact Hrun|done|clear Hrun HI]; [apply steps_in_each; intros; apply createOperation_quiet|].
  intros [ops risk] w4 _ _ HI Hrun; cbv beta zeta in Hrun.
  eapply bind_quiet; [|exact Hrun|done|clear Hrun HI]; [apply db_read_quiet|].
  assert (∀ w5 e, Inv w5 → run (replayChangeset s p e (newChangeset p id (TrimSpace (CR_IdempotencyKey request))
    request revs t ops risk)) w5 = (r, w') → Inv w' ∧ evolves w5 w') as Hreplay.
  { intros w5 e HI5 Hr. apply quiet_good; [|done]. eapply quiet_run, Hr. apply replayChangeset_quiet. }
  intros [existing|e] w5 _ _ HI Hrun; cbv beta iota zeta in Hrun; [by eapply Hreplay|].
  destruct e; try (eapply ret_good; [exact Hrun|done]).
  rewrite run_bind in Hrun. destruct (run (createChangeset _ _) w5) as [c w6] eqn:Hc.
  apply createChangeset_good in Hc as [HI6 Hev6]; [|done|done]. apply (good_trans _ w6); [done|].
  destruct c as [c|e]; [eapply ret_good; [exact Hrun|done]|].
  eapply bind_quiet; [|exact Hrun|done|clear Hrun]; [apply db_read_quiet|].
  intros [existing|e'] w7 _ _ HI7 Hrun; cbv beta iota zeta in Hrun; [by eapply Hreplay|].
  eapply ret_good; [exact Hrun|done].
Qed.

Lemma call_good w w' : call_step w w' → Inv w → Inv w' ∧ evolves w w'.
Proof.
  intros [E s p request r Hr|E s p id r Hr|E s p id comment r Hr|E s p id r Hr];
    [by eapply Create_good|by eapply Validate_good|by eapply Approve_good|by eapply Apply_good].
Qed.

Lemma initial_Inv : Inv initialWorld.
Proof.
  split; simpl; try apply NoDup_nil_2.
  - intros r Hr. by apply not_elem_of_nil in Hr.
  - intros r Hr. by apply not_elem_of_nil in Hr.
  - intros id pos Hin. by apply not_elem_of_nil in Hin.
Qed.

Lemma calls_good w w' : rtc call_step w w' → Inv w → Inv w' ∧ evolves w w'.
Proof.
  induction 1 as [w|w1 w2 w3 Hs _ IH]; intros HI; [split; [done|reflexivity]|].
  destruct (call_good _ _ Hs HI) as [HI2 Hev]. apply (good_trans _ w2); auto.
Qed.

(** C1. Whatever sequence of calls is made, by whichever principals and with whichever
    environment, a mutation handler was only called for a stored changeset whose plan hash
    is the hash of the stored plan, and that was either approved by an operator for exactly
    this plan hash and risk, or whose every operation was covered by an automatic approval
    policy that the store returned for the changeset's principal. *)
Theorem executions_authorised w id pos :
  rtc call_step initialWorld w → HExec id pos ∈ history w →
  ∃ r, r ∈ rows (st w) ∧ CS_ID r = id ∧ changesetHash r = Ok (CS_PlanHash r) ∧
    (approvedByOperator (approvals (st w)) r ∨ approvedByPolicy (history w) r).
Proof.
  intros Hreach Hin. destruct (calls_good _ _ Hreach initial_Inv) as [HI _].
  destruct (inv_exec w HI id pos) as (r & Hr & Hid & _ & Hau & Hh); [|by exists r].
  apply list_elem_of_omap. by exists (HExec id pos).
Qed.

(** Calls that run one at a time execute each operation of a changeset at most once. *)
Theorem executions_at_most_once w : rtc call_step initialWorld w → NoDup (execs (history w)).
Proof. intros Hreach. destruct (calls_good _ _ Hreach initial_Inv) as [HI _]. apply HI. Qed.

(** One at a time, calls never bring a closed changeset back to a state in which it could be
    approved or applied, and its plan hash is fixed. *)
Lemma closed_sequentially w w' r :
  rtc call_step initialWorld w → rtc call_step w w' → r ∈ rows (st w) →
  ∃ r', r' ∈ rows (st w') ∧ samePlan r r' ∧ (closed (CS_Status r) = true → closed (CS_Status r') = true ∧ CS_PlanHash r' = CS_PlanHash r).
Proof.
  intros Hreach Hcalls Hr. destruct (calls_good _ _ Hreach initial_Inv) as [HI _].
  destruct (calls_good _ _ Hcalls HI) as [HI' Hev]. destruct (Hev r Hr) as (r' & Hr' & Hp & Hk).
  exists r'. split_and!; [done..|]. intros Hc. destruct (Hk Hc) as (? & ? & _). done.
Qed.

(** A call as a step to the world it ends in. *)
Lemma create_calls E s p request w : call_step w (snd (run (Create E s p request) w)).
Proof. eapply call_create, surjective_pairing. Qed.
Lemma validate_calls E s p id w : call_step w (snd (run (Validate E s p id) w)).
Proof. eapply call_validate, surjective_pairing. Qed.
Lemma approve_calls E s p id comment w : call_step w (snd (run (Approve E s p id comment) w)).
Proof. eapply call_approve, surjective_pairing. Qed.
End calls.

(** ** Runs of the model *)

#[local] Existing Instances demoCodec demoRange.

Lemma demo_create_step : call_step initialWorld demoCreated.
Proof. exact (create_calls demoEnv demoService demoOperator demoRequest initialWorld). Qed.

Lemma demo_validate_step : call_step demoCreated demoValidated.
Proof. exact (validate_calls demoEnv demoService demoOperator "chg_0" demoCreated). Qed.

Lemma demo_apply_step : call_step demoValidated demoApplied.
Proof. exact (approve_calls demoEnv demoService demoOperator "chg_0" "ok" demoValidated). Qed.

Lemma demo_validated_reachable : rtc call_step initialWorld demoValidated.
Proof. exact (rtc_l _ _ _ _ demo_create_step (rtc_once _ _ demo_validate_step)). Qed.

Lemma demo_reachable : rtc call_step initialWorld demoApplied.
Proof. eapply rtc_r; [apply demo_validated_reachable|apply demo_apply_step]. Qed.

Lemma executions_authorised_witness :
  HExec "chg_0" 0 ∈ history demoApplied ∧
  ∃ r, r ∈ rows (st demoApplied) ∧ CS_ID r = "chg_0" ∧ changesetHash r = Ok (CS_PlanHash r) ∧
    (approvedByOperator (approvals (st demoApplied)) r ∨ approvedByPolicy (history demoApplied) r).
Proof.
  assert (HExec "chg_0" 0 ∈ history demoApplied) as Hin by (vm_compute; left).
  split; [exact Hin|]. exact (executions_authorised demoApplied "chg_0" 0 demo_reachable Hin).
Defined.

Lemma executions_at_most_once_witness :
  execs (history demoApplied) = [("chg_0", 0)] ∧ NoDup (execs (history demoApplied)).
Proof. split; [vm_compute; reflexivity|]. exact (executions_at_most_once demoApplied demo_reachable). Defined.
