(* ===== verification/AutomationContracts.v ===== *)
(** * Contracts of single calls of the automation service

    What one call of [Apply], [Create] or [Validate] guarantees to its caller, and what the
    comparison of base revisions decides. *)

From S2P Require Import Prelude Model NodeKeys Rbac McpAuth Capability ChangesetStore Prog Automation AutomationSafety.

Local Open Scope Z_scope.

Section contracts.
Context `{!Codec, !MapRange string string}.

(** ** Base revisions *)

(** The revision check is exact: where no resource resolves to a blank revision, the
    base revisions of a changeset pass the comparison with the current ones if and only if
    the two maps are equal. *)
Theorem compareRevisions_exact expected current :
  (∀ key revision, current !! key = Some revision → revision ≠ ""%string) →
  compareRevisions expected current = Ok () ↔ expected = current.
Proof.
  intros Hcur. unfold compareRevisions. split.
  - destruct (Nat.eqb (size expected) (size current)) eqn:Hsize; [|done]. apply Nat.eqb_eq in Hsize. simpl.
    destruct (List.find _ _) as [[? ?]|] eqn:Hf; [done|]. intros _. symmetry.
    apply map_subseteq_size_eq; [|lia]. apply map_subseteq_spec. intros k v Hk.
    assert (In (k, v) (map_range current)) as Hin by (by apply list_elem_of_In, elem_of_map_range).
    pose proof (find_none _ _ Hf _ Hin) as Hn. simpl in Hn. apply negb_false_iff, String.eqb_eq in Hn.
    destruct (expected !! k); simpl in Hn; [by subst|]. by destruct (Hcur k v Hk).
  - intros ->. rewrite Nat.eqb_refl. simpl. destruct (List.find _ _) as [[k v]|] eqn:Hf; [|done].
    apply find_some in Hf as [Hin%list_elem_of_In%elem_of_map_range Hn]. simpl in Hn. rewrite Hin in Hn. simpl in Hn.
    by rewrite String.eqb_refl in Hn.
Qed.

(** ** Apply *)

(** What the catalog still allows the caller to execute. *)
Definition admits (s : Service) (p : Principal) (op : AutomationOperation) : Prop :=
  ∃ d, AuthorizeCatalog (catalog s) p (OP_Capability op) = Some d ∧ D_ReadOnly d = false ∧ D_Executable d = true ∧
       D_RiskClass d = OP_RiskClass op.

Lemma inspectOperation_admits E s p item op acc w r w' :
  run (inspectOperation E s p item op acc) w = (Ok r, w') → admits s p op.
Proof.
  unfold inspectOperation, admits. destruct acc as [ev cur]. destruct (AuthorizeCatalog _ _ _) as [d|]; [|done].
  destruct (_ || _) eqn:Hd; [done|]. intros _. bprop. eauto.
Qed.

Lemma each_admits E s p item ops acc w r w' :
  run (each (inspectOperation E s p item) ops acc) w = (Ok r, w') → Forall (admits s p) ops.
Proof.
  revert acc w; induction ops as [|op ops IH]; intros acc w Hrun; [constructor|]. cbn [each] in Hrun.
  rewrite run_try in Hrun. destruct (run (inspectOperation _ _ _ _ _ _) w) as [[a|e] w1] eqn:Hi; [|done].
  constructor; [by eapply inspectOperation_admits|by eapply IH].
Qed.

Lemma validateOperations_ok E s p item w ev w' :
  run (validateOperations E s p item) w = (Ok ev, w') →
  Forall (admits s p) (CS_Operations item) ∧
  ∃ expected ev current w1, decodeRevisions (CS_BaseRevisions item) = Ok expected ∧
    run (inspectOperations E s p item) w = (Ok (ev, current), w1) ∧ compareRevisions expected current = Ok ().
Proof.
  unfold validateOperations. rewrite run_try. cbn [run]. destruct (decodeRevisions _) as [expected|]; [|done].
  rewrite run_try. destruct (run (inspectOperations _ _ _ _) w) as [[[ev' current]|e] w1] eqn:Hi; [|done].
  rewrite run_try. cbn [run snd]. destruct (compareRevisions expected current) as [[]|] eqn:Hc; [|done]. intros _.
  split; [by eapply each_admits|]. by exists expected, ev', current, w1.
Qed.

(** The relation between the worlds of a call that may execute operations of [item]. *)
Definition executesOnly (id : string) (positions : list Z) (w w' : World) : Prop :=
  ∃ l, execs (history w') = execs (history w) ++ l ∧ ∀ x, x ∈ l → x.1 = id ∧ x.2 ∈ positions.

Global Instance executesOnly_preorder id positions : PreOrder (executesOnly id positions).
Proof.
  split.
  - intros w. exists []. rewrite app_nil_r. split; [done|]. by intros x ?%not_elem_of_nil.
  - intros w1 w2 w3 (l1 & H1 & Hl1) (l2 & H2 & Hl2). exists (l1 ++ l2). rewrite H2, H1, app_assoc. split; [done|].
    intros x [Hx|Hx]%elem_of_app; auto.
Qed.

Lemma same_executesOnly id positions w w' : execs (history w') = execs (history w) → executesOnly id positions w w'.
Proof. intros He. exists []. rewrite He, app_nil_r. split; [done|]. by intros x ?%not_elem_of_nil. Qed.

Lemma db_executesOnly {R} E (f : Z → Store → result AErr R * Store) id positions :
  steps_in (executesOnly id positions) (db E f).
Proof.
  unfold db. cbn [steps_in]. intros w r w' Hc. split; [|done]. apply same_executesOnly.
  destruct (env_fails E (tick w)); [by injection Hc as <- <-|]. destruct (f _ _). by injection Hc as <- <-.
Qed.

Lemma quiet_executesOnly {A} id positions (p : prog World A) : steps_in quiet p → steps_in (executesOnly id positions) p.
Proof.
  induction p as [a|R c k IH]; simpl; [done|]. intros Hp w r w' Hc. destruct (Hp w r w' Hc) as [Hq Hk].
  split; [|auto]. by apply same_executesOnly, quiet_execs.
Qed.

Lemma now_executesOnly E id positions : steps_in (executesOnly id positions) (now E).
Proof. apply quiet_executesOnly, external_quiet. Qed.

Lemma failChangeset_executesOnly E item cause id positions :
  steps_in (executesOnly id positions) (failChangeset E item cause).
Proof.
  unfold failChangeset. apply steps_in_bind; [apply now_executesOnly|]. intros t.
  apply steps_in_bind; [apply db_executesOnly|done].
Qed.

Lemma applyOperations_executesOnly E s p item done results todo positions :
  (∀ op, op ∈ todo → OP_Position op ∈ positions) →
  steps_in (executesOnly (CS_ID item) positions) (applyOperations E s p item done results todo).
Proof.
  revert done results. induction todo as [|op todo IH]; intros done results Hpos; cbn [applyOperations].
  - apply steps_in_bind; [apply now_executesOnly|]. intros t. apply steps_in_try; [apply db_executesOnly|done].
  - destruct (handlers s !! OP_Capability op) as [h|].
    + apply steps_in_bind.
      { cbn [execute steps_in]. intros w r w' [= <- <-]. split; [|done]. exists [(CS_ID item, OP_Position op)]. simpl.
        rewrite execs_app. split; [done|]. intros x ->%list_elem_of_singleton. split; [done|]. apply Hpos. by left. }
      intros res. apply steps_in_bind; [apply now_executesOnly|]. intros t.
      destruct res as [v|e]; (apply steps_in_bind; [apply db_executesOnly|]); [|intros _; apply failChangeset_executesOnly].
      intros [u|e]; [|apply failChangeset_executesOnly]. apply IH. intros o Ho. apply Hpos. by right.
    + unfold failOperation. apply steps_in_bind; [apply now_executesOnly|]. intros t.
      apply steps_in_bind; [apply db_executesOnly|]. intros _. apply failChangeset_executesOnly.
Qed.

(** An execution that happened between two worlds. *)
Definition adds (x : string * Z) (w w' : World) : Prop := x ∈ execs (history w') ∧ x ∉ execs (history w).

Lemma quiet_adds x w w1 w' : quiet w w1 → adds x w w' → adds x w1 w'.
Proof. intros Hq. unfold adds. by rewrite (quiet_execs _ _ Hq). Qed.

Lemma ret_adds {A} (a : A) w r w' x : run (Ret a) w = (r, w') → ¬ adds x w w'.
Proof. intros [= <- <-] [? ?]. done. Qed.

Lemma retire_adds {A} E item (a : A) w r w' x :
  run (bind (updateChangeset E item) (λ _, Ret a)) w = (r, w') → ¬ adds x w w'.
Proof.
  intros Hrun [Hin Hn]. assert (executesOnly "" [] w w') as (l & He & Hl).
  { eapply run_steps_in; [apply _| |exact Hrun]. apply steps_in_bind; [apply db_executesOnly|done]. }
  rewrite He in Hin. apply elem_of_app in Hin as [|Hin]; [done|]. destruct (Hl x Hin) as [_ Hx].
  by apply not_elem_of_nil in Hx.
Qed.

Lemma bind_adds {A B} (p : prog World A) (f : A → prog World B) w r w' x :
  steps_in quiet p → run (bind p f) w = (r, w') → adds x w w' →
  ∃ a w1, run p w = (a, w1) ∧ quiet w w1 ∧ run (f a) w1 = (r, w') ∧ adds x w1 w'.
Proof.
  intros Hp Hrun Hx. rewrite run_bind in Hrun. destruct (run p w) as [a w1] eqn:Ha.
  pose proof (quiet_run _ _ _ _ Hp Ha) as Hq. exists a, w1. split_and!; try done. by eapply quiet_adds.
Qed.

Lemma try_adds {A B} (p : prog World (result AErr A)) (f : A → prog World (result AErr B)) w r w' x :
  steps_in quiet p → run (try p f) w = (r, w') → adds x w w' →
  ∃ a w1, run p w = (Ok a, w1) ∧ quiet w w1 ∧ run (f a) w1 = (r, w') ∧ adds x w1 w'.
Proof.
  intros Hp Hrun Hx. destruct (bind_adds _ _ _ _ _ _ Hp Hrun Hx) as ([a|e] & w1 & Ha & Hq & Hr & Hx1).
  - by exists a, w1.
  - by destruct (ret_adds _ _ _ _ _ Hr Hx1).
Qed.

Lemma claimed_adds E s p item at_ w r w' x :
  run (try (claimChangeset E (CS_ID item) at_) (λ claimed,
    if negb claimed then Ret (Err (ErrInvalid "changeset is already being applied"))
    else applyOperations E s p (setApplying at_ item) [] [] (CS_Operations item))) w = (r, w') →
  adds x w w' → x.1 = CS_ID item ∧ x.2 ∈ OP_Position <$> CS_Operations item.
Proof.
  intros Hrun [Hin Hn].
  assert (executesOnly (CS_ID item) (OP_Position <$> CS_Operations item) w w') as (l & He & Hl).
  { eapply run_steps_in; [apply _| |exact Hrun]. apply steps_in_try; [apply db_executesOnly|].
    intros []; [|done]. apply (applyOperations_executesOnly E s p (setApplying at_ item)). intros op. apply list_elem_of_fmap_2. }
  rewrite He in Hin. apply elem_of_app in Hin as [|Hin]; [done|auto].
Qed.

(** Whatever [Apply] executes, it executes for the changeset it was asked for, which
    was stored as approved, belongs to the caller or is managed by an interactive operator,
    has not expired, still has the hash of its approved plan, only consists of operations
    the catalog allows the caller to execute at the risk they were planned with, and has
    base revisions that match the ones resolved for the call. *)
Theorem Apply_executes_only E s p id w r w' x :
  run (Apply E s p id) w = (r, w') → x ∈ execs (history w') → x ∉ execs (history w) →
  ∃ row, row ∈ rows (st w) ∧ CS_ID row = id ∧ CS_Status row = ChangesetApproved ∧ mayAccess p row ∧
    (∃ t, env_now E t < CS_ExpiresAt row) ∧ changesetHash row = Ok (CS_PlanHash row) ∧
    Forall (admits s p) (CS_Operations row) ∧
    (∃ expected ev current w1 w2, decodeRevisions (CS_BaseRevisions row) = Ok expected ∧ st w1 = st w ∧
       run (inspectOperations E s p row) w1 = (Ok (ev, current), w2) ∧ compareRevisions expected current = Ok ()) ∧
    x.1 = id ∧ x.2 ∈ OP_Position <$> CS_Operations row.
Proof.
  intros Hrun Hin Hn. assert (adds x w w') as Hx by done. clear Hin Hn.
  eapply try_adds in Hrun as (item & w1 & Hget & [Hs1 _] & Hrun & Hx1); [|apply authorizedChangeset_quiet|done].
  apply authorizedChangeset_found in Hget as (_ & Hrow & Hid & Hacc). cbv beta zeta in Hrun. exists item.
  destruct (bool_decide (CS_Status item = ChangesetSucceeded)); [by destruct (ret_adds _ _ _ _ _ Hrun Hx1)|].
  destruct (bool_decide (CS_Status item = ChangesetApproved)) eqn:Hst; cbn [negb] in Hrun; [|by destruct (ret_adds _ _ _ _ _ Hrun Hx1)].
  apply bool_decide_eq_true in Hst.
  eapply bind_adds in Hrun as (t & w2 & Hnow & [Hs2 _] & Hrun & Hx2); [|apply external_quiet|done]. cbv beta zeta in Hrun.
  destruct (CS_ExpiresAt item <=? t) eqn:Hexp; [by destruct (retire_adds _ _ _ _ _ _ _ Hrun Hx2)|].
  destruct (changesetHash item) as [hash|] eqn:Hhash; [destruct (hash =? CS_PlanHash item)%string eqn:Heq|];
    cbn [negb] in Hrun; [|by destruct (retire_adds _ _ _ _ _ _ _ Hrun Hx2)..]. apply String.eqb_eq in Heq as ->.
  eapply bind_adds in Hrun as (v & w3 & Hv & _ & Hrun & Hx3); [|apply validateOperations_quiet|done].
  destruct v as [ev|cause]; cbv beta iota zeta in Hrun; [|by destruct (retire_adds _ _ _ _ _ _ _ Hrun Hx3)].
  apply validateOperations_ok in Hv as [Hadm (expected & evd & current & wi & Hdec & Hins & Hcmp)].
  eapply try_adds in Hrun as (a & w4 & _ & _ & Hrun & Hx4); [|apply automaticAllowed_quiet|done]. cbv beta zeta in Hrun.
  eapply bind_adds in Hrun as (t' & w5 & _ & _ & Hrun & Hx5); [|apply external_quiet|done].
  eapply claimed_adds in Hrun as [Hx0 Hxp]; [|done]. split_and!; try done; [| |congruence].
  - simpl in Hnow. injection Hnow as <- _. exists (tick w1). apply Z.leb_gt in Hexp. done.
  - exists expected, evd, current, w2, wi. split_and!; try done. congruence.
Qed.

(** ** Create *)

Lemma findChangeset_run E pid key w r w' :
  run (findChangeset E pid key) w = (r, w') → Inv w →
  match r with
  | Ok item => item ∈ rows (st w) ∧ CS_PrincipalID item = pid ∧ CS_IdempotencyKey item = key
  | Err ErrNoRows => ∀ row, row ∈ rows (st w) → CS_PrincipalID row = pid → CS_IdempotencyKey row ≠ key
  | Err _ => True
  end.
Proof.
  intros Hrun HI. apply db_run in Hrun as [_ [[-> _]|[ts Hts]]]; [done|]. injection Hts as -> _.
  unfold FindAutomationChangesetByIdempotency. destruct (List.find _ _) as [row|] eqn:Hf.
  - apply find_some in Hf as [Hin%list_elem_of_In Hk]. apply andb_true_iff in Hk as [Hp Hk].
    apply String.eqb_eq in Hp, Hk. unfold GetAutomationChangeset. destruct (List.find _ _) as [row'|] eqn:Hg.
    + apply find_some in Hg as [Hin'%list_elem_of_In He%String.eqb_eq].
      assert (row' = row) as -> by (by apply (row_unique w)). done.
    + pose proof (find_none _ _ Hg row) as Hn. cbv beta in Hn. rewrite String.eqb_refl in Hn.
      by discriminate Hn; apply list_elem_of_In.
  - intros row Hin Hp Hk. pose proof (find_none _ _ Hf row) as Hn. cbv beta in Hn.
    rewrite Hp, Hk, !String.eqb_refl in Hn. discriminate Hn. by apply list_elem_of_In.
Qed.

Lemma replayChangeset_ok s p existing requested w item w' :
  run (replayChangeset s p existing requested) w = (Ok item, w') → item = existing.
Proof.
  unfold replayChangeset. rewrite run_try. cbn [run]. destruct (changesetRequestDigest requested); [|done].
  rewrite run_try. cbn [run]. destruct (changesetRequestDigest existing); [|done]. destruct (negb _); [done|].
  rewrite run_try. destruct (run (authorizeChangesetResult _ _ _ _) w) as [[]]; simpl; congruence.
Qed.

(** The operation that [Create] builds for a request, whatever the environment. *)
Definition built (s : Service) (p : Principal) (q : OperationRequest) (op : AutomationOperation) : Prop :=
  ∃ d, AuthorizeCatalog (catalog s) p (OR_Capability q) = Some d ∧ D_ReadOnly d = false ∧ D_Executable d = true ∧
    validators s !! OR_Capability q ≠ None ∧ handlers s !! OR_Capability q ≠ None ∧
    OP_Capability op = D_Name d ∧ canonicalObject (OR_Input q) = Ok (OP_Input op) ∧
    canonicalObject (if (TrimSpace (OR_ResourceRefs q) =? "null")%string then "" else OR_ResourceRefs q) =
      Ok (OP_ResourceRefs op) ∧
    OP_SecretRefs op = OR_SecretRefs q.

Lemma createOperation_built E s p id q ops risk w r w' :
  run (createOperation E s p id q (ops, risk)) w = (Ok r, w') → ∃ op, r.1 = ops ++ [op] ∧ built s p q op.
Proof.
  unfold createOperation. cbv beta iota. destruct (AuthorizeCatalog _ _ _) as [d|] eqn:Ha; [|done].
  destruct (D_ReadOnly d || _) eqn:Hd; [done|]. destruct (bool_decide _ || _) eqn:Hv; [done|].
  rewrite run_try. destruct (run (prefixedID _ _) w) as [[oid|] w1]; [|done].
  rewrite run_try. cbn [run]. destruct (canonicalObject (OR_Input q)) as [input|] eqn:Hi; [|done]. cbv zeta.
  rewrite run_try. cbn [run]. destruct (canonicalObject (if (TrimSpace _ =? "null")%string then ""%string else OR_ResourceRefs q)) as [refs|] eqn:Hr; [|done].
  intros [= <- _]. bprop. eexists. split; [done|]. exists d. by split_and!.
Qed.

Lemma createOperations_built E s p id qs ops risk w r w' :
  run (each (createOperation E s p id) qs (ops, risk)) w = (Ok r, w') →
  ∃ new, r.1 = ops ++ new ∧ Forall2 (built s p) qs new.
Proof.
  revert ops risk w. induction qs as [|q qs IH]; intros ops risk w; cbn [each].
  { intros [= <- _]. exists []. by rewrite app_nil_r. }
  rewrite run_try. destruct (run (createOperation _ _ _ _ _ _) w) as [[[ops1 risk1]|] w1] eqn:Hq; [|done].
  apply createOperation_built in Hq as (op & Heq & Hb). simpl in Heq. subst ops1.
  intros (new & -> & Hn)%IH. exists (op :: new). rewrite <- app_assoc. split; [done|]. by constructor.
Qed.

(** An environment without failures. *)
Definition reliable (E : Env) : Prop :=
  (∀ t, env_fails E t = false) ∧ ∀ t, ∃ x, env_random E t = Ok x.

Lemma prefixedID_reliable E prefix w : reliable E → ∃ x w', run (prefixedID E prefix) w = (Ok x, w').
Proof. intros [_ Hr]. simpl. destruct (Hr (tick w)) as [x ->]. eauto. Qed.

Lemma createOperation_reliable E s p id q op acc w :
  reliable E → built s p q op → ∃ r w', run (createOperation E s p id q acc) w = (Ok r, w').
Proof.
  intros HE (d & Ha & Hro & Hex & Hv & Hh & _ & Hi & Hr & _). unfold createOperation. destruct acc as [ops risk].
  rewrite Ha, Hro, Hex, !bool_decide_false by done. cbn [orb negb]. rewrite run_try.
  destruct (prefixedID_reliable E "op" w HE) as (oid & w1 & ->). rewrite Hi, Hr. simpl. eauto.
Qed.

Lemma createOperations_reliable E s p id qs new acc w :
  reliable E → Forall2 (built s p) qs new → ∃ r w', run (each (createOperation E s p id) qs acc) w = (Ok r, w').
Proof.
  intros HE Hb. revert acc w. induction Hb as [|q op qs new Hq _ IH]; intros acc w; cbn [each]; [by eauto|].
  rewrite run_try. destruct (createOperation_reliable E s p id q op acc w HE Hq) as (r & w1 & ->). apply IH.
Qed.

(** Two operations built for the same request have the same digest. *)
Lemma built_digest s p qs ops ops' acc :
  Forall2 (built s p) qs ops → Forall2 (built s p) qs ops' → foldM digestOperation ops acc = foldM digestOperation ops' acc.
Proof.
  intros H1. revert ops' acc. induction H1 as [|q op qs ops Hq _ IH]; intros ops' acc H2.
  { apply Forall2_nil_inv_l in H2 as ->. done. }
  apply Forall2_cons_inv_l in H2 as (op' & ops'' & Hq' & Hn & ->). cbn [foldM].
  assert (digestOperation op acc = digestOperation op' acc) as ->.
  { destruct Hq as (d & Ha & _ & _ & _ & _ & Hc & Hi & Hr & Hs), Hq' as (d' & Ha' & _ & _ & _ & _ & Hc' & Hi' & Hr' & Hs').
    unfold digestOperation. rewrite Hc, Hc', Hs, Hs'. simplify_eq.
    rewrite Hi in Hi'. rewrite Hr in Hr'. simplify_eq. by rewrite Hi', Hr'. }
  destruct (digestOperation op' acc); [|done]. by apply IH.
Qed.

(** The reading part of [Create]: what is left is the lookup by key and the insertion. *)
Lemma Create_cases E s p request w r w' :
  run (Create E s p request) w = (r, w') →
  (quiet w w' ∧ is_ok r = false) ∨
  ∃ id revs t ops risk w1, quiet w w1 ∧
    canonicalRevisions (CR_BaseRevisions request) = Ok revs ∧ Forall2 (built s p) (CR_Operations request) ops ∧
    let key := TrimSpace (CR_IdempotencyKey request) in
    let item := newChangeset p id key request revs t ops risk in
    run (bind (findChangeset E (P_ID p) key) (λ found,
      match found with
      | Ok existing => replayChangeset s p existing item
      | Err ErrNoRows => bind (createChangeset E item) (λ created,
          match created with
          | Ok created => Ret (Ok created)
          | Err e => bind (findChangeset E (P_ID p) key) (λ found,
              match found with Ok existing => replayChangeset s p existing item | Err _ => Ret (Err e) end)
          end)
      | Err e => Ret (Err e)
      end)) w1 = (r, w').
Proof.
  unfold Create. destruct (_ || _); [intros [= <- <-]; left; by split|].
  destruct (_ || _); [intros [= <- <-]; left; by split|].
  rewrite run_try. destruct (run (prefixedID E "chg") w) as [[id|e] w1] eqn:H1;
    pose proof (quiet_run _ _ _ _ (external_quiet _) H1) as Hq1; [|intros [= <- <-]; by left].
  rewrite run_bind. destruct (run (now E) w1) as [t w2] eqn:H2.
  pose proof (quiet_run _ _ _ _ (external_quiet _) H2) as Hq2. rewrite run_try. cbn [run].
  destruct (canonicalRevisions _) as [revs|e] eqn:Hrevs; [|intros [= <- <-]; left; split; [by etrans|done]].
  rewrite run_try. destruct (run (each _ _ _) w2) as [b w3] eqn:H3.
  assert (quiet w2 w3) as Hq3.
  { eapply quiet_run, H3. apply steps_in_each. intros. apply createOperation_quiet. }
  destruct b as [[ops risk]|e]; [|intros [= <- <-]; left; split; [by do 2 (etrans; [done|])|done]].
  intros Hrun. right. exists id, revs, t, ops, risk, w3. split; [by do 2 (etrans; [done|])|].
  apply createOperations_built in H3 as (new & Hnew & Hb). simpl in Hnew. subst new. split_and!; [done|done|exact Hrun].
Qed.

(** A successful [Create] leaves a row with the caller's key. *)
Lemma Create_stored E s p request w item w' :
  run (Create E s p request) w = (Ok item, w') → Inv w →
  ∃ row, row ∈ rows (st w') ∧ CS_PrincipalID row = P_ID p ∧
    CS_IdempotencyKey row = TrimSpace (CR_IdempotencyKey request) ∧ CS_ID row = CS_ID item.
Proof.
  intros Hc HI. destruct (Create_cases _ _ _ _ _ _ _ Hc) as [[_ ?]|(id & revs & t & ops & risk & w1 & Hq & _ & _ & Hrun)]; [done|].
  cbv zeta in Hrun. rewrite run_bind in Hrun. destruct (run (findChangeset _ _ _) w1) as [found w2] eqn:Hf.
  pose proof (quiet_run _ _ _ _ (db_read_quiet _ _) Hf) as Hq2. pose proof (quiet_Inv _ _ Hq HI) as HI1.
  apply findChangeset_run in Hf; [|done]. rewrite <- (proj1 Hq2) in Hf.
  assert (∀ w3 existing new w4, existing ∈ rows (st w3) → run (replayChangeset s p existing new) w3 = (Ok item, w4) →
    existing ∈ rows (st w4) ∧ item = existing) as Hreplay.
  { intros w3 ex new w4 Hin Hr. pose proof (quiet_run _ _ _ _ (replayChangeset_quiet _ _ _ _) Hr) as [Hs _].
    rewrite Hs. split; [done|]. by apply replayChangeset_ok in Hr. }
  destruct found as [existing|e].
  { destruct Hf as (Hin & Hp & Hk). destruct (Hreplay _ _ _ _ Hin Hrun) as [? ->]. by exists existing. }
  destruct e; try done. rewrite run_bind in Hrun. destruct (run (createChangeset _ _) w2) as [c w3] eqn:Hcr.
  pose proof (createChangeset_good _ _ _ _ _ Hcr eq_refl (quiet_Inv _ _ Hq2 HI1)) as [HI3 _].
  apply db_run in Hcr as [_ Hcr]. destruct c as [c|e].
  - simpl in Hrun. injection Hrun as -> <-. destruct Hcr as [[? _]|[ts Hts]]; [done|].
    unfold CreateAutomationChangeset in Hts. destruct (CS_Operations _); [done|].
    destruct (insertConflict _ _); [done|]. injection Hts as -> ->.
    eexists. split; [apply elem_of_app; right; left|done].
  - rewrite run_bind in Hrun. destruct (run (findChangeset _ _ _) w3) as [found w4] eqn:Hf2.
    pose proof (quiet_run _ _ _ _ (db_read_quiet _ _) Hf2) as Hq4.
    apply findChangeset_run in Hf2; [|done]. rewrite <- (proj1 Hq4) in Hf2. destruct found as [existing|e']; [|done].
    destruct Hf2 as (Hin & Hp & Hk). destruct (Hreplay _ _ _ _ Hin Hrun) as [? ->]. by exists existing.
Qed.

(** A retried request never creates a second changeset: after a successful [Create],
    and whatever calls happen in between, a [Create] by the same principal with the same
    idempotency key leaves the store as it is, and if it succeeds it returns the changeset
    of the first call. *)
Theorem Create_once E s p request w item w1 w2 E' s' p' request' r w3 :
  rtc call_step initialWorld w → run (Create E s p request) w = (Ok item, w1) → rtc call_step w1 w2 →
  P_ID p' = P_ID p → TrimSpace (CR_IdempotencyKey request') = TrimSpace (CR_IdempotencyKey request) →
  run (Create E' s' p' request') w2 = (r, w3) →
  st w3 = st w2 ∧ ∀ item', r = Ok item' → CS_ID item' = CS_ID item.
Proof.
  intros Hreach Hcreate Hcalls Hpid Hkey Hretry.
  destruct (calls_good _ _ Hreach initial_Inv) as [HI _]. destruct (Create_good _ _ _ _ _ _ _ Hcreate HI) as [HI1 _].
  destruct (calls_good _ _ Hcalls HI1) as [HI2 Hev].
  assert (∃ row, row ∈ rows (st w2) ∧ CS_PrincipalID row = P_ID p' ∧
    CS_IdempotencyKey row = TrimSpace (CR_IdempotencyKey request') ∧ CS_ID row = CS_ID item) as (row & Hrow & Hrp & Hrk & Hri).
  { destruct (Create_stored _ _ _ _ _ _ _ Hcreate HI) as (row & Hrow & Hp & Hk & Hi).
    destruct (Hev row Hrow) as (row' & Hrow' & (Hid' & Hp' & Hk' & _) & _). exists row'.
    split_and!; [done|congruence..]. }
  destruct (Create_cases _ _ _ _ _ _ _ Hretry) as [[[Hs _] Hno]|(id & revs & t & ops & risk & w4 & Hq & _ & _ & Hrun)].
  { split; [done|]. intros item' ->. done. }
  cbv zeta in Hrun. rewrite run_bind in Hrun. destruct (run (findChangeset _ _ _) w4) as [found w5] eqn:Hf.
  pose proof (quiet_run _ _ _ _ (db_read_quiet _ _) Hf) as [Hs5 _]. pose proof Hq as [Hs4 _].
  apply findChangeset_run in Hf; [|by eapply quiet_Inv]. rewrite Hs4 in Hf. destruct found as [existing|e].
  - destruct Hf as (Hin & Hp & Hk). pose proof (quiet_run _ _ _ _ (replayChangeset_quiet _ _ _ _) Hrun) as [Hs6 _].
    split; [congruence|]. intros item' ->. apply replayChangeset_ok in Hrun as ->. rewrite <- Hri. f_equal.
    eapply (NoDup_fmap_key _ _ _ _ (inv_keys w2 HI2)); [done|done|]. f_equal; congruence.
  - destruct e; try (injection Hrun as <- <-; split; [congruence|done]). by destruct (Hf row Hrow).
Qed.

(** *** Replay of the same request *)

(** What encoding/json documents of encoded objects: they are neither empty nor null. *)
Class CodecLaws : Prop := {
  reencode_object t u : reencode t = Some u → u ≠ ""%string ∧ u ≠ "null"%string;
  encode_object m : encodeStringMap m ≠ ""%string ∧ encodeStringMap m ≠ "null"%string }.

Lemma normalizedJSONObject_id t : t ≠ ""%string ∧ t ≠ "null"%string → normalizedJSONObject t = t.
Proof.
  intros [H1%String.eqb_neq H2%String.eqb_neq]. unfold normalizedJSONObject. by rewrite H1, H2.
Qed.

Lemma inserted_built `{!CodecLaws} s p q op ts id :
  built s p q op → built s p q (insertedOperation id (setOpCreated ts op)).
Proof.
  intros (d & Ha & H1 & H2 & H3 & H4 & H5 & H6 & H7 & H8). exists d. split_and!; try done. simpl.
  rewrite normalizedJSONObject_id; [done|]. unfold canonicalObject in H7. destruct (reencode _) eqn:Hr; [|done].
  simplify_eq. by eapply reencode_object.
Qed.

(** The stored operations of a row keep what their digest is made of. *)
Lemma planOp_built s p qs ops ops' :
  planOp <$> ops' = planOp <$> ops → Forall2 (built s p) qs ops → Forall2 (built s p) qs ops'.
Proof.
  intros Heq Hb. revert ops' Heq. induction Hb as [|q op qs ops Hq _ IH]; intros [|op' ops'] Heq; try done.
  injection Heq as H1 H2 H3 H4 H5 H6 H7 Heq. constructor; [|by apply IH].
  destruct Hq as (d & ? & ? & ? & ? & ? & ? & ? & ? & ?). exists d. rewrite H3, H4, H5, H6. done.
Qed.

(** The row that a first [Create] with a key stores. *)
Definition newRow (s : Service) (p : Principal) (request : CreateRequest) (row : AutomationChangeset) : Prop :=
  CS_PrincipalID row = P_ID p ∧ CS_IdempotencyKey row = TrimSpace (CR_IdempotencyKey request) ∧
  CS_Reason row = TrimSpace (CR_Reason request) ∧ CS_AutoApply row = CR_AutoApply request ∧
  canonicalRevisions (CR_BaseRevisions request) = Ok (CS_BaseRevisions row) ∧
  Forall2 (built s p) (CR_Operations request) (CS_Operations row).

Lemma Create_newRow `{!CodecLaws} E s p request w item w' :
  run (Create E s p request) w = (Ok item, w') → Inv w →
  (∀ row, row ∈ rows (st w) → CS_PrincipalID row = P_ID p → CS_IdempotencyKey row ≠ TrimSpace (CR_IdempotencyKey request)) →
  newRow s p request item ∧ ∃ row, row ∈ rows (st w') ∧ CS_ID row = CS_ID item ∧ newRow s p request row.
Proof.
  intros Hc HI Hfresh.
  destruct (Create_cases _ _ _ _ _ _ _ Hc) as [[_ ?]|(id & revs & t & ops & risk & w1 & Hq & Hrevs & Hb & Hrun)]; [done|].
  cbv zeta in Hrun. rewrite run_bind in Hrun. destruct (run (findChangeset _ _ _) w1) as [found w2] eqn:Hf.
  pose proof (quiet_run _ _ _ _ (db_read_quiet _ _) Hf) as Hq2. pose proof (quiet_Inv _ _ Hq HI) as HI1.
  apply findChangeset_run in Hf; [|done]. rewrite (proj1 Hq) in Hf.
  destruct found as [existing|e]; [by destruct (Hfresh existing) as []; destruct Hf as (? & ? & ?)|]. destruct e; try done.
  rewrite run_bind in Hrun. destruct (run (createChangeset _ _) w2) as [c w3] eqn:Hcr.
  pose proof (createChangeset_good _ _ _ _ _ Hcr eq_refl (quiet_Inv _ _ Hq2 HI1)) as [HI3 _].
  apply db_run in Hcr as [_ Hcr]. destruct c as [c|e].
  - simpl in Hrun. injection Hrun as -> <-. destruct Hcr as [[? _]|[ts Hts]]; [done|].
    unfold CreateAutomationChangeset in Hts. destruct (CS_Operations (newChangeset _ _ _ _ _ _ _ _)); [done|].
    destruct (insertConflict _ _); [done|]. injection Hts as -> ->. split.
    + split_and!; try done. simpl. clear -Hb. induction Hb; simpl; constructor; done.
    + eexists. split; [apply elem_of_app; right; left|]. split; [done|]. split_and!; try done; simpl.
      * rewrite normalizedJSONObject_id; [done|]. unfold canonicalRevisions in Hrevs.
        destruct (decodeRevisions _); [|done]. simplify_eq. apply encode_object.
      * clear -Hb H0. induction Hb; simpl; constructor; [by apply inserted_built|done].
  - exfalso. rewrite run_bind in Hrun. destruct (run (findChangeset _ _ _) w3) as [found w4] eqn:Hf2.
    apply findChangeset_run in Hf2; [|done].
    assert (st w3 = st w) as Hs3.
    { rewrite <- (proj1 Hq), <- (proj1 Hq2). destruct Hcr as [[_ ?]|[ts Hts]]; [done|].
      unfold CreateAutomationChangeset in Hts. destruct (CS_Operations _); [by injection Hts|].
      destruct (insertConflict _ _); [by injection Hts|done]. }
    rewrite Hs3 in Hf2. destruct found as [existing|e']; [|done]. destruct Hf2 as (? & ? & ?). by destruct (Hfresh existing).
Qed.

Lemma newRow_digest s p request r1 r2 :
  newRow s p request r1 → newRow s p request r2 → changesetRequestDigest r1 = changesetRequestDigest r2.
Proof.
  intros (_ & _ & Hr1 & Ha1 & Hv1 & Hb1) (_ & _ & Hr2 & Ha2 & Hv2 & Hb2). unfold changesetRequestDigest.
  rewrite Hr1, Hr2, Ha1, Ha2, (built_digest _ _ _ _ _ [] Hb1 Hb2). rewrite Hv1 in Hv2. by injection Hv2 as ->.
Qed.

Lemma newRow_evolves s p request r r' : samePlan r r' → newRow s p request r → newRow s p request r'.
Proof.
  intros (_ & Hp & Hk & Hb & Ho & Hre & Ha) (? & ? & ? & ? & ? & ?). unfold newRow. rewrite Hp, Hk, Hb, Hre, Ha.
  split_and!; try done. by eapply planOp_built.
Qed.

Lemma findChangeset_reliable E w row :
  reliable E → Inv w → row ∈ rows (st w) →
  ∃ w', run (findChangeset E (CS_PrincipalID row) (CS_IdempotencyKey row)) w = (Ok row, w') ∧ st w' = st w.
Proof.
  intros [HE _] HI Hrow. destruct (run (findChangeset _ _ _) w) as [r w'] eqn:Hf.
  pose proof (quiet_run _ _ _ _ (db_read_quiet _ _) Hf) as [Hs _]. exists w'. split; [|done].
  pose proof (findChangeset_run _ _ _ _ _ _ Hf HI) as Hr. f_equal. destruct r as [row'|e].
  - f_equal. destruct Hr as (Hin & Hp & Hk). eapply (NoDup_fmap_key _ _ _ _ (inv_keys w HI)); [done|done|]. f_equal; done.
  - exfalso. destruct e; try (unfold findChangeset, db in Hf; simpl in Hf; rewrite HE in Hf; injection Hf as Hf _;
      unfold FindAutomationChangesetByIdempotency, GetAutomationChangeset in Hf; repeat case_match; done).
    by eapply Hr.
Qed.

(** [Create] of a well-formed request reaches the lookup by key when nothing fails. *)
Lemma Create_reaches E s p request w row :
  reliable E → newRow s p request row →
  (TrimSpace (CR_IdempotencyKey request) =? "")%string || (128 <? Z.of_nat (String.length (TrimSpace (CR_IdempotencyKey request)))) = false →
  Nat.eqb (length (CR_Operations request)) 0 || Nat.ltb 64 (length (CR_Operations request)) = false →
  ∃ item w1, quiet w w1 ∧ newRow s p request item ∧
    (∀ existing w2, run (findChangeset E (P_ID p) (TrimSpace (CR_IdempotencyKey request))) w1 = (Ok existing, w2) →
       run (Create E s p request) w = run (replayChangeset s p existing item) w2).
Proof.
  intros HE (_ & _ & _ & _ & Hrevs & Hb) Hg1 Hg2. unfold Create. rewrite Hg1, Hg2. rewrite run_try.
  destruct (run (prefixedID E "chg") w) as [rid wa] eqn:Ha.
  destruct (prefixedID_reliable E "chg" w HE) as (id & wa' & Ha'). rewrite Ha in Ha'. simplify_eq.
  pose proof (quiet_run _ _ _ _ (external_quiet _) Ha) as Hqa. rewrite run_bind.
  destruct (run (now E) wa') as [t wb] eqn:Hn. pose proof (quiet_run _ _ _ _ (external_quiet _) Hn) as Hqb.
  rewrite run_try. cbn [run]. rewrite Hrevs. rewrite run_try.
  destruct (createOperations_reliable E s p id _ _ ([], 0) wb HE Hb) as ([ops risk] & wc & Hops). rewrite Hops.
  assert (quiet wb wc) as Hqc.
  { eapply quiet_run, Hops. apply steps_in_each. intros. apply createOperation_quiet. }
  apply createOperations_built in Hops as (new & Hnew & Hbn). simpl in Hnew. subst new.
  exists (newChangeset p id (TrimSpace (CR_IdempotencyKey request)) request (CS_BaseRevisions row) t ops risk), wc.
  split; [by do 2 (etrans; [done|])|]. split; [by split_and!|]. intros existing w2 Hf.
  rewrite run_bind. by rewrite Hf.
Qed.

Lemma Create_guards E s p request w item w' :
  run (Create E s p request) w = (Ok item, w') →
  (TrimSpace (CR_IdempotencyKey request) =? "")%string || (128 <? Z.of_nat (String.length (TrimSpace (CR_IdempotencyKey request)))) = false ∧
  Nat.eqb (length (CR_Operations request)) 0 || Nat.ltb 64 (length (CR_Operations request)) = false.
Proof. unfold Create. destruct (_ || _); [done|]. by destruct (_ || _). Qed.

Lemma replayChangeset_same s p existing item w :
  changesetRequestDigest item = changesetRequestDigest existing → is_ok (changesetRequestDigest item) = true →
  fst (run (replayChangeset s p existing item) w) =
  match fst (run (authorizeChangesetResult s p existing false) w) with Ok _ => Ok existing | Err e => Err e end.
Proof.
  intros Hd Hok. unfold replayChangeset. rewrite run_try. cbn [run]. rewrite <- Hd.
  destruct (changesetRequestDigest item) as [dg|]; [|done]. rewrite run_try. cbn [run]. rewrite String.eqb_refl.
  cbn [negb]. rewrite run_try. by destruct (run (authorizeChangesetResult _ _ _ _) w) as [[] ?].
Qed.

(** Replaying a request returns the original: once a principal has created a
    changeset for a new idempotency key, the same request by the same principal is never a
    conflict, whatever happened to the changeset since; when nothing fails it returns the
    stored changeset, unless the check of the caller's current rights on it refuses. *)
Theorem Create_replays `{!CodecLaws} E s p request w item w1 w2 E' r w3 :
  rtc call_step initialWorld w →
  (∀ row, row ∈ rows (st w) → CS_PrincipalID row = P_ID p → CS_IdempotencyKey row ≠ TrimSpace (CR_IdempotencyKey request)) →
  run (Create E s p request) w = (Ok item, w1) → is_ok (changesetRequestDigest item) = true →
  rtc call_step w1 w2 → reliable E' → run (Create E' s p request) w2 = (r, w3) →
  ∃ row wr, row ∈ rows (st w2) ∧ CS_ID row = CS_ID item ∧ st wr = st w2 ∧
    r = match fst (run (authorizeChangesetResult s p row false) wr) with Ok _ => Ok row | Err e => Err e end.
Proof.
  intros Hreach Hfresh Hcreate Hdg Hcalls HE Hretry.
  destruct (calls_good _ _ Hreach initial_Inv) as [HI _]. destruct (Create_good _ _ _ _ _ _ _ Hcreate HI) as [HI1 _].
  destruct (calls_good _ _ Hcalls HI1) as [HI2 Hev].
  destruct (Create_newRow _ _ _ _ _ _ _ Hcreate HI Hfresh) as (Hitem & row1 & Hrow1 & Hid1 & Hnew1).
  destruct (Hev row1 Hrow1) as (row & Hrow & Hplan & _). pose proof (newRow_evolves _ _ _ _ _ Hplan Hnew1) as Hnew.
  destruct (Create_guards _ _ _ _ _ _ _ Hcreate) as [Hg1 Hg2].
  destruct (Create_reaches E' s p request w2 row HE Hnew Hg1 Hg2) as (req & w4 & Hq & Hreq & Hrun).
  rewrite <- (proj1 Hq) in Hrow.
  destruct (findChangeset_reliable E' w4 row HE (quiet_Inv _ _ Hq HI2) Hrow) as (w5 & Hfind & Hs5).
  pose proof Hnew as (Hp & Hk & _). rewrite Hp, Hk in Hfind. rewrite (Hrun _ _ Hfind) in Hretry.
  exists row, w5. rewrite (proj1 Hq) in Hrow. split_and!; [done|by rewrite (proj1 Hplan)|by rewrite Hs5, (proj1 Hq)|].
  rewrite <- (replayChangeset_same s p row req w5).
  - by rewrite Hretry.
  - by apply (newRow_digest s p request).
  - by rewrite (newRow_digest s p request req item).
Qed.

(** ** One-time results *)

Definition withHandlers (s : Service) (hs : gmap string MutationHandler) : Service :=
  {| catalog := catalog s; handlers := hs; validators := validators s; revisionResolvers := revisionResolvers s;
     replayAuthorizer := replayAuthorizer s; resultAuthorizer := resultAuthorizer s |}.

(** Two outcomes of a handler that differ at most in the part that is returned once. *)
Inductive sameStored : result AErr HandlerResult → result AErr HandlerResult → Prop :=
| same_error e : sameStored (Err e) (Err e)
| same_plain v : sameStored (Ok (Plain v)) (Ok (Plain v))
| same_protected public once once' :
    sameStored (Ok (MutationResult public once)) (Ok (MutationResult public once')).

Lemma sameStored_public r1 r2 :
  sameStored r1 r2 →
  match r1, r2 with
  | Ok v1, Ok v2 => publicResult v1 = publicResult v2
  | Err e1, Err e2 => e1 = e2
  | _, _ => False
  end.
Proof. by destruct 1. Qed.

Definition sameStoredHandlers (h1 h2 : gmap string MutationHandler) : Prop :=
  ∀ name, match h1 !! name, h2 !! name with
          | Some f, Some g => ∀ t revs p input, sameStored (f t revs p input) (g t revs p input)
          | None, None => True
          | _, _ => False
          end.

Lemma run_each_ext {S A} (f g : A → S → prog World (result AErr S)) l a w :
  (∀ x a, f x a = g x a) → run (each f l a) w = run (each g l a) w.
Proof.
  intros Hfg. revert a w; induction l as [|x l IH]; intros a w; [done|]. cbn [each]. rewrite !run_try, Hfg.
  destruct (run (g x a) w) as [[] ?]; auto.
Qed.

Lemma validateOperations_handlers E s hs p item w :
  sameStoredHandlers (handlers s) hs →
  run (validateOperations E s p item) w = run (validateOperations E (withHandlers s hs) p item) w.
Proof.
  intros Hh. unfold validateOperations. rewrite !run_try. cbn [run].
  destruct (decodeRevisions _); [|done]. rewrite !run_try. unfold inspectOperations.
  rewrite (run_each_ext _ (inspectOperation E (withHandlers s hs) p item)); [done|].
  intros op [ev cur]. unfold inspectOperation. simpl. specialize (Hh (OP_Capability op)).
  destruct (handlers s !! _), (hs !! _); done.
Qed.

Lemma applyOperations_stored E s hs p item done res1 res2 todo w :
  sameStoredHandlers (handlers s) hs → publicResult <$> res1 = publicResult <$> res2 →
  snd (run (applyOperations E s p item done res1 todo) w) =
  snd (run (applyOperations E (withHandlers s hs) p item done res2 todo) w).
Proof.
  intros Hh. revert done res1 res2 w. induction todo as [|op todo IH]; intros done res1 res2 w Hres; cbn [applyOperations].
  - rewrite !run_bind. destruct (run (now E) w) as [t w1]. rewrite !run_try, Hres.
    by destruct (run (updateChangeset _ _) w1) as [[] ?].
  - simpl handlers. pose proof (Hh (OP_Capability op)) as Hop.
    destruct (handlers s !! OP_Capability op) as [f|], (hs !! OP_Capability op) as [g|]; try done.
    rewrite !run_bind. cbn [run execute]. pose proof (sameStored_public _ _ (Hop (tick w) (CS_BaseRevisions item) p (OP_Input op))) as Hout. clear Hop.
    rewrite !run_bind. destruct (run (now E) _) as [t w1].
    destruct (f _ _ _ _) as [v1|e1], (g _ _ _ _) as [v2|e2]; try done; [|by subst].
    rewrite !run_bind, Hout. destruct (run (updateOperation _ _) w1) as [[[]|e] w2]; [|done].
    apply IH. by rewrite !fmap_app, Hres; simpl; rewrite Hout.
Qed.

(** One-time results (credentials, enrollment commands) are never stored: the world
    after [Apply] does not depend on the one-time part of what the handlers return. *)
Theorem one_time_results_not_stored E s hs p id w :
  sameStoredHandlers (handlers s) hs →
  snd (run (Apply E s p id) w) = snd (run (Apply E (withHandlers s hs) p id) w).
Proof.
  intros Hh. unfold Apply. rewrite !run_try. destruct (run (authorizedChangeset _ _ _) w) as [[item|e] w1]; [|done].
  destruct (bool_decide _); [done|]. destruct (negb _); [done|].
  rewrite !run_bind. destruct (run (now E) w1) as [t w2]. destruct (_ <=? _); [done|]. destruct (negb _); [done|].
  rewrite !run_bind, <- validateOperations_handlers by done.
  destruct (run (validateOperations _ _ _ _) w2) as [[ev|cause] w3]; [|done].
  rewrite !run_try. destruct (run (automaticAllowed _ _ _) w3) as [[a|e] w4]; [|done].
  rewrite !run_bind. destruct (run (now E) w4) as [t' w5]. rewrite !run_try.
  destruct (run (claimChangeset _ _ _) w5) as [[[]|e] w6]; [|done|done]. by apply applyOperations_stored.
Qed.
End contracts.

(** ** Runs of the model *)

#[local] Existing Instances demoCodec demoRange.

Lemma compareRevisions_exact_witness :
  compareRevisions {[ "server:1" := "r1" ]} {[ "server:1" := "r1" ]} = Ok () ∧
  compareRevisions {[ "server:1" := "r1" ]} {[ "server:1" := "r2" ]} ≠ Ok ().
Proof.
  split.
  - apply (proj2 (compareRevisions_exact {[ "server:1" := "r1" ]} {[ "server:1" := "r1" ]}
      ltac:(intros k v Hk; apply lookup_singleton_Some in Hk as [_ <-]; discriminate))). reflexivity.
  - vm_compute. discriminate.
Defined.

(** A world in which the changeset is approved and not applied. *)
Definition approvedWorld : World :=
  Eval vm_compute in snd (run (Approve claimFailsEnv demoService demoOperator "chg_0" "ok") demoValidated).

Definition appliedWorld : World := Eval vm_compute in snd (run (Apply demoEnv demoService demoOperator "chg_0") approvedWorld).

Lemma Apply_executes_only_witness :
  execs (history appliedWorld) = [("chg_0", 0)] ∧
  ∃ row, row ∈ rows (st approvedWorld) ∧ CS_ID row = "chg_0" ∧ CS_Status row = ChangesetApproved.
Proof.
  split; [vm_compute; reflexivity|].
  destruct (Apply_executes_only demoEnv demoService demoOperator "chg_0" approvedWorld
    (fst (run (Apply demoEnv demoService demoOperator "chg_0") approvedWorld)) appliedWorld ("chg_0"%string, 0))
    as (row & Hrow & Hid & Hst & _).
  - vm_compute. reflexivity.
  - vm_compute. left.
  - vm_compute. intros Hn. inversion Hn.
  - exists row. split; [exact Hrow|]. split; [exact Hid|exact Hst].
Defined.

Lemma Create_once_witness :
  let w := snd (run (Create demoEnv demoService demoOperator demoRequest) demoApplied) in
  st w = st demoApplied.
Proof.
  cbv zeta.
  destruct (run (Create demoEnv demoService demoOperator demoRequest) demoApplied) as [r w3] eqn:Hretry.
  destruct (run (Create demoEnv demoService demoOperator demoRequest) initialWorld) as [[item|e] w1] eqn:Hc;
    [|vm_compute in Hc; discriminate].
  assert (w1 = demoCreated) as -> by (unfold demoCreated; rewrite Hc; reflexivity).
  exact (proj1 (Create_once demoEnv demoService demoOperator demoRequest initialWorld item demoCreated demoApplied
    demoEnv demoService demoOperator demoRequest r w3 (rtc_refl _ _) Hc
    (rtc_l _ _ _ _ demo_validate_step (rtc_once _ _ demo_apply_step)) eq_refl eq_refl Hretry)).
Defined.

#[local] Instance demoCodecLaws : CodecLaws.
Proof. split; [|done]. intros t u Hr. simpl in Hr. destruct t as [|[[] [] [] [] [] [] [] []] t]; by simplify_eq. Qed.

Lemma Create_replays_witness :
  ∃ row, row ∈ rows (st demoApplied) ∧ CS_ID row = "chg_0" ∧
    fst (run (Create demoEnv demoService demoOperator demoRequest) demoApplied) = Ok row.
Proof.
  destruct (run (Create demoEnv demoService demoOperator demoRequest) demoApplied) as [r w3] eqn:Hretry.
  destruct (run (Create demoEnv demoService demoOperator demoRequest) initialWorld) as [[item|e] w1] eqn:Hc;
    [|vm_compute in Hc; discriminate].
  assert (w1 = demoCreated) as -> by (unfold demoCreated; rewrite Hc; reflexivity).
  assert (CS_ID item = "chg_0") as Hid by (vm_compute in Hc; injection Hc as <-; reflexivity).
  assert (is_ok (changesetRequestDigest item) = true) as Hd by (vm_compute in Hc; injection Hc as <-; vm_compute; reflexivity).
  destruct (Create_replays demoEnv demoService demoOperator demoRequest initialWorld item demoCreated demoApplied
    demoEnv r w3 (rtc_refl _ _)) as (row & wr & Hrow & Hrid & _ & Hr).
  - intros row Hin. inversion Hin.
  - exact Hc.
  - exact Hd.
  - exact (rtc_l _ _ _ _ demo_validate_step (rtc_once _ _ demo_apply_step)).
  - split; [reflexivity|]. intros t. eexists. reflexivity.
  - exact Hretry.
  - exists row. split; [exact Hrow|]. split; [congruence|]. simpl fst. rewrite Hr.
    assert (∀ w, fst (run (authorizeChangesetResult demoService demoOperator row false) w) = Ok ()) as ->; [|reflexivity].
    intros w. vm_compute in Hrow. inversion Hrow as [|? ? ? Hnil]; subst; [vm_compute; reflexivity|inversion Hnil].
Defined.

Definition demoOtherHandlers : gmap string MutationHandler :=
  {[ "servers.update" := λ _ _ _ _, Ok (MutationResult (DString "stored") None) ]}.

Lemma one_time_results_not_stored_witness :
  snd (run (Apply demoEnv demoService demoOperator "chg_0") approvedWorld) =
  snd (run (Apply demoEnv (withHandlers demoService demoOtherHandlers) demoOperator "chg_0") approvedWorld).
Proof.
  refine (one_time_results_not_stored demoEnv demoService demoOtherHandlers demoOperator "chg_0" approvedWorld _).
  intros name. unfold demoOtherHandlers. simpl. destruct (decide (name = "servers.update")) as [->|Hn].
  - rewrite !lookup_singleton. destruct (decide _); [|done]. intros. apply same_protected.
  - rewrite !lookup_singleton_ne by congruence. exact I.
Defined.

(** An environment whose clock is past every expiry. *)
Definition lateEnv : Env :=
  {| env_now _ := 10 ^ 18; env_fails _ := false; env_random t := Ok (FormatInt (Z.of_nat t));
     env_policy _ _ _ := None; env_principalType _ _ := Some "service_account"; env_serverCreatedAt _ _ := None |}.

(** [Validate] compares the expiry before it looks at the state: called after the
    expiry, it overwrites the status of a changeset that was applied successfully. *)
Theorem Validate_expires_succeeded :
  (CS_Status <$> rows (st demoApplied)) = [ChangesetSucceeded] ∧
  (CS_Status <$> rows (st (snd (run (Validate lateEnv demoService demoOperator "chg_0") demoApplied)))) =
    [ChangesetExpired].
Proof. vm_compute. auto. Qed.
