(* ===== verification/AutomationRace.v ===== *)
(** * What the automation service guarantees when its calls interleave

    A pool of calls takes steps in any order, one store statement or external call at a
    time.  The claim of [Apply] is a compare-and-set on the status, so a pool of [Apply]
    calls executes every operation at most once, whatever the schedule.  [Approve] and
    [Validate] write the status without a guard: two approvals that interleave execute the
    changeset twice. *)

From S2P Require Import Prelude Model NodeKeys Rbac McpAuth Capability ChangesetStore Prog Automation AutomationSafety.

Local Open Scope Z_scope.

Section race.
Context `{!Codec, !MapRange string string}.

(** ** Permissions to execute *)

Definition wf (w : World) : Prop := ∀ r, r ∈ rows (st w) → NoDup (OP_Position <$> CS_Operations r).

Definition approvedIn (w : World) (id : string) : Prop :=
  ∃ r, r ∈ rows (st w) ∧ CS_ID r = id ∧ CS_Status r = ChangesetApproved.

(** The effect of one step of a call on the permissions the call holds: none, the use of
    one, or the acquisition of those of a changeset that stops being approved. *)
Inductive gstep (w w' : World) (may : list (string * Z)) : list (string * Z) → Prop :=
| gstep_calm :
    execs (history w') = execs (history w) → (∀ id, approvedIn w' id → approvedIn w id) →
    gstep w w' may may
| gstep_exec x may' :
    may = x :: may' → execs (history w') = execs (history w) ++ [x] →
    (∀ id, approvedIn w' id → approvedIn w id) → gstep w w' may may'
| gstep_claim id positions :
    execs (history w') = execs (history w) → approvedIn w id → ¬ approvedIn w' id →
    (∀ id', approvedIn w' id' → approvedIn w id') → NoDup positions →
    gstep w w' may (((λ pos, (id, pos)) <$> positions) ++ may).

(** The steps of a program respect the permissions it holds, from every world: what runs
    between two of its steps is unknown. *)
Fixpoint gwp {A} (p : prog World A) (Q : A → list (string * Z) → Prop) (may : list (string * Z)) : Prop :=
  match p with
  | Ret a => Q a may
  | Call c k => ∀ w r w', wf w → c w = (r, w') → wf w' ∧ ∃ may', gstep w w' may may' ∧ gwp (k r) Q may'
  end.

Lemma gwp_bind {A B} (p : prog World A) (f : A → prog World B) Q may :
  gwp p (λ a may', gwp (f a) Q may') may → gwp (bind p f) Q may.
Proof.
  revert may; induction p as [a|R c k IH]; intros may; simpl; [done|]. intros Hp w r w' Hwf Hc.
  destruct (Hp w r w' Hwf Hc) as (Hwf' & may' & Hs & Hk). split; [done|]. exists may'. auto.
Qed.

Lemma gwp_try {A B} (p : prog World (result AErr A)) (f : A → prog World (result AErr B)) Q may :
  gwp p (λ r may', match r with Ok a => gwp (f a) Q may' | Err e => Q (Err e) may' end) may → gwp (try p f) Q may.
Proof.
  intros Hp. apply gwp_bind. revert may Hp. induction p as [a|R c k IH]; intros may; simpl.
  { by destruct a. }
  intros Hp w r w' Hwf Hc. destruct (Hp w r w' Hwf Hc) as (Hwf' & may' & Hs & Hk). split; [done|]. exists may'. auto.
Qed.

Lemma gwp_quiet {A} (p : prog World A) Q may : steps_in quiet p → (∀ a, Q a may) → gwp p Q may.
Proof.
  intros Hp HQ. induction p as [a|R c k IH]; simpl in *; [done|]. intros w r w' Hwf Hc.
  destruct (Hp w r w' Hc) as [Hq Hk]. pose proof (quiet_execs _ _ Hq) as He. destruct Hq as [Hs _].
  split; [unfold wf; by rewrite Hs|]. exists may. split; [|auto].
  apply gstep_calm; [done|]. unfold approvedIn. by rewrite Hs.
Qed.

(** A statement that rewrites rows, keeps their keys and positions, and approves none. *)
Lemma calm_rewrite w w' f may :
  rows (st w') = f <$> rows (st w) → history w' = history w → wf w →
  (∀ r, CS_ID (f r) = CS_ID r ∧ (OP_Position <$> CS_Operations (f r)) = (OP_Position <$> CS_Operations r) ∧
        (CS_Status (f r) = ChangesetApproved → CS_Status r = ChangesetApproved)) →
  wf w' ∧ gstep w w' may may.
Proof.
  intros Hrows Hh Hwf Hf. split.
  - intros r'. rewrite Hrows. intros (r & -> & Hr)%list_elem_of_fmap. destruct (Hf r) as (_ & -> & _). auto.
  - apply gstep_calm; [by rewrite Hh|]. intros id (r' & Hr' & Hid & Hst). rewrite Hrows in Hr'.
    apply list_elem_of_fmap in Hr' as (r & -> & Hr). destruct (Hf r) as (Hi & _ & Ha). exists r.
    split_and!; [done|congruence|auto].
Qed.

Lemma gwp_db {R} E (f : Z → Store → result AErr R * Store) Q may :
  (∀ w r w', wf w → run (db E f) w = (r, w') → wf w' ∧ ∃ may', gstep w w' may may' ∧ Q r may') →
  gwp (db E f) Q may.
Proof.
  intros Hdb w r w' Hwf Hc. apply (Hdb w r w' Hwf). unfold db. cbn [run].
  cbv beta in Hc |- *. by rewrite Hc.
Qed.

Lemma gwp_update E item Q may :
  CS_Status item ≠ ChangesetApproved → (∀ r, Q r may) → gwp (updateChangeset E item) Q may.
Proof.
  intros Hst HQ. apply gwp_db. intros w r w' Hwf Hc%db_run. destruct Hc as [Hh [[-> Hs]|[ts Hts]]].
  - assert (wf w' ∧ gstep w w' may may) as []; [|eauto].
    apply (calm_rewrite w w' id); [by rewrite Hs, list_fmap_id|done|done|]. by intros x.
  - injection Hts as -> Hs. assert (wf w' ∧ gstep w w' may may) as []; [|eauto].
    eapply calm_rewrite; [by rewrite Hs|done|done|]. intros x. simpl.
    destruct (_ =? _)%string; [|done]. by split_and!.
Qed.

Lemma gwp_updateOperation E op Q may : (∀ r, Q r may) → gwp (updateOperation E op) Q may.
Proof.
  intros HQ. apply gwp_db. intros w r w' Hwf Hc%db_run. destruct Hc as [Hh [[-> Hs]|[ts Hts]]].
  - assert (wf w' ∧ gstep w w' may may) as []; [|eauto].
    apply (calm_rewrite w w' id); [by rewrite Hs, list_fmap_id|done|done|]. by intros x.
  - injection Hts as -> Hs. assert (wf w' ∧ gstep w w' may may) as []; [|eauto].
    eapply calm_rewrite; [by rewrite Hs|done|done|]. intros x. split; [done|]. split; [|done].
    apply samePlan_positions, setOperations_plan.
Qed.

Lemma gwp_execute h item p op Q may :
  (∀ r, Q r may) → gwp (execute h item p op) Q ((CS_ID item, OP_Position op) :: may).
Proof.
  intros HQ w r w' Hwf [= <- <-]. split; [done|]. exists may. split; [|apply HQ].
  eapply gstep_exec; [done| |done]. simpl. by rewrite execs_app.
Qed.

Lemma gwp_claim E id at_ positions Q may :
  NoDup positions → Q (Ok true) (((λ pos, (id, pos)) <$> positions) ++ may) →
  Q (Ok false) may → (∀ e, Q (Err e) may) → gwp (claimChangeset E id at_) Q may.
Proof.
  intros Hnd Ht Hf He. apply gwp_db. intros w r w' Hwf Hc%db_run. destruct Hc as [Hh [[-> Hs]|[ts Hts]]].
  - assert (wf w' ∧ gstep w w' may may) as []; [|eauto].
    apply (calm_rewrite w w' (λ x, x)); [by rewrite Hs, list_fmap_id|done|done|]. by intros x.
  - injection Hts as -> Hs.
    set (f row := if claimable id row then claimedRow at_ row else row).
    assert (∀ x, CS_ID (f x) = CS_ID x ∧ (OP_Position <$> CS_Operations (f x)) = (OP_Position <$> CS_Operations x) ∧
        (CS_Status (f x) = ChangesetApproved → CS_Status x = ChangesetApproved)) as Hfx.
    { intros x. unfold f. by destruct (claimable id x). }
    assert (rows (st w') = f <$> rows (st w)) as Hrows by (by rewrite Hs).
    destruct (calm_rewrite w w' f may Hrows Hh Hwf Hfx) as [Hwf' Hcalm]. split; [done|].
    destruct (Nat.eqb _ 1) eqn:Hone; [|eauto]. eexists. split; [|exact Ht].
    apply gstep_claim; [by rewrite Hh| | | |done].
    + apply Nat.eqb_eq in Hone. destruct (List.filter (claimable id) (rows (st w))) as [|row l] eqn:Hfl; [done|].
      assert (In row (List.filter (claimable id) (rows (st w)))) as [Hin Hc]%filter_In by (rewrite Hfl; by left).
      unfold claimable in Hc. apply andb_true_iff in Hc as [Hid Hst]. exists row.
      split_and!; [by apply list_elem_of_In|by apply String.eqb_eq|by apply bool_decide_eq_true in Hst].
    + intros (x & Hx & Hid & Hst). rewrite Hrows in Hx. apply list_elem_of_fmap in Hx as (y & -> & Hy).
      unfold f in Hid, Hst. destruct (claimable id y) eqn:Hc; [done|]. unfold claimable in Hc.
      rewrite Hid, String.eqb_refl, Hst, bool_decide_true in Hc; done.
    + intros id' (x & Hx & Hid & Hst). rewrite Hrows in Hx. apply list_elem_of_fmap in Hx as (y & -> & Hy).
      exists y. destruct (Hfx y) as (? & _ & ?). split_and!; [done|congruence|auto].
Qed.

(** ** Apply respects its permissions *)

Definition held (id : string) (ops : list AutomationOperation) : list (string * Z) :=
  (λ pos, (id, pos)) <$> (OP_Position <$> ops).

Definition anything {A} (_ : A) (_ : list (string * Z)) : Prop := True.

Lemma gwp_authorizedChangeset E p id Q may :
  (∀ item, NoDup (OP_Position <$> CS_Operations item) → Q (Ok item) may) → (∀ e, Q (Err e) may) →
  gwp (authorizedChangeset E p id) Q may.
Proof.
  intros Hok Herr. unfold authorizedChangeset. apply gwp_try. apply gwp_db. intros w r w' Hwf Hrun.
  pose proof (quiet_run _ _ _ _ (db_read_quiet E _) Hrun) as Hq.
  assert (wf w' ∧ gstep w w' may may) as [Hwf' Hs].
  { apply (calm_rewrite w w' (λ x, x)); [by rewrite (proj1 Hq), list_fmap_id| |done|by intros x].
    by apply db_run in Hrun as [? _]. }
  split; [done|]. exists may. split; [done|]. destruct r as [item|e]; [|done].
  apply Get_found in Hrun as (_ & Hin & _). destruct (_ && _); simpl; [done|]. apply Hok. by apply Hwf.
Qed.

Lemma gwp_failChangeset E item cause may : gwp (failChangeset E item cause) anything may.
Proof.
  unfold failChangeset. apply gwp_bind, gwp_quiet; [apply external_quiet|]. intros t.
  apply gwp_bind, gwp_update; [done|]. by intros r.
Qed.

Lemma gwp_applyOperations E s p item done results todo :
  gwp (applyOperations E s p item done results todo) anything (held (CS_ID item) todo).
Proof.
  revert done results. induction todo as [|op todo IH]; intros done results; cbn [applyOperations].
  - apply gwp_bind, gwp_quiet; [apply external_quiet|]. intros t. apply gwp_try, gwp_update; [done|]. by intros [].
  - destruct (handlers s !! OP_Capability op) as [h|].
    + apply gwp_bind. apply gwp_execute. intros res. apply gwp_bind, gwp_quiet; [apply external_quiet|]. intros t.
      destruct res as [v|e]; apply gwp_bind, gwp_updateOperation; [|intros r; apply gwp_failChangeset].
      intros [[]|e]; [apply IH|apply gwp_failChangeset].
    + unfold failOperation. apply gwp_bind, gwp_quiet; [apply external_quiet|]. intros t.
      apply gwp_bind, gwp_updateOperation. intros r. apply gwp_failChangeset.
Qed.

Lemma gwp_retire {A} E item (a : A) may :
  CS_Status item ≠ ChangesetApproved → gwp (bind (updateChangeset E item) (λ _, Ret a)) anything may.
Proof. intros Hst. by apply gwp_bind, gwp_update. Qed.

Lemma gwp_Apply E s p id : gwp (Apply E s p id) anything [].
Proof.
  unfold Apply. apply gwp_try, gwp_authorizedChangeset; [|done]. intros item Hnd.
  destruct (bool_decide _); [done|]. destruct (negb _); [done|].
  apply gwp_bind, gwp_quiet; [apply external_quiet|]. intros t.
  destruct (_ <=? _); [by apply gwp_retire|]. destruct (negb _); [by apply gwp_retire|].
  apply gwp_bind, gwp_quiet; [apply validateOperations_quiet|]. intros [ev|cause]; [|by apply gwp_retire].
  apply gwp_try, gwp_quiet; [apply automaticAllowed_quiet|]. intros [a|e]; [|done].
  apply gwp_bind, gwp_quiet; [apply external_quiet|]. intros t'.
  apply gwp_try, (gwp_claim _ _ _ (OP_Position <$> CS_Operations item)); [done| |done|done].
  cbn [negb]. rewrite app_nil_r. apply (gwp_applyOperations E s p (setApplying t' item)).
Qed.

(** ** Pools *)

(** Every call of the pool has its permissions; they and the executed operations are
    pairwise distinct, and belong to changesets that are not approved. *)
Definition pool_ok {A} (ps : list (prog World A)) (w : World) : Prop :=
  ∃ mays, Forall2 (λ p may, gwp p anything may) ps mays ∧ wf w ∧
    NoDup (concat mays ++ execs (history w)) ∧
    ∀ id pos, (id, pos) ∈ concat mays ++ execs (history w) → ¬ approvedIn w id.

Lemma concat_middle {A} (l1 l2 : list (list A)) m : concat (l1 ++ m :: l2) ≡ₚ m ++ concat (l1 ++ l2).
Proof. rewrite !concat_app. simpl. rewrite !app_assoc. f_equiv. apply Permutation_app_comm. Qed.

(** The permissions after a step are distinct and not approved. *)
Lemma gstep_ok w w' may may' others :
  gstep w w' may may' →
  NoDup (may ++ others ++ execs (history w)) →
  (∀ id pos, (id, pos) ∈ may ++ others ++ execs (history w) → ¬ approvedIn w id) →
  NoDup (may' ++ others ++ execs (history w')) ∧
  (∀ id pos, (id, pos) ∈ may' ++ others ++ execs (history w') → ¬ approvedIn w' id).
Proof.
  intros [He Ha|x m -> He Ha|id0 poss He Hin Hout Ha Hposs] Hnd Hna; rewrite He.
  - split; [done|]. intros id pos Hx Hap. by apply (Hna id pos); auto.
  - assert (m ++ others ++ execs (history w) ++ [x] ≡ₚ (x :: m) ++ others ++ execs (history w)) as Hperm.
    { rewrite !app_assoc, <- Permutation_cons_append. done. }
    split; [by rewrite Hperm|]. intros id pos. rewrite Hperm. intros Hx Hap. by apply (Hna id pos); auto.
  - split.
    + rewrite <- app_assoc. apply NoDup_app. split_and!; [|..|done].
      * apply NoDup_fmap_2; [|done]. by intros ? ? [= ->].
      * intros x (pos & -> & _)%list_elem_of_fmap Hx. by apply (Hna _ _ Hx).
    + intros id pos. rewrite <- app_assoc, elem_of_app. intros [Hx|Hx] Hap.
      * apply list_elem_of_fmap in Hx as (? & ? & _). simplify_eq. done.
      * by apply (Hna id pos); auto.
Qed.

Lemma pool_step_ok {A} (ps ps' : list (prog World A)) w w' :
  pool_step (ps, w) (ps', w') → pool_ok ps w → pool_ok ps' w'.
Proof.
  intros Hstep (mays & Hall & Hwf & Hnd & Hna). inversion Hstep as [pre post R c k w0 r w1 Hc Heq1 Heq2]. subst.
  apply Forall2_app_inv_l in Hall as (mpre & mrest & Hpre & Hrest & ->).
  apply Forall2_cons_inv_l in Hrest as (may & mpost & Hp & Hpost & ->).
  destruct (Hp w r w' Hwf Hc) as (Hwf' & may' & Hg & Hk).
  assert (∀ m h, concat (mpre ++ m :: mpost) ++ h ≡ₚ m ++ concat (mpre ++ mpost) ++ h) as Hperm.
  { intros m h. by rewrite concat_middle, app_assoc. }
  destruct (gstep_ok w w' may may' (concat (mpre ++ mpost)) Hg) as [Hnd' Hna'].
  { by rewrite <- Hperm. }
  { intros id pos. rewrite <- Hperm. apply Hna. }
  exists (mpre ++ may' :: mpost). split_and!; [|done|by rewrite Hperm|].
  - apply Forall2_app; [done|]. by constructor.
  - intros id pos. rewrite Hperm. apply Hna'.
Qed.

Lemma pool_steps_ok {A} (c c' : list (prog World A) * World) :
  rtc pool_step c c' → pool_ok c.1 c.2 → pool_ok c'.1 c'.2.
Proof.
  induction 1 as [|[ps1 w1] [ps2 w2] c3 Hs _ IH]; [done|]. intros Hok. apply IH. by eapply pool_step_ok.
Qed.

Lemma Inv_pool_ok w (ps : list (prog World (result AErr AutomationChangeset))) :
  Inv w → Forall (λ p, ∃ E s pr id, p = Apply E s pr id) ps → pool_ok ps w.
Proof.
  intros HI Hps. exists (replicate (length ps) []).
  assert (concat (replicate (length ps) ([] : list (string * Z))) = []) as Hnil.
  { generalize (length ps) as n. intros n. induction n as [|n IHn]; [done|exact IHn]. }
  rewrite Hnil. simpl. split_and!; [|exact (inv_positions w HI)|exact (inv_once w HI)|].
  - clear -Hps. induction Hps as [|p ps (E & s & pr & id & ->) _ IH]; simpl; [constructor|].
    constructor; [apply gwp_Apply|exact IH].
  - intros id pos Hx (r & Hr & Hid & Hst). destruct (inv_exec w HI id pos Hx) as (r' & Hr' & Hid' & Hc & _).
    assert (r = r') as -> by (apply (row_unique w); auto; congruence). by rewrite Hst in Hc.
Qed.

(** C3. Concurrent [Apply] calls: in whatever order the steps of any number of [Apply]
    calls interleave, by any principals and on a store left by any earlier calls, every
    operation of every changeset is executed at most once. *)
Theorem concurrent_applies_execute_once w ps ps' w' :
  rtc call_step initialWorld w →
  Forall (λ p, ∃ E s pr id, p = Apply E s pr id) ps →
  rtc pool_step (ps, w) (ps', w') →
  NoDup (execs (history w')).
Proof.
  intros Hreach Hps Hsteps. destruct (calls_good _ _ Hreach initial_Inv) as [HI _].
  destruct (pool_steps_ok _ _ Hsteps (Inv_pool_ok w ps HI Hps)) as (mays & _ & _ & Hnd & _).
  by apply NoDup_app in Hnd as (_ & _ & Hnd).
Qed.
(** ** What every interleaving keeps *)

(** The plan of a changeset and its place in the store. *)
Definition planned (r : AutomationChangeset) :=
  (CS_ID r, CS_PrincipalID r, CS_IdempotencyKey r, CS_BaseRevisions r, planOp <$> CS_Operations r, CS_Reason r).

Definition changesetKey (r : AutomationChangeset) : string * string := (CS_PrincipalID r, CS_IdempotencyKey r).

Definition uniqueRows (w : World) : Prop := NoDup (CS_ID <$> rows (st w)) ∧ NoDup (changesetKey <$> rows (st w)).

(** The change of a row; [guarded] steps never reopen a closed one. *)
Definition keepsRow (guarded : bool) (r r' : AutomationChangeset) : Prop :=
  planned r' = planned r ∧ (guarded = true → closed (CS_Status r) = true → closed (CS_Status r') = true).

Definition keepsRows (guarded : bool) (w w' : World) : Prop :=
  (uniqueRows w → uniqueRows w') ∧ ∀ r, r ∈ rows (st w) → ∃ r', r' ∈ rows (st w') ∧ keepsRow guarded r r'.

Global Instance keepsRows_preorder g : PreOrder (keepsRows g).
Proof.
  split; [intros w; split; [done|]; intros r Hr; by exists r|]. intros w1 w2 w3 [Hu1 H1] [Hu2 H2]. split; [auto|]. intros r Hr.
  destruct (H1 r Hr) as (r2 & Hr2 & Hp2 & Hc2). destruct (H2 r2 Hr2) as (r3 & Hr3 & Hp3 & Hc3). exists r3. split; [done|]. split; [congruence|auto].
Qed.

Lemma quiet_keepsRows {A} g (p : prog World A) : steps_in quiet p → steps_in (keepsRows g) p.
Proof.
  induction p as [a|R c k IH]; simpl; [done|]. intros Hp w r w' Hc. destruct (Hp w r w' Hc) as [[Hs _] Hk]. split; [|by apply IH].
  unfold keepsRows, uniqueRows. rewrite Hs. split; [done|]. intros x Hx. by exists x.
Qed.

(** A statement that rewrites the rows. *)
Lemma db_keepsRows {R} g E (f : Z → Store → result AErr R * Store) :
  (∀ ts s, rows (f ts s).2 = rows s ∨ ∃ h, rows (f ts s).2 = h <$> rows s ∧ ∀ r, keepsRow g r (h r)) → steps_in (keepsRows g) (db E f).
Proof.
  intros Hf. cbn. intros w r w' Hc. split; [|done]. destruct (env_fails E (tick w)).
  { injection Hc as <- <-. unfold keepsRows, uniqueRows. cbn. split; [done|]. intros x Hx. by exists x. }
  destruct (f (env_now E (tick w)) (st w)) as [r1 s1] eqn:Hs. injection Hc as <- <-. specialize (Hf (env_now E (tick w)) (st w)). rewrite Hs in Hf. cbn in Hf.
  unfold keepsRows, uniqueRows. cbn. destruct Hf as [->|(h & -> & Hh)]; [split; [done|]; intros x Hx; by exists x|]. split.
  - rewrite <-!list_fmap_compose. intros [Hi Hk]. split; (erewrite list_fmap_ext; [eassumption|]); intros i x _; cbn; destruct (Hh x) as [Hp _];
      unfold planned, changesetKey in *; congruence.
  - intros x Hx. exists (h x). split; [by apply list_elem_of_fmap_2|done].
Qed.

Lemma update_keepsRows g E item : (g = true → closed (CS_Status item) = true) → steps_in (keepsRows g) (updateChangeset E item).
Proof.
  intros Hg. apply db_keepsRows. intros ts s. right. cbn. eexists. split; [done|]. intros r. cbn. destruct (_ =? _)%string; [|done]. split; [done|]. auto.
Qed.

Lemma claim_keepsRows g E id at_ : steps_in (keepsRows g) (claimChangeset E id at_).
Proof.
  apply db_keepsRows. intros ts s. right. cbn. eexists. split; [done|]. intros r. cbn. by destruct (claimable _ _).
Qed.

Lemma updateOperation_keepsRows g E op : steps_in (keepsRows g) (updateOperation E op).
Proof.
  apply db_keepsRows. intros ts s. right. cbn. eexists. split; [done|]. intros r. cbn. split; [|done].
  destruct (setOperations_plan op r) as (H1 & H2 & H3 & H4 & H5 & H6 & _). unfold planned. congruence.
Qed.

Lemma createApproval_keepsRows g E a : steps_in (keepsRows g) (createApproval E a).
Proof. apply db_keepsRows. intros ts s. left. unfold CreateAutomationApproval. by case_match. Qed.

Lemma execute_keepsRows g h item p op : steps_in (keepsRows g) (execute h item p op).
Proof.
  cbn. intros w r w' [= <- <-]. split; [|done]. unfold keepsRows, uniqueRows. cbn. split; [done|]. intros x Hx. by exists x.
Qed.

Lemma createChangeset_keepsRows g E c : steps_in (keepsRows g) (createChangeset E c).
Proof.
  cbn. intros w r w' Hc. split; [|done].
  assert (∀ s r s', (r, s') = CreateAutomationChangeset (env_now E (tick w)) c s → rows s' = rows s ∨
    rows s' = rows s ++ [insertedRow (setCreated (env_now E (tick w)) c)] ∧ insertConflict s c = false) as Hcreate.
  { intros s r' s'. unfold CreateAutomationChangeset. destruct (CS_Operations c); [intros [= _ ->]; auto|]. destruct (insertConflict s c) eqn:Hcon; intros [= _ ->]; auto. }
  destruct (env_fails E (tick w)).
  { injection Hc as <- <-. unfold keepsRows, uniqueRows. cbn. split; [done|]. intros x Hx. by exists x. }
  destruct (CreateAutomationChangeset _ c (st w)) as [r1 s1] eqn:Hs. injection Hc as <- <-. symmetry in Hs. apply Hcreate in Hs as [Hs|[Hs Hcon]];
    unfold keepsRows, uniqueRows; cbn; rewrite Hs; [split; [done|]; intros x Hx; by exists x|].
  split; [|intros x Hx; exists x; split; [set_solver|done]]. intros [Hi Hk]. unfold insertConflict in Hcon. bprop. rewrite !fmap_app. split; apply NoDup_app; (split_and!; [done| |apply NoDup_singleton]).
  - intros x (row & -> & Hrow)%list_elem_of_fmap He%list_elem_of_singleton. cbn in He.
    pose proof (existsb_false_elem (λ row, (CS_ID row =? CS_ID c)%string) (rows (st w)) row ltac:(assumption) Hrow) as Hn. cbn in Hn. by apply String.eqb_neq in Hn.
  - intros x (row & -> & Hrow)%list_elem_of_fmap He%list_elem_of_singleton. unfold changesetKey in He. cbn in He. injection He as He1 He2.
    pose proof (existsb_false_elem (λ row, (CS_PrincipalID row =? CS_PrincipalID c)%string && (CS_IdempotencyKey row =? CS_IdempotencyKey c)%string) (rows (st w)) row ltac:(assumption) Hrow) as Hn.
    cbn in Hn. by rewrite He1, He2, !String.eqb_refl in Hn.
Qed.

(** Walk through a program that writes. *)
Ltac rows_walk :=
  repeat match goal with
  | |- steps_in _ (Ret _) => exact I
  | |- steps_in (keepsRows _) (external _) => apply quiet_keepsRows, external_quiet
  | |- steps_in (keepsRows _) (now _) => apply quiet_keepsRows, external_quiet
  | |- steps_in (keepsRows _) (prefixedID _ _) => apply quiet_keepsRows, external_quiet
  | |- steps_in (keepsRows _) (Get _ _) => apply quiet_keepsRows, db_read_quiet
  | |- steps_in (keepsRows _) (findChangeset _ _ _) => apply quiet_keepsRows, db_read_quiet
  | |- steps_in (keepsRows _) (authorizedChangeset _ _ _) => apply quiet_keepsRows, authorizedChangeset_quiet
  | |- steps_in (keepsRows _) (validateOperations _ _ _ _) => apply quiet_keepsRows, validateOperations_quiet
  | |- steps_in (keepsRows _) (automaticAllowed _ _ _) => apply quiet_keepsRows, automaticAllowed_quiet
  | |- steps_in (keepsRows _) (replayChangeset _ _ _ _) => apply quiet_keepsRows, replayChangeset_quiet
  | |- steps_in (keepsRows _) (createOperation _ _ _ _ _ _) => apply quiet_keepsRows, createOperation_quiet
  | |- steps_in (keepsRows _) (execute _ _ _ _) => apply execute_keepsRows
  | |- steps_in (keepsRows _) (updateOperation _ _) => apply updateOperation_keepsRows
  | |- steps_in (keepsRows _) (claimChangeset _ _ _) => apply claim_keepsRows
  | |- steps_in (keepsRows _) (createApproval _ _) => apply createApproval_keepsRows
  | |- steps_in (keepsRows _) (createChangeset _ _) => apply createChangeset_keepsRows
  | |- steps_in (keepsRows _) (updateChangeset _ _) => apply update_keepsRows; (done || intros _; reflexivity)
  | |- steps_in _ (bind _ _) => apply steps_in_bind; [|intros ?]
  | |- steps_in _ (try _ _) => apply steps_in_try; [|intros ?]
  | |- steps_in _ (each _ _ _) => apply steps_in_each; intros ? ?
  | |- steps_in _ (match ?x with _ => _ end) => destruct x
  end.

Lemma failChangeset_keepsRows g E item cause : steps_in (keepsRows g) (failChangeset E item cause).
Proof. unfold failChangeset. rows_walk. Qed.

Lemma applyOperations_keepsRows g E s p item done results todo : steps_in (keepsRows g) (applyOperations E s p item done results todo).
Proof.
  revert done results; induction todo as [|op todo IH]; intros done results; cbn [applyOperations]; [rows_walk|].
  destruct (handlers s !! OP_Capability op); [|unfold failOperation; rows_walk; apply failChangeset_keepsRows].
  rows_walk; try apply failChangeset_keepsRows. apply IH.
Qed.

Lemma Apply_keepsRows g E s p id : steps_in (keepsRows g) (Apply E s p id).
Proof. unfold Apply. rows_walk. apply applyOperations_keepsRows. Qed.

Lemma Create_keepsRows g E s p request : steps_in (keepsRows g) (Create E s p request).
Proof. unfold Create. rows_walk. Qed.

Lemma Validate_keepsRows E s p id : steps_in (keepsRows false) (Validate E s p id).
Proof. unfold Validate. rows_walk; apply Apply_keepsRows. Qed.

Lemma Approve_keepsRows E s p id comment : steps_in (keepsRows false) (Approve E s p id comment).
Proof. unfold Approve. rows_walk; apply Apply_keepsRows. Qed.

(** The calls of the service; those that do not approve. *)
Inductive serviceCall : bool → prog World (result AErr AutomationChangeset) → Prop :=
| service_create g E s p request : serviceCall g (Create E s p request)
| service_apply g E s p id : serviceCall g (Apply E s p id)
| service_validate E s p id : serviceCall false (Validate E s p id)
| service_approve E s p id comment : serviceCall false (Approve E s p id comment).

Lemma serviceCall_keepsRows g p : serviceCall g p → steps_in (keepsRows g) p.
Proof. destruct 1; [apply Create_keepsRows|apply Apply_keepsRows|apply Validate_keepsRows|apply Approve_keepsRows]. Qed.

Lemma pool_keeps {A} (R : World → World → Prop) `{!PreOrder R} (ps ps' : list (prog World A)) w w' :
  rtc pool_step (ps, w) (ps', w') → Forall (steps_in R) ps → R w w' ∧ Forall (steps_in R) ps'.
Proof.
  intros Hsteps. remember (ps, w) as c eqn:Hc. remember (ps', w') as c' eqn:Hc'. revert ps w Hc.
  induction Hsteps as [c|c [ps1 w1] c'' Hstep _ IH]; intros ps w -> Hps; [by simplify_eq|].
  inversion Hstep as [pre post T f k w0 r w2 Hf]; simplify_eq. apply Forall_app in Hps as [Hpre [Hp Hpost]%Forall_cons].
  destruct (Hp w r w1 Hf) as [HR Hk]. destruct (IH eq_refl _ _ eq_refl) as [HR' Hps']; [by apply Forall_app; split; [|apply Forall_cons]|].
  split; [by etrans|done].
Qed.

(** C32. However the calls of the service overlap, a changeset stays in the store and its plan
    (operations, base revisions, reason) never changes, and its key is unique within its
    principal.  Once it is being applied, has been applied, has failed, has expired or was
    superseded, no overlapping calls of [Create] and [Apply] bring it back to a state in which it could be approved or
    applied; nor do [Validate] and [Approve] when calls run one at a time, which then fixes its plan
    hash too ([double_approval_executes_twice] shows why they must). *)
Theorem changeset_lifecycle ps ps1 w1 ps2 w2 r :
  Forall (serviceCall false) ps → rtc pool_step (ps, initialWorld) (ps1, w1) → rtc pool_step (ps1, w1) (ps2, w2) → r ∈ rows (st w1) →
  (∃ r', r' ∈ rows (st w2) ∧ planned r' = planned r ∧
     ∀ r'', r'' ∈ rows (st w2) → CS_PrincipalID r'' = CS_PrincipalID r → CS_IdempotencyKey r'' = CS_IdempotencyKey r → r'' = r') ∧
  (∀ qs qs' w, Forall (serviceCall true) qs → rtc pool_step (qs, w1) (qs', w) →
     ∃ r', r' ∈ rows (st w) ∧ planned r' = planned r ∧ (closed (CS_Status r) = true → closed (CS_Status r') = true)) ∧
  (∀ w, rtc call_step initialWorld w1 → rtc call_step w1 w →
     ∃ r', r' ∈ rows (st w) ∧ planned r' = planned r ∧
       (closed (CS_Status r) = true → closed (CS_Status r') = true ∧ CS_PlanHash r' = CS_PlanHash r)).
Proof.
  intros Hps H1 H2 Hr. assert (∀ g qs, Forall (serviceCall g) qs → Forall (steps_in (keepsRows g)) qs) as Hcalls.
  { intros g qs Hqs. eapply Forall_impl; [exact Hqs|]. apply serviceCall_keepsRows. }
  destruct (pool_keeps (keepsRows false) _ _ _ _ H1 (Hcalls _ _ Hps)) as [[Hu1 _] Hps1]. destruct (pool_keeps (keepsRows false) _ _ _ _ H2 Hps1) as [[Hu2 Hk2] _].
  split_and!.
  - destruct (Hk2 r Hr) as (r' & Hr' & Hp & _). exists r'. split_and!; [done..|]. intros r'' Hr'' Hpr Hkey.
    destruct (Hu2 (Hu1 ltac:(split; constructor))) as [_ Hkeys]. apply (NoDup_fmap_key _ _ _ _ Hkeys); [done..|]. unfold changesetKey, planned in *. congruence.
  - intros qs qs' w Hqs Hsteps. destruct (pool_keeps (keepsRows true) _ _ _ _ Hsteps (Hcalls _ _ Hqs)) as [[_ Hk] _].
    destruct (Hk r Hr) as (r' & Hr' & Hp & Hc). exists r'. auto.
  - intros w Hw1 Hw. destruct (closed_sequentially w1 w r Hw1 Hw Hr) as (r' & Hr' & (H3 & H4 & H5 & H6 & H7 & H8 & _) & Hc). exists r'. split_and!; [done| |done].
    unfold planned. congruence.
Qed.
End race.

(** ** Runs of the model *)

#[local] Existing Instances demoCodec demoRange.

(** The changeset approved and not applied: the claim of the approving call failed. *)
Definition demoApproved : World := snd (run (Approve claimFailsEnv demoService demoOperator "chg_0" "ok") demoValidated).

Lemma demo_approved_reachable : rtc call_step initialWorld demoApproved.
Proof.
  eapply rtc_r; [apply demo_validated_reachable|].
  exact (approve_calls claimFailsEnv demoService demoOperator "chg_0" "ok" demoValidated).
Qed.

Definition demoApply : prog World (result AErr AutomationChangeset) :=
  Apply demoEnv demoService demoOperator "chg_0".

(** Two calls of [Apply] whose steps alternate. *)
Definition alternating : list (prog World (result AErr AutomationChangeset)) * World :=
  interleave (concat (replicate 20 [0%nat; 1%nat])) [demoApply; demoApply] demoApproved.

Lemma alternating_steps : rtc pool_step ([demoApply; demoApply], demoApproved) (fst alternating, snd alternating).
Proof. rewrite <- surjective_pairing. apply interleave_steps. Qed.

Lemma concurrent_applies_execute_once_witness :
  (CS_Status <$> rows (st demoApproved)) = [ChangesetApproved] ∧
  execs (history (snd alternating)) = [("chg_0", 0)] ∧ NoDup (execs (history (snd alternating))).
Proof.
  split; [vm_compute; reflexivity|]. split; [vm_compute; reflexivity|].
  refine (concurrent_applies_execute_once demoApproved [demoApply; demoApply] (fst alternating) (snd alternating)
    demo_approved_reachable _ alternating_steps).
  repeat constructor; by exists demoEnv, demoService, demoOperator, "chg_0"%string.
Defined.

Definition demoApprove : prog World (result AErr AutomationChangeset) :=
  Approve demoEnv demoService demoOperator "chg_0" "ok".

(** Two operators approve the same changeset: the second call has read the row before the
    first one completes. *)
Definition doubleApproval : list (prog World (result AErr AutomationChangeset)) * World :=
  interleave ([1%nat] ++ replicate 40 0%nat ++ replicate 40 1%nat) [demoApprove; demoApprove] demoValidated.

(** The changeset is created, validated and approved twice, and the two approvals overlap. *)
Definition lifecycleCalls : list (prog World (result AErr AutomationChangeset)) :=
  [Create demoEnv demoService demoOperator demoRequest; Validate demoEnv demoService demoOperator "chg_0"; demoApprove; demoApprove].

Definition lifecycleStart : list (prog World (result AErr AutomationChangeset)) * World :=
  interleave (replicate 40 0%nat ++ replicate 40 1%nat ++ [2%nat]) lifecycleCalls initialWorld.

Definition lifecycleEnd : list (prog World (result AErr AutomationChangeset)) * World :=
  interleave (replicate 40 3%nat ++ replicate 40 2%nat) (fst lifecycleStart) (snd lifecycleStart).

Lemma lifecycleStart_steps : rtc pool_step (lifecycleCalls, initialWorld) (fst lifecycleStart, snd lifecycleStart).
Proof. rewrite <- surjective_pairing. apply interleave_steps. Qed.

Lemma lifecycleEnd_steps : rtc pool_step (fst lifecycleStart, snd lifecycleStart) (fst lifecycleEnd, snd lifecycleEnd).
Proof. rewrite <- (surjective_pairing lifecycleEnd). apply interleave_steps. Qed.

Definition lifecycleRow : AutomationChangeset :=
  Eval vm_compute in match rows (st (snd lifecycleStart)) with r :: _ => r | [] => draftChangeset "" 0 [] end.

Lemma lifecycle_calls : Forall (serviceCall false) lifecycleCalls.
Proof. repeat constructor. Qed.

Lemma changeset_lifecycle_witness :
  CS_Status lifecycleRow = ChangesetAwaitingApproval ∧ (CS_Status <$> rows (st (snd lifecycleEnd))) = [ChangesetSucceeded] ∧
  ∃ r', r' ∈ rows (st (snd lifecycleEnd)) ∧ planned r' = planned lifecycleRow.
Proof.
  split; [reflexivity|]. split; [vm_compute; reflexivity|].
  assert (lifecycleRow ∈ rows (st (snd lifecycleStart))) as Hin by (vm_compute; left).
  destruct (changeset_lifecycle lifecycleCalls (fst lifecycleStart) (snd lifecycleStart) (fst lifecycleEnd) (snd lifecycleEnd) lifecycleRow
    lifecycle_calls lifecycleStart_steps lifecycleEnd_steps Hin) as [(r' & Hr' & Hp & _) _].
  exists r'. exact (conj Hr' Hp).
Defined.

(** The status writes of [Approve] are not guarded: there is an interleaving of two
    approvals of the same changeset that executes its operation twice. *)
Theorem double_approval_executes_twice :
  ∃ ps w, rtc pool_step ([Approve demoEnv demoService demoOperator "chg_0" "ok";
                          Approve demoEnv demoService demoOperator "chg_0" "ok"], demoValidated) (ps, w) ∧
    execs (history w) = [("chg_0", 0); ("chg_0", 0)].
Proof.
  exists (fst doubleApproval), (snd doubleApproval). split; [|vm_compute; reflexivity].
  rewrite <- surjective_pairing. apply interleave_steps.
Qed.
