(* ===== verification/Workflows.v ===== *)
(** * Workflows of the automation service ([internal/automation/service.go], [internal/store/workflows.go])

    A workflow follows a changeset for a client that polls it: [StartWorkflow] stores it
    under an idempotency key, [GetWorkflow] brings its status up to date with the changeset
    (or with the access change or the server that the changeset leads to), and it is
    cancelled, abandoned or queued again on request.

    The world of the workflows is the world of the changesets with the rows of
    [automation_workflows] and their steps; a method of the changeset service runs in it
    through [lift].  Access changes, plan revisions and servers belong to other parts of
    the controller and are read from the environment.  A Go index panic is the error
    [errPanic]; it is proved unreachable. *)

From S2P Require Import Prelude Model NodeKeys Rbac McpAuth Capability ChangesetStore Prog Automation.

Local Open Scope Z_scope.
Local Open Scope prog_scope.

(** ** Data *)

Inductive WorkflowStatus :=
| WorkflowPlanning | WorkflowExternalActionRequired | WorkflowWaitingForAgent | WorkflowApprovalRequired
| WorkflowQueued | WorkflowRunning | WorkflowSucceeded | WorkflowPartiallySucceeded | WorkflowFailed
| WorkflowCancelled.

Global Instance WorkflowStatus_eq_dec : EqDecision WorkflowStatus.
Proof. solve_decision. Defined.

Record AutomationWorkflowStep := {
  WS_ID : string;
  WS_WorkflowID : string;
  WS_Position : Z;
  WS_Name : string;
  WS_Status : string;
  WS_Attempt : Z;
  WS_IdempotencyKey : string;
  WS_InputDigest : string;
  WS_OutputDigest : string;
  WS_Retryable : bool;
  WS_NextAction : string;
  WS_ErrorCode : string;
  WS_CorrelationID : string;
  WS_StartedAt : option Z;
  WS_FinishedAt : option Z;
  WS_CreatedAt : option Z;
  WS_UpdatedAt : option Z }.

Record AutomationWorkflow := {
  W_ID : string;
  W_PrincipalID : string;
  W_GrantID : string;
  W_Kind : string;
  W_Status : WorkflowStatus;
  W_Reason : string;
  W_IdempotencyKey : string;
  W_ChangesetID : string;
  W_CurrentStep : string;
  W_CorrelationID : string;
  W_AffectedResources : string;
  W_NextAction : string;
  W_ErrorCode : string;
  W_ErrorMessage : string;
  W_CreatedAt : option Z;
  W_UpdatedAt : option Z;
  W_CompletedAt : option Z;
  W_Steps : list AutomationWorkflowStep }.

Record StartWorkflowRequest := {
  SW_Kind : string;
  SW_Reason : string;
  SW_IdempotencyKey : string;
  SW_ChangesetID : string;
  SW_ExternalAction : bool }.

Definition errPanic : AErr := ErrInvalid "runtime error: index out of range".

(** ** Updates *)

(** The columns that an update of a step writes; the times of the row are those of the table. *)
Definition stepColumns (s row : AutomationWorkflowStep) (next : string) (updated : option Z) : AutomationWorkflowStep :=
  {| WS_ID := WS_ID row; WS_WorkflowID := WS_WorkflowID row; WS_Position := WS_Position row; WS_Name := WS_Name row;
     WS_Status := WS_Status s; WS_Attempt := WS_Attempt s; WS_IdempotencyKey := WS_IdempotencyKey row;
     WS_InputDigest := WS_InputDigest row; WS_OutputDigest := WS_OutputDigest s; WS_Retryable := WS_Retryable s;
     WS_NextAction := next; WS_ErrorCode := WS_ErrorCode s; WS_CorrelationID := WS_CorrelationID row;
     WS_StartedAt := WS_StartedAt s; WS_FinishedAt := WS_FinishedAt s; WS_CreatedAt := WS_CreatedAt row;
     WS_UpdatedAt := updated |}.

(** An assignment to the fields of a step. *)
Definition amendStep (status digest : string) (retryable : bool) (next code : string) (finished : option Z)
    (s : AutomationWorkflowStep) : AutomationWorkflowStep :=
  {| WS_ID := WS_ID s; WS_WorkflowID := WS_WorkflowID s; WS_Position := WS_Position s; WS_Name := WS_Name s;
     WS_Status := status; WS_Attempt := WS_Attempt s; WS_IdempotencyKey := WS_IdempotencyKey s;
     WS_InputDigest := WS_InputDigest s; WS_OutputDigest := digest; WS_Retryable := retryable;
     WS_NextAction := next; WS_ErrorCode := code; WS_CorrelationID := WS_CorrelationID s;
     WS_StartedAt := WS_StartedAt s; WS_FinishedAt := finished; WS_CreatedAt := WS_CreatedAt s;
     WS_UpdatedAt := WS_UpdatedAt s |}.

(** [step.Attempt++; step.Status, step.ErrorCode, step.Retryable = "queued", "", false;
    step.StartedAt, step.FinishedAt = &now, nil] *)
Definition requeueStep (at_ : Z) (s : AutomationWorkflowStep) : AutomationWorkflowStep :=
  {| WS_ID := WS_ID s; WS_WorkflowID := WS_WorkflowID s; WS_Position := WS_Position s; WS_Name := WS_Name s;
     WS_Status := "queued"; WS_Attempt := WS_Attempt s + 1; WS_IdempotencyKey := WS_IdempotencyKey s;
     WS_InputDigest := WS_InputDigest s; WS_OutputDigest := WS_OutputDigest s; WS_Retryable := false;
     WS_NextAction := WS_NextAction s; WS_ErrorCode := ""; WS_CorrelationID := WS_CorrelationID s;
     WS_StartedAt := Some at_; WS_FinishedAt := None; WS_CreatedAt := WS_CreatedAt s;
     WS_UpdatedAt := WS_UpdatedAt s |}.

(** An assignment to the fields of a workflow. *)
Definition amendWorkflow (status : WorkflowStatus) (current affected next code message : string)
    (completed : option Z) (steps : list AutomationWorkflowStep) (w : AutomationWorkflow) : AutomationWorkflow :=
  {| W_ID := W_ID w; W_PrincipalID := W_PrincipalID w; W_GrantID := W_GrantID w; W_Kind := W_Kind w;
     W_Status := status; W_Reason := W_Reason w; W_IdempotencyKey := W_IdempotencyKey w;
     W_ChangesetID := W_ChangesetID w; W_CurrentStep := current; W_CorrelationID := W_CorrelationID w;
     W_AffectedResources := affected; W_NextAction := next; W_ErrorCode := code; W_ErrorMessage := message;
     W_CreatedAt := W_CreatedAt w; W_UpdatedAt := W_UpdatedAt w; W_CompletedAt := completed; W_Steps := steps |}.

Definition setAffected (affected : string) (w : AutomationWorkflow) : AutomationWorkflow :=
  amendWorkflow (W_Status w) (W_CurrentStep w) affected (W_NextAction w) (W_ErrorCode w) (W_ErrorMessage w)
    (W_CompletedAt w) (W_Steps w) w.

(** ** Library functions *)

Record AccessOperation := {
  AO_AccessChangeID : Z;
  AO_PlanID : Z;
  AO_LatestRevisionID : Z;
  AO_ReconcileQueued : bool }.

(** [encoding/json] and [fmt] as the workflows use them: [decodeServerID] and
    [decodeEnrollments] and [decodeAccessOperations] are [Unmarshal] into the anonymous
    structs of the source, [None] for an error; [unmarshalResources] is [Unmarshal] into
    [[]map[string]any], the value it leaves and whether it failed; [sprintField r k] is
    [fmt.Sprint(r[k])] and [fieldIs r k s] is [r[k] == s]; [remarshalArray] decodes and
    encodes an array. *)
Class WorkflowCodec := {
  decodeServerID : string → option Z;
  decodeEnrollments : string → option (list (Z * string));
  decodeAccessOperations : string → option (list AccessOperation);
  unmarshalResources : string → list doc * bool;
  sprintField : doc → string → string;
  fieldIs : doc → string → string → bool;
  remarshalArray : string → option string }.

(** ** Store *)

Section store.
Context `{!WorkflowCodec}.

Definition normalizedJSONArray (raw : string) : string :=
  if (raw =? "")%string then "[]" else default "[]" (remarshalArray raw).

Definition by_position : AutomationWorkflowStep → AutomationWorkflowStep → bool := ltc (onc WS_Position Z.compare).

Definition GetAutomationWorkflow (id : string) (rows : list AutomationWorkflow) : result AErr AutomationWorkflow :=
  match List.find (λ row, (W_ID row =? id)%string) rows with
  | Some row => Ok (amendWorkflow (W_Status row) (W_CurrentStep row) (W_AffectedResources row) (W_NextAction row)
      (W_ErrorCode row) (W_ErrorMessage row) (W_CompletedAt row) (sort_slice by_position (W_Steps row)) row)
  | None => Err ErrNoRows
  end.

Definition FindAutomationWorkflowByIdempotency (principalID key : string) (rows : list AutomationWorkflow) :
    result AErr AutomationWorkflow :=
  match List.find (λ row, (W_PrincipalID row =? principalID)%string && (W_IdempotencyKey row =? key)%string) rows with
  | Some row => GetAutomationWorkflow (W_ID row) rows
  | None => Err ErrNoRows
  end.

(** The values after [INSERT]: [step.WorkflowID] and the times are those of the row. *)
Definition createdStep (workflowID : string) (ts : Z) (next : string) (s : AutomationWorkflowStep) : AutomationWorkflowStep :=
  {| WS_ID := WS_ID s; WS_WorkflowID := workflowID; WS_Position := WS_Position s; WS_Name := WS_Name s;
     WS_Status := WS_Status s; WS_Attempt := WS_Attempt s; WS_IdempotencyKey := WS_IdempotencyKey s;
     WS_InputDigest := WS_InputDigest s; WS_OutputDigest := WS_OutputDigest s; WS_Retryable := WS_Retryable s;
     WS_NextAction := next; WS_ErrorCode := WS_ErrorCode s; WS_CorrelationID := WS_CorrelationID s;
     WS_StartedAt := WS_StartedAt s; WS_FinishedAt := WS_FinishedAt s; WS_CreatedAt := Some ts; WS_UpdatedAt := Some ts |}.

Definition createdWorkflow (ts : Z) (affected next : string) (steps : list AutomationWorkflowStep)
    (w : AutomationWorkflow) : AutomationWorkflow :=
  {| W_ID := W_ID w; W_PrincipalID := W_PrincipalID w; W_GrantID := W_GrantID w; W_Kind := W_Kind w;
     W_Status := W_Status w; W_Reason := W_Reason w; W_IdempotencyKey := W_IdempotencyKey w;
     W_ChangesetID := W_ChangesetID w; W_CurrentStep := W_CurrentStep w; W_CorrelationID := W_CorrelationID w;
     W_AffectedResources := affected; W_NextAction := next; W_ErrorCode := W_ErrorCode w;
     W_ErrorMessage := W_ErrorMessage w; W_CreatedAt := Some ts; W_UpdatedAt := Some ts;
     W_CompletedAt := W_CompletedAt w; W_Steps := steps |}.

(** The primary keys, the unique constraints and the reference to the changeset. *)
Definition workflowConflict (changesets : list AutomationChangeset) (rows : list AutomationWorkflow)
    (w : AutomationWorkflow) : bool :=
  existsb (λ row, (W_ID row =? W_ID w)%string) rows ||
  existsb (λ row, (W_PrincipalID row =? W_PrincipalID w)%string && (W_IdempotencyKey row =? W_IdempotencyKey w)%string) rows ||
  negb (bool_decide (NoDup ((WS_ID <$> W_Steps w) ++ (rows ≫= λ row, WS_ID <$> W_Steps row)))) ||
  negb (bool_decide (NoDup (WS_Position <$> W_Steps w))) ||
  negb (W_ChangesetID w =? "")%string && negb (existsb (λ c, (CS_ID c =? W_ChangesetID w)%string) changesets).

Definition CreateAutomationWorkflow (ts : Z) (changesets : list AutomationChangeset) (w : AutomationWorkflow)
    (rows : list AutomationWorkflow) : result AErr AutomationWorkflow * list AutomationWorkflow :=
  if workflowConflict changesets rows w then (Err ErrConstraint, rows)
  else (Ok (createdWorkflow ts (W_AffectedResources w) (W_NextAction w)
              ((λ s, createdStep (W_ID w) ts (WS_NextAction s) s) <$> W_Steps w) w),
        rows ++ [createdWorkflow ts (normalizedJSONArray (W_AffectedResources w)) (normalizedJSONObject (W_NextAction w))
              ((λ s, createdStep (W_ID w) ts (normalizedJSONObject (WS_NextAction s)) s) <$> W_Steps w) w]).

(** [UPDATE automation_workflows … WHERE id = ? AND principal_id = ?]: the row's steps are
    those of the other table. *)
Definition workflowMatches (item row : AutomationWorkflow) : bool :=
  (W_ID row =? W_ID item)%string && (W_PrincipalID row =? W_PrincipalID item)%string.

Definition workflowColumns (ts : Z) (item row : AutomationWorkflow) : AutomationWorkflow :=
  {| W_ID := W_ID row; W_PrincipalID := W_PrincipalID row; W_GrantID := W_GrantID row; W_Kind := W_Kind row;
     W_Status := W_Status item; W_Reason := W_Reason row; W_IdempotencyKey := W_IdempotencyKey row;
     W_ChangesetID := W_ChangesetID item; W_CurrentStep := W_CurrentStep item; W_CorrelationID := W_CorrelationID row;
     W_AffectedResources := normalizedJSONArray (W_AffectedResources item);
     W_NextAction := normalizedJSONObject (W_NextAction item); W_ErrorCode := W_ErrorCode item;
     W_ErrorMessage := W_ErrorMessage item; W_CreatedAt := W_CreatedAt row; W_UpdatedAt := Some ts;
     W_CompletedAt := W_CompletedAt item; W_Steps := W_Steps row |}.

Definition stepMatches (step row : AutomationWorkflowStep) : bool :=
  (WS_ID row =? WS_ID step)%string && (WS_WorkflowID row =? WS_WorkflowID step)%string.

Definition updateSteps (ts : Z) (step : AutomationWorkflowStep) (row : AutomationWorkflow) : AutomationWorkflow :=
  amendWorkflow (W_Status row) (W_CurrentStep row) (W_AffectedResources row) (W_NextAction row) (W_ErrorCode row)
    (W_ErrorMessage row) (W_CompletedAt row)
    ((λ s, if stepMatches step s then stepColumns step s (normalizedJSONObject (WS_NextAction step)) (Some ts) else s)
       <$> W_Steps row) row.

Definition UpdateAutomationWorkflow (ts : Z) (item : AutomationWorkflow) (rows : list AutomationWorkflow) :
    result AErr unit * list AutomationWorkflow :=
  ((if Nat.eqb (length (List.filter (workflowMatches item) rows)) 1 then Ok () else Err ErrNoRows),
   (λ row, if workflowMatches item row then workflowColumns ts item row else row) <$> rows).

Definition UpdateAutomationWorkflowStep (ts : Z) (step : AutomationWorkflowStep) (rows : list AutomationWorkflow) :
    result AErr unit * list AutomationWorkflow :=
  ((if Nat.eqb (length (List.filter (stepMatches step) (rows ≫= W_Steps))) 1 then Ok () else Err ErrNoRows),
   updateSteps ts step <$> rows).

(** Both updates in one transaction, rolled back when either does not change one row. *)
Definition UpdateAutomationWorkflowAndStep (ts : Z) (item : AutomationWorkflow) (step : AutomationWorkflowStep)
    (rows : list AutomationWorkflow) : result AErr unit * list AutomationWorkflow :=
  match UpdateAutomationWorkflow ts item rows with
  | (Err e, _) => (Err e, rows)
  | (Ok _, rows1) =>
      match UpdateAutomationWorkflowStep ts step rows1 with
      | (Err e, _) => (Err e, rows)
      | (Ok _, rows2) => (Ok (), rows2)
      end
  end.
End store.

(** ** World and steps *)

Record PlanRevision := { PR_ID : Z; PR_ActivationChangeID : option Z }.
Record PlanHead := { PH_CurrentRevisionID : Z; PH_LatestRevisionID : Z }.
Record AccessChange := { AC_Status : string; AC_Error : string }.

Definition AccessChangeFinalized : string := "finalized".
Definition AccessChangeFailed : string := "failed".
Definition AccessChangeCancelled : string := "cancelled".
Definition ServerOnline : string := "online".

(** The rows of other components at the tick of a call: a server with the time it was
    created and its status, a revision of a plan, a plan, the state of its
    reconciliation, an access change. *)
Record WorkflowEnv := {
  wenv :> Env;
  env_server : nat → Z → option (Z * string);
  env_planRevision : nat → Z → Z → option PlanRevision;
  env_plan : nat → Z → option PlanHead;
  env_reconcile : nat → Z → option string;
  env_accessChange : nat → Z → option AccessChange }.

Record WorkflowWorld := { base : World; workflows : list AutomationWorkflow }.

Definition initialWorkflowWorld : WorkflowWorld := {| base := initialWorld; workflows := [] |}.

Definition withBase (w : WorkflowWorld) (b : World) : WorkflowWorld := {| base := b; workflows := workflows w |}.

(** A program of the changeset service in the larger world. *)
Fixpoint lift {A : Type} (p : prog World A) : prog WorkflowWorld A :=
  match p with
  | Ret a => Ret a
  | Call c k => Call (λ w, let '(r, b) := c (base w) in (r, withBase w b)) (λ r, lift (k r))
  end.

Section workflow_steps.
Context (E : WorkflowEnv).

(** A query on rows of another component. *)
Definition fetch {R : Type} (f : nat → option R) : prog WorkflowWorld (result AErr R) :=
  lift (external (λ t, if env_fails E t then Err ErrDB else match f t with Some r => Ok r | None => Err ErrNoRows end)).

(** A statement on the tables of the workflows. *)
Definition wdb {R : Type} (f : Z → WorkflowWorld → result AErr R * list AutomationWorkflow) :
    prog WorkflowWorld (result AErr R) :=
  Call (λ w, if env_fails E (tick (base w)) then (Err ErrDB, withBase w (bump (base w)))
             else let '(r, rows) := f (env_now E (tick (base w))) w in
                  (r, {| base := bump (base w); workflows := rows |})) Ret.

Context `{!WorkflowCodec}.

Definition getWorkflow (id : string) : prog WorkflowWorld (result AErr AutomationWorkflow) :=
  wdb (λ _ w, (GetAutomationWorkflow id (workflows w), workflows w)).
Definition findWorkflow (principalID key : string) : prog WorkflowWorld (result AErr AutomationWorkflow) :=
  wdb (λ _ w, (FindAutomationWorkflowByIdempotency principalID key (workflows w), workflows w)).
Definition createWorkflow (item : AutomationWorkflow) : prog WorkflowWorld (result AErr AutomationWorkflow) :=
  wdb (λ ts w, CreateAutomationWorkflow ts (rows (st (base w))) item (workflows w)).
Definition updateWorkflow (item : AutomationWorkflow) : prog WorkflowWorld (result AErr unit) :=
  wdb (λ ts w, UpdateAutomationWorkflow ts item (workflows w)).
Definition updateWorkflowStep (step : AutomationWorkflowStep) : prog WorkflowWorld (result AErr unit) :=
  wdb (λ ts w, UpdateAutomationWorkflowStep ts step (workflows w)).
Definition updateWorkflowAndStep (item : AutomationWorkflow) (step : AutomationWorkflowStep) :
    prog WorkflowWorld (result AErr unit) :=
  wdb (λ ts w, UpdateAutomationWorkflowAndStep ts item step (workflows w)).

Definition wnow : prog WorkflowWorld Z := lift (now E).
End workflow_steps.

(** ** Pure helpers *)

(** The four results of [workflowState], with the next action and the access change that
    [accessChangeWorkflowState] returns too. *)
Record WorkflowState := {
  ST_Status : WorkflowStatus;
  ST_StepStatus : string;
  ST_CurrentStep : string;
  ST_CompletedAt : option Z;
  ST_NextAction : string;
  ST_AccessChangeID : Z }.

Section workflow_pure.
Context `{!Codec, !WorkflowCodec}.

Definition workflowState (changeset : AutomationChangeset) (externalAction : bool) (at_ : Z) :
    WorkflowStatus * string * string * option Z :=
  if externalAction then (WorkflowExternalActionRequired, "external_action_required"%string, "external_install"%string, None)
  else match CS_Status changeset with
  | ChangesetDraft | ChangesetValidated => (WorkflowPlanning, "running"%string, "changeset"%string, None)
  | ChangesetAwaitingApproval => (WorkflowApprovalRequired, "approval_required"%string, "approval"%string, None)
  | ChangesetApproved => (WorkflowQueued, "queued"%string, "changeset"%string, None)
  | ChangesetApplying => (WorkflowRunning, "running"%string, "changeset"%string, None)
  | ChangesetSucceeded => (WorkflowSucceeded, "succeeded"%string, ""%string, Some at_)
  | ChangesetFailed | ChangesetExpired | ChangesetSuperseded | ChangesetRollbackFailed =>
      (WorkflowFailed, "failed"%string, ""%string, Some at_)
  end.

Definition workflowNextAction (changeset : AutomationChangeset) (externalAction : bool) : string :=
  if externalAction then
    match List.find (λ op, 0 <? op.1) (default [] (decodeEnrollments (CS_Result changeset))) with
    | Some (serverID, expires) =>
        mustJSON (DObject [("type", DString "execute_on_target"); ("server_id", DInt serverID);
          ("expires_at", DString expires); ("sensitive", DBool true);
          ("completion_condition", DObject [
            ("resource_uri", DString ("oboard://servers/" +:+ FormatInt serverID +:+ "/health"));
            ("field", DString "agent_connected"); ("equals", DBool true)])])
    | None => mustJSON (DObject [("type", DString "execute_on_target"); ("sensitive", DBool true)])
    end
  else match CS_Status changeset with
  | ChangesetAwaitingApproval =>
      mustJSON (DObject [("type", DString "open_approval"); ("changeset_id", DString (CS_ID changeset))])
  | ChangesetApproved =>
      mustJSON (DObject [("type", DString "apply_changeset"); ("changeset_id", DString (CS_ID changeset))])
  | _ => "{}"
  end.

Definition workflowExternalServerID (nextAction : string) : Z := default 0 (decodeServerID nextAction).

Definition workflowHasAffectedResource (raw resourceType : string) (id : Z) : bool :=
  let '(affected, failed) := unmarshalResources raw in
  negb failed && existsb (λ resource, (sprintField resource "type" =? resourceType)%string &&
                                      (sprintField resource "id" =? FormatInt id)%string) affected.

(** [affected = append(affected, {type, id})] on the decoded array. *)
Definition appendResource (raw resourceType : string) (id : Z) : string :=
  mustJSON (DArray ((unmarshalResources raw).1 ++ [DObject [("type", DString resourceType); ("id", DInt id)]])).

Definition replayWorkflow (existing : AutomationWorkflow) (request : StartWorkflowRequest) :
    result AErr AutomationWorkflow :=
  if negb (W_Kind existing =? SW_Kind request)%string || negb (W_Reason existing =? SW_Reason request)%string ||
     negb (W_ChangesetID existing =? SW_ChangesetID request)%string
  then Err ErrIdempotencyConflict else Ok existing.

(** The statuses that [synchronizeWorkflow] leaves alone. *)
Definition settled (s : WorkflowStatus) : bool :=
  bool_decide (s ∈ [WorkflowCancelled; WorkflowSucceeded; WorkflowFailed; WorkflowPartiallySucceeded]).

Definition finishedStep (stepStatus : string) : bool :=
  (stepStatus =? "succeeded")%string || (stepStatus =? "failed")%string.

Definition plainState (changeset : AutomationChangeset) (externalAction : bool) (at_ : Z) : WorkflowState :=
  let '(status, stepStatus, currentStep, completedAt) := workflowState changeset externalAction at_ in
  {| ST_Status := status; ST_StepStatus := stepStatus; ST_CurrentStep := currentStep; ST_CompletedAt := completedAt;
     ST_NextAction := workflowNextAction changeset externalAction; ST_AccessChangeID := 0 |}.

Definition newWorkflow (principal : Principal) (request : StartWorkflowRequest) (id stepID correlationID : string)
    (changeset : AutomationChangeset) (state : WorkflowState) (at_ : Z) : AutomationWorkflow :=
  let next := ST_NextAction state in
  {| W_ID := id; W_PrincipalID := P_ID principal; W_GrantID := P_GrantID principal; W_Kind := TrimSpace (SW_Kind request);
     W_Status := ST_Status state; W_Reason := TrimSpace (SW_Reason request); W_IdempotencyKey := SW_IdempotencyKey request;
     W_ChangesetID := CS_ID changeset; W_CurrentStep := ST_CurrentStep state; W_CorrelationID := correlationID;
     W_AffectedResources := mustJSON (DArray (
       [DObject [("type", DString "changeset"); ("id", DString (CS_ID changeset))]] ++
       (if 0 <? ST_AccessChangeID state
        then [DObject [("type", DString "access_change"); ("id", DInt (ST_AccessChangeID state))]] else []) ++
       (if 0 <? workflowExternalServerID next
        then [DObject [("type", DString "server"); ("id", DInt (workflowExternalServerID next))]] else [])));
     W_NextAction := next; W_ErrorCode := ""; W_ErrorMessage := ""; W_CreatedAt := None; W_UpdatedAt := None;
     W_CompletedAt := ST_CompletedAt state;
     W_Steps := [{| WS_ID := stepID; WS_WorkflowID := ""; WS_Position := 1; WS_Name := "changeset";
       WS_Status := ST_StepStatus state; WS_Attempt := 1;
       WS_IdempotencyKey := SW_IdempotencyKey request +:+ ":changeset";
       WS_InputDigest := sha256Hex (CS_ID changeset +:+ String (ascii_of_nat 0) (CS_PlanHash changeset));
       WS_OutputDigest := sha256Hex (CS_Result changeset); WS_Retryable := false; WS_NextAction := next;
       WS_ErrorCode := ""; WS_CorrelationID := correlationID; WS_StartedAt := Some at_;
       WS_FinishedAt := if finishedStep (ST_StepStatus state) then Some at_ else None;
       WS_CreatedAt := None; WS_UpdatedAt := None |}] |}.
End workflow_pure.

(** ** The service *)

Section workflow_service.
Context `{!Codec, !WorkflowCodec, !MapRange string string}.
Context (E : WorkflowEnv) (s : Service).

(** The loop of [accessChangeWorkflowState] over the operations of the result: the access
    change it finds (0 for none), or the state with which it returns early. *)
Fixpoint findAccessChange (at_ : Z) (operations : list AccessOperation) :
    prog WorkflowWorld (result AErr (Z + WorkflowState)) :=
  match operations with
  | [] => Ret (Ok (inl 0))
  | operation :: operations =>
      if 0 <? AO_AccessChangeID operation then Ret (Ok (inl (AO_AccessChangeID operation)))
      else if AO_ReconcileQueued operation && (0 <? AO_PlanID operation) && (0 <? AO_LatestRevisionID operation) then
        let? revision := fetch E (λ t, env_planRevision E t (AO_PlanID operation) (AO_LatestRevisionID operation)) in
        let? revision :=
          match PR_ActivationChangeID revision with
          | Some _ => Ret (Ok (Some revision))
          | None =>
              let? plan := fetch E (λ t, env_plan E t (AO_PlanID operation)) in
              if PH_CurrentRevisionID plan =? PH_LatestRevisionID plan then Ret (Ok None)
              else
                let? revision := fetch E (λ t, env_planRevision E t (AO_PlanID operation) (PH_LatestRevisionID plan)) in
                Ret (Ok (Some revision))
          end in
        match revision with
        | None => findAccessChange at_ operations
        | Some revision =>
            match PR_ActivationChangeID revision with
            | Some id => Ret (Ok (inl id))
            | None =>
                let! state := fetch E (λ t, env_reconcile E t (AO_PlanID operation)) in
                let failed := match state with Ok status => (status =? "failed")%string | Err _ => false end in
                Ret (Ok (inr (
                  if failed
                  then {| ST_Status := WorkflowFailed; ST_StepStatus := "failed"; ST_CurrentStep := "";
                          ST_CompletedAt := Some at_; ST_NextAction := "{}"; ST_AccessChangeID := 0 |}
                  else {| ST_Status := WorkflowWaitingForAgent; ST_StepStatus := "running";
                          ST_CurrentStep := "access_change"; ST_CompletedAt := None;
                          ST_NextAction := mustJSON (DObject [("type", DString "wait");
                            ("resource_type", DString "subscription_plan_revision");
                            ("resource_id", DInt (PR_ID revision)); ("status", DString "queued")]);
                          ST_AccessChangeID := 0 |})))
            end
        end
      else findAccessChange at_ operations
  end.

Definition accessChangeWorkflowState (changeset : AutomationChangeset) (at_ : Z) :
    prog WorkflowWorld (result AErr WorkflowState) :=
  match decodeAccessOperations (CS_Result changeset) with
  | None => Ret (Err (ErrInvalid "json"))
  | Some operations =>
      let? found := findAccessChange at_ operations in
      match found with
      | inr state => Ret (Ok state)
      | inl id =>
          if id =? 0 then
            Ret (Ok {| ST_Status := WorkflowSucceeded; ST_StepStatus := "succeeded"; ST_CurrentStep := "";
                       ST_CompletedAt := Some at_; ST_NextAction := "{}"; ST_AccessChangeID := 0 |})
          else
            let? change := fetch E (λ t, env_accessChange E t id) in
            Ret (Ok (
              if (AC_Status change =? AccessChangeFinalized)%string then
                {| ST_Status := WorkflowSucceeded; ST_StepStatus := "succeeded"; ST_CurrentStep := "";
                   ST_CompletedAt := Some at_; ST_NextAction := "{}"; ST_AccessChangeID := id |}
              else if (AC_Status change =? AccessChangeFailed)%string ||
                      (AC_Status change =? AccessChangeCancelled)%string then
                {| ST_Status := WorkflowFailed; ST_StepStatus := "failed"; ST_CurrentStep := "";
                   ST_CompletedAt := Some at_; ST_NextAction := "{}"; ST_AccessChangeID := id |}
              else
                {| ST_Status := WorkflowWaitingForAgent; ST_StepStatus := "running"; ST_CurrentStep := "access_change";
                   ST_CompletedAt := None;
                   ST_NextAction := mustJSON (DObject [("type", DString "wait"); ("resource_type", DString "access_change");
                     ("resource_id", DInt id); ("status", DString (AC_Status change))]);
                   ST_AccessChangeID := id |}))
      end
  end.

(** The state a workflow of a kind derives from its changeset. *)
Definition derivedState (kind : string) (changeset : AutomationChangeset) (at_ : prog WorkflowWorld Z)
    (state : WorkflowState) : prog WorkflowWorld (result AErr WorkflowState) :=
  if (kind =? "access_change")%string && bool_decide (CS_Status changeset = ChangesetSucceeded)
  then let! at_ := at_ in accessChangeWorkflowState changeset at_
  else Ret (Ok state).

Definition StartWorkflow (principal : Principal) (request : StartWorkflowRequest) :
    prog WorkflowWorld (result AErr AutomationWorkflow) :=
  let key := TrimSpace (SW_IdempotencyKey request) in
  if (key =? "")%string || (128 <? Z.of_nat (String.length key))
  then Ret (Err (ErrInvalid "workflow idempotency_key is required and must not exceed 128 characters"))
  else
    let kind := TrimSpace (SW_Kind request) in
    let request := {| SW_Kind := if (kind =? "")%string then "changeset" else kind;
      SW_Reason := TrimSpace (SW_Reason request); SW_IdempotencyKey := key;
      SW_ChangesetID := TrimSpace (SW_ChangesetID request); SW_ExternalAction := SW_ExternalAction request |} in
    let? changeset := lift (authorizedChangeset E principal (SW_ChangesetID request)) in
    let? _ := lift (authorizeChangesetResult s principal changeset false) in
    let! found := findWorkflow E (P_ID principal) key in
    match found with
    | Ok existing => Ret (replayWorkflow existing request)
    | Err ErrNoRows =>
        let? id := lift (prefixedID E "wf") in
        let? stepID := lift (prefixedID E "wfs") in
        let? correlationID := lift (prefixedID E "corr") in
        let! at_ := wnow E in
        let? state := derivedState (TrimSpace (SW_Kind request)) changeset (wnow E)
                        (plainState changeset (SW_ExternalAction request) at_) in
        let! at_ := wnow E in
        let item := newWorkflow principal request id stepID correlationID changeset state at_ in
        let! created := createWorkflow E item in
        match created with
        | Ok created => Ret (Ok created)
        | Err e =>
            let! found := findWorkflow E (P_ID principal) key in
            match found with
            | Ok existing => Ret (replayWorkflow existing request)
            | Err _ => Ret (Err e)
            end
        end
    | Err e => Ret (Err e)
    end.

(** The branch of [synchronizeWorkflow] for a workflow that waits for a server. *)
Definition synchronizeExternal (item : AutomationWorkflow) (step : AutomationWorkflowStep)
    (rest : list AutomationWorkflowStep) (at_ : Z) : prog WorkflowWorld (result AErr AutomationWorkflow) :=
  let? changeset := lift (getChangeset E (W_ChangesetID item)) in
  let createdBefore := match CS_CompletedAt changeset with Some at_ => Some at_ | None => W_CreatedAt item end in
  let! server := fetch E (λ t, env_server E t (workflowExternalServerID (W_NextAction item))) in
  match server with
  | Err _ => Ret (Ok item)
  | Ok (createdAt, status) =>
      if match createdBefore with Some before => before <? createdAt | None => true end then
        let step := amendStep "failed" (WS_OutputDigest step) false "{}" "server_replaced" (Some at_) step in
        let item := amendWorkflow WorkflowFailed (W_CurrentStep item) (W_AffectedResources item) "{}" "server_replaced"
          "original server was deleted" (Some at_) (step :: rest) item in
        let? _ := updateWorkflowAndStep E item step in Ret (Ok item)
      else if negb (status =? ServerOnline)%string then Ret (Ok item)
      else
        let step := amendStep "succeeded" (WS_OutputDigest step) false "{}" (WS_ErrorCode step) (Some at_) step in
        let item := amendWorkflow WorkflowSucceeded "" (W_AffectedResources item) "{}" (W_ErrorCode item)
          (W_ErrorMessage item) (Some at_) (step :: rest) item in
        let? _ := updateWorkflowAndStep E item step in Ret (Ok item)
  end.

(** The error code and message of a synchronized workflow. *)
Definition synchronizedError (item : AutomationWorkflow) (changeset : AutomationChangeset) (state : WorkflowState) :
    prog WorkflowWorld (string * string) :=
  if bool_decide (ST_Status state = WorkflowFailed) then
    if (W_Kind item =? "access_change")%string && (0 <? ST_AccessChangeID state) then
      let! change := fetch E (λ t, env_accessChange E t (ST_AccessChangeID state)) in
      Ret ("access_change_failed"%string,
           match change with
           | Ok change => if negb (TrimSpace (AC_Error change) =? "")%string then AC_Error change else W_ErrorMessage item
           | Err _ => W_ErrorMessage item
           end)
    else Ret (("changeset_" +:+ match CS_Status changeset with
        | ChangesetDraft => "draft" | ChangesetValidated => "validated"
        | ChangesetAwaitingApproval => "awaiting_approval" | ChangesetApproved => "approved"
        | ChangesetApplying => "applying" | ChangesetSucceeded => "succeeded" | ChangesetFailed => "failed"
        | ChangesetExpired => "expired" | ChangesetSuperseded => "superseded"
        | ChangesetRollbackFailed => "rollback_failed" end)%string, W_ErrorMessage item)
  else Ret (""%string, ""%string).

Definition synchronizeWorkflow (item : AutomationWorkflow) : prog WorkflowWorld (result AErr AutomationWorkflow) :=
  match settled (W_Status item), W_Steps item with
  | true, _ | _, [] => Ret (Ok item)
  | false, step :: rest =>
      let! at_ := wnow E in
      if negb (W_Kind item =? "access_change")%string &&
         (bool_decide (W_Status item = WorkflowExternalActionRequired) ||
          bool_decide (W_Status item = WorkflowWaitingForAgent))
      then synchronizeExternal item step rest at_
      else
        let? changeset := lift (getChangeset E (W_ChangesetID item)) in
        let? state := derivedState (W_Kind item) changeset (Ret at_) (plainState changeset false at_) in
        let item := if (0 <? ST_AccessChangeID state) &&
                       negb (workflowHasAffectedResource (W_AffectedResources item) "access_change" (ST_AccessChangeID state))
                    then setAffected (appendResource (W_AffectedResources item) "access_change" (ST_AccessChangeID state)) item
                    else item in
        if bool_decide (W_Status item = ST_Status state) && (WS_Status step =? ST_StepStatus state)%string &&
           (W_CurrentStep item =? ST_CurrentStep state)%string && (W_NextAction item =? ST_NextAction state)%string
        then Ret (Ok item)
        else
          let retry := (W_Kind item =? "access_change")%string && bool_decide (ST_Status state = WorkflowFailed) in
          let step := amendStep (ST_StepStatus state) (sha256Hex (CS_Result changeset)) retry (ST_NextAction state)
            (if retry then "access_change_failed" else "")
            (if finishedStep (ST_StepStatus state) then Some at_ else None) step in
          let! error := synchronizedError item changeset state in
          let item := amendWorkflow (ST_Status state) (ST_CurrentStep state) (W_AffectedResources item)
            (ST_NextAction state) error.1 error.2 (ST_CompletedAt state) (step :: rest) item in
          let? _ := updateWorkflowAndStep E item step in Ret (Ok item)
  end.

Definition ownsWorkflow (principal : Principal) (item : AutomationWorkflow) : bool :=
  (W_PrincipalID item =? P_ID principal)%string ||
  P_Interactive principal && HasManagementAccess (P_Role principal).

Definition GetWorkflow (principal : Principal) (id : string) : prog WorkflowWorld (result AErr AutomationWorkflow) :=
  let! found := getWorkflow E (TrimSpace id) in
  match found with
  | Err _ => Ret (Err ErrNoRows)
  | Ok item =>
      if negb (ownsWorkflow principal item) then Ret (Err ErrNoRows)
      else
        let? changeset := lift (authorizedChangeset E principal (W_ChangesetID item)) in
        let? _ := lift (authorizeChangesetResult s principal changeset true) in
        synchronizeWorkflow item
  end.

Definition RequireWorkflowExternalAction (principal : Principal) (id : string) (changeset : option AutomationChangeset) :
    prog WorkflowWorld (result AErr AutomationWorkflow) :=
  let! found := getWorkflow E (TrimSpace id) in
  match found with
  | Err _ => Ret (Err ErrNoRows)
  | Ok item =>
      if negb (ownsWorkflow principal item) then Ret (Err ErrNoRows)
      else match changeset, W_Steps item with
      | Some changeset, step :: rest =>
          if negb (CS_ID changeset =? W_ChangesetID item)%string || negb (bool_decide (CS_Status changeset = ChangesetSucceeded))
          then Ret (Err (ErrInvalid "workflow cannot require an external action for this changeset"))
          else
            let next := workflowNextAction changeset true in
            let step := amendStep "external_action_required" (WS_OutputDigest step) false next "" None step in
            let serverID := workflowExternalServerID next in
            let found := existsb (λ resource, fieldIs resource "type" "server" &&
              (sprintField resource "id" =? FormatInt serverID)%string) (unmarshalResources (W_AffectedResources item)).1 in
            let affected := if (0 <? serverID) && negb found then appendResource (W_AffectedResources item) "server" serverID
                            else W_AffectedResources item in
            let item := amendWorkflow WorkflowExternalActionRequired "external_install" affected next "" "" None
              (step :: rest) item in
            let? _ := updateWorkflowAndStep E item step in Ret (Ok item)
      | _, _ => Ret (Err (ErrInvalid "workflow cannot require an external action for this changeset"))
      end
  end.

(** The writes that [CancelWorkflow] and [AbandonFailedWorkflow] share. *)
Definition cancelItem (item : AutomationWorkflow) : prog WorkflowWorld (result AErr AutomationWorkflow) :=
  let! at_ := wnow E in
  match W_Steps item with
  | [] => Ret (Err errPanic)
  | step :: rest =>
      let step := amendStep "cancelled" (WS_OutputDigest step) false "{}" (WS_ErrorCode step) (Some at_) step in
      let item := amendWorkflow WorkflowCancelled "" (W_AffectedResources item) "{}" (W_ErrorCode item)
        (W_ErrorMessage item) (Some at_) (step :: rest) item in
      let? _ := updateWorkflowAndStep E item step in Ret (Ok item)
  end.

Definition CancelWorkflow (principal : Principal) (id : string) : prog WorkflowWorld (result AErr AutomationWorkflow) :=
  let? item := GetWorkflow principal id in
  if settled (W_Status item) then Ret (Err (ErrInvalid "workflow cannot be cancelled in its current state"))
  else cancelItem item.

Definition AbandonFailedWorkflow (principal : Principal) (id : string) : prog WorkflowWorld (result AErr AutomationWorkflow) :=
  let? item := GetWorkflow principal id in
  if negb (bool_decide (W_Status item = WorkflowFailed)) || bool_decide (W_Steps item = [])
  then Ret (Err (ErrInvalid "only failed workflows can be abandoned"))
  else cancelItem item.

(** [step] is [item.Steps[index]]: the returned item carries the updated step. *)
Definition resetWorkflowStep (item : AutomationWorkflow) (pre : list AutomationWorkflowStep)
    (step : AutomationWorkflowStep) (post : list AutomationWorkflowStep) : prog WorkflowWorld (result AErr AutomationWorkflow) :=
  let! at_ := wnow E in
  let step := requeueStep at_ step in
  let? _ := updateWorkflowStep E step in
  let item := amendWorkflow WorkflowQueued (WS_Name step) (W_AffectedResources item) (W_NextAction item) (W_ErrorCode item)
    (W_ErrorMessage item) None (pre ++ step :: post) item in
  let? _ := updateWorkflow E item in
  Ret (Ok item).

(** The loop over the steps: the first one with the identifier. *)
Fixpoint retryLoop (refuse : AutomationWorkflowStep → option string) (item : AutomationWorkflow) (stepID : string)
    (pre steps : list AutomationWorkflowStep) : prog WorkflowWorld (result AErr AutomationWorkflow) :=
  match steps with
  | [] => Ret (Err ErrNoRows)
  | step :: post =>
      if negb (WS_ID step =? TrimSpace stepID)%string then retryLoop refuse item stepID (pre ++ [step]) post
      else match refuse step with
      | Some message => Ret (Err (ErrInvalid message))
      | None => resetWorkflowStep item pre step post
      end
  end.

Definition RetryWorkflowStep (principal : Principal) (workflowID stepID : string) :
    prog WorkflowWorld (result AErr AutomationWorkflow) :=
  let? item := GetWorkflow principal workflowID in
  retryLoop (λ step, if negb (WS_Retryable step) || negb (WS_Status step =? "failed")%string
                     then Some "workflow step is not retryable"%string else None) item stepID [] (W_Steps item).

Definition ResetWorkflowForRetry (principal : Principal) (workflowID stepID : string) :
    prog WorkflowWorld (result AErr AutomationWorkflow) :=
  let? item := GetWorkflow principal workflowID in
  retryLoop (λ step, if negb (WS_Status step =? "failed")%string
                     then Some "workflow step is not failed"%string else None) item stepID [] (W_Steps item).
End workflow_service.

(** ** Runs of the model *)

#[local] Existing Instances demoCodec demoRange.

(** Every changeset result names the access change 7. *)
Definition demoWorkflowCodec : WorkflowCodec :=
  {| decodeServerID _ := None; decodeEnrollments _ := None;
     decodeAccessOperations _ := Some [{| AO_AccessChangeID := 7; AO_PlanID := 0; AO_LatestRevisionID := 0;
                                          AO_ReconcileQueued := false |}];
     unmarshalResources _ := ([], false); sprintField _ _ := ""; fieldIs _ _ _ := false; remarshalArray := Some |}.

#[local] Existing Instance demoWorkflowCodec.

Definition demoWorkflowEnv (E : Env) (change : string) : WorkflowEnv :=
  {| wenv := E; env_server _ _ := None; env_planRevision _ _ _ := None; env_plan _ _ := None; env_reconcile _ _ := None;
     env_accessChange _ _ := Some {| AC_Status := change; AC_Error := "busy" |} |}.

(** [demoEnv] with a statement that fails. *)
Definition failsAt (n : nat) : Env :=
  {| env_now t := Z.of_nat t; env_fails t := Nat.eqb t n; env_random t := Ok (FormatInt (Z.of_nat t));
     env_policy _ _ _ := None; env_principalType _ _ := Some "service_account"; env_serverCreatedAt _ _ := None |}.

Definition demoStart (kind : string) : StartWorkflowRequest :=
  {| SW_Kind := kind; SW_Reason := "release"; SW_IdempotencyKey := "w1"; SW_ChangesetID := "chg_0";
     SW_ExternalAction := false |}.

(** A workflow of a changeset that is still a draft, and one of an applied changeset whose
    access change has failed. *)
Definition demoPlanning : WorkflowWorld :=
  snd (run (StartWorkflow (demoWorkflowEnv demoEnv "preparing") demoService demoOperator (demoStart ""))
    {| base := demoCreated; workflows := [] |}).

Definition demoReleased : WorkflowWorld :=
  snd (run (StartWorkflow (demoWorkflowEnv demoEnv "failed") demoService demoOperator (demoStart "access_change"))
    {| base := demoApplied; workflows := [] |}).

Example demo_workflows :
  (W_Status <$> workflows demoPlanning) = [WorkflowPlanning] ∧ (W_Kind <$> workflows demoPlanning) = ["changeset"%string] ∧
  (W_Status <$> workflows demoReleased) = [WorkflowFailed].
Proof. vm_compute. auto. Qed.

(** The failed release is queued again, and the next poll finds it finalized. *)
Example demo_retry :
  let w := snd (run (ResetWorkflowForRetry (demoWorkflowEnv demoEnv "failed") demoService demoOperator "wf_30" "wfs_31") demoReleased) in
  (W_Status <$> workflows w) = [WorkflowQueued] ∧
  (W_Status <$> workflows (snd (run (GetWorkflow (demoWorkflowEnv demoEnv "finalized") demoService demoOperator "wf_30") w))) =
    [WorkflowSucceeded].
Proof. vm_compute. auto. Qed.
