(* ===== verification/WorkflowSafety.v ===== *)
(** * What the workflows guarantee ([internal/automation/service.go])

    Calls that run one at a time: each kind of call has its own transitions of the status,
    touches no other workflow, and leaves the workflows alone that it has no transition
    for; the rows stay well formed.  Any program of the changeset service may run in
    between.  Calls that overlap are the subject of [WorkflowRaces]. *)

From S2P Require Import Prelude Model NodeKeys Rbac McpAuth Capability ChangesetStore Prog Automation AutomationSafety AutomationContracts Workflows.

Local Open Scope Z_scope.

(** ** The abstract machine *)

(** What a write does to a workflow: it is brought up to date, cancelled, abandoned, queued
    again, or an external action is asked for. *)
Inductive write := WSync | WCancel | WAbandon | WRequeue | WExternal.

Definition moves (k : write) (a b : WorkflowStatus) : Prop :=
  match k with
  | WSync => settled a = false ∧ b ≠ WorkflowCancelled ∧ b ≠ WorkflowPartiallySucceeded
  | WCancel => settled a = false ∧ b = WorkflowCancelled
  | WAbandon => a = WorkflowFailed ∧ b = WorkflowCancelled
  | WRequeue => a = WorkflowFailed ∧ b = WorkflowQueued
  | WExternal => b = WorkflowExternalActionRequired
  end.

(** The statuses without a transition. *)
Definition stuck (k : write) (a : WorkflowStatus) : bool :=
  match k with
  | WSync | WCancel => settled a
  | WAbandon | WRequeue => negb (bool_decide (a = WorkflowFailed))
  | WExternal => false
  end.

Lemma moves_trans k a b c : moves k a b → moves k b c → moves k a c.
Proof. destruct k; cbn; [tauto|..]; [by intros [? ->] []|by intros [? ->] []|by intros [? ->] []|done]. Qed.

Lemma moves_stuck k a b : moves k a b → stuck k a = false.
Proof. destruct k; cbn; [tauto..| | |done]; by intros [-> _]. Qed.

(** The status of the step of a workflow. *)
Definition stepOf (s : WorkflowStatus) : string :=
  match s with
  | WorkflowExternalActionRequired => "external_action_required"
  | WorkflowApprovalRequired => "approval_required"
  | WorkflowQueued => "queued"
  | WorkflowSucceeded | WorkflowPartiallySucceeded => "succeeded"
  | WorkflowFailed => "failed"
  | WorkflowCancelled => "cancelled"
  | WorkflowPlanning | WorkflowWaitingForAgent | WorkflowRunning => "running"
  end.

(** A retry whose second statement failed. *)
Definition torn (row : AutomationWorkflow) (s : AutomationWorkflowStep) : Prop :=
  W_Status row = WorkflowFailed ∧ WS_Status s = "queued"%string.

Definition rowOK (row : AutomationWorkflow) : Prop :=
  ∃ s, W_Steps row = [s] ∧ WS_WorkflowID s = W_ID row ∧
    (W_CompletedAt row = None ↔ settled (W_Status row) = false) ∧
    W_Status row ≠ WorkflowPartiallySucceeded ∧
    (WS_Status s = stepOf (W_Status row) ∨ torn row s).

Definition workflowKey (row : AutomationWorkflow) : string * string := (W_PrincipalID row, W_IdempotencyKey row).

Record WInv (w : WorkflowWorld) : Prop := {
  winv_ids : NoDup (W_ID <$> workflows w);
  winv_keys : NoDup (workflowKey <$> workflows w);
  winv_rows : ∀ row, row ∈ workflows w → rowOK row }.

(** What never changes in a row. *)
Definition identity (row : AutomationWorkflow) :=
  (W_ID row, W_PrincipalID row, W_GrantID row, W_Kind row, W_Reason row, W_IdempotencyKey row, W_ChangesetID row).

Lemma identity_id r r' : identity r' = identity r → W_ID r' = W_ID r.
Proof. unfold identity. congruence. Qed.

Lemma identity_key r r' : identity r' = identity r → workflowKey r' = workflowKey r.
Proof. unfold identity, workflowKey. congruence. Qed.

(** The change of a row by a write to the workflow [id]. *)
Definition evo (k : write) (id : string) (r r' : AutomationWorkflow) : Prop :=
  identity r' = identity r ∧ (W_Status r' = W_Status r ∨ moves k (W_Status r) (W_Status r')) ∧
  (W_ID r ≠ id ∨ stuck k (W_Status r) = true → r' = r).

Global Instance evo_preorder k id : PreOrder (evo k id).
Proof.
  split; [by intros r; split_and!; [|left|]|]. intros r1 r2 r3 (Hi & Hm & Hf) (Hi' & Hm' & Hf'). split_and!; [congruence| |].
  - destruct Hm as [Hm|Hm], Hm' as [Hm'|Hm']; [left; congruence|right; by rewrite <- Hm|right; by rewrite Hm'|right; by eapply moves_trans].
  - intros Hc. specialize (Hf Hc) as ->. by apply Hf'.
Qed.

Definition evolvesW (k : write) (id : string) (w w' : WorkflowWorld) : Prop :=
  ∀ r, r ∈ workflows w → ∃ r', r' ∈ workflows w' ∧ evo k id r r'.

Global Instance evolvesW_preorder k id : PreOrder (evolvesW k id).
Proof.
  split; [intros w r Hr; by exists r|]. intros w1 w2 w3 H1 H2 r Hr.
  destruct (H1 r Hr) as (r2 & Hr2 & Hm). destruct (H2 r2 Hr2) as (r3 & Hr3 & Hm'). exists r3. split; [done|by etrans].
Qed.

(** The calls, with the workflow that each is about; the changeset service runs any program
    in between. *)
Inductive wkind :=
| CallChangesets | CallStart
| CallGet (id : string) | CallCancel (id : string) | CallAbandon (id : string) | CallRetry (id : string) | CallExternal (id : string).

Inductive wcall `{!Codec, !WorkflowCodec, !MapRange string string} : wkind → WorkflowWorld → WorkflowWorld → Prop :=
| wc_changesets A (p : prog World A) w : wcall CallChangesets w (snd (run (lift p) w))
| wc_start E s p request w : wcall CallStart w (snd (run (StartWorkflow E s p request) w))
| wc_get E s p id w : wcall (CallGet (TrimSpace id)) w (snd (run (GetWorkflow E s p id) w))
| wc_cancel E s p id w : wcall (CallCancel (TrimSpace id)) w (snd (run (CancelWorkflow E s p id) w))
| wc_abandon E s p id w : wcall (CallAbandon (TrimSpace id)) w (snd (run (AbandonFailedWorkflow E s p id) w))
| wc_retry E s p id step w : wcall (CallRetry (TrimSpace id)) w (snd (run (RetryWorkflowStep E s p id step) w))
| wc_reset E s p id step w : wcall (CallRetry (TrimSpace id)) w (snd (run (ResetWorkflowForRetry E s p id step) w))
| wc_external E p id cs w : wcall (CallExternal (TrimSpace id)) w (snd (run (RequireWorkflowExternalAction E p id cs) w)).

(** Calls of any kind, one at a time. *)
Definition wstep `{!Codec, !WorkflowCodec, !MapRange string string} (w w' : WorkflowWorld) : Prop := ∃ c, wcall c w w'.

(** What a call may do to the status of the workflow it is about.  Every call but the request
    for an external action first brings an open workflow up to date. *)
Definition mayBecome (c : wkind) (a b : WorkflowStatus) : Prop :=
  let updated := settled a = false ∧ b ≠ WorkflowCancelled ∧ b ≠ WorkflowPartiallySucceeded in
  b = a ∨
  match c with
  | CallChangesets | CallStart => False
  | CallGet _ => updated
  | CallCancel _ => updated ∨ settled a = false ∧ b = WorkflowCancelled
  | CallAbandon _ => updated ∨ (settled a = false ∨ a = WorkflowFailed) ∧ b = WorkflowCancelled
  | CallRetry _ => updated ∨ a = WorkflowFailed ∧ b = WorkflowQueued
  | CallExternal _ => b = WorkflowExternalActionRequired
  end.

(** The workflows whose row a call does not write. *)
Definition untouched (c : wkind) (r : AutomationWorkflow) : Prop :=
  match c with
  | CallChangesets | CallStart => True
  | CallGet id | CallCancel id => W_ID r ≠ id ∨ settled (W_Status r) = true
  | CallAbandon id | CallRetry id => W_ID r ≠ id ∨ settled (W_Status r) = true ∧ W_Status r ≠ WorkflowFailed
  | CallExternal id => W_ID r ≠ id
  end.

(** ** Reading steps *)

Definition keeps (w w' : WorkflowWorld) : Prop := workflows w' = workflows w.

Global Instance keeps_preorder : PreOrder keeps.
Proof. split; [by intros w|]. intros w1 w2 w3 H1 H2. unfold keeps in *. congruence. Qed.

Lemma lift_keeps {A} (p : prog World A) : steps_in keeps (lift p).
Proof.
  induction p as [a|R c k IH]; simpl; [done|]. intros w r w' Hc.
  destruct (c (base w)) as [r1 b]. injection Hc as <- <-. by split.
Qed.

Lemma wdb_read_keeps {R} E (f : WorkflowWorld → result AErr R) : steps_in keeps (wdb E (λ _ w, (f w, workflows w))).
Proof. simpl. intros w r w' Hc. split; [|done]. destruct (env_fails _ _); by injection Hc as <- <-. Qed.

(** Walk through a program that only reads. *)
Ltac keeps_walk :=
  repeat match goal with
  | |- steps_in keeps (Ret _) => exact I
  | |- steps_in keeps (lift _) => apply lift_keeps
  | |- steps_in keeps (fetch _ _) => apply lift_keeps
  | |- steps_in keeps (wnow _) => apply lift_keeps
  | |- steps_in keeps (getWorkflow _ _) => apply wdb_read_keeps
  | |- steps_in keeps (findWorkflow _ _ _) => apply wdb_read_keeps
  | |- steps_in keeps (bind _ _) => apply steps_in_bind; [|intros ?]
  | |- steps_in keeps (try _ _) => apply steps_in_try; [|intros ?]
  | |- steps_in keeps (match ?x with _ => _ end) => destruct x
  end.

Section safety.
Context `{!Codec, !WorkflowCodec, !MapRange string string}.
Context (k : write) (tid : string) (w0 : WorkflowWorld).

(** The worlds that writes of a kind to one workflow lead to from [w0]. *)
Definition G (w : WorkflowWorld) : Prop := WInv w ∧ evolvesW k tid w0 w.

(** A workflow in memory and its row. *)
Definition reflects (item r : AutomationWorkflow) : Prop :=
  W_ID item = W_ID r ∧ W_PrincipalID item = W_PrincipalID r ∧ W_ChangesetID item = W_ChangesetID r ∧
  W_Status item = W_Status r ∧
  ∃ s s', W_Steps item = [s] ∧ W_Steps r = [s'] ∧ WS_ID s = WS_ID s' ∧ WS_WorkflowID s = WS_WorkflowID s' ∧
    WS_Status s = WS_Status s'.

Definition Post (r : result AErr AutomationWorkflow) (w : WorkflowWorld) : Prop :=
  G w ∧ match r with Ok item => ∃ row, row ∈ workflows w ∧ W_ID row = tid ∧ reflects item row | Err _ => True end.

Lemma G_keeps w w' : keeps w w' → G w → G w'.
Proof.
  unfold keeps. intros Hk [[Hids Hkeys Hrows] Hev]. split; [split; rewrite Hk; done|].
  intros r Hr. rewrite Hk. by apply Hev.
Qed.

(** A prefix that only reads. *)
Lemma wp_reads {A} (p : prog WorkflowWorld A) (Q : A → WorkflowWorld → Prop) w :
  steps_in keeps p → G w → (∀ a w', workflows w' = workflows w → G w' → Q a w') → wp p Q w.
Proof. intros Hp HG HQ. apply (wp_steps_in keeps); [done|]. intros a w' Hk. apply HQ; [done|]. by eapply G_keeps. Qed.

Lemma wp_bind_reads {A B} (p : prog WorkflowWorld A) (f : A → prog WorkflowWorld B) Q w :
  steps_in keeps p → G w → (∀ a w', workflows w' = workflows w → G w' → wp (f a) Q w') → wp (bind p f) Q w.
Proof. intros. apply wp_bind, wp_reads; auto. Qed.

Lemma wp_try_reads {A B} (p : prog WorkflowWorld (result AErr A)) (f : A → prog WorkflowWorld (result AErr B)) Q w :
  steps_in keeps p → G w → (∀ e w', G w' → Q (Err e) w') →
  (∀ a w', workflows w' = workflows w → G w' → wp (f a) Q w') → wp (try p f) Q w.
Proof. intros Hp HG He Hk. apply wp_try, wp_reads; [done..|]. intros [a|e] w' Hw HG'; auto. Qed.

(** ** Writes *)

(** All rows with an identifier are rewritten; the new row keeps its identity. *)
Lemma G_rewrite w w' id f r :
  G w → workflows w' = (λ row, if (W_ID row =? id)%string then f row else row) <$> workflows w →
  r ∈ workflows w → W_ID r = id → rowOK (f r) → evo k tid r (f r) → G w' ∧ f r ∈ workflows w'.
Proof.
  intros [[Hids Hkeys Hrows] Hev] Hw' Hr Hid Hok Hevo. set (g := λ row, if (W_ID row =? id)%string then f row else row).
  assert (∀ row, row ∈ workflows w → g row = row ∨ row = r ∧ g row = f r) as Hg.
  { intros row Hrow. unfold g. destruct (String.eqb_spec (W_ID row) id) as [He|He]; [right|by left].
    assert (row = r) as -> by (eapply (NoDup_fmap_key W_ID); eauto; congruence). done. }
  assert (∀ row, row ∈ workflows w → evo k tid row (g row)) as Hge.
  { intros row Hrow. by destruct (Hg row Hrow) as [->|[-> ->]]. }
  split; [split; [split|]|].
  - rewrite Hw', <- list_fmap_compose. erewrite list_fmap_ext; [exact Hids|].
    intros i row Hrow%list_elem_of_lookup_2. by apply identity_id, (Hge _ Hrow).
  - rewrite Hw', <- list_fmap_compose. erewrite list_fmap_ext; [exact Hkeys|].
    intros i row Hrow%list_elem_of_lookup_2. by apply identity_key, (Hge _ Hrow).
  - rewrite Hw'. intros row (x & -> & Hx)%list_elem_of_fmap. fold (g x).
    destruct (Hg x Hx) as [->|[_ ->]]; auto.
  - intros x Hx. destruct (Hev x Hx) as (y & Hy & Hxy). exists (g y). split; [|etrans; eauto].
    rewrite Hw'. by apply list_elem_of_fmap_2.
  - rewrite Hw'. apply list_elem_of_fmap. exists r. split; [|done]. by rewrite Hid, String.eqb_refl.
Qed.

(** The statement by identifier and principal changes exactly the row of the item. *)
Lemma UpdateAutomationWorkflow_row ts item rows r :
  NoDup (W_ID <$> rows) → r ∈ rows → W_ID item = W_ID r → W_PrincipalID item = W_PrincipalID r →
  UpdateAutomationWorkflow ts item rows =
    (Ok (), (λ row, if (W_ID row =? W_ID r)%string then workflowColumns ts item row else row) <$> rows).
Proof.
  intros Hids Hr Hid Hp. assert (∀ row, row ∈ rows → workflowMatches item row = (W_ID row =? W_ID r)%string) as Hm.
  { intros row Hrow. unfold workflowMatches. rewrite Hid. destruct (String.eqb_spec (W_ID row) (W_ID r)) as [He|He]; [|done].
    assert (row = r) as -> by (eapply (NoDup_fmap_key W_ID); eauto). rewrite Hp. by rewrite String.eqb_refl. }
  unfold UpdateAutomationWorkflow. f_equal.
  - rewrite (filter_key_length W_ID _ rows r); [done..|]. intros y Hy. rewrite Hm by done. apply String.eqb_eq.
  - apply list_fmap_ext. intros i row Hrow%list_elem_of_lookup_2. by rewrite Hm.
Qed.

Lemma updateSteps_other ts step row : (∀ s, s ∈ W_Steps row → stepMatches step s = false) → updateSteps ts step row = row.
Proof.
  intros Hs. unfold updateSteps, amendWorkflow. destruct row as [? ? ? ? ? ? ? ? ? ? ? ? ? ? ? ? ? steps]; simpl in *. f_equal.
  rewrite <- (list_fmap_id steps) at 2. apply list_fmap_ext. intros i s Hi%list_elem_of_lookup_2. by rewrite Hs.
Qed.

Definition oneStep (row : AutomationWorkflow) : Prop := ∃ s, W_Steps row = [s] ∧ WS_WorkflowID s = W_ID row.

Lemma rowOK_oneStep row : rowOK row → oneStep row.
Proof. intros (s & Hs & Hw & _). by exists s. Qed.

Lemma steps_ids rows : (∀ row, row ∈ rows → oneStep row) → WS_WorkflowID <$> (rows ≫= W_Steps) = W_ID <$> rows.
Proof.
  induction rows as [|row rows IH]; intros Hok; [done|]. rewrite bind_cons, fmap_app, IH by (intros; apply Hok; by constructor 2).
  destruct (Hok row) as (s & -> & Hw); [by constructor|]. simpl. by rewrite Hw.
Qed.

(** The statement on a step changes exactly the row it belongs to. *)
Lemma UpdateAutomationWorkflowStep_row ts step rows r s :
  NoDup (W_ID <$> rows) → (∀ row, row ∈ rows → oneStep row) → r ∈ rows → W_Steps r = [s] →
  WS_ID step = WS_ID s → WS_WorkflowID step = WS_WorkflowID s →
  UpdateAutomationWorkflowStep ts step rows =
    (Ok (), (λ row, if (W_ID row =? W_ID r)%string then updateSteps ts step row else row) <$> rows).
Proof.
  intros Hids Hok Hr Hs Hid Hwid. destruct (Hok r Hr) as (s0 & Hs0 & Hw). rewrite Hs in Hs0. injection Hs0 as <-.
  assert (∀ row x, row ∈ rows → x ∈ W_Steps row → stepMatches step x = (W_ID row =? W_ID r)%string) as Hm.
  { intros row x Hrow Hx. unfold stepMatches. destruct (Hok row Hrow) as (y & Hy & Hyw). rewrite Hy in Hx.
    apply list_elem_of_singleton in Hx as ->. rewrite Hwid, Hw, Hyw.
    destruct (String.eqb_spec (W_ID row) (W_ID r)) as [He|He]; [|by rewrite andb_false_r].
    assert (row = r) as -> by (eapply (NoDup_fmap_key W_ID); eauto). assert (y = s) as -> by congruence.
    by rewrite Hid, String.eqb_refl. }
  unfold UpdateAutomationWorkflowStep. f_equal.
  - rewrite (filter_key_length WS_WorkflowID _ _ s); [done|by rewrite steps_ids| |].
    + apply list_elem_of_bind. exists r. rewrite Hs. split; [|done]. by constructor.
    + intros y (row & Hy & Hrow)%list_elem_of_bind. rewrite (Hm row y Hrow Hy), String.eqb_eq, Hw.
      destruct (Hok row Hrow) as (z & Hz & Hzw). rewrite Hz in Hy. apply list_elem_of_singleton in Hy as ->. by rewrite Hzw.
  - apply list_fmap_ext. intros i row Hrow%list_elem_of_lookup_2. destruct (W_ID row =? W_ID r)%string eqn:He; [done|].
    apply updateSteps_other. intros x Hx. by rewrite (Hm row x).
Qed.

Definition written (ts : Z) (item : AutomationWorkflow) (step : AutomationWorkflowStep) (row : AutomationWorkflow) :
    AutomationWorkflow := updateSteps ts step (workflowColumns ts item row).

Lemma UpdateAutomationWorkflowAndStep_row ts item step rows r s :
  NoDup (W_ID <$> rows) → (∀ row, row ∈ rows → oneStep row) → r ∈ rows → W_Steps r = [s] →
  W_ID item = W_ID r → W_PrincipalID item = W_PrincipalID r →
  WS_ID step = WS_ID s → WS_WorkflowID step = WS_WorkflowID s →
  UpdateAutomationWorkflowAndStep ts item step rows =
    (Ok (), (λ row, if (W_ID row =? W_ID r)%string then written ts item step row else row) <$> rows).
Proof.
  intros Hids Hok Hr Hs Hid Hp Hsid Hswid. unfold UpdateAutomationWorkflowAndStep.
  rewrite (UpdateAutomationWorkflow_row ts item rows r) by done.
  set (g := λ row, if (W_ID row =? W_ID r)%string then workflowColumns ts item row else row).
  assert (∀ row, W_ID (g row) = W_ID row ∧ W_Steps (g row) = W_Steps row) as Hg.
  { intros row. unfold g. by destruct (_ =? _)%string. }
  assert (g r = workflowColumns ts item r) as Hgr by (unfold g; by rewrite String.eqb_refl).
  rewrite (UpdateAutomationWorkflowStep_row ts step (g <$> rows) (g r) s).
  - f_equal. rewrite <- list_fmap_compose. apply list_fmap_ext. intros i row _. simpl. rewrite !(proj1 (Hg _)).
    unfold g. by destruct (_ =? _)%string.
  - rewrite <- list_fmap_compose. erewrite list_fmap_ext; [exact Hids|]. intros i row _. apply Hg.
  - intros row (x & -> & Hx)%list_elem_of_fmap. destruct (Hok x Hx) as (y & Hy & Hyw). exists y.
    by rewrite (proj2 (Hg x)), (proj1 (Hg x)).
  - by apply list_elem_of_fmap_2.
  - by rewrite (proj2 (Hg r)).
  - done.
  - done.
Qed.

(** A statement that rewrites the row of one workflow. *)
Lemma wp_statement E f (g : Z → AutomationWorkflow → AutomationWorkflow) r w (Q : result AErr unit → WorkflowWorld → Prop) :
  G w → r ∈ workflows w →
  (∀ ts, f ts w = (Ok (), (λ row, if (W_ID row =? W_ID r)%string then g ts row else row) <$> workflows w)) →
  (∀ ts, rowOK (g ts r)) → (∀ ts, evo k tid r (g ts r)) →
  (∀ e w', G w' → Q (Err e) w') → (∀ ts w', G w' → g ts r ∈ workflows w' → Q (Ok ()) w') → wp (wdb E f) Q w.
Proof.
  intros HG Hr Hf Hok Hevo He HQ. unfold wp, wdb. cbn [run]. destruct (env_fails E _).
  { apply He. by eapply G_keeps; [|exact HG]. }
  rewrite Hf. set (ts := env_now E _). destruct (G_rewrite w {| base := bump (base w); workflows :=
    (λ row, if (W_ID row =? W_ID r)%string then g ts row else row) <$> workflows w |} (W_ID r) (g ts) r) as [HG' Hin];
    try done. by apply (HQ ts).
Qed.

(** The steps of a row after an update of its step. *)
Lemma updateSteps_one ts step row s :
  W_Steps row = [s] → WS_ID step = WS_ID s → WS_WorkflowID step = WS_WorkflowID s →
  W_Steps (updateSteps ts step row) = [stepColumns step s (normalizedJSONObject (WS_NextAction step)) (Some ts)].
Proof. intros Hs Hi Hw. unfold updateSteps. cbn. rewrite Hs. cbn. unfold stepMatches. by rewrite Hi, Hw, !String.eqb_refl. Qed.

(** A write of the item and its step, as the methods end with. *)
Lemma wp_amend E item0 s0 r w status cur aff next code msg completed step :
  G w → r ∈ workflows w → W_ID r = tid → reflects item0 r → W_Steps item0 = [s0] →
  WS_ID step = WS_ID s0 → WS_WorkflowID step = WS_WorkflowID s0 → WS_Status step = stepOf status →
  (completed = None ↔ settled status = false) → status ≠ WorkflowPartiallySucceeded →
  moves k (W_Status item0) status →
  let item := amendWorkflow status cur aff next code msg completed [step] item0 in
  wp (try (updateWorkflowAndStep E item step) (λ _, Ret (Ok item))) Post w.
Proof.
  intros HG Hr Htid (Hid & Hp & Hcs & Hst & x & s & Hx & Hs & Hsid & Hswid & Hss) Hs0 Hi Hw Hstep Hc Hpart Hm item. rewrite Hst in Hm.
  rewrite Hs0 in Hx. injection Hx as <-. destruct (winv_rows w (proj1 HG) r Hr) as (s' & Hs' & Hwid & _).
  rewrite Hs in Hs'. injection Hs' as <-.
  assert (∀ ts, W_Steps (written ts item step r) = [stepColumns step s (normalizedJSONObject (WS_NextAction step)) (Some ts)]) as Hws.
  { intros ts. apply updateSteps_one; [done|congruence..]. }
  apply wp_try. apply (wp_statement _ _ (λ ts, written ts item step) r); [done|done|..].
  - intros ts. apply (UpdateAutomationWorkflowAndStep_row ts item step (workflows w) r s); try done; try congruence.
    + apply (winv_ids w), HG.
    + intros row Hrow. by apply rowOK_oneStep, (winv_rows w (proj1 HG)).
  - intros ts. eexists. split; [apply Hws|]. split_and!; try done. by left.
  - intros ts. split_and!; [|by right|].
    + unfold identity, written. cbn. by rewrite <- Hcs.
    + intros [?|Hstuck]; [done|]. apply moves_stuck in Hm. congruence.
  - by intros; apply conj.
  - intros ts w' HG' Hin. split; [done|]. exists (written ts item step r). split; [done|]. split; [done|]. unfold reflects.
    split_and!; try done. eexists _, _. rewrite Hws. split_and!; [reflexivity|reflexivity|cbn; congruence..].
Qed.

(** ** Synchronization *)

Definition stateOK (state : WorkflowState) : Prop :=
  ST_StepStatus state = stepOf (ST_Status state) ∧ (ST_CompletedAt state = None ↔ settled (ST_Status state) = false) ∧
  ST_Status state ≠ WorkflowCancelled ∧ ST_Status state ≠ WorkflowPartiallySucceeded.

Lemma plainState_OK changeset ext at_ : stateOK (plainState changeset ext at_).
Proof. unfold stateOK, plainState, workflowState. destruct ext; [done|]. by destruct (CS_Status changeset). Qed.

Definition foundOK (r : result AErr (Z + WorkflowState)) (_ : WorkflowWorld) : Prop :=
  match r with Ok (inr state) => stateOK state | _ => True end.

Lemma wp_any {A} (p : prog WorkflowWorld A) (Q : A → WorkflowWorld → Prop) w : (∀ a w', Q a w') → wp p Q w.
Proof. unfold wp. destruct (run p w). auto. Qed.

Lemma findAccessChange_OK E at_ ops w : wp (findAccessChange E at_ ops) foundOK w.
Proof.
  revert w; induction ops as [|op ops IH]; intros w; cbn [findAccessChange]; [done|].
  destruct (_ <? _); [done|]. destruct (_ && _); [|apply IH].
  apply wp_try, wp_any. intros [rev|e] w1; [|done]. apply wp_try, wp_any. intros [[rev'|]|e] w2; [|apply IH|done].
  destruct (PR_ActivationChangeID rev'); [done|]. apply wp_bind, wp_any. intros st w3. apply wp_ret. unfold foundOK, stateOK.
  by destruct st as [status|]; [destruct (_ =? _)%string|].
Qed.

Definition stateResult (r : result AErr WorkflowState) (_ : WorkflowWorld) : Prop :=
  match r with Ok state => stateOK state | Err _ => True end.

Lemma accessChangeWorkflowState_OK E changeset at_ w : wp (accessChangeWorkflowState E changeset at_) stateResult w.
Proof.
  unfold accessChangeWorkflowState. destruct (decodeAccessOperations _) as [ops|]; [|done].
  apply wp_try. eapply wp_mono; [|apply (findAccessChange_OK E at_ ops w)]. intros [[id|state]|e] w1 Hf; [|exact Hf|done].
  destruct (id =? 0); [done|]. apply wp_try, wp_any. intros [change|e] w2; [|done]. apply wp_ret. unfold stateResult, stateOK.
  destruct (_ =? _)%string; [done|]. by destruct (_ || _).
Qed.

Lemma derivedState_OK E kind changeset at_ state w :
  stateOK state → wp (derivedState E kind changeset at_ state) stateResult w.
Proof.
  intros Hs. unfold derivedState. destruct (_ && _); [|done]. apply wp_bind, wp_any. intros t w1.
  apply accessChangeWorkflowState_OK.
Qed.

Lemma findAccessChange_keeps E at_ ops : steps_in keeps (findAccessChange E at_ ops).
Proof. induction ops as [|op ops IH]; cbn [findAccessChange]; keeps_walk; exact IH. Qed.

Lemma accessChangeWorkflowState_keeps E changeset at_ : steps_in keeps (accessChangeWorkflowState E changeset at_).
Proof. unfold accessChangeWorkflowState. keeps_walk. apply findAccessChange_keeps. Qed.

Lemma derivedState_keeps E kind changeset at_ state :
  steps_in keeps at_ → steps_in keeps (derivedState E kind changeset at_ state).
Proof. intros Hat. unfold derivedState. keeps_walk; [exact Hat|apply accessChangeWorkflowState_keeps]. Qed.

Lemma synchronizedError_keeps E item changeset state : steps_in keeps (synchronizedError E item changeset state).
Proof. unfold synchronizedError. keeps_walk. Qed.

Lemma Post_err e w : G w → Post (Err e) w.
Proof. done. Qed.

Lemma Post_ok item r w : G w → r ∈ workflows w → W_ID r = tid → reflects item r → Post (Ok item) w.
Proof. intros HG Hr Hid Hi. split; [done|by exists r]. Qed.

Lemma synchronizeExternal_wp E item step w r at_ :
  k = WSync → G w → r ∈ workflows w → W_ID r = tid → reflects item r → W_Steps item = [step] → settled (W_Status item) = false →
  wp (synchronizeExternal E item step [] at_) Post w.
Proof.
  intros Hk HG Hr Hid Hi Hs Hopen. unfold synchronizeExternal. apply wp_try_reads; [apply lift_keeps|done|by intros; apply Post_err|].
  intros changeset w1 Hw1 HG1. apply wp_bind_reads; [apply lift_keeps|done|]. intros server w2 Hw2 HG2.
  assert (r ∈ workflows w2) as Hr2 by congruence.
  destruct server as [[createdAt status]|e]; [|by apply (Post_ok _ r)].
  destruct (match _ with Some _ => _ | None => _ end); [|destruct (negb _); [by apply (Post_ok _ r)|]];
    (eapply wp_amend; [exact HG2|exact Hr2|exact Hid|exact Hi|exact Hs|done..|]; by rewrite Hk).
Qed.

Lemma synchronizeWorkflow_wp E item w r :
  k = WSync → G w → r ∈ workflows w → W_ID r = tid → reflects item r → wp (synchronizeWorkflow E item) Post w.
Proof.
  intros Hk HG Hr Htid Hi. unfold synchronizeWorkflow. destruct (settled (W_Status item)) eqn:Hopen; [by apply (Post_ok _ r)|].
  destruct Hi as (Hid & Hp & Hcs & Hst & step & s & Hs & Hrs & Hsteps). rewrite Hs.
  assert (reflects item r) as Hi by (unfold reflects; eauto 12).
  apply wp_bind_reads; [apply lift_keeps|done|]. intros at_ w1 Hw1 HG1. destruct (_ && _).
  { apply (synchronizeExternal_wp _ _ _ _ r); try done. congruence. }
  apply wp_try_reads; [apply lift_keeps|done|by intros; apply Post_err|]. intros changeset w2 Hw2 HG2.
  apply wp_try. eapply wp_mono; [|apply (wp_conj _ stateResult (λ _ w', workflows w' = workflows w2 ∧ G w'))].
  2: { apply derivedState_OK, plainState_OK. }
  2: { apply wp_reads; [by apply derivedState_keeps|done|done]. }
  intros [state|e] w3 [Hst_ok [Hw3 HG3]]; [|by apply Post_err]. destruct Hst_ok as (Hss & Hsc & Hnc & Hnp).
  set (item' := if _ && _ then _ else item).
  assert (W_Status item' = W_Status item ∧ W_Steps item' = [step] ∧ reflects item' r) as (Hst' & Hs' & Hi').
  { unfold item'. destruct (_ && _); [|done]. split_and!; [done..|]. unfold reflects. cbn. rewrite Hs. eauto 12. }
  clearbody item'. assert (r ∈ workflows w3) as Hr3 by congruence. destruct (_ && _); [by apply (Post_ok _ r)|].
  apply wp_bind_reads; [apply synchronizedError_keeps|done|]. intros error w4 Hw4 HG4.
  assert (r ∈ workflows w4) as Hr4 by congruence. eapply wp_amend; [exact HG4|exact Hr4|exact Htid|exact Hi'|exact Hs'|done..|].
  by rewrite Hk, Hst'.
Qed.

(** ** The methods *)

Lemma getWorkflow_reflects id w item :
  WInv w → GetAutomationWorkflow id (workflows w) = Ok item → ∃ r, r ∈ workflows w ∧ W_ID r = id ∧ reflects item r.
Proof.
  intros HI. unfold GetAutomationWorkflow. destruct (List.find _ _) as [r|] eqn:Hf; [|done]. intros [= <-].
  apply find_some in Hf as [Hr%list_elem_of_In He%String.eqb_eq]. exists r. split; [done|]. split; [done|].
  destruct (winv_rows w HI r Hr) as (s & Hs & _). unfold reflects. cbn. rewrite Hs. cbn. split_and!; try done. by exists s, s.
Qed.

Lemma wp_getWorkflow {A} E id (f : result AErr AutomationWorkflow → prog WorkflowWorld A) Q w :
  G w → (∀ e w', G w' → wp (f (Err e)) Q w') →
  (∀ item r w', G w' → r ∈ workflows w' → W_ID r = id → reflects item r → wp (f (Ok item)) Q w') →
  wp (bind (getWorkflow E id) f) Q w.
Proof.
  intros HG He Hok. apply wp_bind. unfold wp, getWorkflow, wdb. cbn [run]. destruct (env_fails E _).
  { apply He. by eapply G_keeps; [|exact HG]. }
  destruct (GetAutomationWorkflow id (workflows w)) as [item|e] eqn:Hget; cbn.
  - destruct (getWorkflow_reflects id w item (proj1 HG) Hget) as (r & Hr & Hid & Hi).
    apply (Hok item r); try done; by eapply G_keeps; [|exact HG].
  - apply He. by eapply G_keeps; [|exact HG].
Qed.

Lemma GetWorkflow_wp E s p id w : k = WSync → tid = TrimSpace id → G w → wp (GetWorkflow E s p id) Post w.
Proof.
  intros Hk Htid HG. unfold GetWorkflow. apply wp_getWorkflow; [done|by intros; apply Post_err|].
  intros item r w1 HG1 Hr Hid Hi. destruct (negb _); [by apply Post_err|].
  apply wp_try_reads; [apply lift_keeps|done|by intros; apply Post_err|]. intros changeset w2 Hw2 HG2.
  apply wp_try_reads; [apply lift_keeps|done|by intros; apply Post_err|]. intros _ w3 Hw3 HG3.
  apply (synchronizeWorkflow_wp _ _ _ r); congruence.
Qed.

Lemma cancelItem_wp E item r w :
  G w → r ∈ workflows w → W_ID r = tid → reflects item r → moves k (W_Status item) WorkflowCancelled → wp (cancelItem E item) Post w.
Proof.
  intros HG Hr Hid Hi Hm. unfold cancelItem. apply wp_bind_reads; [apply lift_keeps|done|]. intros at_ w1 Hw1 HG1.
  assert (∃ step, W_Steps item = [step]) as [step Hs] by (destruct Hi as (_ & _ & _ & _ & step & _ & Hs & _); by exists step).
  assert (r ∈ workflows w1) as Hr1 by congruence. rewrite Hs. eapply wp_amend; [exact HG1|exact Hr1|exact Hid|exact Hi|exact Hs|done..].
Qed.

Lemma RequireWorkflowExternalAction_wp E p id cs w :
  k = WExternal → tid = TrimSpace id → G w → wp (RequireWorkflowExternalAction E p id cs) Post w.
Proof.
  intros Hk Htid HG. unfold RequireWorkflowExternalAction. apply wp_getWorkflow; [done|by intros; apply Post_err|].
  intros item r w1 HG1 Hr Hid Hi. destruct (negb _); [by apply Post_err|]. destruct cs as [changeset|]; [|by apply Post_err].
  assert (∃ step, W_Steps item = [step]) as [step Hs] by (destruct Hi as (_ & _ & _ & _ & step & _ & Hs & _); by exists step).
  rewrite Hs. destruct (_ || _); [by apply Post_err|].
  eapply wp_amend; [exact HG1|exact Hr|congruence|exact Hi|exact Hs|done..|]. by rewrite Hk.
Qed.

(** A step that has failed belongs to a failed workflow. *)
Lemma failed_step r s : rowOK r → W_Steps r = [s] → WS_Status s = "failed"%string → W_Status r = WorkflowFailed.
Proof.
  intros (s' & Hs' & _ & _ & _ & Hst) Hs Hf. rewrite Hs in Hs'. injection Hs' as <-. destruct Hst as [Hst|[Hst _]]; [|done].
  rewrite Hf in Hst. by destruct (W_Status r).
Qed.

Lemma resetWorkflowStep_wp E item r step w :
  k = WRequeue → G w → r ∈ workflows w → W_ID r = tid → reflects item r → W_Steps item = [step] → WS_Status step = "failed"%string →
  wp (resetWorkflowStep E item [] step []) Post w.
Proof.
  intros Hk HG Hr Htid (Hid & Hp & Hcs & Hst & x & s & Hx & Hs & Hsid & Hswid & Hss) Hstep Hfail. rewrite Hstep in Hx. injection Hx as <-.
  destruct (winv_rows w (proj1 HG) r Hr) as (s' & Hs' & Hwid & _). rewrite Hs in Hs'. injection Hs' as <-.
  assert (W_Status r = WorkflowFailed) as Hrf by (eapply failed_step; [by apply (winv_rows w (proj1 HG))|done|congruence]).
  unfold resetWorkflowStep. apply wp_bind_reads; [apply lift_keeps|done|]. intros at_ w1 Hw1 HG1.
  assert (r ∈ workflows w1) as Hr1 by congruence. set (step' := requeueStep at_ step). apply wp_try.
  assert (∀ ts, W_Steps (updateSteps ts step' r) =
    [stepColumns step' s (normalizedJSONObject (WS_NextAction step')) (Some ts)]) as Hus by (intros; by apply updateSteps_one).
  apply (wp_statement _ _ (λ ts, updateSteps ts step') r); [done|done|..].
  - intros ts. apply (UpdateAutomationWorkflowStep_row ts step' (workflows w1) r s); try done.
    + apply (winv_ids w1), HG1.
    + intros row Hrow. by apply rowOK_oneStep, (winv_rows w1 (proj1 HG1)).
  - intros ts. eexists. split; [apply Hus|]. destruct (winv_rows w (proj1 HG) r Hr) as (_ & _ & _ & Hc & Hpart & _).
    split_and!; try done. by right.
  - intros ts. split_and!; [done|by left|]. rewrite Hk, Hrf. by intros [?|?].
  - by intros; apply conj.
  - intros ts w2 HG2 Hr2. set (r1 := updateSteps ts step' r) in *. apply wp_try.
    set (item' := amendWorkflow _ _ _ _ _ _ _ _ _). apply (wp_statement _ _ (λ ts, workflowColumns ts item') r1); [done|done|..].
    + intros ts'. apply UpdateAutomationWorkflow_row; [apply (winv_ids w2), HG2|done..].
    + intros ts'. eexists. split; [apply Hus|]. split_and!; try done. by left.
    + intros ts'. split_and!; [unfold identity, item'; cbn; by rewrite <- Hcs|right; cbn; by rewrite Hk, Hrf|].
      rewrite Hk. cbn. rewrite Hrf. by intros [?|?].
    + by intros; apply conj.
    + intros ts' w3 HG3 Hr3. split; [done|]. eexists. split; [exact Hr3|]. split; [done|]. unfold reflects. split_and!; try done.
      eexists _, _. split_and!; [reflexivity|cbn; apply Hus|done..].
Qed.

Lemma retryLoop_wp E refuse item stepID r w :
  k = WRequeue → G w → r ∈ workflows w → W_ID r = tid → reflects item r → (∀ step, refuse step = None → WS_Status step = "failed"%string) →
  wp (retryLoop E refuse item stepID [] (W_Steps item)) Post w.
Proof.
  intros Hk HG Hr Hid Hi Href.
  assert (∃ step, W_Steps item = [step]) as [step Hs] by (destruct Hi as (_ & _ & _ & _ & step & _ & Hs & _); by exists step).
  rewrite Hs. cbn [retryLoop]. destruct (negb _); [by apply Post_err|]. destruct (refuse step) eqn:Hrefuse; [by apply Post_err|].
  apply (resetWorkflowStep_wp _ _ r); auto.
Qed.

(** ** Creation *)

Lemma createWorkflow_G E item w :
  G w → (∀ ts aff next, rowOK (createdWorkflow ts aff next
           ((λ s, createdStep (W_ID item) ts (normalizedJSONObject (WS_NextAction s)) s) <$> W_Steps item) item)) →
  wp (createWorkflow E item) (λ _ w', G w') w.
Proof.
  intros HG Hok. unfold wp, createWorkflow, wdb. cbn [run]. destruct (env_fails E _); [by eapply G_keeps; [|exact HG]|].
  unfold CreateAutomationWorkflow. destruct (workflowConflict _ _ _) eqn:Hc; [by eapply G_keeps; [|exact HG]|].
  unfold workflowConflict in Hc. bprop. destruct HG as [[Hids Hkeys Hrows] Hev]. cbn. split; [split; cbn|].
  - rewrite fmap_app. apply NoDup_app. split_and!; [done| |apply NoDup_singleton].
    intros x (row & -> & Hrow)%list_elem_of_fmap He%list_elem_of_singleton. cbn in He.
    pose proof (existsb_false_elem (λ row, (W_ID row =? W_ID item)%string) (workflows w) row ltac:(assumption) Hrow) as Hn. cbn in Hn. by apply String.eqb_neq in Hn.
  - rewrite fmap_app. apply NoDup_app. split_and!; [done| |apply NoDup_singleton].
    intros x (row & -> & Hrow)%list_elem_of_fmap He%list_elem_of_singleton. unfold workflowKey in He. cbn in He.
    pose proof (existsb_false_elem (λ row, (W_PrincipalID row =? W_PrincipalID item)%string && (W_IdempotencyKey row =? W_IdempotencyKey item)%string) (workflows w) row ltac:(assumption) Hrow) as Hn.
    cbn in Hn. injection He as He1 He2. by rewrite He1, He2, !String.eqb_refl in Hn.
  - intros row [Hrow|Hrow%list_elem_of_singleton]%elem_of_app; [auto|subst row]. apply Hok.
  - intros r Hr. destruct (Hev r Hr) as (r' & Hr' & He). exists r'. split; [|done]. cbn. set_solver.
Qed.

Lemma StartWorkflow_wp E s p request w : G w → wp (StartWorkflow E s p request) (λ _ w', G w') w.
Proof.
  intros HG. unfold StartWorkflow. destruct (_ || _); [done|]. cbv zeta.
  apply wp_try_reads; [apply lift_keeps|done|done|]. intros changeset w1 _ HG1.
  apply wp_try_reads; [apply lift_keeps|done|done|]. intros _ w2 _ HG2.
  apply wp_bind_reads; [apply wdb_read_keeps|done|]. intros [existing|e] w3 _ HG3; [done|]. destruct e; try done.
  apply wp_try_reads; [apply lift_keeps|done|done|]. intros id w4 _ HG4.
  apply wp_try_reads; [apply lift_keeps|done|done|]. intros stepID w5 _ HG5.
  apply wp_try_reads; [apply lift_keeps|done|done|]. intros corr w6 _ HG6.
  apply wp_bind_reads; [apply lift_keeps|done|]. intros at_ w7 _ HG7.
  apply wp_try. eapply wp_mono; [|apply (wp_conj _ stateResult (λ _ w', G w'))].
  2: { apply derivedState_OK, plainState_OK. }
  2: { apply wp_reads; [apply derivedState_keeps, lift_keeps|done|done]. }
  intros [state|e] w8 [Hst_ok HG8]; [|done]. destruct Hst_ok as (Hss & Hsc & Hnc & Hnp).
  apply wp_bind_reads; [apply lift_keeps|done|]. intros at' w9 _ HG9. apply wp_bind.
  eapply wp_mono; [|apply createWorkflow_G; [exact HG9|]].
  - intros [created|e] w10 HG10; [done|]. apply wp_bind_reads; [apply wdb_read_keeps|done|]. by intros [existing|e'] w11 _ HG11.
  - intros ts aff next. eexists. split; [reflexivity|]. split_and!; try done. by left.
Qed.
End safety.

(** ** Reachable stores *)

Section reachable.
Context `{!Codec, !WorkflowCodec, !MapRange string string}.

(** A poll, and then a write of another kind. *)
Definition polled (k : write) (id : string) (w w' : WorkflowWorld) : Prop := ∃ w1, G WSync id w w1 ∧ G k id w1 w'.

Lemma G_refl k id w : WInv w → G k id w w.
Proof. by split. Qed.

Lemma Post_G k id w (p : prog WorkflowWorld (result AErr AutomationWorkflow)) w1 : wp p (Post k id w) w1 → wp p (λ _ w', G k id w w') w1.
Proof. apply wp_mono. by intros a x [Hx _]. Qed.

Lemma wp_polled k E s p id (f : AutomationWorkflow → prog WorkflowWorld (result AErr AutomationWorkflow)) w :
  WInv w →
  (∀ item r w', WInv w' → r ∈ workflows w' → W_ID r = TrimSpace id → reflects item r → wp (f item) (λ _ w'', G k (TrimSpace id) w' w'') w') →
  wp (try (GetWorkflow E s p id) f) (λ _ w', polled k (TrimSpace id) w w') w.
Proof.
  intros HI Hf. apply wp_try. eapply wp_mono; [|by apply (GetWorkflow_wp WSync (TrimSpace id) w), G_refl].
  intros [item|e] w' [HG' H']; [|exists w'; split; [done|by apply G_refl, HG']]. destruct H' as (r & Hr & Hid & Hi).
  eapply wp_mono; [|by apply (Hf item r w'); [apply HG'|..]]. intros a w'' HG''. by exists w'.
Qed.

Lemma CancelWorkflow_polled E s p id w : WInv w → wp (CancelWorkflow E s p id) (λ _ w', polled WCancel (TrimSpace id) w w') w.
Proof.
  intros HI. apply wp_polled; [done|]. intros item r w' HI' Hr Hid Hi. destruct (settled _) eqn:Hopen; [by apply wp_ret, G_refl|].
  apply Post_G, (cancelItem_wp _ _ _ _ _ r); done.
Qed.

Lemma AbandonFailedWorkflow_polled E s p id w : WInv w → wp (AbandonFailedWorkflow E s p id) (λ _ w', polled WAbandon (TrimSpace id) w w') w.
Proof.
  intros HI. apply wp_polled; [done|]. intros item r w' HI' Hr Hid Hi. case_bool_decide as Hst; [|by apply wp_ret, G_refl].
  cbn [negb orb]. case_bool_decide; [by apply wp_ret, G_refl|]. apply Post_G, (cancelItem_wp _ _ _ _ _ r); done.
Qed.

Lemma retry_polled E s p id refuse stepID w : WInv w → (∀ step, refuse step = None → WS_Status step = "failed"%string) →
  wp (try (GetWorkflow E s p id) (λ item, retryLoop E refuse item stepID [] (W_Steps item))) (λ _ w', polled WRequeue (TrimSpace id) w w') w.
Proof.
  intros HI Href. apply wp_polled; [done|]. intros item r w' HI' Hr Hid Hi. apply Post_G, (retryLoop_wp _ _ _ _ _ _ _ r); done.
Qed.

Lemma polled_inv k id w w' : polled k id w w' → WInv w'.
Proof. by intros (w1 & _ & [? _]). Qed.

(** The changes of a row by a poll and a write after it. *)
Lemma polled_row k id w w' r : polled k id w w' → r ∈ workflows w →
  ∃ a r', r' ∈ workflows w' ∧ identity r' = identity r ∧ (a = W_Status r ∨ moves WSync (W_Status r) a) ∧
    (W_Status r' = a ∨ moves k a (W_Status r')) ∧
    (W_ID r ≠ id ∨ settled (W_Status r) = true ∧ stuck k (W_Status r) = true → r' = r).
Proof.
  intros (w1 & [_ H1] & [_ H2]) Hr. destruct (H1 r Hr) as (r1 & Hr1 & Hi1 & Hm1 & Hf1). destruct (H2 r1 Hr1) as (r' & Hr' & Hi' & Hm' & Hf').
  exists (W_Status r1), r'. split_and!; [done|congruence|done|done|]. intros Hc.
  assert (r1 = r) as -> by (apply Hf1; cbn; tauto). apply Hf'. tauto.
Qed.

(** A new workflow leaves the others as they are: it is a write to none of them. *)
Lemma started_rows E s p request w r : WInv w → r ∈ workflows w → r ∈ workflows (snd (run (StartWorkflow E s p request) w)).
Proof.
  intros HI Hr. assert (∃ id, W_ID r ≠ id) as [id Hne] by (destruct (W_ID r); [by exists "'"%string|by exists ""%string]).
  pose proof (StartWorkflow_wp WSync id w E s p request w (G_refl _ _ _ HI)) as Hwp. unfold wp in Hwp. destruct (run _ w) as [a w'].
  destruct Hwp as [_ Hev]. destruct (Hev r Hr) as (r' & Hr' & _ & _ & Hf). rewrite <- Hf by auto. done.
Qed.

(** What a call of each kind amounts to. *)
Definition outcome (c : wkind) (w w' : WorkflowWorld) : Prop :=
  match c with
  | CallChangesets | CallStart => WInv w' ∧ ∀ r, r ∈ workflows w → r ∈ workflows w'
  | CallGet id => G WSync id w w'
  | CallCancel id => polled WCancel id w w'
  | CallAbandon id => polled WAbandon id w w'
  | CallRetry id => polled WRequeue id w w'
  | CallExternal id => G WExternal id w w'
  end.

Lemma wp_snd {A} (p : prog WorkflowWorld A) (Q : WorkflowWorld → Prop) w : wp p (λ _ w', Q w') w → Q (snd (run p w)).
Proof. unfold wp. by destruct (run p w). Qed.

Lemma wcall_outcome c w w' : wcall c w w' → WInv w → outcome c w w'.
Proof.
  intros Hc HI. destruct Hc as [A p w|E s p request w|E s p id w|E s p id w|E s p id w|E s p id step w|E s p id step w|E p id cs w]; cbn [outcome].
  - apply wp_snd, (wp_steps_in keeps); [apply lift_keeps|]. intros a w' Hk. split; [by eapply (G_keeps WSync "" w), G_refl|]. intros r Hr. by rewrite Hk.
  - split; [|by intros r; apply started_rows]. apply wp_snd. eapply wp_mono; [|by apply (StartWorkflow_wp WSync "" w), G_refl]. by intros a w' [].
  - by apply wp_snd, Post_G, GetWorkflow_wp, G_refl.
  - by apply wp_snd, CancelWorkflow_polled.
  - by apply wp_snd, AbandonFailedWorkflow_polled.
  - apply wp_snd, retry_polled; [done|]. intros st. destruct (_ || _) eqn:Hc; [done|]. intros _. bprop. by apply String.eqb_eq.
  - apply wp_snd, retry_polled; [done|]. intros st. destruct (negb _) eqn:Hc; [done|]. intros _. bprop. by apply String.eqb_eq.
  - by apply wp_snd, Post_G, RequireWorkflowExternalAction_wp, G_refl.
Qed.

Lemma outcome_inv c w w' : outcome c w w' → WInv w'.
Proof. destruct c; cbn; try (by intros []); apply polled_inv. Qed.

Lemma wsteps_WInv w w' : rtc wstep w w' → WInv w → WInv w'.
Proof. induction 1 as [|w w1 w' [c Hc] _ IH]; [done|]. intros HI. by eapply IH, outcome_inv, wcall_outcome. Qed.

Lemma initial_WInv : WInv initialWorkflowWorld.
Proof. split; cbn; [constructor|constructor|set_solver]. Qed.

Lemma reachable_WInv w : rtc wstep initialWorkflowWorld w → WInv w.
Proof. intros Hw. apply (wsteps_WInv _ _ Hw), initial_WInv. Qed.

(** C17. Workflow calls that run one at a time implement a small machine. A call keeps every
    workflow and its identity (principal, grant, kind, reason, key, changeset), and changes the
    status of the workflow it is about only along the transitions of its kind: a poll brings an
    open workflow up to date; a cancellation cancels an open one; an abandonment cancels a failed one;
    a retry queues a failed one again; a request for an external action sets just this status;
    starting a workflow and the changeset service move none.  The rows of other workflows
    are not written, nor is a settled row by a poll or a cancellation, nor a succeeded or cancelled one by an
    abandonment or a retry. *)
Theorem workflow_refines_machine c w w' r :
  rtc wstep initialWorkflowWorld w → wcall c w w' → r ∈ workflows w →
  ∃ r', r' ∈ workflows w' ∧ identity r' = identity r ∧ mayBecome c (W_Status r) (W_Status r') ∧ (untouched c r → r' = r).
Proof.
  intros Hw Hc%wcall_outcome Hr; [|by apply reachable_WInv].
  destruct c as [| |id|id|id|id|id]; cbn [outcome] in Hc; unfold mayBecome, untouched.
  1, 2: exists r; split; [by apply Hc|]; auto.
  1, 5: destruct Hc as [_ Hev]; destruct (Hev r Hr) as (r' & Hr' & Hi & Hm & Hf); exists r'; cbn in *; tauto.
  all: destruct (polled_row _ _ _ _ r Hc Hr) as (a & r' & Hr' & Hi & Ha & Hm & Hf); exists r'; split; [done|]; split; [done|]; cbn [moves stuck] in Ha, Hm, Hf; split.
  - destruct Ha as [->|(? & ? & ?)], Hm as [->|[? ->]]; auto.
  - tauto.
  - destruct Ha as [->|(? & ? & ?)], Hm as [->|[? ->]]; auto 6.
  - intros [?|[? ?]]; apply Hf; [by left|right]. rewrite bool_decide_false by done. done.
  - destruct Ha as [->|(? & ? & ?)], Hm as [->|[? ->]]; auto 6.
  - intros [?|[? ?]]; apply Hf; [by left|right]. rewrite bool_decide_false by done. done.
Qed.

(** The status of the step goes with that of its workflow, except when a retry wrote the step
    and not the row. *)
Lemma step_statuses w row : rtc wstep initialWorkflowWorld w → row ∈ workflows w →
  ∃ s, W_Steps row = [s] ∧ (WS_Status s = stepOf (W_Status row) ∨ torn row s).
Proof. intros HI%reachable_WInv Hr. destruct (winv_rows w HI row Hr) as (s & Hs & _ & _ & _ & Hst). eauto. Qed.
End reachable.

(** ** Witnesses *)

#[local] Existing Instances demoCodec demoRange demoWorkflowCodec.

(** The calls of the changeset service that lead to a draft, as a program of this world. *)
Lemma lift_run_base {A} (p : prog World A) b : snd (run (lift p) {| base := b; workflows := [] |}) =
  {| base := snd (run p b); workflows := [] |}.
Proof.
  revert b; induction p as [a|R c k IH]; intros b; simpl; [done|]. destruct (c b) as [r b']. unfold withBase. simpl. apply IH.
Qed.

Lemma demoPlanning_reachable : rtc wstep initialWorkflowWorld demoPlanning.
Proof.
  eapply rtc_l; [exists CallChangesets; apply (wc_changesets _ (Create demoEnv demoService demoOperator demoRequest))|].
  unfold initialWorkflowWorld. rewrite lift_run_base. apply rtc_once. eexists. by eapply wc_start.
Qed.

(** The draft's workflow, cancelled. *)
Definition demoCancelled : WorkflowWorld :=
  snd (run (CancelWorkflow (demoWorkflowEnv demoEnv "preparing") demoService demoOperator "wf_7") demoPlanning).

Definition demoPlanningRow : AutomationWorkflow :=
  Eval vm_compute in match workflows demoPlanning with r :: _ => r | [] => amendWorkflow WorkflowFailed "" "" "" "" "" None []
    {| W_ID := ""; W_PrincipalID := ""; W_GrantID := ""; W_Kind := ""; W_Status := WorkflowFailed; W_Reason := "";
       W_IdempotencyKey := ""; W_ChangesetID := ""; W_CurrentStep := ""; W_CorrelationID := ""; W_AffectedResources := "";
       W_NextAction := ""; W_ErrorCode := ""; W_ErrorMessage := ""; W_CreatedAt := None; W_UpdatedAt := None;
       W_CompletedAt := None; W_Steps := [] |} end.

Lemma demoPlanning_rows : workflows demoPlanning = [demoPlanningRow].
Proof. vm_compute. reflexivity. Qed.

Lemma workflow_refines_machine_witness :
  (W_Status <$> workflows demoCancelled) = [WorkflowCancelled] ∧
  ∃ r', r' ∈ workflows demoCancelled ∧ identity r' = identity demoPlanningRow ∧
    mayBecome (CallCancel "wf_7") WorkflowPlanning (W_Status r') ∧ (untouched (CallCancel "wf_7") demoPlanningRow → r' = demoPlanningRow).
Proof.
  split; [vm_compute; reflexivity|].
  refine (workflow_refines_machine (CallCancel "wf_7") demoPlanning demoCancelled demoPlanningRow demoPlanning_reachable _ _).
  - apply (wc_cancel _ _ _ "wf_7").
  - rewrite demoPlanning_rows. by constructor.
Defined.
