(* ===== verification/WorkflowContracts.v ===== *)
(** * Contracts of the workflow methods, and the updates they can lose

    A poll brings an open workflow to the state of its changeset, of the access change or of the
    server that it leads to.  Two behaviours of the
    statements of the source are exhibited as theorems: a retry whose second statement
    fails leaves a workflow that no retry reaches again, and a cancellation that races
    with a poll is overwritten. *)

From S2P Require Import Prelude Model NodeKeys Rbac McpAuth Capability ChangesetStore Prog Automation AutomationSafety AutomationContracts Workflows WorkflowSafety.

Local Open Scope Z_scope.

(** ** Steps that change neither the workflows nor the changesets *)

Definition still (w w' : WorkflowWorld) : Prop := workflows w' = workflows w ∧ st (base w') = st (base w).

Global Instance still_preorder : PreOrder still.
Proof. split; [by intros w|]. intros w1 w2 w3 [] []. split; congruence. Qed.



Section contracts.
Context `{!Codec, !WorkflowCodec, !MapRange string string}.






(** The row with an identifier is what the query returns. *)
Lemma GetAutomationWorkflow_row w r :
  WInv w → r ∈ workflows w → GetAutomationWorkflow (W_ID r) (workflows w) = Ok r.
Proof.
  intros HI Hr. unfold GetAutomationWorkflow. destruct (List.find _ _) as [x|] eqn:Hf.
  - apply find_some in Hf as [Hx%list_elem_of_In He%String.eqb_eq].
    assert (x = r) as -> by (eapply (NoDup_fmap_key W_ID); [apply (winv_ids w HI)|done..]).
    destruct (winv_rows w HI r Hr) as (s & Hs & _). rewrite Hs. cbn. rewrite <- Hs. by destruct r.
  - pose proof (List.find_none _ _ Hf r (proj1 (list_elem_of_In _ _) Hr)) as Hn. cbn in Hn. by rewrite String.eqb_refl in Hn.
Qed.



(** *** What an open workflow follows *)


















(** ** A retry that fails half-way *)

Definition rowTorn (r : AutomationWorkflow) : Prop := ∃ s, W_Steps r = [s] ∧ torn r s.

Lemma retryLoop_torn E refuse item stepID w :
  rowTorn item → (∀ step, WS_Status step ≠ "failed"%string → refuse step ≠ None) →
  wp (retryLoop E refuse item stepID [] (W_Steps item)) (λ res w', (∃ e, res = Err e) ∧ workflows w' = workflows w) w.
Proof.
  intros (s & Hs & _ & Hq) Href. rewrite Hs. cbn [retryLoop]. destruct (negb _); [apply wp_ret; eauto|].
  destruct (refuse s) eqn:Hr; [apply wp_ret; eauto|]. destruct (Href s); [by rewrite Hq|done].
Qed.

(** A poll returns a settled workflow as it is. *)
Lemma GetWorkflow_settled (E : WorkflowEnv) s p id w r (Q : result AErr AutomationWorkflow → WorkflowWorld → Prop) :
  WInv w → r ∈ workflows w → W_ID r = TrimSpace id → settled (W_Status r) = true →
  (∀ e w', workflows w' = workflows w → Q (Err e) w') → (∀ w', workflows w' = workflows w → Q (Ok r) w') →
  wp (GetWorkflow E s p id) Q w.
Proof.
  intros HI Hr Hid Hset He Hok. unfold GetWorkflow. apply wp_bind. unfold wp at 1, getWorkflow, wdb. cbn [run].
  destruct (env_fails E _); [by apply He|]. rewrite <- Hid, (GetAutomationWorkflow_row w r) by done. cbn beta iota.
  destruct (negb _); [by apply He|].
  apply wp_try, (wp_steps_in keeps); [apply lift_keeps|]. intros [cs|e] w1 Hw1; [|apply He; by rewrite Hw1].
  apply wp_try, (wp_steps_in keeps); [apply lift_keeps|]. intros [u|e] w2 Hw2; [|apply He; by rewrite Hw2, Hw1].
  unfold synchronizeWorkflow. rewrite Hset. apply wp_ret, Hok. by rewrite Hw2, Hw1.
Qed.

Lemma wp_GetWorkflow_settled (E : WorkflowEnv) s p id w r (f : AutomationWorkflow → prog WorkflowWorld (result AErr AutomationWorkflow))
    (Q : result AErr AutomationWorkflow → WorkflowWorld → Prop) :
  WInv w → r ∈ workflows w → W_ID r = TrimSpace id → settled (W_Status r) = true →
  (∀ e w', workflows w' = workflows w → Q (Err e) w') → (∀ w', workflows w' = workflows w → wp (f r) Q w') →
  wp (try (GetWorkflow E s p id) f) Q w.
Proof. intros HI Hr Hid Hset He Hok. apply wp_try. eapply GetWorkflow_settled; eauto. Qed.

Definition refused (w : WorkflowWorld) (res : result AErr AutomationWorkflow) (w' : WorkflowWorld) : Prop :=
  (∃ e, res = Err e) ∧ workflows w' = workflows w.

Lemma torn_refused (E : WorkflowEnv) s p id stepID w r :
  WInv w → r ∈ workflows w → W_ID r = TrimSpace id → rowTorn r →
  wp (RetryWorkflowStep E s p id stepID) (refused w) w ∧ wp (ResetWorkflowForRetry E s p id stepID) (refused w) w ∧
  wp (CancelWorkflow E s p id) (refused w) w.
Proof.
  intros HI Hr Hid Ht. assert (W_Status r = WorkflowFailed) as Hst by (by destruct Ht as (? & _ & ? & _)).
  assert (settled (W_Status r) = true) as Hset by (by rewrite Hst).
  split_and!; (apply (wp_GetWorkflow_settled E s p id w r); try done; [by intros; split; eauto|]); intros w' Hw'.
  - eapply wp_mono; [|apply retryLoop_torn; [done|]].
    + intros res w2 [? Hw2]. split; [done|congruence].
    + intros step Hn. apply String.eqb_neq in Hn. rewrite Hn. cbn. by rewrite orb_true_r.
  - eapply wp_mono; [|apply retryLoop_torn; [done|]].
    + intros res w2 [? Hw2]. split; [done|congruence].
    + intros step Hn. apply String.eqb_neq in Hn. by rewrite Hn.
  - rewrite Hset. apply wp_ret. split; eauto.
Qed.

(** ** Theorems *)


(** The two statements of a retry are not one transaction: once the step is queued while
    the workflow is still failed, every further retry and cancellation is refused, whatever
    the environment does, and every poll reports the failure, although the access
    change may have resumed. *)
Theorem torn_retry_stuck (E : WorkflowEnv) s p id stepID w r :
  rtc wstep initialWorkflowWorld w → r ∈ workflows w → W_ID r = TrimSpace id → rowTorn r →
  (∀ res w', run (RetryWorkflowStep E s p id stepID) w = (res, w') → refused w res w') ∧
  (∀ res w', run (ResetWorkflowForRetry E s p id stepID) w = (res, w') → refused w res w') ∧
  (∀ res w', run (CancelWorkflow E s p id) w = (res, w') → refused w res w') ∧
  (∀ res w', run (GetWorkflow E s p id) w = (res, w') →
     workflows w' = workflows w ∧ ∀ item, res = Ok item → W_Status item = WorkflowFailed).
Proof.
  intros HI%reachable_WInv Hr Hid Ht.
  destruct (torn_refused E s p id stepID w r HI Hr Hid Ht) as (H1 & H2 & H3).
  split_and!; [by intros res w'; apply wp_run..|]. intros res w' Hrun.
  revert Hrun. apply (wp_run _ (λ res w', workflows w' = workflows w ∧ ∀ item, res = Ok item → W_Status item = WorkflowFailed)).
  assert (W_Status r = WorkflowFailed) as Hst by (by destruct Ht as (? & _ & ? & _)).
  apply (GetWorkflow_settled E s p id w r); try done; [by rewrite Hst|]. intros w1 Hw1. split; [done|]. by intros item [= <-].
Qed.
End contracts.

(** ** Witnesses and races *)

#[local] Existing Instances demoCodec demoRange demoWorkflowCodec.

(** The workflow of [demoPlanning] after its changeset has been validated. *)
Definition demoWaiting : WorkflowWorld :=
  snd (run (lift (Validate demoEnv demoService demoOperator "chg_0")) demoPlanning).




(** The second statement of the retry fails. *)
Definition demoTorn : WorkflowWorld :=
  snd (run (ResetWorkflowForRetry (demoWorkflowEnv (failsAt 42) "failed") demoService demoOperator "wf_30" "wfs_31") demoReleased).

Definition demoTornRow : AutomationWorkflow :=
  Eval vm_compute in match workflows demoTorn with r :: _ => r | [] => demoPlanningRow end.

Lemma demoTorn_reachable : rtc wstep initialWorkflowWorld demoTorn.
Proof.
  eapply rtc_r; [|eexists; apply wc_reset]. eapply rtc_r; [|eexists; apply wc_start].
  eapply rtc_l; [eexists; apply (wc_changesets _ (Create demoEnv demoService demoOperator demoRequest))|].
  unfold initialWorkflowWorld. rewrite lift_run_base.
  eapply rtc_l; [eexists; apply (wc_changesets _ (Validate demoEnv demoService demoOperator "chg_0"))|].
  rewrite lift_run_base. apply rtc_once. eexists.
  pose proof (wc_changesets _ (Approve demoEnv demoService demoOperator "chg_0" "ok") {| base := demoValidated; workflows := [] |}) as Hc.
  rewrite lift_run_base in Hc. exact Hc.
Qed.

(** The access change has been finalized, and the workflow stays failed. *)
Lemma torn_retry_stuck_witness :
  rowTorn demoTornRow ∧
  ∀ res w', run (GetWorkflow (demoWorkflowEnv demoEnv "finalized") demoService demoOperator "wf_30") demoTorn = (res, w') →
    workflows w' = workflows demoTorn ∧ ∀ item, res = Ok item → W_Status item = WorkflowFailed.
Proof.
  split; [by eexists|].
  refine (proj2 (proj2 (proj2 (torn_retry_stuck (demoWorkflowEnv demoEnv "finalized") demoService demoOperator "wf_30" "wfs_31"
    demoTorn demoTornRow demoTorn_reachable _ _ _)))).
  - vm_compute. constructor.
  - vm_compute. reflexivity.
  - by eexists.
Defined.

(** A poll has read the workflow when the cancellation runs, and writes after it. *)
Definition lostCancellation :=
  interleave (replicate 4 1%nat ++ replicate 40 0%nat ++ replicate 40 1%nat)
    [CancelWorkflow (demoWorkflowEnv demoEnv "preparing") demoService demoOperator "wf_7";
     GetWorkflow (demoWorkflowEnv demoEnv "preparing") demoService demoOperator "wf_7"] demoWaiting.

(** The writes of a workflow are not guarded by the status that was read: there is an
    interleaving of a cancellation and a poll after which the cancellation has returned
    the cancelled workflow and the stored workflow is open again. *)
Theorem cancellation_lost :
  ∃ item p w, rtc pool_step
    ([CancelWorkflow (demoWorkflowEnv demoEnv "preparing") demoService demoOperator "wf_7";
      GetWorkflow (demoWorkflowEnv demoEnv "preparing") demoService demoOperator "wf_7"], demoWaiting)
    ([Ret (Ok item); p], w) ∧
  W_Status item = WorkflowCancelled ∧ (W_Status <$> workflows w) = [WorkflowApprovalRequired].
Proof.
  destruct lostCancellation as [ps w] eqn:He. pose proof (interleave_steps (replicate 4 1%nat ++ replicate 40 0%nat ++ replicate 40 1%nat)
    [CancelWorkflow (demoWorkflowEnv demoEnv "preparing") demoService demoOperator "wf_7";
     GetWorkflow (demoWorkflowEnv demoEnv "preparing") demoService demoOperator "wf_7"] demoWaiting) as Hs.
  fold lostCancellation in Hs. rewrite He in Hs. vm_compute in He. injection He as <- <-.
  eexists _, _, _. split; [exact Hs|]. split; reflexivity.
Qed.
