(* ===== verification/WorkflowRaces.v ===== *)
(** * Workflow calls that overlap ([internal/automation/service.go], [internal/store/workflows.go])

    Calls of the workflow methods and of the changeset service interleave, one store statement or
    query at a time.  What survives every interleaving: workflows are unique, none is
    lost, each keeps its identity and its one step, and its completion time goes with its
    status.  What does not is the status itself ([WorkflowContracts.cancellation_lost]).
    The proofs are rely-guarantee arguments over the programs of the calls. *)

From S2P Require Import Prelude Model NodeKeys Rbac McpAuth Capability ChangesetStore Prog Automation AutomationSafety AutomationContracts Workflows WorkflowSafety WorkflowContracts.

Local Open Scope Z_scope.

(** ** Results that do not depend on what is read *)

Fixpoint always {W A : Type} (P : A → Prop) (p : prog W A) : Prop :=
  match p with
  | Ret a => P a
  | Call c k => ∀ r, always P (k r)
  end.

Lemma always_bind {W A B} (P : A → Prop) (Q : B → Prop) (p : prog W A) (f : A → prog W B) :
  always P p → (∀ a, P a → always Q (f a)) → always Q (bind p f).
Proof. induction p as [a|R c k IH]; cbn; intros Hp Hf; [auto|]. intros r. by apply IH. Qed.

Lemma always_any {W A} (p : prog W A) : always (λ _, True) p.
Proof. induction p as [a|R c k IH]; cbn; auto. Qed.

Lemma always_try {W E A B} (P : result E A → Prop) (Q : result E B → Prop) (p : prog W (result E A)) (f : A → prog W (result E B)) :
  always P p → (∀ e, Q (Err e)) → (∀ a, P (Ok a) → always Q (f a)) → always Q (try p f).
Proof. intros Hp He Hf. eapply always_bind; [exact Hp|]. by intros [a|e]; cbn; auto. Qed.

Lemma always_try_any {W E A B} (Q : result E B → Prop) (p : prog W (result E A)) (f : A → prog W (result E B)) :
  (∀ e, Q (Err e)) → (∀ a, always Q (f a)) → always Q (try p f).
Proof. intros He Hf. eapply always_try; [apply (always_any p)|done|]. auto. Qed.

(** ** The invariant and the guarantee *)

(** A row of a workflow: one step of its own, a completion time when it is settled. *)
Definition shape (row : AutomationWorkflow) : Prop :=
  (∃ s, W_Steps row = [s] ∧ WS_WorkflowID s = W_ID row) ∧
  (W_CompletedAt row = None ↔ settled (W_Status row) = false) ∧ W_Status row ≠ WorkflowPartiallySucceeded.

Definition RI (w : WorkflowWorld) : Prop :=
  NoDup (W_ID <$> workflows w) ∧ NoDup (workflowKey <$> workflows w) ∧ ∀ row, row ∈ workflows w → shape row.

(** No workflow is lost, and each keeps its identity. *)
Definition RG (w w' : WorkflowWorld) : Prop :=
  ∀ r, r ∈ workflows w → ∃ r', r' ∈ workflows w' ∧ identity r' = identity r.

Global Instance RG_preorder : PreOrder RG.
Proof.
  split; [by intros w r Hr; exists r|]. intros w1 w2 w3 H1 H2 r Hr.
  destruct (H1 r Hr) as (r2 & Hr2 & He). destruct (H2 r2 Hr2) as (r3 & Hr3 & He'). exists r3. split; [done|congruence].
Qed.

Notation rgw := (rg RI RG).

Lemma keeps_RG w w' : keeps w w' → RI w → RI w' ∧ RG w w'.
Proof. unfold keeps, RI, RG. intros ->. eauto. Qed.

(** A rewrite of the rows. *)
Lemma RI_map w w' f : RI w → workflows w' = f <$> workflows w → (∀ r, r ∈ workflows w → identity (f r) = identity r ∧ shape (f r)) → RI w' ∧ RG w w'.
Proof.
  intros (Hids & Hkeys & Hrows) Hw Hf. split; [split_and!|].
  - rewrite Hw, <-list_fmap_compose. erewrite list_fmap_ext; [exact Hids|]. intros i row Hrow%list_elem_of_lookup_2. by apply identity_id, Hf.
  - rewrite Hw, <-list_fmap_compose. erewrite list_fmap_ext; [exact Hkeys|]. intros i row Hrow%list_elem_of_lookup_2. by apply identity_key, Hf.
  - rewrite Hw. intros row (r & -> & Hr)%list_elem_of_fmap. by apply Hf.
  - intros r Hr. exists (f r). split; [|by apply Hf]. rewrite Hw. by apply list_elem_of_fmap_2.
Qed.

(** A workflow in memory is one of the store, as far as its identifier and its changeset go. *)
Definition tracks (item : AutomationWorkflow) (w : WorkflowWorld) : Prop :=
  ∃ r, r ∈ workflows w ∧ W_ID item = W_ID r ∧ W_ChangesetID item = W_ChangesetID r.

Lemma tracks_later item w w' : RG w w' → tracks item w → tracks item w'.
Proof.
  intros HG (r & Hr & Hid & Hcs). destruct (HG r Hr) as (r' & Hr' & He). exists r'. unfold identity in He. split_and!; [done|congruence..].
Qed.

Definition tracked (res : result AErr AutomationWorkflow) (w : WorkflowWorld) : Prop :=
  match res with Ok item => tracks item w | Err _ => True end.

(** What may be written. *)
Definition sound (item : AutomationWorkflow) : Prop :=
  (W_CompletedAt item = None ↔ settled (W_Status item) = false) ∧ W_Status item ≠ WorkflowPartiallySucceeded.

Section races.
Context `{!Codec, !WorkflowCodec, !MapRange string string}.

(** ** Statements *)

Lemma update_RI ts item w w' : RI w → tracks item w → sound item → workflows w' = snd (UpdateAutomationWorkflow ts item (workflows w)) → RI w' ∧ RG w w'.
Proof.
  intros HI (r & Hr & Hid & Hcs) [Hc Hp] Hw. eapply RI_map; [done|exact Hw|]. intros row Hrow. pose proof HI as (Hids & _ & Hrows). destruct (workflowMatches item row) eqn:Hm; [|by split; [|apply Hrows]].
  apply andb_true_iff in Hm as [Hm%String.eqb_eq _]. assert (row = r) as -> by (eapply (NoDup_fmap_key W_ID); [exact Hids|done..|congruence]).
  split; [unfold identity; cbn; congruence|]. split_and!; try done. apply (Hrows r Hr).
Qed.

Lemma updateStep_RI ts step w w' : RI w → workflows w' = snd (UpdateAutomationWorkflowStep ts step (workflows w)) → RI w' ∧ RG w w'.
Proof.
  intros HI Hw. eapply RI_map; [done|exact Hw|]. intros row Hrow. destruct HI as (_ & _ & Hrows). destruct (Hrows row Hrow) as ((s & Hs & Hwid) & Hc & Hp).
  split; [done|]. split_and!; try done. unfold updateSteps. cbn. rewrite Hs. cbn. eexists. split; [done|]. by case_match.
Qed.

Lemma updateBoth_RI ts item step w w' : RI w → tracks item w → sound item → workflows w' = snd (UpdateAutomationWorkflowAndStep ts item step (workflows w)) → RI w' ∧ RG w w'.
Proof.
  intros HI Ht Hs. unfold UpdateAutomationWorkflowAndStep. destruct (UpdateAutomationWorkflow ts item (workflows w)) as [[u|e] rows1] eqn:H1; [|by intros Hk; apply keeps_RG].
  destruct (update_RI ts item w {| base := base w; workflows := rows1 |} HI Ht Hs) as [HI1 HG1]; [by rewrite H1|].
  destruct (UpdateAutomationWorkflowStep ts step rows1) as [[v|e] rows2] eqn:H2; [|by intros Hk; apply keeps_RG]. cbn. intros Hw.
  destruct (updateStep_RI ts step {| base := base w; workflows := rows1 |} w' HI1) as [HI2 HG2]; [cbn [workflows]; by rewrite H2|]. split; [done|by etrans].
Qed.

Lemma rg_keeps {A} (p : prog WorkflowWorld A) (P : A → Prop) Q w :
  steps_in keeps p → always P p → (∀ a w', P a → RI w' → RG w w' → Q a w') → rgw p Q w.
Proof.
  revert w; induction p as [a|T c k IH]; cbn; intros w Hp HP HQ w1 HI HG; [by apply HQ|].
  destruct (c w1) as [r w2] eqn:Hc. destruct (Hp _ _ _ Hc) as [Hk Hrest]. destruct (keeps_RG _ _ Hk HI) as [HI2 HG2]. split_and!; [done..|].
  apply IH; [done..|]. intros a w' Ha HI' HG'. apply HQ; [done..|]. by do 2 (etrans; [eassumption|]).
Qed.

Lemma rg_bind_reads {A B} (p : prog WorkflowWorld A) (f : A → prog WorkflowWorld B) Q w :
  RI w → steps_in keeps p → (∀ a w', RI w' → RG w w' → rgw (f a) Q w') → rgw (bind p f) Q w.
Proof. intros HI Hp Hf. apply rg_bind; [apply _|done|]. eapply rg_keeps; [done|apply always_any|]. auto. Qed.

Lemma rg_try_reads {A B} (p : prog WorkflowWorld (result AErr A)) (f : A → prog WorkflowWorld (result AErr B)) Q w :
  RI w → steps_in keeps p → (∀ e w', Q (Err e) w') → (∀ a w', RI w' → RG w w' → rgw (f a) Q w') → rgw (try p f) Q w.
Proof. intros HI Hp He Hf. apply rg_try; [apply _|done|]. eapply rg_keeps; [done|apply always_any|]. intros [a|e] w' _ HI' HG'; auto. Qed.

(** A statement that writes rows. *)
Lemma rg_statement {R} E (f : Z → WorkflowWorld → result AErr R * list AutomationWorkflow) Q w :
  (∀ ts w1 w2, RI w1 → RG w w1 → workflows w2 = snd (f ts w1) → RI w2 ∧ RG w1 w2) →
  (∀ r w', RI w' → RG w w' → Q r w') → rgw (wdb E f) Q w.
Proof.
  intros Hf HQ w1 HI HG. destruct (env_fails E _).
  - destruct (keeps_RG w1 (withBase w1 (bump (base w1))) eq_refl HI) as [HI2 HG2]. split_and!; [done..|]. intros w3 HI3 HG3. apply HQ; [done|]. by do 2 (etrans; [eassumption|]).
  - destruct (f _ w1) as [r rows] eqn:Hr. destruct (Hf (env_now E (tick (base w1))) w1 {| base := bump (base w1); workflows := rows |} HI HG) as [HI2 HG2]; [by rewrite Hr|].
    split_and!; [done..|]. intros w3 HI3 HG3. apply HQ; [done|]. by do 2 (etrans; [eassumption|]).
Qed.

(** The write that the methods end with. *)
Lemma rg_write E item step w : RI w → tracks item w → sound item →
  rgw (try (updateWorkflowAndStep E item step) (λ _, Ret (Ok item))) tracked w.
Proof.
  intros HI Ht Hs. apply rg_try; [apply _|done|]. apply rg_statement.
  - intros ts w1 w2 HI1 HG1. apply updateBoth_RI; [done|by eapply tracks_later|done].
  - intros [u|e] w' HI' HG'; [|done]. intros w2 HI2 HG2. eapply tracks_later; [|exact Ht]. by etrans.
Qed.

(** ** Synchronization *)

Definition soundState (res : result AErr WorkflowState) : Prop := match res with Ok state => stateOK state | Err _ => True end.

Lemma findAccessChange_sound E at_ ops : always (λ r, match r with Ok (inr state) => stateOK state | _ => True end) (findAccessChange E at_ ops).
Proof.
  induction ops as [|op ops IH]; cbn [findAccessChange]; [done|]. destruct (_ <? _); [done|]. destruct (_ && _); [|exact IH].
  apply always_try_any; [done|]. intros rev. apply always_try_any; [done|]. intros [rev'|]; [|exact IH].
  destruct (PR_ActivationChangeID rev'); [done|]. eapply always_bind; [apply always_any|]. intros state _. unfold stateOK. cbn. by case_match.
Qed.

Lemma accessChangeWorkflowState_sound E changeset at_ : always soundState (accessChangeWorkflowState E changeset at_).
Proof.
  unfold accessChangeWorkflowState. destruct (decodeAccessOperations _) as [ops|]; [|done].
  eapply always_try; [apply findAccessChange_sound|done|]. intros [id|state] Hs; [|exact Hs]. destruct (id =? 0); [done|].
  apply always_try_any; [done|]. intros change. cbn. unfold stateOK. by repeat case_match.
Qed.

Lemma derivedState_sound E kind changeset at_ state : stateOK state → always soundState (derivedState E kind changeset at_ state).
Proof.
  intros Hs. unfold derivedState. destruct (_ && _); [|done]. eapply always_bind; [apply always_any|]. intros t _. apply accessChangeWorkflowState_sound.
Qed.

Lemma tracks_amend status cur aff next code msg completed steps item w : tracks item w → tracks (amendWorkflow status cur aff next code msg completed steps item) w.
Proof. done. Qed.

Lemma rg_Ret_tracks item w : tracks item w → rgw (Ret (Ok item)) tracked w.
Proof. intros Ht w1 _ HG. by eapply tracks_later. Qed.

Lemma rg_Err e w : rgw (Ret (Err e)) tracked w.
Proof. done. Qed.

Lemma synchronizeExternal_rg E item step rest at_ w : RI w → tracks item w → rgw (synchronizeExternal E item step rest at_) tracked w.
Proof.
  intros HI Ht. unfold synchronizeExternal. apply rg_try_reads; [done|apply lift_keeps|done|]. intros changeset w1 HI1 HG1.
  apply rg_bind_reads; [done|apply lift_keeps|]. intros server w2 HI2 HG2. assert (tracks item w2) as Ht2 by (eapply tracks_later; [|exact Ht]; by etrans).
  destruct server as [[createdAt status]|e]; [|by apply rg_Ret_tracks].
  destruct (match _ with Some _ => _ | None => _ end); [|destruct (negb _); [by apply rg_Ret_tracks|]]; by apply rg_write.
Qed.

Lemma synchronizeWorkflow_rg E item w : RI w → tracks item w → rgw (synchronizeWorkflow E item) tracked w.
Proof.
  intros HI Ht. unfold synchronizeWorkflow. destruct (settled _); [by apply rg_Ret_tracks|]. destruct (W_Steps item) as [|step rest]; [by apply rg_Ret_tracks|].
  apply rg_bind_reads; [done|apply lift_keeps|]. intros at_ w1 HI1 HG1. destruct (_ && _); [apply synchronizeExternal_rg; [done|by eapply tracks_later]|].
  apply rg_try_reads; [done|apply lift_keeps|done|]. intros changeset w2 HI2 HG2. apply rg_try; [apply _|done|].
  eapply rg_keeps; [by apply derivedState_keeps|apply derivedState_sound, plainState_OK|]. intros [state|e] w3 Hs HI3 HG3; [|done]. destruct Hs as (_ & Hc & _ & Hp).
  assert (tracks item w3) as Ht3 by (eapply tracks_later; [|exact Ht]; by do 2 (etrans; [eassumption|])).
  set (item' := if _ && _ then _ else item). assert (tracks item' w3) as Ht' by (unfold item'; by destruct (_ && _)). clearbody item'.
  destruct (_ && _); [by apply rg_Ret_tracks|]. apply rg_bind_reads; [done|apply synchronizedError_keeps|]. intros error w4 HI4 HG4.
  apply rg_write; [done| |done]. by apply tracks_amend, (tracks_later _ w3).
Qed.

(** ** The methods *)

Lemma rg_getWorkflow {A} E id (f : result AErr AutomationWorkflow → prog WorkflowWorld A) Q w :
  RI w → (∀ r w', RI w' → RG w w' → tracked r w' → rgw (f r) Q w') → rgw (bind (getWorkflow E id) f) Q w.
Proof.
  intros HI Hf. apply rg_bind; [apply _|done|]. intros w1 HI1 HG1. destruct (env_fails E _).
  - destruct (keeps_RG w1 (withBase w1 (bump (base w1))) eq_refl HI1) as [HI2 HG2]. split_and!; [done..|]. intros w3 HI3 HG3.
    apply Hf; [done| |done]. by do 2 (etrans; [eassumption|]).
  - set (w2 := {| base := bump (base w1); workflows := workflows w1 |}). destruct (keeps_RG w1 w2 eq_refl HI1) as [HI2 HG2]. split_and!; [done..|]. intros w3 HI3 HG3.
    apply Hf; [done|by do 2 (etrans; [eassumption|])|]. unfold GetAutomationWorkflow. destruct (List.find _ _) as [r|] eqn:Hfind; [|done].
    apply find_some in Hfind as [Hr%list_elem_of_In _]. apply (tracks_later _ w2); [done|]. exists r. by split_and!.
Qed.

Lemma GetWorkflow_rg E s p id w : RI w → rgw (GetWorkflow E s p id) tracked w.
Proof.
  intros HI. unfold GetWorkflow. apply rg_getWorkflow; [done|]. intros [item|e] w1 HI1 HG1 Ht; [|done]. destruct (negb _); [done|].
  apply rg_try_reads; [done|apply lift_keeps|done|]. intros changeset w2 HI2 HG2. apply rg_try_reads; [done|apply lift_keeps|done|]. intros u w3 HI3 HG3.
  apply synchronizeWorkflow_rg; [done|]. eapply tracks_later; [|exact Ht]. by etrans.
Qed.

Lemma rg_GetWorkflow E s p id (f : AutomationWorkflow → prog WorkflowWorld (result AErr AutomationWorkflow)) w :
  RI w → (∀ item w', RI w' → tracks item w' → rgw (f item) tracked w') → rgw (try (GetWorkflow E s p id) f) tracked w.
Proof.
  intros HI Hf. apply rg_try; [apply _|done|]. eapply rg_mono; [apply _| |by apply GetWorkflow_rg]. intros [item|e] w' HI' _ Ht; [by apply Hf|done].
Qed.

Lemma cancelItem_rg E item w : RI w → tracks item w → rgw (cancelItem E item) tracked w.
Proof.
  intros HI Ht. unfold cancelItem. apply rg_bind_reads; [done|apply lift_keeps|]. intros at_ w1 HI1 HG1. destruct (W_Steps item); [done|].
  apply rg_write; [done|by apply tracks_amend, (tracks_later _ w)|done].
Qed.

Lemma resetWorkflowStep_rg E item pre step post w : RI w → tracks item w → rgw (resetWorkflowStep E item pre step post) tracked w.
Proof.
  intros HI Ht. unfold resetWorkflowStep. apply rg_bind_reads; [done|apply lift_keeps|]. intros at_ w1 HI1 HG1. apply rg_try; [apply _|done|]. apply rg_statement.
  { intros ts w2 w3 HI2 _. by apply updateStep_RI. }
  intros [u|e] w2 HI2 HG2; [|done]. apply rg_try; [apply _|done|]. assert (tracks item w2) as Ht2 by (eapply tracks_later; [|exact Ht]; by etrans). apply rg_statement.
  - intros ts w3 w4 HI3 HG3. apply update_RI; [done|by apply tracks_amend, (tracks_later _ w2)|done].
  - intros [v|e] w3 HI3 HG3; [|done]. apply rg_Ret_tracks. by apply tracks_amend, (tracks_later _ w2).
Qed.

Lemma retryLoop_rg E refuse item stepID pre steps w : RI w → tracks item w → rgw (retryLoop E refuse item stepID pre steps) tracked w.
Proof.
  intros HI Ht. revert pre; induction steps as [|step steps IH]; intros pre; cbn [retryLoop]; [done|]. destruct (negb _); [apply IH|].
  destruct (refuse step); [done|]. by apply resetWorkflowStep_rg.
Qed.

Lemma RequireWorkflowExternalAction_rg E p id cs w : RI w → rgw (RequireWorkflowExternalAction E p id cs) tracked w.
Proof.
  intros HI. unfold RequireWorkflowExternalAction. apply rg_getWorkflow; [done|]. intros [item|e] w1 HI1 HG1 Ht; [|done]. destruct (negb _); [done|].
  destruct cs as [changeset|]; [|done]. destruct (W_Steps item); [done|]. destruct (_ || _); [done|]. by apply rg_write.
Qed.

(** A new workflow. *)
Lemma create_RI ts w w' item step : RI w → W_Steps item = [step] → sound item →
  workflows w' = snd (CreateAutomationWorkflow ts (rows (st (base w))) item (workflows w)) → RI w' ∧ RG w w'.
Proof.
  intros HI Hs [Hc Hp]. unfold CreateAutomationWorkflow. destruct (workflowConflict _ _ _) eqn:Hcon; [by intros Hk; apply keeps_RG|]. cbn [snd]. intros Hw.
  unfold workflowConflict in Hcon. bprop. destruct HI as (Hids & Hkeys & Hrows). split; [split_and!|]; rewrite ?Hw.
  - rewrite fmap_app. apply NoDup_app. split_and!; [done| |apply NoDup_singleton].
    intros x (row & -> & Hrow)%list_elem_of_fmap He%list_elem_of_singleton. cbn in He.
    pose proof (existsb_false_elem (λ row, (W_ID row =? W_ID item)%string) (workflows w) row ltac:(assumption) Hrow) as Hn. cbn in Hn. by apply String.eqb_neq in Hn.
  - rewrite fmap_app. apply NoDup_app. split_and!; [done| |apply NoDup_singleton].
    intros x (row & -> & Hrow)%list_elem_of_fmap He%list_elem_of_singleton. unfold workflowKey in He. cbn in He.
    pose proof (existsb_false_elem (λ row, (W_PrincipalID row =? W_PrincipalID item)%string && (W_IdempotencyKey row =? W_IdempotencyKey item)%string) (workflows w) row ltac:(assumption) Hrow) as Hn.
    cbn in Hn. injection He as He1 He2. by rewrite He1, He2, !String.eqb_refl in Hn.
  - intros row [Hrow|Hrow%list_elem_of_singleton]%elem_of_app; [auto|subst row]. split_and!; try done. cbn. rewrite Hs. by eexists.
  - intros r Hr. exists r. split; [|done]. rewrite Hw. set_solver.
Qed.

Lemma StartWorkflow_rg E s p request w : RI w → rgw (StartWorkflow E s p request) (λ _ _, True) w.
Proof.
  intros HI. unfold StartWorkflow. destruct (_ || _); [done|]. cbv zeta.
  apply rg_try_reads; [done|apply lift_keeps|done|]. intros changeset w1 HI1 _. apply rg_try_reads; [done|apply lift_keeps|done|]. intros _ w2 HI2 _.
  apply rg_bind_reads; [done|apply wdb_read_keeps|]. intros [existing|e] w3 HI3 _; [done|]. destruct e; try done.
  apply rg_try_reads; [done|apply lift_keeps|done|]. intros id w4 HI4 _. apply rg_try_reads; [done|apply lift_keeps|done|]. intros stepID w5 HI5 _.
  apply rg_try_reads; [done|apply lift_keeps|done|]. intros corr w6 HI6 _. apply rg_bind_reads; [done|apply lift_keeps|]. intros at_ w7 HI7 _.
  apply rg_try; [apply _|done|]. eapply rg_keeps; [apply derivedState_keeps, lift_keeps|apply derivedState_sound, plainState_OK|]. intros [state|e] w8 Hs HI8 _; [|done].
  destruct Hs as (_ & Hc & _ & Hp). apply rg_bind_reads; [done|apply lift_keeps|]. intros at' w9 HI9 _. apply rg_bind; [apply _|done|]. apply rg_statement.
  - intros ts w10 w11 HI10 _. by eapply create_RI.
  - intros [created|e] w10 HI10 _; [done|]. apply rg_bind_reads; [done|apply wdb_read_keeps|]. by intros [existing|e'] w11 HI11 _.
Qed.

(** ** Pools of calls *)

(** The calls of a pool; the result of a program of the changeset service is dropped. *)
Inductive workflowCall : prog WorkflowWorld (result AErr AutomationWorkflow) → Prop :=
| call_changesets A (p : prog World A) : workflowCall (bind (lift p) (λ _, Ret (Err ErrNoRows)))
| call_start E s p request : workflowCall (StartWorkflow E s p request)
| call_get E s p id : workflowCall (GetWorkflow E s p id)
| call_cancel E s p id : workflowCall (CancelWorkflow E s p id)
| call_abandon E s p id : workflowCall (AbandonFailedWorkflow E s p id)
| call_retry E s p id step : workflowCall (RetryWorkflowStep E s p id step)
| call_reset E s p id step : workflowCall (ResetWorkflowForRetry E s p id step)
| call_external E p id cs : workflowCall (RequireWorkflowExternalAction E p id cs).

Lemma workflowCall_rg p w : workflowCall p → RI w → rgw p (λ _ _, True) w.
Proof.
  intros Hc HI. assert (∀ p, rgw p tracked w → rgw p (λ _ _, True) w) as Hany by (intros q; by apply rg_mono; [apply _|]).
  destruct Hc.
  - apply rg_bind_reads; [done|apply lift_keeps|]. done.
  - by apply StartWorkflow_rg.
  - by apply Hany, GetWorkflow_rg.
  - apply Hany, rg_GetWorkflow; [done|]. intros item w' HI' Ht. destruct (settled _); [done|]. by apply cancelItem_rg.
  - apply Hany, rg_GetWorkflow; [done|]. intros item w' HI' Ht. destruct (_ || _); [done|]. by apply cancelItem_rg.
  - apply Hany, rg_GetWorkflow; [done|]. intros item w' HI' Ht. by apply retryLoop_rg.
  - apply Hany, rg_GetWorkflow; [done|]. intros item w' HI' Ht. by apply retryLoop_rg.
  - by apply Hany, RequireWorkflowExternalAction_rg.
Qed.

Lemma initial_RI : RI initialWorkflowWorld.
Proof. split_and!; cbn; [constructor|constructor|set_solver]. Qed.

(** C36. However the calls of the workflow methods and of the changeset service overlap,
    every stored workflow has exactly one step, which belongs to it; it has a completion time
    exactly when its status is settled; it is never partially succeeded; no two share the
    identifier, or the principal and the idempotency key; and none is lost or changes its
    identity (principal, grant, kind, reason, key, changeset).  When calls run one at a time, the
    status of the step goes with that of the workflow too, except that a retry whose
    second statement failed leaves a failed workflow with a queued step. *)
Theorem workflow_rows_well_formed ps ps1 w1 ps2 w2 :
  Forall workflowCall ps → rtc pool_step (ps, initialWorkflowWorld) (ps1, w1) → rtc pool_step (ps1, w1) (ps2, w2) →
  NoDup (W_ID <$> workflows w1) ∧ NoDup (workflowKey <$> workflows w1) ∧ (∀ row, row ∈ workflows w1 → shape row) ∧
  (∀ row, row ∈ workflows w1 → ∃ row', row' ∈ workflows w2 ∧ identity row' = identity row) ∧
  (rtc wstep initialWorkflowWorld w1 → ∀ row, row ∈ workflows w1 → ∃ s, W_Steps row = [s] ∧ (WS_Status s = stepOf (W_Status row) ∨ torn row s)).
Proof.
  intros Hps H1 H2. destruct (rg_pool RI RG (λ _ _, True) ps initialWorkflowWorld ps1 w1) as (HI1 & _ & Hps1); [apply initial_RI| |done|].
  { eapply Forall_impl; [exact Hps|]. intros p Hp. apply workflowCall_rg; [done|apply initial_RI]. }
  destruct (rg_pool RI RG (λ _ _, True) ps1 w1 ps2 w2) as (_ & HG2 & _); [done..|]. destruct HI1 as (Hids & Hkeys & Hrows). split_and!; [done..|].
  intros Hw row. by apply step_statuses.
Qed.
End races.

(** ** Two starts and a cancellation that overlap *)

#[local] Existing Instances demoCodec demoRange demoWorkflowCodec.

Definition overlapping : list (prog WorkflowWorld (result AErr AutomationWorkflow)) :=
  [bind (lift (Create demoEnv demoService demoOperator demoRequest)) (λ _, Ret (Err ErrNoRows));
   StartWorkflow (demoWorkflowEnv demoEnv "preparing") demoService demoOperator (demoStart "");
   StartWorkflow (demoWorkflowEnv demoEnv "preparing") demoService demoOperator (demoStart "")].

(** The two starts alternate after the changeset is stored; one workflow results. *)
Definition alternation : list nat := replicate 40 0%nat ++ concat (replicate 40 [1; 2]%nat).

Definition overlapped : list (prog WorkflowWorld (result AErr AutomationWorkflow)) * WorkflowWorld :=
  interleave alternation overlapping initialWorkflowWorld.

Lemma overlapped_reached : rtc pool_step (overlapping, initialWorkflowWorld) (fst overlapped, snd overlapped).
Proof. unfold overlapped. apply (interleave_reaches alternation overlapping initialWorkflowWorld). Qed.

Lemma overlapping_calls : Forall workflowCall overlapping.
Proof. repeat constructor. Qed.

Lemma workflow_rows_well_formed_witness :
  (W_Status <$> workflows (snd overlapped)) = [WorkflowPlanning] ∧ NoDup (workflowKey <$> workflows (snd overlapped)) ∧
  ∀ row, row ∈ workflows (snd overlapped) → shape row.
Proof.
  split; [vm_compute; reflexivity|].
  destruct (workflow_rows_well_formed overlapping (fst overlapped) (snd overlapped) (fst overlapped) (snd overlapped) overlapping_calls) as (_ & Hk & Hr & _).
  - exact overlapped_reached.
  - apply rtc_refl.
  - by split.
Defined.
