(* ===== verification/AgentLink.v ===== *)
(** * Agent transport ([internal/agentlink])

    Frames of the transport between agents and the controller: the length-prefixed wire
    format, the padding of small messages, and the sessions that carry messages and
    requests over it.  A connection is its stream of bytes; each [Write] on it may fail, at the
    discretion of the environment.  TLS, deadlines and certificates are not modelled;
    JSON encoding and the callbacks of a session are arguments. *)

From S2P Require Import Prelude.

Local Open Scope Z_scope.

Definition bytes : Type := list ascii.
Definition len (l : bytes) : Z := Z.of_nat (length l).

Definition MaxMessageBytes : Z := Z.shiftl 16 20.
Definition maxFramePayload : Z := Z.shiftl 1 20.
Definition frameHeaderLen : Z := 6.
Definition MinPaddedFrameBytes : Z := 128.
Definition maxPadLen : Z := Z.shiftl 1 16 - 1.

Definition frameTypeMessage : Z := 1.
Definition frameTypeAuth : Z := 2.
Definition frameTypeAuthOK : Z := 3.
Definition frameTypeError : Z := 4.
Definition frameTypeRequest : Z := 5.
Definition frameTypeResponse : Z := 6.
Definition frameTypeData : Z := 7.
Definition frameTypePing : Z := 8.
Definition frameTypeGoAway : Z := 9.
Definition frameTypePong : Z := 10.

Definition flagPayloadJSON : Z := 1.
Definition flagPad : Z := 2.

Inductive LErr :=
| ErrFrameTooLarge | ErrMessageTooLarge | EOF | ErrUnexpectedEOF | ErrClosed | ErrPadShort | ErrPadLong
| ErrWrite | ErrJSON | ErrGoAway | ErrHandlerActive | ErrExpectedAuth | ErrCallback (code : Z).

Global Instance LErr_eq_dec : EqDecision LErr.
Proof. solve_decision. Defined.

(** ** Big-endian integers *)

(** [byte(z)] *)
Definition byteOf (z : Z) : ascii := ascii_of_N (Z.to_N (z mod 256)).

(** [binary.BigEndian.PutUint16] and [PutUint32]: the low [8 * n] bits. *)
Fixpoint putUint (n : nat) (v : Z) : bytes :=
  match n with
  | O => []
  | S n => byteOf (Z.shiftr v (8 * Z.of_nat n)) :: putUint n v
  end.

Definition getUint (l : bytes) : Z := foldl (λ acc b, Z.lor (Z.shiftl acc 8) (byte_of b)) 0 l.

(** ** Frames *)

Record frame := { frameType : Z; flags : Z; payload : bytes }.

(** The bytes of the header and the payload, in the order in which they are written. *)
Definition frameHeader (f : frame) : bytes := byteOf (frameType f) :: byteOf (flags f) :: putUint 4 (len (payload f)).
Definition frameBytes (f : frame) : bytes := frameHeader f ++ payload f.

(** [io.ReadFull] of [n] bytes. *)
Definition readFull (n : Z) (r : bytes) : result LErr (bytes * bytes) :=
  if n <=? len r then Ok (take (Z.to_nat n) r, drop (Z.to_nat n) r)
  else if len r =? 0 then Err EOF else Err ErrUnexpectedEOF.

Definition readFrame (r : bytes) : result LErr (frame * bytes) :=
  (let* (header, r) := readFull frameHeaderLen r in
   let length := getUint (drop 2 header) in
   let* _ := fail_if (maxFramePayload <? length) ErrFrameTooLarge in
   let frameType := byte_of (nth 0 header "000"%char) in
   let flags := byte_of (nth 1 header "000"%char) in
   if 0 <? length then
     let* (payload, r) := readFull length r in
     Ok ({| frameType := frameType; flags := flags; payload := payload |}, r)
   else Ok ({| frameType := frameType; flags := flags; payload := [] |}, r))%go.

(** Frames read until an error, with enough fuel for every frame of the stream. *)
Fixpoint readFramesFuel (fuel : nat) (r : bytes) : list frame * LErr :=
  match readFrame r with
  | Err e => ([], e)
  | Ok (f, r') =>
      match fuel with
      | O => ([], ErrUnexpectedEOF)
      | S fuel => let '(fs, e) := readFramesFuel fuel r' in (f :: fs, e)
      end
  end.

Definition readFrames (r : bytes) : list frame * LErr := readFramesFuel (length r) r.

(** ** Padding *)

Definition stripPadding (p : bytes) : result LErr bytes :=
  if len p <? 2 then Err ErrPadShort
  else
    let padLen := getUint (take 2 p) in
    if len p <? 2 + padLen then Err ErrPadLong else Ok (drop (Z.to_nat (2 + padLen)) p).

Definition buildPadding (p : bytes) (padLen : Z) : result LErr bytes :=
  if (padLen <? 0) || (maxPadLen <? padLen) then Err ErrFrameTooLarge
  else if maxFramePayload <? 2 + padLen + len p then Err ErrFrameTooLarge
  else Ok (putUint 2 padLen ++ replicate (Z.to_nat padLen) "000"%char ++ p).

(** The frame that [writePadded] hands to [WriteFrame]. *)
Definition paddedFrame (f : frame) (p : bytes) : result LErr frame :=
  if MinPaddedFrameBytes <=? len p + frameHeaderLen
  then Ok {| frameType := frameType f; flags := flags f; payload := p |}
  else
    let padLen := MinPaddedFrameBytes - frameHeaderLen - len p in
    match buildPadding p padLen with
    | Err e => Err e
    | Ok padded => Ok {| frameType := frameType f; flags := Z.lor (flags f) flagPad; payload := padded |}
    end.

(** [if f.flags&flagPad != 0 { payload, err = stripPadding(payload) }] of the read loops. *)
Definition framePayload (f : frame) : result LErr bytes :=
  if negb (Z.land (flags f) flagPad =? 0) then stripPadding (payload f) else Ok (payload f).

(** ** Random names *)

Definition nameDigits : bytes := bytes_of "abcdefghijklmnopqrstuvwxyz0123456789".

Fixpoint nameTail (n : nat) (v : Z) : bytes :=
  match n with
  | O => []
  | S n => nth (Z.to_nat (v mod 36)) nameDigits "000"%char :: nameTail n (v / 36)
  end.

Definition RandomName (seed : bytes) : string :=
  let v := getUint seed in of_bytes (byteOf (97 + v mod 26) :: nameTail 9 (v / 26)).

(** ** Sessions *)

Record RequestFrame := { RQ_ID : Z; RQ_Path : string; RQ_Body : bytes }.
Record ResponseFrame := { RS_ID : Z; RS_Status : Z; RS_Body : bytes; RS_Error : string }.
Record DataHeader := { DH_Stream : string; DH_Offset : Z }.
Record AuthRequest := { AU_AgentID : string; AU_Token : string; AU_EnrollmentToken : string; AU_Health : bytes }.

(** [encoding/json] on the values of the transport; [None] is an error.  An envelope is
    a [map[string]json.RawMessage]. *)
Class LinkCodec := {
  decodeEnvelope : bytes → option (gmap string bytes);
  encodeRequest : RequestFrame → option bytes;
  decodeRequest : bytes → option RequestFrame;
  encodeResponse : ResponseFrame → option bytes;
  decodeResponse : bytes → option ResponseFrame;
  decodeDataHeader : bytes → option DataHeader;
  decodeAuth : bytes → option AuthRequest }.

(** The channel of a request, with room for one response. *)
Inductive chan := ChEmpty | ChFull (r : ResponseFrame) | ChClosed.

(** A session with what it has written; [chans] are the channels by request, also those
    that are no longer in the map [pending]; [delivered] and [data] are the calls of the
    message and data callbacks. *)
Record Session := {
  written : bytes;
  writes : nat;
  nextReqID : Z;
  pending : gset Z;
  chans : gmap Z chan;
  closed : bool;
  writeErr : option LErr;
  hasDataHandler : bool;
  delivered : list (gmap string bytes);
  data : list (DataHeader * bytes) }.

Definition newSession : Session :=
  {| written := []; writes := 0; nextReqID := 0; pending := ∅; chans := ∅; closed := false; writeErr := None;
     hasDataHandler := false; delivered := []; data := [] |}.

Definition setWriteErr (e : LErr) (s : Session) : Session :=
  {| written := written s; writes := writes s; nextReqID := nextReqID s; pending := pending s; chans := chans s;
     closed := closed s; writeErr := Some e; hasDataHandler := hasDataHandler s; delivered := delivered s; data := data s |}.

Definition wrote (p : bytes) (s : Session) : Session :=
  {| written := written s ++ p; writes := S (writes s); nextReqID := nextReqID s; pending := pending s; chans := chans s;
     closed := closed s; writeErr := writeErr s; hasDataHandler := hasDataHandler s; delivered := delivered s; data := data s |}.

Definition setRequests (next : Z) (p : gset Z) (c : gmap Z chan) (s : Session) : Session :=
  {| written := written s; writes := writes s; nextReqID := next; pending := p; chans := c;
     closed := closed s; writeErr := writeErr s; hasDataHandler := hasDataHandler s; delivered := delivered s; data := data s |}.

Definition forget (id : Z) (s : Session) : Session :=
  setRequests (nextReqID s) (pending s ∖ {[id]}) (chans s) s.

Definition addDelivered (m : gmap string bytes) (s : Session) : Session :=
  {| written := written s; writes := writes s; nextReqID := nextReqID s; pending := pending s; chans := chans s;
     closed := closed s; writeErr := writeErr s; hasDataHandler := hasDataHandler s; delivered := delivered s ++ [m];
     data := data s |}.

Definition addData (h : DataHeader) (p : bytes) (s : Session) : Session :=
  {| written := written s; writes := writes s; nextReqID := nextReqID s; pending := pending s; chans := chans s;
     closed := closed s; writeErr := writeErr s; hasDataHandler := hasDataHandler s; delivered := delivered s;
     data := data s ++ [(h, p)] |}.

Definition setDataHandler (b : bool) (s : Session) : Session :=
  {| written := written s; writes := writes s; nextReqID := nextReqID s; pending := pending s; chans := chans s;
     closed := closed s; writeErr := writeErr s; hasDataHandler := b; delivered := delivered s; data := data s |}.

(** [closeOnce.Do]: later calls change nothing. *)
Definition shutdown (e : LErr) (s : Session) : Session :=
  if closed s then s
  else {| written := written s; writes := writes s; nextReqID := nextReqID s; pending := ∅;
          chans := set_fold (λ id m, <[id := ChClosed]> m) (chans s) (pending s);
          closed := true; writeErr := Some e; hasDataHandler := hasDataHandler s; delivered := delivered s; data := data s |}.

Section session.
Context `{!LinkCodec}.
(** The outcome of the [n]-th [Write] on the connection: [Some k] fails after [k] bytes.
    The callbacks of the session. *)
Context (connWrite : nat → option nat).
Context (onMessage : gmap string bytes → option Z) (onRequest : option (RequestFrame → option ResponseFrame))
        (onData : DataHeader → bytes → option Z).

Definition connWriteBytes (p : bytes) (s : Session) : result LErr unit * Session :=
  match connWrite (writes s) with
  | None => (Ok (), wrote p s)
  | Some k => (Err ErrWrite, wrote (take k p) s)
  end.

Definition writeFrame (f : frame) (s : Session) : result LErr unit * Session :=
  match connWriteBytes (frameHeader f) s with
  | (Err e, s) => (Err e, s)
  | (Ok _, s) => connWriteBytes (payload f) s
  end.

Definition WriteFrame (f : frame) (s : Session) : result LErr unit * Session :=
  match writeErr s with
  | Some e => (Err e, s)
  | None =>
      match writeFrame f s with
      | (Err e, s) => (Err e, setWriteErr e s)
      | (Ok _, s) => (Ok (), s)
      end
  end.

Definition writePadded (f : frame) (p : bytes) (s : Session) : result LErr unit * Session :=
  match paddedFrame f p with
  | Err e => (Err e, s)
  | Ok f => WriteFrame f s
  end.

(** [WriteMessage] of an envelope that has been marshalled. *)
Definition WriteMessage (p : option bytes) (s : Session) : result LErr unit * Session :=
  match p with
  | None => (Err ErrJSON, s)
  | Some p =>
      if MaxMessageBytes <? len p then (Err ErrMessageTooLarge, s)
      else writePadded {| frameType := frameTypeMessage; flags := flagPayloadJSON; payload := [] |} p s
  end.

Definition Ping (s : Session) : result LErr unit * Session :=
  WriteFrame {| frameType := frameTypePing; flags := 0; payload := [] |} s.

(** [Request] up to its [select]: it registers the channel and sends the request.  The body
    is [None] for nil, [Some None] when it cannot be marshalled. *)
Definition sendRequest (path : string) (body : option (option bytes)) (s : Session) : result LErr Z * Session :=
  let id := nextReqID s + 1 in
  let s := setRequests id (pending s ∪ {[id]}) (<[id := ChEmpty]> (chans s)) s in
  match body with
  | Some None => (Err ErrJSON, forget id s)
  | _ =>
      let raw := match body with Some (Some b) => b | _ => [] end in
      match encodeRequest {| RQ_ID := id; RQ_Path := path; RQ_Body := raw |} with
      | None => (Err ErrJSON, s)
      | Some p =>
          match writePadded {| frameType := frameTypeRequest; flags := flagPayloadJSON; payload := [] |} p s with
          | (Err e, s) => (Err e, forget id s)
          | (Ok _, s) => (Ok id, s)
          end
      end
  end.

(** The [select] of [Request]: any case that is ready may be taken.  A receive from a
    closed channel yields the nil pointer. *)
Inductive selected := Cancelled | Response (r : ResponseFrame) | NilResponse | SessionClosed.

Inductive selects (id : Z) (s : Session) : selected → Session → Prop :=
| select_done : selects id s Cancelled (forget id s)
| select_response r : chans s !! id = Some (ChFull r) →
    selects id s (Response r) (setRequests (nextReqID s) (pending s) (<[id := ChEmpty]> (chans s)) s)
| select_nil : chans s !! id = Some ChClosed → selects id s NilResponse s
| select_closed : closed s = true → selects id s SessionClosed s.

Definition deliverData (f : frame) (s : Session) : result LErr unit * Session :=
  if negb (hasDataHandler s) then (Ok (), s)
  else if len (payload f) <? 2 then (Ok (), s)
  else
    let headerLen := getUint (take 2 (payload f)) in
    if len (payload f) <? 2 + headerLen then (Ok (), s)
    else match decodeDataHeader (take (Z.to_nat headerLen) (drop 2 (payload f))) with
    | None => (Err ErrJSON, s)
    | Some h =>
        let rest := drop (Z.to_nat (2 + headerLen)) (payload f) in
        (match onData h rest with Some e => Err (ErrCallback e) | None => Ok () end, addData h rest s)
    end.

Definition RunDataStart (s : Session) : result LErr unit * Session :=
  if hasDataHandler s then (Err ErrHandlerActive, s) else (Ok (), setDataHandler true s).

(** A message for the callback; the session ends when it returns an error. *)
Definition receiveMessage (f : frame) (s : Session) : result LErr unit * Session :=
  match framePayload f with
  | Err e => (Err e, s)
  | Ok p =>
      match decodeEnvelope p with
      | None => (Err ErrJSON, s)
      | Some envelope => (match onMessage envelope with Some e => Err (ErrCallback e) | None => Ok () end, addDelivered envelope s)
      end
  end.

(** One frame of [Run]. *)
Definition serverFrame (f : frame) (s : Session) : result LErr unit * Session :=
  if frameType f =? frameTypePing then WriteFrame {| frameType := frameTypePong; flags := 0; payload := [] |} s
  else if frameType f =? frameTypeGoAway then (Err ErrGoAway, s)
  else if frameType f =? frameTypeMessage then receiveMessage f s
  else if frameType f =? frameTypeRequest then
    match framePayload f with
    | Err e => (Err e, s)
    | Ok p =>
        match decodeRequest p with
        | None => (Ok (), s)
        | Some req =>
            let resp := default {| RS_ID := RQ_ID req; RS_Status := 404; RS_Body := []; RS_Error := "not handled" |}
                          (onRequest ≫= λ h, h req) in
            match encodeResponse resp with
            | None => (Ok (), s)
            | Some p => writePadded {| frameType := frameTypeResponse; flags := flagPayloadJSON; payload := [] |} p s
            end
        end
    end
  else (Ok (), s).

(** One frame of [RunClient]; its message callback returns no error. *)
Definition clientFrame (f : frame) (s : Session) : result LErr unit * Session :=
  if frameType f =? frameTypePing then WriteFrame {| frameType := frameTypePong; flags := 0; payload := [] |} s
  else if frameType f =? frameTypeGoAway then (Err ErrGoAway, s)
  else if frameType f =? frameTypeMessage then
    match framePayload f with
    | Err e => (Err e, s)
    | Ok p => match decodeEnvelope p with None => (Err ErrJSON, s) | Some m => (Ok (), addDelivered m s) end
    end
  else if frameType f =? frameTypeResponse then
    match framePayload f with
    | Err e => (Err e, s)
    | Ok p =>
        match decodeResponse p with
        | None => (Ok (), s)
        | Some resp =>
            (Ok (), if bool_decide (RS_ID resp ∈ pending s)
                    then setRequests (nextReqID s) (pending s ∖ {[RS_ID resp]})
                           (<[RS_ID resp := ChFull resp]> (chans s)) s
                    else s)
        end
    end
  else if frameType f =? frameTypeData then deliverData f s
  else (Ok (), s).

(** The read loop of [Run] and [RunClient]: it ends with an error, after [shutdown].  The
    fuel is the length of the stream; a frame takes at least six bytes of it. *)
Fixpoint readLoop (handle : frame → Session → result LErr unit * Session) (fuel : nat) (r : bytes) (s : Session) :
    LErr * Session :=
  match readFrame r with
  | Err e => (e, shutdown e s)
  | Ok (f, r') =>
      match fuel with
      | O => (ErrUnexpectedEOF, s)
      | S fuel =>
          match handle f s with
          | (Err e, s) => (if bool_decide (e = ErrGoAway) then ErrClosed else e, shutdown e s)
          | (Ok _, s) => readLoop handle fuel r' s
          end
      end
  end.

Definition Run (r : bytes) (s : Session) : LErr * Session := readLoop serverFrame (length r) r s.
Definition RunClient (r : bytes) (s : Session) : LErr * Session := readLoop clientFrame (length r) r s.

(** *** Authentication *)

Definition ReadAuth (r : bytes) : result LErr (AuthRequest * bytes) :=
  match readFrame r with
  | Err e => Err e
  | Ok (f, r) =>
      if negb (frameType f =? frameTypeAuth) then Err ErrExpectedAuth
      else match decodeAuth (payload f) with None => Err ErrJSON | Some auth => Ok (auth, r) end
  end.

Definition AcceptAuth (p : option bytes) (s : Session) : result LErr unit * Session :=
  writeFrame {| frameType := frameTypeAuthOK; flags := 0; payload := default [] p |} s.

(** The connection is closed afterwards. *)
Definition RejectAuth (reason : string) (s : Session) : Session :=
  snd (writeFrame {| frameType := frameTypeError; flags := 0; payload := bytes_of reason |} s).
End session.

(** ** Integers on the wire *)

Lemma byte_of_bound a : 0 ≤ byte_of a < 256.
Proof. unfold byte_of. pose proof (nat_ascii_bounded a). lia. Qed.

Lemma byte_of_byteOf z : byte_of (byteOf z) = z mod 256.
Proof.
  unfold byte_of, byteOf, nat_of_ascii. pose proof (Z.mod_pos_bound z 256 ltac:(lia)).
  rewrite N_ascii_embedding by lia. lia.
Qed.

Lemma byteOf_byte_of a : byteOf (byte_of a) = a.
Proof.
  unfold byteOf. rewrite Z.mod_small by apply byte_of_bound. unfold byte_of, nat_of_ascii.
  rewrite N_nat_Z, N2Z.id. apply ascii_N_embedding.
Qed.

(** Appending a byte on the right. *)
Lemma lor_byte acc b : 0 ≤ b < 256 → Z.lor (Z.shiftl acc 8) b = acc * 256 + b.
Proof.
  intros Hb. assert (Z.land (Z.shiftl acc 8) b = 0) as Hd.
  { apply Z.bits_inj'. intros n Hn. rewrite Z.land_spec, Z.bits_0. destruct (Z.lt_ge_cases n 8) as [Hlt|Hge].
    - by rewrite Z.shiftl_spec_low.
    - rewrite <- (Z.mod_small b (2 ^ 8)) by (simpl; lia). rewrite Z.mod_pow2_bits_high by lia. by rewrite andb_false_r. }
  rewrite <- Z.lxor_lor by done. rewrite <- Z.add_nocarry_lxor by done. by rewrite Z.shiftl_mul_pow2.
Qed.

Lemma length_putUint n v : length (putUint n v) = n.
Proof. induction n; simpl; auto. Qed.

Lemma foldl_putUint n v acc :
  foldl (λ acc b, Z.lor (Z.shiftl acc 8) (byte_of b)) acc (putUint n v) = acc * 256 ^ Z.of_nat n + v mod 256 ^ Z.of_nat n.
Proof.
  revert acc; induction n as [|n IH]; intros acc; cbn [putUint foldl].
  - rewrite Z.mod_1_r. lia.
  - rewrite IH, lor_byte, byte_of_byteOf by (apply byte_of_bound).
    rewrite Z.shiftr_div_pow2 by lia. replace (2 ^ (8 * Z.of_nat n)) with (256 ^ Z.of_nat n) by (rewrite Z.pow_mul_r by lia; done).
    rewrite Nat2Z.inj_succ, Z.pow_succ_r by lia. set (p := 256 ^ Z.of_nat n).
    assert (0 < p) by (apply Z.pow_pos_nonneg; lia). rewrite (Z.mul_comm 256 p), Z.rem_mul_r by lia. lia.
Qed.

Lemma getUint_putUint n v : getUint (putUint n v) = v mod 256 ^ Z.of_nat n.
Proof. unfold getUint. rewrite foldl_putUint. lia. Qed.

Lemma foldl_bytes_bound l acc :
  ∃ r, foldl (λ acc b, Z.lor (Z.shiftl acc 8) (byte_of b)) acc l = acc * 256 ^ Z.of_nat (length l) + r ∧
       0 ≤ r < 256 ^ Z.of_nat (length l).
Proof.
  revert acc; induction l as [|b l IH]; intros acc; cbn [foldl length]; [exists 0; lia|].
  rewrite lor_byte by apply byte_of_bound. destruct (IH (acc * 256 + byte_of b)) as (r & -> & Hr).
  exists (byte_of b * 256 ^ Z.of_nat (length l) + r). rewrite Nat2Z.inj_succ, Z.pow_succ_r by lia.
  pose proof (byte_of_bound b). split; nia.
Qed.

Lemma getUint_bound l : 0 ≤ getUint l < 256 ^ Z.of_nat (length l).
Proof. unfold getUint. destruct (foldl_bytes_bound l 0) as (r & -> & ?). lia. Qed.

Lemma putUint_foldl l acc :
  putUint (length l) (foldl (λ acc b, Z.lor (Z.shiftl acc 8) (byte_of b)) acc l) = l.
Proof.
  revert acc; induction l as [|b l IH]; intros acc; simpl; [done|]. f_equal; [|apply IH].
  rewrite lor_byte by apply byte_of_bound. destruct (foldl_bytes_bound l (acc * 256 + byte_of b)) as (r & -> & Hr).
  rewrite Z.shiftr_div_pow2 by lia. replace (2 ^ (8 * Z.of_nat (length l))) with (256 ^ Z.of_nat (length l)) by (rewrite Z.pow_mul_r by lia; done).
  rewrite Z.div_add_l, Z.div_small, Z.add_0_r by lia. rewrite <- (byteOf_byte_of b) at 2. unfold byteOf. do 2 f_equal.
  rewrite Z.add_comm, Z.mod_add by lia. done.
Qed.

Lemma putUint_getUint l : putUint (length l) (getUint l) = l.
Proof. apply putUint_foldl. Qed.

(** ** The wire format *)

Definition wireFrame (f : frame) : Prop :=
  0 ≤ frameType f < 256 ∧ 0 ≤ flags f < 256 ∧ len (payload f) ≤ maxFramePayload.

Lemma readFull_app l r : readFull (len l) (l ++ r) = Ok (l, r).
Proof.
  unfold readFull, len. rewrite length_app. replace (_ <=? _) with true by (symmetry; apply Z.leb_le; lia).
  rewrite Nat2Z.id. by rewrite take_app_length, drop_app_length.
Qed.

Lemma readFull_ok n r a b : 0 ≤ n → readFull n r = Ok (a, b) → r = a ++ b ∧ len a = n.
Proof.
  unfold readFull, len. destruct (n <=? _) eqn:Hn; [|by destruct (_ =? _)]. intros H0 [= <- <-]. apply Z.leb_le in Hn.
  rewrite take_drop, length_take. split; [done|lia].
Qed.

Lemma byte_of_wire z : 0 ≤ z < 256 → byte_of (byteOf z) = z.
Proof. intros. rewrite byte_of_byteOf. by apply Z.mod_small. Qed.

Lemma readFrame_write f r : wireFrame f → readFrame (frameBytes f ++ r) = Ok (f, r).
Proof.
  intros (Ht & Hf & Hp). unfold readFrame, frameBytes. rewrite <- app_assoc.
  change frameHeaderLen with (len (frameHeader f)). rewrite readFull_app. cbn [rbind].
  change (drop 2 (frameHeader f)) with (putUint 4 (len (payload f))). rewrite getUint_putUint. assert (0 ≤ len (payload f)) by (unfold len; lia).
  change (256 ^ Z.of_nat 4) with 4294967296. change maxFramePayload with 1048576 in *.
  rewrite Z.mod_small by lia. unfold fail_if. destruct (1048576 <? len (payload f)) eqn:Hb; [lia|]. cbn [rbind].
  unfold frameHeader. cbn [nth]. rewrite !byte_of_wire by done. destruct (0 <? len (payload f)) eqn:Hz.
  - rewrite readFull_app. cbn. by destruct f.
  - apply Z.ltb_ge in Hz. assert (payload f = []) as Hnil by (apply nil_length_inv; unfold len in *; lia).
    rewrite Hnil. cbn. f_equal. destruct f; simpl in *. by rewrite Hnil.
Qed.

Lemma header_split h :
  len h = frameHeaderLen → ∃ a b l, h = a :: b :: l ∧ length l = 4%nat.
Proof.
  unfold len, frameHeaderLen. intros Hl. destruct h as [|a [|b l]]; simpl in Hl; [lia|lia|]. exists a, b, l. split; [done|lia].
Qed.

Lemma readFrame_ok r f r' : readFrame r = Ok (f, r') → r = frameBytes f ++ r' ∧ wireFrame f.
Proof.
  unfold readFrame. intros H. apply rbind_ok in H as ([h r1] & Hh & H). apply readFull_ok in Hh as [-> Hlen]; [|done].
  destruct (header_split h Hlen) as (a & b & l & -> & Hl). change (drop 2 (a :: b :: l)) with l in H. cbn [nth] in H.
  apply rbind_ok in H as ([] & Hmax%fail_if_ok & H). pose proof (getUint_bound l) as Hg. rewrite Hl in Hg.
  pose proof (byte_of_bound a). pose proof (byte_of_bound b). apply Z.ltb_ge in Hmax.
  assert (∀ p, len p = getUint l → frameBytes {| frameType := byte_of a; flags := byte_of b; payload := p |} = a :: b :: l ++ p) as Hbytes.
  { intros p Hp. unfold frameBytes, frameHeader. cbn [frameType flags payload]. rewrite !byteOf_byte_of, Hp.
    rewrite <- Hl at 1. by rewrite putUint_getUint. }
  destruct (0 <? getUint l) eqn:Hz.
  - apply rbind_ok in H as ([p r2] & Hp & H). apply readFull_ok in Hp as [-> Hplen]; [|lia]. injection H as <- <-.
    rewrite Hbytes by done. split; [simpl; by rewrite <- app_assoc|]. split_and!; cbn; lia.
  - apply Z.ltb_ge in Hz. injection H as <- <-. rewrite Hbytes by (change (len []) with 0; lia). rewrite app_nil_r. split; [done|].
    split_and!; try (cbn; lia). change (len (payload _)) with 0. change maxFramePayload with 1048576. lia.
Qed.

Lemma frameBytes_length f : length (frameBytes f) = (6 + length (payload f))%nat.
Proof. unfold frameBytes, frameHeader. rewrite length_app. cbn [length]. by rewrite length_putUint. Qed.

Lemma readFramesFuel_write fs tail e fuel :
  Forall wireFrame fs → readFrame tail = Err e → (length fs ≤ fuel)%nat →
  readFramesFuel fuel (concat (frameBytes <$> fs) ++ tail) = (fs, e).
Proof.
  revert fuel; induction fs as [|f fs IH]; intros fuel Hwf Ht Hfuel.
  - destruct fuel; simpl; by rewrite Ht.
  - rewrite fmap_cons. cbn [concat]. inversion Hwf as [|? ? Hf Hfs]; subst. rewrite <- app_assoc. destruct fuel as [|fuel]; [simpl in Hfuel; lia|].
    cbn [readFramesFuel]. rewrite readFrame_write by done. rewrite IH; [done..|simpl in Hfuel; lia].
Qed.

Lemma concat_frames_length fs : (length fs ≤ length (concat (frameBytes <$> fs)))%nat.
Proof.
  induction fs as [|f fs IH]; [done|]. rewrite fmap_cons. cbn [concat length]. rewrite length_app, frameBytes_length. lia.
Qed.

(** Reading is the exact inverse of writing: [readFrame] accepts a stream exactly when it
    starts with the bytes of a frame whose payload is within the limit, and returns this
    frame and the rest of the stream. *)
Theorem readFrame_exact r f r' :
  readFrame r = Ok (f, r') ↔ r = frameBytes f ++ r' ∧ wireFrame f.
Proof. split; [apply readFrame_ok|]. intros [-> Hf]. by apply readFrame_write. Qed.

Lemma readFrame_too_large f r :
  maxFramePayload < len (payload f) → len (payload f) < 256 ^ 4 → readFrame (frameBytes f ++ r) = Err ErrFrameTooLarge.
Proof.
  intros Hp Hmax. unfold readFrame, frameBytes. rewrite <- app_assoc. change frameHeaderLen with (len (frameHeader f)).
  rewrite readFull_app. cbn [rbind]. change (drop 2 (frameHeader f)) with (putUint 4 (len (payload f))).
  rewrite getUint_putUint. change (256 ^ Z.of_nat 4) with (256 ^ 4). rewrite Z.mod_small by (unfold len in *; lia).
  unfold fail_if. by rewrite (proj2 (Z.ltb_lt _ _)) by done.
Qed.

(** A frame whose payload the receiver takes. *)
Definition fits (f : frame) : bool := len (payload f) <=? maxFramePayload.

(** The types of the source: bytes, and a slice whose length the header can hold. *)
Definition goFrame (f : frame) : Prop :=
  0 ≤ frameType f < 256 ∧ 0 ≤ flags f < 256 ∧ len (payload f) < 256 ^ 4.

Fixpoint takeFits (fs : list frame) : list frame :=
  match fs with [] => [] | f :: fs => if fits f then f :: takeFits fs else [] end.

Lemma goFrame_fits f : goFrame f → fits f = true → wireFrame f.
Proof. intros (? & ? & _) Hf%Z.leb_le. unfold wireFrame. lia. Qed.

Lemma frameHeader_len f g :
  goFrame f → goFrame g → frameHeader f = frameHeader g → length (payload f) = length (payload g).
Proof.
  intros (_ & _ & Hf) (_ & _ & Hg) He. apply (f_equal (λ h, getUint (drop 2 h))) in He.
  change (getUint (putUint 4 (len (payload f))) = getUint (putUint 4 (len (payload g)))) in He. rewrite !getUint_putUint in He.
  change (256 ^ Z.of_nat 4) with (256 ^ 4) in He. unfold len in *. rewrite !Z.mod_small in He by lia. lia.
Qed.

(** A frame that is cut short is not read. *)
Lemma readFrame_cut f k : goFrame f → (k < length (frameBytes f))%nat → ∃ e, readFrame (take k (frameBytes f)) = Err e.
Proof.
  intros Hf Hk. destruct (readFrame _) as [[g r]|e] eqn:Hr; [|eauto]. exfalso.
  apply readFrame_ok in Hr as [Heq (Hg1 & Hg2 & Hg3)].
  assert (goFrame g) as Hg. { unfold goFrame. change maxFramePayload with 1048576 in Hg3. lia. }
  pose proof (f_equal length Heq) as Hl. rewrite length_take, length_app, !frameBytes_length in Hl. rewrite frameBytes_length in Hk.
  assert (length (frameHeader f) = 6%nat ∧ length (frameHeader g) = 6%nat) as [H1 H2]
    by (unfold frameHeader; cbn [length]; by rewrite !length_putUint).
  apply (f_equal (take 6)) in Heq. unfold frameBytes in Heq. rewrite take_take, take_app_le, <- app_assoc in Heq by lia.
  rewrite (take_app_le (frameHeader g)) in Heq by lia. rewrite (take_ge (frameHeader g)) in Heq by lia.
  rewrite take_ge in Heq by lia. apply frameHeader_len in Heq; [lia|done|done].
Qed.

(** A receiver of the first bytes of a stream of frames reads the first frames. *)
Lemma readFramesFuel_cut fs k fuel :
  Forall goFrame fs → (readFramesFuel fuel (take k (concat (frameBytes <$> fs)))).1 `prefix_of` takeFits fs.
Proof.
  revert k fuel; induction fs as [|f fs IH]; intros k fuel Hgo.
  { destruct k; by destruct fuel. }
  inversion Hgo as [|? ? Hf Hfs]; subst. rewrite fmap_cons. cbn [concat].
  destruct (decide (k < length (frameBytes f))%nat) as [Hk|Hk].
  { rewrite take_app_le by lia. destruct (readFrame_cut f k Hf Hk) as [e He]. destruct fuel; cbn [readFramesFuel];
      rewrite He; apply prefix_nil. }
  rewrite take_app_ge by lia. cbn [takeFits]. destruct (fits f) eqn:Hfit.
  - destruct fuel as [|fuel]; cbn [readFramesFuel]; rewrite readFrame_write by (by apply goFrame_fits); [apply prefix_nil|].
    specialize (IH (k - length (frameBytes f))%nat fuel Hfs). destruct (readFramesFuel _ _). by apply prefix_cons.
  - apply Z.leb_gt in Hfit. destruct fuel; cbn [readFramesFuel]; rewrite readFrame_too_large by (lia || apply Hf); apply prefix_nil.
Qed.

(** The whole stream: the frames up to the first one that is too large. *)
Lemma readFramesFuel_all fs fuel :
  Forall goFrame fs → (length fs ≤ fuel)%nat →
  readFramesFuel fuel (concat (frameBytes <$> fs)) = (takeFits fs, if forallb fits fs then EOF else ErrFrameTooLarge).
Proof.
  revert fuel; induction fs as [|f fs IH]; intros fuel Hgo Hfuel; [by destruct fuel|].
  inversion Hgo as [|? ? Hf Hfs]; subst. rewrite fmap_cons. cbn [concat takeFits forallb].
  destruct fuel as [|fuel]; [simpl in Hfuel; lia|]. cbn [readFramesFuel]. destruct (fits f) eqn:Hfit; cbn [andb].
  - rewrite readFrame_write by (by apply goFrame_fits). rewrite IH; [done..|simpl in Hfuel; lia].
  - apply Z.leb_gt in Hfit. by rewrite readFrame_too_large by (lia || apply Hf).
Qed.

(** Calls of [WriteFrame], whatever they return. *)
Definition sendFrames (connWrite : nat → option nat) (fs : list frame) (s : Session) : Session :=
  foldl (λ s f, snd (WriteFrame connWrite f s)) s fs.

Lemma sendFrames_failed cw fs s e : writeErr s = Some e → sendFrames cw fs s = s.
Proof. revert s; induction fs as [|f fs IH]; intros s He; [done|]. cbn. unfold WriteFrame. rewrite He. by apply IH. Qed.

Lemma take_min_app (k : nat) (l1 l2 : bytes) : take (k `min` length l1) (l1 ++ l2) = take k l1.
Proof. rewrite take_app_le by lia. rewrite <- take_take. f_equal. by apply take_ge. Qed.

(** One call writes the frame, or a part of it and no more after that. *)
Lemma WriteFrame_bytes cw f s :
  writeErr s = None →
  let s' := snd (WriteFrame cw f s) in
  writeErr s' = None ∧ written s' = written s ++ frameBytes f ∨
  (∃ e k, writeErr s' = Some e ∧ written s' = written s ++ take k (frameBytes f)).
Proof.
  intros He. unfold WriteFrame, writeFrame, connWriteBytes. rewrite He. destruct (cw (writes s)) as [k|] eqn:H1.
  - right. exists ErrWrite, (k `min` length (frameHeader f))%nat. split; [done|]. unfold frameBytes. by rewrite take_min_app.
  - cbn [wrote writes]. destruct (cw (S (writes s))) as [k|] eqn:H2.
    + right. exists ErrWrite, (length (frameHeader f) + k)%nat. split; [done|]. unfold frameBytes. rewrite take_app_add.
      cbn [snd setWriteErr written wrote]. by rewrite <- app_assoc.
    + left. split; [done|]. cbn [snd written wrote]. by rewrite <- app_assoc.
Qed.

Lemma sendFrames_bytes cw fs s :
  writeErr s = None →
  ∃ k, written (sendFrames cw fs s) = written s ++ take k (concat (frameBytes <$> fs)) ∧
    (writeErr (sendFrames cw fs s) = None → (length (concat (frameBytes <$> fs)) ≤ k)%nat).
Proof.
  revert s; induction fs as [|f fs IH]; intros s He.
  { exists 0%nat. cbn. by rewrite app_nil_r. }
  rewrite fmap_cons. cbn [concat]. change (sendFrames cw (f :: fs) s) with (sendFrames cw fs (snd (WriteFrame cw f s))).
  destruct (WriteFrame_bytes cw f s He) as [[He' Hw]|(e & k & He' & Hw)].
  - destruct (IH _ He') as (k & Hk & Hfull). exists (length (frameBytes f) + k)%nat. rewrite Hk, Hw, <- app_assoc.
    split; [by rewrite take_app_add|]. intros Hn. specialize (Hfull Hn). rewrite length_app. lia.
  - rewrite (sendFrames_failed _ _ _ e He'). exists (k `min` length (frameBytes f))%nat. rewrite Hw, He'. split; [|done].
    by rewrite take_min_app.
Qed.

(** C35. Frames sent by any calls of [WriteFrame] over a connection whose writes may fail
    part way are never split, merged or reordered: what the peer reads is a prefix of the
    frames, cut at the first one above the payload limit of the reader.  When no write failed
    it reads all of them up to that one, and then the end of the stream, or
    [ErrFrameTooLarge] if there is such a frame. *)
Theorem readFrames_roundtrip connWrite fs s :
  writeErr s = None → Forall goFrame fs →
  let s' := sendFrames connWrite fs s in
  ∃ out, written s' = written s ++ out ∧
    (readFrames out).1 `prefix_of` takeFits fs ∧
    (writeErr s' = None → readFrames out = (takeFits fs, if forallb fits fs then EOF else ErrFrameTooLarge)).
Proof.
  intros He Hgo s'. destruct (sendFrames_bytes connWrite fs s He) as (k & Hk & Hfull). eexists. split; [exact Hk|].
  split; [by apply readFramesFuel_cut|]. intros Hn. specialize (Hfull Hn). unfold readFrames. rewrite take_ge by lia.
  apply readFramesFuel_all; [done|]. apply concat_frames_length.
Qed.

(** ** Padding *)

Lemma stripPadding_buildPadding p n q : buildPadding p n = Ok q → stripPadding q = Ok p ∧ len q = 2 + n + len p ∧ len q ≤ maxFramePayload.
Proof.
  unfold buildPadding. destruct (_ || _) eqn:Hn; [done|]. apply orb_false_iff in Hn as [Hn1 Hn2].
  apply Z.ltb_ge in Hn1. apply Z.ltb_ge in Hn2. destruct (maxFramePayload <? _) eqn:Hm; [done|]. apply Z.ltb_ge in Hm.
  intros Hq. assert (q = putUint 2 n ++ replicate (Z.to_nat n) "000"%char ++ p) as -> by congruence. clear Hq.
  assert (len (putUint 2 n ++ replicate (Z.to_nat n) "000"%char ++ p) = 2 + n + len p) as Hlen.
  { unfold len. rewrite !length_app, length_putUint, length_replicate. lia. }
  split; [|lia]. unfold stripPadding. rewrite Hlen. assert (0 ≤ len p) by (unfold len; lia).
  rewrite (proj2 (Z.ltb_ge _ _)) by lia.
  assert (getUint (take 2 (putUint 2 n ++ replicate (Z.to_nat n) "000"%char ++ p)) = n) as ->.
  { rewrite take_app_length' by (by rewrite length_putUint). rewrite getUint_putUint. change (256 ^ Z.of_nat 2) with 65536.
    change maxPadLen with 65535 in Hn2. apply Z.mod_small. lia. }
  rewrite (proj2 (Z.ltb_ge _ _)) by lia. f_equal. rewrite app_assoc. rewrite drop_app_length'; [done|].
  rewrite length_app, length_putUint, length_replicate. lia.
Qed.

Lemma land_lor_pad a : 0 ≤ a → Z.land (Z.lor a flagPad) flagPad ≠ 0.
Proof.
  intros Ha He. apply (f_equal (λ z, Z.testbit z 1)) in He. rewrite Z.land_spec, Z.lor_spec in He.
  change (Z.testbit flagPad 1) with true in He. by rewrite orb_true_r in He.
Qed.

Lemma lor_byte_bound a b : 0 ≤ a < 256 → 0 ≤ b < 256 → 0 ≤ Z.lor a b < 256.
Proof.
  intros Ha Hb. split; [apply Z.lor_nonneg; lia|]. destruct (Z.eq_dec (Z.lor a b) 0) as [->|Hn]; [lia|].
  apply (Z.log2_lt_pow2 _ 8); [pose proof (Z.lor_nonneg a b); lia|]. rewrite Z.log2_lor by lia.
  apply Z.max_lub_lt; [destruct (Z.eq_dec a 0) as [->|]; [simpl; lia|apply Z.log2_lt_pow2; simpl; lia]|].
  destruct (Z.eq_dec b 0) as [->|]; [simpl; lia|apply Z.log2_lt_pow2; simpl; lia].
Qed.

(** What [writePadded] sends for a payload within the limit. *)
Lemma paddedFrame_spec f p :
  0 ≤ frameType f < 256 → 0 ≤ flags f < 256 → Z.land (flags f) flagPad = 0 → len p ≤ maxFramePayload →
  ∃ g, paddedFrame f p = Ok g ∧ wireFrame g ∧ frameType g = frameType f ∧ framePayload g = Ok p ∧
    len (frameBytes g) = if len p <? 122 then 130 else 6 + len p.
Proof.
  intros Ht Hf Hpad Hp. assert (0 ≤ len p) by (unfold len; lia).
  assert (∀ g, len (frameBytes g) = 6 + len (payload g)) as Hlen by (intros g; unfold len; rewrite frameBytes_length; lia).
  unfold paddedFrame. change MinPaddedFrameBytes with 128. change frameHeaderLen with 6. destruct (Z.leb_spec 128 (len p + 6)) as [Hb|Hb].
  - eexists. split; [done|]. split; [done|]. split; [done|]. rewrite Hlen. unfold framePayload. cbn [flags payload].
    rewrite Hpad. split; [done|]. by rewrite (proj2 (Z.ltb_ge _ _)) by lia.
  - destruct (buildPadding p (128 - 6 - len p)) as [q|e] eqn:Hq.
    + apply stripPadding_buildPadding in Hq as (Hstrip & Hql & Hqm). eexists. split; [done|].
      split; [split; [done|split; [|done]]; cbn; apply lor_byte_bound; [done|unfold flagPad; lia]|].
      split; [done|]. rewrite Hlen. unfold framePayload. cbn [flags payload]. split.
      * destruct (Z.eqb_spec (Z.land (Z.lor (flags f) flagPad) flagPad) 0) as [He|He]; [|done].
        exfalso. by apply (land_lor_pad (flags f)); [lia|].
      * rewrite (proj2 (Z.ltb_lt _ _)) by lia. lia.
    + exfalso. revert Hq. unfold buildPadding. change maxPadLen with 65535. change maxFramePayload with 1048576.
      rewrite !(proj2 (Z.ltb_ge _ _)) by lia. done.
Qed.

(** Padding is transparent and hides the size of small messages: for every payload within
    the frame limit [writePadded] produces a frame that the receiver accepts and from which
    it recovers the payload, whatever follows on the stream; every frame of a payload
    under 122 bytes has the same size on the wire, 130 bytes, and no frame is
    shorter than [MinPaddedFrameBytes]. *)
Theorem paddedFrame_roundtrip f p r :
  0 ≤ frameType f < 256 → 0 ≤ flags f < 256 → Z.land (flags f) flagPad = 0 → len p ≤ maxFramePayload →
  ∃ g, paddedFrame f p = Ok g ∧ readFrame (frameBytes g ++ r) = Ok (g, r) ∧ frameType g = frameType f ∧
    framePayload g = Ok p ∧ MinPaddedFrameBytes ≤ len (frameBytes g) ∧ (len p < 122 → len (frameBytes g) = 130).
Proof.
  intros Ht Hf Hpad Hp. destruct (paddedFrame_spec f p Ht Hf Hpad Hp) as (g & Hg & Hw & Hgt & Hgp & Hlen).
  exists g. rewrite Hlen. split_and!; try done; [by apply readFrame_write| |].
  - change MinPaddedFrameBytes with 128. destruct (Z.ltb_spec (len p) 122); lia.
  - intros Hl. by rewrite (proj2 (Z.ltb_lt _ _)) by lia.
Qed.

(** ** Witnesses *)

Definition demoFrames : list frame :=
  [{| frameType := 1; flags := 1; payload := bytes_of "{}" |}; {| frameType := 8; flags := 0; payload := [] |}].

(** The fourth write, the payload of the second frame, fails after one byte. *)
Definition demoWrites (n : nat) : option nat := if Nat.eqb n 3 then Some 1%nat else None.

Lemma readFrames_roundtrip_witness :
  let s' := sendFrames demoWrites (demoFrames ++ demoFrames) newSession in
  writeErr s' = Some ErrWrite ∧
  ∃ out, written s' = [] ++ out ∧
    (readFrames out).1 `prefix_of` takeFits (demoFrames ++ demoFrames) ∧
    (writeErr s' = None → readFrames out = (takeFits (demoFrames ++ demoFrames), EOF)).
Proof.
  split; [reflexivity|]. apply (readFrames_roundtrip demoWrites (demoFrames ++ demoFrames) newSession); [reflexivity|].
  repeat (apply Forall_cons; split; [split_and!; vm_compute; congruence|]). apply Forall_nil. exact I.
Defined.

Lemma paddedFrame_roundtrip_witness :
  let f := {| frameType := 1; flags := 1; payload := [] |} in let p := bytes_of "{}" in
  ∃ g, paddedFrame f p = Ok g ∧ readFrame (frameBytes g ++ []) = Ok (g, []) ∧ frameType g = 1 ∧
    framePayload g = Ok p ∧ MinPaddedFrameBytes ≤ len (frameBytes g) ∧ (len p < 122 → len (frameBytes g) = 130).
Proof. cbv zeta. apply paddedFrame_roundtrip; vm_compute; split || idtac; congruence. Defined.
