(* ===== verification/AgentSession.v ===== *)
(** * Sessions of the agent transport ([internal/agentlink/session.go], [server.go], [client.go])

    A request and its response travel through both read loops; a response reaches the
    request with its identifier and no other; a message that the sender accepts may exceed
    what the receiver reads; and a request that waits while the session ends may be handed
    a nil response. *)

From S2P Require Import Prelude AgentLink.

Local Open Scope Z_scope.

Section sessions.
Context `{!LinkCodec}.
Context (connWrite : nat → option nat).
Context (onMessage : gmap string bytes → option Z) (onRequest : option (RequestFrame → option ResponseFrame))
        (onData : DataHeader → bytes → option Z).

(** ** Writing *)

Definition reliableConn : Prop := ∀ n, connWrite n = None.

Lemma WriteFrame_ok f s :
  reliableConn → writeErr s = None →
  WriteFrame connWrite f s = (Ok (), wrote (payload f) (wrote (frameHeader f) s)).
Proof. intros Hr Hw. unfold WriteFrame, writeFrame, connWriteBytes. by rewrite Hw, !Hr. Qed.

(** The fields that a write leaves alone. *)
Definition sameRequests (s s' : Session) : Prop :=
  nextReqID s' = nextReqID s ∧ pending s' = pending s ∧ chans s' = chans s ∧ closed s' = closed s.

Lemma writeFrame_same f s r s' : writeFrame connWrite f s = (r, s') → sameRequests s s' ∧ writeErr s' = writeErr s.
Proof.
  unfold writeFrame, connWriteBytes. destruct (connWrite (writes s)); [by intros [= <- <-]|].
  by destruct (connWrite _); intros [= <- <-].
Qed.

Lemma WriteFrame_same f s r s' :
  WriteFrame connWrite f s = (r, s') → sameRequests s s' ∧ (is_Some (writeErr s) → is_Some (writeErr s')).
Proof.
  unfold WriteFrame. destruct (writeErr s) eqn:Hw; [intros [= <- <-]; by rewrite Hw|].
  destruct (writeFrame connWrite f s) as [[u|e] s1] eqn:Hf; apply writeFrame_same in Hf as [Hs Hw1]; intros [= <- <-].
  - split; [done|]. by intros [].
  - split; [|done]. by destruct Hs as (? & ? & ? & ?).
Qed.

Lemma writePadded_same f p s r s' :
  writePadded connWrite f p s = (r, s') → sameRequests s s' ∧ (is_Some (writeErr s) → is_Some (writeErr s')).
Proof. unfold writePadded. destruct (paddedFrame f p); [apply WriteFrame_same|]. by intros [= <- <-]. Qed.

Lemma writePadded_ok f p s g :
  reliableConn → writeErr s = None → paddedFrame f p = Ok g →
  writePadded connWrite f p s = (Ok (), wrote (payload g) (wrote (frameHeader g) s)).
Proof. intros Hr Hw Hg. unfold writePadded. rewrite Hg. by apply WriteFrame_ok. Qed.

(** After a session has been shut down nothing more is written to its connection: every
    message, ping and request fails with the error of the shutdown, or an encoding error. *)
Theorem no_write_after_shutdown e s f p path body :
  let s' := shutdown e s in
  closed s = false →
  writeErr s' = Some e ∧ WriteFrame connWrite f s' = (Err e, s') ∧
  (∃ x, fst (WriteMessage connWrite p s') = Err x) ∧ written (snd (WriteMessage connWrite p s')) = written s ∧
  (∃ x, fst (sendRequest connWrite path body s') = Err x) ∧ written (snd (sendRequest connWrite path body s')) = written s.
Proof.
  intros s' Hc. unfold s', shutdown. rewrite Hc. split; [done|]. split; [done|].
  split; [|split].
  - unfold WriteMessage, writePadded. destruct p as [p|]; [|by eexists]. destruct (_ <? _); [by eexists|].
    destruct (paddedFrame _ p); by eexists.
  - unfold WriteMessage, writePadded. destruct p as [p|]; [|done]. destruct (_ <? _); [done|]. by destruct (paddedFrame _ p).
  - unfold sendRequest, writePadded. destruct body as [[b|]|]; simpl; [|split; [by eexists|done]|];
      (destruct (encodeRequest _) as [q|]; [|split; [by eexists|done]]; destruct (paddedFrame _ q); split; by try eexists).
Qed.

(** ** Requests and responses *)

Definition notHandled (id : Z) : ResponseFrame :=
  {| RS_ID := id; RS_Status := 404; RS_Body := []; RS_Error := "not handled" |}.

Definition answer (req : RequestFrame) : ResponseFrame := default (notHandled (RQ_ID req)) (onRequest ≫= λ h, h req).

Lemma readLoop_one handle f s s' :
  wireFrame f → handle f s = (Ok (), s') → readLoop handle (length (frameBytes f)) (frameBytes f) s = (EOF, shutdown EOF s').
Proof.
  intros Hf Hh. rewrite frameBytes_length. cbn [readLoop]. pose proof (readFrame_write f [] Hf) as Hr. rewrite app_nil_r in Hr.
  cbn [Nat.add readLoop]. rewrite Hr, Hh. destruct (length (payload f)); done.
Qed.

Lemma shutdown_chans e s id : id ∉ pending s → chans (shutdown e s) !! id = chans s !! id.
Proof.
  unfold shutdown. destruct (closed s); [done|]. simpl. intros Hid.
  apply (set_fold_ind_L (λ m X, id ∉ X → m !! id = chans s !! id) (λ id m, <[id := ChClosed]> m)); [done| |done].
  intros x X m Hx IH Hn. rewrite lookup_insert_ne by set_solver. apply IH. set_solver.
Qed.

Lemma shutdown_closes e s id : closed s = false → id ∈ pending s → chans (shutdown e s) !! id = Some ChClosed.
Proof.
  unfold shutdown. intros ->. simpl.
  apply (set_fold_ind_L (λ m X, id ∈ X → m !! id = Some ChClosed) (λ id m, <[id := ChClosed]> m)); [set_solver|].
  intros x X m Hx IH Hin. destruct (decide (x = id)) as [->|Hne]; [by rewrite lookup_insert_eq|].
  rewrite lookup_insert_ne by done. apply IH. set_solver.
Qed.

(** What the transport relies on in [encoding/json]. *)
Class LinkCodecLaws : Prop := {
  decode_encode_request req p : encodeRequest req = Some p → decodeRequest p = Some req;
  decode_encode_response resp p : encodeResponse resp = Some p → decodeResponse p = Some resp }.

Definition requestHeader : frame := {| frameType := frameTypeRequest; flags := flagPayloadJSON; payload := [] |}.
Definition responseHeader : frame := {| frameType := frameTypeResponse; flags := flagPayloadJSON; payload := [] |}.

Lemma sendRequest_writes path raw p g s :
  reliableConn → writeErr s = None →
  encodeRequest {| RQ_ID := nextReqID s + 1; RQ_Path := path; RQ_Body := raw |} = Some p →
  paddedFrame requestHeader p = Ok g →
  ∃ s', sendRequest connWrite path (Some (Some raw)) s = (Ok (nextReqID s + 1), s') ∧
    written s' = written s ++ frameBytes g ∧ nextReqID s + 1 ∈ pending s' ∧ closed s' = closed s.
Proof.
  intros Hr Hw Hp Hg. unfold sendRequest. rewrite Hp. rewrite (writePadded_ok _ _ _ g); [|done..].
  eexists. split; [reflexivity|]. simpl. rewrite <- app_assoc. split; [done|]. split; [set_solver|done].
Qed.

Lemma serverFrame_request g req q g2 srv :
  reliableConn → writeErr srv = None → frameType g = frameTypeRequest →
  ∀ p, framePayload g = Ok p → decodeRequest p = Some req →
  encodeResponse (answer req) = Some q → paddedFrame responseHeader q = Ok g2 →
  serverFrame connWrite onMessage onRequest g srv = (Ok (), wrote (payload g2) (wrote (frameHeader g2) srv)).
Proof.
  intros Hr Hw Ht p Hp Hd He Hg. unfold serverFrame. rewrite Ht. cbn [Z.eqb frameTypeRequest frameTypePing frameTypeGoAway frameTypeMessage].
  change (frameTypeRequest =? frameTypePing) with false. change (frameTypeRequest =? frameTypeGoAway) with false.
  change (frameTypeRequest =? frameTypeMessage) with false. change (frameTypeRequest =? frameTypeRequest) with true. cbv iota.
  rewrite Hp, Hd. fold (notHandled (RQ_ID req)). fold (answer req). rewrite He. by apply writePadded_ok.
Qed.

Lemma clientFrame_response g q resp c :
  frameType g = frameTypeResponse → framePayload g = Ok q → decodeResponse q = Some resp → RS_ID resp ∈ pending c →
  clientFrame connWrite onData g c =
    (Ok (), setRequests (nextReqID c) (pending c ∖ {[RS_ID resp]}) (<[RS_ID resp := ChFull resp]> (chans c)) c).
Proof.
  intros Ht Hp Hd Hin. unfold clientFrame. rewrite Ht. change (frameTypeResponse =? frameTypePing) with false.
  change (frameTypeResponse =? frameTypeGoAway) with false. change (frameTypeResponse =? frameTypeMessage) with false.
  change (frameTypeResponse =? frameTypeResponse) with true. cbv iota. by rewrite Hp, Hd, bool_decide_true.
Qed.

(** A request and its response survive the whole transport: when no write fails, what
    the client sends makes the server's read loop call the request callback with this
    request and write one response, and the client's read loop hands this response to
    this request (a 404 when nothing handles it), even when the connection ends right
    after it; the other requests that wait keep waiting until then. *)
Theorem request_response `{!LinkCodecLaws} path raw p q c srv :
  reliableConn → writeErr c = None → writeErr srv = None → written srv = [] →
  let req := {| RQ_ID := nextReqID c + 1; RQ_Path := path; RQ_Body := raw |} in
  encodeRequest req = Some p → len p ≤ maxFramePayload →
  encodeResponse (answer req) = Some q → len q ≤ maxFramePayload → RS_ID (answer req) = RQ_ID req →
  ∃ c' sent, sendRequest connWrite path (Some (Some raw)) c = (Ok (RQ_ID req), c') ∧ written c' = written c ++ sent ∧
    let srv' := snd (Run connWrite onMessage onRequest sent srv) in
    let c'' := snd (RunClient connWrite onData (written srv') c') in
    chans c'' !! RQ_ID req = Some (ChFull (answer req)) ∧
    ∀ id, id ∈ pending c → id ≠ RQ_ID req → closed c = false → chans c'' !! id = Some ChClosed.
Proof.
  intros Hr Hwc Hws Hws0 req Hp Hlp Hq Hlq Hid.
  destruct (paddedFrame_spec requestHeader p) as (g & Hg & Hgw & Hgt & Hgp & _); [done..|].
  destruct (paddedFrame_spec responseHeader q) as (g2 & Hg2 & Hg2w & Hg2t & Hg2p & _); [done..|].
  destruct (sendRequest_writes path raw p g c) as (c' & Hsend & Hwritten & Hpend & Hclosed); [done..|].
  exists c', (frameBytes g). split; [done|]. split; [done|]. cbv zeta. unfold Run, RunClient.
  rewrite (readLoop_one _ g srv (wrote (payload g2) (wrote (frameHeader g2) srv))); [|done|].
  2: { eapply serverFrame_request; [done..|exact Hgp|by apply decode_encode_request|exact Hq|done]. }
  assert (written (shutdown EOF (wrote (payload g2) (wrote (frameHeader g2) srv))) = frameBytes g2) as Hout.
  { unfold shutdown. simpl. destruct (closed srv); simpl; by rewrite Hws0, <- app_assoc. }
  cbn [snd]. rewrite Hout.
  assert (RS_ID (answer req) ∈ pending c') as Hin by (rewrite Hid; exact Hpend).
  erewrite (readLoop_one _ g2 c'); [|done|by eapply clientFrame_response; [done|exact Hg2p|by apply decode_encode_response|done]].
  cbn [snd]. split.
  - rewrite shutdown_chans by (simpl; set_solver). simpl. by rewrite Hid, lookup_insert_eq.
  - intros id Hpid Hne Hc. apply shutdown_closes; [simpl; congruence|]. simpl.
    assert (id ∈ pending c') as Hidc; [|rewrite Hid; set_solver].
    unfold sendRequest in Hsend. change (encodeRequest _) with (encodeRequest req) in Hsend. rewrite Hp in Hsend.
    rewrite (writePadded_ok _ _ _ g) in Hsend by done. injection Hsend as <-. simpl. set_solver.
Qed.

(** ** A response reaches its own request *)

Record SInv (s : Session) : Prop := {
  sinv_pending : ∀ id, id ∈ pending s → chans s !! id = Some ChEmpty ∧ id ≤ nextReqID s;
  sinv_chans : ∀ id, is_Some (chans s !! id) → id ≤ nextReqID s;
  sinv_full : ∀ id r, chans s !! id = Some (ChFull r) → RS_ID r = id;
  sinv_closed : closed s = true → is_Some (writeErr s) }.

Lemma SInv_same s s' :
  sameRequests s s' → (is_Some (writeErr s) → is_Some (writeErr s')) → SInv s → SInv s'.
Proof. intros (Hn & Hp & Hc & Hcl) Hw [H1 H2 H3 H4]. split; rewrite ?Hn, ?Hp, ?Hc, ?Hcl; auto. Qed.

Lemma SInv_forget id s : SInv s → SInv (forget id s).
Proof. intros [H1 H2 H3 H4]. split; simpl; try done. intros id' Hid. apply H1. set_solver. Qed.

Lemma SInv_register s :
  SInv s → SInv (setRequests (nextReqID s + 1) (pending s ∪ {[nextReqID s + 1]}) (<[nextReqID s + 1 := ChEmpty]> (chans s)) s).
Proof.
  intros [H1 H2 H3 H4]. split; simpl; try done.
  - intros id Hid. destruct (decide (id = nextReqID s + 1)) as [->|Hne]; [rewrite lookup_insert_eq; split; [done|lia]|].
    rewrite lookup_insert_ne by done. destruct (H1 id) as [? ?]; [set_solver|]. split; [done|lia].
  - intros id. destruct (decide (id = nextReqID s + 1)) as [->|Hne]; [lia|]. rewrite lookup_insert_ne by done.
    intros Hid%H2. lia.
  - intros id r. destruct (decide (id = nextReqID s + 1)) as [->|Hne]; [by rewrite lookup_insert_eq|].
    rewrite lookup_insert_ne by done. apply H3.
Qed.

Lemma SInv_put id c s :
  SInv s → id ≤ nextReqID s → (∀ r, c = ChFull r → RS_ID r = id) →
  SInv (setRequests (nextReqID s) (pending s ∖ {[id]}) (<[id := c]> (chans s)) s).
Proof.
  intros [H1 H2 H3 H4] Hle Hc. split; simpl; try done.
  - intros x Hx. rewrite lookup_insert_ne by set_solver. apply H1. set_solver.
  - intros x. destruct (decide (x = id)) as [->|Hne]; [lia|]. rewrite lookup_insert_ne by done. apply H2.
  - intros x r. destruct (decide (x = id)) as [->|Hne]; [rewrite lookup_insert_eq; intros [= ->]; by apply Hc|].
    rewrite lookup_insert_ne by done. apply H3.
Qed.

Lemma SInv_shutdown e s : SInv s → SInv (shutdown e s).
Proof.
  intros HI. unfold shutdown. destruct (closed s) eqn:Hc; [done|]. destruct HI as [H1 H2 H3 H4].
  assert (∀ x, set_fold (λ id m, <[id := ChClosed]> m) (chans s) (pending s) !! x = Some ChClosed ∧ x ∈ pending s ∨
    set_fold (λ id m, <[id := ChClosed]> m) (chans s) (pending s) !! x = chans s !! x) as Hx.
  { intros x. apply (set_fold_ind_L (λ m X, m !! x = Some ChClosed ∧ x ∈ X ∨ m !! x = chans s !! x) (λ id m, <[id := ChClosed]> m)); [by right|].
    intros y X m Hy IH. destruct (decide (y = x)) as [->|Hne]; [left; rewrite lookup_insert_eq; set_solver|].
    rewrite lookup_insert_ne by done. destruct IH as [[? ?]|?]; [left; set_solver|by right]. }
  split; simpl; [set_solver| | |by eexists].
  - intros id. destruct (Hx id) as [[-> Hin]| ->]; [intros _; by apply H1|apply H2].
  - intros id r. destruct (Hx id) as [[-> Hin]| ->]; [done|apply H3].
Qed.

Lemma SInv_new : SInv newSession.
Proof. split; simpl; [set_solver| | |done]; [intros id [x Hx]|intros id r Hx]; by rewrite lookup_empty in Hx. Qed.

(** One call on a session, or one frame of a read loop. *)
Inductive session_step : Session → Session → Prop :=
| step_message p s : session_step s (snd (WriteMessage connWrite p s))
| step_ping s : session_step s (snd (Ping connWrite s))
| step_request path body s : session_step s (snd (sendRequest connWrite path body s))
| step_select id r s s' : selects id s r s' → session_step s s'
| step_server f s : session_step s (snd (serverFrame connWrite onMessage onRequest f s))
| step_client f s : session_step s (snd (clientFrame connWrite onData f s))
| step_shutdown e s : session_step s (shutdown e s)
| step_data s : session_step s (snd (RunDataStart s))
| step_accept p s : session_step s (snd (AcceptAuth connWrite p s))
| step_reject reason s : session_step s (RejectAuth connWrite reason s).

Lemma SInv_WriteFrame f s : SInv s → SInv (snd (WriteFrame connWrite f s)).
Proof. intros HI. destruct (WriteFrame connWrite f s) as [r s'] eqn:Hw. apply WriteFrame_same in Hw as []. by apply (SInv_same s). Qed.

Lemma SInv_writePadded f p s : SInv s → SInv (snd (writePadded connWrite f p s)).
Proof. intros HI. destruct (writePadded connWrite f p s) as [r s'] eqn:Hw. apply writePadded_same in Hw as []. by apply (SInv_same s). Qed.

Lemma SInv_writeFrame f s : SInv s → SInv (snd (writeFrame connWrite f s)).
Proof.
  intros HI. destruct (writeFrame connWrite f s) as [r s'] eqn:Hf. apply writeFrame_same in Hf as [Hs Hw].
  apply (SInv_same s); [done|simpl; by rewrite Hw|done].
Qed.

Lemma SInv_clientFrame f s : SInv s → SInv (snd (clientFrame connWrite onData f s)).
Proof.
  intros HI. unfold clientFrame. destruct (_ =? _); [by apply SInv_WriteFrame|]. destruct (_ =? _); [done|].
  destruct (_ =? _); [destruct (framePayload f) as [p|]; [|done]; destruct (decodeEnvelope p); [|done]; by apply (SInv_same s)|].
  destruct (_ =? _).
  - destruct (framePayload f) as [p|]; [|done]. destruct (decodeResponse p) as [resp|]; [|done]. simpl. case_bool_decide as Hin; [|done].
    apply SInv_put; [done|by apply (sinv_pending s HI)|]. by intros r [= <-].
  - destruct (_ =? _); [|done]. unfold deliverData. destruct (negb _); [done|]. destruct (_ <? _); [done|].
    destruct (_ <? _); [done|]. destruct (decodeDataHeader _); [|done]. by apply (SInv_same s).
Qed.

Lemma SInv_serverFrame f s : SInv s → SInv (snd (serverFrame connWrite onMessage onRequest f s)).
Proof.
  intros HI. unfold serverFrame. destruct (_ =? _); [by apply SInv_WriteFrame|]. destruct (_ =? _); [done|].
  destruct (_ =? _); [unfold receiveMessage; destruct (framePayload f) as [p|]; [|done]; destruct (decodeEnvelope p); [|done]; by apply (SInv_same s)|].
  destruct (_ =? _); [|done]. destruct (framePayload f) as [p|]; [|done]. destruct (decodeRequest p) as [req|]; [|done].
  destruct (encodeResponse _); [|done]. by apply SInv_writePadded.
Qed.

Lemma SInv_select id r s s' : selects id s r s' → SInv s → SInv s'.
Proof.
  destruct 1 as [|r Hr| |]; intros HI; [by apply SInv_forget| |done|done]. destruct HI as [H1 H2 H3 H4]. split; simpl; try done.
  - intros x Hx. destruct (decide (x = id)) as [->|Hne]; [|rewrite lookup_insert_ne by done; by apply H1].
    destruct (H1 id Hx). congruence.
  - intros x. destruct (decide (x = id)) as [->|Hne]; [intros _; apply H2; by rewrite Hr|]. rewrite lookup_insert_ne by done. apply H2.
  - intros x q. destruct (decide (x = id)) as [->|Hne]; [by rewrite lookup_insert_eq|]. rewrite lookup_insert_ne by done. apply H3.
Qed.

Lemma SInv_step s s' : session_step s s' → SInv s → SInv s'.
Proof.
  destruct 1; intros HI.
  - unfold WriteMessage. destruct p; [|done]. destruct (_ <? _); [done|]. by apply SInv_writePadded.
  - by apply SInv_WriteFrame.
  - unfold sendRequest. pose proof (SInv_register s HI) as HR. destruct body as [[b|]|]; [|by apply SInv_forget|];
      (destruct (encodeRequest _) as [q|]; [|done]; destruct (writePadded _ _ _ _) as [[u|e] s2] eqn:Hw;
       apply writePadded_same in Hw as [Hs Hwe]; [|apply SInv_forget]; by (eapply SInv_same; [exact Hs|exact Hwe|])).
  - by eapply SInv_select.
  - by apply SInv_serverFrame.
  - by apply SInv_clientFrame.
  - by apply SInv_shutdown.
  - unfold RunDataStart. destruct (hasDataHandler s); [done|]. by apply (SInv_same s).
  - by apply SInv_writeFrame.
  - by apply SInv_writeFrame.
Qed.

(** Whatever is called on a session and whatever the peer sends, a request that receives a
    response receives one with its own identifier: responses are never handed to another
    request, and a response nobody waits for is dropped. *)
Theorem response_correlated s id r s' :
  rtc session_step newSession s → selects id s (Response r) s' → RS_ID r = id ∧ id ≤ nextReqID s.
Proof.
  intros Hs Hsel. assert (SInv s) as HI.
  { revert Hs. apply (rtc_ind_r SInv); [|intros x y _ Hxy Hx; by eapply SInv_step]. exact SInv_new. }
  inversion Hsel as [|q Hq| |]; subst. split; [by apply (sinv_full s HI)|]. apply (sinv_chans s HI). by rewrite Hq.
Qed.

(** ** Messages that the receiver refuses *)

(** A message between the frame limit (1 MiB) and the message limit (16 MiB) is accepted
    and written in one frame, and the peer ends the session when it reads this frame:
    nothing splits it. *)
Theorem large_message_ends_session p s peer r :
  maxFramePayload < len p ≤ MaxMessageBytes → reliableConn → writeErr s = None →
  ∃ sent, WriteMessage connWrite (Some p) s = (Ok (), sent) ∧ ∃ b, written sent = written s ++ b ∧
    Run connWrite onMessage onRequest (b ++ r) peer = (ErrFrameTooLarge, shutdown ErrFrameTooLarge peer).
Proof.
  intros [Hlo Hhi] Hr Hw. unfold WriteMessage. rewrite (proj2 (Z.ltb_ge _ _)) by done.
  set (h := {| frameType := frameTypeMessage; flags := flagPayloadJSON; payload := [] |}).
  set (f := {| frameType := frameTypeMessage; flags := flagPayloadJSON; payload := p |}).
  assert (paddedFrame h p = Ok f) as Hg.
  { unfold paddedFrame. change maxFramePayload with 1048576 in Hlo. change MinPaddedFrameBytes with 128. change frameHeaderLen with 6.
    by rewrite (proj2 (Z.leb_le _ _)) by lia. }
  rewrite (writePadded_ok _ _ _ _ Hr Hw Hg). eexists. split; [reflexivity|].
  exists (frameBytes f). split; [cbn [written wrote]; by rewrite <- app_assoc|]. unfold Run.
  assert (readFrame (frameBytes f ++ r) = Err ErrFrameTooLarge) as Hread.
  { apply readFrame_too_large; [done|]. change (len (payload f)) with (len p). change MaxMessageBytes with 16777216 in Hhi.
    change (256 ^ 4) with 4294967296. lia. }
  destruct (length (frameBytes f ++ r)); cbn [readLoop]; by rewrite Hread.
Qed.

(** ** A request that waits while the session ends *)

(** When a session ends, the channel of a waiting request is closed and so is the
    session: both cases of the [select] in [Request] are ready, and a run may take the
    receive from the channel, which yields a nil response instead of [ErrClosed]. *)
Theorem waiting_request_may_get_nil e s id :
  closed s = false → id ∈ pending s →
  selects id (shutdown e s) SessionClosed (shutdown e s) ∧ selects id (shutdown e s) NilResponse (shutdown e s).
Proof.
  intros Hc Hid. split; [apply select_closed; unfold shutdown; by rewrite Hc|]. apply select_nil. by apply shutdown_closes.
Qed.
End sessions.

(** ** Witnesses *)

(** A codec of empty requests and unhandled responses: the identifier on eight bytes. *)
Definition demoLinkCodec : LinkCodec := {|
  decodeEnvelope _ := None;
  encodeRequest req := if bool_decide (0 ≤ RQ_ID req < 256 ^ 8 ∧ RQ_Path req = "" ∧ RQ_Body req = [])
                       then Some (putUint 8 (RQ_ID req)) else None;
  decodeRequest p := Some {| RQ_ID := getUint p; RQ_Path := ""; RQ_Body := [] |};
  encodeResponse r := if bool_decide (0 ≤ RS_ID r < 256 ^ 8 ∧ RS_Status r = 404 ∧ RS_Body r = [] ∧ RS_Error r = "not handled"%string)
                      then Some (putUint 8 (RS_ID r)) else None;
  decodeResponse p := Some (notHandled (getUint p));
  decodeDataHeader _ := None;
  decodeAuth _ := None |}.

#[local] Existing Instance demoLinkCodec.

Lemma demoLinkLaws : LinkCodecLaws.
Proof.
  split.
  - intros [id path body] p. simpl. case_bool_decide as H; [|done]. intros [= <-]. destruct H as (Hid & -> & ->).
    do 2 f_equal. change (byteOf _ :: _) with (putUint 8 id). rewrite getUint_putUint. by apply Z.mod_small.
  - intros [id status body err] p. simpl. case_bool_decide as H; [|done]. intros [= <-]. destruct H as (Hid & -> & -> & ->).
    unfold notHandled. do 2 f_equal. change (byteOf _ :: _) with (putUint 8 id). rewrite getUint_putUint. by apply Z.mod_small.
Qed.

Definition alwaysWrites (_ : nat) : option nat := None.

(** A session with one request on its way. *)
Definition demoClient : Session := snd (sendRequest alwaysWrites "" (Some (Some [])) newSession).

Lemma no_write_after_shutdown_witness :
  let s' := shutdown EOF newSession in
  writeErr s' = Some EOF ∧ WriteFrame alwaysWrites requestHeader s' = (Err EOF, s') ∧
  (∃ x, fst (WriteMessage alwaysWrites (Some (bytes_of "{}")) s') = Err x) ∧
  written (snd (WriteMessage alwaysWrites (Some (bytes_of "{}")) s')) = [] ∧
  (∃ x, fst (sendRequest alwaysWrites "" None s') = Err x) ∧ written (snd (sendRequest alwaysWrites "" None s')) = [].
Proof. exact (no_write_after_shutdown alwaysWrites EOF newSession requestHeader (Some (bytes_of "{}")) "" None eq_refl). Defined.

Lemma request_response_witness :
  ∃ c' sent, sendRequest alwaysWrites "" (Some (Some [])) newSession = (Ok 1, c') ∧ written c' = sent ∧
    let srv' := snd (Run alwaysWrites (λ _, None) None sent newSession) in
    chans (snd (RunClient alwaysWrites (λ _ _, None) (written srv') c')) !! 1 = Some (ChFull (notHandled 1)).
Proof.
  destruct (@request_response demoLinkCodec alwaysWrites (λ _, None) None (λ _ _, None) demoLinkLaws "" [] (putUint 8 1) (putUint 8 1)
    newSession newSession) as (c' & sent & H1 & H2 & H3 & _); try done.
  exists c', sent. split_and!; done.
Defined.

Lemma response_correlated_witness :
  let s := snd (clientFrame alwaysWrites (λ _ _, None) {| frameType := 6; flags := 0; payload := putUint 8 1 |} demoClient) in
  RS_ID (notHandled 1) = 1 ∧ 1 ≤ nextReqID s.
Proof.
  cbv zeta. refine (response_correlated alwaysWrites (λ _, None) None (λ _ _, None) _ 1 (notHandled 1) _ _ (select_response _ _ _ _)).
  - eapply rtc_l; [apply step_request|]. apply rtc_once, step_client.
  - vm_compute. reflexivity.
Defined.

Lemma large_message_ends_session_witness :
  let p := replicate (Z.to_nat 1048577) "a"%char in
  ∃ sent, WriteMessage alwaysWrites (Some p) newSession = (Ok (), sent) ∧ ∃ b, written sent = b ∧
    Run alwaysWrites (λ _, None) None (b ++ []) newSession = (ErrFrameTooLarge, shutdown ErrFrameTooLarge newSession).
Proof.
  cbv zeta. apply (large_message_ends_session alwaysWrites (λ _, None) None _ newSession newSession []); [|done..].
  unfold len. rewrite length_replicate. change maxFramePayload with 1048576. change MaxMessageBytes with 16777216. lia.
Defined.

Lemma waiting_request_may_get_nil_witness :
  selects 1 (shutdown EOF demoClient) SessionClosed (shutdown EOF demoClient) ∧
  selects 1 (shutdown EOF demoClient) NilResponse (shutdown EOF demoClient).
Proof. apply (waiting_request_may_get_nil EOF demoClient 1); [reflexivity|]. apply (bool_decide_unpack _). vm_compute. exact I. Defined.
