(* ===== verification/AccessChanges.v ===== *)
(** * Access changes ([internal/store/access_changes.go], [internal/controller/access_changes.go])

    An access change carries an authorization mutation to the servers in three steps:
    prepare deploys the old and the new permissions, activation switches the durable
    state, finalize deploys the new permissions alone.  A worker drives every open change;
    operators retry failed changes and cancel pending ones.

    The rows of [access_changes], [access_change_targets] and the revision pointers of
    [subscription_plans] are the state; each statement or transaction is one step, and the
    steps of different callers interleave.  Deployment (generation of a configuration,
    agent tasks), the effect of the activation of other kinds of changes, and the rows of other
    tables are read from the environment; [log] records activations and queued tasks.  The
    mutex around deployments is not modelled, which only adds interleavings. *)

From S2P Require Import Prelude Model NodeKeys AccessSnapshot Prog.

Local Open Scope Z_scope.
Local Open Scope prog_scope.

(** ** Data *)

Inductive AccessChangeType :=
| AccessChangePlanPublish | AccessChangePlanRestore | AccessChangePlanDisable | AccessChangePlanDelete
| AccessChangeUserBindings | AccessChangeExceptions.

Inductive AccessChangeStatus :=
| AccessChangePreparing | AccessChangeActivating | AccessChangeFinalizing | AccessChangeFinalized
| AccessChangeFailed | AccessChangeCancelled.

Global Instance AccessChangeType_eq_dec : EqDecision AccessChangeType.
Proof. solve_decision. Defined.
Global Instance AccessChangeStatus_eq_dec : EqDecision AccessChangeStatus.
Proof. solve_decision. Defined.

Inductive phase := prepare | finalize.
Global Instance phase_eq_dec : EqDecision phase.
Proof. solve_decision. Defined.

Record AccessChange := {
  AC_ID : Z;
  AC_ChangeType : AccessChangeType;
  AC_SourcePlanID : Z;
  AC_CandidateRevisionID : Z;
  AC_ExpectedActiveRevisionID : Z;
  AC_Status : AccessChangeStatus;
  AC_Kind : string;
  AC_ActivateAt : option Z;
  AC_Error : string;
  AC_ActivatedAt : option Z;
  AC_FinalizedAt : option Z;
  AC_FailedAt : option Z }.

Inductive AccessChangeTargetStatus :=
| AccessChangeTargetPending | AccessChangeTargetPreparing | AccessChangeTargetPrepared
| AccessChangeTargetFinalizing | AccessChangeTargetFinalized | AccessChangeTargetFailed.

Record AccessChangeTarget := {
  TG_ChangeID : Z;
  TG_ServerID : Z;
  TG_PrepareTaskID : Z;
  TG_FinalizeTaskID : Z;
  TG_Status : AccessChangeTargetStatus }.

(** The revision pointers of a plan; 0 is null. *)
Record PlanPointers := { PL_ID : Z; PL_Current : Z; PL_Latest : Z; PL_Pending : Z }.

Inductive CErr :=
| CNoRows | CBusy | CFailure (message : string) | CNotActive | CRevisionConflict | CNotCancellable | CConstraint.

(** What happened outside the tables: the durable state of a change was switched, a
    task of a phase was queued for a server. *)
Inductive cevent :=
| CActivated (change : Z)
| CQueued (change : Z) (ph : phase) (server task : Z).

Record CWorld := {
  changes : list AccessChange;
  targets : list AccessChangeTarget;
  plans : list PlanPointers;
  log : list cevent;
  nextID : Z;
  ctick : nat }.

(** The environment at the tick of a step.  [ce_deploy] is the generation of the
    configuration of a server for a phase: [None] without an agent, otherwise whether it is
    already deployed;
    [ce_activate] the effect of an activation other than a
    publish, whether it took place and its result; [ce_text] the text of an error. *)
Record CEnv := {
  ce_now : nat → Z;
  ce_fails : nat → option CErr;
  ce_text : CErr → string;
  ce_bindings : nat → option CErr;
  ce_server : nat → Z → bool;
  ce_load : nat → AccessChange → phase → option CErr;
  ce_deploy : nat → AccessChange → phase → Z → option (result CErr bool);
  ce_version : nat → option CErr;
  ce_queue : nat → Z → result CErr Z;
  ce_task : nat → Z → result CErr string;
  ce_revisionPlan : nat → Z → option Z;
  ce_migrations : nat → option CErr;
  ce_activate : nat → AccessChange → bool * option CErr;
  ce_credentials : nat → option CErr }.

Definition cbump (w : CWorld) : CWorld :=
  {| changes := changes w; targets := targets w; plans := plans w; log := log w; nextID := nextID w; ctick := S (ctick w) |}.
Definition setChanges (l : list AccessChange) (w : CWorld) : CWorld :=
  {| changes := l; targets := targets w; plans := plans w; log := log w; nextID := nextID w; ctick := ctick w |}.
Definition setTargets (l : list AccessChangeTarget) (w : CWorld) : CWorld :=
  {| changes := changes w; targets := l; plans := plans w; log := log w; nextID := nextID w; ctick := ctick w |}.
Definition setPlans (l : list PlanPointers) (w : CWorld) : CWorld :=
  {| changes := changes w; targets := targets w; plans := l; log := log w; nextID := nextID w; ctick := ctick w |}.
Definition note (e : cevent) (w : CWorld) : CWorld :=
  {| changes := changes w; targets := targets w; plans := plans w; log := log w ++ [e]; nextID := nextID w; ctick := ctick w |}.

(** ** Statements *)

Definition getChange (id : Z) (w : CWorld) : result CErr AccessChange :=
  match List.find (λ c, AC_ID c =? id) (changes w) with Some c => Ok c | None => Err CNoRows end.

(** [order by server_id] *)
Definition listTargets (id : Z) (w : CWorld) : list AccessChangeTarget :=
  sort_slice (ltc (onc TG_ServerID Z.compare)) (List.filter (λ t, TG_ChangeID t =? id) (targets w)).

(** [order by id asc] *)
Definition ListAccessChangesByStatus (statuses : list AccessChangeStatus) (w : CWorld) : list AccessChange :=
  sort_slice (ltc (onc AC_ID Z.compare)) (List.filter (λ c, bool_decide (AC_Status c ∈ statuses)) (changes w)).

(** The row after a transition to a status: the time of the phase, and the error. *)
Definition withStatus (to : AccessChangeStatus) (error : string) (ts : Z) (c : AccessChange) : AccessChange :=
  {| AC_ID := AC_ID c; AC_ChangeType := AC_ChangeType c; AC_SourcePlanID := AC_SourcePlanID c;
     AC_CandidateRevisionID := AC_CandidateRevisionID c; AC_ExpectedActiveRevisionID := AC_ExpectedActiveRevisionID c;
     AC_Status := to; AC_Kind := AC_Kind c; AC_ActivateAt := AC_ActivateAt c; AC_Error := error;
     AC_ActivatedAt := if bool_decide (to = AccessChangeFinalizing) then Some ts else AC_ActivatedAt c;
     AC_FinalizedAt := if bool_decide (to = AccessChangeFinalized) then Some ts else AC_FinalizedAt c;
     AC_FailedAt := if bool_decide (to = AccessChangeFailed) then Some ts else AC_FailedAt c |}.

Definition transitions (id : Z) (from : list AccessChangeStatus) (c : AccessChange) : bool :=
  (AC_ID c =? id) && bool_decide (AC_Status c ∈ from).

Definition UpdateAccessChangeStatus (id : Z) (from : list AccessChangeStatus) (to : AccessChangeStatus) (errorText : string)
    (ts : Z) (w : CWorld) : result CErr unit * CWorld :=
  match from with
  | [] => (Err (CFailure "at least one source status required"), w)
  | _ =>
      let errorText := if (TrimSpace errorText =? "")%string then ""%string else errorText in
      if existsb (transitions id from) (changes w)
      then (Ok (), setChanges ((λ c, if transitions id from c then withStatus to errorText ts c else c) <$> changes w) w)
      else (Err CNotActive, w)
  end.

Definition SetAccessChangeTargetTask (changeID serverID taskID : Z) (ph : phase) (status : AccessChangeTargetStatus) (w : CWorld) : CWorld :=
  setTargets ((λ t, if (TG_ChangeID t =? changeID) && (TG_ServerID t =? serverID)
    then {| TG_ChangeID := TG_ChangeID t; TG_ServerID := TG_ServerID t;
            TG_PrepareTaskID := if bool_decide (ph = finalize) then TG_PrepareTaskID t else taskID;
            TG_FinalizeTaskID := if bool_decide (ph = finalize) then taskID else TG_FinalizeTaskID t;
            TG_Status := status |}
    else t) <$> targets w) w.

Definition isPlanChange (t : AccessChangeType) : bool :=
  match t with AccessChangePlanPublish | AccessChangePlanRestore => true | _ => false end.

Definition MarkAccessChangeCancelled (id : Z) (ts : Z) (w : CWorld) : result CErr unit * CWorld :=
  match getChange id w with
  | Err e => (Err e, w)
  | Ok c =>
      let failedPlanChange := bool_decide (AC_Status c = AccessChangeFailed) && isPlanChange (AC_ChangeType c) in
      let canCancel := bool_decide (AC_Status c = AccessChangePreparing) ||
                       bool_decide (AC_Status c = AccessChangeActivating) || failedPlanChange in
      if negb canCancel || bool_decide (is_Some (AC_ActivatedAt c)) then (Err CNotCancellable, w)
      else
        let error := if bool_decide (AC_Status c = AccessChangeFailed) then AC_Error c else ""%string in
        let rows := (λ r, if transitions id [AC_Status c] r then withStatus AccessChangeCancelled error ts r else r) <$> changes w in
        if isPlanChange (AC_ChangeType c) then
          let pending p := (PL_ID p =? AC_SourcePlanID c) && (PL_Pending p =? AC_CandidateRevisionID c) && negb (PL_Pending p =? 0) in
          if Nat.eqb (length (List.filter pending (plans w))) 1
          then (Ok (), setPlans ((λ p, if pending p
                  then {| PL_ID := PL_ID p; PL_Current := PL_Current p; PL_Latest := PL_Current p; PL_Pending := 0 |}
                  else p) <$> plans w) (setChanges rows w))
          else (Err (CFailure "plan candidate is no longer pending"), w)
        else (Ok (), setChanges rows w)
  end.

(** The transaction of an activation of a plan revision; the candidate must belong to the plan
    and be the one the stored change names.  The migration of traffic periods is part of the
    transaction and not modelled. *)
Definition ActivatePlanVersionGuarded (candidatePlan : option Z) (planID expected candidate changeID : Z) (w : CWorld) : result CErr unit * CWorld :=
  match List.find (λ p, PL_ID p =? planID) (plans w) with
  | None => (Err CNoRows, w)
  | Some p =>
      if negb (PL_Current p =? expected) then (Err CRevisionConflict, w)
      else if negb (bool_decide (candidatePlan = Some planID)) then (Err CRevisionConflict, w)
      else if (0 <? changeID) && match getChange changeID w with
                                 | Ok c => negb (AC_CandidateRevisionID c =? candidate)
                                 | Err _ => false
                                 end then (Err CRevisionConflict, w)
      else (Ok (), note (CActivated changeID) (setPlans ((λ p, if PL_ID p =? planID
             then {| PL_ID := PL_ID p; PL_Current := candidate; PL_Latest := PL_Latest p;
                     PL_Pending := if PL_Pending p =? candidate then 0 else PL_Pending p |}
             else p) <$> plans w) w))
  end.

(** [DetachAndDeleteSubscriptionPlan]: the change itself is detached; the other changes of the
    plan go with it. *)
Definition detached (c : AccessChange) : AccessChange :=
  {| AC_ID := AC_ID c; AC_ChangeType := AC_ChangeType c; AC_SourcePlanID := 0;
     AC_CandidateRevisionID := AC_CandidateRevisionID c; AC_ExpectedActiveRevisionID := AC_ExpectedActiveRevisionID c;
     AC_Status := AC_Status c; AC_Kind := AC_Kind c; AC_ActivateAt := AC_ActivateAt c; AC_Error := AC_Error c;
     AC_ActivatedAt := AC_ActivatedAt c; AC_FinalizedAt := AC_FinalizedAt c; AC_FailedAt := AC_FailedAt c |}.

Definition DetachAndDeleteSubscriptionPlan (planID changeID : Z) (w : CWorld) : CWorld :=
  let rows := (λ c, if (0 <? changeID) && (AC_ID c =? changeID) then detached c else c) <$> changes w in
  let kept := List.filter (λ c, negb (AC_SourcePlanID c =? planID)) rows in
  {| changes := kept;
     targets := List.filter (λ t, existsb (λ c, AC_ID c =? TG_ChangeID t) kept) (targets w);
     plans := List.filter (λ p, negb (PL_ID p =? planID)) (plans w);
     log := log w; nextID := nextID w; ctick := ctick w |}.

Definition ClearPendingRevision (planID expected : Z) (w : CWorld) : CWorld :=
  setPlans ((λ p, if (PL_ID p =? planID) && (PL_Pending p =? expected)
                  then {| PL_ID := PL_ID p; PL_Current := PL_Current p; PL_Latest := PL_Latest p; PL_Pending := 0 |}
                  else p) <$> plans w) w.

(** The row and its targets, with the next identifier; a server that is repeated or unknown
    violates a constraint, and nothing is written. *)
Definition CreateAccessChangeWithPendingBindings (bindings : option CErr) (known : Z → bool) (c : AccessChange) (serverIDs : list Z)
    (w : CWorld) : result CErr AccessChange * CWorld :=
  match bindings with
  | Some e => (Err e, w)
  | None =>
      if negb (bool_decide (NoDup serverIDs)) || negb (forallb known serverIDs) ||
         negb (AC_SourcePlanID c =? 0) && negb (existsb (λ p, PL_ID p =? AC_SourcePlanID c) (plans w))
      then (Err CConstraint, w)
      else
        let row := {| AC_ID := nextID w; AC_ChangeType := AC_ChangeType c; AC_SourcePlanID := AC_SourcePlanID c;
          AC_CandidateRevisionID := AC_CandidateRevisionID c; AC_ExpectedActiveRevisionID := AC_ExpectedActiveRevisionID c;
          AC_Status := AC_Status c; AC_Kind := AC_Kind c; AC_ActivateAt := AC_ActivateAt c; AC_Error := AC_Error c;
          AC_ActivatedAt := None; AC_FinalizedAt := None; AC_FailedAt := None |} in
        (Ok row,
         {| changes := changes w ++ [row];
            targets := targets w ++ ((λ s, {| TG_ChangeID := nextID w; TG_ServerID := s; TG_PrepareTaskID := 0;
                                              TG_FinalizeTaskID := 0; TG_Status := AccessChangeTargetPending |}) <$> serverIDs);
            plans := plans w; log := log w; nextID := nextID w + 1; ctick := ctick w |})
  end.

(** ** Programs *)

Section access_changes.
Context (E : CEnv).

Definition cext {R : Type} (f : nat → R) : prog CWorld R := Call (λ w, (f (ctick w), cbump w)) Ret.

Definition cext_err (f : nat → option CErr) : prog CWorld (result CErr unit) :=
  cext (λ t, match f t with Some e => Err e | None => Ok () end).

(** A statement or a transaction, which fails without effect or is executed. *)
Definition cdb {R : Type} (f : nat → CWorld → result CErr R * CWorld) : prog CWorld (result CErr R) :=
  Call (λ w, match ce_fails E (ctick w) with
             | Some e => (Err e, cbump w)
             | None => let '(r, w') := f (ctick w) w in (r, cbump w')
             end) Ret.

Definition cupdate (id : Z) (from : list AccessChangeStatus) (to : AccessChangeStatus) (text : string) :
    prog CWorld (result CErr unit) :=
  cdb (λ t w, UpdateAccessChangeStatus id from to text (ce_now E t) w).

(** [GetAccessChange]; the callers do not use the targets it also loads. *)
Definition cget (id : Z) : prog CWorld (result CErr AccessChange) := cdb (λ _ w, (getChange id w, w)).
Definition ctargets (id : Z) : prog CWorld (result CErr (list AccessChangeTarget)) := cdb (λ _ w, (Ok (listTargets id w), w)).
Definition csetTask (id server task : Z) (ph : phase) (status : AccessChangeTargetStatus) : prog CWorld (result CErr unit) :=
  cdb (λ _ w, (Ok (), SetAccessChangeTargetTask id server task ph status w)).

(** [queueAgentTask] for one server. *)
Definition cqueue (id : Z) (ph : phase) (server : Z) : prog CWorld (result CErr Z) :=
  Call (λ w, match ce_queue E (ctick w) server with
             | Ok task => (Ok task, cbump (note (CQueued id ph server task) w))
             | Err e => (Err e, cbump w)
             end) Ret.

Definition openStatuses : list AccessChangeStatus :=
  [AccessChangePreparing; AccessChangeActivating; AccessChangeFinalizing].

Definition markAccessChangeFailed (change : AccessChange) (message : string) : prog CWorld (result CErr unit) :=
  cupdate (AC_ID change) openStatuses AccessChangeFailed message.

(** One target of [queueAccessChangePhase]: [prepared] are the servers that need a task. *)
Definition preparePhaseTarget (change : AccessChange) (ph : phase) (target : AccessChangeTarget) (prepared : list Z) :
    prog CWorld (result CErr (list Z)) :=
  let server := TG_ServerID target in
  let! deployed := cext (λ t, ce_deploy E t change ph server) in
  match deployed with
  | Some (Err e) => Ret (Err e)
  | Some (Ok false) => Ret (Ok (prepared ++ [server]))
  | _ => let? _ := csetTask (AC_ID change) server 0 ph AccessChangeTargetPrepared in Ret (Ok prepared)
  end.

Definition queuePhaseTask (change : AccessChange) (ph : phase) (server : Z) (_ : unit) : prog CWorld (result CErr unit) :=
  let? task := cqueue (AC_ID change) ph server in
  csetTask (AC_ID change) server task ph AccessChangeTargetPreparing.

Definition queueAccessChangePhase (change : AccessChange) (ph : phase) : prog CWorld (result CErr Z) :=
  let? _ := cext_err (λ t, ce_load E t change ph) in
  let? ts := ctargets (AC_ID change) in
  let? prepared := each (preparePhaseTarget change ph) ts [] in
  match prepared with
  | [] => Ret (Ok 0)
  | _ =>
      let? _ := cext_err (ce_version E) in
      let? _ := each (queuePhaseTask change ph) prepared () in
      Ret (Ok (Z.of_nat (length prepared)))
  end.

(** [accessChangePhaseDone]: whether the phase is done, and the text of a failure. *)
Fixpoint phaseTasksDone (ph : phase) (ts : list AccessChangeTarget) : prog CWorld (bool * string) :=
  match ts with
  | [] => Ret (true, ""%string)
  | target :: ts =>
      let taskID := if bool_decide (ph = finalize) then TG_FinalizeTaskID target else TG_PrepareTaskID target in
      if taskID =? 0 then phaseTasksDone ph ts
      else
        let! task := cext (λ t, ce_task E t taskID) in
        match task with
        | Err CNoRows => phaseTasksDone ph ts
        | Err e => Ret (false, ce_text E e)
        | Ok status =>
            if (status =? "succeeded")%string then phaseTasksDone ph ts
            else if (status =? "failed")%string
            then Ret (false, ("server " +:+ FormatInt (TG_ServerID target) +:+ " task " +:+ FormatInt taskID +:+ " failed")%string)
            else Ret (false, ""%string)
        end
  end.

Definition accessChangePhaseDone (change : AccessChange) (ph : phase) : prog CWorld (bool * string) :=
  let! ts := ctargets (AC_ID change) in
  match ts with
  | Err e => Ret (false, ce_text E e)
  | Ok ts => phaseTasksDone ph ts
  end.

(** The plan of a publish, read outside the transaction. *)
Definition cplan (id : Z) : prog CWorld (result CErr PlanPointers) :=
  cdb (λ _ w, (match List.find (λ p, PL_ID p =? id) (plans w) with Some p => Ok p | None => Err CNoRows end, w)).

Definition activateAccessChange (change : AccessChange) : prog CWorld (result CErr unit) :=
  if isPlanChange (AC_ChangeType change) then
    let? plan := cplan (AC_SourcePlanID change) in
    if PL_Current plan =? AC_CandidateRevisionID change
    then Call (λ w, (Ok (), cbump (note (CActivated (AC_ID change)) w))) Ret
    else
      let? _ := cext_err (ce_migrations E) in
      let? _ := cdb (λ t w, ActivatePlanVersionGuarded (ce_revisionPlan E t (AC_CandidateRevisionID change))
                    (AC_SourcePlanID change) (AC_ExpectedActiveRevisionID change) (AC_CandidateRevisionID change)
                    (AC_ID change) w) in
      cext_err (ce_credentials E)
  else
    let? _ := Call (λ w, match ce_activate E (ctick w) change with
                         | (_, None) => (Ok (), cbump (note (CActivated (AC_ID change)) w))
                         | (true, Some e) => (Err e, cbump (note (CActivated (AC_ID change)) w))
                         | (false, Some e) => (Err e, cbump w)
                         end) Ret in
    cext_err (ce_credentials E).

Definition isBusy (e : CErr) : bool := match e with CBusy => true | _ => false end.

Definition proceedAccessChangeActivation (change : AccessChange) : prog CWorld (result CErr unit) :=
  let! activated := activateAccessChange change in
  match activated with
  | Err e => if isBusy e then Ret (Ok ()) else markAccessChangeFailed change ("activate: " +:+ ce_text E e)
  | Ok _ =>
      let! queued := queueAccessChangePhase change finalize in
      match queued with
      | Err e => markAccessChangeFailed change ("finalize queue: " +:+ ce_text E e)
      | Ok _ =>
          let! moved := cupdate (AC_ID change) [AccessChangePreparing; AccessChangeActivating] AccessChangeFinalizing "" in
          match moved with
          | Err e => markAccessChangeFailed change (ce_text E e)
          | Ok _ => Ret (Ok ())
          end
      end
  end.

(** [change.ActivateAt != nil && time.Now().Before( *change.ActivateAt)] *)
Definition notYet (change : AccessChange) : prog CWorld bool :=
  match AC_ActivateAt change with
  | None => Ret false
  | Some at_ => cext (λ t, ce_now E t <? at_)
  end.

(** One change of [reconcileAccessChanges]; its errors are only logged. *)
Definition reconcileChange (change : AccessChange) : prog CWorld (result CErr unit) :=
  match AC_Status change with
  | AccessChangePreparing =>
      let! (done, failure) := accessChangePhaseDone change prepare in
      if negb (failure =? "")%string then markAccessChangeFailed change failure
      else if negb done then Ret (Ok ())
      else
        let! early := notYet change in
        if early then cupdate (AC_ID change) [AccessChangePreparing] AccessChangeActivating ""
        else proceedAccessChangeActivation change
  | AccessChangeActivating =>
      let! early := notYet change in
      if early then Ret (Ok ()) else proceedAccessChangeActivation change
  | AccessChangeFinalizing =>
      let! (done, failure) := accessChangePhaseDone change finalize in
      if negb (failure =? "")%string then markAccessChangeFailed change failure
      else if negb done then Ret (Ok ())
      else
        let! deleted :=
          if bool_decide (AC_ChangeType change = AccessChangePlanDelete) && negb (AC_SourcePlanID change =? 0)
          then cdb (λ _ w, (Ok (), DetachAndDeleteSubscriptionPlan (AC_SourcePlanID change) (AC_ID change) w))
          else Ret (Ok ()) in
        match deleted with
        | Err e => markAccessChangeFailed change (ce_text E e)
        | Ok _ => cupdate (AC_ID change) [AccessChangeFinalizing] AccessChangeFinalized ""
        end
  | _ => Ret (Ok ())
  end.

Fixpoint reconcileEach (l : list AccessChange) : prog CWorld unit :=
  match l with
  | [] => Ret ()
  | change :: l => let! _ := reconcileChange change in reconcileEach l
  end.

Definition reconcileAccessChanges : prog CWorld unit :=
  let! found := cdb (λ _ w, (Ok (ListAccessChangesByStatus openStatuses w), w)) in
  match found with
  | Err _ => Ret ()
  | Ok l => reconcileEach l
  end.

Definition retryAccessChange (id : Z) : prog CWorld (result CErr (phase * Z)) :=
  let? change := cget id in
  if negb (bool_decide (AC_Status change = AccessChangeFailed))
  then Ret (Err (CFailure "only failed access changes can be retried"))
  else
    let ph := if bool_decide (is_Some (AC_ActivatedAt change)) then finalize else prepare in
    let? _ := cupdate id [AccessChangeFailed] AccessChangePreparing "" in
    let! _ := if bool_decide (ph = finalize) then cupdate id [AccessChangePreparing] AccessChangeFinalizing ""
              else Ret (Ok ()) in
    let! queued := queueAccessChangePhase change ph in
    match queued with
    | Err e => let! _ := markAccessChangeFailed change ("retry: " +:+ ce_text E e) in Ret (Err e)
    | Ok n => Ret (Ok (ph, n))
    end.

(** The handler of a cancellation, up to its signals and the state of the plan reconciler.
    ([SetPendingIfEmpty] with revision 0 writes nothing new.) *)
Definition accessChangeCancel (id : Z) : prog CWorld (result CErr unit) :=
  let? change := cget id in
  let failedPlanChange := bool_decide (AC_Status change = AccessChangeFailed) &&
    bool_decide (AC_ActivatedAt change = None) && isPlanChange (AC_ChangeType change) in
  if negb (bool_decide (AC_Status change = AccessChangePreparing)) &&
     negb (bool_decide (AC_Status change = AccessChangeActivating)) && negb failedPlanChange
  then Ret (Err CNotCancellable)
  else
    let? _ := cdb (λ t w, MarkAccessChangeCancelled id (ce_now E t) w) in
    if negb (AC_SourcePlanID change =? 0) && negb (AC_CandidateRevisionID change =? 0) then
      let! plan := cplan (AC_SourcePlanID change) in
      match plan with
      | Ok plan =>
          if PL_Pending plan =? AC_CandidateRevisionID change
          then let! _ := cdb (λ _ w, (Ok (), ClearPendingRevision (PL_ID plan) (AC_CandidateRevisionID change) w)) in Ret (Ok ())
          else Ret (Ok ())
      | Err _ => Ret (Ok ())
      end
    else Ret (Ok ()).

(** A draft: the change to create, its projections and the servers they touch.  The kind of
    the change is the classification of its projections. *)
Record accessChangeDraft := {
  DR_change : AccessChange;
  DR_old : AccessProjection;
  DR_finalize : AccessProjection;
  DR_serverIDs : list Z;
  DR_pendingUserIDs : list Z }.

Definition createAccessChange `{!MapRange Z (list Z)} (draft : accessChangeDraft) : prog CWorld (result CErr AccessChange) :=
  let d := DR_change draft in
  let change := {| AC_ID := 0; AC_ChangeType := AC_ChangeType d; AC_SourcePlanID := AC_SourcePlanID d;
    AC_CandidateRevisionID := AC_CandidateRevisionID d; AC_ExpectedActiveRevisionID := AC_ExpectedActiveRevisionID d;
    AC_Status := AccessChangePreparing; AC_Kind := ClassifyProjectionChange (DR_old draft) (DR_finalize draft);
    AC_ActivateAt := AC_ActivateAt d; AC_Error := ""; AC_ActivatedAt := None; AC_FinalizedAt := None; AC_FailedAt := None |} in
  let? change := cdb (λ t w, CreateAccessChangeWithPendingBindings (ce_bindings E t) (ce_server E t) change (DR_serverIDs draft) w) in
  let! queued := queueAccessChangePhase change prepare in
  match queued with
  | Err e =>
      let! _ := cupdate (AC_ID change) [AccessChangePreparing] AccessChangeFailed (ce_text E e) in
      (** [RevertPendingUserPlanBindings] works on the table of bindings. *)
      Ret (Err e)
  | Ok _ => let? _ := ctargets (AC_ID change) in Ret (Ok change)
  end.
End access_changes.
