(* ===== verification/AccessChangeSafety.v ===== *)
(** * Access changes under every interleaving

    The statuses of a change follow a machine, its activation comes before its finalize
    tasks, and both hold whatever the worker, retries, cancellations and creations of changes
    do at the same time: each program is shown to keep the invariant against the others
    ([rg]), and the pool keeps it as a whole. *)

From S2P Require Import Prelude Model NodeKeys AccessSnapshot Prog AccessChanges.

Local Open Scope Z_scope.
Local Open Scope prog_scope.

(** ** The machine *)

Inductive amove : AccessChangeStatus → AccessChangeStatus → Prop :=
| am_activating : amove AccessChangePreparing AccessChangeActivating
| am_finalizing s : s ∈ [AccessChangePreparing; AccessChangeActivating] → amove s AccessChangeFinalizing
| am_finalized : amove AccessChangeFinalizing AccessChangeFinalized
| am_failed s : s ∈ openStatuses → amove s AccessChangeFailed
| am_retried : amove AccessChangeFailed AccessChangePreparing
| am_cancelled s : s ∈ [AccessChangePreparing; AccessChangeActivating; AccessChangeFailed] → amove s AccessChangeCancelled.

(** The evolution of one row: its identity and what it asks for are fixed, its status moves along
    the machine, and an activation is not forgotten. *)
Definition rowmove (c c' : AccessChange) : Prop :=
  AC_ID c' = AC_ID c ∧ AC_ChangeType c' = AC_ChangeType c ∧
  AC_CandidateRevisionID c' = AC_CandidateRevisionID c ∧
  AC_ExpectedActiveRevisionID c' = AC_ExpectedActiveRevisionID c ∧
  rtc amove (AC_Status c) (AC_Status c') ∧
  (is_Some (AC_ActivatedAt c) → is_Some (AC_ActivatedAt c')).

Global Instance rowmove_preorder : PreOrder rowmove.
Proof.
  split.
  - intros c. unfold rowmove. by split_and!.
  - intros a b c (?&?&?&?&?&?) (?&?&?&?&?&?). unfold rowmove.
    split_and!; [congruence..|by etrans|auto].
Qed.

(** What a row and the log owe each other. *)
Record wellformed (l : list cevent) (c : AccessChange) : Prop := {
  wf_activated : AC_Status c ∈ [AccessChangeFinalizing; AccessChangeFinalized] → is_Some (AC_ActivatedAt c);
  wf_logged : is_Some (AC_ActivatedAt c) → CActivated (AC_ID c) ∈ l;
  wf_cancelled : AC_Status c = AccessChangeCancelled → AC_ActivatedAt c = None }.

(** Every queued finalize task comes after an activation of its change. *)
Definition activation_first (l : list cevent) : Prop :=
  ∀ id server task before after,
    l = before ++ CQueued id finalize server task :: after → CActivated id ∈ before.

Record AInv (w : CWorld) : Prop := {
  ai_unique : NoDup (AC_ID <$> changes w);
  ai_bound : Forall (λ c, AC_ID c < nextID w) (changes w);
  ai_rows : Forall (wellformed (log w)) (changes w);
  ai_log : activation_first (log w) }.

(** The evolution of the world. *)
Record AGuar (w w' : CWorld) : Prop := {
  ag_next : nextID w ≤ nextID w';
  ag_log : log w `prefix_of` log w';
  ag_rows : ∀ c', c' ∈ changes w' → AC_ID c' < nextID w → ∃ c, c ∈ changes w ∧ rowmove c c' }.

Global Instance AGuar_preorder : PreOrder AGuar.
Proof.
  split.
  - intros w. split; [done..|]. intros c Hc _. by exists c.
  - intros a b c Hab Hbc. split.
    + pose proof (ag_next _ _ Hab). pose proof (ag_next _ _ Hbc). lia.
    + etrans; [apply (ag_log _ _ Hab)|apply (ag_log _ _ Hbc)].
    + intros r Hr Hid. destruct (ag_rows _ _ Hbc r Hr) as (r1 & Hr1 & Hm1); [pose proof (ag_next _ _ Hab); lia|].
      destruct (ag_rows _ _ Hab r1 Hr1) as (r0 & Hr0 & Hm0); [destruct Hm1 as [Heq _]; lia|].
      exists r0. split; [done|]. by etrans.
Qed.

Lemma logged_later w w' e : AGuar w w' → e ∈ log w → e ∈ log w'.
Proof. intros [_ [l ->] _] He. apply elem_of_app. by left. Qed.

Lemma wellformed_later l e c : wellformed l c → wellformed (l ++ e) c.
Proof. intros [? Hl ?]. split; [done| |done]. intros Ha. apply elem_of_app. auto. Qed.

Lemma activation_first_snoc l e :
  activation_first l → (∀ id server task, e = CQueued id finalize server task → CActivated id ∈ l) →
  activation_first (l ++ [e]).
Proof.
  intros Hl He id server task before after Heq.
  destruct after as [|x after _] using rev_ind.
  - apply app_inj_tail in Heq as [-> ->]. by eapply He.
  - rewrite app_comm_cons, app_assoc in Heq. apply app_inj_tail in Heq as [Heq _]. by eapply Hl.
Qed.

(** ** Steps *)

(** A step of the guarantee from a world of the invariant. *)
Definition astep (w w' : CWorld) : Prop := AInv w → AInv w' ∧ AGuar w w'.

Lemma astep_trans w1 w2 w3 : astep w1 w2 → astep w2 w3 → astep w1 w3.
Proof. intros H12 H23 HI. destruct (H12 HI) as [HI2 HG]. destruct (H23 HI2) as [HI3 HG']. split; [done|by etrans]. Qed.

(** The rows are mapped by an evolution that keeps them well formed. *)
Lemma astep_map w w' (f : AccessChange → AccessChange) :
  changes w' = f <$> changes w → nextID w' = nextID w → log w' = log w →
  (∀ c, AInv w → c ∈ changes w → wellformed (log w) c → rowmove c (f c) ∧ wellformed (log w) (f c)) →
  astep w w'.
Proof.
  intros Hc Hn Hl Hf HI. assert (Hf' := λ c, Hf c HI). clear Hf; rename Hf' into Hf. destruct HI as [Hu Hb Hr Ha]. rewrite Forall_forall in Hb, Hr.
  assert (∀ c, c ∈ changes w → AC_ID (f c) = AC_ID c) as Hid by (intros c Hin; by destruct (Hf c Hin (Hr c Hin)) as [[? _] _]).
  split; split; rewrite ?Hc, ?Hn, ?Hl.
  - replace (AC_ID <$> (f <$> changes w)) with (AC_ID <$> changes w); [done|].
    rewrite <- list_fmap_compose. apply list_fmap_ext. intros i c Hi. symmetry. apply Hid. by eapply list_elem_of_lookup_2.
  - apply Forall_fmap, Forall_forall. intros c Hin. simpl. rewrite Hid by done. by apply Hb.
  - apply Forall_fmap, Forall_forall. intros c Hin. simpl. apply Hf; auto.
  - done.
  - done.
  - done.
  - intros c' (c & -> & Hin)%list_elem_of_fmap _. exists c. split; [done|]. apply Hf; auto.
Qed.

Lemma astep_same w w' :
  changes w' = changes w → nextID w' = nextID w → log w' = log w → astep w w'.
Proof. intros Hc Hn Hl. apply (astep_map w w' id); [by rewrite list_fmap_id|done|done|]. intros c _ _ Hwf. by split. Qed.

Lemma astep_note w e :
  (∀ id server task, e = CQueued id finalize server task → CActivated id ∈ log w) → astep w (note e w).
Proof.
  intros He [Hu Hb Hr Ha]. split; split; simpl; try done.
  - eapply Forall_impl; [exact Hr|]. intros c. apply wellformed_later.
  - by apply activation_first_snoc.
  - by exists [e].
  - intros c Hin _. by exists c.
Qed.

Lemma rowmove_withStatus to text ts c : amove (AC_Status c) to → rowmove c (withStatus to text ts c).
Proof.
  intros Hm. unfold rowmove; simpl. split_and!; try done; [by apply rtc_once|].
  intros Ha. by case_bool_decide.
Qed.

Lemma wellformed_withStatus l to text ts c :
  wellformed l c → amove (AC_Status c) to →
  (to = AccessChangeFinalizing → CActivated (AC_ID c) ∈ l) →
  (to = AccessChangeCancelled → AC_ActivatedAt c = None) →
  wellformed l (withStatus to text ts c).
Proof.
  intros [H1 H2 H3] Hm Hfin Hcan. split; simpl.
  - case_bool_decide; [done|]. intros Hto. apply H1. inversion Hm; subst; set_solver.
  - case_bool_decide; [intros _; by apply Hfin|done].
  - intros ->. simpl. by apply Hcan.
Qed.

Lemma UpdateAccessChangeStatus_astep id from to text ts w r w' :
  UpdateAccessChangeStatus id from to text ts w = (r, w') →
  Forall (λ s, amove s to) from → to ≠ AccessChangeCancelled →
  (to = AccessChangeFinalizing → CActivated id ∈ log w) → astep w w'.
Proof.
  intros Hu Hfrom Hto Hact. unfold UpdateAccessChangeStatus in Hu.
  destruct from as [|s0 from]; [simplify_eq; by apply astep_same|].
  destruct (existsb _ _); simplify_eq; [|by apply astep_same].
  eapply astep_map; [reflexivity..|]. intros c _ Hc Hwf. simpl. rewrite Forall_forall in Hfrom.
  destruct (transitions id (s0 :: from) c) eqn:Ht; [|by split].
  apply andb_true_iff in Ht as [<-%Z.eqb_eq Hs%bool_decide_eq_true].
  split; [by apply rowmove_withStatus, Hfrom|]. apply wellformed_withStatus; auto. done.
Qed.

Lemma getChange_Ok id w c : getChange id w = Ok c → c ∈ changes w ∧ AC_ID c = id.
Proof.
  unfold getChange. destruct (List.find _ _) as [c0|] eqn:Hf; [|done]. intros [= ->].
  apply List.find_some in Hf as [Hin Hid]. split; [by apply list_elem_of_In|by apply Z.eqb_eq].
Qed.

Lemma MarkAccessChangeCancelled_astep id ts w r w' :
  MarkAccessChangeCancelled id ts w = (r, w') → astep w w'.
Proof.
  unfold MarkAccessChangeCancelled. destruct (getChange id w) as [c|e] eqn:Hg; intros Hm; [|simplify_eq; by apply astep_same].
  apply getChange_Ok in Hg as [Hin Hid].
  destruct (negb _ || _) eqn:Hcan in Hm; [simplify_eq; by apply astep_same|].
  apply orb_false_iff in Hcan as [Hcan%negb_false_iff Hnone%bool_decide_eq_false].
  set (rows := _ <$> changes w) in Hm.
  assert (∀ w2, changes w2 = rows → nextID w2 = nextID w → log w2 = log w → astep w w2) as Hstep.
  { intros w2 Hc Hn Hl. eapply astep_map; [exact Hc|done|done|]. intros c' HI Hc' Hwf. simpl.
    destruct (transitions id [AC_Status c] c') eqn:Ht; [|by split].
    apply andb_true_iff in Ht as [Hid'%Z.eqb_eq Hs%bool_decide_eq_true].
    assert (c' = c) as -> by (eapply (NoDup_fmap_key AC_ID); [apply (ai_unique _ HI)|done..|congruence]).
    assert (amove (AC_Status c) AccessChangeCancelled) as Hmove.
    { constructor. revert Hcan. repeat (case_bool_decide as Heq; [rewrite Heq; intros _; set_solver|clear Heq; simpl]). done. }
    split; [by apply rowmove_withStatus|]. apply wellformed_withStatus; [done..|].
    intros _. destruct (AC_ActivatedAt c); [|done]. by destruct Hnone. }
  destruct (isPlanChange _); [destruct (Nat.eqb _ _)|]; simplify_eq; (by apply Hstep) || by apply astep_same.
Qed.

Lemma rowmove_detached c : rowmove c (detached c).
Proof. by unfold rowmove; simpl; split_and!. Qed.

Lemma wellformed_detached l c : wellformed l c → wellformed l (detached c).
Proof. by intros []. Qed.

(** Rows may also disappear. *)
Lemma astep_sublist w w' :
  changes w' `sublist_of` changes w → nextID w' = nextID w → log w' = log w → astep w w'.
Proof.
  intros Hs Hn Hl [Hu Hb Hr Ha].
  assert (∀ c, c ∈ changes w' → c ∈ changes w) as Hsub by (intros c Hc; by eapply elem_of_sublist).
  rewrite Forall_forall in Hb, Hr.
  split; split; rewrite ?Hn, ?Hl; try done.
  - eapply sublist_NoDup; [exact Hu|]. by apply fmap_sublist.
  - apply Forall_forall; auto.
  - apply Forall_forall; auto.
  - intros c Hc _. by exists c; split; [apply Hsub|].
Qed.

Lemma List_filter_sublist {A} (P : A → bool) l : List.filter P l `sublist_of` l.
Proof. induction l as [|x l IH]; simpl; [constructor|]. destruct (P x); by constructor. Qed.

Lemma DetachAndDeleteSubscriptionPlan_astep planID changeID w : astep w (DetachAndDeleteSubscriptionPlan planID changeID w).
Proof.
  apply (astep_trans w (setChanges ((λ c, if (0 <? changeID) && (AC_ID c =? changeID) then detached c else c) <$> changes w) w));
    [|apply astep_sublist; [apply List_filter_sublist|reflexivity..]].
  eapply astep_map; [reflexivity..|]. intros c _ _ Hwf. simpl.
  destruct (_ && _); [|done]. split; [apply rowmove_detached|by apply wellformed_detached].
Qed.

Lemma CreateAccessChange_astep bindings known c serverIDs w r w' :
  CreateAccessChangeWithPendingBindings bindings known c serverIDs w = (r, w') →
  AC_Status c = AccessChangePreparing → astep w w'.
Proof.
  unfold CreateAccessChangeWithPendingBindings. intros Hc Hs.
  destruct bindings; [simplify_eq; by apply astep_same|]. destruct (_ || _); simplify_eq; [by apply astep_same|].
  intros [Hu Hb Hr Ha]. rewrite Forall_forall in Hb. split; split; simpl; try done.
  - rewrite fmap_app. apply NoDup_app. split_and!; [done| |apply NoDup_singleton].
    intros id (c' & -> & Hin)%list_elem_of_fmap Heq%list_elem_of_singleton. specialize (Hb c' Hin). simpl in *. lia.
  - apply Forall_app; split; [|apply Forall_singleton; simpl; lia].
    apply Forall_forall. intros c' Hin. specialize (Hb c' Hin). simpl in *. lia.
  - apply Forall_app; split; [done|]. apply Forall_singleton. split; simpl; rewrite ?Hs; [set_solver|by intros []|done].
  - lia.
  - intros c' [Hin|Heq%list_elem_of_singleton]%elem_of_app; [by exists c'|]. rewrite Heq; simpl; lia.
Qed.

(** ** Programs *)

Section programs.
Context (E : CEnv).

Notation arg := (rg AInv AGuar).
Notation activated id w := (CActivated id ∈ log w).
(** Nothing is known of the result. *)
Notation any := (λ _ _, True).

Lemma astep_bump w : astep w (cbump w).
Proof. by apply astep_same. Qed.

(** One step of a program, its post-condition on the result and the new world. *)
Lemma rg_call {A R} (c : CWorld → R * CWorld) (k : R → prog CWorld A) Q w :
  (∀ w1 r w2, AInv w1 → AGuar w w1 → c w1 = (r, w2) → astep w1 w2 ∧ (AInv w2 → AGuar w w2 → arg (k r) Q w2)) →
  arg (Call c k) Q w.
Proof.
  intros Hc w1 HI HG. destruct (c w1) as [r w2] eqn:Hr. destruct (Hc w1 r w2 HI HG Hr) as [Hs Hk].
  destruct (Hs HI) as [HI2 HG2]. split_and!; [done..|]. apply Hk; [done|by etrans].
Qed.

Lemma rg_ret {A} (a : A) (Q : A → CWorld → Prop) w : (∀ w', AInv w' → AGuar w w' → Q a w') → arg (Ret a) Q w.
Proof. done. Qed.

Lemma rg_cext {R} (f : nat → R) w : arg (cext f) any w.
Proof. apply rg_call. intros w1 r w2 _ _ [= <- <-]. split; [apply astep_bump|]. by intros _ _ w3. Qed.

Lemma rg_cdb {R} (f : nat → CWorld → result CErr R * CWorld) (Q : R → CWorld → Prop) w :
  (∀ t w1 r w2, AInv w1 → AGuar w w1 → f t w1 = (r, w2) →
     astep w1 w2 ∧ ∀ a w3, r = Ok a → AGuar w2 w3 → Q a w3) →
  arg (cdb E f) (λ r w', ∀ a, r = Ok a → Q a w') w.
Proof.
  intros Hf. apply rg_call. intros w1 r w2 HI HG Hc. destruct (ce_fails E _) as [e|].
  - simplify_eq. split; [apply astep_bump|]. by intros _ _ w3.
  - destruct (f _ w1) as [r0 w0] eqn:Hr. simplify_eq. destruct (Hf _ _ _ _ HI HG Hr) as [Hs HQ].
    split; [eapply astep_trans; [exact Hs|apply astep_bump]|].
    intros _ _ w3 HI3 HG3 a Ha. apply HQ; [done|]. etrans; [|exact HG3]. by split; [..|intros c Hc _; exists c].
Qed.

(** Statements that leave the changes and the log alone. *)
Lemma rg_cdb_same {R} (f : nat → CWorld → result CErr R * CWorld) w :
  (∀ t w1, changes (f t w1).2 = changes w1 ∧ nextID (f t w1).2 = nextID w1 ∧ log (f t w1).2 = log w1) →
  arg (cdb E f) any w.
Proof.
  intros Hf. eapply rg_mono; [apply _| |apply (rg_cdb _ any)]; [done|].
  intros t w1 r w2 _ _ Hr. specialize (Hf t w1). rewrite Hr in Hf. destruct Hf as (? & ? & ?). split; [by apply astep_same|done].
Qed.

Lemma rg_cupdate id from to text w :
  Forall (λ s, amove s to) from → to ≠ AccessChangeCancelled → (to = AccessChangeFinalizing → activated id w) →
  arg (cupdate E id from to text) any w.
Proof.
  intros Hfrom Hto Hact. eapply rg_mono; [apply _| |apply (rg_cdb _ any)]; [done|].
  intros t w1 r w2 _ HG Hu. split; [|done]. eapply UpdateAccessChangeStatus_astep; eauto.
  intros ->. eapply logged_later; [exact HG|auto].
Qed.

Lemma rg_markAccessChangeFailed change message w : arg (markAccessChangeFailed E change message) any w.
Proof. apply rg_cupdate; [|done..]. apply Forall_forall. intros s Hs. by constructor. Qed.

Lemma rg_cget id w : arg (cget E id) (λ r w', ∀ c, r = Ok c → AC_ID c = id ∧ (is_Some (AC_ActivatedAt c) → activated id w')) w.
Proof.
  apply rg_cdb. intros t w1 r w2 HI HG [= <- <-]. split; [by apply astep_same|].
  intros c w3 [Hin Hid]%getChange_Ok HG3. split; [done|]. intros Ha. eapply logged_later; [exact HG3|].
  rewrite <- Hid. eapply wf_logged; [|done]. pose proof (ai_rows _ HI) as Hr. rewrite Forall_forall in Hr. by apply Hr.
Qed.

(** The next call of a program, by its lemma; an error ends a [let?]. *)
Ltac rg_then tac :=
  first [eapply rg_try | eapply rg_bind]; [apply _|done|];
  eapply rg_mono; [apply _| |tac];
  let r := fresh "r" in let w' := fresh "w" in let HI := fresh "HI" in let HG := fresh "HG" in let H := fresh "Hr" in
  intros r w' HI HG H; simpl in H.
Ltac rg_done := by intros ? ? ?.

Lemma rg_each {S A} (f : A → S → prog CWorld (result CErr S)) l s (P : CWorld → Prop) w :
  (∀ w w', P w → AGuar w w' → P w') → (∀ x s w, AInv w → P w → arg (f x s) any w) →
  AInv w → P w → arg (each f l s) any w.
Proof.
  intros HP Hf. revert s w; induction l as [|x l IH]; intros s w HI Hw; simpl; [rg_done|].
  rg_then ltac:(apply Hf; done). destruct r; [|done]. apply IH; [done|]. by eapply HP.
Qed.

Lemma rg_cqueue id ph server w : (ph = finalize → activated id w) → arg (cqueue E id ph server) any w.
Proof.
  intros Hact. apply rg_call. intros w1 r w2 _ HG Hc. destruct (ce_queue E _ _); simplify_eq; (split; [|by intros _ _ w3]).
  - eapply astep_trans; [|apply astep_bump]. apply astep_note. intros id' s t [= -> -> -> ->].
    eapply logged_later; [exact HG|auto].
  - apply astep_bump.
Qed.

Lemma rg_csetTask id server task ph status w : arg (csetTask E id server task ph status) any w.
Proof. by apply rg_cdb_same. Qed.

Lemma rg_ctargets id w : arg (ctargets E id) any w.
Proof. by apply rg_cdb_same. Qed.

Lemma rg_preparePhaseTarget change ph target prepared w :
  AInv w → arg (preparePhaseTarget E change ph target prepared) any w.
Proof.
  intros HI. unfold preparePhaseTarget. rg_then ltac:(apply rg_cext).
  destruct r as [[[]|]|]; [|rg_done|rg_done|]; (rg_then ltac:(apply rg_csetTask); destruct r; [rg_done|done]).
Qed.

Lemma rg_queuePhaseTask change ph server u w :
  AInv w → (ph = finalize → activated (AC_ID change) w) → arg (queuePhaseTask E change ph server u) any w.
Proof.
  intros HI Hact. unfold queuePhaseTask. rg_then ltac:(by apply rg_cqueue). destruct r; [|done]. apply rg_csetTask.
Qed.

Lemma rg_queueAccessChangePhase change ph w :
  AInv w → (ph = finalize → activated (AC_ID change) w) → arg (queueAccessChangePhase E change ph) any w.
Proof.
  intros HI Hact. unfold queueAccessChangePhase, cext_err. rg_then ltac:(apply rg_cext). destruct r; [|done].
  rg_then ltac:(apply rg_ctargets). destruct r as [ts|]; [|done].
  rg_then ltac:(apply (rg_each _ _ _ (λ _, True)); auto using rg_preparePhaseTarget).
  destruct r as [[|s prepared]|]; [rg_done| |done]. rg_then ltac:(apply rg_cext). destruct r; [|done].
  assert (ph = finalize → activated (AC_ID change) w3).
  { intros Hf. eapply logged_later; [|by apply Hact]. by do 3 (etrans; [eassumption|]). }
  rg_then ltac:(apply (rg_each _ _ _ (λ w, ph = finalize → activated (AC_ID change) w));
    eauto using logged_later, rg_queuePhaseTask).
  destruct r; [rg_done|done].
Qed.

Lemma rg_phaseTasksDone ph ts w : AInv w → arg (phaseTasksDone E ph ts) any w.
Proof.
  revert w; induction ts as [|target ts IH]; intros w HI; cbn [phaseTasksDone]; [rg_done|].
  destruct (_ =? 0); [by apply IH|]. rg_then ltac:(apply rg_cext).
  destruct r as [status|[]]; try rg_done; [|by apply IH]. destruct (_ =? _)%string; [by apply IH|]. destruct (_ =? _)%string; rg_done.
Qed.

Lemma rg_accessChangePhaseDone change ph w : AInv w → arg (accessChangePhaseDone E change ph) any w.
Proof.
  intros HI. rg_then ltac:(apply rg_ctargets). destruct r; [by apply rg_phaseTasksDone|rg_done].
Qed.

Lemma astep_activated id w : astep w (cbump (note (CActivated id) w)).
Proof. eapply astep_trans; [|apply astep_bump]. by apply astep_note. Qed.

Lemma ActivatePlanVersionGuarded_astep cp p e c id w r w' :
  ActivatePlanVersionGuarded cp p e c id w = (r, w') →
  astep w w' ∧ (∀ u, r = Ok u → activated id w').
Proof.
  unfold ActivatePlanVersionGuarded. intros Ha.
  destruct (List.find _ _); [|simplify_eq; split; [by apply astep_same|done]].
  destruct (negb _) in Ha; [simplify_eq; split; [by apply astep_same|done]|].
  destruct (negb _) in Ha; [simplify_eq; split; [by apply astep_same|done]|].
  destruct (_ && _) in Ha; simplify_eq; [split; [by apply astep_same|done]|].
  split; [|intros u _; simpl; apply elem_of_app; right; by left].
  eapply astep_trans; [|by apply astep_note]. by apply astep_same.
Qed.

Lemma logged_after id w w' : AGuar (cbump (note (CActivated id) w)) w' → activated id w'.
Proof. intros HG. eapply logged_later; [exact HG|]. simpl. apply elem_of_app. right. by left. Qed.

Lemma rg_activatePlan (f : nat → option Z) p e c id w :
  arg (cdb E (λ t w, ActivatePlanVersionGuarded (f t) p e c id w)) (λ r w', ∀ u, r = Ok u → activated id w') w.
Proof.
  apply rg_cdb. intros t w1 r w2 _ _ [Hs Ha]%ActivatePlanVersionGuarded_astep. split; [done|].
  intros u w3 Hok HG3. eapply logged_later; [exact HG3|by eapply Ha].
Qed.

Lemma rg_activateAccessChange change w :
  AInv w → arg (activateAccessChange E change) (λ r w', ∀ u, r = Ok u → activated (AC_ID change) w') w.
Proof.
  intros HI. unfold activateAccessChange, cext_err, cplan. destruct (isPlanChange _).
  - rg_then ltac:(by apply rg_cdb_same). destruct r as [plan|]; [|done]. destruct (_ =? _).
    + apply rg_call. intros w1 r w2 _ _ [= <- <-]. split; [apply astep_activated|]. intros _ _ w3 _ HG3 u _. by eapply logged_after.
    + rg_then ltac:(apply rg_cext). destruct r; [|done].
      rg_then ltac:(apply (rg_activatePlan (λ t, ce_revisionPlan E t (AC_CandidateRevisionID change)))).
      destruct r; [|done]. eapply rg_mono; [apply _| |apply rg_cext]. intros r w3 _ HG3 _ u' _. eapply logged_later; [exact HG3|by eapply Hr1].
  - apply rg_try; [apply _|done|]. apply rg_call. intros w1 r w2 _ _ Hc.
    destruct (ce_activate E _ _) as [[] [e|]]; simplify_eq;
      (split; [apply astep_activated || apply astep_bump|]); try by (intros _ _ w3).
    all: intros _ _ w3 HI3 HG3; eapply rg_mono; [apply _| |apply rg_cext]; intros r w4 _ HG4 _ u' _;
      eapply logged_after; by etrans.
Qed.

Lemma rg_notYet change w : arg (notYet E change) any w.
Proof. unfold notYet. destruct (AC_ActivateAt change); [apply rg_cext|rg_done]. Qed.

Lemma rg_proceedAccessChangeActivation change w : AInv w → arg (proceedAccessChangeActivation E change) any w.
Proof.
  intros HI. unfold proceedAccessChangeActivation. rg_then ltac:(by apply rg_activateAccessChange).
  destruct r as [u|e]; [|destruct (isBusy e); [rg_done|apply rg_markAccessChangeFailed]].
  rg_then ltac:(apply rg_queueAccessChangePhase; [done|]; intros _; by eapply Hr).
  destruct r; [|apply rg_markAccessChangeFailed].
  rg_then ltac:(apply rg_cupdate; [|done|]; [repeat constructor; set_solver|]; intros _; eapply logged_later; [exact HG0|by eapply Hr]).
  destruct r; [rg_done|apply rg_markAccessChangeFailed].
Qed.

Lemma rg_reconcileChange change w : AInv w → arg (reconcileChange E change) any w.
Proof.
  intros HI. unfold reconcileChange. destruct (AC_Status change); try rg_done.
  - rg_then ltac:(by apply rg_accessChangePhaseDone). destruct r as [done failure].
    destruct (negb (_ =? _)%string); [apply rg_markAccessChangeFailed|]. destruct (negb done); [rg_done|].
    rg_then ltac:(apply rg_notYet). destruct r; [|by apply rg_proceedAccessChangeActivation].
    apply rg_cupdate; [repeat constructor|done..].
  - rg_then ltac:(apply rg_notYet). destruct r; [rg_done|by apply rg_proceedAccessChangeActivation].
  - rg_then ltac:(by apply rg_accessChangePhaseDone). destruct r as [done failure].
    destruct (negb (_ =? _)%string); [apply rg_markAccessChangeFailed|]. destruct (negb done); [rg_done|].
    apply rg_bind; [apply _|done|]. apply (rg_mono _ _ _ any).
    + intros [] w1 _ _ _; [|apply rg_markAccessChangeFailed]. apply rg_cupdate; [repeat constructor|done..].
    + destruct (_ && _); [|rg_done]. eapply rg_mono; [apply _| |apply (rg_cdb _ any)]; [done|].
      intros t w1 r w2 _ _ [= <- <-]. split; [apply DetachAndDeleteSubscriptionPlan_astep|done].
Qed.

Lemma rg_reconcileEach l w : AInv w → arg (reconcileEach E l) any w.
Proof.
  revert w; induction l as [|change l IH]; intros w HI; cbn [reconcileEach]; [rg_done|].
  rg_then ltac:(by apply rg_reconcileChange). by apply IH.
Qed.

Lemma rg_reconcileAccessChanges w : AInv w → arg (reconcileAccessChanges E) any w.
Proof.
  intros HI. unfold reconcileAccessChanges. rg_then ltac:(by apply rg_cdb_same).
  destruct r; [by apply rg_reconcileEach|rg_done].
Qed.

Lemma rg_retryAccessChange id w : AInv w → arg (retryAccessChange E id) any w.
Proof.
  intros HI. unfold retryAccessChange. rg_then ltac:(apply rg_cget). destruct r as [change|]; [|done].
  destruct (Hr change eq_refl) as [Hid Hact]. destruct (negb _); [rg_done|].
  set (ph := if bool_decide (is_Some _) then _ else _).
  assert (ph = finalize → activated id w0) as Hph by (unfold ph; case_bool_decide; auto; discriminate).
  clearbody ph.
  rg_then ltac:(apply rg_cupdate; [repeat constructor|done..]). destruct r; [|done].
  assert (ph = finalize → activated id w1) by (intros ->; eapply logged_later; eauto).
  apply rg_bind; [apply _|done|]. apply (rg_mono _ _ _ any).
  - intros r w2 HI2 HG2 _. rg_then ltac:(apply rg_queueAccessChangePhase; [done|]; rewrite Hid; intros ->; eapply logged_later; eauto).
    destruct r0; [rg_done|]. rg_then ltac:(apply rg_markAccessChangeFailed). rg_done.
  - case_bool_decide; [|rg_done]. apply rg_cupdate; [|done|auto]. repeat constructor.
Qed.

Lemma rg_accessChangeCancel id w : AInv w → arg (accessChangeCancel E id) any w.
Proof.
  intros HI. unfold accessChangeCancel, cplan. rg_then ltac:(apply rg_cget). destruct r as [change|]; [|done].
  destruct (_ && _); [rg_done|]. apply rg_try; [apply _|done|]. eapply rg_mono; [apply _| |apply (rg_cdb _ any)].
  - intros [] w1 HI1 _ _; [|done]. destruct (_ && _); [|rg_done]. rg_then ltac:(by apply rg_cdb_same).
    destruct r as [plan|]; [|rg_done]. destruct (_ =? _); [|rg_done]. rg_then ltac:(by apply rg_cdb_same). rg_done.
  - intros t w1 r w2 _ _ Hm. split; [by eapply MarkAccessChangeCancelled_astep|done].
Qed.

Lemma rg_createAccessChange `{!MapRange Z (list Z)} draft w : AInv w → arg (createAccessChange E draft) any w.
Proof.
  intros HI. unfold createAccessChange. apply rg_try; [apply _|done|]. eapply rg_mono; [apply _| |apply (rg_cdb _ any)].
  - intros [change|] w1 HI1 _ _; [|done].
    rg_then ltac:(apply rg_queueAccessChangePhase; [done|discriminate]). destruct r.
    + rg_then ltac:(apply rg_ctargets). destruct r; [rg_done|done].
    + rg_then ltac:(apply rg_cupdate; [|done..]; repeat constructor; set_solver). rg_done.
  - intros t w1 r w2 _ _ Hc. split; [by eapply CreateAccessChange_astep|done].
Qed.
End programs.

(** ** Requests *)

(** What the panel, the workflows and the worker ask of the service; results are dropped. *)
Inductive crequest :=
| CReconcile
| CRetry (id : Z)
| CCancel (id : Z)
| CCreate (draft : accessChangeDraft).

Definition discard {A} (p : prog CWorld A) : prog CWorld unit := let! _ := p in Ret ().

Definition cserve {M : MapRange Z (list Z)} (E : CEnv) (q : crequest) : prog CWorld unit :=
  match q with
  | CReconcile => reconcileAccessChanges E
  | CRetry id => discard (retryAccessChange E id)
  | CCancel id => discard (accessChangeCancel E id)
  | CCreate draft => discard (createAccessChange E draft)
  end.

Lemma rg_discard {A} (p : prog CWorld A) w :
  AInv w → rg AInv AGuar p (λ _ _, True) w → rg AInv AGuar (discard p) (λ _ _, True) w.
Proof. intros HI Hp. apply rg_bind; [apply _|done|]. eapply rg_mono; [apply _| |exact Hp]. by intros ? ? ? ? _ ? ? ?. Qed.

Lemma rg_cserve `{!MapRange Z (list Z)} E q w : AInv w → rg AInv AGuar (cserve E q) (λ _ _, True) w.
Proof.
  intros HI. destruct q; unfold cserve; [|apply rg_discard; [done|]..].
  - by apply rg_reconcileAccessChanges.
  - by apply rg_retryAccessChange.
  - by apply rg_accessChangeCancel.
  - by apply rg_createAccessChange.
Qed.

(** The world reached by any interleaving of any requests. *)
Lemma cserve_pool {M : MapRange Z (list Z)} E qs w ps w' :
  AInv w → rtc pool_step (cserve E <$> qs, w) (ps, w') → AInv w' ∧ AGuar w w'.
Proof.
  intros HI Hsteps. edestruct (rg_pool AInv AGuar (λ (_ : unit) _, True)) as (? & ? & _); [exact HI| |exact Hsteps|done].
  apply Forall_fmap, Forall_forall. intros q _. by apply rg_cserve.
Qed.

(** ** A run with concurrent requests *)

Definition demoMaps : MapRange Z (list Z) := map_range_default Z (list Z).

(** Everything works, every server needs a task, and tasks succeed at once. *)
Definition demoCEnv : CEnv := {|
  ce_now := λ t, Z.of_nat t; ce_fails := λ _, None; ce_text := λ _, "error"%string; ce_bindings := λ _, None;
  ce_server := λ _ _, true; ce_load := λ _ _ _, None; ce_deploy := λ _ _ _ _, Some (Ok false);
  ce_version := λ _, None; ce_queue := λ t _, Ok (100 + Z.of_nat t); ce_task := λ _ _, Ok "succeeded"%string;
  ce_revisionPlan := λ _ _, Some 5; ce_migrations := λ _, None; ce_activate := λ _ _, (true, None);
  ce_credentials := λ _, None |}.

Definition emptyProjection : AccessProjection :=
  {| Proj_InboundUsers := ∅; Proj_ProxyPathUsers := ∅; Proj_UserPolicies := ∅; Proj_PathInboundIDs := ∅ |}.

(** Publication of revision 11 of plan 5, which stands at revision 10. *)
Definition demoDraft : accessChangeDraft := {|
  DR_change := {| AC_ID := 0; AC_ChangeType := AccessChangePlanPublish; AC_SourcePlanID := 5; AC_CandidateRevisionID := 11;
    AC_ExpectedActiveRevisionID := 10; AC_Status := AccessChangePreparing; AC_Kind := ""; AC_ActivateAt := None; AC_Error := "";
    AC_ActivatedAt := None; AC_FinalizedAt := None; AC_FailedAt := None |};
  DR_old := emptyProjection; DR_finalize := emptyProjection; DR_serverIDs := [1; 2]; DR_pendingUserIDs := [] |}.

Definition demoCWorld : CWorld := {|
  changes := []; targets := []; plans := [{| PL_ID := 5; PL_Current := 10; PL_Latest := 11; PL_Pending := 11 |}];
  log := []; nextID := 1; ctick := 0 |}.

Lemma AInv_empty w : changes w = [] → log w = [] → AInv w.
Proof.
  intros Hc Hl. split; rewrite ?Hc, ?Hl; [constructor..|]. intros ? ? ? before ? Heq.
  by destruct before.
Qed.

Definition view (w : CWorld) : list (Z * AccessChangeStatus) * list Z :=
  ((λ c, (AC_ID c, AC_Status c)) <$> changes w, PL_Current <$> plans w).

(** Created, prepared and finalized by two passes. *)
Example demo_finalized :
  view (interleave (repeat 0%nat 30 ++ repeat 1%nat 40 ++ repeat 2%nat 40)
          (cserve (M := demoMaps) demoCEnv <$> [CCreate demoDraft; CReconcile; CReconcile]) demoCWorld).2
  = ([(1, AccessChangeFinalized)], [11]).
Proof. vm_compute. reflexivity. Qed.

(** ** Theorems *)

Lemma amove_terminal s s' : rtc amove s s' → s ∈ [AccessChangeFinalized; AccessChangeCancelled] → s' = s.
Proof.
  intros Hm Hs. induction Hm as [|s s1 s2 Hstep _ _]; [done|].
  inversion Hstep; subst; unfold openStatuses in *; set_solver.
Qed.

Lemma same_row w w' c c' : AInv w → AGuar w w' → c ∈ changes w → c' ∈ changes w' → AC_ID c' = AC_ID c → rowmove c c'.
Proof.
  intros HI HG Hc Hc' Hid. pose proof (ai_bound _ HI) as Hb. rewrite Forall_forall in Hb.
  destruct (ag_rows _ _ HG c' Hc') as (c0 & Hc0 & Hm); [rewrite Hid; by apply Hb|].
  assert (c0 = c) as ->; [|done].
  eapply (NoDup_fmap_key AC_ID); [apply (ai_unique _ HI)|done..|]. destruct Hm as [Hid0 _]. congruence.
Qed.

(** C4. The statuses of an access change follow the machine under every interleaving of
    passes of the worker, retries, cancellations and creations: a change that still exists
    has kept its type, its candidate and the revision it expects, its status is reached by
    the moves of the machine, so that a finalized or cancelled change never changes
    status again, and a recorded activation stays recorded. *)
Theorem access_change_lifecycle {M : MapRange Z (list Z)} E qs w ps w' c c' :
  AInv w → rtc pool_step (cserve E <$> qs, w) (ps, w') →
  c ∈ changes w → c' ∈ changes w' → AC_ID c' = AC_ID c →
  rtc amove (AC_Status c) (AC_Status c') ∧
  (AC_Status c ∈ [AccessChangeFinalized; AccessChangeCancelled] → AC_Status c' = AC_Status c) ∧
  (is_Some (AC_ActivatedAt c) → is_Some (AC_ActivatedAt c') ∧ AC_Status c' ≠ AccessChangeCancelled) ∧
  AC_ChangeType c' = AC_ChangeType c ∧ AC_CandidateRevisionID c' = AC_CandidateRevisionID c ∧
  AC_ExpectedActiveRevisionID c' = AC_ExpectedActiveRevisionID c.
Proof.
  intros HI Hsteps Hc Hc' Hid. destruct (cserve_pool _ _ _ _ _ HI Hsteps) as [HI' HG].
  destruct (same_row _ _ _ _ HI HG Hc Hc' Hid) as (_ & ? & ? & ? & Hm & Ha).
  split_and!; [done|by apply amove_terminal| |done..].
  intros Hs. split; [auto|]. intros Hcan. pose proof (ai_rows _ HI') as Hr. rewrite Forall_forall in Hr.
  destruct (Ha Hs) as [x Hx]. rewrite (wf_cancelled _ _ (Hr c' Hc') Hcan) in Hx. done.
Qed.

(** Finalize tasks are queued only after activation, under every interleaving: in the
    order of events, each task of the finalize phase of a change comes after the switch
    of the durable state of that change; and a change that is finalizing or finalized
    was activated. *)
Theorem finalize_after_activation {M : MapRange Z (list Z)} E qs w ps w' :
  AInv w → rtc pool_step (cserve E <$> qs, w) (ps, w') →
  (∀ id server task before after,
     log w' = before ++ CQueued id finalize server task :: after → CActivated id ∈ before) ∧
  (∀ c, c ∈ changes w' → AC_Status c ∈ [AccessChangeFinalizing; AccessChangeFinalized] →
     is_Some (AC_ActivatedAt c) ∧ CActivated (AC_ID c) ∈ log w').
Proof.
  intros HI Hsteps. destruct (cserve_pool _ _ _ _ _ HI Hsteps) as [[_ _ Hr Hl] _]. split; [exact Hl|].
  rewrite Forall_forall in Hr. intros c Hc Hs. destruct (Hr c Hc) as [H1 H2 _]. auto.
Qed.

(** The two theorems on a creation, two passes of the worker, a retry and a cancellation that interleave. *)
Definition demoPool : list (prog CWorld unit) :=
  cserve (M := demoMaps) demoCEnv <$> [CCreate demoDraft; CReconcile; CReconcile; CCancel 1; CRetry 1].
Definition demoSchedule : list nat := repeat 0%nat 12 ++ repeat 1%nat 14 ++ [3%nat; 4%nat] ++ repeat 1%nat 20.

Definition demoMid : CWorld := (interleave demoSchedule demoPool demoCWorld).2.

Lemma demoMid_inv : AInv demoMid.
Proof. eapply (cserve_pool (M := demoMaps)); [by apply (AInv_empty demoCWorld)|apply interleave_reaches]. Qed.

Definition demoQs : list crequest := [CReconcile; CCancel 1].
Definition demoEnd : list (prog CWorld unit) * CWorld :=
  interleave [1; 0; 0; 0; 0; 1; 0; 0; 0]%nat (cserve (M := demoMaps) demoCEnv <$> demoQs) demoMid.

Lemma access_change_lifecycle_witness :
  ∃ c c', c ∈ changes demoMid ∧ c' ∈ changes demoEnd.2 ∧ AC_Status c = AccessChangeFinalizing ∧
    AC_Status c' = AccessChangeFinalized ∧ rtc amove (AC_Status c) (AC_Status c') ∧ is_Some (AC_ActivatedAt c').
Proof.
  pose proof (λ c c', access_change_lifecycle (M := demoMaps) demoCEnv demoQs demoMid demoEnd.1 demoEnd.2 c c' demoMid_inv
    (interleave_reaches _ _ _)) as H.
  destruct (changes demoMid) as [|c [|]] eqn:Hc; [by vm_compute in Hc| |by vm_compute in Hc].
  destruct (changes demoEnd.2) as [|c' [|]] eqn:Hc'; [by vm_compute in Hc'| |by vm_compute in Hc'].
  vm_compute in Hc, Hc'. injection Hc as <-. injection Hc' as <-.
  eexists _, _. split; [left|]. split; [left|]. split; [reflexivity|]. split; [reflexivity|].
  edestruct H as (H1 & _ & H2 & _); [left|left|reflexivity|]. split; [exact H1|]. apply H2. by eexists.
Defined.

Lemma finalize_after_activation_witness :
  ∃ before after, log demoEnd.2 = before ++ CQueued 1 finalize 1 124 :: after ∧ CActivated 1 ∈ before.
Proof.
  destruct (finalize_after_activation (M := demoMaps) demoCEnv demoQs demoMid demoEnd.1 demoEnd.2 demoMid_inv
    (interleave_reaches _ _ _)) as [H _].
  eexists [CQueued 1 prepare 1 106; CQueued 1 prepare 2 108; CActivated 1], _.
  assert (log demoEnd.2 = [CQueued 1 prepare 1 106; CQueued 1 prepare 2 108; CActivated 1] ++
    CQueued 1 finalize 1 124 :: [CQueued 1 finalize 2 128]) as Hl by (vm_compute; reflexivity).
  split; [exact Hl|]. by eapply H.
Defined.
