(* ===== verification/AccessChangeProgress.v ===== *)
(** * Progress and races of access changes

    With servers that carry out their tasks two passes of the worker finalize every change
    that is due, whatever other changes are open.  Two runs show where the steps of different requests, or the steps of one
    request and a failure, leave a change in a state its documentation excludes. *)

From S2P Require Import Prelude Model NodeKeys AccessSnapshot Prog AccessChanges AccessChangeSafety.

Local Open Scope Z_scope.
Local Open Scope prog_scope.

(** ** An environment without failures *)

Record reliable (E : CEnv) : Prop := {
  rel_fails t : ce_fails E t = None;
  rel_load t c ph : ce_load E t c ph = None;
  rel_deploy t c ph s e : ce_deploy E t c ph s ≠ Some (Err e);
  rel_version t : ce_version E t = None;
  rel_queue t s : ∃ task, ce_queue E t s = Ok task;
  rel_task t id : ce_task E t id = Ok "succeeded"%string ∨ ce_task E t id = Err CNoRows;
  rel_migrations t : ce_migrations E t = None;
  rel_activate t c : (ce_activate E t c).2 = None;
  rel_credentials t : ce_credentials E t = None }.

Definition isOpen (c : AccessChange) : bool := bool_decide (AC_Status c ∈ openStatuses).

(** The plan of a change can take the candidate, or has it. *)
Definition activatable (E : CEnv) (c : AccessChange) (w : CWorld) : Prop :=
  isPlanChange (AC_ChangeType c) = true → AC_SourcePlanID c ≠ 0 ∧
  ∃ p, List.find (λ p, PL_ID p =? AC_SourcePlanID c) (plans w) = Some p ∧
    (PL_Current p = AC_CandidateRevisionID c ∨
     PL_Current p = AC_ExpectedActiveRevisionID c ∧
     ∀ t, ce_revisionPlan E t (AC_CandidateRevisionID c) = Some (AC_SourcePlanID c)).

Definition due (E : CEnv) (c : AccessChange) : Prop :=
  ∀ t a, AC_ActivateAt c = Some a → a ≤ ce_now E t.

(** No other open change concerns the plan of the change. *)
Definition aloneOnPlan (c : AccessChange) (w : CWorld) : Prop :=
  ∀ x, x ∈ changes w → isOpen x = true → AC_ID x ≠ AC_ID c → AC_SourcePlanID x = AC_SourcePlanID c → AC_SourcePlanID c = 0.

(** Steps that leave the changes and the plans alone. *)
Definition calm (w w' : CWorld) : Prop := changes w' = changes w ∧ plans w' = plans w.

Global Instance calm_preorder : PreOrder calm.
Proof. split; [done|]. intros a b c [? ?] [? ?]. split; congruence. Qed.

Section progress.
Context (E : CEnv) (HE : reliable E).

Lemma wp_cext {R} (f : nat → R) (Q : R → CWorld → Prop) w : Q (f (ctick w)) (cbump w) → wp (cext f) Q w.
Proof. done. Qed.

Lemma wp_cext_err f (Q : result CErr unit → CWorld → Prop) w : (∀ t, f t = None) → Q (Ok ()) (cbump w) → wp (cext_err f) Q w.
Proof. intros Hf HQ. apply wp_cext. by rewrite Hf. Qed.

Lemma wp_cdb {R} (f : nat → CWorld → result CErr R * CWorld) Q w :
  (let '(r, w') := f (ctick w) w in Q r (cbump w')) → wp (cdb E f) Q w.
Proof. unfold wp, cdb; simpl. rewrite (rel_fails E HE). by destruct (f _ w). Qed.

(** The result is [Ok] and nothing of interest changed. *)
Definition goes {A} (w : CWorld) (r : result CErr A) (w' : CWorld) : Prop := (∃ a, r = Ok a) ∧ calm w w'.

Lemma wp_goes_try {A B} (p : prog CWorld (result CErr A)) (f : A → prog CWorld (result CErr B)) w :
  wp p (goes w) w → (∀ a w', wp (f a) (goes w') w') → wp (try p f) (goes w) w.
Proof.
  intros Hp Hf. apply wp_try. eapply wp_mono; [|exact Hp]. intros r w1 [[a ->] Hc].
  eapply wp_mono; [|apply Hf]. intros r w2 [? ?]. split; [done|by etrans].
Qed.

Lemma wp_each {S A} (f : A → S → prog CWorld (result CErr S)) l s w :
  (∀ x s w, wp (f x s) (goes w) w) → wp (each f l s) (goes w) w.
Proof. intros Hf. revert s w; induction l; intros s w; cbn [each]; [split; [by eexists|done]|]. by apply wp_goes_try. Qed.

Lemma wp_csetTask id server task ph status w : wp (csetTask E id server task ph status) (goes w) w.
Proof. apply wp_cdb. split; [by eexists|done]. Qed.

Lemma wp_queueAccessChangePhase change ph w : wp (queueAccessChangePhase E change ph) (goes w) w.
Proof.
  apply wp_goes_try; [apply wp_cext_err; [intros t; apply (rel_load E HE)|split; [by eexists|done]]|]. intros _ w1.
  apply wp_goes_try; [apply wp_cdb; split; [by eexists|done]|]. intros ts w2.
  apply wp_goes_try.
  - apply wp_each. intros target prepared w3. apply wp_bind, wp_cext.
    assert (∀ w, goes (A := list Z) w3 (Ok prepared) w ↔ calm w3 w) as Hgoes by (unfold goes; naive_solver).
    destruct (ce_deploy E _ _ _ _) as [[[]|e]|] eqn:Hd; [| |by destruct (rel_deploy E HE _ _ _ _ _ Hd)|];
      [|split; [by eexists|done]|]; apply (wp_mono _ (goes (cbump w3))); try (by intros r w4 []);
      (apply wp_goes_try; [apply wp_csetTask|]; intros _ w4; split; [by eexists|done]).
  - intros [|server prepared] w3; [split; [by eexists|done]|].
    apply wp_goes_try; [apply wp_cext_err; [apply (rel_version E HE)|split; [by eexists|done]]|]. intros _ w4.
    apply wp_goes_try; [|intros _ w5; split; [by eexists|done]].
    apply wp_each. intros s [] w5. apply wp_goes_try; [|intros task w6; apply wp_csetTask].
    unfold wp, cqueue; simpl. destruct (rel_queue E HE (ctick w5) s) as [task ->]. split; [by eexists|done].
Qed.

Lemma wp_phaseTasksDone ph ts w : wp (phaseTasksDone E ph ts) (λ r w', r = (true, ""%string) ∧ calm w w') w.
Proof.
  revert w; induction ts as [|target ts IH]; intros w; cbn [phaseTasksDone]; [done|]. destruct (_ =? 0); [apply IH|].
  apply wp_bind, wp_cext. destruct (rel_task E HE (ctick w) (if bool_decide (ph = finalize) then TG_FinalizeTaskID target else TG_PrepareTaskID target)) as [-> | ->]; apply (IH (cbump w)).
Qed.

Lemma wp_accessChangePhaseDone change ph w :
  wp (accessChangePhaseDone E change ph) (λ r w', r = (true, ""%string) ∧ calm w w') w.
Proof. apply wp_bind, wp_cdb. apply (wp_phaseTasksDone ph _ (cbump w)). Qed.

Lemma wp_notYet change w : due E change → wp (notYet E change) (λ r w', r = false ∧ calm w w') w.
Proof.
  intros Hdue. unfold notYet. destruct (AC_ActivateAt change) as [a|] eqn:Ha; [|done].
  apply wp_cext. split; [|done]. apply Z.ltb_ge. by eapply Hdue.
Qed.
Lemma wp_activateAccessChange change w :
  getChange (AC_ID change) w = Ok change → activatable E change w →
  wp (activateAccessChange E change) (λ r w', r = Ok () ∧ changes w' = changes w) w.
Proof.
  intros Hget Hact. unfold activateAccessChange. destruct (isPlanChange _) eqn:Hplan.
  - destruct (Hact Hplan) as (_ & p & Hp & Hcur). apply wp_try, wp_cdb. rewrite Hp.
    destruct (_ =? _) eqn:Heq; [done|]. apply Z.eqb_neq in Heq. destruct Hcur as [?|[Hcur Hrev]]; [done|].
    apply wp_try, wp_cext_err; [apply (rel_migrations E HE)|]. apply wp_try, wp_cdb. unfold ActivatePlanVersionGuarded. simpl.
    rewrite Hp, Hcur, Z.eqb_refl, Hrev. simpl. rewrite bool_decide_eq_true_2 by done. simpl.
    change (getChange (AC_ID change) (cbump (cbump w))) with (getChange (AC_ID change) w). rewrite Hget, Z.eqb_refl, andb_false_r.
    apply wp_cext_err; [apply (rel_credentials E HE)|done].
  - apply wp_try. unfold wp; simpl. pose proof (rel_activate E HE (ctick w) change) as Ha.
    destruct (ce_activate E _ _) as [b r]. simpl in Ha; subst r. destruct b; by rewrite (rel_credentials E HE).
Qed.

Lemma wp_cupdate id from to text (Q : result CErr unit → CWorld → Prop) w c :
  c ∈ changes w → transitions id from c = true →
  (∀ w' text ts, changes w' = ((λ c, if transitions id from c then withStatus to text ts c else c) <$> changes w) →
     Q (Ok ()) w') →
  wp (cupdate E id from to text) Q w.
Proof.
  intros Hc Ht HQ. apply wp_cdb. unfold UpdateAccessChangeStatus.
  assert (existsb (transitions id from) (changes w) = true) as -> by (apply existsb_exists; eexists; split; [by apply list_elem_of_In|done]).
  destruct from as [|s0 from]; [|by eapply HQ]. unfold transitions in Ht. by rewrite bool_decide_eq_false_2, andb_false_r in Ht by set_solver.
Qed.

Lemma wp_proceedAccessChangeActivation change w :
  getChange (AC_ID change) w = Ok change → activatable E change w →
  AC_Status change ∈ [AccessChangePreparing; AccessChangeActivating] →
  wp (proceedAccessChangeActivation E change) (λ _ w', ∃ text ts,
    changes w' = ((λ c, if transitions (AC_ID change) [AccessChangePreparing; AccessChangeActivating] c
                        then withStatus AccessChangeFinalizing text ts c else c) <$> changes w)) w.
Proof.
  intros Hget Hact Hs. apply wp_bind. eapply wp_mono; [|by apply wp_activateAccessChange]. intros r w1 [-> Hc1].
  apply wp_bind. eapply wp_mono; [|apply wp_queueAccessChangePhase]. intros r w2 [[n ->] [Hc2 _]].
  apply getChange_Ok in Hget as [Hin _]. apply wp_bind. eapply wp_cupdate.
  - rewrite Hc2, Hc1. exact Hin.
  - unfold transitions. by rewrite Z.eqb_refl, bool_decide_eq_true_2.
  - intros w3 text ts Hc3. exists text, ts. by rewrite Hc3, Hc2, Hc1.
Qed.
Lemma getChange_in w c : NoDup (AC_ID <$> changes w) → c ∈ changes w → getChange (AC_ID c) w = Ok c.
Proof.
  intros Hnd Hc. destruct (getChange (AC_ID c) w) as [c'|e] eqn:Hg.
  - apply getChange_Ok in Hg as [Hc' Hid]. f_equal. by eapply (NoDup_fmap_key AC_ID).
  - unfold getChange in Hg. destruct (List.find _ _) eqn:Hf; [done|].
    eapply List.find_none in Hf; [|by apply list_elem_of_In]. by rewrite Z.eqb_refl in Hf.
Qed.

(** The worker activates a due change it has read. *)
Lemma change_activates change w :
  NoDup (AC_ID <$> changes w) → change ∈ changes w →
  AC_Status change ∈ [AccessChangePreparing; AccessChangeActivating] → due E change → activatable E change w →
  wp (reconcileChange E change) (λ _ w', ∃ text ts, withStatus AccessChangeFinalizing text ts change ∈ changes w') w.
Proof.
  intros Hnd Hin Hs Hdue Hact. pose proof (getChange_in w change Hnd Hin) as Hget.
  assert (∀ w1, calm w w1 → wp (proceedAccessChangeActivation E change)
    (λ _ w', ∃ text ts, withStatus AccessChangeFinalizing text ts change ∈ changes w') w1) as Hp.
  { intros w1 [Hc1 Hp1]. eapply wp_mono; [|apply wp_proceedAccessChangeActivation; [|by unfold activatable; rewrite Hp1|done]].
    - intros _ w2 (text & ts & H2). exists text, ts. rewrite H2, Hc1. apply list_elem_of_fmap. exists change. split; [|done].
      unfold transitions. by rewrite Z.eqb_refl, bool_decide_eq_true_2.
    - unfold getChange in *. by rewrite Hc1. }
  unfold reconcileChange. destruct (AC_Status change) eqn:Hst; try (exfalso; clear -Hs; set_solver).
  - apply wp_bind. eapply wp_mono; [|apply wp_accessChangePhaseDone]. intros r w1 [-> Hc1]. simpl.
    apply wp_bind. eapply wp_mono; [|by apply wp_notYet]. intros r w2 [-> Hc2]. apply Hp. by etrans.
  - apply wp_bind. eapply wp_mono; [|by apply wp_notYet]. intros r w2 [-> Hc2]. by apply Hp.
Qed.

(** The worker finalizes a change that it has read as finalizing. *)
Lemma change_finalizes change w :
  0 < AC_ID change → change ∈ changes w → AC_Status change = AccessChangeFinalizing →
  wp (reconcileChange E change) (λ _ w', ∃ c', c' ∈ changes w' ∧ AC_ID c' = AC_ID change ∧ AC_Status c' = AccessChangeFinalized ∧
    (AC_SourcePlanID c' = AC_SourcePlanID change ∨ AC_SourcePlanID c' = 0)) w.
Proof.
  intros Hpos Hin Hs. unfold reconcileChange. rewrite Hs.
  apply wp_bind. eapply wp_mono; [|apply wp_accessChangePhaseDone]. intros r w1 [-> [Hc1 _]]. simpl in Hc1 |- *.
  apply wp_bind. apply (wp_mono _ (λ r w2, r = Ok () ∧ ∃ c, c ∈ changes w2 ∧ AC_ID c = AC_ID change ∧ AC_Status c = AccessChangeFinalizing ∧
    (AC_SourcePlanID c = AC_SourcePlanID change ∨ AC_SourcePlanID c = 0))).
  - intros r w2 [-> (c & Hc & Hid & Hsc & Hsrc)].
    assert (transitions (AC_ID change) [AccessChangeFinalizing] c = true) as Ht.
    { unfold transitions. rewrite Hid, Z.eqb_refl, Hsc. done. }
    eapply wp_cupdate; [exact Hc|exact Ht|]. intros w3 text ts Hc3.
    exists (withStatus AccessChangeFinalized text ts c). rewrite Hc3. split_and!; [|done..].
    apply list_elem_of_fmap. exists c. by rewrite Ht.
  - destruct (_ && _) eqn:Hdel; [|split; [done|]; exists change; rewrite Hc1; auto].
    apply andb_true_iff in Hdel as [_ Hplan]. apply wp_cdb. split; [done|]. simpl.
    rewrite (proj2 (Z.ltb_lt _ _) Hpos).
    exists (detached change). split_and!; [|done|done|by right]. apply list_elem_of_In, List.filter_In. split.
    + apply list_elem_of_In, list_elem_of_fmap. exists change. by rewrite Z.eqb_refl, Hc1.
    + unfold detached; cbn [AC_SourcePlanID]. by rewrite Z.eqb_sym.
Qed.
End progress.

(** ** The other changes of a pass *)

(** The rows are those of before, some of which may be gone; none becomes open, and one that was
    detached from its plan keeps its identifier. *)
Definition prunes (w w' : CWorld) : Prop :=
  (NoDup (AC_ID <$> changes w) → NoDup (AC_ID <$> changes w')) ∧
  ∀ x', x' ∈ changes w' → ∃ x, x ∈ changes w ∧ AC_ID x = AC_ID x' ∧ (isOpen x' = true → isOpen x = true) ∧
    (AC_SourcePlanID x' = AC_SourcePlanID x ∨ AC_SourcePlanID x' = 0).

Global Instance prunes_preorder : PreOrder prunes.
Proof.
  split; [intros w; split; [done|]; intros x Hx; exists x; auto|]. intros w1 w2 w3 [Hn1 H1] [Hn2 H2]. split; [auto|]. intros x3 Hx3.
  destruct (H2 x3 Hx3) as (x2 & Hx2 & Hid2 & Ho2 & Hs2). destruct (H1 x2 Hx2) as (x1 & Hx1 & Hid1 & Ho1 & Hs1).
  exists x1. split_and!; [done|congruence|auto|]. destruct Hs2 as [Hs2|Hs2]; [rewrite Hs2|by right]. destruct Hs1 as [Hs1|Hs1]; auto.
Qed.

(** ... and the row of a change is as it was. *)
Definition retains (c : AccessChange) (w w' : CWorld) : Prop := prunes w w' ∧ (c ∈ changes w → c ∈ changes w').

Global Instance retains_preorder c : PreOrder (retains c).
Proof. split; [by intros w|]. intros w1 w2 w3 [Hp1 H1] [Hp2 H2]. split; [by etrans|auto]. Qed.

(** ... and the plan it publishes too. *)
Definition spares (c : AccessChange) (w w' : CWorld) : Prop :=
  retains c w w' ∧
  (isPlanChange (AC_ChangeType c) = true →
   List.find (λ p, PL_ID p =? AC_SourcePlanID c) (plans w') = List.find (λ p, PL_ID p =? AC_SourcePlanID c) (plans w)).

Global Instance spares_preorder c : PreOrder (spares c).
Proof.
  split; [by intros w|]. intros w1 w2 w3 [H1 Hf1] [H2 Hf2]. split; [by etrans|]. intros Hc. by rewrite Hf2, Hf1.
Qed.

Lemma prunes_fmap (f : AccessChange → AccessChange) w w' :
  (∀ x, AC_ID (f x) = AC_ID x ∧ (isOpen (f x) = true → isOpen x = true) ∧ AC_SourcePlanID (f x) = AC_SourcePlanID x) →
  changes w' = f <$> changes w → prunes w w'.
Proof.
  intros Hf Hc. split.
  - rewrite Hc, <- list_fmap_compose. intros Hnd. erewrite list_fmap_ext; [exact Hnd|]. intros i x _. apply Hf.
  - rewrite Hc. intros x' (x & -> & Hx)%list_elem_of_fmap. exists x. destruct (Hf x) as (? & ? & ?). auto.
Qed.

Lemma prunes_same w w' : changes w' = changes w → prunes w w'.
Proof. intros Hc. apply (prunes_fmap id); [done|]. by rewrite list_fmap_id. Qed.

Section others.
Context (E : CEnv).

(** A relation that the calls outside and the statements below respect. *)
Record respected (R : CWorld → CWorld → Prop) (x : AccessChange) : Prop := {
  rs_same w w' : changes w' = changes w → plans w' = plans w → R w w';
  rs_update from to text ts w : (∀ s, s ∈ from → s ∈ openStatuses) → R w (UpdateAccessChangeStatus (AC_ID x) from to text ts w).2;
  rs_activate cp w : R w (ActivatePlanVersionGuarded cp (AC_SourcePlanID x) (AC_ExpectedActiveRevisionID x) (AC_CandidateRevisionID x) (AC_ID x) w).2;
  rs_delete w : AC_SourcePlanID x ≠ 0 → R w (DetachAndDeleteSubscriptionPlan (AC_SourcePlanID x) (AC_ID x) w) }.

Context (R : CWorld → CWorld → Prop) `{!PreOrder R} (x : AccessChange) (HR : respected R x).

Lemma steps_cext {T} (f : nat → T) : steps_in R (cext f).
Proof. intros w r w' [= <- <-]. split; [by apply (rs_same _ _ HR)|exact I]. Qed.

Lemma steps_cdb {T} (f : nat → CWorld → result CErr T * CWorld) : (∀ t w, R w (f t w).2) → steps_in R (cdb E f).
Proof.
  intros Hf w r w' Hc. split; [|exact I]. destruct (ce_fails E _); [injection Hc as <- <-; by apply (rs_same _ _ HR)|].
  specialize (Hf (ctick w) w). destruct (f _ w) as [r1 w1]. injection Hc as <- <-. etrans; [exact Hf|]. by apply (rs_same _ _ HR).
Qed.

Lemma steps_read {T} (f : nat → CWorld → result CErr T) : steps_in R (cdb E (λ t w, (f t w, w))).
Proof. apply steps_cdb. done. Qed.

Lemma steps_csetTask id server task ph status : steps_in R (csetTask E id server task ph status).
Proof. apply steps_cdb. intros t w. by apply (rs_same _ _ HR). Qed.

Lemma steps_cupdate from to text : (∀ s, s ∈ from → s ∈ openStatuses) → steps_in R (cupdate E (AC_ID x) from to text).
Proof. intros Hf. apply steps_cdb. intros t w. by apply (rs_update _ _ HR). Qed.

Lemma steps_markFailed text : steps_in R (markAccessChangeFailed E x text).
Proof. by apply steps_cupdate. Qed.

Lemma steps_note {T} (f : CWorld → T * CWorld) : (∀ w, changes (f w).2 = changes w ∧ plans (f w).2 = plans w) → steps_in R (Call f Ret).
Proof. intros Hf w r w' Hc. split; [|exact I]. specialize (Hf w). rewrite Hc in Hf. destruct Hf; by apply (rs_same _ _ HR). Qed.

Lemma steps_queuePhase ph : steps_in R (queueAccessChangePhase E x ph).
Proof.
  apply steps_in_try; [apply steps_cext|]. intros _. apply steps_in_try; [apply steps_read|]. intros ts. apply steps_in_try.
  - apply steps_in_each. intros t l. apply steps_in_bind; [apply steps_cext|]. intros [[[]|e]|]; try exact I; (apply steps_in_try; [apply steps_csetTask|done]).
  - intros [|s l]; [exact I|]. apply steps_in_try; [apply steps_cext|]. intros _. apply steps_in_try; [|done]. apply steps_in_each. intros s' u.
    apply steps_in_try; [|intros task; apply steps_csetTask]. apply steps_note. intros w. by destruct (ce_queue E _ _).
Qed.

Lemma steps_phaseDone ph : steps_in R (accessChangePhaseDone E x ph).
Proof.
  apply steps_in_bind; [apply steps_read|]. intros [ts|e]; [|exact I]. induction ts as [|t ts IH]; [exact I|]. cbn [phaseTasksDone].
  destruct (_ =? 0); [done|]. apply steps_in_bind; [apply steps_cext|]. intros [s|[]]; try exact I; [|done]. by repeat destruct (_ =? _)%string.
Qed.

Lemma steps_activate : steps_in R (activateAccessChange E x).
Proof.
  unfold activateAccessChange. destruct (isPlanChange _).
  - apply steps_in_try; [apply steps_read|]. intros p. destruct (_ =? _); [by apply steps_note|].
    apply steps_in_try; [apply steps_cext|]. intros _. apply steps_in_try; [|intros _; apply steps_cext]. apply steps_cdb. intros t w. apply (rs_activate _ _ HR).
  - apply steps_in_try; [|intros _; apply steps_cext]. apply steps_note. intros w. by destruct (ce_activate E _ _) as [[] []].
Qed.

Lemma steps_notYet : steps_in R (notYet E x).
Proof. unfold notYet. destruct (AC_ActivateAt x); [apply steps_cext|exact I]. Qed.

Lemma steps_proceed : steps_in R (proceedAccessChangeActivation E x).
Proof.
  apply steps_in_bind; [apply steps_activate|]. intros [_|e]; [|destruct (isBusy e); [exact I|apply steps_markFailed]].
  apply steps_in_bind; [apply steps_queuePhase|]. intros [_|e]; [|apply steps_markFailed].
  apply steps_in_bind; [apply steps_cupdate; intros s; rewrite elem_of_cons, list_elem_of_singleton; intros [->| ->]; compute_done|].
  intros [_|e]; [exact I|apply steps_markFailed].
Qed.

Lemma steps_reconcileChange : steps_in R (reconcileChange E x).
Proof.
  assert (∀ s, s ∈ openStatuses → ∀ s', s' ∈ [s] → s' ∈ openStatuses) as Hone by (intros s Hs s' ->%list_elem_of_singleton; done).
  unfold reconcileChange. destruct (AC_Status x); try exact I.
  - apply steps_in_bind; [apply steps_phaseDone|]. intros [d f]. destruct (negb _); [apply steps_markFailed|]. destruct (negb d); [exact I|].
    apply steps_in_bind; [apply steps_notYet|]. intros []; [apply steps_cupdate, Hone; compute_done|apply steps_proceed].
  - apply steps_in_bind; [apply steps_notYet|]. intros []; [exact I|apply steps_proceed].
  - apply steps_in_bind; [apply steps_phaseDone|]. intros [d f]. destruct (negb _); [apply steps_markFailed|]. destruct (negb d); [exact I|].
    apply steps_in_bind.
    + destruct (_ && _) eqn:Hd; [|exact I]. apply andb_true_iff in Hd as [_ Hd%negb_true_iff%Z.eqb_neq]. apply steps_cdb. intros t w. by apply (rs_delete _ _ HR).
    + intros [_|e]; [apply steps_cupdate, Hone; compute_done|apply steps_markFailed].
Qed.
End others.

Lemma prunes_update id from to text ts w : (∀ s, s ∈ from → s ∈ openStatuses) → prunes w (UpdateAccessChangeStatus id from to text ts w).2.
Proof.
  intros Hfrom. unfold UpdateAccessChangeStatus. destruct from as [|s0 from]; [done|]. cbv zeta. destruct (existsb _ _); [|done].
  eapply prunes_fmap; [|reflexivity]. intros c. cbv beta. unfold transitions. destruct (_ =? id); [|done]. case_bool_decide as Hin; [|done]. simpl.
  split_and!; [done| |done]. intros _. apply bool_decide_eq_true_2. by apply Hfrom.
Qed.

Lemma prunes_activate cp planID expected candidate id w : prunes w (ActivatePlanVersionGuarded cp planID expected candidate id w).2.
Proof. apply prunes_same. unfold ActivatePlanVersionGuarded. by repeat case_match. Qed.

Lemma prunes_delete planID id w : prunes w (DetachAndDeleteSubscriptionPlan planID id w).
Proof.
  split.
  - intros Hnd. cbn [changes DetachAndDeleteSubscriptionPlan]. apply NoDup_map_filter. rewrite <- list_fmap_compose. erewrite list_fmap_ext; [exact Hnd|].
    intros i c _. simpl. by destruct (_ && _).
  - intros x' Hx. apply list_elem_of_In, List.filter_In in Hx as [Hx%list_elem_of_In _]. apply list_elem_of_fmap in Hx as (x & -> & Hx).
    exists x. destruct (_ && _); simpl; auto.
Qed.

Lemma respected_prunes x : respected prunes x.
Proof.
  split; [|intros; by apply prunes_update|intros; apply prunes_activate|intros; apply prunes_delete].
  intros w w' Hc _. by apply prunes_same.
Qed.

Lemma omap_Some_fmap {A B} (g : A → B) (l : list A) : omap (λ x, Some (g x)) l = g <$> l.
Proof. induction l as [|x l IH]; [done|]. cbn. by rewrite IH. Qed.

Lemma omap_id_filter {A} (f : A → bool) (l : list A) : omap (λ x, if f x then Some x else None) l = List.filter f l.
Proof. induction l as [|x l IH]; [done|]. cbn. destruct (f x); cbn; by rewrite IH. Qed.

(** Another change [x] on another plan retains [c], and spares it. *)
Lemma respected_retains c x :
  AC_ID x ≠ AC_ID c → (AC_SourcePlanID x = AC_SourcePlanID c → AC_SourcePlanID x = 0) → respected (retains c) x.
Proof.
  intros Hid Hsrc. destruct (respected_prunes x) as [H1 H2 H3 H4]. split.
  - intros w w' Hc Hp. split; [by apply H1|by rewrite Hc].
  - intros from to text ts w Hfrom. split; [by apply H2|].
    intros Hc. unfold UpdateAccessChangeStatus. destruct from; [done|]. cbv zeta. destruct (existsb _ _); [|done]. simpl. apply list_elem_of_fmap.
    exists c. split; [|done]. unfold transitions. by rewrite (proj2 (Z.eqb_neq (AC_ID c) (AC_ID x))) by congruence.
  - intros cp w. split; [apply H3|]. intros Hc. unfold ActivatePlanVersionGuarded. by repeat case_match.
  - intros w Hnz. split; [by apply H4|].
    intros Hc. apply list_elem_of_In, List.filter_In. split; [|apply negb_true_iff, Z.eqb_neq; intros Heq; by apply Hnz, Hsrc].
    apply list_elem_of_In, list_elem_of_fmap. exists c. by rewrite (proj2 (Z.eqb_neq (AC_ID c) (AC_ID x))), andb_false_r by congruence.
Qed.

Lemma find_other (f : PlanPointers → option PlanPointers) id id' l :
  id' ≠ id → (∀ p, PL_ID p ≠ id → f p = Some p) → (∀ p p', f p = Some p' → PL_ID p' = PL_ID p) →
  List.find (λ p, PL_ID p =? id') (omap f l) = List.find (λ p, PL_ID p =? id') l.
Proof.
  intros Hne Hf Hid. induction l as [|p l IH]; [done|]. cbn. destruct (decide (PL_ID p = id)) as [He|He].
  - rewrite (proj2 (Z.eqb_neq (PL_ID p) id')) by congruence. destruct (f p) as [p'|] eqn:Hp; [|exact IH]. cbn.
    by rewrite (Hid _ _ Hp), (proj2 (Z.eqb_neq (PL_ID p) id')) by congruence.
  - rewrite Hf by done. cbn. destruct (_ =? _); [done|exact IH].
Qed.

Lemma respected_spares c x :
  AC_ID x ≠ AC_ID c → (AC_SourcePlanID x = AC_SourcePlanID c → AC_SourcePlanID x = 0) →
  (isPlanChange (AC_ChangeType c) = true → AC_SourcePlanID c ≠ 0) → respected (spares c) x.
Proof.
  intros Hid Hsrc Hplan. destruct (respected_retains c x Hid Hsrc) as [H1 H2 H3 H4].
  assert (isPlanChange (AC_ChangeType c) = true → AC_SourcePlanID c ≠ AC_SourcePlanID x) as Hne.
  { intros Hc Heq. apply (Hplan Hc). rewrite Heq. by apply Hsrc. }
  split.
  - intros w w' Hc Hp. split; [by apply H1|by rewrite Hp].
  - intros from to text ts w Hfrom. split; [by apply H2|].
    intros _. unfold UpdateAccessChangeStatus. destruct from; [done|]. cbv zeta. by destruct (existsb _ _).
  - intros cp w. split; [apply H3|]. intros Hc. unfold ActivatePlanVersionGuarded. destruct (List.find _ (plans w)) eqn:Hf; [|done].
    destruct (negb _); [done|]. destruct (negb _); [done|]. destruct (_ && _); [done|]. cbn [snd note setPlans plans]. rewrite <- omap_Some_fmap.
    apply (find_other _ (AC_SourcePlanID x)); [auto| |].
    + intros q Hq. by rewrite (proj2 (Z.eqb_neq _ _) Hq).
    + intros q q' [= <-]. by destruct (_ =? _).
  - intros w Hnz. split; [by apply H4|]. intros Hc. cbn [plans DetachAndDeleteSubscriptionPlan]. rewrite <- (omap_id_filter (λ p, negb (PL_ID p =? AC_SourcePlanID x))).
    apply (find_other _ (AC_SourcePlanID x)); [auto| |].
    + intros q Hq. by rewrite (proj2 (Z.eqb_neq _ _) Hq).
    + intros q q'. destruct (negb _); by intros [= <-].
Qed.

(** ** Passes *)

Section passes.
Context (E : CEnv) (HE : reliable E).

Lemma wp_reconcileEach_app l1 l2 (Q : unit → CWorld → Prop) w :
  wp (reconcileEach E l1) (λ _, wp (reconcileEach E l2) Q) w → wp (reconcileEach E (l1 ++ l2)) Q w.
Proof.
  revert w; induction l1 as [|c l1 IH]; intros w Hp; [done|]. cbn [reconcileEach app] in *. apply wp_bind. unfold wp in Hp at 1.
  rewrite run_bind in Hp. unfold wp at 1. destruct (run (reconcileChange E c) w) as [r w']. by apply IH.
Qed.

Lemma steps_reconcileEach R `{!PreOrder R} l : (∀ x, x ∈ l → respected R x) → steps_in R (reconcileEach E l).
Proof.
  induction l as [|x l IH]; intros Hl; [exact I|]. cbn [reconcileEach]. apply steps_in_bind.
  - apply steps_reconcileChange; [done|]. apply Hl. by constructor.
  - intros _. apply IH. intros y Hy. apply Hl. by constructor.
Qed.

(** A row of the change, on its plan or detached from it. *)
Definition rowOf (c : AccessChange) (P : AccessChange → Prop) (w : CWorld) : Prop :=
  ∃ c', c' ∈ changes w ∧ AC_ID c' = AC_ID c ∧ (AC_SourcePlanID c' = AC_SourcePlanID c ∨ AC_SourcePlanID c' = 0) ∧ P c'.

(** One pass, with a change among those it reads: the others spare it before and after. *)
Lemma wp_pass c w (P : AccessChange → Prop) :
  NoDup (AC_ID <$> changes w) → c ∈ changes w → isOpen c = true → aloneOnPlan c w →
  (isPlanChange (AC_ChangeType c) = true → AC_SourcePlanID c ≠ 0) →
  (∀ w1, spares c w w1 → wp (reconcileChange E c) (λ _, rowOf c P) w1) →
  wp (reconcileAccessChanges E) (λ _ w3, prunes w w3 ∧ rowOf c P w3) w.
Proof.
  intros Hnd Hc Ho Halone Hplan Hown. apply wp_bind, (wp_cdb E HE). set (l := ListAccessChangesByStatus openStatuses w).
  assert (∀ x, x ∈ l ↔ x ∈ changes w ∧ isOpen x = true) as Hl.
  { intros x. unfold l, ListAccessChangesByStatus. by rewrite elem_of_sort_slice, list_elem_of_In, List.filter_In, <- list_elem_of_In. }
  assert (NoDup (AC_ID <$> l)) as Hndl by (unfold l, ListAccessChangesByStatus; rewrite sort_slice_perm; by apply NoDup_map_filter).
  assert (c ∈ l) as (l1 & l2 & Heq)%list_elem_of_split by by apply Hl.
  assert (∀ x, x ∈ l1 ∨ x ∈ l2 → AC_ID x ≠ AC_ID c ∧ (AC_SourcePlanID x = AC_SourcePlanID c → AC_SourcePlanID x = 0)) as Hothers.
  { intros x Hx. assert (x ∈ l) as [Hxw Hxo]%Hl by (rewrite Heq, elem_of_app, elem_of_cons; tauto).
    assert (AC_ID x ≠ AC_ID c) as Hne; [|split; [done|]; intros Hs; rewrite Hs; by apply (Halone x)].
    rewrite Heq, fmap_app, fmap_cons in Hndl. apply NoDup_app in Hndl as (_ & H12 & H2). apply NoDup_cons in H2 as [H2 _]. intros Hid.
    destruct Hx as [Hx|Hx]; [apply (H12 (AC_ID x)); [by apply list_elem_of_fmap_2|rewrite Hid; by constructor]|].
    apply H2. rewrite <- Hid. by apply list_elem_of_fmap_2. }
  assert (spares c w (cbump w)) as Hbump by (split; [split; [by apply prunes_same|done]|done]). clearbody l. subst l. apply wp_reconcileEach_app. eapply (wp_steps_in (spares c)).
  { apply steps_reconcileEach; [apply _|]. intros x Hx. destruct (Hothers x (or_introl Hx)). by apply respected_spares. }
  intros _ w1 H1. assert (spares c w w1) as Hw1 by by etrans. cbn [reconcileEach]. apply wp_bind.
  eapply wp_mono; [|apply wp_conj; [apply Hown; exact Hw1|apply (wp_steps_in prunes _ (λ _, prunes w1)); [apply steps_reconcileChange; [apply _|apply respected_prunes]|done]]].
  intros _ w2 [(c' & Hc' & Hid' & Hsrc' & HP) Hpr].
  eapply (wp_steps_in (retains c')).
  { apply steps_reconcileEach; [apply _|]. intros x Hx. destruct (Hothers x (or_intror Hx)) as [Hne Hs].
    apply respected_retains; [congruence|]. intros Hxs. destruct Hsrc' as [He|He]; [rewrite He in Hxs; auto|congruence]. }
  intros _ w3 [Hpr3 Hin3]. split; [|exists c'; auto]. destruct Hw1 as [[Hpr1 _] _]. etrans; [exact Hpr1|]. by etrans.
Qed.
End passes.

(** C24. A due change is finalized: when statements do not fail, servers generate and carry out
    their tasks, and the plan of a publication stands at the revision the change expects or
    already at the candidate, two passes of the worker take every due change that is alone
    among the open ones on its plan from preparing or activating to finalized, over both of
    its phases, for every type of change, any targets and any other open changes. *)
Theorem due_change_finalized E w change :
  reliable E → AInv w → 0 < AC_ID change → change ∈ changes w →
  AC_Status change ∈ [AccessChangePreparing; AccessChangeActivating] →
  due E change → activatable E change w → aloneOnPlan change w →
  let w1 := (run (reconcileAccessChanges E) w).2 in
  let w2 := (run (reconcileAccessChanges E) w1).2 in
  (∃ c, c ∈ changes w1 ∧ AC_ID c = AC_ID change ∧ AC_Status c = AccessChangeFinalizing ∧ is_Some (AC_ActivatedAt c)) ∧
  (∃ c, c ∈ changes w2 ∧ AC_ID c = AC_ID change ∧ AC_Status c = AccessChangeFinalized).
Proof.
  intros HE HI Hpos Hin Hs Hdue Hact Halone w1 w2. pose proof (ai_unique _ HI) as Hnd.
  assert (isOpen change = true) as Ho by (apply bool_decide_eq_true_2; unfold openStatuses; clear -Hs; set_solver).
  assert (isPlanChange (AC_ChangeType change) = true → AC_SourcePlanID change ≠ 0) as Hplan by (intros Hp; by destruct (Hact Hp)).
  pose proof (wp_pass E HE change w (λ c, ∃ text ts, c = withStatus AccessChangeFinalizing text ts change) Hnd Hin Ho Halone Hplan) as H1.
  unfold wp in H1 at 2. rewrite (surjective_pairing (run _ w)) in H1. fold w1 in H1.
  destruct H1 as [[Hnd1 Hrows1] (c1 & Hc1 & Hid1 & _ & text & ts & Heq1)].
  { intros w' [[[Hnd' _] Hin'] Hfind]. eapply wp_mono; [|apply (change_activates E HE change w'); auto].
    - intros _ w'' (text & ts & H). exists (withStatus AccessChangeFinalizing text ts change). split_and!; [done..|by left|by eexists _, _].
    - intros Hp. rewrite (Hfind Hp). by apply Hact. }
  specialize (Hnd1 Hnd). assert (isOpen c1 = true) as Ho1 by (rewrite Heq1; compute_done).
  split; [exists c1; split_and!; [done..| |]; rewrite Heq1; [done|by eexists]|].
  pose proof (wp_pass E HE c1 w1 (λ c, AC_Status c = AccessChangeFinalized) Hnd1 Hc1 Ho1) as H2.
  unfold wp in H2 at 2. rewrite (surjective_pairing (run _ w1)) in H2. fold w2 in H2.
  destruct H2 as [_ (c2 & Hc2 & Hid2 & _ & Hs2)].
  - intros x Hx Hxo Hne Hsrc. destruct (Hrows1 x Hx) as (y & Hy & Hyid & Hyo & [Hys|Hys]); [|rewrite Heq1 in *; simpl in *; congruence].
    rewrite Heq1 in Hne, Hsrc |- *. simpl in *. apply (Halone y); [done|auto|congruence|congruence].
  - by rewrite Heq1.
  - intros w' [[_ Hin'] _]. eapply wp_mono; [|apply (change_finalizes E HE c1 w'); [lia|auto|by rewrite Heq1]].
    intros _ w'' (c' & ? & ? & ? & ?). by exists c'.
  - exists c2. split_and!; [done|congruence|done].
Qed.

(** ** Runs *)

(** The publication of [demoDraft], created and prepared. *)
Definition demoPrepared : CWorld := (run (createAccessChange (MapRange0 := demoMaps) demoCEnv demoDraft) demoCWorld).2.

Lemma demoPrepared_inv : AInv demoPrepared.
Proof.
  eapply (cserve_pool (M := demoMaps) demoCEnv [CCreate demoDraft] demoCWorld); [by apply AInv_empty|].
  replace demoPrepared with (interleave (repeat 0%nat 12) (cserve (M := demoMaps) demoCEnv <$> [CCreate demoDraft]) demoCWorld).2
    by (vm_compute; reflexivity).
  apply interleave_reaches.
Qed.

Lemma demoCEnv_reliable : reliable demoCEnv.
Proof. split; try done; [by eexists|by left]. Qed.

Lemma due_change_finalized_witness :
  ∃ c, c ∈ changes (run (reconcileAccessChanges demoCEnv) (run (reconcileAccessChanges demoCEnv) demoPrepared).2).2 ∧
       AC_ID c = 1 ∧ AC_Status c = AccessChangeFinalized.
Proof.
  destruct (changes demoPrepared) as [|c l] eqn:Hc; [by vm_compute in Hc|]. destruct l; [|by vm_compute in Hc].
  pose proof (due_change_finalized demoCEnv demoPrepared c demoCEnv_reliable demoPrepared_inv) as H. rewrite Hc in H.
  assert (∀ x, x ∈ [c] → AC_ID x = AC_ID c) as Honly by (by intros x ->%list_elem_of_singleton).
  assert (aloneOnPlan c demoPrepared) as Halone by (intros x; rewrite Hc; intros ?%Honly; done).
  specialize (λ a b d e f, H a b d e f Halone).
  assert (c = default c (head (changes demoPrepared))) as Heq by (rewrite Hc; reflexivity).
  vm_compute in Heq. rewrite Heq in H.
  destruct H as [_ H]; [done|by constructor|left|done| |exact H].
  intros _. split; [done|]. eexists. split; [vm_compute; reflexivity|]. by right.
Defined.

(** A cancelled change can be activated.  The worker reads the change and the plan, the
    cancellation marks the change and drops the candidate, and the worker goes on with what it
    read: the activation compares revisions but not the status of the change.  The
    cancelled change has become the active revision of the plan and its finalize tasks are
    queued. *)
Theorem cancelled_change_activated :
  ∃ w' c p,
    rtc pool_step (cserve (M := demoMaps) demoCEnv <$> [CReconcile; CCancel 1], demoPrepared) ([Ret (); Ret ()], w') ∧
    changes w' = [c] ∧ AC_Status c = AccessChangeCancelled ∧ AC_ActivatedAt c = None ∧
    plans w' = [p] ∧ PL_Current p = AC_CandidateRevisionID c ∧
    (∃ server task, CQueued (AC_ID c) finalize server task ∈ log w').
Proof.
  destruct (interleave (repeat 0%nat 5 ++ repeat 1%nat 6 ++ repeat 0%nat 30)
    (cserve (M := demoMaps) demoCEnv <$> [CReconcile; CCancel 1]) demoPrepared) as [ps w'] eqn:Hrun.
  pose proof (interleave_reaches (repeat 0%nat 5 ++ repeat 1%nat 6 ++ repeat 0%nat 30)
    (cserve (M := demoMaps) demoCEnv <$> [CReconcile; CCancel 1]) demoPrepared) as Hsteps.
  rewrite Hrun in Hsteps. vm_compute in Hrun. injection Hrun as <- <-.
  eexists _, _, _. split; [exact Hsteps|]. split_and!; try reflexivity. eexists _, _. cbn [log AC_ID]. do 3 right. left.
Qed.

(** The text of an error, and a failure of the load of the finalize configuration. *)
Definition finalizeFails : CEnv := {|
  ce_now := ce_now demoCEnv; ce_fails := ce_fails demoCEnv; ce_text := ce_text demoCEnv; ce_bindings := ce_bindings demoCEnv;
  ce_server := ce_server demoCEnv; ce_load := λ _ _ ph, match ph with finalize => Some CBusy | prepare => None end;
  ce_deploy := ce_deploy demoCEnv; ce_version := ce_version demoCEnv; ce_queue := ce_queue demoCEnv; ce_task := ce_task demoCEnv;
  ce_revisionPlan := ce_revisionPlan demoCEnv; ce_migrations := ce_migrations demoCEnv; ce_activate := ce_activate demoCEnv;
  ce_credentials := ce_credentials demoCEnv |}.

(** A retry can repeat the prepare phase of an activated change.  When the finalize tasks
    cannot be queued after the activation, the change fails without a recorded activation,
    which is only written with the status finalizing; the retry then queues the
    prepare phase, which deploys the permissions of the old revision again, although the
    plan stands at the candidate. *)
Theorem retry_repeats_prepare :
  ∃ c p w1 w2 n,
    run (reconcileAccessChanges finalizeFails) demoPrepared = ((), w1) ∧
    changes w1 = [c] ∧ AC_Status c = AccessChangeFailed ∧ AC_ActivatedAt c = None ∧
    plans w1 = [p] ∧ PL_Current p = AC_CandidateRevisionID c ∧ CActivated (AC_ID c) ∈ log w1 ∧
    run (retryAccessChange finalizeFails (AC_ID c)) w1 = (Ok (prepare, n), w2) ∧ n = 2.
Proof.
  eexists _, _, _, _, _. split; [vm_compute; reflexivity|]. split; [reflexivity|]. split_and!; try reflexivity. do 2 right. left.
Qed.
