(* ===== verification/NetAddr.v ===== *)
(** * Addresses of [net/netip]

    The parser of textual addresses and the predicates on them, as far as the listener
    model uses them.  An IPv6 address is the list of its eight 16-bit groups with its
    zone. *)

From S2P Require Import Prelude.

Local Open Scope Z_scope.

Inductive Addr :=
| Addr4 (fields : list Z)
| Addr6 (groups : list Z) (zone : string).

Global Instance Addr_eq_dec : EqDecision Addr.
Proof. solve_decision. Defined.

Definition isDot (c : ascii) : bool := byte_of c =? 46.
Definition isColon (c : ascii) : bool := byte_of c =? 58.
Definition isPercent (c : ascii) : bool := byte_of c =? 37.
Definition digitOf (c : ascii) : option Z :=
  if (48 <=? byte_of c) && (byte_of c <=? 57) then Some (byte_of c - 48) else None.
Definition hexOf (c : ascii) : option Z :=
  match digitOf c with
  | Some d => Some d
  | None =>
      if (97 <=? byte_of c) && (byte_of c <=? 102) then Some (byte_of c - 87)
      else if (65 <=? byte_of c) && (byte_of c <=? 70) then Some (byte_of c - 55)
      else None
  end.

(** [parseIPv4Fields]: the fields that are complete, the value and the length of the current one. *)
Fixpoint parseIPv4Fields (s : list ascii) (fields : list Z) (val : Z) (digLen : nat) : option (list Z) :=
  match s with
  | [] => if Nat.ltb (length fields) 3 then None else Some (fields ++ [val])
  | c :: s =>
      match digitOf c with
      | Some d =>
          if Nat.eqb digLen 1 && (val =? 0) then None
          else if 255 <? val * 10 + d then None
          else parseIPv4Fields s fields (val * 10 + d) (S digLen)
      | None =>
          if isDot c then
            if Nat.eqb digLen 0 || bool_decide (s = []) then None
            else if Nat.eqb (length fields) 3 then None
            else parseIPv4Fields s (fields ++ [val]) 0 0
          else None
      end
  end.

(** The hexadecimal number at the front: its length, its value and the rest; more than
    four digits fail. *)
Fixpoint hexGroup (s : list ascii) (off : nat) (acc : Z) : option (nat * Z * list ascii) :=
  match s with
  | [] => Some (off, acc, [])
  | c :: s' =>
      match hexOf c with
      | None => Some (off, acc, s)
      | Some d => if Nat.ltb 3 off then None else hexGroup s' (S off) (acc * 16 + d)
      end
  end.

(** The loop of [parseIPv6], at most [room] more groups: the groups, the position of the
    ellipsis and the rest of the text. *)
Fixpoint ipv6Groups (room : nat) (s : list ascii) (groups : list Z) (ellipsis : option nat) :
    option (list Z * option nat * list ascii) :=
  match room with
  | O => Some (groups, ellipsis, s)
  | S room =>
      match hexGroup s 0 0 with
      | None | Some (O, _, _) => None
      | Some (_, acc, []) => Some (groups ++ [acc], ellipsis, [])
      | Some (_, acc, c :: rest) =>
          if isDot c then
            if bool_decide (ellipsis = None) && negb (Nat.eqb (length groups) 6) then None
            else if Nat.ltb 8 (length groups + 2) then None
            else match parseIPv4Fields s [] 0 0 with
                 | Some [a; b; d; e] => Some (groups ++ [a * 256 + b; d * 256 + e], ellipsis, [])
                 | _ => None
                 end
          else if negb (isColon c) then None
          else match rest with
               | [] => None
               | c2 :: rest2 =>
                   let groups := groups ++ [acc] in
                   if isColon c2 then
                     match ellipsis with
                     | Some _ => None
                     | None =>
                         match rest2 with
                         | [] => Some (groups, Some (length groups), [])
                         | _ => ipv6Groups room rest2 groups (Some (length groups))
                         end
                     end
                   else ipv6Groups room rest groups ellipsis
               end
      end
  end.

(** Before the first percent sign, and after it. *)
Fixpoint cutZone (s : list ascii) : list ascii * option (list ascii) :=
  match s with
  | [] => ([], None)
  | c :: s => if isPercent c then ([], Some s) else let '(a, z) := cutZone s in (c :: a, z)
  end.

Definition parseIPv6 (text : list ascii) : option Addr :=
  let '(s, zone) := cutZone text in
  if bool_decide (zone = Some []) then None
  else
    let zone := of_bytes (default [] zone) in
    let '(s, ellipsis) :=
      match s with
      | c1 :: c2 :: s' => if isColon c1 && isColon c2 then (s', Some 0%nat) else (s, None)
      | _ => (s, None)
      end in
    if bool_decide (ellipsis = Some 0%nat) && bool_decide (s = []) then Some (Addr6 (repeat 0 8) zone)
    else
      match ipv6Groups 8 s [] ellipsis with
      | Some (groups, ellipsis, []) =>
          if Nat.ltb (length groups) 8 then
            match ellipsis with
            | None => None
            | Some e => Some (Addr6 (take e groups ++ repeat 0 (8 - length groups) ++ drop e groups) zone)
            end
          else match ellipsis with Some _ => None | None => Some (Addr6 groups zone) end
      | _ => None
      end.

(** [ParseAddr] decides by the first dot, colon or percent sign. *)
Fixpoint addrKind (s : list ascii) : option ascii :=
  match s with
  | [] => None
  | c :: s => if isDot c || isColon c || isPercent c then Some c else addrKind s
  end.

Definition ParseAddr (s : string) : option Addr :=
  let text := bytes_of s in
  match addrKind text with
  | Some c => if isDot c then Addr4 <$> parseIPv4Fields text [] 0 0
              else if isColon c then parseIPv6 text else None
  | None => None
  end.

(** An IPv4-mapped IPv6 address becomes the IPv4 address; the zone is dropped. *)
Definition Unmap (a : Addr) : Addr :=
  match a with
  | Addr6 [0; 0; 0; 0; 0; 65535; x; y] _ => Addr4 [x `div` 256; x `mod` 256; y `div` 256; y `mod` 256]
  | _ => a
  end.

Definition IsUnspecified (a : Addr) : bool :=
  bool_decide (a = Addr4 [0; 0; 0; 0]) || bool_decide (a = Addr6 (repeat 0 8) "").
Definition Is4 (a : Addr) : bool := match a with Addr4 _ => true | _ => false end.
Definition Is6 (a : Addr) : bool := match a with Addr6 _ _ => true | _ => false end.

Example ParseAddr_ex :
  ParseAddr "10.0.0.255" = Some (Addr4 [10; 0; 0; 255]) ∧ ParseAddr "10.0.0.256" = None ∧
  ParseAddr "10.00.0.1" = None ∧ ParseAddr "1.2.3" = None ∧ ParseAddr "host" = None ∧
  ParseAddr "::" = Some (Addr6 (repeat 0 8) "") ∧
  ParseAddr "2001:DB8::1" = Some (Addr6 [8193; 3512; 0; 0; 0; 0; 0; 1] "") ∧
  ParseAddr "fe80::1%eth0" = Some (Addr6 [65152; 0; 0; 0; 0; 0; 0; 1] "eth0") ∧
  ParseAddr "1:2:3:4:5:6:7::" = Some (Addr6 [1; 2; 3; 4; 5; 6; 7; 0] "") ∧
  ParseAddr "1:2:3:4:5:6:7:8::" = None ∧ ParseAddr "1::2::3" = None ∧ ParseAddr "12345::" = None ∧
  ParseAddr "1:2:3:4:5:6:1.2.3.4" = Some (Addr6 [1; 2; 3; 4; 5; 6; 258; 772] "") ∧
  (Unmap <$> ParseAddr "::ffff:192.0.2.1") = Some (Addr4 [192; 0; 2; 1]).
Proof. vm_compute. repeat split. Qed.
