(* ===== verification/ListenResources.v ===== *)
(** * Listen resources and port allocation
    ([core/listen_resources.go], [core/port_policy.go], [core/proxy_paths.go], [core/protocols.go])

    A listener occupies an address, a port and a set of transports on a server.  One
    conflict predicate serves the allocation of ports for generated listeners and the check
    of a whole deployment. *)

From S2P Require Import Prelude Model NetAddr.

Local Open Scope Z_scope.
Local Open Scope go_scope.

(** ** Decoded configuration *)

(** A decoded JSON value.  Of a number its conversion to [int] is used, and whether it is
    positive, which a number strictly between 0 and 1 is although it converts to 0. *)
Inductive JSON :=
| JNull
| JBool (b : bool)
| JNumber (n : Z)
| JFraction
| JString (s : string)
| JArray (l : list JSON)
| JObject (l : list (string * JSON)).

Record TunnelConfig := {
  TC_ManagedPair : bool;
  TC_Role : string;
  TC_ServerPort : Z;
  TC_LocalForward : string }.

(** [json.Unmarshal] into a map, into the inbounds of a [SingBoxConfig], and into the
    structure of a tunnel, which keeps what it could decode. *)
Class ListenDecoder := {
  decode_object : string → option (gmap string JSON);
  decode_inbounds : string → option (list (gmap string JSON));
  decode_tunnel : string → TunnelConfig }.

Definition stringFromAny (v : option JSON) : string := match v with Some (JString s) => s | _ => ""%string end.
Definition intFromAny (v : option JSON) : Z :=
  match v with
  | Some (JNumber n) => n
  | Some (JString s) => default 0 (ParseInt s)
  | _ => 0
  end.
Definition stringValue (m : gmap string JSON) (key fallback : string) : string :=
  match m !! key with
  | Some (JString v) => if (v =? "")%string then fallback else v
  | _ => fallback
  end.

(** [strings.EqualFold] with a lower-case ASCII constant without the letters k and s. *)
Definition EqualFold (s constant : string) : bool := (of_bytes (lower_byte <$> bytes_of s) =? constant)%string.

Definition firstNonEmpty (values : list string) : string :=
  match List.find (λ v, negb (TrimSpace v =? "")%string) values with Some v => TrimSpace v | None => ""%string end.

(** ** Owners and errors *)

(** What the text of an owner is made of. *)
Inductive listenOwner :=
| OwnerCore (tag : string)
| OwnerInbound (name : string) (id : Z)
| OwnerCandidate (name : string)
| OwnerManaged (kind scope : string)
| OwnerForward (name : string) (id : Z)
| OwnerWireGuard (name : string) (id : Z)
| OwnerSSHServer (name : string) (id : Z)
| OwnerSSHForward (name : string) (id : Z)
| OwnerSSHInbound (name : string) (id : Z).

Inductive ListenErr :=
| ErrInvalidPort (port : Z)
| ErrDecode
| ErrMieruRange (text : string)
| ErrMieruMax
| ErrMieruNone
| ErrMieruValue
| ErrListenConflict (serverID : Z) (transport address : string) (port : Z) (owner other : listenOwner)
| ErrListenReserved (address : string) (port : Z) (transport : string) (owner : listenOwner).

(** ** Mieru ports *)

Definition MieruMaxPorts : nat := 64.
Definition validPort (port : Z) : bool := (1 <=? port) && (port <=? 65535).
Definition ValidatePort (port : Z) : result ListenErr unit := fail_if ((port <? 1) || (65535 <? port)) (ErrInvalidPort port).

(** Before the first dash and after it. *)
Fixpoint cutDash (l : list ascii) : option (list ascii * list ascii) :=
  match l with
  | [] => None
  | c :: l => if byte_of c =? 45 then Some ([], l)
              else match cutDash l with Some (a, b) => Some (c :: a, b) | None => None end
  end.

(** The ports [port], [port + 1], ..., [n] of them, with the bound on the whole set. *)
Fixpoint addPorts (n : nat) (port : Z) (ports : gset Z) : result ListenErr (gset Z) :=
  match n with
  | O => Ok ports
  | S n =>
      let ports := {[port]} ∪ ports in
      if Nat.ltb MieruMaxPorts (size ports) then Err ErrMieruMax else addPorts n (port + 1) ports
  end.

(** The bounds of one range, as text and as numbers. *)
Definition mieruRange (value : string) : result ListenErr (Z * Z) :=
  match cutDash (bytes_of value) with
  | None => Err (ErrMieruRange value)
  | Some (startText, endText) =>
      if bool_decide (startText = []) || bool_decide (endText = []) || bool_decide (is_Some (cutDash endText)) ||
         negb (TrimSpace value =? value)%string
      then Err (ErrMieruRange value)
      else match ParseInt (of_bytes startText), ParseInt (of_bytes endText) with
           | Some start, Some end_ =>
               if is_ok (ValidatePort start) && is_ok (ValidatePort end_) && (start <=? end_)
               then Ok (start, end_) else Err (ErrMieruRange value)
           | _, _ => Err (ErrMieruRange value)
           end
  end.

Definition mieruRangeStep (value : string) (ports : gset Z) : result ListenErr (gset Z) :=
  let* (start, end_) := mieruRange value in
  addPorts (Z.to_nat (end_ - start + 1)) start ports.

Definition mieruPortRangeStrings (value : option JSON) : result ListenErr (list string) :=
  match value with
  | None | Some JNull => Ok []
  | Some (JString s) => Ok [s]
  | Some (JArray l) => foldM (λ item out, match item with JString s => Ok (out ++ [s]) | _ => Err ErrMieruValue end) l []
  | _ => Err ErrMieruValue
  end.

Definition mieruPortsFromValue (primary : Z) (value : option JSON) : result ListenErr (list Z) :=
  let* _ := if primary =? 0 then Ok () else ValidatePort primary in
  let* ranges := mieruPortRangeStrings value in
  let* ports := foldM mieruRangeStep ranges (if primary =? 0 then ∅ else {[primary]}) in
  if bool_decide (ports = ∅) then Err ErrMieruNone
  else Ok (sort_ints (elements ports)).

(** The ranges of [ports] after [start .. end_], the run that is open. *)
Fixpoint compressRun (start end_ : Z) (ports : list Z) : list string :=
  match ports with
  | [] => [(FormatInt start +:+ "-" +:+ FormatInt end_)%string]
  | port :: ports =>
      if port =? end_ + 1 then compressRun start port ports
      else (FormatInt start +:+ "-" +:+ FormatInt end_)%string :: compressRun port port ports
  end.
Definition compressMieruPorts (ports : list Z) : list string :=
  match ports with [] => [] | start :: ports => compressRun start start ports end.

Definition normalizeMieruTransport (value : string) : string :=
  if (ToUpper (TrimSpace value) =? "UDP")%string then "UDP" else "TCP".

(** ** Listen resources *)

Definition listenTCP : Z := 1.
Definition listenUDP : Z := 2.

Record listenResource := {
  lr_serverID : Z;
  lr_address : string;
  lr_port : Z;
  lr_protocol : Z;
  lr_owner : listenOwner }.

Definition normalizeListenAddress (address : string) : string :=
  let address := TrimSpace address in if (address =? "")%string then "0.0.0.0" else address.

Definition listenAddressesOverlap (left right : string) : bool :=
  let left := normalizeListenAddress left in
  let right := normalizeListenAddress right in
  if (left =? "*")%string || (right =? "*")%string then true
  else match ParseAddr left, ParseAddr right with
       | Some leftAddr, Some rightAddr =>
           let leftAddr := Unmap leftAddr in
           let rightAddr := Unmap rightAddr in
           if IsUnspecified leftAddr && IsUnspecified rightAddr then true
           else if IsUnspecified leftAddr then Is6 leftAddr || Is4 rightAddr
           else if IsUnspecified rightAddr then Is6 rightAddr || Is4 leftAddr
           else bool_decide (leftAddr = rightAddr)
       | _, _ => (left =? right)%string
       end.

Definition conflicts (r other : listenResource) : bool :=
  (lr_serverID r =? lr_serverID other) && (lr_port r =? lr_port other) &&
  negb (Z.land (lr_protocol r) (lr_protocol other) =? 0) &&
  listenAddressesOverlap (lr_address r) (lr_address other).

Definition listenTransportName (protocol : Z) : string :=
  if protocol =? listenTCP then "tcp" else if protocol =? listenUDP then "udp" else "tcp+udp".

Definition conflictError (r other : listenResource) : ListenErr :=
  ErrListenConflict (lr_serverID r) (listenTransportName (Z.land (lr_protocol r) (lr_protocol other)))
    (normalizeListenAddress (lr_address r)) (lr_port r) (lr_owner r) (lr_owner other).

(** The resources before the current one, then the rest. *)
Fixpoint validateFrom (before resources : list listenResource) : result ListenErr unit :=
  match resources with
  | [] => Ok ()
  | r :: resources =>
      match List.find (conflicts r) before with
      | Some other => Err (conflictError r other)
      | None => validateFrom (before ++ [r]) resources
      end
  end.
Definition validateListenResources (resources : list listenResource) : result ListenErr unit := validateFrom [] resources.

Definition portForwardListenTransport (protocol : string) : Z :=
  if (protocol =? ForwardProtocolTCP)%string then listenTCP
  else if (protocol =? ForwardProtocolUDP)%string then listenUDP
  else Z.lor listenTCP listenUDP.

Definition forwardNetworkName (protocol : string) : string :=
  if (protocol =? ForwardProtocolTCP)%string then "tcp"
  else if (protocol =? ForwardProtocolUDP)%string then "udp" else "tcp_udp".

(** The transports of an inbound of the generated configuration. *)
Definition singBoxInboundListenTransport (inbound : gmap string JSON) : Z :=
  let type_ := ToLower (TrimSpace (stringFromAny (inbound !! "type"%string))) in
  if bool_decide (type_ ∈ ["hysteria2"; "hy2"; "tuic"]%string) then listenUDP
  else if bool_decide (type_ ∈ ["shadowsocks"; "socks"]%string) then
    let network := ToLower (TrimSpace (stringFromAny (inbound !! "network"%string))) in
    if (network =? "tcp")%string then listenTCP
    else if (network =? "udp")%string then listenUDP
    else Z.lor listenTCP listenUDP
  else if (type_ =? "mieru")%string then
    if EqualFold (TrimSpace (stringFromAny (inbound !! "transport"%string))) "udp" then listenUDP else listenTCP
  else listenTCP.

Section listeners.
Context {D : ListenDecoder}.

Definition parseStepConfig (raw : string) : gmap string JSON :=
  if (TrimSpace raw =? "")%string then ∅ else default ∅ (decode_object raw).

Definition decodeMieruConfig (raw : string) : result ListenErr (gmap string JSON) :=
  match decode_object (if (TrimSpace raw =? "")%string then "{}" else raw) with
  | Some extra => Ok extra
  | None => Err ErrDecode
  end.

Definition mieruPortsFromConfig (primary : Z) (configJSON rangeKey : string) : result ListenErr (list Z) :=
  let* extra := decodeMieruConfig configJSON in mieruPortsFromValue primary (extra !! rangeKey).

Definition MieruInboundPorts (inbound : Inbound) : result ListenErr (list Z) :=
  if negb (Inbound_Protocol inbound =? ProtocolMieru)%string then
    let* _ := ValidatePort (Inbound_Port inbound) in Ok [Inbound_Port inbound]
  else mieruPortsFromConfig (Inbound_Port inbound) (Inbound_ConfigJSON inbound) "listen_ports".

(** The primary port and the ranges that [NormalizeMieruPortConfig] stores. *)
Definition normalizedMieruPorts (primary : Z) (value : option JSON) : result ListenErr (Z * list string) :=
  let* ports := mieruPortsFromValue primary value in
  Ok (List.hd 0 ports, compressMieruPorts (List.tl ports)).

Definition MieruInboundTransport (inbound : Inbound) : string :=
  if negb (Inbound_Protocol inbound =? ProtocolMieru)%string then ""
  else normalizeMieruTransport (stringValue (parseStepConfig (Inbound_ConfigJSON inbound)) "transport" "TCP").

Definition transparentForwardProtocol (inbound : Inbound) : string :=
  let protocol := Inbound_Protocol inbound in
  if (protocol =? ProtocolHY2)%string then ForwardProtocolUDP
  else if bool_decide (protocol ∈ [ProtocolVLESS; ProtocolAnyTLS]) then ForwardProtocolTCP
  else if bool_decide (protocol ∈ [ProtocolSS; ProtocolSocks]) then
    let network := ToLower (TrimSpace (stringValue (parseStepConfig (Inbound_ConfigJSON inbound)) "network" "")) in
    if (network =? "tcp")%string then ForwardProtocolTCP
    else if (network =? "udp")%string then ForwardProtocolUDP
    else ForwardProtocolTCPUDP
  else if (protocol =? ProtocolMieru)%string then
    if (MieruInboundTransport inbound =? "UDP")%string then ForwardProtocolUDP else ForwardProtocolTCP
  else ForwardProtocolTCP.

Definition inboundListenResource (inbound : Inbound) : listenResource :=
  {| lr_serverID := Inbound_ServerID inbound; lr_address := normalizeListenAddress (Inbound_ListenIP inbound);
     lr_port := Inbound_Port inbound; lr_protocol := portForwardListenTransport (transparentForwardProtocol inbound);
     lr_owner := OwnerInbound (Inbound_Name inbound) (Inbound_ID inbound) |}.

(** *** Generated listeners of a deployment *)

Definition singBoxInboundPorts (inbound : gmap string JSON) : list Z :=
  let port := intFromAny (inbound !! "listen_port"%string) in
  if EqualFold (TrimSpace (stringFromAny (inbound !! "type"%string))) "mieru"
  then match mieruPortsFromValue port (inbound !! "listen_ports"%string) with Ok ports => ports | Err _ => [] end
  else [port].

Definition singBoxResource (serverID : Z) (index : nat) (inbound : gmap string JSON) (port : Z) : listenResource :=
  let tag := TrimSpace (stringFromAny (inbound !! "tag"%string)) in
  {| lr_serverID := serverID; lr_address := normalizeListenAddress (stringFromAny (inbound !! "listen"%string));
     lr_port := port; lr_protocol := singBoxInboundListenTransport inbound;
     lr_owner := OwnerCore (if (tag =? "")%string then FormatInt (Z.of_nat index) else tag) |}.

Fixpoint singBoxFrom (serverID : Z) (index : nat) (inbounds : list (gmap string JSON)) : list listenResource :=
  match inbounds with
  | [] => []
  | inbound :: inbounds =>
      (singBoxResource serverID index inbound <$> List.filter validPort (singBoxInboundPorts inbound)) ++
      singBoxFrom serverID (S index) inbounds
  end.
Definition singBoxListenResources (serverID : Z) (inbounds : list (gmap string JSON)) : list listenResource :=
  singBoxFrom serverID 0 inbounds.

Definition portForwardListenResources (forwards : list PortForward) : list listenResource :=
  (λ f, {| lr_serverID := PortForward_SourceServerID f; lr_address := normalizeListenAddress (PortForward_ListenIP f);
           lr_port := PortForward_ListenPort f; lr_protocol := portForwardListenTransport (PortForward_Protocol f);
           lr_owner := OwnerForward (PortForward_Name f) (PortForward_ID f) |}) <$>
  List.filter (λ f, PortForward_Enabled f && validPort (PortForward_ListenPort f)) forwards.

(** [strings.Split(s, ":")]. *)
Fixpoint splitAllColons (l : list ascii) : list (list ascii) :=
  match l with
  | [] => [[]]
  | c :: l => if isColon c then [] :: splitAllColons l
              else match splitAllColons l with [] => [[c]] | part :: parts => (c :: part) :: parts end
  end.

Definition sshLocalForwardListen (spec : string) : option (string * Z) :=
  let listen address portText :=
    match ParseInt portText with
    | Some port => if validPort port then Some (address, port) else None
    | None => None
    end in
  match of_bytes <$> splitAllColons (bytes_of (TrimSpace spec)) with
  | [address; port; _; _] => listen (normalizeListenAddress address) port
  | [port; _; _] => listen "127.0.0.1"%string port
  | _ => None
  end.

Definition tunnelListenResource (serverID : Z) (tunnel : Tunnel) : list listenResource :=
  let name := Tunnel_Name tunnel in
  let id := Tunnel_ID tunnel in
  if negb (Tunnel_Enabled tunnel) then []
  else if (Tunnel_Type tunnel =? TunnelTypeWireGuard)%string then
    if validPort (Tunnel_ListenPort tunnel)
    then [{| lr_serverID := serverID; lr_address := "*"; lr_port := Tunnel_ListenPort tunnel; lr_protocol := listenUDP;
             lr_owner := OwnerWireGuard name id |}]
    else []
  else if (Tunnel_Type tunnel =? TunnelTypeSSH)%string then
    let cfg := decode_tunnel (firstNonEmpty [Tunnel_ConfigJSON tunnel; "{}"%string]) in
    (if TC_ManagedPair cfg && (TC_Role cfg =? "server")%string && validPort (TC_ServerPort cfg)
     then [{| lr_serverID := serverID; lr_address := "*"; lr_port := TC_ServerPort cfg; lr_protocol := listenTCP;
              lr_owner := OwnerSSHServer name id |}]
     else []) ++
    match sshLocalForwardListen (TC_LocalForward cfg) with
    | Some (address, port) =>
        [{| lr_serverID := serverID; lr_address := address; lr_port := port; lr_protocol := listenTCP;
            lr_owner := OwnerSSHForward name id |}]
    | None => []
    end
  else [].
Definition tunnelListenResources (serverID : Z) (tunnels : list Tunnel) : list listenResource :=
  flat_map (tunnelListenResource serverID) tunnels.

Record SSHInbound := {
  SI_InboundID : Z;
  SI_Name : string;
  SI_ListenIP : string;
  SI_Port : Z;
  SI_Enabled : bool }.

Definition sshInboundListenResources (serverID : Z) (plan : list SSHInbound) : list listenResource :=
  (λ i, {| lr_serverID := serverID; lr_address := normalizeListenAddress (SI_ListenIP i); lr_port := SI_Port i;
           lr_protocol := listenTCP; lr_owner := OwnerSSHInbound (SI_Name i) (SI_InboundID i) |}) <$>
  List.filter (λ i, SI_Enabled i && validPort (SI_Port i)) plan.

Definition ValidateDeploymentListenResources (serverID : Z) (configJSON : string) (forwards : list PortForward)
    (tunnels : list Tunnel) (sshInbounds : list SSHInbound) : result ListenErr unit :=
  match decode_inbounds configJSON with
  | None => Err ErrDecode
  | Some inbounds =>
      validateListenResources
        (singBoxListenResources serverID inbounds ++ portForwardListenResources forwards ++
         tunnelListenResources serverID tunnels ++ sshInboundListenResources serverID sshInbounds)
  end.

(** *** Manual inbounds against managed listeners *)

Definition managedResource (a : ProxyPathPortAllocation) : listenResource :=
  let network := if bool_decide (PA_Network a ∈ [ForwardProtocolTCP; ForwardProtocolUDP]) then PA_Network a else ForwardProtocolTCPUDP in
  {| lr_serverID := PA_ServerID a; lr_address := PA_ListenIP a; lr_port := PA_Port a;
     lr_protocol := portForwardListenTransport network; lr_owner := OwnerManaged (PA_Kind a) (PA_ScopeKey a) |}.

(** The allocation is one of the inbound's own Snell listeners. *)
Definition selfOwned (inbound : Inbound) (a : ProxyPathPortAllocation) : bool :=
  (PA_Kind a =? ProxyPathPortKindSnellUser)%string && (0 <? Inbound_ID inbound) &&
  String.prefix ("inbound:" +:+ FormatInt (Inbound_ID inbound) +:+ ":user:") (PA_ScopeKey a).

Definition managedConflict (inbound : Inbound) (allocations : list ProxyPathPortAllocation) (port : Z) (_ : unit) :
    result ListenErr unit :=
  let candidate := {| lr_serverID := Inbound_ServerID inbound; lr_address := Inbound_ListenIP inbound; lr_port := port;
    lr_protocol := portForwardListenTransport (transparentForwardProtocol inbound);
    lr_owner := OwnerCandidate (Inbound_Name inbound) |} in
  match List.find (λ a, negb (selfOwned inbound a) && conflicts candidate (managedResource a)) allocations with
  | Some a => Err (ErrListenReserved (normalizeListenAddress (Inbound_ListenIP inbound)) port
                (listenTransportName (Z.land (lr_protocol candidate) (lr_protocol (managedResource a))))
                (lr_owner (managedResource a)))
  | None => Ok ()
  end.

Definition ValidateInboundManagedPortAvailability (inbound : Inbound) (allocations : list ProxyPathPortAllocation) :
    result ListenErr unit :=
  if negb (Inbound_Enabled inbound) then Ok ()
  else let* ports := MieruInboundPorts inbound in foldM (managedConflict inbound allocations) ports ().
End listeners.

(** ** What a listener occupies *)

(** Where a connection can arrive: an address, or the name of a host that is no address. *)
Inductive host := HostAddr (a : Addr) | HostName (name : string).

(** The hosts a listen address accepts: a wildcard all, an unspecified address its
    family or, for IPv6, both families, anything else itself. *)
Definition accepts (address : string) (h : host) : Prop :=
  let address := normalizeListenAddress address in
  address = "*"%string ∨
  match ParseAddr address with
  | Some a =>
      match h with
      | HostAddr b => if IsUnspecified (Unmap a) then Is6 (Unmap a) || Is4 b = true else b = Unmap a
      | HostName _ => False
      end
  | None => h = HostName address
  end.

(** A server, a port, a transport (a bit of the mask) and a host. *)
Record endpoint := { ep_server : Z; ep_port : Z; ep_transport : Z; ep_host : host }.

Definition occupies (r : listenResource) (e : endpoint) : Prop :=
  lr_serverID r = ep_server e ∧ lr_port r = ep_port e ∧ Z.testbit (lr_protocol r) (ep_transport e) = true ∧
  accepts (lr_address r) (ep_host e).

Lemma Is6_or_Is4 a : Is6 a || Is4 a = true.
Proof. by destruct a. Qed.

Lemma accepts_some address : ∃ h, accepts address h.
Proof.
  unfold accepts. destruct (ParseAddr _) as [a|]; [|eexists; by right].
  exists (HostAddr (Unmap a)). right. destruct (IsUnspecified _); [apply Is6_or_Is4|done].
Qed.

Lemma overlap_addresses a b :
  (if IsUnspecified a && IsUnspecified b then true
   else if IsUnspecified a then Is6 a || Is4 b
   else if IsUnspecified b then Is6 b || Is4 a
   else bool_decide (a = b)) = true ↔
  ∃ c, (if IsUnspecified a then Is6 a || Is4 c = true else c = a) ∧ (if IsUnspecified b then Is6 b || Is4 c = true else c = b).
Proof.
  destruct (IsUnspecified a) eqn:Ha, (IsUnspecified b) eqn:Hb; simpl.
  - split; [intros _|done]. exists (Addr4 [0; 0; 0; 0]). by rewrite !orb_true_r.
  - split; [intros ?; by exists b|]. by intros (c & ? & ->).
  - split; [intros ?; by exists a|]. by intros (c & -> & ?).
  - rewrite bool_decide_eq_true. split; [intros ->; by exists b|]. by intros (c & -> & ->).
Qed.

Lemma listenAddressesOverlap_accepts left right :
  listenAddressesOverlap left right = true ↔ ∃ h, accepts left h ∧ accepts right h.
Proof.
  pose proof (accepts_some left) as [hl Hl]. pose proof (accepts_some right) as [hr Hr].
  unfold listenAddressesOverlap, accepts in *.
  set (l := normalizeListenAddress left) in *. set (r := normalizeListenAddress right) in *. clearbody l r.
  destruct (l =? "*")%string eqn:Hls; [apply String.eqb_eq in Hls; simpl; naive_solver|].
  destruct (r =? "*")%string eqn:Hrs; [apply String.eqb_eq in Hrs; simpl; naive_solver|].
  apply String.eqb_neq in Hls, Hrs. simpl. clear hl Hl hr Hr.
  destruct (ParseAddr l) as [a|] eqn:Ha, (ParseAddr r) as [b|] eqn:Hb.
  - rewrite overlap_addresses. split.
    + intros (c & H1 & H2). by exists (HostAddr c); split; right.
    + intros ([c|] & [?|?] & [?|?]); try done. by exists c.
  - rewrite String.eqb_eq. split; [congruence|]. by intros (h & [?|?] & [?| ->]).
  - rewrite String.eqb_eq. split; [congruence|]. by intros (h & [?| ->] & [?|?]).
  - rewrite String.eqb_eq. split; [intros ->; exists (HostName r); by split; right|]. intros (h & [?| ->] & [?|[= ->]]); done.
Qed.

Lemma testbit_some z : z ≠ 0 → ∃ n, Z.testbit z n = true.
Proof.
  intros Hz. destruct (Z.lt_trichotomy z 0) as [?|[?|?]]; [|done|].
  - exists (Z.succ (Z.log2 (Z.pred (- z)))). apply Z.bits_above_log2_neg; lia.
  - exists (Z.log2 z). by apply Z.bit_log2.
Qed.

Lemma land_testbit a b : Z.land a b ≠ 0 ↔ ∃ n, Z.testbit a n = true ∧ Z.testbit b n = true.
Proof.
  split.
  - intros [n Hn]%testbit_some. rewrite Z.land_spec, andb_true_iff in Hn. eauto.
  - intros (n & Ha & Hb) H0. pose proof (Z.land_spec a b n) as Hs. by rewrite H0, Z.bits_0, Ha, Hb in Hs.
Qed.

Lemma conflicts_occupy r other : conflicts r other = true ↔ ∃ e, occupies r e ∧ occupies other e.
Proof.
  unfold conflicts, occupies. rewrite !andb_true_iff, !Z.eqb_eq, negb_true_iff, Z.eqb_neq, land_testbit, listenAddressesOverlap_accepts.
  split.
  - intros [[[Hs Hp] (n & Hn & Hn')] (h & Hh & Hh')].
    by exists {| ep_server := lr_serverID r; ep_port := lr_port r; ep_transport := n; ep_host := h |}.
  - intros (e & (? & ? & ? & ?) & (? & ? & ? & ?)). split_and!; [congruence..|by exists (ep_transport e)|by exists (ep_host e)].
Qed.

Lemma conflicts_sym r other : conflicts r other = conflicts other r.
Proof. apply eq_true_iff_eq. rewrite !conflicts_occupy. naive_solver. Qed.

Lemma find_conflict_None r before :
  List.find (conflicts r) before = None ↔ Forall (λ other, conflicts r other = false) before.
Proof.
  rewrite Forall_forall. split.
  - intros Hf x Hx. eapply List.find_none; [exact Hf|by apply list_elem_of_In].
  - intros Hall. destruct (List.find _ _) as [x|] eqn:Hf; [|done].
    apply List.find_some in Hf as [Hx%list_elem_of_In Hc]. by rewrite (Hall x Hx) in Hc.
Qed.

(** Two different positions of a list hold no conflict. *)
Definition conflict_free (l : list listenResource) : Prop :=
  ∀ i j r r', i ≠ j → l !! i = Some r → l !! j = Some r' → conflicts r r' = false.

Lemma conflict_free_snoc l r :
  conflict_free (l ++ [r]) ↔ conflict_free l ∧ Forall (λ other, conflicts r other = false) l.
Proof.
  split.
  - intros Hcf. split.
    + intros i j a b Hij Hi Hj. eapply (Hcf i j); [done|by apply lookup_app_l_Some..].
    + apply Forall_lookup_2. intros i x Hi. eapply (Hcf (length l) i); [|by apply list_lookup_middle|by apply lookup_app_l_Some].
      apply lookup_lt_Some in Hi. lia.
  - intros [Hcf Hall] i j a b Hij Hi Hj. rewrite Forall_lookup in Hall.
    apply lookup_snoc_Some in Hi as [[_ Hi]|[-> <-]]; apply lookup_snoc_Some in Hj as [[_ Hj]|[-> <-]]; eauto.
    + rewrite conflicts_sym. eauto.
    + done.
Qed.

Lemma validateFrom_Ok before l : conflict_free before → validateFrom before l = Ok () ↔ conflict_free (before ++ l).
Proof.
  revert before; induction l as [|r l IH]; intros before Hb; simpl; [by rewrite app_nil_r|].
  rewrite (cons_middle r before l), app_assoc.
  destruct (List.find _ _) as [x|] eqn:Hf.
  - split; [done|]. intros Hcf. apply List.find_some in Hf as [Hx%list_elem_of_In Hc].
    apply list_elem_of_lookup in Hx as [i Hi].
    assert (conflicts r x = false); [|congruence]. rewrite <- app_assoc in Hcf.
    eapply (Hcf (length before) i); [apply lookup_lt_Some in Hi; lia|by apply list_lookup_middle|by apply lookup_app_l_Some].
  - apply IH. apply conflict_free_snoc. split; [done|]. by apply find_conflict_None.
Qed.

Lemma validateListenResources_Ok l : validateListenResources l = Ok () ↔ conflict_free l.
Proof. apply (validateFrom_Ok []). intros i j r r' _ Hi. by rewrite lookup_nil in Hi. Qed.

Lemma validateFrom_Err before l err :
  conflict_free before → validateFrom before l = Err err →
  ∃ l1 r l2 other, l = l1 ++ r :: l2 ∧ other ∈ before ++ l1 ∧ conflicts r other = true ∧
    err = conflictError r other ∧ conflict_free (before ++ l1).
Proof.
  revert before; induction l as [|r l IH]; intros before Hb Hv; simpl in Hv; [done|].
  destruct (List.find _ _) as [x|] eqn:Hf.
  - injection Hv as <-. apply List.find_some in Hf as [Hx%list_elem_of_In Hc].
    exists [], r, l, x. by rewrite app_nil_r.
  - apply IH in Hv as (l1 & r' & l2 & x & -> & Hx & Hc & -> & Hcf).
    + exists (r :: l1), r', l2, x. by rewrite (cons_middle r before l1), app_assoc.
    + apply conflict_free_snoc. split; [done|]. by apply find_conflict_None.
Qed.

Lemma conflict_free_occupy l :
  conflict_free l ↔ ∀ i j r r' e, i ≠ j → l !! i = Some r → l !! j = Some r' → occupies r e → ¬ occupies r' e.
Proof.
  split.
  - intros Hcf i j r r' e Hij Hi Hj H1 H2. pose proof (Hcf i j r r' Hij Hi Hj) as Hc.
    apply not_true_iff_false in Hc. apply Hc, conflicts_occupy. eauto.
  - intros Hcf i j r r' Hij Hi Hj. apply not_true_iff_false. intros (e & H1 & H2)%conflicts_occupy. by eapply Hcf.
Qed.

(** C33. The check of listen resources is exact: it accepts a list exactly when no server, port,
    transport and host is occupied by two of its listeners, where a wildcard accepts every
    host, an unspecified IPv4 address every IPv4 host, an unspecified IPv6 address
    hosts of both families, and IPv4-mapped addresses count as IPv4; and it reports
    the first listener that shares an endpoint with an earlier one. *)
Theorem validateListenResources_correct resources :
  (validateListenResources resources = Ok () ↔
   ∀ i j r r' e, i ≠ j → resources !! i = Some r → resources !! j = Some r' → occupies r e → ¬ occupies r' e) ∧
  (∀ err, validateListenResources resources = Err err →
   ∃ before r after other e, resources = before ++ r :: after ∧ other ∈ before ∧
     occupies r e ∧ occupies other e ∧ err = conflictError r other ∧ validateListenResources before = Ok ()).
Proof.
  split; [by rewrite validateListenResources_Ok, conflict_free_occupy|].
  intros err (l1 & r & l2 & x & -> & Hx & (e & He & He')%conflicts_occupy & -> & Hcf)%validateFrom_Err.
  - exists l1, r, l2, x, e. split_and!; try done. by apply validateListenResources_Ok.
  - intros i j a b _ Hi. by rewrite lookup_nil in Hi.
Qed.
