(* ===== verification/PortPolicy.v ===== *)
(** * Port policies and port allocation ([core/port_policy.go], [core/proxy_paths.go])

    The pools of a server, the preview of a change of its ranges, and the search for a free
    port of a generated listener, which uses the conflict predicate of the deployment check. *)

From S2P Require Import Prelude Model NetAddr ListenResources.

Local Open Scope Z_scope.

(** ** Policies *)

Definition DefaultPublicPortRangeStart : Z := 10000.
Definition DefaultPublicPortRangeEnd : Z := 20000.
Definition DefaultInternalPortRangeStart : Z := 30000.
Definition DefaultInternalPortRangeEnd : Z := 59999.

Record ServerPortPolicy := {
  SP_PublicStart : Z;
  SP_PublicEnd : Z;
  SP_InternalStart : Z;
  SP_InternalEnd : Z }.

Definition ServerPortPolicyFor (server : Server) : ServerPortPolicy :=
  let '(ps, pe) :=
    if (Server_PortRangeStart server <=? 0) || (Server_PortRangeEnd server <? Server_PortRangeStart server)
    then (DefaultPublicPortRangeStart, DefaultPublicPortRangeEnd)
    else (Server_PortRangeStart server, Server_PortRangeEnd server) in
  let '(ints, inte) :=
    if (Server_InternalPortRangeStart server <=? 0) || (Server_InternalPortRangeEnd server <? Server_InternalPortRangeStart server)
    then (DefaultInternalPortRangeStart, DefaultInternalPortRangeEnd)
    else (Server_InternalPortRangeStart server, Server_InternalPortRangeEnd server) in
  {| SP_PublicStart := ps; SP_PublicEnd := pe; SP_InternalStart := ints; SP_InternalEnd := inte |}.

Definition contains (p : ServerPortPolicy) (pool : string) (port : Z) : bool :=
  if (pool =? PortPoolInternal)%string
  then (SP_InternalStart p <=? port) && (port <=? SP_InternalEnd p)
  else (SP_PublicStart p <=? port) && (port <=? SP_PublicEnd p).

Definition proxyPathServerPortRange (server : Server) : Z * Z :=
  if (0 <? Server_PortRangeStart server) && (Server_PortRangeStart server <=? Server_PortRangeEnd server)
  then (Server_PortRangeStart server, Server_PortRangeEnd server)
  else (DefaultPublicPortRangeStart, DefaultPublicPortRangeEnd).

Definition proxyPathInternalPortRange (server : Server) : Z * Z :=
  if (0 <? Server_InternalPortRangeStart server) && (Server_InternalPortRangeStart server <=? Server_InternalPortRangeEnd server)
  then (Server_InternalPortRangeStart server, Server_InternalPortRangeEnd server)
  else (DefaultInternalPortRangeStart, DefaultInternalPortRangeEnd).

Definition PortAllocationPoolForKind (kind : string) : string :=
  if (kind =? ProxyPathPortKindTunnelSSH)%string then PortPoolInternal else PortPoolPublic.

(** ** Preview of a change of the ranges *)

Record PortPolicyAffectedItem := {
  AI_Kind : string;
  AI_ScopeKey : string;
  AI_ServerID : Z;
  AI_Pool : string;
  AI_ListenIP : string;
  AI_Network : string;
  AI_Port : Z }.

Record ServerPortPolicyChangePreview := {
  PublicRangeChanged : bool;
  InternalRangeChanged : bool;
  AffectedManaged : list PortPolicyAffectedItem;
  ManualOutsidePolicy : list PortPolicyAffectedItem }.

Definition RequiresMigration (p : ServerPortPolicyChangePreview) : bool := negb (Nat.eqb (length (AffectedManaged p)) 0).

(** The pool of a stored allocation. *)
Definition allocationPool (item : ProxyPathPortAllocation) : string :=
  let pool := PortAllocationPoolForKind (PA_Kind item) in
  if negb (pool =? PortPoolInternal)%string && bool_decide (PA_Pool item ∈ [PortPoolPublic; PortPoolInternal])
  then PA_Pool item else pool.

Definition affectedAllocation (next : Server) (publicChanged internalChanged : bool) (item : ProxyPathPortAllocation) : bool :=
  let pool := allocationPool item in
  negb (negb (PA_ServerID item =? Server_ID next) || (PA_Port item <=? 0)) &&
  negb ((pool =? PortPoolInternal)%string && negb internalChanged) &&
  negb ((pool =? PortPoolPublic)%string && negb publicChanged) &&
  negb (contains (ServerPortPolicyFor next) pool (PA_Port item)).

Definition affectedItem (item : ProxyPathPortAllocation) : PortPolicyAffectedItem :=
  {| AI_Kind := PA_Kind item; AI_ScopeKey := PA_ScopeKey item; AI_ServerID := PA_ServerID item; AI_Pool := allocationPool item;
     AI_ListenIP := PA_ListenIP item; AI_Network := PA_Network item; AI_Port := PA_Port item |}.

Section preview.
Context {D : ListenDecoder}.

Definition manualItem (inbound : Inbound) : PortPolicyAffectedItem :=
  {| AI_Kind := "inbound"; AI_ScopeKey := ""; AI_ServerID := Inbound_ServerID inbound; AI_Pool := PortPoolPublic;
     AI_ListenIP := Inbound_ListenIP inbound; AI_Network := forwardNetworkName (transparentForwardProtocol inbound);
     AI_Port := Inbound_Port inbound |}.

Definition PreviewServerPortPolicyChange (current next : Server) (allocations : list ProxyPathPortAllocation)
    (inbounds : list Inbound) : ServerPortPolicyChangePreview :=
  let publicChanged := negb (Server_PortRangeStart current =? Server_PortRangeStart next) ||
                       negb (Server_PortRangeEnd current =? Server_PortRangeEnd next) in
  let internalChanged := negb (Server_InternalPortRangeStart current =? Server_InternalPortRangeStart next) ||
                         negb (Server_InternalPortRangeEnd current =? Server_InternalPortRangeEnd next) in
  let managed := if negb publicChanged && negb internalChanged then []
                 else affectedItem <$> List.filter (affectedAllocation next publicChanged internalChanged) allocations in
  let manual := if negb publicChanged then []
                else manualItem <$> List.filter (λ inbound, negb (negb (Inbound_ServerID inbound =? Server_ID next) || (Inbound_Port inbound <=? 0)) &&
                       negb (contains (ServerPortPolicyFor next) PortPoolPublic (Inbound_Port inbound))) inbounds in
  {| PublicRangeChanged := publicChanged; InternalRangeChanged := internalChanged;
     AffectedManaged := managed; ManualOutsidePolicy := manual |}.
End preview.

(** ** The search for a port *)

Definition listenTransportForAllocation (protocol : string) : Z :=
  if (protocol =? "")%string then listenTCP else portForwardListenTransport protocol.

Definition EffectiveListenIP (server : Server) (stored : string) : string :=
  let value := TrimSpace stored in
  if negb (value =? "")%string && negb (value =? "0.0.0.0")%string then value
  else if (Server_ListenMode server =? ListenModeDual)%string then "::"
  else if (Server_ListenMode server =? ListenModeIPv4Only)%string then "0.0.0.0"
  else if negb (TrimSpace (Server_PublicIPv6 server) =? "")%string || negb (TrimSpace (Server_InterfaceIPv6 server) =? "")%string
  then "::" else "0.0.0.0".

(** The candidate of a port; the owner does not matter to conflicts. *)
Definition allocationCandidate (serverID : Z) (protocol listenIP : string) (port : Z) : listenResource :=
  {| lr_serverID := serverID; lr_address := normalizeListenAddress listenIP; lr_port := port;
     lr_protocol := listenTransportForAllocation protocol; lr_owner := OwnerCandidate "" |}.

(** The loop over [offset], with [n] offsets left. *)
Fixpoint searchPort (candidate : Z → listenResource) (reserved : list listenResource) (start span seed : Z) (offset : Z) (n : nat) : Z :=
  match n with
  | O => 0
  | S n =>
      let port := start + Z.rem (seed + offset) span in
      if forallb (λ existing, negb (conflicts (candidate port) existing)) reserved then port
      else searchPort candidate reserved start span seed (offset + 1) n
  end.

Section allocation.
Context {D : ListenDecoder} {M : MapRange Z Inbound}.

Definition reservedResources (serverID : Z) (inbounds : gmap Z Inbound) : list listenResource :=
  inboundListenResource <$>
  List.filter (λ inbound, (Inbound_ServerID inbound =? serverID) && (0 <? Inbound_Port inbound)) (map_range inbounds).*2.

Definition proxyPathAvailablePortForProtocol (server : Server) (pathSeed positionSeed start end_ : Z) (protocol listenIP : string)
    (inbounds : gmap Z Inbound) : Z :=
  let reserved := reservedResources (Server_ID server) inbounds in
  let span := int_wrap (end_ - start + 1) in
  if span <=? 0 then 0
  else
    let seed := Z.rem (int_wrap (pathSeed + positionSeed)) span in
    let seed := if seed <? 0 then - seed else seed in
    searchPort (allocationCandidate (Server_ID server) protocol listenIP) reserved start span seed 0 (Z.to_nat span).

Definition proxyPathAvailablePort (server : Server) (pathSeed positionSeed start end_ : Z) (listenIP : string)
    (inbounds : gmap Z Inbound) : Z :=
  proxyPathAvailablePortForProtocol server pathSeed positionSeed start end_ "" listenIP inbounds.

Definition proxyPathInternalPort (server : Server) (pathID position : Z) (listenIP : string) (inbounds : gmap Z Inbound) : Z :=
  let '(start, end_) := proxyPathServerPortRange server in
  proxyPathAvailablePort server (int_wrap (pathID * 97)) (int_wrap (position * 17)) start end_ listenIP inbounds.

Definition proxyPathTunnelPort (server : Server) (pathID position salt : Z) (inbounds : gmap Z Inbound) : Z :=
  if salt =? 31 then
    let '(start, end_) := proxyPathInternalPortRange server in
    proxyPathAvailablePort server (int_wrap (pathID * 193)) (int_wrap (position * 71 + salt)) start end_ "127.0.0.1" inbounds
  else
    let '(start, end_) := proxyPathServerPortRange server in
    let '(protocol, listenIP) :=
      if salt =? 47 then (ForwardProtocolUDP, "*"%string)
      else (ForwardProtocolTCP, EffectiveListenIP server (Server_ListenIP server)) in
    proxyPathAvailablePortForProtocol server (int_wrap (pathID * 193)) (int_wrap (position * 71 + salt)) start end_ protocol listenIP inbounds.
End allocation.

(** ** Facts *)

Lemma pool_ranges server :
  proxyPathServerPortRange server = (SP_PublicStart (ServerPortPolicyFor server), SP_PublicEnd (ServerPortPolicyFor server)) ∧
  proxyPathInternalPortRange server = (SP_InternalStart (ServerPortPolicyFor server), SP_InternalEnd (ServerPortPolicyFor server)).
Proof.
  unfold proxyPathServerPortRange, proxyPathInternalPortRange, ServerPortPolicyFor.
  repeat match goal with
         | |- context [?a <=? ?b] => destruct (Z.leb_spec a b)
         | |- context [?a <? ?b] => destruct (Z.ltb_spec a b)
         end; simpl; auto; lia.
Qed.

Lemma forallb_conflict_free candidate reserved :
  forallb (λ existing, negb (conflicts candidate existing)) reserved = true ↔
  Forall (λ existing, conflicts candidate existing = false) reserved.
Proof.
  rewrite forallb_forall, Forall_forall. setoid_rewrite list_elem_of_In. by setoid_rewrite negb_true_iff.
Qed.

(** The search stops at the first free port of the rotated range. *)
Lemma searchPort_spec candidate reserved start span seed offset n :
  let port i := start + Z.rem (seed + i) span in
  let free p := Forall (λ existing, conflicts (candidate p) existing = false) reserved in
  (∃ i, offset ≤ i < offset + Z.of_nat n ∧ searchPort candidate reserved start span seed offset n = port i ∧ free (port i)) ∨
  (searchPort candidate reserved start span seed offset n = 0 ∧ ∀ i, offset ≤ i < offset + Z.of_nat n → ¬ free (port i)).
Proof.
  intros port free. revert offset; induction n as [|n IH]; intros offset; cbn [searchPort]; [right; split; [done|lia]|].
  fold (port offset). destruct (forallb _ _) eqn:Hf.
  - left. exists offset. split; [lia|]. split; [done|]. by apply forallb_conflict_free.
  - assert (¬ free (port offset)) as Hno.
    { intros Hfree. apply forallb_conflict_free in Hfree. congruence. }
    destruct (IH (offset + 1)) as [(i & Hi & Hs & Hp)|[Hs Hn]]; [left; exists i; split; [lia|done]|right; split; [done|]].
    intros i Hi. destruct (decide (i = offset)) as [->|]; [done|]. apply Hn. lia.
Qed.

Lemma rotation_covers start span seed p :
  0 ≤ seed < span → start ≤ p < start + span → ∃ i, 0 ≤ i < span ∧ start + Z.rem (seed + i) span = p.
Proof.
  intros Hs Hp. exists ((p - start - seed) `mod` span). pose proof (Z.mod_pos_bound (p - start - seed) span).
  split; [lia|]. rewrite Z.rem_mod_nonneg by lia. rewrite Z.add_mod_idemp_r by lia.
  replace (seed + (p - start - seed)) with (p - start) by lia. rewrite Z.mod_small; lia.
Qed.

Lemma searchPort_range candidate reserved start span seed :
  0 < start → 0 ≤ seed < span →
  let p := searchPort candidate reserved start span seed 0 (Z.to_nat span) in
  let free p := Forall (λ existing, conflicts (candidate p) existing = false) reserved in
  (start ≤ p < start + span ∧ free p) ∨ (p = 0 ∧ ∀ q, start ≤ q < start + span → ¬ free q).
Proof.
  intros Hstart Hseed p free. unfold p. destruct (searchPort_spec candidate reserved start span seed 0 (Z.to_nat span)) as [(i & Hi & -> & Hf)|[-> Hn]].
  - left. split; [|done]. pose proof (Z.rem_bound_pos (seed + i) span). lia.
  - right. split; [done|]. intros q Hq. destruct (rotation_covers start span seed q) as (i & Hi & <-); [done..|]. apply Hn. lia.
Qed.

Lemma forallb_perm {A} (P : A → bool) l1 l2 : l1 ≡ₚ l2 → forallb P l1 = forallb P l2.
Proof. intros Hp. apply eq_true_iff_eq. rewrite !forallb_forall. setoid_rewrite <- list_elem_of_In. by setoid_rewrite Hp. Qed.

Lemma searchPort_perm candidate l1 l2 start span seed offset n :
  l1 ≡ₚ l2 → searchPort candidate l1 start span seed offset n = searchPort candidate l2 start span seed offset n.
Proof.
  intros Hp. revert offset; induction n as [|n IH]; intros offset; cbn [searchPort]; [done|].
  rewrite (forallb_perm _ _ _ Hp). by rewrite IH.
Qed.

Lemma reservedResources_order {D : ListenDecoder} (r1 r2 : MapRange Z Inbound) serverID inbounds :
  reservedResources (M := r1) serverID inbounds ≡ₚ reservedResources (M := r2) serverID inbounds.
Proof.
  unfold reservedResources. apply fmap_Permutation, List_filter_perm, fmap_Permutation.
  by rewrite (@map_range_perm _ _ _ _ r1), (@map_range_perm _ _ _ _ r2).
Qed.

Lemma seed_range x span : 0 < span → 0 ≤ (if Z.rem x span <? 0 then - Z.rem x span else Z.rem x span) < span.
Proof. intros Hs. pose proof (Z.rem_bound_abs x span). destruct (Z.ltb_spec (Z.rem x span) 0); lia. Qed.

(** The result of the search over a range of ports. *)
Lemma available_port {D : ListenDecoder} {M : MapRange Z Inbound} server pathSeed positionSeed start end_ protocol listenIP inbounds :
  0 < start ≤ end_ → end_ ≤ 65535 →
  let p := proxyPathAvailablePortForProtocol server pathSeed positionSeed start end_ protocol listenIP inbounds in
  let free p := Forall (λ existing, conflicts (allocationCandidate (Server_ID server) protocol listenIP p) existing = false)
                  (reservedResources (Server_ID server) inbounds) in
  (start ≤ p ≤ end_ ∧ free p) ∨ (p = 0 ∧ ∀ q, start ≤ q ≤ end_ → ¬ free q).
Proof.
  intros Hstart Hend p free. unfold p, proxyPathAvailablePortForProtocol. rewrite int_wrap_small by lia.
  rewrite (proj2 (Z.leb_gt _ _)) by lia.
  destruct (searchPort_range (allocationCandidate (Server_ID server) protocol listenIP) (reservedResources (Server_ID server) inbounds)
    start (end_ - start + 1) _ ltac:(lia) (seed_range (int_wrap (pathSeed + positionSeed)) (end_ - start + 1) ltac:(lia))) as [[? ?]|[? Hn]].
  - left. split; [lia|done].
  - right. split; [done|]. intros q Hq. apply Hn. lia.
Qed.

(** The allocation of a port is sound, complete and deterministic.  In a range of valid
    ports it returns a port of the range at which the listener shares no endpoint with any
    inbound of the server, disabled ones included, or 0, and 0 only when every port of the
    range is taken; a set of inbounds without conflicts stays without conflicts when the
    listener joins it; and the order in which the map of inbounds is enumerated does
    not matter. *)
Theorem port_allocation {D : ListenDecoder} (r1 r2 : MapRange Z Inbound) server pathSeed positionSeed start end_ protocol listenIP inbounds :
  0 < start ≤ end_ → end_ ≤ 65535 →
  let p := proxyPathAvailablePortForProtocol (M := r1) server pathSeed positionSeed start end_ protocol listenIP inbounds in
  let listener p := allocationCandidate (Server_ID server) protocol listenIP p in
  let reserved := reservedResources (M := r1) (Server_ID server) inbounds in
  (p = 0 ∨ start ≤ p ≤ end_) ∧
  (p ≠ 0 → (∀ r e, r ∈ reserved → occupies (listener p) e → ¬ occupies r e) ∧
           (validateListenResources reserved = Ok () → validateListenResources (reserved ++ [listener p]) = Ok ())) ∧
  (p = 0 → ∀ q, start ≤ q ≤ end_ → ∃ r e, r ∈ reserved ∧ occupies (listener q) e ∧ occupies r e) ∧
  p = proxyPathAvailablePortForProtocol (M := r2) server pathSeed positionSeed start end_ protocol listenIP inbounds.
Proof.
  intros Hstart Hend p listener reserved.
  pose proof (available_port (M := r1) server pathSeed positionSeed start end_ protocol listenIP inbounds Hstart Hend) as Hp.
  cbv zeta in Hp. fold p in Hp. fold reserved in Hp. split_and!.
  - destruct Hp as [[? _]|[? _]]; auto.
  - intros Hne. destruct Hp as [[_ Hfree]|[? _]]; [|done]. split.
    + rewrite Forall_forall in Hfree. intros r e Hr H1 H2. apply Hfree in Hr. apply not_true_iff_false in Hr.
      apply Hr, conflicts_occupy. eauto.
    + rewrite !validateListenResources_Ok. intros Hcf. by apply conflict_free_snoc.
  - intros H0 q Hq. destruct Hp as [[? _]|[_ Hn]]; [lia|]. specialize (Hn q Hq).
    apply not_Forall_Exists in Hn; [|intros ?; apply bool_eq_dec]. apply Exists_exists in Hn as (r & Hr & Hc).
    apply not_false_iff_true, conflicts_occupy in Hc as (e & ? & ?). eauto.
  - unfold p, proxyPathAvailablePortForProtocol. destruct (_ <=? 0); [done|]. apply searchPort_perm, reservedResources_order.
Qed.

(** A range that a policy declares consists of ports. *)
Definition validRanges (server : Server) : Prop :=
  SP_PublicEnd (ServerPortPolicyFor server) ≤ 65535 ∧ SP_InternalEnd (ServerPortPolicyFor server) ≤ 65535.

Lemma policy_ranges server :
  let p := ServerPortPolicyFor server in
  0 < SP_PublicStart p ≤ SP_PublicEnd p ∧ 0 < SP_InternalStart p ≤ SP_InternalEnd p.
Proof.
  unfold ServerPortPolicyFor.
  repeat match goal with
         | |- context [?a <=? ?b] => destruct (Z.leb_spec a b)
         | |- context [?a <? ?b] => destruct (Z.ltb_spec a b)
         end; simpl; unfold DefaultPublicPortRangeStart, DefaultPublicPortRangeEnd, DefaultInternalPortRangeStart, DefaultInternalPortRangeEnd; lia.
Qed.

Lemma public_port {D : ListenDecoder} {M : MapRange Z Inbound} server a b protocol listenIP inbounds :
  validRanges server →
  let p := proxyPathAvailablePortForProtocol server a b (SP_PublicStart (ServerPortPolicyFor server))
             (SP_PublicEnd (ServerPortPolicyFor server)) protocol listenIP inbounds in
  p = 0 ∨ contains (ServerPortPolicyFor server) PortPoolPublic p = true.
Proof.
  intros [Hpub _] p. destruct (policy_ranges server) as [Hr _].
  destruct (available_port server a b _ _ protocol listenIP inbounds Hr Hpub) as [[Hp _]|[Hp _]]; [|by left].
  right. unfold contains. simpl. fold p in Hp. lia.
Qed.

Lemma internal_port {D : ListenDecoder} {M : MapRange Z Inbound} server a b protocol listenIP inbounds :
  validRanges server →
  let p := proxyPathAvailablePortForProtocol server a b (SP_InternalStart (ServerPortPolicyFor server))
             (SP_InternalEnd (ServerPortPolicyFor server)) protocol listenIP inbounds in
  p = 0 ∨ contains (ServerPortPolicyFor server) PortPoolInternal p = true.
Proof.
  intros [_ Hint] p. destruct (policy_ranges server) as [_ Hr].
  destruct (available_port server a b _ _ protocol listenIP inbounds Hr Hint) as [[Hp _]|[Hp _]]; [|by left].
  right. unfold contains. simpl. fold p in Hp. lia.
Qed.

Lemma allocationPool_cases item : allocationPool item = PortPoolPublic ∨ allocationPool item = PortPoolInternal.
Proof.
  unfold allocationPool, PortAllocationPoolForKind. destruct (PA_Kind item =? _)%string; simpl; [by right|]. case_bool_decide as Hin; [|by left].
  set_solver.
Qed.

Lemma contains_same current next pool port :
  (pool = PortPoolPublic ∧ Server_PortRangeStart current = Server_PortRangeStart next ∧ Server_PortRangeEnd current = Server_PortRangeEnd next) ∨
  (pool = PortPoolInternal ∧ Server_InternalPortRangeStart current = Server_InternalPortRangeStart next ∧
   Server_InternalPortRangeEnd current = Server_InternalPortRangeEnd next) →
  contains (ServerPortPolicyFor current) pool port = contains (ServerPortPolicyFor next) pool port.
Proof.
  unfold contains, ServerPortPolicyFor. intros [(-> & Hs & He)|(-> & Hs & He)]; simpl; rewrite Hs, He;
    by repeat case_match; simplify_eq.
Qed.

(** A listener of a server that holds a port. *)
Definition holdsPort (server : Server) (item : ProxyPathPortAllocation) : Prop :=
  PA_ServerID item = Server_ID server ∧ 0 < PA_Port item.

Lemma affectedAllocation_spec current next item :
  let publicChanged := negb (Server_PortRangeStart current =? Server_PortRangeStart next) ||
                       negb (Server_PortRangeEnd current =? Server_PortRangeEnd next) in
  let internalChanged := negb (Server_InternalPortRangeStart current =? Server_InternalPortRangeStart next) ||
                         negb (Server_InternalPortRangeEnd current =? Server_InternalPortRangeEnd next) in
  (holdsPort next item → contains (ServerPortPolicyFor current) (allocationPool item) (PA_Port item) = true) →
  affectedAllocation next publicChanged internalChanged item = true ↔
  holdsPort next item ∧ contains (ServerPortPolicyFor next) (allocationPool item) (PA_Port item) = false.
Proof.
  intros pc ic Hcur. unfold affectedAllocation. rewrite !andb_true_iff, !negb_true_iff, orb_false_iff, negb_false_iff, Z.eqb_eq, Z.leb_gt.
  unfold holdsPort in *. split; [tauto|]. intros [[Hs Hp] Hn]. specialize (Hcur (conj Hs Hp)).
  assert (∀ b : bool, (b = false → contains (ServerPortPolicyFor current) (allocationPool item) (PA_Port item) =
                       contains (ServerPortPolicyFor next) (allocationPool item) (PA_Port item)) → negb b = false) as Hb.
  { intros [] Hsame; [done|]. rewrite Hsame in Hcur; congruence. }
  destruct (allocationPool_cases item) as [Hpool|Hpool]; rewrite Hpool in Hb |- *; split_and!; try done; simpl.
  - apply Hb. unfold pc. rewrite orb_false_iff, !negb_false_iff, !Z.eqb_eq. intros [? ?]. apply contains_same. by left.
  - by rewrite <- Hpool.
  - apply Hb. unfold ic. rewrite orb_false_iff, !negb_false_iff, !Z.eqb_eq. intros [? ?]. apply contains_same. by right.
  - by rewrite <- Hpool.
Qed.

Lemma requires_migration_filter {D : ListenDecoder} current next allocations inbounds :
  RequiresMigration (PreviewServerPortPolicyChange current next allocations inbounds) = false ↔
  ∀ item, item ∈ allocations →
    affectedAllocation next
      (negb (Server_PortRangeStart current =? Server_PortRangeStart next) || negb (Server_PortRangeEnd current =? Server_PortRangeEnd next))
      (negb (Server_InternalPortRangeStart current =? Server_InternalPortRangeStart next) ||
       negb (Server_InternalPortRangeEnd current =? Server_InternalPortRangeEnd next)) item = false.
Proof.
  unfold RequiresMigration, PreviewServerPortPolicyChange. cbn [AffectedManaged].
  set (pc := _ || _). set (ic := negb (Server_InternalPortRangeStart _ =? _) || _). rewrite negb_false_iff, Nat.eqb_eq.
  destruct (negb pc && negb ic) eqn:Hno.
  - split; [intros _ item _|done]. apply andb_true_iff in Hno as [->%negb_true_iff ->%negb_true_iff]. unfold affectedAllocation.
    destruct (allocationPool_cases item) as [-> | ->]; simpl; by rewrite ?andb_false_r.
  - rewrite length_fmap, length_zero_iff_nil. split.
    + intros Hf item Hin. apply not_true_iff_false. intros Ha.
      assert (List.In item (List.filter (affectedAllocation next pc ic) allocations)) as Hi.
      { apply List.filter_In. split; [by apply list_elem_of_In|done]. }
      by rewrite Hf in Hi.
    + intros Hall. destruct (List.filter _ _) as [|item l] eqn:Hf; [done|].
      assert (List.In item (List.filter (affectedAllocation next pc ic) allocations)) as Hi by (rewrite Hf; by left).
      apply List.filter_In in Hi as [Hin%list_elem_of_In Ha]. by rewrite (Hall item Hin) in Ha.
Qed.

(** The preview of a change of port ranges is exact, and allocated ports satisfy the policy.
    Ports that the allocator gives to loopback and public tunnels and to internal inbounds
    lie in their pools.  When the listeners of the server lie in the pools of the current
    policy, a change requires a migration exactly when some listener would lie outside
    its pool under the next policy; in particular a change of one pool never moves a
    listener of the other. *)
Theorem port_policy_change {D : ListenDecoder} {M : MapRange Z Inbound} current next allocations inbounds :
  validRanges current →
  (∀ pathID position salt planned,
     let p := proxyPathTunnelPort current pathID position salt planned in
     p = 0 ∨ contains (ServerPortPolicyFor current) (if salt =? 31 then PortPoolInternal else PortPoolPublic) p = true) ∧
  (∀ pathID position listenIP planned,
     let p := proxyPathInternalPort current pathID position listenIP planned in
     p = 0 ∨ contains (ServerPortPolicyFor current) PortPoolPublic p = true) ∧
  ((∀ item, item ∈ allocations → holdsPort next item →
      contains (ServerPortPolicyFor current) (allocationPool item) (PA_Port item) = true) →
   RequiresMigration (PreviewServerPortPolicyChange current next allocations inbounds) = false ↔
   ∀ item, item ∈ allocations → holdsPort next item →
     contains (ServerPortPolicyFor next) (allocationPool item) (PA_Port item) = true).
Proof.
  intros Hv. destruct (pool_ranges current) as [Hpub Hint]. split_and!.
  - intros pathID position salt planned p. unfold p, proxyPathTunnelPort. rewrite Hpub, Hint.
    destruct (salt =? 31); [by apply internal_port|]. destruct (salt =? 47); by apply public_port.
  - intros pathID position listenIP planned p. unfold p, proxyPathInternalPort. rewrite Hpub. by apply public_port.
  - intros Hcur. rewrite requires_migration_filter. split.
    + intros Hall item Hin Hh. apply not_false_iff_true. intros Hn. specialize (Hall item Hin). apply not_true_iff_false in Hall.
      apply Hall, affectedAllocation_spec; auto.
    + intros Hall item Hin. apply not_true_iff_false. intros [Hh Hn]%affectedAllocation_spec; [|auto].
      by rewrite (Hall item Hin Hh) in Hn.
Qed.

(** ** Runs *)

(** A decoder that knows the configurations of the examples: a Mieru inbound with two more
    ports, its generated form, and a generated listener beside it. *)
Definition demoInboundConfig (port : Z) (extra : list (string * JSON)) : gmap string JSON :=
  list_to_map ([("type"%string, JString "vless"); ("listen_port"%string, JNumber port)] ++ extra).
Definition demoMieruConfig : gmap string JSON :=
  list_to_map [("type"%string, JString "mieru"); ("listen_port"%string, JNumber 20000);
               ("listen_ports"%string, JArray [JString "20001-20002"])].

Definition demoDecoder : ListenDecoder := {|
  decode_object s := if (s =? "mieru")%string then Some {["listen_ports"%string := JArray [JString "20001-20002"]]} else Some ∅;
  decode_inbounds s := if (s =? "alone")%string then Some [demoMieruConfig]
    else if (s =? "together")%string then Some [demoMieruConfig; demoInboundConfig 20001 []] else None;
  decode_tunnel _ := {| TC_ManagedPair := false; TC_Role := ""; TC_ServerPort := 0; TC_LocalForward := "" |} |}.

Definition demoServer : Server := {|
  Server_ID := 1; Server_PortRangeStart := 20000; Server_PortRangeEnd := 20003; Server_InternalPortRangeStart := 0;
  Server_InternalPortRangeEnd := 0; Server_ListenIP := ""; Server_ListenMode := "ipv4_only"; Server_PublicIPv6 := ""; Server_InterfaceIPv6 := ""; Server_Name := "";
  Server_Status := ""; Server_RegionMode := ""; Server_RegionCode := ""; Server_DetectedRegionCode := ""; Server_EntryAddress := ""; Server_PublicIPv4 := ""; Server_EntryIPMode := ""; Server_IPStack := "" |}.

Definition demoMieru : Inbound := {|
  Inbound_ID := 7; Inbound_ServerID := 1; Inbound_Name := "mieru"; Inbound_Protocol := "mieru"; Inbound_ListenIP := "0.0.0.0";
  Inbound_Port := 20000; Inbound_ConfigJSON := "mieru"; Inbound_Enabled := true; Inbound_EntryIPMode := ""; Inbound_ExternalIP := "" |}.

Definition demoInbounds : gmap Z Inbound := {[7 := demoMieru]}.

Lemma port_allocation_witness :
  ∃ p, p = proxyPathAvailablePortForProtocol (D := demoDecoder) (M := map_range_default Z Inbound)
             demoServer 4 0 20000 20003 "tcp" "127.0.0.1" demoInbounds ∧ 20000 ≤ p ≤ 20003 ∧ p ≠ 20000.
Proof.
  destruct (port_allocation (D := demoDecoder) (map_range_default Z Inbound) (map_range_reverse Z Inbound)
    demoServer 4 0 20000 20003 "tcp" "127.0.0.1" demoInbounds ltac:(lia) ltac:(lia)) as (Hr & _ & _ & _).
  eexists. split; [reflexivity|]. split; [|vm_compute; discriminate].
  destruct Hr as [H0|H]; [vm_compute in H0; discriminate|exact H].
Defined.

Lemma port_policy_change_witness :
  contains (ServerPortPolicyFor demoServer) PortPoolInternal
    (proxyPathTunnelPort (D := demoDecoder) (M := map_range_default Z Inbound) demoServer 3 0 31 demoInbounds) = true.
Proof.
  destruct (port_policy_change (D := demoDecoder) (M := map_range_default Z Inbound) demoServer demoServer [] [])
    as (H & _ & _); [split; vm_compute; discriminate|].
  destruct (H 3 0 31 demoInbounds) as [H0|H1]; [vm_compute in H0; discriminate|exact H1].
Defined.

(** The allocator can pick a port the deployment check rejects.  It reserves one port per
    inbound, while a Mieru inbound listens on all of its ranges: the port it gives to an internal
    inbound is one of the other ports of a Mieru inbound of the same server, and the
    deployment that contains both is refused, although the same server without the
    generated listener is deployable. *)
Theorem mieru_range_not_reserved :
  let p := proxyPathInternalPort (D := demoDecoder) (M := map_range_default Z Inbound) demoServer 1 0 "0.0.0.0" demoInbounds in
  MieruInboundPorts (D := demoDecoder) demoMieru = Ok [20000; 20001; 20002] ∧ p = 20001 ∧
  ValidateDeploymentListenResources (D := demoDecoder) 1 "alone" [] [] [] = Ok () ∧
  (∃ owner other, ValidateDeploymentListenResources (D := demoDecoder) 1 "together" [] [] []
     = Err (ErrListenConflict 1 "tcp" "0.0.0.0" p owner other)).
Proof. vm_compute. split_and!; try reflexivity. eexists _, _. reflexivity. Qed.
