(* ===== verification/MieruPorts.v ===== *)
(** * Mieru port ranges ([core/protocols.go])

    The ports of a Mieru listener are a primary port and textual ranges.  A configuration is
    normalized to the smallest port and the maximal ranges of the others; reading the
    normalized configuration gives the same ports. *)

From S2P Require Import Prelude Model NodeKeys Encodings NetAddr ListenResources.

Local Open Scope Z_scope.

(** ** Text of a range *)

Lemma FormatInt_is_digits n : 0 < n → Forall (λ a, is_digit a = true) (bytes_of (FormatInt n)).
Proof. intros Hn. rewrite FormatInt_pos by done. by apply digits_go. Qed.

Lemma FormatInt_nonempty n : 0 < n ≤ int64_max → bytes_of (FormatInt n) ≠ [].
Proof. intros Hn Hb. pose proof (ParseInt_FormatInt n Hn) as Hp. unfold ParseInt in Hp. by rewrite Hb in Hp. Qed.

Lemma is_digit_plain a : is_digit a = true → plain_byte a ∧ (byte_of a =? 45) = false.
Proof. unfold is_digit, plain_byte. rewrite andb_true_iff, !Z.leb_le. lia. Qed.

Lemma cutDash_digits l : Forall (λ a, is_digit a = true) l → cutDash l = None.
Proof. induction 1 as [|a l Ha _ IH]; [done|]. simpl. destruct (is_digit_plain a Ha) as [_ ->]. by rewrite IH. Qed.

Lemma cutDash_app l r : Forall (λ a, is_digit a = true) l → cutDash (l ++ "-"%char :: r) = Some (l, r).
Proof. induction 1 as [|a l Ha _ IH]; [done|]. simpl. destruct (is_digit_plain a Ha) as [_ ->]. by rewrite IH. Qed.

Definition rangeText (start end_ : Z) : string := (FormatInt start +:+ "-" +:+ FormatInt end_)%string.

Lemma mieruRange_text start end_ : 1 ≤ start ≤ end_ → end_ ≤ 65535 → mieruRange (rangeText start end_) = Ok (start, end_).
Proof.
  intros Hs He. assert (0 < start ≤ int64_max) as Hs64 by (unfold int64_max; lia).
  assert (0 < end_ ≤ int64_max) as He64 by (unfold int64_max; lia).
  pose proof (FormatInt_is_digits start ltac:(lia)) as Hds. pose proof (FormatInt_is_digits end_ ltac:(lia)) as Hde.
  assert (bytes_of (rangeText start end_) = bytes_of (FormatInt start) ++ "-"%char :: bytes_of (FormatInt end_)) as Hb.
  { unfold rangeText. by rewrite !bytes_of_app. }
  unfold mieruRange. rewrite Hb, cutDash_app by done.
  rewrite !of_bytes_bytes_of, !ParseInt_FormatInt, cutDash_digits by done.
  rewrite TrimSpace_plain_byte.
  - rewrite String.eqb_refl, !bool_decide_eq_false_2 by (by apply FormatInt_nonempty || by intros []).
    unfold ValidatePort, fail_if. 
    replace (start <? 1) with false by lia. replace (65535 <? start) with false by lia.
    replace (end_ <? 1) with false by lia. replace (65535 <? end_) with false by lia. simpl.
    by replace (start <=? end_) with true by lia.
  - rewrite Hb. apply Forall_app. split; [|apply Forall_cons; split; [unfold plain_byte; simpl; done|]];
      (eapply Forall_impl; [eassumption|]; intros a Ha; by apply is_digit_plain).
Qed.

(** ** Sets of ports *)

Notation bounded ports := (size ports ≤ MieruMaxPorts)%nat.

(** What [addPorts] adds, and that the set stays within the bound. *)
Lemma addPorts_spec n port ports ports' :
  bounded ports → addPorts n port ports = Ok ports' →
  bounded ports' ∧ ∀ q, q ∈ ports' ↔ q ∈ ports ∨ port ≤ q < port + Z.of_nat n.
Proof.
  revert port ports; induction n as [|n IH]; intros port ports Hb Ha; cbn [addPorts] in Ha.
  - injection Ha as <-. split; [done|]. intros q. intuition lia.
  - destruct (Nat.ltb _ _) eqn:Hlt; [done|]. apply Nat.ltb_ge in Hlt. destruct (IH _ _ Hlt Ha) as [Hb' Hq]. split; [done|].
    intros q. rewrite Hq, elem_of_union, elem_of_singleton. intuition lia.
Qed.

(** It succeeds below a bounded set. *)
Lemma addPorts_total n port ports (T : gset Z) :
  bounded T → ports ⊆ T → (∀ q, port ≤ q < port + Z.of_nat n → q ∈ T) → is_ok (addPorts n port ports) = true.
Proof.
  intros HT. revert port ports; induction n as [|n IH]; intros port ports Hp Hq; cbn [addPorts]; [done|].
  assert ({[port]} ∪ ports ⊆ T) as Hsub.
  { apply union_subseteq. split; [|done]. apply singleton_subseteq_l, Hq. lia. }
  assert (size ({[port]} ∪ ports) ≤ size T)%nat by by apply subseteq_size.
  replace (Nat.ltb _ _) with false by (symmetry; apply Nat.ltb_ge; lia). apply IH; [done|]. intros q ?. apply Hq. lia.
Qed.

Lemma is_ok_Ok {E A} (r : result E A) : is_ok r = true → ∃ a, r = Ok a.
Proof. destruct r; [eauto|done]. Qed.

Lemma mieruRangeStep_text start end_ ports (T : gset Z) :
  1 ≤ start ≤ end_ → end_ ≤ 65535 → bounded T → ports ⊆ T → (∀ q, start ≤ q ≤ end_ → q ∈ T) →
  ∃ ports', mieruRangeStep (rangeText start end_) ports = Ok ports' ∧ (∀ q, q ∈ ports' ↔ q ∈ ports ∨ start ≤ q ≤ end_).
Proof.
  intros Hs He HT Hp Hq. unfold mieruRangeStep. rewrite mieruRange_text by done. cbn [rbind].
  destruct (is_ok_Ok (addPorts (Z.to_nat (end_ - start + 1)) start ports)) as [ports' Ha].
  - eapply addPorts_total; [exact HT|done|]. intros q ?. apply Hq. lia.
  - exists ports'. split; [done|]. apply addPorts_spec in Ha as [_ Hin].
    + intros q. rewrite Hin. intuition lia.
    + etrans; [|exact HT]. by apply subseteq_size.
Qed.

(** Reading the compressed ranges adds exactly the ports. *)
Lemma compressRun_read start end_ l ports (T : gset Z) :
  1 ≤ start ≤ end_ → end_ ≤ 65535 → Forall (λ p, 1 ≤ p ≤ 65535) l → bounded T → ports ⊆ T →
  (∀ q, start ≤ q ≤ end_ ∨ q ∈ l → q ∈ T) →
  ∃ ports', foldM mieruRangeStep (compressRun start end_ l) ports = Ok ports' ∧
    (∀ q, q ∈ ports' ↔ q ∈ ports ∨ start ≤ q ≤ end_ ∨ q ∈ l).
Proof.
  intros Hs He Hl HT. revert start end_ ports Hs He; induction Hl as [|p l Hp Hl IH]; intros start end_ ports Hs He Hsub Hq; cbn [compressRun].
  - destruct (mieruRangeStep_text start end_ ports T) as (ports' & Ha & Hin); auto.
    exists ports'. cbn [foldM]. fold (rangeText start end_). rewrite Ha. split; [done|]. intros q. rewrite Hin. set_solver.
  - destruct (Z.eqb_spec p (end_ + 1)) as [->|Hne].
    + destruct (IH start (end_ + 1) ports) as (ports' & Ha & Hin); [lia|lia|done| |].
      * intros q [?|?]; apply Hq; [|set_solver]. destruct (decide (q = end_ + 1)); [set_solver|]. left. lia.
      * exists ports'. split; [done|]. intros q. rewrite Hin, elem_of_cons. intuition lia.
    + destruct (mieruRangeStep_text start end_ ports T) as (ports1 & Ha1 & Hin1); auto.
      destruct (IH p p ports1) as (ports' & Ha & Hin); [lia|lia| | |].
      * intros q [?|?]%Hin1; [by apply Hsub|apply Hq; auto].
      * intros q [?|?]; apply Hq; right; [|set_solver]. assert (q = p) as -> by lia. set_solver.
      * exists ports'. cbn [foldM]. fold (rangeText start end_). rewrite Ha1. split; [done|]. intros q.
        rewrite Hin, Hin1, elem_of_cons. intuition lia.
Qed.

Lemma compressMieruPorts_read l ports (T : gset Z) :
  Forall (λ p, 1 ≤ p ≤ 65535) l → bounded T → ports ⊆ T → (∀ q, q ∈ l → q ∈ T) →
  ∃ ports', foldM mieruRangeStep (compressMieruPorts l) ports = Ok ports' ∧ (∀ q, q ∈ ports' ↔ q ∈ ports ∨ q ∈ l).
Proof.
  intros Hl HT Hsub Hq. destruct l as [|p l]; [exists ports; split; [done|set_solver]|].
  apply Forall_cons in Hl as [Hp Hl].
  destruct (compressRun_read p p l ports T) as (ports' & Ha & Hin); [lia|lia|done..| |].
  - intros q [?|?]; apply Hq; [assert (q = p) as -> by lia|]; set_solver.
  - exists ports'. split; [done|]. intros q. rewrite Hin, elem_of_cons. intuition lia.
Qed.

(** ** Reading and normalizing *)

Definition portSet (S : gset Z) : Prop := bounded S ∧ ∀ p, p ∈ S → 1 ≤ p ≤ 65535.

Lemma ValidatePort_Ok p : ValidatePort p = Ok () ↔ 1 ≤ p ≤ 65535.
Proof. unfold ValidatePort, fail_if. destruct (Z.ltb_spec p 1), (Z.ltb_spec 65535 p); simpl; split; (done || lia). Qed.

Lemma is_ok_ValidatePort p : is_ok (ValidatePort p) = true → 1 ≤ p ≤ 65535.
Proof. intros H. apply ValidatePort_Ok. by destruct (ValidatePort p) as [[]|]. Qed.

Lemma mieruRange_Ok value start end_ : mieruRange value = Ok (start, end_) → 1 ≤ start ≤ end_ ∧ end_ ≤ 65535.
Proof.
  unfold mieruRange. repeat case_match; intros; simplify_eq.
  repeat match goal with
         | H : _ && _ = true |- _ => apply andb_true_iff in H as [? ?]
         | H : is_ok _ = true |- _ => apply is_ok_ValidatePort in H
         end. lia.
Qed.

Lemma mieruRangeStep_Ok value S S' : portSet S → mieruRangeStep value S = Ok S' → portSet S'.
Proof.
  intros [Hb Hv] Hm. unfold mieruRangeStep in Hm. destruct (mieruRange value) as [[start end_]|] eqn:Hr; [|done]. cbn [rbind] in Hm.
  apply mieruRange_Ok in Hr. apply addPorts_spec in Hm as [Hb' Hin]; [|done]. split; [done|]. intros p [?|?]%Hin; [auto|lia].
Qed.

Lemma mieruRanges_Ok ranges S S' : portSet S → foldM mieruRangeStep ranges S = Ok S' → portSet S'.
Proof.
  revert S; induction ranges as [|value ranges IH]; intros S HS Hf; cbn [foldM] in Hf; [by simplify_eq|].
  destruct (mieruRangeStep value S) as [S1|] eqn:Hs; [|done]. eapply IH; [|exact Hf]. by eapply mieruRangeStep_Ok.
Qed.

Lemma mieruPortsFromValue_Ok primary value ports :
  mieruPortsFromValue primary value = Ok ports → ∃ S, portSet S ∧ S ≠ ∅ ∧ ports = sort_ints (elements S).
Proof.
  unfold mieruPortsFromValue. intros H.
  apply rbind_ok in H as ([] & Hp & H). apply rbind_ok in H as (ranges & _ & H). apply rbind_ok in H as (S & Hf & H).
  case_bool_decide; [done|]. injection H as <-. exists S. split_and!; [|done..].
  eapply mieruRanges_Ok; [|exact Hf]. destruct (Z.eqb_spec primary 0); [split; [by rewrite size_empty; lia|set_solver]|].
  apply ValidatePort_Ok in Hp. split; [rewrite size_singleton; unfold MieruMaxPorts; lia|]. set_solver.
Qed.

Lemma foldM_strings (l : list string) (out : list string) :
  foldM (λ item out, match item with JString s => Ok (out ++ [s]) | _ => Err ErrMieruValue end) (JString <$> l) out
  = Ok (E := ListenErr) (out ++ l).
Proof. revert out; induction l as [|s l IH]; intros out; cbn [fmap list_fmap foldM]; [by rewrite app_nil_r|]. by rewrite IH, <- app_assoc. Qed.

(** The value of the key of the ranges in a normalized configuration. *)
Definition rangeValue (ranges : list string) : option JSON :=
  match ranges with [] => None | _ => Some (JArray (JString <$> ranges)) end.

Lemma rangeValue_strings ranges : mieruPortRangeStrings (rangeValue ranges) = Ok ranges.
Proof. destruct ranges; [done|]. unfold rangeValue. cbn [mieruPortRangeStrings]. by rewrite foldM_strings. Qed.

Lemma sort_ints_elem l q : q ∈ sort_ints l ↔ q ∈ l.
Proof. unfold sort_ints. by rewrite sort_slice_perm. Qed.

(** Reading a first port and the compressed rest of a list of ports. *)
Lemma read_compressed (S : gset Z) p l :
  portSet S → (∀ q, q ∈ S ↔ q ∈ p :: l) →
  mieruPortsFromValue p (rangeValue (compressMieruPorts l)) = Ok (sort_ints (elements S)).
Proof.
  intros [Hb Hv] Hin. assert (1 ≤ p ≤ 65535) as Hp by (apply Hv, Hin; left).
  unfold mieruPortsFromValue. replace (p =? 0) with false by lia. rewrite (proj2 (ValidatePort_Ok p) Hp). cbn [rbind].
  rewrite rangeValue_strings. cbn [rbind].
  destruct (compressMieruPorts_read l {[p]} S) as (S' & -> & HS').
  - apply Forall_forall. intros q Hq. apply Hv, Hin. by right.
  - done.
  - apply singleton_subseteq_l, Hin. left.
  - intros q Hq. apply Hin. by right.
  - cbn [rbind]. assert (S' = S) as ->.
    { apply set_eq. intros q. rewrite HS', Hin, elem_of_singleton. set_solver. }
    rewrite bool_decide_eq_false_2; [done|]. intros ->. assert (p ∈ (∅ : gset Z)) by (apply Hin; left). set_solver.
Qed.

(** Normalizing Mieru ports loses nothing.  When a primary port and ranges are accepted,
    they denote between 1 and 64 ports between 1 and 65535; the normalized configuration,
    the first port of the sorted list with the compressed ranges of the others, is
    accepted too and denotes the same list of ports. *)
Theorem mieru_ports_roundtrip primary value ports :
  mieruPortsFromValue primary value = Ok ports →
  (1 ≤ length ports ≤ MieruMaxPorts)%nat ∧ Forall (λ p, 1 ≤ p ≤ 65535) ports ∧
  ∃ first ranges, normalizedMieruPorts primary value = Ok (first, ranges) ∧
    mieruPortsFromValue first (rangeValue ranges) = Ok ports.
Proof.
  intros Hr. destruct (mieruPortsFromValue_Ok _ _ _ Hr) as (S & HS & Hne & ->).
  assert (length (sort_ints (elements S)) = size S) as Hlen by (unfold sort_ints; by rewrite sort_slice_perm).
  assert (size S ≠ 0)%nat as Hsz by by rewrite size_empty_iff, leibniz_equiv_iff.
  split_and!; [lia|rewrite Hlen; by destruct HS| |].
  - apply Forall_forall. intros p Hp. rewrite sort_ints_elem, elem_of_elements in Hp. by apply HS.
  - destruct (sort_ints (elements S)) as [|p l] eqn:Hs; [simpl in Hlen; lia|].
    exists p, (compressMieruPorts l). unfold normalizedMieruPorts. rewrite Hr. split; [done|]. rewrite <- Hs.
    apply read_compressed; [done|]. intros q. by rewrite <- Hs, sort_ints_elem, elem_of_elements.
Qed.

Lemma mieru_ports_roundtrip_witness :
  normalizedMieruPorts 20005 (Some (JArray [JString "20000-20002"; JString "20004-20004"])) = Ok (20000, ["20001-20002"; "20004-20005"]%string) ∧
  mieruPortsFromValue 20000 (rangeValue ["20001-20002"; "20004-20005"]%string) = Ok [20000; 20001; 20002; 20004; 20005].
Proof.
  destruct (mieru_ports_roundtrip 20005 (Some (JArray [JString "20000-20002"; JString "20004-20004"]))
    [20000; 20001; 20002; 20004; 20005]) as (_ & _ & first & ranges & Hn & Hr); [vm_compute; reflexivity|].
  pose proof Hn as Hn'. vm_compute in Hn'. injection Hn' as <- <-. split; [exact Hn|exact Hr].
Defined.
