(* ===== verification/PortLedger.v ===== *)
(** * The ledger of managed ports ([core/proxy_paths.go], [store/store.go])

    A generated listener is owned by a key (kind, scope, server), whose ports come in
    generations: an active one, and during a migration a preparing and retiring ones.  A
    projection reads the stored rows into a ledger, resolves its listeners against it, and
    the rows it created or corrected are saved with the rows no listener claims removed.

    The generations of an owner are kept by value, in the order of their numbers; a number
    identifies a generation of an owner, of which the constructors below create
    at most one.  [None] is the nil ledger. *)

From S2P Require Import Prelude Model NetAddr ListenResources.

Local Open Scope Z_scope.

(** ** Data *)

Record proxyPathPortKey := { PK_Kind : string; PK_ScopeKey : string; PK_ServerID : Z }.

Global Instance proxyPathPortKey_eq_dec : EqDecision proxyPathPortKey.
Proof. solve_decision. Defined.
Global Instance proxyPathPortKey_countable : Countable proxyPathPortKey.
Proof.
  refine (inj_countable' (λ k, (PK_Kind k, PK_ScopeKey k, PK_ServerID k))
    (λ '(a, b, c), {| PK_Kind := a; PK_ScopeKey := b; PK_ServerID := c |}) _); by intros [].
Defined.

Definition keyOf (row : ProxyPathPortAllocation) : proxyPathPortKey :=
  {| PK_Kind := PA_Kind row; PK_ScopeKey := PA_ScopeKey row; PK_ServerID := PA_ServerID row |}.

(** What a listener asks of the ledger.  [Allocate] and [AllocateOrdinal] are closures of the
    caller that may give another port each time: a requirement carries their answers within
    one operation, those of [Allocate] by the number of the call (an operation calls
    [AllocateOrdinal] once for an ordinal).  They do not depend on the ledger. *)
Record PortRequirement := {
  PR_Kind : string;
  PR_ScopeKey : string;
  PR_ServerID : Z;
  PR_Pool : string;
  PR_ListenIP : string;
  PR_Network : string;
  PR_PolicyRevision : Z;
  PR_Allocate : option (Z → Z);
  PR_AllocateOrdinal : option (Z → Z) }.

Definition requirementKey (r : PortRequirement) : proxyPathPortKey :=
  {| PK_Kind := PR_Kind r; PK_ScopeKey := PR_ScopeKey r; PK_ServerID := PR_ServerID r |}.

Record proxyPathPortGeneration := {
  G_generation : Z;
  G_state : string;
  G_policyRevision : Z;
  G_ports : gmap Z ProxyPathPortAllocation }.

Notation proxyPathPortOwner := (list proxyPathPortGeneration).

Record ProxyPathPortLedger := {
  L_owners : gmap proxyPathPortKey proxyPathPortOwner;
  L_pending : list ProxyPathPortAllocation;
  L_pendingByKey : gset proxyPathPortKey;
  L_used : gset proxyPathPortKey;
  L_removed : gset Z;
  L_complete : bool }.

Inductive LedgerErr :=
| ErrNilLedger
| ErrNoActive (key : proxyPathPortKey)
| ErrNoPort (pool : string) (key : proxyPathPortKey) (generation ordinal : Z)
| ErrNoGenerations (key : proxyPathPortKey)
| ErrNoPreparing (key : proxyPathPortKey)
| ErrNoGeneration (key : proxyPathPortKey) (generation : Z)
| ErrNotRetiring (key : proxyPathPortKey) (generation : Z) (state : string)
| ErrTableCheck (row : ProxyPathPortAllocation).

Definition setOwners (o : gmap proxyPathPortKey proxyPathPortOwner) (l : ProxyPathPortLedger) : ProxyPathPortLedger :=
  {| L_owners := o; L_pending := L_pending l; L_pendingByKey := L_pendingByKey l; L_used := L_used l;
     L_removed := L_removed l; L_complete := L_complete l |}.

Definition recordPending (row : ProxyPathPortAllocation) (key : proxyPathPortKey) (l : ProxyPathPortLedger) : ProxyPathPortLedger :=
  {| L_owners := L_owners l; L_pending := L_pending l ++ [row]; L_pendingByKey := {[key]} ∪ L_pendingByKey l; L_used := L_used l;
     L_removed := L_removed l; L_complete := L_complete l |}.

Definition recordAll (rows : list ProxyPathPortAllocation) (key : proxyPathPortKey) (l : ProxyPathPortLedger) : ProxyPathPortLedger :=
  foldl (λ l row, recordPending row key l) l rows.

(** ** Owners and generations *)

Definition normalizeAllocationState (state : string) : string :=
  if bool_decide (state ∈ [PortAllocationStatePreparing; PortAllocationStateRetiring; PortAllocationStateActive])
  then state else PortAllocationStateActive.

Definition ownerFor (key : proxyPathPortKey) (l : ProxyPathPortLedger) : proxyPathPortOwner := default [] (L_owners l !! key).

Definition generationLess : proxyPathPortGeneration → proxyPathPortGeneration → bool := ltc (onc G_generation Z.compare).

(** [append] and [sort.Slice] by number. *)
Definition addGeneration (gen : proxyPathPortGeneration) (o : proxyPathPortOwner) : proxyPathPortOwner :=
  sort_slice generationLess (o ++ [gen]).

(** The update of the generation of a number. *)
Definition updateGeneration (n : Z) (f : proxyPathPortGeneration → proxyPathPortGeneration) (o : proxyPathPortOwner) : proxyPathPortOwner :=
  (λ gen, if G_generation gen =? n then f gen else gen) <$> o.

Definition findGeneration (n : Z) (o : proxyPathPortOwner) : option proxyPathPortGeneration :=
  List.find (λ gen, G_generation gen =? n) o.

Definition newGeneration (n : Z) (state : string) (revision : Z) (ports : gmap Z ProxyPathPortAllocation) : proxyPathPortGeneration :=
  {| G_generation := n; G_state := state; G_policyRevision := revision; G_ports := ports |}.

(** [generationFor]: the owner with the generation in it. *)
Definition generationFor (n : Z) (o : proxyPathPortOwner) : proxyPathPortOwner :=
  match findGeneration n o with
  | Some _ => o
  | None => addGeneration (newGeneration n PortAllocationStateActive 0 ∅) o
  end.

Definition nextGeneration (o : proxyPathPortOwner) : Z :=
  foldl (λ next gen, if next <=? G_generation gen then G_generation gen + 1 else next) 1 o.

Definition activeGeneration (o : proxyPathPortOwner) : option proxyPathPortGeneration :=
  foldl (λ active gen,
    if negb (G_state gen =? PortAllocationStateActive)%string then active
    else match active with
         | None => Some gen
         | Some a => if G_generation a <? G_generation gen then Some gen else active
         end) None o.

Definition generationByState (state : string) (o : proxyPathPortOwner) : option proxyPathPortGeneration :=
  List.find (λ gen, (G_state gen =? state)%string) o.

(** The ordinals of a generation in order, and its rows in that order. *)
Definition ordinals (g : proxyPathPortGeneration) : list Z := sort_ints (elements (dom (G_ports g))).
Definition rowsInOrder (g : proxyPathPortGeneration) : list ProxyPathPortAllocation := omap (λ o, G_ports g !! o) (ordinals g).

Definition primaryRow (g : proxyPathPortGeneration) : option ProxyPathPortAllocation :=
  foldl (λ best ordinal,
    match best with
    | Some b => if ordinal <? PA_Ordinal b then G_ports g !! ordinal else best
    | None => G_ports g !! ordinal
    end) None (ordinals g).

(** ** The ledger of stored rows *)

Definition normalizedGeneration (row : ProxyPathPortAllocation) : Z := if PA_Generation row <=? 0 then 1 else PA_Generation row.
Definition normalizedOrdinal (row : ProxyPathPortAllocation) : Z := if PA_Ordinal row <? 0 then 0 else PA_Ordinal row.

Definition storeRow (row : ProxyPathPortAllocation) (gen : proxyPathPortGeneration) : proxyPathPortGeneration :=
  {| G_generation := G_generation gen; G_state := normalizeAllocationState (PA_State row);
     G_policyRevision := if G_policyRevision gen <? PA_PolicyRevision row then PA_PolicyRevision row else G_policyRevision gen;
     G_ports := <[normalizedOrdinal row := row]> (G_ports gen) |}.

Definition loadRow (l : ProxyPathPortLedger) (row : ProxyPathPortAllocation) : ProxyPathPortLedger :=
  if PA_Port row <=? 0 then l
  else
    let n := normalizedGeneration row in
    setOwners (<[keyOf row := updateGeneration n (storeRow row) (generationFor n (ownerFor (keyOf row) l))]> (L_owners l)) l.

Definition emptyLedger : ProxyPathPortLedger :=
  {| L_owners := ∅; L_pending := []; L_pendingByKey := ∅; L_used := ∅; L_removed := ∅; L_complete := false |}.

Definition NewProxyPathPortLedger (allocations : list ProxyPathPortAllocation) : ProxyPathPortLedger :=
  foldl loadRow emptyLedger allocations.

(** ** Resolution *)

Definition metadataDiverges (stored : ProxyPathPortAllocation) (r : PortRequirement) : bool :=
  negb (PA_Pool stored =? PR_Pool r)%string || negb (PA_ListenIP stored =? PR_ListenIP r)%string ||
  negb (PA_Network stored =? forwardNetworkName (PR_Network r))%string.

Definition correctedRow (row : ProxyPathPortAllocation) (r : PortRequirement) : ProxyPathPortAllocation :=
  {| PA_ID := PA_ID row; PA_Kind := PA_Kind row; PA_ScopeKey := PA_ScopeKey row; PA_ServerID := PA_ServerID row;
     PA_Pool := PR_Pool r; PA_ListenIP := PR_ListenIP r; PA_Network := forwardNetworkName (PR_Network r);
     PA_Generation := PA_Generation row; PA_Ordinal := PA_Ordinal row; PA_Port := PA_Port row; PA_State := PA_State row;
     PA_PolicyRevision := PA_PolicyRevision row |}.

Definition newRow (r : PortRequirement) (generation ordinal port : Z) (state : string) : ProxyPathPortAllocation :=
  {| PA_ID := 0; PA_Kind := PR_Kind r; PA_ScopeKey := PR_ScopeKey r; PA_ServerID := PR_ServerID r; PA_Pool := PR_Pool r;
     PA_ListenIP := PR_ListenIP r; PA_Network := forwardNetworkName (PR_Network r); PA_Generation := generation;
     PA_Ordinal := ordinal; PA_Port := port; PA_State := state; PA_PolicyRevision := PR_PolicyRevision r |}.

Definition withPorts (ports : gmap Z ProxyPathPortAllocation) (g : proxyPathPortGeneration) : proxyPathPortGeneration :=
  newGeneration (G_generation g) (G_state g) (G_policyRevision g) ports.

Definition markUsed (key : proxyPathPortKey) (l : ProxyPathPortLedger) : ProxyPathPortLedger :=
  {| L_owners := <[key := ownerFor key l]> (L_owners l); L_pending := L_pending l; L_pendingByKey := L_pendingByKey l;
     L_used := {[key]} ∪ L_used l; L_removed := L_removed l; L_complete := L_complete l |}.

(** The port a fresh owner asks for: the first ordinal, then the plain function. *)
Definition allocatedPort (r : PortRequirement) : Z :=
  let port := match PR_AllocateOrdinal r with Some f => f 0 | None => 0 end in
  if port <=? 0 then match PR_Allocate r with Some f => f 0 | None => port end else port.

Definition resolve (ledger : option ProxyPathPortLedger) (r : PortRequirement) : Z * option ProxyPathPortLedger :=
  match ledger with
  | None => (match PR_Allocate r with Some f => f 0 | None => 0 end, None)
  | Some l =>
      let key := requirementKey r in
      let l := markUsed key l in
      let owner := ownerFor key l in
      match activeGeneration owner with
      | Some gen =>
          match primaryRow gen with
          | None => (0, Some l)
          | Some item =>
              if metadataDiverges item r then
                let corrected := correctedRow item r in
                let owner := updateGeneration (G_generation gen) (λ g, withPorts (<[PA_Ordinal item := corrected]> (G_ports g)) g) owner in
                (PA_Port item, Some (recordPending corrected key (setOwners (<[key := owner]> (L_owners l)) l)))
              else (PA_Port item, Some l)
          end
      | None =>
          let port := allocatedPort r in
          if port <=? 0 then (0, Some l)
          else
            let generation := nextGeneration owner in
            let row := newRow r generation 0 port PortAllocationStateActive in
            let gen := newGeneration generation PortAllocationStateActive (PR_PolicyRevision r) {[0 := row]} in
            (port, Some (recordPending row key (setOwners (<[key := addGeneration gen owner]> (L_owners l)) l)))
      end
  end.

(** ** Migration *)

(** The candidate ports of the ordinals from [ordinal] on, [n] of them; the call of [Allocate] for
    an ordinal is the one of this number. *)
Fixpoint candidatePorts (r : PortRequirement) (generation : Z) (ordinal : Z) (n : nat) : result LedgerErr (list (Z * Z)) :=
  match n with
  | O => Ok []
  | S n =>
      let port := match PR_AllocateOrdinal r with Some f => f ordinal | None => match PR_Allocate r with Some f => f ordinal | None => 0 end end in
      if port <=? 0 then Err (ErrNoPort (PR_Pool r) (requirementKey r) generation ordinal)
      else match candidatePorts r generation (ordinal + 1) n with
           | Ok rest => Ok ((ordinal, port) :: rest)
           | Err e => Err e
           end
  end.

(** [ownerFor] leaves an empty owner behind when there was none. *)
Definition touchOwner (key : proxyPathPortKey) (l : ProxyPathPortLedger) : ProxyPathPortLedger :=
  setOwners (<[key := ownerFor key l]> (L_owners l)) l.

Definition AllocatePreparing (ledger : option ProxyPathPortLedger) (r : PortRequirement) (count : Z) :
    result LedgerErr (list ProxyPathPortAllocation) * option ProxyPathPortLedger :=
  match ledger with
  | None => (Err ErrNilLedger, None)
  | Some l =>
      let count := if count <=? 0 then 1 else count in
      let key := requirementKey r in
      let l := touchOwner key l in
      let owner := ownerFor key l in
      match activeGeneration owner with
      | None => (Err (ErrNoActive key), Some l)
      | Some _ =>
          let generation := nextGeneration owner in
          match candidatePorts r generation 0 (Z.to_nat count) with
          | Err e => (Err e, Some l)
          | Ok candidates =>
              let rows := (λ '(ordinal, port), newRow r generation ordinal port PortAllocationStatePreparing) <$> candidates in
              let gen := newGeneration generation PortAllocationStatePreparing (PR_PolicyRevision r)
                           (list_to_map ((λ row, (PA_Ordinal row, row)) <$> rows)) in
              (Ok rows, Some (recordAll rows key (setOwners (<[key := addGeneration gen owner]> (L_owners l)) l)))
          end
      end
  end.

Inductive migrationPhase := PortMigrationPhasePrepare | PortMigrationPhaseSwitch | PortMigrationPhaseRetire.
Global Instance migrationPhase_eq_dec : EqDecision migrationPhase.
Proof. solve_decision. Defined.

(** [None] is any other phase. *)
Definition generationInPhase (state : string) (phase : option migrationPhase) : bool :=
  match phase with
  | Some PortMigrationPhasePrepare | Some PortMigrationPhaseSwitch =>
      (state =? PortAllocationStateActive)%string || (state =? PortAllocationStatePreparing)%string
  | Some PortMigrationPhaseRetire => (state =? PortAllocationStateActive)%string || (state =? PortAllocationStateRetiring)%string
  | None => (state =? PortAllocationStateActive)%string
  end.

Definition RowsForPhase (ledger : option ProxyPathPortLedger) (r : PortRequirement) (phase : option migrationPhase) :
    list ProxyPathPortAllocation :=
  match ledger with
  | None => []
  | Some l => match L_owners l !! requirementKey r with
              | None => []
              | Some owner => flat_map rowsInOrder (List.filter (λ g, generationInPhase (G_state g) phase) owner)
              end
  end.

Definition LookupActive (ledger : option ProxyPathPortLedger) (key : proxyPathPortKey) : option Z :=
  match ledger with
  | None => None
  | Some l =>
      match L_owners l !! key with
      | None => None
      | Some owner =>
          match activeGeneration owner with
          | None => None
          | Some gen => match primaryRow gen with
                        | Some item => if PA_Port item <=? 0 then None else Some (PA_Port item)
                        | None => None
                        end
          end
      end
  end.

Definition ResolveForPhase (ledger : option ProxyPathPortLedger) (r : PortRequirement) (phase : option migrationPhase) :
    Z * option ProxyPathPortLedger :=
  match ledger with
  | None => (0, None)
  | Some l =>
      if negb (bool_decide (phase = Some PortMigrationPhaseSwitch)) then resolve ledger r
      else match L_owners l !! requirementKey r with
           | None => (0, ledger)
           | Some owner => match generationByState PortAllocationStatePreparing owner with
                           | None => (0, ledger)
                           | Some gen => (match primaryRow gen with Some item => PA_Port item | None => 0 end, ledger)
                           end
           end
  end.

Definition withState (state : string) (row : ProxyPathPortAllocation) : ProxyPathPortAllocation :=
  {| PA_ID := PA_ID row; PA_Kind := PA_Kind row; PA_ScopeKey := PA_ScopeKey row; PA_ServerID := PA_ServerID row;
     PA_Pool := PA_Pool row; PA_ListenIP := PA_ListenIP row; PA_Network := PA_Network row; PA_Generation := PA_Generation row;
     PA_Ordinal := PA_Ordinal row; PA_Port := PA_Port row; PA_State := state; PA_PolicyRevision := PA_PolicyRevision row |}.

(** A generation and its rows change state. *)
Definition transition (state : string) (g : proxyPathPortGeneration) : proxyPathPortGeneration :=
  newGeneration (G_generation g) state (G_policyRevision g) (withState state <$> G_ports g).

Section migration.
Context {M : MapRange Z ProxyPathPortAllocation}.

(** The rows of a generation in a new state, in the order of the map. *)
Definition movedRows (state : string) (g : proxyPathPortGeneration) : list ProxyPathPortAllocation :=
  withState state <$> (map_range (G_ports g)).*2.

Definition PromotePreparing (ledger : option ProxyPathPortLedger) (key : proxyPathPortKey) :
    result LedgerErr (list ProxyPathPortAllocation) * option ProxyPathPortLedger :=
  match ledger with
  | None => (Err ErrNilLedger, None)
  | Some l =>
      match L_owners l !! key with
      | None => (Err (ErrNoGenerations key), ledger)
      | Some owner =>
          match generationByState PortAllocationStatePreparing owner with
          | None => (Err (ErrNoPreparing key), ledger)
          | Some preparing =>
              let promoted := updateGeneration (G_generation preparing) (transition PortAllocationStateActive) owner in
              let rows := movedRows PortAllocationStateActive preparing in
              match activeGeneration owner with
              | None => (Ok rows, Some (recordAll rows key (setOwners (<[key := promoted]> (L_owners l)) l)))
              | Some active =>
                  let retired := updateGeneration (G_generation active) (transition PortAllocationStateRetiring) promoted in
                  let rows := rows ++ movedRows PortAllocationStateRetiring active in
                  (Ok rows, Some (recordAll rows key (setOwners (<[key := retired]> (L_owners l)) l)))
              end
          end
      end
  end.

Definition MarkActiveRetiring (ledger : option ProxyPathPortLedger) (key : proxyPathPortKey) :
    result LedgerErr (list ProxyPathPortAllocation) * option ProxyPathPortLedger :=
  match ledger with
  | None => (Err ErrNilLedger, None)
  | Some l =>
      match L_owners l !! key with
      | None => (Err (ErrNoGenerations key), ledger)
      | Some owner =>
          match activeGeneration owner with
          | None => (Err (ErrNoActive key), ledger)
          | Some active =>
              let owner := updateGeneration (G_generation active) (transition PortAllocationStateRetiring) owner in
              let rows := movedRows PortAllocationStateRetiring active in
              (Ok rows, Some (recordAll rows key (setOwners (<[key := owner]> (L_owners l)) l)))
          end
      end
  end.

(** The identifiers of the rows that were not yet removed. *)
Definition retiredIDs (l : ProxyPathPortLedger) (g : proxyPathPortGeneration) : list Z :=
  foldl (λ ids id, if (0 <? id) && negb (bool_decide (id ∈ L_removed l)) && negb (bool_decide (id ∈ ids)) then ids ++ [id] else ids)
    [] (PA_ID <$> (map_range (G_ports g)).*2).

Definition DeleteRetired (ledger : option ProxyPathPortLedger) (key : proxyPathPortKey) (generation : Z) :
    result LedgerErr (list Z) * option ProxyPathPortLedger :=
  match ledger with
  | None => (Err ErrNilLedger, None)
  | Some l =>
      match L_owners l !! key with
      | None => (Err (ErrNoGenerations key), ledger)
      | Some owner =>
          match findGeneration generation owner with
          | None => (Err (ErrNoGeneration key generation), ledger)
          | Some target =>
              if negb (G_state target =? PortAllocationStateRetiring)%string
              then (Err (ErrNotRetiring key generation (G_state target)), ledger)
              else
                let ids := retiredIDs l target in
                let owner := List.filter (λ g, negb (G_generation g =? generation)) owner in
                (Ok ids, Some {| L_owners := <[key := owner]> (L_owners l); L_pending := L_pending l;
                                 L_pendingByKey := L_pendingByKey l; L_used := L_used l;
                                 L_removed := list_to_set ids ∪ L_removed l; L_complete := L_complete l |})
          end
      end
  end.
End migration.

Definition markProjectionComplete (ledger : option ProxyPathPortLedger) : option ProxyPathPortLedger :=
  (λ l, {| L_owners := L_owners l; L_pending := L_pending l; L_pendingByKey := L_pendingByKey l; L_used := L_used l;
           L_removed := L_removed l; L_complete := true |}) <$> ledger.

Definition staleRow (l : ProxyPathPortLedger) (row : ProxyPathPortAllocation) : bool :=
  negb (PA_Kind row =? ProxyPathPortKindSnellUser)%string &&
  (bool_decide (PA_ID row ∈ L_removed l) ||
   negb (bool_decide (keyOf row ∈ L_used l)) && negb (bool_decide (keyOf row ∈ L_pendingByKey l))).

Definition StaleProxyPathPortAllocationIDs (stored : list ProxyPathPortAllocation) (ledger : option ProxyPathPortLedger) : list Z :=
  match ledger with
  | None => []
  | Some l => if negb (L_complete l) then [] else PA_ID <$> List.filter (staleRow l) stored
  end.

Definition Pending (ledger : option ProxyPathPortLedger) : list ProxyPathPortAllocation :=
  match ledger with None => [] | Some l => L_pending l end.

(** ** The table *)

Record allocationTable := { T_rows : list ProxyPathPortAllocation; T_next : Z }.

(** [order by kind, scope_key, server_id, generation, ordinal]. *)
Definition allocationOrder : ProxyPathPortAllocation → ProxyPathPortAllocation → comparison :=
  lexc (onc PA_Kind String.compare) (lexc (onc PA_ScopeKey String.compare) (lexc (onc PA_ServerID Z.compare)
    (lexc (onc PA_Generation Z.compare) (onc PA_Ordinal Z.compare)))).

Definition ListProxyPathPortAllocations (t : allocationTable) : list ProxyPathPortAllocation :=
  sort_slice (ltc allocationOrder) (T_rows t).

(** The checks of the table. *)
Definition rowChecks (row : ProxyPathPortAllocation) : bool :=
  bool_decide (PA_Pool row ∈ [PortPoolPublic; PortPoolInternal]) &&
  bool_decide (PA_Network row ∈ ["tcp"; "udp"; "tcp_udp"]%string) &&
  bool_decide (PA_State row ∈ [PortAllocationStateActive; PortAllocationStatePreparing; PortAllocationStateRetiring]) &&
  (0 <? PA_Generation row) && (0 <=? PA_Ordinal row) && (1 <=? PA_Port row) && (PA_Port row <=? 65535).

Definition sameSlot (a b : ProxyPathPortAllocation) : bool :=
  bool_decide (keyOf a = keyOf b) && (PA_Generation a =? PA_Generation b) && (PA_Ordinal a =? PA_Ordinal b).

Definition withID (id : Z) (row : ProxyPathPortAllocation) : ProxyPathPortAllocation :=
  {| PA_ID := id; PA_Kind := PA_Kind row; PA_ScopeKey := PA_ScopeKey row; PA_ServerID := PA_ServerID row;
     PA_Pool := PA_Pool row; PA_ListenIP := PA_ListenIP row; PA_Network := PA_Network row; PA_Generation := PA_Generation row;
     PA_Ordinal := PA_Ordinal row; PA_Port := PA_Port row; PA_State := PA_State row; PA_PolicyRevision := PA_PolicyRevision row |}.

(** [insert ... on conflict ... do update]. *)
Definition upsertRow (row : ProxyPathPortAllocation) (t : allocationTable) : result LedgerErr allocationTable :=
  if negb (rowChecks row) then Err (ErrTableCheck row)
  else if existsb (sameSlot row) (T_rows t)
  then Ok {| T_rows := (λ old, if sameSlot row old then withID (PA_ID old) row else old) <$> T_rows t; T_next := T_next t |}
  else Ok {| T_rows := T_rows t ++ [withID (T_next t) row]; T_next := T_next t + 1 |}.

Definition SaveProxyPathPortAllocations (added : list ProxyPathPortAllocation) (removedIDs : list Z) (t : allocationTable) :
    result LedgerErr allocationTable :=
  match foldM upsertRow added t with
  | Err e => Err e
  | Ok t => Ok {| T_rows := List.filter (λ row, negb (bool_decide (PA_ID row ∈ removedIDs))) (T_rows t); T_next := T_next t |}
  end.
