(* ===== verification/PortLedgerSafety.v ===== *)
(** * What the ledger of ports guarantees

    Well-formed ledgers, the invariant of every operation; the active port of an owner, which
    only a migration moves; and the saved rows, from which the next projection reads the
    same ports. *)

From S2P Require Import Prelude Model NetAddr ListenResources PortLedger.

Local Open Scope Z_scope.

(** ** Well-formed owners *)

Notation isActive g := (G_state g = PortAllocationStateActive).

Record wfGen (key : proxyPathPortKey) (g : proxyPathPortGeneration) : Prop := {
  wg_number : 0 < G_generation g;
  wg_ports : G_ports g ≠ ∅;
  wg_row o row : G_ports g !! o = Some row →
    keyOf row = key ∧ PA_Generation row = G_generation g ∧ PA_Ordinal row = o ∧ 0 ≤ o ∧
    PA_State row = G_state g ∧ 0 < PA_Port row }.

Record wfOwner (key : proxyPathPortKey) (o : proxyPathPortOwner) : Prop := {
  wo_sorted : StronglySorted (λ a b, G_generation a < G_generation b) o;
  wo_gens : Forall (wfGen key) o;
  wo_active a b : a ∈ o → b ∈ o → isActive a → isActive b → a = b }.

Definition wfLedger (l : ProxyPathPortLedger) : Prop := ∀ key, wfOwner key (ownerFor key l).

(** The row of a generation and an ordinal. *)
Definition orow (o : proxyPathPortOwner) (g ord : Z) : option ProxyPathPortAllocation :=
  findGeneration g o ≫= λ gen, G_ports gen !! ord.

(** The port of the active generation. *)
Definition activePort (o : proxyPathPortOwner) : option Z :=
  match activeGeneration o with
  | None => None
  | Some gen => match primaryRow gen with
                | Some item => if PA_Port item <=? 0 then None else Some (PA_Port item)
                | None => None
                end
  end.

Lemma LookupActive_activePort l key : LookupActive (Some l) key = activePort (ownerFor key l).
Proof. unfold LookupActive, ownerFor. by destruct (L_owners l !! key). Qed.

Lemma sorted_number_inj o a b :
  StronglySorted (λ a b, G_generation a < G_generation b) o → a ∈ o → b ∈ o → G_generation a = G_generation b → a = b.
Proof.
  induction 1 as [|x o _ IH Hx]; [by intros ?%not_elem_of_nil|]. rewrite Forall_forall in Hx.
  intros [->|Ha]%elem_of_cons [->|Hb]%elem_of_cons Heq; auto.
  - specialize (Hx b Hb). lia.
  - specialize (Hx a Ha). lia.
Qed.

Lemma findGeneration_Some n o g :
  StronglySorted (λ a b, G_generation a < G_generation b) o → findGeneration n o = Some g ↔ g ∈ o ∧ G_generation g = n.
Proof.
  intros Hs. unfold findGeneration. split.
  - intros [Hin%list_elem_of_In Hn%Z.eqb_eq]%List.find_some. done.
  - intros [Hin Hn]. destruct (List.find _ o) as [g'|] eqn:Hf.
    + apply List.find_some in Hf as [Hin'%list_elem_of_In Hn'%Z.eqb_eq]. f_equal. eapply sorted_number_inj; [done..|congruence].
    + apply list_elem_of_In in Hin. eapply List.find_none in Hf; [|exact Hin]. apply Z.eqb_neq in Hf. done.
Qed.

Lemma findGeneration_None n o : findGeneration n o = None ↔ ∀ g, g ∈ o → G_generation g ≠ n.
Proof.
  unfold findGeneration. split.
  - intros Hf g Hin%list_elem_of_In. eapply List.find_none in Hf; [|exact Hin]. by apply Z.eqb_neq.
  - intros Hn. destruct (List.find _ o) as [g|] eqn:Hf; [|done].
    apply List.find_some in Hf as [Hin%list_elem_of_In Heq%Z.eqb_eq]. by destruct (Hn g).
Qed.

Lemma orow_Some key o g ord row :
  wfOwner key o → orow o g ord = Some row ↔ ∃ gen, gen ∈ o ∧ G_generation gen = g ∧ G_ports gen !! ord = Some row.
Proof.
  intros Hwf. unfold orow. rewrite bind_Some. setoid_rewrite findGeneration_Some; [|apply Hwf]. naive_solver.
Qed.

(** *** The active generation *)

Notation activeStep := (λ (active : option proxyPathPortGeneration) gen,
  if negb (G_state gen =? PortAllocationStateActive)%string then active
  else match active with
       | None => Some gen
       | Some a => if G_generation a <? G_generation gen then Some gen else active
       end).

Lemma activeFold_member o acc g :
  foldl activeStep acc o = Some g → acc = Some g ∨ (g ∈ o ∧ isActive g).
Proof.
  revert acc; induction o as [|x o IH]; intros acc Hf; cbn [foldl] in Hf; [by left|].
  apply IH in Hf as [Hf|[? ?]]; [|right; split; [by right|done]].
  destruct (G_state x =? PortAllocationStateActive)%string eqn:Hx; cbn [negb] in Hf; [|by left].
  apply String.eqb_eq in Hx. destruct acc as [a|]; [destruct (_ <? _)|]; simplify_eq; auto; right; split; (left || done).
Qed.

Lemma activeFold_None o acc :
  foldl activeStep acc o = None → acc = None ∧ ∀ g, g ∈ o → ¬ isActive g.
Proof.
  revert acc; induction o as [|x o IH]; intros acc Hf; cbn [foldl] in Hf; [split; [done|by intros g ?%not_elem_of_nil]|].
  apply IH in Hf as [Hf Hno]. destruct (G_state x =? PortAllocationStateActive)%string eqn:Hx; cbn [negb] in Hf.
  - destruct acc as [a|]; [by destruct (_ <? _)|done].
  - split; [done|]. apply String.eqb_neq in Hx. intros g [->|Hg]%elem_of_cons; [done|auto].
Qed.

Lemma activeGeneration_Some key o g : wfOwner key o → activeGeneration o = Some g ↔ g ∈ o ∧ isActive g.
Proof.
  intros Hwf. unfold activeGeneration. split.
  - by intros [?|?]%activeFold_member.
  - intros [Hin Ha]. destruct (foldl activeStep None o) as [g'|] eqn:Hf.
    + apply activeFold_member in Hf as [?|[Hin' Ha']]; [done|]. f_equal. by eapply wo_active.
    + apply activeFold_None in Hf as [_ Hno]. by destruct (Hno g).
Qed.

Lemma activeGeneration_None o : activeGeneration o = None → ∀ g, g ∈ o → ¬ isActive g.
Proof. by intros [_ H]%activeFold_None. Qed.

(** *** The primary row *)

Lemma elem_of_ordinals g o : o ∈ ordinals g ↔ is_Some (G_ports g !! o).
Proof. unfold ordinals, sort_ints. by rewrite elem_of_sort_slice, elem_of_elements, elem_of_dom. Qed.

Lemma primaryFold key g os b :
  wfGen key g → Forall (λ o, is_Some (G_ports g !! o)) os → G_ports g !! PA_Ordinal b = Some b →
  ∃ row, foldl (λ best ordinal,
      match best with
      | Some b => if ordinal <? PA_Ordinal b then G_ports g !! ordinal else best
      | None => G_ports g !! ordinal
      end) (Some b) os = Some row ∧ G_ports g !! PA_Ordinal row = Some row ∧ PA_Ordinal row ≤ PA_Ordinal b ∧ Forall (λ o, PA_Ordinal row ≤ o) os.
Proof.
  intros Hwf Hos. revert b; induction Hos as [|o os [row Hrow] _ IH]; intros b Hb; cbn [foldl]; [by exists b|].
  destruct (Z.ltb_spec o (PA_Ordinal b)).
  - assert (PA_Ordinal row = o) as Ho by by eapply wg_row. rewrite Hrow.
    destruct (IH row) as (r & -> & Hr & Hle & Hall); [congruence|]. exists r. split_and!; [done..|lia|]. constructor; [lia|done].
  - destruct (IH b Hb) as (r & -> & Hr & Hle & Hall). exists r. split_and!; [done..|]. constructor; [lia|done].
Qed.

Lemma primaryRow_spec key g :
  wfGen key g →
  ∃ row, primaryRow g = Some row ∧ G_ports g !! PA_Ordinal row = Some row ∧ ∀ o, is_Some (G_ports g !! o) → PA_Ordinal row ≤ o.
Proof.
  intros Hwf. unfold primaryRow.
  assert (Forall (λ o, is_Some (G_ports g !! o)) (ordinals g)) as Hos by (apply Forall_forall; intros o; by rewrite elem_of_ordinals).
  destruct (ordinals g) as [|o os] eqn:Ho.
  - destruct (map_choose (G_ports g)) as (o & row & Hrow); [apply Hwf|].
    assert (o ∈ ordinals g) as Hin by (rewrite elem_of_ordinals; by eexists). rewrite Ho in Hin. by apply not_elem_of_nil in Hin.
  - apply Forall_cons in Hos as [[b Hb] Hos]. cbn [foldl]. rewrite Hb.
    assert (PA_Ordinal b = o) as Hbo by by eapply wg_row.
    destruct (primaryFold key g os b Hwf Hos) as (row & Hf & Hrow & Hle & Hall); [congruence|].
    exists row. split_and!; [done..|]. intros o' Ho'. rewrite <- elem_of_ordinals, Ho in Ho'. rewrite Forall_forall in Hall.
    apply elem_of_cons in Ho' as [->|?]; [lia|auto].
Qed.

(** The active port in terms of the rows alone. *)
Lemma activePort_Some key o p :
  wfOwner key o →
  activePort o = Some p ↔ ∃ g ord row, orow o g ord = Some row ∧ PA_State row = PortAllocationStateActive ∧ PA_Port row = p ∧
    ∀ g' ord' row', orow o g' ord' = Some row' → PA_State row' = PortAllocationStateActive → ord ≤ ord'.
Proof.
  intros Hwf. pose proof (wo_gens _ _ Hwf) as Hgens. rewrite Forall_forall in Hgens. unfold activePort. split.
  - destruct (activeGeneration o) as [gen|] eqn:Ha; [|done]. apply (activeGeneration_Some key) in Ha as [Hin Hact]; [|done].
    destruct (primaryRow_spec key gen) as (row & -> & Hrow & Hmin); [auto|]. destruct (_ <=? 0); [done|]. intros [= <-].
    destruct (wg_row _ _ (Hgens gen Hin) _ _ Hrow) as (_ & _ & _ & _ & Hst & _).
    exists (G_generation gen), (PA_Ordinal row), row. split_and!; [apply (orow_Some key); eauto|congruence|done|].
    intros g' ord' row' (gen' & Hin' & _ & Hrow')%(orow_Some key) Hst'; [|done].
    destruct (wg_row _ _ (Hgens gen' Hin') _ _ Hrow') as (_ & _ & _ & _ & Hst2 & _).
    assert (gen' = gen) as -> by (eapply wo_active; [exact Hwf|..]; congruence || done). apply Hmin. by eexists.
  - intros (g & ord & row & (gen & Hin & <- & Hrow)%(orow_Some key) & Hst & <- & Hmin); [|done].
    destruct (wg_row _ _ (Hgens gen Hin) _ _ Hrow) as (_ & _ & Hord & _ & Hst2 & Hport).
    assert (activeGeneration o = Some gen) as -> by (apply (activeGeneration_Some key); [done|]; split; [done|congruence]).
    destruct (primaryRow_spec key gen) as (row0 & -> & Hrow0 & Hmin0); [auto|].
    assert (row0 = row) as ->.
    { destruct (wg_row _ _ (Hgens gen Hin) _ _ Hrow0) as (_ & _ & Hord0 & _ & Hst0 & _).
      assert (ord ≤ PA_Ordinal row0) by (eapply Hmin; [apply (orow_Some key); eauto|congruence]).
      assert (PA_Ordinal row0 ≤ ord) by (apply Hmin0; by eexists).
      assert (PA_Ordinal row0 = ord) as Heq by lia. rewrite Heq in Hrow0. congruence. }
    replace (PA_Port row <=? 0) with false by lia. done.
Qed.

(** Without the identifier of the row. *)
Definition erase : ProxyPathPortAllocation → ProxyPathPortAllocation := withID 0.

Definition activeOnly (row : ProxyPathPortAllocation) : option Z :=
  if bool_decide (PA_State row = PortAllocationStateActive) then Some (PA_Port row) else None.

Lemma activeOnly_erase row : activeOnly (erase row) = activeOnly row.
Proof. done. Qed.

(** Owners with the same active rows have the same active port. *)
Lemma activePort_ext key o o' :
  wfOwner key o → wfOwner key o' → (∀ g ord, orow o g ord ≫= activeOnly = orow o' g ord ≫= activeOnly) → activePort o = activePort o'.
Proof.
  assert (∀ o g ord p, orow o g ord ≫= activeOnly = Some p ↔ ∃ row, orow o g ord = Some row ∧ PA_State row = PortAllocationStateActive ∧ PA_Port row = p) as Hview.
  { intros o1 g ord p. rewrite bind_Some. unfold activeOnly. split.
    - intros (row & Hrow & Hp). case_bool_decide; simplify_eq. eauto.
    - intros (row & Hrow & Hst & <-). exists row. split; [done|]. by rewrite bool_decide_eq_true_2. }
  assert (∀ o1 o2 p, wfOwner key o1 → wfOwner key o2 → (∀ g ord, orow o1 g ord ≫= activeOnly = orow o2 g ord ≫= activeOnly) →
    activePort o1 = Some p → activePort o2 = Some p) as Himp.
  { intros o1 o2 p H1 H2 He (g & ord & row & Hrow & Hst & Hp & Hmin)%(activePort_Some key); [|done].
    apply (activePort_Some key); [done|].
    assert (orow o2 g ord ≫= activeOnly = Some p) as (row2 & Hrow2 & Hst2 & Hp2)%Hview by (rewrite <- He; apply Hview; eauto).
    exists g, ord, row2. split_and!; [done..|]. intros g' ord' row' Hrow' Hst'.
    assert (orow o1 g' ord' ≫= activeOnly = Some (PA_Port row')) as (row1 & Hrow1 & Hst1 & _)%Hview by (rewrite He; apply Hview; eauto).
    by eapply Hmin. }
  intros Hwf Hwf' Hext. destruct (activePort o) as [p|] eqn:Hp; [symmetry; by apply (Himp o o')|].
  destruct (activePort o') as [p|] eqn:Hp'; [|done]. rewrite (Himp o' o p Hwf' Hwf) in Hp; [done|by intros; symmetry|done].
Qed.

(** ** Operations on owners *)

Notation numbered := (StronglySorted (λ a b : proxyPathPortGeneration, G_generation a < G_generation b)).

Lemma nextGeneration_fold o n :
  n ≤ foldl (λ next gen, if next <=? G_generation gen then G_generation gen + 1 else next) n o ∧
  ∀ g, g ∈ o → G_generation g < foldl (λ next gen, if next <=? G_generation gen then G_generation gen + 1 else next) n o.
Proof.
  revert n; induction o as [|x o IH]; intros n; cbn [foldl]; [split; [lia|by intros g ?%not_elem_of_nil]|].
  destruct (IH (if n <=? G_generation x then G_generation x + 1 else n)) as [Hle Hall].
  destruct (Z.leb_spec n (G_generation x)); (split; [lia|]; intros g [->|Hg]%elem_of_cons; [lia|auto]).
Qed.

Lemma nextGeneration_fresh o : 0 < nextGeneration o ∧ ∀ g, g ∈ o → G_generation g < nextGeneration o.
Proof. destruct (nextGeneration_fold o 1) as [? ?]. split; [unfold nextGeneration; lia|done]. Qed.

#[export] Instance generationLess_sw : StrictWeak generationLess.
Proof. unfold generationLess. apply _. Qed.

Lemma numbered_strict l :
  StronglySorted (le_of generationLess) l → NoDup (G_generation <$> l) → numbered l.
Proof.
  induction 1 as [|x l _ IH Hx]; intros Hnd; [constructor|]. apply NoDup_cons in Hnd as [Hn Hnd]. constructor; [auto|].
  rewrite Forall_forall in Hx |- *. intros y Hy. specialize (Hx y Hy).
  assert (G_generation x ≠ G_generation y) by (intros Heq; apply Hn; rewrite Heq; by apply list_elem_of_fmap_2).
  unfold le_of, generationLess, ltc, onc in Hx. destruct (Z.compare_spec (G_generation y) (G_generation x)); simplify_eq; lia.
Qed.

Lemma numbered_NoDup o : numbered o → NoDup (G_generation <$> o).
Proof.
  induction 1 as [|x o _ IH Hx]; [constructor|]. simpl. constructor; [|done].
  intros (y & Heq & Hy)%list_elem_of_fmap. rewrite Forall_forall in Hx. specialize (Hx y Hy). lia.
Qed.

Lemma elem_of_addGeneration gen o g : g ∈ addGeneration gen o ↔ g ∈ o ∨ g = gen.
Proof. unfold addGeneration. by rewrite elem_of_sort_slice, elem_of_app, list_elem_of_singleton. Qed.

Lemma numbered_addGeneration gen o :
  numbered o → (∀ g, g ∈ o → G_generation g ≠ G_generation gen) → numbered (addGeneration gen o).
Proof.
  intros Ho Hfresh. apply numbered_strict; [apply sort_slice_sorted; apply _|]. unfold addGeneration. rewrite sort_slice_perm, fmap_app.
  apply NoDup_app. split_and!; [by apply numbered_NoDup| |apply NoDup_singleton].
  intros n (g & -> & Hg)%list_elem_of_fmap Hn%list_elem_of_singleton. by apply (Hfresh g).
Qed.

Lemma numbered_update n f o : (∀ g, G_generation (f g) = G_generation g) → numbered o → numbered (updateGeneration n f o).
Proof.
  intros Hf. unfold updateGeneration. induction 1 as [|x o _ IH Hx]; [constructor|]. simpl. constructor; [done|].
  apply Forall_fmap. eapply Forall_impl; [exact Hx|]. intros y. simpl. destruct (_ =? n), (_ =? n); rewrite ?Hf; done.
Qed.

Lemma elem_of_update n f o g :
  g ∈ updateGeneration n f o ↔ ∃ g0, g0 ∈ o ∧ g = (if G_generation g0 =? n then f g0 else g0).
Proof. unfold updateGeneration. rewrite list_elem_of_fmap. naive_solver. Qed.

(** Rows after the addition of a generation. *)
Lemma orow_addGeneration gen o g ord :
  numbered o → (∀ g, g ∈ o → G_generation g ≠ G_generation gen) →
  orow (addGeneration gen o) g ord = if g =? G_generation gen then G_ports gen !! ord else orow o g ord.
Proof.
  intros Ho Hfresh. pose proof (numbered_addGeneration _ _ Ho Hfresh) as Hn. unfold orow.
  destruct (Z.eqb_spec g (G_generation gen)) as [->|Hne].
  - assert (findGeneration (G_generation gen) (addGeneration gen o) = Some gen) as ->; [|done].
    apply findGeneration_Some; [done|]. rewrite elem_of_addGeneration. auto.
  - f_equal. apply option_eq. intros g0. rewrite !findGeneration_Some, elem_of_addGeneration by done. naive_solver.
Qed.

Lemma orow_update n f o g ord :
  numbered o → (∀ g, G_generation (f g) = G_generation g) →
  orow (updateGeneration n f o) g ord =
  if g =? n then findGeneration n o ≫= λ gen, G_ports (f gen) !! ord else orow o g ord.
Proof.
  intros Ho Hf. unfold orow. pose proof (numbered_update n f o Hf Ho) as Hn.
  assert (∀ g, findGeneration g (updateGeneration n f o) = (λ gen, if G_generation gen =? n then f gen else gen) <$> findGeneration g o) as Hfind.
  { intros g0. apply option_eq. intros g1. rewrite findGeneration_Some, elem_of_update, fmap_Some by done.
    setoid_rewrite findGeneration_Some; [|done]. split.
    - intros [(g2 & Hin & ->) Hnum]. exists g2. destruct (_ =? n); rewrite ?Hf in Hnum; done.
    - intros (g2 & [Hin <-] & ->). split; [eauto|]. destruct (_ =? n); by rewrite ?Hf. }
  rewrite Hfind. destruct (findGeneration g o) as [gen|] eqn:Hg.
  - apply findGeneration_Some in Hg as [Hin <-]; [|done]. simpl. destruct (Z.eqb_spec (G_generation gen) n) as [<-|]; [|done].
    by rewrite (proj2 (findGeneration_Some _ _ _ Ho) (conj Hin eq_refl)).
  - simpl. destruct (Z.eqb_spec g n) as [->|]; [by rewrite Hg|done].
Qed.

Lemma wfOwner_nil key : wfOwner key [].
Proof. split; [constructor|constructor|]. by intros a b ?%not_elem_of_nil. Qed.

Lemma wfOwner_add key gen o :
  wfOwner key o → wfGen key gen → (∀ g, g ∈ o → G_generation g ≠ G_generation gen) →
  (isActive gen → ∀ g, g ∈ o → ¬ isActive g) → wfOwner key (addGeneration gen o).
Proof.
  intros [Hs Hg Ha] Hgen Hfresh Hact. rewrite Forall_forall in Hg. split.
  - by apply numbered_addGeneration.
  - apply Forall_forall. intros g [?| ->]%elem_of_addGeneration; auto.
  - intros a b [Hina| ->]%elem_of_addGeneration [Hinb| ->]%elem_of_addGeneration H1 H2; auto; naive_solver.
Qed.

(** The update of one generation that keeps its number. *)
Lemma wfOwner_update key n f o :
  wfOwner key o → (∀ g, G_generation (f g) = G_generation g) → (∀ g, g ∈ o → G_generation g = n → wfGen key (f g)) →
  (∀ g g', g ∈ o → g' ∈ o → G_generation g = n → isActive (f g) → G_generation g' ≠ n → ¬ isActive g') →
  wfOwner key (updateGeneration n f o).
Proof.
  intros [Hs Hg Ha] Hf Hwf Hact. rewrite Forall_forall in Hg. split.
  - by apply numbered_update.
  - apply Forall_forall. intros g (g0 & Hin & ->)%elem_of_update. destruct (Z.eqb_spec (G_generation g0) n); auto.
  - intros a b (a0 & Hina & ->)%elem_of_update (b0 & Hinb & ->)%elem_of_update.
    destruct (Z.eqb_spec (G_generation a0) n) as [Hna|Hna], (Z.eqb_spec (G_generation b0) n) as [Hnb|Hnb]; intros H1 H2.
    + f_equal. eapply sorted_number_inj; [done..|congruence].
    + by destruct (Hact a0 b0 Hina Hinb Hna H1 Hnb).
    + by destruct (Hact b0 a0 Hinb Hina Hnb H2 Hna).
    + auto.
Qed.

(** ** The rows of an owner and the rows to save *)

Notation slots := (Z → Z → option ProxyPathPortAllocation).

Definition oslots (o : proxyPathPortOwner) : slots := λ g ord, erase <$> orow o g ord.

Lemma oslots_active o g ord : oslots o g ord ≫= activeOnly = orow o g ord ≫= activeOnly.
Proof. unfold oslots. by destruct (orow o g ord). Qed.

Lemma activePort_slots key o o' :
  wfOwner key o → wfOwner key o' → (∀ g ord, oslots o g ord ≫= activeOnly = oslots o' g ord ≫= activeOnly) → activePort o = activePort o'.
Proof. intros Hwf Hwf' Hext. apply (activePort_ext key); [done..|]. intros g ord. by rewrite <- !oslots_active. Qed.

(** What the upsert of a row, and of rows in order, does to the slots of its owner. *)
Definition updSlot (f : slots) (row : ProxyPathPortAllocation) : slots :=
  λ g ord, if (PA_Generation row =? g) && (PA_Ordinal row =? ord) then Some (erase row) else f g ord.
Definition updSlots (rows : list ProxyPathPortAllocation) (f : slots) : slots := foldl updSlot f rows.

Lemma updSlots_ext rows f f' g ord : (∀ g ord, f g ord = f' g ord) → updSlots rows f g ord = updSlots rows f' g ord.
Proof.
  unfold updSlots. revert f f'; induction rows as [|row rows IH]; intros f f' Hf; [apply Hf|].
  cbn [foldl]. apply IH. intros g0 ord0. unfold updSlot. by destruct (_ && _).
Qed.

Lemma updSlots_app r1 r2 f : updSlots (r1 ++ r2) f = updSlots r2 (updSlots r1 f).
Proof. unfold updSlots. by rewrite foldl_app. Qed.

Definition slotOf (row : ProxyPathPortAllocation) : Z * Z := (PA_Generation row, PA_Ordinal row).

Lemma updSlots_notin rows f g ord : (∀ row, row ∈ rows → slotOf row ≠ (g, ord)) → updSlots rows f g ord = f g ord.
Proof.
  unfold updSlots. revert f; induction rows as [|row rows IH]; intros f Hno; [done|]. cbn [foldl]. rewrite IH by set_solver.
  unfold updSlot. destruct (Z.eqb_spec (PA_Generation row) g), (Z.eqb_spec (PA_Ordinal row) ord); simpl; try done.
  exfalso. apply (Hno row); [by left|]. unfold slotOf. congruence.
Qed.

Lemma updSlots_in rows f row :
  NoDup (slotOf <$> rows) → row ∈ rows → updSlots rows f (PA_Generation row) (PA_Ordinal row) = Some (erase row).
Proof.
  revert f; induction rows as [|r rows IH]; intros f Hnd Hin; [by apply not_elem_of_nil in Hin|].
  apply NoDup_cons in Hnd as [Hn Hnd]. unfold updSlots. cbn [foldl]. fold (updSlots rows (updSlot f r)).
  apply elem_of_cons in Hin as [->|Hin]; [|by apply IH].
  rewrite updSlots_notin; [unfold updSlot; by rewrite !Z.eqb_refl|].
  intros row Hrow Heq. apply Hn. change (PA_Generation r, PA_Ordinal r) with (slotOf r) in Heq. rewrite <- Heq. by apply list_elem_of_fmap_2.
Qed.

(** A generation that moves to a state, and the rows recorded for it. *)
Lemma transition_number st g : G_generation (transition st g) = G_generation g.
Proof. done. Qed.

Section ledger.
Context {M : MapRange Z ProxyPathPortAllocation}.

Lemma elem_of_movedRows st g row : row ∈ movedRows st g ↔ ∃ o r, G_ports g !! o = Some r ∧ row = withState st r.
Proof.
  unfold movedRows. rewrite list_elem_of_fmap. setoid_rewrite list_elem_of_fmap. split.
  - intros (r & -> & ([o r'] & -> & Hin)). apply elem_of_map_range in Hin. eauto.
  - intros (o & r & Hr & ->). exists r. split; [done|]. exists (o, r). split; [done|]. by apply elem_of_map_range.
Qed.

Lemma movedRows_slots key st g : wfGen key g → NoDup (slotOf <$> movedRows st g).
Proof.
  intros Hwf. unfold movedRows. rewrite <- !list_fmap_compose.
  pose proof (NoDup_map_range (G_ports g)) as Hnd.
  assert (Forall (λ kv : Z * ProxyPathPortAllocation, slotOf (withState st kv.2) = (G_generation g, kv.1)) (map_range (G_ports g))) as Hall.
  { apply Forall_forall. intros [o r] Hin%elem_of_map_range. destruct (wg_row _ _ Hwf _ _ Hin) as (_ & Hg & Ho & _).
    unfold slotOf. simpl. congruence. }
  revert Hnd Hall. generalize (map_range (G_ports g)). intros l. induction l as [|kv l IH]; [constructor|].
  intros [Hn Hnd]%NoDup_cons [Hkv Hall]%Forall_cons. simpl. constructor; [|by apply IH].
  unfold compose. simpl. rewrite Hkv. intros (kv' & Heq & Hin)%list_elem_of_fmap. rewrite Forall_forall in Hall.
  rewrite (Hall kv' Hin) in Heq. injection Heq as Heq. apply Hn. rewrite Heq. by apply list_elem_of_fmap_2.
Qed.

Lemma transition_slots key o gen st g ord :
  numbered o → wfGen key gen → gen ∈ o →
  oslots (updateGeneration (G_generation gen) (transition st) o) g ord = updSlots (movedRows st gen) (oslots o) g ord.
Proof.
  intros Hnum Hg Hin. unfold oslots. rewrite orow_update by done.
  assert (findGeneration (G_generation gen) o = Some gen) as Hf by by apply findGeneration_Some.
  destruct (Z.eqb_spec g (G_generation gen)) as [->|Hne].
  - rewrite Hf. simpl. rewrite lookup_fmap. destruct (G_ports gen !! ord) as [r|] eqn:Hr; simpl.
    + destruct (wg_row _ _ Hg _ _ Hr) as (_ & Hgen & Hord & _).
      rewrite <- Hgen, <- Hord. symmetry. apply (updSlots_in _ _ (withState st r)); [by eapply movedRows_slots|].
      apply elem_of_movedRows. eauto.
    + rewrite updSlots_notin; [|].
      * unfold orow. rewrite Hf. simpl. by rewrite Hr.
      * intros row (o' & r & Hr' & ->)%elem_of_movedRows. destruct (wg_row _ _ Hg _ _ Hr') as (_ & _ & Hord & _).
        unfold slotOf. simpl. congruence.
  - rewrite updSlots_notin; [done|]. intros row (o' & r & Hr' & ->)%elem_of_movedRows.
    destruct (wg_row _ _ Hg _ _ Hr') as (_ & Hgen & _). unfold slotOf. simpl. congruence.
Qed.

Lemma wfGen_transition key st g : wfGen key g → wfGen key (transition st g).
Proof.
  intros [Hn Hp Hr]. split; simpl; [done|by rewrite fmap_empty_iff|].
  intros o row (r & <- & Hrow)%lookup_fmap_Some. by destruct (Hr o r Hrow) as (? & ? & ? & ? & ? & ?).
Qed.

(** ** Steps of the ledger *)

(** One operation concerns one owner: the others keep their generations, the rows it
    records describe its effect on the slots, and the owner stays well formed. *)
Record ledgerStep (key : proxyPathPortKey) (rows : list ProxyPathPortAllocation) (l l' : ProxyPathPortLedger) : Prop := {
  ls_others key' : key' ≠ key → ownerFor key' l' = ownerFor key' l;
  ls_wf : wfOwner key (ownerFor key l');
  ls_slots g ord : oslots (ownerFor key l') g ord = updSlots rows (oslots (ownerFor key l)) g ord;
  ls_rows : Forall (λ row, keyOf row = key) rows;
  ls_pending : L_pending l' = L_pending l ++ rows;
  ls_pendingByKey : ∀ k, k ∈ L_pendingByKey l' ↔ k ∈ L_pendingByKey l ∨ (k = key ∧ rows ≠ []);
  ls_used : L_used l ⊆ L_used l';
  ls_removed : L_removed l' = L_removed l }.

Lemma recordAll_fields rows key l :
  L_owners (recordAll rows key l) = L_owners l ∧ L_pending (recordAll rows key l) = L_pending l ++ rows ∧
  (∀ k, k ∈ L_pendingByKey (recordAll rows key l) ↔ k ∈ L_pendingByKey l ∨ (k = key ∧ rows ≠ [])) ∧
  L_used (recordAll rows key l) = L_used l ∧ L_removed (recordAll rows key l) = L_removed l.
Proof.
  unfold recordAll. revert l; induction rows as [|row rows IH]; intros l; cbn [foldl].
  - rewrite app_nil_r. split_and!; try done. intros k. naive_solver.
  - destruct (IH (recordPending row key l)) as (-> & -> & Hk & -> & ->). split_and!; try done.
    + simpl. by rewrite <- app_assoc.
    + intros k. rewrite Hk. simpl. rewrite elem_of_union, elem_of_singleton. naive_solver.
Qed.

(** The step that replaces an owner and records rows. *)
Lemma ledgerStep_set key o rows l :
  wfOwner key o → Forall (λ row, keyOf row = key) rows →
  (∀ g ord, oslots o g ord = updSlots rows (oslots (ownerFor key l)) g ord) →
  ledgerStep key rows l (recordAll rows key (setOwners (<[key := o]> (L_owners l)) l)).
Proof.
  intros Hwf Hrows Hslots. destruct (recordAll_fields rows key (setOwners (<[key := o]> (L_owners l)) l)) as (Ho & Hp & Hk & Hu & Hr).
  assert (∀ k, ownerFor k (recordAll rows key (setOwners (<[key := o]> (L_owners l)) l)) = if decide (k = key) then o else ownerFor k l) as Howner.
  { intros k. unfold ownerFor. rewrite Ho. simpl. rewrite lookup_insert. repeat case_decide; subst; done. }
  split.
  - intros k Hne. by rewrite Howner, decide_False.
  - by rewrite Howner, decide_True.
  - intros g ord. by rewrite Howner, decide_True.
  - done.
  - by rewrite Hp.
  - intros k. by rewrite Hk.
  - by rewrite Hu.
  - by rewrite Hr.
Qed.

Lemma ownerFor_markUsed k key l : ownerFor k (markUsed key l) = ownerFor k l.
Proof. unfold ownerFor at 1. simpl. rewrite lookup_insert. case_decide; subst; done. Qed.

Lemma ownerFor_touch k key l : ownerFor k (touchOwner key l) = ownerFor k l.
Proof. unfold ownerFor at 1. simpl. rewrite lookup_insert. case_decide; subst; done. Qed.

(** A step after marking the key, and a step that does nothing. *)
Lemma ledgerStep_marked key rows l l0 l' :
  (∀ k, ownerFor k l0 = ownerFor k l) → L_pending l0 = L_pending l → L_pendingByKey l0 = L_pendingByKey l →
  L_used l ⊆ L_used l0 → L_removed l0 = L_removed l → ledgerStep key rows l0 l' → ledgerStep key rows l l'.
Proof.
  intros Ho Hp Hk Hu Hr [H1 H2 H3 H4 H5 H6 H7 H8]. split.
  - intros k Hne. by rewrite H1, Ho.
  - done.
  - intros g ord. by rewrite H3, Ho.
  - done.
  - by rewrite H5, Hp.
  - intros k. by rewrite H6, Hk.
  - by etrans.
  - by rewrite H8.
Qed.

Lemma ledgerStep_refl key l : wfOwner key (ownerFor key l) → ledgerStep key [] l l.
Proof. intros Hwf. split; try done; [by rewrite app_nil_r|naive_solver]. Qed.

Lemma ledgerStep_wf key rows l l' : wfLedger l → ledgerStep key rows l l' → wfLedger l'.
Proof.
  intros Hwf Hs k. destruct (decide (k = key)) as [->|Hne]; [by eapply ls_wf|]. by rewrite (ls_others _ _ _ _ Hs).
Qed.

(** *** Resolution *)

Lemma wfGen_single r n port :
  0 < n → 0 < port →
  wfGen (requirementKey r) (newGeneration n PortAllocationStateActive (PR_PolicyRevision r) {[0 := newRow r n 0 port PortAllocationStateActive]}).
Proof.
  intros Hn Hp. split; simpl; [done| |].
  - by apply map_non_empty_singleton.
  - intros o row [<- <-]%lookup_singleton_Some. done.
Qed.

(** A fresh generation with its rows. *)
Lemma addGeneration_slots key o gen rows g ord :
  wfOwner key o → G_generation gen = nextGeneration o →
  (∀ row, row ∈ rows ↔ ∃ i, G_ports gen !! i = Some row) → wfGen key gen → NoDup (slotOf <$> rows) →
  oslots (addGeneration gen o) g ord = updSlots rows (oslots o) g ord.
Proof.
  intros Hwf Hnum Hrows Hgen Hnd. destruct (nextGeneration_fresh o) as [Hpos Hfresh].
  assert (∀ g0, g0 ∈ o → G_generation g0 ≠ G_generation gen) as Hne by (intros g0 Hin; specialize (Hfresh g0 Hin); lia).
  unfold oslots. rewrite orow_addGeneration by (apply Hwf || done). destruct (Z.eqb_spec g (G_generation gen)) as [->|Hg].
  - destruct (G_ports gen !! ord) as [r|] eqn:Hr; simpl.
    + destruct (wg_row _ _ Hgen _ _ Hr) as (_ & Hrg & Hro & _). rewrite <- Hrg, <- Hro. symmetry. apply updSlots_in; [done|].
      apply Hrows. eauto.
    + rewrite updSlots_notin.
      * assert (orow o (G_generation gen) ord = None) as ->; [|done]. unfold orow.
        by rewrite (proj2 (findGeneration_None _ _) Hne).
      * intros row (i & Hi)%Hrows. destruct (wg_row _ _ Hgen _ _ Hi) as (_ & _ & Hro & _). unfold slotOf. congruence.
  - rewrite updSlots_notin; [done|]. intros row (i & Hi)%Hrows. destruct (wg_row _ _ Hgen _ _ Hi) as (_ & Hrg & _).
    unfold slotOf. congruence.
Qed.

Lemma corrected_slots key o gen item r g ord :
  wfOwner key o → gen ∈ o → G_ports gen !! PA_Ordinal item = Some item →
  oslots (updateGeneration (G_generation gen) (λ g, withPorts (<[PA_Ordinal item := correctedRow item r]> (G_ports g)) g) o) g ord
  = updSlots [correctedRow item r] (oslots o) g ord.
Proof.
  intros Hwf Hin Hitem. pose proof (wo_gens _ _ Hwf) as Hg. rewrite Forall_forall in Hg. specialize (Hg gen Hin).
  destruct (wg_row _ _ Hg _ _ Hitem) as (_ & Hgen & _).
  unfold oslots, updSlots. cbn [foldl]. unfold updSlot. rewrite orow_update by (apply Hwf || done). simpl. rewrite Hgen.
  assert (findGeneration (G_generation gen) o = Some gen) as Hf by (apply findGeneration_Some; [apply Hwf|done]).
  rewrite Hf. simpl. rewrite (Z.eqb_sym g). destruct (Z.eqb_spec (G_generation gen) g) as [<-|]; [|done]. simpl.
  unfold orow. rewrite Hf. simpl. rewrite lookup_insert. destruct (Z.eqb_spec (PA_Ordinal item) ord); by case_decide.
Qed.

Lemma activePort_None key o : wfOwner key o → activePort o = None → activeGeneration o = None.
Proof.
  intros Hwf Hp. destruct (activeGeneration o) as [gen|] eqn:Ha; [|done]. unfold activePort in Hp. rewrite Ha in Hp.
  apply (activeGeneration_Some key) in Ha as [Hin _]; [|done]. pose proof (wo_gens _ _ Hwf) as Hg. rewrite Forall_forall in Hg.
  destruct (primaryRow_spec key gen) as (row & Hpr & Hrow & _); [auto|]. rewrite Hpr in Hp.
  destruct (wg_row _ _ (Hg gen Hin) _ _ Hrow) as (_ & _ & _ & _ & _ & Hport). replace (PA_Port row <=? 0) with false in Hp by lia. done.
Qed.

Lemma wfOwner_corrected key o gen item r :
  wfOwner key o → gen ∈ o → G_ports gen !! PA_Ordinal item = Some item →
  wfOwner key (updateGeneration (G_generation gen) (λ g, withPorts (<[PA_Ordinal item := correctedRow item r]> (G_ports g)) g) o).
Proof.
  intros Hwf Hin Hitem. pose proof (wo_gens _ _ Hwf) as Hg. rewrite Forall_forall in Hg. specialize (Hg gen Hin).
  apply wfOwner_update; [done|done| |].
  - intros g Hing Hng. assert (g = gen) as -> by (eapply sorted_number_inj; [apply Hwf|done..]).
    destruct (wg_row _ _ Hg _ _ Hitem) as (Hkey & Hgen & _ & Hpos & Hst & Hport).
    split; simpl; [apply Hg|apply insert_non_empty|]. intros i row. rewrite lookup_insert_Some.
    intros [[<- <-]|[_ Hi]]; [done|by eapply wg_row].
  - intros g g' Hing Hing' Hng Hactg Hne Hactg'. apply Hne.
    assert (g' = g) as -> by (eapply (wo_active _ _ Hwf); done). done.
Qed.

(** Correcting the metadata of a row leaves the active port. *)
Lemma correct_step key l gen item r :
  wfOwner key (ownerFor key l) → gen ∈ ownerFor key l → G_ports gen !! PA_Ordinal item = Some item →
  let o' := updateGeneration (G_generation gen) (λ g, withPorts (<[PA_Ordinal item := correctedRow item r]> (G_ports g)) g) (ownerFor key l) in
  let l' := recordAll [correctedRow item r] key (setOwners (<[key := o']> (L_owners l)) l) in
  ledgerStep key [correctedRow item r] l l' ∧ activePort (ownerFor key l') = activePort (ownerFor key l).
Proof.
  intros Hwf Hin Hitem o' l'. pose proof (wo_gens _ _ Hwf) as Hg. rewrite Forall_forall in Hg. specialize (Hg gen Hin).
  destruct (wg_row _ _ Hg _ _ Hitem) as (Hkey & Hgen & _).
  assert (ledgerStep key [correctedRow item r] l l') as Hstep.
  { apply ledgerStep_set; [by apply wfOwner_corrected|by constructor|]. intros g ord. by apply (corrected_slots key). }
  split; [done|]. apply (activePort_slots key); [apply Hstep|done|]. intros g ord. rewrite (ls_slots _ _ _ _ Hstep).
  unfold updSlots. cbn [foldl]. unfold updSlot. destruct (_ && _) eqn:Hslot; [|done].
  apply andb_true_iff in Hslot as [<-%Z.eqb_eq <-%Z.eqb_eq]. cbn [correctedRow PA_Generation PA_Ordinal].
  assert (orow (ownerFor key l) (PA_Generation item) (PA_Ordinal item) = Some item) as Hor by (apply (orow_Some key); eauto).
  unfold oslots. by rewrite Hor.
Qed.

(** A fresh active generation becomes the active port. *)
Lemma fresh_step r l port :
  wfOwner (requirementKey r) (ownerFor (requirementKey r) l) → activeGeneration (ownerFor (requirementKey r) l) = None → 0 < port →
  let o := ownerFor (requirementKey r) l in
  let row := newRow r (nextGeneration o) 0 port PortAllocationStateActive in
  let gen := newGeneration (nextGeneration o) PortAllocationStateActive (PR_PolicyRevision r) {[0 := row]} in
  let l' := recordAll [row] (requirementKey r) (setOwners (<[requirementKey r := addGeneration gen o]> (L_owners l)) l) in
  ledgerStep (requirementKey r) [row] l l' ∧ activePort (ownerFor (requirementKey r) l') = Some port.
Proof.
  intros Hwf Ha Hport o row gen l'. destruct (nextGeneration_fresh o) as [Hn Hfresh].
  assert (wfGen (requirementKey r) gen) as Hgen by by apply wfGen_single.
  assert (∀ g0, g0 ∈ o → G_generation g0 ≠ G_generation gen) as Hne by (intros g0 Hin; specialize (Hfresh g0 Hin); simpl; lia).
  assert (wfOwner (requirementKey r) (addGeneration gen o)) as Hwf'.
  { apply wfOwner_add; [done..|]. intros _. by apply activeGeneration_None. }
  split.
  - apply ledgerStep_set; [done|by constructor|]. intros g ord. apply (addGeneration_slots (requirementKey r)); [done|done| |done|].
    + intros row0. simpl. setoid_rewrite lookup_singleton_Some. rewrite list_elem_of_singleton. naive_solver.
    + apply NoDup_singleton.
  - assert (ownerFor (requirementKey r) l' = addGeneration gen o) as ->.
    { unfold ownerFor, l'. simpl. by rewrite lookup_insert, decide_True. }
    apply (activePort_Some (requirementKey r)); [done|]. exists (nextGeneration o), 0, row. split_and!; [|done..|].
    + rewrite orow_addGeneration by (apply Hwf || done). simpl. by rewrite Z.eqb_refl.
    + intros g' ord' row' (g0 & [Hin| ->]%elem_of_addGeneration & _ & Hrow')%(orow_Some (requirementKey r)) Hst'; [| |done].
      * pose proof (wo_gens _ _ Hwf) as Hg. rewrite Forall_forall in Hg.
        destruct (wg_row _ _ (Hg g0 Hin) _ _ Hrow') as (_ & _ & _ & _ & Hst & _).
        exfalso. eapply (activeGeneration_None o Ha g0); [done|congruence].
      * simpl in Hrow'. by apply lookup_singleton_Some in Hrow' as [<- _].
Qed.

Lemma activePort_primary key o gen :
  wfOwner key o → activeGeneration o = Some gen →
  ∃ item, primaryRow gen = Some item ∧ gen ∈ o ∧ G_ports gen !! PA_Ordinal item = Some item ∧ activePort o = Some (PA_Port item).
Proof.
  intros Hwf Ha. pose proof Ha as [Hin _]%(activeGeneration_Some key); [|done].
  pose proof (wo_gens _ _ Hwf) as Hg. rewrite Forall_forall in Hg. specialize (Hg gen Hin).
  destruct (primaryRow_spec key gen Hg) as (item & Hpr & Hitem & _). exists item. split_and!; [done..|].
  destruct (wg_row _ _ Hg _ _ Hitem) as (_ & _ & _ & _ & _ & Hport). unfold activePort. rewrite Ha, Hpr.
  by replace (PA_Port item <=? 0) with false by lia.
Qed.

Lemma ledgerStep_mark key rows l l' : ledgerStep key rows (markUsed key l) l' → ledgerStep key rows l l'.
Proof. apply ledgerStep_marked; try done; [intros k; apply ownerFor_markUsed|apply union_subseteq_r]. Qed.

(** The result of a resolution: the active port if there is one, or a fresh one that becomes
    the active port. *)
Lemma resolve_step l r p l' :
  wfLedger l → resolve (Some l) r = (p, l') →
  ∃ l1 rows, l' = Some l1 ∧ ledgerStep (requirementKey r) rows l l1 ∧ requirementKey r ∈ L_used l1 ∧
    match activePort (ownerFor (requirementKey r) l) with
    | Some q => p = q ∧ activePort (ownerFor (requirementKey r) l1) = Some q
    | None => if allocatedPort r <=? 0 then p = 0 ∧ activePort (ownerFor (requirementKey r) l1) = None
              else p = allocatedPort r ∧ activePort (ownerFor (requirementKey r) l1) = Some p
    end.
Proof.
  intros Hwfl Hres. unfold resolve in Hres. set (l0 := markUsed (requirementKey r) l) in Hres.
  assert (wfOwner (requirementKey r) (ownerFor (requirementKey r) l0)) as Hwf by (unfold l0; rewrite ownerFor_markUsed; apply Hwfl).
  assert (requirementKey r ∈ L_used l0) as Hused by (simpl; set_solver).
  replace (activePort (ownerFor (requirementKey r) l)) with (activePort (ownerFor (requirementKey r) l0)) by (unfold l0; by rewrite ownerFor_markUsed).
  destruct (activeGeneration _) as [gen|] eqn:Ha in Hres.
  - destruct (activePort_primary _ _ _ Hwf Ha) as (item & Hpr & Hin & Hitem & Hap). rewrite Hpr in Hres. rewrite Hap.
    destruct (metadataDiverges item r); injection Hres as <- <-; eexists _, _; (split; [done|]).
    + destruct (correct_step _ _ _ _ r Hwf Hin Hitem) as [Hstep Hp]. split; [by apply ledgerStep_mark|]. split; [done|]. by rewrite <- Hap.
    + split; [by apply ledgerStep_mark, ledgerStep_refl|]. done.
  - assert (activePort (ownerFor (requirementKey r) l0) = None) as Hap by (unfold activePort; by rewrite Ha). rewrite Hap.
    destruct (Z.leb_spec (allocatedPort r) 0) as [Hle|Hgt]; injection Hres as <- <-; eexists _, _; (split; [done|]).
    + split; [by apply ledgerStep_mark, ledgerStep_refl|]. done.
    + destruct (fresh_step r l0 (allocatedPort r) Hwf Ha Hgt) as [Hstep Hp]. split; [by apply ledgerStep_mark|]. done.
Qed.
(** *** Preparing a generation *)

Lemma candidatePorts_Ok r gen ord n cands :
  candidatePorts r gen ord n = Ok cands →
  length cands = n ∧ NoDup cands.*1 ∧ ∀ o p, (o, p) ∈ cands → ord ≤ o ∧ 0 < p.
Proof.
  revert ord cands; induction n as [|n IH]; intros ord cands Hc; cbn [candidatePorts] in Hc.
  - injection Hc as <-. split_and!; [done|constructor|]. by intros o p ?%not_elem_of_nil.
  - set (port := match PR_AllocateOrdinal r with Some f => f ord | None => _ end) in Hc.
    destruct (Z.leb_spec port 0); [done|]. destruct (candidatePorts r gen (ord + 1) n) as [rest|] eqn:Hrest; [|done].
    injection Hc as <-. destruct (IH _ _ Hrest) as (Hlen & Hnd & Hall). split_and!; [simpl; lia| |].
    + simpl. constructor; [|done]. intros ([o p] & Heq & Hin)%list_elem_of_fmap. simpl in Heq. destruct (Hall o p Hin). lia.
    + intros o p [[= -> ->]|Hin]%elem_of_cons; [lia|]. destruct (Hall o p Hin). lia.
Qed.

Definition preparedRows (r : PortRequirement) (gen : Z) (cands : list (Z * Z)) : list ProxyPathPortAllocation :=
  (λ '(ordinal, port), newRow r gen ordinal port PortAllocationStatePreparing) <$> cands.

Lemma preparedRows_NoDup r gen cands : NoDup cands.*1 → NoDup (PA_Ordinal <$> preparedRows r gen cands).
Proof.
  intros Hnd. unfold preparedRows. rewrite <- list_fmap_compose.
  replace ((PA_Ordinal ∘ _) <$> cands) with cands.*1; [done|]. apply list_fmap_ext. by intros i [o p] _.
Qed.

Lemma preparedRows_slots r gen cands : NoDup cands.*1 → NoDup (slotOf <$> preparedRows r gen cands).
Proof.
  intros Hnd%(preparedRows_NoDup r gen). apply (NoDup_fmap_1 snd). rewrite <- list_fmap_compose. exact Hnd.
Qed.

Lemma preparedPorts_lookup r gen cands i row :
  NoDup cands.*1 →
  (list_to_map ((λ row, (PA_Ordinal row, row)) <$> preparedRows r gen cands) : gmap Z ProxyPathPortAllocation) !! i = Some row ↔
  row ∈ preparedRows r gen cands ∧ PA_Ordinal row = i.
Proof.
  intros Hnd. rewrite <- elem_of_list_to_map.
  - rewrite list_elem_of_fmap. split; [intros (x & [= -> ->] & Hx); done|intros [Hin <-]; by exists row].
  - rewrite <- list_fmap_compose. by apply preparedRows_NoDup.
Qed.

Lemma elem_of_preparedRows r gen cands row :
  row ∈ preparedRows r gen cands ↔ ∃ o p, (o, p) ∈ cands ∧ row = newRow r gen o p PortAllocationStatePreparing.
Proof.
  unfold preparedRows. rewrite list_elem_of_fmap. split.
  - intros ([o p] & -> & Hin). eauto.
  - intros (o & p & Hin & ->). by exists (o, p).
Qed.

Lemma wfGen_prepared r gen cands :
  0 < gen → cands ≠ [] → NoDup cands.*1 → (∀ o p, (o, p) ∈ cands → 0 ≤ o ∧ 0 < p) →
  wfGen (requirementKey r) (newGeneration gen PortAllocationStatePreparing (PR_PolicyRevision r)
    (list_to_map ((λ row, (PA_Ordinal row, row)) <$> preparedRows r gen cands))).
Proof.
  intros Hgen Hne Hnd Hall. split; cbn [G_generation G_ports G_state newGeneration]; [done| |].
  - destruct cands as [|[o p] cands]; [done|]. intros Hempty.
    assert ((list_to_map ((λ row, (PA_Ordinal row, row)) <$> preparedRows r gen ((o, p) :: cands)) : gmap Z ProxyPathPortAllocation) !! o
      = Some (newRow r gen o p PortAllocationStatePreparing)) as Hl.
    { apply preparedPorts_lookup; [done|]. split; [|done]. left. }
    by rewrite Hempty, lookup_empty in Hl.
  - intros i row [(o & p & Hin & ->)%elem_of_preparedRows Ho]%preparedPorts_lookup; [|done]. destruct (Hall o p Hin). simpl in *. subst i. done.
Qed.

Lemma ledgerStep_touch key rows l l' : ledgerStep key rows (touchOwner key l) l' → ledgerStep key rows l l'.
Proof. apply ledgerStep_marked; try done. intros k; apply ownerFor_touch. Qed.

(** Reserving a preparing generation leaves the active port, and an error leaves every slot. *)
Lemma AllocatePreparing_step l r count res l' :
  wfLedger l → AllocatePreparing (Some l) r count = (res, l') →
  ∃ l1 rows, l' = Some l1 ∧ ledgerStep (requirementKey r) rows l l1 ∧ L_used l1 = L_used l ∧
    activePort (ownerFor (requirementKey r) l1) = activePort (ownerFor (requirementKey r) l) ∧
    match res with
    | Ok rs => rows = rs ∧ ∃ cands, rs = preparedRows r (nextGeneration (ownerFor (requirementKey r) l)) cands ∧ cands ≠ [] ∧
        ownerFor (requirementKey r) l1 = addGeneration (newGeneration (nextGeneration (ownerFor (requirementKey r) l))
          PortAllocationStatePreparing (PR_PolicyRevision r) (list_to_map ((λ row, (PA_Ordinal row, row)) <$> rs))) (ownerFor (requirementKey r) l)
    | Err _ => rows = []
    end.
Proof.
  intros Hwfl Hres. unfold AllocatePreparing in Hres. set (l0 := touchOwner (requirementKey r) l) in Hres.
  assert (∀ k, ownerFor k l0 = ownerFor k l) as Ho by (intros k; apply ownerFor_touch). rewrite Ho in Hres.
  assert (ledgerStep (requirementKey r) [] l l0) as Hrefl by (apply ledgerStep_touch, ledgerStep_refl; rewrite (Ho (requirementKey r)); apply Hwfl).
  pose proof (Hwfl (requirementKey r)) as Hwf. set (o := ownerFor (requirementKey r) l) in *.
  destruct (activeGeneration o) as [ag|] eqn:Ha; [|injection Hres as <- <-; eexists _, _; by rewrite Ho].
  destruct (candidatePorts _ _ _ _) as [cands|e] eqn:Hc; [|injection Hres as <- <-; eexists _, _; by rewrite Ho].
  injection Hres as <- <-. apply candidatePorts_Ok in Hc as (Hlen & Hnd & Hall). destruct (nextGeneration_fresh o) as [Hn Hfresh].
  assert (cands ≠ []) as Hne by (intros ->; simpl in Hlen; destruct (Z.leb_spec count 0); lia).
  fold (preparedRows r (nextGeneration o) cands). set (rs := preparedRows r (nextGeneration o) cands).
  set (gen := newGeneration _ _ _ (list_to_map _)).
  assert (wfGen (requirementKey r) gen) as Hgen by (apply wfGen_prepared; done).
  assert (∀ g0, g0 ∈ o → G_generation g0 ≠ G_generation gen) as Hneq by (intros g0 Hin; specialize (Hfresh g0 Hin); simpl; lia).
  assert (wfOwner (requirementKey r) (addGeneration gen o)) as Hwf' by (apply wfOwner_add; done).
  assert (∀ row, row ∈ rs ↔ ∃ i, G_ports gen !! i = Some row) as Hrows.
  { intros row. unfold gen, rs. cbn [G_ports newGeneration]. setoid_rewrite preparedPorts_lookup; [|done]. naive_solver. }
  assert (ledgerStep (requirementKey r) rs l (recordAll rs (requirementKey r) (setOwners (<[requirementKey r := addGeneration gen o]> (L_owners l0)) l0))) as Hstep.
  { apply ledgerStep_touch, ledgerStep_set; [done| |].
    - apply Forall_forall. by intros row (i & p & _ & ->)%elem_of_preparedRows.
    - intros g ord. rewrite Ho. apply (addGeneration_slots (requirementKey r)); try done. by apply preparedRows_slots. }
  destruct (recordAll_fields rs (requirementKey r) (setOwners (<[requirementKey r := addGeneration gen o]> (L_owners l0)) l0)) as (Hown & _ & _ & Hu & _).
  assert (ownerFor (requirementKey r) (recordAll rs (requirementKey r) (setOwners (<[requirementKey r := addGeneration gen o]> (L_owners l0)) l0))
    = addGeneration gen o) as Hof by (unfold ownerFor; rewrite Hown; simpl; by rewrite lookup_insert, decide_True).
  exists (recordAll rs (requirementKey r) (setOwners (<[requirementKey r := addGeneration gen o]> (L_owners l0)) l0)), rs.
  split; [reflexivity|]. split; [exact Hstep|]. split; [by rewrite Hu|]. rewrite Hof. split; [|eauto].
  apply (activePort_ext (requirementKey r)); [done..|]. intros g ord. rewrite orow_addGeneration by (apply Hwf || done).
  destruct (Z.eqb_spec g (G_generation gen)) as [->|]; [|done].
  assert (orow o (G_generation gen) ord = None) as -> by (unfold orow; by rewrite (proj2 (findGeneration_None _ _) Hneq)).
  destruct (G_ports gen !! ord) as [row|] eqn:Hrow; [|done]. simpl.
  assert (row ∈ rs) as (i & p & _ & ->)%elem_of_preparedRows by (apply Hrows; eauto). done.
Qed.
(** *** Promotion and retirement *)

Lemma update_comm n m f f' o :
  n ≠ m → (∀ g, G_generation (f g) = G_generation g) → (∀ g, G_generation (f' g) = G_generation g) →
  updateGeneration m f' (updateGeneration n f o) = updateGeneration n f (updateGeneration m f' o).
Proof.
  intros Hne Hf Hf'. unfold updateGeneration. rewrite <- !list_fmap_compose. apply list_fmap_ext. intros i g _. simpl.
  destruct (Z.eqb_spec (G_generation g) n) as [Hn|Hn], (Z.eqb_spec (G_generation g) m) as [Hm|Hm]; simpl; rewrite ?Hf, ?Hf'.
  - congruence.
  - by rewrite ?(proj2 (Z.eqb_neq _ _) Hm), ?(proj2 (Z.eqb_eq _ _) Hn).
  - by rewrite ?(proj2 (Z.eqb_neq _ _) Hn), ?(proj2 (Z.eqb_eq _ _) Hm).
  - by rewrite ?(proj2 (Z.eqb_neq _ _) Hn), ?(proj2 (Z.eqb_neq _ _) Hm).
Qed.

Lemma movedRows_keys key st g : wfGen key g → Forall (λ row, keyOf row = key) (movedRows st g).
Proof.
  intros Hwf. apply Forall_forall. intros row (o & r & Hr & ->)%elem_of_movedRows. by destruct (wg_row _ _ Hwf _ _ Hr) as (? & _).
Qed.

Lemma wfGen_in key o g : wfOwner key o → g ∈ o → wfGen key g.
Proof. intros Hwf Hin. pose proof (wo_gens _ _ Hwf) as Hg. rewrite Forall_forall in Hg. auto. Qed.

(** A transition to a state in which no other generation becomes active. *)
Lemma wfOwner_transition key o gen st :
  wfOwner key o → gen ∈ o → (st = PortAllocationStateActive → ∀ g, g ∈ o → isActive g → g = gen) →
  wfOwner key (updateGeneration (G_generation gen) (transition st) o).
Proof.
  intros Hwf Hin Hact. apply wfOwner_update; [done|done| |].
  - intros g Hg _. apply wfGen_transition. by eapply wfGen_in.
  - intros g g' Hg Hg' Hn Hst Hne Hact'. apply Hne. by rewrite (Hact Hst g' Hg' Hact').
Qed.

Lemma primaryRow_transition key st g : wfGen key g → PA_Port <$> primaryRow (transition st g) = PA_Port <$> primaryRow g.
Proof.
  intros Hwf. destruct (primaryRow_spec key g Hwf) as (r & -> & Hr & Hmin).
  destruct (primaryRow_spec key (transition st g)) as (r' & -> & Hr' & Hmin'); [by apply wfGen_transition|].
  simpl in Hr', Hmin'. apply lookup_fmap_Some in Hr' as (r0 & <- & Hr0). simpl in Hr0.
  assert (PA_Ordinal r ≤ PA_Ordinal r0) by (apply Hmin; by eexists).
  assert (PA_Ordinal r0 ≤ PA_Ordinal r) by (apply Hmin'; rewrite lookup_fmap, Hr; by eexists).
  assert (PA_Ordinal r0 = PA_Ordinal r) as Heq by lia. rewrite Heq in Hr0. simplify_eq. done.
Qed.

(** The active port after the transition of a generation to active, when no other is. *)
Lemma activePort_transition key o gen :
  wfOwner key o → gen ∈ o → (∀ g, g ∈ o → isActive g → g = gen) →
  activePort (updateGeneration (G_generation gen) (transition PortAllocationStateActive) o) = PA_Port <$> primaryRow gen.
Proof.
  intros Hwf Hin Hact. pose proof (wfGen_in _ _ _ Hwf Hin) as Hg.
  assert (wfOwner key (updateGeneration (G_generation gen) (transition PortAllocationStateActive) o)) as Hwf' by by apply wfOwner_transition.
  destruct (activePort_primary key _ (transition PortAllocationStateActive gen) Hwf') as (item & Hpr & _ & _ & ->).
  - apply (activeGeneration_Some key); [done|]. split; [|done]. apply elem_of_update. exists gen. by rewrite Z.eqb_refl.
  - rewrite <- (primaryRow_transition key PortAllocationStateActive) by done. by rewrite Hpr.
Qed.

Lemma activePort_retired key o gen :
  wfOwner key o → activeGeneration o = Some gen →
  activePort (updateGeneration (G_generation gen) (transition PortAllocationStateRetiring) o) = None.
Proof.
  intros Hwf Ha. pose proof Ha as [Hin Hact]%(activeGeneration_Some key); [|done].
  unfold activePort. destruct (activeGeneration (updateGeneration _ _ _)) as [g|] eqn:Hg; [|done]. exfalso.
  apply (activeGeneration_Some key) in Hg as [(g0 & Hin0 & ->)%elem_of_update Hact0]; [|by apply wfOwner_transition].
  destruct (Z.eqb_spec (G_generation g0) (G_generation gen)); [done|].
  assert (g0 = gen) as -> by by eapply (wo_active _ _ Hwf). done.
Qed.

Lemma generationByState_Some st o g : generationByState st o = Some g → g ∈ o ∧ G_state g = st.
Proof. unfold generationByState. by intros [Hin%list_elem_of_In Hst%String.eqb_eq]%List.find_some. Qed.

Lemma ownerFor_Some l key o : L_owners l !! key = Some o → ownerFor key l = o.
Proof. unfold ownerFor. by intros ->. Qed.

(** Promotion: the preparing generation becomes active and the active one retires. *)
Lemma PromotePreparing_step l key res l' :
  wfLedger l → PromotePreparing (Some l) key = (res, l') →
  ∃ l1 rows, l' = Some l1 ∧ ledgerStep key rows l l1 ∧ L_used l1 = L_used l ∧
    match res with
    | Ok rs => rows = rs ∧ ∃ gp, generationByState PortAllocationStatePreparing (ownerFor key l) = Some gp ∧
        activePort (ownerFor key l1) = PA_Port <$> primaryRow gp
    | Err _ => l1 = l
    end.
Proof.
  intros Hwfl Hres. unfold PromotePreparing in Hres. pose proof (Hwfl key) as Hwf.
  destruct (L_owners l !! key) as [o|] eqn:Ho; [|injection Hres as <- <-; eexists _, []; eauto using ledgerStep_refl].
  rewrite (ownerFor_Some _ _ _ Ho) in *.
  destruct (generationByState _ o) as [gp|] eqn:Hgp; [|injection Hres as <- <-; eexists _, []; split_and!; try done; apply ledgerStep_refl, Hwfl].
  pose proof (generationByState_Some _ _ _ Hgp) as [Hinp Hstp]. pose proof (wfGen_in _ _ _ Hwf Hinp) as Hwfp.
  destruct (activeGeneration o) as [ga|] eqn:Ha; injection Hres as <- <-.
  - pose proof Ha as [Hina Hacta]%(activeGeneration_Some key); [|done]. pose proof (wfGen_in _ _ _ Hwf Hina) as Hwfa.
    assert (G_generation gp ≠ G_generation ga) as Hne.
    { intros Heq. assert (gp = ga) as -> by (eapply sorted_number_inj; [apply Hwf|done..]). by rewrite Hacta in Hstp. }
    assert (∀ g, g ∈ updateGeneration (G_generation ga) (transition PortAllocationStateRetiring) o → ¬ isActive g) as Hno.
    { apply activeGeneration_None. by eapply activePort_None; [by apply wfOwner_transition|eapply activePort_retired]. }
    assert (gp ∈ updateGeneration (G_generation ga) (transition PortAllocationStateRetiring) o) as Hinp'.
    { apply elem_of_update. exists gp. by rewrite (proj2 (Z.eqb_neq _ _) Hne). }
    set (rows := _ ++ movedRows _ ga). set (retired := updateGeneration (G_generation ga) _ _).
    assert (retired = updateGeneration (G_generation gp) (transition PortAllocationStateActive)
      (updateGeneration (G_generation ga) (transition PortAllocationStateRetiring) o)) as Hcomm by by apply update_comm.
    assert (wfOwner key (updateGeneration (G_generation ga) (transition PortAllocationStateRetiring) o)) as Hwf1 by by apply wfOwner_transition.
    destruct (recordAll_fields rows key (setOwners (<[key := retired]> (L_owners l)) l)) as (Hown & _ & _ & Hu & _).
    eexists _, rows. split; [reflexivity|]. split; [|split; [by rewrite Hu|split; [done|]]].
    + apply ledgerStep_set.
      * rewrite Hcomm. apply wfOwner_transition; [done..|]. intros _ g Hg Hact. by destruct (Hno g).
      * apply Forall_app. split; by apply movedRows_keys.
      * intros g ord. rewrite (ownerFor_Some _ _ _ Ho). unfold rows, retired. rewrite updSlots_app.
        rewrite (transition_slots key); [|by apply numbered_update; [|apply Hwf]|done|].
        -- apply updSlots_ext. intros. apply (transition_slots key); [apply Hwf|done..].
        -- apply elem_of_update. exists ga. rewrite (proj2 (Z.eqb_neq (G_generation ga) (G_generation gp))); [done|congruence].
    + exists gp. split; [done|]. unfold ownerFor. rewrite Hown. simpl. rewrite lookup_insert, decide_True by done. simpl. rewrite Hcomm.
      apply (activePort_transition key); [done..|]. intros g Hg Hact. by destruct (Hno g).
  - set (rows := movedRows _ gp). pose proof (activeGeneration_None o Ha) as Hno.
    destruct (recordAll_fields rows key (setOwners (<[key := updateGeneration (G_generation gp) (transition PortAllocationStateActive) o]> (L_owners l)) l))
      as (Hown & _ & _ & Hu & _).
    eexists _, rows. split; [reflexivity|]. split; [|split; [by rewrite Hu|split; [done|]]].
    + apply ledgerStep_set; [|by apply movedRows_keys|].
      * apply wfOwner_transition; [done..|]. intros _ g Hg Hact. by destruct (Hno g).
      * intros g ord. rewrite (ownerFor_Some _ _ _ Ho). apply (transition_slots key); [apply Hwf|done..].
    + exists gp. split; [done|]. unfold ownerFor. rewrite Hown. simpl. rewrite lookup_insert, decide_True by done. simpl.
      apply (activePort_transition key); [done..|]. intros g Hg Hact. by destruct (Hno g).
Qed.

Lemma MarkActiveRetiring_step l key res l' :
  wfLedger l → MarkActiveRetiring (Some l) key = (res, l') →
  ∃ l1 rows, l' = Some l1 ∧ ledgerStep key rows l l1 ∧ L_used l1 = L_used l ∧
    match res with
    | Ok rs => rows = rs ∧ activePort (ownerFor key l1) = None
    | Err _ => l1 = l
    end.
Proof.
  intros Hwfl Hres. unfold MarkActiveRetiring in Hres. pose proof (Hwfl key) as Hwf.
  destruct (L_owners l !! key) as [o|] eqn:Ho; [|injection Hres as <- <-; eexists _, []; eauto using ledgerStep_refl].
  rewrite (ownerFor_Some _ _ _ Ho) in *.
  destruct (activeGeneration o) as [ga|] eqn:Ha; [|injection Hres as <- <-; eexists _, []; split_and!; try done; apply ledgerStep_refl, Hwfl].
  injection Hres as <- <-. pose proof Ha as [Hina Hacta]%(activeGeneration_Some key); [|done]. pose proof (wfGen_in _ _ _ Hwf Hina) as Hwfa.
  set (rows := movedRows _ ga). set (o' := updateGeneration _ _ o).
  destruct (recordAll_fields rows key (setOwners (<[key := o']> (L_owners l)) l)) as (Hown & _ & _ & Hu & _).
  eexists _, rows. split; [reflexivity|]. split; [|split; [by rewrite Hu|split; [done|]]].
  - apply ledgerStep_set; [by apply wfOwner_transition|by apply movedRows_keys|].
    intros g ord. rewrite (ownerFor_Some _ _ _ Ho). apply (transition_slots key); [apply Hwf|done..].
  - unfold ownerFor. rewrite Hown. simpl. rewrite lookup_insert, decide_True by done. by apply (activePort_retired key).
Qed.

(** Deletion of a retired generation leaves every active port. *)
Lemma DeleteRetired_step l key n res l' :
  wfLedger l → DeleteRetired (Some l) key n = (res, l') →
  ∃ l1, l' = Some l1 ∧ wfLedger l1 ∧ ∀ k, activePort (ownerFor k l1) = activePort (ownerFor k l).
Proof.
  intros Hwfl Hres. unfold DeleteRetired in Hres. pose proof (Hwfl key) as Hwf.
  destruct (L_owners l !! key) as [o|] eqn:Ho; [|injection Hres as <- <-; eauto]. rewrite (ownerFor_Some _ _ _ Ho) in Hwf.
  destruct (findGeneration n o) as [target|] eqn:Ht; [|injection Hres as <- <-; eauto].
  destruct (negb _) eqn:Hst; [injection Hres as <- <-; eauto|]. injection Hres as <- <-.
  apply negb_false_iff, String.eqb_eq in Hst. apply findGeneration_Some in Ht as [Hin Hn]; [|apply Hwf].
  set (o' := List.filter _ o).
  assert (∀ g, g ∈ o' ↔ g ∈ o ∧ G_generation g ≠ n) as Hel.
  { intros g. unfold o'. rewrite list_elem_of_In, List.filter_In, <- list_elem_of_In, negb_true_iff, Z.eqb_neq. done. }
  assert (wfOwner key o') as Hwf'.
  { split.
    - unfold o'. clear -Hwf. destruct Hwf as [Hs _ _]. induction Hs as [|x o _ IH Hx]; [constructor|]. simpl. destruct (negb _); [|done].
      constructor; [done|]. rewrite Forall_forall in Hx |- *. intros y Hy. apply Hx. apply list_elem_of_In in Hy.
      apply List.filter_In in Hy as [Hy _]. by apply list_elem_of_In.
    - apply Forall_forall. intros g [Hg _]%Hel. by eapply wfGen_in.
    - intros a b [Ha _]%Hel [Hb _]%Hel. by apply (wo_active _ _ Hwf). }
  assert (activePort o' = activePort o) as Hap.
  { unfold activePort. replace (activeGeneration o') with (activeGeneration o); [done|]. apply option_eq. intros g.
    rewrite !(activeGeneration_Some key), Hel by done. split; [|naive_solver]. intros [Hg Hact]. split_and!; try done.
    intros Heq. assert (g = target) as -> by (eapply sorted_number_inj; [apply Hwf|done|done|congruence]). by rewrite Hst in Hact. }
  set (l1 := Build_ProxyPathPortLedger _ _ _ _ _ _).
  assert (∀ k, ownerFor k l1 = if decide (k = key) then o' else ownerFor k l) as Howner.
  { intros k. unfold ownerFor, l1. simpl. rewrite lookup_insert. repeat case_decide; subst; done. }
  exists l1. split_and!; [done| |].
  - intros k. rewrite Howner. case_decide; subst; [done|apply Hwfl].
  - intros k. rewrite Howner. case_decide; subst; [|done]. by rewrite (ownerFor_Some _ _ _ Ho).
Qed.

(** ** Sequences of operations *)

Inductive ledgerOp :=
| OpResolve (r : PortRequirement)
| OpResolveForPhase (r : PortRequirement) (phase : option migrationPhase)
| OpPrepare (r : PortRequirement) (count : Z)
| OpPromote (key : proxyPathPortKey)
| OpRetire (key : proxyPathPortKey)
| OpDelete (key : proxyPathPortKey) (generation : Z)
| OpComplete.

Definition runOp (ledger : option ProxyPathPortLedger) (op : ledgerOp) : option ProxyPathPortLedger :=
  match op with
  | OpResolve r => (resolve ledger r).2
  | OpResolveForPhase r phase => (ResolveForPhase ledger r phase).2
  | OpPrepare r count => (AllocatePreparing ledger r count).2
  | OpPromote key => (PromotePreparing ledger key).2
  | OpRetire key => (MarkActiveRetiring ledger key).2
  | OpDelete key generation => (DeleteRetired ledger key generation).2
  | OpComplete => markProjectionComplete ledger
  end.

Definition runOps (ledger : option ProxyPathPortLedger) (ops : list ledgerOp) : option ProxyPathPortLedger := foldl runOp ledger ops.

Lemma ResolveForPhase_cases l r phase p l' :
  ResolveForPhase (Some l) r phase = (p, l') → resolve (Some l) r = (p, l') ∨ l' = Some l.
Proof. unfold ResolveForPhase. destruct (negb _); [by left|]. repeat case_match; intros; simplify_eq; auto. Qed.

(** The operations that may move the active port of a key. *)
Definition moves_key (key : proxyPathPortKey) (op : ledgerOp) : bool :=
  match op with
  | OpPromote k | OpRetire k => bool_decide (k = key)
  | _ => false
  end.

(** Every operation is a step of some key, completion, or a deletion. *)
Definition deletes (op : ledgerOp) : bool := match op with OpDelete _ _ => true | _ => false end.

Lemma ledgerStep_complete key l :
  wfOwner key (ownerFor key l) →
  ledgerStep key [] l {| L_owners := L_owners l; L_pending := L_pending l; L_pendingByKey := L_pendingByKey l; L_used := L_used l;
                         L_removed := L_removed l; L_complete := true |}.
Proof. intros Hwf. split; try done; simpl; [by rewrite app_nil_r|naive_solver]. Qed.

Lemma runOp_step l op :
  wfLedger l → deletes op = false → ∃ l1 key rows, runOp (Some l) op = Some l1 ∧ ledgerStep key rows l l1.
Proof.
  intros Hwf Hd. pose (k0 := {| PK_Kind := ""; PK_ScopeKey := ""; PK_ServerID := 0 |}).
  destruct op as [r|r phase|r count|key|key|key n|]; try done; unfold runOp.
  - destruct (resolve (Some l) r) as [p l'] eqn:Hr. destruct (resolve_step _ _ _ _ Hwf Hr) as (l1 & rows & -> & Hs & _). eauto.
  - destruct (ResolveForPhase (Some l) r phase) as [p l'] eqn:Hr. apply ResolveForPhase_cases in Hr as [Hr| ->].
    + destruct (resolve_step _ _ _ _ Hwf Hr) as (l1 & rows & -> & Hs & _). eauto.
    + exists l, k0, []. split; [done|]. by apply ledgerStep_refl.
  - destruct (AllocatePreparing (Some l) r count) as [res l'] eqn:Hr.
    destruct (AllocatePreparing_step _ _ _ _ _ Hwf Hr) as (l1 & rows & -> & Hs & _). eauto.
  - destruct (PromotePreparing (Some l) key) as [res l'] eqn:Hr.
    destruct (PromotePreparing_step _ _ _ _ Hwf Hr) as (l1 & rows & -> & Hs & _). eauto.
  - destruct (MarkActiveRetiring (Some l) key) as [res l'] eqn:Hr.
    destruct (MarkActiveRetiring_step _ _ _ _ Hwf Hr) as (l1 & rows & -> & Hs & _). eauto.
  - eexists _, k0, []. split; [done|]. by apply ledgerStep_complete.
Qed.

Lemma runOp_wf l op : wfLedger l → ∃ l1, runOp (Some l) op = Some l1 ∧ wfLedger l1.
Proof.
  intros Hwf. destruct (deletes op) eqn:Hd.
  - destruct op as [| | | | |key n|]; try done. unfold runOp. destruct (DeleteRetired (Some l) key n) as [res l'] eqn:Hr.
    destruct (DeleteRetired_step _ _ _ _ _ Hwf Hr) as (l1 & -> & Hwf1 & _). eauto.
  - destruct (runOp_step l op Hwf Hd) as (l1 & key & rows & -> & Hs). exists l1. split; [done|]. by eapply ledgerStep_wf.
Qed.

Lemma runOps_wf l ops : wfLedger l → ∃ l1, runOps (Some l) ops = Some l1 ∧ wfLedger l1.
Proof.
  unfold runOps. revert l; induction ops as [|op ops IH]; intros l Hwf; [by exists l|]. cbn [foldl].
  destruct (runOp_wf l op Hwf) as (l1 & -> & Hwf1). by apply IH.
Qed.
End ledger.
