(* ===== verification/PortLedgerContracts.v ===== *)
(** * Contracts of the ledger of ports

    Active ports are stable, migrations move them in order, and a projection that is saved is
    read back with the same ports. *)

From S2P Require Import Prelude Model NetAddr ListenResources PortLedger PortLedgerSafety.

Local Open Scope Z_scope.

Section contracts.
Context {M : MapRange Z ProxyPathPortAllocation}.

(** ** Stability *)

Lemma step_active l l1 key rows k p :
  ledgerStep key rows l l1 → (k = key → activePort (ownerFor key l1) = Some p) → activePort (ownerFor k l) = Some p →
  activePort (ownerFor k l1) = Some p.
Proof.
  intros Hs Hk Hp. destruct (decide (k = key)) as [->|Hne]; [auto|]. by rewrite (ls_others _ _ _ _ Hs).
Qed.

Lemma resolve_active l r k p q l' :
  wfLedger l → resolve (Some l) r = (q, l') → activePort (ownerFor k l) = Some p →
  ∃ l1, l' = Some l1 ∧ wfLedger l1 ∧ activePort (ownerFor k l1) = Some p ∧ (requirementKey r = k → q = p).
Proof.
  intros Hwf Hr Hp. destruct (resolve_step _ _ _ _ Hwf Hr) as (l1 & rows & -> & Hs & _ & Hm). exists l1.
  split_and!; [done|by eapply ledgerStep_wf| |].
  - eapply step_active; [exact Hs| |done]. intros ->. rewrite Hp in Hm. by destruct Hm.
  - intros <-. rewrite Hp in Hm. by destruct Hm.
Qed.

Lemma runOp_active l op k p :
  wfLedger l → activePort (ownerFor k l) = Some p → moves_key k op = false →
  ∃ l1, runOp (Some l) op = Some l1 ∧ wfLedger l1 ∧ activePort (ownerFor k l1) = Some p.
Proof.
  intros Hwf Hp Hm. destruct op as [r|r phase|r count|key|key|key n|]; unfold runOp.
  - destruct (resolve (Some l) r) as [q l'] eqn:Hr. destruct (resolve_active _ _ _ _ _ _ Hwf Hr Hp) as (l1 & -> & ? & ? & _). eauto.
  - destruct (ResolveForPhase (Some l) r phase) as [q l'] eqn:Hr. apply ResolveForPhase_cases in Hr as [Hr| ->]; [|eauto].
    destruct (resolve_active _ _ _ _ _ _ Hwf Hr Hp) as (l1 & -> & ? & ? & _). eauto.
  - destruct (AllocatePreparing (Some l) r count) as [res l'] eqn:Hr.
    destruct (AllocatePreparing_step _ _ _ _ _ Hwf Hr) as (l1 & rows & -> & Hs & _ & Ha & _). exists l1.
    split_and!; [done|by eapply ledgerStep_wf|]. eapply step_active; [exact Hs| |done]. intros ->. by rewrite Ha.
  - destruct (PromotePreparing (Some l) key) as [res l'] eqn:Hr.
    destruct (PromotePreparing_step _ _ _ _ Hwf Hr) as (l1 & rows & -> & Hs & _). exists l1.
    split_and!; [done|by eapply ledgerStep_wf|]. eapply step_active; [exact Hs| |done]. intros ->. simpl in Hm. by case_bool_decide.
  - destruct (MarkActiveRetiring (Some l) key) as [res l'] eqn:Hr.
    destruct (MarkActiveRetiring_step _ _ _ _ Hwf Hr) as (l1 & rows & -> & Hs & _). exists l1.
    split_and!; [done|by eapply ledgerStep_wf|]. eapply step_active; [exact Hs| |done]. intros ->. simpl in Hm. by case_bool_decide.
  - destruct (DeleteRetired (Some l) key n) as [res l'] eqn:Hr.
    destruct (DeleteRetired_step _ _ _ _ _ Hwf Hr) as (l1 & -> & Hwf1 & Ha). exists l1. split_and!; [done..|]. by rewrite Ha.
  - eexists. split; [done|]. split; [|done]. eapply ledgerStep_wf; [exact Hwf|]. by apply (ledgerStep_complete k).
Qed.

Lemma runOps_active l ops k p :
  wfLedger l → activePort (ownerFor k l) = Some p → Forall (λ op, moves_key k op = false) ops →
  ∃ l1, runOps (Some l) ops = Some l1 ∧ wfLedger l1 ∧ activePort (ownerFor k l1) = Some p.
Proof.
  intros Hwf Hp Hops. unfold runOps. revert l Hwf Hp; induction Hops as [|op ops Hop _ IH]; intros l Hwf Hp; [by exists l|].
  cbn [foldl]. destruct (runOp_active l op k p Hwf Hp Hop) as (l1 & -> & Hwf1 & Hp1). by apply IH.
Qed.

(** ** Reading stored rows *)

(** The owner that the rows of one key produce. *)
Definition loadOwner (o : proxyPathPortOwner) (row : ProxyPathPortAllocation) : proxyPathPortOwner :=
  if PA_Port row <=? 0 then o
  else updateGeneration (normalizedGeneration row) (storeRow row) (generationFor (normalizedGeneration row) o).

Lemma ownerFor_loadRow k l row :
  ownerFor k (loadRow l row) = if bool_decide (keyOf row = k) then loadOwner (ownerFor k l) row else ownerFor k l.
Proof.
  unfold loadRow, loadOwner. destruct (_ <=? 0); [by case_bool_decide|]. unfold ownerFor. simpl. rewrite lookup_insert.
  repeat case_decide; case_bool_decide; subst; done.
Qed.

Lemma ownerFor_New k rows :
  ownerFor k (NewProxyPathPortLedger rows) = foldl loadOwner [] (List.filter (λ row, bool_decide (keyOf row = k)) rows).
Proof.
  unfold NewProxyPathPortLedger.
  assert (∀ l, ownerFor k (foldl loadRow l rows) = foldl loadOwner (ownerFor k l) (List.filter (λ row, bool_decide (keyOf row = k)) rows)) as ->.
  { induction rows as [|row rows IH]; intros l; [done|]. cbn [foldl List.filter]. rewrite IH, ownerFor_loadRow. by case_bool_decide. }
  done.
Qed.

(** The rows of one key as the table holds them. *)
Record keyRows (key : proxyPathPortKey) (rows : list ProxyPathPortAllocation) : Prop := {
  kr_key row : row ∈ rows → keyOf row = key;
  kr_checks row : row ∈ rows → 0 < PA_Generation row ∧ 0 ≤ PA_Ordinal row ∧ 0 < PA_Port row ∧
    PA_State row ∈ [PortAllocationStateActive; PortAllocationStatePreparing; PortAllocationStateRetiring];
  kr_slots : NoDup (slotOf <$> rows);
  kr_state a b : a ∈ rows → b ∈ rows → PA_Generation a = PA_Generation b → PA_State a = PA_State b;
  kr_active a b : a ∈ rows → b ∈ rows → PA_State a = PortAllocationStateActive → PA_State b = PortAllocationStateActive →
    PA_Generation a = PA_Generation b }.

(** The loaded owner holds exactly the rows, each under its generation and ordinal. *)
Record loaded (key : proxyPathPortKey) (rows : list ProxyPathPortAllocation) (o : proxyPathPortOwner) : Prop := {
  ld_numbered : StronglySorted (λ a b, G_generation a < G_generation b) o;
  ld_gens : Forall (wfGen key) o;
  ld_rows g ord row : (∃ gen, gen ∈ o ∧ G_generation gen = g ∧ G_ports gen !! ord = Some row) ↔ row ∈ rows ∧ slotOf row = (g, ord) }.

Lemma normalized_row row :
  0 < PA_Generation row → 0 ≤ PA_Ordinal row → normalizedGeneration row = PA_Generation row ∧ normalizedOrdinal row = PA_Ordinal row.
Proof. unfold normalizedGeneration, normalizedOrdinal. intros. destruct (Z.leb_spec (PA_Generation row) 0), (Z.ltb_spec (PA_Ordinal row) 0); lia. Qed.

Lemma normalized_state row :
  PA_State row ∈ [PortAllocationStateActive; PortAllocationStatePreparing; PortAllocationStateRetiring] →
  normalizeAllocationState (PA_State row) = PA_State row.
Proof. intros Hin. unfold normalizeAllocationState. rewrite bool_decide_eq_true_2; [done|]. set_solver. Qed.

Lemma keyRows_app key rows row : keyRows key (rows ++ [row]) → keyRows key rows.
Proof.
  intros [H1 H2 H3 H4 H5]. rewrite fmap_app in H3. apply NoDup_app in H3 as (H3 & _).
  split; [intros; apply H1; set_solver|intros; apply H2; set_solver|done|intros a b; intros; apply (H4 a b); set_solver|].
  intros a b; intros; apply (H5 a b); set_solver.
Qed.

(** The generation that takes a row: the stored one, or a fresh one without ports. *)
Lemma elem_of_generationFor n o g :
  g ∈ generationFor n o ↔ g ∈ o ∨ (findGeneration n o = None ∧ g = newGeneration n PortAllocationStateActive 0 ∅).
Proof. unfold generationFor. destruct (findGeneration n o); [naive_solver|]. rewrite elem_of_addGeneration. naive_solver. Qed.

Lemma numbered_generationFor n o : numbered o → numbered (generationFor n o).
Proof.
  intros Ho. unfold generationFor. destruct (findGeneration n o) eqn:Hf; [done|]. apply numbered_addGeneration; [done|].
  by apply findGeneration_None.
Qed.

Lemma generationFor_member n o : numbered o → ∃ g, g ∈ generationFor n o ∧ G_generation g = n.
Proof.
  intros Ho. destruct (findGeneration n o) as [g|] eqn:Hf.
  - apply findGeneration_Some in Hf as [Hin Hn]; [|done]. exists g. rewrite elem_of_generationFor. auto.
  - eexists. split; [apply elem_of_generationFor; right; eauto|done].
Qed.

(** A row joins the rows of its generation, which have its state. *)
Lemma wfGen_storeRow key rows row o g :
  keyRows key (rows ++ [row]) → loaded key rows o → g ∈ generationFor (PA_Generation row) o → G_generation g = PA_Generation row →
  wfGen key (storeRow row g).
Proof.
  intros Hk [_ Hg Hrows] Hin Hn. destruct (kr_checks _ _ Hk row) as (Hgen & Hord & Hport & Hst); [set_solver|].
  destruct (normalized_row row Hgen Hord) as [_ Hno].
  assert (∀ i r, G_ports g !! i = Some r → r ∈ rows ∧ slotOf r = (PA_Generation row, i)) as Hold.
  { intros i r Hr. apply elem_of_generationFor in Hin as [Hin|[_ ->]]; [apply Hrows; eauto|]. cbn in Hr. by rewrite lookup_empty in Hr. }
  split; simpl; [lia|apply insert_non_empty|]. rewrite Hno, normalized_state by done. intros i r. rewrite lookup_insert_Some.
  intros [[<- <-]|[_ Hr]].
  - rewrite (kr_key _ _ Hk row) by set_solver. split_and!; done || lia.
  - destruct (Hold i r Hr) as [Hr' [= Hrg Hri]]. destruct (kr_checks _ _ Hk r) as (? & ? & ? & _); [set_solver|].
    rewrite (kr_key _ _ Hk r) by set_solver. split_and!; try (done || lia). apply (kr_state _ _ Hk); [set_solver|set_solver|done].
Qed.

Lemma loadOwner_step key rows row o :
  keyRows key (rows ++ [row]) → loaded key rows o → loaded key (rows ++ [row]) (loadOwner o row).
Proof.
  intros Hk Hl. destruct (kr_checks _ _ Hk row) as (Hgen & Hord & Hport & _); [set_solver|].
  destruct (normalized_row row Hgen Hord) as [Hng Hno]. unfold loadOwner. rewrite (proj2 (Z.leb_gt _ _) Hport), Hng.
  set (n := PA_Generation row). pose proof (numbered_generationFor n o (ld_numbered _ _ _ Hl)) as Hnum. split.
  - by apply numbered_update.
  - apply Forall_forall. intros g (g0 & Hin & ->)%elem_of_update. destruct (Z.eqb_spec (G_generation g0) n) as [Hn|Hn].
    + by eapply wfGen_storeRow.
    + apply elem_of_generationFor in Hin as [Hin|[_ ->]]; [|done]. pose proof (ld_gens _ _ _ Hl) as Hg. rewrite Forall_forall in Hg. auto.
  - assert (∀ r g ord, r ∈ rows → slotOf r = (g, ord) → (g, ord) ≠ slotOf row) as Hfresh.
    { intros r g ord Hr <- Heq. pose proof (kr_slots _ _ Hk) as Hnd. rewrite fmap_app in Hnd. apply NoDup_app in Hnd as (_ & Hnd & _).
      apply (Hnd (slotOf r)); [by apply list_elem_of_fmap_2|]. rewrite Heq. set_solver. }
    intros g ord r. rewrite elem_of_app, list_elem_of_singleton. split.
    + intros (gen & (g0 & Hin & ->)%elem_of_update & Hg & Hr). destruct (Z.eqb_spec (G_generation g0) n) as [Hn|Hn].
      * simpl in Hg, Hr. rewrite Hno in Hr. apply lookup_insert_Some in Hr as [[<- <-]|[_ Hr]].
        -- split; [by right|]. unfold slotOf. by rewrite <- Hg, Hn.
        -- apply elem_of_generationFor in Hin as [Hin|[_ ->]]; [|cbn in Hr; by rewrite lookup_empty in Hr].
           destruct (proj1 (ld_rows _ _ _ Hl g ord r)) as [? ?]; [eauto|]. auto.
      * apply elem_of_generationFor in Hin as [Hin|[_ ->]]; [|done].
        destruct (proj1 (ld_rows _ _ _ Hl g ord r)) as [? ?]; [eauto|]. auto.
    + intros [[Hr| ->] Hslot].
      * destruct (proj2 (ld_rows _ _ _ Hl g ord r) (conj Hr Hslot)) as (gen & Hin & Hg & Hp).
        eexists. split; [apply elem_of_update; exists gen; split; [apply elem_of_generationFor; auto|reflexivity]|].
        destruct (Z.eqb_spec (G_generation gen) n) as [Hn|]; [|done]. split; [done|]. simpl. rewrite Hno, lookup_insert_ne; [done|].
        intros <-. eapply Hfresh; [exact Hr|exact Hslot|]. unfold slotOf. fold n. by rewrite <- Hg, Hn.
      * injection Hslot as <- <-. destruct (generationFor_member n o (ld_numbered _ _ _ Hl)) as (g0 & Hin & Hg0).
        eexists. split; [apply elem_of_update; exists g0; split; [done|reflexivity]|]. rewrite Hg0, Z.eqb_refl. split; [done|].
        simpl. by rewrite Hno, lookup_insert, decide_True.
Qed.

(** The owner read from the rows of a key is well formed and holds exactly these rows. *)
Lemma load_rows key rows : keyRows key rows → loaded key rows (foldl loadOwner [] rows).
Proof.
  induction rows as [|row rows IH] using rev_ind; intros Hk.
  - split; [constructor|constructor|]. intros g ord row. split; [intros (gen & ?%not_elem_of_nil & _); done|intros [?%not_elem_of_nil _]; done].
  - rewrite foldl_app. cbn [foldl]. apply loadOwner_step; [done|]. apply IH. by eapply keyRows_app.
Qed.

Lemma loaded_wf key rows o : keyRows key rows → loaded key rows o → wfOwner key o.
Proof.
  intros Hk [Hn Hg Hr]. split; [done..|]. rewrite Forall_forall in Hg.
  assert (∀ g, g ∈ o → ∃ row, row ∈ rows ∧ PA_Generation row = G_generation g ∧ PA_State row = G_state g) as Hrow.
  { intros g Hin. destruct (map_choose (G_ports g)) as (i & row & Hi); [by apply Hg|]. exists row.
    destruct (wg_row _ _ (Hg g Hin) _ _ Hi) as (_ & ? & _ & _ & ? & _). split_and!; [|done..].
    destruct (proj1 (Hr (G_generation g) i row)); eauto. }
  intros a b Ha Hb Haa Hbb. destruct (Hrow a Ha) as (ra & Hra & Hga & Hsa), (Hrow b Hb) as (rb & Hrb & Hgb & Hsb).
  eapply sorted_number_inj; [done..|]. rewrite <- Hga, <- Hgb. apply (kr_active _ _ Hk); congruence.
Qed.

Lemma load_orow key rows g ord row :
  keyRows key rows → orow (foldl loadOwner [] rows) g ord = Some row ↔ row ∈ rows ∧ slotOf row = (g, ord).
Proof.
  intros Hk. pose proof (load_rows key rows Hk) as Hl. rewrite (orow_Some key) by by eapply loaded_wf. apply (ld_rows _ _ _ Hl).
Qed.

(** ** The table of the rows *)

Notation place row := (keyOf row, slotOf row).

(** What the constraints of the table give. *)
Record constrained (t : allocationTable) : Prop := {
  tb_ids : NoDup (PA_ID <$> T_rows t);
  tb_next row : row ∈ T_rows t → PA_ID row < T_next t;
  tb_places : NoDup ((λ row, place row) <$> T_rows t);
  tb_checks row : row ∈ T_rows t → rowChecks row }.

(** What the projections maintain besides. *)
Record consistent (rows : list ProxyPathPortAllocation) : Prop := {
  cs_state a b : a ∈ rows → b ∈ rows → keyOf a = keyOf b → PA_Generation a = PA_Generation b → PA_State a = PA_State b;
  cs_active a b : a ∈ rows → b ∈ rows → keyOf a = keyOf b → PA_State a = PortAllocationStateActive →
    PA_State b = PortAllocationStateActive → PA_Generation a = PA_Generation b }.

Definition wfTable (t : allocationTable) : Prop := constrained t ∧ consistent (T_rows t).

Definition rowsOf (key : proxyPathPortKey) (rows : list ProxyPathPortAllocation) : list ProxyPathPortAllocation :=
  List.filter (λ row, bool_decide (keyOf row = key)) rows.

Lemma elem_of_rowsOf key rows row : row ∈ rowsOf key rows ↔ row ∈ rows ∧ keyOf row = key.
Proof. unfold rowsOf. by rewrite list_elem_of_In, List.filter_In, <- list_elem_of_In, bool_decide_eq_true. Qed.

Lemma elem_of_ListAllocations row t : row ∈ ListProxyPathPortAllocations t ↔ row ∈ T_rows t.
Proof. unfold ListProxyPathPortAllocations. by rewrite sort_slice_perm. Qed.

Lemma elem_of_listed key t row : row ∈ rowsOf key (ListProxyPathPortAllocations t) ↔ row ∈ T_rows t ∧ keyOf row = key.
Proof. by rewrite elem_of_rowsOf, elem_of_ListAllocations. Qed.

Lemma wfTable_keyRows t key : wfTable t → keyRows key (rowsOf key (ListProxyPathPortAllocations t)).
Proof.
  intros [Hc [Hst Hact]]. split.
  - by intros row [_ ?]%elem_of_listed.
  - intros row [Hin _]%elem_of_listed. apply (tb_checks _ Hc), Is_true_true in Hin. unfold rowChecks in Hin.
    rewrite !andb_true_iff, !bool_decide_eq_true in Hin. destruct Hin as ((((((_ & _) & ?) & ?) & ?) & ?) & _). split_and!; lia || done.
  - pose proof (tb_places _ Hc) as Hnd. rewrite <- (sort_slice_perm (ltc allocationOrder) (T_rows t)) in Hnd. fold (ListProxyPathPortAllocations t) in Hnd. apply (NoDup_map_filter _ (λ row, bool_decide (keyOf row = key))) in Hnd.
    fold (rowsOf key (ListProxyPathPortAllocations t)) in Hnd. eapply (NoDup_fmap_1 (λ slot, (key, slot))).
    rewrite <- list_fmap_compose. eapply eq_ind; [exact Hnd|]. apply list_fmap_ext. intros i row Hi.
    apply list_elem_of_lookup_2, elem_of_listed in Hi as [_ <-]. done.
  - intros a b [Ha <-]%elem_of_listed [Hb Heq]%elem_of_listed. by apply Hst.
  - intros a b [Ha <-]%elem_of_listed [Hb Heq]%elem_of_listed. by apply Hact.
Qed.

Lemma wfLedger_New t : wfTable t → wfLedger (NewProxyPathPortLedger (ListProxyPathPortAllocations t)).
Proof.
  intros Hwf key. rewrite ownerFor_New. pose proof (wfTable_keyRows t key Hwf) as Hk. eapply loaded_wf; [exact Hk|]. by apply load_rows.
Qed.

(** The rows of a key by slot. *)
Definition holds (rows : list ProxyPathPortAllocation) (key : proxyPathPortKey) (f : Z → Z → option ProxyPathPortAllocation) : Prop :=
  ∀ g ord row0, f g ord = Some row0 ↔ ∃ row, row ∈ rows ∧ keyOf row = key ∧ slotOf row = (g, ord) ∧ row0 = erase row.

Lemma holds_New t key : wfTable t → holds (T_rows t) key (oslots (ownerFor key (NewProxyPathPortLedger (ListProxyPathPortAllocations t)))).
Proof.
  intros Hwf g ord row0. rewrite ownerFor_New. unfold oslots. rewrite fmap_Some.
  setoid_rewrite (load_orow key); [|by apply wfTable_keyRows]. setoid_rewrite elem_of_listed. naive_solver.
Qed.

(** *** Upserts *)

Lemma sameSlot_true a b : sameSlot a b = true ↔ keyOf a = keyOf b ∧ slotOf a = slotOf b.
Proof.
  unfold sameSlot, slotOf. rewrite !andb_true_iff, bool_decide_eq_true, !Z.eqb_eq. split; [intros [[? ?] ?]; split; congruence|].
  intros [? [= ? ?]]. done.
Qed.

(** The rows after an upsert: the row replaces the one of its place, or joins the others. *)
Lemma upsertRow_rows row t t' :
  upsertRow row t = Ok t' → constrained t →
  rowChecks row ∧ constrained t' ∧ T_next t ≤ T_next t' ∧
  (∀ r, r ∈ T_rows t' → (r ∈ T_rows t ∧ place r ≠ place row) ∨
     (∃ id, r = withID id row ∧ ((∃ old, old ∈ T_rows t ∧ PA_ID old = id ∧ place old = place row) ∨ T_next t ≤ id))) ∧
  (∀ r, r ∈ T_rows t → place r ≠ place row → r ∈ T_rows t') ∧
  (∃ id, withID id row ∈ T_rows t').
Proof.
  unfold upsertRow. destruct (rowChecks row) eqn:Hck; [|done]. cbn [negb]. intros Hup [Hids Hnext Hpl Hchecks].
  destruct (existsb (sameSlot row) (T_rows t)) eqn:Hex; injection Hup as <-.
  - apply List.existsb_exists in Hex as (old & Hold%list_elem_of_In & [Hk Hs]%sameSlot_true).
    set (upd := λ old, if sameSlot row old then withID (PA_ID old) row else old).
    assert (∀ r, PA_ID (upd r) = PA_ID r ∧ place (upd r) = place r) as Hupd.
    { intros r. unfold upd. destruct (sameSlot row r) eqn:Hr; [|done]. apply sameSlot_true in Hr as [? ?]. split; [done|].
      change (keyOf (withID (PA_ID r) row)) with (keyOf row). change (slotOf (withID (PA_ID r) row)) with (slotOf row). congruence. }
    assert (upd old = withID (PA_ID old) row) as Hu by (unfold upd; by rewrite (proj2 (sameSlot_true _ _) (conj Hk Hs))).
    split; [done|]. split; [split; simpl|split; [simpl; lia|]].
    + rewrite <- list_fmap_compose. erewrite list_fmap_ext; [exact Hids|]. intros i r _. apply Hupd.
    + intros r (r0 & -> & Hr0)%list_elem_of_fmap. rewrite (proj1 (Hupd r0)). auto.
    + rewrite <- list_fmap_compose. erewrite list_fmap_ext; [exact Hpl|]. intros i r _. apply Hupd.
    + intros r (r0 & -> & Hr0)%list_elem_of_fmap. unfold upd. destruct (sameSlot row r0); [exact (Is_true_true_2 _ Hck)|auto].
    + cbn [T_rows]. split_and!.
      * intros r (r0 & -> & Hr0)%list_elem_of_fmap. unfold upd. destruct (sameSlot row r0) eqn:Hr.
        -- apply sameSlot_true in Hr as [? ?]. right. eexists. split; [done|]. left. exists r0. split_and!; [done..|congruence].
        -- left. split; [done|]. intros Heq. injection Heq as ? ? ?. assert (sameSlot row r0 = true); [|congruence].
           apply sameSlot_true. unfold keyOf, slotOf. split; congruence.
      * intros r Hr Hne. apply list_elem_of_fmap. exists r. split; [|done]. unfold upd. destruct (sameSlot row r) eqn:Hrs; [|done].
        apply sameSlot_true in Hrs as [? ?]. destruct Hne. congruence.
      * exists (PA_ID old). rewrite <- Hu. by apply list_elem_of_fmap_2.
  - assert (∀ r, r ∈ T_rows t → place r ≠ place row) as Hfresh.
    { intros r Hr Heq. assert (existsb (sameSlot row) (T_rows t) = true); [|congruence]. apply List.existsb_exists. exists r.
      split; [by apply list_elem_of_In|]. apply sameSlot_true. split; congruence. }
    split; [done|]. split; [split; cbn [T_rows T_next]|split; [simpl; lia|]].
    + rewrite fmap_app. apply NoDup_app. split_and!; [done| |apply NoDup_singleton].
      intros id (r & -> & Hr)%list_elem_of_fmap Hid%list_elem_of_singleton. specialize (Hnext r Hr). simpl in Hid. lia.
    + intros r [Hr| ->%list_elem_of_singleton]%elem_of_app; [specialize (Hnext r Hr); lia|simpl; lia].
    + rewrite fmap_app. apply NoDup_app. split_and!; [done| |apply NoDup_singleton].
      intros pl (r & -> & Hr)%list_elem_of_fmap Hid%list_elem_of_singleton. by apply (Hfresh r).
    + intros r [Hr| ->%list_elem_of_singleton]%elem_of_app; [auto|exact (Is_true_true_2 _ Hck)].
    + cbn [T_rows]. split_and!.
      * intros r [Hr| ->%list_elem_of_singleton]%elem_of_app; [left; auto|]. right. eexists. split; [done|]. right. lia.
      * intros r Hr _. apply elem_of_app. by left.
      * exists (T_next t). apply elem_of_app. right. by apply list_elem_of_singleton.
Qed.

(** The slots of a key after an upsert. *)
Lemma upsertRow_holds row t t' key f :
  upsertRow row t = Ok t' → constrained t → holds (T_rows t) key f →
  holds (T_rows t') key (if bool_decide (keyOf row = key) then updSlot f row else f).
Proof.
  intros Hup Hc Hf g ord row0. destruct (upsertRow_rows _ _ _ Hup Hc) as (_ & _ & _ & Hfrom & Hkeep & id & Hid).
  assert (slotOf row = (g, ord) ↔ (PA_Generation row =? g) && (PA_Ordinal row =? ord) = true) as Hslot.
  { unfold slotOf. rewrite andb_true_iff, !Z.eqb_eq. split; [by intros [= ? ?]|by intros [<- <-]]. }
  assert (keyOf row = key → slotOf row = (g, ord) →
    Some (erase row) = Some row0 ↔ ∃ r, r ∈ T_rows t' ∧ keyOf r = key ∧ slotOf r = (g, ord) ∧ row0 = erase r) as Hhit.
  { intros Hk Hs. split.
    - intros [= <-]. exists (withID id row). done.
    - intros (r & Hr & Hkr & Hsr & ->). apply Hfrom in Hr as [[_ Hne]|(id' & -> & _)]; [|done]. destruct Hne. congruence. }
  assert (¬ (keyOf row = key ∧ slotOf row = (g, ord)) →
    f g ord = Some row0 ↔ ∃ r, r ∈ T_rows t' ∧ keyOf r = key ∧ slotOf r = (g, ord) ∧ row0 = erase r) as Hmiss.
  { intros Hne. rewrite (Hf g ord row0). split.
    - intros (r & Hr & Hkr & Hsr & ->). exists r. split_and!; try done. apply Hkeep; [done|]. intros Heq. apply Hne.
      split; [rewrite <- Hkr|rewrite <- Hsr]; congruence.
    - intros (r & Hr & Hkr & Hsr & ->). apply Hfrom in Hr as [[Hr _]|(id' & -> & _)]; [eauto|]. by destruct Hne. }
  case_bool_decide as Hk; [|apply Hmiss; tauto]. unfold updSlot. destruct (_ && _) eqn:Hb.
  - apply Hhit; [done|]. by apply Hslot.
  - apply Hmiss. intros [_ Hs]. apply Hslot in Hs. congruence.
Qed.

Lemma upserts_holds rows t t' key f :
  foldM upsertRow rows t = Ok t' → constrained t → holds (T_rows t) key f →
  constrained t' ∧ holds (T_rows t') key (updSlots (rowsOf key rows) f).
Proof.
  revert t f; induction rows as [|row rows IH]; intros t f Hup Hc Hf; cbn [foldM] in Hup; [by injection Hup as <-|].
  destruct (upsertRow row t) as [t1|e] eqn:H1; [|done].
  pose proof (upsertRow_holds _ _ _ _ _ H1 Hc Hf) as Hf1. destruct (upsertRow_rows _ _ _ H1 Hc) as (_ & Hc1 & _).
  destruct (IH _ _ Hup Hc1 Hf1) as [Hc' Hf']. split; [done|]. unfold rowsOf. cbn [List.filter].
  case_bool_decide; [|done]. exact Hf'.
Qed.

(** Where a row of the table comes from. *)
Lemma upserts_origin rows t t' r :
  foldM upsertRow rows t = Ok t' → constrained t → r ∈ T_rows t' →
  (∃ old, old ∈ T_rows t ∧ PA_ID old = PA_ID r ∧ keyOf old = keyOf r) ∨ (T_next t ≤ PA_ID r ∧ ∃ row, row ∈ rows ∧ keyOf row = keyOf r).
Proof.
  revert t; induction rows as [|row rows IH]; intros t Hup Hc Hr; cbn [foldM] in Hup; [injection Hup as <-; eauto|].
  destruct (upsertRow row t) as [t1|e] eqn:H1; [|done].
  destruct (upsertRow_rows _ _ _ H1 Hc) as (_ & Hc1 & Hnext & Hfrom & _).
  destruct (IH _ Hup Hc1 Hr) as [(old & Hold & Hid & Hk)|(Hle & row' & Hrow' & Hk)]; [|right; split; [lia|exists row'; split; [by right|done]]].
  apply Hfrom in Hold as [[Hold _]|(id & -> & [(old0 & Hold0 & Hid0 & Hpl)|Hle])]; [eauto| |].
  - left. exists old0. split_and!; [done|by rewrite Hid0|]. rewrite <- Hk. exact (f_equal fst Hpl).
  - right. simpl in Hid. split; [lia|]. exists row. split; [left|]. by rewrite <- Hk.
Qed.

(** *** Projections *)

Lemma New_fields rows :
  let l := NewProxyPathPortLedger rows in
  L_pending l = [] ∧ L_pendingByKey l = ∅ ∧ L_used l = ∅ ∧ L_removed l = ∅ ∧ L_complete l = false.
Proof.
  unfold NewProxyPathPortLedger. assert (∀ l, let l' := foldl loadRow l rows in
    L_pending l' = L_pending l ∧ L_pendingByKey l' = L_pendingByKey l ∧ L_used l' = L_used l ∧ L_removed l' = L_removed l ∧
    L_complete l' = L_complete l) as Hall; [|apply (Hall emptyLedger)].
  induction rows as [|row rows IH]; intros l; [done|]. cbn [foldl]. destruct (IH (loadRow l row)) as (-> & -> & -> & -> & ->).
  unfold loadRow. by destruct (_ <=? 0).
Qed.

Lemma rowsOf_app key r1 r2 : rowsOf key (r1 ++ r2) = rowsOf key r1 ++ rowsOf key r2.
Proof. apply List.filter_app. Qed.

Lemma rowsOf_all key rows : Forall (λ row, keyOf row = key) rows → rowsOf key rows = rows.
Proof. unfold rowsOf. induction 1 as [|row rows Hk _ IH]; [done|]. simpl. rewrite bool_decide_eq_true_2 by done. by f_equal. Qed.

Lemma rowsOf_other key k rows : k ≠ key → Forall (λ row, keyOf row = key) rows → rowsOf k rows = [].
Proof. unfold rowsOf. intros Hne. induction 1 as [|row rows Hk _ IH]; [done|]. simpl. by rewrite bool_decide_eq_false_2 by congruence. Qed.

(** Operations without deletions: the recorded rows describe every owner. *)
Lemma runOps_pending l ops :
  wfLedger l → Forall (λ op, deletes op = false) ops →
  ∃ l1 rows, runOps (Some l) ops = Some l1 ∧ wfLedger l1 ∧ L_pending l1 = L_pending l ++ rows ∧
    (∀ key g ord, oslots (ownerFor key l1) g ord = updSlots (rowsOf key rows) (oslots (ownerFor key l)) g ord) ∧
    L_removed l1 = L_removed l ∧ L_pendingByKey l ⊆ L_pendingByKey l1 ∧ ∀ row, row ∈ rows → keyOf row ∈ L_pendingByKey l1.
Proof.
  intros Hwf Hops. unfold runOps. revert l Hwf; induction Hops as [|op ops Hop _ IH]; intros l Hwf.
  { exists l, []. rewrite app_nil_r. split_and!; try done. by intros row ?%not_elem_of_nil. }
  cbn [foldl]. destruct (runOp_step l op Hwf Hop) as (l0 & key & rows0 & -> & Hs).
  pose proof (ledgerStep_wf _ _ _ _ Hwf Hs) as Hwf0. destruct (IH l0 Hwf0) as (l1 & rows & Hrun & Hwf1 & Hp & Hsl & Hr & Hk & Hrk).
  assert (∀ k, k ∈ L_pendingByKey l0 ↔ k ∈ L_pendingByKey l ∨ (k = key ∧ rows0 ≠ [])) as Hpk by apply (ls_pendingByKey _ _ _ _ Hs).
  pose proof (ls_rows _ _ _ _ Hs) as Hkeys. exists l1, (rows0 ++ rows). split_and!; [done|done| | | |set_solver|].
  - rewrite Hp, (ls_pending _ _ _ _ Hs). by rewrite app_assoc.
  - intros k g ord. rewrite Hsl, rowsOf_app, updSlots_app. apply updSlots_ext. intros g0 ord0.
    destruct (decide (k = key)) as [->|Hne].
    + rewrite (rowsOf_all key) by done. apply (ls_slots _ _ _ _ Hs).
    + rewrite (rowsOf_other key) by done. by rewrite (ls_others _ _ _ _ Hs).
  - by rewrite Hr, (ls_removed _ _ _ _ Hs).
  - intros row [Hrow|Hrow]%elem_of_app; [|auto]. apply Hk, Hpk. right. rewrite Forall_forall in Hkeys. split; [auto|].
    intros ->. by apply not_elem_of_nil in Hrow.
Qed.

Lemma holds_consistent rows l :
  wfLedger l → (∀ key, holds rows key (oslots (ownerFor key l))) → consistent rows.
Proof.
  intros Hwf Hh.
  assert (∀ a, a ∈ rows → ∃ gen, gen ∈ ownerFor (keyOf a) l ∧ G_generation gen = PA_Generation a ∧ G_state gen = PA_State a) as Hgen.
  { intros a Ha. assert (oslots (ownerFor (keyOf a) l) (PA_Generation a) (PA_Ordinal a) = Some (erase a)) as Ho by (apply Hh; eauto).
    unfold oslots in Ho. apply fmap_Some in Ho as (r & Hr & He). apply (orow_Some (keyOf a)) in Hr as (gen & Hin & Hg & Hp); [|done].
    exists gen. split_and!; [done..|]. destruct (wg_row _ _ (wfGen_in _ _ _ (Hwf (keyOf a)) Hin) _ _ Hp) as (_ & _ & _ & _ & <- & _).
    unfold erase, withID in He. congruence. }
  split; intros a b Ha Hb Hk; destruct (Hgen a Ha) as (ga & Hina & Hga & Hsa), (Hgen b Hb) as (gb & Hinb & Hgb & Hsb); rewrite <- Hk in Hinb.
  - intros Heq. rewrite <- Hsa, <- Hsb. f_equal. eapply sorted_number_inj; [apply (Hwf (keyOf a))|done..|congruence].
  - intros Haa Hab. rewrite <- Hga, <- Hgb. f_equal. eapply (wo_active _ _ (Hwf (keyOf a))); congruence.
Qed.

Lemma wfTable_filter p t :
  wfTable t → wfTable {| T_rows := List.filter p (T_rows t); T_next := T_next t |}.
Proof.
  assert (∀ row, row ∈ List.filter p (T_rows t) → row ∈ T_rows t) as Hsub.
  { intros row. rewrite !list_elem_of_In, List.filter_In. tauto. }
  intros [[Hi Hn Hp Hc] [Hs Ha]]. split; split; simpl; auto using NoDup_map_filter.
Qed.

(** ** Theorems *)

(** Whether the save keeps the rows of a key. *)
Definition retained (l : ProxyPathPortLedger) (key : proxyPathPortKey) : Prop :=
  key ∈ L_used l ∨ key ∈ L_pendingByKey l ∨ L_complete l = false ∨ PK_Kind key = ProxyPathPortKindSnellUser.

Lemma retained_dec l key : retained l key ∨ ¬ retained l key.
Proof.
  unfold retained. destruct (decide (key ∈ L_used l)), (decide (key ∈ L_pendingByKey l)), (decide (L_complete l = false)),
    (decide (PK_Kind key = ProxyPathPortKindSnellUser)); tauto.
Qed.

Lemma elem_of_stale t l id :
  L_removed l = ∅ →
  id ∈ StaleProxyPathPortAllocationIDs (ListProxyPathPortAllocations t) (Some l) ↔ ∃ s, s ∈ T_rows t ∧ PA_ID s = id ∧ ¬ retained l (keyOf s).
Proof.
  intros Hr. unfold StaleProxyPathPortAllocationIDs, retained. destruct (L_complete l); cbn [negb].
  - rewrite list_elem_of_fmap. setoid_rewrite list_elem_of_In. setoid_rewrite List.filter_In. setoid_rewrite <- list_elem_of_In.
    assert (∀ s, staleRow l s = true ↔ ¬ (keyOf s ∈ L_used l ∨ keyOf s ∈ L_pendingByKey l ∨ true = false ∨ PK_Kind (keyOf s) = ProxyPathPortKindSnellUser)) as Hst.
    { intros s. unfold staleRow. rewrite Hr, (bool_decide_eq_false_2 (PA_ID s ∈ ∅)) by set_solver. cbn [orb].
      rewrite !andb_true_iff, !negb_true_iff, !bool_decide_eq_false, String.eqb_neq. cbn [keyOf PK_Kind]. naive_solver. }
    setoid_rewrite Hst. setoid_rewrite elem_of_ListAllocations. naive_solver.
  - split; [by intros ?%not_elem_of_nil|]. intros (s & _ & _ & Hn). destruct Hn. auto.
Qed.

(** The removal of the stale rows removes whole keys. *)
Lemma kept_rows t t1 l r :
  constrained t → L_removed l = ∅ → foldM upsertRow (L_pending l) t = Ok t1 →
  (∀ row, row ∈ L_pending l → keyOf row ∈ L_pendingByKey l) → r ∈ T_rows t1 →
  PA_ID r ∈ StaleProxyPathPortAllocationIDs (ListProxyPathPortAllocations t) (Some l) ↔ ¬ retained l (keyOf r).
Proof.
  intros Hc Hrem Hup Hpk Hr. rewrite elem_of_stale by done.
  destruct (upserts_origin _ _ _ _ Hup Hc Hr) as [(old & Hold & Hid & Hk)|(Hle & row & Hrow & Hk)].
  - split; [|intros Hn; exists old; by rewrite Hk].
    intros (s & Hs & Hids & Hn). assert (s = old) as ->; [|by rewrite <- Hk].
    apply list_elem_of_lookup in Hs as [i Hi], Hold as [j Hj].
    assert (i = j) as ->; [|congruence].
    eapply NoDup_lookup; [apply (tb_ids _ Hc)|rewrite list_lookup_fmap, Hi; done|rewrite list_lookup_fmap, Hj; simpl; congruence].
  - split.
    + intros (s & Hs & Hids & _). pose proof (tb_next _ Hc s Hs). lia.
    + intros Hn. destruct Hn. right; left. rewrite <- Hk. auto.
Qed.

(** C16. A projection and its save keep the ports: a ledger is read from a valid table, any
    operations but deletions run on it, and all the rows it recorded are saved while all the
    rows no listener claims are removed (callers that save some of them only are not covered).  The table is then valid again; a ledger read from it gives
    every retained key the active port it had in the ledger that was saved, and a key that is
    not retained has no rows left. *)
Theorem saved_ports_reload t ops l t' :
  wfTable t → Forall (λ op, deletes op = false) ops → runOps (Some (NewProxyPathPortLedger (ListProxyPathPortAllocations t))) ops = Some l →
  SaveProxyPathPortAllocations (Pending (Some l)) (StaleProxyPathPortAllocationIDs (ListProxyPathPortAllocations t) (Some l)) t = Ok t' →
  wfTable t' ∧ ∀ key,
    (retained l key → LookupActive (Some (NewProxyPathPortLedger (ListProxyPathPortAllocations t'))) key = LookupActive (Some l) key) ∧
    (¬ retained l key → ∀ row, row ∈ T_rows t' → keyOf row ≠ key).
Proof.
  intros Hwf Hops Hrun Hsave. destruct (New_fields (ListProxyPathPortAllocations t)) as (Hp0 & _ & _ & Hr0 & _).
  destruct (runOps_pending _ ops (wfLedger_New t Hwf) Hops) as (l1 & rows & Hrun1 & Hwfl & Hp & Hsl & Hr & _ & Hrk).
  rewrite Hrun in Hrun1. injection Hrun1 as <-. rewrite Hp0 in Hp. cbn in Hp. rewrite Hr0 in Hr.
  unfold SaveProxyPathPortAllocations in Hsave. cbn [Pending] in Hsave.
  destruct (foldM upsertRow (L_pending l) t) as [t1|e] eqn:Hup; [|done]. injection Hsave as <-.
  assert (∀ key, constrained t1 ∧ holds (T_rows t1) key (oslots (ownerFor key l))) as Hh.
  { intros key. destruct (upserts_holds _ _ _ key _ Hup (proj1 Hwf) (holds_New t key Hwf)) as [Hc1 Hf]. split; [done|].
    intros g ord row0. rewrite Hsl, <- Hp. apply Hf. }
  pose proof (Hh {| PK_Kind := ""; PK_ScopeKey := ""; PK_ServerID := 0 |}) as [Hc1 _].
  assert (wfTable t1) as Hwf1 by (split; [done|]; apply (holds_consistent _ l Hwfl); intros key; apply Hh).
  pose proof (wfTable_filter (λ row, negb (bool_decide (PA_ID row ∈ StaleProxyPathPortAllocationIDs (ListProxyPathPortAllocations t) (Some l)))) t1 Hwf1) as Hwf2.
  set (t2 := Build_allocationTable (List.filter _ _) _) in *.
  assert (∀ r, r ∈ T_rows t2 ↔ r ∈ T_rows t1 ∧ retained l (keyOf r)) as Hin2.
  { intros r. unfold t2. cbn [T_rows]. rewrite list_elem_of_In, List.filter_In, <- list_elem_of_In, negb_true_iff, bool_decide_eq_false.
    split; intros [Hin Hk]; (split; [done|]).
    - destruct (retained_dec l (keyOf r)) as [|Hn]; [done|]. destruct Hk. eapply kept_rows; [apply Hwf|done..|by rewrite Hp|done|done].
    - intros Hst. eapply kept_rows in Hst; [done|apply Hwf|done..|by rewrite Hp|done]. }
  split; [done|]. intros key. split; [|intros Hn r [_ Hk]%Hin2 <-; done].
  intros Hret. rewrite !LookupActive_activePort. apply (activePort_slots key); [by apply wfLedger_New|apply Hwfl|].
  intros g ord. f_equal. apply option_eq. intros row0. rewrite (proj2 (Hh key) g ord row0), (holds_New t2 key Hwf2 g ord row0).
  setoid_rewrite Hin2. naive_solver.
Qed.

(** C34. Active ports are stable: whatever operations run on a ledger read from a valid
    table, an owner whose own generations are neither promoted nor retired keeps its active
    port, and a resolution of its listener answers this port without asking for a new one,
    whatever pool, address, network or policy revision the listener has now. *)
Theorem active_port_stable t ops key p :
  wfTable t → LookupActive (Some (NewProxyPathPortLedger (ListProxyPathPortAllocations t))) key = Some p → Forall (λ op, moves_key key op = false) ops →
  ∃ l, runOps (Some (NewProxyPathPortLedger (ListProxyPathPortAllocations t))) ops = Some l ∧ LookupActive (Some l) key = Some p ∧
    ∀ r, requirementKey r = key → (resolve (Some l) r).1 = p ∧ LookupActive (resolve (Some l) r).2 key = Some p.
Proof.
  intros Hwf Hp Hops. rewrite LookupActive_activePort in Hp.
  destruct (runOps_active _ ops key p (wfLedger_New t Hwf) Hp Hops) as (l & Hrun & Hwfl & Hp').
  exists l. split; [done|]. rewrite LookupActive_activePort. split; [done|]. intros r Hr.
  destruct (resolve (Some l) r) as [q l'] eqn:Hres. destruct (resolve_active _ _ _ _ _ _ Hwfl Hres Hp') as (l1 & -> & _ & Hp1 & Hq).
  simpl. rewrite Hq by done. unfold LookupActive. unfold activePort, ownerFor in Hp1. split; [done|]. by destruct (L_owners l1 !! key).
Qed.

Lemma generationByState_add st gen o g :
  generationByState st o = None → generationByState st (addGeneration gen o) = Some g → g = gen.
Proof.
  intros Hno [Hin Hst]%generationByState_Some. apply elem_of_addGeneration in Hin as [Hin|]; [|done].
  unfold generationByState in Hno. apply list_elem_of_In in Hin. eapply List.find_none in Hno; [|exact Hin].
  by apply String.eqb_neq in Hno.
Qed.

Lemma generationByState_None st o : generationByState st o = None → ∀ g, g ∈ o → G_state g ≠ st.
Proof. unfold generationByState. intros Hf g Hin%list_elem_of_In. eapply List.find_none in Hf; [|exact Hin]. by apply String.eqb_neq. Qed.

(** Promotion succeeds when a generation is prepared. *)
Lemma PromotePreparing_Ok l key gp :
  generationByState PortAllocationStatePreparing (ownerFor key l) = Some gp →
  ∃ rows l', PromotePreparing (Some l) key = (Ok rows, l').
Proof.
  unfold PromotePreparing, ownerFor. destruct (L_owners l !! key) as [o|]; [|done]. simpl. intros ->.
  destruct (activeGeneration o); eauto.
Qed.

Lemma AllocatePreparing_NoDup ledger r count rows l' :
  AllocatePreparing ledger r count = (Ok rows, l') → NoDup (PA_Ordinal <$> rows).
Proof.
  unfold AllocatePreparing. destruct ledger as [l|]; [|done]. destruct (activeGeneration _); [|done].
  destruct (candidatePorts _ _ _ _) as [cands|] eqn:Hc; [|done]. intros [= <- _]. apply candidatePorts_Ok in Hc as (_ & Hnd & _).
  by apply (preparedRows_NoDup r).
Qed.

(** A migration moves a port in two steps.  On a ledger read from a valid table, after
    any operations, reserving a generation for an owner that prepares none leaves every
    active port where it was; promoting it then succeeds, the owner's active port becomes the
    port of the reserved row of least ordinal, and the other owners keep theirs.  Without a
    prepared generation the promotion is an error that changes nothing. *)
Theorem migration_cutover t ops l r count rows l1 :
  wfTable t → runOps (Some (NewProxyPathPortLedger (ListProxyPathPortAllocations t))) ops = Some l →
  generationByState PortAllocationStatePreparing (ownerFor (requirementKey r) l) = None →
  AllocatePreparing (Some l) r count = (Ok rows, l1) →
  PromotePreparing (Some l) (requirementKey r) =
    (Err (if bool_decide (L_owners l !! requirementKey r = None) then ErrNoGenerations (requirementKey r) else ErrNoPreparing (requirementKey r)), Some l) ∧
  (∀ key, LookupActive l1 key = LookupActive (Some l) key) ∧
  ∃ rows2 l2 row, PromotePreparing l1 (requirementKey r) = (Ok rows2, Some l2) ∧ row ∈ rows ∧
    (∀ row', row' ∈ rows → PA_Ordinal row ≤ PA_Ordinal row') ∧
    ∀ key, LookupActive (Some l2) key = if bool_decide (key = requirementKey r) then Some (PA_Port row) else LookupActive (Some l) key.
Proof.
  intros Hwf Hrun Hno Hprep. destruct (runOps_wf _ ops (wfLedger_New t Hwf)) as (l0 & Hrun0 & Hwfl). rewrite Hrun in Hrun0. injection Hrun0 as <-.
  destruct (AllocatePreparing_step _ _ _ _ _ Hwfl Hprep) as (l1' & rows' & -> & Hs & _ & Hap & -> & cands & Hrows & Hne & Hown).
  pose proof (ledgerStep_wf _ _ _ _ Hwfl Hs) as Hwf1. set (key := requirementKey r) in *.
  set (gen := newGeneration _ _ _ _) in Hown.
  assert (gen ∈ ownerFor key l1') as Hin by (rewrite Hown; apply elem_of_addGeneration; auto).
  destruct (generationByState PortAllocationStatePreparing (ownerFor key l1')) as [gp|] eqn:Hgp;
    [|by destruct (generationByState_None _ _ Hgp gen)].
  assert (gp = gen) as -> by (rewrite Hown in Hgp; by eapply generationByState_add).
  destruct (PromotePreparing_Ok _ _ _ Hgp) as (rows2 & l2' & Hpro).
  destruct (PromotePreparing_step _ _ _ _ Hwf1 Hpro) as (l2 & rows2' & -> & Hs2 & _ & -> & gp & Hgp2 & Hap2).
  rewrite Hgp in Hgp2. injection Hgp2 as <-.
  pose proof (wfGen_in _ _ _ (Hwf1 key) Hin) as Hwfg. destruct (primaryRow_spec _ _ Hwfg) as (row & Hpr & Hrow & Hmin).
  rewrite Hpr in Hap2. cbn in Hap2.
  assert (∀ x, x ∈ rows ↔ is_Some (G_ports gen !! PA_Ordinal x) ∧ G_ports gen !! PA_Ordinal x = Some x) as Hel.
  { pose proof (AllocatePreparing_NoDup _ _ _ _ _ Hprep) as Hnd.
    intros x. unfold gen. cbn [G_ports newGeneration]. split.
    - intros Hx. assert ((list_to_map ((λ row, (PA_Ordinal row, row)) <$> rows) : gmap Z _) !! PA_Ordinal x = Some x) as ->; [|by eauto].
      apply elem_of_list_to_map; [by rewrite <- list_fmap_compose|]. apply list_elem_of_fmap. by exists x.
    - intros [_ Hx%elem_of_list_to_map_2]. apply list_elem_of_fmap in Hx as (y & [= _ ->] & Hy). done. }
  split_and!.
  - unfold PromotePreparing. unfold ownerFor in Hno. destruct (L_owners l !! key) as [o|]; [|done].
    change (generationByState PortAllocationStatePreparing o = None) in Hno. by rewrite Hno.
  - intros k. rewrite !LookupActive_activePort. destruct (decide (k = key)) as [->|Hk]; [done|]. by rewrite (ls_others _ _ _ _ Hs).
  - exists rows2, l2, row. split_and!; [done|by apply Hel| |].
    + intros row' [Hx _]%Hel. by apply Hmin.
    + intros k. rewrite !LookupActive_activePort. case_bool_decide as Hk; [by subst k|].
      by rewrite (ls_others _ _ _ _ Hs2), (ls_others _ _ _ _ Hs).
Qed.
End contracts.

(** ** An example: a table with the listener of a path and one no path has any more *)

Definition demoRow (id : Z) (scope : string) (port : Z) : ProxyPathPortAllocation :=
  {| PA_ID := id; PA_Kind := "link"; PA_ScopeKey := scope; PA_ServerID := 7; PA_Pool := PortPoolInternal; PA_ListenIP := "0.0.0.0";
     PA_Network := "tcp"; PA_Generation := 1; PA_Ordinal := 0; PA_Port := port; PA_State := PortAllocationStateActive; PA_PolicyRevision := 1 |}.

Definition demoTable : allocationTable := {| T_rows := [demoRow 1 "a" 40000; demoRow 2 "b" 40001]; T_next := 3 |}.

Definition demoKey (scope : string) : proxyPathPortKey := {| PK_Kind := "link"; PK_ScopeKey := scope; PK_ServerID := 7 |}.

Definition demoRequirement (scope ip : string) (port : Z) : PortRequirement :=
  {| PR_Kind := "link"; PR_ScopeKey := scope; PR_ServerID := 7; PR_Pool := PortPoolInternal; PR_ListenIP := ip; PR_Network := "tcp";
     PR_PolicyRevision := 2; PR_Allocate := Some (λ _, port); PR_AllocateOrdinal := Some (λ i, port + i) |}.

Definition demoRange : MapRange Z ProxyPathPortAllocation := map_range_reverse Z ProxyPathPortAllocation.

Lemma demoTable_wf : wfTable demoTable.
Proof.
  split; split.
  - apply (bool_decide_unpack _); vm_compute; done.
  - intros row Hin. simpl in Hin. set_unfold in Hin. destruct Hin as [-> | [-> | []]]; simpl; lia.
  - apply (bool_decide_unpack _); vm_compute; done.
  - intros row Hin. simpl in Hin. set_unfold in Hin. by destruct Hin as [-> | [-> | []]].
  - intros a b Ha Hb. simpl in Ha, Hb. set_unfold in Ha. set_unfold in Hb.
    by destruct Ha as [-> | [-> | []]], Hb as [-> | [-> | []]].
  - intros a b Ha Hb. simpl in Ha, Hb. set_unfold in Ha. set_unfold in Hb.
    by destruct Ha as [-> | [-> | []]], Hb as [-> | [-> | []]].
Qed.

(** A projection with the listener of [a] on another address and a new listener [c]. *)
Definition demoOps : list ledgerOp :=
  [OpResolve (demoRequirement "a" "10.0.0.1" 50000); OpResolve (demoRequirement "c" "10.0.0.1" 50001); OpComplete].

Definition demoLedger : ProxyPathPortLedger :=
  default emptyLedger (runOps (M := demoRange) (Some (NewProxyPathPortLedger (ListProxyPathPortAllocations demoTable))) demoOps).

Definition demoSaved : allocationTable :=
  match SaveProxyPathPortAllocations (Pending (Some demoLedger)) (StaleProxyPathPortAllocationIDs (ListProxyPathPortAllocations demoTable) (Some demoLedger)) demoTable with
  | Ok t => t
  | Err _ => demoTable
  end.

Lemma saved_ports_reload_witness :
  LookupActive (Some (NewProxyPathPortLedger (ListProxyPathPortAllocations demoSaved))) (demoKey "a") = Some 40000 ∧
  LookupActive (Some (NewProxyPathPortLedger (ListProxyPathPortAllocations demoSaved))) (demoKey "c") = Some 50001 ∧
  ∀ row, row ∈ T_rows demoSaved → keyOf row ≠ demoKey "b".
Proof.
  destruct (saved_ports_reload (M := demoRange) demoTable demoOps demoLedger demoSaved) as [_ H].
  - exact demoTable_wf.
  - repeat constructor.
  - vm_compute. reflexivity.
  - vm_compute. reflexivity.
  - split; [|split].
    + rewrite (proj1 (H (demoKey "a"))); [vm_compute; reflexivity|]. left. apply (bool_decide_unpack _). vm_compute. done.
    + rewrite (proj1 (H (demoKey "c"))); [vm_compute; reflexivity|]. left. apply (bool_decide_unpack _). vm_compute. done.
    + apply (H (demoKey "b")). intros [Hu|[Hp|[Hc|Hk]]]; [| |done|done].
      * apply (bool_decide_pack _) in Hu. by vm_compute in Hu.
      * apply (bool_decide_pack _) in Hp. by vm_compute in Hp.
Defined.

Lemma active_port_stable_witness :
  ∃ l, runOps (M := demoRange) (Some (NewProxyPathPortLedger (ListProxyPathPortAllocations demoTable)))
         [OpResolve (demoRequirement "c" "10.0.0.1" 50001); OpPromote (demoKey "c"); OpRetire (demoKey "b")] = Some l ∧
       (resolve (Some l) (demoRequirement "a" "10.0.0.9" 60000)).1 = 40000.
Proof.
  destruct (active_port_stable (M := demoRange) demoTable
    [OpResolve (demoRequirement "c" "10.0.0.1" 50001); OpPromote (demoKey "c"); OpRetire (demoKey "b")] (demoKey "a") 40000) as (l & Hrun & _ & H).
  - exact demoTable_wf.
  - vm_compute. reflexivity.
  - repeat constructor.
  - exists l. split; [exact Hrun|]. apply H. reflexivity.
Defined.

Definition demoPrepared := AllocatePreparing (Some (NewProxyPathPortLedger (ListProxyPathPortAllocations demoTable))) (demoRequirement "a" "0.0.0.0" 51000) 2.

Lemma migration_cutover_witness :
  ∃ rows l1 rows2 l2, AllocatePreparing (Some (NewProxyPathPortLedger (ListProxyPathPortAllocations demoTable))) (demoRequirement "a" "0.0.0.0" 51000) 2 = (Ok rows, l1) ∧
    length rows = 2%nat ∧ PromotePreparing (M := demoRange) l1 (demoKey "a") = (Ok rows2, Some l2) ∧
    LookupActive (Some l2) (demoKey "b") = Some 40001 ∧ LookupActive (Some l2) (demoKey "a") ≠ Some 40000.
Proof.
  destruct demoPrepared as [[rows|e] l1] eqn:Hp; [|by vm_compute in Hp].
  destruct (migration_cutover (M := demoRange) demoTable [] (NewProxyPathPortLedger (ListProxyPathPortAllocations demoTable)) (demoRequirement "a" "0.0.0.0" 51000) 2 rows l1)
    as (_ & _ & rows2 & l2 & row & Hpro & Hin & _ & Hall).
  - exact demoTable_wf.
  - reflexivity.
  - vm_compute. reflexivity.
  - exact Hp.
  - assert (∀ row, row ∈ rows → PA_Port row = 51000 ∨ PA_Port row = 51001) as Hports.
    { vm_compute in Hp. injection Hp as <- _. intros x Hx. set_unfold in Hx. destruct Hx as [-> | [-> | []]]; vm_compute; auto. }
    exists rows, l1, rows2, l2. split; [exact Hp|]. split; [vm_compute in Hp; injection Hp as <- _; reflexivity|]. split; [exact Hpro|].
    split; rewrite Hall.
    + vm_compute. reflexivity.
    + rewrite bool_decide_eq_true_2 by reflexivity. intros [= Heq]. destruct (Hports row Hin); lia.
Defined.
