(* ===== verification/PlanVersions.v ===== *)
(** * Versions of subscription plans ([internal/store/plans.go])

    What a plan authorizes, its nodes and limits, is the content of its current revision.
    A save derives a new revision from the latest one: it becomes current at once when it
    only changes the presentation, and waits as the pending revision for an access change
    when it changes the authorization.  Deleting a node removes it from every live revision.

    The state are the rows of [subscription_plans], of [subscription_plan_revisions] with their
    nodes, rules and exclusions, and of [access_changes].  A method is one transaction, and a
    function of the state that returns an error with the state unchanged.  A null column is 0
    or [None]; the legacy column [active_revision_id] is written and cleared together with
    [current_revision_id] and left out.  Times are given. *)

From S2P Require Import Prelude Model NodeKeys AccessSnapshot SubscriptionOrder Prog AccessChanges.

Local Open Scope Z_scope.
Local Open Scope go_scope.

(** ** Data *)

Record PlanNode := {
  PN_NodeType : string;
  PN_NodeID : Z;
  PN_DisplayGroup : string;
  PN_SourceType : string;
  PN_SourceRuleID : Z;
  PN_SortPosition : option Z;
  PN_DisplayNameOverride : option string }.

Record PlanLimits := {
  LM_SpeedLimitMbps : Z;
  LM_TrafficLimitBytes : Z;
  LM_TrafficResetMode : string;
  LM_TrafficResetDay : Z }.

(** Where the order of the nodes comes from. *)
Record OrderProvenance := {
  OP_TemplateID : option Z;
  OP_TemplateRevision : Z;
  OP_SourcePlanID : option Z;
  OP_SourceRevisionID : option Z;
  OP_SourceMode : string }.

(** The stored revision, with the rows of its nodes, rules and exclusions. *)
Record SubscriptionPlanRevision := {
  RV_ID : Z;
  RV_PlanID : Z;
  RV_VersionNo : Z;
  RV_BasedOnRevisionID : Z;
  RV_ChangeKind : string;
  RV_ChangeSummary : string;
  RV_Status : string;
  RV_Limits : PlanLimits;
  RV_NodeOrderPolicyJSON : string;
  RV_Provenance : OrderProvenance;
  RV_ActivatedAt : option Z;
  RV_ActivationChangeID : option Z;
  RV_Nodes : list PlanNode;
  RV_Rules : list PlanMembershipRule;
  RV_Exclusions : list PlanNodeExclusion }.

Record PlanRow := {
  SP_ID : Z;
  SP_Name : string;
  SP_Description : string;
  SP_Enabled : bool;
  SP_LockVersion : Z;
  SP_Revision : Z;
  SP_CurrentRevisionID : Z;
  SP_LatestRevisionID : Z;
  SP_PendingRevisionID : Z;
  SP_DraftRevisionID : Z }.

Record PlanStore := {
  ps_plans : list PlanRow;
  ps_revisions : list SubscriptionPlanRevision;
  ps_changes : list AccessChange;
  ps_nextPlan : Z;
  ps_nextRevision : Z }.

(** The content of a version: what a save derives and compares. *)
Record VersionContent := {
  VC_Limits : PlanLimits;
  VC_NodeOrderPolicy : OrderPolicy;
  VC_Provenance : OrderProvenance;
  VC_Nodes : list PlanNode;
  VC_Rules : list PlanMembershipRule;
  VC_Exclusions : list PlanNodeExclusion }.

Global Instance PlanLimits_eq_dec : EqDecision PlanLimits.
Proof. solve_decision. Defined.

Definition PlanRevisionArchived : string := "archived".
Definition PlanRevisionActive : string := "active".
Definition PlanChangeKindMixed : string := "mixed".
Definition PlanChangeKindCreate : string := "create".
Definition PlanChangeKindNodes : string := "nodes".
Definition PlanChangeKindClone : string := "clone".
Definition PlanRevisionDraft : string := "draft".

Inductive PlanErr :=
| PErrNoRows
| PErrNoVersion (planID : Z)
| ErrPlanRevisionConflict
| PErrConstraint
| PErrNodesOp
| PErrDuplicateOrder
| PErrUnknownOrder (key : string)
| PErrLimits
| ErrPlanVersionApplying (names : list string)
| ErrAccessChangeNotCancellable
| PErrNotPending.

(** *** Mutations *)

Record PlanMetaMutation := { MM_Name : option string; MM_Description : option string; MM_Enabled : option bool }.

Record PlanSettingsMutation := {
  SM_SpeedLimitMbps : option Z;
  SM_TrafficLimitBytes : option Z;
  SM_TrafficResetMode : option string;
  SM_TrafficResetDay : option Z }.

Record PlanNodesMutation := { NM_Op : string; NM_Nodes : list PlanNode; NM_ReplaceSnapshot : bool }.

Record PlanOrderingMutation := {
  OM_Policy : OrderPolicy;
  OM_ManualOrder : list string;
  OM_ClearManualPositions : bool;
  OM_SetTemplateProvenance : bool;
  OM_OrderTemplateID : option Z;
  OM_OrderTemplateRevision : Z;
  OM_SetSourceProvenance : bool;
  OM_OrderSourcePlanID : option Z;
  OM_OrderSourceRevisionID : option Z;
  OM_OrderSourceMode : string }.

Record PlanMembershipPolicyMutation := {
  PM_Rules : list PlanMembershipRule;
  PM_Exclusions : list PlanNodeExclusion;
  PM_Nodes : list PlanNode }.

Record PlanVersionMutation := {
  VM_BaseRevisionID : Z;
  VM_ExpectedLockVersion : Z;
  VM_Meta : option PlanMetaMutation;
  VM_Settings : option PlanSettingsMutation;
  VM_Nodes : option PlanNodesMutation;
  VM_Ordering : option PlanOrderingMutation;
  VM_MembershipPolicy : option PlanMembershipPolicyMutation;
  VM_NodePresentation : option (gmap string (option string));
  VM_ChangeKind : string;
  VM_ChangeSummary : string }.

Inductive changeClass := presentation_only | authorization.

Record CreatePlanVersionResult := {
  CR_Revision : option SubscriptionPlanRevision;
  CR_ChangeClass : option changeClass;
  CR_NoChange : bool;
  CR_EffectiveNow : bool;
  CR_RequiresDeployment : bool;
  CR_LockVersion : Z;
  CR_CurrentRevisionID : Z;
  CR_LatestRevisionID : Z;
  CR_PendingRevisionID : Z }.

(** The JSON encodings of ordering policies and of the digested content. *)
Class PlanCodec := {
  marshalPolicy : OrderPolicy → option string;
  unmarshalPolicy : string → option OrderPolicy;
  DefaultSubscriptionNodeOrderPolicyJSON : string;
  digestJSON : PlanLimits * OrderPolicy * OrderProvenance * list (Z * string * string) * list string *
               list (string * string * option Z * option string * string * Z) → string }.

(** ** Nodes *)

Definition planRevisionNodeKey : string → Z → string := NodeKeyOf.
Definition nodeKey (n : PlanNode) : string := planRevisionNodeKey (PN_NodeType n) (PN_NodeID n).

Definition withSortPosition (p : option Z) (n : PlanNode) : PlanNode :=
  {| PN_NodeType := PN_NodeType n; PN_NodeID := PN_NodeID n; PN_DisplayGroup := PN_DisplayGroup n; PN_SourceType := PN_SourceType n;
     PN_SourceRuleID := PN_SourceRuleID n; PN_SortPosition := p; PN_DisplayNameOverride := PN_DisplayNameOverride n |}.

Definition withDisplayName (name : option string) (n : PlanNode) : PlanNode :=
  {| PN_NodeType := PN_NodeType n; PN_NodeID := PN_NodeID n; PN_DisplayGroup := PN_DisplayGroup n; PN_SourceType := PN_SourceType n;
     PN_SourceRuleID := PN_SourceRuleID n; PN_SortPosition := PN_SortPosition n; PN_DisplayNameOverride := name |}.

(** [order by node_type, node_id], and the comparison of [applyNodesMutation]. *)
Definition nodeOrder : PlanNode → PlanNode → comparison := lexc (onc PN_NodeType String.compare) (onc PN_NodeID Z.compare).
Definition nodeLess : PlanNode → PlanNode → bool := ltc nodeOrder.

(** The upsert of the operation [add]. *)
Definition upsertNode (pn existing : PlanNode) : PlanNode :=
  {| PN_NodeType := PN_NodeType existing; PN_NodeID := PN_NodeID existing; PN_DisplayGroup := PN_DisplayGroup pn;
     PN_SourceType := if (PN_SourceType pn =? "")%string then PN_SourceType existing else PN_SourceType pn;
     PN_SourceRuleID := if PN_SourceRuleID pn =? 0 then PN_SourceRuleID existing else PN_SourceRuleID pn;
     PN_SortPosition := PN_SortPosition existing;
     PN_DisplayNameOverride := match PN_DisplayNameOverride pn with Some v => Some v | None => PN_DisplayNameOverride existing end |}.

Definition addNode (byKey : gmap string PlanNode) (pn : PlanNode) : gmap string PlanNode :=
  match byKey !! nodeKey pn with
  | Some existing => <[nodeKey pn := upsertNode pn existing]> byKey
  | None => <[nodeKey pn := pn]> byKey
  end.

(** A row of the operation [replace]: surviving rows keep their presentation. *)
Definition survivingNode (pn existing : PlanNode) : PlanNode :=
  {| PN_NodeType := PN_NodeType pn; PN_NodeID := PN_NodeID pn;
     PN_DisplayGroup := if (PN_DisplayGroup pn =? "")%string then PN_DisplayGroup existing else PN_DisplayGroup pn;
     PN_SourceType := if (PN_SourceType pn =? "")%string then PN_SourceType existing else PN_SourceType pn;
     PN_SourceRuleID := PN_SourceRuleID pn; PN_SortPosition := PN_SortPosition existing;
     PN_DisplayNameOverride := PN_DisplayNameOverride existing |}.

Definition replaceNode (byKey : gmap string PlanNode) (snapshot : bool) (replacement : gmap string PlanNode) (pn : PlanNode) :
    gmap string PlanNode :=
  match byKey !! nodeKey pn with
  | Some existing => <[nodeKey pn := if snapshot then pn else survivingNode pn existing]> replacement
  | None => <[nodeKey pn := pn]> replacement
  end.

Section nodes.
Context {M : MapRange string PlanNode}.

Definition applyNodesMutation (nodes : list PlanNode) (m : PlanNodesMutation) : result PlanErr (list PlanNode) :=
  let byKey := indexBy nodeKey nodes in
  let* byKey :=
    if (NM_Op m =? "add")%string then Ok (foldl addNode byKey (NM_Nodes m))
    else if (NM_Op m =? "remove")%string then Ok (foldl (λ byKey pn, delete (nodeKey pn) byKey) byKey (NM_Nodes m))
    else if (NM_Op m =? "replace")%string then Ok (foldl (replaceNode byKey (NM_ReplaceSnapshot m)) ∅ (NM_Nodes m))
    else Err PErrNodesOp in
  Ok (sort_slice nodeLess (map_range byKey).*2).
End nodes.

Definition normalizeManualOrderKeys (l : list string) : list string :=
  List.filter (λ key, negb (key =? "")%string) (TrimSpace <$> l).

(** The loop of [manualPositionsByKey] from a position on. *)
Fixpoint manualPositions (known : list string) (position : Z) (order : list string) (seen : gmap string Z) :
    result PlanErr (gmap string Z) :=
  match order with
  | [] => Ok seen
  | key :: order =>
      if bool_decide (is_Some (seen !! key)) then Err PErrDuplicateOrder
      else if negb (bool_decide (key ∈ known)) then Err (PErrUnknownOrder key)
      else manualPositions known (position + 1) order (<[key := position]> seen)
  end.

Definition manualPositionsByKey (nodes : list PlanNode) (manualOrder : list string) : result PlanErr (gmap string Z) :=
  manualPositions (nodeKey <$> nodes) 0 manualOrder ∅.

Definition applySettingsMutation (v : PlanLimits) (m : PlanSettingsMutation) : PlanLimits :=
  {| LM_SpeedLimitMbps := default (LM_SpeedLimitMbps v) (SM_SpeedLimitMbps m);
     LM_TrafficLimitBytes := default (LM_TrafficLimitBytes v) (SM_TrafficLimitBytes m);
     LM_TrafficResetMode := default (LM_TrafficResetMode v) (SM_TrafficResetMode m);
     LM_TrafficResetDay := default (LM_TrafficResetDay v) (SM_TrafficResetDay m) |}.

Definition samePlanLimits (a b : PlanLimits) : bool :=
  (LM_SpeedLimitMbps a =? LM_SpeedLimitMbps b) && (LM_TrafficLimitBytes a =? LM_TrafficLimitBytes b) &&
  (LM_TrafficResetMode a =? LM_TrafficResetMode b)%string && (LM_TrafficResetDay a =? LM_TrafficResetDay b).

(** The sizes of the key sets are compared, then every key is looked up. *)
Definition sameNodeMembership (a b : list PlanNode) : bool :=
  let ka : gset string := list_to_set (nodeKey <$> a) in
  let kb : gset string := list_to_set (nodeKey <$> b) in
  Nat.eqb (size ka) (size kb) && forallb (λ key, bool_decide (key ∈ kb)) (elements ka).

(** ** Versions *)

Section versions.
Context {Cod : PlanCodec} {M : MapRange string PlanNode}.

Definition marshalOrderPolicy (p : OrderPolicy) : string := default DefaultSubscriptionNodeOrderPolicyJSON (marshalPolicy p).

Definition completedPolicy (p : OrderPolicy) : OrderPolicy :=
  {| Version := Version p; Mode := Mode p;
     ManualSeed := if (TrimSpace (ManualSeed p) =? "")%string then OrderExitRegion else ManualSeed p;
     ExitRegionOrder := ExitRegionOrder p;
     EntryRegionOrderMode := if (EntryRegionOrderMode p =? "")%string then EntryRegionInheritExit else EntryRegionOrderMode p;
     EntryRegionOrder := EntryRegionOrder p; EntryOrder := EntryOrder p;
     NewNodePlacement := if (NewNodePlacement p =? "")%string then PlacementPending else NewNodePlacement p;
     UnmatchedPlacement := if (UnmatchedPlacement p =? "")%string then PlacementPending else UnmatchedPlacement p;
     GroupByLanding := GroupByLanding p |}.

Definition parseOrderPolicy (raw : string) : OrderPolicy :=
  if (TrimSpace raw =? "")%string then DefaultSubscriptionNodeOrderPolicy
  else match unmarshalPolicy raw with
       | None => DefaultSubscriptionNodeOrderPolicy
       | Some p => if (Version p =? 0) || (TrimSpace (Mode p) =? "")%string then DefaultSubscriptionNodeOrderPolicy else completedPolicy p
       end.

Definition ruleOrder (a b : PlanMembershipRule) : bool := ltc (onc PlanMembershipRule_RuleID Z.compare) a b.
Definition exclusionOrder (a b : PlanNodeExclusion) : bool :=
  ltc (lexc (onc PlanNodeExclusion_NodeType String.compare) (onc PlanNodeExclusion_NodeID Z.compare)) a b.

Definition findPlan (id : Z) (st : PlanStore) : option PlanRow := List.find (λ p, SP_ID p =? id) (ps_plans st).
Definition findRevision (id : Z) (st : PlanStore) : option SubscriptionPlanRevision := List.find (λ v, RV_ID v =? id) (ps_revisions st).

(** [loadPlanRevisionSnapshotTx], [listPlanRevisionRules] and [listPlanRevisionExclusions]. *)
Definition contentOf (v : SubscriptionPlanRevision) : VersionContent :=
  {| VC_Limits := RV_Limits v; VC_NodeOrderPolicy := parseOrderPolicy (RV_NodeOrderPolicyJSON v); VC_Provenance := RV_Provenance v;
     VC_Nodes := sort_slice nodeLess (RV_Nodes v); VC_Rules := sort_slice ruleOrder (RV_Rules v);
     VC_Exclusions := sort_slice exclusionOrder (RV_Exclusions v) |}.

Definition loadPlanRevisionSnapshotTx (planID revisionID : Z) (st : PlanStore) : result PlanErr VersionContent :=
  match findRevision revisionID st with
  | Some v => if RV_PlanID v =? planID then Ok (contentOf v) else Err PErrNoRows
  | None => Err PErrNoRows
  end.

Definition digestNode (n : PlanNode) : string * string * option Z * option string * string * Z :=
  (nodeKey n, PN_DisplayGroup n, PN_SortPosition n, PN_DisplayNameOverride n, PN_SourceType n, PN_SourceRuleID n).

Definition planVersionDigest (c : VersionContent) : string :=
  digestJSON (VC_Limits c, VC_NodeOrderPolicy c, VC_Provenance c,
    (λ r, (PlanMembershipRule_RuleID r, PlanMembershipRule_Kind r, PlanMembershipRule_ScopeKey r)) <$> sort_slice ruleOrder (VC_Rules c),
    sort_strings ((λ x, planRevisionNodeKey (PlanNodeExclusion_NodeType x) (PlanNodeExclusion_NodeID x)) <$> VC_Exclusions c),
    digestNode <$> sort_slice (ltc (onc nodeKey String.compare)) (VC_Nodes c)).

(** *** The candidate of a save *)

Definition withNodes (nodes : list PlanNode) (c : VersionContent) : VersionContent :=
  {| VC_Limits := VC_Limits c; VC_NodeOrderPolicy := VC_NodeOrderPolicy c; VC_Provenance := VC_Provenance c; VC_Nodes := nodes;
     VC_Rules := VC_Rules c; VC_Exclusions := VC_Exclusions c |}.

Definition applySettings (m : option PlanSettingsMutation) (c : VersionContent) : VersionContent :=
  match m with
  | None => c
  | Some m => {| VC_Limits := applySettingsMutation (VC_Limits c) m; VC_NodeOrderPolicy := VC_NodeOrderPolicy c;
                 VC_Provenance := VC_Provenance c; VC_Nodes := VC_Nodes c; VC_Rules := VC_Rules c; VC_Exclusions := VC_Exclusions c |}
  end.

Definition applyMembershipPolicy (m : option PlanMembershipPolicyMutation) (c : VersionContent) : VersionContent :=
  match m with
  | None => c
  | Some m => {| VC_Limits := VC_Limits c; VC_NodeOrderPolicy := VC_NodeOrderPolicy c; VC_Provenance := VC_Provenance c;
                 VC_Nodes := PM_Nodes m; VC_Rules := PM_Rules m; VC_Exclusions := PM_Exclusions m |}
  end.

Definition orderedProvenance (m : PlanOrderingMutation) (p : OrderProvenance) : OrderProvenance :=
  {| OP_TemplateID := if OM_SetTemplateProvenance m then OM_OrderTemplateID m else OP_TemplateID p;
     OP_TemplateRevision := if OM_SetTemplateProvenance m then OM_OrderTemplateRevision m else OP_TemplateRevision p;
     OP_SourcePlanID := if OM_SetSourceProvenance m then OM_OrderSourcePlanID m else OP_SourcePlanID p;
     OP_SourceRevisionID := if OM_SetSourceProvenance m then OM_OrderSourceRevisionID m else OP_SourceRevisionID p;
     OP_SourceMode := if OM_SetSourceProvenance m then OM_OrderSourceMode m else OP_SourceMode p |}.

Definition applyOrdering (m : option PlanOrderingMutation) (c : VersionContent) : result PlanErr VersionContent :=
  match m with
  | None => Ok c
  | Some m =>
      let policy := parseOrderPolicy (marshalOrderPolicy (OM_Policy m)) in
      let nodes := if OM_ClearManualPositions m then withSortPosition None <$> VC_Nodes c else VC_Nodes c in
      let* nodes :=
        if (Mode policy =? OrderManual)%string then
          let* positions := manualPositionsByKey nodes (normalizeManualOrderKeys (OM_ManualOrder m)) in
          Ok ((λ n, withSortPosition (positions !! nodeKey n) n) <$> nodes)
        else Ok nodes in
      Ok {| VC_Limits := VC_Limits c; VC_NodeOrderPolicy := policy; VC_Provenance := orderedProvenance m (VC_Provenance c);
            VC_Nodes := nodes; VC_Rules := VC_Rules c; VC_Exclusions := VC_Exclusions c |}
  end.

Definition applyPresentation (m : option (gmap string (option string))) (c : VersionContent) : VersionContent :=
  match m with
  | None => c
  | Some names => withNodes ((λ n, match names !! nodeKey n with Some v => withDisplayName v n | None => n end) <$> VC_Nodes c) c
  end.

Definition candidateContent (base : VersionContent) (m : PlanVersionMutation) : result PlanErr VersionContent :=
  let c := applySettings (VM_Settings m) base in
  let* c := match VM_Nodes m with
            | None => Ok c
            | Some n => let* nodes := applyNodesMutation (VC_Nodes c) n in Ok (withNodes nodes c)
            end in
  let c := applyMembershipPolicy (VM_MembershipPolicy m) c in
  let* c := applyOrdering (VM_Ordering m) c in
  let c := applyPresentation (VM_NodePresentation m) c in
  let* _ := fail_if ((LM_SpeedLimitMbps (VC_Limits c) <? 0) || (LM_TrafficLimitBytes (VC_Limits c) <? 0)) PErrLimits in
  Ok c.

(** *** Inserting a revision *)

Definition normalizedLimits (v : PlanLimits) : PlanLimits :=
  {| LM_SpeedLimitMbps := LM_SpeedLimitMbps v; LM_TrafficLimitBytes := LM_TrafficLimitBytes v;
     LM_TrafficResetMode := if (TrimSpace (LM_TrafficResetMode v) =? "")%string then "monthly" else LM_TrafficResetMode v;
     LM_TrafficResetDay := if LM_TrafficResetDay v <=? 0 then 1 else LM_TrafficResetDay v |}.

Definition maxOf (f : SubscriptionPlanRevision → Z) (planID : Z) (st : PlanStore) : Z :=
  foldl (λ best v, if RV_PlanID v =? planID then Z.max best (f v) else best) 0 (ps_revisions st).

(** The unique keys of the rows of a revision. *)
Definition insertable (nodes : list PlanNode) (rules : list PlanMembershipRule) (exclusions : list PlanNodeExclusion) : bool :=
  bool_decide (NoDup ((λ n, (PN_NodeType n, PN_NodeID n)) <$> nodes)) &&
  bool_decide (NoDup (PlanMembershipRule_RuleID <$> rules)) &&
  bool_decide (NoDup ((λ x, (PlanNodeExclusion_NodeType x, PlanNodeExclusion_NodeID x)) <$> exclusions)).

(** [insertPlanRevisionTx] with the statements that complete the new revision. *)
Definition insertRevision (planID : Z) (status : string) (limits : PlanLimits) (policyJSON : string) (provenance : OrderProvenance)
    (changeKind changeSummary : string) (basedOn : Z) (activatedAt : option Z)
    (nodes : list PlanNode) (rules : list PlanMembershipRule) (exclusions : list PlanNodeExclusion) (st : PlanStore) :
    result PlanErr (SubscriptionPlanRevision * PlanStore) :=
  if negb (insertable nodes rules exclusions) then Err PErrConstraint
  else
    let v := {| RV_ID := ps_nextRevision st; RV_PlanID := planID; RV_VersionNo := maxOf RV_VersionNo planID st + 1;
                RV_BasedOnRevisionID := if basedOn =? 0 then maxOf RV_ID planID st else basedOn;
                RV_ChangeKind := changeKind; RV_ChangeSummary := changeSummary; RV_Status := status;
                RV_Limits := normalizedLimits limits;
                RV_NodeOrderPolicyJSON := if (policyJSON =? "")%string then DefaultSubscriptionNodeOrderPolicyJSON else policyJSON;
                RV_Provenance := provenance; RV_ActivatedAt := activatedAt; RV_ActivationChangeID := None;
                RV_Nodes := nodes; RV_Rules := rules; RV_Exclusions := exclusions |} in
    Ok (v, {| ps_plans := ps_plans st; ps_revisions := ps_revisions st ++ [v]; ps_changes := ps_changes st;
              ps_nextPlan := ps_nextPlan st; ps_nextRevision := ps_nextRevision st + 1 |}).

Definition setPlanRows (l : list PlanRow) (st : PlanStore) : PlanStore :=
  {| ps_plans := l; ps_revisions := ps_revisions st; ps_changes := ps_changes st; ps_nextPlan := ps_nextPlan st;
     ps_nextRevision := ps_nextRevision st |}.
Definition setRevisions (l : list SubscriptionPlanRevision) (st : PlanStore) : PlanStore :=
  {| ps_plans := ps_plans st; ps_revisions := l; ps_changes := ps_changes st; ps_nextPlan := ps_nextPlan st;
     ps_nextRevision := ps_nextRevision st |}.
Definition setPlanChanges (l : list AccessChange) (st : PlanStore) : PlanStore :=
  {| ps_plans := ps_plans st; ps_revisions := ps_revisions st; ps_changes := l; ps_nextPlan := ps_nextPlan st;
     ps_nextRevision := ps_nextRevision st |}.

(** [update subscription_plans ... where id=?] *)
Definition updatePlan (id : Z) (f : PlanRow → PlanRow) (st : PlanStore) : PlanStore :=
  setPlanRows ((λ p, if SP_ID p =? id then f p else p) <$> ps_plans st) st.

Definition withPointers (lock current latest pending : Z) (p : PlanRow) : PlanRow :=
  {| SP_ID := SP_ID p; SP_Name := SP_Name p; SP_Description := SP_Description p; SP_Enabled := SP_Enabled p; SP_LockVersion := lock;
     SP_Revision := SP_Revision p; SP_CurrentRevisionID := current; SP_LatestRevisionID := latest; SP_PendingRevisionID := pending;
     SP_DraftRevisionID := SP_DraftRevisionID p |}.

Definition noProvenance : OrderProvenance :=
  {| OP_TemplateID := None; OP_TemplateRevision := 0; OP_SourcePlanID := None; OP_SourceRevisionID := None; OP_SourceMode := "" |}.

Definition explicitSource (n : PlanNode) : PlanNode :=
  {| PN_NodeType := PN_NodeType n; PN_NodeID := PN_NodeID n; PN_DisplayGroup := PN_DisplayGroup n;
     PN_SourceType := if (PN_SourceType n =? "")%string then PlanNodeSourceExplicit else PN_SourceType n;
     PN_SourceRuleID := PN_SourceRuleID n; PN_SortPosition := PN_SortPosition n; PN_DisplayNameOverride := PN_DisplayNameOverride n |}.

(** The row of a new plan, whose first revision has been inserted. *)
Definition insertPlan (name description : string) (enabled : bool) (v : SubscriptionPlanRevision) (st : PlanStore) : PlanStore :=
  {| ps_plans := ps_plans st ++
       [{| SP_ID := ps_nextPlan st; SP_Name := name; SP_Description := description; SP_Enabled := enabled; SP_LockVersion := 1; SP_Revision := 1;
           SP_CurrentRevisionID := RV_ID v; SP_LatestRevisionID := RV_ID v; SP_PendingRevisionID := 0; SP_DraftRevisionID := 0 |}];
     ps_revisions := ps_revisions st; ps_changes := ps_changes st; ps_nextPlan := ps_nextPlan st + 1; ps_nextRevision := ps_nextRevision st |}.

Definition nameTaken (name : string) (st : PlanStore) : bool := existsb (λ p, (SP_Name p =? name)%string) (ps_plans st).

Definition CreateSubscriptionPlan (name description : string) (enabled : bool) (limits : PlanLimits) (nodes : list PlanNode) (ts : Z)
    (st : PlanStore) : result PlanErr Z * PlanStore :=
  if nameTaken name st then (Err PErrConstraint, st)
  else
    let planID := ps_nextPlan st in
    match insertRevision planID PlanRevisionActive limits (marshalOrderPolicy NewSubscriptionNodeOrderPolicy) noProvenance
            PlanChangeKindCreate "" 0 (Some ts) (explicitSource <$> nodes) [] [] st with
    | Err e => (Err e, st)
    | Ok (v, st') => (Ok planID, insertPlan name description enabled v st')
    end.

(** [CloneSubscriptionPlan]: a plan with the content of the current revision of another. *)
Definition CloneSubscriptionPlan (id : Z) (newName : string) (ts : Z) (st : PlanStore) : result PlanErr Z * PlanStore :=
  match findPlan id st with
  | None => (Err PErrNoRows, st)
  | Some p =>
      if SP_CurrentRevisionID p =? 0 then (Err (PErrNoVersion id), st)
      else match findRevision (SP_CurrentRevisionID p) st with
      | None => (Err PErrNoRows, st)
      | Some v =>
          if nameTaken newName st then (Err PErrConstraint, st)
          else match insertRevision (ps_nextPlan st) PlanRevisionActive (RV_Limits v) (RV_NodeOrderPolicyJSON v) (RV_Provenance v)
                  PlanChangeKindClone "基于方案副本" 0 (Some ts) (RV_Nodes v) (RV_Rules v) (RV_Exclusions v) st with
               | Err e => (Err e, st)
               | Ok (w, st') => (Ok (ps_nextPlan st), insertPlan newName "" true w st')
               end
      end
  end.

(** [SetSubscriptionPlanEnabled] *)
Definition withEnabled (enabled : bool) (p : PlanRow) : PlanRow :=
  {| SP_ID := SP_ID p; SP_Name := SP_Name p; SP_Description := SP_Description p; SP_Enabled := enabled; SP_LockVersion := SP_LockVersion p;
     SP_Revision := SP_Revision p; SP_CurrentRevisionID := SP_CurrentRevisionID p; SP_LatestRevisionID := SP_LatestRevisionID p;
     SP_PendingRevisionID := SP_PendingRevisionID p; SP_DraftRevisionID := SP_DraftRevisionID p |}.

Definition SetSubscriptionPlanEnabled (id : Z) (enabled : bool) (st : PlanStore) : PlanStore := updatePlan id (withEnabled enabled) st.

(** *** The draft *)

Definition withDraft (draft : Z) (p : PlanRow) : PlanRow :=
  {| SP_ID := SP_ID p; SP_Name := SP_Name p; SP_Description := SP_Description p; SP_Enabled := SP_Enabled p; SP_LockVersion := SP_LockVersion p;
     SP_Revision := SP_Revision p; SP_CurrentRevisionID := SP_CurrentRevisionID p; SP_LatestRevisionID := SP_LatestRevisionID p;
     SP_PendingRevisionID := SP_PendingRevisionID p; SP_DraftRevisionID := draft |}.

(** [revision=revision+1] *)
Definition nextRevision (p : PlanRow) : PlanRow :=
  {| SP_ID := SP_ID p; SP_Name := SP_Name p; SP_Description := SP_Description p; SP_Enabled := SP_Enabled p; SP_LockVersion := SP_LockVersion p;
     SP_Revision := SP_Revision p + 1; SP_CurrentRevisionID := SP_CurrentRevisionID p; SP_LatestRevisionID := SP_LatestRevisionID p;
     SP_PendingRevisionID := SP_PendingRevisionID p; SP_DraftRevisionID := SP_DraftRevisionID p |}.

Definition zeroLimits : PlanLimits :=
  {| LM_SpeedLimitMbps := 0; LM_TrafficLimitBytes := 0; LM_TrafficResetMode := ""; LM_TrafficResetDay := 0 |}.

(** The draft of a plan, created from the current revision when there is none. *)
Definition ensurePlanDraftTx (planID : Z) (st : PlanStore) : result PlanErr (Z * PlanStore) :=
  match findPlan planID st with
  | None => Err PErrNoRows
  | Some p =>
      if negb (SP_DraftRevisionID p =? 0) then Ok (SP_DraftRevisionID p, st)
      else
        let* (limits, policyJSON, provenance, nodes, rules, exclusions) :=
          if SP_CurrentRevisionID p =? 0 then Ok (zeroLimits, "", noProvenance, [], [], [])
          else match findRevision (SP_CurrentRevisionID p) st with
               | None => Err PErrNoRows
               | Some v => Ok (RV_Limits v, RV_NodeOrderPolicyJSON v, RV_Provenance v, RV_Nodes v, RV_Rules v, RV_Exclusions v)
               end in
        let* (v, st) := insertRevision planID PlanRevisionDraft limits policyJSON provenance "" "" 0 None nodes rules exclusions st in
        Ok (RV_ID v, updatePlan planID (withDraft (RV_ID v)) st)
  end.

Definition sameNode (a b : PlanNode) : bool := (PN_NodeType a =? PN_NodeType b)%string && (PN_NodeID a =? PN_NodeID b).

(** [update ... set display_group=?,source_type=?,source_rule_id=?] *)
Definition refreshedNode (pn existing : PlanNode) : PlanNode :=
  {| PN_NodeType := PN_NodeType existing; PN_NodeID := PN_NodeID existing; PN_DisplayGroup := PN_DisplayGroup pn;
     PN_SourceType := PN_SourceType pn; PN_SourceRuleID := PN_SourceRuleID pn; PN_SortPosition := PN_SortPosition existing;
     PN_DisplayNameOverride := PN_DisplayNameOverride existing |}.

(** The upsert of [add]; a new row has no position. *)
Definition upsertDraftNode (rows : list PlanNode) (pn : PlanNode) : list PlanNode :=
  if existsb (sameNode pn) rows then (λ r, if sameNode pn r then refreshedNode pn r else r) <$> rows
  else rows ++ [withSortPosition None pn].

(** One node of [replace]: [keep] are the rows the draft had. *)
Definition replaceDraftNode (keep : list PlanNode) (pn : PlanNode) (rows : list PlanNode) : result PlanErr (list PlanNode) :=
  if existsb (sameNode pn) keep then Ok ((λ r, if sameNode pn r then refreshedNode pn r else r) <$> rows)
  else if existsb (sameNode pn) rows then Err PErrConstraint
  else Ok (rows ++ [withSortPosition None pn]).

Definition draftNodes (op : string) (nodes rows : list PlanNode) : result PlanErr (list PlanNode) :=
  if (op =? "add")%string then Ok (foldl upsertDraftNode rows nodes)
  else if (op =? "remove")%string then Ok (List.filter (λ r, negb (existsb (λ pn, sameNode pn r) nodes)) rows)
  else if (op =? "replace")%string then
    let* l := foldM (replaceDraftNode rows) nodes rows in
    Ok (List.filter (λ r, existsb (λ pn, sameNode pn r) nodes || negb (existsb (λ k, sameNode k r) rows)) l)
  else Err PErrNodesOp.

Definition withRevisionNodes (id : Z) (nodes : list PlanNode) (v : SubscriptionPlanRevision) : SubscriptionPlanRevision :=
  if RV_ID v =? id then
    {| RV_ID := RV_ID v; RV_PlanID := RV_PlanID v; RV_VersionNo := RV_VersionNo v; RV_BasedOnRevisionID := RV_BasedOnRevisionID v;
       RV_ChangeKind := RV_ChangeKind v; RV_ChangeSummary := RV_ChangeSummary v; RV_Status := RV_Status v; RV_Limits := RV_Limits v;
       RV_NodeOrderPolicyJSON := RV_NodeOrderPolicyJSON v; RV_Provenance := RV_Provenance v; RV_ActivatedAt := RV_ActivatedAt v;
       RV_ActivationChangeID := RV_ActivationChangeID v; RV_Nodes := nodes; RV_Rules := RV_Rules v; RV_Exclusions := RV_Exclusions v |}
  else v.

Definition revisionNodes (id : Z) (st : PlanStore) : list PlanNode :=
  match findRevision id st with Some v => RV_Nodes v | None => [] end.

Definition syncDraft (planID expectedRevision : Z) (nodes : list PlanNode) (op : string) (st : PlanStore) : result PlanErr PlanStore :=
  let* _ := if expectedRevision <=? 0 then Ok ()
            else match findPlan planID st with
                 | None => Err PErrNoRows
                 | Some p => fail_if (negb (SP_Revision p =? expectedRevision)) ErrPlanRevisionConflict
                 end in
  let* (draftID, st) := ensurePlanDraftTx planID st in
  let* rows := draftNodes op nodes (revisionNodes draftID st) in
  Ok (updatePlan planID nextRevision (setRevisions (withRevisionNodes draftID rows <$> ps_revisions st) st)).

Definition SyncPlanDraftNodes (planID expectedRevision : Z) (nodes : list PlanNode) (op : string) (st : PlanStore) : result PlanErr unit * PlanStore :=
  match syncDraft planID expectedRevision nodes op st with
  | Ok st' => (Ok (), st')
  | Err e => (Err e, st)
  end.

(** *** Saving a version *)

Definition failedCandidate (planID candidate : Z) (c : AccessChange) : bool :=
  (AC_SourcePlanID c =? planID) && (AC_CandidateRevisionID c =? candidate) && bool_decide (AC_Status c = AccessChangeFailed) &&
  bool_decide (AC_ActivatedAt c = None) && isPlanChange (AC_ChangeType c).

(** [order by id desc limit 1] *)
Definition supersededChange (planID pendingID : Z) (st : PlanStore) : option AccessChange :=
  if pendingID =? 0 then None
  else head (sort_slice (λ a b, AC_ID b <? AC_ID a) (List.filter (failedCandidate planID pendingID) (ps_changes st))).

Definition cancelFailed (id ts : Z) (c : AccessChange) : AccessChange :=
  if (AC_ID c =? id) && bool_decide (AC_Status c = AccessChangeFailed) && bool_decide (AC_ActivatedAt c = None)
  then withStatus AccessChangeCancelled (AC_Error c) ts c else c.

Definition applying (planID : Z) (st : PlanStore) : bool :=
  existsb (λ c, (AC_SourcePlanID c =? planID) && bool_decide (AC_Status c ∈ openStatuses)) (ps_changes st).

(** The row with the identity the mutation asks for. *)
Definition renamed (m : option PlanMetaMutation) (p : PlanRow) : PlanRow :=
  match m with
  | None => p
  | Some m => {| SP_ID := SP_ID p; SP_Name := default (SP_Name p) (MM_Name m);
                 SP_Description := default (SP_Description p) (MM_Description m); SP_Enabled := default (SP_Enabled p) (MM_Enabled m);
                 SP_LockVersion := SP_LockVersion p; SP_Revision := SP_Revision p; SP_CurrentRevisionID := SP_CurrentRevisionID p;
                 SP_LatestRevisionID := SP_LatestRevisionID p; SP_PendingRevisionID := SP_PendingRevisionID p;
                 SP_DraftRevisionID := SP_DraftRevisionID p |}
  end.

Definition metaChanged (p named : PlanRow) : bool :=
  negb (SP_Name named =? SP_Name p)%string || negb (SP_Description named =? SP_Description p)%string ||
  negb (eqb (SP_Enabled named) (SP_Enabled p)).

(** The write of the row of a plan, whose name is unique. *)
Definition writePlan (p : PlanRow) (st : PlanStore) : result PlanErr PlanStore :=
  if existsb (λ q, (SP_Name q =? SP_Name p)%string && negb (SP_ID q =? SP_ID p)) (ps_plans st) then Err PErrConstraint
  else Ok (updatePlan (SP_ID p) (λ _, p) st).

(** The class of a candidate, by comparison with the current version. *)
Definition classify (planID currentID : Z) (candidate : VersionContent) (st : PlanStore) : result PlanErr changeClass :=
  if currentID =? 0 then Ok authorization
  else
    let* current := loadPlanRevisionSnapshotTx planID currentID st in
    Ok (if negb (samePlanLimits (VC_Limits current) (VC_Limits candidate)) || negb (sameNodeMembership (VC_Nodes current) (VC_Nodes candidate))
        then authorization else presentation_only).

(** A presentation-only version while a change is pending: with a running change it is
    queued behind it, otherwise the pending pointer is dropped. *)
Definition settleClass (planID pendingID : Z) (class : changeClass) (st : PlanStore) : changeClass * Z :=
  match class with
  | presentation_only => if pendingID =? 0 then (presentation_only, 0)
                         else if applying planID st then (authorization, pendingID) else (presentation_only, 0)
  | authorization => (authorization, pendingID)
  end.

(** The save without a new version: a retry of the failed change, or a change of identity. *)
Definition saveUnchanged (p named : PlanRow) (pendingID : Z) (superseded : option AccessChange) (st : PlanStore) :
    result PlanErr (CreatePlanVersionResult * PlanStore) :=
  let lock := SP_LockVersion p in
  let current := SP_CurrentRevisionID p in
  let latest := SP_LatestRevisionID p in
  match superseded with
  | Some _ =>
      let* st := writePlan (withPointers (lock + 1) current latest latest named) st in
      Ok ({| CR_Revision := findRevision latest st; CR_ChangeClass := Some authorization; CR_NoChange := false; CR_EffectiveNow := false;
             CR_RequiresDeployment := true; CR_LockVersion := lock + 1; CR_CurrentRevisionID := current; CR_LatestRevisionID := latest;
             CR_PendingRevisionID := latest |}, st)
  | None =>
      let unchanged lock := {| CR_Revision := None; CR_ChangeClass := None; CR_NoChange := true; CR_EffectiveNow := false;
        CR_RequiresDeployment := false; CR_LockVersion := lock; CR_CurrentRevisionID := current; CR_LatestRevisionID := latest;
        CR_PendingRevisionID := pendingID |} in
      if metaChanged p named then
        let* st := writePlan (withPointers (lock + 1) current latest (SP_PendingRevisionID p) named) st in
        Ok (unchanged (lock + 1), st)
      else Ok (unchanged lock, st)
  end.

(** The save of a new version. *)
Definition saveVersion (p named : PlanRow) (pendingID : Z) (candidate : VersionContent) (m : PlanVersionMutation) (ts : Z) (st : PlanStore) :
    result PlanErr (CreatePlanVersionResult * PlanStore) :=
  let current := SP_CurrentRevisionID p in
  let* class := classify (SP_ID p) current candidate st in
  let '(class, pendingID) := settleClass (SP_ID p) pendingID class st in
  let kind := if (VM_ChangeKind m =? "")%string then PlanChangeKindMixed else VM_ChangeKind m in
  let activatedAt := match class with presentation_only => Some ts | authorization => None end in
  let* (v, st) := insertRevision (SP_ID p) PlanRevisionArchived (VC_Limits candidate) (marshalOrderPolicy (VC_NodeOrderPolicy candidate))
    (VC_Provenance candidate) kind (VM_ChangeSummary m) (SP_LatestRevisionID p) activatedAt
    (VC_Nodes candidate) (VC_Rules candidate) (VC_Exclusions candidate) st in
  let lock := SP_LockVersion p + 1 in
  match class with
  | presentation_only =>
      let* st := writePlan (withPointers lock (RV_ID v) (RV_ID v) 0 named) st in
      Ok ({| CR_Revision := Some v; CR_ChangeClass := Some presentation_only; CR_NoChange := false; CR_EffectiveNow := true;
             CR_RequiresDeployment := false; CR_LockVersion := lock; CR_CurrentRevisionID := RV_ID v; CR_LatestRevisionID := RV_ID v;
             CR_PendingRevisionID := pendingID |}, st)
  | authorization =>
      let pending := if pendingID =? 0 then RV_ID v else pendingID in
      let* st := writePlan (withPointers lock current (RV_ID v) pending named) st in
      Ok ({| CR_Revision := Some v; CR_ChangeClass := Some authorization; CR_NoChange := false; CR_EffectiveNow := false;
             CR_RequiresDeployment := true; CR_LockVersion := lock; CR_CurrentRevisionID := current; CR_LatestRevisionID := RV_ID v;
             CR_PendingRevisionID := pending |}, st)
  end.

Definition createVersion (planID : Z) (m : PlanVersionMutation) (ts : Z) (st : PlanStore) :
    result PlanErr (CreatePlanVersionResult * PlanStore) :=
  let* p := match findPlan planID st with Some p => Ok p | None => Err PErrNoRows end in
  let latest := SP_LatestRevisionID p in
  let* _ := fail_if (latest =? 0) (PErrNoVersion planID) in
  let* _ := fail_if ((0 <? VM_ExpectedLockVersion m) && negb (VM_ExpectedLockVersion m =? SP_LockVersion p)) ErrPlanRevisionConflict in
  let* _ := fail_if ((0 <? VM_BaseRevisionID m) && negb (VM_BaseRevisionID m =? latest)) ErrPlanRevisionConflict in
  let superseded := supersededChange planID (SP_PendingRevisionID p) st in
  let '(pendingID, st) := match superseded with
                          | Some c => (0, setPlanChanges (cancelFailed (AC_ID c) ts <$> ps_changes st) st)
                          | None => (SP_PendingRevisionID p, st)
                          end in
  let named := renamed (VM_Meta m) p in
  let* base := loadPlanRevisionSnapshotTx planID latest st in
  let* candidate := candidateContent base m in
  if (planVersionDigest candidate =? planVersionDigest base)%string then saveUnchanged p named pendingID superseded st
  else saveVersion p named pendingID candidate m ts st.

(** The transaction is rolled back on an error. *)
Definition CreatePlanVersion (planID : Z) (m : PlanVersionMutation) (ts : Z) (st : PlanStore) : result PlanErr CreatePlanVersionResult * PlanStore :=
  match createVersion planID m ts st with
  | Ok (r, st') => (Ok r, st')
  | Err e => (Err e, st)
  end.

(** *** Activation and the pending pointer *)

Definition activatedRevision (candidate changeID ts : Z) (v : SubscriptionPlanRevision) : SubscriptionPlanRevision :=
  if RV_ID v =? candidate then
    {| RV_ID := RV_ID v; RV_PlanID := RV_PlanID v; RV_VersionNo := RV_VersionNo v; RV_BasedOnRevisionID := RV_BasedOnRevisionID v;
       RV_ChangeKind := RV_ChangeKind v; RV_ChangeSummary := RV_ChangeSummary v; RV_Status := RV_Status v; RV_Limits := RV_Limits v;
       RV_NodeOrderPolicyJSON := RV_NodeOrderPolicyJSON v; RV_Provenance := RV_Provenance v; RV_ActivatedAt := Some ts;
       RV_ActivationChangeID := Some changeID; RV_Nodes := RV_Nodes v; RV_Rules := RV_Rules v; RV_Exclusions := RV_Exclusions v |}
  else v.

(** [SetPlanRevisionActivationChange]: the change that will activate a revision. *)
Definition withActivationChange (planID revisionID changeID : Z) (v : SubscriptionPlanRevision) : SubscriptionPlanRevision :=
  if (RV_ID v =? revisionID) && (RV_PlanID v =? planID) then
    {| RV_ID := RV_ID v; RV_PlanID := RV_PlanID v; RV_VersionNo := RV_VersionNo v; RV_BasedOnRevisionID := RV_BasedOnRevisionID v;
       RV_ChangeKind := RV_ChangeKind v; RV_ChangeSummary := RV_ChangeSummary v; RV_Status := RV_Status v; RV_Limits := RV_Limits v;
       RV_NodeOrderPolicyJSON := RV_NodeOrderPolicyJSON v; RV_Provenance := RV_Provenance v; RV_ActivatedAt := RV_ActivatedAt v;
       RV_ActivationChangeID := Some changeID; RV_Nodes := RV_Nodes v; RV_Rules := RV_Rules v; RV_Exclusions := RV_Exclusions v |}
  else v.

Definition SetPlanRevisionActivationChange (planID revisionID changeID : Z) (st : PlanStore) : result PlanErr unit * PlanStore :=
  if existsb (λ v, (RV_ID v =? revisionID) && (RV_PlanID v =? planID)) (ps_revisions st)
  then (Ok (), setRevisions (withActivationChange planID revisionID changeID <$> ps_revisions st) st)
  else (Err PErrNoRows, st).

(** [ActivatePlanVersionGuarded] on the rows of this file. *)
Definition activateVersion (planID expected candidate changeID ts : Z) (st : PlanStore) : result PlanErr unit * PlanStore :=
  match findPlan planID st with
  | None => (Err PErrNoRows, st)
  | Some p =>
      if negb (SP_CurrentRevisionID p =? expected) then (Err ErrPlanRevisionConflict, st)
      else if negb (bool_decide (RV_PlanID <$> findRevision candidate st = Some planID)) then (Err ErrPlanRevisionConflict, st)
      else if (0 <? changeID) && match List.find (λ c, AC_ID c =? changeID) (ps_changes st) with
                                 | Some c => negb (AC_CandidateRevisionID c =? candidate)
                                 | None => false
                                 end then (Err ErrPlanRevisionConflict, st)
      else (Ok (), setRevisions (activatedRevision candidate changeID ts <$> ps_revisions st)
             (updatePlan planID (λ p, withPointers (SP_LockVersion p) candidate (SP_LatestRevisionID p)
                (if SP_PendingRevisionID p =? candidate then 0 else SP_PendingRevisionID p) p) st))
  end.

(** [SetPendingIfEmpty]: the pointer references an existing revision. *)
Definition setPendingIfEmpty (planID revisionID : Z) (st : PlanStore) : result PlanErr unit * PlanStore :=
  if existsb (λ c, (AC_SourcePlanID c =? planID) && (AC_CandidateRevisionID c =? revisionID) && bool_decide (AC_Status c ∈ openStatuses)) (ps_changes st)
     && existsb (λ p, (SP_ID p =? planID) && (SP_PendingRevisionID p =? 0)) (ps_plans st)
  then
    if bool_decide (findRevision revisionID st = None) then (Err PErrConstraint, st)
    else (Ok (), updatePlan planID (λ p, if SP_PendingRevisionID p =? 0
           then withPointers (SP_LockVersion p) (SP_CurrentRevisionID p) (SP_LatestRevisionID p) revisionID p else p) st)
  else (Ok (), st).

Definition clearPending (planID expected : Z) (st : PlanStore) : PlanStore :=
  updatePlan planID (λ p, if SP_PendingRevisionID p =? expected
    then withPointers (SP_LockVersion p) (SP_CurrentRevisionID p) (SP_LatestRevisionID p) 0 p else p) st.

(** The plan of a cancelled publication. *)
Definition releaseCandidate (planID candidate : Z) (st : PlanStore) : PlanStore :=
  updatePlan planID (λ p, if (SP_PendingRevisionID p =? candidate) && negb (candidate =? 0)
    then withPointers (SP_LockVersion p + 1) (SP_CurrentRevisionID p) (SP_CurrentRevisionID p) 0 p else p) st.

(** [MarkAccessChangeCancelled] on the rows of this file: a publication that was not
    activated gives up its candidate. *)
Definition cancelChange (id ts : Z) (st : PlanStore) : result PlanErr unit * PlanStore :=
  match List.find (λ c, AC_ID c =? id) (ps_changes st) with
  | None => (Err PErrNoRows, st)
  | Some c =>
      let failedPlanChange := bool_decide (AC_Status c = AccessChangeFailed) && isPlanChange (AC_ChangeType c) in
      let canCancel := bool_decide (AC_Status c = AccessChangePreparing) || bool_decide (AC_Status c = AccessChangeActivating) || failedPlanChange in
      if negb canCancel || bool_decide (is_Some (AC_ActivatedAt c)) then (Err ErrAccessChangeNotCancellable, st)
      else
        let error := if bool_decide (AC_Status c = AccessChangeFailed) then AC_Error c else ""%string in
        let st1 := setPlanChanges ((λ r, if transitions id [AC_Status c] r then withStatus AccessChangeCancelled error ts r else r) <$> ps_changes st) st in
        if isPlanChange (AC_ChangeType c) then
          if Nat.eqb (length (List.filter (λ p, (SP_ID p =? AC_SourcePlanID c) && (SP_PendingRevisionID p =? AC_CandidateRevisionID c) &&
                                                negb (SP_PendingRevisionID p =? 0)) (ps_plans st))) 1
          then (Ok (), releaseCandidate (AC_SourcePlanID c) (AC_CandidateRevisionID c) st1)
          else (Err PErrNotPending, st)
        else (Ok (), st1)
  end.

(** The rows a deleted plan takes with it, and the pointers to them. *)
Definition goneRevision (planID : Z) (st : PlanStore) (id : Z) : bool :=
  existsb (λ v, (RV_ID v =? id) && (RV_PlanID v =? planID)) (ps_revisions st).

Definition keptPointer (planID : Z) (st : PlanStore) (id : Z) : Z := if goneRevision planID st id then 0 else id.

Definition keptRow (planID : Z) (st : PlanStore) (p : PlanRow) : PlanRow :=
  {| SP_ID := SP_ID p; SP_Name := SP_Name p; SP_Description := SP_Description p; SP_Enabled := SP_Enabled p;
     SP_LockVersion := SP_LockVersion p; SP_Revision := SP_Revision p; SP_CurrentRevisionID := keptPointer planID st (SP_CurrentRevisionID p);
     SP_LatestRevisionID := keptPointer planID st (SP_LatestRevisionID p);
     SP_PendingRevisionID := keptPointer planID st (SP_PendingRevisionID p);
     SP_DraftRevisionID := keptPointer planID st (SP_DraftRevisionID p) |}.

(** [deleteSubscriptionPlanTx]: the change that deletes the plan is detached, and the other
    changes of the plan go with it. *)
Definition deletePlan (planID changeID : Z) (st : PlanStore) : PlanStore :=
  setPlanChanges (List.filter (λ c, negb (AC_SourcePlanID c =? planID))
      ((λ c, if (0 <? changeID) && (AC_ID c =? changeID) then detached c else c) <$> ps_changes st))
    (setRevisions (List.filter (λ v, negb (RV_PlanID v =? planID)) (ps_revisions st))
      (setPlanRows (keptRow planID st <$> List.filter (λ p, negb (SP_ID p =? planID)) (ps_plans st)) st)).

(** *** Removing a node *)

(** The loop of [planVersionApplyingError] with the names that were seen. *)
Fixpoint uniqueNames (seen : gset string) (names : list string) : list string :=
  match names with
  | [] => []
  | name :: names =>
      if (name =? "")%string || bool_decide (name ∈ seen) then uniqueNames seen names
      else name :: uniqueNames ({[name]} ∪ seen) names
  end.

Definition planVersionApplyingError (names : list string) : PlanErr := ErrPlanVersionApplying (uniqueNames ∅ names).

Section removal.
Context (nodeType : string) (ids : list Z).

Definition removedNode (n : PlanNode) : bool := (PN_NodeType n =? nodeType)%string && bool_decide (PN_NodeID n ∈ ids).
Definition removedExclusion (x : PlanNodeExclusion) : bool :=
  (PlanNodeExclusion_NodeType x =? nodeType)%string && bool_decide (PlanNodeExclusion_NodeID x ∈ ids).

Definition keptNodes (l : list PlanNode) : list PlanNode := List.filter (λ n, negb (removedNode n)) l.
Definition keptExclusions (l : list PlanNodeExclusion) : list PlanNodeExclusion := List.filter (λ x, negb (removedExclusion x)) l.

Definition holdsNode (id : Z) (st : PlanStore) : bool :=
  match findRevision id st with Some v => existsb removedNode (RV_Nodes v) | None => false end.

(** The plans with the node in a live revision, in increasing order. *)
Definition affectedPlans (st : PlanStore) : list Z :=
  sort_ints (SP_ID <$> List.filter (λ p, holdsNode (SP_CurrentRevisionID p) st || holdsNode (SP_DraftRevisionID p) st ||
    holdsNode (SP_PendingRevisionID p) st || holdsNode (SP_LatestRevisionID p) st) (ps_plans st)).

Definition releaseStalePlanPendingTx (planID pendingID ts : Z) (st : PlanStore) : bool * PlanStore :=
  if pendingID =? 0 then (true, st)
  else if applying planID st then (false, st)
  else (true, clearPending planID pendingID
         (setPlanChanges ((λ c, if failedCandidate planID pendingID c then withStatus AccessChangeCancelled (AC_Error c) ts c else c) <$> ps_changes st) st)).

(** The first loop: the pending pointers are released; the names of the plans that are being
    applied are collected. *)
Definition releaseStep (ts planID : Z) (acc : list string * PlanStore) : result PlanErr (list string * PlanStore) :=
  let '(blocked, st) := acc in
  match findPlan planID st with
  | None => Err PErrNoRows
  | Some p => match releaseStalePlanPendingTx planID (SP_PendingRevisionID p) ts st with
              | (true, st) => Ok (blocked, st)
              | (false, st) => Ok (blocked ++ [SP_Name p], st)
              end
  end.

Definition prunedRevision (revisionID : Z) (v : SubscriptionPlanRevision) : SubscriptionPlanRevision :=
  if RV_ID v =? revisionID then
    {| RV_ID := RV_ID v; RV_PlanID := RV_PlanID v; RV_VersionNo := RV_VersionNo v; RV_BasedOnRevisionID := RV_BasedOnRevisionID v;
       RV_ChangeKind := RV_ChangeKind v; RV_ChangeSummary := RV_ChangeSummary v; RV_Status := RV_Status v; RV_Limits := RV_Limits v;
       RV_NodeOrderPolicyJSON := RV_NodeOrderPolicyJSON v; RV_Provenance := RV_Provenance v; RV_ActivatedAt := RV_ActivatedAt v;
       RV_ActivationChangeID := RV_ActivationChangeID v; RV_Nodes := keptNodes (RV_Nodes v); RV_Rules := RV_Rules v;
       RV_Exclusions := keptExclusions (RV_Exclusions v) |}
  else v.

(** [prunePlanRevisionNodesTx]: whether nodes were deleted. *)
Definition prunePlanRevisionNodesTx (currentID revisionID : Z) (acc : bool * PlanStore) : bool * PlanStore :=
  let '(pruned, st) := acc in
  if (revisionID =? 0) || (revisionID =? currentID) then (pruned, st)
  else (pruned || holdsNode revisionID st, setRevisions (prunedRevision revisionID <$> ps_revisions st) st).

Definition archived (planID : Z) (v : SubscriptionPlanRevision) : SubscriptionPlanRevision :=
  if (RV_PlanID v =? planID) && (RV_Status v =? PlanRevisionActive)%string then
    {| RV_ID := RV_ID v; RV_PlanID := RV_PlanID v; RV_VersionNo := RV_VersionNo v; RV_BasedOnRevisionID := RV_BasedOnRevisionID v;
       RV_ChangeKind := RV_ChangeKind v; RV_ChangeSummary := RV_ChangeSummary v; RV_Status := PlanRevisionArchived; RV_Limits := RV_Limits v;
       RV_NodeOrderPolicyJSON := RV_NodeOrderPolicyJSON v; RV_Provenance := RV_Provenance v; RV_ActivatedAt := RV_ActivatedAt v;
       RV_ActivationChangeID := RV_ActivationChangeID v; RV_Nodes := RV_Nodes v; RV_Rules := RV_Rules v; RV_Exclusions := RV_Exclusions v |}
  else v.

(** The replacement of the current revision by one without the nodes. *)
Definition replaceCurrent (ts : Z) (p : PlanRow) (st : PlanStore) : result PlanErr (bool * PlanStore) :=
  let currentID := SP_CurrentRevisionID p in
  if currentID =? 0 then Ok (false, st)
  else
    let* c := loadPlanRevisionSnapshotTx (SP_ID p) currentID st in
    let candidate := keptNodes (VC_Nodes c) in
    if Nat.eqb (length candidate) (length (VC_Nodes c)) then Ok (false, st)
    else
      let st := setRevisions (archived (SP_ID p) <$> ps_revisions st) st in
      let* (v, st) := insertRevision (SP_ID p) PlanRevisionActive (VC_Limits c) (marshalOrderPolicy (VC_NodeOrderPolicy c)) (VC_Provenance c)
        PlanChangeKindNodes "节点删除时自动从订阅套餐移除" currentID (Some ts) (explicitSource <$> candidate) (VC_Rules c)
        (keptExclusions (VC_Exclusions c)) st in
      let latestID := SP_LatestRevisionID p in
      let newLatest := if negb (latestID =? 0) && negb (latestID =? currentID) then latestID else RV_ID v in
      Ok (true, updatePlan (SP_ID p) (λ p, nextRevision (withPointers (SP_LockVersion p + 1) (RV_ID v) newLatest (SP_PendingRevisionID p) p)) st).

(** One plan of the second loop. *)
Definition removeFromPlan (ts planID : Z) (st : PlanStore) : result PlanErr PlanStore :=
  match findPlan planID st with
  | None => Err PErrNoRows
  | Some p =>
      let* (currentChanged, st) := replaceCurrent ts p st in
      let '(pruned, st) := prunePlanRevisionNodesTx (SP_CurrentRevisionID p) (SP_LatestRevisionID p)
        (prunePlanRevisionNodesTx (SP_CurrentRevisionID p) (SP_DraftRevisionID p) (false, st)) in
      Ok (if pruned && negb currentChanged
          then updatePlan planID (λ p, nextRevision (withPointers (SP_LockVersion p + 1) (SP_CurrentRevisionID p) (SP_LatestRevisionID p) (SP_PendingRevisionID p) p)) st
          else st)
  end.

Definition removeNodes (ts : Z) (st : PlanStore) : result PlanErr PlanStore :=
  let planIDs := affectedPlans st in
  let* (blocked, st) := foldM (releaseStep ts) planIDs ([], st) in
  let* _ := fail_if (negb (bool_decide (blocked = []))) (planVersionApplyingError blocked) in
  foldM (removeFromPlan ts) planIDs st.
End removal.

(** [RemoveAssignableNodeFromPlans]; the summary of the references it also returns is left out. *)
Definition RemoveAssignableNodeFromPlans (nodeType : string) (nodeIDs : list Z) (ts : Z) (st : PlanStore) : result PlanErr unit * PlanStore :=
  match List.filter (λ id, 0 <? id) nodeIDs with
  | [] => (Ok (), st)
  | ids => match removeNodes nodeType ids ts st with
           | Ok st' => (Ok (), st')
           | Err e => (Err e, st)
           end
  end.
End versions.
