(* ===== verification/PlanVersionSafety.v ===== *)
(** * What the versions of a plan guarantee

    The invariant of the rows under every transaction, the revisions that are never
    rewritten, and what a plan authorizes, which only an activation, a removal of nodes or a
    deletion changes. *)

From S2P Require Import Prelude Model NodeKeys AccessSnapshot SubscriptionOrder Prog AccessChanges PlanVersions.

Local Open Scope Z_scope.

(** ** The invariant *)

Definition belongs (st : PlanStore) (planID id : Z) : Prop :=
  ∃ v, v ∈ ps_revisions st ∧ RV_ID v = id ∧ RV_PlanID v = planID.

Record wfStore (st : PlanStore) : Prop := {
  ws_plans : NoDup (SP_ID <$> ps_plans st);
  ws_planIDs p : p ∈ ps_plans st → 0 < SP_ID p < ps_nextPlan st;
  ws_revisions : NoDup (RV_ID <$> ps_revisions st);
  ws_revisionIDs v : v ∈ ps_revisions st → 0 < RV_ID v < ps_nextRevision st;
  ws_versions : NoDup ((λ v, (RV_PlanID v, RV_VersionNo v)) <$> ps_revisions st);
  ws_limits v : v ∈ ps_revisions st → normalizedLimits (RV_Limits v) = RV_Limits v;
  ws_rows v : v ∈ ps_revisions st → insertable (RV_Nodes v) (RV_Rules v) (RV_Exclusions v) = true;
  ws_current p : p ∈ ps_plans st → belongs st (SP_ID p) (SP_CurrentRevisionID p);
  ws_latest p : p ∈ ps_plans st → belongs st (SP_ID p) (SP_LatestRevisionID p);
  ws_pending p : p ∈ ps_plans st → SP_PendingRevisionID p = 0 ∨ ∃ v, v ∈ ps_revisions st ∧ RV_ID v = SP_PendingRevisionID p;
  ws_draft p : p ∈ ps_plans st → SP_DraftRevisionID p = 0 ∨ belongs st (SP_ID p) (SP_DraftRevisionID p);
  ws_next : 0 < ps_nextPlan st ∧ 0 < ps_nextRevision st }.

Lemma find_key {A} (f : A → Z) (l : list A) id x :
  NoDup (f <$> l) → List.find (λ y, f y =? id) l = Some x ↔ x ∈ l ∧ f x = id.
Proof.
  intros Hnd. split.
  - intros [Hin%list_elem_of_In Heq%Z.eqb_eq]%List.find_some. done.
  - intros [Hin <-]. destruct (List.find _ l) as [y|] eqn:Hf.
    + apply List.find_some in Hf as [Hy%list_elem_of_In Heq%Z.eqb_eq]. f_equal. by eapply NoDup_fmap_key.
    + apply list_elem_of_In in Hin. eapply List.find_none in Hf; [|exact Hin]. by rewrite Z.eqb_refl in Hf.
Qed.

Lemma findPlan_Some st id p : wfStore st → findPlan id st = Some p ↔ p ∈ ps_plans st ∧ SP_ID p = id.
Proof. intros Hwf. apply find_key, Hwf. Qed.

Lemma findRevision_Some st id v : wfStore st → findRevision id st = Some v ↔ v ∈ ps_revisions st ∧ RV_ID v = id.
Proof. intros Hwf. apply find_key, Hwf. Qed.

(** ** Rows that are rewritten *)

(** The part of a revision that no transaction rewrites in place, and the identity that stays
    even when nodes are pruned. *)
Notation identity v := (RV_ID v, RV_PlanID v, RV_VersionNo v, RV_Limits v).

Definition frozen (v : SubscriptionPlanRevision) :=
  (identity v, (RV_BasedOnRevisionID v, RV_ChangeKind v, RV_ChangeSummary v, RV_NodeOrderPolicyJSON v, RV_Provenance v),
   (RV_Nodes v, RV_Rules v, RV_Exclusions v)).

Lemma identity_eq (v w : SubscriptionPlanRevision) :
  identity v = identity w → RV_ID v = RV_ID w ∧ RV_PlanID v = RV_PlanID w ∧ RV_VersionNo v = RV_VersionNo w ∧ RV_Limits v = RV_Limits w.
Proof. by intros [= -> -> -> ->]. Qed.

(** Rewriting revisions without touching their identity. *)
Lemma wf_mapRevisions f st :
  wfStore st → (∀ v, identity (f v) = identity v) → (∀ v, v ∈ ps_revisions st → insertable (RV_Nodes (f v)) (RV_Rules (f v)) (RV_Exclusions (f v)) = true) →
  wfStore (setRevisions (f <$> ps_revisions st) st).
Proof.
  intros [H1 H2 H3 H4 H5 H6 H7 H8 H9 H10 H11 H12] Hid Hnd.
  assert (∀ v, RV_ID (f v) = RV_ID v ∧ RV_PlanID (f v) = RV_PlanID v ∧ RV_VersionNo (f v) = RV_VersionNo v ∧ RV_Limits (f v) = RV_Limits v) as Hf
    by (intros v; apply identity_eq, Hid).
  assert (∀ planID id, belongs st planID id → belongs (setRevisions (f <$> ps_revisions st) st) planID id) as Hb.
  { intros planID id (v & Hv & <- & <-). exists (f v). split; [by apply list_elem_of_fmap_2|]. split; apply Hf. }
  split; simpl; try done.
  - rewrite <- list_fmap_compose. erewrite list_fmap_ext; [exact H3|]. intros i v _. apply Hf.
  - intros v (w & -> & Hw)%list_elem_of_fmap. rewrite (proj1 (Hf w)). auto.
  - rewrite <- list_fmap_compose. erewrite list_fmap_ext; [exact H5|]. intros i v _. simpl. destruct (Hf v) as (_ & -> & -> & _). done.
  - intros v (w & -> & Hw)%list_elem_of_fmap. destruct (Hf w) as (_ & _ & _ & ->). auto.
  - intros v (w & -> & Hw)%list_elem_of_fmap. auto.
  - intros p Hp. by apply Hb, H8.
  - intros p Hp. by apply Hb, H9.
  - intros p Hp. destruct (H10 p Hp) as [|(v & Hv & Heq)]; [auto|]. right. exists (f v). split; [by apply list_elem_of_fmap_2|].
    by rewrite (proj1 (Hf v)).
  - intros p Hp. destruct (H11 p Hp); auto.
Qed.

Lemma elem_of_updatePlan id f st p :
  p ∈ ps_plans (updatePlan id f st) ↔ ∃ q, q ∈ ps_plans st ∧ p = (if SP_ID q =? id then f q else q).
Proof. simpl. rewrite list_elem_of_fmap. naive_solver. Qed.

(** Rewriting the row of a plan with pointers to its revisions. *)
Lemma wf_updateRow id f st :
  wfStore st → (∀ p, p ∈ ps_plans st → SP_ID p = id → SP_ID (f p) = id ∧
    belongs st id (SP_CurrentRevisionID (f p)) ∧ belongs st id (SP_LatestRevisionID (f p)) ∧
    (SP_PendingRevisionID (f p) = 0 ∨ ∃ v, v ∈ ps_revisions st ∧ RV_ID v = SP_PendingRevisionID (f p)) ∧
    (SP_DraftRevisionID (f p) = SP_DraftRevisionID p ∨ belongs st id (SP_DraftRevisionID (f p)))) →
  wfStore (updatePlan id f st).
Proof.
  intros Hwf Hf. pose proof Hwf as [H1 H2 H3 H4 H5 H6 H7 H8 H9 H10 H11 H12].
  assert (∀ p, p ∈ ps_plans st → SP_ID (if SP_ID p =? id then f p else p) = SP_ID p) as Hid.
  { intros p Hp. destruct (Z.eqb_spec (SP_ID p) id) as [<-|]; [|done]. apply (Hf p); done. }
  split; try done.
  - unfold updatePlan. cbn [ps_plans setPlanRows]. rewrite <- list_fmap_compose. erewrite list_fmap_ext; [exact H1|].
    intros i p Hi. simpl. apply Hid. by eapply list_elem_of_lookup_2.
  - intros p (q & Hq & ->)%elem_of_updatePlan. rewrite Hid by done. auto.
  - intros p (q & Hq & ->)%elem_of_updatePlan. rewrite Hid by done. destruct (Z.eqb_spec (SP_ID q) id) as [Heq|]; [|by apply H8].
    rewrite Heq. by apply (Hf q).
  - intros p (q & Hq & ->)%elem_of_updatePlan. rewrite Hid by done. destruct (Z.eqb_spec (SP_ID q) id) as [Heq|]; [|by apply H9].
    rewrite Heq. by apply (Hf q).
  - intros p (q & Hq & ->)%elem_of_updatePlan. destruct (Z.eqb_spec (SP_ID q) id) as [Heq|]; [|auto]. by apply (Hf q).
  - intros p (q & Hq & ->)%elem_of_updatePlan. rewrite Hid by done. destruct (Z.eqb_spec (SP_ID q) id) as [Heq|]; [|auto].
    destruct (Hf q Hq Heq) as (_ & _ & _ & _ & [->|Hb]); [auto|]. rewrite Heq. auto.
Qed.

(** The same for statements that leave the draft pointer. *)
Lemma wf_updatePlan id f st :
  wfStore st → (∀ p, p ∈ ps_plans st → SP_ID p = id → SP_ID (f p) = id ∧
    belongs st id (SP_CurrentRevisionID (f p)) ∧ belongs st id (SP_LatestRevisionID (f p)) ∧
    (SP_PendingRevisionID (f p) = 0 ∨ ∃ v, v ∈ ps_revisions st ∧ RV_ID v = SP_PendingRevisionID (f p)) ∧
    SP_DraftRevisionID (f p) = SP_DraftRevisionID p) →
  wfStore (updatePlan id f st).
Proof. intros Hwf Hf. apply wf_updateRow; [done|]. intros p Hp Hid. destruct (Hf p Hp Hid) as (?&?&?&?&?). auto 10. Qed.

Lemma wf_setPlanChanges l st : wfStore st → wfStore (setPlanChanges l st).
Proof. by intros []. Qed.

(** ** New revisions *)

Section safety.
Context {Cod : PlanCodec} {M : MapRange string PlanNode}.

Lemma maxOf_fold f planID l n :
  n ≤ foldl (λ best v, if RV_PlanID v =? planID then Z.max best (f v) else best) n l ∧
  ∀ v, v ∈ l → RV_PlanID v = planID → f v ≤ foldl (λ best v, if RV_PlanID v =? planID then Z.max best (f v) else best) n l.
Proof.
  revert n; induction l as [|w l IH]; intros n; cbn [foldl]; [split; [lia|by intros v ?%not_elem_of_nil]|].
  destruct (IH (if RV_PlanID w =? planID then Z.max n (f w) else n)) as [Hle Hall].
  destruct (Z.eqb_spec (RV_PlanID w) planID) as [Heq|Hne].
  - split; [lia|]. intros v [->|Hv]%elem_of_cons Hp; [lia|auto].
  - split; [lia|]. intros v [->|Hv]%elem_of_cons Hp; [done|auto].
Qed.

Lemma normalizedLimits_idem l : normalizedLimits (normalizedLimits l) = normalizedLimits l.
Proof.
  destruct l as [s t m d]. unfold normalizedLimits. simpl. f_equal.
  - destruct (TrimSpace m =? "")%string eqn:Hm; [done|]. by rewrite Hm.
  - destruct (Z.leb_spec d 0); [done|]. by rewrite (proj2 (Z.leb_gt d 0)).
Qed.

(** What [insertRevision] adds. *)
Lemma insertRevision_Ok planID status limits policy prov kind summary basedOn at_ nodes rules excl st v st' :
  insertRevision planID status limits policy prov kind summary basedOn at_ nodes rules excl st = Ok (v, st') →
  st' = {| ps_plans := ps_plans st; ps_revisions := ps_revisions st ++ [v]; ps_changes := ps_changes st;
           ps_nextPlan := ps_nextPlan st; ps_nextRevision := ps_nextRevision st + 1 |} ∧
  RV_ID v = ps_nextRevision st ∧ RV_PlanID v = planID ∧ RV_Limits v = normalizedLimits limits ∧ RV_Nodes v = nodes ∧
  RV_Rules v = rules ∧ RV_Exclusions v = excl ∧ insertable nodes rules excl = true ∧
  ∀ w, w ∈ ps_revisions st → RV_PlanID w = planID → RV_VersionNo w < RV_VersionNo v.
Proof.
  unfold insertRevision. destruct (insertable nodes rules excl) eqn:Hins; [|done]. cbn [negb]. intros [= <- <-].
  split_and!; try done. intros w Hw Hp. simpl.
  destruct (maxOf_fold RV_VersionNo planID (ps_revisions st) 0) as [_ Hall]. specialize (Hall w Hw Hp). unfold maxOf. lia.
Qed.

Lemma wf_insertRevision planID status limits policy prov kind summary basedOn at_ nodes rules excl st v st' :
  wfStore st → insertRevision planID status limits policy prov kind summary basedOn at_ nodes rules excl st = Ok (v, st') → wfStore st'.
Proof.
  intros [H1 H2 H3 H4 H5 H6 H7 H8 H9 H10 H11 H12] (-> & Hid & Hp & Hl & Hn & Hru & Hex & Hnd & Hver)%insertRevision_Ok.
  assert (∀ w, w ∈ ps_revisions st ++ [v] ↔ w ∈ ps_revisions st ∨ w = v) as Hin by (intros w; by rewrite elem_of_app, list_elem_of_singleton).
  assert (∀ p id, belongs st p id → ∃ w, w ∈ ps_revisions st ++ [v] ∧ RV_ID w = id ∧ RV_PlanID w = p) as Hb.
  { intros p id (w & Hw & ? & ?). exists w. rewrite Hin. auto. }
  split; cbn [ps_plans ps_revisions ps_nextPlan ps_nextRevision].
  - done.
  - done.
  - rewrite fmap_app. apply NoDup_app. split_and!; [done| |apply NoDup_singleton].
    intros id (w & -> & Hw)%list_elem_of_fmap Heq%list_elem_of_singleton. destruct (H4 w Hw). lia.
  - intros w [Hw| ->]%Hin; [destruct (H4 w Hw); lia|lia].
  - rewrite fmap_app. apply NoDup_app. split_and!; [done| |apply NoDup_singleton].
    intros pr (w & -> & Hw)%list_elem_of_fmap [= Heq1 Heq2]%list_elem_of_singleton. specialize (Hver w Hw). lia.
  - intros w [Hw| ->]%Hin; [auto|]. rewrite Hl. apply normalizedLimits_idem.
  - intros w [Hw| ->]%Hin; [auto|]. by rewrite Hn, Hru, Hex.
  - intros p Hpl. by apply Hb, H8.
  - intros p Hpl. by apply Hb, H9.
  - intros p Hpl. destruct (H10 p Hpl) as [|(w & Hw & Heq)]; [by left|right]. exists w. rewrite Hin. auto.
  - intros p Hpl. destruct (H11 p Hpl); [by left|right]. by apply Hb.
  - lia.
Qed.

(** ** What a plan authorizes *)

Definition grants (v : SubscriptionPlanRevision) : PlanLimits * gset string := (RV_Limits v, list_to_set (nodeKey <$> RV_Nodes v)).

Definition authorized (st : PlanStore) (planID : Z) : option (PlanLimits * gset string) :=
  findPlan planID st ≫= λ p, grants <$> findRevision (SP_CurrentRevisionID p) st.

(** Earlier revisions are kept as they were saved. *)
Definition history (st st' : PlanStore) : Prop :=
  ∀ v, v ∈ ps_revisions st → ∃ v', v' ∈ ps_revisions st' ∧ frozen v' = frozen v.

Lemma history_refl st : history st st.
Proof. intros v Hv. eauto. Qed.

Lemma history_trans st1 st2 st3 : history st1 st2 → history st2 st3 → history st1 st3.
Proof. intros H12 H23 v Hv. destruct (H12 v Hv) as (v2 & Hv2 & Heq2). destruct (H23 v2 Hv2) as (v3 & Hv3 & Heq3). exists v3. split; congruence. Qed.

Lemma frozen_parts v w : frozen v = frozen w → identity v = identity w ∧ (RV_Nodes v, RV_Rules v, RV_Exclusions v) = (RV_Nodes w, RV_Rules w, RV_Exclusions w) ∧ grants v = grants w.
Proof. unfold frozen, grants. intros Heq. injection Heq as. split_and!; congruence. Qed.

Lemma authorized_Some st planID a :
  wfStore st → authorized st planID = Some a ↔
  ∃ p v, p ∈ ps_plans st ∧ SP_ID p = planID ∧ v ∈ ps_revisions st ∧ RV_ID v = SP_CurrentRevisionID p ∧ a = grants v.
Proof.
  intros Hwf. unfold authorized. rewrite bind_Some. setoid_rewrite fmap_Some. setoid_rewrite findPlan_Some; [|done].
  setoid_rewrite findRevision_Some; [|done]. naive_solver.
Qed.

(** The current pointer of a row stays, or moves to a revision that grants the same. *)
Definition currentKept (st st' : PlanStore) (p p' : PlanRow) : Prop :=
  SP_CurrentRevisionID p' = SP_CurrentRevisionID p ∨
  ∃ v v', v ∈ ps_revisions st ∧ RV_ID v = SP_CurrentRevisionID p ∧ v' ∈ ps_revisions st' ∧ RV_ID v' = SP_CurrentRevisionID p' ∧ grants v' = grants v.

Lemma currentKept_grants st st' p p' :
  wfStore st → wfStore st' → history st st' → p ∈ ps_plans st → currentKept st st' p p' →
  (∀ v, v ∈ ps_revisions st → RV_ID v = SP_CurrentRevisionID p → ∃ v', v' ∈ ps_revisions st' ∧ RV_ID v' = SP_CurrentRevisionID p' ∧ grants v' = grants v) ∧
  (∀ v', v' ∈ ps_revisions st' → RV_ID v' = SP_CurrentRevisionID p' → ∃ v, v ∈ ps_revisions st ∧ RV_ID v = SP_CurrentRevisionID p ∧ grants v' = grants v).
Proof.
  intros Hwf Hwf' Hh Hp [Hc|(v & v' & Hv & Hid & Hv' & Hid' & Hg)].
  - assert (∀ v, v ∈ ps_revisions st → RV_ID v = SP_CurrentRevisionID p → ∃ v', v' ∈ ps_revisions st' ∧ RV_ID v' = SP_CurrentRevisionID p' ∧ grants v' = grants v) as Hforth.
    { intros v Hv Hid. destruct (Hh v Hv) as (v' & Hv' & Heq). destruct (frozen_parts _ _ Heq) as ((Hid' & _)%identity_eq & _ & Hg).
      exists v'. split_and!; [done|congruence|done]. }
    split; [done|]. intros v' Hv' Hid'. destruct (ws_current _ Hwf p Hp) as (v & Hv & Hid & _).
    destruct (Hforth v Hv Hid) as (w & Hw & Hidw & Hg). exists v. split_and!; [done..|].
    assert (w = v') as -> by (eapply (NoDup_fmap_key RV_ID); [apply Hwf'|done|done|congruence]). done.
  - split.
    + intros w Hw Hidw. assert (w = v) as -> by (eapply (NoDup_fmap_key RV_ID); [apply Hwf|done|done|congruence]). eauto.
    + intros w Hw Hidw. assert (w = v') as -> by (eapply (NoDup_fmap_key RV_ID); [apply Hwf'|done|done|congruence]). eauto.
Qed.

(** Kept pointers on a kept history authorize the same. *)
Lemma authorized_kept st st' planID :
  wfStore st → wfStore st' → history st st' →
  (∀ p', p' ∈ ps_plans st' → SP_ID p' = planID → ∃ p, p ∈ ps_plans st ∧ SP_ID p = planID ∧ currentKept st st' p p') →
  (∀ p, p ∈ ps_plans st → SP_ID p = planID → ∃ p', p' ∈ ps_plans st' ∧ SP_ID p' = planID) →
  authorized st' planID = authorized st planID.
Proof.
  intros Hwf Hwf' Hh Hback Hforth. apply option_eq. intros a. rewrite !authorized_Some by done. split.
  - intros (p' & v' & Hp' & Hid & Hv' & Hc & ->). destruct (Hback p' Hp' Hid) as (p & Hp & Hidp & Hk).
    destruct (currentKept_grants _ _ _ _ Hwf Hwf' Hh Hp Hk) as [_ Hk']. destruct (Hk' v' Hv' Hc) as (v & Hv & Hcv & Hg). exists p, v. done.
  - intros (p & v & Hp & Hid & Hv & Hc & ->). destruct (Hforth p Hp Hid) as (p' & Hp' & Hid'). destruct (Hback p' Hp' Hid') as (p2 & Hp2 & Hidp2 & Hk).
    assert (p2 = p) as -> by (eapply (NoDup_fmap_key SP_ID); [apply Hwf|done|done|congruence]).
    destruct (currentKept_grants _ _ _ _ Hwf Hwf' Hh Hp Hk) as [Hk' _]. destruct (Hk' v Hv Hc) as (v' & Hv' & Hcv & Hg). exists p', v'. done.
Qed.

(** ** The steps of a transaction *)

(** A step keeps the invariant, the history and what every plan authorizes. *)
Record keeps (st st' : PlanStore) : Prop := {
  kp_wf : wfStore st';
  kp_history : history st st';
  kp_authorized q : authorized st' q = authorized st q }.

Lemma keeps_refl st : wfStore st → keeps st st.
Proof. intros Hwf. split; [done|apply history_refl|done]. Qed.

Lemma keeps_trans st1 st2 st3 : keeps st1 st2 → keeps st2 st3 → keeps st1 st3.
Proof. intros [_ H1 A1] [W2 H2 A2]. split; [done|by eapply history_trans|]. intros q. by rewrite A2. Qed.

Lemma keeps_changes l st : wfStore st → keeps st (setPlanChanges l st).
Proof. intros Hwf. split; [by apply wf_setPlanChanges|intros v Hv; by exists v|done]. Qed.

(** The row of one plan is written. *)
Lemma keeps_updatePlan id f st :
  wfStore st → wfStore (updatePlan id f st) → (∀ p, p ∈ ps_plans st → SP_ID p = id → SP_ID (f p) = id ∧ currentKept st st p (f p)) →
  keeps st (updatePlan id f st).
Proof.
  intros Hwf Hwf' Hf. assert (history st (updatePlan id f st)) as Hh by (intros v Hv; by exists v). split; [done|done|]. intros q.
  apply authorized_kept; [done..| |].
  - intros p' (p & Hp & ->)%elem_of_updatePlan Hid. exists p. destruct (Z.eqb_spec (SP_ID p) id) as [Heq|Hne].
    + destruct (Hf p Hp Heq) as [Hid' Hk]. split_and!; [done|congruence|done].
    + split_and!; [done..|]. by left.
  - intros p Hp Hid. exists (if SP_ID p =? id then f p else p). split; [apply elem_of_updatePlan; eauto|].
    destruct (Z.eqb_spec (SP_ID p) id) as [Heq|]; [|done]. rewrite (proj1 (Hf p Hp Heq)). congruence.
Qed.

(** A revision is added. *)
Lemma keeps_insertRevision planID status limits policy prov kind summary basedOn at_ nodes rules excl st v st' :
  wfStore st → insertRevision planID status limits policy prov kind summary basedOn at_ nodes rules excl st = Ok (v, st') → keeps st st'.
Proof.
  intros Hwf Hins. pose proof (wf_insertRevision _ _ _ _ _ _ _ _ _ _ _ _ _ _ _ Hwf Hins) as Hwf'.
  apply insertRevision_Ok in Hins as (-> & _).
  assert (history st {| ps_plans := ps_plans st; ps_revisions := ps_revisions st ++ [v]; ps_changes := ps_changes st;
    ps_nextPlan := ps_nextPlan st; ps_nextRevision := ps_nextRevision st + 1 |}) as Hh.
  { intros w Hw. exists w. simpl. split; [|done]. apply elem_of_app. by left. }
  split; [done|done|]. intros q. apply authorized_kept; [done..| |]; simpl; [|eauto]. intros p Hp Hid. exists p. split_and!; [done..|]. by left.
Qed.

(** ** Saving a version *)

Lemma samePlanLimits_true a b : samePlanLimits a b = true → a = b.
Proof.
  destruct a, b. unfold samePlanLimits. simpl. rewrite !andb_true_iff, !Z.eqb_eq, String.eqb_eq. intros [[[-> ->] ->] ->]. done.
Qed.

Lemma sameNodeMembership_true a b :
  sameNodeMembership a b = true → (list_to_set (nodeKey <$> a) : gset string) = list_to_set (nodeKey <$> b).
Proof.
  unfold sameNodeMembership. set (ka := list_to_set (nodeKey <$> a) : gset string). set (kb := list_to_set (nodeKey <$> b) : gset string).
  rewrite andb_true_iff, Nat.eqb_eq, List.forallb_forall. intros [Hsize Hsub].
  assert (ka ⊆ kb) as Hs.
  { intros k Hk. specialize (Hsub k). rewrite <- list_elem_of_In, elem_of_elements, bool_decide_eq_true in Hsub. auto. }
  apply set_subseteq_size_eq; [done|lia].
Qed.

Lemma load_Ok planID id st c :
  wfStore st → loadPlanRevisionSnapshotTx planID id st = Ok c →
  ∃ v, v ∈ ps_revisions st ∧ RV_ID v = id ∧ RV_PlanID v = planID ∧ c = contentOf v.
Proof.
  intros Hwf. unfold loadPlanRevisionSnapshotTx. destruct (findRevision id st) as [v|] eqn:Hf; [|done].
  destruct (Z.eqb_spec (RV_PlanID v) planID); [|done]. intros [= <-]. apply findRevision_Some in Hf as [? ?]; [|done]. eauto.
Qed.

Lemma contentOf_keys v : (list_to_set (nodeKey <$> VC_Nodes (contentOf v)) : gset string) = list_to_set (nodeKey <$> RV_Nodes v).
Proof. simpl. apply set_eq. intros k. rewrite !elem_of_list_to_set, !list_elem_of_fmap. setoid_rewrite sort_slice_perm. done. Qed.

(** A presentation-only candidate has the limits and the nodes of the current version. *)
Lemma classify_presentation planID current candidate st :
  wfStore st → classify planID current candidate st = Ok presentation_only →
  ∃ v, v ∈ ps_revisions st ∧ RV_ID v = current ∧ RV_PlanID v = planID ∧ VC_Limits candidate = RV_Limits v ∧
    (list_to_set (nodeKey <$> VC_Nodes candidate) : gset string) = list_to_set (nodeKey <$> RV_Nodes v).
Proof.
  intros Hwf. unfold classify. destruct (current =? 0); [done|]. destruct (loadPlanRevisionSnapshotTx planID current st) as [c|] eqn:Hl; [|done].
  apply load_Ok in Hl as (v & Hv & Hid & Hp & ->); [|done]. cbn [rbind].
  destruct (samePlanLimits _ _) eqn:Hlim; [|done]. destruct (sameNodeMembership _ _) eqn:Hnod; [|done]. intros _.
  exists v. split_and!; [done..| |].
  - by apply samePlanLimits_true in Hlim.
  - apply sameNodeMembership_true in Hnod. by rewrite <- Hnod, contentOf_keys.
Qed.

Lemma writePlan_Ok p st st' : writePlan p st = Ok st' → st' = updatePlan (SP_ID p) (λ _, p) st.
Proof. unfold writePlan. destruct (existsb _ _); [done|]. by intros [= <-]. Qed.

(** Writing a row whose pointers are valid and grant the same. *)
Lemma writePlan_keeps p row st st' :
  wfStore st → p ∈ ps_plans st → SP_ID row = SP_ID p ∧ SP_DraftRevisionID row = SP_DraftRevisionID p → writePlan row st = Ok st' →
  currentKept st st p row →
  belongs st (SP_ID p) (SP_CurrentRevisionID row) → belongs st (SP_ID p) (SP_LatestRevisionID row) →
  (SP_PendingRevisionID row = 0 ∨ ∃ v, v ∈ ps_revisions st ∧ RV_ID v = SP_PendingRevisionID row) →
  keeps st st' ∧ findPlan (SP_ID p) st' = Some row.
Proof.
  intros Hwf Hp [Hid Hd] ->%writePlan_Ok Hk Hc Hl Hpe. rewrite Hid.
  assert (∀ q, q ∈ ps_plans st → SP_ID q = SP_ID p → q = p) as Huniq by (intros q Hq Heq; by eapply (NoDup_fmap_key SP_ID); [apply Hwf|..]).
  assert (wfStore (updatePlan (SP_ID p) (λ _, row) st)) as Hwf' by (apply wf_updatePlan; [done|]; intros q Hq Heq; by rewrite (Huniq q Hq Heq)).
  split.
  - apply keeps_updatePlan; [done..|]. intros q Hq Heq. by rewrite (Huniq q Hq Heq).
  - apply findPlan_Some; [done|]. split; [|done]. apply elem_of_updatePlan. exists p. by rewrite Z.eqb_refl.
Qed.

Lemma renamed_pointers m p :
  SP_ID (renamed m p) = SP_ID p ∧ SP_DraftRevisionID (renamed m p) = SP_DraftRevisionID p.
Proof. by destruct m. Qed.

(** The lock of the plan after a save: unchanged with an unchanged store, or advanced. *)
Definition savedLock (p : PlanRow) (r : CreatePlanVersionResult) (st st' : PlanStore) : Prop :=
  (CR_LockVersion r = SP_LockVersion p ∧ st' = st) ∨
  (CR_LockVersion r = SP_LockVersion p + 1 ∧ ∃ row, findPlan (SP_ID p) st' = Some row ∧ SP_LockVersion row = SP_LockVersion p + 1).

Lemma saveUnchanged_keeps p m pendingID superseded st r st' :
  wfStore st → p ∈ ps_plans st → saveUnchanged p (renamed m p) pendingID superseded st = Ok (r, st') →
  keeps st st' ∧ savedLock p r st st' ∧ (superseded = None → CR_NoChange r = true).
Proof.
  intros Hwf Hp. pose proof (renamed_pointers m p) as Hid. unfold saveUnchanged, savedLock.
  assert (∀ pending, (pending = SP_PendingRevisionID p ∨ pending = SP_LatestRevisionID p) → ∀ st1,
    writePlan (withPointers (SP_LockVersion p + 1) (SP_CurrentRevisionID p) (SP_LatestRevisionID p) pending (renamed m p)) st = Ok st1 →
    keeps st st1 ∧ ∃ row, findPlan (SP_ID p) st1 = Some row ∧ SP_LockVersion row = SP_LockVersion p + 1) as Hw.
  { intros pending Hpe st1 Hwr. destruct (writePlan_keeps p (withPointers _ _ _ _ _) _ _ Hwf Hp Hid Hwr) as [Hk Hf]; [by left|apply (ws_current _ Hwf p Hp)|apply (ws_latest _ Hwf p Hp)| |by eauto].
    simpl. destruct Hpe as [->| ->]; [apply (ws_pending _ Hwf p Hp)|]. destruct (ws_latest _ Hwf p Hp) as (v & Hv & Heq & _). eauto. }
  destruct superseded as [c|].
  - destruct (writePlan _ st) as [st1|] eqn:Hwr; [|done]. intros [= <- <-]. destruct (Hw _ (or_intror eq_refl) _ Hwr) as [? ?]. split_and!; [done|by right|done].
  - destruct (metaChanged p (renamed m p)).
    + destruct (writePlan _ st) as [st1|] eqn:Hwr; [|done]. intros [= <- <-]. destruct (Hw _ (or_introl eq_refl) _ Hwr) as [? ?]. split_and!; [done|by right|done].
    + intros [= <- <-]. split_and!; [by apply keeps_refl|by left|done].
Qed.

Lemma saveVersion_keeps p meta pendingID candidate m ts st r st' :
  wfStore st → p ∈ ps_plans st → (pendingID = 0 ∨ ∃ v, v ∈ ps_revisions st ∧ RV_ID v = pendingID) →
  saveVersion p (renamed meta p) pendingID candidate m ts st = Ok (r, st') →
  keeps st st' ∧ CR_NoChange r = false ∧ CR_LockVersion r = SP_LockVersion p + 1 ∧
  ∃ v row, CR_Revision r = Some v ∧ v ∈ ps_revisions st' ∧ RV_ID v = ps_nextRevision st ∧ RV_PlanID v = SP_ID p ∧
    RV_Limits v = normalizedLimits (VC_Limits candidate) ∧ RV_Nodes v = VC_Nodes candidate ∧ RV_Rules v = VC_Rules candidate ∧
    RV_Exclusions v = VC_Exclusions candidate ∧
    findPlan (SP_ID p) st' = Some row ∧ SP_LockVersion row = SP_LockVersion p + 1 ∧ SP_LatestRevisionID row = RV_ID v ∧
    (SP_CurrentRevisionID row = RV_ID v ∧ SP_PendingRevisionID row = 0 ∨
     SP_CurrentRevisionID row = SP_CurrentRevisionID p ∧ SP_PendingRevisionID row ≠ 0).
Proof.
  intros Hwf Hp Hpe. pose proof (renamed_pointers meta p) as Hid. unfold saveVersion.
  destruct (classify (SP_ID p) (SP_CurrentRevisionID p) candidate st) as [class|] eqn:Hcl; [|done]. cbn [rbind].
  destruct (settleClass (SP_ID p) pendingID class st) as [class' pending'] eqn:Hset.
  assert ((class' = presentation_only → class = presentation_only) ∧ (pending' = 0 ∨ pending' = pendingID)) as [Hclass Hpend].
  { unfold settleClass in Hset. destruct class; [destruct (pendingID =? 0); [|destruct (applying _ _)]|]; simplify_eq; auto. }
  destruct (insertRevision _ _ _ _ _ _ _ _ _ _ _ _ st) as [[v st1]|] eqn:Hins; [|done]. cbn [rbind].
  pose proof (keeps_insertRevision _ _ _ _ _ _ _ _ _ _ _ _ _ _ _ Hwf Hins) as Hk1. pose proof (kp_wf _ _ Hk1) as Hwf1.
  pose proof (insertRevision_Ok _ _ _ _ _ _ _ _ _ _ _ _ _ _ _ Hins) as (Hst1 & Hvid & Hvp & Hvl & Hvn & Hvr & Hve & _).
  assert (v ∈ ps_revisions st1) as Hv by (rewrite Hst1; simpl; apply elem_of_app; right; by apply list_elem_of_singleton).
  assert (p ∈ ps_plans st1) as Hp1 by by rewrite Hst1.
  assert (∀ w, w ∈ ps_revisions st → w ∈ ps_revisions st1) as Hsub by (intros w Hw; rewrite Hst1; simpl; apply elem_of_app; by left).
  assert (0 < RV_ID v) as Hpos by apply (ws_revisionIDs _ Hwf1 v Hv).
  assert (belongs st1 (SP_ID p) (RV_ID v)) as Hbv by by exists v.
  destruct class'.
  - destruct (writePlan _ st1) as [st2|] eqn:Hwr; [|done]. intros [= <- <-].
    destruct (classify_presentation _ _ _ _ Hwf (eq_trans Hcl (f_equal Ok (Hclass eq_refl)))) as (vc & Hvc & Hidc & Hpc & Hlc & Hnc).
    destruct (writePlan_keeps p (withPointers _ _ _ _ _) _ _ Hwf1 Hp1 Hid Hwr) as [Hk2 Hf]; [|done..|by left|].
    + right. exists vc, v. split_and!; [by apply Hsub|done..|]. unfold grants. rewrite Hvl, Hvn, Hlc, (ws_limits _ Hwf vc Hvc). by rewrite Hnc.
    + split; [by eapply keeps_trans|]. split_and!; [done..|]. exists v. eexists. split_and!; try done; [|by left].
      apply writePlan_Ok in Hwr as ->. done.
  - destruct (writePlan _ st1) as [st2|] eqn:Hwr; [|done]. intros [= <- <-].
    assert ((if pending' =? 0 then RV_ID v else pending') ≠ 0 ∧ ∃ w, w ∈ ps_revisions st1 ∧ RV_ID w = (if pending' =? 0 then RV_ID v else pending')) as [Hnz Hw].
    { destruct (Z.eqb_spec pending' 0) as [|Hne]; [split; [lia|eauto]|]. destruct Hpend as [?|Heq]; [done|]. rewrite Heq in *.
      split; [done|]. destruct Hpe as [?|(w & Hw & ?)]; [done|]. eauto. }
    destruct (writePlan_keeps p (withPointers _ _ _ _ _) _ _ Hwf1 Hp1 Hid Hwr) as [Hk2 Hf]; [by left|by apply (ws_current _ Hwf1 p Hp1)|done|by right|].
    split; [by eapply keeps_trans|]. split_and!; [done..|]. exists v. eexists. split_and!; try done; [|by right].
    apply writePlan_Ok in Hwr as ->. done.
Qed.

(** What a successful save does. *)
Lemma createVersion_keeps planID m ts st r st' :
  wfStore st → createVersion planID m ts st = Ok (r, st') →
  ∃ p, findPlan planID st = Some p ∧ keeps st st' ∧ savedLock p r st st' ∧
    (0 < VM_ExpectedLockVersion m → VM_ExpectedLockVersion m = SP_LockVersion p).
Proof.
  intros Hwf. unfold createVersion. destruct (findPlan planID st) as [p|] eqn:Hf; [|done]. cbn [rbind].
  pose proof Hf as [Hp Hid]%findPlan_Some; [|done]. unfold fail_if.
  destruct (_ =? 0); [done|]. cbn [rbind]. destruct ((0 <? VM_ExpectedLockVersion m) && _) eqn:Hlock; [done|]. cbn [rbind].
  destruct (_ && _) in |- *; [done|]. cbn [rbind].
  assert (0 < VM_ExpectedLockVersion m → VM_ExpectedLockVersion m = SP_LockVersion p) as Hexp.
  { intros Hpos. rewrite (proj2 (Z.ltb_lt _ _) Hpos) in Hlock. simpl in Hlock. apply negb_false_iff, Z.eqb_eq in Hlock. done. }
  destruct (supersededChange planID (SP_PendingRevisionID p) st) as [c|] eqn:Hsup.
  - set (st0 := setPlanChanges _ st). assert (keeps st st0) as Hk0 by by apply keeps_changes.
    pose proof (kp_wf _ _ Hk0) as Hwf0. destruct (loadPlanRevisionSnapshotTx _ _ st0) as [base|]; [|done]. cbn [rbind].
    destruct (candidateContent base m) as [candidate|]; [|done]. cbn [rbind]. destruct (_ =? _)%string; intros Hsave.
    + assert (∃ st1, st' = st1 ∧ keeps st0 st1 ∧ savedLock p r st0 st1) as (st1 & -> & Hk & Hl).
      { destruct (saveUnchanged_keeps p _ _ _ st0 r st' Hwf0 Hp Hsave) as (? & ? & _). eauto. }
      exists p. split_and!; [done|by eapply keeps_trans| |done]. destruct Hl as [[Hr Heq]|Hl]; [|by right].
      unfold saveUnchanged in Hsave. destruct (writePlan _ st0); [|done]. cbn in Hsave. injection Hsave as <- _. simpl in Hr. lia.
    + destruct (saveVersion_keeps p _ _ _ _ _ st0 r st' Hwf0 Hp (or_introl eq_refl) Hsave) as (Hk & _ & Hr & v & row & _ & _ & _ & _ & _ & _ & _ & _ & Hfind & Hrow & _).
      exists p. split_and!; [done|by eapply keeps_trans| |done]. right. eauto.
  - destruct (loadPlanRevisionSnapshotTx _ _ st) as [base|]; [|done]. cbn [rbind].
    destruct (candidateContent base m) as [candidate|]; [|done]. cbn [rbind]. destruct (_ =? _)%string; intros Hsave.
    + destruct (saveUnchanged_keeps p _ _ _ st r st' Hwf Hp Hsave) as (? & ? & _). eauto.
    + destruct (saveVersion_keeps p _ _ _ _ _ st r st' Hwf Hp (ws_pending _ Hwf p Hp) Hsave) as (Hk & _ & Hr & v & row & _ & _ & _ & _ & _ & _ & _ & _ & Hfind & Hrow & _).
      exists p. split_and!; [done..| |done]. right. eauto.
Qed.

(** ** The other transactions *)

(** Rewriting only the state of activation or the status of revisions. *)
Lemma keeps_mapRevisions f st :
  wfStore st → (∀ v, frozen (f v) = frozen v) → keeps st (setRevisions (f <$> ps_revisions st) st).
Proof.
  intros Hwf Hf. assert (wfStore (setRevisions (f <$> ps_revisions st) st)) as Hwf'.
  { apply wf_mapRevisions; [done| |].
    - intros v. by apply (frozen_parts _ _ (Hf v)).
    - intros v Hv. destruct (frozen_parts _ _ (Hf v)) as (_ & Heq & _). injection Heq as -> -> ->. by apply (ws_rows _ Hwf). }
  assert (history st (setRevisions (f <$> ps_revisions st) st)) as Hh by (intros v Hv; exists (f v); split; [by apply list_elem_of_fmap_2|done]).
  split; [done|done|]. intros q. apply authorized_kept; [done..| |]; simpl; [|eauto]. intros p Hp Hid. exists p. split_and!; [done..|]. by left.
Qed.

Lemma frozen_activated candidate changeID ts v : frozen (activatedRevision candidate changeID ts v) = frozen v.
Proof. unfold activatedRevision. by destruct (_ =? _). Qed.

Lemma frozen_archived planID v : frozen (archived planID v) = frozen v.
Proof. unfold archived. by destruct (_ && _). Qed.

(** Moving the pending or the latest pointer. *)
Lemma keeps_pointers id f st :
  wfStore st → (∀ p, p ∈ ps_plans st → SP_ID (f p) = SP_ID p ∧ SP_CurrentRevisionID (f p) = SP_CurrentRevisionID p ∧ SP_DraftRevisionID (f p) = SP_DraftRevisionID p ∧
    (SP_LatestRevisionID (f p) = SP_LatestRevisionID p ∨ SP_LatestRevisionID (f p) = SP_CurrentRevisionID p) ∧
    (SP_PendingRevisionID (f p) = SP_PendingRevisionID p ∨ SP_PendingRevisionID (f p) = 0 ∨
     ∃ v, v ∈ ps_revisions st ∧ RV_ID v = SP_PendingRevisionID (f p))) →
  keeps st (updatePlan id f st).
Proof.
  intros Hwf Hf. apply keeps_updatePlan; [done| |].
  - apply wf_updatePlan; [done|]. intros p Hp <-. destruct (Hf p Hp) as (Hid & Hc & Hd & Hl & Hpe). rewrite Hc. split_and!; [done|by apply (ws_current _ Hwf)| | |done].
    + destruct Hl as [-> | ->]; [by apply (ws_latest _ Hwf)|by apply (ws_current _ Hwf)].
    + destruct Hpe as [->|[?|?]]; [by apply (ws_pending _ Hwf)|auto..].
  - intros p Hp <-. destruct (Hf p Hp) as (Hid & Hc & _). split; [done|by left].
Qed.

Lemma keeps_setPendingIfEmpty planID revisionID st : wfStore st → keeps st (setPendingIfEmpty planID revisionID st).2.
Proof.
  intros Hwf. unfold setPendingIfEmpty. destruct (_ && _); [|by apply keeps_refl]. case_bool_decide as Hf; [by apply keeps_refl|].
  apply keeps_pointers; [done|]. intros p Hp. destruct (_ =? 0); [|auto 8]. split_and!; [done..|by left|]. right; right. simpl.
  destruct (findRevision revisionID st) as [v|] eqn:Hv; [|done]. apply findRevision_Some in Hv as [? ?]; [|done]. eauto.
Qed.

Lemma keeps_clearPending planID expected st : wfStore st → keeps st (clearPending planID expected st).
Proof. intros Hwf. apply keeps_pointers; [done|]. intros p Hp. destruct (_ =? expected); simpl; auto 8. Qed.

Lemma keeps_releaseCandidate planID candidate st : wfStore st → keeps st (releaseCandidate planID candidate st).
Proof. intros Hwf. apply keeps_pointers; [done|]. intros p Hp. destruct (_ && _); simpl; auto 8. Qed.

Lemma keeps_cancelChange id ts st : wfStore st → keeps st (cancelChange id ts st).2.
Proof.
  intros Hwf. unfold cancelChange. destruct (List.find _ _) as [c|]; [|by apply keeps_refl]. destruct (_ || _); [by apply keeps_refl|].
  set (st1 := setPlanChanges _ st). assert (keeps st st1) as Hk by by apply keeps_changes. destruct (isPlanChange _); [|done].
  destruct (Nat.eqb _ _); [|by apply keeps_refl]. eapply keeps_trans; [exact Hk|]. apply keeps_releaseCandidate, Hk.
Qed.

(** Activation moves the current pointer of one plan to a revision of it. *)
Lemma activateVersion_spec planID expected candidate changeID ts st r st' :
  wfStore st → activateVersion planID expected candidate changeID ts st = (r, st') →
  wfStore st' ∧ history st st' ∧ (∀ q, q ≠ planID → authorized st' q = authorized st q) ∧
  match r with
  | Ok _ => ∃ p v, findPlan planID st = Some p ∧ SP_CurrentRevisionID p = expected ∧ v ∈ ps_revisions st ∧ RV_ID v = candidate ∧ RV_PlanID v = planID ∧
      authorized st' planID = Some (grants v)
  | Err _ => st' = st
  end.
Proof.
  intros Hwf. unfold activateVersion.
  destruct (findPlan planID st) as [p|] eqn:Hf; [|intros [= <- <-]; split_and!; [done|apply history_refl|done..]].
  destruct (Z.eqb_spec (SP_CurrentRevisionID p) expected) as [Hcur|]; cbn [negb]; [|intros [= <- <-]; split_and!; [done|apply history_refl|done..]].
  case_bool_decide as Hcand; cbn [negb]; [|intros [= <- <-]; split_and!; [done|apply history_refl|done..]].
  destruct (_ && _); [intros [= <- <-]; split_and!; [done|apply history_refl|done..]|]. intros [= <- <-].
  apply fmap_Some in Hcand as (v & Hv & Hvp). apply findRevision_Some in Hv as [Hv Hvid]; [|done]. pose proof Hf as [Hp Hid]%findPlan_Some; [|done].
  set (f := λ p, withPointers _ candidate _ _ p). set (st1 := updatePlan planID f st).
  assert (wfStore st1) as Hwf1.
  { apply wf_updatePlan; [done|]. intros q Hq <-. simpl. split_and!; [done|by exists v|by apply (ws_latest _ Hwf)| |done].
    destruct (_ =? candidate); [by left|by apply (ws_pending _ Hwf)]. }
  assert (history st st1) as Hh by (intros w Hw; by exists w).
  pose proof (keeps_mapRevisions (activatedRevision candidate changeID ts) st1 Hwf1 (frozen_activated _ _ _)) as [Hwf2 Hh2 Ha2].
  split_and!; [exact Hwf2|exact (history_trans _ _ _ Hh Hh2)| |].
  - intros q Hq. etrans; [apply Ha2|]. apply authorized_kept; [done..| |].
    + intros p' (p0 & Hp0 & ->)%elem_of_updatePlan Hidq. exists p0. destruct (Z.eqb_spec (SP_ID p0) planID); [simpl in Hidq; congruence|].
      split_and!; [done..|by left].
    + intros p0 Hp0 Hidq. exists p0. split; [|done]. apply elem_of_updatePlan. exists p0. split; [done|].
      destruct (Z.eqb_spec (SP_ID p0) planID); [congruence|done].
  - exists p, v. split_and!; [done..|]. etrans; [apply Ha2|]. apply authorized_Some; [done|]. exists (f p), v. split_and!; [|done|done|done|done].
    apply elem_of_updatePlan. exists p. by rewrite Hid, Z.eqb_refl.
Qed.

(** *** Other plans are not touched *)

(** The row and the revisions of a plan are the same. *)
Record same (st st' : PlanStore) (q : Z) : Prop := {
  sm_row p : SP_ID p = q → p ∈ ps_plans st' ↔ p ∈ ps_plans st;
  sm_revision v : RV_PlanID v = q → v ∈ ps_revisions st' ↔ v ∈ ps_revisions st }.

Lemma same_refl st q : same st st q.
Proof. done. Qed.

Lemma same_trans st1 st2 st3 q : same st1 st2 q → same st2 st3 q → same st1 st3 q.
Proof. intros [H1 H2] [H3 H4]. split; [intros p Hp; by rewrite H3, H1|intros v Hv; by rewrite H4, H2]. Qed.

Lemma authorized_belongs st q a :
  wfStore st → authorized st q = Some a ↔
  ∃ p v, p ∈ ps_plans st ∧ SP_ID p = q ∧ v ∈ ps_revisions st ∧ RV_PlanID v = q ∧ RV_ID v = SP_CurrentRevisionID p ∧ a = grants v.
Proof.
  intros Hwf. rewrite authorized_Some by done. split; [|intros (p & v & ?); naive_solver].
  intros (p & v & Hp & Hid & Hv & Hc & ->). exists p, v. split_and!; try done.
  destruct (ws_current _ Hwf p Hp) as (w & Hw & Hidw & Hpw).
  assert (w = v) as -> by (eapply (NoDup_fmap_key RV_ID); [apply Hwf|done|done|congruence]). congruence.
Qed.

Lemma same_authorized st st' q : wfStore st → wfStore st' → same st st' q → authorized st' q = authorized st q.
Proof.
  intros Hwf Hwf' [Hr Hv]. apply option_eq. intros a. rewrite !authorized_belongs by done.
  split; intros (p & v & Hp & Hid & Hin & Hpv & Hc & ->); exists p, v; (split_and!; try done); by (apply Hr || apply Hv).
Qed.

Lemma same_updatePlan id f st q :
  q ≠ id → (∀ p, p ∈ ps_plans st → SP_ID p = id → SP_ID (f p) = id) → same st (updatePlan id f st) q.
Proof.
  intros Hne Hf. split; [|done]. intros p Hp. rewrite elem_of_updatePlan. split.
  - intros (p0 & Hp0 & ->). destruct (Z.eqb_spec (SP_ID p0) id) as [Heq|]; [|done]. rewrite Hf in Hp by done. done.
  - intros Hin. exists p. split; [done|]. destruct (Z.eqb_spec (SP_ID p) id); [congruence|done].
Qed.

Lemma same_mapRevisions f st q :
  (∀ v, v ∈ ps_revisions st → RV_PlanID (f v) = RV_PlanID v ∧ (RV_PlanID v = q → f v = v)) → same st (setRevisions (f <$> ps_revisions st) st) q.
Proof.
  intros Hf. split; [done|]. intros v Hv. simpl. rewrite list_elem_of_fmap. split.
  - intros (w & -> & Hw). destruct (Hf w Hw) as [Hp Hfix]. rewrite Hp in Hv. by rewrite Hfix.
  - intros Hin. exists v. split; [|done]. symmetry. by apply (Hf v).
Qed.

Lemma same_insertRevision planID status limits policy prov kind summary basedOn at_ nodes rules excl st v st' q :
  q ≠ planID → insertRevision planID status limits policy prov kind summary basedOn at_ nodes rules excl st = Ok (v, st') → same st st' q.
Proof.
  intros Hne (-> & _ & Hp & _)%insertRevision_Ok. split; [done|]. intros w Hw. simpl. rewrite elem_of_app, list_elem_of_singleton.
  split; [intros [?| ->]; [done|congruence]|auto].
Qed.

(** *** Creation and deletion of plans *)

(** A new plan with a revision that was inserted for it. *)
Lemma insertPlan_spec name description enabled status limits policy prov kind summary at_ nodes rules excl st v st1 :
  wfStore st → insertRevision (ps_nextPlan st) status limits policy prov kind summary 0 at_ nodes rules excl st = Ok (v, st1) →
  let st2 := insertPlan name description enabled v st1 in
  wfStore st2 ∧ history st st2 ∧ (∀ q, q ≠ ps_nextPlan st → authorized st2 q = authorized st q) ∧
  authorized st2 (ps_nextPlan st) = Some (grants v).
Proof.
  intros Hwf Hins. pose proof (keeps_insertRevision _ _ _ _ _ _ _ _ _ _ _ _ _ _ _ Hwf Hins) as [Hwf1 Hh1 Ha1].
  apply insertRevision_Ok in Hins as (-> & Hid & Hp & _). pose proof Hwf1 as [H1 H2 H3 H4 H5 H6 H7 H8 H9 H10 H11 H12].
  unfold insertPlan. cbn [ps_plans ps_revisions ps_changes ps_nextPlan ps_nextRevision].
  set (p := Build_PlanRow _ _ _ _ _ _ _ _ _ _). set (st2 := Build_PlanStore _ _ _ _ _). cbv zeta.
  assert (∀ q, q ∈ ps_plans st2 ↔ q ∈ ps_plans st ∨ q = p) as Hin by (intros q; simpl; by rewrite elem_of_app, list_elem_of_singleton).
  assert (v ∈ ps_revisions st2) as Hv by (simpl; apply elem_of_app; right; by apply list_elem_of_singleton).
  assert (belongs st2 (ps_nextPlan st) (RV_ID v)) as Hb by by exists v.
  assert (wfStore st2) as Hwf2.
  { split; try done.
    - simpl. rewrite fmap_app. apply NoDup_app. split_and!; [apply Hwf| |apply NoDup_singleton].
      intros id (q & -> & Hq)%list_elem_of_fmap Heq%list_elem_of_singleton. pose proof (ws_planIDs _ Hwf q Hq). simpl in Heq. lia.
    - intros q [Hq| ->]%Hin; simpl; [pose proof (ws_planIDs _ Hwf q Hq); lia|]. pose proof (ws_next _ Hwf). lia.
    - intros q [Hq| ->]%Hin; [by apply H8|done].
    - intros q [Hq| ->]%Hin; [by apply H9|done].
    - intros q [Hq| ->]%Hin; [by apply H10|by left].
    - intros q [Hq| ->]%Hin; [by apply H11|by left].
    - simpl in H12 |- *. lia. }
  split_and!; [done|by eapply history_trans; [exact Hh1|intros w Hw; by exists w]| |].
  - intros q Hq. rewrite <- Ha1. apply same_authorized; [done..|]. split; [|done]. intros p0 Hp0. rewrite Hin. split; [|auto].
    intros [?| ->]; [done|]. by subst q.
  - apply authorized_Some; [done|]. exists p, v. split_and!; try done. apply Hin. by right.
Qed.

Lemma CreateSubscriptionPlan_spec name description enabled limits nodes ts st r st' :
  wfStore st → CreateSubscriptionPlan name description enabled limits nodes ts st = (r, st') →
  wfStore st' ∧ history st st' ∧
  match r with
  | Ok planID => planID = ps_nextPlan st ∧ ∀ q, q ≠ planID → authorized st' q = authorized st q
  | Err _ => st' = st
  end.
Proof.
  intros Hwf. unfold CreateSubscriptionPlan. destruct (nameTaken _ _); [intros [= <- <-]; split_and!; [done|apply history_refl|done]|].
  destruct (insertRevision _ _ _ _ _ _ _ _ _ _ _ _ st) as [[v st1]|e] eqn:Hins; [|intros [= <- <-]; split_and!; [done|apply history_refl|done]].
  intros [= <- <-]. destruct (insertPlan_spec name description enabled _ _ _ _ _ _ _ _ _ _ _ _ _ Hwf Hins) as (? & ? & ? & _). auto.
Qed.

(** A clone authorizes what the plan it was made from does. *)
Lemma CloneSubscriptionPlan_spec id newName ts st r st' :
  wfStore st → CloneSubscriptionPlan id newName ts st = (r, st') →
  wfStore st' ∧ history st st' ∧
  match r with
  | Ok planID => planID = ps_nextPlan st ∧ (∀ q, q ≠ planID → authorized st' q = authorized st q) ∧ authorized st' planID = authorized st id
  | Err _ => st' = st
  end.
Proof.
  intros Hwf. unfold CloneSubscriptionPlan. assert (wfStore st ∧ history st st ∧ st = st) as Hsame by (split_and!; [done|apply history_refl|done]).
  destruct (findPlan id st) as [p|] eqn:Hp; [|by intros [= <- <-]]. destruct (_ =? 0); [by intros [= <- <-]|].
  destruct (findRevision (SP_CurrentRevisionID p) st) as [v|] eqn:Hv; [|by intros [= <- <-]].
  destruct (nameTaken _ _); [by intros [= <- <-]|].
  destruct (insertRevision _ _ _ _ _ _ _ _ _ _ _ _ st) as [[w st1]|e] eqn:Hins; [|by intros [= <- <-]]. intros [= <- <-].
  destruct (insertPlan_spec newName "" true _ _ _ _ _ _ _ _ _ _ _ _ _ Hwf Hins) as (? & ? & ? & Ha).
  apply insertRevision_Ok in Hins as (_ & _ & _ & Hl & Hn & _). apply findRevision_Some in Hv as Hv'; [|done]. destruct Hv' as [Hin _].
  split_and!; [done..|]. rewrite Ha. unfold authorized. rewrite Hp. cbn [mbind option_bind]. rewrite Hv. cbn [fmap option_fmap option_map].
  unfold grants. by rewrite Hl, Hn, (ws_limits _ Hwf v Hin).
Qed.

(** ** The draft *)

Notation nodeID n := (PN_NodeType n, PN_NodeID n).

Lemma sameNode_true a b : sameNode a b = true ↔ nodeID a = nodeID b.
Proof. unfold sameNode. rewrite andb_true_iff, String.eqb_eq, Z.eqb_eq. split; [intros [-> ->]; done|by intros [= -> ->]]. Qed.

Lemma existsb_sameNode pn l : existsb (sameNode pn) l = true ↔ nodeID pn ∈ (λ n, nodeID n) <$> l.
Proof.
  rewrite existsb_exists, list_elem_of_fmap. setoid_rewrite <- list_elem_of_In. setoid_rewrite sameNode_true.
  split; intros (x & H1 & H2); by exists x.
Qed.

Lemma refreshed_ids pn (rows : list PlanNode) : (λ n, nodeID n) <$> ((λ r, if sameNode pn r then refreshedNode pn r else r) <$> rows) = (λ n, nodeID n) <$> rows.
Proof. rewrite <- list_fmap_compose. apply list_fmap_ext. intros i r _. simpl. by destruct (sameNode pn r). Qed.

Lemma added_ids pn rows :
  existsb (sameNode pn) rows = false → NoDup ((λ n, nodeID n) <$> rows) → NoDup ((λ n, nodeID n) <$> (rows ++ [withSortPosition None pn])).
Proof.
  intros Hn Hnd. rewrite fmap_app. apply NoDup_app. split_and!; [done| |apply NoDup_singleton].
  intros x Hx ->%list_elem_of_singleton. change (nodeID pn ∈ (λ n, nodeID n) <$> rows) in Hx. apply existsb_sameNode in Hx. congruence.
Qed.

(** The rows of a draft keep their unique key. *)
Lemma draftNodes_unique op nodes rows rows' :
  draftNodes op nodes rows = Ok rows' → NoDup ((λ n, nodeID n) <$> rows) → NoDup ((λ n, nodeID n) <$> rows').
Proof.
  unfold draftNodes. destruct (_ =? "add")%string; [|destruct (_ =? "remove")%string; [|destruct (_ =? "replace")%string; [|done]]].
  - intros [= <-]. revert rows. induction nodes as [|pn nodes IH]; intros rows Hnd; [done|]. apply IH. unfold upsertDraftNode.
    destruct (existsb _ rows) eqn:He; [by rewrite refreshed_ids|by apply added_ids].
  - intros [= <-] Hnd. by apply NoDup_map_filter.
  - intros (l & Hl & [= <-])%rbind_ok Hnd. apply NoDup_map_filter.
    refine (foldM_inv (λ l, NoDup ((λ n, nodeID n) <$> l)) _ _ _ _ _ Hnd Hl).
    intros pn l1 l2 _ IH Hstep. unfold replaceDraftNode in Hstep.
    destruct (existsb _ rows); [injection Hstep as <-; by rewrite refreshed_ids|].
    destruct (existsb _ l1) eqn:He; [done|]. injection Hstep as <-. by apply added_ids.
Qed.

Lemma insertable_nodes nodes nodes' rules excl :
  insertable nodes rules excl = true → NoDup ((λ n, nodeID n) <$> nodes') → insertable nodes' rules excl = true.
Proof.
  unfold insertable. rewrite !andb_true_iff. intros [[_ ?] ?] Hnd. split_and!; [by apply bool_decide_eq_true_2|done..].
Qed.

Lemma authorized_pointers f id st q :
  wfStore (updatePlan id f st) → wfStore st →
  (∀ p, SP_ID (f p) = SP_ID p ∧ SP_CurrentRevisionID (f p) = SP_CurrentRevisionID p) → authorized (updatePlan id f st) q = authorized st q.
Proof.
  intros Hwf' Hwf Hf. apply authorized_kept; [done..|intros v Hv; by exists v| |].
  - intros p' (p & Hp & ->)%elem_of_updatePlan Hid. exists p. destruct (_ =? id); [|by split_and!; [..|left]].
    destruct (Hf p) as [Hf1 Hf2]. split_and!; [done|congruence|by left].
  - intros p Hp Hid. eexists. split; [apply elem_of_updatePlan; by exists p|]. destruct (_ =? id); [|done]. destruct (Hf p). congruence.
Qed.

(** A draft pointer that is set to a revision of its plan. *)
Lemma ensurePlanDraftTx_spec planID st id st' :
  wfStore st → ensurePlanDraftTx planID st = Ok (id, st') →
  wfStore st' ∧ (∀ q, authorized st' q = authorized st q) ∧ belongs st' planID id ∧
  ps_nextPlan st' = ps_nextPlan st ∧ (SP_ID <$> ps_plans st') = (SP_ID <$> ps_plans st).
Proof.
  intros Hwf. unfold ensurePlanDraftTx. destruct (findPlan planID st) as [p|] eqn:Hp; [|done]. apply findPlan_Some in Hp as [Hp Hid]; [|done].
  destruct (Z.eqb_spec (SP_DraftRevisionID p) 0) as [H0|H0]; cbn [negb].
  - intros ([[[[[limits policy] prov] nodes] rules] excl] & _ & Hrun)%rbind_ok. apply rbind_ok in Hrun as ([v st1] & Hins & Hrun).
    injection Hrun as <- <-. pose proof (keeps_insertRevision _ _ _ _ _ _ _ _ _ _ _ _ _ _ _ Hwf Hins) as [Hwf1 _ Ha1].
    apply insertRevision_Ok in Hins as (Hst1 & _ & Hvp & _).
    assert (belongs st1 planID (RV_ID v)) as Hb.
    { exists v. split_and!; [|done|done]. rewrite Hst1. simpl. apply elem_of_app. right. by apply list_elem_of_singleton. }
    assert (wfStore (updatePlan planID (withDraft (RV_ID v)) st1)) as Hwf2.
    { apply wf_updateRow; [done|]. intros p0 Hp0 <-. simpl. split_and!; [done|by apply (ws_current _ Hwf1)|by apply (ws_latest _ Hwf1)|by apply (ws_pending _ Hwf1)|by right]. }
    split_and!; [done| |done|by rewrite Hst1|].
    + intros q. rewrite <- Ha1. by apply authorized_pointers.
    + rewrite Hst1. simpl. rewrite <- list_fmap_compose. apply list_fmap_ext. intros i p0 _. simpl. by destruct (_ =? planID).
  - intros [= <- <-]. split_and!; try done. destruct (ws_draft _ Hwf p Hp) as [|Hb]; [done|]. by rewrite Hid in Hb.
Qed.

(** Rewriting revisions other than the current one of a plan. *)
Lemma authorized_mapRevisions f st q :
  (∀ v, RV_ID (f v) = RV_ID v) → (∀ p v, findPlan q st = Some p → v ∈ ps_revisions st → RV_ID v = SP_CurrentRevisionID p → f v = v) →
  authorized (setRevisions (f <$> ps_revisions st) st) q = authorized st q.
Proof.
  intros Hid Hf. unfold authorized. change (findPlan q (setRevisions _ st)) with (findPlan q st). destruct (findPlan q st) as [p|]; [|done].
  cbn [mbind option_bind]. f_equal. specialize (Hf p). unfold findRevision. cbn [ps_revisions setRevisions].
  induction (ps_revisions st) as [|v l IH]; [done|]. rewrite fmap_cons. cbn [List.find]. rewrite Hid.
  destruct (Z.eqb_spec (RV_ID v) (SP_CurrentRevisionID p)) as [He|He].
  - rewrite (Hf v); [done|done|by constructor|done].
  - apply IH. intros w Hp Hw. apply Hf; [done|by constructor].
Qed.

(** The plan edits its draft, and the draft is the revision that is current. *)
Definition draftIsCurrent (planID : Z) (st : PlanStore) : bool :=
  match findPlan planID st with Some p => SP_DraftRevisionID p =? SP_CurrentRevisionID p | None => false end.

(** The draft of a plan whose current revision is another one is another one. *)
Lemma ensurePlanDraftTx_other planID st id st' p :
  wfStore st → ensurePlanDraftTx planID st = Ok (id, st') → draftIsCurrent planID st = false → findPlan planID st' = Some p → SP_CurrentRevisionID p ≠ id.
Proof.
  intros Hwf He Hd Hp. destruct (ensurePlanDraftTx_spec planID st id st' Hwf He) as (Hwf' & _). revert He Hd. unfold ensurePlanDraftTx, draftIsCurrent.
  destruct (findPlan planID st) as [p0|] eqn:Hp0; [|done]. destruct (Z.eqb_spec (SP_DraftRevisionID p0) 0) as [H0|H0]; cbn [negb].
  - intros ([[[[[limits policy] prov] nodes] rules] excl] & _ & Hrun)%rbind_ok _. apply rbind_ok in Hrun as ([v st1] & Hins & Hrun).
    injection Hrun as <- <-. apply insertRevision_Ok in Hins as (Hst1 & Hid & _). apply findPlan_Some in Hp as [Hin _]; [|done].
    apply elem_of_updatePlan in Hin as (q & Hq & ->). rewrite Hst1 in Hq. simpl in Hq. destruct (ws_current _ Hwf q Hq) as (w & Hw & Hwid & _).
    pose proof (ws_revisionIDs _ Hwf w Hw). destruct (_ =? planID); simpl; lia.
  - intros [= <- <-]. rewrite Hp0 in Hp. injection Hp as <-. rewrite Z.eqb_neq. auto.
Qed.

(** Synchronizing a draft keeps the invariant and what every plan authorizes, unless the draft
    has become the current revision. *)
Lemma SyncPlanDraftNodes_spec planID expected nodes op st r st' :
  wfStore st → SyncPlanDraftNodes planID expected nodes op st = (r, st') →
  wfStore st' ∧ (∀ q, q ≠ planID ∨ draftIsCurrent planID st = false → authorized st' q = authorized st q) ∧
  ps_nextPlan st' = ps_nextPlan st ∧ (SP_ID <$> ps_plans st') = (SP_ID <$> ps_plans st).
Proof.
  intros Hwf. unfold SyncPlanDraftNodes. destruct (syncDraft planID expected nodes op st) as [st2|e] eqn:Hs; intros [= <- <-]; [|done].
  unfold syncDraft in Hs. apply rbind_ok in Hs as ([] & _ & Hs). apply rbind_ok in Hs as ([draftID st1] & He & Hs).
  destruct (ensurePlanDraftTx_spec _ _ _ _ Hwf He) as (Hwf1 & Ha1 & (v & Hv & Hvid & Hvp) & Hn1 & Hids1).
  apply rbind_ok in Hs as (rows & Hrows & [= <-]). set (st3 := setRevisions _ st1).
  assert (∀ w, w ∈ ps_revisions st1 → RV_ID w = draftID → w = v) as Huniq by (intros w Hw Hwid; eapply (NoDup_fmap_key RV_ID); [apply Hwf1|done|done|congruence]).
  assert (revisionNodes draftID st1 = RV_Nodes v) as Hnodes.
  { unfold revisionNodes. rewrite (proj2 (findRevision_Some st1 draftID v Hwf1)); done. }
  rewrite Hnodes in Hrows. pose proof (ws_rows _ Hwf1 v Hv) as Hins. assert (NoDup ((λ n, nodeID n) <$> rows)) as Hnd.
  { eapply draftNodes_unique; [done|]. unfold insertable in Hins. rewrite !andb_true_iff, bool_decide_eq_true in Hins. tauto. }
  assert (wfStore st3) as Hwf3.
  { apply wf_mapRevisions; [done|intros w; unfold withRevisionNodes; by destruct (_ =? draftID)|]. intros w Hw. unfold withRevisionNodes.
    destruct (Z.eqb_spec (RV_ID w) draftID) as [Heq|]; [|by apply (ws_rows _ Hwf1)]. rewrite (Huniq w Hw Heq). simpl. by eapply insertable_nodes. }
  assert (wfStore (updatePlan planID nextRevision st3)) as Hwf4.
  { apply wf_updatePlan; [done|]. intros p Hp <-. simpl. split_and!; [done|by apply (ws_current _ Hwf3)|by apply (ws_latest _ Hwf3)|by apply (ws_pending _ Hwf3)|done]. }
  split_and!; [done| |done|].
  - intros q Hq. rewrite (authorized_pointers nextRevision) by done. rewrite <- Ha1. apply authorized_mapRevisions.
    { intros w. unfold withRevisionNodes. by destruct (_ =? draftID). }
    intros p w Hp Hw Hc. unfold withRevisionNodes. destruct (Z.eqb_spec (RV_ID w) draftID) as [Heq|]; [|done]. exfalso.
    destruct (decide (q = planID)) as [->|Hne].
    + destruct Hq as [?|Hq]; [done|]. apply (ensurePlanDraftTx_other _ _ _ _ _ Hwf He Hq Hp). congruence.
    + apply findPlan_Some in Hp as [Hp Hid]; [|done]. destruct (ws_current _ Hwf1 p Hp) as (w' & Hw' & Hwid' & Hwp').
      rewrite (Huniq w Hw Heq) in *. assert (w' = v) as -> by (apply Huniq; [done|congruence]). congruence.
  - rewrite <- Hids1. simpl. rewrite <- list_fmap_compose. apply list_fmap_ext. intros i p0 _. simpl. by destruct (_ =? planID).
Qed.

Lemma keeps_enabled id enabled st : wfStore st → keeps st (SetSubscriptionPlanEnabled id enabled st).
Proof. intros Hwf. apply keeps_pointers; [done|]. intros p Hp. simpl. auto 8. Qed.

Lemma keeps_activationChange planID revisionID changeID st :
  wfStore st → keeps st (SetPlanRevisionActivationChange planID revisionID changeID st).2.
Proof.
  intros Hwf. unfold SetPlanRevisionActivationChange. destruct (existsb _ _); [|by apply keeps_refl]. apply keeps_mapRevisions; [done|].
  intros v. unfold withActivationChange. by destruct (_ && _).
Qed.

Lemma goneRevision_true planID st id : goneRevision planID st id = true ↔ belongs st planID id.
Proof.
  unfold goneRevision, belongs. rewrite List.existsb_exists. setoid_rewrite <- list_elem_of_In. setoid_rewrite andb_true_iff.
  setoid_rewrite Z.eqb_eq. naive_solver.
Qed.

Lemma keptPointer_other planID st q id : wfStore st → q ≠ planID → belongs st q id → keptPointer planID st id = id.
Proof.
  intros Hwf Hq (v & Hv & <- & Hvq). unfold keptPointer. destruct (goneRevision _ _ _) eqn:Hg; [|done].
  apply goneRevision_true in Hg as (w & Hw & Hid & Hwp). assert (w = v) as -> by (by eapply (NoDup_fmap_key RV_ID); [apply Hwf|..]). congruence.
Qed.

Lemma elem_of_deletePlan planID changeID st :
  (∀ v, v ∈ ps_revisions (deletePlan planID changeID st) ↔ v ∈ ps_revisions st ∧ RV_PlanID v ≠ planID) ∧
  (∀ p, p ∈ ps_plans (deletePlan planID changeID st) ↔ ∃ p0, p0 ∈ ps_plans st ∧ SP_ID p0 ≠ planID ∧ p = keptRow planID st p0).
Proof.
  split; simpl.
  - intros v. by rewrite list_elem_of_In, List.filter_In, <- list_elem_of_In, negb_true_iff, Z.eqb_neq.
  - intros p. rewrite list_elem_of_fmap. setoid_rewrite list_elem_of_In. setoid_rewrite List.filter_In. setoid_rewrite negb_true_iff.
    setoid_rewrite Z.eqb_neq. naive_solver.
Qed.

Lemma wf_deletePlan planID changeID st : wfStore st → wfStore (deletePlan planID changeID st).
Proof.
  intros Hwf. pose proof Hwf as [H1 H2 H3 H4 H5 H6 H7 H8 H9 H10 H11 H12]. destruct (elem_of_deletePlan planID changeID st) as [Hrev Hin].
  assert (∀ q id, q ≠ planID → belongs st q id → belongs (deletePlan planID changeID st) q (keptPointer planID st id)) as Hptr.
  { intros q id Hq Hb. rewrite (keptPointer_other _ _ q) by done. destruct Hb as (v & Hv & <- & Hvq). exists v. rewrite Hrev. split_and!; [done|congruence|done|done]. }
  split.
  - simpl. rewrite <- list_fmap_compose. by apply (NoDup_map_filter SP_ID).
  - intros p (p0 & Hp0 & _ & ->)%Hin. exact (H2 p0 Hp0).
  - by apply NoDup_map_filter.
  - intros v [Hv _]%Hrev. exact (H4 v Hv).
  - by apply NoDup_map_filter.
  - intros v [Hv _]%Hrev. by apply H6.
  - intros v [Hv _]%Hrev. by apply H7.
  - intros p (p0 & Hp0 & Hne & ->)%Hin. apply (Hptr (SP_ID p0)); [done|by apply H8].
  - intros p (p0 & Hp0 & Hne & ->)%Hin. apply (Hptr (SP_ID p0)); [done|by apply H9].
  - intros p (p0 & Hp0 & Hne & ->)%Hin. simpl. unfold keptPointer. destruct (goneRevision _ _ _) eqn:Hg; [by left|].
    destruct (H10 p0 Hp0) as [|(v & Hv & Hid)]; [by left|]. right. exists v. split; [|done]. apply Hrev. split; [done|]. intros Heq.
    rewrite (proj2 (goneRevision_true planID st _)) in Hg; [done|by exists v].
  - intros p (p0 & Hp0 & Hne & ->)%Hin. destruct (H11 p0 Hp0) as [H0|Hb]; [left|right; by apply (Hptr (SP_ID p0))].
    simpl. rewrite H0. unfold keptPointer. by destruct (goneRevision _ _ 0).
  - done.
Qed.

Lemma deletePlan_spec planID changeID st q : wfStore st → q ≠ planID → authorized (deletePlan planID changeID st) q = authorized st q.
Proof.
  intros Hwf Hq. pose proof (wf_deletePlan planID changeID st Hwf). destruct (elem_of_deletePlan planID changeID st) as [Hrev Hin].
  apply option_eq. intros a. rewrite !authorized_belongs by done. split.
  - intros (p & v & (p0 & Hp0 & Hne & ->)%Hin & <- & [Hv Hvp]%Hrev & Hvq & Hc & ->). exists p0, v. split_and!; try done.
    simpl in Hc. unfold keptPointer in Hc. destruct (goneRevision _ _ _); [|done]. pose proof (ws_revisionIDs _ Hwf v Hv). lia.
  - intros (p & v & Hp & <- & Hv & Hvq & Hc & ->). exists (keptRow planID st p), v. split_and!; try done.
    + apply Hin. eauto.
    + apply Hrev. split; [done|congruence].
    + simpl. rewrite (keptPointer_other _ _ (SP_ID p)); [done..|]. by exists v.
Qed.
End safety.
