(* ===== verification/PlanNodeRemoval.v ===== *)
(** * Removing a node from the plans ([removeAssignableNodeFromPlansTx] of [internal/store/plans.go])

    The removal succeeds unless an affected plan is being applied.  Afterwards every plan
    authorizes what it did without the node, and no revision a plan points to holds it. *)

From S2P Require Import Prelude Model NodeKeys AccessSnapshot SubscriptionOrder Prog AccessChanges PlanVersions PlanVersionSafety.

Local Open Scope Z_scope.

Section removal.
Context {Cod : PlanCodec} {M : MapRange string PlanNode}.
Context (nodeType : string) (ids : list Z).

Notation kept := (keptNodes nodeType ids).
Notation holds := (holdsNode nodeType ids).

(** ** Nodes *)

Lemma kept_clean l : existsb (removedNode nodeType ids) l = false → kept l = l.
Proof.
  induction l as [|n l IH]; [done|]. simpl. intros [Hn Hl]%orb_false_iff. rewrite Hn. simpl. by rewrite IH.
Qed.

Lemma clean_kept l : existsb (removedNode nodeType ids) (kept l) = false.
Proof. induction l as [|n l IH]; [done|]. simpl. destruct (removedNode nodeType ids n) eqn:Hn; [done|]. simpl. by rewrite Hn. Qed.

Lemma kept_length l : length (kept l) = length l → existsb (removedNode nodeType ids) l = false.
Proof.
  induction l as [|n l IH]; [done|]. simpl. pose proof (List.filter_length_le (λ n, negb (removedNode nodeType ids n)) l) as Hle.
  fold (kept l) in Hle. destruct (removedNode nodeType ids n); simpl; [lia|]. intros [= Heq]. auto.
Qed.

Lemma kept_perm l l' : l ≡ₚ l' → kept l ≡ₚ kept l'.
Proof.
  induction 1 as [|n l l' _ IH|n n' l|l l' l'' _ IH1 _ IH2]; simpl; [done| | |by etrans].
  - by destruct (negb _); [constructor|].
  - destruct (negb (removedNode nodeType ids n)), (negb (removedNode nodeType ids n')); try done. constructor.
Qed.

Lemma NoDup_perm_fmap {A B} (f : A → B) l l' : l ≡ₚ l' → NoDup (f <$> l) → NoDup (f <$> l').
Proof. intros Hp. by rewrite Hp. Qed.

Lemma insertable_kept nodes rules excl :
  insertable nodes rules excl = true → insertable (kept nodes) rules (keptExclusions nodeType ids excl) = true.
Proof.
  unfold insertable. rewrite !andb_true_iff, !bool_decide_eq_true. intros [[H1 H2] H3]. split_and!; [by apply NoDup_map_filter|done|by apply NoDup_map_filter].
Qed.

Lemma insertable_sorted v :
  insertable (RV_Nodes v) (RV_Rules v) (RV_Exclusions v) = true →
  insertable (VC_Nodes (contentOf v)) (VC_Rules (contentOf v)) (VC_Exclusions (contentOf v)) = true.
Proof.
  unfold insertable. simpl. rewrite !andb_true_iff, !bool_decide_eq_true. intros [[H1 H2] H3].
  split_and!; (eapply NoDup_perm_fmap; [symmetry; apply sort_slice_perm|done]).
Qed.

Lemma insertable_explicit nodes rules excl : insertable (explicitSource <$> nodes) rules excl = insertable nodes rules excl.
Proof. unfold insertable. by rewrite <- list_fmap_compose. Qed.

(** ** What is authorized without the node *)

Definition trimmed (st : PlanStore) (planID : Z) : option (PlanLimits * gset string) :=
  findPlan planID st ≫= λ p, (λ v, (RV_Limits v, list_to_set (nodeKey <$> kept (RV_Nodes v)))) <$> findRevision (SP_CurrentRevisionID p) st.

Lemma holds_true st id : wfStore st → holds id st = true ↔ ∃ v, v ∈ ps_revisions st ∧ RV_ID v = id ∧ existsb (removedNode nodeType ids) (RV_Nodes v) = true.
Proof.
  intros Hwf. unfold holdsNode. split.
  - destruct (findRevision id st) as [v|] eqn:Hf; [|done]. apply findRevision_Some in Hf as [? ?]; [|done]. eauto.
  - intros (v & Hv & Hid & Hr). by rewrite (proj2 (findRevision_Some st id v Hwf) (conj Hv Hid)).
Qed.

Lemma holds_0 st : wfStore st → holds 0 st = false.
Proof.
  intros Hwf. apply not_true_iff_false. rewrite holds_true by done. intros (v & Hv & Hid & _). pose proof (ws_revisionIDs _ Hwf v Hv). lia.
Qed.

Lemma trimmed_clean st q p : wfStore st → findPlan q st = Some p → holds (SP_CurrentRevisionID p) st = false → trimmed st q = authorized st q.
Proof.
  intros Hwf Hp Hc. unfold trimmed, authorized. rewrite Hp. simpl. unfold holdsNode in Hc.
  destruct (findRevision _ st) as [v|]; [|done]. simpl. by rewrite kept_clean.
Qed.

(** No revision gains the node. *)
Definition fewer (st st' : PlanStore) : Prop := ∀ id, holds id st' = true → holds id st = true.

Lemma fewer_false st st' id : fewer st st' → holds id st = false → holds id st' = false.
Proof. intros Hf Hn. apply not_true_iff_false. intros Ht%Hf. congruence. Qed.

Lemma fewer_revisions st st' :
  wfStore st → wfStore st' →
  (∀ v', v' ∈ ps_revisions st' → existsb (removedNode nodeType ids) (RV_Nodes v') = true →
    ∃ v, v ∈ ps_revisions st ∧ RV_ID v = RV_ID v' ∧ existsb (removedNode nodeType ids) (RV_Nodes v) = true) → fewer st st'.
Proof. intros Hwf Hwf' Hall id. rewrite !holds_true by done. intros (v' & Hv' & <- & Hr). by apply Hall. Qed.

(** ** The steps of a removal *)

Lemma same_lookup st st' q :
  wfStore st → wfStore st' → same st st' q →
  findPlan q st' = findPlan q st ∧ ∀ id, id = 0 ∨ belongs st q id → findRevision id st' = findRevision id st.
Proof.
  intros Hwf Hwf' [Hrow Hrev]. split.
  - apply option_eq. intros p. rewrite !findPlan_Some by done. split; intros [Hp Hid]; (split; [by apply (Hrow p)|done]).
  - intros id [->|(v & Hv & <- & Hq)].
    + apply option_eq. intros v. rewrite !findRevision_Some by done.
      split; intros [Hv Hid]; [pose proof (ws_revisionIDs _ Hwf' v Hv)|pose proof (ws_revisionIDs _ Hwf v Hv)]; lia.
    + rewrite (proj2 (findRevision_Some st _ v Hwf) (conj Hv eq_refl)). apply findRevision_Some; [done|]. split; [by apply (Hrev v)|done].
Qed.

Lemma same_trimmed st st' q : wfStore st → wfStore st' → same st st' q → trimmed st' q = trimmed st q.
Proof.
  intros Hwf Hwf' Hs. destruct (same_lookup _ _ _ Hwf Hwf' Hs) as [Hp Hr]. unfold trimmed. rewrite Hp.
  destruct (findPlan q st) as [p|] eqn:Hf; [|done]. simpl. apply findPlan_Some in Hf as [Hin <-]; [|done]. rewrite Hr; [done|]. right. by apply (ws_current _ Hwf).
Qed.

(** A step changes one plan and adds the node to no revision. *)
Record removalStep (planID : Z) (st st' : PlanStore) : Prop := {
  rs_wf : wfStore st';
  rs_same q : q ≠ planID → same st st' q;
  rs_fewer : fewer st st';
  rs_belongs q id : belongs st q id → belongs st' q id }.

Lemma removalStep_refl planID st : wfStore st → removalStep planID st st.
Proof. intros Hwf. split; [done|intros; apply same_refl|by intros id|done]. Qed.

Lemma removalStep_trans planID st1 st2 st3 : removalStep planID st1 st2 → removalStep planID st2 st3 → removalStep planID st1 st3.
Proof.
  intros [_ Hs1 Hf1 Hb1] [Hwf Hs2 Hf2 Hb2]. split; [done| |by intros id ?%Hf2%Hf1|auto]. intros q Hq. eapply same_trans; eauto.
Qed.

Lemma removalStep_update planID f st :
  wfStore st → wfStore (updatePlan planID f st) → (∀ p, p ∈ ps_plans st → SP_ID p = planID → SP_ID (f p) = planID) →
  removalStep planID st (updatePlan planID f st).
Proof. intros Hwf Hwf' Hf. split; [done|intros q Hq; by apply same_updatePlan|by intros id|done]. Qed.

Lemma findPlan_update st planID f p :
  wfStore (updatePlan planID f st) → p ∈ ps_plans st → SP_ID p = planID → SP_ID (f p) = planID → findPlan planID (updatePlan planID f st) = Some (f p).
Proof.
  intros Hwf Hp Hid Hid'. apply findPlan_Some; [done|]. split; [|done]. apply elem_of_updatePlan. exists p. split; [done|]. by rewrite Hid, Z.eqb_refl.
Qed.

Lemma belongs_map f st q id :
  (∀ v, identity (f v) = identity v) → belongs st q id → belongs (setRevisions (f <$> ps_revisions st) st) q id.
Proof.
  intros Hf (v & Hv & <- & <-). destruct (identity_eq _ _ (Hf v)) as (? & ? & _). exists (f v). split; [by apply list_elem_of_fmap_2|done].
Qed.

(** *** Pruning in place *)

Lemma prunedRevision_parts id v :
  identity (prunedRevision nodeType ids id v) = identity v ∧ RV_Rules (prunedRevision nodeType ids id v) = RV_Rules v ∧
  (existsb (removedNode nodeType ids) (RV_Nodes v) = false → RV_Nodes (prunedRevision nodeType ids id v) = RV_Nodes v).
Proof. unfold prunedRevision. destruct (_ =? _); simpl; split_and!; try done. apply kept_clean. Qed.

Lemma wf_pruned id st : wfStore st → wfStore (setRevisions (prunedRevision nodeType ids id <$> ps_revisions st) st).
Proof.
  intros Hwf. apply wf_mapRevisions; [done|intros v; apply prunedRevision_parts|]. intros v Hv. pose proof (ws_rows _ Hwf v Hv).
  unfold prunedRevision. destruct (_ =? _); simpl; [by apply insertable_kept|done].
Qed.

Lemma findRevision_pruned id st k :
  wfStore st → findRevision k (setRevisions (prunedRevision nodeType ids id <$> ps_revisions st) st) = prunedRevision nodeType ids id <$> findRevision k st.
Proof.
  intros Hwf. pose proof (wf_pruned id st Hwf) as Hwf'. apply option_eq. intros w.
  assert (∀ v, RV_ID (prunedRevision nodeType ids id v) = RV_ID v) as Hid by (intros v; by destruct (prunedRevision_parts id v) as [[= ->] _]).
  rewrite fmap_Some. setoid_rewrite findRevision_Some; [|done|done]. simpl. rewrite list_elem_of_fmap. split.
  - intros [(v & -> & Hv) Hk]. exists v. by rewrite Hid in Hk.
  - intros (v & [Hv Hk] & ->). rewrite Hid. eauto.
Qed.

Lemma prune_step planID currentID id pruned st :
  wfStore st → id = 0 ∨ belongs st planID id →
  ∃ pruned' st', prunePlanRevisionNodesTx nodeType ids currentID id (pruned, st) = (pruned', st') ∧ removalStep planID st st' ∧ ps_plans st' = ps_plans st ∧
    (id ≠ currentID → holds id st' = false) ∧
    (∀ k v, findRevision k st = Some v → holds k st = false → ∃ v', findRevision k st' = Some v' ∧ grants v' = grants v).
Proof.
  intros Hwf Hb. unfold prunePlanRevisionNodesTx. destruct ((id =? 0) || (id =? currentID)) eqn:Hskip.
  - exists pruned, st. split_and!; [done|by apply removalStep_refl|done| |eauto]. intros Hne.
    apply orb_true_iff in Hskip as [->%Z.eqb_eq|?%Z.eqb_eq]; [by apply holds_0|done].
  - apply orb_false_iff in Hskip as [H0%Z.eqb_neq _]. destruct Hb as [?|(v & Hv & <- & Hp)]; [done|].
    set (st' := setRevisions _ _). assert (wfStore st') as Hwf' by by apply wf_pruned.
    assert (∀ k, findRevision k st' = prunedRevision nodeType ids (RV_ID v) <$> findRevision k st) as Hfr by (intros k; by apply findRevision_pruned).
    eexists _, st'. split_and!; [done| |done| |].
    + split; [done| | |intros q k; apply belongs_map; intros w; apply prunedRevision_parts].
      * intros q Hq. apply same_mapRevisions. intros w Hw. split; [by destruct (prunedRevision_parts (RV_ID v) w) as [[= _ -> _ _] _]|].
        intros Hwq. unfold prunedRevision. destruct (Z.eqb_spec (RV_ID w) (RV_ID v)) as [Heq|]; [|done].
        assert (w = v) as -> by (by eapply (NoDup_fmap_key RV_ID); [apply Hwf|..]). congruence.
      * intros k. unfold holdsNode. rewrite Hfr. destruct (findRevision k st) as [w|]; [|done]. simpl.
        unfold prunedRevision. destruct (_ =? _); [|done]. simpl. by rewrite clean_kept.
    + intros _. unfold holdsNode. rewrite Hfr, (proj2 (findRevision_Some st _ v Hwf) (conj Hv eq_refl)). simpl.
      unfold prunedRevision. rewrite Z.eqb_refl. simpl. apply clean_kept.
    + intros k w Hf Hc. unfold holdsNode in Hc. rewrite Hf in Hc. exists (prunedRevision nodeType ids (RV_ID v) w).
      rewrite Hfr, Hf. split; [done|]. destruct (prunedRevision_parts (RV_ID v) w) as ([= _ _ _ Hl] & _ & Hn).
      unfold grants. by rewrite Hl, Hn.
Qed.

(** *** Replacing the current revision *)

Lemma insertRevision_total planID status limits policy prov kind summary basedOn at_ nodes rules excl st :
  insertable nodes rules excl = true →
  ∃ v st', insertRevision planID status limits policy prov kind summary basedOn at_ nodes rules excl st = Ok (v, st').
Proof. intros Hins. unfold insertRevision. rewrite Hins. cbn [negb]. eauto. Qed.

Lemma removalStep_insert planID status limits policy prov kind summary basedOn at_ nodes rules excl st v st' :
  wfStore st → insertRevision planID status limits policy prov kind summary basedOn at_ nodes rules excl st = Ok (v, st') →
  existsb (removedNode nodeType ids) nodes = false → removalStep planID st st'.
Proof.
  intros Hwf Hins Hc. pose proof (wf_insertRevision _ _ _ _ _ _ _ _ _ _ _ _ _ _ _ Hwf Hins) as Hwf'.
  split; [done|intros q Hq; by eapply same_insertRevision| |]; apply insertRevision_Ok in Hins as (-> & _ & _ & _ & Hn & _).
  - apply fewer_revisions; [done..|]. simpl. intros w [Hw| ->%list_elem_of_singleton]%elem_of_app Hr; [eauto|congruence].
  - intros q id (w & Hw & ? & ?). exists w. split; [simpl; apply elem_of_app; by left|done].
Qed.

Lemma removalStep_archived planID st : wfStore st → removalStep planID st (setRevisions (archived planID <$> ps_revisions st) st).
Proof.
  intros Hwf. pose proof (kp_wf _ _ (keeps_mapRevisions _ _ Hwf (frozen_archived planID))) as Hwf'. split; [done| | |].
  - intros q Hq. apply same_mapRevisions. intros v _. unfold archived. destruct (Z.eqb_spec (RV_PlanID v) planID); [|done].
    split; [by destruct (_ =? _)%string|]. intros ?. congruence.
  - apply fewer_revisions; [done..|]. simpl. intros v' (v & -> & Hv)%list_elem_of_fmap. unfold archived. destruct (_ && _); eauto.
  - intros q id. apply belongs_map. intros v. apply (frozen_parts _ _ (frozen_archived planID v)).
Qed.

Lemma existsb_explicit nodes : existsb (removedNode nodeType ids) (explicitSource <$> nodes) = existsb (removedNode nodeType ids) nodes.
Proof. induction nodes as [|n nodes IH]; [done|]. rewrite fmap_cons. cbn [existsb]. by rewrite IH. Qed.

Lemma load_current st p :
  wfStore st → p ∈ ps_plans st →
  ∃ v, findRevision (SP_CurrentRevisionID p) st = Some v ∧ v ∈ ps_revisions st ∧ loadPlanRevisionSnapshotTx (SP_ID p) (SP_CurrentRevisionID p) st = Ok (contentOf v).
Proof.
  intros Hwf Hp. destruct (ws_current _ Hwf p Hp) as (v & Hv & Hid & Hq).
  pose proof (proj2 (findRevision_Some st _ v Hwf) (conj Hv Hid)) as Hf. exists v. unfold loadPlanRevisionSnapshotTx. by rewrite Hf, Hq, Z.eqb_refl.
Qed.

(** The pointers of a plan once its current revision is free of the node. *)
Definition movedPointers (p p' : PlanRow) : Prop :=
  SP_DraftRevisionID p' = SP_DraftRevisionID p ∧ SP_PendingRevisionID p' = SP_PendingRevisionID p ∧
  (SP_LatestRevisionID p' = SP_CurrentRevisionID p' ∨ SP_LatestRevisionID p' = SP_LatestRevisionID p ∧ SP_LatestRevisionID p ≠ SP_CurrentRevisionID p).

Lemma replaceCurrent_unchanged p st :
  wfStore st → p ∈ ps_plans st → holds (SP_CurrentRevisionID p) st = false →
  removalStep (SP_ID p) st st ∧ findPlan (SP_ID p) st = Some p ∧ authorized st (SP_ID p) = trimmed st (SP_ID p) ∧ movedPointers p p.
Proof.
  intros Hwf Hp Hc. assert (findPlan (SP_ID p) st = Some p) as Hf by (by apply findPlan_Some).
  split_and!; [by apply removalStep_refl|done|by erewrite trimmed_clean|]. unfold movedPointers. split_and!; [done..|].
  destruct (Z.eq_dec (SP_LatestRevisionID p) (SP_CurrentRevisionID p)); auto.
Qed.

Lemma replaceCurrent_spec ts p st :
  wfStore st → p ∈ ps_plans st →
  ∃ changed st' p', replaceCurrent nodeType ids ts p st = Ok (changed, st') ∧ removalStep (SP_ID p) st st' ∧
    findPlan (SP_ID p) st' = Some p' ∧ authorized st' (SP_ID p) = trimmed st (SP_ID p) ∧ movedPointers p p' ∧ holds (SP_CurrentRevisionID p') st' = false.
Proof.
  intros Hwf Hp. unfold replaceCurrent. destruct (Z.eqb_spec (SP_CurrentRevisionID p) 0) as [H0|H0].
  { assert (holds (SP_CurrentRevisionID p) st = false) as Hc by (rewrite H0; by apply holds_0).
    exists false, st, p. destruct (replaceCurrent_unchanged p st Hwf Hp Hc) as (? & ? & ? & ?). done. }
  destruct (load_current st p Hwf Hp) as (v & Hfv & Hv & Hl). rewrite Hl. cbn [rbind].
  destruct (Nat.eqb_spec (length (kept (VC_Nodes (contentOf v)))) (length (VC_Nodes (contentOf v)))) as [Hlen|_].
  { assert (holds (SP_CurrentRevisionID p) st = false) as Hc.
    { unfold holdsNode. rewrite Hfv. apply kept_length in Hlen. rewrite <- Hlen. symmetry. apply existsb_perm. apply sort_slice_perm. }
    exists false, st, p. destruct (replaceCurrent_unchanged p st Hwf Hp Hc) as (? & ? & ? & ?). done. }
  pose proof (removalStep_archived (SP_ID p) st Hwf) as Hs1. set (st1 := setRevisions _ st) in *. pose proof (rs_wf _ _ _ Hs1) as Hwf1.
  assert (insertable (explicitSource <$> kept (VC_Nodes (contentOf v))) (VC_Rules (contentOf v)) (keptExclusions nodeType ids (VC_Exclusions (contentOf v))) = true) as Hins.
  { rewrite insertable_explicit. apply insertable_kept, insertable_sorted, (ws_rows _ Hwf v Hv). }
  destruct (insertRevision_total (SP_ID p) PlanRevisionActive (VC_Limits (contentOf v)) (marshalOrderPolicy (VC_NodeOrderPolicy (contentOf v)))
    (VC_Provenance (contentOf v)) PlanChangeKindNodes "节点删除时自动从订阅套餐移除" (SP_CurrentRevisionID p) (Some ts) _ _ _ st1 Hins) as (w & st2 & Hw).
  rewrite Hw. cbn [rbind]. assert (removalStep (SP_ID p) st1 st2) as Hs2.
  { eapply removalStep_insert; [done|exact Hw|]. rewrite existsb_explicit. apply clean_kept. }
  pose proof (rs_wf _ _ _ Hs2) as Hwf2. apply insertRevision_Ok in Hw as (Hst2 & Hwid & Hwp & Hwl & Hwn & _).
  cbv zeta.
  set (newLatest := if negb (SP_LatestRevisionID p =? 0) && negb (SP_LatestRevisionID p =? SP_CurrentRevisionID p) then SP_LatestRevisionID p else RV_ID w).
  set (f := λ p : PlanRow, nextRevision (withPointers (SP_LockVersion p + 1) (RV_ID w) newLatest (SP_PendingRevisionID p) p)). set (st3 := updatePlan (SP_ID p) f st2).
  assert (w ∈ ps_revisions st2) as Hin by (rewrite Hst2; simpl; apply elem_of_app; right; by apply list_elem_of_singleton).
  assert (p ∈ ps_plans st2) as Hp2 by by rewrite Hst2.
  assert (belongs st2 (SP_ID p) (RV_ID w)) as Hbw by by exists w.
  assert (belongs st2 (SP_ID p) newLatest) as Hbl by (unfold newLatest; destruct (_ && _); [by apply (ws_latest _ Hwf2)|done]).
  assert (wfStore st3) as Hwf3.
  { apply wf_updatePlan; [done|]. intros q Hq Hid. simpl. split_and!; [done..|by apply (ws_pending _ Hwf2)|done]. }
  assert (findPlan (SP_ID p) st3 = Some (f p)) as Hfp by by apply findPlan_update.
  assert (findRevision (RV_ID w) st3 = Some w) as Hfw by by apply findRevision_Some.
  exists true, st3, (f p). split_and!; try done.
  - eapply removalStep_trans; [exact Hs1|]. eapply removalStep_trans; [exact Hs2|]. by apply removalStep_update.
  - unfold authorized, trimmed. rewrite Hfp, (proj2 (findPlan_Some st _ p Hwf) (conj Hp eq_refl)). cbn [mbind option_bind]. rewrite Hfv.
    change (SP_CurrentRevisionID (f p)) with (RV_ID w). rewrite Hfw. simpl. unfold grants. rewrite Hwl, Hwn. simpl.
    rewrite (ws_limits _ Hwf v Hv). do 2 f_equal. rewrite <- list_fmap_compose.
    apply set_eq. intros k. rewrite !elem_of_list_to_set, !list_elem_of_fmap. setoid_rewrite (kept_perm _ _ (sort_slice_perm nodeLess (RV_Nodes v))). done.
  - unfold movedPointers. simpl. split_and!; [done..|]. unfold newLatest. destruct (negb _ && negb _) eqn:Hlt; [right|by left].
    apply andb_true_iff in Hlt as [_ Hne]. by apply negb_true_iff, Z.eqb_neq in Hne.
  - change (SP_CurrentRevisionID (f p)) with (RV_ID w). unfold holdsNode. rewrite Hfw, Hwn, existsb_explicit. apply clean_kept.
Qed.

(** *** One plan *)

(** The row of a plan after its removal step: its current and latest revisions are free of the
    node, and so is a legacy draft that was not the current revision. *)
Record cleared (p p' : PlanRow) (st' : PlanStore) : Prop := {
  cl_current : holds (SP_CurrentRevisionID p') st' = false;
  cl_latest : holds (SP_LatestRevisionID p') st' = false;
  cl_pending : SP_PendingRevisionID p' = SP_PendingRevisionID p;
  cl_draft : SP_DraftRevisionID p' = SP_DraftRevisionID p ∧ (SP_DraftRevisionID p ≠ SP_CurrentRevisionID p → holds (SP_DraftRevisionID p') st' = false) }.

Lemma authorized_same_grants st st' q p :
  findPlan q st = Some p → findPlan q st' = Some p →
  (∀ v, findRevision (SP_CurrentRevisionID p) st = Some v → ∃ v', findRevision (SP_CurrentRevisionID p) st' = Some v' ∧ grants v' = grants v) →
  wfStore st → wfStore st' → authorized st' q = authorized st q.
Proof.
  intros Hp Hp' Hg Hwf Hwf'. unfold authorized. rewrite Hp, Hp'. simpl. destruct (findRevision _ st) as [v|] eqn:Hv.
  - destruct (Hg v eq_refl) as (v' & -> & Heq). simpl. by rewrite Heq.
  - apply findPlan_Some in Hp as [Hin _]; [|done]. destruct (ws_current _ Hwf p Hin) as (v & Hv' & Hid & _).
    by rewrite (proj2 (findRevision_Some st _ v Hwf) (conj Hv' Hid)) in Hv.
Qed.

Lemma prune_authorized planID currentID id pruned st p :
  wfStore st → id = 0 ∨ belongs st planID id → findPlan planID st = Some p → holds (SP_CurrentRevisionID p) st = false →
  ∃ pruned' st', prunePlanRevisionNodesTx nodeType ids currentID id (pruned, st) = (pruned', st') ∧ removalStep planID st st' ∧
    findPlan planID st' = Some p ∧ (id ≠ currentID → holds id st' = false) ∧ authorized st' planID = authorized st planID.
Proof.
  intros Hwf Hb Hp Hc. destruct (prune_step planID currentID id pruned st Hwf Hb) as (pr & st' & Heq & Hs & Hpl & Hh & Hg).
  assert (findPlan planID st' = Some p) as Hp' by (unfold findPlan in *; by rewrite Hpl). exists pr, st'. split_and!; try done.
  eapply authorized_same_grants; [done..|intros v Hv; by eapply Hg|done|apply Hs].
Qed.

Lemma removeFromPlan_spec ts planID st p :
  wfStore st → findPlan planID st = Some p →
  ∃ st' p', removeFromPlan nodeType ids ts planID st = Ok st' ∧ removalStep planID st st' ∧ authorized st' planID = trimmed st planID ∧
    findPlan planID st' = Some p' ∧ cleared p p' st'.
Proof.
  intros Hwf Hf. unfold removeFromPlan. rewrite Hf. pose proof Hf as [Hp <-]%findPlan_Some; [|done].
  destruct (replaceCurrent_spec ts p st Hwf Hp) as (changed & st1 & p1 & -> & Hs1 & Hf1 & Ha1 & (Hd & Hpe & Hl) & Hc1). cbn [rbind].
  pose proof (rs_wf _ _ _ Hs1) as Hwf1. pose proof Hf1 as [Hp1 Hid1]%findPlan_Some; [|done].
  assert (SP_DraftRevisionID p = 0 ∨ belongs st1 (SP_ID p) (SP_DraftRevisionID p)) as Hbd by (destruct (ws_draft _ Hwf p Hp); [auto|right; by apply Hs1]).
  destruct (prune_authorized (SP_ID p) (SP_CurrentRevisionID p) _ false st1 p1 Hwf1 Hbd Hf1 Hc1) as (pr2 & st2 & -> & Hs2 & Hf2 & Hh2 & Ha2).
  pose proof (rs_wf _ _ _ Hs2) as Hwf2. pose proof (fewer_false _ _ _ (rs_fewer _ _ _ Hs2) Hc1) as Hc2.
  assert (SP_LatestRevisionID p = 0 ∨ belongs st2 (SP_ID p) (SP_LatestRevisionID p)) as Hbl by (right; by apply (rs_belongs _ _ _ Hs2), (rs_belongs _ _ _ Hs1), (ws_latest _ Hwf)).
  destruct (prune_authorized (SP_ID p) (SP_CurrentRevisionID p) _ pr2 st2 p1 Hwf2 Hbl Hf2 Hc2) as (pr3 & st3 & -> & Hs3 & Hf3 & Hh3 & Ha3).
  pose proof (rs_wf _ _ _ Hs3) as Hwf3. pose proof (fewer_false _ _ _ (rs_fewer _ _ _ Hs3) Hc2) as Hc3.
  assert (removalStep (SP_ID p) st st3) as Hs by (eapply removalStep_trans; [exact Hs1|by eapply removalStep_trans]).
  assert (cleared p p1 st3) as Hcl.
  { split; [done| |done|]; [by destruct Hl as [->|[-> ?%Hh3]]|]. split; [done|]. intros ?%Hh2. rewrite Hd. by eapply fewer_false; [apply Hs3|]. }
  destruct (pr3 && negb changed).
  - set (f := λ p : PlanRow, nextRevision (withPointers (SP_LockVersion p + 1) (SP_CurrentRevisionID p) (SP_LatestRevisionID p) (SP_PendingRevisionID p) p)).
    pose proof Hf3 as [Hp3 _]%findPlan_Some; [|done].
    assert (keeps st3 (updatePlan (SP_ID p) f st3)) as Hk by (apply keeps_pointers; [done|]; intros q Hq; simpl; auto 8).
    exists (updatePlan (SP_ID p) f st3), (f p1). split_and!; [done| | | |].
    + eapply removalStep_trans; [exact Hs|]. apply removalStep_update; [done|apply Hk|done].
    + rewrite (kp_authorized _ _ Hk). congruence.
    + apply findPlan_update; [apply Hk|done..].
    + destruct Hcl. by split.
  - exists st3, p1. split_and!; try done. congruence.
Qed.

(** *** The plans in turn *)

Lemma removePlans_spec ts l st :
  wfStore st → NoDup l → (∀ q, q ∈ l → is_Some (findPlan q st)) →
  ∃ st', foldM (removeFromPlan nodeType ids ts) l st = Ok st' ∧ wfStore st' ∧ fewer st st' ∧ (∀ q, q ∉ l → same st st' q) ∧
    ∀ q, q ∈ l → authorized st' q = trimmed st q ∧ ∃ p p', findPlan q st = Some p ∧ findPlan q st' = Some p' ∧ cleared p p' st'.
Proof.
  revert st; induction l as [|k l IH]; intros st Hwf Hnd Hall.
  { exists st. split_and!; [done|done|by intros id|intros; apply same_refl|by intros q ?%not_elem_of_nil]. }
  apply NoDup_cons in Hnd as [Hk Hnd]. destruct (Hall k (list_elem_of_here _ _)) as [p Hp].
  destruct (removeFromPlan_spec ts k st p Hwf Hp) as (st1 & p1 & Hrun & Hs & Ha & Hp1 & Hcl). pose proof (rs_wf _ _ _ Hs) as Hwf1.
  assert (∀ q, q ∈ l → q ≠ k) as Hne by (intros q Hq ->; done).
  destruct (IH st1 Hwf1 Hnd) as (st2 & Hrun2 & Hwf2 & Hfew2 & Hsame2 & Hdone2).
  { intros q Hq. rewrite (proj1 (same_lookup _ _ _ Hwf Hwf1 (rs_same _ _ _ Hs q (Hne q Hq)))). apply Hall. by constructor. }
  exists st2. cbn [foldM]. rewrite Hrun. split_and!; [done|done|intros id ?%Hfew2; by apply (rs_fewer _ _ _ Hs)| |].
  - intros q [Hq1 Hq2]%not_elem_of_cons. eapply same_trans; [by apply (rs_same _ _ _ Hs)|by apply Hsame2].
  - intros q [->|Hq]%elem_of_cons.
    + split; [by rewrite (same_authorized _ _ _ Hwf1 Hwf2 (Hsame2 k Hk))|]. exists p, p1.
      split_and!; [done|by rewrite (proj1 (same_lookup _ _ _ Hwf1 Hwf2 (Hsame2 k Hk)))|].
      destruct Hcl as [H1 H2 H3 [H4 H5]]. split; [by eapply fewer_false..|done|]. split; [done|]. intros Hd%H5. by eapply fewer_false.
    + pose proof (rs_same _ _ _ Hs q (Hne q Hq)) as Hsq. destruct (Hdone2 q Hq) as (Ha2 & p0 & p0' & Hp0 & Hp0' & Hcl0).
      split; [by rewrite Ha2, (same_trimmed _ _ _ Hwf Hwf1 Hsq)|]. exists p0, p0'. by rewrite <- (proj1 (same_lookup _ _ _ Hwf Hwf1 Hsq)).
Qed.

(** *** Releasing the pending pointers *)

Definition released (l : list Z) (p : PlanRow) : PlanRow :=
  if bool_decide (SP_ID p ∈ l) then withPointers (SP_LockVersion p) (SP_CurrentRevisionID p) (SP_LatestRevisionID p) 0 p else p.

(** A plan that is being applied blocks the removal. *)
Definition blocks (st : PlanStore) (planID : Z) : bool :=
  match findPlan planID st with Some p => negb (SP_PendingRevisionID p =? 0) && applying planID st | None => false end.

Lemma applying_cancelled planID pendingID ts q st :
  applying q (setPlanChanges ((λ c, if failedCandidate planID pendingID c then withStatus AccessChangeCancelled (AC_Error c) ts c else c) <$> ps_changes st) st) = applying q st.
Proof.
  unfold applying. simpl. induction (ps_changes st) as [|c l IH]; [done|]. cbn [existsb fmap list_fmap]. rewrite IH. f_equal.
  destruct (failedCandidate planID pendingID c) eqn:Hf; [|done]. unfold failedCandidate in Hf. rewrite !andb_true_iff, !bool_decide_eq_true in Hf.
  destruct Hf as [[[[_ _] Hst] _] _]. simpl. by rewrite Hst.
Qed.

Lemma withPointers_eta p : withPointers (SP_LockVersion p) (SP_CurrentRevisionID p) (SP_LatestRevisionID p) (SP_PendingRevisionID p) p = p.
Proof. by destruct p. Qed.

Record releasedTo (l : list Z) (st st' : PlanStore) : Prop := {
  rl_plans : ps_plans st' = released l <$> ps_plans st;
  rl_revisions : ps_revisions st' = ps_revisions st;
  rl_next : ps_nextPlan st' = ps_nextPlan st ∧ ps_nextRevision st' = ps_nextRevision st;
  rl_applying q : applying q st' = applying q st }.

Lemma releasedTo_nil st : releasedTo [] st st.
Proof. split; try done. symmetry. etrans; [|apply list_fmap_id]. by apply list_fmap_ext. Qed.

Lemma released_app l l' p : released l' (released l p) = released (l ++ l') p.
Proof. unfold released. repeat case_bool_decide; simpl in *; rewrite ?elem_of_app in *; tauto. Qed.

Lemma releasedTo_trans l l' st1 st2 st3 : releasedTo l st1 st2 → releasedTo l' st2 st3 → releasedTo (l ++ l') st1 st3.
Proof.
  intros [P1 R1 [N1 N1'] A1] [P2 R2 [N2 N2'] A2]. split; [|congruence|split; congruence|intros q; by rewrite A2].
  rewrite P2, P1, <- list_fmap_compose. apply list_fmap_ext. intros i p _. apply released_app.
Qed.

Lemma find_released l st q : List.find (λ p, SP_ID p =? q) (released l <$> ps_plans st) = released l <$> findPlan q st.
Proof.
  unfold findPlan. induction (ps_plans st) as [|p ps IH]; [done|]. rewrite fmap_cons. cbn [List.find].
  assert (SP_ID (released l p) = SP_ID p) as -> by (unfold released; by case_bool_decide). by destruct (_ =? _).
Qed.

Lemma findPlan_released l st st' q : releasedTo l st st' → findPlan q st' = released l <$> findPlan q st.
Proof. intros [HP _ _ _]. unfold findPlan at 1. rewrite HP. apply find_released. Qed.

Lemma releasedTo_keeps l st st' : wfStore st → releasedTo l st st' → keeps st st'.
Proof.
  intros Hwf Hr. pose proof Hr as [HP HR [HN HN'] _]. destruct Hwf as [H1 H2 H3 H4 H5 H6 H7 H8 H9 H10 H11 H12].
  assert (∀ p, SP_ID (released l p) = SP_ID p ∧ SP_CurrentRevisionID (released l p) = SP_CurrentRevisionID p ∧
    SP_LatestRevisionID (released l p) = SP_LatestRevisionID p ∧ SP_DraftRevisionID (released l p) = SP_DraftRevisionID p ∧
    (SP_PendingRevisionID (released l p) = 0 ∨ released l p = p)) as Hrel by (intros p; unfold released; case_bool_decide; simpl; auto 6).
  split.
  - split; unfold belongs; rewrite ?HP, ?HR, ?HN, ?HN'; try done.
    + rewrite <- list_fmap_compose. erewrite list_fmap_ext; [exact H1|]. intros i p _. apply Hrel.
    + intros p' (p & -> & Hp)%list_elem_of_fmap. rewrite (proj1 (Hrel p)). auto.
    + intros p' (p & -> & Hp)%list_elem_of_fmap. destruct (Hrel p) as (-> & -> & _). by apply H8.
    + intros p' (p & -> & Hp)%list_elem_of_fmap. destruct (Hrel p) as (-> & _ & -> & _). by apply H9.
    + intros p' (p & -> & Hp)%list_elem_of_fmap. destruct (Hrel p) as (_ & _ & _ & _ & [?| ->]); [auto|by apply H10].
    + intros p' (p & -> & Hp)%list_elem_of_fmap. destruct (Hrel p) as (-> & _ & _ & -> & _). by apply H11.
  - intros v Hv. exists v. by rewrite HR.
  - intros q. unfold authorized. rewrite (findPlan_released l st st' q Hr). destruct (findPlan q st) as [p|]; [|done]. simpl.
    destruct (Hrel p) as (_ & -> & _). unfold findRevision. by rewrite HR.
Qed.

Definition nameOf (st : PlanStore) (planID : Z) : string := from_option SP_Name ""%string (findPlan planID st).

Lemma released_row k p st :
  wfStore st → findPlan k st = Some p → ∀ q, q ∈ ps_plans st →
  released [k] q = if SP_ID q =? k then withPointers (SP_LockVersion q) (SP_CurrentRevisionID q) (SP_LatestRevisionID q) 0 p else q.
Proof.
  intros Hwf [Hp Hid]%findPlan_Some q Hq; [|done]. unfold released. rewrite (bool_decide_ext _ (SP_ID q = k)) by apply list_elem_of_singleton.
  case_bool_decide as Heq; [|by rewrite (proj2 (Z.eqb_neq _ _) Heq)]. rewrite (proj2 (Z.eqb_eq _ _) Heq).
  assert (q = p) as -> by (eapply (NoDup_fmap_key SP_ID); [apply Hwf|done|done|congruence]). done.
Qed.

(** One plan: blocked with its name, or released. *)
Lemma releaseStep_spec ts k b st :
  wfStore st → is_Some (findPlan k st) →
  ∃ st', releaseStep ts k (b, st) = Ok (b ++ (if blocks st k then [nameOf st k] else []), st') ∧ releasedTo (if blocks st k then [] else [k]) st st'.
Proof.
  intros Hwf [p Hp]. unfold releaseStep, blocks, nameOf, releaseStalePlanPendingTx. rewrite Hp. cbn [from_option].
  pose proof (released_row k p st Hwf Hp) as Hrow. pose proof Hp as [Hin Hid]%findPlan_Some; [|done].
  assert (∀ q, q ∈ ps_plans st → SP_ID q = k → q = p) as Huniq by (intros q Hq Heq; eapply (NoDup_fmap_key SP_ID); [apply Hwf|done|done|congruence]).
  destruct (Z.eqb_spec (SP_PendingRevisionID p) 0) as [H0|H0]; cbn [negb andb].
  - exists st. rewrite app_nil_r. split; [done|]. split; try done. symmetry. etrans; [|apply list_fmap_id]. apply list_fmap_ext.
    intros i q Hq%list_elem_of_lookup_2. rewrite Hrow by done. destruct (Z.eqb_spec (SP_ID q) k) as [Heq|]; [|done].
    rewrite (Huniq q Hq Heq), <- H0. apply withPointers_eta.
  - destruct (applying k st) eqn:Happ; [exists st; split; [done|apply releasedTo_nil]|]. eexists. rewrite app_nil_r. split; [done|].
    split; try done; [|intros q; apply applying_cancelled]. apply list_fmap_ext. intros i q Hq%list_elem_of_lookup_2. rewrite Hrow by done.
    destruct (Z.eqb_spec (SP_ID q) k) as [Heq|]; [|done]. by rewrite (Huniq q Hq Heq), Z.eqb_refl.
Qed.

Lemma blocks_released l st st' q : q ∉ l → releasedTo l st st' → blocks st' q = blocks st q ∧ findPlan q st' = findPlan q st.
Proof.
  intros Hq Hr. pose proof (findPlan_released l st st' q Hr) as Hf.
  assert (released l <$> findPlan q st = findPlan q st) as Heq.
  { destruct (findPlan q st) as [p|] eqn:Hp; [|done]. simpl. apply List.find_some in Hp as [_ Hid%Z.eqb_eq].
    unfold released. rewrite bool_decide_eq_false_2; [done|]. by rewrite Hid. }
  rewrite Heq in Hf. split; [|done]. unfold blocks. rewrite Hf. destruct (findPlan q st); [|done]. by rewrite (rl_applying _ _ _ Hr).
Qed.

Lemma releaseLoop_spec ts l b st :
  wfStore st → NoDup l → (∀ q, q ∈ l → is_Some (findPlan q st)) →
  ∃ st', foldM (releaseStep ts) l (b, st) = Ok (b ++ (nameOf st <$> List.filter (blocks st) l), st') ∧
    releasedTo (List.filter (λ q, negb (blocks st q)) l) st st'.
Proof.
  revert b st; induction l as [|k l IH]; intros b st Hwf Hnd Hall.
  { exists st. simpl. rewrite app_nil_r. split; [done|apply releasedTo_nil]. }
  apply NoDup_cons in Hnd as [Hk Hnd]. destruct (releaseStep_spec ts k b st Hwf (Hall k (list_elem_of_here _ _))) as (st1 & Hrun & Hr1).
  assert (∀ q, q ∈ l → blocks st1 q = blocks st q ∧ findPlan q st1 = findPlan q st) as Heq.
  { intros q Hq. apply (blocks_released (if blocks st k then [] else [k])); [|done]. destruct (blocks st k); [apply not_elem_of_nil|].
    intros ->%list_elem_of_singleton. done. }
  destruct (IH (b ++ (if blocks st k then [nameOf st k] else [])) st1 (kp_wf _ _ (releasedTo_keeps _ _ _ Hwf Hr1)) Hnd) as (st2 & Hrun2 & Hr2).
  { intros q Hq. rewrite (proj2 (Heq q Hq)). apply Hall. by constructor. }
  assert (List.filter (blocks st1) l = List.filter (blocks st) l ∧ List.filter (λ q, negb (blocks st1 q)) l = List.filter (λ q, negb (blocks st q)) l) as [Hf1 Hf2].
  { split; apply List.filter_ext_in; intros q Hq%list_elem_of_In; by rewrite (proj1 (Heq q Hq)). }
  assert (nameOf st1 <$> List.filter (blocks st) l = nameOf st <$> List.filter (blocks st) l) as Hnames.
  { apply Forall_fmap_ext_1, Forall_forall. intros q [Hq%list_elem_of_In _]%list_elem_of_In%List.filter_In. unfold nameOf. by rewrite (proj2 (Heq q Hq)). }
  exists st2. cbn [foldM]. rewrite Hrun, Hrun2, Hf1, Hnames, <- app_assoc. rewrite Hf2 in Hr2. pose proof (releasedTo_trans _ _ _ _ _ Hr1 Hr2) as Hr.
  cbn [List.filter]. destruct (blocks st k); done.
Qed.

(** ** The removal *)

Lemma elem_of_affected st q :
  q ∈ affectedPlans nodeType ids st ↔ ∃ p, p ∈ ps_plans st ∧ SP_ID p = q ∧
    (holds (SP_CurrentRevisionID p) st || holds (SP_DraftRevisionID p) st || holds (SP_PendingRevisionID p) st || holds (SP_LatestRevisionID p) st) = true.
Proof.
  unfold affectedPlans, sort_ints. rewrite sort_slice_perm, list_elem_of_fmap. setoid_rewrite list_elem_of_In. setoid_rewrite List.filter_In. naive_solver.
Qed.

Lemma affected_found st q : wfStore st → q ∈ affectedPlans nodeType ids st → is_Some (findPlan q st).
Proof. intros Hwf (p & Hp & Hid & _)%elem_of_affected. exists p. by apply findPlan_Some. Qed.

Lemma affected_NoDup st : wfStore st → NoDup (affectedPlans nodeType ids st).
Proof. intros Hwf. unfold affectedPlans, sort_ints. rewrite sort_slice_perm. by apply NoDup_map_filter, Hwf. Qed.

(** The plans that keep the node from being removed, by name. *)
Definition blockers (st : PlanStore) : list string := nameOf st <$> List.filter (blocks st) (affectedPlans nodeType ids st).

(** The plan points to no revision with the node. *)
Definition freeOfNode (st : PlanStore) (planID : Z) : Prop :=
  ∀ p, findPlan planID st = Some p →
    holds (SP_CurrentRevisionID p) st = false ∧ holds (SP_LatestRevisionID p) st = false ∧ holds (SP_PendingRevisionID p) st = false.

Lemma removeNodes_blocked ts st : wfStore st → blockers st ≠ [] → removeNodes nodeType ids ts st = Err (planVersionApplyingError (blockers st)).
Proof.
  intros Hwf Hb. unfold removeNodes. destruct (releaseLoop_spec ts _ [] st Hwf (affected_NoDup st Hwf) (λ q, affected_found st q Hwf)) as (st1 & -> & _).
  cbn [rbind]. change ([] ++ ?l) with l. fold (blockers st). unfold fail_if. by rewrite bool_decide_eq_false_2.
Qed.

Lemma released_revisions l st st' : releasedTo l st st' → ∀ id, findRevision id st' = findRevision id st ∧ holds id st' = holds id st.
Proof. intros [_ HR _ _] id. unfold holdsNode, findRevision. by rewrite HR. Qed.

Lemma released_trimmed l st st' q : releasedTo l st st' → trimmed st' q = trimmed st q.
Proof.
  intros Hr. unfold trimmed. rewrite (findPlan_released _ _ _ _ Hr). destruct (findPlan q st) as [p|]; [|done]. simpl.
  rewrite (proj1 (released_revisions _ _ _ Hr _)). unfold released. by case_bool_decide.
Qed.

Lemma removeNodes_free ts st :
  wfStore st → blockers st = [] →
  ∃ st', removeNodes nodeType ids ts st = Ok st' ∧ wfStore st' ∧ ∀ q, authorized st' q = trimmed st q ∧ freeOfNode st' q.
Proof.
  intros Hwf Hb. unfold removeNodes. set (l := affectedPlans nodeType ids st).
  pose proof (affected_NoDup st Hwf) as Hnd. fold l in Hnd. destruct (releaseLoop_spec ts l [] st Hwf Hnd (λ q, affected_found st q Hwf)) as (st1 & -> & Hr).
  cbn [rbind]. change ([] ++ ?l) with l. change (nameOf st <$> List.filter (blocks st) l) with (blockers st). unfold fail_if. rewrite Hb, bool_decide_eq_true_2 by done. cbn [negb rbind].
  assert (List.filter (λ q, negb (blocks st q)) l = l) as Hl.
  { apply fmap_nil_inv in Hb. fold l in Hb. clear -Hb. induction l as [|q l IH]; [done|]. simpl in *. destruct (blocks st q); [done|]. simpl. by rewrite IH. }
  rewrite Hl in Hr. pose proof (kp_wf _ _ (releasedTo_keeps _ _ _ Hwf Hr)) as Hwf1.
  assert (∀ q, q ∈ l → is_Some (findPlan q st1)) as Hfound.
  { intros q Hq. rewrite (findPlan_released _ _ _ _ Hr). apply fmap_is_Some. by apply affected_found. }
  destruct (removePlans_spec ts l st1 Hwf1 Hnd Hfound) as (st2 & -> & Hwf2 & Hfew & Hsame & Hdone). exists st2. split_and!; [done..|]. intros q.
  destruct (decide (q ∈ l)) as [Hq|Hq].
  - destruct (Hdone q Hq) as (Ha & p1 & p2 & Hp1 & Hp2 & Hcl). rewrite (released_trimmed _ _ _ _ Hr) in Ha. split; [done|]. intros p. rewrite Hp2. intros [= <-].
    split_and!; [apply Hcl..|]. rewrite (cl_pending _ _ _ Hcl). rewrite (findPlan_released _ _ _ _ Hr) in Hp1.
    apply fmap_Some in Hp1 as (p & Hp & ->). apply findPlan_Some in Hp as [_ Hid]; [|done]. unfold released. rewrite bool_decide_eq_true_2 by congruence. by apply holds_0.
  - destruct (blocks_released l st st1 q Hq Hr) as [_ Hfp1]. pose proof (Hsame q Hq) as Hs. destruct (same_lookup _ _ _ Hwf1 Hwf2 Hs) as [Hfp2 _].
    assert (∀ p, findPlan q st2 = Some p → holds (SP_CurrentRevisionID p) st = false ∧ holds (SP_LatestRevisionID p) st = false ∧ holds (SP_PendingRevisionID p) st = false) as Hfree.
    { intros p Hp. rewrite Hfp2, Hfp1 in Hp. apply findPlan_Some in Hp as [Hin Hid]; [|done].
      assert ((holds (SP_CurrentRevisionID p) st || holds (SP_DraftRevisionID p) st || holds (SP_PendingRevisionID p) st || holds (SP_LatestRevisionID p) st) = false) as Hf.
      { apply not_true_iff_false. intros Ht. apply Hq, elem_of_affected. eauto. } rewrite !orb_false_iff in Hf. tauto. }
    assert (∀ id, holds id st = false → holds id st2 = false) as Hmono.
    { intros id Hn. eapply fewer_false; [exact Hfew|]. by rewrite (proj2 (released_revisions _ _ _ Hr id)). }
    split; [|intros p Hp; destruct (Hfree p Hp) as (? & ? & ?); auto].
    rewrite (same_authorized _ _ _ Hwf1 Hwf2 Hs), (kp_authorized _ _ (releasedTo_keeps _ _ _ Hwf Hr)).
    destruct (findPlan q st) as [p|] eqn:Hp; [|unfold authorized, trimmed; by rewrite Hp]. symmetry. eapply trimmed_clean; [done..|]. by apply Hfree; rewrite Hfp2.
Qed.
End removal.
