(* ===== verification/PlanVersionContracts.v ===== *)
(** * Contracts of the versions of a plan

    Runs of the transactions of [internal/store/plans.go] in any order: the invariant, the
    authorization that only an activation, a removal or a deletion changes, stale saves
    that are refused, the nodes of a candidate, and the removal of a node. *)

From S2P Require Import Prelude Model NodeKeys AccessSnapshot SubscriptionOrder Prog AccessChanges PlanVersions PlanVersionSafety PlanNodeRemoval.

Local Open Scope Z_scope.

(** ** Runs *)

(** The transactions; the access changes are moved by their own component in any way. *)
Inductive planOp :=
| PCreate (name description : string) (enabled : bool) (limits : PlanLimits) (nodes : list PlanNode) (ts : Z)
| PSave (planID : Z) (m : PlanVersionMutation) (ts : Z)
| PActivate (planID expected candidate changeID ts : Z)
| PRemove (nodeType : string) (nodeIDs : list Z) (ts : Z)
| PSetPending (planID revisionID : Z)
| PClearPending (planID expected : Z)
| PCancel (changeID ts : Z)
| PDelete (planID changeID : Z)
| PClone (planID : Z) (newName : string) (ts : Z)
| PSyncDraft (planID expectedRevision : Z) (nodes : list PlanNode) (op : string)
| PEnable (planID : Z) (enabled : bool)
| PActivationChange (planID revisionID changeID : Z)
| PChanges (changes : list AccessChange).

Definition emptyPlans : PlanStore := {| ps_plans := []; ps_revisions := []; ps_changes := []; ps_nextPlan := 1; ps_nextRevision := 1 |}.

Section runs.
Context {Cod : PlanCodec} {M : MapRange string PlanNode}.

Definition runPlanOp (st : PlanStore) (op : planOp) : PlanStore :=
  match op with
  | PCreate name description enabled limits nodes ts => (CreateSubscriptionPlan name description enabled limits nodes ts st).2
  | PSave planID m ts => (CreatePlanVersion planID m ts st).2
  | PActivate planID expected candidate changeID ts => (activateVersion planID expected candidate changeID ts st).2
  | PRemove nodeType nodeIDs ts => (RemoveAssignableNodeFromPlans nodeType nodeIDs ts st).2
  | PSetPending planID revisionID => (setPendingIfEmpty planID revisionID st).2
  | PClearPending planID expected => clearPending planID expected st
  | PCancel changeID ts => (cancelChange changeID ts st).2
  | PDelete planID changeID => deletePlan planID changeID st
  | PClone planID newName ts => (CloneSubscriptionPlan planID newName ts st).2
  | PSyncDraft planID expected nodes op => (SyncPlanDraftNodes planID expected nodes op st).2
  | PEnable planID enabled => SetSubscriptionPlanEnabled planID enabled st
  | PActivationChange planID revisionID changeID => (SetPlanRevisionActivationChange planID revisionID changeID st).2
  | PChanges changes => setPlanChanges changes st
  end.

Definition runPlanOps (ops : list planOp) (st : PlanStore) : PlanStore := foldl runPlanOp st ops.

Lemma save_keeps planID m ts st : wfStore st → keeps st (CreatePlanVersion planID m ts st).2.
Proof.
  intros Hwf. unfold CreatePlanVersion. destruct (createVersion planID m ts st) as [[r st']|e] eqn:Hs; [|by apply keeps_refl].
  by destruct (createVersion_keeps _ _ _ _ _ _ Hwf Hs) as (p & _ & Hk & _).
Qed.

Lemma wf_remove nodeType nodeIDs ts st : wfStore st → wfStore (RemoveAssignableNodeFromPlans nodeType nodeIDs ts st).2.
Proof.
  intros Hwf. unfold RemoveAssignableNodeFromPlans. destruct (List.filter _ nodeIDs) as [|id rest]; [done|].
  destruct (decide (blockers nodeType (id :: rest) st = [])) as [Hb|Hb].
  - by destruct (removeNodes_free nodeType (id :: rest) ts st Hwf Hb) as (st' & -> & Hwf' & _).
  - by rewrite (removeNodes_blocked nodeType (id :: rest) ts st Hwf Hb).
Qed.

Lemma wf_emptyPlans : wfStore emptyPlans.
Proof. split; simpl; try apply NoDup_nil; try (by intros ? ?%not_elem_of_nil); try done; lia. Qed.

Lemma wf_runPlanOp st op : wfStore st → wfStore (runPlanOp st op).
Proof.
  intros Hwf. destruct op as [name desc en lim nodes ts|planID m ts|planID e c ch ts|nt ids ts|q r|q e|id ts|q id|q name ts|q e nodes o|q en|q r id|l]; cbn [runPlanOp].
  - destruct (CreateSubscriptionPlan _ _ _ _ _ _ st) as [r st'] eqn:Hc. by apply (CreateSubscriptionPlan_spec _ _ _ _ _ _ _ _ _ Hwf Hc).
  - by apply save_keeps.
  - destruct (activateVersion _ _ _ _ _ st) as [r st'] eqn:Ha. by apply (activateVersion_spec _ _ _ _ _ _ _ _ Hwf Ha).
  - by apply wf_remove.
  - by apply keeps_setPendingIfEmpty.
  - by apply keeps_clearPending.
  - by apply keeps_cancelChange.
  - by apply wf_deletePlan.
  - destruct (CloneSubscriptionPlan _ _ _ st) as [r st'] eqn:Hc. by apply (CloneSubscriptionPlan_spec _ _ _ _ _ _ Hwf Hc).
  - destruct (SyncPlanDraftNodes _ _ _ _ st) as [r st'] eqn:Hc. by apply (SyncPlanDraftNodes_spec _ _ _ _ _ _ _ Hwf Hc).
  - by apply keeps_enabled.
  - by apply keeps_activationChange.
  - by apply wf_setPlanChanges.
Qed.

Lemma wf_runPlanOps ops st : wfStore st → wfStore (runPlanOps ops st).
Proof. revert st; induction ops as [|op ops IH]; intros st Hwf; [done|]. apply IH. by apply wf_runPlanOp. Qed.

(** C31. Whatever sequence of the transactions [planOp] runs, which are those the controller
    uses, with drafts that are created, edited and pruned, revision identifiers and version numbers are
    unique, stored limits are normalized, the rows of a revision satisfy their unique keys,
    and the current, latest and draft pointers of a plan are empty or reference a revision of
    that plan. *)
Theorem plan_store_valid ops : wfStore (runPlanOps ops emptyPlans).
Proof. apply wf_runPlanOps, wf_emptyPlans. Qed.

(** ** Locks *)

(** A plan is kept and its lock does not go back. *)
Definition advances (q : Z) (st st' : PlanStore) : Prop :=
  ∀ p, findPlan q st = Some p → ∃ p', findPlan q st' = Some p' ∧ SP_LockVersion p ≤ SP_LockVersion p'.

Lemma advances_refl q st : advances q st st.
Proof. intros p Hp. exists p. by split. Qed.

Lemma advances_trans q st1 st2 st3 : advances q st1 st2 → advances q st2 st3 → advances q st1 st3.
Proof. intros H12 H23 p Hp. destruct (H12 p Hp) as (p2 & Hp2 & ?). destruct (H23 p2 Hp2) as (p3 & Hp3 & ?). exists p3. split; [done|lia]. Qed.

Lemma advances_rows q st st' : ps_plans st' = ps_plans st → advances q st st'.
Proof. intros Heq p Hp. exists p. unfold findPlan in *. by rewrite Heq. Qed.

Lemma findPlan_updatePlan id f st q :
  (∀ p, SP_ID p = id → SP_ID (f p) = id) → findPlan q (updatePlan id f st) = (λ p, if SP_ID p =? id then f p else p) <$> findPlan q st.
Proof.
  intros Hf. unfold findPlan. simpl. induction (ps_plans st) as [|p ps IH]; [done|]. rewrite fmap_cons. cbn [List.find].
  assert (SP_ID (if SP_ID p =? id then f p else p) = SP_ID p) as ->; [|by destruct (_ =? q)].
  destruct (Z.eqb_spec (SP_ID p) id) as [<-|]; [by apply Hf|done].
Qed.

Lemma advances_updatePlan id f st q :
  (∀ p, SP_ID p = id → SP_ID (f p) = id) → (∀ p, findPlan id st = Some p → SP_LockVersion p ≤ SP_LockVersion (f p)) → advances q st (updatePlan id f st).
Proof.
  intros Hf Hl p Hp. rewrite findPlan_updatePlan, Hp by done. simpl. eexists. split; [done|].
  destruct (Z.eqb_spec (SP_ID p) id) as [Hid|]; [|done]. apply Hl. apply List.find_some in Hp as Hq. destruct Hq as [_ Hq%Z.eqb_eq]. congruence.
Qed.

Lemma advances_insertPlan name description enabled v st q : advances q st (insertPlan name description enabled v st).
Proof.
  intros p Hp. exists p. split; [|done]. unfold findPlan in *. simpl.
  induction (ps_plans st) as [|w l IH]; [done|]. simpl in *. destruct (_ =? q); [done|auto].
Qed.

Lemma advances_create name description enabled limits nodes ts st q :
  advances q st (CreateSubscriptionPlan name description enabled limits nodes ts st).2.
Proof.
  unfold CreateSubscriptionPlan. destruct (nameTaken _ _); [apply advances_refl|].
  destruct (insertRevision _ _ _ _ _ _ _ _ _ _ _ _ st) as [[v st1]|] eqn:Hins; [|apply advances_refl].
  apply insertRevision_Ok in Hins as (-> & _). eapply advances_trans; [|apply advances_insertPlan]. by apply advances_rows.
Qed.

Lemma advances_clone id newName ts st q : advances q st (CloneSubscriptionPlan id newName ts st).2.
Proof.
  unfold CloneSubscriptionPlan. destruct (findPlan id st); [|apply advances_refl]. destruct (_ =? 0); [apply advances_refl|].
  destruct (findRevision _ st); [|apply advances_refl]. destruct (nameTaken _ _); [apply advances_refl|].
  destruct (insertRevision _ _ _ _ _ _ _ _ _ _ _ _ st) as [[v st1]|] eqn:Hins; [|apply advances_refl].
  apply insertRevision_Ok in Hins as (-> & _). eapply advances_trans; [|apply advances_insertPlan]. by apply advances_rows.
Qed.

Lemma advances_draft planID st id st' q : ensurePlanDraftTx planID st = Ok (id, st') → advances q st st'.
Proof.
  unfold ensurePlanDraftTx. destruct (findPlan planID st); [|done]. destruct (negb _); [intros [= _ <-]; apply advances_refl|].
  intros ([[[[[limits policy] prov] nodes] rules] excl] & _ & Hrun)%rbind_ok. apply rbind_ok in Hrun as ([v st1] & Hins & Hrun). injection Hrun as <- <-.
  apply insertRevision_Ok in Hins as (-> & _). eapply advances_trans; [|by apply advances_updatePlan]. by apply advances_rows.
Qed.

Lemma advances_sync planID expected nodes op st q : advances q st (SyncPlanDraftNodes planID expected nodes op st).2.
Proof.
  unfold SyncPlanDraftNodes. destruct (syncDraft planID expected nodes op st) as [st2|e] eqn:Hs; [|apply advances_refl].
  unfold syncDraft in Hs. apply rbind_ok in Hs as ([] & _ & Hs). apply rbind_ok in Hs as ([draftID st1] & He & Hs).
  apply rbind_ok in Hs as (rows & _ & [= <-]). eapply advances_trans; [by eapply advances_draft|].
  eapply advances_trans; [|by apply advances_updatePlan]. by apply advances_rows.
Qed.

(** A save writes at most the row of its plan, with the next lock. *)
Definition writesRow (p : PlanRow) (st st' : PlanStore) : Prop :=
  ps_nextPlan st' = ps_nextPlan st ∧
  (ps_plans st' = ps_plans st ∨
   ∃ row, SP_ID row = SP_ID p ∧ SP_LockVersion row = SP_LockVersion p + 1 ∧ ps_plans st' = ps_plans (updatePlan (SP_ID p) (λ _, row) st)).

Lemma writesRow_write m p lock current latest pending st st1 st' :
  ps_plans st1 = ps_plans st → ps_nextPlan st1 = ps_nextPlan st → lock = SP_LockVersion p + 1 → writePlan (withPointers lock current latest pending (renamed m p)) st1 = Ok st' → writesRow p st st'.
Proof.
  intros Heq Hn -> ->%writePlan_Ok. split; [done|right]. destruct (renamed_pointers m p) as [Hid _]. exists (withPointers (SP_LockVersion p + 1) current latest pending (renamed m p)).
  split_and!; [done|done|]. simpl. by rewrite Heq, Hid.
Qed.

Lemma saveUnchanged_writes p m pendingID superseded st r st' :
  saveUnchanged p (renamed m p) pendingID superseded st = Ok (r, st') → writesRow p st st'.
Proof.
  unfold saveUnchanged. destruct superseded.
  - destruct (writePlan _ st) as [st1|] eqn:Hw; [|done]. intros [= _ <-]. by eapply writesRow_write.
  - destruct (metaChanged _ _); [|intros [= _ <-]; split; [done|by left]].
    destruct (writePlan _ st) as [st1|] eqn:Hw; [|done]. intros [= _ <-]. by eapply writesRow_write.
Qed.

Lemma saveVersion_writes p meta pendingID candidate m ts st r st' :
  saveVersion p (renamed meta p) pendingID candidate m ts st = Ok (r, st') → writesRow p st st'.
Proof.
  unfold saveVersion. destruct (classify _ _ _ _) as [class|]; [|done]. cbn [rbind]. destruct (settleClass _ _ _ _) as [class' pending'].
  destruct (insertRevision _ _ _ _ _ _ _ _ _ _ _ _ st) as [[v st1]|] eqn:Hins; [|done]. cbn [rbind]. apply insertRevision_Ok in Hins as (Hst1 & _).
  assert (ps_plans st1 = ps_plans st) as Heq by by rewrite Hst1. assert (ps_nextPlan st1 = ps_nextPlan st) as Hn by by rewrite Hst1.
  destruct class'; (destruct (writePlan _ st1) as [st2|] eqn:Hw; [|done]; intros [= _ <-]; by eapply writesRow_write).
Qed.

Lemma createVersion_writes planID m ts st r st' p :
  createVersion planID m ts st = Ok (r, st') → findPlan planID st = Some p → writesRow p st st'.
Proof.
  intros Hrun Hf. unfold createVersion in Hrun. rewrite Hf in Hrun. cbn [rbind] in Hrun. unfold fail_if in Hrun.
  repeat (destruct (_ : bool) in Hrun; [done|]; cbn [rbind] in Hrun).
  destruct (supersededChange _ _ st) as [c|].
  - set (st0 := setPlanChanges _ st) in Hrun. destruct (loadPlanRevisionSnapshotTx _ _ st0); [|done]. cbn [rbind] in Hrun.
    destruct (candidateContent _ m); [|done]. cbn [rbind] in Hrun. change (ps_plans st) with (ps_plans st0).
    destruct (_ =? _)%string; [by apply (saveUnchanged_writes _ _ _ _ st0 r) in Hrun|by apply (saveVersion_writes _ _ _ _ _ _ st0 r) in Hrun].
  - destruct (loadPlanRevisionSnapshotTx _ _ st); [|done]. cbn [rbind] in Hrun. destruct (candidateContent _ m); [|done]. cbn [rbind] in Hrun.
    destruct (_ =? _)%string; [by eapply saveUnchanged_writes|by eapply saveVersion_writes].
Qed.

Lemma advances_writes p st st' q : findPlan (SP_ID p) st = Some p → writesRow p st st' → advances q st st'.
Proof.
  intros Hp [_ [Heq|(row & Hid & Hl & Heq)]]; [by apply advances_rows|].
  eapply advances_trans; [apply (advances_updatePlan (SP_ID p) (λ _, row))|by apply advances_rows].
  - done.
  - intros p'. rewrite Hp. intros [= <-]. lia.
Qed.

Lemma advances_save planID m ts st q : wfStore st → advances q st (CreatePlanVersion planID m ts st).2.
Proof.
  intros Hwf. unfold CreatePlanVersion. destruct (createVersion planID m ts st) as [[r st']|e] eqn:Hs; [|apply advances_refl].
  destruct (createVersion_keeps _ _ _ _ _ _ Hwf Hs) as (p & Hp & _). pose proof Hp as [_ Hid]%findPlan_Some; [|done].
  apply (advances_writes p); [by rewrite Hid|by eapply createVersion_writes].
Qed.

Lemma advances_clearPending planID expected st q : advances q st (clearPending planID expected st).
Proof.
  apply advances_updatePlan; [intros p Hp; by destruct (_ =? expected)|]. intros p _. by destruct (_ =? expected).
Qed.

Lemma advances_activate planID expected candidate changeID ts st q : advances q st (activateVersion planID expected candidate changeID ts st).2.
Proof.
  unfold activateVersion. destruct (findPlan planID st); [|apply advances_refl]. destruct (negb _); [apply advances_refl|].
  destruct (negb _); [apply advances_refl|]. destruct (_ && _); [apply advances_refl|].
  eapply advances_trans; [|by apply advances_rows]. by apply advances_updatePlan.
Qed.

Lemma advances_setPending planID revisionID st q : advances q st (setPendingIfEmpty planID revisionID st).2.
Proof.
  unfold setPendingIfEmpty. destruct (_ && _); [|apply advances_refl]. case_bool_decide; [apply advances_refl|].
  apply advances_updatePlan; [intros p Hp; by destruct (_ =? 0)|]. intros p _. by destruct (_ =? 0).
Qed.

Lemma advances_release planID candidate st q : advances q st (releaseCandidate planID candidate st).
Proof.
  apply advances_updatePlan; [intros p Hp; by destruct (_ && _)|]. intros p _. destruct (_ && _); simpl; lia.
Qed.

Lemma advances_cancel id ts st q : advances q st (cancelChange id ts st).2.
Proof.
  unfold cancelChange. destruct (List.find _ _); [|apply advances_refl]. destruct (_ || _); [apply advances_refl|].
  destruct (isPlanChange _); [|by apply advances_rows]. destruct (Nat.eqb _ _); [|apply advances_refl].
  eapply advances_trans; [|apply advances_release]. by apply advances_rows.
Qed.

Lemma advances_delete planID changeID st q : wfStore st → q ≠ planID → advances q st (deletePlan planID changeID st).
Proof.
  intros Hwf Hq p [Hp Hid]%findPlan_Some; [|done]. exists (keptRow planID st p). split; [|done].
  apply findPlan_Some; [by apply wf_deletePlan|]. split; [|done]. apply elem_of_deletePlan. exists p. split_and!; [done|congruence|done].
Qed.

(** *** Removal *)

Lemma advances_prune nodeType ids currentID id pruned st q : advances q st (prunePlanRevisionNodesTx nodeType ids currentID id (pruned, st)).2.
Proof. unfold prunePlanRevisionNodesTx. destruct (_ || _); [apply advances_refl|by apply advances_rows]. Qed.

Lemma advances_replaceCurrent nodeType ids ts p st changed st' q :
  replaceCurrent nodeType ids ts p st = Ok (changed, st') → advances q st st'.
Proof.
  unfold replaceCurrent. destruct (_ =? 0); [intros [= _ <-]; apply advances_refl|].
  destruct (loadPlanRevisionSnapshotTx _ _ st) as [c|]; [|done]. cbn [rbind]. destruct (Nat.eqb _ _); [intros [= _ <-]; apply advances_refl|].
  destruct (insertRevision _ _ _ _ _ _ _ _ _ _ _ _ _) as [[v st1]|] eqn:Hins; [|done]. apply insertRevision_Ok in Hins as (-> & _). intros [= _ <-].
  eapply advances_trans; [|apply advances_updatePlan; [done|intros; simpl; lia]]. by apply advances_rows.
Qed.

Lemma advances_removeFromPlan nodeType ids ts planID st st' q : removeFromPlan nodeType ids ts planID st = Ok st' → advances q st st'.
Proof.
  unfold removeFromPlan. destruct (findPlan planID st) as [p|]; [|done]. destruct (replaceCurrent _ _ _ p st) as [[changed st1]|] eqn:Hr; [|done]. cbn [rbind].
  pose proof (advances_prune nodeType ids (SP_CurrentRevisionID p) (SP_DraftRevisionID p) false st1 q) as H2.
  destruct (prunePlanRevisionNodesTx _ _ _ _ (false, st1)) as [pr2 st2].
  pose proof (advances_prune nodeType ids (SP_CurrentRevisionID p) (SP_LatestRevisionID p) pr2 st2 q) as H3.
  destruct (prunePlanRevisionNodesTx _ _ _ _ (pr2, st2)) as [pr3 st3]. intros [= <-].
  apply (advances_trans q st st1); [by eapply advances_replaceCurrent|]. apply (advances_trans q st1 st2); [exact H2|].
  apply (advances_trans q st2 st3); [exact H3|]. destruct (_ && _); [|apply advances_refl]. apply advances_updatePlan; [done|]. intros; simpl; lia.
Qed.

Lemma advances_releaseStep ts planID acc acc' q : releaseStep ts planID acc = Ok acc' → advances q acc.2 acc'.2.
Proof.
  destruct acc as [b st]. unfold releaseStep, releaseStalePlanPendingTx. destruct (findPlan planID st); [|done].
  destruct (_ =? 0); [intros [= <-]; apply advances_refl|]. destruct (applying _ _); intros [= <-]; [apply advances_refl|].
  eapply advances_trans; [|apply advances_clearPending]. by apply advances_rows.
Qed.

Lemma advances_remove nodeType nodeIDs ts st q : advances q st (RemoveAssignableNodeFromPlans nodeType nodeIDs ts st).2.
Proof.
  unfold RemoveAssignableNodeFromPlans. destruct (List.filter _ nodeIDs) as [|id rest]; [apply advances_refl|].
  destruct (removeNodes _ _ ts st) as [st'|] eqn:Hr; [|apply advances_refl]. unfold removeNodes in Hr.
  destruct (foldM _ _ ([], st)) as [[b st1]|] eqn:Hf; [|done]. cbn [rbind] in Hr. unfold fail_if in Hr. destruct (negb _); [done|]. cbn [rbind] in Hr.
  eapply (foldM_inv (λ acc, advances q st acc.2)) in Hf; [|intros; eapply advances_trans; [done|by eapply advances_releaseStep]|apply advances_refl].
  eapply (foldM_inv (λ st', advances q st st')) in Hr; [done| |done]. intros. eapply advances_trans; [done|by eapply advances_removeFromPlan].
Qed.

(** Every transaction but the deletion of the plan. *)
Definition deletes (q : Z) (op : planOp) : bool := match op with PDelete planID _ => planID =? q | _ => false end.

Lemma advances_op q st op : wfStore st → deletes q op = false → advances q st (runPlanOp st op).
Proof.
  intros Hwf Hd. destruct op; cbn [runPlanOp].
  - apply advances_create.
  - by apply advances_save.
  - apply advances_activate.
  - apply advances_remove.
  - apply advances_setPending.
  - apply advances_clearPending.
  - apply advances_cancel.
  - apply advances_delete; [done|]. simpl in Hd. lia.
  - apply advances_clone.
  - apply advances_sync.
  - by apply advances_updatePlan.
  - unfold SetPlanRevisionActivationChange. destruct (existsb _ _); by apply advances_rows.
  - by apply advances_rows.
Qed.

Lemma advances_ops q ops st : wfStore st → forallb (λ op, negb (deletes q op)) ops = true → advances q st (runPlanOps ops st).
Proof.
  revert st; induction ops as [|op ops IH]; intros st Hwf Hd; [apply advances_refl|]. simpl in Hd. apply andb_true_iff in Hd as [Hd Hds].
  eapply advances_trans; [by apply advances_op; [|apply negb_true_iff]|]. apply IH; [by apply wf_runPlanOp|done].
Qed.

(** *** Deleted plans stay deleted *)

(** The plans of the new store are those of the old one, some of which may be gone, and
    new ones with identifiers that were never given. *)
Definition noReuse (st st' : PlanStore) : Prop :=
  ps_nextPlan st ≤ ps_nextPlan st' ∧ ∀ q, q ∈ (SP_ID <$> ps_plans st') → q ∈ (SP_ID <$> ps_plans st) ∨ ps_nextPlan st ≤ q.

Global Instance noReuse_preorder : PreOrder noReuse.
Proof.
  split; [split; [lia|auto]|]. intros st1 st2 st3 [Hn1 H1] [Hn2 H2]. split; [lia|]. intros q [Hq|Hq]%H2; [auto|right; lia].
Qed.

Definition sameIDs (st st' : PlanStore) : Prop := ps_nextPlan st' = ps_nextPlan st ∧ (SP_ID <$> ps_plans st') = (SP_ID <$> ps_plans st).

Lemma sameIDs_noReuse st st' : sameIDs st st' → noReuse st st'.
Proof. intros [Hn Hids]. split; [lia|]. rewrite Hids. auto. Qed.

Lemma sameIDs_updatePlan id f st : (∀ p, SP_ID p = id → SP_ID (f p) = id) → sameIDs st (updatePlan id f st).
Proof.
  intros Hf. split; [done|]. simpl. rewrite <- list_fmap_compose. apply list_fmap_ext. intros i p _. simpl.
  destruct (Z.eqb_spec (SP_ID p) id) as [He|]; [|done]. by rewrite Hf.
Qed.

Lemma noReuse_updatePlan id f st st1 :
  ps_plans st1 = ps_plans st → ps_nextPlan st1 = ps_nextPlan st → (∀ p, SP_ID p = id → SP_ID (f p) = id) → noReuse st (updatePlan id f st1).
Proof.
  intros Hp Hn Hf. apply sameIDs_noReuse. destruct (sameIDs_updatePlan id f st1 Hf) as [Hn' Hids]. split; [congruence|]. by rewrite Hids, Hp.
Qed.

Lemma noReuse_insertPlan name description enabled v st st1 :
  ps_plans st1 = ps_plans st → ps_nextPlan st1 = ps_nextPlan st → noReuse st (insertPlan name description enabled v st1).
Proof.
  intros Hp Hn. split; [simpl; lia|]. intros q. simpl. rewrite fmap_app, elem_of_app, Hp. intros [?|Hq%list_elem_of_singleton]; [by left|right].
  simpl in Hq. lia.
Qed.

Lemma noReuse_create name description enabled limits nodes ts st :
  noReuse st (CreateSubscriptionPlan name description enabled limits nodes ts st).2.
Proof.
  unfold CreateSubscriptionPlan. destruct (nameTaken _ _); [done|].
  destruct (insertRevision _ _ _ _ _ _ _ _ _ _ _ _ st) as [[v st1]|] eqn:Hins; [|done]. apply insertRevision_Ok in Hins as (-> & _).
  by apply noReuse_insertPlan.
Qed.

Lemma noReuse_clone id newName ts st : noReuse st (CloneSubscriptionPlan id newName ts st).2.
Proof.
  unfold CloneSubscriptionPlan. destruct (findPlan id st); [|done]. destruct (_ =? 0); [done|]. destruct (findRevision _ st); [|done].
  destruct (nameTaken _ _); [done|]. destruct (insertRevision _ _ _ _ _ _ _ _ _ _ _ _ st) as [[v st1]|] eqn:Hins; [|done].
  apply insertRevision_Ok in Hins as (-> & _). by apply noReuse_insertPlan.
Qed.

Lemma noReuse_save planID m ts st : wfStore st → noReuse st (CreatePlanVersion planID m ts st).2.
Proof.
  intros Hwf. unfold CreatePlanVersion. destruct (createVersion planID m ts st) as [[r st']|e] eqn:Hs; [|done].
  destruct (createVersion_keeps _ _ _ _ _ _ Hwf Hs) as (p & Hp & _). destruct (createVersion_writes _ _ _ _ _ _ p Hs Hp) as [Hn [Heq|(row & Hid & _ & Heq)]].
  - apply sameIDs_noReuse. split; [done|]. cbn [snd]. by rewrite Heq.
  - apply sameIDs_noReuse. split; [done|]. cbn [snd]. rewrite Heq. by apply (sameIDs_updatePlan (SP_ID p) (λ _, row)).
Qed.

Lemma noReuse_cancel id ts st : noReuse st (cancelChange id ts st).2.
Proof.
  unfold cancelChange. destruct (List.find _ _); [|done]. destruct (_ || _); [done|].
  destruct (isPlanChange _); [|by apply sameIDs_noReuse]. destruct (Nat.eqb _ _); [|done]. apply noReuse_updatePlan; [done..|]. intros p Hp. by destruct (_ && _).
Qed.

Lemma noReuse_delete planID changeID st : noReuse st (deletePlan planID changeID st).
Proof.
  split; [done|]. intros q. simpl. rewrite <- list_fmap_compose. intros (p & -> & Hp)%list_elem_of_fmap. left.
  apply list_elem_of_In, List.filter_In in Hp as [Hp _]. apply list_elem_of_fmap. exists p. split; [done|]. by apply list_elem_of_In.
Qed.

Lemma noReuse_prune nodeType ids currentID id pruned st : noReuse st (prunePlanRevisionNodesTx nodeType ids currentID id (pruned, st)).2.
Proof. unfold prunePlanRevisionNodesTx. destruct (_ || _); by apply sameIDs_noReuse. Qed.

Lemma noReuse_replaceCurrent nodeType ids ts p st changed st' : replaceCurrent nodeType ids ts p st = Ok (changed, st') → noReuse st st'.
Proof.
  unfold replaceCurrent. destruct (_ =? 0); [by intros [= _ <-]|].
  destruct (loadPlanRevisionSnapshotTx _ _ st) as [c|]; [|done]. cbn [rbind]. destruct (Nat.eqb _ _); [by intros [= _ <-]|].
  destruct (insertRevision _ _ _ _ _ _ _ _ _ _ _ _ _) as [[v st1]|] eqn:Hins; [|done]. apply insertRevision_Ok in Hins as (-> & _). intros [= _ <-].
  by apply noReuse_updatePlan.
Qed.

Lemma noReuse_removeFromPlan nodeType ids ts planID st st' : removeFromPlan nodeType ids ts planID st = Ok st' → noReuse st st'.
Proof.
  unfold removeFromPlan. destruct (findPlan planID st) as [p|]; [|done]. destruct (replaceCurrent _ _ _ p st) as [[changed st1]|] eqn:Hr; [|done]. cbn [rbind].
  pose proof (noReuse_prune nodeType ids (SP_CurrentRevisionID p) (SP_DraftRevisionID p) false st1) as H2.
  destruct (prunePlanRevisionNodesTx _ _ _ _ (false, st1)) as [pr2 st2].
  pose proof (noReuse_prune nodeType ids (SP_CurrentRevisionID p) (SP_LatestRevisionID p) pr2 st2) as H3.
  destruct (prunePlanRevisionNodesTx _ _ _ _ (pr2, st2)) as [pr3 st3]. intros [= <-].
  etrans; [by eapply noReuse_replaceCurrent|]. etrans; [exact H2|]. etrans; [exact H3|]. destruct (_ && _); [|done]. by apply noReuse_updatePlan.
Qed.

Lemma noReuse_releaseStep ts planID acc acc' : releaseStep ts planID acc = Ok acc' → noReuse acc.2 acc'.2.
Proof.
  destruct acc as [b st]. unfold releaseStep, releaseStalePlanPendingTx. destruct (findPlan planID st); [|done].
  destruct (_ =? 0); [by intros [= <-]|]. destruct (applying _ _); intros [= <-]; [done|].
  apply noReuse_updatePlan; [done..|]. intros q Hq. by destruct (_ =? _).
Qed.

Lemma noReuse_remove nodeType nodeIDs ts st : noReuse st (RemoveAssignableNodeFromPlans nodeType nodeIDs ts st).2.
Proof.
  unfold RemoveAssignableNodeFromPlans. destruct (List.filter _ nodeIDs) as [|id rest]; [done|].
  destruct (removeNodes _ _ ts st) as [st'|] eqn:Hr; [|done]. unfold removeNodes in Hr.
  destruct (foldM _ _ ([], st)) as [[b st1]|] eqn:Hf; [|done]. cbn [rbind] in Hr. unfold fail_if in Hr. destruct (negb _); [done|]. cbn [rbind] in Hr.
  eapply (foldM_inv (λ acc, noReuse st acc.2)) in Hf; [|intros; etrans; [done|by eapply noReuse_releaseStep]|done].
  eapply (foldM_inv (λ st', noReuse st st')) in Hr; [done| |done]. intros. etrans; [done|by eapply noReuse_removeFromPlan].
Qed.

Lemma noReuse_op st op : wfStore st → noReuse st (runPlanOp st op).
Proof.
  intros Hwf. destruct op as [name desc en lim nodes ts|planID m ts|planID e c ch ts|nt ids ts|q r|q e|id ts|q id|q name ts|q e nodes o|q en|q r id|l]; cbn [runPlanOp].
  - apply noReuse_create.
  - by apply noReuse_save.
  - unfold activateVersion. destruct (findPlan planID st); [|done]. destruct (negb _); [done|]. destruct (negb _); [done|]. destruct (_ && _); [done|].
    by apply (noReuse_updatePlan planID _ st st).
  - apply noReuse_remove.
  - unfold setPendingIfEmpty. destruct (_ && _); [|done]. case_bool_decide; [done|]. apply noReuse_updatePlan; [done..|]. intros p Hp. by destruct (_ =? 0).
  - apply noReuse_updatePlan; [done..|]. intros p Hp. by destruct (_ =? e).
  - apply noReuse_cancel.
  - apply noReuse_delete.
  - apply noReuse_clone.
  - destruct (SyncPlanDraftNodes _ _ _ _ st) as [r st'] eqn:Hc. by apply sameIDs_noReuse, (SyncPlanDraftNodes_spec _ _ _ _ _ _ _ Hwf Hc).
  - by apply noReuse_updatePlan.
  - unfold SetPlanRevisionActivationChange. destruct (existsb _ _); by apply sameIDs_noReuse.
  - by apply sameIDs_noReuse.
Qed.

Lemma findPlan_None q st : findPlan q st = None ↔ q ∉ (SP_ID <$> ps_plans st).
Proof.
  unfold findPlan. rewrite list_elem_of_fmap. split.
  - intros Hf (p & -> & Hp%list_elem_of_In). apply (List.find_none _ _ Hf) in Hp. by rewrite Z.eqb_refl in Hp.
  - intros Hn. destruct (List.find _ _) as [p|] eqn:Hf; [|done]. apply List.find_some in Hf as [Hp%list_elem_of_In Hid%Z.eqb_eq]. destruct Hn. eauto.
Qed.

Lemma gone_op q st op : wfStore st → q < ps_nextPlan st → findPlan q st = None → q < ps_nextPlan (runPlanOp st op) ∧ findPlan q (runPlanOp st op) = None.
Proof.
  intros Hwf Hq Hn. destruct (noReuse_op st op Hwf) as [Hle Hids]. split; [lia|]. rewrite findPlan_None in *. intros [?|?]%Hids; [done|lia].
Qed.

(** After any transactions the plan is gone, or still there with a lock that is not older. *)
Lemma plan_later q ops st p :
  wfStore st → findPlan q st = Some p →
  findPlan q (runPlanOps ops st) = None ∨ ∃ p', findPlan q (runPlanOps ops st) = Some p' ∧ SP_LockVersion p ≤ SP_LockVersion p'.
Proof.
  intros Hwf Hp. assert (∀ ops st, wfStore st → q < ps_nextPlan st → findPlan q st = None → findPlan q (runPlanOps ops st) = None) as Hgone.
  { clear. induction ops as [|op ops IH]; intros st Hwf Hq Hn; [done|]. destruct (gone_op q st op Hwf Hq Hn). apply IH; [by apply wf_runPlanOp|done..]. }
  revert st p Hwf Hp; induction ops as [|op ops IH]; intros st p Hwf Hp; [right; by exists p|].
  assert (q < ps_nextPlan st) as Hq by (apply findPlan_Some in Hp as [Hin <-]; [|done]; by apply (ws_planIDs _ Hwf)).
  pose proof (wf_runPlanOp st op Hwf) as Hwf'. change (runPlanOps (op :: ops) st) with (runPlanOps ops (runPlanOp st op)).
  destruct (findPlan q (runPlanOp st op)) as [p1|] eqn:Hp1.
  - destruct (IH _ _ Hwf' Hp1) as [?|(p2 & Hp2 & Hle)]; [by left|right]. exists p2. split; [done|].
    destruct (deletes q op) eqn:Hd.
    + destruct op; try done. simpl in Hd. apply Z.eqb_eq in Hd as ->. apply findPlan_Some in Hp1 as [Hin Hid]; [|done].
      apply elem_of_deletePlan in Hin as (p0 & _ & Hne & ->). done.
    + destruct (advances_op q st op Hwf Hd p Hp) as (p' & Hp' & Hle'). rewrite Hp1 in Hp'. injection Hp' as <-. lia.
  - left. apply Hgone; [done| |done]. destruct (noReuse_op st op Hwf). lia.
Qed.

(** ** Authorization *)

(** The transactions that may change what a plan authorizes: an edit of its draft only when
    the draft is the current revision. *)
Definition mayChange (q : Z) (st : PlanStore) (op : planOp) : bool :=
  match op with
  | PActivate planID _ _ _ _ | PDelete planID _ => planID =? q
  | PSyncDraft planID _ _ _ => (planID =? q) && draftIsCurrent q st
  | PRemove _ _ _ => true
  | _ => false
  end.

Lemma quiet_op q st op :
  wfStore st → is_Some (findPlan q st) → mayChange q st op = false → authorized (runPlanOp st op) q = authorized st q.
Proof.
  intros Hwf [p Hp] Hq. destruct op as [name desc en lim nodes ts|planID m ts|planID e c ch ts|nt ids ts|k r|k e|id ts|k id|k name ts|k e nodes o|k en|k r id|l]; cbn [runPlanOp]; simpl in Hq.
  - destruct (CreateSubscriptionPlan _ _ _ _ _ _ st) as [r st'] eqn:Hc. pose proof (CreateSubscriptionPlan_spec _ _ _ _ _ _ _ _ _ Hwf Hc) as (_ & _ & Hr).
    destruct r as [k|e]; [|by rewrite Hr]. destruct Hr as [-> Ha]. apply Ha. apply findPlan_Some in Hp as [Hp <-]; [|done]. pose proof (ws_planIDs _ Hwf p Hp). lia.
  - by apply save_keeps.
  - destruct (activateVersion _ _ _ _ _ st) as [r st'] eqn:Ha. apply (activateVersion_spec _ _ _ _ _ _ _ _ Hwf Ha). lia.
  - done.
  - by apply keeps_setPendingIfEmpty.
  - by apply keeps_clearPending.
  - by apply keeps_cancelChange.
  - apply deletePlan_spec; [done|lia].
  - destruct (CloneSubscriptionPlan _ _ _ st) as [r st'] eqn:Hc. pose proof (CloneSubscriptionPlan_spec _ _ _ _ _ _ Hwf Hc) as (_ & _ & Hr).
    destruct r as [k'|e]; [|by rewrite Hr]. destruct Hr as (-> & Ha & _). apply Ha. apply findPlan_Some in Hp as [Hp <-]; [|done]. pose proof (ws_planIDs _ Hwf p Hp). lia.
  - destruct (SyncPlanDraftNodes _ _ _ _ st) as [r st'] eqn:Hc. apply (SyncPlanDraftNodes_spec _ _ _ _ _ _ _ Hwf Hc).
    apply andb_false_iff in Hq as [Hq|Hq]; [left; lia|]. destruct (decide (q = k)) as [->|]; auto.
  - by apply keeps_enabled.
  - by apply keeps_activationChange.
  - done.
Qed.

(** No transaction of the run may change what the plan authorizes. *)
Fixpoint quietRun (q : Z) (ops : list planOp) (st : PlanStore) : bool :=
  match ops with
  | [] => true
  | op :: ops => negb (mayChange q st op) && quietRun q ops (runPlanOp st op)
  end.

Lemma quiet_ops q ops st :
  wfStore st → is_Some (findPlan q st) → quietRun q ops st = true → authorized (runPlanOps ops st) q = authorized st q.
Proof.
  revert st; induction ops as [|op ops IH]; intros st Hwf Hp Hq; [done|]. simpl in Hq. apply andb_true_iff in Hq as [Hq%negb_true_iff Hqs].
  rewrite <- (quiet_op q st op) by done. apply IH; [by apply wf_runPlanOp| |done]. destruct Hp as [p Hp].
  destruct (advances_op q st op Hwf) with (p := p) as (p' & Hp' & _); [|done|by exists p']. by destruct op.
Qed.
End runs.

(** The codec of the examples: a policy is written as its mode. *)
Definition exampleCodec : PlanCodec :=
  {| marshalPolicy p := Some (Mode p);
     unmarshalPolicy s := Some {| Version := 1; Mode := s; ManualSeed := ""; ExitRegionOrder := []; EntryRegionOrderMode := ""; EntryRegionOrder := [];
                                  EntryOrder := []; NewNodePlacement := ""; UnmatchedPlacement := ""; GroupByLanding := false |};
     DefaultSubscriptionNodeOrderPolicyJSON := OrderExitRegion;
     digestJSON c := let '(limits, policy, _, _, _, nodes) := c in
       (FormatInt (LM_SpeedLimitMbps limits) ++ "," ++ FormatInt (LM_TrafficLimitBytes limits) ++ "," ++ Mode policy ++ "," ++
        foldr (λ n acc, let '(key, group, _, name, _, _) := n in key ++ "/" ++ group ++ "/" ++ default "" name ++ ";" ++ acc) "" nodes)%string |}.

Definition exampleNode (t : string) (id : Z) : PlanNode :=
  {| PN_NodeType := t; PN_NodeID := id; PN_DisplayGroup := ""; PN_SourceType := ""; PN_SourceRuleID := 0; PN_SortPosition := None;
     PN_DisplayNameOverride := None |}.

Definition exampleLimits : PlanLimits := {| LM_SpeedLimitMbps := 100; LM_TrafficLimitBytes := 0; LM_TrafficResetMode := ""; LM_TrafficResetDay := 0 |}.

Definition exampleCreate : planOp := PCreate "basic" "" true exampleLimits [exampleNode "inbound" 7; exampleNode "proxy_path" 3] 10.

(** A save with an expected lock that only moves the speed limit. *)
Definition exampleSave (lock speed : Z) : PlanVersionMutation :=
  {| VM_BaseRevisionID := 0; VM_ExpectedLockVersion := lock; VM_Meta := None;
     VM_Settings := Some {| SM_SpeedLimitMbps := Some speed; SM_TrafficLimitBytes := None; SM_TrafficResetMode := None; SM_TrafficResetDay := None |};
     VM_Nodes := None; VM_Ordering := None; VM_MembershipPolicy := None; VM_NodePresentation := None; VM_ChangeKind := ""; VM_ChangeSummary := "" |}.

Notation runExample := (runPlanOps (Cod := exampleCodec) (M := map_range_default string PlanNode)).

Section contracts.
Context {Cod : PlanCodec} {M : MapRange string PlanNode}.

(** C8. What a plan authorizes, its limits and the set of its nodes, is changed only by an
    activation of one of its versions, by the removal of a node, by its deletion, or by
    editing a draft that is itself the current revision: any sequence of saves, creations,
    clones, other edits of drafts, moves of the pending pointer and of access changes, and of
    transactions on other plans leaves it as it is. *)
Theorem plan_authorization_guarded ops0 ops q :
  is_Some (findPlan q (runPlanOps ops0 emptyPlans)) → quietRun q ops (runPlanOps ops0 emptyPlans) = true →
  authorized (runPlanOps ops (runPlanOps ops0 emptyPlans)) q = authorized (runPlanOps ops0 emptyPlans) q.
Proof. intros Hq Hops. apply quiet_ops; [apply wf_runPlanOps, wf_emptyPlans|done..]. Qed.

(** C25. Optimistic locking: when a save with an expected lock has written, every later save that
    expects the same lock is refused and changes nothing, whatever other transactions ran
    in between.  It is a conflict; when the plan was deleted since, it is not found, and its
    identifier is never given to another plan. *)
Theorem stale_save_refused ops0 planID m1 ts1 r st1 ops m2 ts2 :
  CreatePlanVersion planID m1 ts1 (runPlanOps ops0 emptyPlans) = (Ok r, st1) → st1 ≠ runPlanOps ops0 emptyPlans →
  0 < VM_ExpectedLockVersion m1 → VM_ExpectedLockVersion m2 = VM_ExpectedLockVersion m1 →
  let st2 := runPlanOps ops st1 in
  CreatePlanVersion planID m2 ts2 st2 =
    (Err (if bool_decide (is_Some (findPlan planID st2)) then ErrPlanRevisionConflict else PErrNoRows), st2).
Proof.
  set (st := runPlanOps ops0 emptyPlans). assert (wfStore st) as Hwf by apply wf_runPlanOps, wf_emptyPlans. unfold CreatePlanVersion at 1.
  destruct (createVersion planID m1 ts1 st) as [[r' st1']|e] eqn:Hs; [|done]. intros [= -> ->] Hne Hpos Hexp. set (st2 := runPlanOps ops st1).
  destruct (createVersion_keeps _ _ _ _ _ _ Hwf Hs) as (p & Hp & Hk & Hl & Hlock). specialize (Hlock Hpos).
  destruct Hl as [[_ ?]|(_ & row & Hrow & Hrl)]; [done|]. pose proof Hp as [_ Hid]%findPlan_Some; [|done]. rewrite Hid in Hrow.
  pose proof (kp_wf _ _ Hk) as Hwf1. pose proof (wf_runPlanOps ops _ Hwf1 : wfStore st2) as Hwf2.
  destruct (plan_later planID ops st1 row Hwf1 Hrow : findPlan planID st2 = None ∨ ∃ p2, findPlan planID st2 = Some p2 ∧ _) as [Hgone|(p2 & Hp2 & Hle)].
  { unfold CreatePlanVersion, createVersion. rewrite Hgone. done. }
  rewrite bool_decide_eq_true_2 by (by exists p2). pose proof Hp2 as [Hin2 Hid2]%findPlan_Some; [|done].
  destruct (ws_latest _ Hwf2 p2 Hin2) as (v & Hv & Hvid & _). pose proof (ws_revisionIDs _ Hwf2 v Hv) as Hvpos.
  unfold CreatePlanVersion, createVersion. rewrite Hp2. cbn [rbind]. unfold fail_if. rewrite (proj2 (Z.eqb_neq (SP_LatestRevisionID p2) 0)) by lia. cbn [rbind].
  rewrite (proj2 (Z.ltb_lt 0 (VM_ExpectedLockVersion m2))), (proj2 (Z.eqb_neq (VM_ExpectedLockVersion m2) (SP_LockVersion p2))) by lia. done.
Qed.

(** *** Removal of a node *)

Lemma kept_keys nodeType ids l :
  (list_to_set (nodeKey <$> keptNodes nodeType ids l) : gset string) = list_to_set (nodeKey <$> l) ∖ list_to_set (NodeKeyOf nodeType <$> ids).
Proof.
  apply set_eq. intros k. rewrite elem_of_difference, !elem_of_list_to_set, !list_elem_of_fmap. unfold keptNodes.
  setoid_rewrite list_elem_of_In at 1. setoid_rewrite List.filter_In. split.
  - intros (n & -> & Hn%list_elem_of_In & Hr). split; [eauto|]. intros (id & Heq & Hid). apply NodeKeyOf_inj in Heq as [Ht Hi].
    unfold removedNode in Hr. rewrite Ht, Hi, String.eqb_refl, bool_decide_eq_true_2 in Hr; done.
  - intros [(n & -> & Hn) Hno]. exists n. split; [done|]. split; [by apply list_elem_of_In|]. apply negb_true_iff. unfold removedNode.
    destruct (String.eqb_spec (PN_NodeType n) nodeType) as [Ht|]; [|done]. simpl. apply bool_decide_eq_false_2. intros Hid. apply Hno.
    exists (PN_NodeID n). split; [|done]. unfold nodeKey, planRevisionNodeKey. by rewrite Ht.
Qed.

Lemma trimmed_difference nodeType ids st q :
  trimmed nodeType ids st q = (λ a, (a.1, a.2 ∖ list_to_set (NodeKeyOf nodeType <$> ids))) <$> authorized st q.
Proof.
  unfold trimmed, authorized. destruct (findPlan q st) as [p|]; [|done]. simpl. destruct (findRevision _ st) as [v|]; [|done]. simpl.
  by rewrite kept_keys.
Qed.

(** C9. Removing nodes from the plans succeeds unless a plan that points to one of them is being
    applied.  Then every plan authorizes exactly what it did without these nodes, and no
    current, latest or pending revision of any plan holds one of them; a refused removal
    names the plans it waits for and changes nothing. *)
Theorem node_removed_from_plans ops nodeType nodeIDs ts :
  let st := runPlanOps ops emptyPlans in let ids := List.filter (λ id, 0 <? id) nodeIDs in
  let '(r, st') := RemoveAssignableNodeFromPlans nodeType nodeIDs ts st in
  if bool_decide (blockers nodeType ids st = []) then
    r = Ok () ∧ ∀ q, freeOfNode nodeType ids st' q ∧
      authorized st' q = (λ a, (a.1, a.2 ∖ list_to_set (NodeKeyOf nodeType <$> ids))) <$> authorized st q
  else r = Err (planVersionApplyingError (blockers nodeType ids st)) ∧ st' = st.
Proof.
  intros st ids. assert (wfStore st) as Hwf by apply wf_runPlanOps, wf_emptyPlans. unfold RemoveAssignableNodeFromPlans. fold ids.
  destruct ids as [|id rest] eqn:Hids.
  { assert (∀ id, holdsNode nodeType [] id st = false) as Hno.
    { intros id. unfold holdsNode. destruct (findRevision id st) as [v|]; [|done]. apply not_true_iff_false. rewrite List.existsb_exists.
      intros (n & _ & Hr). unfold removedNode in Hr. rewrite bool_decide_eq_false_2, andb_false_r in Hr; [done|apply not_elem_of_nil]. }
    rewrite bool_decide_eq_true_2.
    - split; [done|]. intros q. split; [by intros p _|]. rewrite <- trimmed_difference. destruct (findPlan q st) as [p|] eqn:Hp.
      + by erewrite trimmed_clean.
      + unfold trimmed, authorized. by rewrite Hp.
    - unfold blockers. destruct (affectedPlans nodeType [] st) as [|q l] eqn:Ha; [done|].
      assert (q ∈ affectedPlans nodeType [] st) as (p & _ & _ & Hh)%elem_of_affected by (rewrite Ha; by constructor). by rewrite !Hno in Hh. }
  case_bool_decide as Hb.
  - destruct (removeNodes_free nodeType (id :: rest) ts st Hwf Hb) as (st' & -> & _ & Hall). split; [done|]. intros q.
    destruct (Hall q) as [Ha Hf]. split; [done|]. by rewrite <- trimmed_difference.
  - by rewrite (removeNodes_blocked nodeType (id :: rest) ts st Hwf Hb).
Qed.
End contracts.

Lemma plan_authorization_guarded_witness :
  authorized (runExample [PSave 1 (exampleSave 1 50) 20; PSetPending 1 2] (runExample [exampleCreate] emptyPlans)) 1
    = authorized (runExample [exampleCreate] emptyPlans) 1.
Proof. apply plan_authorization_guarded; [by eexists|reflexivity]. Defined.

Lemma stale_save_refused_witness :
  let st1 := (CreatePlanVersion (Cod := exampleCodec) (M := map_range_default string PlanNode) 1 (exampleSave 1 50) 20 (runExample [exampleCreate] emptyPlans)).2 in
  let st2 := runExample [PClearPending 1 2; PSyncDraft 1 0 [exampleNode "inbound" 8] "add"] st1 in
  let st3 := runExample [PDelete 1 0; exampleCreate] st1 in
  CreatePlanVersion (Cod := exampleCodec) (M := map_range_default string PlanNode) 1 (exampleSave 1 70) 30 st2 = (Err ErrPlanRevisionConflict, st2) ∧
  CreatePlanVersion (Cod := exampleCodec) (M := map_range_default string PlanNode) 1 (exampleSave 1 70) 30 st3 = (Err PErrNoRows, st3).
Proof.
  intros st1 st2 st3.
  assert (st1 ≠ runExample [exampleCreate] emptyPlans) as Hne.
  { intros Heq. apply (f_equal (λ st, length (ps_revisions st))) in Heq. vm_compute in Heq. discriminate. }
  split; (etrans; [eapply (stale_save_refused (Cod := exampleCodec) (M := map_range_default string PlanNode) [exampleCreate] 1 (exampleSave 1 50) 20 _ st1);
    [vm_compute; reflexivity|exact Hne|done..]|]); vm_compute; reflexivity.
Defined.

(** The life of a version: a save waits as pending, its activation makes it current, and the
    removal of a node replaces it. *)
Example plan_lifecycle :
  let st1 := runExample [exampleCreate; PSave 1 (exampleSave 1 50) 20] emptyPlans in
  let st2 := runExample [PActivate 1 1 2 0 30] st1 in
  let st3 := runExample [PRemove "inbound" [7] 40] st2 in
  let row st := (λ p, (SP_CurrentRevisionID p, SP_LatestRevisionID p, SP_PendingRevisionID p, SP_LockVersion p)) <$> findPlan 1 st in
  row st1 = Some (1, 2, 2, 2) ∧ row st2 = Some (2, 2, 0, 2) ∧ row st3 = Some (3, 3, 0, 3) ∧
  (LM_SpeedLimitMbps ∘ fst <$> authorized st3 1) = Some 50.
Proof. vm_compute. done. Qed.

(** The life of a draft: it is created from the current version, edited in place, pruned with a
    node and left out of what the plan authorizes; a clone starts without one. *)
Example draft_lifecycle :
  let st1 := runExample [exampleCreate; PSyncDraft 1 1 [exampleNode "inbound" 8] "add"] emptyPlans in
  let st2 := runExample [PRemove "inbound" [8] 20] st1 in
  let st3 := runExample [PClone 1 "copy" 30] st1 in
  let draft st := (λ p, (SP_CurrentRevisionID p, SP_DraftRevisionID p, SP_Revision p, SP_LockVersion p)) <$> findPlan 1 st in
  draft st1 = Some (1, 2, 2, 1) ∧ (PN_NodeID <$> revisionNodes 2 st1) = [7; 3; 8] ∧
  draft st2 = Some (1, 2, 3, 2) ∧ (PN_NodeID <$> revisionNodes 2 st2) = [7; 3] ∧
  authorized st3 2 = authorized st1 1 ∧ SP_DraftRevisionID <$> findPlan 2 st3 = Some 0.
Proof. vm_compute. done. Qed.

(** A version that was saved while an earlier one is being applied waits as the latest one.
    Cancelling the change of the earlier version resets the latest pointer to the current
    version, and the saved version is no longer the desired one. *)
Example cancel_discards_saved_version :
  let publish := {| AC_ID := 1; AC_ChangeType := AccessChangePlanPublish; AC_SourcePlanID := 1; AC_CandidateRevisionID := 2;
    AC_ExpectedActiveRevisionID := 1; AC_Status := AccessChangePreparing; AC_Kind := ""; AC_ActivateAt := None; AC_Error := "";
    AC_ActivatedAt := None; AC_FinalizedAt := None; AC_FailedAt := None |} in
  let st := runExample [exampleCreate; PSave 1 (exampleSave 1 50) 20; PChanges [publish]; PSave 1 (exampleSave 2 70) 30] emptyPlans in
  let st' := runExample [PCancel 1 40] st in
  SP_LatestRevisionID <$> findPlan 1 st = Some 3 ∧ SP_LatestRevisionID <$> findPlan 1 st' = Some 1 ∧
  (λ p, (SP_CurrentRevisionID p, SP_PendingRevisionID p)) <$> findPlan 1 st' = Some (1, 0).
Proof. vm_compute. done. Qed.

(** ** The nodes of a candidate *)

(** What a mutation makes of the node with a key: each key on its own, in the order of the
    request. *)
Definition mutatedNode (nodes : list PlanNode) (m : PlanNodesMutation) (key : string) : option PlanNode :=
  let existing := last (filter (λ n, nodeKey n = key) nodes) in
  let requested := filter (λ n, nodeKey n = key) (NM_Nodes m) in
  if (NM_Op m =? "add")%string then foldl (λ cur pn, Some (match cur with Some e => upsertNode pn e | None => pn end)) existing requested
  else if (NM_Op m =? "remove")%string then match requested with [] => existing | _ => None end
  else (λ pn, match existing with Some e => if NM_ReplaceSnapshot m then pn else survivingNode pn e | None => pn end) <$> last requested.

Definition wellKeyed (byKey : gmap string PlanNode) : Prop := ∀ key n, byKey !! key = Some n → nodeKey n = key.

Lemma add_lookup l byKey key :
  foldl addNode byKey l !! key = foldl (λ cur pn, Some (match cur with Some e => upsertNode pn e | None => pn end)) (byKey !! key) (filter (λ n, nodeKey n = key) l).
Proof.
  revert byKey; induction l as [|pn l IH]; intros byKey; [done|]. cbn [foldl]. rewrite IH, filter_cons. unfold addNode.
  destruct (decide (nodeKey pn = key)) as [<-|Hne]; cbn [foldl].
  - destruct (byKey !! nodeKey pn); by rewrite lookup_insert_eq.
  - destruct (byKey !! nodeKey pn); by rewrite lookup_insert_ne.
Qed.

Lemma remove_lookup l (byKey : gmap string PlanNode) key :
  foldl (λ byKey pn, delete (nodeKey pn) byKey) byKey l !! key = match filter (λ n, nodeKey n = key) l with [] => byKey !! key | _ => None end.
Proof.
  revert byKey; induction l as [|pn l IH]; intros byKey; [done|]. cbn [foldl]. rewrite IH, filter_cons.
  destruct (decide (nodeKey pn = key)) as [<-|Hne]; [rewrite lookup_delete_eq|by rewrite lookup_delete_ne]. by destruct (filter _ l).
Qed.

Lemma replace_lookup byKey snapshot l replacement key :
  foldl (replaceNode byKey snapshot) replacement l !! key =
  match last (filter (λ n, nodeKey n = key) l) with
  | Some pn => Some (match byKey !! key with Some e => if snapshot then pn else survivingNode pn e | None => pn end)
  | None => replacement !! key
  end.
Proof.
  revert replacement; induction l as [|pn l IH]; intros replacement; [done|]. cbn [foldl]. rewrite IH, filter_cons.
  destruct (decide (nodeKey pn = key)) as [<-|Hne].
  - rewrite last_cons. destruct (last (filter _ l)); [done|]. unfold replaceNode. destruct (byKey !! nodeKey pn); by rewrite lookup_insert_eq.
  - destruct (last (filter _ l)); [done|]. unfold replaceNode. destruct (byKey !! nodeKey pn); by rewrite lookup_insert_ne.
Qed.

Lemma mutatedNode_key nodes m key n : mutatedNode nodes m key = Some n → nodeKey n = key.
Proof.
  unfold mutatedNode. set (existing := last _). assert (∀ e, existing = Some e → nodeKey e = key) as He.
  { intros e Hl. apply last_Some_elem_of, list_elem_of_filter in Hl. tauto. }
  destruct (_ =? "add")%string; [|destruct (_ =? "remove")%string].
  - assert (Forall (λ n, nodeKey n = key) (filter (λ n, nodeKey n = key) (NM_Nodes m))) as Hall by (apply Forall_forall; intros x ?%list_elem_of_filter; tauto).
    revert He. generalize existing. induction Hall as [|pn l Hpn _ IH]; intros cur Hcur; [apply Hcur|]. cbn [foldl]. apply IH.
    intros e [= <-]. destruct cur as [e|]; [exact (Hcur e eq_refl)|exact Hpn].
  - destruct (filter _ (NM_Nodes m)); [apply He|done].
  - intros (pn & Hpn & ->)%fmap_Some. apply last_Some_elem_of, list_elem_of_filter in Hpn as [Hpn _].
    destruct existing; [|done]. by destruct (NM_ReplaceSnapshot m).
Qed.

#[export] Instance nodeOrder_Cmp : Cmp nodeOrder.
Proof. apply _. Qed.

#[export] Instance nodeLess_sw : StrictWeak nodeLess.
Proof. apply ltc_strict_weak, _. Qed.

Lemma nodeLess_sep a b : nodeLess a b = false → nodeLess b a = false → nodeKey a = nodeKey b.
Proof.
  unfold nodeLess, ltc. rewrite (cmp_anti (c := nodeOrder) a b). destruct (nodeOrder a b) eqn:Heq; try done. intros _ _.
  unfold nodeOrder, lexc, onc in Heq. destruct (String.compare _ _) eqn:Hs in Heq; try done. apply String.compare_eq_iff in Hs.
  apply Z.compare_eq in Heq. unfold nodeKey. by rewrite Hs, Heq.
Qed.

Lemma sorted_nodes_strict l : NoDup (nodeKey <$> l) → StronglySorted (λ a b, nodeLess a b = true) (sort_slice nodeLess l).
Proof.
  intros Hnd. rewrite <- (sort_slice_perm nodeLess l) in Hnd. induction (sort_slice_sorted nodeLess l) as [|a l' Hs IH Ha]; [constructor|].
  apply NoDup_cons in Hnd as [Hn Hnd]. constructor; [by apply IH|]. apply Forall_forall. intros b Hb. rewrite Forall_forall in Ha.
  specialize (Ha b Hb). destruct (nodeLess a b) eqn:Hlt; [done|]. destruct Hn. rewrite (nodeLess_sep _ _ Hlt Ha). by apply list_elem_of_fmap_2.
Qed.

(** The enumeration of a well-keyed map, sorted. *)
Lemma sorted_range {M : MapRange string PlanNode} (byKey : gmap string PlanNode) :
  wellKeyed byKey →
  StronglySorted (λ a b, nodeLess a b = true) (sort_slice nodeLess (map_range byKey).*2) ∧
  (∀ n, n ∈ sort_slice nodeLess (map_range byKey).*2 ↔ byKey !! nodeKey n = Some n).
Proof.
  intros Hwk. split.
  - apply sorted_nodes_strict. rewrite <- list_fmap_compose. erewrite list_fmap_ext; [apply (NoDup_map_range byKey)|].
    intros i [k n] Hi%list_elem_of_lookup_2%elem_of_map_range. by apply Hwk.
  - intros n. rewrite sort_slice_perm, list_elem_of_fmap. split.
    + intros ([k n'] & -> & Hin%elem_of_map_range). simpl. by rewrite (Hwk k n' Hin).
    + intros Hn. exists (nodeKey n, n). by rewrite elem_of_map_range.
Qed.

(** The nodes of a candidate are a strictly sorted list without repeated nodes, in which the
    node of every key is what the mutation makes of that key alone: an addition updates the
    group, the source and the name of a present node, a replacement keeps the position and
    the name of a surviving one.  It does not depend on the order in which Go iterates over
    the map; another operation is refused. *)
Theorem nodes_mutation_correct (M : MapRange string PlanNode) nodes m :
  match applyNodesMutation nodes m with
  | Ok l => StronglySorted (λ a b, nodeLess a b = true) l ∧ (∀ n, n ∈ l ↔ mutatedNode nodes m (nodeKey n) = Some n) ∧
            ∀ M' : MapRange string PlanNode, applyNodesMutation (M := M') nodes m = Ok l
  | Err e => e = PErrNodesOp ∧ NM_Op m ∉ ["add"; "remove"; "replace"]%string
  end.
Proof.
  assert (∀ byKey, (∀ key, byKey !! key = mutatedNode nodes m key) → ∀ M' : MapRange string PlanNode,
    let l := sort_slice nodeLess (map_range (MapRange := M) byKey).*2 in
    (StronglySorted (λ a b, nodeLess a b = true) l ∧ ∀ n, n ∈ l ↔ mutatedNode nodes m (nodeKey n) = Some n) ∧
    sort_slice nodeLess (map_range (MapRange := M') byKey).*2 = l) as Hmap.
  { intros byKey Hby M'. assert (wellKeyed byKey) as Hwk by (intros key n; rewrite Hby; apply mutatedNode_key). split.
    - setoid_rewrite <- Hby. by apply (sorted_range (M := M)).
    - apply sort_slice_perm_eq; [apply _| |etrans; [apply fmap_Permutation, map_range_perm|symmetry; apply fmap_Permutation, map_range_perm]].
      intros a b Ha Hb H1 H2. pose proof (nodeLess_sep _ _ H1 H2) as Hk. destruct (sorted_range (M := M) byKey Hwk) as [_ Hin].
      rewrite <- (sort_slice_perm nodeLess), Hin in Ha, Hb. congruence. }
  assert (∀ byKey, (∀ key, byKey !! key = mutatedNode nodes m key) →
    let l := sort_slice nodeLess (map_range byKey).*2 in
    StronglySorted (λ a b, nodeLess a b = true) l ∧ (∀ n, n ∈ l ↔ mutatedNode nodes m (nodeKey n) = Some n) ∧
    ∀ M' : MapRange string PlanNode, Ok (sort_slice nodeLess (map_range (MapRange := M') byKey).*2) = Ok (E := PlanErr) l) as Hok.
  { intros byKey Hby. split_and!; [by apply Hmap..|]. intros M'. by rewrite (proj2 (Hmap byKey Hby M')). }
  clear Hmap. unfold applyNodesMutation, mutatedNode in *.
  destruct (NM_Op m =? "add")%string eqn:Hadd; [|destruct (NM_Op m =? "remove")%string eqn:Hrem; [|destruct (NM_Op m =? "replace")%string eqn:Hrep]]; cbn [rbind].
  - apply Hok. intros key. by rewrite add_lookup, indexBy_last.
  - apply Hok. intros key. by rewrite remove_lookup, indexBy_last.
  - apply Hok. intros key. rewrite replace_lookup, indexBy_last. by destruct (last (filter _ (NM_Nodes m))).
  - split; [done|]. rewrite !not_elem_of_cons. apply String.eqb_neq in Hadd, Hrem, Hrep. split_and!; [done..|apply not_elem_of_nil].
Qed.
