(* ===== verification/PlanVersionRefinement.v ===== *)
(** * The plan pointers of access changes

    The access changes of [AccessChanges] see only the revision pointers of the plans.  This
    file shows that their statements on these pointers are the transactions of the plan
    store: the pointers are a view of its rows, and every transaction on the rows is the
    statement on the view, with the same outcome. *)

From S2P Require Import Prelude Model NodeKeys AccessSnapshot SubscriptionOrder Prog AccessChanges PlanVersions PlanVersionSafety PlanVersionContracts.

Local Open Scope Z_scope.

(** ** The view *)

Definition pointersOf (p : PlanRow) : PlanPointers :=
  {| PL_ID := SP_ID p; PL_Current := SP_CurrentRevisionID p; PL_Latest := SP_LatestRevisionID p; PL_Pending := SP_PendingRevisionID p |}.

Record views (st : PlanStore) (w : CWorld) : Prop := {
  vw_plans : plans w = pointersOf <$> ps_plans st;
  vw_changes : changes w = ps_changes st }.

(** The errors of the two components. *)
Definition sameOutcome (r : result PlanErr unit) (r' : result CErr unit) : Prop :=
  match r, r' with
  | Ok _, Ok _ => True
  | Err PErrNoRows, Err CNoRows => True
  | Err ErrPlanRevisionConflict, Err CRevisionConflict => True
  | Err ErrAccessChangeNotCancellable, Err CNotCancellable => True
  | Err PErrNotPending, Err (CFailure _) => True
  | _, _ => False
  end.

(** The statements both components execute. *)
Inductive pointerOp :=
| OActivate (planID expected candidate changeID ts : Z)
| OCancel (changeID ts : Z)
| OClear (planID expected : Z).

Definition storeStep (op : pointerOp) (st : PlanStore) : result PlanErr unit * PlanStore :=
  match op with
  | OActivate planID expected candidate changeID ts => activateVersion planID expected candidate changeID ts st
  | OCancel changeID ts => cancelChange changeID ts st
  | OClear planID expected => (Ok (), clearPending planID expected st)
  end.

(** The plan of the candidate is read in the transaction. *)
Definition worldStep (op : pointerOp) (st : PlanStore) (w : CWorld) : result CErr unit * CWorld :=
  match op with
  | OActivate planID expected candidate changeID _ => ActivatePlanVersionGuarded (RV_PlanID <$> findRevision candidate st) planID expected candidate changeID w
  | OCancel changeID ts => MarkAccessChangeCancelled changeID ts w
  | OClear planID expected => (Ok (), ClearPendingRevision planID expected w)
  end.

Lemma find_view st w planID : views st w → List.find (λ p, PL_ID p =? planID) (plans w) = pointersOf <$> findPlan planID st.
Proof.
  intros [-> _]. unfold findPlan. induction (ps_plans st) as [|p l IH]; [done|]. rewrite fmap_cons. cbn [List.find]. by destruct (_ =? planID).
Qed.

(** Rewriting the rows and the view of them in the same way. *)
Lemma view_rewrite (f : PlanRow → PlanRow) (g : PlanPointers → PlanPointers) (l : list PlanRow) :
  (∀ p, pointersOf (f p) = g (pointersOf p)) → g <$> (pointersOf <$> l) = pointersOf <$> (f <$> l).
Proof. intros Hfg. rewrite <- !list_fmap_compose. apply list_fmap_ext. intros i p _. simpl. by rewrite Hfg. Qed.

Lemma filter_view (f : PlanRow → bool) (g : PlanPointers → bool) (l : list PlanRow) :
  (∀ p, g (pointersOf p) = f p) → length (List.filter g (pointersOf <$> l)) = length (List.filter f l).
Proof. intros Hfg. induction l as [|p l IH]; [done|]. rewrite fmap_cons. cbn [List.filter]. rewrite Hfg. destruct (f p); simpl; by rewrite IH. Qed.

Lemma activate_view planID expected candidate changeID ts st w :
  views st w →
  sameOutcome (activateVersion planID expected candidate changeID ts st).1
    (ActivatePlanVersionGuarded (RV_PlanID <$> findRevision candidate st) planID expected candidate changeID w).1 ∧
  views (activateVersion planID expected candidate changeID ts st).2
    (ActivatePlanVersionGuarded (RV_PlanID <$> findRevision candidate st) planID expected candidate changeID w).2.
Proof.
  intros Hv. pose proof Hv as [Hp Hc]. unfold activateVersion, ActivatePlanVersionGuarded, getChange. rewrite (find_view st w planID Hv), Hc.
  destruct (findPlan planID st) as [p|]; [|done]. simpl. destruct (_ =? expected); cbn [negb]; [|done].
  case_bool_decide; cbn [negb]; [|done]. destruct (List.find _ (ps_changes st)) as [c|].
  - destruct ((0 <? changeID) && _); [done|]. split; [done|]. split; [|done]. simpl. rewrite Hp. apply view_rewrite.
    intros q. simpl. destruct (SP_ID q =? planID); [|done]. simpl. by destruct (_ =? candidate).
  - rewrite andb_false_r. split; [done|]. split; [|done]. simpl. rewrite Hp. apply view_rewrite.
    intros q. simpl. destruct (SP_ID q =? planID); [|done]. simpl. by destruct (_ =? candidate).
Qed.

Lemma cancel_view changeID ts st w :
  views st w →
  sameOutcome (cancelChange changeID ts st).1 (MarkAccessChangeCancelled changeID ts w).1 ∧
  views (cancelChange changeID ts st).2 (MarkAccessChangeCancelled changeID ts w).2.
Proof.
  intros Hv. pose proof Hv as [Hp Hc]. unfold cancelChange, MarkAccessChangeCancelled, getChange. rewrite Hc.
  destruct (List.find _ (ps_changes st)) as [c|]; [|done]. destruct (_ || _); [done|]. destruct (isPlanChange _); [|by split].
  rewrite Hp, (filter_view (λ p, (SP_ID p =? AC_SourcePlanID c) && (SP_PendingRevisionID p =? AC_CandidateRevisionID c) && negb (SP_PendingRevisionID p =? 0))) by done.
  destruct (Nat.eqb _ 1); [|done]. split; [done|]. split; [|done]. simpl. apply view_rewrite.
  intros q. simpl. destruct (SP_ID q =? _); [|done]. simpl. destruct (Z.eqb_spec (SP_PendingRevisionID q) (AC_CandidateRevisionID c)) as [->|]; [|done]. simpl.
  by destruct (AC_CandidateRevisionID c =? 0).
Qed.

Lemma clear_view planID expected st w : views st w → views (clearPending planID expected st) (ClearPendingRevision planID expected w).
Proof.
  intros [Hp Hc]. split; [|done]. simpl. rewrite Hp. apply view_rewrite. intros q. simpl.
  destruct (SP_ID q =? planID); [|done]. simpl. by destruct (_ =? expected).
Qed.

Lemma step_view op st w : views st w → sameOutcome (storeStep op st).1 (worldStep op st w).1 ∧ views (storeStep op st).2 (worldStep op st w).2.
Proof.
  intros Hv. destruct op; [by apply activate_view|by apply cancel_view|]. split; [done|]. by apply clear_view.
Qed.

(** Runs of both, with the outcome of every statement. *)
Fixpoint storeRun (ops : list pointerOp) (st : PlanStore) : list (result PlanErr unit) * PlanStore :=
  match ops with
  | [] => ([], st)
  | op :: ops => let '(r, st1) := storeStep op st in let '(rs, st2) := storeRun ops st1 in (r :: rs, st2)
  end.

Fixpoint worldRun (ops : list pointerOp) (st : PlanStore) (w : CWorld) : list (result CErr unit) * CWorld :=
  match ops with
  | [] => ([], w)
  | op :: ops => let '(r, w1) := worldStep op st w in let '(rs, w2) := worldRun ops (storeStep op st).2 w1 in (r :: rs, w2)
  end.

(** The plan store refines the pointers that the access changes work with: over any sequence
    of activations, cancellations and releases of the pending pointer, the pointers stay a
    view of the rows and every statement ends with the same outcome on both. *)
Theorem plan_pointers_refined ops st w :
  views st w →
  Forall2 sameOutcome (storeRun ops st).1 (worldRun ops st w).1 ∧ views (storeRun ops st).2 (worldRun ops st w).2.
Proof.
  revert st w; induction ops as [|op ops IH]; intros st w Hv; [done|]. simpl. pose proof (step_view op st w Hv) as [Ho Hv1].
  destruct (storeStep op st) as [r st1], (worldStep op st w) as [r' w1]. simpl in *. specialize (IH st1 w1 Hv1) as [IHo IHv].
  destruct (storeRun ops st1), (worldRun ops st1 w1). simpl in *. split; [by constructor|done].
Qed.

Definition exampleWorld (st : PlanStore) : CWorld :=
  {| changes := ps_changes st; targets := []; plans := pointersOf <$> ps_plans st; log := []; nextID := 1; ctick := 0 |}.

Lemma plan_pointers_refined_witness :
  let st := runExample [exampleCreate; PSave 1 (exampleSave 1 50) 20] emptyPlans in
  let ops := [OActivate 1 7 2 0 30; OActivate 1 1 2 0 30; OCancel 4 40; OClear 1 2] in
  Forall2 sameOutcome (storeRun ops st).1 (worldRun ops st (exampleWorld st)).1 ∧ views (storeRun ops st).2 (worldRun ops st (exampleWorld st)).2.
Proof. intros st ops. apply (plan_pointers_refined ops st (exampleWorld st)). split; reflexivity. Defined.
