(* ===== verification/ProxyPathNames.v ===== *)
(** * Names of proxy paths ([internal/core/proxy_path_names.go])

    A path gets the name its users see from its route: entry and exit, then the intermediate
    nodes that tell it from paths with the same ends, then its transports, then a number.
    The labels of a route, the configuration of a generated chain ([internal/core/proxy_paths.go])
    and the templates of custom names are modelled here; [ProxyPathNameSafety] proves that the
    names are unique.

    The two loops of the resolution without a bound in the source have fuel and return
    [None] without it, which is proved not to happen. *)

From S2P Require Import Prelude Model NodeKeys NetAddr ListenResources.

Local Open Scope Z_scope.
Local Open Scope go_scope.

(** ** Zero values: what reading a missing key of a map of structs gives *)

Definition zeroServer : Server :=
  {| Server_ID := 0; Server_PortRangeStart := 0; Server_PortRangeEnd := 0; Server_InternalPortRangeStart := 0;
     Server_InternalPortRangeEnd := 0; Server_ListenIP := ""; Server_ListenMode := ""; Server_PublicIPv6 := "";
     Server_InterfaceIPv6 := ""; Server_Name := ""; Server_Status := ""; Server_RegionMode := "";
     Server_RegionCode := ""; Server_DetectedRegionCode := ""; Server_EntryAddress := ""; Server_PublicIPv4 := ""; Server_EntryIPMode := ""; Server_IPStack := "" |}.

Definition zeroInbound : Inbound :=
  {| Inbound_ID := 0; Inbound_ServerID := 0; Inbound_Name := ""; Inbound_Protocol := ""; Inbound_ListenIP := "";
     Inbound_Port := 0; Inbound_ConfigJSON := ""; Inbound_Enabled := false; Inbound_EntryIPMode := ""; Inbound_ExternalIP := "" |}.

Definition zeroExternal : ExternalOutbound :=
  {| External_ID := 0; External_ServerID := None; External_Name := ""; External_Protocol := ""; External_Scope := "";
     External_RegionMode := ""; External_RegionCode := ""; External_DetectedRegionCode := "";
     External_EffectiveRegionCode := ""; External_RegionSource := ""; External_RegionStatus := "";
     External_RegionError := ""; External_RegionProbedAt := None; External_ExposeToUsers := false;
     External_Enabled := false; External_TargetAddress := ""; External_TargetPort := 0; External_ConfigJSON := "" |}.

Definition serverAt (servers : gmap Z Server) (id : Z) : Server := default zeroServer (servers !! id).
Definition inboundAt (inbounds : gmap Z Inbound) (id : Z) : Inbound := default zeroInbound (inbounds !! id).
Definition externalAt (externals : gmap Z ExternalOutbound) (id : Z) : ExternalOutbound := default zeroExternal (externals !! id).

(** [p != nil && *p != 0] *)
Definition isSet (p : option Z) : bool := match p with Some id => negb (id =? 0) | None => false end.

(** ** Steps of a path *)

Definition stepCmp : ProxyPathStep → ProxyPathStep → comparison :=
  lexc (onc Step_Position Z.compare) (onc Step_ID Z.compare).

Definition orderedProxyPathSteps (steps : list ProxyPathStep) : list ProxyPathStep := sort_slice (ltc stepCmp) steps.

(** The loop over the map sorts every slice in place. *)
Definition proxyPathNameStepsByPath (steps : list ProxyPathStep) : gmap Z (list ProxyPathStep) :=
  sort_slice (ltc stepCmp) <$> groupBy Step_PathID steps.

Definition proxyPathStepTargetServer (step : ProxyPathStep) (inboundByID : gmap Z Inbound) : option (Z * option Inbound) :=
  match Step_InboundID step with
  | Some id =>
      if negb (id =? 0) then
        match inboundByID !! id with
        | Some inbound => Some (Inbound_ServerID inbound, Some inbound)
        | None => None
        end
      else match Step_ServerID step with
           | Some id => if negb (id =? 0) then Some (id, None) else None
           | None => None
           end
  | None => match Step_ServerID step with
            | Some id => if negb (id =? 0) then Some (id, None) else None
            | None => None
            end
  end.

Definition proxyPathIsActive (path : ProxyPath) (steps : list ProxyPathStep) : bool :=
  ProxyPath_Enabled path && ((ProxyPath_Kind path =? ProxyPathKindDirect)%string || negb (bool_decide (steps = []))).

(** ** Labels *)

Definition proxyPathNameSeparator : string := "｜".

Definition proxyPathServerLabel (server : Server) (id : Z) : string :=
  firstNonEmpty [TrimSpace (Server_Name server); "服务器 #" +:+ FormatInt id]%string.

Definition externalLabel (external : ExternalOutbound) (id : Z) : string :=
  firstNonEmpty [TrimSpace (External_Name external); "导入节点 #" +:+ FormatInt id]%string.

Section labels.
Context (servers : gmap Z Server) (inbounds : gmap Z Inbound) (externals : gmap Z ExternalOutbound).

Definition stepServerID (step : ProxyPathStep) : Z :=
  match Step_ServerID step, Step_InboundID step with
  | Some id, _ => id
  | None, Some id => Inbound_ServerID (inboundAt inbounds id)
  | None, None => 0
  end.

Definition stepServerLabel (step : ProxyPathStep) : list string :=
  let serverID := stepServerID step in
  if serverID =? 0 then [] else [proxyPathServerLabel (serverAt servers serverID) serverID].

Definition stepLabels (step : ProxyPathStep) : list string :=
  let kind := Step_NodeType step in
  if (kind =? ProxyPathStepWARP)%string then ["WARP"%string]
  else if (kind =? ProxyPathStepVPNGate)%string then ["VPNGate"%string]
  else if (kind =? ProxyPathStepImported)%string then
    match Step_ExternalOutboundID step with
    | Some id => [externalLabel (externalAt externals id) id]
    | None => stepServerLabel step
    end
  else stepServerLabel step.

Definition proxyPathRouteLabels (path : ProxyPath) (steps : list ProxyPathStep) : list string :=
  let root := inboundAt inbounds (ProxyPath_InboundID path) in
  proxyPathServerLabel (serverAt servers (Inbound_ServerID root)) (Inbound_ServerID root) ::
  List.concat (stepLabels <$> steps).
End labels.

Definition lastOf (route : list string) : string := List.last route ""%string.
Definition middleOf (route : list string) : list string := take (length route - 2) (List.tl route).

Definition joinLabels (labels : list string) : string := String.concat proxyPathNameSeparator labels.

Definition automaticProxyPathName (route : list string) : string :=
  match route with
  | [] => "代理拓扑"
  | [label] => label
  | first :: _ => joinLabels [first; lastOf route]
  end.

(** ** The configuration of a generated chain *)

Definition DefaultProxyPathChainMethod : string := "2022-blake3-aes-128-gcm".
Definition DefaultProxyPathRealityHandshakeServer : string := "cdn.icloud-content.com".
Definition DefaultProxyPathRealityHandshakePort : Z := 443.

(** The keys of [proxyPathChainMethods]. *)
Definition proxyPathChainMethods : list string :=
  ["2022-blake3-aes-128-gcm"; "2022-blake3-aes-256-gcm"; "2022-blake3-chacha20-poly1305"]%string.

Definition normalizeProxyPathChainMethod (method : string) : string :=
  let method := ToLower (TrimSpace method) in
  if (method =? "")%string then DefaultProxyPathChainMethod else method.

Inductive NameErr :=
| HostRequired | HostTooLong | HostUnsafe | InvalidIPv6Host | InvalidHostLabel | InvalidHostByte
| UnsupportedChainMethod (method : string)
| UnsupportedChainProtocol (protocol : string)
| ChainPort (e : ListenErr)
| UnsupportedNameMode (mode : string)
| TemplateRequired | TemplateTooLong
| LiteralReferencesResource
| ServerNotInPath (id : Z) | ServerMissing (id : Z)
| ExternalNotInPath (id : Z) | ExternalMissing (id : Z)
| UnsupportedPartKind (kind : string)
| EmptyName.

Definition ValidateProxyPathChainMethod (method : string) : result NameErr unit :=
  let method := normalizeProxyPathChainMethod method in
  fail_if (negb (bool_decide (method ∈ proxyPathChainMethods))) (UnsupportedChainMethod method).

(** [strings.Contains] for one byte, [strings.HasPrefix], [strings.Contains] for a text,
    [strings.Index] and [strings.Split] for one byte. *)
Definition hasByte (c : ascii) (s : list ascii) : bool := bool_decide (c ∈ s).

Fixpoint hasPrefix (prefix s : list ascii) : bool :=
  match prefix, s with
  | [], _ => true
  | p :: prefix, c :: s => bool_decide (p = c) && hasPrefix prefix s
  | _ :: _, [] => false
  end.

Fixpoint containsText (text s : list ascii) : bool :=
  hasPrefix text s || match s with [] => false | _ :: s => containsText text s end.

Fixpoint indexByte (c : ascii) (s : list ascii) : option nat :=
  match s with
  | [] => None
  | x :: s => if decide (x = c) then Some 0%nat else S <$> indexByte c s
  end.

Fixpoint splitByte (c : ascii) (s : list ascii) : list (list ascii) :=
  match s with
  | [] => [[]]
  | x :: s => if decide (x = c) then [] :: splitByte c s
              else match splitByte c s with
                   | first :: rest => (x :: first) :: rest
                   | [] => [[x]]
                   end
  end.

(** [net.ParseIP]: an address without a zone. *)
Definition ParseIP (s : string) : bool :=
  match ParseAddr s with
  | Some (Addr4 _) => true
  | Some (Addr6 _ zone) => (zone =? "")%string
  | None => false
  end.

Definition labelByte (c : ascii) : bool :=
  let b := byte_of c in
  (97 <=? b) && (b <=? 122) || (65 <=? b) && (b <=? 90) || (48 <=? b) && (b <=? 57) || (b =? 45).

Definition hostLabel (label : list ascii) (_ : unit) : result NameErr unit :=
  if bool_decide (label = []) || Nat.ltb 63 (length label) then Err InvalidHostLabel
  else if bool_decide (List.hd "."%char label = "-"%char) || bool_decide (List.last label "."%char = "-"%char) then Err InvalidHostLabel
  else fail_if (negb (forallb labelByte label)) InvalidHostByte.

(** The loops over the characters of a host only accept ASCII, so they are loops over bytes. *)
Definition ValidateSafeHost (host : string) : result NameErr unit :=
  let host := bytes_of (TrimSpace host) in
  if bool_decide (host = []) then Err HostRequired
  else if Nat.ltb 253 (length host) then Err HostTooLong
  else if hasPrefix ["-"%char] host || containsText (bytes_of "://") host || hasByte "@"%char host || hasByte "/"%char host
  then Err HostUnsafe
  else if existsb (λ c, bool_decide (byte_of c ∈ [32; 9; 10; 13])) host then Err HostUnsafe
  else
    let* check :=
      if hasPrefix ["["%char] host then
        match indexByte "]"%char host with
        | Some end_ => if Nat.leb end_ 1 then Err InvalidIPv6Host else Ok (take (end_ - 1) (drop 1 host))
        | None => Err InvalidIPv6Host
        end
      else Ok host in
    if ParseIP (of_bytes check) then Ok () else foldM hostLabel (splitByte "."%char check) ().

(** [fmt.Sscanf(v, "%d", &n)]: white space up to a newline, a sign, digits. *)
Fixpoint skipSpace (fuel : nat) (s : list ascii) : option (list ascii) :=
  match fuel with
  | 0%nat => Some s
  | S fuel =>
      match s with
      | c :: _ => if byte_of c =? 10 then None
                  else match drop_space s with
                       | Some s' => skipSpace fuel s'
                       | None => Some s
                       end
      | [] => Some []
      end
  end.

Fixpoint leadingDigits (s : list ascii) : list ascii :=
  match s with
  | c :: s => if (48 <=? byte_of c) && (byte_of c <=? 57) then c :: leadingDigits s else []
  | [] => []
  end.

Definition scanInt (v : string) : option Z :=
  match skipSpace (String.length v) (bytes_of v) with
  | Some (c :: s) =>
      if bool_decide (c ∈ ["+"%char; "-"%char]) then ParseInt (of_bytes (c :: leadingDigits s))
      else ParseInt (of_bytes (leadingDigits (c :: s)))
  | _ => None
  end.

(** A decoded number is a [float64], so the case of an [int] does not occur. *)
Definition intValueFromMap (m : gmap string JSON) (key : string) (fallback : Z) : Z :=
  match m !! key with
  | Some (JNumber n) => if 0 <? n then n else fallback
  | Some JFraction => 0
  | Some (JString v) => match scanInt v with Some n => if 0 <? n then n else fallback | None => fallback end
  | _ => fallback
  end.

Record ProxyPathChainConfig := {
  CC_Protocol : string;
  CC_Method : string;
  CC_RealityHandshakeServer : string;
  CC_RealityHandshakePort : Z }.

Section chain.
Context {D : ListenDecoder}.

Definition proxyPathStepChainMethod (step : ProxyPathStep) : string :=
  normalizeProxyPathChainMethod (stringValue (parseStepConfig (Step_ConfigJSON step)) "chain_method" "").

Definition ParseProxyPathChainConfig (raw : string) : result NameErr ProxyPathChainConfig :=
  let cfg := parseStepConfig raw in
  let protocol := ToLower (TrimSpace (stringValue cfg "chain_protocol" ProtocolSS)) in
  let protocol := if (protocol =? "")%string then ProtocolSS else protocol in
  if (protocol =? ProtocolSS)%string then
    let method := normalizeProxyPathChainMethod (stringValue cfg "chain_method" "") in
    let* _ := ValidateProxyPathChainMethod method in
    Ok {| CC_Protocol := protocol; CC_Method := method; CC_RealityHandshakeServer := ""; CC_RealityHandshakePort := 0 |}
  else if (protocol =? ProtocolVLESS)%string then
    let server := ToLower (TrimSpace (stringValue cfg "reality_handshake_server" DefaultProxyPathRealityHandshakeServer)) in
    let port := intValueFromMap cfg "reality_handshake_port" DefaultProxyPathRealityHandshakePort in
    let* _ := ValidateSafeHost server in
    match ValidatePort port with
    | Err e => Err (ChainPort e)
    | Ok _ => Ok {| CC_Protocol := protocol; CC_Method := ""; CC_RealityHandshakeServer := server;
                    CC_RealityHandshakePort := port |}
    end
  else if bool_decide (protocol ∈ [ProtocolMieru; ProtocolSocks]) then
    Ok {| CC_Protocol := protocol; CC_Method := ""; CC_RealityHandshakeServer := ""; CC_RealityHandshakePort := 0 |}
  else Err (UnsupportedChainProtocol protocol).

Definition proxyPathStepChainConfig (step : ProxyPathStep) : result NameErr ProxyPathChainConfig :=
  ParseProxyPathChainConfig (Step_ConfigJSON step).

(** ** Transport features *)

Definition proxyProtocolName (protocol : string) : string :=
  if (protocol =? ProtocolVLESS)%string then "VLESS"
  else if (protocol =? ProtocolHY2)%string then "HY2"
  else if (protocol =? ProtocolAnyTLS)%string then "AnyTLS"
  else if (protocol =? ProtocolSS)%string then "SS"
  else if (protocol =? ProtocolMieru)%string then "Mieru"
  else if (protocol =? ProtocolSocks)%string then "SOCKS"
  else if (protocol =? ProtocolSSH)%string then "SSH"
  else ToUpper protocol.

Definition proxyPathChainMethodName (method : string) : string :=
  let method := normalizeProxyPathChainMethod method in
  if (method =? "2022-blake3-aes-256-gcm")%string then "SS2022-256"
  else if (method =? "2022-blake3-chacha20-poly1305")%string then "SS2022-ChaCha20"
  else "SS2022-128".

Definition transportMode (step : ProxyPathStep) : string :=
  if (Step_TransportMode step =? "")%string then ProxyPathTransportSingBox else Step_TransportMode step.

Section features.
Context (inbounds : gmap Z Inbound) (externals : gmap Z ExternalOutbound).

Definition transportFeature (path : ProxyPath) (step : ProxyPathStep) : string :=
  let mode := transportMode step in
  if (mode =? ProxyPathTransportPortForward)%string then
    let protocol := transparentForwardProtocol (inboundAt inbounds (ProxyPath_InboundID path)) in
    if (protocol =? ForwardProtocolUDP)%string then "UDP转发"
    else if (protocol =? ForwardProtocolTCPUDP)%string then "TCP+UDP转发"
    else "TCP转发"
  else if (mode =? ProxyPathTransportTunnel)%string then
    let tunnelType := ToLower (stringValue (parseStepConfig (Step_ConfigJSON step)) "type" "ssh") in
    if (tunnelType =? "wireguard")%string || (tunnelType =? "wg")%string then "WireGuard" else "SSH"
  else if isSet (Step_InboundID step) then
    proxyProtocolName (Inbound_Protocol (inboundAt inbounds (default 0 (Step_InboundID step))))
  else
    match proxyPathStepChainConfig step with
    | Ok chain => if negb (CC_Protocol chain =? ProtocolSS)%string then proxyProtocolName (CC_Protocol chain)
                  else proxyPathChainMethodName (proxyPathStepChainMethod step)
    | Err _ => proxyPathChainMethodName (proxyPathStepChainMethod step)
    end.

Definition stepFeature (path : ProxyPath) (step : ProxyPathStep) : string :=
  let kind := Step_NodeType step in
  if (kind =? ProxyPathStepWARP)%string then "WARP"
  else if (kind =? ProxyPathStepVPNGate)%string then "VPNGate"
  else if (kind =? ProxyPathStepImported)%string then
    match Step_ExternalOutboundID step with
    | Some id => proxyProtocolName (External_Protocol (externalAt externals id))
    | None => transportFeature path step
    end
  else transportFeature path step.

Definition addFeature (path : ProxyPath) (features : list string) (step : ProxyPathStep) : list string :=
  let feature := stepFeature path step in
  if negb (feature =? "")%string && negb (feature =? lastOf features)%string then features ++ [feature] else features.

Definition proxyPathNameFeatures (path : ProxyPath) (steps : list ProxyPathStep) : list string :=
  foldl (addFeature path) [proxyProtocolName (Inbound_Protocol (inboundAt inbounds (ProxyPath_InboundID path)))] steps.
End features.
End chain.

(** ** Templates of custom names *)

Section templates.
Context (servers : gmap Z Server) (externals : gmap Z ExternalOutbound).

Definition renderPart (part : ProxyPathNamePart) (builder : string) : result NameErr string :=
  let kind := NP_Kind part in
  if (kind =? ProxyPathNameLiteral)%string then Ok (builder +:+ NP_Value part)
  else if (kind =? ProxyPathNameServer)%string then
    match servers !! NP_ServerID part with
    | Some server => Ok (builder +:+ proxyPathServerLabel server (NP_ServerID part))
    | None => Err (ServerMissing (NP_ServerID part))
    end
  else if (kind =? ProxyPathNameExternalOutbound)%string then
    match externals !! NP_ExternalOutboundID part with
    | Some external => Ok (builder +:+ externalLabel external (NP_ExternalOutboundID part))
    | None => Err (ExternalMissing (NP_ExternalOutboundID part))
    end
  else Err (UnsupportedPartKind kind).

Definition renderProxyPathNameTemplate (parts : list ProxyPathNamePart) : result NameErr string :=
  foldM renderPart parts ""%string.
End templates.

(** The servers and imported nodes a template may name. *)
Definition referenceStep (path : ProxyPath) (inbounds : gmap Z Inbound) (refs : gset Z * gset Z) (step : ProxyPathStep) :
    gset Z * gset Z :=
  if negb (Step_PathID step =? ProxyPath_ID path) then refs
  else
    let '(servers, externals) := refs in
    let servers := if isSet (Step_ServerID step) then {[default 0 (Step_ServerID step)]} ∪ servers else servers in
    let servers := if isSet (Step_InboundID step)
                   then {[Inbound_ServerID (inboundAt inbounds (default 0 (Step_InboundID step)))]} ∪ servers else servers in
    let externals := if isSet (Step_ExternalOutboundID step)
                     then {[default 0 (Step_ExternalOutboundID step)]} ∪ externals else externals in
    (servers, externals).

Definition proxyPathNameReferences (path : ProxyPath) (steps : list ProxyPathStep) (inbounds : gmap Z Inbound) : gset Z * gset Z :=
  let servers : gset Z := match inbounds !! ProxyPath_InboundID path with
                          | Some root => {[Inbound_ServerID root]}
                          | None => ∅
                          end in
  foldl (referenceStep path inbounds) (servers, ∅) steps.

Definition literalPart (value : string) : ProxyPathNamePart :=
  {| NP_Kind := ProxyPathNameLiteral; NP_Value := value; NP_ServerID := 0; NP_ExternalOutboundID := 0 |}.
Definition serverPart (id : Z) : ProxyPathNamePart :=
  {| NP_Kind := ProxyPathNameServer; NP_Value := ""; NP_ServerID := id; NP_ExternalOutboundID := 0 |}.
Definition externalPart (id : Z) : ProxyPathNamePart :=
  {| NP_Kind := ProxyPathNameExternalOutbound; NP_Value := ""; NP_ServerID := 0; NP_ExternalOutboundID := id |}.

(** A literal is merged into the literal before it. *)
Definition appendLiteral (value : string) (normalized : list ProxyPathNamePart) : list ProxyPathNamePart :=
  match last normalized with
  | Some p => if (NP_Kind p =? ProxyPathNameLiteral)%string
              then removelast normalized ++
                   [{| NP_Kind := NP_Kind p; NP_Value := NP_Value p +:+ value; NP_ServerID := NP_ServerID p;
                       NP_ExternalOutboundID := NP_ExternalOutboundID p |}]
              else normalized ++ [literalPart value]
  | None => normalized ++ [literalPart value]
  end.

Section normalize.
Context (serverByID : gmap Z Server) (externalByID : gmap Z ExternalOutbound).
Context (allowedServers allowedExternals : gset Z).

Definition normalizePart (part : ProxyPathNamePart) (normalized : list ProxyPathNamePart) :
    result NameErr (list ProxyPathNamePart) :=
  let kind := NP_Kind part in
  if (kind =? ProxyPathNameLiteral)%string then
    if negb (NP_ServerID part =? 0) || negb (NP_ExternalOutboundID part =? 0) then Err LiteralReferencesResource
    else if (NP_Value part =? "")%string then Ok normalized
    else Ok (appendLiteral (NP_Value part) normalized)
  else if (kind =? ProxyPathNameServer)%string then
    let id := NP_ServerID part in
    if (id =? 0) || negb (bool_decide (id ∈ allowedServers)) then Err (ServerNotInPath id)
    else match serverByID !! id with
         | None => Err (ServerMissing id)
         | Some _ => Ok (normalized ++ [serverPart id])
         end
  else if (kind =? ProxyPathNameExternalOutbound)%string then
    let id := NP_ExternalOutboundID part in
    if (id =? 0) || negb (bool_decide (id ∈ allowedExternals)) then Err (ExternalNotInPath id)
    else match externalByID !! id with
         | None => Err (ExternalMissing id)
         | Some _ => Ok (normalized ++ [externalPart id])
         end
  else Err (UnsupportedPartKind kind).
End normalize.

Definition setNaming (mode : string) (template : list ProxyPathNamePart) (p : ProxyPath) : ProxyPath :=
  {| ProxyPath_ID := ProxyPath_ID p; ProxyPath_Kind := ProxyPath_Kind p; ProxyPath_Name := ProxyPath_Name p;
     ProxyPath_NameMode := mode; ProxyPath_NameTemplate := template; ProxyPath_InboundID := ProxyPath_InboundID p;
     ProxyPath_ExitRegionMode := ProxyPath_ExitRegionMode p; ProxyPath_ExitRegionCode := ProxyPath_ExitRegionCode p;
     ProxyPath_DetectedExitRegionCode := ProxyPath_DetectedExitRegionCode p;
     ProxyPath_EffectiveExitRegionCode := ProxyPath_EffectiveExitRegionCode p;
     ProxyPath_ExitRegionSource := ProxyPath_ExitRegionSource p; ProxyPath_ExitRegionStatus := ProxyPath_ExitRegionStatus p;
     ProxyPath_ExitRegionError := ProxyPath_ExitRegionError p; ProxyPath_ExitRegionProbedAt := ProxyPath_ExitRegionProbedAt p;
     ProxyPath_Enabled := ProxyPath_Enabled p |}.

(** The path after the call, and the error; the mode is set before any check. *)
Definition NormalizeProxyPathName (path : ProxyPath) (steps : list ProxyPathStep) (servers : list Server)
    (inbounds : list Inbound) (externals : list ExternalOutbound) : ProxyPath * result NameErr unit :=
  let mode := if (ProxyPath_NameMode path =? "")%string then ProxyPathNameAuto else ProxyPath_NameMode path in
  let path := setNaming mode (ProxyPath_NameTemplate path) path in
  if (mode =? ProxyPathNameAuto)%string then (setNaming mode [] path, Ok ())
  else
    let checked :=
      let* _ := fail_if (negb (mode =? ProxyPathNameCustom)%string) (UnsupportedNameMode mode) in
      let* _ := fail_if (bool_decide (ProxyPath_NameTemplate path = [])) TemplateRequired in
      let* _ := fail_if (Nat.ltb 32 (length (ProxyPath_NameTemplate path))) TemplateTooLong in
      let serverByID := indexBy Server_ID servers in
      let inboundByID := indexBy Inbound_ID inbounds in
      let externalByID := indexBy External_ID externals in
      let '(allowedServers, allowedExternals) := proxyPathNameReferences path steps inboundByID in
      let* normalized := foldM (normalizePart serverByID externalByID allowedServers allowedExternals)
                               (ProxyPath_NameTemplate path) [] in
      let* _ := fail_if (bool_decide (normalized = [])) EmptyName in
      match renderProxyPathNameTemplate serverByID externalByID normalized with
      | Err _ => Err EmptyName
      | Ok name => let* _ := fail_if (TrimSpace name =? "")%string EmptyName in Ok normalized
      end in
    match checked with
    | Ok normalized => (setNaming mode normalized path, Ok ())
    | Err e => (path, Err e)
    end.

Definition ProxyPathNameTemplateIsValid (path : ProxyPath) (steps : list ProxyPathStep) (servers : list Server)
    (inbounds : list Inbound) (externals : list ExternalOutbound) : bool :=
  is_ok (NormalizeProxyPathName path steps servers inbounds externals).2.

(** ** Resolving all names *)

Record proxyPathNameState := {
  st_path : ProxyPath;
  st_route : list string;
  st_directSuffix : bool;
  st_features : list string;
  st_featureDepth : nat;
  st_middles : list string;
  st_middleDepth : nat;
  st_base : string;
  st_active : bool }.

Definition setPathName (name : string) (p : ProxyPath) : ProxyPath :=
  {| ProxyPath_ID := ProxyPath_ID p; ProxyPath_Kind := ProxyPath_Kind p; ProxyPath_Name := name;
     ProxyPath_NameMode := ProxyPath_NameMode p; ProxyPath_NameTemplate := ProxyPath_NameTemplate p;
     ProxyPath_InboundID := ProxyPath_InboundID p; ProxyPath_ExitRegionMode := ProxyPath_ExitRegionMode p;
     ProxyPath_ExitRegionCode := ProxyPath_ExitRegionCode p;
     ProxyPath_DetectedExitRegionCode := ProxyPath_DetectedExitRegionCode p;
     ProxyPath_EffectiveExitRegionCode := ProxyPath_EffectiveExitRegionCode p;
     ProxyPath_ExitRegionSource := ProxyPath_ExitRegionSource p; ProxyPath_ExitRegionStatus := ProxyPath_ExitRegionStatus p;
     ProxyPath_ExitRegionError := ProxyPath_ExitRegionError p; ProxyPath_ExitRegionProbedAt := ProxyPath_ExitRegionProbedAt p;
     ProxyPath_Enabled := ProxyPath_Enabled p |}.

Definition st_ID (s : proxyPathNameState) : Z := ProxyPath_ID (st_path s).
Definition st_Name (s : proxyPathNameState) : string := ProxyPath_Name (st_path s).

Definition setName (name : string) (s : proxyPathNameState) : proxyPathNameState :=
  {| st_path := setPathName name (st_path s); st_route := st_route s; st_directSuffix := st_directSuffix s;
     st_features := st_features s; st_featureDepth := st_featureDepth s; st_middles := st_middles s;
     st_middleDepth := st_middleDepth s; st_base := st_base s; st_active := st_active s |}.

Definition setDirectSuffix (s : proxyPathNameState) : proxyPathNameState :=
  {| st_path := st_path s; st_route := st_route s; st_directSuffix := true; st_features := st_features s;
     st_featureDepth := st_featureDepth s; st_middles := st_middles s; st_middleDepth := st_middleDepth s;
     st_base := st_base s; st_active := st_active s |}.

Definition setFeatureDepth (depth : nat) (s : proxyPathNameState) : proxyPathNameState :=
  {| st_path := st_path s; st_route := st_route s; st_directSuffix := st_directSuffix s; st_features := st_features s;
     st_featureDepth := depth; st_middles := st_middles s; st_middleDepth := st_middleDepth s;
     st_base := st_base s; st_active := st_active s |}.

Definition setMiddles (middles : list string) (depth : nat) (s : proxyPathNameState) : proxyPathNameState :=
  {| st_path := st_path s; st_route := st_route s; st_directSuffix := st_directSuffix s; st_features := st_features s;
     st_featureDepth := st_featureDepth s; st_middles := middles; st_middleDepth := depth;
     st_base := st_base s; st_active := st_active s |}.

(** *** Shared intermediate nodes *)

(** The table of [commonProxyPathMiddle]: row [i] from row [i+1], from the right. *)
Fixpoint lengthsRow (x : string) (b : list string) (below : list nat) : list nat :=
  match b with
  | [] => [0%nat]
  | y :: b =>
      let row := lengthsRow x b (List.tl below) in
      (if decide (x = y) then S (List.hd 0%nat (List.tl below)) else Nat.max (List.hd 0%nat below) (List.hd 0%nat row)) :: row
  end.

Fixpoint lengthsTable (a b : list string) : list (list nat) :=
  match a with
  | [] => [repeat 0%nat (S (length b))]
  | x :: a => let table := lengthsTable a b in lengthsRow x b (List.hd [] table) :: table
  end.

Definition lengthAt (table : list (list nat)) (i j : nat) : nat := List.nth j (List.nth i table []) 0%nat.

Fixpoint commonWalk (fuel : nat) (a b : list string) (lengths : list (list nat)) (i j : nat) : list string :=
  match fuel with
  | 0%nat => []
  | S fuel =>
      match a !! i, b !! j with
      | Some x, Some y =>
          if decide (x = y) then x :: commonWalk fuel a b lengths (S i) (S j)
          else if Nat.leb (lengthAt lengths i (S j)) (lengthAt lengths (S i) j) then commonWalk fuel a b lengths (S i) j
          else commonWalk fuel a b lengths i (S j)
      | _, _ => []
      end
  end.

(** Every step of the walk advances in [a] or [b]. *)
Definition commonProxyPathMiddle (a b : list string) : list string :=
  commonWalk (length a + length b) a b (lengthsTable a b) 0 0.

(** The labels that are not matched with the common ones, in order. *)
Fixpoint residual (common labels : list string) : list string :=
  match labels with
  | [] => []
  | label :: labels =>
      match common with
      | c :: common' => if decide (label = c) then residual common' labels else label :: residual common labels
      | [] => label :: residual common labels
      end
  end.

Definition routeAt (states : list proxyPathNameState) (index : nat) : list string :=
  match states !! index with Some s => st_route s | None => [] end.
Definition idAt (states : list proxyPathNameState) (index : nat) : Z :=
  match states !! index with Some s => st_ID s | None => 0 end.

Definition middleGrouped (s : proxyPathNameState) : bool :=
  st_active s && negb (ProxyPath_NameMode (st_path s) =? ProxyPathNameCustom)%string && Nat.leb 2 (length (st_route s)).

Definition endsOf (route : list string) : string * string := (List.hd ""%string route, lastOf route).

Definition middleGroups (states : list proxyPathNameState) : gmap (string * string) (list nat) :=
  foldl (λ groups '(index, s), if middleGrouped s then mappend (endsOf (st_route s)) index groups else groups)
        ∅ (imap pair states).

Definition groupCommon (states : list proxyPathNameState) (indexes : list nat) : list string :=
  match sort_slice (ltc (onc (idAt states) Z.compare)) indexes with
  | [] => []
  | first :: rest =>
      foldl (λ common index, commonProxyPathMiddle common (middleOf (routeAt states index)))
            (middleOf (routeAt states first)) rest
  end.

(** The depth is only set when there are nodes to show; it was 0. *)
Definition hideCommon (common : list string) (s : proxyPathNameState) : proxyPathNameState :=
  let middles := residual common (middleOf (st_route s)) in
  setMiddles middles (if bool_decide (middles = []) then st_middleDepth s else 1%nat) s.

Definition middleGroup (states : list proxyPathNameState) (indexes : list nat) : list proxyPathNameState :=
  if Nat.ltb (length indexes) 2 then states
  else
    let common := groupCommon states indexes in
    foldl (λ states index, alter (hideCommon common) index states) states
          (sort_slice (ltc (onc (idAt states) Z.compare)) indexes).

Definition resolveProxyPathMiddleNames {M : MapRange (string * string) (list nat)} (states : list proxyPathNameState) :
    list proxyPathNameState :=
  foldl (λ states '(_, indexes), middleGroup states indexes) states (map_range (middleGroups states)).

(** *** Names and conflicts *)

Definition stateName (s : proxyPathNameState) : string :=
  let name := match st_middleDepth s with
              | 0%nat => st_base s
              | depth => joinLabels (List.hd ""%string (st_route s) :: take depth (st_middles s) ++ [lastOf (st_route s)])
              end in
  let name := if st_directSuffix s then name +:+ proxyPathNameSeparator +:+ "直出" else name in
  let name := match st_featureDepth s with
              | 0%nat => name
              | depth => name +:+ proxyPathNameSeparator +:+ joinLabels (take depth (st_features s))
              end in
  let name := TrimSpace name in
  if (name =? "")%string then "代理拓扑"%string else name.

Definition recomputeProxyPathNames (states : list proxyPathNameState) : list proxyPathNameState :=
  (λ s, setName (stateName s) s) <$> states.

Definition nameCounts (states : list proxyPathNameState) : gmap string nat :=
  foldl (λ counts s, if st_active s then <[st_Name s := S (default 0%nat (counts !! st_Name s))]> counts else counts) ∅ states.

(** The identifiers of the paths whose name is taken. *)
Definition proxyPathNameConflicts (states : list proxyPathNameState) (reserved : gset string) : gset Z :=
  let counts := nameCounts states in
  foldl (λ out s, if st_active s && (Nat.ltb 1 (default 0%nat (counts !! st_Name s)) || bool_decide (st_Name s ∈ reserved))
                  then {[st_ID s]} ∪ out else out) ∅ states.

(** *** Growing the names *)

Definition suffixes (conflicts : gset Z) (s : proxyPathNameState) : bool :=
  bool_decide (st_ID s ∈ conflicts) && (ProxyPath_Kind (st_path s) =? ProxyPathKindDirect)%string.

Definition middleGrows (conflicts : gset Z) (s : proxyPathNameState) : bool :=
  bool_decide (st_ID s ∈ conflicts) && Nat.ltb 0 (st_middleDepth s) && Nat.ltb (st_middleDepth s) (length (st_middles s)).

Definition featureGrows (conflicts : gset Z) (s : proxyPathNameState) : bool :=
  bool_decide (st_ID s ∈ conflicts) && Nat.ltb (st_featureDepth s) (length (st_features s)).

(** A loop over the states that changes those with a property. *)
Definition changeWhere (p : proxyPathNameState → bool) (f : proxyPathNameState → proxyPathNameState)
    (states : list proxyPathNameState) : list proxyPathNameState :=
  (λ s, if p s then f s else s) <$> states.

Definition suffixDirect (reserved : gset string) (states : list proxyPathNameState) : list proxyPathNameState :=
  let conflicts := proxyPathNameConflicts states reserved in
  if existsb (suffixes conflicts) states
  then recomputeProxyPathNames (changeWhere (suffixes conflicts) setDirectSuffix states) else states.

(** One iteration; [None] is the [break]. *)
Definition growStep (reserved : gset string) (states : list proxyPathNameState) : option (list proxyPathNameState) :=
  let conflicts := proxyPathNameConflicts states reserved in
  if existsb (middleGrows conflicts) states
  then Some (recomputeProxyPathNames (changeWhere (middleGrows conflicts) (λ s, setMiddles (st_middles s) (S (st_middleDepth s)) s) states))
  else if existsb (featureGrows conflicts) states
  then Some (recomputeProxyPathNames (changeWhere (featureGrows conflicts) (λ s, setFeatureDepth (S (st_featureDepth s)) s) states))
  else None.

Fixpoint growLoop (fuel : nat) (reserved : gset string) (states : list proxyPathNameState) : option (list proxyPathNameState) :=
  match growStep reserved states with
  | None => Some states
  | Some states' => match fuel with
                    | 0%nat => None
                    | S fuel => growLoop fuel reserved states'
                    end
  end.

(** How often names can grow. *)
Definition growRoom (s : proxyPathNameState) : nat :=
  length (st_middles s) - st_middleDepth s + (length (st_features s) - st_featureDepth s).
Definition growFuel (states : list proxyPathNameState) : nat := sum_list (growRoom <$> states).

(** *** Numbering the rest *)

(** [%02d] *)
Definition pad2 (n : Z) : string := if n <? 10 then "0" +:+ FormatInt n else FormatInt n.

Definition numberedName (name : string) (ordinal : Z) : string := name +:+ proxyPathNameSeparator +:+ pad2 ordinal.

(** The first ordinal from [ordinal] whose candidate is free. *)
Fixpoint freeOrdinal (fuel : nat) (ordinal : Z) (name : string) (used : gset string) : option Z :=
  match fuel with
  | 0%nat => None
  | S fuel => if decide (numberedName name ordinal ∈ used) then freeOrdinal fuel (ordinal + 1) name used else Some ordinal
  end.

Definition freeName (fuel : nat) (ordinal : Z) (name : string) (used : gset string) : option string :=
  numberedName name <$> freeOrdinal fuel ordinal name used.

Fixpoint numberStates (unresolved : gset Z) (states : list proxyPathNameState) (used : gset string) :
    option (list proxyPathNameState) :=
  match states with
  | [] => Some []
  | s :: rest =>
      if negb (st_active s) || negb (bool_decide (st_ID s ∈ unresolved)) then cons s <$> numberStates unresolved rest used
      else match freeName (S (size used)) 1 (st_Name s) used with
           | None => None
           | Some candidate => cons (setName candidate s) <$> numberStates unresolved rest ({[candidate]} ∪ used)
           end
  end.

Definition usedNames (reserved : gset string) (unresolved : gset Z) (states : list proxyPathNameState) : gset string :=
  foldl (λ used s, if st_active s && negb (bool_decide (st_ID s ∈ unresolved)) then {[st_Name s]} ∪ used else used)
        reserved states.

(** *** The resolution *)

Section resolve.
Context {D : ListenDecoder} {M : MapRange (string * string) (list nat)}.
Context (paths : list ProxyPath) (steps : list ProxyPathStep) (servers : list Server)
        (inbounds : list Inbound) (externals : list ExternalOutbound).

Definition pathSteps (p : ProxyPath) : list ProxyPathStep := mlist (proxyPathNameStepsByPath steps) (ProxyPath_ID p).
Definition pathActive (p : ProxyPath) : bool := proxyPathIsActive p (pathSteps p).

Definition activePathByInbound : gset Z :=
  foldl (λ out p, if pathActive p then {[ProxyPath_InboundID p]} ∪ out else out) ∅ paths.

(** The names of the inbounds and imported nodes that users see beside the paths. *)
Definition reservedNames : gset string :=
  let reserved := foldl (λ reserved inbound,
    if Inbound_Enabled inbound && negb (bool_decide (Inbound_ID inbound ∈ activePathByInbound)) then
      let name := TrimSpace (Inbound_Name inbound) in if negb (name =? "")%string then {[name]} ∪ reserved else reserved
    else reserved) ∅ inbounds in
  foldl (λ reserved external,
    if External_Enabled external && External_ExposeToUsers external then
      let name := TrimSpace (External_Name external) in if negb (name =? "")%string then {[name]} ∪ reserved else reserved
    else reserved) reserved externals.

Definition baseName (p : ProxyPath) (route : list string) : string :=
  let base := automaticProxyPathName route in
  if (ProxyPath_NameMode p =? ProxyPathNameCustom)%string then
    match renderProxyPathNameTemplate (indexBy Server_ID servers) (indexBy External_ID externals) (ProxyPath_NameTemplate p) with
    | Ok rendered => if negb (TrimSpace rendered =? "")%string then TrimSpace rendered else base
    | Err _ => base
    end
  else base.

Definition initialState (p : ProxyPath) : proxyPathNameState :=
  let serverByID := indexBy Server_ID servers in
  let inboundByID := indexBy Inbound_ID inbounds in
  let externalByID := indexBy External_ID externals in
  let route := proxyPathRouteLabels serverByID inboundByID externalByID p (pathSteps p) in
  {| st_path := p; st_route := route; st_directSuffix := false;
     st_features := proxyPathNameFeatures inboundByID externalByID p (pathSteps p); st_featureDepth := 0;
     st_middles := []; st_middleDepth := 0; st_base := baseName p route; st_active := pathActive p |}.

Definition pathOrder : gmap Z nat := foldl (λ m '(index, p), <[ProxyPath_ID p := index]> m) ∅ (imap pair paths).

Definition byOrder : proxyPathNameState → proxyPathNameState → comparison :=
  onc (λ s, Z.of_nat (default 0%nat (pathOrder !! st_ID s))) Z.compare.

(** The names before the ordinals: the states when the loop has ended. *)
Definition grownStates : option (list proxyPathNameState) :=
  let states := recomputeProxyPathNames (resolveProxyPathMiddleNames (initialState <$> paths)) in
  let states := suffixDirect reservedNames states in
  growLoop (growFuel states) reservedNames states.

Definition ResolveProxyPathNames : option (list ProxyPath) :=
  match grownStates with
  | None => None
  | Some states =>
      let unresolved := proxyPathNameConflicts states reservedNames in
      let used := usedNames reservedNames unresolved states in
      match numberStates unresolved (sort_slice (ltc (onc st_ID Z.compare)) states) used with
      | None => None
      | Some numbered => Some (st_path <$> sort_slice (ltc byOrder) numbered)
      end
  end.
End resolve.
