(* ===== verification/ProxyPathNameSafety.v ===== *)
(** * What the names of proxy paths guarantee

    The shared nodes a group of paths hides are a longest common subsequence; the loops of
    the resolution end; the names of active paths are distinct and not reserved, do not
    depend on map order nor on the order of the paths; a normalized template renders the
    same name. *)

From S2P Require Import Prelude Model NodeKeys NetAddr ListenResources ProxyPathNames.

Local Open Scope Z_scope.

(** ** The longest common subsequence *)

Section lcs.
Local Open Scope nat_scope.
Implicit Types a b c : list string.

(** The length of a longest common subsequence, by recursion. *)
Fixpoint lcs a b : nat :=
  match a with
  | [] => 0
  | x :: a' =>
      (fix inner b := match b with
                      | [] => 0
                      | y :: b' => if decide (x = y) then S (lcs a' b') else Nat.max (lcs a' b) (inner b')
                      end) b
  end.

Lemma lcs_cons x y a b :
  lcs (x :: a) (y :: b) = if decide (x = y) then S (lcs a b) else Nat.max (lcs a (y :: b)) (lcs (x :: a) b).
Proof. done. Qed.

Lemma lcs_nil_r a : lcs a [] = 0.
Proof. by destruct a. Qed.

Lemma sublist_tail c x l : c `sublist_of` x :: l → List.tl c `sublist_of` l.
Proof.
  inversion 1; subst; simpl; [done|]. destruct c; simpl; [done|]. etrans; [|done]. apply sublist_cons, reflexivity.
Qed.

Lemma lcs_upper a b c : c `sublist_of` a → c `sublist_of` b → length c ≤ lcs a b.
Proof.
  revert b c. induction a as [|x a IHa]; intros b c Ha; [inversion Ha; simpl; lia|].
  revert c Ha. induction b as [|y b IHb]; intros c Ha Hb; [inversion Hb; simpl; lia|].
  rewrite lcs_cons. destruct (decide (x = y)) as [->|Hne].
  - destruct c as [|z c]; simpl; [lia|]. apply le_n_S, IHa; [by apply sublist_tail in Ha|by apply sublist_tail in Hb].
  - inversion Ha as [|? c' ? Hc'|? ? ? Hc']; subst.
    + inversion Hb as [| |? ? ? Hb']; subst; [done|]. specialize (IHb _ Ha Hb'). lia.
    + specialize (IHa _ _ Hc' Hb). lia.
Qed.

(** The table of the code holds these lengths. *)
Fixpoint rowOf a b : list nat := lcs a b :: match b with [] => [] | _ :: b => rowOf a b end.
Fixpoint tableOf a b : list (list nat) := rowOf a b :: match a with [] => [] | _ :: a => tableOf a b end.

Lemma rowOf_nil b : rowOf [] b = repeat 0 (S (length b)).
Proof. induction b as [|y b IH]; [done|]. cbn [rowOf]. by rewrite IH. Qed.

Lemma hd_rowOf a b : List.hd 0 (rowOf a b) = lcs a b.
Proof. by destruct b. Qed.

Lemma lengthsRow_spec x a b : lengthsRow x b (rowOf a b) = rowOf (x :: a) b.
Proof.
  induction b as [|y b IH]; [done|]. cbn [lengthsRow]. cbn [rowOf List.tl List.hd]. rewrite IH, !hd_rowOf, lcs_cons. done.
Qed.

Lemma lengthsTable_spec a b : lengthsTable a b = tableOf a b.
Proof.
  induction a as [|x a IH]; [cbn [lengthsTable tableOf]; by rewrite rowOf_nil|].
  cbn [lengthsTable]. rewrite IH. destruct a; cbn [tableOf List.hd]; by rewrite lengthsRow_spec.
Qed.

Lemma nth_rowOf a b j : j ≤ length b → List.nth j (rowOf a b) 0 = lcs a (drop j b).
Proof.
  revert j; induction b as [|y b IH]; intros [|j] Hj; try done; [simpl in Hj; lia|].
  cbn [rowOf List.nth drop]. apply IH. simpl in Hj. lia.
Qed.

Lemma nth_tableOf a b i : i ≤ length a → List.nth i (tableOf a b) [] = rowOf (drop i a) b.
Proof.
  revert i; induction a as [|x a IH]; intros [|i] Hi; try done; [simpl in Hi; lia|].
  cbn [tableOf List.nth drop]. apply IH. simpl in Hi. lia.
Qed.

Lemma lengthAt_spec a b i j :
  i ≤ length a → j ≤ length b → lengthAt (lengthsTable a b) i j = lcs (drop i a) (drop j b).
Proof. intros. unfold lengthAt. by rewrite lengthsTable_spec, nth_tableOf, nth_rowOf. Qed.

Lemma commonWalk_spec fuel a b i j :
  length a - i + (length b - j) ≤ fuel →
  let c := commonWalk fuel a b (lengthsTable a b) i j in
  c `sublist_of` drop i a ∧ c `sublist_of` drop j b ∧ length c = lcs (drop i a) (drop j b).
Proof.
  revert i j; induction fuel as [|fuel IH]; intros i j Hf; cbn [commonWalk]; cbv zeta.
  - rewrite drop_ge by lia. split_and!; [apply sublist_nil_l..|done].
  - destruct (a !! i) as [x|] eqn:Ha; [destruct (b !! j) as [y|] eqn:Hb|].
    + rewrite (drop_S _ _ _ Ha), (drop_S _ _ _ Hb), lcs_cons.
      apply lookup_lt_Some in Ha as Hi. apply lookup_lt_Some in Hb as Hj.
      destruct (decide (x = y)) as [->|Hne].
      * destruct (IH (S i) (S j)) as (H1 & H2 & H3); [lia|]. simpl. rewrite H3.
        split_and!; [by apply sublist_skip..|done].
      * rewrite !lengthAt_spec by lia. rewrite (drop_S _ _ _ Ha), (drop_S _ _ _ Hb).
        destruct (Nat.leb_spec (lcs (x :: drop (S i) a) (drop (S j) b)) (lcs (drop (S i) a) (y :: drop (S j) b))).
        -- destruct (IH (S i) j) as (H1 & H2 & H3); [lia|]. rewrite (drop_S _ _ _ Hb) in *. rewrite H3.
           split_and!; [by apply sublist_cons|done|lia].
        -- destruct (IH i (S j)) as (H1 & H2 & H3); [lia|]. rewrite (drop_S _ _ _ Ha) in *. rewrite H3.
           split_and!; [done|by apply sublist_cons|lia].
    + apply lookup_ge_None in Hb. rewrite (drop_ge b) by done. rewrite lcs_nil_r. split_and!; [apply sublist_nil_l..|done].
    + apply lookup_ge_None in Ha. rewrite (drop_ge a) by done. split_and!; [apply sublist_nil_l..|done].
Qed.

Lemma commonProxyPathMiddle_sublist a b :
  commonProxyPathMiddle a b `sublist_of` a ∧ commonProxyPathMiddle a b `sublist_of` b.
Proof. destruct (commonWalk_spec (length a + length b) a b 0 0) as (H1 & H2 & _); [lia|]. done. Qed.

Lemma commonProxyPathMiddle_length a b : length (commonProxyPathMiddle a b) = lcs a b.
Proof. destruct (commonWalk_spec (length a + length b) a b 0 0) as (_ & _ & H); [lia|]. done. Qed.

(** Hiding a common subsequence leaves exactly the other labels, in order. *)
Lemma residual_spec c l : c `sublist_of` l → residual c l ++ c ≡ₚ l ∧ residual c l `sublist_of` l.
Proof.
  revert c; induction l as [|x l IH]; intros c Hc; [inversion Hc; subst; done|]. cbn [residual].
  destruct c as [|y c].
  - destruct (IH [] (sublist_nil_l _)) as [H1 H2]. split; [by rewrite <-app_comm_cons, H1|by apply sublist_skip].
  - destruct (decide (x = y)) as [->|Hne].
    + destruct (IH c) as [H1 H2]; [by apply sublist_tail in Hc|]. split; [|by apply sublist_cons].
      by rewrite <-Permutation_middle, H1.
    + inversion Hc as [| |? ? ? Hc']; subst; [done|]. destruct (IH _ Hc') as [H1 H2].
      split; [by rewrite <-app_comm_cons, H1|by apply sublist_skip].
Qed.
End lcs.

(** ** Groups of paths with the same ends *)

Lemma insert_sorted_fmap {A B} (f : A → B) (lt : B → B → bool) x l :
  insert_sorted lt (f x) (f <$> l) = f <$> insert_sorted (λ x y, lt (f x) (f y)) x l.
Proof. induction l as [|y l IH]; [done|]. rewrite fmap_cons. cbn [insert_sorted]. case_match; [by rewrite IH|done]. Qed.

Lemma sort_slice_fmap {A B} (f : A → B) (lt : B → B → bool) l :
  sort_slice lt (f <$> l) = f <$> sort_slice (λ x y, lt (f x) (f y)) l.
Proof. induction l as [|x l IH]; [done|]. rewrite fmap_cons. cbn [sort_slice foldr]. fold (sort_slice lt (f <$> l)). by rewrite IH, insert_sorted_fmap. Qed.

Lemma sort_slice_ext {A} (lt lt' : A → A → bool) l : (∀ x y, lt x y = lt' x y) → sort_slice lt l = sort_slice lt' l.
Proof.
  intros H. induction l as [|x l IH]; [done|]. simpl. rewrite IH. generalize (sort_slice lt' l) as k.
  induction k as [|y k IHk]; [done|]. simpl. by rewrite H, IHk.
Qed.

(** The members of the group of a state, the nodes they share, and the state without them. *)
Definition membersOf (states : list proxyPathNameState) (ends : string * string) : list proxyPathNameState :=
  List.filter (λ s, middleGrouped s && bool_decide (endsOf (st_route s) = ends)) states.

Definition byID : proxyPathNameState → proxyPathNameState → comparison := onc st_ID Z.compare.

Definition sharedMiddle (states : list proxyPathNameState) (ends : string * string) : list string :=
  match sort_slice (ltc byID) (membersOf states ends) with
  | [] => []
  | first :: rest => foldl (λ common s, commonProxyPathMiddle common (middleOf (st_route s))) (middleOf (st_route first)) rest
  end.

Definition middleSpec (states : list proxyPathNameState) (s : proxyPathNameState) : proxyPathNameState :=
  let ends := endsOf (st_route s) in
  if middleGrouped s && Nat.leb 2 (length (membersOf states ends)) then hideCommon (sharedMiddle states ends) s else s.

Section groups.
Implicit Types states : list proxyPathNameState.
Local Open Scope nat_scope.

(** The indexes of the group of [ends] below a bound. *)
Definition groupIndexes states (ends : string * string) : list nat :=
  List.filter (λ i, match states !! i with
                    | Some s => middleGrouped s && bool_decide (endsOf (st_route s) = ends)
                    | None => false
                    end) (seq 0 (length states)).

Lemma filter_ext_in' {A} (p q : A → bool) l : (∀ x, x ∈ l → p x = q x) → List.filter p l = List.filter q l.
Proof. intros H. apply List.filter_ext_in. intros x Hx. apply H. by apply list_elem_of_In. Qed.

Lemma groupIndexes_snoc states s ends :
  groupIndexes (states ++ [s]) ends =
  groupIndexes states ends ++ (if middleGrouped s && bool_decide (endsOf (st_route s) = ends) then [length states] else []).
Proof.
  unfold groupIndexes. rewrite length_app, seq_app, List.filter_app. f_equal.
  - apply filter_ext_in'. intros i Hi%elem_of_seq. rewrite lookup_app_l by lia. done.
  - simpl. rewrite lookup_app_r, Nat.sub_diag by lia. simpl. by destruct (_ && _).
Qed.

Lemma middleGroups_spec states ends : mlist (middleGroups states) ends = groupIndexes states ends.
Proof.
  induction states as [|s states IH] using rev_ind; [done|].
  unfold middleGroups in *. rewrite imap_app, foldl_app. simpl. rewrite groupIndexes_snoc, <-IH.
  rewrite Nat.add_0_r. destruct (middleGrouped s); simpl; [|by rewrite app_nil_r].
  rewrite mlist_mappend. rewrite bool_decide_decide. destruct (decide (endsOf (st_route s) = ends)) as [->|]; [done|by rewrite app_nil_r].
Qed.

Lemma groupIndexes_members states ends :
  (states !!.) <$> groupIndexes states ends = Some <$> membersOf states ends.
Proof.
  induction states as [|s states IH] using rev_ind; [done|].
  rewrite groupIndexes_snoc. unfold membersOf in *. rewrite List.filter_app, !fmap_app, <-IH. f_equal.
  - apply list_fmap_ext. intros k i Hi. rewrite lookup_app_l; [done|].
    apply list_elem_of_lookup_2, list_elem_of_In, List.filter_In in Hi as [Hi%List.in_seq _]. lia.
  - simpl. destruct (_ && _); [|done]. simpl. by rewrite lookup_app_r, Nat.sub_diag by lia.
Qed.

Lemma groupIndexes_length states ends : length (groupIndexes states ends) = length (membersOf states ends).
Proof. by rewrite <-(length_fmap (states !!.)), groupIndexes_members, length_fmap. Qed.

Lemma groupIndexes_NoDup states ends : NoDup (groupIndexes states ends).
Proof. apply NoDup_ListNoDup, List.NoDup_filter, List.seq_NoDup. Qed.

Lemma elem_of_groupIndexes states ends i :
  i ∈ groupIndexes states ends ↔ ∃ s, states !! i = Some s ∧ middleGrouped s = true ∧ endsOf (st_route s) = ends.
Proof.
  unfold groupIndexes. rewrite list_elem_of_In, List.filter_In, List.in_seq. split.
  - intros [_ Hp]. destruct (states !! i) as [s|]; [|done]. apply andb_true_iff in Hp as [? ?%bool_decide_eq_true]. eauto.
  - intros (s & Hs & Hg & He). rewrite Hs, Hg, bool_decide_eq_true_2 by done. split; [|done].
    apply lookup_lt_Some in Hs. lia.
Qed.

Lemma sortedIndexes_members states ends :
  (states !!.) <$> sort_slice (ltc (onc (idAt states) Z.compare)) (groupIndexes states ends) =
  Some <$> sort_slice (ltc byID) (membersOf states ends).
Proof.
  set (idOf := λ o : option proxyPathNameState, match o with Some s => st_ID s | None => 0%Z end).
  transitivity (sort_slice (ltc (onc idOf Z.compare)) ((states !!.) <$> groupIndexes states ends)).
  - rewrite sort_slice_fmap. done.
  - by rewrite groupIndexes_members, sort_slice_fmap.
Qed.

Lemma groupCommon_spec states ends : groupCommon states (groupIndexes states ends) = sharedMiddle states ends.
Proof.
  unfold groupCommon, sharedMiddle. pose proof (sortedIndexes_members states ends) as Hs.
  destruct (sort_slice _ (groupIndexes _ _)) as [|i idx], (sort_slice _ (membersOf _ _)) as [|s l]; try done.
  rewrite !fmap_cons in Hs. injection Hs as Hi Hs. unfold routeAt at 2. rewrite Hi.
  generalize (middleOf (st_route s)). revert l Hs. induction idx as [|k idx IH]; intros [|t l] Hs c; try done.
  rewrite !fmap_cons in Hs. injection Hs as Hk Hs. simpl. rewrite (IH l Hs). unfold routeAt. by rewrite Hk.
Qed.

(** What the groups read of the states does not change. *)
Lemma routeAt_fmap g states i : (∀ s, st_route (g s) = st_route s) → routeAt (g <$> states) i = routeAt states i.
Proof. intros Hg. unfold routeAt. rewrite list_lookup_fmap. destruct (states !! i); simpl; auto. Qed.

Lemma idAt_fmap g states i : (∀ s, st_ID (g s) = st_ID s) → idAt (g <$> states) i = idAt states i.
Proof. intros Hg. unfold idAt. rewrite list_lookup_fmap. destruct (states !! i); simpl; auto. Qed.

Lemma groupCommon_fmap g states indexes :
  (∀ s, st_route (g s) = st_route s) → (∀ s, st_ID (g s) = st_ID s) →
  groupCommon (g <$> states) indexes = groupCommon states indexes.
Proof.
  intros Hr Hi. unfold groupCommon. rewrite (sort_slice_ext _ (ltc (onc (idAt states) Z.compare))).
  - destruct (sort_slice _ _) as [|first rest]; [done|]. rewrite routeAt_fmap by done.
    generalize (middleOf (routeAt states first)). induction rest as [|k rest IH]; intros c; [done|]. simpl. by rewrite IH, routeAt_fmap.
  - intros x y. unfold ltc, onc. by rewrite !idAt_fmap.
Qed.

Lemma alter_all {A} (f : A → A) (idx : list nat) (l : list A) i :
  NoDup idx → foldl (λ l k, alter f k l) l idx !! i = if decide (i ∈ idx) then f <$> l !! i else l !! i.
Proof.
  revert l; induction idx as [|k idx IH]; intros l; [done|]. intros [Hk Hnd]%NoDup_cons. simpl. rewrite IH by done.
  destruct (decide (k = i)) as [->|Hne].
  - rewrite decide_False, list_lookup_alter_eq by done. rewrite decide_True by constructor. done.
  - rewrite list_lookup_alter_ne by done. destruct (decide (i ∈ idx)); [rewrite decide_True by (by constructor); done|].
    rewrite decide_False; [done|]. set_solver.
Qed.

(** The states when the groups with the given ends are done. *)
Definition afterGroups states (done : list (string * string)) (s : proxyPathNameState) : proxyPathNameState :=
  if bool_decide (endsOf (st_route s) ∈ done) then middleSpec states s else s.

Lemma middleSpec_shape states s : st_route (middleSpec states s) = st_route s ∧ st_ID (middleSpec states s) = st_ID s.
Proof. unfold middleSpec. cbv zeta. by destruct (_ && _). Qed.

Lemma afterGroups_shape states dn s :
  st_route (afterGroups states dn s) = st_route s ∧ st_ID (afterGroups states dn s) = st_ID s.
Proof. unfold afterGroups. case_bool_decide; [apply middleSpec_shape|done]. Qed.

Lemma middleGroup_step states dn ends :
  ends ∉ dn →
  middleGroup (afterGroups states dn <$> states) (groupIndexes states ends) = afterGroups states (dn ++ [ends]) <$> states.
Proof.
  intros Hnew. apply list_eq. intros i. rewrite list_lookup_fmap.
  assert (∀ s, states !! i = Some s → i ∉ groupIndexes states ends ∨ length (membersOf states ends) < 2 →
     afterGroups states (dn ++ [ends]) s = afterGroups states dn s) as Hsame.
  { intros s Hs Hout. unfold afterGroups. destruct (decide (endsOf (st_route s) = ends)) as [He|He].
    - rewrite (bool_decide_eq_true_2 (_ ∈ dn ++ _)) by set_solver. rewrite bool_decide_eq_false_2 by congruence.
      unfold middleSpec. cbv zeta. destruct (middleGrouped s) eqn:Hg; [|done]. rewrite He.
      destruct Hout as [Hout|Hlt]; [destruct Hout; apply elem_of_groupIndexes; eauto|].
      destruct (Nat.leb_spec 2 (length (membersOf states ends))); [lia|done].
    - rewrite !bool_decide_decide. destruct (decide (_ ∈ dn)); [rewrite decide_True by set_solver; done|].
      rewrite decide_False by set_solver. done. }
  unfold middleGroup. rewrite groupIndexes_length. destruct (Nat.ltb_spec (length (membersOf states ends)) 2) as [Hlt|Hge].
  { rewrite list_lookup_fmap. destruct (states !! i) as [s|] eqn:Hs; [|done]. simpl. by rewrite (Hsame s) by auto. }
  rewrite alter_all, list_lookup_fmap; [|rewrite NoDup_sort_slice; apply groupIndexes_NoDup].
  destruct (decide (i ∈ _)) as [Hin|Hin]; rewrite elem_of_sort_slice in Hin.
  - apply elem_of_groupIndexes in Hin as (s & -> & Hg & He). simpl. f_equal.
    rewrite groupCommon_fmap by apply afterGroups_shape. rewrite groupCommon_spec. unfold afterGroups.
    rewrite bool_decide_eq_false_2 by congruence. rewrite bool_decide_eq_true_2 by set_solver.
    unfold middleSpec. cbv zeta. rewrite Hg, He. destruct (Nat.leb_spec 2 (length (membersOf states ends))); [done|lia].
  - destruct (states !! i) as [s|] eqn:Hs; [|done]. simpl. by rewrite (Hsame s) by auto.
Qed.

Lemma middleGroups_entries {M : MapRange (string * string) (list nat)} states ends indexes :
  (ends, indexes) ∈ map_range (middleGroups states) → indexes = groupIndexes states ends.
Proof. rewrite elem_of_map_range, <-middleGroups_spec. unfold mlist. by intros ->. Qed.

(** The groups in any order: a member hides what its group shares. *)
Lemma resolveProxyPathMiddleNames_spec {M : MapRange (string * string) (list nat)} states :
  resolveProxyPathMiddleNames states = middleSpec states <$> states.
Proof.
  unfold resolveProxyPathMiddleNames.
  assert (∀ l : list (string * string * list nat), NoDup l.*1 → (∀ e idx, (e, idx) ∈ l → idx = groupIndexes states e) →
    foldl (λ states '(_, indexes), middleGroup states indexes) states l = afterGroups states l.*1 <$> states) as Hfold.
  { induction l as [|[e idx] l IH] using rev_ind; intros Hnd Hl.
    - simpl. rewrite <-(list_fmap_id states) at 1. by apply list_fmap_ext.
    - rewrite fmap_app in Hnd |- *. apply NoDup_app in Hnd as (Hnd & Hd & _). rewrite foldl_app. simpl.
      rewrite IH by (try done; intros; apply Hl; set_solver). rewrite (Hl e idx) by set_solver.
      apply middleGroup_step. intros Hin. apply (Hd e Hin). set_solver. }
  rewrite Hfold; [|apply NoDup_map_range|intros e idx; apply middleGroups_entries].
  apply list_fmap_ext. intros i s Hs. unfold afterGroups. case_bool_decide as Hk; [done|].
  unfold middleSpec. cbv zeta. destruct (middleGrouped s) eqn:Hg; [|done]. exfalso. apply Hk.
  assert (i ∈ groupIndexes states (endsOf (st_route s))) as Hi by (apply elem_of_groupIndexes; eauto).
  rewrite <-middleGroups_spec in Hi. unfold mlist in Hi.
  destruct (middleGroups states !! _) as [idx|] eqn:Hm; [|by apply not_elem_of_nil in Hi].
  apply list_elem_of_fmap. exists (endsOf (st_route s), idx). split; [done|]. by apply elem_of_map_range.
Qed.
End groups.

(** ** Conflicts *)

Section conflicts.
Implicit Types states : list proxyPathNameState.

(** The active states with a name. *)
Definition named states (name : string) : list proxyPathNameState :=
  List.filter (λ s, st_active s && (st_Name s =? name)%string) states.

Lemma nameCounts_spec states name : default 0%nat (nameCounts states !! name) = length (named states name).
Proof.
  induction states as [|s states IH] using rev_ind; [done|].
  unfold nameCounts, named in *. rewrite foldl_app, List.filter_app, length_app, <-IH. simpl.
  destruct (st_active s); simpl; [|lia]. rewrite lookup_insert.
  destruct (String.eqb_spec (st_Name s) name) as [->|]; [rewrite decide_True by done|rewrite decide_False by done]; simpl; lia.
Qed.

Definition conflicting states (reserved : gset string) (s : proxyPathNameState) : Prop :=
  st_active s = true ∧ ((1 < length (named states (st_Name s)))%nat ∨ st_Name s ∈ reserved).

Lemma elem_of_conflicts states reserved id :
  id ∈ proxyPathNameConflicts states reserved ↔ ∃ s, s ∈ states ∧ conflicting states reserved s ∧ st_ID s = id.
Proof.
  unfold proxyPathNameConflicts. cbv zeta.
  rewrite (foldl_iff (λ out, id ∈ out) (λ s, conflicting states reserved s ∧ st_ID s = id)).
  - set_solver.
  - intros out s _. rewrite nameCounts_spec. unfold conflicting.
    destruct (st_active s); simpl; [|naive_solver].
    destruct (Nat.ltb_spec 1 (length (named states (st_Name s)))); simpl; [set_solver by lia|].
    case_bool_decide; [set_solver|]. split; [auto|]. intros [?|[[_ [?|?]] _]]; [done|lia|done].
Qed.

Lemma elem_of_named states name s : s ∈ named states name ↔ s ∈ states ∧ st_active s = true ∧ st_Name s = name.
Proof. unfold named. rewrite list_elem_of_In, List.filter_In, <-list_elem_of_In, andb_true_iff, String.eqb_eq. done. Qed.

Lemma short_list_eq {A} (l : list A) x y : (length l ≤ 1)%nat → x ∈ l → y ∈ l → x = y.
Proof. destruct l as [|a [|b l]]; simpl; intros; [set_solver|set_solver|lia]. Qed.

(** A state without a conflict shares its name with no other and with nothing reserved. *)
Lemma no_conflict_unique states reserved s t :
  s ∈ states → t ∈ states → st_active s = true → st_active t = true → st_ID s ∉ proxyPathNameConflicts states reserved →
  st_Name s = st_Name t → s = t.
Proof.
  intros Hs Ht Has Hat Hn Heq. apply (short_list_eq (named states (st_Name s))).
  - destruct (Nat.le_gt_cases (length (named states (st_Name s))) 1); [done|]. destruct Hn.
    apply elem_of_conflicts. exists s. unfold conflicting. auto.
  - by apply elem_of_named.
  - apply elem_of_named. auto.
Qed.

Lemma no_conflict_reserved states reserved s :
  s ∈ states → st_active s = true → st_ID s ∉ proxyPathNameConflicts states reserved → st_Name s ∉ reserved.
Proof. intros Hs Has Hn Hr. apply Hn, elem_of_conflicts. exists s. unfold conflicting. auto. Qed.
End conflicts.

(** ** Growing the names *)

(** What only the names and depths do not determine: the path without its name and its activity. *)
Definition erased (s : proxyPathNameState) : ProxyPath * bool := (setPathName "" (st_path s), st_active s).

Lemma erased_ID s t : erased s = erased t → st_ID s = st_ID t.
Proof. intros H. apply (f_equal (ProxyPath_ID ∘ fst)) in H. done. Qed.

Lemma erased_recompute states : erased <$> recomputeProxyPathNames states = erased <$> states.
Proof. unfold recomputeProxyPathNames. rewrite <-list_fmap_compose. by apply list_fmap_ext. Qed.

Lemma erased_changeWhere p f states :
  (∀ s, erased (f s) = erased s) → erased <$> changeWhere p f states = erased <$> states.
Proof.
  intros Hf. unfold changeWhere. rewrite <-list_fmap_compose. apply list_fmap_ext. intros ? s _. simpl. by destruct (p s).
Qed.

Lemma growStep_erased reserved states states' : growStep reserved states = Some states' → erased <$> states' = erased <$> states.
Proof.
  unfold growStep. cbv zeta. do 2 (destruct (existsb _ _); [intros [= <-]; rewrite erased_recompute; by apply erased_changeWhere|]).
  done.
Qed.

Lemma sum_list_step {A} (f : A → A) (p : A → bool) (m : A → nat) l :
  (∀ x, p x = true → (m (f x) < m x)%nat) → existsb p l = true →
  (sum_list (m <$> ((λ x, if p x then f x else x) <$> l)) < sum_list (m <$> l))%nat.
Proof.
  intros Hm. assert (∀ l, (sum_list (m <$> ((λ x, if p x then f x else x) <$> l)) ≤ sum_list (m <$> l))%nat) as Hle.
  { clear l. induction l as [|x l IH]; [done|]. rewrite !fmap_cons. simpl. destruct (p x) eqn:Hp; [specialize (Hm x Hp)|]; lia. }
  induction l as [|x l IH]; [done|]. rewrite !fmap_cons. simpl. specialize (Hle l).
  destruct (p x) eqn:Hp; simpl; [specialize (Hm x Hp); lia|]. intros Hl%IH. lia.
Qed.

Lemma growFuel_recompute states : growFuel (recomputeProxyPathNames states) = growFuel states.
Proof. unfold growFuel, recomputeProxyPathNames. rewrite <-list_fmap_compose. f_equal. Qed.

(** Every iteration uses up some room, so the loop ends. *)
Lemma growStep_decreases reserved states states' :
  growStep reserved states = Some states' → (growFuel states' < growFuel states)%nat.
Proof.
  unfold growStep. cbv zeta. set (conflicts := proxyPathNameConflicts states reserved).
  destruct (existsb (middleGrows conflicts) states) eqn:Hm.
  { intros [= <-]. rewrite growFuel_recompute. apply sum_list_step; [|done].
    intros s [_ Hlt%Nat.ltb_lt]%andb_true_iff. unfold growRoom. simpl. lia. }
  destruct (existsb (featureGrows conflicts) states) eqn:Hf; [|done].
  intros [= <-]. rewrite growFuel_recompute. apply sum_list_step; [|done].
  intros s [_ Hlt%Nat.ltb_lt]%andb_true_iff. unfold growRoom. simpl. lia.
Qed.

Lemma growLoop_total fuel reserved states :
  (growFuel states ≤ fuel)%nat → ∃ states', growLoop fuel reserved states = Some states' ∧ growStep reserved states' = None ∧
    erased <$> states' = erased <$> states.
Proof.
  revert states; induction fuel as [|fuel IH]; intros states Hf; cbn [growLoop];
    (destruct (growStep reserved states) as [next|] eqn:Hn; [|by eauto]); pose proof (growStep_decreases _ _ _ Hn); [lia|].
  destruct (IH next) as (out & -> & Hend & Her); [lia|]. exists out. split_and!; [done..|]. by rewrite Her, (growStep_erased _ _ _ Hn).
Qed.

(** ** Ordinals *)

Lemma parse_pad2 n : 0 < n → parse_digits (bytes_of (pad2 n)) 0 = Some n.
Proof.
  intros Hn. pose proof (parse_digits_go (Z.to_N n) ""%string) as Hp. rewrite <-FormatInt_pos in Hp by done.
  cbn [bytes_of parse_digits] in Hp. rewrite Z2N.id in Hp by lia.
  unfold pad2. destruct (n <? 10); [|done]. rewrite bytes_of_app. by cbn.
Qed.

Lemma string_app_inj s t t' : s +:+ t = s +:+ t' → t = t'.
Proof. intros H. apply bytes_of_inj. apply (f_equal bytes_of) in H. rewrite !bytes_of_app in H. by apply app_inv_head in H. Qed.

Lemma numberedName_inj name n m : 0 < n → 0 < m → numberedName name n = numberedName name m → n = m.
Proof.
  intros Hn Hm H. unfold numberedName in H. apply string_app_inj, string_app_inj in H.
  apply (f_equal (λ s, parse_digits (bytes_of s) 0)) in H. rewrite !parse_pad2 in H by done. by injection H.
Qed.

Lemma freeOrdinal_Some fuel ordinal name used o :
  freeOrdinal fuel ordinal name used = Some o → numberedName name o ∉ used ∧ ordinal ≤ o.
Proof.
  revert ordinal; induction fuel as [|fuel IH]; intros ordinal; simpl; [done|].
  case_decide; [intros [? ?]%IH; split; [done|lia]|]. by intros [= <-].
Qed.

Lemma freeOrdinal_None fuel ordinal name used :
  freeOrdinal fuel ordinal name used = None → ∀ i, (i < fuel)%nat → numberedName name (ordinal + Z.of_nat i) ∈ used.
Proof.
  revert ordinal; induction fuel as [|fuel IH]; intros ordinal; [lia|]. cbn [freeOrdinal]. case_decide as Hin; [|done].
  intros Hf [|i] Hi; [by rewrite Z.add_0_r|]. replace (ordinal + Z.of_nat (S i)) with (ordinal + 1 + Z.of_nat i) by lia.
  apply IH; [done|lia].
Qed.

(** More candidates than used names: one is free. *)
Lemma freeOrdinal_total ordinal name used : 0 < ordinal → ∃ o, freeOrdinal (S (size used)) ordinal name used = Some o.
Proof.
  intros Hpos. destruct (freeOrdinal (S (size used)) ordinal name used) as [o|] eqn:Hf; [by exists o|]. exfalso.
  pose proof (freeOrdinal_None _ _ _ _ Hf) as Hall.
  set (cands := (λ i, numberedName name (ordinal + Z.of_nat i)) <$> seq 0 (S (size used))).
  assert (NoDup cands) as Hnd.
  { apply NoDup_fmap_2_strong; [|apply NoDup_seq]. intros i j _ _ H. apply numberedName_inj in H; lia. }
  assert (list_to_set cands ⊆ used) as Hsub.
  { intros c Hc. apply elem_of_list_to_set, list_elem_of_fmap in Hc as (i & -> & Hi%elem_of_seq). apply Hall. lia. }
  apply subseteq_size in Hsub. rewrite size_list_to_set in Hsub by done. unfold cands in Hsub.
  rewrite length_fmap, length_seq in Hsub. lia.
Qed.

Lemma freeName_Some fuel ordinal name used c : freeName fuel ordinal name used = Some c → c ∉ used.
Proof. unfold freeName. intros (o & Ho & ->)%fmap_Some. by apply freeOrdinal_Some in Ho as [? _]. Qed.

Lemma freeName_total name used : ∃ c, freeName (S (size used)) 1 name used = Some c.
Proof. unfold freeName. destruct (freeOrdinal_total 1 name used) as [o ->]; [done|]. by eexists. Qed.

Section numbering.
Context (unresolved : gset Z).
Implicit Types l out : list proxyPathNameState.

Definition keeps (s : proxyPathNameState) : bool := st_active s && negb (bool_decide (st_ID s ∈ unresolved)).

Lemma numberStates_total l used : ∃ out, numberStates unresolved l used = Some out.
Proof.
  revert used; induction l as [|s l IH]; intros used; cbn [numberStates]; [eauto|].
  destruct (_ || _); [destruct (IH used) as [out ->]; simpl; eauto|].
  destruct (freeName_total (st_Name s) used) as [c ->]. destruct (IH ({[c]} ∪ used)) as [out ->]. simpl. eauto.
Qed.

Lemma keeps_skip s : negb (st_active s) || negb (bool_decide (st_ID s ∈ unresolved)) = true →
  st_active s = true → keeps s = true.
Proof. unfold keeps. intros H Ha. rewrite Ha in *. done. Qed.

Lemma keeps_number s : negb (st_active s) || negb (bool_decide (st_ID s ∈ unresolved)) = false → keeps s = false.
Proof. unfold keeps. intros [_ ->]%orb_false_iff. apply andb_false_r. Qed.

(** The names after numbering: distinct, those kept and new ones. *)
Lemma numberStates_spec l used out :
  numberStates unresolved l used = Some out →
  NoDup (st_Name <$> List.filter keeps l) → (∀ s, s ∈ l → keeps s = true → st_Name s ∈ used) →
  erased <$> out = erased <$> l ∧ NoDup (st_Name <$> List.filter st_active out) ∧
  ∀ s, s ∈ out → st_active s = true → st_Name s ∉ used ∨ (s ∈ l ∧ keeps s = true).
Proof.
  revert used out; induction l as [|s l IH]; intros used out; cbn [numberStates].
  { intros [= <-] _ _. split_and!; [done|constructor|set_solver]. }
  destruct (negb (st_active s) || negb (bool_decide (st_ID s ∈ unresolved))) eqn:Hskip.
  - destruct (numberStates unresolved l used) as [rest|] eqn:Hrest; [|done]. intros [= <-] Hnd Hused.
    destruct (IH used rest Hrest) as (Her & Hout & Hcase).
    { simpl in Hnd. destruct (keeps s); [by apply NoDup_cons in Hnd as [_ ?]|done]. }
    { intros; apply Hused; [by right|done]. }
    pose proof (keeps_skip s Hskip) as Hkeep. split_and!; [by rewrite !fmap_cons, Her| |].
    + simpl. destruct (st_active s) eqn:Ha; [|done]. rewrite fmap_cons. apply NoDup_cons. split; [|done].
      pose proof (Hkeep eq_refl) as Hk. intros (t & Heq & Ht)%list_elem_of_fmap.
      apply list_elem_of_In, List.filter_In in Ht as [Ht%list_elem_of_In Hat].
      destruct (Hcase t Ht Hat) as [Hn|[Hl Hkt]]; [apply Hn; rewrite <-Heq; apply Hused; [by left|done]|].
      simpl in Hnd. rewrite Hk in Hnd. apply NoDup_cons in Hnd as [Hn _]. apply Hn, list_elem_of_fmap. exists t. split; [done|].
      apply list_elem_of_In, List.filter_In. by rewrite <-list_elem_of_In.
    + intros t [->|Ht]%elem_of_cons Hat; [right; split; [by left|auto]|].
      destruct (Hcase t Ht Hat) as [?|[? ?]]; [by left|right; split; [by right|done]].
  - destruct (freeName _ _ _ _) as [c|] eqn:Hc; [|done]. apply freeName_Some in Hc.
    destruct (numberStates unresolved l _) as [rest|] eqn:Hrest; [|done]. intros [= <-] Hnd Hused.
    simpl in Hnd. rewrite (keeps_number s Hskip) in Hnd.
    destruct (IH _ rest Hrest Hnd) as (Her & Hout & Hcase).
    { intros t Ht Hk. apply elem_of_union_r, Hused; [by right|done]. }
    split_and!; [by rewrite !fmap_cons, Her| |].
    + cbn [List.filter]. destruct (st_active (setName c s)); [|done]. rewrite fmap_cons. apply NoDup_cons. split; [|done].
      intros (t & Heq & Ht)%list_elem_of_fmap. apply list_elem_of_In, List.filter_In in Ht as [Ht%list_elem_of_In Hat].
      change (st_Name (setName c s)) with c in Heq. destruct (Hcase t Ht Hat) as [Hn|[Hl Hkt]]; [set_solver|].
      apply Hc. rewrite Heq. apply Hused; [by right|done].
    + intros t [->|Ht]%elem_of_cons Hat; [by left|].
      destruct (Hcase t Ht Hat) as [?|[? ?]]; [left; set_solver|right; split; [by right|done]].
Qed.
End numbering.

Lemma elem_of_usedNames reserved unresolved states name :
  name ∈ usedNames reserved unresolved states ↔ name ∈ reserved ∨ ∃ s, s ∈ states ∧ keeps unresolved s = true ∧ st_Name s = name.
Proof.
  unfold usedNames. rewrite (foldl_iff (λ out, name ∈ out) (λ s, keeps unresolved s = true ∧ st_Name s = name)); [done|].
  intros out s _. unfold keeps. destruct (_ && _); set_solver.
Qed.

(** ** The order of the result *)

Section order.
Context (paths : list ProxyPath) (Hids : NoDup (ProxyPath_ID <$> paths)).

Lemma pathOrder_lookup i p : paths !! i = Some p → pathOrder paths !! ProxyPath_ID p = Some i.
Proof.
  revert i p Hids. induction paths as [|q l IH] using rev_ind; intros i p Hnd Hp; [done|].
  rewrite fmap_app in Hnd. apply NoDup_app in Hnd as (Hnd & Hd & _).
  unfold pathOrder. rewrite imap_app, foldl_app. fold (pathOrder l). simpl. rewrite Nat.add_0_r, lookup_insert.
  apply lookup_app_Some in Hp as [Hp|[Hlen Hp]].
  - case_decide as Heq; [|by apply IH]. destruct (Hd (ProxyPath_ID p)); [|set_solver].
    apply list_elem_of_fmap_2. by eapply list_elem_of_lookup_2.
  - apply list_lookup_singleton_Some in Hp as [Hz <-]. rewrite decide_True by done. f_equal. lia.
Qed.

Lemma indexed_sorted {A} (key : A → Z) (l : list A) base :
  (∀ i x, l !! i = Some x → key x = base + Z.of_nat i) → StronglySorted (le_of (ltc (onc key Z.compare))) l.
Proof.
  revert base; induction l as [|x l IH]; intros base Hk; constructor.
  - apply (IH (base + 1)). intros i y Hy. rewrite (Hk (S i) y Hy). lia.
  - apply Forall_forall. intros y (i & Hi)%list_elem_of_lookup. unfold le_of, ltc, onc.
    rewrite (Hk 0%nat x eq_refl), (Hk (S i) y Hi). destruct (Z.compare_spec (base + Z.of_nat (S i)) (base + Z.of_nat 0)); [done|lia|done].
Qed.

Definition orderKey (p : ProxyPath) : Z := Z.of_nat (default 0%nat (pathOrder paths !! ProxyPath_ID p)).

Lemma sorted_back (states : list proxyPathNameState) :
  (setPathName "" ∘ st_path) <$> states ≡ₚ setPathName "" <$> paths →
  (setPathName "" ∘ st_path) <$> sort_slice (ltc (byOrder paths)) states = setPathName "" <$> paths.
Proof.
  intros Hp. assert (∀ i p, (setPathName "" <$> paths) !! i = Some p → orderKey p = 0 + Z.of_nat i) as Hkey.
  { intros i p. rewrite list_lookup_fmap. destruct (paths !! i) as [q|] eqn:Hq; [|done]. intros [= <-].
    unfold orderKey. change (ProxyPath_ID (setPathName "" q)) with (ProxyPath_ID q).
    by rewrite (pathOrder_lookup i q). }
  change (byOrder paths) with (onc (orderKey ∘ (setPathName "" ∘ st_path)) Z.compare).
  rewrite <-(sort_slice_fmap (setPathName "" ∘ st_path) (ltc (onc orderKey Z.compare))).
  symmetry. apply sort_slice_unique; [apply _| |by apply (indexed_sorted _ _ 0)|done].
  intros x y Hx Hy H1 H2. rewrite Hp in Hx, Hy. apply list_elem_of_lookup in Hx as [i Hi], Hy as [j Hj].
  unfold ltc, onc in H1, H2. rewrite (Hkey _ _ Hi), (Hkey _ _ Hj) in H1, H2.
  assert (i = j) as ->; [|congruence].
  destruct (Z.compare_spec (0 + Z.of_nat i) (0 + Z.of_nat j)), (Z.compare_spec (0 + Z.of_nat j) (0 + Z.of_nat i)); try done; lia.
Qed.
End order.

(** ** The names of all paths *)

Lemma suffixDirect_erased reserved states : erased <$> suffixDirect reserved states = erased <$> states.
Proof. unfold suffixDirect. cbv zeta. destruct (existsb _ _); [|done]. rewrite erased_recompute. by apply erased_changeWhere. Qed.

Lemma middleSpec_erased states s : erased (middleSpec states s) = erased s.
Proof. unfold middleSpec. cbv zeta. by destruct (_ && _). Qed.

Lemma erased_IDs (states states' : list proxyPathNameState) : erased <$> states' = erased <$> states → st_ID <$> states' = st_ID <$> states.
Proof.
  intros H. change st_ID with ((ProxyPath_ID ∘ fst) ∘ erased). rewrite !(list_fmap_compose erased). by rewrite H.
Qed.

Section resolution.
Context {D : ListenDecoder}.
Context (paths : list ProxyPath) (steps : list ProxyPathStep) (servers : list Server)
        (inbounds : list Inbound) (externals : list ExternalOutbound).

Notation reserved := (reservedNames paths steps inbounds externals).
Notation start := (initialState steps servers inbounds externals).
Notation active := (pathActive steps).

Lemma start_erased : erased <$> (start <$> paths) = (λ p, (setPathName "" p, active p)) <$> paths.
Proof. rewrite <-list_fmap_compose. done. Qed.

Lemma grownStates_total {M : MapRange (string * string) (list nat)} :
  ∃ states, grownStates paths steps servers inbounds externals = Some states ∧ growStep reserved states = None ∧
    erased <$> states = (λ p, (setPathName "" p, active p)) <$> paths.
Proof.
  unfold grownStates. cbv zeta. match goal with |- context [growLoop _ _ ?l] => set (states := l) end.
  destruct (growLoop_total (growFuel states) reserved states) as (out & -> & Hend & Her); [done|].
  exists out. split_and!; [done..|]. rewrite Her. unfold states.
  rewrite suffixDirect_erased, erased_recompute, resolveProxyPathMiddleNames_spec, <-start_erased.
  rewrite <-(list_fmap_compose (middleSpec _)). apply list_fmap_ext. intros; apply middleSpec_erased.
Qed.

Lemma active_of_erased (states : list proxyPathNameState) s :
  erased <$> states ≡ₚ (λ p, (setPathName "" p, active p)) <$> paths → s ∈ states → active (st_path s) = st_active s.
Proof.
  intros Hp Hs. assert (erased s ∈ (λ p, (setPathName "" p, active p)) <$> paths) as Hin.
  { rewrite <-Hp. by apply list_elem_of_fmap_2. }
  apply list_elem_of_fmap in Hin as (p & He & _). pose proof (f_equal fst He) as Hpath. pose proof (f_equal snd He) as Ha. simpl in Hpath, Ha. rewrite Ha.
  transitivity (active (setPathName "" (st_path s))); [done|]. by rewrite Hpath.
Qed.

Lemma filter_active (states : list proxyPathNameState) :
  (∀ s, s ∈ states → active (st_path s) = st_active s) →
  ProxyPath_Name <$> List.filter active (st_path <$> states) = st_Name <$> List.filter st_active states.
Proof.
  induction states as [|s states IH]; intros Ha; [done|]. rewrite fmap_cons. cbn [List.filter].
  rewrite (Ha s) by (by left). specialize (IH (λ t Ht, Ha t ltac:(by right))).
  destruct (st_active s); [|done]. rewrite !fmap_cons. by f_equal.
Qed.

Lemma kept_names (states : list proxyPathNameState) (res : gset string) :
  NoDup (st_ID <$> states) →
  NoDup (st_Name <$> List.filter (keeps (proxyPathNameConflicts states res)) states).
Proof.
  intros Hnd. apply NoDup_fmap_2_strong; [|by apply NoDup_ListNoDup, List.NoDup_filter, NoDup_ListNoDup, (NoDup_fmap_1 st_ID)].
  intros s t [Hs [Has Hcs]%andb_true_iff]%list_elem_of_In%List.filter_In [Ht [Hat _]%andb_true_iff]%list_elem_of_In%List.filter_In Heq.
  apply list_elem_of_In in Hs, Ht. bprop. by eapply no_conflict_unique.
Qed.

Lemma resolved_names {M : MapRange (string * string) (list nat)} :
  NoDup (ProxyPath_ID <$> paths) →
  ∃ out, ResolveProxyPathNames paths steps servers inbounds externals = Some out ∧
    setPathName "" <$> out = setPathName "" <$> paths ∧
    NoDup (ProxyPath_Name <$> List.filter active out) ∧
    ∀ p, p ∈ out → active p = true → ProxyPath_Name p ∉ reserved.
Proof.
  intros Hids. unfold ResolveProxyPathNames. destruct grownStates_total as (states & -> & _ & Her). cbv zeta.
  set (unresolved := proxyPathNameConflicts states reserved). set (used := usedNames reserved unresolved states).
  assert (NoDup (st_ID <$> states)) as Hnd.
  { change st_ID with ((ProxyPath_ID ∘ fst) ∘ erased). rewrite (list_fmap_compose erased), Her, <-list_fmap_compose. exact Hids. }
  set (sorted := sort_slice (ltc byID) states). assert (sorted ≡ₚ states) as Hsorted by apply sort_slice_perm.
  destruct (numberStates_total unresolved sorted used) as [numbered Hnum].
  destruct (numberStates_spec unresolved sorted used numbered) as (Hner & Hnames & Hcase); [done|..].
  { rewrite (List_filter_perm _ _ _ Hsorted). by apply kept_names. }
  { intros s Hs Hk. rewrite Hsorted in Hs. apply elem_of_usedNames. eauto. }
  unfold sorted, byID in Hnum. rewrite Hnum. eexists. split; [done|].
  assert (erased <$> numbered ≡ₚ (λ p, (setPathName "" p, active p)) <$> paths) as Hperm by (by rewrite Hner, Hsorted, Her).
  rewrite <-list_fmap_compose. split_and!.
  - apply sorted_back; [done|]. change (setPathName "" ∘ st_path) with (fst ∘ erased).
    rewrite (list_fmap_compose erased), Hperm, <-list_fmap_compose. done.
  - rewrite filter_active; [|intros s Hs%elem_of_sort_slice; by apply (active_of_erased numbered)].
    by rewrite (List_filter_perm _ _ _ (sort_slice_perm _ _)).
  - intros p Hp Ha. apply list_elem_of_fmap in Hp as (s & -> & Hs%elem_of_sort_slice).
    rewrite (active_of_erased numbered) in Ha by done. change (st_Name s ∉ reserved).
    destruct (Hcase s Hs Ha) as [Hn|[Hl [_ Hk]%andb_true_iff]].
    + intros Hr. apply Hn, elem_of_usedNames. by left.
    + rewrite Hsorted in Hl. bprop. by apply (no_conflict_reserved states).
Qed.
End resolution.

(** ** The order of the paths *)

Section permuted.
Implicit Types states : list proxyPathNameState.

Lemma byID_sep states s t :
  NoDup (st_ID <$> states) → s ∈ states → t ∈ states → ltc byID s t = false → ltc byID t s = false → s = t.
Proof.
  intros Hnd Hs Ht H1 H2. apply (NoDup_fmap_key st_ID states); [done..|]. unfold ltc, byID, onc in *.
  destruct (Z.compare_spec (st_ID s) (st_ID t)), (Z.compare_spec (st_ID t) (st_ID s)); try done; lia.
Qed.

Lemma sorted_perm states states' :
  NoDup (st_ID <$> states) → states' ≡ₚ states → sort_slice (ltc byID) states' = sort_slice (ltc byID) states.
Proof. intros Hnd. apply sort_slice_perm_eq; [apply _|]. intros; by apply (byID_sep states). Qed.

Lemma membersOf_perm states states' ends : states' ≡ₚ states → membersOf states' ends ≡ₚ membersOf states ends.
Proof. apply List_filter_perm. Qed.

Lemma middleSpec_perm states states' s :
  NoDup (st_ID <$> states) → states' ≡ₚ states → middleSpec states' s = middleSpec states s.
Proof.
  intros Hnd Hp. unfold middleSpec, sharedMiddle. cbv zeta. rewrite (membersOf_perm _ _ _ Hp).
  rewrite (sorted_perm (membersOf states (endsOf (st_route s)))); [done| |by apply membersOf_perm].
  by apply NoDup_map_filter.
Qed.

Lemma conflicts_perm states states' reserved :
  states' ≡ₚ states → proxyPathNameConflicts states' reserved = proxyPathNameConflicts states reserved.
Proof.
  intros Hp. apply set_eq. intros id. rewrite !elem_of_conflicts. unfold conflicting, named.
  by setoid_rewrite Hp.
Qed.

Lemma suffixDirect_perm reserved states states' :
  states' ≡ₚ states → suffixDirect reserved states' ≡ₚ suffixDirect reserved states.
Proof.
  intros Hp. unfold suffixDirect. cbv zeta. rewrite (conflicts_perm _ _ _ Hp), (existsb_perm _ _ _ Hp).
  destruct (existsb _ _); [|done]. unfold recomputeProxyPathNames, changeWhere. by rewrite Hp.
Qed.

Lemma growStep_perm reserved states states' :
  states' ≡ₚ states → option_Forall2 (≡ₚ) (growStep reserved states') (growStep reserved states).
Proof.
  intros Hp. unfold growStep. cbv zeta. rewrite (conflicts_perm _ _ _ Hp), !(existsb_perm _ _ _ Hp).
  unfold recomputeProxyPathNames, changeWhere. repeat (destruct (existsb _ _); [constructor; by rewrite Hp|]). constructor.
Qed.

Lemma growLoop_perm fuel reserved states states' :
  states' ≡ₚ states → option_Forall2 (≡ₚ) (growLoop fuel reserved states') (growLoop fuel reserved states).
Proof.
  revert states states'; induction fuel as [|fuel IH]; intros states states' Hp; cbn [growLoop];
    (destruct (growStep_perm reserved _ _ Hp); [|by constructor]); [constructor|by apply IH].
Qed.

Lemma growFuel_perm states states' : states' ≡ₚ states → growFuel states' = growFuel states.
Proof. intros Hp. unfold growFuel. by rewrite Hp. Qed.

Lemma usedNames_perm reserved unresolved states states' :
  states' ≡ₚ states → usedNames reserved unresolved states' = usedNames reserved unresolved states.
Proof. intros Hp. apply set_eq. intros name. rewrite !elem_of_usedNames. by setoid_rewrite Hp. Qed.

Lemma activePathByInbound_perm steps paths paths' :
  paths' ≡ₚ paths → activePathByInbound paths' steps = activePathByInbound paths steps.
Proof.
  intros Hp. apply set_eq. intros id. unfold activePathByInbound.
  rewrite !(foldl_iff (λ out, id ∈ out) (λ p, pathActive steps p = true ∧ ProxyPath_InboundID p = id)).
  - by setoid_rewrite Hp.
  - intros out p _. destruct (pathActive steps p); set_solver.
  - intros out p _. destruct (pathActive steps p); set_solver.
Qed.

Lemma resolved_perm {D : ListenDecoder} (M M' : MapRange (string * string) (list nat)) paths paths' steps servers inbounds externals :
  NoDup (ProxyPath_ID <$> paths) → paths' ≡ₚ paths →
  option_Forall2 (≡ₚ) (ResolveProxyPathNames (M := M') paths' steps servers inbounds externals)
                      (ResolveProxyPathNames (M := M) paths steps servers inbounds externals).
Proof.
  intros Hids Hp. assert (reservedNames paths' steps inbounds externals = reservedNames paths steps inbounds externals) as Hr.
  { unfold reservedNames. by rewrite (activePathByInbound_perm _ _ _ Hp). }
  unfold ResolveProxyPathNames. destruct (grownStates_total (M := M) paths steps servers inbounds externals) as (states & Hs & _ & Her).
  assert (NoDup (st_ID <$> states)) as Hnd.
  { change st_ID with ((ProxyPath_ID ∘ fst) ∘ erased). rewrite (list_fmap_compose erased), Her, <-list_fmap_compose. exact Hids. }
  assert (option_Forall2 (≡ₚ) (grownStates (M := M') paths' steps servers inbounds externals)
                              (grownStates (M := M) paths steps servers inbounds externals)) as Hg.
  { unfold grownStates. cbv zeta. rewrite Hr, !resolveProxyPathMiddleNames_spec.
    set (init := initialState steps servers inbounds externals). set (res := reservedNames paths steps inbounds externals).
    assert (suffixDirect res (recomputeProxyPathNames (middleSpec (init <$> paths') <$> (init <$> paths'))) ≡ₚ
            suffixDirect res (recomputeProxyPathNames (middleSpec (init <$> paths) <$> (init <$> paths)))) as Hm.
    { apply suffixDirect_perm. unfold recomputeProxyPathNames. apply fmap_Permutation.
      rewrite (list_fmap_ext (middleSpec (init <$> paths')) (middleSpec (init <$> paths)));
        [by rewrite Hp|]. intros i s _. apply middleSpec_perm; [|by rewrite Hp].
      rewrite <-list_fmap_compose. exact Hids. }
    rewrite (growFuel_perm _ _ Hm). by apply growLoop_perm. }
  rewrite Hs in Hg |- *. destruct (grownStates (M := M') paths' steps servers inbounds externals) as [states'|];
    inversion Hg as [? ? Hps|]; subst. cbv zeta.
  rewrite Hr, (conflicts_perm _ _ _ Hps), (usedNames_perm _ _ _ _ Hps).
  change (ltc (onc st_ID Z.compare)) with (ltc byID). rewrite (sorted_perm _ _ Hnd Hps).
  destruct (numberStates _ _ _) as [numbered|]; constructor. by rewrite !sort_slice_perm.
Qed.
End permuted.

(** ** What a group hides *)

Lemma foldl_common (l : list proxyPathNameState) c :
  let common := foldl (λ common s, commonProxyPathMiddle common (middleOf (st_route s))) c l in
  common `sublist_of` c ∧ ∀ s, s ∈ l → common `sublist_of` middleOf (st_route s).
Proof.
  revert c; induction l as [|s l IH]; intros c; simpl; [split; [done|set_solver]|].
  destruct (IH (commonProxyPathMiddle c (middleOf (st_route s)))) as [Hc Hl].
  destruct (commonProxyPathMiddle_sublist c (middleOf (st_route s))) as [H1 H2]. split; [by etrans|].
  intros t [->|Ht]%elem_of_cons; [by etrans|auto].
Qed.

Lemma sharedMiddle_sublist states ends s :
  s ∈ membersOf states ends → sharedMiddle states ends `sublist_of` middleOf (st_route s).
Proof.
  rewrite <-(elem_of_sort_slice (ltc byID)). unfold sharedMiddle. destruct (sort_slice _ _) as [|first rest]; [set_solver|].
  destruct (foldl_common rest (middleOf (st_route first))) as [Hc Hl]. intros [->|Hs]%elem_of_cons; [done|auto].
Qed.

(** ** Templates *)

Section templates.
Context (servers : gmap Z Server) (externals : gmap Z ExternalOutbound) (allowedServers allowedExternals : gset Z).
Implicit Types parts normalized : list ProxyPathNamePart.

Notation normalize := (normalizePart servers externals allowedServers allowedExternals).
Notation render := (renderPart servers externals).

(** The parts a normalized template consists of. *)
Inductive normalPart : ProxyPathNamePart → Prop :=
| NormalLiteral value : value ≠ ""%string → normalPart (literalPart value)
| NormalServer id : id ≠ 0 → id ∈ allowedServers → is_Some (servers !! id) → normalPart (serverPart id)
| NormalExternal id : id ≠ 0 → id ∈ allowedExternals → is_Some (externals !! id) → normalPart (externalPart id).

Definition isLiteral (p : ProxyPathNamePart) : bool := (NP_Kind p =? ProxyPathNameLiteral)%string.

Fixpoint separated parts : Prop :=
  match parts with
  | p :: (q :: _) as rest => (isLiteral p && isLiteral q = false) ∧ separated rest
  | _ => True
  end.

Lemma separated_snoc parts q :
  separated (parts ++ [q]) ↔ separated parts ∧ ∀ p, last parts = Some p → isLiteral p && isLiteral q = false.
Proof.
  induction parts as [|p [|p' parts] IH]; [simpl; naive_solver|simpl; naive_solver|].
  transitivity ((isLiteral p && isLiteral p' = false) ∧ separated ((p' :: parts) ++ [q])); [done|]. rewrite IH.
  transitivity ((isLiteral p && isLiteral p' = false ∧ separated (p' :: parts)) ∧
                ∀ p0, last (p' :: parts) = Some p0 → isLiteral p0 && isLiteral q = false); [naive_solver|done].
Qed.

Definition normalTemplate parts : Prop := Forall normalPart parts ∧ separated parts.

Lemma string_app_assoc s t u : (s +:+ t) +:+ u = s +:+ (t +:+ u).
Proof. apply bytes_of_inj. by rewrite !bytes_of_app, app_assoc. Qed.

Lemma string_app_nil s : s +:+ "" = s.
Proof. apply bytes_of_inj. by rewrite bytes_of_app, app_nil_r. Qed.

Lemma string_nonempty_app s t : s ≠ ""%string → s +:+ t ≠ ""%string.
Proof. by destruct s. Qed.

(** A literal added to a normal template keeps it normal, and adds its text. *)
Lemma appendLiteral_spec value normalized b :
  value ≠ ""%string → normalTemplate normalized → foldM render normalized ""%string = Ok b →
  let out := appendLiteral value normalized in
  normalTemplate out ∧ foldM render out ""%string = Ok (b +:+ value) ∧ (length out ≤ S (length normalized))%nat.
Proof.
  intros Hv [Hp Hs] Hr. unfold appendLiteral. destruct normalized as [|q l _] using rev_ind.
  { injection Hr as <-. split_and!; [split; [by constructor; [constructor|]|done]|done|done]. }
  rewrite last_snoc. apply Forall_app in Hp as [Hl Hq]. rewrite Forall_singleton in Hq.
  apply separated_snoc in Hs as [Hsl Hsq]. destruct (NP_Kind q =? ProxyPathNameLiteral)%string eqn:Hk.
  - rewrite List.removelast_last. destruct Hq as [v Hv'| |]; [|done..]. rewrite foldM_app in Hr |- *.
    destruct (foldM render l _) as [r|]; [|done]. injection Hr as <-. cbn. split_and!.
    + split; [apply Forall_app; split; [done|]; constructor; [|done]; constructor; by apply string_nonempty_app|].
      apply separated_snoc. split; [done|]. intros p Hlast. exact (Hsq p Hlast).
    + by rewrite string_app_assoc.
    + rewrite !length_app. simpl. lia.
  - rewrite foldM_app, Hr. cbn. split_and!.
    + split; [apply Forall_app; split; [by apply Forall_app; split; [|apply Forall_singleton]|]; constructor; [by constructor|done]|].
      apply separated_snoc. split; [by apply separated_snoc|]. rewrite last_snoc. intros p [= <-]. unfold isLiteral. by rewrite Hk.
    + done.
    + rewrite !length_app. simpl. lia.
Qed.

Lemma appendReference_spec p label normalized b :
  normalPart p → isLiteral p = false → (∀ b, render p b = Ok (b +:+ label)) → normalTemplate normalized →
  foldM render normalized ""%string = Ok b →
  normalTemplate (normalized ++ [p]) ∧ foldM render (normalized ++ [p]) ""%string = Ok (b +:+ label) ∧
  (length (normalized ++ [p]) ≤ S (length normalized))%nat.
Proof.
  intros Hp Hl Hr [Hf Hs] Hb. split_and!.
  - split; [apply Forall_app; split; [done|by apply Forall_singleton]|]. apply separated_snoc. split; [done|].
    intros q _. by rewrite Hl, andb_false_r.
  - rewrite foldM_app, Hb. cbn. by rewrite Hr.
  - rewrite length_app. simpl. lia.
Qed.

Lemma normalizePart_spec part normalized out b :
  normalize part normalized = Ok out → normalTemplate normalized → foldM render normalized ""%string = Ok b →
  ∃ b', render part b = Ok b' ∧ normalTemplate out ∧ foldM render out ""%string = Ok b' ∧ (length out ≤ S (length normalized))%nat.
Proof.
  unfold normalizePart, renderPart. cbv zeta. intros Hn Ht Hb.
  destruct (NP_Kind part =? ProxyPathNameLiteral)%string.
  - destruct (_ || _); [done|]. destruct (String.eqb_spec (NP_Value part) "") as [->|Hv]; injection Hn as <-.
    + exists b. rewrite string_app_nil. auto.
    + eexists. split; [done|]. by apply appendLiteral_spec.
  - destruct (NP_Kind part =? ProxyPathNameServer)%string.
    + destruct (_ || _) eqn:Hg; [done|]. bprop. destruct (servers !! NP_ServerID part) as [server|] eqn:Hs; [|done]. injection Hn as <-.
      eexists. split; [done|]. apply appendReference_spec; [|done| |done..].
      * constructor; [done..|by eexists].
      * intros c. unfold renderPart. cbn. by rewrite Hs.
    + destruct (NP_Kind part =? ProxyPathNameExternalOutbound)%string; [|done].
      destruct (_ || _) eqn:Hg; [done|]. bprop. destruct (externals !! NP_ExternalOutboundID part) as [external|] eqn:Hs; [|done]. injection Hn as <-.
      eexists. split; [done|]. apply appendReference_spec; [|done| |done..].
      * constructor; [done..|by eexists].
      * intros c. unfold renderPart. cbn. by rewrite Hs.
Qed.

Lemma normalize_spec parts normalized out b :
  foldM normalize parts normalized = Ok out → normalTemplate normalized → foldM render normalized ""%string = Ok b →
  ∃ name, foldM render parts b = Ok name ∧ normalTemplate out ∧ foldM render out ""%string = Ok name ∧
    (length out ≤ length parts + length normalized)%nat.
Proof.
  revert normalized b; induction parts as [|part parts IH]; intros normalized b; cbn [foldM].
  { intros [= <-] Ht Hb. eauto. }
  destruct (normalize part normalized) as [next|] eqn:Hn; [|done]. intros Hf Ht Hb.
  destruct (normalizePart_spec _ _ _ _ Hn Ht Hb) as (b' & Hr & Hnext & Hb' & Hlen).
  destruct (IH _ _ Hf Hnext Hb') as (name & Hname & Hout & Hrender & Hlen'). exists name. rewrite Hr. split_and!; [done..|simpl; lia].
Qed.

(** A normal template is its own normal form. *)
Lemma normalize_id parts normalized :
  normalTemplate (normalized ++ parts) → foldM normalize parts normalized = Ok (normalized ++ parts).
Proof.
  revert normalized; induction parts as [|p parts IH]; intros normalized Ht; [by rewrite app_nil_r|].
  rewrite (cons_middle p), app_assoc in Ht |- *. specialize (IH _ Ht).
  assert (normalTemplate (normalized ++ [p])) as [Hf Hs].
  { destruct Ht as [Hf Hs]. split; [by apply Forall_app in Hf as [? _]|]. clear IH Hf. induction parts as [|q parts IH] using rev_ind.
    - by rewrite app_nil_r in Hs.
    - rewrite app_assoc in Hs. apply separated_snoc in Hs as [Hs _]. auto. }
  apply separated_snoc in Hs as [_ Hlast]. apply Forall_app in Hf as [_ Hp]. rewrite Forall_singleton in Hp.
  cbn [foldM]. replace (normalize p normalized) with (Ok (E := NameErr) (normalized ++ [p])); [done|].
  destruct Hp as [v Hv|id Hid Hin [server Hs]|id Hid Hin [external Hs]]; unfold normalizePart; cbn.
  - apply String.eqb_neq in Hv. rewrite Hv. unfold appendLiteral. destruct (last normalized) as [q|]; [|done].
    specialize (Hlast q eq_refl). unfold isLiteral in Hlast. rewrite andb_true_r in Hlast. by rewrite Hlast.
  - apply Z.eqb_neq in Hid. rewrite Hid, bool_decide_eq_true_2 by done. cbn. by rewrite Hs.
  - apply Z.eqb_neq in Hid. rewrite Hid, bool_decide_eq_true_2 by done. cbn. by rewrite Hs.
Qed.
End templates.

(** ** A network to run the resolution on *)

Definition nameServer (id : Z) (name : string) : Server :=
  {| Server_ID := id; Server_PortRangeStart := 0; Server_PortRangeEnd := 0; Server_InternalPortRangeStart := 0;
     Server_InternalPortRangeEnd := 0; Server_ListenIP := ""; Server_ListenMode := ""; Server_PublicIPv6 := "";
     Server_InterfaceIPv6 := ""; Server_Name := name; Server_Status := ServerOnline; Server_RegionMode := "";
     Server_RegionCode := ""; Server_DetectedRegionCode := "JP"; Server_EntryAddress := ""; Server_PublicIPv4 := ""; Server_EntryIPMode := ""; Server_IPStack := "" |}.

Definition nameInbound (id server : Z) (name : string) : Inbound :=
  {| Inbound_ID := id; Inbound_ServerID := server; Inbound_Name := name; Inbound_Protocol := ProtocolVLESS;
     Inbound_ListenIP := ""; Inbound_Port := 443; Inbound_ConfigJSON := ""; Inbound_Enabled := true; Inbound_EntryIPMode := ""; Inbound_ExternalIP := "" |}.

Definition namePath (id : Z) (kind mode : string) (template : list ProxyPathNamePart) (inbound : Z) : ProxyPath :=
  {| ProxyPath_ID := id; ProxyPath_Kind := kind; ProxyPath_Name := ""; ProxyPath_NameMode := mode;
     ProxyPath_NameTemplate := template; ProxyPath_InboundID := inbound; ProxyPath_ExitRegionMode := "";
     ProxyPath_ExitRegionCode := ""; ProxyPath_DetectedExitRegionCode := ""; ProxyPath_EffectiveExitRegionCode := "";
     ProxyPath_ExitRegionSource := ""; ProxyPath_ExitRegionStatus := ""; ProxyPath_ExitRegionError := "";
     ProxyPath_ExitRegionProbedAt := None; ProxyPath_Enabled := true |}.

Definition nameStep (id path position : Z) (kind : string) (server external : option Z) : ProxyPathStep :=
  {| Step_ID := id; Step_PathID := path; Step_Position := position; Step_NodeType := kind; Step_TransportMode := "";
     Step_ProcessingRole := false; Step_ServerID := server; Step_InboundID := None; Step_ExternalOutboundID := external;
     Step_ConfigJSON := "" |}.

Definition nameDecoder : ListenDecoder :=
  {| decode_object _ := None; decode_inbounds _ := None;
     decode_tunnel _ := {| TC_ManagedPair := false; TC_Role := ""; TC_ServerPort := 0; TC_LocalForward := "" |} |}.

Definition nameServers : list Server :=
  [nameServer 1 "A"; nameServer 2 "B"; nameServer 3 "C"; nameServer 4 "D"; nameServer 5 "E"; nameServer 6 "F"].
Definition nameInbounds : list Inbound := [nameInbound 10 1 "entry"; nameInbound 20 1 "A｜D｜E"].
Definition namePaths : list ProxyPath :=
  [namePath 30 "" ProxyPathNameAuto [] 10; namePath 1 "" ProxyPathNameAuto [] 10; namePath 2 "" ProxyPathNameAuto [] 10;
   namePath 4 "" ProxyPathNameAuto [] 10; namePath 5 "" ProxyPathNameAuto [] 10].

Fixpoint nameRoute (path position : Z) (route : list Z) : list ProxyPathStep :=
  match route with
  | [] => []
  | server :: route => nameStep (100 * path + position) path position ProxyPathStepServerInbound (Some server) None
                       :: nameRoute path (position + 1) route
  end.

Definition nameSteps : list ProxyPathStep :=
  nameRoute 1 1 [2; 3; 5] ++ nameRoute 2 1 [2; 4; 5] ++ nameRoute 30 1 [2; 3; 6; 5] ++ nameRoute 4 1 [6] ++ nameRoute 5 1 [6].

Notation namedPaths paths := (ResolveProxyPathNames (D := nameDecoder) (M := map_range_default _ _) paths nameSteps nameServers nameInbounds []).

(** Intermediate nodes tell paths apart; a reserved name is avoided; equal paths are numbered. *)
Example namePaths_names :
  fmap (M := list) ProxyPath_Name <$> namedPaths namePaths =
  Some ["A｜C｜F｜E"; "A｜C｜E"; "A｜D｜E｜VLESS"; "A｜F｜VLESS｜SS2022-128｜01"; "A｜F｜VLESS｜SS2022-128｜02"]%string.
Proof. vm_compute. reflexivity. Qed.

(** ** Contracts *)

(** C30. The shared intermediate nodes of two routes are a longest common subsequence: they
    occur in both routes in order, and nothing longer does. *)
Theorem common_middle_longest a b :
  commonProxyPathMiddle a b `sublist_of` a ∧ commonProxyPathMiddle a b `sublist_of` b ∧
  ∀ c, c `sublist_of` a → c `sublist_of` b → (length c ≤ length (commonProxyPathMiddle a b))%nat.
Proof.
  destruct (commonProxyPathMiddle_sublist a b) as [Ha Hb]. split_and!; [done..|].
  intros c Hca Hcb. rewrite commonProxyPathMiddle_length. by apply lcs_upper.
Qed.

(** C13. For paths with distinct identifiers the resolution of names always ends and changes
    nothing but names; the names of the active paths are pairwise distinct and none is the name
    of another node that users see. *)
Theorem path_names_unique {D : ListenDecoder} {M : MapRange (string * string) (list nat)}
    paths steps servers inbounds externals :
  NoDup (ProxyPath_ID <$> paths) →
  ∃ out, ResolveProxyPathNames paths steps servers inbounds externals = Some out ∧
    setPathName "" <$> out = setPathName "" <$> paths ∧
    NoDup (ProxyPath_Name <$> List.filter (pathActive steps) out) ∧
    ∀ p, p ∈ out → pathActive steps p = true → ProxyPath_Name p ∉ reservedNames paths steps inbounds externals.
Proof. apply resolved_names. Qed.

Lemma path_names_unique_witness :
  ∃ out, namedPaths namePaths = Some out ∧ NoDup (ProxyPath_Name <$> List.filter (pathActive nameSteps) out) ∧
    "A｜D｜E"%string ∈ reservedNames namePaths nameSteps nameInbounds [].
Proof.
  destruct (path_names_unique (D := nameDecoder) (M := map_range_default _ _) namePaths nameSteps nameServers nameInbounds [])
    as (out & Hout & _ & Hnd & _); [apply (bool_decide_unpack _); vm_compute; exact I|].
  exists out. split_and!; [done..|]. apply (bool_decide_unpack _). vm_compute. exact I.
Defined.

(** The name of a path depends neither on the order in which groups of paths are visited
    nor on the order of the paths: two resolutions of the same paths give the same names. *)
Theorem path_names_order_independent {D : ListenDecoder} (M M' : MapRange (string * string) (list nat))
    paths paths' steps servers inbounds externals :
  NoDup (ProxyPath_ID <$> paths) → paths' ≡ₚ paths →
  ∃ out out', ResolveProxyPathNames (M := M) paths steps servers inbounds externals = Some out ∧
    ResolveProxyPathNames (M := M') paths' steps servers inbounds externals = Some out' ∧ out' ≡ₚ out.
Proof.
  intros Hids Hp. pose proof (resolved_perm M M' paths paths' steps servers inbounds externals Hids Hp) as Hf.
  destruct (resolved_names (M := M) paths steps servers inbounds externals Hids) as (out & Hout & _).
  rewrite Hout in Hf. inversion Hf as [out' ? Hperm Heq|]; subst. eauto.
Qed.

Lemma path_names_order_independent_witness :
  ∃ out out', namedPaths namePaths = Some out ∧
    ResolveProxyPathNames (D := nameDecoder) (M := map_range_reverse _ _) (reverse namePaths) nameSteps nameServers nameInbounds [] = Some out' ∧
    out' ≡ₚ out.
Proof.
  apply (path_names_order_independent (D := nameDecoder)); [apply (bool_decide_unpack _); vm_compute; exact I|apply reverse_Permutation].
Defined.

(** A path in a group of paths with the same ends shows, in order, exactly the intermediate
    nodes of its route that are not hidden; what is hidden occurs in the same order in the
    route of every path of the group. *)
Theorem middle_nodes_shown {M : MapRange (string * string) (list nat)} states i s :
  states !! i = Some s → middleGrouped s = true → (2 ≤ length (membersOf states (endsOf (st_route s))))%nat →
  ∃ s' hidden, resolveProxyPathMiddleNames states !! i = Some s' ∧
    st_middles s' `sublist_of` middleOf (st_route s) ∧ st_middles s' ++ hidden ≡ₚ middleOf (st_route s) ∧
    ∀ t, t ∈ membersOf states (endsOf (st_route s)) → hidden `sublist_of` middleOf (st_route t).
Proof.
  intros Hs Hg Hlen. rewrite resolveProxyPathMiddleNames_spec, list_lookup_fmap, Hs.
  exists (middleSpec states s), (sharedMiddle states (endsOf (st_route s))). split; [done|].
  unfold middleSpec. cbv zeta. rewrite Hg. apply Nat.leb_le in Hlen. rewrite Hlen. cbn [andb st_middles hideCommon setMiddles].
  assert (s ∈ membersOf states (endsOf (st_route s))) as Hm.
  { apply list_elem_of_In, List.filter_In. rewrite Hg, bool_decide_eq_true_2 by done. split; [|done].
    by apply list_elem_of_In, (list_elem_of_lookup_2 _ i). }
  destruct (residual_spec _ _ (sharedMiddle_sublist _ _ _ Hm)) as [H1 H2]. split_and!; [done..|]. apply sharedMiddle_sublist.
Qed.

Definition nameStates : list proxyPathNameState := initialState (D := nameDecoder) nameSteps nameServers nameInbounds [] <$> namePaths.

Lemma middle_nodes_shown_witness :
  ∃ s' hidden, resolveProxyPathMiddleNames (M := map_range_default _ _) nameStates !! 0%nat = Some s' ∧
    st_middles s' ++ hidden ≡ₚ ["B"; "C"; "F"]%string.
Proof.
  destruct (nameStates !! 0%nat) as [s|] eqn:Hs; [|by vm_compute in Hs].
  assert (middleOf (st_route s) = ["B"; "C"; "F"]%string ∧ middleGrouped s = true ∧
          Nat.leb 2 (length (membersOf nameStates (endsOf (st_route s)))) = true) as (Hmid & Hg & Hlen).
  { vm_compute in Hs. injection Hs as <-. by vm_compute. }
  apply Nat.leb_le in Hlen.
  destruct (middle_nodes_shown (M := map_range_default _ _) nameStates 0 s Hs Hg Hlen) as (s' & hidden & H1 & _ & H3 & _).
  exists s', hidden. split; [done|]. by rewrite <-Hmid.
Defined.

(** What a successful normalization of a custom name went through. *)
Lemma normalize_custom path steps servers inbounds externals path' :
  NormalizeProxyPathName path steps servers inbounds externals = (path', Ok ()) → ProxyPath_NameMode path' ≠ ProxyPathNameAuto →
  let serverByID := indexBy Server_ID servers in
  let externalByID := indexBy External_ID externals in
  let refs := proxyPathNameReferences path steps (indexBy Inbound_ID inbounds) in
  ∃ normalized name, path' = setNaming ProxyPathNameCustom normalized path ∧ (length (ProxyPath_NameTemplate path) ≤ 32)%nat ∧
    foldM (normalizePart serverByID externalByID refs.1 refs.2) (ProxyPath_NameTemplate path) [] = Ok normalized ∧
    normalized ≠ [] ∧ renderProxyPathNameTemplate serverByID externalByID normalized = Ok name ∧ TrimSpace name ≠ ""%string.
Proof.
  unfold NormalizeProxyPathName. cbv zeta. set (mode := if (ProxyPath_NameMode path =? "")%string then _ else _).
  destruct (String.eqb_spec mode ProxyPathNameAuto) as [->|Hauto]; [by intros [= <-]|].
  destruct (String.eqb_spec mode ProxyPathNameCustom) as [Hm|]; [|done]. rewrite Hm. cbn [negb fail_if rbind].
  change (proxyPathNameReferences (setNaming _ _ path) steps) with (proxyPathNameReferences path steps).
  destruct (proxyPathNameReferences path steps (indexBy Inbound_ID inbounds)) as [allowedServers allowedExternals] eqn:Hrefs.
  cbn [ProxyPath_NameTemplate setNaming]. case_bool_decide; [done|]. cbn [fail_if rbind].
  destruct (Nat.ltb_spec 32 (length (ProxyPath_NameTemplate path))); [done|]. cbn [fail_if rbind].
  destruct (foldM _ _ _) as [normalized|] eqn:Hn; [|done]. cbn [rbind]. case_bool_decide; [done|]. cbn [fail_if rbind].
  destruct (renderProxyPathNameTemplate _ _ normalized) as [name|] eqn:Hr; [|done].
  destruct (String.eqb_spec (TrimSpace name) ""); [done|]. cbn [fail_if rbind]. intros [= <-] _.
  exists normalized, name. cbn [fst snd]. done.
Qed.

(** A custom name that is accepted keeps its text: the normalized template renders the
    same non-empty name as the given one, has at most 32 parts, names only resources of the
    path that exist, has no empty and no adjacent literals, and normalizing it again changes
    nothing. *)
Theorem name_template_normalized path steps servers inbounds externals path' :
  NormalizeProxyPathName path steps servers inbounds externals = (path', Ok ()) → ProxyPath_NameMode path' ≠ ProxyPathNameAuto →
  let serverByID := indexBy Server_ID servers in
  let externalByID := indexBy External_ID externals in
  let refs := proxyPathNameReferences path steps (indexBy Inbound_ID inbounds) in
  let template := ProxyPath_NameTemplate path' in
  (∃ name, renderProxyPathNameTemplate serverByID externalByID (ProxyPath_NameTemplate path) = Ok name ∧
     renderProxyPathNameTemplate serverByID externalByID template = Ok name ∧ TrimSpace name ≠ ""%string) ∧
  normalTemplate serverByID externalByID refs.1 refs.2 template ∧ (0 < length template ≤ 32)%nat ∧
  NormalizeProxyPathName path' steps servers inbounds externals = (path', Ok ()).
Proof.
  intros Hok Hmode. cbv zeta. destruct (normalize_custom _ _ _ _ _ _ Hok Hmode) as (normalized & name & -> & Hlen & Hn & Hne & Hr & Hname).
  cbn [ProxyPath_NameTemplate setNaming].
  destruct (normalize_spec _ _ _ _ _ [] normalized "" Hn) as (name' & Hr' & Ht & Hr'' & Hlen'); [by split|done|].
  unfold renderProxyPathNameTemplate in *. rewrite Hr'' in Hr. injection Hr as ->.
  assert (0 < length normalized ≤ 32)%nat as Hl by (split; [destruct normalized; [done|simpl; lia]|simpl in Hlen'; lia]).
  split_and!; [by exists name|done|lia..|].
  unfold NormalizeProxyPathName. cbv zeta. cbn [ProxyPath_NameMode ProxyPath_NameTemplate setNaming String.eqb Ascii.eqb Bool.eqb].
  change (ProxyPathNameCustom =? "")%string with false. cbv iota.
  change (ProxyPathNameCustom =? ProxyPathNameAuto)%string with false. cbv iota.
  change (ProxyPathNameCustom =? ProxyPathNameCustom)%string with true. cbn [negb fail_if rbind].
  change (proxyPathNameReferences (setNaming _ _ (setNaming _ _ path)) steps) with (proxyPathNameReferences path steps).
  destruct (proxyPathNameReferences path steps (indexBy Inbound_ID inbounds)) as [allowedServers allowedExternals].
  rewrite bool_decide_eq_false_2 by done. destruct (Nat.ltb_spec 32 (length normalized)); [lia|]. cbn [fail_if rbind].
  rewrite (normalize_id _ _ _ _ normalized []) by done. cbn [rbind app]. rewrite bool_decide_eq_false_2 by done. cbn [fail_if rbind].
  unfold renderProxyPathNameTemplate. rewrite Hr''. apply String.eqb_neq in Hname. by rewrite Hname.
Qed.

Definition templatePath : ProxyPath :=
  namePath 1 "" ProxyPathNameCustom [literalPart "via "; literalPart ""; literalPart "node "; serverPart 3] 10.

Lemma name_template_normalized_witness :
  ∃ path', NormalizeProxyPathName templatePath nameSteps nameServers nameInbounds [] = (path', Ok ()) ∧
    renderProxyPathNameTemplate (indexBy Server_ID nameServers) ∅ (ProxyPath_NameTemplate path') = Ok "via node C"%string ∧
    ProxyPath_NameTemplate path' = [literalPart "via node "; serverPart 3].
Proof.
  set (p := setNaming ProxyPathNameCustom [literalPart "via node "; serverPart 3] templatePath).
  assert (NormalizeProxyPathName templatePath nameSteps nameServers nameInbounds [] = (p, Ok ())) as Hok by (vm_compute; reflexivity).
  assert (ProxyPath_NameMode p ≠ ProxyPathNameAuto) as Hmode by done.
  destruct (name_template_normalized _ _ _ _ _ _ Hok Hmode) as [(name & Hr1 & Hr2 & _) _].
  exists p. split_and!; [exact Hok| |reflexivity]. transitivity (Ok (E := NameErr) name); [exact Hr2|]. rewrite <-Hr1. vm_compute. reflexivity.
Defined.
