(* ===== verification/ExitRegions.v ===== *)
(** * Exit regions ([internal/core/exit_regions.go])

    The region a path leaves the network in is set by hand, measured by a probe through the
    imported node at its end, or the region of its last server.  An imported node has the region
    the probes through it agree on.  A probe result counts only for the topology it was taken
    on, which a fingerprint identifies.

    The JSON encoding and SHA-256 behind the fingerprint are the class [EgressCodec]; the
    fingerprint is that of a descriptor, which is modelled. *)

From S2P Require Import Prelude Model NodeKeys NetAddr ListenResources ProxyPathNames.

Local Open Scope Z_scope.

Definition RegionStatusResolved : string := "resolved".
Definition RegionStatusPending : string := "pending".
Definition RegionStatusFailed : string := "failed".
Definition RegionStatusStale : string := "stale".
Definition RegionStatusUnlinked : string := "unlinked".
Definition RegionStatusIncomplete : string := "incomplete".
Definition RegionStatusConflict : string := "conflict".

Definition RegionSourcePathManual : string := "path_manual".
Definition RegionSourceExternalManual : string := "external_manual".
Definition RegionSourceProbe : string := "probe".
Definition RegionSourceServerManual : string := "server_manual".
Definition RegionSourceServerDetected : string := "server_detected".
Definition RegionSourceUnresolved : string := "unresolved".

Definition isManual (mode : string) : bool := EqualFold (TrimSpace mode) "manual".

Definition EffectiveServerRegion (server : Server) : string * string :=
  let manual := NormalizeRegionCode (Server_RegionCode server) in
  let detected := NormalizeRegionCode (Server_DetectedRegionCode server) in
  if isManual (Server_RegionMode server) && negb (manual =? "")%string then (manual, RegionSourceServerManual)
  else if negb (detected =? "")%string then (detected, RegionSourceServerDetected)
  else (""%string, RegionSourceUnresolved).

(** The UTF-8 encoding of the regional indicator of a letter: [U+1F1E6] is [A]. *)
Definition regionalIndicator (c : ascii) : list ascii :=
  [ascii_of_nat 0xF0; ascii_of_nat 0x9F; ascii_of_nat 0x87; ascii_of_nat (Z.to_nat (0xA6 + (byte_of c - 65)))].

Definition RegionFlagEmoji (code : string) : string :=
  let code := NormalizeRegionCode code in
  let code := if (code =? "")%string then "AQ"%string else code in
  of_bytes (List.concat (regionalIndicator <$> bytes_of code)).

(** The probe reports [AQ] when it does not know the region. *)
Definition detectedRegionCode (code : string) : string :=
  let code := NormalizeRegionCode code in
  if (code =? "AQ")%string then ""%string else code.

Definition externalUsableOnServer (v : ExternalOutbound) (serverID : Z) : bool :=
  if (External_Scope v =? ExternalOutboundScopeServer)%string then bool_decide (External_ServerID v = Some serverID)
  else if negb (isSet (External_ServerID v)) then true
  else bool_decide (External_ServerID v = Some serverID).

Definition proxyPathStepTag (pathID position : Z) : string :=
  "path-" +:+ FormatInt pathID +:+ "-step-" +:+ FormatInt position.

Definition nextServer (inbounds : gmap Z Inbound) (serverID : Z) (step : ProxyPathStep) : Z :=
  if negb (Step_NodeType step =? ProxyPathStepServerInbound)%string then serverID
  else match proxyPathStepTargetServer step inbounds with
       | Some (next, _) => next
       | None => serverID
       end.

Definition finalControlledServerID (path : ProxyPath) (steps : list ProxyPathStep) (inbounds : gmap Z Inbound) : Z * bool :=
  match inbounds !! ProxyPath_InboundID path with
  | None => (0, false)
  | Some root => let serverID := foldl (nextServer inbounds) (Inbound_ServerID root) steps in (serverID, 0 <? serverID)
  end.

(** ** The fingerprint of a topology *)

Definition EffectiveIPStack (server : Server) : string :=
  if negb (Server_IPStack server =? "")%string && negb (Server_IPStack server =? IPStackAuto)%string then Server_IPStack server
  else
    let hasIPv4 := negb (TrimSpace (Server_PublicIPv4 server) =? "")%string in
    let hasIPv6 := negb (TrimSpace (Server_PublicIPv6 server) =? "")%string in
    if hasIPv4 && hasIPv6 then IPStackDualStack
    else if hasIPv6 then IPStackIPv6Only
    else if hasIPv4 then IPStackIPv4Only
    else IPStackAuto.

Record serverState := {
  SS_ID : Z; SS_EntryAddress : string; SS_PublicIPv4 : string; SS_PublicIPv6 : string; SS_EntryIPMode : string;
  SS_ListenIP : string; SS_IPStack : string }.

Record inboundState := {
  IS_ID : Z; IS_ServerID : Z; IS_Protocol : string; IS_ListenIP : string; IS_Port : Z; IS_EntryIPMode : string;
  IS_ExternalIP : string; IS_ConfigJSON : string }.

Record externalState := {
  ES_ID : Z; ES_ServerID : option Z; ES_Protocol : string; ES_Scope : string; ES_TargetAddress : string;
  ES_TargetPort : Z; ES_ConfigJSON : string; ES_Enabled : bool }.

Record stepState := {
  TS_ID : Z; TS_Position : Z; TS_NodeType : string; TS_TransportMode : string; TS_ProcessingRole : bool;
  TS_ServerID : option Z; TS_InboundID : option Z; TS_ExternalOutboundID : option Z; TS_ConfigJSON : string }.

Record descriptor := {
  DS_PathID : Z; DS_Kind : string; DS_InboundID : Z; DS_OwnerServerID : Z; DS_Steps : list stepState;
  DS_Servers : list serverState; DS_Inbounds : list inboundState; DS_Externals : list externalState }.

(** [json.Unmarshal] then [json.Marshal] of a text; [json.Marshal] of the descriptor; [sha256]
    in hexadecimal. *)
Class EgressCodec := {
  reencode_json : string → option string;
  marshal_descriptor : descriptor → option string;
  sha256_hex : string → string }.

Section fingerprint.
Context {C : EgressCodec} {MI : MapRange Z bool}.

Definition canonicalJSONObject (raw : string) : string := default (TrimSpace raw) (reencode_json raw).

Definition normalizedStep (step : ProxyPathStep) : stepState :=
  {| TS_ID := Step_ID step; TS_Position := Step_Position step; TS_NodeType := Step_NodeType step;
     TS_TransportMode := transportMode step; TS_ProcessingRole := Step_ProcessingRole step;
     TS_ServerID := Step_ServerID step; TS_InboundID := Step_InboundID step;
     TS_ExternalOutboundID := Step_ExternalOutboundID step; TS_ConfigJSON := canonicalJSONObject (Step_ConfigJSON step) |}.

Definition serverStateOf (s : Server) : serverState :=
  {| SS_ID := Server_ID s; SS_EntryAddress := Server_EntryAddress s; SS_PublicIPv4 := Server_PublicIPv4 s;
     SS_PublicIPv6 := Server_PublicIPv6 s; SS_EntryIPMode := Server_EntryIPMode s; SS_ListenIP := Server_ListenIP s;
     SS_IPStack := EffectiveIPStack s |}.

Definition inboundStateOf (i : Inbound) : inboundState :=
  {| IS_ID := Inbound_ID i; IS_ServerID := Inbound_ServerID i; IS_Protocol := Inbound_Protocol i;
     IS_ListenIP := Inbound_ListenIP i; IS_Port := Inbound_Port i; IS_EntryIPMode := Inbound_EntryIPMode i;
     IS_ExternalIP := Inbound_ExternalIP i; IS_ConfigJSON := canonicalJSONObject (Inbound_ConfigJSON i) |}.

Definition externalStateOf (e : ExternalOutbound) : externalState :=
  {| ES_ID := External_ID e; ES_ServerID := External_ServerID e; ES_Protocol := External_Protocol e;
     ES_Scope := External_Scope e; ES_TargetAddress := External_TargetAddress e; ES_TargetPort := External_TargetPort e;
     ES_ConfigJSON := canonicalJSONObject (External_ConfigJSON e); ES_Enabled := External_Enabled e |}.

(** [if p != nil { set[*p] = true }] *)
Definition markID (p : option Z) (ids : gmap Z bool) : gmap Z bool :=
  match p with Some id => <[id := true]> ids | None => ids end.

(** The rows of a map for a set of identifiers, by identifier. *)
Definition statesFor {A S : Type} (rows : gmap Z A) (state : A → S) (key : S → Z) (ids : gmap Z bool) : list S :=
  sort_slice (ltc (onc key Z.compare)) (omap (λ '(id, _), state <$> rows !! id) (map_range ids)).

Definition egressDescriptor (path : ProxyPath) (steps : list ProxyPathStep) (servers : gmap Z Server)
    (inbounds : gmap Z Inbound) (externals : gmap Z ExternalOutbound) (ownerServerID : Z) : descriptor :=
  let normalizedSteps := normalizedStep <$> steps in
  let inboundIDs := foldl (λ ids s, markID (TS_InboundID s) ids) {[ProxyPath_InboundID path := true]} normalizedSteps in
  let externalIDs := foldl (λ ids s, markID (TS_ExternalOutboundID s) ids) ∅ normalizedSteps in
  let serverIDs := foldl (λ ids s, markID (TS_ServerID s) ids) ∅ normalizedSteps in
  let serverIDs := foldl (λ ids '(inboundID, _), markID (Inbound_ServerID <$> inbounds !! inboundID) ids)
                         serverIDs (map_range inboundIDs) in
  {| DS_PathID := ProxyPath_ID path; DS_Kind := ProxyPath_Kind path; DS_InboundID := ProxyPath_InboundID path;
     DS_OwnerServerID := ownerServerID; DS_Steps := normalizedSteps;
     DS_Servers := statesFor servers serverStateOf SS_ID serverIDs;
     DS_Inbounds := statesFor inbounds inboundStateOf IS_ID inboundIDs;
     DS_Externals := statesFor externals externalStateOf ES_ID externalIDs |}.

Definition externalEgressTopologyFingerprint (path : ProxyPath) (steps : list ProxyPathStep) (servers : gmap Z Server)
    (inbounds : gmap Z Inbound) (externals : gmap Z ExternalOutbound) (ownerServerID : Z) : string :=
  match marshal_descriptor (egressDescriptor path steps servers inbounds externals ownerServerID) with
  | Some raw => sha256_hex raw
  | None => ""%string
  end.

(** ** Probe targets *)

Section targets.
Context (steps : list ProxyPathStep) (servers : list Server) (inbounds : list Inbound) (externals : list ExternalOutbound).

Definition stepsOf (path : ProxyPath) : list ProxyPathStep :=
  orderedProxyPathSteps (mlist (groupBy Step_PathID steps) (ProxyPath_ID path)).

(** The target of a path: the body of the loop, [None] for every [continue]. *)
Definition probeTarget (path : ProxyPath) : option ExternalEgressProbeTarget :=
  let inboundByID := indexBy Inbound_ID inbounds in
  let externalByID := indexBy External_ID externals in
  if negb (ProxyPath_Enabled path) then None
  else match inboundByID !! ProxyPath_InboundID path with
  | None => None
  | Some root =>
    if negb (Inbound_Enabled root) then None
    else
      let ordered := stepsOf path in
      match last ordered with
      | None => None
      | Some terminal =>
        if negb (Step_NodeType terminal =? ProxyPathStepImported)%string then None
        else
          let currentServerID := foldl (nextServer inboundByID) (Inbound_ServerID root) (removelast ordered) in
          match Step_ExternalOutboundID terminal with
          | None => None
          | Some externalID =>
            if currentServerID =? 0 then None
            else match externalByID !! externalID with
            | None => None
            | Some external =>
              if negb (External_Enabled external) || negb (externalUsableOnServer external currentServerID) then None
              else
                let fingerprint := externalEgressTopologyFingerprint path ordered (indexBy Server_ID servers) inboundByID
                                     externalByID currentServerID in
                if (fingerprint =? "")%string then None
                else Some {| Target_ProbeID := "egress-" +:+ FormatInt (ProxyPath_ID path) +:+ "-" +:+ String.substring 0 16 fingerprint;
                             Target_PathID := ProxyPath_ID path; Target_ExternalOutboundID := External_ID external;
                             Target_OwnerServerID := currentServerID;
                             Target_OutboundTag := proxyPathStepTag (ProxyPath_ID path) (Step_Position terminal);
                             Target_TopologyFingerprint := fingerprint |}
            end
          end
      end
  end.

Definition ExternalEgressProbeTargets (paths : list ProxyPath) : list ExternalEgressProbeTarget :=
  sort_slice (ltc (onc Target_PathID Z.compare)) (omap probeTarget paths).
End targets.
End fingerprint.

(** ** Resolution *)

Record exitFields := {
  EX_Mode : string; EX_Code : string; EX_Detected : string; EX_Effective : string;
  EX_Source : string; EX_Status : string; EX_Error : string; EX_ProbedAt : option Z }.

Definition exitOf (p : ProxyPath) : exitFields :=
  {| EX_Mode := ProxyPath_ExitRegionMode p; EX_Code := ProxyPath_ExitRegionCode p;
     EX_Detected := ProxyPath_DetectedExitRegionCode p; EX_Effective := ProxyPath_EffectiveExitRegionCode p;
     EX_Source := ProxyPath_ExitRegionSource p; EX_Status := ProxyPath_ExitRegionStatus p;
     EX_Error := ProxyPath_ExitRegionError p; EX_ProbedAt := ProxyPath_ExitRegionProbedAt p |}.

Definition setExit (e : exitFields) (p : ProxyPath) : ProxyPath :=
  {| ProxyPath_ID := ProxyPath_ID p; ProxyPath_Kind := ProxyPath_Kind p; ProxyPath_Name := ProxyPath_Name p;
     ProxyPath_NameMode := ProxyPath_NameMode p; ProxyPath_NameTemplate := ProxyPath_NameTemplate p;
     ProxyPath_InboundID := ProxyPath_InboundID p; ProxyPath_ExitRegionMode := EX_Mode e; ProxyPath_ExitRegionCode := EX_Code e;
     ProxyPath_DetectedExitRegionCode := EX_Detected e; ProxyPath_EffectiveExitRegionCode := EX_Effective e;
     ProxyPath_ExitRegionSource := EX_Source e; ProxyPath_ExitRegionStatus := EX_Status e;
     ProxyPath_ExitRegionError := EX_Error e; ProxyPath_ExitRegionProbedAt := EX_ProbedAt e;
     ProxyPath_Enabled := ProxyPath_Enabled p |}.

Definition unresolvedExit (mode status : string) (e : exitFields) : exitFields :=
  {| EX_Mode := mode; EX_Code := ""; EX_Detected := EX_Detected e; EX_Effective := EX_Effective e;
     EX_Source := RegionSourceUnresolved; EX_Status := status; EX_Error := EX_Error e; EX_ProbedAt := EX_ProbedAt e |}.

Definition resolvedExit (mode code effective source : string) (e : exitFields) : exitFields :=
  {| EX_Mode := mode; EX_Code := code; EX_Detected := EX_Detected e; EX_Effective := effective;
     EX_Source := source; EX_Status := RegionStatusResolved; EX_Error := EX_Error e; EX_ProbedAt := EX_ProbedAt e |}.

(** The fields from a probe result of the current topology. *)
Definition probedExit (mode : string) (r : ProxyPathEgressResult) (e : exitFields) : exitFields :=
  let code := detectedRegionCode (Egress_LastRegionCode r) in
  let status := Egress_Status r in
  if negb (code =? "")%string then
    {| EX_Mode := mode; EX_Code := ""; EX_Detected := code; EX_Effective := code; EX_Source := RegionSourceProbe;
       EX_Status := if (status =? "")%string then RegionStatusResolved else status;
       EX_Error := Egress_LastError r; EX_ProbedAt := Egress_LastAttemptAt r |}
  else
    {| EX_Mode := mode; EX_Code := ""; EX_Detected := code; EX_Effective := EX_Effective e; EX_Source := RegionSourceUnresolved;
       EX_Status := if (status =? "")%string || (status =? "succeeded")%string then RegionStatusFailed else status;
       EX_Error := Egress_LastError r; EX_ProbedAt := Egress_LastAttemptAt r |}.

(** The region of the last server of a path. *)
Definition serverExit (mode : string) (server : option Server) (e : exitFields) : exitFields :=
  let '(effective, source) := match server with
                              | Some server => EffectiveServerRegion server
                              | None => (EX_Effective e, EX_Source e)
                              end in
  if negb (effective =? "")%string then resolvedExit mode "" effective source e
  else {| EX_Mode := mode; EX_Code := ""; EX_Detected := EX_Detected e; EX_Effective := effective;
          EX_Source := RegionSourceUnresolved; EX_Status := RegionStatusPending; EX_Error := EX_Error e;
          EX_ProbedAt := EX_ProbedAt e |}.

Section resolution.
Context {C : EgressCodec} {MI : MapRange Z bool} {MT : MapRange Z ExternalEgressProbeTarget}.
Context (paths : list ProxyPath) (steps : list ProxyPathStep) (servers : list Server) (inbounds : list Inbound)
        (externals : list ExternalOutbound) (results : list ProxyPathEgressResult).

Definition targetByPath : gmap Z ExternalEgressProbeTarget :=
  indexBy Target_PathID (ExternalEgressProbeTargets steps servers inbounds externals paths).
Definition resultByPath : gmap Z ProxyPathEgressResult := indexBy Egress_PathID results.

(** The manual region of the imported node at the end of a path, if it has one. *)
Definition manualTerminal (terminal : ProxyPathStep) : string :=
  match Step_ExternalOutboundID terminal with
  | None => ""%string
  | Some id => match indexBy External_ID externals !! id with
               | Some external => if isManual (External_RegionMode external) then NormalizeRegionCode (External_RegionCode external)
                                  else ""%string
               | None => ""%string
               end
  end.

Definition importedExit (mode : string) (path : ProxyPath) (terminal : ProxyPathStep) (e : exitFields) : exitFields :=
  let manual := manualTerminal terminal in
  if negb (manual =? "")%string then resolvedExit mode "" manual RegionSourceExternalManual e
  else match targetByPath !! ProxyPath_ID path, resultByPath !! ProxyPath_ID path with
       | Some target, Some r =>
           if negb (Egress_TopologyFingerprint r =? Target_TopologyFingerprint target)%string
           then unresolvedExit mode RegionStatusStale e
           else probedExit mode r e
       | _, _ => unresolvedExit mode RegionStatusPending e
       end.

Definition finalServer (path : ProxyPath) : option Server :=
  let '(serverID, ok) := finalControlledServerID path (stepsOf steps path) (indexBy Inbound_ID inbounds) in
  if ok : bool then indexBy Server_ID servers !! serverID else None.

Definition resolvePath (path : ProxyPath) : ProxyPath :=
  let e := exitOf path in
  let mode := ToLower (TrimSpace (ProxyPath_ExitRegionMode path)) in
  let mode := if (mode =? "manual")%string then mode else "auto"%string in
  let manual := NormalizeRegionCode (ProxyPath_ExitRegionCode path) in
  if (mode =? "manual")%string && negb (manual =? "")%string
  then setExit (resolvedExit mode manual manual RegionSourcePathManual e) path
  else
    setExit (match last (stepsOf steps path) with
             | Some terminal => if (Step_NodeType terminal =? ProxyPathStepImported)%string
                                then importedExit mode path terminal e
                                else serverExit mode (finalServer path) e
             | None => serverExit mode (finalServer path) e
             end) path.

(** *** Imported nodes *)

Definition setRegion (mode code detected effective source status error : string) (probedAt : option Z)
    (x : ExternalOutbound) : ExternalOutbound :=
  {| External_ID := External_ID x; External_ServerID := External_ServerID x; External_Name := External_Name x;
     External_Protocol := External_Protocol x; External_Scope := External_Scope x; External_RegionMode := mode;
     External_RegionCode := code; External_DetectedRegionCode := detected; External_EffectiveRegionCode := effective;
     External_RegionSource := source; External_RegionStatus := status; External_RegionError := error;
     External_RegionProbedAt := probedAt; External_ExposeToUsers := External_ExposeToUsers x;
     External_Enabled := External_Enabled x; External_TargetAddress := External_TargetAddress x;
     External_TargetPort := External_TargetPort x; External_ConfigJSON := External_ConfigJSON x |}.

Definition pathsByExternal : gmap Z (list Z) :=
  foldl (λ m '(_, target), mappend (Target_ExternalOutboundID target) (Target_PathID target) m) ∅ (map_range targetByPath).

(** What the loop over the paths of a node collects. *)
Record probeSummary := {
  PS_Codes : gset string;
  PS_Missing : nat;
  PS_Pending : bool;
  PS_Failed : bool;
  PS_Error : string;
  PS_ProbedAt : option Z }.

Definition laterProbe (old new : option Z) : option Z :=
  match new with
  | Some t => match old with
              | Some t' => if t' <? t then Some t else old
              | None => Some t
              end
  | None => old
  end.

Definition summarize (path : ProxyPath) (a : probeSummary) : probeSummary :=
  let code := detectedRegionCode (ProxyPath_DetectedExitRegionCode path) in
  let status := ProxyPath_ExitRegionStatus path in
  let failed := (status =? RegionStatusFailed)%string in
  {| PS_Codes := if (code =? "")%string then PS_Codes a else {[code]} ∪ PS_Codes a;
     PS_Missing := if (code =? "")%string then S (PS_Missing a) else PS_Missing a;
     PS_Pending := PS_Pending a || (status =? RegionStatusPending)%string;
     PS_Failed := PS_Failed a || failed;
     PS_Error := if failed && (PS_Error a =? "")%string then ProxyPath_ExitRegionError path else PS_Error a;
     PS_ProbedAt := laterProbe (PS_ProbedAt a) (ProxyPath_ExitRegionProbedAt path) |}.

Definition zeroPath : ProxyPath :=
  {| ProxyPath_ID := 0; ProxyPath_Kind := ""; ProxyPath_Name := ""; ProxyPath_NameMode := ""; ProxyPath_NameTemplate := [];
     ProxyPath_InboundID := 0; ProxyPath_ExitRegionMode := ""; ProxyPath_ExitRegionCode := "";
     ProxyPath_DetectedExitRegionCode := ""; ProxyPath_EffectiveExitRegionCode := ""; ProxyPath_ExitRegionSource := "";
     ProxyPath_ExitRegionStatus := ""; ProxyPath_ExitRegionError := ""; ProxyPath_ExitRegionProbedAt := None;
     ProxyPath_Enabled := false |}.

Definition linkedSummary (pathByID : gmap Z ProxyPath) (linked : list Z) (x : ExternalOutbound) : probeSummary :=
  foldl (λ a pathID, summarize (default zeroPath (pathByID !! pathID)) a)
        {| PS_Codes := ∅; PS_Missing := 0; PS_Pending := false; PS_Failed := false;
           PS_Error := External_RegionError x; PS_ProbedAt := External_RegionProbedAt x |} linked.

Definition agreedStatus (a : probeSummary) : string :=
  if PS_Pending a then RegionStatusPending else if PS_Failed a then RegionStatusFailed else RegionStatusResolved.

Definition openStatus (a : probeSummary) : string :=
  if Nat.ltb 1 (size (PS_Codes a)) then RegionStatusConflict
  else if Nat.ltb 0 (size (PS_Codes a)) then RegionStatusIncomplete
  else if PS_Failed a then RegionStatusFailed
  else if PS_Pending a then RegionStatusPending
  else RegionStatusIncomplete.

Definition resolveExternal (pathByID : gmap Z ProxyPath) (x : ExternalOutbound) : ExternalOutbound :=
  let mode := ToLower (TrimSpace (External_RegionMode x)) in
  let manual := NormalizeRegionCode (External_RegionCode x) in
  if (mode =? "manual")%string && negb (manual =? "")%string then
    setRegion mode manual (External_DetectedRegionCode x) manual RegionSourceExternalManual RegionStatusResolved
              (External_RegionError x) (External_RegionProbedAt x) x
  else
    let linked := mlist pathsByExternal (External_ID x) in
    if bool_decide (linked = []) then
      setRegion "auto" "" (External_DetectedRegionCode x) (External_EffectiveRegionCode x) RegionSourceUnresolved
                RegionStatusUnlinked (External_RegionError x) (External_RegionProbedAt x) x
    else
      let a := linkedSummary pathByID linked x in
      if Nat.eqb (PS_Missing a) 0 && Nat.eqb (size (PS_Codes a)) 1 then
        let code := List.hd ""%string (elements (PS_Codes a)) in
        setRegion "auto" "" code code RegionSourceProbe (agreedStatus a) (PS_Error a) (PS_ProbedAt a) x
      else
        setRegion "auto" "" (External_DetectedRegionCode x) (External_EffectiveRegionCode x) RegionSourceUnresolved
                  (openStatus a) (PS_Error a) (PS_ProbedAt a) x.

Definition ResolveProxyPathExitRegions : list ProxyPath * list ExternalOutbound :=
  let resolvedPaths := resolvePath <$> paths in
  (resolvedPaths, resolveExternal (indexBy ProxyPath_ID resolvedPaths) <$> externals).
End resolution.
