(* ===== verification/ExitRegionSafety.v ===== *)
(** * What the exit regions guarantee

    A region comes from a source that holds for the current topology, imported nodes have a
    region only when all probes through them agree, and the result depends on the order of
    maps in nothing but the reported error. *)

From S2P Require Import Prelude Model NodeKeys NetAddr ListenResources ProxyPathNames ProxyPathNameSafety ExitRegions.

Local Open Scope Z_scope.

(** ** The fingerprint does not depend on map order *)

Section descriptors.
Context {C : EgressCodec}.

Lemma omap_perm {A B} (f : A → option B) l l' : l' ≡ₚ l → omap f l' ≡ₚ omap f l.
Proof. by intros ->. Qed.

Lemma onc_sep {A} (key : A → Z) l x y :
  NoDup (key <$> l) → x ∈ l → y ∈ l → ltc (onc key Z.compare) x y = false → ltc (onc key Z.compare) y x = false → x = y.
Proof.
  intros Hnd Hx Hy H1 H2. apply (NoDup_fmap_key key l); [done..|]. unfold ltc, onc in *.
  destruct (Z.compare_spec (key x) (key y)), (Z.compare_spec (key y) (key x)); try done; lia.
Qed.

Lemma omap_keys {A B} (rows : gmap Z A) (state : A → B) (key : B → Z) (ids : list (Z * bool)) :
  (∀ id a, rows !! id = Some a → key (state a) = id) → NoDup ids.*1 →
  NoDup (key <$> omap (λ '(id, _), state <$> rows !! id) ids).
Proof.
  intros Hkey. induction ids as [|[id b] ids IH]; [done|]. cbn [fmap list_fmap]. intros [Hid Hnd]%NoDup_cons.
  cbn [omap list_omap]. specialize (IH Hnd). destruct (rows !! id) as [a|] eqn:Ha; [|done]. simpl. constructor; [|done].
  rewrite (Hkey id a Ha). intros (s & Heq & Hs)%list_elem_of_fmap. apply list_elem_of_omap in Hs as ([id' b'] & Hin & Hr).
  destruct (rows !! id') as [a'|] eqn:Ha'; [|done]. injection Hr as <-. rewrite (Hkey id' a' Ha') in Heq. subst.
  apply Hid, list_elem_of_fmap. by exists (id', b').
Qed.

Lemma statesFor_order (M M' : MapRange Z bool) {A B} (rows : gmap Z A) (state : A → B) (key : B → Z) ids :
  (∀ id a, rows !! id = Some a → key (state a) = id) →
  statesFor (MI := M') rows state key ids = statesFor (MI := M) rows state key ids.
Proof.
  intros Hkey. unfold statesFor. apply sort_slice_perm_eq; [apply _| |by rewrite !map_range_perm].
  intros x y. apply onc_sep, omap_keys; [done|apply NoDup_map_range].
Qed.

Lemma markIDs_order {A} (f : A → option Z) l l' (ids : gmap Z bool) :
  l' ≡ₚ l → foldl (λ ids x, markID (f x) ids) ids l' = foldl (λ ids x, markID (f x) ids) ids l.
Proof.
  intros Hp. revert ids. induction Hp as [|x l l' _ IH|x y l|l l' l'' _ IH1 _ IH2]; intros ids; simpl; [done|by rewrite IH| |by rewrite IH1].
  f_equal. unfold markID. destruct (f x) as [a|], (f y) as [b|]; try done.
  destruct (decide (a = b)) as [->|]; [done|]. by rewrite insert_insert_ne.
Qed.

Lemma indexBy_key {A} (f : A → Z) l k x : indexBy f l !! k = Some x → f x = k.
Proof. by intros [_ ?]%indexBy_Some. Qed.

Lemma egressDescriptor_order (M M' : MapRange Z bool) path steps servers inbounds externals owner :
  egressDescriptor (MI := M') path steps (indexBy Server_ID servers) (indexBy Inbound_ID inbounds) (indexBy External_ID externals) owner =
  egressDescriptor (MI := M) path steps (indexBy Server_ID servers) (indexBy Inbound_ID inbounds) (indexBy External_ID externals) owner.
Proof.
  unfold egressDescriptor. cbv zeta. f_equal.
  - rewrite (statesFor_order M M') by (intros id a Ha; exact (indexBy_key _ _ _ _ Ha)). f_equal.
    set (ids := foldl _ {[_ := true]} _).
    transitivity (foldl (λ ids x, markID (Inbound_ServerID <$> indexBy Inbound_ID inbounds !! x.1) ids)
       (foldl (λ ids s, markID (TS_ServerID s) ids) ∅ (normalizedStep <$> steps)) (map_range (MapRange := M') ids)).
    { generalize (map_range (MapRange := M') ids) as l. intros l. generalize (foldl (λ ids s, markID (TS_ServerID s) ids) ∅ (normalizedStep <$> steps)).
      induction l as [|[? ?] l IH]; intros m; simpl; [done|apply IH]. }
    rewrite (markIDs_order _ (map_range (MapRange := M) ids)) by (by rewrite !map_range_perm).
    generalize (map_range (MapRange := M) ids) as l. intros l. generalize (foldl (λ ids s, markID (TS_ServerID s) ids) ∅ (normalizedStep <$> steps)).
    induction l as [|[? ?] l IH]; intros m; simpl; [done|apply IH].
  - apply statesFor_order. intros id a Ha. exact (indexBy_key _ _ _ _ Ha).
  - apply statesFor_order. intros id a Ha. exact (indexBy_key _ _ _ _ Ha).
Qed.

Lemma probeTarget_order (M M' : MapRange Z bool) steps servers inbounds externals path :
  probeTarget (MI := M') steps servers inbounds externals path = probeTarget (MI := M) steps servers inbounds externals path.
Proof.
  unfold probeTarget, externalEgressTopologyFingerprint. cbv zeta.
  repeat case_match; try done; rewrite (egressDescriptor_order M M') in *; congruence.
Qed.

Lemma targets_order (M M' : MapRange Z bool) steps servers inbounds externals paths :
  ExternalEgressProbeTargets (MI := M') steps servers inbounds externals paths =
  ExternalEgressProbeTargets (MI := M) steps servers inbounds externals paths.
Proof.
  unfold ExternalEgressProbeTargets. f_equal. induction paths as [|p paths IH]; [done|]. cbn [omap list_omap].
  by rewrite (probeTarget_order M M'), IH.
Qed.
End descriptors.

(** ** Targets *)

Section targetFacts.
Context {C : EgressCodec} {MI : MapRange Z bool}.
Context (steps : list ProxyPathStep) (servers : list Server) (inbounds : list Inbound) (externals : list ExternalOutbound).

Lemma foldl_nextServer_imported (m : gmap Z Inbound) l terminal s :
  (Step_NodeType terminal =? ProxyPathStepImported)%string = true →
  foldl (nextServer m) s (l ++ [terminal]) = foldl (nextServer m) s l.
Proof.
  intros Hk. rewrite foldl_app. simpl. unfold nextServer at 1. apply String.eqb_eq in Hk. by rewrite Hk.
Qed.

(** A target: an enabled path that ends in an enabled imported node its last server may use. *)
Definition targetOf (path : ProxyPath) (t : ExternalEgressProbeTarget) : Prop :=
  ∃ root terminal external,
    ProxyPath_Enabled path = true ∧ indexBy Inbound_ID inbounds !! ProxyPath_InboundID path = Some root ∧ Inbound_Enabled root = true ∧
    last (stepsOf steps path) = Some terminal ∧ Step_NodeType terminal = ProxyPathStepImported ∧
    Step_ExternalOutboundID terminal = Some (Target_ExternalOutboundID t) ∧
    indexBy External_ID externals !! Target_ExternalOutboundID t = Some external ∧ External_Enabled external = true ∧
    externalUsableOnServer external (Target_OwnerServerID t) = true ∧
    (finalControlledServerID path (stepsOf steps path) (indexBy Inbound_ID inbounds)).1 = Target_OwnerServerID t ∧
    Target_OwnerServerID t ≠ 0 ∧ Target_PathID t = ProxyPath_ID path ∧
    Target_TopologyFingerprint t = externalEgressTopologyFingerprint path (stepsOf steps path) (indexBy Server_ID servers)
      (indexBy Inbound_ID inbounds) (indexBy External_ID externals) (Target_OwnerServerID t).

Lemma probeTarget_sound path t : probeTarget steps servers inbounds externals path = Some t → targetOf path t.
Proof.
  unfold probeTarget. cbv zeta. destruct (ProxyPath_Enabled path) eqn:Hpath; [|done]. cbn [negb].
  destruct (indexBy Inbound_ID inbounds !! ProxyPath_InboundID path) as [root|] eqn:Hroot; [|done].
  destruct (Inbound_Enabled root) eqn:Hren; [|done]. cbn [negb].
  destruct (stepsOf steps path) as [|terminal l _] eqn:Hsteps using rev_ind; [done|]. rewrite last_snoc.
  destruct (Step_NodeType terminal =? ProxyPathStepImported)%string eqn:Hk; [|done]. cbn [negb].
  rewrite List.removelast_last.
  destruct (Step_ExternalOutboundID terminal) as [externalID|] eqn:Hext; [|done].
  destruct (_ =? 0) eqn:Hz; [done|]. bprop.
  destruct (indexBy External_ID externals !! externalID) as [external|] eqn:Hx; [|done].
  destruct (_ || _) eqn:Hguard; [done|]. bprop.
  destruct (_ =? "")%string eqn:Hf; [done|]. intros [= <-].
  exists root, terminal, external. rewrite Hsteps, last_snoc. cbn [Target_ExternalOutboundID Target_OwnerServerID Target_PathID Target_TopologyFingerprint].
  rewrite (indexBy_key _ _ _ _ Hx). unfold finalControlledServerID. rewrite Hroot, foldl_nextServer_imported by done.
  apply String.eqb_eq in Hk. split_and!; done.
Qed.

Lemma probeTarget_complete path t : targetOf path t → 
  (∀ raw, sha256_hex raw ≠ ""%string) → (∀ d, is_Some (marshal_descriptor d)) → is_Some (probeTarget steps servers inbounds externals path).
Proof.
  intros (root & terminal & external & Hpath & Hroot & Hren & Hlast & Hk & Hext & Hx & Hxe & Huse & Hown & Hz & _) Hsha Hmar.
  unfold probeTarget. cbv zeta. rewrite Hpath, Hroot, Hren, Hlast. cbn [negb]. rewrite Hk. cbn [negb String.eqb].
  rewrite (proj2 (String.eqb_eq _ _) eq_refl). cbn [negb]. rewrite Hext.
  destruct (stepsOf steps path) as [|last l _] eqn:Hsteps using rev_ind; [done|]. rewrite last_snoc in Hlast. injection Hlast as ->.
  rewrite List.removelast_last. unfold finalControlledServerID in Hown. rewrite Hroot, foldl_nextServer_imported in Hown by (by apply String.eqb_eq).
  cbn [fst] in Hown. rewrite Hown. apply Z.eqb_neq in Hz. rewrite Hz, Hx, Hxe, Huse. cbn [negb orb].
  unfold externalEgressTopologyFingerprint. destruct (marshal_descriptor _) as [raw|] eqn:Hm; [|by destruct (Hmar (egressDescriptor path (l ++ [terminal]) (indexBy Server_ID servers) (indexBy Inbound_ID inbounds) (indexBy External_ID externals) (Target_OwnerServerID t))) as [? ?]; simplify_eq].
  destruct (String.eqb_spec (sha256_hex raw) ""); [by destruct (Hsha raw)|]. by eexists.
Qed.

Lemma probeTarget_pathID path t : probeTarget steps servers inbounds externals path = Some t → Target_PathID t = ProxyPath_ID path.
Proof. intros (root & terminal & external & H)%probeTarget_sound. naive_solver. Qed.

Lemma targetByPath_Some paths id t :
  targetByPath paths steps servers inbounds externals !! id = Some t →
  ∃ path, path ∈ paths ∧ ProxyPath_ID path = id ∧ probeTarget steps servers inbounds externals path = Some t.
Proof.
  unfold targetByPath. intros [Ht Hid]%indexBy_Some. unfold ExternalEgressProbeTargets in Ht. rewrite elem_of_sort_slice in Ht.
  apply list_elem_of_omap in Ht as (path & Hpath & Hpt). exists path. rewrite <-Hid. split_and!; [done| |done].
  symmetry. by apply probeTarget_pathID.
Qed.

Lemma omap_pathIDs paths :
  NoDup (ProxyPath_ID <$> paths) → NoDup (Target_PathID <$> omap (probeTarget steps servers inbounds externals) paths).
Proof.
  induction paths as [|p paths IH]; [done|]. rewrite fmap_cons. intros [Hn Hnd]%NoDup_cons. specialize (IH Hnd).
  cbn [omap list_omap]. destruct (probeTarget _ _ _ _ p) as [t|] eqn:Ht; [|done]. rewrite fmap_cons. constructor; [|done].
  rewrite (probeTarget_pathID _ _ Ht). intros (t' & Heq & Ht')%list_elem_of_fmap. apply list_elem_of_omap in Ht' as (q & Hq & Hqt).
  apply Hn. rewrite Heq, (probeTarget_pathID _ _ Hqt). by apply list_elem_of_fmap_2.
Qed.

Lemma targetByPath_lookup paths path :
  NoDup (ProxyPath_ID <$> paths) → path ∈ paths →
  targetByPath paths steps servers inbounds externals !! ProxyPath_ID path = probeTarget steps servers inbounds externals path.
Proof.
  intros Hnd Hp. destruct (probeTarget steps servers inbounds externals path) as [t|] eqn:Ht.
  - unfold targetByPath. rewrite <-(probeTarget_pathID _ _ Ht). apply indexBy_NoDup.
    + unfold ExternalEgressProbeTargets. rewrite sort_slice_perm. by apply omap_pathIDs.
    + apply elem_of_sort_slice, list_elem_of_omap. eauto.
  - destruct (targetByPath _ _ _ _ _ !! _) as [t|] eqn:Hl; [|done].
    apply targetByPath_Some in Hl as (q & Hq & Hid & Hqt).
    assert (q = path) as -> by (by apply (NoDup_fmap_key ProxyPath_ID paths)). congruence.
Qed.
End targetFacts.

(** ** Paths *)

Lemma NormalizeRegionCode_empty : NormalizeRegionCode "" = ""%string.
Proof. done. Qed.

Lemma detectedRegionCode_normal code : NormalizeRegionCode (detectedRegionCode code) = detectedRegionCode code ∧ detectedRegionCode code ≠ "AQ"%string.
Proof.
  unfold detectedRegionCode. cbv zeta. destruct (String.eqb_spec (NormalizeRegionCode code) "AQ"); [done|].
  split; [apply NormalizeRegionCode_idem|done].
Qed.

Lemma EffectiveServerRegion_spec server :
  let '(code, source) := EffectiveServerRegion server in
  NormalizeRegionCode code = code ∧ (code = ""%string ↔ source = RegionSourceUnresolved) ∧ source ≠ RegionSourceProbe.
Proof.
  unfold EffectiveServerRegion. cbv zeta. destruct (_ && _) eqn:Hm.
  { apply andb_true_iff in Hm as [_ Hne]. bprop. apply String.eqb_neq in Hne. split_and!; [apply NormalizeRegionCode_idem|naive_solver|done]. }
  destruct (String.eqb_spec (NormalizeRegionCode (Server_DetectedRegionCode server)) "") as [|Hne]; cbn [negb].
  - done.
  - split_and!; [apply NormalizeRegionCode_idem|naive_solver|done].
Qed.

(** The regions as they are read from the store: nothing is resolved yet. *)
Definition unresolved (p : ProxyPath) : Prop :=
  ProxyPath_EffectiveExitRegionCode p = ""%string ∧ ProxyPath_DetectedExitRegionCode p = ""%string ∧
  ProxyPath_ExitRegionSource p = ""%string.

(** A region with the source it names. *)
Definition soundExit (probed : string → Prop) (e : exitFields) : Prop :=
  NormalizeRegionCode (EX_Effective e) = EX_Effective e ∧
  (EX_Effective e = ""%string ↔ EX_Source e = RegionSourceUnresolved) ∧
  (EX_Source e = RegionSourceProbe → probed (EX_Effective e)).

Section pathFacts.
Context {C : EgressCodec} {MI : MapRange Z bool}.
Context (paths : list ProxyPath) (steps : list ProxyPathStep) (servers : list Server) (inbounds : list Inbound)
        (externals : list ExternalOutbound) (results : list ProxyPathEgressResult).

(** A probe of the current topology found the region. *)
Definition probedNow (path : ProxyPath) (code : string) : Prop :=
  ∃ target r, targetByPath paths steps servers inbounds externals !! ProxyPath_ID path = Some target ∧
    resultByPath results !! ProxyPath_ID path = Some r ∧
    Egress_TopologyFingerprint r = Target_TopologyFingerprint target ∧ detectedRegionCode (Egress_LastRegionCode r) = code.

Lemma resolvedExit_sound probed mode code region source e :
  NormalizeRegionCode region = region → region ≠ ""%string → source ≠ RegionSourceUnresolved → source ≠ RegionSourceProbe →
  soundExit probed (resolvedExit mode code region source e).
Proof. intros. split_and!; cbn; naive_solver. Qed.

Lemma importedExit_sound mode path terminal e :
  EX_Effective e = ""%string →
  soundExit (probedNow path) (importedExit paths steps servers inbounds externals results mode path terminal e).
Proof.
  intros He. unfold importedExit. cbv zeta. destruct (String.eqb_spec (manualTerminal externals terminal) "") as [|Hm]; cbn [negb].
  2: { apply resolvedExit_sound; [|done..]. unfold manualTerminal. repeat case_match; try done. apply NormalizeRegionCode_idem. }
  assert (∀ status, soundExit (probedNow path) (unresolvedExit mode status e)) as Hun.
  { intros status. split_and!; cbn; rewrite ?He; naive_solver. }
  destruct (targetByPath _ _ _ _ _ !! _) as [target|] eqn:Ht; [|apply Hun].
  destruct (resultByPath _ !! _) as [r|] eqn:Hr; [|apply Hun].
  destruct (String.eqb_spec (Egress_TopologyFingerprint r) (Target_TopologyFingerprint target)) as [Hf|]; cbn [negb]; [|apply Hun].
  unfold probedExit. cbv zeta. destruct (detectedRegionCode_normal (Egress_LastRegionCode r)) as [Hn _].
  destruct (String.eqb_spec (detectedRegionCode (Egress_LastRegionCode r)) "") as [|Hne]; cbn [negb].
  - split_and!; cbn; rewrite ?He; naive_solver.
  - split_and!; cbn; [done|naive_solver|]. intros _. by exists target, r.
Qed.

Lemma serverExit_sound probed mode server e :
  EX_Effective e = ""%string → EX_Source e = ""%string → soundExit probed (serverExit mode server e).
Proof.
  intros He Hs. unfold serverExit. destruct server as [server|].
  - pose proof (EffectiveServerRegion_spec server) as H. destruct (EffectiveServerRegion server) as [code source].
    destruct H as (Hn & Hiff & Hp). destruct (String.eqb_spec code "") as [->|Hne]; cbn [negb].
    + split_and!; cbn; naive_solver.
    + apply resolvedExit_sound; naive_solver.
  - rewrite He. cbn [negb String.eqb]. split_and!; cbn; naive_solver.
Qed.

Lemma resolvePath_sound path :
  unresolved path → soundExit (probedNow path) (exitOf (resolvePath paths steps servers inbounds externals results path)).
Proof.
  intros (He & _ & Hs). unfold resolvePath. cbv zeta. destruct (_ && _) eqn:Hm.
  { apply andb_true_iff in Hm as [_ Hne]. bprop. apply String.eqb_neq in Hne.
    apply (resolvedExit_sound _ _ _ _ _ (exitOf path)); [apply NormalizeRegionCode_idem|done..]. }
  destruct (last (stepsOf steps path)) as [terminal|]; [destruct (_ =? ProxyPathStepImported)%string|].
  - exact (importedExit_sound _ path terminal (exitOf path) He).
  - exact (serverExit_sound _ _ _ (exitOf path) He Hs).
  - exact (serverExit_sound _ _ _ (exitOf path) He Hs).
Qed.

(** A region set by hand is the region. *)
Lemma resolvePath_manual path :
  ToLower (TrimSpace (ProxyPath_ExitRegionMode path)) = "manual"%string → NormalizeRegionCode (ProxyPath_ExitRegionCode path) ≠ ""%string →
  let p := resolvePath paths steps servers inbounds externals results path in
  ProxyPath_EffectiveExitRegionCode p = NormalizeRegionCode (ProxyPath_ExitRegionCode path) ∧ ProxyPath_ExitRegionSource p = RegionSourcePathManual.
Proof. intros Hm Hc. unfold resolvePath. cbv zeta. rewrite Hm. apply String.eqb_neq in Hc. by rewrite Hc. Qed.

(** Resolution changes only the exit fields. *)
Lemma resolvePath_erased path :
  ProxyPath_ID (resolvePath paths steps servers inbounds externals results path) = ProxyPath_ID path ∧
  setExit (exitOf path) (resolvePath paths steps servers inbounds externals results path) = path.
Proof. unfold resolvePath. cbv zeta. destruct (_ && _); by destruct path. Qed.
End pathFacts.

(** ** Imported nodes *)

Section externalFacts.
Context {C : EgressCodec} {MI : MapRange Z bool}.
Context (paths : list ProxyPath) (steps : list ProxyPathStep) (servers : list Server) (inbounds : list Inbound)
        (externals : list ExternalOutbound) (results : list ProxyPathEgressResult).

Notation target := (targetByPath paths steps servers inbounds externals).

Lemma foldl_mappend_list {A} (key : A → Z) (val : A → Z) (l : list A) (m : gmap Z (list Z)) k :
  mlist (foldl (λ m x, mappend (key x) (val x) m) m l) k = mlist m k ++ (val <$> List.filter (λ x, bool_decide (key x = k)) l).
Proof.
  revert m; induction l as [|x l IH]; intros m; simpl; [by rewrite app_nil_r|]. rewrite IH, mlist_mappend, bool_decide_decide.
  destruct (decide (key x = k)) as [->|]; [rewrite <-app_assoc|]; done.
Qed.

Lemma linked_spec {MT : MapRange Z ExternalEgressProbeTarget} externalID :
  mlist (pathsByExternal paths steps servers inbounds externals) externalID =
  (λ x, Target_PathID x.2) <$> List.filter (λ x, bool_decide (Target_ExternalOutboundID x.2 = externalID)) (map_range target).
Proof.
  unfold pathsByExternal. transitivity (mlist (foldl (λ m x, mappend (Target_ExternalOutboundID x.2) (Target_PathID x.2) m) ∅ (map_range target)) externalID).
  - f_equal. generalize (∅ : gmap Z (list Z)). generalize (map_range target). intros l. induction l as [|[? ?] l IH]; intros m; simpl; [done|apply IH].
  - by rewrite (foldl_mappend_list (λ x, Target_ExternalOutboundID x.2) (λ x, Target_PathID x.2)).
Qed.

Lemma elem_of_linked {MT : MapRange Z ExternalEgressProbeTarget} externalID pathID :
  pathID ∈ mlist (pathsByExternal paths steps servers inbounds externals) externalID ↔
  ∃ t, target !! pathID = Some t ∧ Target_ExternalOutboundID t = externalID.
Proof.
  rewrite linked_spec, list_elem_of_fmap. split.
  - intros ([k t] & -> & Hin). apply list_elem_of_In, List.filter_In in Hin as [Hin%list_elem_of_In Hd%bool_decide_eq_true].
    apply elem_of_map_range in Hin. exists t. cbn in *. split; [|done].
    destruct (targetByPath_Some _ _ _ _ _ _ _ Hin) as (q & _ & Hq & Hqt). apply probeTarget_pathID in Hqt. congruence.
  - intros (t & Ht & Hx). exists (pathID, t). split.
    + destruct (targetByPath_Some _ _ _ _ _ _ _ Ht) as (q & _ & Hq & Hqt). apply probeTarget_pathID in Hqt. cbn. congruence.
    + apply list_elem_of_In, List.filter_In. split; [by apply list_elem_of_In, elem_of_map_range|]. by apply bool_decide_eq_true.
Qed.

(** *** Summaries *)

Definition codeOf (pathByID : gmap Z ProxyPath) (pathID : Z) : string :=
  detectedRegionCode (ProxyPath_DetectedExitRegionCode (default zeroPath (pathByID !! pathID))).

Lemma summary_codes (pathByID : gmap Z ProxyPath) linked x code :
  code ∈ PS_Codes (linkedSummary pathByID linked x) ↔ code ≠ ""%string ∧ ∃ id, id ∈ linked ∧ codeOf pathByID id = code.
Proof.
  unfold linkedSummary. rewrite (foldl_iff (λ a, code ∈ PS_Codes a) (λ id, code ≠ ""%string ∧ codeOf pathByID id = code)).
  - cbn. set_solver.
  - intros a id _. unfold summarize, codeOf. cbn.
    destruct (String.eqb_spec (detectedRegionCode (ProxyPath_DetectedExitRegionCode (default zeroPath (pathByID !! id)))) "") as [->|]; set_solver.
Qed.

Notation summaryOf pathByID := (foldl (λ a pathID, summarize (default zeroPath (pathByID !! pathID)) a)).

Lemma missing_grows (pathByID : gmap Z ProxyPath) linked a :
  PS_Missing a ≠ 0%nat → PS_Missing (summaryOf pathByID a linked) ≠ 0%nat.
Proof. revert a; induction linked as [|id linked IH]; intros a Ha; simpl; [done|]. apply IH. cbn. by destruct (_ =? "")%string. Qed.

Lemma missing_zero (pathByID : gmap Z ProxyPath) linked a :
  PS_Missing a = 0%nat → PS_Missing (summaryOf pathByID a linked) = 0%nat ↔ ∀ id, id ∈ linked → codeOf pathByID id ≠ ""%string.
Proof.
  revert a; induction linked as [|id linked IH]; intros a H0; simpl; [set_solver|].
  unfold codeOf in *. destruct (String.eqb_spec (detectedRegionCode (ProxyPath_DetectedExitRegionCode (default zeroPath (pathByID !! id)))) "") as [He|He].
  - split; [|intros Hall; destruct (Hall id); [by left|done]]. intros Hz. exfalso. revert Hz. apply missing_grows. cbn. by rewrite He.
  - rewrite IH; [set_solver|]. cbn. apply String.eqb_neq in He. by rewrite He.
Qed.

Lemma summary_missing (pathByID : gmap Z ProxyPath) linked x :
  PS_Missing (linkedSummary pathByID linked x) = 0%nat ↔ ∀ id, id ∈ linked → codeOf pathByID id ≠ ""%string.
Proof. by apply missing_zero. Qed.

Lemma size_one_iff (X : gset string) : size X = 1%nat ↔ ∃ c, X = {[c]}.
Proof.
  split; [|intros [c ->]; apply size_singleton]. intros [c Hc]%size_1_elem_of. exists c. by apply leibniz_equiv.
Qed.

(** A node without a region set by hand has the region all probes through it found. *)
Lemma resolveExternal_agreed {MT : MapRange Z ExternalEgressProbeTarget} pathByID x code :
  (ToLower (TrimSpace (External_RegionMode x)) =? "manual")%string && negb (NormalizeRegionCode (External_RegionCode x) =? "")%string = false →
  let x' := resolveExternal paths steps servers inbounds externals pathByID x in
  let linked := mlist (pathsByExternal paths steps servers inbounds externals) (External_ID x) in
  External_RegionSource x' = RegionSourceProbe ∧ External_EffectiveRegionCode x' = code ↔
  linked ≠ [] ∧ code ≠ ""%string ∧ ∀ id, id ∈ linked → codeOf pathByID id = code.
Proof.
  intros Hman. unfold resolveExternal. cbv zeta. rewrite Hman. set (linked := mlist _ _). case_bool_decide as Hl; [naive_solver|].
  set (a := linkedSummary pathByID linked x). destruct (Nat.eqb (PS_Missing a) 0 && Nat.eqb (size (PS_Codes a)) 1) eqn:Hagree.
  - apply andb_true_iff in Hagree as [Hmiss%Nat.eqb_eq Hsize%Nat.eqb_eq]. apply size_one_iff in Hsize as [c Hc].
    rewrite Hc, elements_singleton. cbn [List.hd setRegion External_RegionSource External_EffectiveRegionCode].
    assert (c ≠ ""%string ∧ ∀ id, id ∈ linked → codeOf pathByID id = c) as [Hne Hall].
    { assert (c ∈ PS_Codes a) as Hin by (rewrite Hc; set_solver). apply summary_codes in Hin as [Hne _]. split; [done|].
      intros id Hid. assert (codeOf pathByID id ∈ PS_Codes a) as Hin; [|rewrite Hc in Hin; set_solver].
      apply summary_codes. split; [by apply (proj1 (summary_missing pathByID linked x) Hmiss)|eauto]. }
    split; [intros [_ <-]; done|]. intros (_ & _ & Hall'). split; [done|].
    destruct linked as [|id linked]; [done|]. rewrite <-(Hall id), (Hall' id); [done|by left..].
  - cbn. split; [by intros [? _]|]. intros (_ & Hne & Hall). exfalso. apply not_true_iff_false in Hagree. apply Hagree.
    apply andb_true_iff. rewrite !Nat.eqb_eq. split.
    + apply summary_missing. intros id Hid. by rewrite (Hall id Hid).
    + apply size_one_iff. exists code. apply set_eq. intros c. unfold a. rewrite summary_codes, elem_of_singleton.
      split; [intros (_ & id & Hid & <-); by apply Hall|]. intros ->. split; [done|]. destruct linked as [|id l]; [done|].
      exists id. split; [by left|]. apply Hall. by left.
Qed.

(** *** The order of the paths of a node *)

Definition withoutError (a : probeSummary) : probeSummary :=
  {| PS_Codes := PS_Codes a; PS_Missing := PS_Missing a; PS_Pending := PS_Pending a; PS_Failed := PS_Failed a;
     PS_Error := ""; PS_ProbedAt := PS_ProbedAt a |}.

Lemma laterProbe_swap a b c : laterProbe (laterProbe a b) c = laterProbe (laterProbe a c) b.
Proof. destruct a, b, c; simpl; repeat (case_match; simpl; bprop); try done; try (f_equal; lia); try (exfalso; congruence || lia); simplify_eq; try (f_equal; lia); lia. Qed.

Lemma summarize_swap p q a : withoutError (summarize p (summarize q a)) = withoutError (summarize q (summarize p a)).
Proof.
  unfold withoutError, summarize. cbn. f_equal.
  - destruct (_ =? "")%string, (_ =? "")%string; set_solver.
  - by destruct (_ =? "")%string, (_ =? "")%string.
  - rewrite <-!orb_assoc. f_equal. apply orb_comm.
  - rewrite <-!orb_assoc. f_equal. apply orb_comm.
  - apply laterProbe_swap.
Qed.

Lemma summarize_without p a a' : withoutError a = withoutError a' → withoutError (summarize p a) = withoutError (summarize p a').
Proof. destruct a, a'. intros [= -> -> -> -> ->]. done. Qed.

Lemma summaryOf_without (pathByID : gmap Z ProxyPath) linked a a' :
  withoutError a = withoutError a' → withoutError (summaryOf pathByID a linked) = withoutError (summaryOf pathByID a' linked).
Proof. revert a a'; induction linked as [|id linked IH]; intros a a' Ha; simpl; [done|]. by apply IH, summarize_without. Qed.

Lemma summaryOf_perm (pathByID : gmap Z ProxyPath) linked linked' a :
  linked' ≡ₚ linked → withoutError (summaryOf pathByID a linked') = withoutError (summaryOf pathByID a linked).
Proof.
  intros Hp. revert a. induction Hp as [|id l l' _ IH|i j l|l l' l'' _ IH1 _ IH2]; intros a; simpl; [done|apply IH| |by rewrite IH1].
  apply summaryOf_without, summarize_swap.
Qed.

Definition dropError (x : ExternalOutbound) : ExternalOutbound :=
  setRegion (External_RegionMode x) (External_RegionCode x) (External_DetectedRegionCode x) (External_EffectiveRegionCode x)
            (External_RegionSource x) (External_RegionStatus x) "" (External_RegionProbedAt x) x.

Lemma resolveExternal_order (T T' : MapRange Z ExternalEgressProbeTarget) pathByID x :
  dropError (resolveExternal (MT := T') paths steps servers inbounds externals pathByID x) =
  dropError (resolveExternal (MT := T) paths steps servers inbounds externals pathByID x).
Proof.
  unfold resolveExternal. cbv zeta. destruct (_ && _); [done|].
  set (linked' := mlist (pathsByExternal (MT := T') _ _ _ _ _) _). set (linked := mlist (pathsByExternal (MT := T) _ _ _ _ _) _).
  assert (linked' ≡ₚ linked) as Hp by (unfold linked', linked; by rewrite !linked_spec, !map_range_perm).
  assert (bool_decide (linked' = []) = bool_decide (linked = [])) as ->.
  { apply bool_decide_ext. split; intros Hl; rewrite Hl in Hp; [by apply Permutation_nil in Hp|by apply Permutation_nil_r in Hp]. }
  case_bool_decide; [done|]. pose proof (summaryOf_perm pathByID linked linked' _ Hp :
    withoutError (linkedSummary pathByID linked' x) = withoutError (linkedSummary pathByID linked x)) as Hs.
  destruct (linkedSummary pathByID linked' x) as [c m pe f er at'], (linkedSummary pathByID linked x) as [c2 m2 pe2 f2 er2 at2].
  injection Hs as -> -> -> -> ->.
  unfold agreedStatus, openStatus. cbn [PS_Missing PS_Codes PS_Pending PS_Failed PS_Error PS_ProbedAt]. by destruct (_ && _).
Qed.
End externalFacts.

(** ** A network to run the resolution on *)

Definition exitExternal (id : Z) : ExternalOutbound :=
  {| External_ID := id; External_ServerID := None; External_Name := "import"; External_Protocol := ProtocolSocks;
     External_Scope := ""; External_RegionMode := ""; External_RegionCode := ""; External_DetectedRegionCode := "";
     External_EffectiveRegionCode := ""; External_RegionSource := ""; External_RegionStatus := "";
     External_RegionError := ""; External_RegionProbedAt := None; External_ExposeToUsers := true; External_Enabled := true;
     External_TargetAddress := ""; External_TargetPort := 0; External_ConfigJSON := "" |}.

Definition exitCodec : EgressCodec :=
  {| reencode_json _ := None; marshal_descriptor d := Some (FormatInt (DS_PathID d)); sha256_hex raw := "0123456789abcdef" +:+ raw |}.

Definition exitPaths : list ProxyPath := [namePath 1 "" "" [] 10; namePath 2 "" "" [] 10; namePath 3 "" "" [] 10].
Definition exitSteps : list ProxyPathStep :=
  [nameStep 1 1 1 ProxyPathStepImported None (Some 7); nameStep 2 2 1 ProxyPathStepServerInbound (Some 2) None;
   nameStep 3 2 2 ProxyPathStepImported None (Some 7)].
Definition exitInbounds : list Inbound := [nameInbound 10 1 "entry"].

Definition exitResult (path : Z) (status code error : string) (at_ : Z) : ProxyPathEgressResult :=
  {| Egress_PathID := path; Egress_TopologyFingerprint := "0123456789abcdef" +:+ FormatInt path; Egress_Status := status;
     Egress_LastRegionCode := code; Egress_LastError := error; Egress_LastAttemptAt := Some at_ |}.

Notation exitRun MT results :=
  (ResolveProxyPathExitRegions (C := exitCodec) (MI := map_range_default _ _) (MT := MT) exitPaths exitSteps nameServers exitInbounds
     [exitExternal 7] results).

Definition agreeing : list ProxyPathEgressResult := [exitResult 1 "" "us" "" 5; exitResult 2 "" "US" "" 9].
Definition failing : list ProxyPathEgressResult := [exitResult 1 "failed" "" "timeout" 5; exitResult 2 "failed" "" "refused" 9].

Definition exitSummary (r : list ProxyPath * list ExternalOutbound) :=
  ((λ p, (ProxyPath_EffectiveExitRegionCode p, ProxyPath_ExitRegionSource p, ProxyPath_ExitRegionStatus p)) <$> r.1,
   (λ x, (External_EffectiveRegionCode x, External_RegionStatus x, External_RegionError x, External_RegionProbedAt x)) <$> r.2).

Example exitRun_agreeing :
  exitSummary (exitRun (map_range_default _ _) agreeing) =
  ([("US", "probe", "resolved"); ("US", "probe", "resolved"); ("JP", "server_detected", "resolved")]%string,
   [("US", "resolved", "", Some 9)]%string).
Proof. vm_compute. reflexivity. Qed.

(** ** Contracts *)

(** C23. A path whose regions are not resolved yet gets a valid region code or none, and names
    an unresolved source exactly when it has none; a region that comes from a probe was found
    on the topology the path has now; a region set by hand is kept.  Nothing else of the
    path changes. *)
Theorem exit_region_sound {C : EgressCodec} {MI : MapRange Z bool} {MT : MapRange Z ExternalEgressProbeTarget}
    paths steps servers inbounds externals results i path :
  paths !! i = Some path → unresolved path →
  ∃ path', (ResolveProxyPathExitRegions paths steps servers inbounds externals results).1 !! i = Some path' ∧
    soundExit (probedNow paths steps servers inbounds externals results path) (exitOf path') ∧
    setExit (exitOf path) path' = path ∧
    (ToLower (TrimSpace (ProxyPath_ExitRegionMode path)) = "manual"%string →
     NormalizeRegionCode (ProxyPath_ExitRegionCode path) ≠ ""%string →
     ProxyPath_EffectiveExitRegionCode path' = NormalizeRegionCode (ProxyPath_ExitRegionCode path)).
Proof.
  intros Hi Hu. unfold ResolveProxyPathExitRegions. cbv zeta. cbn [fst]. rewrite list_lookup_fmap, Hi.
  eexists. split; [done|]. split_and!.
  - by apply resolvePath_sound.
  - apply resolvePath_erased.
  - intros Hm Hc. by apply resolvePath_manual.
Qed.

Lemma exit_region_sound_witness :
  ∃ path', (exitRun (map_range_default _ _) agreeing).1 !! 0%nat = Some path' ∧
    soundExit (probedNow (C := exitCodec) (MI := map_range_default _ _) exitPaths exitSteps nameServers exitInbounds [exitExternal 7] agreeing
                 (namePath 1 "" "" [] 10)) (exitOf path').
Proof.
  destruct (exit_region_sound (C := exitCodec) (MI := map_range_default _ _) (MT := map_range_default _ _) exitPaths exitSteps nameServers
    exitInbounds [exitExternal 7] agreeing 0 (namePath 1 "" "" [] 10)) as (path' & H1 & H2 & _); [reflexivity|done|]. eauto.
Defined.

(** An imported node without a region set by hand gets a region from probes exactly when
    some path is probed through it and all those paths found the same region. *)
Theorem external_region_agreed {C : EgressCodec} {MI : MapRange Z bool} {MT : MapRange Z ExternalEgressProbeTarget}
    paths steps servers inbounds externals results i x code :
  externals !! i = Some x → ToLower (TrimSpace (External_RegionMode x)) ≠ "manual"%string →
  let '(paths', externals') := ResolveProxyPathExitRegions paths steps servers inbounds externals results in
  ∃ x', externals' !! i = Some x' ∧
    (External_RegionSource x' = RegionSourceProbe ∧ External_EffectiveRegionCode x' = code ↔
     code ≠ ""%string ∧
     (∃ id t, targetByPath paths steps servers inbounds externals !! id = Some t ∧ Target_ExternalOutboundID t = External_ID x) ∧
     ∀ id t, targetByPath paths steps servers inbounds externals !! id = Some t → Target_ExternalOutboundID t = External_ID x →
       codeOf (indexBy ProxyPath_ID paths') id = code).
Proof.
  intros Hi Hm. unfold ResolveProxyPathExitRegions. cbv zeta. rewrite list_lookup_fmap, Hi. eexists. split; [done|].
  rewrite resolveExternal_agreed by (apply String.eqb_neq in Hm; by rewrite Hm).
  setoid_rewrite (elem_of_linked paths steps servers inbounds externals (External_ID x)).
  split.
  - intros (Hne & Hcode & Hall). split_and!; [done| |by eauto].
    destruct (mlist _ _) as [|id l] eqn:Hl; [done|]. exists id.
    destruct (proj1 (elem_of_linked paths steps servers inbounds externals (External_ID x) id)) as (t & ? & ?); [rewrite Hl; by left|eauto].
  - intros (Hcode & (id & t & Ht & Hx) & Hall). split_and!; [|done|naive_solver].
    intros Hl. assert (id ∈ mlist (pathsByExternal paths steps servers inbounds externals) (External_ID x)) as Hin
      by (apply elem_of_linked; eauto). rewrite Hl in Hin. by apply not_elem_of_nil in Hin.
Qed.

Lemma external_region_agreed_witness :
  ∃ x', (exitRun (map_range_default _ _) agreeing).2 !! 0%nat = Some x' ∧
    (External_RegionSource x' = RegionSourceProbe ∧ External_EffectiveRegionCode x' = "US"%string → "US"%string ≠ ""%string).
Proof.
  pose proof (external_region_agreed (C := exitCodec) (MI := map_range_default _ _) (MT := map_range_default _ _) exitPaths exitSteps nameServers
    exitInbounds [exitExternal 7] agreeing 0 (exitExternal 7) "US"%string eq_refl) as H.
  destruct (exitRun (map_range_default _ _) agreeing) as [paths' externals'] eqn:Hrun.
  destruct H as (x' & Hx & Hiff); [done|]. exists x'. split; [done|]. intros Hsrc. by apply Hiff in Hsrc as [? _].
Defined.

(** The regions of paths and imported nodes do not depend on the iteration order of maps,
    except for the error text of an imported node. *)
Theorem regions_order_independent {C : EgressCodec} (M M' : MapRange Z bool) (T T' : MapRange Z ExternalEgressProbeTarget)
    paths steps servers inbounds externals results :
  let r := ResolveProxyPathExitRegions (MI := M) (MT := T) paths steps servers inbounds externals results in
  let r' := ResolveProxyPathExitRegions (MI := M') (MT := T') paths steps servers inbounds externals results in
  r'.1 = r.1 ∧ dropError <$> r'.2 = dropError <$> r.2.
Proof.
  cbv zeta. assert (targetByPath (MI := M') paths steps servers inbounds externals = targetByPath (MI := M) paths steps servers inbounds externals) as Ht.
  { unfold targetByPath. by rewrite (targets_order M M'). }
  assert (∀ path, resolvePath (MI := M') paths steps servers inbounds externals results path =
                  resolvePath (MI := M) paths steps servers inbounds externals results path) as Hpath.
  { intros path. unfold resolvePath, importedExit. by rewrite Ht. }
  assert (resolvePath (MI := M') paths steps servers inbounds externals results <$> paths =
          resolvePath (MI := M) paths steps servers inbounds externals results <$> paths) as Hpaths.
  { apply list_fmap_ext. intros; apply Hpath. }
  unfold ResolveProxyPathExitRegions. cbv zeta. cbn [fst snd]. rewrite Hpaths. split; [done|].
  rewrite <-!list_fmap_compose. apply list_fmap_ext. intros k x _. cbn [compose].
  rewrite <-(resolveExternal_order (MI := M) paths steps servers inbounds externals T T').
  unfold compose, resolveExternal, pathsByExternal. by rewrite Ht.
Qed.

(** The error text an imported node reports is the one of whichever failed path the runtime
    visits first. *)
Theorem region_error_depends_on_order :
  External_RegionError <$> (exitRun (map_range_default _ _) failing).2 ≠
  External_RegionError <$> (exitRun (map_range_reverse _ _) failing).2.
Proof. vm_compute. discriminate. Qed.
