(* ===== verification/NodeNames.v ===== *)
(** * Names of subscription nodes ([internal/core/subscription.go], [internal/core/node_names.go])

    The entries of a subscription are named after their path, their imported node or their
    server; operators may override a name; clients need the final tags to be distinct.  The
    stages that make names distinct are modelled here with what they guarantee.

    A node is the record of the fields that naming reads.  The loops over ordinals have as
    many attempts as there are used names, plus one, and return [None] without a free one,
    which is proved not to happen. *)

From S2P Require Import Prelude Model NodeKeys NetAddr ListenResources ProxyPathNames ProxyPathNameSafety ExitRegions.

Local Open Scope Z_scope.

Record nameNode := {
  NN_Key : string;
  NN_NodeType : string;
  NN_NodeID : Z;
  NN_Name : string;
  NN_Server : Server;
  NN_Inbound : Inbound }.

Definition renameNode (name : string) (n : nameNode) : nameNode :=
  {| NN_Key := NN_Key n; NN_NodeType := NN_NodeType n; NN_NodeID := NN_NodeID n; NN_Name := name;
     NN_Server := NN_Server n; NN_Inbound := NN_Inbound n |}.

Definition subscriptionNodeNameProxyPath : Z := 0.
Definition subscriptionNodeNameExternal : Z := 1.
Definition subscriptionNodeNameStandalone : Z := 2.

Record subscriptionNodeNameRef := {
  ref_index : nat;
  ref_kind : Z;
  ref_resourceID : Z;
  ref_serverID : Z;
  ref_regionCode : string }.

#[export] Instance subscriptionNodeNameRef_eq_dec : EqDecision subscriptionNodeNameRef.
Proof. solve_decision. Defined.

Definition nodeName (nodes : list nameNode) (index : nat) : string :=
  match nodes !! index with Some n => NN_Name n | None => ""%string end.

(** ** Numbering the nodes with a conflict *)

(** One node: the next free candidate after the ordinals given for its base. *)
Definition numberNode (index : nat) (base : string) (st : list nameNode * gset string * gmap string Z) :
    option (list nameNode * gset string * gmap string Z) :=
  let '(nodes, used, next) := st in
  match freeOrdinal (S (size used)) (default 0 (next !! base) + 1) base used with
  | Some ordinal => Some (alter (renameNode (numberedName base ordinal)) index nodes,
                          {[numberedName base ordinal]} ∪ used, <[base := ordinal]> next)
  | None => None
  end.

Fixpoint numberNodes (conflicts : list (nat * string)) (st : list nameNode * gset string * gmap string Z) : option (list nameNode) :=
  match conflicts with
  | [] => Some st.1.1
  | (index, base) :: conflicts => match numberNode index base st with
                                  | Some st' => numberNodes conflicts st'
                                  | None => None
                                  end
  end.

(** ** Source names *)

Definition countNames (names : list string) : gmap string nat :=
  foldl (λ m name, <[name := S (default 0%nat (m !! name))]> m) ∅ names.

Definition conflictCmp (target : Z) : subscriptionNodeNameRef → subscriptionNodeNameRef → comparison :=
  if target =? subscriptionNodeNameStandalone
  then lexc (onc ref_serverID Z.compare) (onc ref_resourceID Z.compare)
  else onc ref_resourceID Z.compare.

Definition refsOf (p : Z → bool) (refs : list subscriptionNodeNameRef) : list subscriptionNodeNameRef :=
  List.filter (λ r, p (ref_kind r)) refs.

Definition refName (nodes : list nameNode) (r : subscriptionNodeNameRef) : string := nodeName nodes (ref_index r).

Definition disambiguateSubscriptionNodeNames (nodes : list nameNode) (refs : list subscriptionNodeNameRef) (target : Z) :
    option (list nameNode) :=
  let counts := countNames (refName nodes <$> refsOf (λ k, k =? target) refs) in
  let reserved : gset string := list_to_set (refName nodes <$> refsOf (λ k, k <? target) refs) in
  let conflicting r := Nat.ltb 1 (default 0%nat (counts !! refName nodes r)) || bool_decide (refName nodes r ∈ reserved) in
  let targets := refsOf (λ k, k =? target) refs in
  let used := reserved ∪ list_to_set (refName nodes <$> List.filter (λ r, negb (conflicting r)) targets) in
  let conflicts := sort_slice (ltc (conflictCmp target)) (List.filter conflicting targets) in
  numberNodes ((λ r, (ref_index r, refName nodes r)) <$> conflicts) (nodes, used, ∅).

(** *** Servers of standalone nodes *)

Section servers.
Context {MS : MapRange Z string} {MN : MapRange string (list Z)}.

Definition standaloneRefs (refs : list subscriptionNodeNameRef) : list subscriptionNodeNameRef :=
  refsOf (λ k, k =? subscriptionNodeNameStandalone) refs.

Definition nodeAt (nodes : list nameNode) (index : nat) : nameNode :=
  default {| NN_Key := ""; NN_NodeType := ""; NN_NodeID := 0; NN_Name := ""; NN_Server := zeroServer; NN_Inbound := zeroInbound |}
          (nodes !! index).

Definition serverNamesOf (nodes : list nameNode) (refs : list subscriptionNodeNameRef) : gmap Z string :=
  foldl (λ m r, <[ref_serverID r := proxyPathServerLabel (NN_Server (nodeAt nodes (ref_index r))) (ref_serverID r)]> m)
        ∅ (standaloneRefs refs).

Definition serverProtocolsOf (nodes : list nameNode) (refs : list subscriptionNodeNameRef) : gmap Z (gset string) :=
  foldl (λ m r, <[ref_serverID r := {[Inbound_Protocol (NN_Inbound (nodeAt nodes (ref_index r)))]} ∪ default ∅ (m !! ref_serverID r)]> m)
        ∅ (standaloneRefs refs).

Definition serversByName (serverNames : gmap Z string) : gmap string (list Z) :=
  foldl (λ m '(serverID, name), mappend name serverID m) ∅ (map_range serverNames).

(** The servers of one name get the free ordinals in turn. *)
Fixpoint numberServers (name : string) (ids : list Z) (ordinal : Z) (st : gmap Z string * gset string) :
    option (gmap Z string * gset string) :=
  match ids with
  | [] => Some st
  | serverID :: ids =>
      let '(serverNames, used) := st in
      match freeOrdinal (S (size used)) ordinal name used with
      | Some o => numberServers name ids (o + 1) (<[serverID := numberedName name o]> serverNames, {[numberedName name o]} ∪ used)
      | None => None
      end
  end.

Fixpoint numberServerNames (byName : gmap string (list Z)) (names : list string) (st : gmap Z string * gset string) :
    option (gmap Z string) :=
  match names with
  | [] => Some st.1
  | name :: names => match numberServers name (sort_ints (mlist byName name)) 1 st with
                     | Some st' => numberServerNames byName names st'
                     | None => None
                     end
  end.

Definition uniqueServerNames (serverNames : gmap Z string) : option (gmap Z string) :=
  let byName := serversByName serverNames in
  let used : gset string := list_to_set (fst <$> List.filter (λ '(_, ids), Nat.eqb (length ids) 1) (map_range byName)) in
  let duplicates := sort_strings (fst <$> List.filter (λ '(_, ids), negb (Nat.eqb (length ids) 1)) (map_range byName)) in
  numberServerNames byName duplicates (serverNames, used).

(** The name of a standalone node: its server, and its protocol when the server has several. *)
Definition standaloneName (serverNames : gmap Z string) (protocols : gmap Z (gset string)) (nodes : list nameNode)
    (r : subscriptionNodeNameRef) : string :=
  let name := default ""%string (serverNames !! ref_serverID r) in
  if Nat.ltb 1 (size (default ∅ (protocols !! ref_serverID r)))
  then name +:+ proxyPathNameSeparator +:+ proxyProtocolName (Inbound_Protocol (NN_Inbound (nodeAt nodes (ref_index r))))
  else name.

(** The tag of the rendered node repeats its name and is set with it. *)
Definition resolveSubscriptionNodeNames (nodes : list nameNode) (refs : list subscriptionNodeNameRef) : option (list nameNode) :=
  match uniqueServerNames (serverNamesOf nodes refs) with
  | None => None
  | Some serverNames =>
      let protocols := serverProtocolsOf nodes refs in
      let nodes := foldl (λ nodes r, alter (renameNode (standaloneName serverNames protocols nodes r)) (ref_index r) nodes)
                         nodes (standaloneRefs refs) in
      match disambiguateSubscriptionNodeNames nodes refs subscriptionNodeNameExternal with
      | None => None
      | Some nodes => disambiguateSubscriptionNodeNames nodes refs subscriptionNodeNameStandalone
      end
  end.
End servers.

(** ** Names of the visible paths *)

Definition hideInbound (visible : gset string) (i : Inbound) : Inbound :=
  if bool_decide (NodeKeyOf AssignableNodeInbound (Inbound_ID i) ∈ visible) then i
  else {| Inbound_ID := Inbound_ID i; Inbound_ServerID := Inbound_ServerID i; Inbound_Name := "";
          Inbound_Protocol := Inbound_Protocol i; Inbound_ListenIP := Inbound_ListenIP i; Inbound_Port := Inbound_Port i;
          Inbound_ConfigJSON := Inbound_ConfigJSON i; Inbound_Enabled := Inbound_Enabled i;
          Inbound_EntryIPMode := Inbound_EntryIPMode i; Inbound_ExternalIP := Inbound_ExternalIP i |}.

Definition exposeExternal (visible : gset string) (x : ExternalOutbound) : ExternalOutbound :=
  {| External_ID := External_ID x; External_ServerID := External_ServerID x; External_Name := External_Name x;
     External_Protocol := External_Protocol x; External_Scope := External_Scope x; External_RegionMode := External_RegionMode x;
     External_RegionCode := External_RegionCode x; External_DetectedRegionCode := External_DetectedRegionCode x;
     External_EffectiveRegionCode := External_EffectiveRegionCode x; External_RegionSource := External_RegionSource x;
     External_RegionStatus := External_RegionStatus x; External_RegionError := External_RegionError x;
     External_RegionProbedAt := External_RegionProbedAt x;
     External_ExposeToUsers := bool_decide (NodeKeyOf AssignableNodeExternalOutbound (External_ID x) ∈ visible);
     External_Enabled := External_Enabled x; External_TargetAddress := External_TargetAddress x;
     External_TargetPort := External_TargetPort x; External_ConfigJSON := External_ConfigJSON x |}.

(** The paths of a subscription are named among the nodes its user sees. *)
Definition resolveSubscriptionProxyPathNames {D : ListenDecoder} {M : MapRange (string * string) (list nat)} (nodes : list nameNode)
    (proxyPaths : list ProxyPath) (steps : list ProxyPathStep) (servers : list Server) (inbounds : list Inbound)
    (externals : list ExternalOutbound) : option (list nameNode) :=
  let visible : gset string := list_to_set (NN_Key <$> nodes) in
  let paths := List.filter (λ p, bool_decide (NodeKeyOf AssignableNodeProxyPath (ProxyPath_ID p) ∈ visible)) proxyPaths in
  let nameInbounds := hideInbound visible <$> inbounds in
  let nameExternals := exposeExternal visible <$> externals in
  match ResolveProxyPathNames paths steps servers nameInbounds nameExternals with
  | None => None
  | Some resolved =>
      let names := indexBy ProxyPath_ID resolved in
      Some ((λ n, if (NN_NodeType n =? AssignableNodeProxyPath)%string
                  then renameNode (match names !! NN_NodeID n with Some p => ProxyPath_Name p | None => ""%string end) n
                  else n) <$> nodes)
  end.

(** ** Effective names *)

Definition ResolveEffectiveNodeName (sourceName : string) (globalOverride planOverride : option string) : string :=
  match planOverride, globalOverride with
  | Some name, _ => TrimSpace name
  | None, Some name => TrimSpace name
  | None, None => TrimSpace sourceName
  end.

Definition keyAt (nodes : list nameNode) (index : nat) : string :=
  match nodes !! index with Some n => NN_Key n | None => ""%string end.

Definition disambiguateEffectiveSubscriptionNodeNames (nodes : list nameNode) : option (list nameNode) :=
  let counts := countNames (NN_Name <$> nodes) in
  let count n := default 0%nat (counts !! NN_Name n) in
  let used : gset string := list_to_set (NN_Name <$> List.filter (λ n, Nat.eqb (count n) 1) nodes) in
  let indexes := List.filter (λ i, match nodes !! i with Some n => Nat.ltb 1 (count n) | None => false end)
                             (seq 0 (length nodes)) in
  let indexes := sort_slice (ltc (onc (keyAt nodes) String.compare)) indexes in
  numberNodes ((λ i, (i, nodeName nodes i)) <$> indexes) (nodes, used, ∅).

(** The tag clients see: the flag of the region and the name. *)
Definition taggedName (regionCode name : string) : string := RegionFlagEmoji regionCode +:+ " " +:+ name.

(** The tags of a subscription from its source names: the end of [BuildSubscriptionCandidates]. *)
Definition effectiveNodes (globalNames planNames : gmap string (option string)) (nodes : list nameNode) : list nameNode :=
  (λ n, renameNode (ResolveEffectiveNodeName (NN_Name n) (default None (globalNames !! NN_Key n)) (default None (planNames !! NN_Key n))) n) <$> nodes.

Definition finalNodes (globalNames planNames : gmap string (option string)) (nodes : list nameNode)
    (refs : list subscriptionNodeNameRef) : option (list nameNode) :=
  match disambiguateEffectiveSubscriptionNodeNames (effectiveNodes globalNames planNames nodes) with
  | None => None
  | Some nodes => Some (foldl (λ nodes r, alter (λ n, renameNode (taggedName (ref_regionCode r) (NN_Name n)) n) (ref_index r) nodes) nodes refs)
  end.
