(* ===== verification/NodeNameSafety.v ===== *)
(** * What the names of subscription nodes guarantee

    Numbering always finds a free name; source names are distinct across paths, imported nodes
    and servers; the tags of a subscription are distinct whatever names operators chose. *)

From S2P Require Import Prelude Model NodeKeys NetAddr ListenResources ProxyPathNames ProxyPathNameSafety ExitRegions ExitRegionSafety NodeNames.

Local Open Scope Z_scope.

(** ** Numbering *)

Lemma nodeName_lookup nodes i n : nodes !! i = Some n → nodeName nodes i = NN_Name n.
Proof. unfold nodeName. by intros ->. Qed.

Lemma nodeName_alter_eq nodes i name : (i < length nodes)%nat → nodeName (alter (renameNode name) i nodes) i = name.
Proof. intros [n Hn]%lookup_lt_is_Some. unfold nodeName. by rewrite list_lookup_alter_eq, Hn. Qed.

Lemma nodeName_alter_ne nodes i j name : i ≠ j → nodeName (alter (renameNode name) i nodes) j = nodeName nodes j.
Proof. intros. unfold nodeName. by rewrite list_lookup_alter_ne. Qed.

(** Nodes that differ in names only. *)
Definition sameNodes (l l' : list nameNode) : Prop := renameNode "" <$> l = renameNode "" <$> l'.

Lemma sameNodes_alter nodes i name : sameNodes (alter (renameNode name) i nodes) nodes.
Proof.
  unfold sameNodes. apply list_eq. intros j. rewrite !list_lookup_fmap, list_lookup_alter.
  destruct (decide (i = j)) as [->|]; [|done]. by destruct (nodes !! j).
Qed.

Lemma sameNodes_length l l' : sameNodes l l' → length l = length l'.
Proof. intros H%(f_equal length). by rewrite !length_fmap in H. Qed.

Lemma sameNodes_keys l l' : sameNodes l l' → NN_Key <$> l = NN_Key <$> l'.
Proof. unfold sameNodes. intros H. change NN_Key with (NN_Key ∘ renameNode ""). by rewrite !(list_fmap_compose (renameNode "")), H. Qed.

Record numbered (indexes : list nat) (used : gset string) (nodes out : list nameNode) : Prop := {
  nb_same : sameNodes out nodes;
  nb_rest j : j ∉ indexes → nodeName out j = nodeName nodes j;
  nb_fresh j : j ∈ indexes → nodeName out j ∉ used;
  nb_inj i j : i ∈ indexes → j ∈ indexes → nodeName out i = nodeName out j → i = j }.

Lemma numberNodes_spec (conflicts : list (nat * string)) (nodes : list nameNode) (used : gset string) (next : gmap string Z) :
  NoDup conflicts.*1 → (∀ i, i ∈ conflicts.*1 → (i < length nodes)%nat) → (∀ b v, next !! b = Some v → 0 ≤ v) →
  ∃ out, numberNodes conflicts (nodes, used, next) = Some out ∧ numbered conflicts.*1 used nodes out.
Proof.
  revert nodes used next; induction conflicts as [|[i base] conflicts IH]; intros nodes used next.
  { intros _ _ _. exists nodes. split; [done|]. split; [done|done|set_solver|set_solver]. }
  cbn [fmap list_fmap fst]. intros [Hi Hnd]%NoDup_cons Hrange Hnext. cbn [numberNodes numberNode].
  assert (0 ≤ default 0 (next !! base)) as Hpos by (destruct (next !! base) eqn:Hb; [by eapply Hnext|done]).
  destruct (freeOrdinal_total (default 0 (next !! base) + 1) base used) as [o Ho]; [lia|]. rewrite Ho.
  apply freeOrdinal_Some in Ho as [Hfree Hle]. set (c := numberedName base o) in *. set (nodes' := alter (renameNode c) i nodes).
  destruct (IH nodes' ({[c]} ∪ used) (<[base := o]> next)) as (out & Hout & [Hs Hr Hf Hinj]); [done|..].
  { intros j Hj. unfold nodes'. rewrite length_alter. apply Hrange. by right. }
  { intros b v. rewrite lookup_insert. case_decide; [|apply Hnext]. intros [= <-]. lia. }
  assert (nodeName out i = c) as Hci by (rewrite Hr by done; apply nodeName_alter_eq, Hrange; by left).
  assert (∀ j, j ∈ conflicts.*1 → nodeName out j ≠ c ∧ nodeName out j ∉ used) as Hother by (intros j Hj; specialize (Hf j Hj); set_solver).
  exists out. split; [done|]. change ((i, base).1) with i. split.
  - unfold sameNodes in *. rewrite Hs. apply sameNodes_alter.
  - intros j [Hne Hj]%not_elem_of_cons. rewrite Hr by done. by apply nodeName_alter_ne.
  - intros j [->|Hj]%elem_of_cons; [by rewrite Hci|by apply Hother].
  - intros j k [->|Hj]%elem_of_cons [->|Hk]%elem_of_cons Heq; [done| | |by apply Hinj].
    + destruct (Hother k Hk) as [Hne _]. destruct Hne. rewrite <-Heq. exact Hci.
    + destruct (Hother j Hj) as [Hne _]. destruct Hne. rewrite Heq. exact Hci.
Qed.

(** ** Counting *)

Lemma countNames_spec names name : default 0%nat (countNames names !! name) = length (List.filter (λ n, (n =? name)%string) names).
Proof.
  induction names as [|n names IH] using rev_ind; [done|].
  unfold countNames in *. rewrite foldl_app, List.filter_app, length_app, <-IH. cbn [foldl List.filter].
  rewrite lookup_insert. destruct (String.eqb_spec n name) as [->|]; [rewrite decide_True by done|rewrite decide_False by done]; simpl; lia.
Qed.

(** Two occurrences of a name make its count more than one. *)
Lemma count_two (names : list string) i j name :
  names !! i = Some name → names !! j = Some name → i ≠ j → (1 < length (List.filter (λ n, (n =? name)%string) names))%nat.
Proof.
  revert i j; induction names as [|n names IH]; intros i j Hi Hj Hne; [done|]. cbn [List.filter].
  assert (∀ k, names !! k = Some name → (0 < length (List.filter (λ n, (n =? name)%string) names))%nat) as Hpos.
  { intros k Hk. assert (name ∈ List.filter (λ n, (n =? name)%string) names) as Hin.
    { apply list_elem_of_In, List.filter_In. split; [by apply list_elem_of_In, (list_elem_of_lookup_2 _ k)|by apply String.eqb_eq]. }
    destruct (List.filter _ names); [set_solver|simpl; lia]. }
  destruct i as [|i], j as [|j]; [done| | |].
  - injection Hi as ->. rewrite String.eqb_refl. simpl. specialize (Hpos j Hj). lia.
  - injection Hj as ->. rewrite String.eqb_refl. simpl. specialize (Hpos i Hi). lia.
  - assert (i ≠ j) as Hij by congruence. specialize (IH i j Hi Hj Hij). destruct (n =? name)%string; simpl; lia.
Qed.

(** ** Effective names are distinct *)

Lemma nodeName_fmap nodes i : (i < length nodes)%nat → (NN_Name <$> nodes) !! i = Some (nodeName nodes i).
Proof. intros [n Hn]%lookup_lt_is_Some. rewrite list_lookup_fmap, Hn. unfold nodeName. by rewrite Hn. Qed.

Definition countOf (nodes : list nameNode) (name : string) : nat := default 0%nat (countNames (NN_Name <$> nodes) !! name).

Lemma effective_names_distinct nodes :
  ∃ out, disambiguateEffectiveSubscriptionNodeNames nodes = Some out ∧ sameNodes out nodes ∧
    (∀ i j, (i < length nodes)%nat → (j < length nodes)%nat → nodeName out i = nodeName out j → i = j) ∧
    (∀ i, (i < length nodes)%nat → countOf nodes (nodeName nodes i) = 1%nat → nodeName out i = nodeName nodes i).
Proof.
  unfold disambiguateEffectiveSubscriptionNodeNames. cbv zeta.
  set (indexes := List.filter _ (seq 0 (length nodes))). set (used := list_to_set _).
  set (sorted := sort_slice _ indexes). assert (sorted ≡ₚ indexes) as Hp by apply sort_slice_perm.
  assert (((λ i, (i, nodeName nodes i)) <$> sorted).*1 = sorted) as Hfst.
  { rewrite <-list_fmap_compose. rewrite <-(list_fmap_id sorted) at 2. by apply list_fmap_ext. }
  assert (∀ i, (i < length nodes)%nat → i ∈ indexes ↔ countOf nodes (nodeName nodes i) ≠ 1%nat) as Hin.
  { intros i Hi. destruct (lookup_lt_is_Some_2 _ _ Hi) as [n Hn]. unfold indexes.
    rewrite list_elem_of_In, List.filter_In, List.in_seq, Hn, Nat.ltb_lt. rewrite (nodeName_lookup _ _ _ Hn). fold (countOf nodes (NN_Name n)).
    assert (0 < countOf nodes (NN_Name n))%nat; [|lia]. unfold countOf. rewrite countNames_spec.
    assert (NN_Name n ∈ List.filter (λ m, (m =? NN_Name n)%string) (NN_Name <$> nodes)) as Hin.
    { apply list_elem_of_In, List.filter_In. rewrite String.eqb_refl, <-list_elem_of_In. split; [|done].
      apply list_elem_of_fmap_2. by eapply list_elem_of_lookup_2. }
    destruct (List.filter _ (NN_Name <$> nodes)); [by apply not_elem_of_nil in Hin|simpl; lia]. }
  destruct (numberNodes_spec ((λ i, (i, nodeName nodes i)) <$> sorted) nodes used ∅) as (out & Hout & [Hs Hr Hf Hinj]); rewrite ?Hfst in *.
  { rewrite Hp. apply NoDup_ListNoDup, List.NoDup_filter, List.seq_NoDup. }
  { intros i. rewrite Hp. unfold indexes. rewrite list_elem_of_In, List.filter_In, List.in_seq. lia. }
  { done. }
  setoid_rewrite Hp in Hr. setoid_rewrite Hp in Hf. setoid_rewrite Hp in Hinj.
  assert (∀ i, (i < length nodes)%nat → i ∉ indexes → nodeName out i ∈ used) as Hkept.
  { intros i Hi Hn. rewrite Hr by done. unfold used. apply elem_of_list_to_set, list_elem_of_fmap.
    destruct (lookup_lt_is_Some_2 _ _ Hi) as [n Hl]. exists n. split; [by apply nodeName_lookup|].
    apply list_elem_of_In, List.filter_In. split; [by apply list_elem_of_In, (list_elem_of_lookup_2 _ i)|]. apply Nat.eqb_eq.
    rewrite Hin in Hn by done. rewrite (nodeName_lookup _ _ _ Hl) in Hn. unfold countOf in Hn. lia. }
  exists out. split_and!; [done|done| |].
  - intros i j Hi Hj Heq. destruct (decide (i ∈ indexes)) as [Hii|Hii], (decide (j ∈ indexes)) as [Hjj|Hjj].
    + by apply Hinj.
    + destruct (Hf i Hii). rewrite Heq. by apply Hkept.
    + destruct (Hf j Hjj). rewrite <-Heq. by apply Hkept.
    + rewrite !Hr in Heq by done. destruct (decide (i = j)) as [|Hne]; [done|]. destruct Hii. apply Hin; [done|].
      unfold countOf. rewrite countNames_spec.
      pose proof (count_two (NN_Name <$> nodes) i j (nodeName nodes i)) as H2. rewrite !nodeName_fmap in H2 by done.
      rewrite Heq in H2 |- *. specialize (H2 eq_refl eq_refl Hne). lia.
  - intros i Hi Hc. apply Hr. rewrite Hin by done. lia.
Qed.

(** ** Tags *)

Lemma bytes_of_length s : length (bytes_of s) = String.length s.
Proof. induction s; simpl; congruence. Qed.

(** Every flag is two characters of four bytes. *)
Lemma RegionFlagEmoji_length code : length (bytes_of (RegionFlagEmoji code)) = 8%nat.
Proof.
  unfold RegionFlagEmoji. cbv zeta. rewrite bytes_of_of_bytes.
  set (c := if (NormalizeRegionCode code =? "")%string then "AQ"%string else NormalizeRegionCode code).
  assert (length (bytes_of c) = 2%nat) as Hc.
  { unfold c. destruct (String.eqb_spec (NormalizeRegionCode code) ""); [done|].
    destruct (NormalizeRegionCode_cases code) as [?|(a & b & -> & _)]; done. }
  destruct (bytes_of c) as [|a [|b [|]]]; done.
Qed.

Lemma taggedName_inj r r' n n' : taggedName r n = taggedName r' n' → n = n'.
Proof.
  unfold taggedName. intros H%(f_equal bytes_of). rewrite !bytes_of_app in H.
  apply app_inj_1 in H as [_ H]; [|by rewrite !RegionFlagEmoji_length]. apply app_inj_1 in H as [_ H]; [|done]. by apply bytes_of_inj.
Qed.

Section alters.
Context {R : Type} (index : R → nat) (f : R → nameNode → nameNode).

Lemma alters_lookup_ne (refs : list R) (nodes : list nameNode) i :
  i ∉ index <$> refs → foldl (λ nodes r, alter (f r) (index r) nodes) nodes refs !! i = nodes !! i.
Proof.
  revert nodes; induction refs as [|r refs IH]; intros nodes; [done|]. rewrite fmap_cons. intros [Hne Hn]%not_elem_of_cons. simpl.
  rewrite IH by done. by rewrite list_lookup_alter_ne.
Qed.

Lemma alters_lookup (refs : list R) (nodes : list nameNode) r :
  NoDup (index <$> refs) → r ∈ refs → foldl (λ nodes r, alter (f r) (index r) nodes) nodes refs !! index r = f r <$> nodes !! index r.
Proof.
  revert nodes; induction refs as [|q refs IH]; intros nodes; [set_solver|]. rewrite fmap_cons. intros [Hq Hnd]%NoDup_cons. simpl.
  intros [->|Hr]%elem_of_cons; [by rewrite alters_lookup_ne, list_lookup_alter_eq|]. rewrite IH by done.
  rewrite list_lookup_alter_ne; [done|]. intros Heq. apply Hq. rewrite Heq. by apply list_elem_of_fmap_2.
Qed.

Lemma alters_length (refs : list R) (nodes : list nameNode) : length (foldl (λ nodes r, alter (f r) (index r) nodes) nodes refs) = length nodes.
Proof. revert nodes; induction refs as [|r refs IH]; intros nodes; simpl; [done|]. by rewrite IH, length_alter. Qed.

Lemma alters_same (refs : list R) (nodes : list nameNode) :
  (∀ r n, renameNode "" (f r n) = renameNode "" n) → sameNodes (foldl (λ nodes r, alter (f r) (index r) nodes) nodes refs) nodes.
Proof.
  intros Hf. revert nodes; induction refs as [|r refs IH]; intros nodes; simpl; [done|]. unfold sameNodes in *. rewrite IH.
  apply list_eq. intros j. rewrite !list_lookup_fmap, list_lookup_alter. destruct (decide (index r = j)) as [->|]; [|done].
  destruct (nodes !! j); simpl; [by rewrite Hf|done].
Qed.
End alters.

Lemma NoDup_nodeNames nodes :
  (∀ i j, (i < length nodes)%nat → (j < length nodes)%nat → nodeName nodes i = nodeName nodes j → i = j) → NoDup (NN_Name <$> nodes).
Proof.
  intros Hinj. apply NoDup_alt. intros i j name Hi Hj. pose proof (lookup_lt_Some _ _ _ Hi). pose proof (lookup_lt_Some _ _ _ Hj).
  rewrite length_fmap in *. rewrite nodeName_fmap in Hi, Hj by done. apply Hinj; [done..|congruence].
Qed.

Lemma final_tags_distinct globalNames planNames nodes refs :
  ref_index <$> refs ≡ₚ seq 0 (length nodes) →
  ∃ out, finalNodes globalNames planNames nodes refs = Some out ∧ NN_Key <$> out = NN_Key <$> nodes ∧ NoDup (NN_Name <$> out).
Proof.
  intros Hp. unfold finalNodes. set (start := effectiveNodes globalNames planNames nodes).
  assert (length start = length nodes) as Hlen by apply length_fmap.
  destruct (effective_names_distinct start) as (out & -> & Hs & Hinj & _). eexists. split; [done|].
  set (tag := λ r n, renameNode (taggedName (ref_regionCode r) (NN_Name n)) n).
  assert (NoDup (ref_index <$> refs)) as Hnd by (rewrite Hp; apply NoDup_seq).
  assert (length out = length nodes) as Hout by (rewrite <-Hlen; by apply sameNodes_length).
  split.
  - rewrite (sameNodes_keys _ out) by (by apply (alters_same ref_index tag)). rewrite (sameNodes_keys _ _ Hs).
    unfold start, effectiveNodes. rewrite <-list_fmap_compose. by apply list_fmap_ext.
  - apply NoDup_nodeNames. change (foldl _ out refs) with (foldl (λ nodes r, alter (tag r) (ref_index r) nodes) out refs).
    rewrite (alters_length ref_index tag), Hout.
    assert (∀ i, (i < length nodes)%nat → ∃ region, nodeName (foldl (λ nodes r, alter (tag r) (ref_index r) nodes) out refs) i =
                                                    taggedName region (nodeName out i)) as Htag.
    { intros i Hi. assert (i ∈ ref_index <$> refs) as (r & -> & Hr)%list_elem_of_fmap by (rewrite Hp, elem_of_seq; lia).
      exists (ref_regionCode r). unfold nodeName at 1. rewrite (alters_lookup ref_index tag) by done.
      destruct (lookup_lt_is_Some_2 out (ref_index r)) as [n Hn]; [lia|]. rewrite Hn. simpl. unfold nodeName. by rewrite Hn. }
    intros i j Hi Hj. destruct (Htag i Hi) as [r ->], (Htag j Hj) as [r' ->]. intros Heq%taggedName_inj. apply Hinj; [lia..|done].
Qed.

(** ** Source names *)

Section source.
Implicit Types nodes : list nameNode.
Context (refs : list subscriptionNodeNameRef) (Hnd : NoDup (ref_index <$> refs)).

Lemma refsOf_elem p r : r ∈ refsOf p refs ↔ r ∈ refs ∧ p (ref_kind r) = true.
Proof. unfold refsOf. rewrite list_elem_of_In, List.filter_In, <-list_elem_of_In. done. Qed.

Lemma ref_index_inj r r' : r ∈ refs → r' ∈ refs → ref_index r = ref_index r' → r = r'.
Proof. intros. by apply (NoDup_fmap_key ref_index refs). Qed.

Lemma refs_NoDup : NoDup refs.
Proof. by apply (NoDup_fmap_1 ref_index). Qed.

Record disambiguated (target : Z) (nodes out : list nameNode) : Prop := {
  dis_same : sameNodes out nodes;
  dis_rest r : r ∈ refs → ref_kind r ≠ target → refName out r = refName nodes r;
  dis_inj r r' : r ∈ refs → r' ∈ refs → ref_kind r = target → ref_kind r' = target → refName out r = refName out r' → r = r';
  dis_lower r r' : r ∈ refs → r' ∈ refs → ref_kind r = target → ref_kind r' < target → refName out r ≠ refName out r' }.

Lemma disambiguate_spec nodes target :
  (∀ r, r ∈ refs → (ref_index r < length nodes)%nat) →
  ∃ out, disambiguateSubscriptionNodeNames nodes refs target = Some out ∧ disambiguated target nodes out.
Proof.
  intros Hrange. unfold disambiguateSubscriptionNodeNames. cbv zeta.
  set (targets := refsOf (λ k, k =? target) refs). set (reserved := list_to_set (refName nodes <$> refsOf _ refs) : gset string).
  set (conflicting := λ r : subscriptionNodeNameRef, Nat.ltb 1 (default 0%nat (countNames (refName nodes <$> targets) !! refName nodes r)) || bool_decide (refName nodes r ∈ reserved)).
  set (used := reserved ∪ _). set (sorted := sort_slice _ _).
  assert (sorted ≡ₚ List.filter conflicting targets) as Hp by apply sort_slice_perm.
  assert (((λ r, (ref_index r, refName nodes r)) <$> sorted).*1 = ref_index <$> sorted) as Hfst by (by rewrite <-list_fmap_compose).
  assert (∀ r, r ∈ sorted ↔ r ∈ targets ∧ conflicting r = true) as Hsorted.
  { intros r. rewrite Hp, list_elem_of_In, List.filter_In, <-list_elem_of_In. done. }
  assert (∀ r, r ∈ targets ↔ r ∈ refs ∧ ref_kind r = target) as Ht by (intros r; unfold targets; rewrite refsOf_elem, Z.eqb_eq; done).
  destruct (numberNodes_spec ((λ r, (ref_index r, refName nodes r)) <$> sorted) nodes used ∅) as (out & Hout & [Hs Hr Hf Hinj]); rewrite ?Hfst in *.
  { rewrite Hp. by apply NoDup_map_filter, NoDup_map_filter. }
  { intros i (r & -> & [[? _]%Ht _]%Hsorted)%list_elem_of_fmap. by apply Hrange. }
  { done. }
  assert (∀ r, r ∈ refs → ref_index r ∈ ref_index <$> sorted → r ∈ sorted) as Hmem.
  { intros r Hr0 (r' & Heq & Hr')%list_elem_of_fmap. assert (r = r') as ->; [|done]. apply ref_index_inj; [done| |done]. by apply Ht, Hsorted. }
  assert (∀ r, r ∈ targets → r ∉ sorted → refName out r = refName nodes r ∧ refName nodes r ∉ reserved ∧ refName nodes r ∈ used) as Hkept.
  { intros r Hrt Hns. assert (conflicting r = false) as Hc.
    { destruct (conflicting r) eqn:Hc; [|done]. destruct Hns. by apply Hsorted. }
    split_and!.
    - apply Hr. intros Hin. apply Hns, Hmem; [by apply Ht|done].
    - unfold conflicting in Hc. by apply orb_false_iff in Hc as [_ Hc%bool_decide_eq_false].
    - unfold used. apply elem_of_union_r, elem_of_list_to_set, list_elem_of_fmap_2, list_elem_of_In, List.filter_In.
      rewrite <-list_elem_of_In. split; [done|]. fold (conflicting r). by rewrite Hc. }
  exists out. split; [done|]. split.
  - done.
  - intros r Hr0 Hk. apply Hr. intros Hin. apply Hmem, Hsorted in Hin as [[_ ?]%Ht _]; [done..|done].
  - intros r r' Hr0 Hr0' Hk Hk' Heq. assert (r ∈ targets ∧ r' ∈ targets) as [Hrt Hrt'] by (by split; apply Ht).
    destruct (decide (r ∈ sorted)) as [Hin|Hin], (decide (r' ∈ sorted)) as [Hin'|Hin'].
    + apply ref_index_inj; [done..|]. apply Hinj; [by apply list_elem_of_fmap_2..|done].
    + destruct (Hf (ref_index r)); [by apply list_elem_of_fmap_2|]. change (refName out r ∈ used). rewrite Heq.
      destruct (Hkept r' Hrt' Hin') as (-> & _ & ?). done.
    + destruct (Hf (ref_index r')); [by apply list_elem_of_fmap_2|]. change (refName out r' ∈ used). rewrite <-Heq.
      destruct (Hkept r Hrt Hin) as (-> & _ & ?). done.
    + destruct (Hkept r Hrt Hin) as (H1 & _ & _), (Hkept r' Hrt' Hin') as (H2 & _ & _). rewrite H1, H2 in Heq.
      destruct (decide (r = r')) as [|Hne]; [done|]. destruct Hin. apply Hsorted. split; [done|]. unfold conflicting.
      apply orb_true_iff. left. rewrite countNames_spec. apply Nat.ltb_lt.
      apply list_elem_of_lookup in Hrt as [i Hi], Hrt' as [j Hj]. apply (count_two _ i j).
      * by rewrite list_lookup_fmap, Hi.
      * rewrite list_lookup_fmap, Hj. simpl. by rewrite Heq.
      * intros ->. congruence.
  - intros r r' Hr0 Hr0' Hk Hk' Heq.
    assert (refName out r' = refName nodes r') as Hsame.
    { apply Hr. intros Hin. apply Hmem, Hsorted in Hin as [[_ ?]%Ht _]; [lia|done]. }
    assert (refName nodes r' ∈ reserved) as Hres.
    { apply elem_of_list_to_set, list_elem_of_fmap_2, refsOf_elem. split; [done|]. lia. }
    assert (r ∈ targets) as Hrt by (by apply Ht).
    destruct (decide (r ∈ sorted)) as [Hin|Hin].
    + destruct (Hf (ref_index r)); [by apply list_elem_of_fmap_2|]. change (refName out r ∈ used). rewrite Heq, Hsame. by apply elem_of_union_l.
    + destruct (Hkept r Hrt Hin) as (H1 & H2 & _). apply H2. by rewrite <-H1, Heq, Hsame.
Qed.
End source.

(** *** Server names always resolve *)

Lemma numberServers_total name ids ordinal st : 0 < ordinal → ∃ st', numberServers name ids ordinal st = Some st'.
Proof.
  revert ordinal st; induction ids as [|id ids IH]; intros ordinal [serverNames used] Hpos; cbn [numberServers]; [eauto|].
  destruct (freeOrdinal_total ordinal name used Hpos) as [o Ho]. rewrite Ho. apply freeOrdinal_Some in Ho as [_ Hle]. apply IH. lia.
Qed.

Lemma uniqueServerNames_total {MS : MapRange Z string} {MN : MapRange string (list Z)} serverNames :
  ∃ out, uniqueServerNames serverNames = Some out.
Proof.
  unfold uniqueServerNames. cbv zeta. set (byName := serversByName serverNames).
  generalize (sort_strings (fst <$> List.filter (λ '(_, ids), negb (Nat.eqb (length ids) 1)) (map_range byName))). intros names.
  match goal with |- context [numberServerNames _ _ ?st] => generalize st end.
  induction names as [|name names IH]; intros st; cbn [numberServerNames]; [eauto|].
  destruct (numberServers_total name (sort_ints (mlist byName name)) 1 st) as [st' ->]; [done|]. apply IH.
Qed.

(** The first names of standalone nodes leave the other nodes alone. *)
Lemma standalone_renamed refs (Hnd : NoDup (ref_index <$> refs)) serverNames protocols l nodes :
  (∀ r, r ∈ l → r ∈ refs ∧ ref_kind r = subscriptionNodeNameStandalone) →
  let out := foldl (λ nodes r, alter (renameNode (standaloneName serverNames protocols nodes r)) (ref_index r) nodes) nodes l in
  sameNodes out nodes ∧ ∀ r, r ∈ refs → ref_kind r ≠ subscriptionNodeNameStandalone → refName out r = refName nodes r.
Proof.
  revert nodes; induction l as [|q l IH]; intros nodes Hst; [done|]. simpl. destruct (Hst q) as [Hq Hkq]; [by left|].
  destruct (IH (alter (renameNode (standaloneName serverNames protocols nodes q)) (ref_index q) nodes)) as [H1 H2].
  { intros r Hr. apply Hst. by right. }
  split; [unfold sameNodes in *; rewrite H1; apply sameNodes_alter|]. intros r Hr Hk. rewrite H2 by done.
  apply nodeName_alter_ne. intros Heq. apply Hk. by rewrite <-(ref_index_inj refs Hnd q r).
Qed.

Lemma source_names_distinct {MS : MapRange Z string} {MN : MapRange string (list Z)} nodes refs :
  NoDup (ref_index <$> refs) → (∀ r, r ∈ refs → (ref_index r < length nodes)%nat) → (∀ r, r ∈ refs → 0 ≤ ref_kind r ≤ 2) →
  NoDup (refName nodes <$> refsOf (λ k, k =? subscriptionNodeNameProxyPath) refs) →
  ∃ out, resolveSubscriptionNodeNames nodes refs = Some out ∧ sameNodes out nodes ∧ NoDup (refName out <$> refs) ∧
    ∀ r, r ∈ refs → ref_kind r = subscriptionNodeNameProxyPath → refName out r = refName nodes r.
Proof.
  intros Hnd Hrange Hkind Hpaths. unfold resolveSubscriptionNodeNames. destruct (uniqueServerNames_total (serverNamesOf nodes refs)) as [serverNames ->].
  cbv zeta. set (nodes1 := foldl _ nodes (standaloneRefs refs)).
  destruct (standalone_renamed refs Hnd serverNames (serverProtocolsOf nodes refs) (standaloneRefs refs) nodes) as [Hs1 Hr1].
  { intros r. unfold standaloneRefs. by rewrite refsOf_elem, Z.eqb_eq. }
  fold nodes1 in Hs1, Hr1.
  assert (∀ r, r ∈ refs → (ref_index r < length nodes1)%nat) as Hrange1 by (intros r Hr; rewrite (sameNodes_length _ _ Hs1); auto).
  destruct (disambiguate_spec refs Hnd nodes1 subscriptionNodeNameExternal Hrange1) as (nodes2 & -> & [Hs2 Hr2 Hi2 Hl2]).
  assert (∀ r, r ∈ refs → (ref_index r < length nodes2)%nat) as Hrange2 by (intros r Hr; rewrite (sameNodes_length _ _ Hs2); auto).
  destruct (disambiguate_spec refs Hnd nodes2 subscriptionNodeNameStandalone Hrange2) as (out & -> & [Hs3 Hr3 Hi3 Hl3]).
  assert (∀ r, r ∈ refs → ref_kind r = subscriptionNodeNameProxyPath → refName out r = refName nodes r) as Hpath.
  { intros r Hr Hk. rewrite Hr3, Hr2, Hr1; [done|done|by rewrite Hk|done|by rewrite Hk|done|by rewrite Hk]. }
  exists out. split_and!; [done|unfold sameNodes in *; congruence| |done].
  apply NoDup_fmap_2_strong; [|by apply refs_NoDup]. intros r r' Hr Hr' Heq.
  assert (∀ r r', r ∈ refs → r' ∈ refs → ref_kind r' < ref_kind r → refName out r ≠ refName out r') as Hlower.
  { clear r r' Hr Hr' Heq. intros r r' Hr Hr' Hlt. pose proof (Hkind r Hr). pose proof (Hkind r' Hr').
    destruct (decide (ref_kind r = 2)) as [Hk|Hk]; [apply Hl3; [done..|unfold subscriptionNodeNameStandalone; lia|unfold subscriptionNodeNameStandalone; lia]|].
    rewrite !Hr3 by (try done; unfold subscriptionNodeNameStandalone; lia).
    apply Hl2; [done..|unfold subscriptionNodeNameExternal; lia|unfold subscriptionNodeNameExternal; lia]. }
  pose proof (Hkind r Hr) as Hk. pose proof (Hkind r' Hr') as Hk'.
  destruct (Z.lt_trichotomy (ref_kind r) (ref_kind r')) as [Hlt|[Hsame|Hlt]]; [by destruct (Hlower r' r)| |by destruct (Hlower r r')].
  destruct (decide (ref_kind r = 2)) as [Hk2|Hk2]; [apply Hi3; [done..|unfold subscriptionNodeNameStandalone; lia|unfold subscriptionNodeNameStandalone; lia|done]|].
  destruct (decide (ref_kind r = 1)) as [Hk1|Hk1].
  { apply Hi2; [done..|unfold subscriptionNodeNameExternal; lia|unfold subscriptionNodeNameExternal; lia|].
    rewrite <-!Hr3 by (try done; unfold subscriptionNodeNameStandalone; lia). done. }
  rewrite !Hpath in Heq by (try done; unfold subscriptionNodeNameProxyPath; lia).
  eapply (NoDup_fmap_key (refName nodes)); [exact Hpaths| | |done]; apply refsOf_elem; (split; [done|]); apply Z.eqb_eq; unfold subscriptionNodeNameProxyPath; lia.
Qed.

(** *** Names of the visible paths *)

Lemma hasStep_pathSteps (steps : list ProxyPathStep) p :
  pathSteps steps p = [] ↔ ∀ s, s ∈ steps → Step_PathID s ≠ ProxyPath_ID p.
Proof.
  unfold pathSteps, proxyPathNameStepsByPath, mlist. rewrite lookup_fmap.
  transitivity (mlist (groupBy Step_PathID steps) (ProxyPath_ID p) = []).
  - unfold mlist. destruct (groupBy Step_PathID steps !! ProxyPath_ID p) as [l|]; [|done]. cbn.
    split; intros Hl; [|by rewrite Hl]. apply Permutation_nil. symmetry. rewrite <-Hl. symmetry. apply sort_slice_perm.
  - rewrite groupBy_filter. split.
    + intros Hf s Hs Heq. assert (s ∈ filter (λ x, Step_PathID x = ProxyPath_ID p) steps) as Hin by (by apply list_elem_of_filter).
      rewrite Hf in Hin. by apply not_elem_of_nil in Hin.
    + intros Hn. apply elem_of_nil_inv. intros s [Heq Hs]%list_elem_of_filter. by apply (Hn s).
Qed.

Lemma visible_names {D : ListenDecoder} {M : MapRange (string * string) (list nat)} nodes paths steps servers inbounds externals :
  NoDup (ProxyPath_ID <$> paths) →
  (∀ n, n ∈ nodes → NN_NodeType n = AssignableNodeProxyPath →
     NN_Key n = NodeKeyOf AssignableNodeProxyPath (NN_NodeID n) ∧ ∃ p, p ∈ paths ∧ ProxyPath_ID p = NN_NodeID n ∧ pathActive steps p = true) →
  ∃ out, resolveSubscriptionProxyPathNames nodes paths steps servers inbounds externals = Some out ∧ sameNodes out nodes ∧
    ∀ i j n m, out !! i = Some n → out !! j = Some m → NN_NodeType n = AssignableNodeProxyPath → NN_NodeType m = AssignableNodeProxyPath →
      NN_Name n = NN_Name m → NN_NodeID n = NN_NodeID m.
Proof.
  intros Hids Hnodes. unfold resolveSubscriptionProxyPathNames. cbv zeta. set (visible := list_to_set _).
  set (shown := List.filter _ paths). set (ins := hideInbound visible <$> inbounds). set (exts := exposeExternal visible <$> externals).
  destruct (resolved_names (M := M) shown steps servers ins exts) as (named & -> & Herase & Hnd & _); [by apply NoDup_map_filter|].
  eexists. split; [done|]. match goal with |- context [?f <$> nodes] => set (rename := f) end.
  assert (sameNodes (rename <$> nodes) nodes) as Hsame.
  { unfold sameNodes. rewrite <-list_fmap_compose. apply list_fmap_ext. intros i n _. unfold rename. simpl. by destruct (_ =? _)%string. }
  split; [done|].
  assert (NoDup (ProxyPath_ID <$> named)) as Hnids.
  { change ProxyPath_ID with (ProxyPath_ID ∘ setPathName ""). rewrite (list_fmap_compose (setPathName "")), Herase, <-list_fmap_compose.
    by apply NoDup_map_filter. }
  assert (∀ n, n ∈ nodes → NN_NodeType n = AssignableNodeProxyPath →
    ∃ q, q ∈ List.filter (pathActive steps) named ∧ ProxyPath_ID q = NN_NodeID n ∧ NN_Name (rename n) = ProxyPath_Name q) as Hfind.
  { intros n Hn Ht. destruct (Hnodes n Hn Ht) as (Hkey & p & Hp & Hid & Ha).
    assert (setPathName "" p ∈ setPathName "" <$> named) as (q & Heq & Hq)%list_elem_of_fmap.
    { rewrite Herase. apply list_elem_of_fmap_2. apply list_elem_of_In, List.filter_In. rewrite <-list_elem_of_In. split; [done|].
      apply bool_decide_eq_true. rewrite Hid, <-Hkey. apply elem_of_list_to_set. by apply list_elem_of_fmap_2. }
    assert (ProxyPath_ID q = ProxyPath_ID p) as Hqid by (apply (f_equal ProxyPath_ID) in Heq; done).
    exists q. split_and!.
    - apply list_elem_of_In, List.filter_In. rewrite <-list_elem_of_In. split; [done|].
      transitivity (pathActive steps (setPathName "" q)); [done|]. by rewrite <-Heq.
    - congruence.
    - unfold rename. rewrite Ht, String.eqb_refl. cbn [renameNode NN_Name]. rewrite <-Hid, <-Hqid.
      by rewrite (indexBy_NoDup ProxyPath_ID named q). }
  intros i j n m Hi Hj Htn Htm Heq. rewrite list_lookup_fmap in Hi, Hj.
  destruct (nodes !! i) as [n0|] eqn:Hn0; [|done]. destruct (nodes !! j) as [m0|] eqn:Hm0; [|done]. injection Hi as <-. injection Hj as <-.
  assert (∀ n, NN_NodeType (rename n) = NN_NodeType n ∧ NN_NodeID (rename n) = NN_NodeID n) as Hkeep.
  { intros x. unfold rename. by destruct (_ =? _)%string. }
  rewrite (proj1 (Hkeep n0)) in Htn. rewrite (proj1 (Hkeep m0)) in Htm. rewrite (proj2 (Hkeep n0)), (proj2 (Hkeep m0)).
  destruct (Hfind n0) as (q & Hq & Hqid & Hqn); [by eapply list_elem_of_lookup_2|done|].
  destruct (Hfind m0) as (q' & Hq' & Hqid' & Hqn'); [by eapply list_elem_of_lookup_2|done|].
  rewrite Hqn, Hqn' in Heq. rewrite <-Hqid, <-Hqid'. f_equal. by apply (NoDup_fmap_key ProxyPath_Name (List.filter (pathActive steps) named)).
Qed.

(** ** Contracts *)

(** C14. The tags of a subscription are pairwise distinct, whatever the source names and the names
    operators chose for single nodes or for nodes of a plan, and every node keeps its place;
    the search for a free name always ends. *)
Theorem subscription_tags_unique globalNames planNames nodes refs :
  ref_index <$> refs ≡ₚ seq 0 (length nodes) →
  ∃ out, finalNodes globalNames planNames nodes refs = Some out ∧ NN_Key <$> out = NN_Key <$> nodes ∧ NoDup (NN_Name <$> out).
Proof. apply final_tags_distinct. Qed.

Definition demoNode (type : string) (id : Z) (name : string) (server : Server) : nameNode :=
  {| NN_Key := NodeKeyOf type id; NN_NodeType := type; NN_NodeID := id; NN_Name := name; NN_Server := server; NN_Inbound := nameInbound id (Server_ID server) "in" |}.
Definition demoRef (index : nat) (kind resourceID serverID : Z) (region : string) : subscriptionNodeNameRef :=
  {| ref_index := index; ref_kind := kind; ref_resourceID := resourceID; ref_serverID := serverID; ref_regionCode := region |}.

(** A path, an imported node and two servers of the same name. *)
Definition demoNodes : list nameNode :=
  [demoNode AssignableNodeProxyPath 5 "Tokyo" zeroServer; demoNode AssignableNodeExternalOutbound 7 "Tokyo" zeroServer;
   demoNode AssignableNodeInbound 8 "" (nameServer 1 "Tokyo"); demoNode AssignableNodeInbound 9 "" (nameServer 2 "Tokyo")].
Definition demoRefs : list subscriptionNodeNameRef :=
  [demoRef 0 0 5 1 "JP"; demoRef 1 1 7 0 ""; demoRef 2 2 8 1 "JP"; demoRef 3 2 9 2 "US"].

Notation demoSource := (resolveSubscriptionNodeNames (MS := map_range_default _ _) (MN := map_range_default _ _) demoNodes demoRefs).

Example demoSource_names :
  fmap (M := list) NN_Name <$> demoSource = Some ["Tokyo"; "Tokyo｜01"; "Tokyo｜01｜01"; "Tokyo｜02"]%string.
Proof. vm_compute. reflexivity. Qed.

Definition demoOverrides : gmap string (option string) := {[NodeKeyOf AssignableNodeInbound 9 := Some "Tokyo "%string]}.

Lemma subscription_tags_unique_witness :
  ∃ out, finalNodes demoOverrides ∅ demoNodes demoRefs = Some out ∧ NN_Key <$> out = NN_Key <$> demoNodes ∧ NoDup (NN_Name <$> out).
Proof. apply subscription_tags_unique. reflexivity. Defined.

(** The source names of a subscription are pairwise distinct across paths, imported nodes and
    standalone servers when the names of its paths are, which keep their names. *)
Theorem source_names_unique {MS : MapRange Z string} {MN : MapRange string (list Z)} nodes refs :
  NoDup (ref_index <$> refs) → (∀ r, r ∈ refs → (ref_index r < length nodes)%nat) → (∀ r, r ∈ refs → 0 ≤ ref_kind r ≤ 2) →
  NoDup (refName nodes <$> refsOf (λ k, k =? subscriptionNodeNameProxyPath) refs) →
  ∃ out, resolveSubscriptionNodeNames nodes refs = Some out ∧ sameNodes out nodes ∧ NoDup (refName out <$> refs) ∧
    ∀ r, r ∈ refs → ref_kind r = subscriptionNodeNameProxyPath → refName out r = refName nodes r.
Proof. apply source_names_distinct. Qed.

Lemma source_names_unique_witness :
  ∃ out, demoSource = Some out ∧ NoDup (refName out <$> demoRefs).
Proof.
  destruct (source_names_unique (MS := map_range_default _ _) (MN := map_range_default _ _) demoNodes demoRefs) as (out & H1 & _ & H2 & _);
    [apply (bool_decide_unpack _); vm_compute; exact I|apply Forall_forall; repeat constructor; simpl; lia|
     apply Forall_forall; repeat constructor; simpl; lia|apply (bool_decide_unpack _); vm_compute; exact I|]. eauto.
Defined.
