(* ===== verification/NodeCatalog.v ===== *)
(** * The catalog of assignable nodes
    ([internal/core/assignable_node_topology.go], [internal/core/assignable_nodes.go], [internal/core/subscription.go])

    A node is a path, an imported node exposed to users, or an inbound without paths.  Its
    topology says where users enter, which servers they pass and where they leave; plans select
    nodes by it.  The catalog lists every node with its name, topology and status.

    [None] is only the missing fuel of a loop over ordinals and is proved not to occur. *)

From S2P Require Import Prelude Model NodeKeys NetAddr ListenResources PlanMembership ProxyPathNames ProxyPathNameSafety ExitRegions NodeNames.

Local Open Scope Z_scope.

(** ** Branches of an inbound *)

Definition subscriptionBranchesForInbound (inbound : Inbound) (paths : list ProxyPath) (steps : list ProxyPathStep) : list ProxyPath :=
  let hasStep : gset Z := list_to_set (Step_PathID <$> steps) in
  sort_slice (ltc (onc ProxyPath_ID Z.compare))
    (List.filter (λ p, ProxyPath_Enabled p && (ProxyPath_InboundID p =? Inbound_ID inbound) &&
                       ((ProxyPath_Kind p =? ProxyPathKindDirect)%string || bool_decide (ProxyPath_ID p ∈ hasStep))) paths).

(** ** Topologies *)

Record AssignableNodeServerRole := {
  RL_ServerID : Z;
  RL_ServerName : string;
  RL_Roles : list string }.

Record AssignableNodeTopology := {
  TP_NodeType : string;
  TP_NodeID : Z;
  TP_NodeKey : string;
  TP_EntryKey : string;
  TP_EntryInboundID : Z;
  TP_EntryServerID : Z;
  TP_EntryServerName : string;
  TP_EntryRegion : string;
  TP_EntryProtocol : string;
  TP_EntryPort : Z;
  TP_ExitKind : string;
  TP_ExitServerID : Z;
  TP_ExitServerName : string;
  TP_ExitExternalOutboundID : Z;
  TP_ExitRegion : string;
  TP_ServerRoles : list AssignableNodeServerRole }.

Definition inboundKey (id : Z) : string := "inbound:" +:+ FormatInt id.

(** Adding a role: [roleIndex] finds the entry of a server. *)
Fixpoint appendRole (serverID : Z) (name role : string) (roles : list AssignableNodeServerRole) : list AssignableNodeServerRole :=
  match roles with
  | [] => [{| RL_ServerID := serverID; RL_ServerName := name; RL_Roles := [role] |}]
  | r :: roles =>
      if RL_ServerID r =? serverID
      then {| RL_ServerID := RL_ServerID r; RL_ServerName := RL_ServerName r; RL_Roles := RL_Roles r ++ [role] |} :: roles
      else r :: appendRole serverID name role roles
  end.

Section topologies.
Context (servers : list Server) (inbounds : list Inbound) (steps : list ProxyPathStep).

Definition serverByID : gmap Z Server := indexBy Server_ID servers.
Definition inboundByID : gmap Z Inbound := indexBy Inbound_ID inbounds.

Definition labelOf (serverID : Z) : string := proxyPathServerLabel (serverAt serverByID serverID) serverID.

Definition addRole (serverID : Z) (role : string) (roles : list AssignableNodeServerRole) : list AssignableNodeServerRole :=
  if serverID =? 0 then roles else appendRole serverID (labelOf serverID) role roles.

(** *** Standalone inbounds *)

Definition inboundTopology (paths : list ProxyPath) (inbound : Inbound) : option AssignableNodeTopology :=
  if negb (Inbound_Enabled inbound) then None
  else if negb (bool_decide (subscriptionBranchesForInbound inbound paths steps = [])) then None
  else match serverByID !! Inbound_ServerID inbound with
  | None => None
  | Some server =>
      let regionCode := (EffectiveServerRegion server).1 in
      let label := proxyPathServerLabel server (Server_ID server) in
      Some {| TP_NodeType := AssignableNodeInbound; TP_NodeID := Inbound_ID inbound;
              TP_NodeKey := NodeKeyOf AssignableNodeInbound (Inbound_ID inbound); TP_EntryKey := inboundKey (Inbound_ID inbound);
              TP_EntryInboundID := Inbound_ID inbound; TP_EntryServerID := Server_ID server; TP_EntryServerName := label;
              TP_EntryRegion := regionCode; TP_EntryProtocol := Inbound_Protocol inbound; TP_EntryPort := Inbound_Port inbound;
              TP_ExitKind := "direct"; TP_ExitServerID := Server_ID server; TP_ExitServerName := label;
              TP_ExitExternalOutboundID := 0; TP_ExitRegion := regionCode;
              TP_ServerRoles := [{| RL_ServerID := Server_ID server; RL_ServerName := label; RL_Roles := ["entry"; "exit"]%string |}] |}
  end.

(** *** Paths *)

(** What the loop over the steps of a path computes. *)
Record pathExit := {
  PE_Kind : string;
  PE_ServerID : Z;
  PE_ServerName : string;
  PE_External : Z;
  PE_Roles : list AssignableNodeServerRole;
  PE_LastControlled : Z }.

Definition exitAt (kind : string) (serverID : Z) (roles : list AssignableNodeServerRole) (lastControlled : Z) (e : pathExit) : pathExit :=
  {| PE_Kind := kind; PE_ServerID := serverID; PE_ServerName := labelOf serverID; PE_External := PE_External e;
     PE_Roles := roles; PE_LastControlled := lastControlled |}.

Definition passing (roles : list AssignableNodeServerRole) (lastControlled : Z) (e : pathExit) : pathExit :=
  {| PE_Kind := PE_Kind e; PE_ServerID := PE_ServerID e; PE_ServerName := PE_ServerName e; PE_External := PE_External e;
     PE_Roles := roles; PE_LastControlled := lastControlled |}.

Definition importedAt (externals : gmap Z ExternalOutbound) (externalID : Z) (e : pathExit) : pathExit :=
  let unplaced := {| PE_Kind := "imported"; PE_ServerID := PE_ServerID e; PE_ServerName := PE_ServerName e;
                     PE_External := externalID; PE_Roles := PE_Roles e; PE_LastControlled := PE_LastControlled e |} in
  match externals !! externalID with
  | Some external =>
      match External_ServerID external with
      | Some id => if id =? 0 then unplaced
                   else {| PE_Kind := "imported"; PE_ServerID := id; PE_ServerName := labelOf id; PE_External := externalID;
                           PE_Roles := addRole id "exit" (PE_Roles e); PE_LastControlled := PE_LastControlled e |}
      | None => unplaced
      end
  | None => unplaced
  end.

Definition pathStep (externals : gmap Z ExternalOutbound) (final : bool) (step : ProxyPathStep) (e : pathExit) : pathExit :=
  let kind := Step_NodeType step in
  if (kind =? ProxyPathStepVPNGate)%string then
    if final then exitAt "vpngate" (PE_LastControlled e) (PE_Roles e) (PE_LastControlled e) e else e
  else if (kind =? ProxyPathStepServerInbound)%string then
    match proxyPathStepTargetServer step inboundByID with
    | None => e
    | Some (serverID, _) =>
        if final then exitAt "server_inbound" serverID (addRole serverID "exit" (PE_Roles e)) serverID e
        else passing (addRole serverID "transit" (PE_Roles e)) serverID e
    end
  else if (kind =? ProxyPathStepWARP)%string then
    match Step_ServerID step with
    | None => e
    | Some serverID =>
        if final then exitAt "warp" serverID (addRole serverID "exit" (PE_Roles e)) (PE_LastControlled e) e
        else passing (addRole serverID "transit" (PE_Roles e)) (PE_LastControlled e) e
    end
  else if (kind =? ProxyPathStepImported)%string then
    match Step_ExternalOutboundID step with
    | Some externalID => if final then importedAt externals externalID e else e
    | None => e
    end
  else e.

(** The position is that of the last step when nothing follows. *)
Fixpoint pathExitOf (externals : gmap Z ExternalOutbound) (ordered : list ProxyPathStep) (e : pathExit) : pathExit :=
  match ordered with
  | [] => e
  | step :: rest => pathExitOf externals rest (pathStep externals (bool_decide (rest = [])) step e)
  end.

Definition sortRoles (r : AssignableNodeServerRole) : AssignableNodeServerRole :=
  {| RL_ServerID := RL_ServerID r; RL_ServerName := RL_ServerName r; RL_Roles := sort_strings (RL_Roles r) |}.

Definition pathTopology (externals : gmap Z ExternalOutbound) (path : ProxyPath) : option AssignableNodeTopology :=
  match inboundByID !! ProxyPath_InboundID path with
  | None => None
  | Some root =>
      let rootServer := serverAt serverByID (Inbound_ServerID root) in
      let rootName := proxyPathServerLabel rootServer (Server_ID rootServer) in
      let entry := addRole (Inbound_ServerID root) "entry" [] in
      let ordered := stepsOf steps path in
      let start := {| PE_Kind := ""; PE_ServerID := 0; PE_ServerName := ""; PE_External := 0; PE_Roles := entry;
                      PE_LastControlled := Inbound_ServerID root |} in
      let e := if bool_decide (ordered = [])
               then {| PE_Kind := "direct"; PE_ServerID := Inbound_ServerID root; PE_ServerName := rootName; PE_External := 0;
                       PE_Roles := addRole (Inbound_ServerID root) "exit" entry; PE_LastControlled := Inbound_ServerID root |}
               else
                 let e := pathExitOf externals ordered start in
                 {| PE_Kind := if (PE_Kind e =? "")%string then "unknown"%string else PE_Kind e; PE_ServerID := PE_ServerID e;
                    PE_ServerName := PE_ServerName e; PE_External := PE_External e; PE_Roles := sortRoles <$> PE_Roles e;
                    PE_LastControlled := PE_LastControlled e |} in
      Some {| TP_NodeType := AssignableNodeProxyPath; TP_NodeID := ProxyPath_ID path;
              TP_NodeKey := NodeKeyOf AssignableNodeProxyPath (ProxyPath_ID path); TP_EntryKey := inboundKey (Inbound_ID root);
              TP_EntryInboundID := Inbound_ID root; TP_EntryServerID := Inbound_ServerID root; TP_EntryServerName := rootName;
              TP_EntryRegion := (EffectiveServerRegion rootServer).1; TP_EntryProtocol := Inbound_Protocol root;
              TP_EntryPort := Inbound_Port root; TP_ExitKind := PE_Kind e; TP_ExitServerID := PE_ServerID e;
              TP_ExitServerName := PE_ServerName e; TP_ExitExternalOutboundID := PE_External e;
              TP_ExitRegion := ProxyPath_EffectiveExitRegionCode path; TP_ServerRoles := PE_Roles e |}
  end.

(** *** Imported nodes *)

Definition externalTopology (external : ExternalOutbound) : option AssignableNodeTopology :=
  if negb (External_Enabled external) || negb (External_ExposeToUsers external) then None
  else
    let serverID := if isSet (External_ServerID external) then default 0 (External_ServerID external) else 0 in
    let name := if isSet (External_ServerID external) then labelOf serverID else ""%string in
    Some {| TP_NodeType := AssignableNodeExternalOutbound; TP_NodeID := External_ID external;
            TP_NodeKey := NodeKeyOf AssignableNodeExternalOutbound (External_ID external); TP_EntryKey := "";
            TP_EntryInboundID := 0; TP_EntryServerID := 0; TP_EntryServerName := ""; TP_EntryRegion := "";
            TP_EntryProtocol := ""; TP_EntryPort := 0; TP_ExitKind := "imported"; TP_ExitServerID := serverID;
            TP_ExitServerName := name; TP_ExitExternalOutboundID := External_ID external;
            TP_ExitRegion := External_EffectiveRegionCode external;
            TP_ServerRoles := if isSet (External_ServerID external)
                              then [{| RL_ServerID := serverID; RL_ServerName := name; RL_Roles := ["exit"%string] |}] else [] |}.

(** The loops insert the nodes under their keys. *)
Definition topologiesOf (paths : list ProxyPath) (externals : list ExternalOutbound) : gmap string AssignableNodeTopology :=
  indexBy TP_NodeKey (omap (inboundTopology paths) inbounds ++
                      omap (pathTopology (indexBy External_ID externals)) paths ++
                      omap externalTopology externals).
End topologies.

(** ** Entries of the catalog *)

Definition AssignableNodeStatusOK : string := "ok".
Definition AssignableNodeStatusOffline : string := "offline".
Definition AssignableNodeStatusDisabled : string := "disabled".

Record AssignableNodeMetadata := {
  MD_DisplayNameOverride : option string;
  MD_LockVersion : Z }.

(** A catalog entry: [CN_Node] holds the fields that membership rules read. *)
Record CatalogNode := {
  CN_Node : AssignableNode;
  CN_Name : string;
  CN_SourceName : string;
  CN_GlobalNameOverride : option string;
  CN_HasGlobalNameOverride : bool;
  CN_EffectiveGlobalName : string;
  CN_MetadataLockVersion : Z;
  CN_EntryServerName : string;
  CN_EntryRegion : string;
  CN_EntryProtocol : string;
  CN_EntryPort : Z;
  CN_ExitServerName : string;
  CN_PathServers : list AssignableNodeServerRole;
  CN_PathSummary : list string;
  CN_Status : string;
  CN_Renderable : bool }.

(** A draft: an entry with the name and region its final name is made of. *)
Record draftNode := {
  DN_Node : CatalogNode;
  DN_Name : string;
  DN_RegionCode : string }.

Definition serverOnline (server : Server) (online : option (gmap Z bool)) : bool :=
  match online with
  | None => true
  | Some m => default false (m !! Server_ID server)
  end.

Definition assignableNodeStatusFor (server : Server) (enabled : bool) : string :=
  if negb enabled then AssignableNodeStatusDisabled
  else if negb (Server_Status server =? ServerOnline)%string then AssignableNodeStatusOffline
  else AssignableNodeStatusOK.

Definition externalName (external : ExternalOutbound) : string :=
  let name := TrimSpace (External_Name external) in
  if (name =? "")%string then External_Protocol external +:+ "-" +:+ FormatInt (External_ID external) else name.

Section entries.
Context (servers : list Server) (inbounds : list Inbound) (steps : list ProxyPathStep).

Definition summaryStep (externals : gmap Z ExternalOutbound) (step : ProxyPathStep) : list string :=
  let kind := Step_NodeType step in
  if (kind =? ProxyPathStepServerInbound)%string then
    match proxyPathStepTargetServer step (inboundByID inbounds) with
    | None => []
    | Some (serverID, _) => match serverByID servers !! serverID with
                            | Some server => [proxyPathServerLabel server serverID]
                            | None => ["server-" +:+ FormatInt serverID]
                            end
    end
  else if (kind =? ProxyPathStepImported)%string then
    match Step_ExternalOutboundID step with
    | Some id => match externals !! id with
                 | Some external => [externalName external]
                 | None => ["导入节点"%string]
                 end
    | None => ["导入节点"%string]
    end
  else if (kind =? ProxyPathStepWARP)%string then ["WARP"%string]
  else if (kind =? ProxyPathStepVPNGate)%string then ["VPNGate"%string]
  else [].

Definition proxyPathSummaryLabels (externals : gmap Z ExternalOutbound) (path : ProxyPath) (ordered : list ProxyPathStep) : list string :=
  match inboundByID inbounds !! ProxyPath_InboundID path with
  | Some root => match serverByID servers !! Inbound_ServerID root with
                 | Some server => [proxyPathServerLabel server (Server_ID server)]
                 | None => ["server-" +:+ FormatInt (Inbound_ServerID root)]
                 end
  | None => []
  end ++ List.concat (summaryStep externals <$> ordered).

Definition emptyNode (type : string) (id : Z) (entryKey : string) (entryServerID : Z) (exitRegion : string) (enabled : bool) : AssignableNode :=
  {| AN_Type := type; AN_ID := id; AN_Key := ""; AN_EntryKey := entryKey; AN_EntryServerID := entryServerID; AN_ExitServerID := 0;
     AN_ExitExternalOutboundID := 0; AN_PathServers := []; AN_ExitRegion := exitRegion; AN_Enabled := enabled |}.

Definition draftOf (node : AssignableNode) (serverName region protocol : string) (port : Z) (summary : list string)
    (status : string) (renderable : bool) (name regionCode : string) : draftNode :=
  {| DN_Node := {| CN_Node := node; CN_Name := ""; CN_SourceName := ""; CN_GlobalNameOverride := None; CN_HasGlobalNameOverride := false;
                   CN_EffectiveGlobalName := ""; CN_MetadataLockVersion := 0; CN_EntryServerName := serverName; CN_EntryRegion := region;
                   CN_EntryProtocol := protocol; CN_EntryPort := port; CN_ExitServerName := ""; CN_PathServers := [];
                   CN_PathSummary := summary; CN_Status := status; CN_Renderable := renderable |};
     DN_Name := name; DN_RegionCode := regionCode |}.

Definition inboundDraft (paths : list ProxyPath) (inbound : Inbound) : option draftNode :=
  if negb (Inbound_Enabled inbound) then None
  else if negb (bool_decide (subscriptionBranchesForInbound inbound paths steps = [])) then None
  else match serverByID servers !! Inbound_ServerID inbound with
  | None => None
  | Some server =>
      let regionCode := (EffectiveServerRegion server).1 in
      let label := proxyPathServerLabel server (Server_ID server) in
      Some (draftOf (emptyNode AssignableNodeInbound (Inbound_ID inbound) (inboundKey (Inbound_ID inbound)) (Server_ID server) regionCode true)
              label regionCode (Inbound_Protocol inbound) (Inbound_Port inbound) [] (assignableNodeStatusFor server true) true label regionCode)
  end.

Definition pathDraft (online : option (gmap Z bool)) (externals : gmap Z ExternalOutbound) (path : ProxyPath) : option draftNode :=
  match inboundByID inbounds !! ProxyPath_InboundID path with
  | None => None
  | Some root =>
      let rootServer := serverAt (serverByID servers) (Inbound_ServerID root) in
      let label := proxyPathServerLabel rootServer (Server_ID rootServer) in
      let enabled := ProxyPath_Enabled path && Inbound_Enabled root in
      let status := if negb enabled then AssignableNodeStatusDisabled
                    else if negb (serverOnline rootServer online) then AssignableNodeStatusOffline else AssignableNodeStatusOK in
      let name := TrimSpace (ProxyPath_Name path) in
      let name := if (name =? "")%string then label +:+ " 分支 " +:+ FormatInt (ProxyPath_ID path) else name in
      Some (draftOf (emptyNode AssignableNodeProxyPath (ProxyPath_ID path) "" (Inbound_ServerID root) (ProxyPath_EffectiveExitRegionCode path) enabled)
              label "" (Inbound_Protocol root) (Inbound_Port root)
              (proxyPathSummaryLabels externals path (stepsOf steps path)) status enabled name (ProxyPath_EffectiveExitRegionCode path))
  end.

Definition externalDraft (external : ExternalOutbound) : option draftNode :=
  if negb (External_Enabled external) || negb (External_ExposeToUsers external) then None
  else Some (draftOf (emptyNode AssignableNodeExternalOutbound (External_ID external) "" 0 (External_EffectiveRegionCode external) true)
               "" "" "" 0 [] AssignableNodeStatusOK true (externalName external) (External_EffectiveRegionCode external)).

(** *** Names of standalone entries *)

(** The nodes and references given to [resolveSubscriptionNodeNames]: standalone inbounds, then
    imported nodes. *)
Definition standaloneNameNodes (paths : list ProxyPath) : list (nameNode * (Z * Z * string)) :=
  omap (λ inbound,
    match inboundDraft paths inbound, serverByID servers !! Inbound_ServerID inbound with
    | Some d, Some server =>
        Some ({| NN_Key := ""; NN_NodeType := ""; NN_NodeID := 0; NN_Name := DN_Name d; NN_Server := server; NN_Inbound := inbound |},
              (Inbound_ID inbound, Server_ID server, DN_RegionCode d))
    | _, _ => None
    end) inbounds.

Definition externalNameNodes (externals : list ExternalOutbound) : list (nameNode * (Z * Z * string)) :=
  omap (λ external,
    match externalDraft external with
    | Some d => Some ({| NN_Key := ""; NN_NodeType := ""; NN_NodeID := 0; NN_Name := DN_Name d; NN_Server := zeroServer; NN_Inbound := zeroInbound |},
                      (External_ID external, 0, DN_RegionCode d))
    | None => None
    end) externals.

Definition nameRefOf (kind : Z) (index : nat) (info : Z * Z * string) : subscriptionNodeNameRef :=
  {| ref_index := index; ref_kind := kind; ref_resourceID := info.1.1; ref_serverID := info.1.2; ref_regionCode := info.2 |}.

Definition catalogNameNodes (paths : list ProxyPath) (externals : list ExternalOutbound) : list nameNode :=
  (standaloneNameNodes paths).*1 ++ (externalNameNodes externals).*1.

Definition catalogNameRefs (paths : list ProxyPath) (externals : list ExternalOutbound) : list subscriptionNodeNameRef :=
  let standalone := standaloneNameNodes paths in
  imap (nameRefOf subscriptionNodeNameStandalone) standalone.*2 ++
  imap (λ i, nameRefOf subscriptionNodeNameExternal (length standalone + i)) (externalNameNodes externals).*2.

(** The name of a standalone entry after disambiguation. *)
Definition standaloneEntryName (refs : list subscriptionNodeNameRef) (nodes : list nameNode) (d : draftNode) : string :=
  if (AN_Type (CN_Node (DN_Node d)) =? AssignableNodeInbound)%string then
    match List.find (λ r, (ref_resourceID r =? AN_ID (CN_Node (DN_Node d))) && (ref_kind r =? subscriptionNodeNameStandalone)) refs with
    | Some r => refName nodes r
    | None => DN_Name d
    end
  else DN_Name d.
End entries.

(** [applyTopology], after the key is set. *)
Definition applyTopology (topologies : gmap string AssignableNodeTopology) (n : CatalogNode) : CatalogNode :=
  let node := CN_Node n in
  let key := NodeKeyOf (AN_Type node) (AN_ID node) in
  let keyed entryKey exitServer exitExternal pathServers :=
    {| AN_Type := AN_Type node; AN_ID := AN_ID node; AN_Key := key; AN_EntryKey := entryKey; AN_EntryServerID := AN_EntryServerID node;
       AN_ExitServerID := exitServer; AN_ExitExternalOutboundID := exitExternal; AN_PathServers := pathServers;
       AN_ExitRegion := AN_ExitRegion node; AN_Enabled := AN_Enabled node |} in
  let with_ node region exitName roles renderable :=
    {| CN_Node := node; CN_Name := CN_Name n; CN_SourceName := CN_SourceName n; CN_GlobalNameOverride := CN_GlobalNameOverride n;
       CN_HasGlobalNameOverride := CN_HasGlobalNameOverride n; CN_EffectiveGlobalName := CN_EffectiveGlobalName n;
       CN_MetadataLockVersion := CN_MetadataLockVersion n; CN_EntryServerName := CN_EntryServerName n; CN_EntryRegion := region;
       CN_EntryProtocol := CN_EntryProtocol n; CN_EntryPort := CN_EntryPort n; CN_ExitServerName := exitName;
       CN_PathServers := roles; CN_PathSummary := CN_PathSummary n; CN_Status := CN_Status n; CN_Renderable := renderable |} in
  match topologies !! key with
  | Some topo => with_ (keyed (TP_EntryKey topo) (TP_ExitServerID topo) (TP_ExitExternalOutboundID topo) (RL_ServerID <$> TP_ServerRoles topo))
                       (TP_EntryRegion topo) (TP_ExitServerName topo) (TP_ServerRoles topo) (AN_Enabled node)
  | None => with_ (keyed (AN_EntryKey node) (AN_ExitServerID node) (AN_ExitExternalOutboundID node) (AN_PathServers node))
                  (CN_EntryRegion n) (CN_ExitServerName n) (CN_PathServers n) (CN_Renderable n)
  end.

(** The names of an entry from its source name and the metadata operators set. *)
Definition nameEntry (metadata : gmap string AssignableNodeMetadata) (name region : string) (n : CatalogNode) : CatalogNode :=
  let md := metadata !! AN_Key (CN_Node n) in
  let override := match md with Some m => MD_DisplayNameOverride m | None => None end in
  let effective := ResolveEffectiveNodeName name override None in
  {| CN_Node := CN_Node n; CN_Name := taggedName region effective; CN_SourceName := name;
     CN_GlobalNameOverride := match override with Some v => Some v | None => CN_GlobalNameOverride n end;
     CN_HasGlobalNameOverride := match override with Some _ => true | None => CN_HasGlobalNameOverride n end;
     CN_EffectiveGlobalName := effective;
     CN_MetadataLockVersion := match md with Some m => MD_LockVersion m | None => CN_MetadataLockVersion n end;
     CN_EntryServerName := CN_EntryServerName n; CN_EntryRegion := CN_EntryRegion n; CN_EntryProtocol := CN_EntryProtocol n;
     CN_EntryPort := CN_EntryPort n; CN_ExitServerName := CN_ExitServerName n; CN_PathServers := CN_PathServers n;
     CN_PathSummary := CN_PathSummary n; CN_Status := CN_Status n; CN_Renderable := CN_Renderable n |}.

Definition entryCmp : CatalogNode → CatalogNode → comparison :=
  lexc (onc (AN_Type ∘ CN_Node) String.compare) (onc (AN_ID ∘ CN_Node) Z.compare).

Section catalog.
Context {MS : MapRange Z string} {MN : MapRange string (list Z)}.
Context {D : ListenDecoder} {M : MapRange (string * string) (list nat)} {C : EgressCodec} {MI : MapRange Z bool}
        {MT : MapRange Z ExternalEgressProbeTarget}.

Record AssignableNodeCatalogInput := {
  CI_Servers : list Server;
  CI_Inbounds : list Inbound;
  CI_ProxyPaths : list ProxyPath;
  CI_ProxyPathSteps : list ProxyPathStep;
  CI_EgressResults : list ProxyPathEgressResult;
  CI_ExternalOutbounds : list ExternalOutbound;
  CI_ServerOnline : option (gmap Z bool);
  CI_NodeMetadata : gmap string AssignableNodeMetadata }.

Definition ResolveAssignableNodeTopologies (input : AssignableNodeCatalogInput) :
    option (gmap string AssignableNodeTopology * list ProxyPath * list ExternalOutbound) :=
  match ResolveProxyPathNames (CI_ProxyPaths input) (CI_ProxyPathSteps input) (CI_Servers input) (CI_Inbounds input)
          (CI_ExternalOutbounds input) with
  | None => None
  | Some named =>
      let '(paths, externals) := ResolveProxyPathExitRegions named (CI_ProxyPathSteps input) (CI_Servers input)
                                   (CI_Inbounds input) (CI_ExternalOutbounds input) (CI_EgressResults input) in
      Some (topologiesOf (CI_Servers input) (CI_Inbounds input) (CI_ProxyPathSteps input) paths externals, paths, externals)
  end.

(** The entries before naming: standalone inbounds, paths, imported nodes. *)
Definition catalogDrafts (input : AssignableNodeCatalogInput) (paths : list ProxyPath) (externals : list ExternalOutbound) : list draftNode :=
  let servers := CI_Servers input in
  let inbounds := CI_Inbounds input in
  let steps := CI_ProxyPathSteps input in
  omap (inboundDraft servers steps paths) inbounds ++
  omap (pathDraft servers inbounds steps (CI_ServerOnline input) (indexBy External_ID externals)) paths ++
  omap externalDraft externals.

Definition BuildAssignableNodeCatalog (input : AssignableNodeCatalogInput) : option (list CatalogNode) :=
  match ResolveAssignableNodeTopologies input with
  | None => None
  | Some (topologies, paths, externals) =>
      let refs := catalogNameRefs (CI_Servers input) (CI_Inbounds input) (CI_ProxyPathSteps input) paths externals in
      match resolveSubscriptionNodeNames (catalogNameNodes (CI_Servers input) (CI_Inbounds input) (CI_ProxyPathSteps input) paths externals) refs with
      | None => None
      | Some nameNodes =>
          let finish d := nameEntry (CI_NodeMetadata input) (standaloneEntryName refs nameNodes d) (DN_RegionCode d)
                                    (applyTopology topologies (DN_Node d)) in
          Some (sort_slice (ltc entryCmp) (finish <$> catalogDrafts input paths externals))
      end
  end.
End catalog.
