(* ===== verification/NodeCatalogSafety.v ===== *)
(** * What the catalog of assignable nodes guarantees

    The catalog lists every node once, in order, with its topology; the roles of the servers of
    a path are those of its route; a membership rule on servers selects the paths that pass it. *)

From S2P Require Import Prelude Model NodeKeys NetAddr ListenResources PlanMembership ProxyPathNames ProxyPathNameSafety ExitRegions ExitRegionSafety NodeNames NodeNameSafety NodeCatalog.

Local Open Scope Z_scope.

(** ** Branches are the active paths *)

Lemma branches_active steps p :
  ProxyPath_Enabled p && ((ProxyPath_Kind p =? ProxyPathKindDirect)%string || bool_decide (ProxyPath_ID p ∈ (list_to_set (Step_PathID <$> steps) : gset Z))) =
  pathActive steps p.
Proof.
  unfold pathActive, proxyPathIsActive. f_equal. f_equal. rewrite <-bool_decide_not. apply bool_decide_ext.
  rewrite hasStep_pathSteps, elem_of_list_to_set, list_elem_of_fmap. split.
  - intros (s & Hid & Hs) Hn. by apply (Hn s).
  - intros Hn. destruct (decide (Exists (λ s, Step_PathID s = ProxyPath_ID p) steps)) as [He|He].
    + apply Exists_exists in He as (s & Hs & Heq). eauto.
    + exfalso. apply Hn. intros s Hs Heq. apply He, Exists_exists. eauto.
Qed.

Lemma branches_nil steps inbound paths :
  subscriptionBranchesForInbound inbound paths steps = [] ↔
  ∀ p, p ∈ paths → ProxyPath_InboundID p = Inbound_ID inbound → pathActive steps p = false.
Proof.
  unfold subscriptionBranchesForInbound. cbv zeta. set (branch := λ p, _).
  transitivity (List.filter branch paths = []).
  { split; intros H; [|by rewrite H]. apply Permutation_nil. rewrite <-H. apply sort_slice_perm. }
  assert (∀ p, branch p = pathActive steps p && (ProxyPath_InboundID p =? Inbound_ID inbound)) as Hb.
  { intros p. rewrite <-branches_active. unfold branch. by rewrite <-!andb_assoc, (andb_comm (_ =? _)). }
  split.
  - intros Hf p Hp Hid. destruct (pathActive steps p) eqn:Ha; [|done]. exfalso.
    assert (p ∈ List.filter branch paths) as Hin; [|rewrite Hf in Hin; by apply not_elem_of_nil in Hin].
    apply list_elem_of_In, List.filter_In. rewrite Hb, Ha, Hid, Z.eqb_refl, <-list_elem_of_In. done.
  - intros Hn. apply elem_of_nil_inv. intros p [Hp Hbr]%list_elem_of_In%List.filter_In. rewrite Hb in Hbr.
    apply andb_true_iff in Hbr as [Ha Hid%Z.eqb_eq]. apply list_elem_of_In in Hp. by rewrite (Hn p) in Ha.
Qed.

(** ** Roles *)

Section roles.
Implicit Types roles : list AssignableNodeServerRole.

Definition serversOf roles : list Z := RL_ServerID <$> roles.

(** A server has a role. *)
Definition hasRole roles (serverID : Z) (role : string) : Prop :=
  ∃ r, r ∈ roles ∧ RL_ServerID r = serverID ∧ role ∈ RL_Roles r.

Lemma appendRole_servers serverID name role roles s :
  s ∈ serversOf (appendRole serverID name role roles) ↔ s ∈ serversOf roles ∨ s = serverID.
Proof.
  induction roles as [|r roles IH]; cbn [appendRole]; [unfold serversOf; simpl; set_solver|].
  destruct (Z.eqb_spec (RL_ServerID r) serverID) as [He|]; unfold serversOf in *; rewrite !fmap_cons, !elem_of_cons; cbn [RL_ServerID]; [set_solver|].
  rewrite IH. set_solver.
Qed.

Lemma appendRole_NoDup serverID name role roles : NoDup (serversOf roles) → NoDup (serversOf (appendRole serverID name role roles)).
Proof.
  induction roles as [|r roles IH]; cbn [appendRole]; [intros _; unfold serversOf; simpl; apply NoDup_singleton|].
  unfold serversOf at 1. rewrite fmap_cons. intros [Hn Hnd]%NoDup_cons.
  destruct (Z.eqb_spec (RL_ServerID r) serverID) as [|Hne]; unfold serversOf; rewrite fmap_cons; constructor; [done|done| |by apply IH].
  intros [Hin|Hin]%appendRole_servers; done.
Qed.

Lemma appendRole_hasRole serverID name role roles s x :
  NoDup (serversOf roles) →
  hasRole (appendRole serverID name role roles) s x ↔ hasRole roles s x ∨ (s = serverID ∧ x = role).
Proof.
  unfold hasRole. induction roles as [|r roles IH]; cbn [appendRole].
  { intros _. split.
    - intros (q & ->%list_elem_of_singleton & <- & Hx%list_elem_of_singleton). auto.
    - intros [(q & Hq & _)|[-> ->]]; [by apply not_elem_of_nil in Hq|]. eexists. split; [by left|]. split; [done|by left]. }
  unfold serversOf. rewrite fmap_cons. intros [Hn Hnd]%NoDup_cons. specialize (IH Hnd).
  destruct (Z.eqb_spec (RL_ServerID r) serverID) as [He|Hne].
  - setoid_rewrite elem_of_cons. split.
    + intros (q & [->|Hq] & <- & Hx); [|left; exists q; auto]. cbn in *.
      apply elem_of_app in Hx as [Hx|Hx%list_elem_of_singleton]; [left; exists r; auto|right; auto].
    + intros [(q & [->|Hq] & <- & Hx)|[-> ->]]; [|by exists q; auto|].
      * eexists. split; [by left|]. cbn. split; [done|]. apply elem_of_app. by left.
      * eexists. split; [by left|]. cbn. split; [done|]. apply elem_of_app. right. by left.
  - setoid_rewrite elem_of_cons. split.
    + intros (q & [->|Hq] & <- & Hx); [left; exists r; auto|]. destruct (proj1 IH) as [(q' & ? & ? & ?)|?]; [by exists q|left; exists q'; auto|auto].
    + intros [(q & [->|Hq] & <- & Hx)|[-> ->]]; [by exists r; auto|..].
      * destruct (proj2 IH) as (q' & ? & ? & ?); [left; by exists q|exists q'; auto].
      * destruct (proj2 IH) as (q' & ? & ? & ?); [by right|exists q'; auto].
Qed.

Lemma hasRole_sort roles s x : hasRole (sortRoles <$> roles) s x ↔ hasRole roles s x.
Proof.
  unfold hasRole. split.
  - intros (r & (q & -> & Hq)%list_elem_of_fmap & Hs & Hx). exists q. cbn [sortRoles RL_ServerID RL_Roles] in *. unfold sort_strings in Hx. rewrite elem_of_sort_slice in Hx. done.
  - intros (r & Hr & Hs & Hx). exists (sortRoles r). split; [by apply list_elem_of_fmap_2|]. cbn [sortRoles RL_ServerID RL_Roles]. unfold sort_strings. by rewrite elem_of_sort_slice.
Qed.

Lemma hasRole_at roles r x : NoDup (serversOf roles) → r ∈ roles → x ∈ RL_Roles r ↔ hasRole roles (RL_ServerID r) x.
Proof.
  intros Hnd Hr. split; [intros; by exists r|]. intros (q & Hq & Heq & Hx). by rewrite (NoDup_fmap_key RL_ServerID roles r q).
Qed.
End roles.

Section addRole.
Context (servers : list Server).

Lemma addRole_servers id role roles s :
  s ∈ serversOf (addRole servers id role roles) ↔ s ∈ serversOf roles ∨ (s = id ∧ id ≠ 0).
Proof. unfold addRole. destruct (Z.eqb_spec id 0) as [->|]; [naive_solver|]. rewrite appendRole_servers. naive_solver. Qed.

Lemma addRole_NoDup id role roles : NoDup (serversOf roles) → NoDup (serversOf (addRole servers id role roles)).
Proof. unfold addRole. destruct (id =? 0); [done|]. apply appendRole_NoDup. Qed.

Lemma addRole_hasRole id role roles s x :
  NoDup (serversOf roles) → hasRole (addRole servers id role roles) s x ↔ hasRole roles s x ∨ (s = id ∧ x = role ∧ id ≠ 0).
Proof. intros Hnd. unfold addRole. destruct (Z.eqb_spec id 0) as [->|]; [naive_solver|]. rewrite appendRole_hasRole by done. naive_solver. Qed.
End addRole.

(** ** The servers of a path *)

Section pathRoles.
Context (servers : list Server) (inbounds : list Inbound) (externals : gmap Z ExternalOutbound).

(** The managed server a step leads to; an imported node only counts at the end. *)
Definition stepServer (final : bool) (step : ProxyPathStep) : option Z :=
  let kind := Step_NodeType step in
  if (kind =? ProxyPathStepVPNGate)%string then None
  else if (kind =? ProxyPathStepServerInbound)%string then fst <$> proxyPathStepTargetServer step (inboundByID inbounds)
  else if (kind =? ProxyPathStepWARP)%string then Step_ServerID step
  else if (kind =? ProxyPathStepImported)%string && final then
    match Step_ExternalOutboundID step with
    | Some id => match externals !! id with Some external => External_ServerID external | None => None end
    | None => None
    end
  else None.

Fixpoint visited (ordered : list ProxyPathStep) : list Z :=
  match ordered with
  | [] => []
  | step :: rest => option_list (stepServer (bool_decide (rest = [])) step) ++ visited rest
  end.

Notation step_ := (pathStep servers inbounds externals).
Notation run := (pathExitOf servers inbounds externals).

Definition newRole (final : bool) : string := if final then "exit" else "transit".

(** What a step adds to the roles. *)
Definition addsRole (final : bool) (step : ProxyPathStep) (s : Z) (x : string) : Prop :=
  stepServer final step = Some s ∧ x = newRole final ∧ s ≠ 0.

Lemma pathStep_roles final step e :
  NoDup (serversOf (PE_Roles e)) →
  NoDup (serversOf (PE_Roles (step_ final step e))) ∧
  (∀ s, s ∈ serversOf (PE_Roles (step_ final step e)) ↔ s ∈ serversOf (PE_Roles e) ∨ (stepServer final step = Some s ∧ s ≠ 0)) ∧
  (∀ s x, hasRole (PE_Roles (step_ final step e)) s x ↔ hasRole (PE_Roles e) s x ∨ addsRole final step s x).
Proof.
  intros Hnd. unfold addsRole, pathStep, stepServer. cbv zeta.
  assert (∀ id role, (NoDup (serversOf (addRole servers id role (PE_Roles e)))) ∧
     (∀ s, s ∈ serversOf (addRole servers id role (PE_Roles e)) ↔ s ∈ serversOf (PE_Roles e) ∨ (Some id = Some s ∧ s ≠ 0)) ∧
     (∀ s x, hasRole (addRole servers id role (PE_Roles e)) s x ↔ hasRole (PE_Roles e) s x ∨ (Some id = Some s ∧ x = role ∧ s ≠ 0))) as Hadd.
  { intros id role. split_and!; [by apply addRole_NoDup| |].
    - intros s. rewrite addRole_servers. naive_solver.
    - intros s x. rewrite addRole_hasRole by done. naive_solver. }
  assert (NoDup (serversOf (PE_Roles e)) ∧ (∀ s, s ∈ serversOf (PE_Roles e) ↔ s ∈ serversOf (PE_Roles e) ∨ (None = Some s ∧ s ≠ 0)) ∧
     (∀ s x, hasRole (PE_Roles e) s x ↔ hasRole (PE_Roles e) s x ∨ (None = Some s ∧ x = newRole final ∧ s ≠ 0))) as Hsame by naive_solver.
  destruct (_ =? ProxyPathStepVPNGate)%string; [by destruct final|].
  destruct (_ =? ProxyPathStepServerInbound)%string.
  { destruct (proxyPathStepTargetServer step (inboundByID inbounds)) as [[id o]|]; [|done]. destruct final; apply Hadd. }
  destruct (_ =? ProxyPathStepWARP)%string.
  { destruct (Step_ServerID step) as [id|]; [|done]. destruct final; apply Hadd. }
  destruct (_ =? ProxyPathStepImported)%string; [|done]. destruct final; [|by destruct (Step_ExternalOutboundID step)]. cbn [andb].
  destruct (Step_ExternalOutboundID step) as [xid|]; [|done]. unfold importedAt. cbv zeta.
  destruct (externals !! xid) as [external|]; [|done]. destruct (External_ServerID external) as [id|]; [|done].
  destruct (Z.eqb_spec id 0) as [->|]; [|apply Hadd]. split_and!; [done|naive_solver|naive_solver].
Qed.

Lemma pathStep_passing step e :
  PE_Kind (step_ false step e) = PE_Kind e ∧ PE_ServerID (step_ false step e) = PE_ServerID e.
Proof. unfold pathStep. cbv zeta. repeat case_match; done. Qed.

(** The exit of a path is the server its last step leads to, if any. *)
Lemma pathStep_exit step e :
  PE_Kind e = ""%string → PE_ServerID e = 0 →
  let e' := step_ true step e in
  (∀ s, s ≠ 0 → stepServer true step = Some s ↔ s = PE_ServerID e' ∧ PE_Kind e' ≠ "vpngate"%string).
Proof.
  intros Hk Hs. cbv zeta. unfold pathStep, stepServer. cbv zeta.
  destruct (_ =? ProxyPathStepVPNGate)%string; [cbn; naive_solver|].
  destruct (_ =? ProxyPathStepServerInbound)%string.
  { destruct (proxyPathStepTargetServer step (inboundByID inbounds)) as [[id o]|]; cbn; [naive_solver|rewrite Hk, Hs; naive_solver]. }
  destruct (_ =? ProxyPathStepWARP)%string.
  { destruct (Step_ServerID step) as [id|]; cbn; [naive_solver|rewrite Hk, Hs; naive_solver]. }
  destruct (_ =? ProxyPathStepImported)%string; cbn [andb]; [|rewrite Hk, Hs; naive_solver].
  destruct (Step_ExternalOutboundID step) as [xid|]; [|rewrite Hk, Hs; naive_solver].
  unfold importedAt. cbv zeta. destruct (externals !! xid) as [external|]; [|cbn; rewrite Hs; naive_solver].
  destruct (External_ServerID external) as [id|]; [|cbn; rewrite Hs; naive_solver].
  destruct (Z.eqb_spec id 0) as [->|]; cbn; [rewrite Hs|]; naive_solver.
Qed.

(** The whole route. *)
Lemma run_roles ordered e :
  NoDup (serversOf (PE_Roles e)) →
  NoDup (serversOf (PE_Roles (run ordered e))) ∧
  (∀ s, s ∈ serversOf (PE_Roles (run ordered e)) ↔ s ∈ serversOf (PE_Roles e) ∨ (s ∈ visited ordered ∧ s ≠ 0)) ∧
  (∀ s, hasRole (PE_Roles (run ordered e)) s "entry" ↔ hasRole (PE_Roles e) s "entry").
Proof.
  revert e; induction ordered as [|step rest IH]; intros e Hnd; cbn [pathExitOf visited]; [set_solver|].
  destruct (pathStep_roles (bool_decide (rest = [])) step e Hnd) as (Hnd' & Hserv & Hrole).
  destruct (IH _ Hnd') as (H1 & H2 & H3). split_and!; [done| |].
  - intros s. rewrite H2, Hserv, elem_of_app. destruct (stepServer _ step) as [id|]; cbn; [rewrite list_elem_of_singleton|rewrite elem_of_nil]; naive_solver.
  - intros s. rewrite H3, Hrole. unfold addsRole, newRole. split; [|auto]. intros [?|(_ & Hx & _)]; [done|]. by case_bool_decide.
Qed.

Lemma run_exit ordered e :
  ordered ≠ [] → NoDup (serversOf (PE_Roles e)) → PE_Kind e = ""%string → PE_ServerID e = 0 → (∀ s, ¬ hasRole (PE_Roles e) s "exit") →
  ∀ s, s ≠ 0 → hasRole (PE_Roles (run ordered e)) s "exit" ↔ s = PE_ServerID (run ordered e) ∧ PE_Kind (run ordered e) ≠ "vpngate"%string.
Proof.
  revert e; induction ordered as [|step rest IH]; intros e Hne Hnd Hk Hs Hno s Hs0; [done|]. cbn [pathExitOf].
  destruct (pathStep_roles (bool_decide (rest = [])) step e Hnd) as (Hnd' & _ & Hrole). destruct rest as [|step' rest].
  - rewrite bool_decide_eq_true_2 in * by done. cbn [pathExitOf]. rewrite Hrole. rewrite <-(pathStep_exit step e Hk Hs s Hs0).
    unfold addsRole, newRole. naive_solver.
  - rewrite bool_decide_eq_false_2 in * by done. destruct (pathStep_passing step e) as [Hk' Hs'].
    apply IH; [done|done|by rewrite Hk'|by rewrite Hs'| |done].
    intros t. rewrite Hrole. unfold addsRole, newRole. naive_solver.
Qed.
End pathRoles.

Lemma pathTopology_roles servers inbounds steps externals path t :
  pathTopology servers inbounds steps externals path = Some t →
  NoDup (serversOf (TP_ServerRoles t)) ∧
  (∀ s, s ∈ serversOf (TP_ServerRoles t) ↔ s ≠ 0 ∧ (s = TP_EntryServerID t ∨ s ∈ visited inbounds externals (stepsOf steps path))) ∧
  (∀ s, s ≠ 0 → hasRole (TP_ServerRoles t) s "entry" ↔ s = TP_EntryServerID t) ∧
  (∀ s, s ≠ 0 → hasRole (TP_ServerRoles t) s "exit" ↔ s = TP_ExitServerID t ∧ TP_ExitKind t ≠ "vpngate"%string).
Proof.
  unfold pathTopology. destruct (inboundByID inbounds !! ProxyPath_InboundID path) as [root|]; [|done]. cbv zeta. intros [= <-].
  cbn [TP_ServerRoles TP_EntryServerID TP_ExitServerID TP_ExitKind].
  set (entry := addRole servers (Inbound_ServerID root) "entry" []).
  assert (NoDup (serversOf entry)) as Hnd by (apply addRole_NoDup; constructor).
  assert (∀ s, s ∈ serversOf entry ↔ s = Inbound_ServerID root ∧ s ≠ 0) as Hentry.
  { intros s. unfold entry. rewrite addRole_servers. unfold serversOf. cbn. rewrite elem_of_nil. naive_solver. }
  assert (∀ s x, hasRole entry s x ↔ s = Inbound_ServerID root ∧ x = "entry"%string ∧ s ≠ 0) as Hrole.
  { intros s x. unfold entry. rewrite addRole_hasRole by constructor. unfold hasRole. setoid_rewrite elem_of_nil. naive_solver. }
  case_bool_decide as Hsteps.
  - cbn [PE_Roles PE_ServerID PE_Kind]. rewrite Hsteps. cbn [visited]. split_and!.
    + by apply addRole_NoDup.
    + intros s. rewrite addRole_servers, Hentry, elem_of_nil. naive_solver.
    + intros s Hs. rewrite addRole_hasRole, Hrole by done. naive_solver.
    + intros s Hs. rewrite addRole_hasRole, Hrole by done. naive_solver.
  - set (start := {| PE_Kind := ""; PE_ServerID := 0; PE_ServerName := ""; PE_External := 0; PE_Roles := entry;
                        PE_LastControlled := Inbound_ServerID root |}). set (e := pathExitOf servers inbounds externals (stepsOf steps path) start).
    cbn [PE_Roles PE_ServerID PE_Kind].
    destruct (run_roles servers inbounds externals (stepsOf steps path) start Hnd) as (H1 & H2 & H3). fold e in H1, H2, H3.
    assert (serversOf (sortRoles <$> PE_Roles e) = serversOf (PE_Roles e)) as Hsort by (unfold serversOf; by rewrite <-list_fmap_compose).
    split_and!.
    + by rewrite Hsort.
    + intros s. rewrite Hsort, H2. change (PE_Roles start) with entry. rewrite Hentry. naive_solver.
    + intros s Hs. rewrite hasRole_sort, H3. change (PE_Roles start) with entry. rewrite Hrole. naive_solver.
    + intros s Hs. assert (∀ u, ¬ hasRole (PE_Roles start) u "exit") as Hno.
      { intros u. change (PE_Roles start) with entry. rewrite Hrole. naive_solver. }
      pose proof (run_exit servers inbounds externals (stepsOf steps path) start Hsteps Hnd eq_refl eq_refl Hno s Hs) as Hx. fold e in Hx.
      rewrite hasRole_sort, Hx. destruct (String.eqb_spec (PE_Kind e) "") as [->|]; naive_solver.
Qed.

(** ** Keys of the catalog *)

Definition draftKey (d : draftNode) : string := NodeKeyOf (AN_Type (CN_Node (DN_Node d))) (AN_ID (CN_Node (DN_Node d))).

Lemma omap_keys_eq {A B K} (f : A → option B) (g : A → option K) {X} (kf : B → X) (kg : K → X) (l : list A) :
  (∀ a, kf <$> f a = kg <$> g a) → kf <$> omap f l = kg <$> omap g l.
Proof.
  intros H. induction l as [|a l IH]; [done|]. cbn [omap list_omap]. specialize (H a).
  destruct (f a), (g a); try done. rewrite !fmap_cons, IH. injection H as ->. done.
Qed.

Lemma NoDup_omap_key {A B} (f : A → option B) (id : A → Z) (key : B → string) (type : string) (l : list A) :
  (∀ a b, f a = Some b → key b = NodeKeyOf type (id a)) → NoDup (id <$> l) → NoDup (key <$> omap f l).
Proof.
  intros Hk. induction l as [|a l IH]; [intros _; constructor|]. rewrite fmap_cons. intros [Hn Hnd]%NoDup_cons. specialize (IH Hnd).
  cbn [omap list_omap]. destruct (f a) as [b|] eqn:Hb; [|done]. rewrite fmap_cons. constructor; [|done].
  intros (b' & Heq & Hb')%list_elem_of_fmap. apply list_elem_of_omap in Hb' as (a' & Ha' & Hf').
  rewrite (Hk a b Hb), (Hk a' b' Hf') in Heq. apply NodeKeyOf_inj in Heq as [_ Heq]. apply Hn. rewrite Heq. by apply list_elem_of_fmap_2.
Qed.

Section keys.
Context (servers : list Server) (inbounds : list Inbound) (steps : list ProxyPathStep).

Lemma inbound_keys paths i :
  draftKey <$> inboundDraft servers steps paths i = TP_NodeKey <$> inboundTopology servers steps paths i.
Proof. unfold inboundDraft, inboundTopology. by repeat case_match. Qed.

Lemma path_keys online externals p :
  draftKey <$> pathDraft servers inbounds steps online externals p = TP_NodeKey <$> pathTopology servers inbounds steps externals p.
Proof. unfold pathDraft, pathTopology. by destruct (inboundByID inbounds !! _). Qed.

Lemma external_keys x : draftKey <$> externalDraft x = TP_NodeKey <$> externalTopology servers x.
Proof. unfold externalDraft, externalTopology. by destruct (_ || _). Qed.

Definition topologyList (paths : list ProxyPath) (externals : list ExternalOutbound) : list AssignableNodeTopology :=
  omap (inboundTopology servers steps paths) inbounds ++ omap (pathTopology servers inbounds steps (indexBy External_ID externals)) paths ++
  omap (externalTopology servers) externals.

Lemma topology_key_inbound paths i t : inboundTopology servers steps paths i = Some t → TP_NodeKey t = NodeKeyOf AssignableNodeInbound (Inbound_ID i).
Proof. unfold inboundTopology. repeat case_match; try done. by intros [= <-]. Qed.
Lemma topology_key_path externals p t : pathTopology servers inbounds steps externals p = Some t → TP_NodeKey t = NodeKeyOf AssignableNodeProxyPath (ProxyPath_ID p).
Proof. unfold pathTopology. destruct (inboundByID inbounds !! _); [|done]. by intros [= <-]. Qed.
Lemma topology_key_external x t : externalTopology servers x = Some t → TP_NodeKey t = NodeKeyOf AssignableNodeExternalOutbound (External_ID x).
Proof. unfold externalTopology. destruct (_ || _); [done|]. by intros [= <-]. Qed.

Lemma topologyList_NoDup paths externals :
  NoDup (Inbound_ID <$> inbounds) → NoDup (ProxyPath_ID <$> paths) → NoDup (External_ID <$> externals) →
  NoDup (TP_NodeKey <$> topologyList paths externals).
Proof.
  intros Hi Hp Hx. unfold topologyList. rewrite !fmap_app.
  assert (∀ k, k ∈ TP_NodeKey <$> omap (inboundTopology servers steps paths) inbounds → ∃ id, k = NodeKeyOf AssignableNodeInbound id) as Ki.
  { intros k (t & -> & (i & _ & Ht)%list_elem_of_omap)%list_elem_of_fmap. rewrite (topology_key_inbound _ _ _ Ht). eauto. }
  assert (∀ k, k ∈ TP_NodeKey <$> omap (pathTopology servers inbounds steps (indexBy External_ID externals)) paths → ∃ id, k = NodeKeyOf AssignableNodeProxyPath id) as Kp.
  { intros k (t & -> & (i & _ & Ht)%list_elem_of_omap)%list_elem_of_fmap. rewrite (topology_key_path _ _ _ Ht). eauto. }
  assert (∀ k, k ∈ TP_NodeKey <$> omap (externalTopology servers) externals → ∃ id, k = NodeKeyOf AssignableNodeExternalOutbound id) as Kx.
  { intros k (t & -> & (i & _ & Ht)%list_elem_of_omap)%list_elem_of_fmap. rewrite (topology_key_external _ _ Ht). eauto. }
  apply NoDup_app. split_and!.
  - by apply (NoDup_omap_key _ Inbound_ID _ AssignableNodeInbound); [apply topology_key_inbound|].
  - intros k Hk. destruct (Ki k Hk) as [id ->]. rewrite elem_of_app. intros [H|H]; [apply Kp in H as [id' H]|apply Kx in H as [id' H]];
      apply NodeKeyOf_inj in H as [H _]; done.
  - apply NoDup_app. split_and!.
    + by apply (NoDup_omap_key _ ProxyPath_ID _ AssignableNodeProxyPath); [apply topology_key_path|].
    + intros k Hk. destruct (Kp k Hk) as [id ->]. intros H. apply Kx in H as [id' H]. apply NodeKeyOf_inj in H as [H _]; done.
    + by apply (NoDup_omap_key _ External_ID _ AssignableNodeExternalOutbound); [apply topology_key_external|].
Qed.
End keys.

(** ** What resolution leaves alone *)

Definition noExit : exitFields :=
  {| EX_Mode := ""; EX_Code := ""; EX_Detected := ""; EX_Effective := ""; EX_Source := ""; EX_Status := ""; EX_Error := ""; EX_ProbedAt := None |}.
Definition stablePath (p : ProxyPath) : ProxyPath := setExit noExit (setPathName "" p).
Definition stableExternal (x : ExternalOutbound) : ExternalOutbound := setRegion "" "" "" "" "" "" "" None x.

Lemma resolvePath_stable {C : EgressCodec} {MI : MapRange Z bool} paths steps servers inbounds externals results p :
  stablePath (resolvePath paths steps servers inbounds externals results p) = stablePath p.
Proof. unfold resolvePath. cbv zeta. by destruct (_ && _). Qed.

Lemma resolveExternal_stable {C : EgressCodec} {MI : MapRange Z bool} {MT : MapRange Z ExternalEgressProbeTarget}
    paths steps servers inbounds externals pathByID x :
  stableExternal (resolveExternal paths steps servers inbounds externals pathByID x) = stableExternal x.
Proof. unfold resolveExternal. cbv zeta. by repeat case_match. Qed.

Lemma fmap_stable {A B} (f : A → B) (g : A → A) (l : list A) : (∀ a, f (g a) = f a) → f <$> (g <$> l) = f <$> l.
Proof. intros H. rewrite <-list_fmap_compose. apply list_fmap_ext. intros i a _. apply H. Qed.

Lemma fmap_transfer {A B} (f : A → B) (P : A → Prop) (l l' : list A) :
  f <$> l = f <$> l' → (∀ a b, f a = f b → P a → P b) → (∃ a, a ∈ l ∧ P a) → ∃ b, b ∈ l' ∧ P b.
Proof.
  intros Hl HP (a & Ha & Hp). apply (list_elem_of_fmap_2 f) in Ha. rewrite Hl in Ha.
  apply list_elem_of_fmap in Ha as (b & Heq & Hb). eauto.
Qed.

Section catalogFacts.
Context {MS : MapRange Z string} {MN : MapRange string (list Z)}.
Context {D : ListenDecoder} {M : MapRange (string * string) (list nat)} {C : EgressCodec} {MI : MapRange Z bool}
        {MT : MapRange Z ExternalEgressProbeTarget}.
Context (input : AssignableNodeCatalogInput).

Notation servers := (CI_Servers input).
Notation inbounds := (CI_Inbounds input).
Notation steps := (CI_ProxyPathSteps input).

(** Identifiers are primary keys. *)
Record distinctIDs : Prop := {
  di_inbounds : NoDup (Inbound_ID <$> inbounds);
  di_paths : NoDup (ProxyPath_ID <$> CI_ProxyPaths input);
  di_externals : NoDup (External_ID <$> CI_ExternalOutbounds input) }.

Lemma topologies_total :
  distinctIDs → ∃ paths externals,
    ResolveAssignableNodeTopologies input = Some (topologiesOf servers inbounds steps paths externals, paths, externals) ∧
    stablePath <$> paths = stablePath <$> CI_ProxyPaths input ∧ stableExternal <$> externals = stableExternal <$> CI_ExternalOutbounds input.
Proof.
  intros [_ Hp _]. unfold ResolveAssignableNodeTopologies.
  destruct (resolved_names (M := M) (CI_ProxyPaths input) steps servers inbounds (CI_ExternalOutbounds input) Hp) as (named & -> & Her & _).
  unfold ResolveProxyPathExitRegions. cbv zeta. eexists _, _. split; [done|]. split.
  - rewrite fmap_stable by (intros; apply resolvePath_stable). change stablePath with (setExit noExit ∘ setPathName "").
    by rewrite !(list_fmap_compose (setPathName "")), Her.
  - apply fmap_stable. intros; apply resolveExternal_stable.
Qed.

Lemma stable_IDs paths : stablePath <$> paths = stablePath <$> CI_ProxyPaths input → ProxyPath_ID <$> paths = ProxyPath_ID <$> CI_ProxyPaths input.
Proof. intros H. change ProxyPath_ID with (ProxyPath_ID ∘ stablePath). by rewrite !(list_fmap_compose stablePath), H. Qed.

Lemma stable_externalIDs externals :
  stableExternal <$> externals = stableExternal <$> CI_ExternalOutbounds input → External_ID <$> externals = External_ID <$> CI_ExternalOutbounds input.
Proof. intros H. change External_ID with (External_ID ∘ stableExternal). by rewrite !(list_fmap_compose stableExternal), H. Qed.

(** The names of standalone entries are always found. *)
Lemma catalogNames_total paths externals :
  ∃ out, resolveSubscriptionNodeNames (catalogNameNodes servers inbounds steps paths externals) (catalogNameRefs servers inbounds steps paths externals) = Some out.
Proof.
  unfold catalogNameNodes, catalogNameRefs. cbv zeta.
  set (a := standaloneNameNodes servers inbounds steps paths). set (b := externalNameNodes externals).
  assert (∀ r, r ∈ imap (nameRefOf subscriptionNodeNameStandalone) a.*2 → (ref_index r < length a)%nat ∧ ref_kind r = 2) as Ha.
  { intros r (i & info & -> & Hi)%elem_of_lookup_imap. apply lookup_lt_Some in Hi. rewrite length_fmap in Hi. done. }
  assert (∀ r, r ∈ imap (λ i, nameRefOf subscriptionNodeNameExternal (length a + i)) b.*2 →
            (length a ≤ ref_index r < length a + length b)%nat ∧ ref_kind r = 1) as Hb.
  { intros r (i & info & -> & Hi)%elem_of_lookup_imap. apply lookup_lt_Some in Hi. rewrite length_fmap in Hi. cbn. split; [lia|done]. }
  assert (∀ (l : list (Z * Z * string)) kind off, NoDup (ref_index <$> imap (λ i, nameRefOf kind (off + i)) l)) as Hnd.
  { intros l kind off. apply NoDup_alt. intros i j x Hi Hj. rewrite list_lookup_fmap, list_lookup_imap in Hi, Hj.
    destruct (l !! i); [|done]. destruct (l !! j); [|done]. injection Hi as <-. injection Hj as Heq. lia. }
  destruct (source_names_distinct (a.*1 ++ b.*1) (imap (nameRefOf subscriptionNodeNameStandalone) a.*2 ++
     imap (λ i, nameRefOf subscriptionNodeNameExternal (length a + i)) b.*2)) as (out & Hout & _); [| | | |by exists out].
  - rewrite fmap_app. apply NoDup_app. split_and!; [exact (Hnd _ _ 0%nat)| |apply Hnd].
    intros k (r & -> & [Hr _]%Ha)%list_elem_of_fmap (r' & Heq & [Hr' _]%Hb)%list_elem_of_fmap. lia.
  - intros r. rewrite elem_of_app, length_app, !length_fmap. intros [[Hr _]%Ha|[Hr _]%Hb]; lia.
  - intros r. rewrite elem_of_app. intros [[_ ->]%Ha|[_ ->]%Hb]; lia.
  - replace (refsOf _ _) with (@nil subscriptionNodeNameRef); [constructor|]. symmetry. apply elem_of_nil_inv. intros r.
    rewrite refsOf_elem, elem_of_app, Z.eqb_eq. unfold subscriptionNodeNameProxyPath. intros [[[_ H]%Ha|[_ H]%Hb] H']; lia.
Qed.

(** Entries carry the topology of their key. *)
Definition entryOf (topologies : gmap string AssignableNodeTopology) (n : CatalogNode) : Prop :=
  ∃ t, topologies !! AN_Key (CN_Node n) = Some t ∧ AN_Key (CN_Node n) = NodeKeyOf (AN_Type (CN_Node n)) (AN_ID (CN_Node n)) ∧
    AN_EntryKey (CN_Node n) = TP_EntryKey t ∧ AN_ExitServerID (CN_Node n) = TP_ExitServerID t ∧
    AN_ExitExternalOutboundID (CN_Node n) = TP_ExitExternalOutboundID t ∧ AN_PathServers (CN_Node n) = serversOf (TP_ServerRoles t).

Lemma applyTopology_key topologies n : AN_Key (CN_Node (applyTopology topologies n)) = NodeKeyOf (AN_Type (CN_Node n)) (AN_ID (CN_Node n)).
Proof. unfold applyTopology. cbv zeta. by destruct (topologies !! _). Qed.

Lemma nameEntry_node metadata name region n : CN_Node (nameEntry metadata name region n) = CN_Node n.
Proof. done. Qed.

Lemma applyTopology_entry topologies n metadata name region :
  is_Some (topologies !! NodeKeyOf (AN_Type (CN_Node n)) (AN_ID (CN_Node n))) → entryOf topologies (nameEntry metadata name region (applyTopology topologies n)).
Proof.
  intros [t Ht]. exists t. rewrite nameEntry_node, applyTopology_key. split; [done|].
  unfold applyTopology. cbv zeta. rewrite Ht. done.
Qed.

Lemma drafts_keys paths externals :
  draftKey <$> catalogDrafts input paths externals = TP_NodeKey <$> topologyList servers inbounds steps paths externals.
Proof.
  unfold catalogDrafts, topologyList. cbv zeta. rewrite !fmap_app. f_equal; [|f_equal].
  - apply omap_keys_eq. intros; apply inbound_keys.
  - apply omap_keys_eq. intros; apply path_keys.
  - apply omap_keys_eq. intros; apply external_keys.
Qed.

Lemma catalog_entries :
  distinctIDs → ∃ topologies paths externals nodes,
    ResolveAssignableNodeTopologies input = Some (topologies, paths, externals) ∧ BuildAssignableNodeCatalog input = Some nodes ∧
    (AN_Key ∘ CN_Node) <$> nodes ≡ₚ TP_NodeKey <$> topologyList servers inbounds steps paths externals ∧
    NoDup ((AN_Key ∘ CN_Node) <$> nodes) ∧ StronglySorted (le_of (ltc entryCmp)) nodes ∧ (∀ n, n ∈ nodes → entryOf topologies n).
Proof.
  intros Hids. destruct (topologies_total Hids) as (paths & externals & Ht & Hp & Hx).
  destruct (catalogNames_total paths externals) as [nameNodes Hn]. destruct Hids as [Hi Hpi Hxi].
  eexists _, paths, externals. unfold BuildAssignableNodeCatalog. rewrite Ht. cbv zeta. rewrite Hn. eexists. split; [done|]. split; [done|].
  set (topologies := topologiesOf _ _ _ _ _). set (finish := λ d, nameEntry _ _ _ _).
  assert ((AN_Key ∘ CN_Node) <$> (finish <$> catalogDrafts input paths externals) = TP_NodeKey <$> topologyList servers inbounds steps paths externals) as Hkeys.
  { rewrite <-drafts_keys, <-list_fmap_compose. apply list_fmap_ext. intros i d _. unfold finish. cbn [compose].
    unfold compose. by rewrite nameEntry_node, applyTopology_key. }
  assert (NoDup (TP_NodeKey <$> topologyList servers inbounds steps paths externals)) as Hnd.
  { apply topologyList_NoDup; [done|by rewrite (stable_IDs _ Hp)|by rewrite (stable_externalIDs _ Hx)]. }
  split_and!.
  - by rewrite sort_slice_perm, Hkeys.
  - by rewrite sort_slice_perm, Hkeys.
  - apply sort_slice_sorted, _.
  - intros n (d & -> & Hd)%elem_of_sort_slice%list_elem_of_fmap. apply applyTopology_entry.
    change (is_Some (topologies !! draftKey d)). apply indexBy_is_Some. apply (list_elem_of_fmap_2 draftKey) in Hd. rewrite drafts_keys in Hd.
    apply list_elem_of_fmap in Hd as (t & Heq & Hin). eauto.
Qed.
End catalogFacts.

(** ** Contracts *)

(** The nodes that can be assigned: inbounds without active paths on known servers, paths
    with a known inbound, imported nodes exposed to users. *)
Definition assignable (input : AssignableNodeCatalogInput) (key : string) : Prop :=
  (∃ i, i ∈ CI_Inbounds input ∧ (Inbound_Enabled i = true ∧ is_Some (indexBy Server_ID (CI_Servers input) !! Inbound_ServerID i) ∧
     (∀ p, p ∈ CI_ProxyPaths input → ProxyPath_InboundID p = Inbound_ID i → pathActive (CI_ProxyPathSteps input) p = false) ∧
     key = NodeKeyOf AssignableNodeInbound (Inbound_ID i))) ∨
  (∃ p, p ∈ CI_ProxyPaths input ∧ (is_Some (indexBy Inbound_ID (CI_Inbounds input) !! ProxyPath_InboundID p) ∧
     key = NodeKeyOf AssignableNodeProxyPath (ProxyPath_ID p))) ∨
  (∃ x, x ∈ CI_ExternalOutbounds input ∧ (External_Enabled x = true ∧ External_ExposeToUsers x = true ∧
     key = NodeKeyOf AssignableNodeExternalOutbound (External_ID x))).

Lemma elem_of_omap_keys {A B} (f : A → option B) (key : B → string) (l : list A) k :
  k ∈ key <$> omap f l ↔ ∃ a, a ∈ l ∧ ∃ b, f a = Some b ∧ k = key b.
Proof. rewrite list_elem_of_fmap. setoid_rewrite list_elem_of_omap. naive_solver. Qed.

Lemma topologyList_assignable input paths externals key :
  stablePath <$> paths = stablePath <$> CI_ProxyPaths input → stableExternal <$> externals = stableExternal <$> CI_ExternalOutbounds input →
  key ∈ TP_NodeKey <$> topologyList (CI_Servers input) (CI_Inbounds input) (CI_ProxyPathSteps input) paths externals ↔ assignable input key.
Proof.
  intros Hp Hx. unfold topologyList, assignable. rewrite !fmap_app, !elem_of_app, !elem_of_omap_keys. f_equiv; [|f_equiv].
  - apply exist_proper. intros i. f_equiv.
    assert (subscriptionBranchesForInbound i paths (CI_ProxyPathSteps input) = [] ↔
      ∀ p, p ∈ CI_ProxyPaths input → ProxyPath_InboundID p = Inbound_ID i → pathActive (CI_ProxyPathSteps input) p = false) as Hb.
    { rewrite branches_nil. split; intros Hn p Hin Hid; destruct (pathActive _ p) eqn:Ha; try done; exfalso.
      - destruct (fmap_transfer stablePath (λ p, ProxyPath_InboundID p = Inbound_ID i ∧ pathActive (CI_ProxyPathSteps input) p = true) _ _ (eq_sym Hp)) as (q & Hq & Hqi & Hqa).
        { intros a b Heq [H1 H2]. split; [apply (f_equal ProxyPath_InboundID) in Heq; cbn in Heq; congruence|].
          change (pathActive (CI_ProxyPathSteps input) (stablePath b) = true). by rewrite <-Heq. }
        { eauto. }
        by rewrite (Hn q) in Hqa.
      - destruct (fmap_transfer stablePath (λ p, ProxyPath_InboundID p = Inbound_ID i ∧ pathActive (CI_ProxyPathSteps input) p = true) _ _ Hp) as (q & Hq & Hqi & Hqa).
        { intros a b Heq [H1 H2]. split; [apply (f_equal ProxyPath_InboundID) in Heq; cbn in Heq; congruence|].
          change (pathActive (CI_ProxyPathSteps input) (stablePath b) = true). by rewrite <-Heq. }
        { eauto. }
        by rewrite (Hn q) in Hqa. }
    rewrite <-Hb. unfold inboundTopology, serverByID. destruct (Inbound_Enabled i); cbn [negb]; [|naive_solver].
    rewrite bool_decide_decide. destruct (decide _) as [->|Hne]; cbn [negb]; [|naive_solver].
    destruct (indexBy Server_ID (CI_Servers input) !! Inbound_ServerID i) as [server|]; [|split; [naive_solver|intros (_ & [? ?] & _); done]].
    split; [intros (b & [= <-] & ->); eauto|intros (_ & _ & _ & ->); eauto].
  - assert (∀ p, (∃ b, pathTopology (CI_Servers input) (CI_Inbounds input) (CI_ProxyPathSteps input) (indexBy External_ID externals) p = Some b ∧ key = TP_NodeKey b) ↔
      is_Some (indexBy Inbound_ID (CI_Inbounds input) !! ProxyPath_InboundID p) ∧ key = NodeKeyOf AssignableNodeProxyPath (ProxyPath_ID p)) as Hpt.
    { intros p. split.
      - intros (b & Hb & ->). split; [|by eapply topology_key_path]. unfold pathTopology, inboundByID in Hb. by destruct (indexBy _ _ !! _).
      - intros [[root Hr] ->]. unfold pathTopology, inboundByID. rewrite Hr. eexists. split; [done|]. done. }
    setoid_rewrite Hpt. split; apply (fmap_transfer stablePath); try done; intros a b Heq [H1 ->];
      pose proof (f_equal ProxyPath_InboundID Heq) as Hin; pose proof (f_equal ProxyPath_ID Heq) as Hid; cbn in Hin, Hid; rewrite <-Hin, <-Hid; done.
  - assert (∀ x, (∃ b, externalTopology (CI_Servers input) x = Some b ∧ key = TP_NodeKey b) ↔
      External_Enabled x = true ∧ External_ExposeToUsers x = true ∧ key = NodeKeyOf AssignableNodeExternalOutbound (External_ID x)) as Hxt.
    { intros x. split.
      - intros (b & Hb & ->). pose proof (topology_key_external _ _ _ Hb). unfold externalTopology in Hb. destruct (_ || _) eqn:Hg; [done|]. bprop. done.
      - intros (H1 & H2 & ->). unfold externalTopology. rewrite H1, H2. eexists. split; [done|]. done. }
    setoid_rewrite Hxt. split; apply (fmap_transfer stableExternal); try done; intros a b Heq (H1 & H2 & ->);
      pose proof (f_equal External_Enabled Heq) as He; pose proof (f_equal External_ExposeToUsers Heq) as Hs; pose proof (f_equal External_ID Heq) as Hid;
      cbn in He, Hs, Hid; rewrite <-He, <-Hs, <-Hid; done.
Qed.

(** C15. With distinct identifiers the catalog is always built; it lists every assignable node
    exactly once, ordered by type and identifier, and every entry carries the topology of its
    node. *)
Theorem catalog_complete {MS : MapRange Z string} {MN : MapRange string (list Z)} {D : ListenDecoder}
    {M : MapRange (string * string) (list nat)} {C : EgressCodec} {MI : MapRange Z bool} {MT : MapRange Z ExternalEgressProbeTarget} input :
  distinctIDs input →
  ∃ topologies paths externals nodes,
    ResolveAssignableNodeTopologies input = Some (topologies, paths, externals) ∧ BuildAssignableNodeCatalog input = Some nodes ∧
    (∀ key, key ∈ (AN_Key ∘ CN_Node) <$> nodes ↔ assignable input key) ∧ NoDup ((AN_Key ∘ CN_Node) <$> nodes) ∧
    StronglySorted (le_of (ltc entryCmp)) nodes ∧ ∀ n, n ∈ nodes → entryOf topologies n.
Proof.
  intros Hids. destruct (topologies_total input Hids) as (paths' & externals' & Ht & Hp & Hx).
  destruct (catalog_entries input Hids) as (topologies & paths & externals & nodes & Ht' & Hc & Hkeys & Hnd & Hs & He).
  exists topologies, paths, externals, nodes. split_and!; [done|done| |done|done|done]. intros key. rewrite Hkeys.
  rewrite Ht in Ht'. injection Ht' as _ -> ->. by apply topologyList_assignable.
Qed.

(** In the topology of a path every server is listed once, the servers are those of its entry
    and its steps, the entry role marks the entry server, and the exit role marks the exit
    server unless the path leaves through VPNGate. *)
Theorem path_server_roles servers inbounds steps externals path t :
  pathTopology servers inbounds steps externals path = Some t →
  NoDup (serversOf (TP_ServerRoles t)) ∧
  (∀ s, s ∈ serversOf (TP_ServerRoles t) ↔ s ≠ 0 ∧ (s = TP_EntryServerID t ∨ s ∈ visited inbounds externals (stepsOf steps path))) ∧
  ∀ r, r ∈ TP_ServerRoles t →
    (("entry"%string ∈ RL_Roles r) ↔ RL_ServerID r = TP_EntryServerID t) ∧
    (("exit"%string ∈ RL_Roles r) ↔ RL_ServerID r = TP_ExitServerID t ∧ TP_ExitKind t ≠ "vpngate"%string).
Proof.
  intros Ht. destruct (pathTopology_roles _ _ _ _ _ _ Ht) as (Hnd & Hserv & Hentry & Hexit). split_and!; [done..|].
  intros r Hr. assert (RL_ServerID r ≠ 0) as Hs0 by (apply Hserv; by apply list_elem_of_fmap_2).
  split; rewrite (hasRole_at (TP_ServerRoles t)) by done; [by apply Hentry|by apply Hexit].
Qed.

(** A membership rule on a server selects a path entry of the catalog exactly when the path
    enters at, passes or leaves through the server. *)
Theorem path_server_rule_selects {MS : MapRange Z string} {MN : MapRange string (list Z)} {D : ListenDecoder}
    {M : MapRange (string * string) (list nat)} {C : EgressCodec} {MI : MapRange Z bool} {MT : MapRange Z ExternalEgressProbeTarget}
    input topologies paths externals nodes n path serverID ruleID :
  distinctIDs input → ResolveAssignableNodeTopologies input = Some (topologies, paths, externals) →
  BuildAssignableNodeCatalog input = Some nodes → n ∈ nodes → path ∈ paths →
  AN_Key (CN_Node n) = NodeKeyOf AssignableNodeProxyPath (ProxyPath_ID path) →
  let rule := {| PlanMembershipRule_RuleID := ruleID; PlanMembershipRule_Kind := PlanRulePathServer;
                 PlanMembershipRule_ScopeKey := FormatInt serverID |} in
  planMembershipRuleMatches rule (CN_Node n) = true ↔
  serverID ≠ 0 ∧ ∃ root, indexBy Inbound_ID (CI_Inbounds input) !! ProxyPath_InboundID path = Some root ∧
    (serverID = Inbound_ServerID root ∨
     serverID ∈ visited (CI_Inbounds input) (indexBy External_ID externals) (stepsOf (CI_ProxyPathSteps input) path)).
Proof.
  intros Hids Ht Hc Hn Hpath Hkey. cbv zeta. destruct (topologies_total input Hids) as (paths' & externals' & Ht' & Hp & Hx).
  destruct (catalog_entries input Hids) as (topologies' & paths'' & externals'' & nodes' & Ht'' & Hc' & _ & _ & _ & He).
  rewrite Ht in Ht', Ht''. injection Ht' as -> -> ->. injection Ht'' as <- <- <-. rewrite Hc in Hc'. injection Hc' as <-.
  destruct (He n Hn) as (t & Htop & _ & _ & _ & _ & Hserv). rewrite Hkey in Htop.
  assert (pathTopology (CI_Servers input) (CI_Inbounds input) (CI_ProxyPathSteps input) (indexBy External_ID externals') path = Some t) as Hpt.
  { unfold topologiesOf in Htop. apply indexBy_Some in Htop as [Hin Hk]. rewrite !elem_of_app in Hin.
    destruct Hin as [Hin|[Hin|Hin]]; apply list_elem_of_omap in Hin as (a & Ha & Hat).
    - rewrite (topology_key_inbound _ _ _ _ _ Hat) in Hk. by apply NodeKeyOf_inj in Hk as [? _].
    - rewrite (topology_key_path _ _ _ _ _ _ Hat) in Hk. apply NodeKeyOf_inj in Hk as [_ Hk].
      assert (a = path) as ->; [|done]. apply (NoDup_fmap_key ProxyPath_ID paths'); [|done..].
      rewrite (stable_IDs input _ Hp). by destruct Hids.
    - rewrite (topology_key_external _ _ _ Hat) in Hk. by apply NodeKeyOf_inj in Hk as [? _]. }
  destruct (pathTopology_roles _ _ _ _ _ _ Hpt) as (_ & Hvis & _).
  unfold planMembershipRuleMatches. cbn [PlanMembershipRule_Kind PlanMembershipRule_ScopeKey]. cbn. rewrite Hserv.
  transitivity (serverID ∈ serversOf (TP_ServerRoles t)).
  - rewrite List.existsb_exists. split.
    + intros (id & Hid & Heq%String.eqb_eq). apply (inj (pretty : Z → string)) in Heq as ->. by apply list_elem_of_In.
    + intros Hin. exists serverID. split; [by apply list_elem_of_In|apply String.eqb_refl].
  - rewrite Hvis. f_equiv. unfold pathTopology, inboundByID in Hpt.
    destruct (indexBy Inbound_ID (CI_Inbounds input) !! ProxyPath_InboundID path) as [root|]; [|done]. injection Hpt as <-. cbn. naive_solver.
Qed.

(** ** A catalog *)

Definition catalogInput : AssignableNodeCatalogInput :=
  {| CI_Servers := [nameServer 1 "A"; nameServer 2 "B"; nameServer 3 "A｜B"];
     CI_Inbounds := [nameInbound 10 1 "entry"; nameInbound 30 3 "solo"];
     CI_ProxyPaths := [namePath 1 "" "" [] 10; namePath 2 "" "" [] 10; namePath 4 "" "" [] 10];
     CI_ProxyPathSteps := [nameStep 1 1 1 ProxyPathStepServerInbound (Some 2) None; nameStep 2 1 2 ProxyPathStepImported None (Some 7);
                           nameStep 3 2 1 ProxyPathStepServerInbound (Some 2) None;
                           nameStep 4 4 1 ProxyPathStepServerInbound (Some 3) None; nameStep 5 4 2 ProxyPathStepVPNGate None None];
     CI_EgressResults := []; CI_ExternalOutbounds := [exitExternal 7]; CI_ServerOnline := Some {[1 := true]};
     CI_NodeMetadata := {[NodeKeyOf AssignableNodeProxyPath 1 := {| MD_DisplayNameOverride := Some " mine "%string; MD_LockVersion := 3 |}]} |}.

Notation catalogRun :=
  (BuildAssignableNodeCatalog (MS := map_range_default _ _) (MN := map_range_default _ _) (D := nameDecoder) (M := map_range_default _ _)
     (C := exitCodec) (MI := map_range_default _ _) (MT := map_range_default _ _) catalogInput).
Notation topologyRun :=
  (ResolveAssignableNodeTopologies (D := nameDecoder) (M := map_range_default _ _)
     (C := exitCodec) (MI := map_range_default _ _) (MT := map_range_default _ _) catalogInput).

Definition entrySummary (n : CatalogNode) :=
  (AN_Key (CN_Node n), CN_SourceName n, CN_EffectiveGlobalName n, CN_Status n,
   (λ r, (RL_ServerID r, RL_Roles r)) <$> CN_PathServers n, CN_PathSummary n).

Example catalog_example :
  fmap (M := list) entrySummary <$> catalogRun =
  Some [("external_outbound:7", "import", "import", "ok", [], []);
        ("inbound:30", "A｜B", "A｜B", "ok", [(3, ["entry"; "exit"])], []);
        ("proxy_path:1", "A｜import", "mine", "ok", [(1, ["entry"]); (2, ["transit"])], ["A"; "B"; "import"]);
        ("proxy_path:2", "A｜B", "A｜B", "ok", [(1, ["entry"]); (2, ["exit"])], ["A"; "B"]);
        ("proxy_path:4", "A｜VPNGate", "A｜VPNGate", "ok", [(1, ["entry"]); (3, ["transit"])], ["A"; "A｜B"; "VPNGate"])]%string.
Proof. vm_compute. reflexivity. Qed.

Lemma catalogInput_distinct : distinctIDs catalogInput.
Proof. split; apply (bool_decide_unpack _); vm_compute; exact I. Qed.

Lemma catalog_complete_witness :
  ∃ nodes, catalogRun = Some nodes ∧ NoDup ((AN_Key ∘ CN_Node) <$> nodes).
Proof.
  destruct (catalog_complete (MS := map_range_default _ _) (MN := map_range_default _ _) (D := nameDecoder) (M := map_range_default _ _)
     (C := exitCodec) (MI := map_range_default _ _) (MT := map_range_default _ _) catalogInput) as (_ & _ & _ & nodes & _ & H & _ & Hnd & _);
    [apply catalogInput_distinct|eauto].
Defined.

Lemma path_server_roles_witness :
  ∃ t, pathTopology (CI_Servers catalogInput) (CI_Inbounds catalogInput) (CI_ProxyPathSteps catalogInput) ∅ (namePath 4 "" "" [] 10) = Some t ∧
    TP_ExitKind t = "vpngate"%string ∧ TP_ExitServerID t = 3 ∧ NoDup (serversOf (TP_ServerRoles t)).
Proof.
  destruct (pathTopology (CI_Servers catalogInput) (CI_Inbounds catalogInput) (CI_ProxyPathSteps catalogInput) ∅ (namePath 4 "" "" [] 10)) as [t|] eqn:Ht;
    [|vm_compute in Ht; discriminate].
  destruct (path_server_roles _ _ _ _ _ _ Ht) as [Hnd _]. exists t. split; [done|].
  vm_compute in Ht. injection Ht as <-. split_and!; [done..|exact Hnd].
Defined.

Lemma catalog_second_path :
  match topologyRun, catalogRun with
  | Some (_, paths, externals), Some nodes =>
      match paths !! 1%nat, nodes !! 3%nat with
      | Some path, Some n =>
          AN_Key (CN_Node n) = NodeKeyOf AssignableNodeProxyPath (ProxyPath_ID path) ∧ ProxyPath_InboundID path = 10 ∧
          visited (CI_Inbounds catalogInput) (indexBy External_ID externals) (stepsOf (CI_ProxyPathSteps catalogInput) path) = [2]
      | _, _ => False
      end
  | _, _ => False
  end.
Proof. vm_compute. done. Qed.

Lemma path_server_rule_selects_witness :
  ∃ nodes n, catalogRun = Some nodes ∧ n ∈ nodes ∧
    planMembershipRuleMatches {| PlanMembershipRule_RuleID := 1; PlanMembershipRule_Kind := PlanRulePathServer;
                                 PlanMembershipRule_ScopeKey := FormatInt 2 |} (CN_Node n) = true.
Proof.
  pose proof catalog_second_path as H. revert H.
  destruct topologyRun as [[[topologies paths] externals]|] eqn:Ht; [|intros []]. destruct catalogRun as [nodes|] eqn:Hc; [|intros []].
  destruct (paths !! 1%nat) as [path|] eqn:Hp; [|intros []]. destruct (nodes !! 3%nat) as [n|] eqn:Hn; [|intros []].
  intros (Hkey & Hin & Hv).
  pose proof (path_server_rule_selects _ _ _ _ _ n path 2 1 catalogInput_distinct Ht Hc (list_elem_of_lookup_2 _ _ _ Hn)
    (list_elem_of_lookup_2 _ _ _ Hp) Hkey) as [_ Hsel].
  exists nodes, n. split_and!; [reflexivity|exact (list_elem_of_lookup_2 _ _ _ Hn)|]. apply Hsel. split; [lia|].
  exists (nameInbound 10 1 "entry"). rewrite Hin, Hv. split; [reflexivity|]. right. left.
Defined.

(** The catalog does not reserve the names of paths: a standalone entry can have the source name of
    a path, where a subscription with both nodes names it differently. *)
Theorem catalog_name_diverges :
  (λ n, (AN_Key (CN_Node n), CN_SourceName n)) <$> List.filter (λ n, (CN_SourceName n =? "A｜B")%string) (default [] catalogRun) =
    [("inbound:30", "A｜B"); ("proxy_path:2", "A｜B")]%string ∧
  fmap (M := list) NN_Name <$> resolveSubscriptionNodeNames (MS := map_range_default _ _) (MN := map_range_default _ _)
    [demoNode AssignableNodeProxyPath 2 "A｜B" zeroServer; demoNode AssignableNodeInbound 30 "" (nameServer 3 "A｜B")]
    [demoRef 0 0 2 1 "JP"; demoRef 1 2 30 3 "JP"] = Some ["A｜B"; "A｜B｜01"]%string.
Proof. vm_compute. done. Qed.
