(* ===== verification/PlanPreview.v ===== *)
(** * Previews of plan changes ([internal/core/assignable_nodes.go], [internal/core/proxy_paths.go])

    Before operators assign a plan or change its nodes they see which users gain or lose which
    nodes, and which servers have to be synchronized: those that authenticate the users of the
    changed nodes.  The same resolution of servers drives the deployment of access changes. *)

From S2P Require Import Prelude Model NodeKeys NetAddr ListenResources AccessSnapshot ProxyPathNames.

Local Open Scope Z_scope.

(** ** The server that authenticates the users of a path *)

(** The loop over the steps: [None] is its end or a [break]. *)
Fixpoint processingServer (ordered : list ProxyPathStep) (inbounds : list Inbound) : option Z :=
  match ordered with
  | [] => None
  | step :: rest =>
      if negb (transportMode step =? ProxyPathTransportPortForward)%string then None
      else if negb (Step_ProcessingRole step) then processingServer rest inbounds
      else if isSet (Step_ServerID step) then Step_ServerID step
      else if isSet (Step_InboundID step) then
        match List.find (λ i, Inbound_ID i =? default 0 (Step_InboundID step)) inbounds with
        | Some inbound => Some (Inbound_ServerID inbound)
        | None => processingServer rest inbounds
        end
      else processingServer rest inbounds
  end.

Definition ProxyPathAccountingServerID (path : ProxyPath) (steps : list ProxyPathStep) (inbounds : list Inbound) : option Z :=
  let root := match List.find (λ i, (Inbound_ID i =? ProxyPath_InboundID path) && Inbound_Enabled i) inbounds with
              | Some inbound => Inbound_ServerID inbound
              | None => 0
              end in
  if negb (ProxyPath_Enabled path) || (root =? 0) then None
  else Some (default root (processingServer (orderedProxyPathSteps steps) inbounds)).

(** ** Sets as maps of booleans *)

Section sets.
Context {MK : MapRange string bool} {MI : MapRange Z bool}.

Definition sortedKeys (set : gmap string bool) : list string := sort_strings (fst <$> map_range set).
Definition sortedInt64Keys (set : gmap Z bool) : list Z := sort_ints (fst <$> map_range set).

Definition UnionInt64IDs (parts : list (list Z)) : list Z :=
  sortedInt64Keys (foldl (λ set id, if 0 <? id then <[id := true]> set else set) ∅ (List.concat parts)).

(** ** Affected servers *)

Record affected := {
  AF_Servers : gmap Z bool;
  AF_Paths : nat;
  AF_Offline : gmap Z bool }.

(** [serverOnline[id]] of a map that may be nil. *)
Definition markServer (online : gmap Z bool) (serverID : Z) (paths : nat) (a : affected) : affected :=
  {| AF_Servers := <[serverID := true]> (AF_Servers a); AF_Paths := paths + AF_Paths a;
     AF_Offline := if mget online serverID then AF_Offline a else <[serverID := true]> (AF_Offline a) |}.

Section topology.
Context (paths : list ProxyPath) (steps : list ProxyPathStep) (inbounds : list Inbound) (online : gmap Z bool).

Definition affectKey (key : string) (a : affected) : affected :=
  match ParseNodeKey key with
  | None => a
  | Some (nodeType, nodeID) =>
      if (nodeType =? AssignableNodeProxyPath)%string then
        match List.find (λ p, ProxyPath_ID p =? nodeID) paths with
        | None => a
        | Some path =>
            match ProxyPathAccountingServerID path (mlist (groupBy Step_PathID steps) (ProxyPath_ID path)) inbounds with
            | Some serverID => if serverID =? 0 then a else markServer online serverID 1 a
            | None => a
            end
        end
      else if (nodeType =? AssignableNodeInbound)%string then
        match indexBy Inbound_ID inbounds !! nodeID with
        | Some inbound => markServer online (Inbound_ServerID inbound) 0 a
        | None => a
        end
      else a
  end.

Definition affectedAuthServers (keys : gmap string bool) : list Z * nat * list Z :=
  let a := foldl (λ a '(key, _), affectKey key a) {| AF_Servers := ∅; AF_Paths := 0; AF_Offline := ∅ |} (map_range keys) in
  (sortedInt64Keys (AF_Servers a), AF_Paths a, sortedInt64Keys (AF_Offline a)).
End topology.

Definition AffectedServersFromTopologyUnion (keys : gmap string bool) (beforePaths afterPaths : list ProxyPath)
    (beforeSteps afterSteps : list ProxyPathStep) (beforeInbounds afterInbounds : list Inbound) (online : gmap Z bool) : list Z :=
  if bool_decide (size keys = 0%nat) then []
  else UnionInt64IDs [(affectedAuthServers beforePaths beforeSteps beforeInbounds online keys).1.1;
                      (affectedAuthServers afterPaths afterSteps afterInbounds online keys).1.1].

(** ** Differences of projections *)

(** Multiset equality by counting. *)
Fixpoint consumeSeen (seen : gmap Z nat) (ids : list Z) : bool :=
  match ids with
  | [] => true
  | id :: ids => match default 0%nat (seen !! id) with
                 | 0%nat => false
                 | S n => consumeSeen (<[id := n]> seen) ids
                 end
  end.

Definition sameInt64Set (l r : list Z) : bool :=
  if negb (Nat.eqb (length l) (length r)) then false
  else consumeSeen (foldl (λ m id, <[id := S (default 0%nat (m !! id))]> m) ∅ l) r.

Context {ML : MapRange Z (list Z)}.

Definition markUsers (nodeType : string) (users : gmap Z (list Z)) (keys : gmap string bool) : gmap string bool :=
  foldl (λ keys '(id, us), if (0 <? id) && negb (bool_decide (us = [])) then <[NodeKeyOf nodeType id := true]> keys else keys)
        keys (map_range users).

Definition NodeKeysFromAccessProjection (projection : AccessProjection) : gmap string bool :=
  markUsers AssignableNodeProxyPath (Proj_ProxyPathUsers projection)
    (markUsers AssignableNodeInbound (Proj_InboundUsers projection) ∅).

Definition diffKey (before after : AccessProjection) (key : string) (diff : gmap string bool) : gmap string bool :=
  match ParseNodeKey key with
  | None => diff
  | Some (nodeType, nodeID) =>
      let changed (b a : gmap Z (list Z)) := if sameInt64Set (mlist b nodeID) (mlist a nodeID) then diff else <[key := true]> diff in
      if (nodeType =? AssignableNodeInbound)%string then changed (Proj_InboundUsers before) (Proj_InboundUsers after)
      else if (nodeType =? AssignableNodeProxyPath)%string then changed (Proj_ProxyPathUsers before) (Proj_ProxyPathUsers after)
      else diff
  end.

Definition AccessProjectionMembershipDiffKeys (before after : AccessProjection) : gmap string bool :=
  let mark keys set := foldl (λ keys '(key, _), <[key := true]> keys) keys (map_range set) in
  let keys := mark (mark ∅ (NodeKeysFromAccessProjection before)) (NodeKeysFromAccessProjection after) in
  foldl (λ diff '(key, _), diffKey before after key diff) ∅ (map_range keys).

Definition AffectedServersFromAccessProjections (before after : AccessProjection) (paths : list ProxyPath)
    (steps : list ProxyPathStep) (inbounds : list Inbound) (online : gmap Z bool) : list Z :=
  let keys := AccessProjectionMembershipDiffKeys before after in
  if bool_decide (size keys = 0%nat) then [] else (affectedAuthServers paths steps inbounds online keys).1.1.
End sets.

(** ** Access of users for a preview *)

Section state.
Context {MK : MapRange string bool}.

Record planAccessState := {
  PS_plansByID : gmap Z SubscriptionPlan;
  PS_planNodesByPlan : gmap Z (list SubscriptionPlanNode);
  PS_bindingByUser : gmap Z UserPlanBinding;
  PS_exceptionsByUser : gmap Z (list UserNodeException);
  PS_effective : gmap Z (gmap string bool);
  PS_activeUsers : gset Z;
  PS_now : Z }.

(** The nodes of a user, from the binding, the plans, the nodes of plans and the exceptions. *)
Definition computeUser (st : planAccessState) (userID : Z) : gmap string bool :=
  let binding := PS_bindingByUser st !! userID in
  let plan := match binding with Some b => PS_plansByID st !! UserPlanBinding_PlanID b | None => None end in
  let planID := match binding with Some b => UserPlanBinding_PlanID b | None => 0 end in
  UserEffectiveNodeSet plan (mlist (PS_planNodesByPlan st) planID) (mlist (PS_exceptionsByUser st) userID) (PS_now st).

Definition setEffective (effective : gmap Z (gmap string bool)) (st : planAccessState) : planAccessState :=
  {| PS_plansByID := PS_plansByID st; PS_planNodesByPlan := PS_planNodesByPlan st; PS_bindingByUser := PS_bindingByUser st;
     PS_exceptionsByUser := PS_exceptionsByUser st; PS_effective := effective; PS_activeUsers := PS_activeUsers st; PS_now := PS_now st |}.

Definition newPlanAccessState (users : list User) (bindings : list UserPlanBinding) (plans : list SubscriptionPlan)
    (planNodes : list SubscriptionPlanNode) (exceptions : list UserNodeException) (now : Z) : planAccessState :=
  let st := {| PS_plansByID := indexBy SubscriptionPlan_ID plans;
               PS_planNodesByPlan := groupBy SubscriptionPlanNode_PlanID (List.filter SubscriptionPlanNode_Enabled planNodes);
               PS_bindingByUser := indexBy UserPlanBinding_UserID (List.filter UserPlanBinding_Enabled bindings);
               PS_exceptionsByUser := groupBy UserNodeException_UserID exceptions;
               PS_effective := ∅;
               PS_activeUsers := list_to_set (User_ID <$> List.filter (λ u, (User_Status u =? "active")%string) users);
               PS_now := now |} in
  setEffective (foldl (λ m u, <[User_ID u := computeUser st (User_ID u)]> m) ∅ users) st.

(** The loops over [st.effective] recompute every user. *)
Definition withPlanNodes (st : planAccessState) (planID : Z) (nodes : list SubscriptionPlanNode) : planAccessState :=
  let derived := {| PS_plansByID := PS_plansByID st;
                    PS_planNodesByPlan := <[planID := List.filter SubscriptionPlanNode_Enabled nodes]> (PS_planNodesByPlan st);
                    PS_bindingByUser := PS_bindingByUser st; PS_exceptionsByUser := PS_exceptionsByUser st; PS_effective := ∅;
                    PS_activeUsers := PS_activeUsers st; PS_now := PS_now st |} in
  setEffective (map_imap (λ userID _, Some (computeUser derived userID)) (PS_effective st)) derived.

Definition withAssignment (st : planAccessState) (targetPlan : option SubscriptionPlan) (targetNodes : list SubscriptionPlanNode) :
    planAccessState :=
  setEffective (map_imap (λ userID _, Some (UserEffectiveNodeSet targetPlan targetNodes (mlist (PS_exceptionsByUser st) userID) (PS_now st)))
                         (PS_effective st)) st.

(** *** Capacity of inbounds *)

Context {ME : MapRange Z (gmap string bool)} {D : ListenDecoder}.

Definition ProtocolSnell : string := "snell".

Definition shadowsocksMethodSupportsUsers (method : string) : bool :=
  hasPrefix (bytes_of "2022-") (bytes_of (ToLower (TrimSpace method))).

(** The field of [AuthCapabilities] that capacity reads. *)
Definition InboundSupportsMultipleIdentities (inbound : Inbound) : bool :=
  let protocol := Inbound_Protocol inbound in
  if bool_decide (protocol ∈ [ProtocolVLESS; ProtocolHY2; ProtocolAnyTLS; ProtocolMieru; ProtocolSnell; ProtocolSocks; ProtocolSSH]) then true
  else if (protocol =? ProtocolSS)%string then
    shadowsocksMethodSupportsUsers (stringValue (parseStepConfig (Inbound_ConfigJSON inbound)) "method" "2022-blake3-aes-128-gcm")
  else false.

(** The inbound a node key occupies. *)
Definition occupiedInbound (paths : list ProxyPath) (inbounds : list Inbound) (key : string) : option Z :=
  match ParseNodeKey key with
  | None => None
  | Some (nodeType, nodeID) =>
      if (nodeType =? AssignableNodeProxyPath)%string then
        ProxyPath_InboundID <$> indexBy ProxyPath_ID (List.filter ProxyPath_Enabled paths) !! nodeID
      else if (nodeType =? AssignableNodeInbound)%string then
        match indexBy Inbound_ID inbounds !! nodeID with Some _ => Some nodeID | None => None end
      else None
  end.

Definition countKey (paths : list ProxyPath) (inbounds : list Inbound) (counts : gmap Z nat) (key : string) : gmap Z nat :=
  match occupiedInbound paths inbounds key with
  | Some id => <[id := S (default 0%nat (counts !! id))]> counts
  | None => counts
  end.

Definition capacityCounts (target : planAccessState) (paths : list ProxyPath) (inbounds : list Inbound) : gmap Z nat :=
  foldl (λ counts '(userID, keys),
    if bool_decide (userID ∈ PS_activeUsers target) then foldl (countKey paths inbounds) counts (fst <$> map_range keys) else counts)
    ∅ (map_range (PS_effective target)).

Definition capacityIssue (inbound : Inbound) (count : nat) : string :=
  "入口 " +:+ Inbound_Name inbound +:+ " 仅支持单用户，当前预计 " +:+ FormatInt (Z.of_nat count) +:+ " 个有效用户".

Definition validatePlanCapacity (target : planAccessState) (paths : list ProxyPath) (inbounds : list Inbound) : list string :=
  let counts := capacityCounts target paths inbounds in
  sort_strings (omap (λ inbound,
    let count := default 0%nat (counts !! Inbound_ID inbound) in
    if Nat.ltb 1 count && negb (InboundSupportsMultipleIdentities inbound) then Some (capacityIssue inbound count) else None) inbounds).

(** *** Previews *)

Context {MI : MapRange Z bool}.

Record PlanChangePreview := {
  PV_UsersAffected : nat;
  PV_UsersUnchanged : nat;
  PV_NodesAdded : list string;
  PV_NodesRemoved : list string;
  PV_NodesUnchanged : nat;
  PV_AffectedServers : list Z;
  PV_AffectedPaths : nat;
  PV_TaskCount : nat;
  PV_OfflineServers : list Z;
  PV_CapacityIssues : list string }.

Record nodeDiff := {
  ND_Added : gmap string bool;
  ND_Removed : gmap string bool;
  ND_Unchanged : gmap string bool;
  ND_UsersAffected : nat;
  ND_UsersUnchanged : nat }.

(** One user: the two loops over the keys before and after. *)
Definition diffUser (current target : gmap string bool) (d : nodeDiff) : nodeDiff :=
  let '(unchanged, removed, changed) := foldl (λ '(unchanged, removed, changed) '(key, _),
    if mget target key then (<[key := true]> unchanged, removed, changed) else (unchanged, <[key := true]> removed, true))
    (ND_Unchanged d, ND_Removed d, false) (map_range current) in
  let '(added, changed) := foldl (λ '(added, changed) '(key, _),
    if mget current key then (added, changed) else (<[key := true]> added, true)) (ND_Added d, changed) (map_range target) in
  {| ND_Added := added; ND_Removed := removed; ND_Unchanged := unchanged;
     ND_UsersAffected := (if changed : bool then 1 else 0) + ND_UsersAffected d;
     ND_UsersUnchanged := (if changed then 0 else 1) + ND_UsersUnchanged d |}.

Definition nodesOf (st : planAccessState) (userID : Z) : gmap string bool := default ∅ (PS_effective st !! userID).

Definition diffUsers (users : list User) (before after : planAccessState) : nodeDiff :=
  foldl (λ d u, diffUser (nodesOf before (User_ID u)) (nodesOf after (User_ID u)) d)
        {| ND_Added := ∅; ND_Removed := ∅; ND_Unchanged := ∅; ND_UsersAffected := 0; ND_UsersUnchanged := 0 |} users.

Definition affectedKeys (d : nodeDiff) : gmap string bool :=
  let mark keys set := foldl (λ keys '(key, _), <[key := true]> keys) keys (map_range set) in
  mark (mark ∅ (ND_Added d)) (ND_Removed d).

Definition previewOf (d : nodeDiff) (unchangedUsers : nat) (target : planAccessState) (paths : list ProxyPath)
    (steps : list ProxyPathStep) (inbounds : list Inbound) (online : gmap Z bool) : PlanChangePreview :=
  let '(servers, affectedPaths, offline) := affectedAuthServers paths steps inbounds online (affectedKeys d) in
  {| PV_UsersAffected := ND_UsersAffected d; PV_UsersUnchanged := unchangedUsers; PV_NodesAdded := sortedKeys (ND_Added d);
     PV_NodesRemoved := sortedKeys (ND_Removed d); PV_NodesUnchanged := size (ND_Unchanged d); PV_AffectedServers := servers;
     PV_AffectedPaths := affectedPaths; PV_TaskCount := length servers; PV_OfflineServers := offline;
     PV_CapacityIssues := validatePlanCapacity target paths inbounds |}.

Definition PreviewPlanAssignment (users : list User) (bindings : list UserPlanBinding) (plans : list SubscriptionPlan)
    (planNodes : list SubscriptionPlanNode) (exceptions : list UserNodeException) (targetPlan : option SubscriptionPlan)
    (targetPlanNodes : list SubscriptionPlanNode) (paths : list ProxyPath) (steps : list ProxyPathStep) (inbounds : list Inbound)
    (online : gmap Z bool) (now : Z) : PlanChangePreview :=
  let state := newPlanAccessState users bindings plans planNodes exceptions now in
  let targetState := withAssignment state targetPlan targetPlanNodes in
  let d := diffUsers users state targetState in
  previewOf d (ND_UsersUnchanged d) targetState paths steps inbounds online.

(** Only the users bound to the plan are compared, and unchanged users are not counted. *)
Definition boundTo (st : planAccessState) (planID : Z) (u : User) : bool :=
  match PS_bindingByUser st !! User_ID u with
  | Some b => (UserPlanBinding_PlanID b =? planID) && UserPlanBinding_Enabled b
  | None => false
  end.

Definition PreviewPlanNodeChange (users : list User) (bindings : list UserPlanBinding) (plans : list SubscriptionPlan)
    (planNodes : list SubscriptionPlanNode) (exceptions : list UserNodeException) (planID : Z)
    (newNodes : list SubscriptionPlanNode) (paths : list ProxyPath) (steps : list ProxyPathStep) (inbounds : list Inbound)
    (online : gmap Z bool) (now : Z) : PlanChangePreview :=
  let state := newPlanAccessState users bindings plans planNodes exceptions now in
  let newState := withPlanNodes state planID newNodes in
  previewOf (diffUsers (List.filter (boundTo state planID) users) state newState) 0 newState paths steps inbounds online.
End state.
