(* ===== verification/PlanPreviewSafety.v ===== *)
(** * What previews of plan changes guarantee

    The preview lists exactly the nodes users gain and lose and exactly the servers that
    authenticate users of these nodes, in any map order.  It reads exceptions and bindings
    less strictly than the access snapshot. *)

From S2P Require Import Prelude Model NodeKeys NetAddr ListenResources AccessSnapshot ProxyPathNames ProxyPathNameSafety PlanPreview.

Local Open Scope Z_scope.

(** ** Multisets *)

Definition represents (seen : gmap Z nat) (l : list Z) : Prop := ∀ id, default 0%nat (seen !! id) = count_occ Z.eq_dec l id.

Lemma represents_counts l : represents (foldl (λ m id, <[id := S (default 0%nat (m !! id))]> m) ∅ l) l.
Proof.
  induction l as [|x l IH] using rev_ind; [done|]. intros id. rewrite foldl_app. cbn [foldl]. rewrite lookup_insert, count_occ_app.
  cbn [count_occ]. destruct (Z.eq_dec x id) as [->|Hne]; [rewrite decide_True by done|rewrite decide_False by done]; cbn; rewrite IH; lia.
Qed.

Lemma consumeSeen_spec seen l ids : represents seen l → consumeSeen seen ids = true ↔ ids ⊆+ l.
Proof.
  revert seen l; induction ids as [|id ids IH]; intros seen l Hr; cbn [consumeSeen].
  { split; [intros _; apply submseteq_nil_l|done]. }
  rewrite (Hr id). destruct (count_occ Z.eq_dec l id) as [|n] eqn:Hc.
  - split; [done|]. intros Hs. exfalso. apply (count_occ_not_In Z.eq_dec) in Hc. apply Hc, list_elem_of_In.
    apply (elem_of_submseteq _ _ _ (list_elem_of_here _ _) Hs).
  - assert (id ∈ l) as (l1 & l2 & ->)%list_elem_of_split by (apply list_elem_of_In, (count_occ_In Z.eq_dec); lia).
    rewrite <-Permutation_middle, (IH _ (l1 ++ l2)).
    + split; [apply submseteq_skip|]. intros H. by apply submseteq_cons_l in H as (k & ->%(Permutation_cons_inv (a := id)) & ?).
    + intros x. rewrite lookup_insert. specialize (Hr x). rewrite count_occ_app in Hr, Hc |- *. cbn [count_occ] in Hr, Hc.
      destruct (Z.eq_dec id id) as [_|]; [|done].
      case_decide; [subst; cbn; lia|]. rewrite Hr. destruct (Z.eq_dec id x); [done|lia].
Qed.

Lemma sameInt64Set_spec l r : sameInt64Set l r = true ↔ l ≡ₚ r.
Proof.
  unfold sameInt64Set. destruct (Nat.eqb_spec (length l) (length r)) as [Hlen|Hne]; cbn [negb].
  - rewrite (consumeSeen_spec _ l) by apply represents_counts. split.
    + intros Hs. symmetry. apply submseteq_length_Permutation; [done|]. by rewrite Hlen.
    + intros ->. done.
  - split; [done|]. intros H. by rewrite H in Hne.
Qed.

(** ** Sets *)

Section sorted.
Context {MK : MapRange string bool} {MI : MapRange Z bool}.

Lemma elem_of_sortedKeys (m : gmap string bool) k : k ∈ sortedKeys m ↔ is_Some (m !! k).
Proof.
  unfold sortedKeys, sort_strings. rewrite elem_of_sort_slice, list_elem_of_fmap. split.
  - intros ([k' v] & -> & Hin%elem_of_map_range). eauto.
  - intros [v Hv]. exists (k, v). split; [done|]. by apply elem_of_map_range.
Qed.

Lemma elem_of_sortedInt64Keys (m : gmap Z bool) k : k ∈ sortedInt64Keys m ↔ is_Some (m !! k).
Proof.
  unfold sortedInt64Keys, sort_ints. rewrite elem_of_sort_slice, list_elem_of_fmap. split.
  - intros ([k' v] & -> & Hin%elem_of_map_range). eauto.
  - intros [v Hv]. exists (k, v). split; [done|]. by apply elem_of_map_range.
Qed.

Lemma sortedInt64Keys_NoDup (m : gmap Z bool) : NoDup (sortedInt64Keys m).
Proof. unfold sortedInt64Keys, sort_ints. rewrite NoDup_sort_slice. apply NoDup_map_range. Qed.

Lemma sortedKeys_NoDup (m : gmap string bool) : NoDup (sortedKeys m).
Proof. unfold sortedKeys, sort_strings. rewrite NoDup_sort_slice. apply NoDup_map_range. Qed.

Lemma sortedInt64Keys_sorted (m : gmap Z bool) : StronglySorted (le_of Z_lt) (sortedInt64Keys m).
Proof. apply sort_slice_sorted, _. Qed.

Lemma elem_of_Union parts id : id ∈ UnionInt64IDs parts ↔ 0 < id ∧ ∃ part, part ∈ parts ∧ id ∈ part.
Proof.
  unfold UnionInt64IDs. rewrite elem_of_sortedInt64Keys.
  rewrite (foldl_iff (λ set : gmap Z bool, is_Some (set !! id)) (λ x, 0 < x ∧ x = id)).
  - setoid_rewrite list_elem_of_In. setoid_rewrite in_concat. rewrite lookup_empty. setoid_rewrite <-list_elem_of_In.
    split; [|naive_solver]. intros [[? ?]|(x & (part & ? & ?) & ? & ->)]; [done|eauto].
  - intros set x _. destruct (Z.ltb_spec 0 x); [rewrite lookup_insert; case_decide|]; naive_solver (lia || eauto).
Qed.
End sorted.

(** ** Affected servers *)

(** The server that authenticates the users of a node, and whether the node is a path. *)
Definition authServer (paths : list ProxyPath) (steps : list ProxyPathStep) (inbounds : list Inbound) (key : string) : option (Z * bool) :=
  match ParseNodeKey key with
  | None => None
  | Some (nodeType, nodeID) =>
      if (nodeType =? AssignableNodeProxyPath)%string then
        match List.find (λ p, ProxyPath_ID p =? nodeID) paths with
        | None => None
        | Some path =>
            match ProxyPathAccountingServerID path (mlist (groupBy Step_PathID steps) (ProxyPath_ID path)) inbounds with
            | Some serverID => if serverID =? 0 then None else Some (serverID, true)
            | None => None
            end
        end
      else if (nodeType =? AssignableNodeInbound)%string then
        match indexBy Inbound_ID inbounds !! nodeID with Some inbound => Some (Inbound_ServerID inbound, false) | None => None end
      else None
  end.

Section affected.
Context {MK : MapRange string bool} {MI : MapRange Z bool}.
Context (paths : list ProxyPath) (steps : list ProxyPathStep) (inbounds : list Inbound) (online : gmap Z bool).

Lemma affectKey_auth key a :
  affectKey paths steps inbounds online key a =
  match authServer paths steps inbounds key with Some (s, isPath) => markServer online s (if isPath : bool then 1 else 0) a | None => a end.
Proof. unfold affectKey, authServer. repeat case_match; simplify_eq; done. Qed.

Definition authenticates (s : Z) (keys : gmap string bool) : Prop :=
  ∃ key isPath, is_Some (keys !! key) ∧ authServer paths steps inbounds key = Some (s, isPath).

Notation collect := (foldl (λ a '(key, _), affectKey paths steps inbounds online key a)).

Lemma collect_iff (P : affected → Prop) (Q : string → Prop) (keys : gmap string bool) a :
  (∀ a key, P (affectKey paths steps inbounds online key a) ↔ P a ∨ Q key) →
  P (collect a (map_range keys)) ↔ P a ∨ ∃ key, is_Some (keys !! key) ∧ Q key.
Proof.
  intros H. rewrite (foldl_iff P (λ e, Q e.1)).
  - split; (intros [?|?]; [by left|right]).
    + destruct H0 as ([k v] & Hin%elem_of_map_range & Hq). eauto.
    + destruct H0 as (k & [v Hv] & Hq). exists (k, v). split; [by apply elem_of_map_range|done].
  - intros t [k v] _. apply H.
Qed.

Lemma affected_servers_iff keys s : s ∈ (affectedAuthServers paths steps inbounds online keys).1.1 ↔ authenticates s keys.
Proof.
  unfold affectedAuthServers. cbv zeta. cbn [fst]. rewrite elem_of_sortedInt64Keys.
  rewrite (collect_iff (λ a, is_Some (AF_Servers a !! s)) (λ key, ∃ isPath, authServer paths steps inbounds key = Some (s, isPath))).
  - cbn. rewrite lookup_empty. unfold authenticates. split; [intros [[? ?]|(k & ? & b & ?)]; [done|eauto]|naive_solver].
  - intros a key. rewrite affectKey_auth. destruct (authServer _ _ _ key) as [[t b]|]; [|naive_solver]. cbn.
    rewrite lookup_insert. case_decide; naive_solver.
Qed.

Lemma affected_offline_iff keys s :
  s ∈ (affectedAuthServers paths steps inbounds online keys).2 ↔ authenticates s keys ∧ mget online s = false.
Proof.
  unfold affectedAuthServers. cbv zeta. cbn [snd]. rewrite elem_of_sortedInt64Keys.
  rewrite (collect_iff (λ a, is_Some (AF_Offline a !! s)) (λ key, mget online s = false ∧ ∃ isPath, authServer paths steps inbounds key = Some (s, isPath))).
  - cbn. rewrite lookup_empty. unfold authenticates. split; [intros [[? ?]|(k & ? & ? & b & ?)]; [done|eauto 8]|naive_solver].
  - intros a key. rewrite affectKey_auth. destruct (authServer _ _ _ key) as [[t b]|]; [|naive_solver]. cbn.
    destruct (mget online t) eqn:Ho; [|rewrite lookup_insert; case_decide as Hts].
    + split; [by left|]. intros [?|(Hf & ? & [= -> ->])]; [done|congruence].
    + split; [|by eauto]. intros _. right. subst. eauto.
    + split; [by left|]. intros [?|(_ & ? & [= -> ->])]; done.
Qed.

Lemma affected_paths_count keys :
  (affectedAuthServers paths steps inbounds online keys).1.2 =
  length (List.filter (λ e, match authServer paths steps inbounds e.1 with Some (_, b) => b | None => false end) (map_to_list keys)).
Proof.
  unfold affectedAuthServers. cbv zeta. cbn [fst snd]. set (isPath := λ e : string * bool, _).
  transitivity (length (List.filter isPath (map_range keys))); [|by rewrite map_range_perm].
  assert (∀ l a, AF_Paths (collect a l) = (length (List.filter isPath l) + AF_Paths a)%nat) as H; [|rewrite H; cbn; lia].
  induction l as [|[k v] l IH]; intros a; [done|]. cbn [foldl List.filter]. rewrite IH, affectKey_auth. unfold isPath at 2. cbn [fst].
  destruct (authServer _ _ _ k) as [[s [|]]|]; cbn; lia.
Qed.
End affected.

(** ** Differences of users *)

Lemma UserEffectiveNodeSet_true `{!MapRange string bool} plan planNodes exceptions now :
  map_Forall (λ _ b, b = true) (UserEffectiveNodeSet plan planNodes exceptions now).
Proof.
  unfold UserEffectiveNodeSet. set (P := map_Forall (λ (_ : string) b, b = true)).
  apply (foldl_inv P).
  - apply (foldl_inv P); [by apply map_Forall_empty|]. intros m [k v] _ Hm. case_match; [done|]. by apply map_Forall_insert_2.
  - intros m ex _ Hm. repeat case_match; try done. by apply map_Forall_insert_2.
Qed.

Lemma true_set_lookup (m : gmap string bool) k : map_Forall (λ _ b, b = true) m → is_Some (m !! k) ↔ mget m k = true.
Proof. intros H. unfold mget. destruct (m !! k) as [b|] eqn:Hk; [|by split; [intros [? ?]|]]. by rewrite (H _ _ Hk). Qed.

Lemma true_sets_eq (m n : gmap string bool) :
  map_Forall (λ _ b, b = true) m → map_Forall (λ _ b, b = true) n → (∀ k, mget m k = mget n k) → m = n.
Proof.
  intros Hm Hn Heq. apply map_eq. intros k. specialize (Heq k). unfold mget in Heq.
  destruct (m !! k) as [b|] eqn:Hk, (n !! k) as [b'|] eqn:Hk'; try done.
  - by rewrite (Hm _ _ Hk), (Hn _ _ Hk').
  - by rewrite (Hm _ _ Hk) in Heq.
  - by rewrite (Hn _ _ Hk') in Heq.
Qed.

Definition marks (keys : list string) (m : gmap string bool) : gmap string bool := foldl (λ m k, <[k := true]> m) m keys.

Lemma marks_lookup keys m k : is_Some (marks keys m !! k) ↔ is_Some (m !! k) ∨ k ∈ keys.
Proof.
  unfold marks. rewrite (foldl_iff (λ m : gmap string bool, is_Some (m !! k)) (λ x, x = k)); [naive_solver|].
  intros t x _. rewrite lookup_insert. case_decide; naive_solver.
Qed.

Lemma mark_lookup `{!MapRange string bool} (m s : gmap string bool) k :
  is_Some (foldl (λ keys '(key, _), <[key := true]> keys) m (map_range s) !! k) ↔ is_Some (m !! k) ∨ is_Some (s !! k).
Proof.
  rewrite (foldl_iff (λ m : gmap string bool, is_Some (m !! k)) (λ e, e.1 = k)).
  - split; (intros [?|H]; [by left|right]); [destruct H as ([? v] & Hin%elem_of_map_range & <-); eauto|].
    destruct H as [v Hv]. exists (k, v). split; [by apply elem_of_map_range|done].
  - intros t [x v] _. rewrite lookup_insert. case_decide; naive_solver.
Qed.

Lemma diff_current_fold (target : gmap string bool) (l : list (string * bool)) u r (c : bool) :
  foldl (λ '(unchanged, removed, changed) '(key, _),
    if mget target key then (<[key := true]> unchanged, removed, changed) else (unchanged, <[key := true]> removed, true)) (u, r, c) l =
  (marks (List.filter (mget target) (fst <$> l)) u, marks (List.filter (λ k, negb (mget target k)) (fst <$> l)) r,
   c || existsb (λ k, negb (mget target k)) (fst <$> l)) :> gmap string bool * gmap string bool * bool.
Proof.
  revert u r c; induction l as [|[k v] l IH]; intros u r c; cbn; [by rewrite orb_false_r|].
  destruct (mget target k); cbn; rewrite IH; cbn; [done|]. by rewrite orb_true_r.
Qed.

Lemma diff_target_fold (current : gmap string bool) (l : list (string * bool)) a (c : bool) :
  foldl (λ '(added, changed) '(key, _), if mget current key then (added, changed) else (<[key := true]> added, true)) (a, c) l =
  (marks (List.filter (λ k, negb (mget current k)) (fst <$> l)) a, c || existsb (λ k, negb (mget current k)) (fst <$> l))
    :> gmap string bool * bool.
Proof.
  revert a c; induction l as [|[k v] l IH]; intros a c; cbn; [by rewrite orb_false_r|].
  destruct (mget current k); cbn; rewrite IH; cbn; [done|]. by rewrite orb_true_r.
Qed.

Section diff.
Context {MK : MapRange string bool}.

(** The keys of [m] that [n] lacks. *)
Definition lacks (m n : gmap string bool) : list string := List.filter (λ k, negb (mget n k)) (fst <$> map_range m).

Lemma elem_of_lacks m n k : map_Forall (λ _ b, b = true) m → k ∈ lacks m n ↔ mget m k = true ∧ mget n k = false.
Proof.
  intros Hm. unfold lacks. rewrite list_elem_of_In, filter_In, <-list_elem_of_In, list_elem_of_fmap, negb_true_iff, <-(true_set_lookup _ _ Hm).
  split; (intros [H ?]; split; [|done]).
  - destruct H as ([? v] & -> & Hin%elem_of_map_range). eauto.
  - destruct H as [v Hv]. exists (k, v). split; [done|by apply elem_of_map_range].
Qed.

Lemma lacks_nonempty m n : existsb (λ k, negb (mget n k)) (fst <$> map_range m) = negb (bool_decide (lacks m n = [])).
Proof.
  unfold lacks. induction (fst <$> map_range m) as [|k l IH]; [done|]. cbn. destruct (mget n k); cbn; [done|reflexivity].
Qed.

Definition userChanges (current target : gmap string bool) : bool :=
  negb (bool_decide (lacks current target = [])) || negb (bool_decide (lacks target current = [])).

Lemma diffUser_eq current target d :
  ND_Added (diffUser current target d) = marks (lacks target current) (ND_Added d) ∧
  ND_Removed (diffUser current target d) = marks (lacks current target) (ND_Removed d) ∧
  ND_UsersAffected (diffUser current target d) = ((if userChanges current target then 1 else 0) + ND_UsersAffected d)%nat ∧
  ND_UsersUnchanged (diffUser current target d) = ((if userChanges current target then 0 else 1) + ND_UsersUnchanged d)%nat ∧
  ND_Unchanged (diffUser current target d) = marks (List.filter (mget target) (fst <$> map_range current)) (ND_Unchanged d).
Proof.
  unfold diffUser. rewrite diff_current_fold, diff_target_fold, !lacks_nonempty. cbn [orb]. by unfold userChanges.
Qed.

Lemma userChanges_iff current target :
  map_Forall (λ _ b, b = true) current → map_Forall (λ _ b, b = true) target →
  userChanges current target = true ↔ current ≠ target.
Proof.
  intros Hc Ht. unfold userChanges. rewrite orb_true_iff, !negb_true_iff, !bool_decide_eq_false. split.
  - intros H ->. assert (lacks target target = []) as He; [|by destruct H].
    apply elem_of_nil_inv. intros k. rewrite elem_of_lacks by done. intros [? ?]; congruence.
  - intros Hne. destruct (decide (lacks current target = [])) as [He|]; [|by left]. right. intros He'. apply Hne.
    apply true_sets_eq; [done..|]. intros k. destruct (mget current k) eqn:H1, (mget target k) eqn:H2; try done.
    + assert (k ∈ lacks current target) as Hin by (by apply elem_of_lacks). rewrite He in Hin. by apply not_elem_of_nil in Hin.
    + assert (k ∈ lacks target current) as Hin by (by apply elem_of_lacks). rewrite He' in Hin. by apply not_elem_of_nil in Hin.
Qed.

Context (before after : planAccessState).

Definition gains (u : User) (k : string) : Prop := mget (nodesOf before (User_ID u)) k = false ∧ mget (nodesOf after (User_ID u)) k = true.
Definition loses (u : User) (k : string) : Prop := mget (nodesOf before (User_ID u)) k = true ∧ mget (nodesOf after (User_ID u)) k = false.

(** The user has the node before and after. *)
Definition keepsNode (u : User) (k : string) : Prop := mget (nodesOf before (User_ID u)) k = true ∧ mget (nodesOf after (User_ID u)) k = true.

Definition sane (st : planAccessState) : Prop := ∀ id, map_Forall (λ _ b, b = true) (nodesOf st id).

Context (Hbefore : sane before) (Hafter : sane after).

Lemma diffUsers_added users k : is_Some (ND_Added (diffUsers users before after) !! k) ↔ ∃ u, u ∈ users ∧ gains u k.
Proof.
  unfold diffUsers. rewrite (foldl_iff (λ d, is_Some (ND_Added d !! k)) (λ u, gains u k)).
  - cbn. rewrite lookup_empty. split; [|by right]. intros [[? ?]|?]; done.
  - intros d u _. destruct (diffUser_eq (nodesOf before (User_ID u)) (nodesOf after (User_ID u)) d) as (-> & _).
    rewrite marks_lookup, elem_of_lacks by done. unfold gains. tauto.
Qed.

Lemma diffUsers_unchanged users k : is_Some (ND_Unchanged (diffUsers users before after) !! k) ↔ ∃ u, u ∈ users ∧ keepsNode u k.
Proof.
  unfold diffUsers. rewrite (foldl_iff (λ d, is_Some (ND_Unchanged d !! k)) (λ u, keepsNode u k)).
  - cbn. rewrite lookup_empty. split; [|by right]. intros [[? ?]|?]; done.
  - intros d u _. destruct (diffUser_eq (nodesOf before (User_ID u)) (nodesOf after (User_ID u)) d) as (_ & _ & _ & _ & ->).
    rewrite marks_lookup. unfold keepsNode. rewrite <-(true_set_lookup _ _ (Hbefore (User_ID u))).
    rewrite list_elem_of_In, filter_In, <-list_elem_of_In, list_elem_of_fmap. f_equiv. f_equiv. split.
    + intros ([? v] & -> & Hin%elem_of_map_range). eauto.
    + intros [v Hv]. exists (k, v). split; [done|by apply elem_of_map_range].
Qed.

Lemma diffUsers_removed users k : is_Some (ND_Removed (diffUsers users before after) !! k) ↔ ∃ u, u ∈ users ∧ loses u k.
Proof.
  unfold diffUsers. rewrite (foldl_iff (λ d, is_Some (ND_Removed d !! k)) (λ u, loses u k)).
  - cbn. rewrite lookup_empty. split; [|by right]. intros [[? ?]|?]; done.
  - intros d u _. destruct (diffUser_eq (nodesOf before (User_ID u)) (nodesOf after (User_ID u)) d) as (_ & -> & _).
    rewrite marks_lookup, elem_of_lacks by done. unfold loses. tauto.
Qed.

Definition changesNodes (u : User) : bool := negb (bool_decide (nodesOf before (User_ID u) = nodesOf after (User_ID u))).

Lemma userChanges_changesNodes u : userChanges (nodesOf before (User_ID u)) (nodesOf after (User_ID u)) = changesNodes u.
Proof. apply eq_bool_prop_intro. rewrite !Is_true_true, userChanges_iff by done. unfold changesNodes. by rewrite negb_true_iff, bool_decide_eq_false. Qed.

Lemma diffUsers_counts users :
  ND_UsersAffected (diffUsers users before after) = length (List.filter changesNodes users) ∧
  (ND_UsersAffected (diffUsers users before after) + ND_UsersUnchanged (diffUsers users before after))%nat = length users.
Proof.
  unfold diffUsers. induction users as [|u users [IH1 IH2]] using rev_ind; [done|].
  rewrite foldl_app, List.filter_app, !length_app. cbn [foldl List.filter].
  set (d := foldl _ _ users) in *. destruct (diffUser_eq (nodesOf before (User_ID u)) (nodesOf after (User_ID u)) d) as (_ & _ & -> & -> & _).
  rewrite userChanges_changesNodes. destruct (changesNodes u); cbn; lia.
Qed.
End diff.

(** ** States *)

Section states.
Context {MK : MapRange string bool}.

Lemma setEffective_nodesOf st effective id : nodesOf (setEffective effective st) id = default ∅ (effective !! id).
Proof. done. Qed.

Lemma computeUser_setEffective st effective id : computeUser (setEffective effective st) id = computeUser st id.
Proof. done. Qed.

Lemma fold_users (f : Z → gmap string bool) (users : list User) id :
  foldl (λ (m : gmap Z (gmap string bool)) u, <[User_ID u := f (User_ID u)]> m) ∅ users !! id = (if bool_decide (id ∈ User_ID <$> users) then Some (f id) else None).
Proof.
  induction users as [|u users IH] using rev_ind; [done|]. rewrite foldl_app, fmap_app. cbn [foldl fmap list_fmap].
  assert (id ∈ (User_ID <$> users) ++ [User_ID u] ↔ id ∈ User_ID <$> users ∨ id = User_ID u) as Hin by (by rewrite elem_of_app, list_elem_of_singleton).
  destruct (decide (User_ID u = id)) as [Hu|Hu]; [rewrite Hu, lookup_insert_eq, bool_decide_true by (rewrite <-Hu in *; tauto)|
    rewrite lookup_insert_ne, IH by done; apply not_eq_sym in Hu]; repeat case_bool_decide; tauto.
Qed.

Context (users : list User) (bindings : list UserPlanBinding) (plans : list SubscriptionPlan).
Context (planNodes : list SubscriptionPlanNode) (exceptions : list UserNodeException) (now : Z).

Notation state := (newPlanAccessState users bindings plans planNodes exceptions now).

Lemma state_lookup id : PS_effective state !! id = (if bool_decide (id ∈ User_ID <$> users) then Some (computeUser state id) else None).
Proof. unfold newPlanAccessState. cbn [PS_effective setEffective]. rewrite fold_users. by rewrite computeUser_setEffective. Qed.

(** The nodes of a user after the plan is replaced for everybody. *)
Definition assignedNodes (targetPlan : option SubscriptionPlan) (targetNodes : list SubscriptionPlanNode) (id : Z) : gmap string bool :=
  UserEffectiveNodeSet targetPlan targetNodes (mlist (groupBy UserNodeException_UserID exceptions) id) now.

Lemma state_nodesOf u : u ∈ users → nodesOf state (User_ID u) = computeUser state (User_ID u).
Proof. intros Hu. unfold nodesOf. rewrite state_lookup, bool_decide_true; [done|]. by apply list_elem_of_fmap_2. Qed.

Lemma assignment_nodesOf plan nodes u :
  u ∈ users → nodesOf (withAssignment state plan nodes) (User_ID u) = assignedNodes plan nodes (User_ID u).
Proof.
  intros Hu. unfold nodesOf, withAssignment. cbn [PS_effective setEffective].
  rewrite map_lookup_imap, state_lookup, bool_decide_true; [done|]. by apply list_elem_of_fmap_2.
Qed.

Lemma state_sane : sane state.
Proof.
  intros id. unfold nodesOf. rewrite state_lookup. case_bool_decide; cbn; [apply UserEffectiveNodeSet_true|apply map_Forall_empty].
Qed.

Lemma assignment_sane plan nodes : sane (withAssignment state plan nodes).
Proof.
  intros id. unfold nodesOf, withAssignment. cbn [PS_effective setEffective]. rewrite map_lookup_imap, state_lookup.
  case_bool_decide; cbn; [apply UserEffectiveNodeSet_true|apply map_Forall_empty].
Qed.

Lemma planNodes_sane planID nodes : sane (withPlanNodes state planID nodes).
Proof.
  intros id. unfold nodesOf, withPlanNodes. cbn [PS_effective setEffective]. rewrite map_lookup_imap, state_lookup.
  case_bool_decide; cbn; [apply UserEffectiveNodeSet_true|apply map_Forall_empty].
Qed.

Lemma planNodes_nodesOf planID nodes u :
  u ∈ users → nodesOf (withPlanNodes state planID nodes) (User_ID u) = computeUser (withPlanNodes state planID nodes) (User_ID u).
Proof.
  intros Hu. unfold nodesOf, withPlanNodes. cbn [PS_effective setEffective].
  rewrite map_lookup_imap, state_lookup, bool_decide_true; [done|]. by apply list_elem_of_fmap_2.
Qed.

(** Users bound to other plans, or to none, keep their nodes. *)
Lemma planNodes_other planID nodes u :
  u ∈ users → boundTo state planID u = false → nodesOf (withPlanNodes state planID nodes) (User_ID u) = nodesOf state (User_ID u).
Proof.
  intros Hu Hb. rewrite planNodes_nodesOf, state_nodesOf by done. unfold boundTo in Hb. unfold computeUser.
  change (PS_bindingByUser (withPlanNodes state planID nodes)) with (PS_bindingByUser state).
  destruct (PS_bindingByUser state !! User_ID u) as [b|] eqn:Hl; [|done].
  assert (UserPlanBinding_Enabled b = true) as Hen.
  { unfold newPlanAccessState in Hl. cbn [PS_bindingByUser setEffective] in Hl. apply indexBy_Some in Hl as [Hin _].
    by apply list_elem_of_In, filter_In in Hin as [_ ?]. }
  rewrite Hen, andb_true_r in Hb. apply Z.eqb_neq in Hb.
  unfold withPlanNodes. cbn [PS_planNodesByPlan PS_plansByID PS_exceptionsByUser PS_now setEffective].
  unfold mlist at 1. by rewrite lookup_insert_ne.
Qed.

(** A preview of the users that may change reports the changes of all users. *)
Lemma diff_filter (f : User → bool) (R : User → string → Prop) k :
  (∀ u, u ∈ users → f u = false → ¬ R u k) → (∃ u, u ∈ List.filter f users ∧ R u k) ↔ ∃ u, u ∈ users ∧ R u k.
Proof.
  intros H. setoid_rewrite list_elem_of_In. setoid_rewrite filter_In. setoid_rewrite <-list_elem_of_In. split; [naive_solver|].
  intros (u & Hu & Hr). exists u. split_and!; [done| |done]. destruct (f u) eqn:Hf; [done|]. by destruct (H u Hu Hf).
Qed.

Lemma filter_changes (f : User → bool) before after :
  (∀ u, u ∈ users → f u = false → changesNodes before after u = false) →
  List.filter (changesNodes before after) (List.filter f users) = List.filter (changesNodes before after) users.
Proof.
  induction users as [|u us IH]; intros H; [done|]. cbn. destruct (f u) eqn:Hf; cbn.
  - rewrite IH; [done|]. intros v Hv. apply H. by right.
  - rewrite (H u (list_elem_of_here _ _) Hf). apply IH. intros v Hv. apply H. by right.
Qed.
End states.

(** ** Previews *)

Section previews.
Context {MK : MapRange string bool} {ME : MapRange Z (gmap string bool)} {D : ListenDecoder} {MI : MapRange Z bool}.

Lemma affectedKeys_lookup d k : is_Some (affectedKeys d !! k) ↔ is_Some (ND_Added d !! k) ∨ is_Some (ND_Removed d !! k).
Proof.
  unfold affectedKeys. cbv zeta. rewrite !mark_lookup, lookup_empty. split; [|tauto]. intros [[[? [=]]|?]|?]; auto.
Qed.

(** [n] is the number of the texts with a property. *)
Definition countOf (n : nat) (P : string → Prop) : Prop := ∃ l, NoDup l ∧ (∀ k, k ∈ l ↔ P k) ∧ n = length l.

Lemma countOf_iff n P Q : (∀ k, P k ↔ Q k) → countOf n P → countOf n Q.
Proof. intros H (l & ? & Hl & ->). exists l. split_and!; [done| |done]. intros k. by rewrite Hl. Qed.

Lemma countOf_keys {V} (m : gmap string V) (f : string → bool) :
  countOf (length (List.filter (λ e, f e.1) (map_to_list m))) (λ k, is_Some (m !! k) ∧ f k = true).
Proof.
  exists (fst <$> List.filter (λ e, f e.1) (map_to_list m)). split_and!; [| |by rewrite length_fmap].
  - apply NoDup_map_filter. apply NoDup_fst_map_to_list.
  - intros k. rewrite list_elem_of_fmap. setoid_rewrite list_elem_of_In. setoid_rewrite filter_In. setoid_rewrite <-list_elem_of_In. split.
    + intros ([k' v] & -> & Hin%elem_of_map_to_list & Hf). cbn in *. eauto.
    + intros [[v Hv%elem_of_map_to_list] Hf]. by exists (k, v).
Qed.

(** *** Capacity *)

(** The pairs of an active user and a node of theirs that occupies the inbound. *)
Definition occupancies (st : planAccessState) (paths : list ProxyPath) (inbounds : list Inbound) (id : Z) : list (Z * string) :=
  List.filter (λ e, bool_decide (e.1 ∈ PS_activeUsers st) && bool_decide (occupiedInbound paths inbounds e.2 = Some id))
    (map_to_list (PS_effective st) ≫= λ e, pair e.1 <$> (fst <$> map_to_list e.2)).

Lemma countKey_fold paths inbounds id l counts :
  default 0%nat (foldl (countKey paths inbounds) counts l !! id) =
  (default 0%nat (counts !! id) + length (List.filter (λ k, bool_decide (occupiedInbound paths inbounds k = Some id)) l))%nat.
Proof.
  revert counts; induction l as [|k l IH]; intros counts; cbn [foldl List.filter]; [cbn; lia|]. rewrite IH. unfold countKey.
  destruct (occupiedInbound paths inbounds k) as [j|]; [|by rewrite bool_decide_eq_false_2].
  destruct (decide (j = id)) as [->|Hne].
  - rewrite lookup_insert_eq, bool_decide_eq_true_2 by done. cbn. lia.
  - rewrite lookup_insert_ne, bool_decide_eq_false_2 by congruence. done.
Qed.

Lemma filter_pairs (P : Z → string → bool) u (l : list string) :
  length (List.filter (λ e, P e.1 e.2) (pair u <$> l)) = length (List.filter (P u) l).
Proof. induction l as [|k l IH]; [done|]. cbn. destruct (P u k); cbn; by rewrite IH. Qed.

Lemma capacityCounts_spec st paths inbounds id :
  default 0%nat (capacityCounts st paths inbounds !! id) = length (occupancies st paths inbounds id).
Proof.
  unfold capacityCounts, occupancies. set (P u k := bool_decide (u ∈ PS_activeUsers st) && bool_decide (occupiedInbound paths inbounds k = Some id)).
  change (λ e : Z * string, _) with (λ e : Z * string, P e.1 e.2).
  rewrite <- (map_range_perm (PS_effective st)). generalize (map_range (PS_effective st)) as l. intros l.
  match goal with |- default _ (foldl ?f ?c0 l !! id) = _ => assert (∀ c, default 0%nat (foldl f c l !! id) = (default 0%nat (c !! id) +
    length (List.filter (λ e, P e.1 e.2) (l ≫= λ e, pair e.1 <$> (fst <$> map_to_list e.2))))%nat) as H; [|by rewrite (H ∅), lookup_empty] end.
  induction l as [|[u keys] l IH]; intros c; [cbn; lia|]. rewrite bind_cons, List.filter_app, length_app, filter_pairs. cbn [foldl fst snd]. rewrite IH.
  unfold P at 2. case_bool_decide as Hact; cbn [andb].
  - rewrite countKey_fold. rewrite (map_range_perm keys). lia.
  - assert (∀ l : list string, List.filter (λ _, false) l = []) as -> by (intros l'; by induction l'). cbn. lia.
Qed.

(** *** What a preview reports *)

(** What a preview of [users] from [before] to [after] reports. *)
Definition reports (p : PlanChangePreview) (users : list User) (before after : planAccessState)
    (paths : list ProxyPath) (steps : list ProxyPathStep) (inbounds : list Inbound) (online : gmap Z bool) : Prop :=
  (∀ k, k ∈ PV_NodesAdded p ↔ ∃ u, u ∈ users ∧ gains before after u k) ∧
  (∀ k, k ∈ PV_NodesRemoved p ↔ ∃ u, u ∈ users ∧ loses before after u k) ∧
  PV_UsersAffected p = length (List.filter (changesNodes before after) users) ∧
  (∀ s, s ∈ PV_AffectedServers p ↔
     ∃ k isPath, (k ∈ PV_NodesAdded p ∨ k ∈ PV_NodesRemoved p) ∧ authServer paths steps inbounds k = Some (s, isPath)) ∧
  countOf (PV_AffectedPaths p) (λ k, (k ∈ PV_NodesAdded p ∨ k ∈ PV_NodesRemoved p) ∧ ∃ s, authServer paths steps inbounds k = Some (s, true)) ∧
  NoDup (PV_NodesAdded p) ∧ NoDup (PV_NodesRemoved p) ∧
  NoDup (PV_AffectedServers p) ∧ PV_TaskCount p = length (PV_AffectedServers p) ∧
  (∀ s, s ∈ PV_OfflineServers p ↔ s ∈ PV_AffectedServers p ∧ mget online s = false) ∧
  PV_CapacityIssues p = sort_strings ((λ i, capacityIssue i (length (occupancies after paths inbounds (Inbound_ID i)))) <$>
    List.filter (λ i, Nat.ltb 1 (length (occupancies after paths inbounds (Inbound_ID i))) && negb (InboundSupportsMultipleIdentities i)) inbounds).

Lemma omap_filter {A B} (f : A → bool) (g : A → B) l : omap (λ x, if f x then Some (g x) else None) l = g <$> List.filter f l.
Proof. induction l as [|x l IH]; [done|]. cbn. destruct (f x); cbn; by rewrite IH. Qed.

Lemma preview_reports users n before after paths steps inbounds online :
  sane before → sane after →
  reports (previewOf (diffUsers users before after) n after paths steps inbounds online) users before after paths steps inbounds online.
Proof.
  intros Hb Ha. unfold reports, previewOf. pose proof (affected_paths_count paths steps inbounds online (affectedKeys (diffUsers users before after))) as Hp.
  destruct (affectedAuthServers _ _ _ _ _) as [[servers affectedPaths] offline] eqn:He. cbn. cbn in Hp. subst affectedPaths.
  assert (∀ s, s ∈ servers ↔ authenticates paths steps inbounds s (affectedKeys (diffUsers users before after))) as Hs.
  { intros s. rewrite <-(affected_servers_iff _ _ _ online). by rewrite He. }
  split_and!.
  - intros k. rewrite elem_of_sortedKeys. by apply diffUsers_added.
  - intros k. rewrite elem_of_sortedKeys. by apply diffUsers_removed.
  - by apply diffUsers_counts.
  - intros s. rewrite Hs. unfold authenticates. setoid_rewrite affectedKeys_lookup. by setoid_rewrite elem_of_sortedKeys.
  - eapply countOf_iff; [|apply (countOf_keys _ (λ k, match authServer paths steps inbounds k with Some (_, b) => b | None => false end))].
    intros k. cbn. rewrite affectedKeys_lookup, !elem_of_sortedKeys. f_equiv.
    destruct (authServer paths steps inbounds k) as [[s [|]]|]; naive_solver.
  - apply sortedKeys_NoDup.
  - apply sortedKeys_NoDup.
  - change servers with ((servers, length (List.filter (λ e : string * bool, match authServer paths steps inbounds e.1 with
      Some (_, b) => b | None => false end) (map_to_list (affectedKeys (diffUsers users before after)))), offline).1.1). rewrite <-He. apply sortedInt64Keys_NoDup.
  - done.
  - intros s. rewrite Hs, <-(affected_offline_iff _ _ _ online). by rewrite He.
  - unfold validatePlanCapacity. cbv zeta. f_equal. rewrite <- (omap_filter (λ i, Nat.ltb 1 (length (occupancies after paths inbounds (Inbound_ID i))) &&
      negb (InboundSupportsMultipleIdentities i)) (λ i, capacityIssue i (length (occupancies after paths inbounds (Inbound_ID i))))).
    apply list_omap_ext, Forall_Forall2_diag, Forall_forall. intros i _. by rewrite capacityCounts_spec.
Qed.

Context (users : list User) (bindings : list UserPlanBinding) (plans : list SubscriptionPlan).
Context (planNodes : list SubscriptionPlanNode) (exceptions : list UserNodeException).
Context (paths : list ProxyPath) (steps : list ProxyPathStep) (inbounds : list Inbound) (online : gmap Z bool) (now : Z).

Notation state := (newPlanAccessState users bindings plans planNodes exceptions now).

(** The preview of an assignment lists exactly the nodes some user gains or loses, counts the
    users whose nodes change and those whose nodes do not, and lists exactly the servers that
    authenticate the users of the gained and lost nodes, the offline ones apart too. *)
Theorem assignment_preview_exact targetPlan targetNodes :
  let p := PreviewPlanAssignment users bindings plans planNodes exceptions targetPlan targetNodes paths steps inbounds online now in
  reports p users state (withAssignment state targetPlan targetNodes) paths steps inbounds online ∧
  (PV_UsersAffected p + PV_UsersUnchanged p)%nat = length users ∧
  ∀ u, u ∈ users → nodesOf (withAssignment state targetPlan targetNodes) (User_ID u) = assignedNodes exceptions now targetPlan targetNodes (User_ID u).
Proof.
  cbv zeta. unfold PreviewPlanAssignment. cbv zeta. split_and!.
  - apply preview_reports; [apply state_sane|apply assignment_sane].
  - unfold previewOf. destruct (affectedAuthServers _ _ _ _ _) as [[? ?] ?]. cbn. apply diffUsers_counts; [apply state_sane|apply assignment_sane].
  - intros u Hu. by apply assignment_nodesOf.
Qed.

Lemma reports_filter p (f : User → bool) before after :
  (∀ u, u ∈ users → f u = false → nodesOf after (User_ID u) = nodesOf before (User_ID u)) →
  reports p (List.filter f users) before after paths steps inbounds online → reports p users before after paths steps inbounds online.
Proof.
  intros Hf (H1 & H2 & H3 & H4). split; [|split; [|split; [|exact H4]]].
  - intros k. rewrite H1. apply diff_filter. intros u Hu Hn [? ?]. rewrite (Hf u Hu Hn) in *. congruence.
  - intros k. rewrite H2. apply diff_filter. intros u Hu Hn [? ?]. rewrite (Hf u Hu Hn) in *. congruence.
  - rewrite H3. f_equal. apply filter_changes. intros u Hu Hn. unfold changesNodes. rewrite (Hf u Hu Hn). by rewrite bool_decide_true.
Qed.

(** C26. The preview of a change of the nodes of a plan compares only the users bound to the plan,
    and all it reports of what changes is what a comparison of all users gives, since the
    others keep their nodes: the nodes gained and lost, the users, servers and paths
    affected, the offline servers and the inbounds over capacity afterwards.  The counts of
    what does not change are over the compared users: the nodes such a user keeps, and no
    unchanged users at all. *)
Theorem node_change_preview_complete planID newNodes :
  let p := PreviewPlanNodeChange users bindings plans planNodes exceptions planID newNodes paths steps inbounds online now in
  let after := withPlanNodes state planID newNodes in
  reports p users state after paths steps inbounds online ∧
  countOf (PV_NodesUnchanged p) (λ k, ∃ u, u ∈ users ∧ boundTo state planID u = true ∧ keepsNode state after u k) ∧
  PV_UsersUnchanged p = 0%nat.
Proof.
  cbv zeta. split_and!.
  - apply (reports_filter _ (boundTo state planID)); [intros u Hu Hn; by apply planNodes_other|].
    apply preview_reports; [apply state_sane|apply planNodes_sane].
  - unfold PreviewPlanNodeChange, previewOf. cbv zeta. destruct (affectedAuthServers _ _ _ _ _) as [[? ?] ?]. cbn [PV_NodesUnchanged].
    exists (sortedKeys (ND_Unchanged (diffUsers (List.filter (boundTo state planID) users) state (withPlanNodes state planID newNodes)))).
    split_and!; [apply sortedKeys_NoDup| |].
    + intros k. rewrite elem_of_sortedKeys, diffUsers_unchanged by (apply state_sane).
      setoid_rewrite list_elem_of_In at 1. setoid_rewrite filter_In. setoid_rewrite <-list_elem_of_In. naive_solver.
    + unfold sortedKeys, sort_strings. rewrite sort_slice_perm, length_fmap, map_range_perm. by rewrite length_map_to_list.
  - unfold PreviewPlanNodeChange, previewOf. cbv zeta. by destruct (affectedAuthServers _ _ _ _ _) as [[? ?] ?].
Qed.
End previews.

(** ** Differences of projections *)

Section projections.
Context {MK : MapRange string bool} {MI : MapRange Z bool} {ML : MapRange Z (list Z)}.

Lemma markUsers_lookup t users keys k :
  is_Some (markUsers t users keys !! k) ↔
  is_Some (keys !! k) ∨ ∃ id us, users !! id = Some us ∧ 0 < id ∧ us ≠ [] ∧ k = NodeKeyOf t id.
Proof.
  unfold markUsers. rewrite (foldl_iff (λ m : gmap string bool, is_Some (m !! k)) (λ e, 0 < e.1 ∧ e.2 ≠ [] ∧ k = NodeKeyOf t e.1)).
  - f_equiv. split.
    + intros ([id us] & Hin%elem_of_map_range & ? & ? & ?). eauto 8.
    + intros (id & us & Hu & ? & ? & ?). exists (id, us). split; [by apply elem_of_map_range|done].
  - intros m [id us] _. cbn. destruct (Z.ltb_spec 0 id) as [Hid|Hid]; cbn; [|intuition lia].
    case_bool_decide as Hus; cbn; [tauto|]. rewrite lookup_insert. case_decide as Hk; [subst; naive_solver|]. naive_solver.
Qed.

(** The users of a node of either kind. *)
Definition usersOf (p : AccessProjection) (t : string) : gmap Z (list Z) :=
  if (t =? AssignableNodeInbound)%string then Proj_InboundUsers p else Proj_ProxyPathUsers p.

Definition projected (t : string) : Prop := t = AssignableNodeInbound ∨ t = AssignableNodeProxyPath.

Lemma NodeKeys_lookup p t id : projected t →
  is_Some (NodeKeysFromAccessProjection p !! NodeKeyOf t id) ↔ 0 < id ∧ mlist (usersOf p t) id ≠ [].
Proof.
  intros Ht. unfold NodeKeysFromAccessProjection. rewrite !markUsers_lookup, lookup_empty.
  assert (∀ m : gmap Z (list Z), mlist m id ≠ [] ↔ ∃ us, m !! id = Some us ∧ us ≠ []) as Hm.
  { intros m. unfold mlist. destruct (m !! id); naive_solver. }
  rewrite Hm. destruct Ht as [-> | ->]; cbn; (split; [|naive_solver]).
  - intros [[[? [=]]|(i & us & ? & ? & ? & [_ ->]%NodeKeyOf_inj)]|(i & us & ? & ? & ? & [Heq _]%NodeKeyOf_inj)]; [eauto|done].
  - intros [[[? [=]]|(i & us & ? & ? & ? & [Heq _]%NodeKeyOf_inj)]|(i & us & ? & ? & ? & [_ ->]%NodeKeyOf_inj)]; [done|eauto].
Qed.

Lemma NodeKeys_projected p k : is_Some (NodeKeysFromAccessProjection p !! k) → ∃ t id, projected t ∧ k = NodeKeyOf t id.
Proof.
  unfold NodeKeysFromAccessProjection, projected. rewrite !markUsers_lookup, lookup_empty.
  intros [[[? [=]]|(? & ? & _ & _ & _ & ->)]|(? & ? & _ & _ & _ & ->)]; eauto.
Qed.

Lemma projected_no_colon t : projected t → ":"%char ∉ bytes_of t.
Proof. intros [-> | ->]; apply (bool_decide_unpack _); vm_compute; exact I. Qed.

(** A node whose users differ. *)
Definition differs (before after : AccessProjection) (t : string) (id : Z) : Prop :=
  projected t ∧ 0 < id ≤ int64_max ∧ ¬ mlist (usersOf before t) id ≡ₚ mlist (usersOf after t) id.

Lemma diffKey_lookup before after key diff k :
  is_Some (diffKey before after key diff !! k) ↔
  is_Some (diff !! k) ∨ key = k ∧ ∃ t id, ParseNodeKey key = Some (t, id) ∧ projected t ∧ ¬ mlist (usersOf before t) id ≡ₚ mlist (usersOf after t) id.
Proof.
  unfold diffKey, projected, usersOf. destruct (ParseNodeKey key) as [[t id]|]; [|naive_solver].
  assert (∀ b a : gmap Z (list Z), is_Some ((if sameInt64Set (mlist b id) (mlist a id) then diff else <[key := true]> diff) !! k) ↔
    is_Some (diff !! k) ∨ key = k ∧ ¬ mlist b id ≡ₚ mlist a id) as H.
  { intros b a. destruct (sameInt64Set _ _) eqn:Hs.
    - apply sameInt64Set_spec in Hs. tauto.
    - rewrite <-sameInt64Set_spec, Hs, lookup_insert. case_decide; naive_solver. }
  destruct (String.eqb_spec t AssignableNodeInbound) as [->|Hi]; [rewrite H; naive_solver|].
  destruct (String.eqb_spec t AssignableNodeProxyPath) as [->|Hp]; [rewrite H; naive_solver|]. naive_solver.
Qed.
Lemma ParseInt_FormatInt_Some n m : 0 < n → ParseInt (FormatInt n) = Some m → m = n ∧ n ≤ int64_max.
Proof.
  intros Hn. rewrite FormatInt_pos by done.
  pose proof (parse_digits_go (Z.to_N n) ""%string) as Hp. pose proof (digits_go (Z.to_N n) ""%string (Forall_nil_2 _)) as Hd.
  simpl in Hp. rewrite Z2N.id in Hp by lia. unfold ParseInt.
  destruct (bytes_of (pretty_N_go (Z.to_N n) "")) as [|a l]; [done|]. apply Forall_cons in Hd as [Ha _].
  repeat destruct (ascii_dec _ _); subst; [done..|]. rewrite Hp. intros H. case_match; [|done]. injection H as <-. lia.
Qed.

Lemma diff_keys_lookup before after k :
  is_Some (AccessProjectionMembershipDiffKeys before after !! k) ↔ ∃ t id, differs before after t id ∧ k = NodeKeyOf t id.
Proof.
  unfold AccessProjectionMembershipDiffKeys. cbv zeta.
  rewrite (foldl_iff (λ m : gmap string bool, is_Some (m !! k)) (λ e, e.1 = k ∧ ∃ t id, ParseNodeKey e.1 = Some (t, id) ∧ projected t ∧
    ¬ mlist (usersOf before t) id ≡ₚ mlist (usersOf after t) id)) by (intros m [key v] _; apply diffKey_lookup).
  rewrite lookup_empty. split.
  - intros [[? [=]]|([key v] & Hin%elem_of_map_range & <- & t & id & Hp & Ht & Hperm)]. exists t, id. cbn in *.
    assert (∃ t' id', projected t' ∧ 0 < id' ∧ key = NodeKeyOf t' id') as (t' & id' & Ht' & Hid & ->).
    { apply mk_is_Some in Hin. rewrite !mark_lookup, lookup_empty in Hin. destruct Hin as [[[? [=]]|Hin]|Hin];
        pose proof (NodeKeys_projected _ _ Hin) as (t' & id' & Ht' & ->); apply NodeKeys_lookup in Hin as [? _]; eauto. }
    unfold ParseNodeKey, NodeKeyOf in Hp. rewrite splitColon_app in Hp by (by apply projected_no_colon).
    destruct (ParseInt (FormatInt id')) as [m|] eqn:Hm; [|done]. apply ParseInt_FormatInt_Some in Hm as [-> Hmax]; [|done].
    case_match; [done|]. injection Hp as -> ->. split; [split_and!; done|done].
  - intros (t & id & (Ht & Hid & Hperm) & ->). right. assert (is_Some ((NodeKeysFromAccessProjection before) !! NodeKeyOf t id) ∨
      is_Some ((NodeKeysFromAccessProjection after) !! NodeKeyOf t id)) as Hk.
    { rewrite !NodeKeys_lookup by done. destruct (mlist (usersOf before t) id), (mlist (usersOf after t) id); [done|..]; naive_solver lia. }
    match goal with |- ∃ e, e ∈ map_range ?m ∧ _ => assert (is_Some (m !! NodeKeyOf t id)) as [v Hv] by (rewrite !mark_lookup; tauto) end.
    exists (NodeKeyOf t id, v). split; [by apply elem_of_map_range|]. split; [done|]. exists t, id.
    cbn. rewrite ParseNodeKey_NodeKeyOf by (try apply projected_no_colon; done). done.
Qed.

(** C22. When the effective access of users changes, the servers to contact are exactly those that
    authenticate the users of a node whose users differ as multisets, in ascending order and
    each once. *)
Theorem projection_servers_exact before after paths steps inbounds online :
  let servers := AffectedServersFromAccessProjections before after paths steps inbounds online in
  (∀ s, s ∈ servers ↔ ∃ t id isPath, differs before after t id ∧ authServer paths steps inbounds (NodeKeyOf t id) = Some (s, isPath)) ∧
  NoDup servers ∧ StronglySorted (le_of Z_lt) servers.
Proof.
  cbv zeta. unfold AffectedServersFromAccessProjections. cbv zeta.
  set (keys := AccessProjectionMembershipDiffKeys before after).
  assert (∀ s, authenticates paths steps inbounds s keys ↔
    ∃ t id isPath, differs before after t id ∧ authServer paths steps inbounds (NodeKeyOf t id) = Some (s, isPath)) as Ha.
  { intros s. unfold authenticates, keys. setoid_rewrite diff_keys_lookup. naive_solver. }
  case_bool_decide as Hsize.
  - split_and!; [|constructor..]. intros s. rewrite <-Ha, elem_of_nil. split; [done|]. intros (k & ? & [v Hv] & _).
    apply map_size_empty_inv in Hsize. by rewrite Hsize, lookup_empty in Hv.
  - split_and!; [intros s; by rewrite affected_servers_iff, Ha|apply sortedInt64Keys_NoDup|apply sortedInt64Keys_sorted].
Qed.
End projections.

(** ** Previews and snapshots *)

Definition previewUser : User :=
  {| User_ID := 1; User_Status := "active"; User_SpeedLimitMbps := 0; User_TrafficLimitBytes := 0; User_TrafficResetMode := ""; User_TrafficResetDay := 0 |}.

Definition previewPlan : SubscriptionPlan :=
  {| SubscriptionPlan_ID := 5; SubscriptionPlan_Name := "basic"; SubscriptionPlan_Enabled := true; SubscriptionPlan_SpeedLimitMbps := 0;
     SubscriptionPlan_TrafficLimitBytes := 0; SubscriptionPlan_TrafficResetMode := ""; SubscriptionPlan_TrafficResetDay := 0 |}.

Definition previewNode : SubscriptionPlanNode :=
  {| SubscriptionPlanNode_PlanID := 5; SubscriptionPlanNode_NodeType := AssignableNodeInbound; SubscriptionPlanNode_NodeID := 10;
     SubscriptionPlanNode_DisplayGroup := ""; SubscriptionPlanNode_SourceType := PlanNodeSourceExplicit; SubscriptionPlanNode_SourceRuleID := 0;
     SubscriptionPlanNode_SortPosition := None; SubscriptionPlanNode_Enabled := true |}.

Definition revokedDenial : UserNodeException :=
  {| UserNodeException_UserID := 1; UserNodeException_NodeType := AssignableNodeInbound; UserNodeException_NodeID := 10;
     UserNodeException_Effect := UserNodeExceptionDeny; UserNodeException_Status := "revoked"; UserNodeException_StartsAt := None;
     UserNodeException_ExpiresAt := None |}.

Notation previewRun exceptions :=
  (PreviewPlanAssignment (MK := map_range_default _ _) (ME := map_range_default _ _) (D := nameDecoder) (MI := map_range_default _ _)
     [previewUser] [] [] [] exceptions (Some previewPlan) [previewNode] [] [] [nameInbound 10 1 "entry"] {[1 := true]} 0).

(** A preview applies an exception that was revoked: it shows no node and no server for a plan the
    user will receive, where without the exception it shows both.  The access snapshot ignores
    such an exception. *)
Theorem preview_applies_revoked_exception :
  exceptionEffective 0 revokedDenial = false ∧
  (PV_NodesAdded (previewRun [revokedDenial]), PV_AffectedServers (previewRun [revokedDenial])) = ([], []) ∧
  (PV_NodesAdded (previewRun []), PV_AffectedServers (previewRun [])) = (["inbound:10"%string], [1]).
Proof. vm_compute. done. Qed.
