(* ===== verification/JsonText.v ===== *)
(** * JSON texts of flat structs

    What [json.Marshal] writes for a struct of numbers and strings: the escapes of strings and
    the fields in the order of the struct.  An encoded string can be read back: the texts of
    two structs with the same fields differ when a field does. *)

From S2P Require Import Prelude NodeKeys Encodings.

Local Open Scope Z_scope.

(** ** UTF-8 *)

Definition within (lo hi : Z) (a : ascii) : bool := (lo <=? byte_of a) && (byte_of a <=? hi).
Definition continuation (a : ascii) : bool := within 0x80 0xBF a.

(** The bytes of the first code point, if the text starts with a valid encoding of two bytes or
    more ([utf8.DecodeRune]). *)
Definition wideRune (l : list ascii) : option (list ascii * list ascii) :=
  match l with
  | a :: b :: l2 =>
      if within 0xC2 0xDF a && continuation b then Some ([a; b], l2)
      else match l2 with
      | c :: l3 =>
          if (within 0xE0 0xE0 a && within 0xA0 0xBF b || within 0xE1 0xEC a && continuation b ||
              within 0xED 0xED a && within 0x80 0x9F b || within 0xEE 0xEF a && continuation b) && continuation c then Some ([a; b; c], l3)
          else match l3 with
          | d :: l4 =>
              if (within 0xF0 0xF0 a && within 0x90 0xBF b || within 0xF1 0xF3 a && continuation b ||
                  within 0xF4 0xF4 a && within 0x80 0x8F b) && continuation c && continuation d then Some ([a; b; c; d], l4)
              else None
          | [] => None
          end
      | [] => None
      end
  | _ => None
  end.

(** ** Strings *)

Definition asciiByte (a : ascii) : bool := byte_of a <? 0x80.

(** [htmlSafeSet] *)
Definition htmlSafe (a : ascii) : bool :=
  within 0x20 0x7F a && negb (bool_decide (byte_of a ∈ [0x22; 0x26; 0x3C; 0x3E; 0x5C])).

Definition backslash : ascii := "\"%char.
Definition quote : ascii := ascii_of_nat 34.

Definition unicodeEscape (digits : list ascii) : list ascii := backslash :: "u"%char :: digits.

Definition escapeByte (a : ascii) : list ascii :=
  if htmlSafe a then [a]
  else if bool_decide (byte_of a ∈ [0x5C; 0x22]) then [backslash; a]
  else if byte_of a =? 8 then [backslash; "b"%char]
  else if byte_of a =? 12 then [backslash; "f"%char]
  else if byte_of a =? 10 then [backslash; "n"%char]
  else if byte_of a =? 13 then [backslash; "r"%char]
  else if byte_of a =? 9 then [backslash; "t"%char]
  else unicodeEscape ("0"%char :: "0"%char :: hexByte a).

(** U+2028 and U+2029. *)
Definition lineSeparator (rune : list ascii) : bool :=
  bool_decide (rune = [byteZ 0xE2; byteZ 0x80; byteZ 0xA8]) || bool_decide (rune = [byteZ 0xE2; byteZ 0x80; byteZ 0xA9]).

Definition escapeRune (rune : list ascii) : list ascii :=
  if lineSeparator rune then
    unicodeEscape (bytes_of "202" ++ [if bool_decide (last rune = Some (byteZ 0xA8)) then "8"%char else "9"%char])
  else rune.

Fixpoint escape (fuel : nat) (l : list ascii) : list ascii :=
  match fuel, l with
  | S fuel, a :: rest =>
      if asciiByte a then escapeByte a ++ escape fuel rest
      else match wideRune l with
           | Some (rune, rest') => escapeRune rune ++ escape fuel rest'
           | None => unicodeEscape (bytes_of "fffd") ++ escape fuel rest
           end
  | _, _ => []
  end.

Definition jsonString (s : string) : list ascii := quote :: escape (String.length s) (bytes_of s) ++ [quote].

(** ** Structs *)

Inductive field := FieldInt (n : Z) | FieldString (s : string).

Definition jsonField (v : field) : list ascii :=
  match v with
  | FieldInt n => bytes_of (FormatInt n)
  | FieldString s => jsonString s
  end.

Definition jsonMember (e : string * field) : list ascii := jsonString e.1 ++ ":"%char :: jsonField e.2.

Definition jsonStruct (fields : list (string * field)) : string :=
  of_bytes ("{"%char :: joinBytes [","%char] (jsonMember <$> fields) ++ ["}"%char]).

Example jsonStruct_ex :
  jsonStruct [("id", FieldInt (-7)); ("type", FieldString (of_bytes (bytes_of "a<b" ++ [quote; byteZ 10; byteZ 1; byteZ 0xE2; byteZ 0x80; byteZ 0xA8; byteZ 0xC3; byteZ 0xA9; byteZ 0xC3])))]%string =
  of_bytes (bytes_of "{" ++ [quote] ++ bytes_of "id" ++ [quote] ++ bytes_of ":-7," ++ [quote] ++ bytes_of "type" ++ [quote] ++ bytes_of ":" ++ [quote] ++
    bytes_of "a\u003cb\" ++ [quote] ++ bytes_of "\n\u0001\u2028" ++ [byteZ 0xC3; byteZ 0xA9] ++ bytes_of "\ufffd" ++ [quote] ++ bytes_of "}").
Proof. vm_compute. reflexivity. Qed.

(** ** Reading back *)

(** Valid UTF-8, as the units a text consists of. *)
Inductive utf8 : list ascii → Prop :=
| utf8_nil : utf8 []
| utf8_ascii a l : asciiByte a = true → utf8 l → utf8 (a :: l)
| utf8_wide l rune rest : wideRune l = Some (rune, rest) → utf8 rest → utf8 l.

Fixpoint utf8b (fuel : nat) (l : list ascii) : bool :=
  match fuel, l with
  | _, [] => true
  | S fuel, a :: rest => if asciiByte a then utf8b fuel rest else match wideRune l with Some (_, rest') => utf8b fuel rest' | None => false end
  | 0%nat, _ => false
  end.

Definition validUTF8 (s : string) : bool := utf8b (String.length s) (bytes_of s).

Lemma wideRune_spec l rune rest : wideRune l = Some (rune, rest) →
  l = rune ++ rest ∧ (2 ≤ length rune)%nat ∧ (∃ a t, rune = a :: t ∧ asciiByte a = false) ∧ ∀ r, wideRune (rune ++ r) = Some (rune, r).
Proof.
  intros H. unfold wideRune in H. destruct l as [|a [|b l2]]; [done..|].
  assert (∀ lo hi x, 0x80 <= lo → within lo hi x = true → asciiByte x = false) as Hw.
  { unfold within, asciiByte. intros lo hi x Hlo. rewrite andb_true_iff, Z.leb_le, Z.leb_le, Z.ltb_ge. lia. }
  destruct (within 194 223 a && continuation b) eqn:H2.
  { injection H as <- <-. split_and!; [done|cbn; lia| |].
    - exists a, [b]. split; [done|]. apply andb_true_iff in H2 as [? _]. by apply (Hw 194 223).
    - intros r. cbn [app wideRune]. by rewrite H2. }
  destruct l2 as [|c l3]; [done|]. destruct (_ && continuation c) eqn:H3 in H.
  { injection H as <- <-. split_and!; [done|cbn; lia| |].
    - exists a, [b; c]. split; [done|]. apply andb_true_iff in H3 as [H3 _].
      repeat (apply orb_true_iff in H3 as [H3|H3]); apply andb_true_iff in H3 as [? _]; (eapply Hw; [|eassumption]); lia.
    - intros r. cbn [app wideRune]. by rewrite H2, H3. }
  destruct l3 as [|d l4]; [done|]. destruct (_ && continuation d) eqn:H4 in H; [|done].
  injection H as <- <-. split_and!; [done|cbn; lia| |].
  - exists a, [b; c; d]. split; [done|]. apply andb_true_iff in H4 as [[H4 _]%andb_true_iff _].
    repeat (apply orb_true_iff in H4 as [H4|H4]); apply andb_true_iff in H4 as [? _]; (eapply Hw; [|eassumption]); lia.
  - intros r. cbn [app wideRune]. by rewrite H2, H3, H4.
Qed.

(** The first unit of an encoded string. *)
Definition readUnit (l : list ascii) : option (list ascii * list ascii) :=
  match l with
  | [] => None
  | a :: rest =>
      if bool_decide (a = quote) then None
      else if bool_decide (a = backslash) then
        match rest with
        | c :: rest' =>
            if bool_decide (c = "u"%char) then
              match rest' with
              | h1 :: h2 :: h3 :: h4 :: r =>
                  if bool_decide ([h1; h2; h3; h4] = bytes_of "2028") then Some ([byteZ 0xE2; byteZ 0x80; byteZ 0xA8], r)
                  else if bool_decide ([h1; h2; h3; h4] = bytes_of "2029") then Some ([byteZ 0xE2; byteZ 0x80; byteZ 0xA9], r)
                  else Some ([byteZ (default 0 (indexOf h3 hexDigits 0) * 16 + default 0 (indexOf h4 hexDigits 0))], r)
              | _ => None
              end
            else Some ([if bool_decide (c = "b"%char) then byteZ 8 else if bool_decide (c = "f"%char) then byteZ 12
                        else if bool_decide (c = "n"%char) then byteZ 10 else if bool_decide (c = "r"%char) then byteZ 13
                        else if bool_decide (c = "t"%char) then byteZ 9 else c], rest')
        | [] => None
        end
      else if asciiByte a then Some ([a], rest) else wideRune l
  end.

Lemma read_byte a r : asciiByte a = true → readUnit (escapeByte a ++ r) = Some ([a], r).
Proof. destruct a as [[] [] [] [] [] [] [] []]; vm_compute; intros H; reflexivity || discriminate H. Qed.

Lemma read_rune rune rest l r : wideRune l = Some (rune, rest) → readUnit (escapeRune rune ++ r) = Some (rune, r).
Proof.
  intros (_ & _ & (a & t & -> & Ha) & Hw)%wideRune_spec. unfold escapeRune, lineSeparator.
  case_bool_decide as H1; [rewrite H1; reflexivity|]. case_bool_decide as H2; [rewrite H2; reflexivity|]. cbn [orb].
  specialize (Hw r). change ((a :: t) ++ r) with (a :: t ++ r) in *. unfold readUnit.
  rewrite bool_decide_false by (intros ->; discriminate Ha). rewrite bool_decide_false by (intros ->; discriminate Ha). by rewrite Ha.
Qed.

Lemma read_step fuel l : utf8 l → l ≠ [] → (length l ≤ S fuel)%nat → ∃ u rest code,
  l = u ++ rest ∧ utf8 rest ∧ (length rest ≤ fuel)%nat ∧ escape (S fuel) l = code ++ escape fuel rest ∧ ∀ r, readUnit (code ++ r) = Some (u, r).
Proof.
  intros H Hne Hl. destruct H as [|a l Ha H|l rune rest Hw H]; [done|..].
  - exists [a], l, (escapeByte a). cbn in Hl. split_and!; [done..|lia| |].
    + cbn [escape]. by rewrite Ha.
    + intros r. by apply read_byte.
  - pose proof (wideRune_spec _ _ _ Hw) as (-> & Hlen & (a & t & -> & Ha) & Hr). exists (a :: t), rest, (escapeRune (a :: t)).
    rewrite length_app in Hl. split_and!; [done..|lia| |].
    + change ((a :: t) ++ rest) with (a :: t ++ rest) in *. cbn [escape]. by rewrite Ha, Hw.
    + intros r. by apply (read_rune _ rest ((a :: t) ++ rest)).
Qed.

Lemma escape_nil fuel : escape fuel [] = [].
Proof. by destruct fuel. Qed.

Lemma escape_inj l1 l2 f1 f2 r1 r2 : utf8 l1 → utf8 l2 → (length l1 ≤ f1)%nat → (length l2 ≤ f2)%nat →
  escape f1 l1 ++ quote :: r1 = escape f2 l2 ++ quote :: r2 → l1 = l2 ∧ r1 = r2.
Proof.
  revert l1 l2 f2; induction f1 as [|f1 IH]; intros l1 l2 f2 H1 H2 Hf1 Hf2 Heq.
  all: assert (∀ r, readUnit (quote :: r) = None) as Hq by done.
  all: destruct (decide (l1 = [])) as [->|Hn1]; [rewrite escape_nil in Heq; cbn [app] in Heq|try (destruct l1; [done|cbn in Hf1; lia])].
  all: destruct (decide (l2 = [])) as [->|Hn2]; [rewrite escape_nil in Heq; cbn [app] in Heq|destruct f2 as [|f2]; [destruct l2; [done|cbn in Hf2; lia]|]].
  all: try (by injection Heq).
  - destruct (read_step f2 l2 H2 Hn2 Hf2) as (u & rest & code & -> & _ & _ & He & Hr). rewrite He, <-app_assoc in Heq.
    apply (f_equal readUnit) in Heq. by rewrite Hr, Hq in Heq.
  - destruct (read_step f2 l2 H2 Hn2 Hf2) as (u & rest & code & -> & _ & _ & He & Hr). rewrite He, <-app_assoc in Heq.
    apply (f_equal readUnit) in Heq. by rewrite Hr, Hq in Heq.
  - destruct (read_step f1 l1 H1 Hn1 Hf1) as (u & rest & code & -> & _ & _ & He & Hr). rewrite He, <-app_assoc in Heq.
    apply (f_equal readUnit) in Heq. by rewrite Hr, Hq in Heq.
  - destruct (read_step f1 l1 H1 Hn1 Hf1) as (u1 & rest1 & code1 & -> & Hu1 & Hl1 & He1 & Hr1).
    destruct (read_step f2 l2 H2 Hn2 Hf2) as (u2 & rest2 & code2 & -> & Hu2 & Hl2 & He2 & Hr2).
    rewrite He1, He2, <-!app_assoc in Heq. apply (f_equal readUnit) in Heq. rewrite Hr1, Hr2 in Heq. injection Heq as -> Heq.
    destruct (IH rest1 rest2 f2 Hu1 Hu2 Hl1 Hl2 Heq) as [-> ->]. done.
Qed.

Lemma utf8b_utf8 fuel l : utf8b fuel l = true → utf8 l.
Proof.
  revert l; induction fuel as [|fuel IH]; intros [|a l]; cbn [utf8b]; intros H; try by constructor.
  destruct (asciiByte a) eqn:Ha; [apply utf8_ascii; auto|]. destruct (wideRune (a :: l)) as [[rune rest]|] eqn:Hw; [|done].
  apply (utf8_wide _ rune rest); auto.
Qed.

Lemma length_bytes_of s : length (bytes_of s) = String.length s.
Proof. induction s; cbn; congruence. Qed.

Lemma jsonString_inj s1 s2 r1 r2 : validUTF8 s1 = true → validUTF8 s2 = true →
  jsonString s1 ++ r1 = jsonString s2 ++ r2 → s1 = s2 ∧ r1 = r2.
Proof.
  unfold validUTF8, jsonString. intros H1%utf8b_utf8 H2%utf8b_utf8. cbn [app]. intros [= Heq]. rewrite <-!app_assoc in Heq.
  destruct (escape_inj _ _ _ _ _ _ H1 H2 (eq_ind_r (λ n, n ≤ _)%nat (Nat.le_refl _) (length_bytes_of s1))
    (eq_ind_r (λ n, n ≤ _)%nat (Nat.le_refl _) (length_bytes_of s2)) Heq) as [Hs ->].
  split; [|done]. by rewrite <-(of_bytes_bytes_of s1), Hs, of_bytes_bytes_of.
Qed.

(** *** Structs *)

Definition stopByte (c : ascii) : Prop := c = ","%char ∨ c = "}"%char.

Definition validField (v : field) : Prop := match v with FieldInt _ => True | FieldString s => validUTF8 s = true end.
Definition validMember (e : string * field) : Prop := validUTF8 e.1 = true ∧ validField e.2.

Lemma span_inj {A} (P : A → Prop) l1 l2 c1 c2 r1 r2 : Forall P l1 → Forall P l2 → ¬ P c1 → ¬ P c2 →
  l1 ++ c1 :: r1 = l2 ++ c2 :: r2 → l1 = l2 ∧ c1 :: r1 = c2 :: r2.
Proof.
  intros H1. revert l2; induction H1 as [|x l1 Hx _ IH]; intros l2 H2 Hc1 Hc2 Heq; destruct H2 as [|y l2 Hy H2]; cbn in Heq.
  - done.
  - by injection Heq as -> _.
  - by injection Heq as -> _.
  - injection Heq as -> Heq. destruct (IH l2 H2 Hc1 Hc2 Heq) as [-> ?]. done.
Qed.

Definition numeral (a : ascii) : Prop := is_digit a = true ∨ a = "-"%char.

Lemma FormatInt_inj n1 n2 : FormatInt n1 = FormatInt n2 → n1 = n2.
Proof. apply (inj (pretty : Z → string)). Qed.

Lemma FormatInt_first n : ∃ a l, bytes_of (FormatInt n) = a :: l.
Proof.
  destruct (bytes_of (FormatInt n)) as [|a l] eqn:H; [|eauto].
  assert (FormatInt n = ""%string) as H0 by (by rewrite <-(of_bytes_bytes_of (FormatInt n)), H).
  destruct n as [|p|p]; [done| |done]. pose proof (FormatInt_pos (Z.pos p) ltac:(lia)) as Hp. rewrite H0 in Hp.
  pose proof (parse_digits_go (Z.to_N (Z.pos p)) "") as Hd. rewrite <-Hp in Hd. cbn in Hd. congruence.
Qed.

Lemma jsonField_inj v1 v2 c1 c2 r1 r2 : validField v1 → validField v2 → stopByte c1 → stopByte c2 →
  jsonField v1 ++ c1 :: r1 = jsonField v2 ++ c2 :: r2 → v1 = v2 ∧ c1 :: r1 = c2 :: r2.
Proof.
  assert (∀ c, stopByte c → ¬ numeral c) as Hstop by (intros c [->| ->] [|]; done).
  assert (∀ n l r s, bytes_of (FormatInt n) ++ l ≠ jsonString s ++ r) as Hne.
  { intros n l r s H. destruct (FormatInt_first n) as (a & u & Hu). pose proof (FormatInt_digits n) as Hd. rewrite Hu in H, Hd.
    apply Forall_cons in Hd as [Hd _]. injection H as -> _. by destruct Hd. }
  intros H1 H2 Hc1 Hc2 Heq. destruct v1 as [n1|s1], v2 as [n2|s2]; cbn [jsonField] in Heq.
  - apply (span_inj numeral) in Heq as [Hn ?]; [|apply FormatInt_digits..|by apply Hstop|by apply Hstop].
    apply (f_equal of_bytes) in Hn. rewrite !of_bytes_bytes_of in Hn. by apply FormatInt_inj in Hn as ->.
  - by apply Hne in Heq.
  - symmetry in Heq. by apply Hne in Heq.
  - by destruct (jsonString_inj s1 s2 _ _ H1 H2 Heq) as [-> ->].
Qed.

Lemma jsonMember_inj e1 e2 c1 c2 r1 r2 : validMember e1 → validMember e2 → stopByte c1 → stopByte c2 →
  jsonMember e1 ++ c1 :: r1 = jsonMember e2 ++ c2 :: r2 → e1 = e2 ∧ c1 :: r1 = c2 :: r2.
Proof.
  destruct e1 as [n1 v1], e2 as [n2 v2]. unfold validMember, jsonMember; cbn [fst snd]. intros [Hn1 Hv1] [Hn2 Hv2] Hc1 Hc2 Heq.
  rewrite <-!app_assoc in Heq. apply jsonString_inj in Heq as [-> Heq]; [|done..]. injection Heq as Heq.
  by apply jsonField_inj in Heq as [-> ?].
Qed.

Lemma jsonMembers_inj f1 f2 r1 r2 : Forall validMember f1 → Forall validMember f2 →
  joinBytes [","%char] (jsonMember <$> f1) ++ "}"%char :: r1 = joinBytes [","%char] (jsonMember <$> f2) ++ "}"%char :: r2 → f1 = f2.
Proof.
  intros H1. revert f2; induction H1 as [|e1 f1 He1 H1 IH]; intros f2 H2 Heq; destruct H2 as [|e2 f2 He2 H2]; [done|..].
  - exfalso. destruct f2; discriminate Heq.
  - exfalso. destruct f1; discriminate Heq.
  - assert (∀ (e : string * field) f, joinBytes [","%char] (jsonMember <$> e :: f) ++ ["}"%char] = jsonMember e ++ match f with [] => ["}"%char] | _ => ","%char :: joinBytes [","%char] (jsonMember <$> f) ++ ["}"%char] end) as Hsplit.
    { intros e [|e' f]; [done|]. change (joinBytes [","%char] (jsonMember <$> e :: e' :: f)) with (jsonMember e ++ ","%char :: joinBytes [","%char] (jsonMember <$> e' :: f)). by rewrite <-app_assoc. }
    assert (∀ l (r : list ascii), l ++ "}"%char :: r = (l ++ ["}"%char]) ++ r) as Hr by (intros; by rewrite <-app_assoc).
    rewrite (Hr _ r1), (Hr _ r2), !Hsplit, <-!app_assoc in Heq. destruct f1 as [|e1' f1], f2 as [|e2' f2].
    + by apply jsonMember_inj in Heq as [-> _]; [|done|done|right|right].
    + apply jsonMember_inj in Heq as [_ Heq]; [|done|done|by right|by left]. discriminate Heq.
    + apply jsonMember_inj in Heq as [_ Heq]; [|done|done|by left|by right]. discriminate Heq.
    + apply jsonMember_inj in Heq as [-> Heq]; [|done|done|by left|by left]. f_equal. apply IH; [done|]. rewrite (Hr _ r1), (Hr _ r2). exact (f_equal (@tail _) Heq).
Qed.

Lemma jsonStruct_inj f1 f2 : Forall validMember f1 → Forall validMember f2 → jsonStruct f1 = jsonStruct f2 → f1 = f2.
Proof.
  intros H1 H2 Heq. apply (f_equal bytes_of) in Heq. unfold jsonStruct in Heq. rewrite !bytes_of_of_bytes in Heq. injection Heq as Heq.
  by apply (jsonMembers_inj f1 f2 [] []).
Qed.
