(* ===== verification/StoredTimes.v ===== *)
(** * Times

    Times are nanoseconds since 1970.  The database keeps them as texts ([time.RFC3339Nano]) and
    compares the texts, whose order is not that of the times within a second. *)

From S2P Require Import Prelude Encodings.

Local Open Scope Z_scope.

(** ** Times *)

Definition second : Z := 1000000000.
Definition unixToInternal : Z := 62135596800.

(** [t.Unix()] and [time.Unix(s, 0)], whose seconds since year 1 are a 64-bit integer. *)
Definition Unix (t : Z) : Z := t / second.
Definition unixTime (s : Z) : Z := (int_wrap (s + unixToInternal) - unixToInternal) * second.

(** ** Stored times *)

(** The digits of a number below [10 ^ n]. *)
Fixpoint padDigits (n : nat) (z : Z) : list ascii :=
  match n with
  | O => []
  | S n => padDigits n (z / 10) ++ [byteZ (48 + z `mod` 10)]
  end.

Fixpoint dropZeros (l : list ascii) : list ascii :=
  match l with
  | a :: rest => if bool_decide (a = "0"%char) then dropZeros rest else l
  | [] => []
  end.

(** What follows the seconds in [RFC3339Nano]: the fraction without trailing zeros. *)
Definition fraction (ns : Z) : string :=
  of_bytes (if ns =? 0 then ["Z"%char] else "."%char :: rev (dropZeros (rev (padDigits 9 ns))) ++ ["Z"%char]).

(** The order of two stored times, which are compared as texts: the part up to the seconds has
    a fixed width, the fraction does not. *)
Definition textBefore (a b : Z) : bool :=
  (Unix a <? Unix b) || (Unix a =? Unix b) && match String.compare (fraction (a `mod` second)) (fraction (b `mod` second)) with Lt => true | _ => false end.
Definition textAtMost (a b : Z) : bool := negb (textBefore b a).

Example textAtMost_ex : textAtMost 1500000000 1500000000 = true ∧ textAtMost 1100000000 1120000000 = false ∧ textAtMost 1000000000 1120000000 = false ∧ textAtMost 1000000000 2000000000 = true.
Proof. split_and!; vm_compute; reflexivity. Qed.

(** The smallest of some stored times: [min] of the database. *)
Definition minText (first : Z) (rest : list Z) : Z := foldl (λ m t, if textBefore t m then t else m) first rest.
