(* ===== verification/Security.v ===== *)
(** * Secrets, tokens and signed envelopes ([internal/security])

    Encrypted secrets, password hashes, random identifiers, session and step-up tokens and the
    signed envelopes of the agent link.

    SHA-256, HMAC, AES-GCM and Argon2 are parameters ([Crypto]).  A function that reads random
    bytes has what [rand.Read] gives as an argument, [None] for its error; the clock is an
    argument too.  Times are nanoseconds since 1970. *)

From S2P Require Import Prelude NodeKeys Encodings JsonText StoredTimes.

Local Open Scope Z_scope.
Local Open Scope go_scope.

Class Crypto := {
  Sum256 : list ascii → list ascii;
  HMAC : list ascii → list ascii → list ascii;
  Seal : list ascii → list ascii → list ascii → list ascii → list ascii;
  Open : list ascii → list ascii → list ascii → list ascii → option (list ascii);
  IDKey : list ascii → list ascii → Z → Z → Z → Z → list ascii }.

(** What the primitives guarantee. *)
Class CryptoLaws (C : Crypto) := {
  Sum256_length data : length (Sum256 data) = 32%nat;
  HMAC_length key data : length (HMAC key data) = 32%nat;
  Open_Seal key nonce plain data : Open key nonce (Seal key nonce plain data) data = Some plain;
  IDKey_length password salt time memory threads keyLen : 0 ≤ keyLen → length (IDKey password salt time memory threads keyLen) = Z.to_nat keyLen }.

(** ** Random identifiers *)

Definition RandomToken (random : option (list ascii)) : option string := encode64 URLEncoding <$> random.

Definition setBits (keep set : Z) (a : ascii) : ascii := byteZ (Z.lor (Z.land (byte_of a) keep) set).

(** The version and the variant of a random UUID. *)
Definition uuidBytes (b : list ascii) : list ascii := alter (setBits 0x3f 0x80) 8%nat (alter (setBits 0x0f 0x40) 6%nat b).

Definition slice (from to : nat) (l : list ascii) : list ascii := take (to - from) (drop from l).

Definition uuidText (b : list ascii) : string :=
  of_bytes (joinBytes ["-"%char] ((λ part : list ascii, part ≫= hexByte) <$> [slice 0 4 b; slice 4 6 b; slice 6 8 b; slice 8 10 b; slice 10 16 b])).

Definition RandomUUID (random : option (list ascii)) : option string := (λ b, uuidText (uuidBytes b)) <$> random.

Definition hexChar (c : ascii) : bool := within 48 57 c || within 97 102 c || within 65 70 c.

(** The loop over the characters of a text of 36 bytes; a byte that is not ASCII is no digit
    whether it starts a character or not. *)
Definition uuidChar (i : nat) (c : ascii) : bool := if bool_decide (i ∈ [8; 13; 18; 23]%nat) then bool_decide (c = "-"%char) else hexChar c.

Definition ValidUUID (v : string) : bool := (String.length v =? 36)%nat && forallb (λ e, uuidChar e.1 e.2) (imap pair (bytes_of v)).

Section crypto.
Context {C : Crypto}.

Definition hmacSHA256 (key payload : string) : list ascii := HMAC (bytes_of key) (bytes_of payload).

Definition sign (secret payload : string) : string := encode64 URLEncoding (hmacSHA256 secret payload).

Definition HashSecret (secret : string) : string := hexEncode (Sum256 (bytes_of secret)).

Definition HashAPISecret (masterSecret token : string) : string :=
  hexEncode (hmacSHA256 masterSecret ("oboard-api-token-v1" +:+ String zero "" +:+ token)).

(** ** Encrypted secrets *)

Definition encryptedSecretPrefix : string := "v1.".
Definition nonceSize : nat := 12.

Definition deriveEncryptionKey (masterSecret purpose : string) : list ascii := hmacSHA256 masterSecret ("oboard-secret:" +:+ purpose).

(** [aes.NewCipher] *)
Definition validKey (key : list ascii) : bool := bool_decide (length key ∈ [16; 24; 32]%nat).

Inductive SecretErr := EmptyEncryptionSecret | InvalidKey | NoRandom | UnsupportedFormat | BadBase64 | PayloadTooShort | DecryptError.

Definition EncryptSecret (masterSecret purpose plaintext : string) (random : option (list ascii)) : result SecretErr string :=
  if (masterSecret =? "")%string then Err EmptyEncryptionSecret
  else
    let key := deriveEncryptionKey masterSecret purpose in
    if negb (validKey key) then Err InvalidKey
    else match random with
         | None => Err NoRandom
         | Some nonce => Ok (encryptedSecretPrefix +:+ encode64 URLEncoding (nonce ++ Seal key nonce (bytes_of plaintext) (bytes_of purpose)))
         end.

(** The text after a prefix. *)
Fixpoint cutPrefix (prefix s : string) : option string :=
  match prefix, s with
  | EmptyString, _ => Some s
  | String a prefix, String b s => if Ascii.eqb a b then cutPrefix prefix s else None
  | _, EmptyString => None
  end.

Definition DecryptSecret (masterSecret purpose encrypted : string) : result SecretErr string :=
  if (masterSecret =? "")%string then Err EmptyEncryptionSecret
  else match cutPrefix encryptedSecretPrefix encrypted with
  | None => Err UnsupportedFormat
  | Some text =>
      match decode64 URLEncoding text with
      | None => Err BadBase64
      | Some payload =>
          let key := deriveEncryptionKey masterSecret purpose in
          if negb (validKey key) then Err InvalidKey
          else if Nat.ltb (length payload) nonceSize then Err PayloadTooShort
          else match Open key (take nonceSize payload) (drop nonceSize payload) (bytes_of purpose) with
               | None => Err DecryptError
               | Some plaintext => Ok (of_bytes plaintext)
               end
      end
  end.

(** ** Passwords *)

Definition argonTime : Z := 1.
Definition argonMemory : Z := 64 * 1024.
Definition argonThreads : Z := 4.
Definition argonSaltLen : nat := 16.
Definition argonKeyLen : Z := 32.

Definition HashPassword (password : string) (random : option (list ascii)) : option string :=
  (λ salt,
    let hash := IDKey (bytes_of password) salt argonTime argonMemory argonThreads argonKeyLen in
    "argon2id$v=19$m=" +:+ FormatInt argonMemory +:+ ",t=" +:+ FormatInt argonTime +:+ ",p=" +:+ FormatInt argonThreads +:+ "$" +:+
    encode64 StdEncoding salt +:+ "$" +:+ encode64 StdEncoding hash) <$> random.

Record ArgonParams := { AP_memory : Z; AP_iterations : Z; AP_threads : Z }.

(** One parameter of the third part. *)
Definition argonItem (item : string) (p : ArgonParams) : option ArgonParams :=
  match cutBytes "=" (bytes_of item) with
  | None => None
  | Some (key, value) =>
      let number bits set := set <$> ParseUint (of_bytes value) bits in
      if (of_bytes key =? "m")%string then number 32 (λ v, {| AP_memory := v; AP_iterations := AP_iterations p; AP_threads := AP_threads p |})
      else if (of_bytes key =? "t")%string then number 32 (λ v, {| AP_memory := AP_memory p; AP_iterations := v; AP_threads := AP_threads p |})
      else if (of_bytes key =? "p")%string then number 8 (λ v, {| AP_memory := AP_memory p; AP_iterations := AP_iterations p; AP_threads := v |})
      else None
  end.

Fixpoint argonItems (items : list string) (p : ArgonParams) : option ArgonParams :=
  match items with
  | [] => Some p
  | item :: rest => argonItem item p ≫= argonItems rest
  end.

Definition VerifyPassword (password encoded : string) : bool :=
  match Split encoded "$" with
  | [kind; version; params; saltText; hashText] =>
      if negb (kind =? "argon2id")%string || negb (version =? "v=19")%string then false
      else match argonItems (Split params ",") {| AP_memory := 0; AP_iterations := 0; AP_threads := 0 |} with
      | None => false
      | Some p =>
          if negb (AP_memory p =? argonMemory) || negb (AP_iterations p =? argonTime) || negb (AP_threads p =? argonThreads) then false
          else match decode64 StdEncoding saltText, decode64 StdEncoding hashText with
               | Some salt, Some expected =>
                   if negb (length salt =? argonSaltLen)%nat || negb (Z.of_nat (length expected) =? argonKeyLen) then false
                   else bool_decide (IDKey (bytes_of password) salt (AP_iterations p) (AP_memory p) (AP_threads p) argonKeyLen = expected)
               | _, _ => false
               end
      end
  | _ => false
  end.

(** ** Session tokens *)

Record TokenClaims := {
  TC_Subject : Z;
  TC_Role : string;
  TC_SessionVersion : Z;
  TC_ClientBinding : string;
  TC_SessionID : string;
  TC_Expiry : Z }.

Inductive TokenErr :=
| EmptySessionSecret | EmptyClientBinding | RandomUnavailable | InvalidSessionID
| InvalidToken | InvalidEncoding | InvalidSignature | InvalidClaims | InvalidNumber | InvalidClientBinding | ExpiredToken | IncompleteClaims.

Definition sessionPayload (claims : TokenClaims) (sessionID : string) : string :=
  FormatInt (TC_Subject claims) +:+ "|" +:+ TC_Role claims +:+ "|" +:+ FormatInt (TC_SessionVersion claims) +:+ "|" +:+
  TC_ClientBinding claims +:+ "|" +:+ sessionID +:+ "|" +:+ FormatInt (Unix (TC_Expiry claims)).

(** A payload with its signature. *)
Definition signedToken (secret payload : string) : string := encode64 URLEncoding (bytes_of payload) +:+ "." +:+ sign secret payload.

Definition SignSession (secret : string) (claims : TokenClaims) (random : option (list ascii)) : result TokenErr string :=
  if (secret =? "")%string then Err EmptySessionSecret
  else if (TC_ClientBinding claims =? "")%string then Err EmptyClientBinding
  else match (if (TC_SessionID claims =? "")%string then RandomToken random else Some (TC_SessionID claims)) with
       | None => Err RandomUnavailable
       | Some sessionID => if contains "|" sessionID then Err InvalidSessionID
                           else Ok (signedToken secret (sessionPayload claims sessionID))
       end.

(** The payload of a token whose signature is valid. *)
Definition openToken (secret token : string) : result TokenErr string :=
  match Split token "." with
  | [encoded; signature] =>
      match decode64 URLEncoding encoded with
      | None => Err InvalidEncoding
      | Some payload => if (sign secret (of_bytes payload) =? signature)%string then Ok (of_bytes payload) else Err InvalidSignature
      end
  | _ => Err InvalidToken
  end.

Definition parseNumber (s : string) : result TokenErr Z := match ParseInt s with Some n => Ok n | None => Err InvalidNumber end.

Definition sessionClaims (payload : string) : result TokenErr TokenClaims :=
  match Split payload "|" with
  | [subject; role; version; binding; sessionID; expiry] =>
      let* subject := parseNumber subject in
      let* version := parseNumber version in
      if (binding =? "")%string then Err InvalidClientBinding
      else if (sessionID =? "")%string then Err InvalidSessionID
      else let* expiryUnix := parseNumber expiry in
           Ok {| TC_Subject := subject; TC_Role := role; TC_SessionVersion := version; TC_ClientBinding := binding; TC_SessionID := sessionID;
                 TC_Expiry := unixTime expiryUnix |}
  | _ => Err InvalidClaims
  end.

Definition VerifySession (secret token : string) (now : Z) : result TokenErr TokenClaims :=
  let* payload := openToken secret token in
  let* claims := sessionClaims payload in
  if TC_Expiry claims <? now then Err ExpiredToken else Ok claims.

(** ** Step-up tokens *)

Record StepUpTokenClaims := {
  SU_UserID : Z;
  SU_SessionID : string;
  SU_SessionVersion : Z;
  SU_Purpose : string;
  SU_ResourceType : string;
  SU_ResourceID : string;
  SU_Nonce : string;
  SU_IssuedAt : Z;
  SU_ExpiresAt : Z }.

Definition StepUpTokenTTL : Z := 120 * second.

Definition stepUpFields (claims : StepUpTokenClaims) : list string :=
  [FormatInt (SU_UserID claims); SU_SessionID claims; FormatInt (SU_SessionVersion claims); SU_Purpose claims; SU_ResourceType claims;
   SU_ResourceID claims; SU_Nonce claims; FormatInt (Unix (SU_IssuedAt claims)); FormatInt (Unix (SU_ExpiresAt claims))].

Definition SignStepUpToken (secret : string) (claims : StepUpTokenClaims) : result TokenErr string :=
  if (secret =? "")%string || (SU_UserID claims <=? 0) || (SU_SessionID claims =? "")%string || (SU_Purpose claims =? "")%string ||
     (SU_Nonce claims =? "")%string then Err IncompleteClaims
  else Ok (signedToken secret (Join (stepUpFields claims) "|")).

Definition stepUpClaims (payload : string) : result TokenErr StepUpTokenClaims :=
  match Split payload "|" with
  | [userID; sessionID; version; purpose; resourceType; resourceID; nonce; issued; expires] =>
      match ParseInt userID, ParseInt version, ParseInt issued, ParseInt expires with
      | Some userID, Some version, Some issued, Some expires =>
          if userID <=? 0 then Err InvalidToken
          else Ok {| SU_UserID := userID; SU_SessionID := sessionID; SU_SessionVersion := version; SU_Purpose := purpose;
                     SU_ResourceType := resourceType; SU_ResourceID := resourceID; SU_Nonce := nonce;
                     SU_IssuedAt := unixTime issued; SU_ExpiresAt := unixTime expires |}
      | _, _, _, _ => Err InvalidToken
      end
  | _ => Err InvalidToken
  end.

(** Every error before the expiry is the same. *)
Definition VerifyStepUpToken (secret token : string) (now : Z) : result TokenErr StepUpTokenClaims :=
  match openToken secret token with
  | Err _ => Err InvalidToken
  | Ok payload =>
      let* claims := stepUpClaims payload in
      if negb (now <? SU_ExpiresAt claims) then Err ExpiredToken else Ok claims
  end.

Definition StepUpTokenHash (token : string) : string := hexEncode (Sum256 (bytes_of token)).

(** ** Signed envelopes *)

Record TaskEnvelope := {
  TE_ID : Z;
  TE_ServerID : Z;
  TE_Type : string;
  TE_ConfigVersion : Z;
  TE_Nonce : string;
  TE_PayloadJSON : string }.

Local Open Scope string_scope.

Definition taskFields (t : TaskEnvelope) : list (string * field) :=
  [("id", FieldInt (TE_ID t)); ("server_id", FieldInt (TE_ServerID t)); ("type", FieldString (TE_Type t)); ("config_version", FieldInt (TE_ConfigVersion t));
   ("nonce", FieldString (TE_Nonce t)); ("payload_json", FieldString (TE_PayloadJSON t))].

Definition canonicalTaskEnvelope (t : TaskEnvelope) : string := jsonStruct (taskFields t).
Definition SignTaskEnvelope (secret : string) (t : TaskEnvelope) : string := sign secret (canonicalTaskEnvelope t).

Record InteractiveEnvelope := {
  IE_Type : string;
  IE_ServerID : Z;
  IE_SessionID : string;
  IE_Nonce : string;
  IE_IssuedAt : string;
  IE_ExpiresAt : string;
  IE_Kind : string;
  IE_Origin : string;
  IE_Cols : Z;
  IE_Rows : Z;
  IE_Mode : string }.

Definition interactiveFields (e : InteractiveEnvelope) : list (string * field) :=
  [("type", FieldString (IE_Type e)); ("server_id", FieldInt (IE_ServerID e)); ("session_id", FieldString (IE_SessionID e)); ("nonce", FieldString (IE_Nonce e));
   ("issued_at", FieldString (IE_IssuedAt e)); ("expires_at", FieldString (IE_ExpiresAt e)); ("kind", FieldString (IE_Kind e))].

Definition sizeFields (e : InteractiveEnvelope) : list (string * field) := [("cols", FieldInt (IE_Cols e)); ("rows", FieldInt (IE_Rows e))].

Definition canonicalInteractiveEnvelope (e : InteractiveEnvelope) : string := jsonStruct (interactiveFields e ++ sizeFields e).

Definition normalizeInteractiveOrigin (origin : string) : string := if String.eqb (TrimSpace origin) "mcp" then "mcp" else "human".

Definition interactiveFieldsV2 (e : InteractiveEnvelope) : list (string * field) :=
  interactiveFields e ++ [("origin", FieldString (normalizeInteractiveOrigin (IE_Origin e)))] ++ sizeFields e ++ [("mode", FieldString (TrimSpace (IE_Mode e)))].

Definition canonicalInteractiveEnvelopeV2 (e : InteractiveEnvelope) : string := jsonStruct (interactiveFieldsV2 e).

Definition withOrigin (origin : string) (e : InteractiveEnvelope) : InteractiveEnvelope :=
  {| IE_Type := IE_Type e; IE_ServerID := IE_ServerID e; IE_SessionID := IE_SessionID e; IE_Nonce := IE_Nonce e; IE_IssuedAt := IE_IssuedAt e;
     IE_ExpiresAt := IE_ExpiresAt e; IE_Kind := IE_Kind e; IE_Origin := origin; IE_Cols := IE_Cols e; IE_Rows := IE_Rows e; IE_Mode := IE_Mode e |}.

Definition SignInteractiveEnvelope (secret : string) (e : InteractiveEnvelope) : string := sign secret (canonicalInteractiveEnvelope e).
Definition SignInteractiveEnvelopeV2 (secret : string) (e : InteractiveEnvelope) : string :=
  sign secret (canonicalInteractiveEnvelopeV2 (withOrigin (normalizeInteractiveOrigin (IE_Origin e)) e)).

Definition verifies (secret expected signature : string) : bool :=
  negb (String.eqb secret "" || String.eqb signature "") && String.eqb expected signature.

Definition VerifyInteractiveEnvelope (secret : string) (e : InteractiveEnvelope) (signature : string) : bool :=
  verifies secret (SignInteractiveEnvelope secret e) signature.
Definition VerifyInteractiveEnvelopeV2 (secret : string) (e : InteractiveEnvelope) (signature : string) : bool :=
  verifies secret (SignInteractiveEnvelopeV2 secret e) signature.

Definition InteractiveProof (secret sessionID : string) (serverID : Z) (nonce expiresAt : string) : string :=
  sign secret (sessionID +:+ "|" +:+ FormatInt serverID +:+ "|" +:+ nonce +:+ "|" +:+ expiresAt).
Definition VerifyInteractiveProof (secret sessionID : string) (serverID : Z) (nonce expiresAt proof : string) : bool :=
  verifies secret (InteractiveProof secret sessionID serverID nonce expiresAt) proof.

Record AuthorizationEnvelopeFields := {
  AE_ServerID : Z;
  AE_MessageID : string;
  AE_Revision : Z;
  AE_Sequence : Z;
  AE_IssuedAt : string;
  AE_ExpiresAt : string;
  AE_LeaseJSON : string }.

Definition newline : string := String (ascii_of_nat 10) "".

Definition authorizationParts (f : AuthorizationEnvelopeFields) : list string :=
  ["authz_v1"; FormatInt (AE_ServerID f); AE_MessageID f; FormatInt (AE_Revision f); FormatInt (AE_Sequence f); AE_IssuedAt f; AE_ExpiresAt f;
   hexEncode (Sum256 (bytes_of (AE_LeaseJSON f)))].

Definition canonicalAuthorizationEnvelope (f : AuthorizationEnvelopeFields) : string := Join (authorizationParts f) newline.
Definition SignAuthorizationEnvelope (secret : string) (f : AuthorizationEnvelopeFields) : string := sign secret (canonicalAuthorizationEnvelope f).
Definition VerifyAuthorizationEnvelope (secret : string) (f : AuthorizationEnvelopeFields) (signature : string) : bool :=
  verifies secret (SignAuthorizationEnvelope secret f) signature.

Record UsersEnvelopeFields := {
  UE_ServerID : Z;
  UE_MessageID : string;
  UE_Revision : Z;
  UE_Digest : string;
  UE_UsersJSON : string }.

Definition usersParts (f : UsersEnvelopeFields) : list string :=
  ["users_v1"; FormatInt (UE_ServerID f); UE_MessageID f; FormatInt (UE_Revision f); UE_Digest f; hexEncode (Sum256 (bytes_of (UE_UsersJSON f)))].

Definition canonicalUsersEnvelope (f : UsersEnvelopeFields) : string := Join (usersParts f) newline.
Definition SignUsersEnvelope (secret : string) (f : UsersEnvelopeFields) : string := sign secret (canonicalUsersEnvelope f).
Definition VerifyUsersEnvelope (secret : string) (f : UsersEnvelopeFields) (signature : string) : bool :=
  verifies secret (SignUsersEnvelope secret f) signature.
End crypto.
