(* ===== verification/SecuritySafety.v ===== *)
(** * What secrets, tokens and signatures guarantee

    Encrypted secrets, password hashes and tokens give back what was put in; a token is accepted
    only with a signature of its payload, for its own kind and before it expires; the signed
    texts of envelopes determine the envelopes. *)

From S2P Require Import Prelude NodeKeys Encodings JsonText StoredTimes Security.

Local Open Scope Z_scope.

(** ** Texts *)

Lemma fmap_bytes_of (l : list string) : of_bytes <$> (bytes_of <$> l) = l.
Proof. rewrite <-list_fmap_compose. rewrite <-(list_fmap_id l) at 2. apply list_fmap_ext. intros i x _. apply of_bytes_bytes_of. Qed.

(** The parts of a joined text. *)
Lemma Split_Join parts sep : parts ≠ [] → Forall (λ s, contains sep s = false) parts → Split (Join parts (String sep "")) sep = parts.
Proof.
  intros Hne H. unfold Split, Join. rewrite bytes_of_of_bytes. change (bytes_of (String sep "")) with [sep].
  rewrite split_join; [apply fmap_bytes_of| |].
  - by destruct parts.
  - rewrite Forall_fmap. eapply Forall_impl; [exact H|]. intros s Hs. by apply bool_decide_eq_false in Hs.
Qed.

(** A joined text has at least as many parts. *)
Lemma length_Split_Join (parts : list string) sep : parts ≠ [] →
  length (Split (Join parts (String sep "")) sep) = (length parts + sum_list (occurrences sep <$> (bytes_of <$> parts)))%nat.
Proof.
  intros Hne. unfold Split, Join. rewrite length_fmap, length_split, bytes_of_of_bytes. change (bytes_of (String sep "")) with [sep].
  rewrite occurrences_join by (by destruct parts). rewrite length_fmap. destruct parts; [done|]. cbn [length]. lia.
Qed.

Lemma sum_list_zero l : sum_list l = 0%nat ↔ Forall (λ n, n = 0%nat) l.
Proof. induction l as [|n l IH]; [done|]. change (sum_list (n :: l)) with (n + sum_list l)%nat. rewrite Forall_cons, <-IH. lia. Qed.

Lemma Split_Join_unclean parts sep : parts ≠ [] → ¬ Forall (λ s, contains sep s = false) parts →
  (length parts < length (Split (Join parts (String sep "")) sep))%nat.
Proof.
  intros Hne H. rewrite length_Split_Join by done. destruct (sum_list _) eqn:Hs; [|lia]. exfalso. apply H.
  apply sum_list_zero in Hs. rewrite !Forall_fmap in Hs. eapply Forall_impl; [exact Hs|]. cbn. intros s Hz%occurrences_none. by apply bool_decide_eq_false.
Qed.

(** ** Numbers *)

Definition int64 (n : Z) : Prop := int64_min ≤ n ≤ int64_max.

Lemma ParseInt_int64 n : int64 n → ParseInt (FormatInt n) = Some n.
Proof.
  intros [Hlo Hhi]. destruct (Z.lt_trichotomy n 0) as [Hn|[->|Hn]]; [|done|by apply ParseInt_FormatInt].
  destruct n as [|p|p]; [done..|]. change (FormatInt (Z.neg p)) with ("-" +:+ FormatInt (Z.pos p))%string.
  assert (FormatInt (Z.pos p) = pretty_N_go (N.pos p) "") as -> by done.
  pose proof (parse_digits_go (N.pos p) "") as Hp. unfold ParseInt. rewrite bytes_of_app. change (bytes_of "-") with ["-"%char]. cbn [app].
  change (parse_digits (bytes_of "") (Z.of_N (N.pos p))) with (Some (Z.pos p)) in Hp.
  destruct (bytes_of (pretty_N_go (N.pos p) "")) as [|a l]; [discriminate Hp|].
  destruct (ascii_dec "-" "+"); [done|]. destruct (ascii_dec "-" "-"); [|done]. rewrite Hp.
  change (- Z.pos p) with (Z.neg p). rewrite (proj2 (Z.leb_le _ _) Hlo), (proj2 (Z.leb_le _ _) Hhi). done.
Qed.

Lemma FormatInt_clean n c : is_digit c = false → c ≠ "-"%char → contains c (FormatInt n) = false.
Proof.
  intros Hd Hm. apply bool_decide_eq_false. intros Hin. pose proof (FormatInt_digits n) as H. rewrite Forall_forall in H.
  destruct (H c Hin); congruence.
Qed.

(** Times whose seconds since year 1 are a 64-bit integer, cut to seconds. *)
Definition timeRange (t : Z) : Prop := int64 (Unix t) ∧ int64 (Unix t + unixToInternal).
Definition cutTime (t : Z) : Z := Unix t * second.

Lemma unixTime_Unix t : timeRange t → unixTime (Unix t) = cutTime t.
Proof.
  intros [_ H]. unfold unixTime, cutTime. rewrite int_wrap_small; [f_equal; lia|]. unfold int64, int64_min, int64_max in H. lia.
Qed.

(** ** Encrypted secrets *)

Section laws.
Context {C : Crypto} {CL : CryptoLaws C}.

Lemma derivedKey_valid masterSecret purpose : validKey (deriveEncryptionKey masterSecret purpose) = true.
Proof. unfold validKey, deriveEncryptionKey, hmacSHA256. rewrite HMAC_length. by apply bool_decide_eq_true; set_solver. Qed.

Lemma cutPrefix_app prefix s : cutPrefix prefix (prefix +:+ s) = Some s.
Proof. induction prefix as [|a prefix IH]; [done|]. change (String a prefix +:+ s) with (String a (prefix +:+ s)). cbn [cutPrefix]. by rewrite Ascii.eqb_refl. Qed.

Lemma encrypt_decrypt masterSecret purpose plaintext nonce : masterSecret ≠ ""%string → length nonce = nonceSize →
  ∃ encrypted, EncryptSecret masterSecret purpose plaintext (Some nonce) = Ok encrypted ∧ DecryptSecret masterSecret purpose encrypted = Ok plaintext.
Proof.
  intros Hs Hn. unfold EncryptSecret, DecryptSecret. rewrite (proj2 (String.eqb_neq _ _) Hs), derivedKey_valid. cbn [negb]. eexists. split; [done|].
  rewrite cutPrefix_app, decode64_encode64 by done. rewrite (proj2 (Nat.ltb_ge _ _)) by (rewrite length_app; lia).
  rewrite take_app_length', drop_app_length' by done. rewrite Open_Seal. by rewrite of_bytes_bytes_of.
Qed.
End laws.

(** ** Tokens *)

Lemma Join_cons a b l sep : Join (a :: b :: l) sep = a +:+ sep +:+ Join (b :: l) sep.
Proof. apply bytes_of_inj. unfold Join. rewrite !bytes_of_app, !bytes_of_of_bytes. done. Qed.

Lemma Join_one a sep : Join [a] sep = a.
Proof. apply of_bytes_bytes_of. Qed.

Lemma encode64_no_dot enc l : enc = URLEncoding → "."%char ∉ bytes_of (encode64 enc l).
Proof. intros ->. apply encode64_not. vm_compute. reflexivity. Qed.

Local Ltac refuse :=
  split; [done|intros (? & ? & ? & ?); simplify_eq;
    repeat match goal with H1 : ?x = Ok _, H2 : ?x = Ok _ |- _ => rewrite H1 in H2; injection H2 as <- end; first [congruence|lia]].

Section tokens.
Context {C : Crypto}.

Lemma open_signed secret payload : openToken secret (signedToken secret payload) = Ok payload.
Proof.
  unfold openToken. assert (Split (signedToken secret payload) "." = [encode64 URLEncoding (bytes_of payload); sign secret payload]) as ->.
  { unfold Split, signedToken, sign. rewrite !bytes_of_app. change (bytes_of ".") with ["."%char]. cbn [app].
    rewrite splitBytes_sep, splitBytes_plain by (by apply encode64_no_dot). cbn [fmap list_fmap]. by rewrite !of_bytes_bytes_of. }
  rewrite decode64_encode64 by done. rewrite of_bytes_bytes_of, String.eqb_refl. done.
Qed.

(** What a valid token carries. *)
Lemma open_Ok secret token payload : openToken secret token = Ok payload ↔
  ∃ encoded, Split token "." = [encoded; sign secret payload] ∧ decode64 URLEncoding encoded = Some (bytes_of payload).
Proof.
  unfold openToken. split.
  - destruct (Split token ".") as [|encoded [|signature [|]]]; [done..| |done]. destruct (decode64 _ _) as [l|] eqn:Hd; [|done].
    destruct (String.eqb_spec (sign secret (of_bytes l)) signature) as [<-|]; [|done]. intros [= <-]. exists encoded. by rewrite bytes_of_of_bytes.
  - intros (encoded & -> & ->). by rewrite of_bytes_bytes_of, String.eqb_refl.
Qed.

(** A line break before a token changes the text and not what it carries. *)
Lemma open_reencoded secret token c payload : lineBreak c = true → openToken secret token = Ok payload → openToken secret (String c token) = Ok payload.
Proof.
  intros Hc. rewrite !open_Ok. intros (encoded & Hs & Hd). unfold Split in Hs |- *. cbn [bytes_of].
  change (c :: bytes_of token) with ([c] ++ bytes_of token). rewrite splitBytes_app.
  2: { intros <-%list_elem_of_singleton. by vm_compute in Hc. }
  destruct (splitBytes "." (bytes_of token)) as [|first others]; [done|]. rewrite fmap_cons in Hs. injection Hs as <- Hs.
  exists (of_bytes ([c] ++ first)). rewrite fmap_cons, Hs. split; [done|]. rewrite <-Hd. apply (decode64_lineBreak URLEncoding [] c first Hc).
Qed.

Definition sessionFields (claims : TokenClaims) (sessionID : string) : list string :=
  [FormatInt (TC_Subject claims); TC_Role claims; FormatInt (TC_SessionVersion claims); TC_ClientBinding claims; sessionID; FormatInt (Unix (TC_Expiry claims))].

Lemma sessionPayload_Join claims sessionID : sessionPayload claims sessionID = Join (sessionFields claims sessionID) "|".
Proof. unfold sessionFields. by rewrite !Join_cons, Join_one. Qed.

(** Claims of a login that its token can carry. *)
Record sessionReady (claims : TokenClaims) : Prop := {
  ready_subject : int64 (TC_Subject claims);
  ready_version : int64 (TC_SessionVersion claims);
  ready_expiry : timeRange (TC_Expiry claims);
  ready_role : contains "|" (TC_Role claims) = false;
  ready_binding : contains "|" (TC_ClientBinding claims) = false }.

Lemma sessionClaims_payload claims sessionID : sessionReady claims → contains "|" sessionID = false → TC_ClientBinding claims ≠ ""%string → sessionID ≠ ""%string →
  sessionClaims (sessionPayload claims sessionID) =
  Ok {| TC_Subject := TC_Subject claims; TC_Role := TC_Role claims; TC_SessionVersion := TC_SessionVersion claims; TC_ClientBinding := TC_ClientBinding claims;
        TC_SessionID := sessionID; TC_Expiry := cutTime (TC_Expiry claims) |}.
Proof.
  intros [Hs Hv He Hr Hb] Hid Hbn Hidn. unfold sessionClaims. rewrite sessionPayload_Join, Split_Join.
  - unfold sessionFields, parseNumber. rewrite !ParseInt_int64 by (done || apply He). cbn [rbind].
    by rewrite (proj2 (String.eqb_neq _ _) Hbn), (proj2 (String.eqb_neq _ _) Hidn), unixTime_Unix.
  - done.
  - repeat constructor; try done; by apply FormatInt_clean.
Qed.

(** C28. A signed session token is verified exactly until it expires, and gives back the claims of
    the login: subject, role, session version and client binding, the given or generated session
    identifier, and the expiry in seconds. *)
Theorem session_token_exact secret claims random token now : SignSession secret claims random = Ok token → sessionReady claims → random ≠ Some [] →
  ∃ sessionID, (if String.eqb (TC_SessionID claims) "" then RandomToken random = Some sessionID else sessionID = TC_SessionID claims) ∧
  VerifySession secret token now =
    if cutTime (TC_Expiry claims) <? now then Err ExpiredToken
    else Ok {| TC_Subject := TC_Subject claims; TC_Role := TC_Role claims; TC_SessionVersion := TC_SessionVersion claims;
               TC_ClientBinding := TC_ClientBinding claims; TC_SessionID := sessionID; TC_Expiry := cutTime (TC_Expiry claims) |}.
Proof.
  unfold SignSession. intros Hsign Hready Hrandom. case_match; [done|]. destruct (String.eqb_spec (TC_ClientBinding claims) "") as [|Hb]; [done|].
  destruct (if String.eqb (TC_SessionID claims) "" then RandomToken random else Some (TC_SessionID claims)) as [sessionID|] eqn:Hid; [|done].
  destruct (contains "|" sessionID) eqn:Hc; [done|]. injection Hsign as <-. exists sessionID.
  assert (sessionID ≠ ""%string) as Hne.
  { destruct (String.eqb_spec (TC_SessionID claims) ""); [|congruence]. destruct random as [[|a [|b [|c l]]]|]; [done| | | |discriminate Hid]; by injection Hid as <-. }
  split; [case_match; congruence|]. unfold VerifySession. rewrite open_signed. cbn [rbind]. by rewrite sessionClaims_payload.
Qed.

(** C12. A token is accepted as a session or as a step-up token only if its second part is the
    signature of the payload its first part encodes, the payload has the claims, and it has not
    expired.  No token is accepted as both. *)
Theorem token_authentic secret token now :
  (∀ claims, VerifySession secret token now = Ok claims ↔ now ≤ TC_Expiry claims ∧
     ∃ encoded payload, Split token "." = [encoded; sign secret payload] ∧ decode64 URLEncoding encoded = Some (bytes_of payload) ∧ sessionClaims payload = Ok claims) ∧
  (∀ claims, VerifyStepUpToken secret token now = Ok claims ↔ now < SU_ExpiresAt claims ∧
     ∃ encoded payload, Split token "." = [encoded; sign secret payload] ∧ decode64 URLEncoding encoded = Some (bytes_of payload) ∧ stepUpClaims payload = Ok claims) ∧
  ¬ (∃ claims claims', VerifySession secret token now = Ok claims ∧ VerifyStepUpToken secret token now = Ok claims').
Proof.
  assert (∀ claims, VerifySession secret token now = Ok claims ↔ ∃ payload, openToken secret token = Ok payload ∧ sessionClaims payload = Ok claims ∧ now ≤ TC_Expiry claims) as Hs.
  { intros claims. unfold VerifySession. destruct (openToken secret token) as [payload|]; cbn [rbind]; [|refuse].
    destruct (sessionClaims payload) as [cl|] eqn:Hcl; cbn [rbind]; [|refuse]. destruct (Z.ltb_spec (TC_Expiry cl) now); [refuse|].
    split; [intros [= <-]; eauto with lia|]. intros (? & [= <-] & ? & _). congruence. }
  assert (∀ claims, VerifyStepUpToken secret token now = Ok claims ↔ ∃ payload, openToken secret token = Ok payload ∧ stepUpClaims payload = Ok claims ∧ now < SU_ExpiresAt claims) as Hu.
  { intros claims. unfold VerifyStepUpToken. destruct (openToken secret token) as [payload|]; cbn [rbind]; [|refuse].
    destruct (stepUpClaims payload) as [cl|] eqn:Hcl; cbn [rbind]; [|refuse]. destruct (Z.ltb_spec now (SU_ExpiresAt cl)); cbn [negb]; [|refuse].
    split; [intros [= <-]; eauto with lia|]. intros (? & [= <-] & ? & _). congruence. }
  split_and!.
  - intros claims. rewrite Hs. setoid_rewrite open_Ok. naive_solver.
  - intros claims. rewrite Hu. setoid_rewrite open_Ok. naive_solver.
  - intros (c1 & c2 & (p1 & Ho1 & H1 & _)%Hs & (p2 & Ho2 & H2 & _)%Hu). assert (p1 = p2) as -> by congruence. unfold sessionClaims in H1. unfold stepUpClaims in H2.
    by destruct (Split p2 "|") as [|? [|? [|? [|? [|? [|? [|]]]]]]].
Qed.

(** *** Step-up tokens *)

Definition stepUpClean (claims : StepUpTokenClaims) : bool :=
  forallb (λ s, negb (contains "|" s)) [SU_SessionID claims; SU_Purpose claims; SU_ResourceType claims; SU_ResourceID claims; SU_Nonce claims].

Definition cutClaims (claims : StepUpTokenClaims) : StepUpTokenClaims :=
  {| SU_UserID := SU_UserID claims; SU_SessionID := SU_SessionID claims; SU_SessionVersion := SU_SessionVersion claims; SU_Purpose := SU_Purpose claims;
     SU_ResourceType := SU_ResourceType claims; SU_ResourceID := SU_ResourceID claims; SU_Nonce := SU_Nonce claims;
     SU_IssuedAt := cutTime (SU_IssuedAt claims); SU_ExpiresAt := cutTime (SU_ExpiresAt claims) |}.

Lemma stepUpFields_clean claims : stepUpClean claims = true ↔ Forall (λ s, contains "|" s = false) (stepUpFields claims).
Proof.
  unfold stepUpClean, stepUpFields. cbn [forallb]. rewrite !andb_true_iff, !negb_true_iff, !Forall_cons.
  rewrite !FormatInt_clean by done. pose proof (Forall_nil_2 (λ s, contains "|" s = false)). tauto.
Qed.

Lemma stepUpClaims_payload claims : int64 (SU_UserID claims) → int64 (SU_SessionVersion claims) → timeRange (SU_IssuedAt claims) → timeRange (SU_ExpiresAt claims) →
  0 < SU_UserID claims →
  stepUpClaims (Join (stepUpFields claims) "|") = if stepUpClean claims then Ok (cutClaims claims) else Err InvalidToken.
Proof.
  intros Hu Hv Hi He Hpos. unfold stepUpClaims. destruct (stepUpClean claims) eqn:Hc.
  - apply stepUpFields_clean in Hc. rewrite Split_Join by done. unfold stepUpFields. rewrite !ParseInt_int64 by (done || apply Hi || apply He).
    by rewrite (proj2 (Z.leb_gt _ _) Hpos), !unixTime_Unix.
  - assert (9 < length (Split (Join (stepUpFields claims) "|") "|"))%nat as Hlen.
    { apply (Split_Join_unclean (stepUpFields claims)); [done|]. rewrite <-stepUpFields_clean. by rewrite Hc. }
    destruct (Split _ _) as [|? [|? [|? [|? [|? [|? [|? [|? [|? [|]]]]]]]]]]; cbn in Hlen; (lia || done).
Qed.

(** A signed step-up token is verified exactly until it expires, and gives back its user,
    session, purpose, resource and nonce; a token one of whose texts contains the separator is
    refused rather than read as other claims. *)
Theorem step_up_token_exact secret claims token now : SignStepUpToken secret claims = Ok token →
  int64 (SU_UserID claims) → int64 (SU_SessionVersion claims) → timeRange (SU_IssuedAt claims) → timeRange (SU_ExpiresAt claims) →
  VerifyStepUpToken secret token now =
  if stepUpClean claims then (if now <? cutTime (SU_ExpiresAt claims) then Ok (cutClaims claims) else Err ExpiredToken) else Err InvalidToken.
Proof.
  unfold SignStepUpToken. destruct (String.eqb secret "") eqn:Hsec; cbn [orb]; [done|]. destruct (Z.leb_spec (SU_UserID claims) 0); cbn [orb]; [done|].
  case_match; [done|]. intros [= <-] Hu Hv Hi He. unfold VerifyStepUpToken. rewrite open_signed, stepUpClaims_payload by done.
  destruct (stepUpClean claims); [|done]. cbn [rbind]. change (SU_ExpiresAt (cutClaims claims)) with (cutTime (SU_ExpiresAt claims)).
  by destruct (now <? cutTime (SU_ExpiresAt claims)).
Qed.

(** ** Passwords *)

Definition argon (password : string) (salt : list ascii) : list ascii := IDKey (bytes_of password) salt argonTime argonMemory argonThreads argonKeyLen.

Lemma encode64_no_dollar enc l : enc = StdEncoding → "$"%char ∉ bytes_of (encode64 enc l).
Proof. intros ->. apply encode64_not. vm_compute. reflexivity. Qed.

Lemma Split_sep a s sep : contains sep a = false → Split (a +:+ String sep s) sep = a :: Split s sep.
Proof.
  intros H%bool_decide_eq_false. unfold Split. rewrite bytes_of_app. cbn [bytes_of]. rewrite splitBytes_sep by done. rewrite fmap_cons, of_bytes_bytes_of. done.
Qed.

Lemma Split_plain a sep : contains sep a = false → Split a sep = [a].
Proof. intros H%bool_decide_eq_false. unfold Split. rewrite splitBytes_plain by done. cbn. by rewrite of_bytes_bytes_of. Qed.

Definition argonText : string := "m=65536,t=1,p=4".

Lemma argonText_params : argonItems (Split argonText ",") {| AP_memory := 0; AP_iterations := 0; AP_threads := 0 |} =
  Some {| AP_memory := argonMemory; AP_iterations := argonTime; AP_threads := argonThreads |}.
Proof. vm_compute. reflexivity. Qed.

Lemma hash_text password salt : HashPassword password (Some salt) =
  Some ("argon2id$v=19$" +:+ argonText +:+ "$" +:+ encode64 StdEncoding salt +:+ "$" +:+ encode64 StdEncoding (argon password salt)).
Proof. reflexivity. Qed.

Lemma split_hash salt hash :
  Split ("argon2id$v=19$" +:+ argonText +:+ "$" +:+ encode64 StdEncoding salt +:+ "$" +:+ encode64 StdEncoding hash) "$" =
  ["argon2id"; "v=19"; argonText; encode64 StdEncoding salt; encode64 StdEncoding hash]%string.
Proof.
  change ("argon2id$v=19$" +:+ argonText +:+ "$" +:+ ?r) with ("argon2id" +:+ String "$" ("v=19" +:+ String "$" (argonText +:+ String "$" r))).
  assert (∀ l, contains "$" (encode64 StdEncoding l) = false) as Hc by (intros l; apply bool_decide_eq_false; by apply encode64_no_dollar).
  rewrite !Split_sep by (done || vm_compute; reflexivity). change ("$" +:+ ?r) with (String "$" r). by rewrite Split_sep, Split_plain.
Qed.

(** C27. A password is accepted for a hash of another exactly when Argon2 gives both the same
    key with the salt; and a hash of any origin is accepted only with the configured cost
    parameters, a salt of 16 and a key of 32 bytes. *)
Theorem password_exact {CL : CryptoLaws C} password encoded :
  (∀ other salt, length salt = argonSaltLen → HashPassword other (Some salt) = Some encoded →
     VerifyPassword password encoded = bool_decide (argon password salt = argon other salt)) ∧
  (VerifyPassword password encoded = true → ∃ params saltText hashText salt,
     Split encoded "$" = ["argon2id"; "v=19"; params; saltText; hashText]%string ∧
     argonItems (Split params ",") {| AP_memory := 0; AP_iterations := 0; AP_threads := 0 |} =
       Some {| AP_memory := argonMemory; AP_iterations := argonTime; AP_threads := argonThreads |} ∧
     decode64 StdEncoding saltText = Some salt ∧ length salt = argonSaltLen ∧ decode64 StdEncoding hashText = Some (argon password salt)).
Proof.
  split.
  - intros other salt Hsalt. rewrite hash_text. intros [= <-]. unfold VerifyPassword. rewrite split_hash. cbn [String.eqb negb orb]. rewrite argonText_params. cbn [AP_memory AP_iterations AP_threads]. rewrite !Z.eqb_refl. cbn [negb orb].
    rewrite !decode64_encode64 by done. unfold argon. rewrite Hsalt, Nat.eqb_refl, IDKey_length by done. done.
  - unfold VerifyPassword. destruct (Split encoded "$") as [|kind [|version [|params [|saltText [|hashText [|]]]]]]; try done.
    destruct (String.eqb_spec kind "argon2id") as [->|]; [|done]. destruct (String.eqb_spec version "v=19") as [->|]; [|done]. cbn [negb orb].
    destruct (argonItems _ _) as [[m t p]|] eqn:Hp; [|done]. cbn [AP_memory AP_iterations AP_threads].
    destruct (Z.eqb_spec m argonMemory) as [->|]; [|done]. destruct (Z.eqb_spec t argonTime) as [->|]; [|done].
    destruct (Z.eqb_spec p argonThreads) as [->|]; [|done]. cbn [negb orb]. destruct (decode64 StdEncoding saltText) as [salt|] eqn:Hs; [|done].
    destruct (decode64 StdEncoding hashText) as [expected|] eqn:Hh; [|done]. destruct (Nat.eqb_spec (length salt) argonSaltLen) as [Hl|]; [|done]. cbn [negb orb].
    case_match; [done|]. intros Heq%bool_decide_eq_true. exists params, saltText, hashText, salt. unfold argon. by rewrite Heq.
Qed.
End tokens.

(** ** Random identifiers *)

Lemma hexDigit_char n : 0 ≤ n < 16 → hexChar (hexDigit n) = true.
Proof.
  intros Hn. assert (forallb (λ i, hexChar (hexDigit (Z.of_nat i))) (seq 0 16) = true) as H by (vm_compute; reflexivity).
  rewrite forallb_forall in H. specialize (H (Z.to_nat n)). rewrite Z2Nat.id in H by lia. apply H, in_seq. lia.
Qed.

Lemma hexByte_chars a : ∃ x y, hexByte a = [x; y] ∧ hexChar x = true ∧ hexChar y = true.
Proof.
  eexists _, _. split; [done|]. pose proof (byte_of_range a). split; apply hexDigit_char; Z.to_euclidean_division_equations; lia.
Qed.

(** The text of 16 bytes has the shape that the validation asks for. *)
Lemma uuid_valid b : length b = 16%nat → ValidUUID (uuidText (uuidBytes b)) = true.
Proof.
  intros Hb. assert (length (uuidBytes b) = 16%nat) as Hl by (unfold uuidBytes; by rewrite !length_alter).
  generalize dependent (uuidBytes b). clear b Hb. intros b Hl. do 17 (destruct b as [|? b]; [try done|]); [|done].
  unfold uuidText, slice. cbn [drop take fmap list_fmap mbind list_bind app Nat.sub].
  repeat match goal with |- context [hexByte ?a] => let H := fresh in destruct (hexByte_chars a) as (? & ? & -> & H & ?) end.
  cbn [app joinBytes of_bytes]. unfold ValidUUID. rewrite andb_true_iff. split; [done|]. cbn [bytes_of of_bytes imap forallb fst snd compose].
  unfold uuidChar. cbn. repeat match goal with H : hexChar ?x = true |- _ => rewrite H; clear H end. done.
Qed.

(** ** Signed envelopes *)

Lemma hexDigit_inj m n : 0 ≤ m < 16 → 0 ≤ n < 16 → hexDigit m = hexDigit n → m = n.
Proof.
  intros Hm Hn Heq. assert (forallb (λ i, bool_decide (indexOf (hexDigit (Z.of_nat i)) hexDigits 0 = Some (Z.of_nat i))) (seq 0 16) = true) as H by (vm_compute; reflexivity).
  rewrite forallb_forall in H. assert (∀ k, 0 ≤ k < 16 → indexOf (hexDigit k) hexDigits 0 = Some k) as Hk.
  { intros k Hk. specialize (H (Z.to_nat k)). rewrite Z2Nat.id in H by lia. rewrite in_seq in H. by apply bool_decide_eq_true in H; [|lia]. }
  pose proof (Hk m Hm) as H1. rewrite Heq, (Hk n Hn) in H1. congruence.
Qed.

Lemma hexEncode_inj l1 l2 : hexEncode l1 = hexEncode l2 → l1 = l2.
Proof.
  unfold hexEncode. intros H. apply (f_equal bytes_of) in H. rewrite !bytes_of_of_bytes in H. revert l2 H.
  induction l1 as [|a l1 IH]; intros [|b l2] H; [done..|]. cbn [mbind list_bind] in H. unfold hexByte in H. cbn [app] in H. injection H as H1 H2 H3.
  pose proof (byte_of_range a). pose proof (byte_of_range b).
  apply hexDigit_inj in H1; [|Z.to_euclidean_division_equations; lia..]. apply hexDigit_inj in H2; [|Z.to_euclidean_division_equations; lia..].
  f_equal; [|by apply IH]. rewrite <-(byteZ_byte_of a), <-(byteZ_byte_of b). f_equal. rewrite (Z.div_mod (byte_of a) 16), (Z.div_mod (byte_of b) 16); lia.
Qed.

Lemma hexEncode_clean l c : forallb (λ i, bool_decide (hexDigit (Z.of_nat i) ≠ c)) (seq 0 16) = true → contains c (hexEncode l) = false.
Proof.
  intros H. rewrite forallb_forall in H. apply bool_decide_eq_false. unfold hexEncode. rewrite bytes_of_of_bytes. intros (a & Ha & _)%list_elem_of_bind.
  assert (∀ k, 0 ≤ k < 16 → c ≠ hexDigit k) as Hk.
  { intros k Hk ->. specialize (H (Z.to_nat k)). rewrite Z2Nat.id in H by lia. rewrite in_seq in H. by apply bool_decide_eq_true in H; [|lia]. }
  pose proof (byte_of_range a). unfold hexByte in Ha.
  apply elem_of_cons in Ha as [-> | ->%list_elem_of_singleton]; eapply Hk; try reflexivity; Z.to_euclidean_division_equations; lia.
Qed.

(** The messages a controller signs for an agent, with the same key. *)
Inductive Message :=
| TaskMessage (t : TaskEnvelope)
| InteractiveMessage (e : InteractiveEnvelope)
| InteractiveMessageV2 (e : InteractiveEnvelope)
| AuthorizationMessage (f : AuthorizationEnvelopeFields)
| UsersMessage (f : UsersEnvelopeFields).

Section envelopes.
Context {C : Crypto}.

Definition SignMessage (secret : string) (m : Message) : string :=
  match m with
  | TaskMessage t => SignTaskEnvelope secret t
  | InteractiveMessage e => SignInteractiveEnvelope secret e
  | InteractiveMessageV2 e => SignInteractiveEnvelopeV2 secret e
  | AuthorizationMessage f => SignAuthorizationEnvelope secret f
  | UsersMessage f => SignUsersEnvelope secret f
  end.

Definition canonicalMessage (m : Message) : string :=
  match m with
  | TaskMessage t => canonicalTaskEnvelope t
  | InteractiveMessage e => canonicalInteractiveEnvelope e
  | InteractiveMessageV2 e => canonicalInteractiveEnvelopeV2 e
  | AuthorizationMessage f => canonicalAuthorizationEnvelope f
  | UsersMessage f => canonicalUsersEnvelope f
  end.

Definition oneLine (s : string) : Prop := contains (ascii_of_nat 10) s = false.

Definition interactiveTexts (e : InteractiveEnvelope) : list string :=
  [IE_Type e; IE_SessionID e; IE_Nonce e; IE_IssuedAt e; IE_ExpiresAt e; IE_Kind e; TrimSpace (IE_Mode e)].

(** Texts are UTF-8, and those that are joined by line breaks have none. *)
Definition messageReady (m : Message) : Prop :=
  match m with
  | TaskMessage t => Forall (λ s, validUTF8 s = true) [TE_Type t; TE_Nonce t; TE_PayloadJSON t]
  | InteractiveMessage e | InteractiveMessageV2 e => Forall (λ s, validUTF8 s = true) (interactiveTexts e)
  | AuthorizationMessage f => Forall oneLine [AE_MessageID f; AE_IssuedAt f; AE_ExpiresAt f]
  | UsersMessage f => Forall oneLine [UE_MessageID f; UE_Digest f]
  end.

Definition interactiveContent (e : InteractiveEnvelope) : string * Z * string * string * string * string * string * Z * Z :=
  (IE_Type e, IE_ServerID e, IE_SessionID e, IE_Nonce e, IE_IssuedAt e, IE_ExpiresAt e, IE_Kind e, IE_Cols e, IE_Rows e).

(** Messages of one kind with the same fields, for long texts the same hash. *)
Definition sameContent (m m' : Message) : Prop :=
  match m, m' with
  | TaskMessage t, TaskMessage t' => t = t'
  | InteractiveMessage e, InteractiveMessage e' => interactiveContent e = interactiveContent e'
  | InteractiveMessageV2 e, InteractiveMessageV2 e' =>
      interactiveContent e = interactiveContent e' ∧ normalizeInteractiveOrigin (IE_Origin e) = normalizeInteractiveOrigin (IE_Origin e') ∧
      TrimSpace (IE_Mode e) = TrimSpace (IE_Mode e')
  | AuthorizationMessage f, AuthorizationMessage f' =>
      (AE_ServerID f, AE_MessageID f, AE_Revision f, AE_Sequence f, AE_IssuedAt f, AE_ExpiresAt f) =
      (AE_ServerID f', AE_MessageID f', AE_Revision f', AE_Sequence f', AE_IssuedAt f', AE_ExpiresAt f') ∧
      Sum256 (bytes_of (AE_LeaseJSON f)) = Sum256 (bytes_of (AE_LeaseJSON f'))
  | UsersMessage f, UsersMessage f' =>
      (UE_ServerID f, UE_MessageID f, UE_Revision f, UE_Digest f) = (UE_ServerID f', UE_MessageID f', UE_Revision f', UE_Digest f') ∧
      Sum256 (bytes_of (UE_UsersJSON f)) = Sum256 (bytes_of (UE_UsersJSON f'))
  | _, _ => False
  end.

(** The two forms of canonical texts. *)
Definition messageText (m : Message) : list (string * field) + list string :=
  match m with
  | TaskMessage t => inl (taskFields t)
  | InteractiveMessage e => inl (interactiveFields e ++ sizeFields e)
  | InteractiveMessageV2 e => inl (interactiveFieldsV2 e)
  | AuthorizationMessage f => inr (authorizationParts f)
  | UsersMessage f => inr (usersParts f)
  end.

Lemma canonical_text m : canonicalMessage m = match messageText m with inl fields => jsonStruct fields | inr parts => Join parts newline end.
Proof. by destruct m. Qed.

Lemma normalizeOrigin_valid o : validUTF8 (normalizeInteractiveOrigin o) = true.
Proof. unfold normalizeInteractiveOrigin. by case_match. Qed.

Lemma normalizeOrigin_idem o : normalizeInteractiveOrigin (normalizeInteractiveOrigin o) = normalizeInteractiveOrigin o.
Proof. unfold normalizeInteractiveOrigin. by destruct (String.eqb (TrimSpace o) "mcp"). Qed.

Lemma text_ready m : messageReady m →
  match messageText m with inl fields => Forall validMember fields | inr parts => parts ≠ [] ∧ Forall oneLine parts end.
Proof.
  assert (∀ n, oneLine (FormatInt n)) as Hn by (intros n; by apply FormatInt_clean).
  assert (∀ l, oneLine (hexEncode l)) as Hh by (intros l; apply hexEncode_clean; vm_compute; reflexivity).
  destruct m as [t|e|e|f|f]; cbn [messageReady messageText]; unfold interactiveTexts; rewrite !Forall_cons; intros H;
    repeat match goal with H : _ ∧ _ |- _ => destruct H end.
  1-3: unfold taskFields, interactiveFieldsV2, interactiveFields, sizeFields; cbn [app];
    repeat (apply Forall_cons_2; [split; cbn [fst snd validField]; (done || apply normalizeOrigin_valid)|]); apply Forall_nil_2.
  all: split; [done|]; unfold authorizationParts, usersParts; repeat (apply Forall_cons_2; [done|]); apply Forall_nil_2.
Qed.

Lemma text_inj m m' : messageReady m → messageReady m' → canonicalMessage m = canonicalMessage m' → messageText m = messageText m'.
Proof.
  intros H%text_ready H'%text_ready. rewrite !canonical_text.
  assert (∀ m parts fields, messageText m = inr parts → Join parts newline ≠ jsonStruct fields) as Hne.
  { intros [| | |f|f] parts fields [= <-] Heq; apply (f_equal bytes_of) in Heq; unfold authorizationParts, usersParts in Heq; rewrite Join_cons, bytes_of_app in Heq;
      unfold jsonStruct in Heq; rewrite bytes_of_of_bytes in Heq; discriminate Heq. }
  destruct (messageText m) as [f|p] eqn:Hm, (messageText m') as [f'|p'] eqn:Hm'; intros Heq.
  - f_equal. by apply jsonStruct_inj.
  - symmetry in Heq. by apply (Hne m') in Heq.
  - by apply (Hne m) in Heq.
  - f_equal. destruct H as [Hn H], H' as [Hn' H']. rewrite <-(Split_Join p (ascii_of_nat 10) Hn H), <-(Split_Join p' (ascii_of_nat 10) Hn' H'). f_equal. exact Heq.
Qed.

Lemma text_content m m' : messageText m = messageText m' ↔ sameContent m m'.
Proof.
  destruct m as [t|e|e|f|f], m' as [t'|e'|e'|f'|f']; cbn [messageText sameContent]; try (by split; [discriminate|]).
  - split; [|by intros ->]. destruct t, t'. unfold taskFields. cbn. intros [= -> -> -> -> -> ->]. done.
  - unfold interactiveContent, interactiveFields, sizeFields. split; [intros [= ]|intros [= ]]; cbn [app]; congruence.
  - unfold interactiveContent, interactiveFieldsV2, interactiveFields, sizeFields. cbn [app]. split; [intros [= ]|intros ([= ] & -> & ->)]; [split_and!|]; congruence.
  - unfold authorizationParts. split; [|intros ([= -> -> -> -> -> ->] & ->); done].
    intros [= H1%FormatInt_inj -> H2%FormatInt_inj H3%FormatInt_inj -> -> H4%hexEncode_inj]. split; congruence.
  - unfold usersParts. split; [|intros ([= -> -> -> ->] & ->); done].
    intros [= H1%FormatInt_inj -> H2%FormatInt_inj -> H4%hexEncode_inj]. split; congruence.
Qed.

Lemma sign_inj secret a b : (hmacSHA256 secret a = hmacSHA256 secret b → a = b) → sign secret a = sign secret b ↔ a = b.
Proof.
  intros Hc. split; [|by intros ->]. intros H. apply Hc. apply (f_equal (decode64 URLEncoding)) in H. unfold sign in H.
  rewrite !decode64_encode64 in H by done. congruence.
Qed.

Lemma SignMessage_canonical secret m : SignMessage secret m = sign secret (canonicalMessage m).
Proof.
  destruct m; try done. cbn. unfold SignInteractiveEnvelopeV2, canonicalInteractiveEnvelopeV2, interactiveFieldsV2. f_equal. f_equal. cbn. by rewrite normalizeOrigin_idem.
Qed.

(** C7. Where HMAC gives the texts of two messages different codes, the signatures of two messages
    under one key are the same exactly when the messages are of the same kind, task, terminal
    request of either version, authorization or users, and have the same signed fields: a
    signature cannot be moved to another message or to another kind. *)
Theorem signature_binds_message secret m m' : messageReady m → messageReady m' →
  (hmacSHA256 secret (canonicalMessage m) = hmacSHA256 secret (canonicalMessage m') → canonicalMessage m = canonicalMessage m') →
  SignMessage secret m = SignMessage secret m' ↔ sameContent m m'.
Proof.
  intros H H' Hc. rewrite !SignMessage_canonical, sign_inj by done. rewrite <-text_content. split; [by apply text_inj|].
  intros Ht. by rewrite !canonical_text, Ht.
Qed.
End envelopes.

(** ** Concrete runs *)

(** Primitives that keep what they are given, cut or filled to the length of the real ones. *)
Definition fill (n : nat) (l : list ascii) : list ascii := take n (l ++ replicate n "0"%char).

Definition plainCrypto : Crypto :=
  {| Sum256 := fill 32; HMAC := λ key data, fill 32 (data ++ key); Seal := λ _ _ plain _, plain; Open := λ _ _ text _, Some text;
     IDKey := λ password salt _ _ _ keyLen, fill (Z.to_nat keyLen) (password ++ salt) |}.

Lemma fill_length n l : length (fill n l) = n.
Proof. unfold fill. rewrite length_take, length_app, length_replicate. lia. Qed.

Lemma plainLaws : CryptoLaws plainCrypto.
Proof. split; intros; try apply fill_length; done. Qed.

Definition loginClaims : TokenClaims :=
  {| TC_Subject := 7; TC_Role := "admin"; TC_SessionVersion := 3; TC_ClientBinding := "b1"; TC_SessionID := ""; TC_Expiry := 1700000000500000000 |}.

Lemma loginReady : sessionReady loginClaims.
Proof. split; try done; unfold timeRange, int64; repeat split; apply Z.leb_le; reflexivity. Qed.

Lemma session_token_exact_witness : ∃ token sessionID,
  @SignSession plainCrypto "key" loginClaims (Some (bytes_of "0123456789abcdef")) = Ok token ∧
  (if String.eqb (TC_SessionID loginClaims) "" then RandomToken (Some (bytes_of "0123456789abcdef")) = Some sessionID else sessionID = TC_SessionID loginClaims) ∧
  @VerifySession plainCrypto "key" token 1700000000000000000 =
    if cutTime (TC_Expiry loginClaims) <? 1700000000000000000 then Err ExpiredToken
    else Ok {| TC_Subject := TC_Subject loginClaims; TC_Role := TC_Role loginClaims; TC_SessionVersion := TC_SessionVersion loginClaims;
               TC_ClientBinding := TC_ClientBinding loginClaims; TC_SessionID := sessionID; TC_Expiry := cutTime (TC_Expiry loginClaims) |}.
Proof.
  eexists. destruct (session_token_exact "key" loginClaims (Some (bytes_of "0123456789abcdef")) _ 1700000000000000000
    (eq_refl : @SignSession plainCrypto "key" loginClaims (Some (bytes_of "0123456789abcdef")) = Ok _) loginReady ltac:(done)) as (sessionID & H1 & H2).
  exists sessionID. split; [reflexivity|split; [exact H1|exact H2]].
Defined.

Definition terminalClaims : StepUpTokenClaims :=
  {| SU_UserID := 7; SU_SessionID := "s1"; SU_SessionVersion := 3; SU_Purpose := "remote_terminal"; SU_ResourceType := "server"; SU_ResourceID := "5";
     SU_Nonce := "n1"; SU_IssuedAt := 1700000000500000000; SU_ExpiresAt := 1700000120500000000 |}.

Lemma step_up_token_exact_witness : ∃ token, @SignStepUpToken plainCrypto "key" terminalClaims = Ok token ∧
  @VerifyStepUpToken plainCrypto "key" token 1700000119999999999 = Ok (cutClaims terminalClaims).
Proof.
  eexists. split; [reflexivity|]. refine (step_up_token_exact "key" terminalClaims _ 1700000119999999999 _ _ _ _ _); [reflexivity|..];
    unfold timeRange, int64; repeat split; apply Z.leb_le; reflexivity.
Defined.

Lemma password_exact_witness : ∃ encoded, @HashPassword plainCrypto "secret" (Some (bytes_of "0123456789abcdef")) = Some encoded ∧
  @VerifyPassword plainCrypto "secret" encoded = true ∧ @VerifyPassword plainCrypto "guess" encoded = false.
Proof.
  eexists. split; [reflexivity|]. split.
  - rewrite (proj1 (@password_exact plainCrypto plainLaws "secret" _) "secret"%string (bytes_of "0123456789abcdef")); reflexivity.
  - rewrite (proj1 (@password_exact plainCrypto plainLaws "guess" _) "secret"%string (bytes_of "0123456789abcdef")); reflexivity.
Defined.

Definition usersMessage (revision : Z) : Message :=
  UsersMessage {| UE_ServerID := 5; UE_MessageID := "m1"; UE_Revision := revision; UE_Digest := "d"; UE_UsersJSON := "[]" |}.

Lemma signature_binds_message_witness :
  @SignMessage plainCrypto "key" (usersMessage 1) = @SignMessage plainCrypto "key" (usersMessage 2) ↔ @sameContent plainCrypto (usersMessage 1) (usersMessage 2).
Proof.
  apply (signature_binds_message "key" (usersMessage 1) (usersMessage 2)); [repeat constructor..|]. vm_compute. discriminate.
Defined.
