(* ===== verification/StepUp.v ===== *)
(** * Step-up authentication ([internal/controller/step_up.go], [internal/store/remote_access.go])

    A challenge is created for a session, confirmed with a password or a passkey, and exchanged
    for a token that is consumed by the operation it was asked for.  The tables of challenges and
    of consumed tokens are [StepUpStore]; every statement is a transaction of its own, so a
    failed insertion leaves what the deletion before it did.

    Handlers take the clock readings they make.  The answer of the passkey library is an
    argument. *)

From S2P Require Import Prelude NodeKeys Encodings StoredTimes Security.

Local Open Scope Z_scope.
Local Open Scope go_scope.

(** ** Tables *)

Record StepUpChallenge := {
  SC_ID : string;
  SC_UserID : Z;
  SC_SessionID : string;
  SC_SessionVersion : Z;
  SC_Purpose : string;
  SC_ResourceType : string;
  SC_ResourceID : string;
  SC_Nonce : string;
  SC_WebAuthnSessionJSON : string;
  SC_Consumed : bool;
  SC_ExpiresAt : Z }.

Record StepUpStore := {
  SS_Challenges : list StepUpChallenge;
  SS_Tokens : list (string * Z) }.

Definition withWebAuthn (session : string) (c : StepUpChallenge) : StepUpChallenge :=
  {| SC_ID := SC_ID c; SC_UserID := SC_UserID c; SC_SessionID := SC_SessionID c; SC_SessionVersion := SC_SessionVersion c; SC_Purpose := SC_Purpose c;
     SC_ResourceType := SC_ResourceType c; SC_ResourceID := SC_ResourceID c; SC_Nonce := SC_Nonce c; SC_WebAuthnSessionJSON := session;
     SC_Consumed := SC_Consumed c; SC_ExpiresAt := SC_ExpiresAt c |}.

Definition CreateStepUpChallenge (now : Z) (item : StepUpChallenge) (st : StepUpStore) : bool * StepUpStore :=
  let kept := List.filter (λ c, negb (textAtMost (SC_ExpiresAt c) now)) (SS_Challenges st) in
  let item := withWebAuthn (if (SC_WebAuthnSessionJSON item =? "")%string then "{}" else SC_WebAuthnSessionJSON item) item in
  if existsb (λ c, (SC_ID c =? SC_ID item)%string || (SC_Nonce c =? SC_Nonce item)%string) kept
  then (false, {| SS_Challenges := kept; SS_Tokens := SS_Tokens st |})
  else (true, {| SS_Challenges := kept ++ [item]; SS_Tokens := SS_Tokens st |}).

Definition GetStepUpChallenge (now : Z) (id : string) (st : StepUpStore) : option StepUpChallenge :=
  match List.find (λ c, (SC_ID c =? id)%string) (SS_Challenges st) with
  | Some c => if negb (now <? SC_ExpiresAt c) then None else Some c
  | None => None
  end.

Definition consumeChallenge (c : StepUpChallenge) : StepUpChallenge :=
  {| SC_ID := SC_ID c; SC_UserID := SC_UserID c; SC_SessionID := SC_SessionID c; SC_SessionVersion := SC_SessionVersion c; SC_Purpose := SC_Purpose c;
     SC_ResourceType := SC_ResourceType c; SC_ResourceID := SC_ResourceID c; SC_Nonce := SC_Nonce c; SC_WebAuthnSessionJSON := SC_WebAuthnSessionJSON c; SC_Consumed := true;
     SC_ExpiresAt := SC_ExpiresAt c |}.

Definition ConsumeStepUpChallenge (now : Z) (id : string) (st : StepUpStore) : bool * StepUpStore :=
  let open c := (SC_ID c =? id)%string && negb (SC_Consumed c) && textBefore now (SC_ExpiresAt c) in
  (Nat.eqb (length (List.filter open (SS_Challenges st))) 1,
   {| SS_Challenges := (λ c, if open c then consumeChallenge c else c) <$> SS_Challenges st; SS_Tokens := SS_Tokens st |}).

Definition ConsumeStepUpToken (now : Z) (tokenHash : string) (expiresAt : Z) (st : StepUpStore) : bool * StepUpStore :=
  let kept := List.filter (λ e, negb (textAtMost e.2 now)) (SS_Tokens st) in
  if existsb (λ e, (e.1 =? tokenHash)%string) kept then (false, {| SS_Challenges := SS_Challenges st; SS_Tokens := kept |})
  else (true, {| SS_Challenges := SS_Challenges st; SS_Tokens := kept ++ [(tokenHash, expiresAt)] |}).

(** ** Resources *)

Definition stepUpServerSetResourceType : string := "server_set".
Definition stepUpServerSetMax : nat := 64.

Definition StepUpPurposeRemoteTerminal : string := "remote_terminal".
Definition stepUpPurposes : list string :=
  ["remote_terminal_settings"; StepUpPurposeRemoteTerminal; "grant_mcp_exec"; "grant_mcp_raw_shell"; "grant_mcp_operations"; "privileged_grant"]%string.

Definition validStepUpPurpose (purpose : string) : bool := bool_decide (purpose ∈ stepUpPurposes).

(** A resource identifier of a request: absent, a text, a number (as the integer it is converted
    to), or the JSON text of another value without the quotes around it. *)
Inductive ResourceID := IDNone | IDText (s : string) | IDNumber (n : Z) | IDJson (s : string).

Definition stringifyResourceID (value : ResourceID) : string :=
  match value with
  | IDNone => ""
  | IDText s => TrimSpace s
  | IDNumber n => FormatInt n
  | IDJson s => TrimSpace s
  end.

Inductive StepUpErr :=
| NoSession | UnsupportedPurpose | ServerSetPurpose | EmptyServerSet | ServerSetTooLarge | InvalidServerID | DuplicateServerID
| NoRandomBytes | StoreFailed | WrongPassword | ChallengeExpired | ChallengeMismatch | ChallengeUsed | PasskeyUnavailable | PasskeyRefused
| TokenRefused (e : TokenErr) | SessionMismatch | PurposeMismatch | ResourceMismatch | TokenUsed.

Definition serverID (s : string) : option Z :=
  match ParseInt (TrimSpace s) with
  | Some id => if id <=? 0 then None else Some id
  | None => None
  end.

Fixpoint parseServerIDs (fields : list string) (ids : list Z) : result StepUpErr (list Z) :=
  match fields with
  | [] => Ok ids
  | f :: rest => match serverID f with
                 | None => Err InvalidServerID
                 | Some id => if bool_decide (id ∈ ids) then Err DuplicateServerID else parseServerIDs rest (ids ++ [id])
                 end
  end.

Definition parseStepUpServerSet (value : string) : result StepUpErr (list Z) :=
  let fields := Split (TrimSpace value) "," in
  if (TrimSpace value =? "")%string then Err EmptyServerSet
  else if Nat.ltb stepUpServerSetMax (length fields) then Err ServerSetTooLarge
  else parseServerIDs fields [].

Fixpoint collectServerIDs (fields : list string) (ids : list Z) : result StepUpErr (list Z) :=
  match fields with
  | [] => Ok ids
  | f :: rest => match serverID f with
                 | None => Err InvalidServerID
                 | Some id => collectServerIDs rest (if bool_decide (id ∈ ids) then ids else ids ++ [id])
                 end
  end.

Definition canonicalStepUpServerSet (value : string) : result StepUpErr string :=
  if (TrimSpace value =? "")%string then Err EmptyServerSet
  else
    let* ids := collectServerIDs (Split (TrimSpace value) ",") [] in
    if Nat.ltb stepUpServerSetMax (length ids) then Err ServerSetTooLarge
    else Ok (Join (FormatInt <$> sort_slice Z_lt ids) ",").

(** ** Handlers *)

(** The signed-in user of a request with the claims of its session. *)
Record Caller := {
  CA_UserID : Z;
  CA_PasswordHash : string;
  CA_SessionID : string;
  CA_SessionVersion : Z }.

Definition challengeTTL : Z := 120 * second.

Section handlers.
Context {C : Crypto} (sessionSecret : string).

(** The resource of a challenge. *)
Definition stepUpResource (purpose resourceType : string) (id : ResourceID) : result StepUpErr string :=
  if (resourceType =? stepUpServerSetResourceType)%string then
    if negb (purpose =? StepUpPurposeRemoteTerminal)%string then Err ServerSetPurpose else canonicalStepUpServerSet (stringifyResourceID id)
  else Ok (stringifyResourceID id).

(** [stepUpBegin]: [passkey] is the session of the passkey library, empty when there is none; [now] is the time of
    the challenge and [stored] that of its insertion. *)
Definition stepUpBegin (caller : option Caller) (purpose resourceType : string) (id : ResourceID) (nonce challengeID : option (list ascii)) (passkey : string)
    (now stored : Z) (st : StepUpStore) : result StepUpErr string * StepUpStore :=
  match caller with
  | None => (Err NoSession, st)
  | Some caller =>
      let purpose := TrimSpace purpose in
      let resourceType := TrimSpace resourceType in
      if negb (validStepUpPurpose purpose) then (Err UnsupportedPurpose, st)
      else match stepUpResource purpose resourceType id with
      | Err e => (Err e, st)
      | Ok resourceID =>
          match RandomToken nonce, RandomToken challengeID with
          | Some nonce, Some challengeID =>
              let item := {| SC_ID := "suc_" +:+ challengeID; SC_UserID := CA_UserID caller; SC_SessionID := CA_SessionID caller;
                             SC_SessionVersion := CA_SessionVersion caller; SC_Purpose := purpose; SC_ResourceType := resourceType; SC_ResourceID := resourceID;
                             SC_Nonce := nonce; SC_WebAuthnSessionJSON := passkey; SC_Consumed := false; SC_ExpiresAt := now + challengeTTL |} in
              let '(created, st') := CreateStepUpChallenge stored item st in
              (if created then Ok (SC_ID item) else Err StoreFailed, st')
          | _, _ => (Err NoRandomBytes, st)
          end
      end
  end.

(** [finishStepUp], with the times of reading, consuming and signing. *)
Definition finishStepUp (caller : option Caller) (challengeID : string) (read consumed now : Z) (st : StepUpStore) : result StepUpErr string * StepUpStore :=
  match caller with
  | None => (Err NoSession, st)
  | Some caller =>
      match GetStepUpChallenge read challengeID st with
      | None => (Err ChallengeExpired, st)
      | Some c =>
          if negb (SC_UserID c =? CA_UserID caller) || negb (SC_SessionID c =? CA_SessionID caller)%string ||
             negb (SC_SessionVersion c =? CA_SessionVersion caller) then (Err ChallengeMismatch, st)
          else
            let '(ok, st') := ConsumeStepUpChallenge consumed (SC_ID c) st in
            if negb ok then (Err ChallengeUsed, st')
            else match SignStepUpToken sessionSecret
                         {| SU_UserID := CA_UserID caller; SU_SessionID := CA_SessionID caller; SU_SessionVersion := CA_SessionVersion caller;
                            SU_Purpose := SC_Purpose c; SU_ResourceType := SC_ResourceType c; SU_ResourceID := SC_ResourceID c; SU_Nonce := SC_Nonce c;
                            SU_IssuedAt := now; SU_ExpiresAt := now + StepUpTokenTTL |} with
                 | Ok token => (Ok token, st')
                 | Err e => (Err (TokenRefused e), st')
                 end
      end
  end.

Definition stepUpPassword (caller : option Caller) (challengeID password : string) (read consumed now : Z) (st : StepUpStore) :
    result StepUpErr string * StepUpStore :=
  match caller with
  | None => (Err NoSession, st)
  | Some c => if negb (VerifyPassword password (CA_PasswordHash c)) then (Err WrongPassword, st) else finishStepUp caller challengeID read consumed now st
  end.

(** [passkey] is the answer of the passkey library to the stored session and the assertion of
    the request. *)
Definition stepUpPasskeyFinish (caller : option Caller) (challengeID : string) (passkey : string → result StepUpErr unit) (first read consumed now : Z) (st : StepUpStore) :
    result StepUpErr string * StepUpStore :=
  match caller with
  | None => (Err NoSession, st)
  | Some u =>
      match GetStepUpChallenge first challengeID st with
      | None => (Err ChallengeExpired, st)
      | Some c => if negb (SC_UserID c =? CA_UserID u) || (SC_WebAuthnSessionJSON c =? "")%string then (Err PasskeyUnavailable, st)
                  else match passkey (SC_WebAuthnSessionJSON c) with
                       | Err e => (Err e, st)
                       | Ok _ => finishStepUp caller challengeID read consumed now st
                       end
      end
  end.

Definition verifyStepUpToken (caller : option Caller) (token purpose : string) (now : Z) : result StepUpErr StepUpTokenClaims :=
  match caller with
  | None => Err NoSession
  | Some u =>
      match VerifyStepUpToken sessionSecret token now with
      | Err e => Err (TokenRefused e)
      | Ok parsed =>
          if negb (SU_UserID parsed =? CA_UserID u) || negb (SU_SessionID parsed =? CA_SessionID u)%string ||
             negb (SU_SessionVersion parsed =? CA_SessionVersion u) then Err SessionMismatch
          else if negb (SU_Purpose parsed =? purpose)%string then Err PurposeMismatch
          else Ok parsed
      end
  end.

Definition consumeStepUpKey (now : Z) (key : string) (expiresAt : Z) (st : StepUpStore) : result StepUpErr unit * StepUpStore :=
  let '(ok, st') := ConsumeStepUpToken now key expiresAt st in
  (if ok then Ok tt else Err TokenUsed, st').

Definition stepUpServerScopeHash (token : string) (server : Z) : string :=
  hexEncode (Sum256 (bytes_of (StepUpTokenHash token +:+ "|server=" +:+ FormatInt server))).

(** The replay key of a token for an operation on a resource. *)
Definition resourceKey (token resourceType resourceID : string) (parsed : StepUpTokenClaims) : result StepUpErr string :=
  if negb (resourceType =? "")%string && negb (SU_ResourceType parsed =? resourceType)%string then Err ResourceMismatch
  else if negb (resourceID =? "")%string && negb (SU_ResourceID parsed =? resourceID)%string then Err ResourceMismatch
  else Ok (StepUpTokenHash token).

(** The replay key of a token for an operation on a server. *)
Definition serverKey (token : string) (server : Z) (parsed : StepUpTokenClaims) : result StepUpErr string :=
  if (SU_ResourceType parsed =? stepUpServerSetResourceType)%string then
    match parseStepUpServerSet (SU_ResourceID parsed) with
    | Ok ids => if bool_decide (server ∈ ids) then Ok (stepUpServerScopeHash token server) else Err ResourceMismatch
    | Err _ => Err ResourceMismatch
    end
  else if negb (SU_ResourceType parsed =? "server")%string || negb (SU_ResourceID parsed =? FormatInt server)%string then Err ResourceMismatch
  else Ok (StepUpTokenHash token).

(** Verification at [now] and the store at [stored]. *)
Definition consumeWith (key : StepUpTokenClaims → result StepUpErr string) (caller : option Caller) (token purpose : string) (now stored : Z) (st : StepUpStore) :
    result StepUpErr unit * StepUpStore :=
  match verifyStepUpToken caller token purpose now with
  | Err e => (Err e, st)
  | Ok parsed => match key parsed with
                 | Err e => (Err e, st)
                 | Ok k => consumeStepUpKey stored k (SU_ExpiresAt parsed) st
                 end
  end.

Definition consumeStepUp (caller : option Caller) (token purpose resourceType resourceID : string) (now stored : Z) (st : StepUpStore) :
    result StepUpErr unit * StepUpStore :=
  consumeWith (resourceKey token resourceType resourceID) caller token purpose now stored st.

Definition consumeStepUpForServer (caller : option Caller) (token purpose : string) (server : Z) (now stored : Z) (st : StepUpStore) :
    result StepUpErr unit * StepUpStore :=
  consumeWith (serverKey token server) caller token purpose now stored st.
End handlers.
