(* ===== verification/StepUpSafety.v ===== *)
(** * What step-up authentication guarantees

    A token is accepted only for the session, purpose and resource it was issued for, a canonical
    set of servers is read back as it was asked for, and a token text is used once for each
    server until it expires.  Two gaps are shown too: a text that encodes the same token in
    another way is accepted again, and a token whose use is recorded after its expiry. *)

From S2P Require Import Prelude NodeKeys Encodings StoredTimes Security SecuritySafety StepUp.

Local Open Scope Z_scope.

(** ** Stored times *)

Definition wholeSecond (t : Z) : Prop := t = cutTime t.

Lemma textAtMost_whole e t : wholeSecond e → textAtMost e t = true → e ≤ t.
Proof.
  unfold wholeSecond, cutTime, textAtMost, textBefore. rewrite negb_true_iff, orb_false_iff, Z.ltb_ge. intros -> [Hle _].
  unfold Unix in *. unfold second in *. Z.to_euclidean_division_equations. lia.
Qed.

Lemma textBefore_second a b : Unix a < Unix b → textBefore a b = true.
Proof. intros H. unfold textBefore. by rewrite (proj2 (Z.ltb_lt _ _) H). Qed.

(** ** The replay table *)

Lemma consumeToken_spec now key e st ok st' : ConsumeStepUpToken now key e st = (ok, st') →
  (∀ k x, (k, x) ∈ SS_Tokens st → textAtMost x now = false → (k, x) ∈ SS_Tokens st') ∧
  (∀ k x, (k, x) ∈ SS_Tokens st' → (k, x) ∈ SS_Tokens st ∨ ok = true ∧ k = key ∧ x = e) ∧
  (ok = true → (key, e) ∈ SS_Tokens st' ∧ ∀ x, (key, x) ∈ SS_Tokens st → textAtMost x now = true).
Proof.
  unfold ConsumeStepUpToken. set (kept := List.filter _ _).
  assert (∀ k x, (k, x) ∈ kept ↔ (k, x) ∈ SS_Tokens st ∧ textAtMost x now = false) as Hk.
  { intros k x. unfold kept. rewrite list_elem_of_In, filter_In, <-list_elem_of_In, negb_true_iff. done. }
  destruct (existsb _ kept) eqn:Hex; intros [<- <-]%pair_eq; cbn [SS_Tokens]; split_and!; try done.
  - intros k x ? ?. by apply Hk.
  - intros k x Hx%Hk. tauto.
  - intros k x ? ?. apply elem_of_app. left. by apply Hk.
  - intros k x [Hx%Hk|Hx%list_elem_of_singleton]%elem_of_app; [tauto|]. injection Hx as -> ->. auto.
  - intros _. split; [apply elem_of_app; right; by left|]. intros x Hx. destruct (textAtMost x now) eqn:Hp; [done|].
    rewrite <-Hex. apply List.existsb_exists. exists (key, x). rewrite <-list_elem_of_In, Hk. split; [done|]. apply String.eqb_refl.
Qed.

Lemma consumeToken_fresh now key x st ok st' : (∀ e, (key, e) ∉ SS_Tokens st) → ConsumeStepUpToken now key x st = (ok, st') → ok = true.
Proof.
  intros Hfree. unfold ConsumeStepUpToken. destruct (existsb _ _) eqn:Hex; [|by intros [= <- _]].
  apply List.existsb_exists in Hex as ([k e] & [Hin%list_elem_of_In _]%filter_In & Hk%String.eqb_eq). cbn in Hk. subst k. by destruct (Hfree e).
Qed.

Section handlers_spec.
Context {C : Crypto} (sessionSecret : string).

(** Claims do not depend on when they are read. *)
Lemma verify_claims token n c : VerifyStepUpToken sessionSecret token n = Ok c ↔
  (∃ payload, openToken sessionSecret token = Ok payload ∧ stepUpClaims payload = Ok c) ∧ n < SU_ExpiresAt c.
Proof.
  unfold VerifyStepUpToken. destruct (openToken sessionSecret token) as [payload|]; [|split; [done|]; by intros [(p & ? & _) _]].
  destruct (stepUpClaims payload) as [cl|] eqn:Hcl; cbn [rbind]; [|split; [done|]; intros [(p & [= <-] & Hp) _]; congruence]. destruct (Z.ltb_spec n (SU_ExpiresAt cl)); cbn [negb].
  - split; [intros [= <-]; eauto|]. intros [(p & [= <-] & Hp) _]. congruence.
  - split; [done|]. intros [(p & [= <-] & Hp) Hn]. rewrite Hcl in Hp. injection Hp as <-. lia.
Qed.

Lemma claims_whole payload c : stepUpClaims payload = Ok c → wholeSecond (SU_ExpiresAt c).
Proof.
  unfold stepUpClaims. destruct (Split payload "|") as [|? [|? [|? [|? [|? [|? [|? [|? [|? [|]]]]]]]]]]; try done.
  repeat case_match; try done. intros [= <-]. cbn. unfold wholeSecond, cutTime, unixTime, Unix. by rewrite Z.div_mul.
Qed.

(** A token that is accepted for an operation. *)
Record authorizes (u : Caller) (token purpose : string) (now : Z) (claims : StepUpTokenClaims) : Prop := {
  auth_verified : VerifyStepUpToken sessionSecret token now = Ok claims;
  auth_user : SU_UserID claims = CA_UserID u;
  auth_session : SU_SessionID claims = CA_SessionID u;
  auth_version : SU_SessionVersion claims = CA_SessionVersion u;
  auth_purpose : SU_Purpose claims = purpose }.

Lemma verifyStepUpToken_Ok caller token purpose now claims :
  verifyStepUpToken sessionSecret caller token purpose now = Ok claims ↔ ∃ u, caller = Some u ∧ authorizes u token purpose now claims.
Proof.
  unfold verifyStepUpToken. destruct caller as [u|]; [|naive_solver]. destruct (VerifyStepUpToken _ _ _) as [c|] eqn:Hv.
  2: { split; [done|]. intros (? & [= <-] & [H _ _ _ _]). congruence. }
  destruct (Z.eqb_spec (SU_UserID c) (CA_UserID u)); cbn [negb orb].
  2: { split; [done|]. intros (? & [= <-] & [H ? _ _ _]). congruence. }
  destruct (String.eqb_spec (SU_SessionID c) (CA_SessionID u)); cbn [negb orb].
  2: { split; [done|]. intros (? & [= <-] & [H _ ? _ _]). congruence. }
  destruct (Z.eqb_spec (SU_SessionVersion c) (CA_SessionVersion u)); cbn [negb orb].
  2: { split; [done|]. intros (? & [= <-] & [H _ _ ? _]). congruence. }
  destruct (String.eqb_spec (SU_Purpose c) purpose); cbn [negb].
  2: { split; [done|]. intros (? & [= <-] & [H _ _ _ ?]). congruence. }
  split; [intros [= <-]; exists u; split; [done|by split]|]. intros (? & [= <-] & [H _ _ _ _]). congruence.
Qed.

Lemma consumeWith_Ok key caller token purpose now stored st st' : consumeWith sessionSecret key caller token purpose now stored st = (Ok tt, st') ↔
  ∃ u claims k, caller = Some u ∧ authorizes u token purpose now claims ∧ key claims = Ok k ∧ ConsumeStepUpToken stored k (SU_ExpiresAt claims) st = (true, st').
Proof.
  unfold consumeWith. destruct (verifyStepUpToken _ _ _ _ _) as [claims|e] eqn:Hv.
  2: { split; [done|]. intros (u & claims & k & Hc & Ha & _). assert (verifyStepUpToken sessionSecret caller token purpose now = Ok claims) by (apply verifyStepUpToken_Ok; eauto). congruence. }
  assert (∀ u claims', caller = Some u → authorizes u token purpose now claims' → claims' = claims) as Hu.
  { intros u c' Hc Ha. assert (verifyStepUpToken sessionSecret caller token purpose now = Ok c') by (apply verifyStepUpToken_Ok; eauto). congruence. }
  apply verifyStepUpToken_Ok in Hv as (u & Hc & Ha). destruct (key claims) as [k|e] eqn:Hk.
  - unfold consumeStepUpKey. destruct (ConsumeStepUpToken _ _ _ _) as [ok st1] eqn:Ht. split.
    + intros [Hok ->]%pair_eq. destruct ok; [|done]. eauto 10.
    + intros (u' & c' & k' & Hc' & Ha' & Hk' & Ht'). rewrite (Hu u' c' Hc' Ha') in Hk', Ht'. assert (k' = k) as -> by congruence. rewrite Ht in Ht'. by injection Ht' as -> ->.
  - split; [done|]. intros (u' & c' & k' & Hc' & Ha' & Hk' & _). rewrite (Hu u' c' Hc' Ha') in Hk'. congruence.
Qed.

(** The servers a token is for. *)
Definition tokenServers (claims : StepUpTokenClaims) (server : Z) : Prop :=
  SU_ResourceType claims = "server"%string ∧ SU_ResourceID claims = FormatInt server ∨
  SU_ResourceType claims = stepUpServerSetResourceType ∧ ∃ ids, parseStepUpServerSet (SU_ResourceID claims) = Ok ids ∧ server ∈ ids.

Definition slotKey (token : string) (server : Z) (claims : StepUpTokenClaims) : string :=
  if String.eqb (SU_ResourceType claims) stepUpServerSetResourceType then stepUpServerScopeHash token server else StepUpTokenHash token.

Lemma serverKey_Ok token server claims k : serverKey token server claims = Ok k ↔ tokenServers claims server ∧ k = slotKey token server claims.
Proof.
  unfold serverKey, tokenServers, slotKey. destruct (String.eqb_spec (SU_ResourceType claims) stepUpServerSetResourceType) as [Ht|Ht].
  - destruct (parseStepUpServerSet _) as [ids|] eqn:Hp.
    + case_bool_decide; [split; [intros [= <-]; eauto 6|by intros [_ ->]]|]. split; [done|]. intros [[[Hx _]|(_ & ids' & [= <-] & ?)] _]; [|done]. by rewrite Ht in Hx.
    + split; [done|]. intros [[[Hx _]|(_ & ids' & ? & ?)] _]; [by rewrite Ht in Hx|done].
  - destruct (String.eqb_spec (SU_ResourceType claims) "server"); cbn [negb orb]; [|naive_solver].
    destruct (String.eqb_spec (SU_ResourceID claims) (FormatInt server)); cbn [negb]; [|naive_solver]. split; [intros [= <-]; auto|]. by intros [_ ->].
Qed.

(** An operation on a server is authorized exactly by a token whose signature, session, user,
    session version and purpose are those of the request, that has not expired and was issued for
    this server or for a set of servers with it, and whose slot for the server is not in the table
    of used tokens; the use is then recorded until the token expires. *)
Theorem consume_for_server_exact u token purpose server now stored st st' :
  consumeStepUpForServer sessionSecret (Some u) token purpose server now stored st = (Ok tt, st') ↔
  ∃ claims, authorizes u token purpose now claims ∧ tokenServers claims server ∧
    (∀ e, (slotKey token server claims, e) ∈ SS_Tokens st → textAtMost e stored = true) ∧
    SS_Challenges st' = SS_Challenges st ∧
    SS_Tokens st' = List.filter (λ e, negb (textAtMost e.2 stored)) (SS_Tokens st) ++ [(slotKey token server claims, SU_ExpiresAt claims)].
Proof.
  unfold consumeStepUpForServer. rewrite consumeWith_Ok. setoid_rewrite serverKey_Ok. split.
  - intros (u' & claims & k & [= <-] & Ha & [Hs ->] & Ht). exists claims. split_and!; try done.
    + by apply consumeToken_spec in Ht as (_ & _ & [_ ?]).
    + unfold ConsumeStepUpToken in Ht. case_match; [done|]. by injection Ht as <-.
    + unfold ConsumeStepUpToken in Ht. case_match; [done|]. by injection Ht as <-.
  - intros (claims & Ha & Hs & Hfree & Hc & Ht). exists u, claims, (slotKey token server claims). split_and!; try done.
    unfold ConsumeStepUpToken. destruct (existsb _ _) eqn:Hex.
    + apply List.existsb_exists in Hex as ([k e] & [Hin%list_elem_of_In He]%filter_In & Hk%String.eqb_eq). cbn in Hk, He. subst k. by rewrite (Hfree e Hin) in He.
    + destruct st' as [ch tk]. cbn in Hc, Ht. by rewrite Hc, Ht.
Qed.
End handlers_spec.

(** ** Runs *)

(** A use of a token that was accepted, for a server or for another resource. *)
Record Acceptance := {
  A_Token : string;
  A_Server : option Z;
  A_Claims : StepUpTokenClaims;
  A_Now : Z;
  A_Stored : Z }.

Section runs.
Context {C : Crypto} (sessionSecret : string).

Definition A_Key (a : Acceptance) : string :=
  match A_Server a with
  | Some server => slotKey (A_Token a) server (A_Claims a)
  | None => StepUpTokenHash (A_Token a)
  end.

(** A request, with the clock before and after it. *)
Inductive step : Z * StepUpStore → option Acceptance → Z * StepUpStore → Prop :=
| step_begin t st caller purpose resourceType id nonce challengeID passkey now stored : t ≤ now → now ≤ stored →
    step (t, st) None (stored, (stepUpBegin caller purpose resourceType id nonce challengeID passkey now stored st).2)
| step_password t st caller challengeID password read consumed now : t ≤ read → read ≤ consumed → consumed ≤ now →
    step (t, st) None (now, (stepUpPassword sessionSecret caller challengeID password read consumed now st).2)
| step_passkey t st caller challengeID passkey first read consumed now : t ≤ first → first ≤ read → read ≤ consumed → consumed ≤ now →
    step (t, st) None (now, (stepUpPasskeyFinish sessionSecret caller challengeID passkey first read consumed now st).2)
| step_use t st st' caller token purpose resourceType resourceID now stored claims : t ≤ now → now ≤ stored →
    consumeStepUp sessionSecret caller token purpose resourceType resourceID now stored st = (Ok tt, st') → VerifyStepUpToken sessionSecret token now = Ok claims →
    step (t, st) (Some {| A_Token := token; A_Server := None; A_Claims := claims; A_Now := now; A_Stored := stored |}) (stored, st')
| step_use_server t st st' caller token purpose server now stored claims : t ≤ now → now ≤ stored →
    consumeStepUpForServer sessionSecret caller token purpose server now stored st = (Ok tt, st') → VerifyStepUpToken sessionSecret token now = Ok claims →
    step (t, st) (Some {| A_Token := token; A_Server := Some server; A_Claims := claims; A_Now := now; A_Stored := stored |}) (stored, st')
| step_refused t st st' key caller token purpose now stored e : t ≤ now → now ≤ stored →
    consumeWith sessionSecret key caller token purpose now stored st = (Err e, st') → step (t, st) None (stored, st').

Inductive run : Z * StepUpStore → list Acceptance → Z * StepUpStore → Prop :=
| run_nil s : run s [] s
| run_step s s' s'' a accepted : step s a s' → run s' accepted s'' → run s (option_list a ++ accepted) s''.

(** *** Steps that do not use a token keep the table of used tokens *)

Lemma begin_tokens caller purpose resourceType id nonce challengeID passkey now stored st :
  SS_Tokens (stepUpBegin caller purpose resourceType id nonce challengeID passkey now stored st).2 = SS_Tokens st.
Proof.
  unfold stepUpBegin. destruct caller; [|done]. cbv zeta. case_match; [done|]. destruct (stepUpResource _ _ _); [|done].
  destruct (RandomToken nonce), (RandomToken challengeID); try done. unfold CreateStepUpChallenge. cbv zeta. by destruct (existsb _ _).
Qed.

Lemma finish_tokens caller challengeID read consumed now st : SS_Tokens (finishStepUp sessionSecret caller challengeID read consumed now st).2 = SS_Tokens st.
Proof.
  unfold finishStepUp. destruct caller; [|done]. destruct (GetStepUpChallenge _ _ _); [|done]. case_match; [done|].
  unfold ConsumeStepUpChallenge. cbv zeta. case_match; [done|]. by destruct (SignStepUpToken _ _).
Qed.

Lemma password_tokens caller challengeID password read consumed now st :
  SS_Tokens (stepUpPassword sessionSecret caller challengeID password read consumed now st).2 = SS_Tokens st.
Proof. unfold stepUpPassword. destruct caller; [|done]. case_match; [done|]. apply finish_tokens. Qed.

Lemma passkey_tokens caller challengeID passkey first read consumed now st :
  SS_Tokens (stepUpPasskeyFinish sessionSecret caller challengeID passkey first read consumed now st).2 = SS_Tokens st.
Proof.
  unfold stepUpPasskeyFinish. destruct caller; [|done]. destruct (GetStepUpChallenge _ _ _); [|done]. case_match; [done|].
  destruct (passkey _); [|done]. apply finish_tokens.
Qed.

(** What a step does with the table. *)
Record stepTokens (t : Z) (st : StepUpStore) (a : option Acceptance) (t' : Z) (st' : StepUpStore) : Prop := {
  st_clock : t ≤ t';
  st_kept : ∀ k e, (k, e) ∈ SS_Tokens st → wholeSecond e → e ≤ t' ∨ (k, e) ∈ SS_Tokens st';
  st_accepted : ∀ b, a = Some b → A_Stored b = t' ∧ VerifyStepUpToken sessionSecret (A_Token b) (A_Now b) = Ok (A_Claims b) ∧
    (A_Key b, SU_ExpiresAt (A_Claims b)) ∈ SS_Tokens st' ∧ ∀ e, (A_Key b, e) ∈ SS_Tokens st → wholeSecond e → e ≤ t' }.

Lemma kept_or_past stored k e st key x ok st' : ConsumeStepUpToken stored key x st = (ok, st') → (k, e) ∈ SS_Tokens st → wholeSecond e →
  e ≤ stored ∨ (k, e) ∈ SS_Tokens st'.
Proof.
  intros (Hkept & _)%consumeToken_spec Hin Hw. destruct (textAtMost e stored) eqn:Hp; [left; by apply textAtMost_whole|right; auto].
Qed.

Lemma use_tokens key caller token purpose now stored st st' claims (server : option Z) t : t ≤ now → now ≤ stored →
  consumeWith sessionSecret key caller token purpose now stored st = (Ok tt, st') → VerifyStepUpToken sessionSecret token now = Ok claims →
  (∀ k, key claims = Ok k → k = A_Key {| A_Token := token; A_Server := server; A_Claims := claims; A_Now := now; A_Stored := stored |}) →
  stepTokens t st (Some {| A_Token := token; A_Server := server; A_Claims := claims; A_Now := now; A_Stored := stored |}) stored st'.
Proof.
  intros Ht Hn (u & claims' & k & _ & [Hv _ _ _ _] & Hk & Hc)%consumeWith_Ok Hver Hkey. assert (claims' = claims) as -> by congruence.
  rewrite (Hkey k Hk) in Hc. split; [lia|intros k' e; by apply (kept_or_past _ _ _ _ _ _ _ _ Hc)|].
  intros b [= <-]. apply consumeToken_spec in Hc as (_ & _ & Hacc). destruct (Hacc eq_refl) as [Hin Hpast]. split_and!; try done.
  intros e He Hw. apply textAtMost_whole; [done|]. by apply Hpast.
Qed.

Lemma step_spec t st a t' st' : step (t, st) a (t', st') → stepTokens t st a t' st'.
Proof.
  assert (∀ t st t' st', t ≤ t' → SS_Tokens st' = SS_Tokens st → stepTokens t st None t' st') as Hsame.
  { intros ? ? ? ? Hle Heq. split; [done|rewrite Heq; auto|done]. }
  intros Hstep. inversion Hstep; subst; clear Hstep.
  - apply Hsame; [lia|apply begin_tokens].
  - apply Hsame; [lia|apply password_tokens].
  - apply Hsame; [lia|apply passkey_tokens].
  - unfold consumeStepUp in *. eapply use_tokens; try done. unfold resourceKey. intros k. by repeat case_match; intros [= <-].
  - unfold consumeStepUpForServer in *. eapply use_tokens; try done. intros k [_ ->]%serverKey_Ok. done.
  - split; [lia| |done]. intros k x Hin Hw. match goal with H : consumeWith _ _ _ _ _ _ _ _ = _ |- _ => revert H end. unfold consumeWith. destruct (verifyStepUpToken _ _ _ _ _); [|intros [= _ <-]; auto].
    destruct (key _); [|intros [= _ <-]; auto]. unfold consumeStepUpKey. destruct (ConsumeStepUpToken _ _ _ _) as [ok st1] eqn:Hc. intros [= _ <-].
    by apply (kept_or_past _ _ _ _ _ _ _ _ Hc).
Qed.

(** A recorded use stays recorded until it expires. *)
Lemma run_recorded s accepted s' k e : run s accepted s' → (k, e) ∈ SS_Tokens s.2 → wholeSecond e →
  ∀ b, b ∈ accepted → s.1 ≤ A_Stored b ∧ (A_Key b = k → e ≤ A_Stored b).
Proof.
  intros Hrun. revert k e.
  assert (∀ s accepted s', run s accepted s' → ∀ b, b ∈ accepted → s.1 ≤ A_Stored b) as Hclock.
  { clear. induction 1 as [s|[t st] [t' st'] s'' a accepted Hstep Hrun IH]; intros b; [by intros ?%not_elem_of_nil|].
    apply step_spec in Hstep as [Hle _ Hacc]. cbn [fst] in *. rewrite elem_of_app. intros [Hb|Hb%IH]; [|lia].
    destruct a as [a|]; cbn in Hb; [apply list_elem_of_singleton in Hb as ->|by apply not_elem_of_nil in Hb].
    destruct (Hacc a eq_refl) as [-> _]. done. }
  induction Hrun as [s|[t st] [t' st'] s'' a accepted Hstep Hrun IH]; intros k e Hin Hw b; [by intros ?%not_elem_of_nil|].
  intros Hb. split; [eapply Hclock; [|exact Hb]; by econstructor|]. apply step_spec in Hstep as [Hle Hkept Hacc]. cbn [fst snd] in *. intros <-.
  apply elem_of_app in Hb as [Hb|Hb].
  - destruct a as [a|]; cbn in Hb; [apply list_elem_of_singleton in Hb as ->|by apply not_elem_of_nil in Hb].
    destruct (Hacc a eq_refl) as (-> & _ & _ & Hpast). by apply Hpast.
  - destruct (Hkept _ _ Hin Hw) as [Hpast|Hin']; [|by apply (IH _ _ Hin' Hw b Hb)]. pose proof (Hclock _ _ _ Hrun b Hb). cbn in *. lia.
Qed.

Lemma run_accepted s accepted s' b : run s accepted s' → b ∈ accepted → VerifyStepUpToken sessionSecret (A_Token b) (A_Now b) = Ok (A_Claims b).
Proof.
  induction 1 as [s|[t st] [t' st'] s'' a accepted Hstep Hrun IH]; [by intros ?%not_elem_of_nil|]. rewrite elem_of_app. intros [Hb|Hb]; [|auto].
  apply step_spec in Hstep as [_ _ Hacc]. destruct a as [a|]; cbn in Hb; [apply list_elem_of_singleton in Hb as ->|by apply not_elem_of_nil in Hb].
  by destruct (Hacc a eq_refl) as (_ & ? & _).
Qed.

Lemma run_key_once s accepted s' i j a b : run s accepted s' → (i < j)%nat → accepted !! i = Some a → accepted !! j = Some b → A_Key a = A_Key b →
  SU_ExpiresAt (A_Claims a) ≤ A_Stored b.
Proof.
  intros Hrun. revert i j. induction Hrun as [s|[t st] [t' st'] s'' o accepted Hstep Hrun IH]; intros i j Hij Hi Hj Hk; [done|].
  destruct o as [o|]; cbn [option_list app] in Hi, Hj; [|by apply (IH i j)]. destruct j as [|j]; [lia|]. cbn in Hj. destruct i as [|i]; cbn in Hi; [|apply (IH i j); (done || lia)].
  injection Hi as ->. apply step_spec in Hstep as [_ _ Hacc]. destruct (Hacc a eq_refl) as (_ & Hv & Hin & _).
  apply verify_claims in Hv as [(payload & _ & Hw%claims_whole) _].
  by apply (run_recorded _ _ _ _ _ Hrun Hin Hw b (list_elem_of_lookup_2 _ _ _ Hj)).
Qed.

(** C6. Over any sequence of requests a token text is used at most once for a server, and at most
    once for another resource, while the token is valid: a second use can only be accepted when
    its verification preceded the expiry and its recording did not. *)
Theorem step_up_single_use s accepted s' i j a b : run s accepted s' → (i < j)%nat → accepted !! i = Some a → accepted !! j = Some b →
  A_Token a = A_Token b → A_Server a = A_Server b → A_Now b < SU_ExpiresAt (A_Claims b) ≤ A_Stored b.
Proof.
  intros Hrun Hij Hi Hj Htok Hsrv. pose proof (run_accepted _ _ _ a Hrun (list_elem_of_lookup_2 _ _ _ Hi)) as Ha.
  pose proof (run_accepted _ _ _ b Hrun (list_elem_of_lookup_2 _ _ _ Hj)) as Hb. rewrite Htok in Ha.
  apply verify_claims in Ha as [(p1 & Ho1 & Hc1) _]. apply verify_claims in Hb as [(p2 & Ho2 & Hc2) Hnow].
  assert (A_Claims a = A_Claims b) as Hcl by congruence. split; [done|]. rewrite <-Hcl. apply (run_key_once s accepted s' i j a b); try done.
  unfold A_Key. by rewrite Htok, Hsrv, Hcl.
Qed.

(** *** Gaps *)

(** The same token in another encoding: a line break before the text keeps its payload and
    signature and changes its replay key. *)
Theorem reencoded_token_accepted u token purpose server now stored st st' now' stored' claims :
  consumeStepUpForServer sessionSecret (Some u) token purpose server now stored st = (Ok tt, st') → VerifyStepUpToken sessionSecret token now = Ok claims →
  now' < SU_ExpiresAt claims →
  (∀ e, (slotKey (String (ascii_of_nat 10) token) server claims, e) ∉ SS_Tokens st') →
  ∃ st'', consumeStepUpForServer sessionSecret (Some u) (String (ascii_of_nat 10) token) purpose server now' stored' st' = (Ok tt, st'').
Proof.
  intros (u' & c & k & [= <-] & [Hv Hu Hs Hsv Hp] & Hk & _)%consumeWith_Ok Hver Hnow Hfree. assert (c = claims) as -> by congruence. apply serverKey_Ok in Hk as [Hsrv ->].
  unfold consumeStepUpForServer. setoid_rewrite consumeWith_Ok.
  destruct (ConsumeStepUpToken stored' (slotKey (String (ascii_of_nat 10) token) server claims) (SU_ExpiresAt claims) st') as [ok st''] eqn:Hc. exists st'', u, claims, (slotKey (String (ascii_of_nat 10) token) server claims).
  split_and!; [done| |by apply serverKey_Ok|].
  - split; try done. apply verify_claims. apply verify_claims in Hv as [(payload & Ho & Hcl) _]. split; [|done]. exists payload. split; [|done].
    by apply open_reencoded.
  - by rewrite Hc, (consumeToken_fresh _ _ _ _ _ _ Hfree Hc).
Qed.
End runs.

(** ** Sets of servers *)

Lemma collect_spec fields ids out : collectServerIDs fields ids = Ok out → NoDup ids →
  NoDup out ∧ ∀ id, id ∈ out ↔ id ∈ ids ∨ ∃ f, f ∈ fields ∧ serverID f = Some id.
Proof.
  revert ids; induction fields as [|f fields IH]; intros ids; cbn [collectServerIDs].
  { intros [= <-] Hnd. split; [done|]. intros id. split; [auto|]. by intros [?|(f & ?%not_elem_of_nil & _)]. }
  destruct (serverID f) as [id|] eqn:Hf; [|done]. intros Hc Hnd. apply IH in Hc as [Hnd' Hout].
  - split; [done|]. intros id'. rewrite Hout. setoid_rewrite elem_of_cons. case_bool_decide; [|rewrite elem_of_app, list_elem_of_singleton]; naive_solver.
  - case_bool_decide; [done|]. apply NoDup_app. split_and!; [done| |apply NoDup_singleton]. by intros x ? ->%list_elem_of_singleton.
Qed.

Lemma serverID_bounds f id : serverID f = Some id → 0 < id ≤ int64_max.
Proof.
  unfold serverID, ParseInt. repeat case_match; try done; intros [= <-]; simplify_eq; unfold int64_max in *; lia.
Qed.

Lemma FormatInt_plain n : 0 < n → Forall plain_byte (bytes_of (FormatInt n)).
Proof. intros Hn. rewrite FormatInt_pos by done. eapply Forall_impl; [apply digits_go; constructor|]. intros a Ha. unfold is_digit in Ha. unfold plain_byte. lia. Qed.

Lemma serverID_FormatInt n : 0 < n ≤ int64_max → serverID (FormatInt n) = Some n.
Proof.
  intros Hn. unfold serverID. rewrite TrimSpace_plain_byte by (apply FormatInt_plain; lia). rewrite ParseInt_FormatInt by done. by rewrite (proj2 (Z.leb_gt _ _)) by lia.
Qed.

Lemma Join_plain (parts : list string) sep : Forall plain_byte (bytes_of sep) → Forall (λ s, Forall plain_byte (bytes_of s)) parts → Forall plain_byte (bytes_of (Join parts sep)).
Proof.
  intros Hs H. unfold Join. rewrite bytes_of_of_bytes. induction H as [|p parts Hp H IH]; [constructor|]. destruct parts as [|q parts]; [done|].
  change (joinBytes (bytes_of sep) (bytes_of <$> p :: q :: parts)) with (bytes_of p ++ bytes_of sep ++ joinBytes (bytes_of sep) (bytes_of <$> q :: parts)).
  apply Forall_app. split; [done|]. apply Forall_app. done.
Qed.

Section server_sets.
Variables (ids : list Z).
Hypothesis Hids : Forall (λ n, 0 < n ≤ int64_max) ids.
Hypothesis Hne : ids ≠ [].
Hypothesis Hnd : NoDup ids.

Definition setText : string := Join (FormatInt <$> ids) ",".

Lemma setText_trim : TrimSpace setText = setText.
Proof.
  apply TrimSpace_plain_byte, Join_plain; [by repeat constructor|]. apply Forall_fmap. eapply Forall_impl; [exact Hids|]. intros n [Hn _]. by apply FormatInt_plain.
Qed.

Lemma setText_split : Split setText "," = FormatInt <$> ids.
Proof.
  apply Split_Join; [by intros ?%fmap_nil_inv|]. apply Forall_fmap. eapply Forall_impl; [exact Hids|]. intros n _. by apply FormatInt_clean.
Qed.

Lemma setText_nonempty : setText ≠ ""%string.
Proof.
  intros H. pose proof setText_split as Hs. rewrite H in Hs. assert (""%string ∈ FormatInt <$> ids) as (n & Hn & Hin)%list_elem_of_fmap by (rewrite <-Hs; left).
  rewrite Forall_forall in Hids. pose proof (ParseInt_FormatInt n (Hids n Hin)) as Hp. by rewrite <-Hn in Hp.
Qed.

Lemma parse_ids l acc : Forall (λ n, 0 < n ≤ int64_max) l → NoDup (acc ++ l) → parseServerIDs (FormatInt <$> l) acc = Ok (acc ++ l).
Proof.
  intros H. revert acc; induction H as [|n l Hn H IH]; intros acc Hd; cbn [fmap list_fmap parseServerIDs]; [by rewrite app_nil_r|].
  rewrite serverID_FormatInt by done. rewrite bool_decide_false.
  - rewrite IH; rewrite <-app_assoc; done.
  - apply NoDup_app in Hd as (_ & Hd & _). intros Hin. apply (Hd n Hin). left.
Qed.

Lemma parse_setText : (length ids ≤ stepUpServerSetMax)%nat → parseStepUpServerSet setText = Ok ids.
Proof.
  intros Hlen. unfold parseStepUpServerSet. rewrite setText_trim, setText_split. rewrite (proj2 (String.eqb_neq _ _) setText_nonempty).
  rewrite length_fmap, (proj2 (Nat.ltb_ge _ _) Hlen). by apply (parse_ids ids []).
Qed.
End server_sets.

Lemma collect_ids l acc : Forall (λ n, 0 < n ≤ int64_max) l → NoDup (acc ++ l) → collectServerIDs (FormatInt <$> l) acc = Ok (acc ++ l).
Proof.
  intros H. revert acc; induction H as [|n l Hn H IH]; intros acc Hd; cbn [fmap list_fmap collectServerIDs]; [by rewrite app_nil_r|].
  rewrite serverID_FormatInt by done. rewrite bool_decide_false.
  - rewrite IH; rewrite <-app_assoc; done.
  - apply NoDup_app in Hd as (_ & Hd & _). intros Hin. apply (Hd n Hin). left.
Qed.

Lemma sort_sorted ids : sort_slice Z_lt (sort_slice Z_lt ids) = sort_slice Z_lt ids.
Proof. apply sort_slice_perm_eq; eauto using Z_lt_sep, Z_lt_sw, sort_slice_perm. Qed.

(** The servers behind a canonical text. *)
Record setOf (value : string) (ids : list Z) : Prop := {
  set_bounds : Forall (λ n, 0 < n ≤ int64_max) ids;
  set_nonempty : ids ≠ [];
  set_NoDup : NoDup ids;
  set_length : (length ids ≤ stepUpServerSetMax)%nat;
  set_sorted : sort_slice Z_lt ids = ids;
  set_members : ∀ id, id ∈ ids ↔ ∃ f, f ∈ Split (TrimSpace value) "," ∧ serverID f = Some id }.

Lemma canonical_spec value text : canonicalStepUpServerSet value = Ok text → ∃ ids, text = setText ids ∧ setOf value ids.
Proof.
  intros Hc. unfold canonicalStepUpServerSet in Hc. case_match; [done|].
  destruct (collectServerIDs _ _) as [ids|] eqn:Hcoll; [|done]. cbn [rbind] in Hc. destruct (Nat.ltb_spec stepUpServerSetMax (length ids)) as [|Hlen]; [done|].
  injection Hc as <-. pose proof (collect_spec _ _ _ Hcoll (NoDup_nil_2)) as [Hnd Hin]. exists (sort_slice Z_lt ids). split; [done|].
  assert (∀ id, id ∈ sort_slice Z_lt ids ↔ ∃ f, f ∈ Split (TrimSpace value) "," ∧ serverID f = Some id) as Hsorted.
  { intros id. rewrite elem_of_sort_slice, Hin. split; [by intros [?%not_elem_of_nil|?]|auto]. }
  split; [| |by apply NoDup_sort_slice|by rewrite length_sort_slice|apply sort_sorted|done].
  - apply Forall_forall. intros id (f & _ & Hf)%Hsorted. by apply serverID_bounds in Hf.
  - intros Hs. destruct (join_split "," (bytes_of (TrimSpace value))) as (_ & _ & Hne). destruct (Split (TrimSpace value) ",") as [|f l] eqn:Hsp.
    + unfold Split in Hsp. by apply fmap_nil_inv in Hsp.
    + cbn in Hcoll. destruct (serverID f) as [id|] eqn:Hf; [|done]. assert (id ∈ sort_slice Z_lt ids) as Hi by (apply Hsorted; exists f; split; [left|done]).
      rewrite Hs in Hi. by apply not_elem_of_nil in Hi.
Qed.

(** The canonical text of a set of servers is read back as the set: every server that the
    request lists, once, and no other; making it canonical again changes nothing. *)
Theorem server_set_roundtrip value text : canonicalStepUpServerSet value = Ok text →
  ∃ ids, parseStepUpServerSet text = Ok ids ∧ NoDup ids ∧ (∀ id, id ∈ ids ↔ ∃ f, f ∈ Split (TrimSpace value) "," ∧ serverID f = Some id) ∧
  canonicalStepUpServerSet text = Ok text.
Proof.
  intros (ids & -> & [Hb Hne Hnd Hlen Hsort Hin])%canonical_spec. exists ids. split_and!; [by apply parse_setText|done..|].
  unfold canonicalStepUpServerSet. rewrite setText_trim by done. rewrite (proj2 (String.eqb_neq _ _) (setText_nonempty ids Hb Hne)), setText_split by done.
  rewrite (collect_ids ids []) by done. cbn [rbind app]. rewrite (proj2 (Nat.ltb_ge _ _) Hlen). by rewrite Hsort.
Qed.

(** ** From the challenge to the use *)

(** A request for a server, by its number, as a number or a text, or in a set. *)
Inductive asksFor (purpose : string) : string → ResourceID → Z → Prop :=
| asks_server server : asksFor purpose "server" (IDNumber server) server
| asks_text value server : TrimSpace value = FormatInt server → asksFor purpose "server" (IDText value) server
| asks_set value text field server : purpose = StepUpPurposeRemoteTerminal → canonicalStepUpServerSet (TrimSpace value) = Ok text →
    field ∈ Split (TrimSpace value) "," → serverID field = Some server → asksFor purpose stepUpServerSetResourceType (IDText value) server.

Lemma setText_clean ids : contains "|" (setText ids) = false.
Proof.
  apply bool_decide_eq_false. unfold setText, Join. rewrite bytes_of_of_bytes. induction ids as [|n ids IH]; [by apply not_elem_of_nil|].
  assert ("|"%char ∉ bytes_of (FormatInt n)) as Hn by (apply (bool_decide_eq_false_1 ("|"%char ∈ bytes_of (FormatInt n))); by apply FormatInt_clean). destruct ids as [|m ids]; [exact Hn|].
  change (joinBytes (bytes_of ",") (bytes_of <$> (FormatInt <$> n :: m :: ids))) with (bytes_of (FormatInt n) ++ [","%char] ++ joinBytes (bytes_of ",") (bytes_of <$> (FormatInt <$> m :: ids))).
  rewrite !elem_of_app. intros [?|[?%list_elem_of_singleton|?]]; done.
Qed.

Lemma asks_resource purpose resourceType id server : asksFor purpose resourceType id server →
  TrimSpace resourceType = resourceType ∧ contains "|" resourceType = false ∧ ∃ rid, stepUpResource purpose resourceType id = Ok rid ∧ contains "|" rid = false ∧
  ∀ claims, SU_ResourceType claims = resourceType → SU_ResourceID claims = rid → tokenServers claims server.
Proof.
  intros [server'|value server' Hv|value text field server' -> Hc Hf Hs].
  - split_and!; [done..|]. exists (FormatInt server'). split_and!; [done|by apply FormatInt_clean|]. intros claims ? ?. by left.
  - split_and!; [done..|]. exists (FormatInt server'). split_and!; [cbn; by rewrite Hv|by apply FormatInt_clean|]. intros claims ? ?. by left.
  - split_and!; [done..|]. destruct (canonical_spec _ _ Hc) as (ids & -> & [Hb Hne Hnd Hlen Hsort Hin]). exists (setText ids). split_and!.
    + exact Hc.
    + apply setText_clean.
    + intros claims Ht Hid. right. split; [done|]. exists ids. rewrite Hid. split; [by apply parse_setText|]. apply Hin. exists field. by rewrite TrimSpace_idem.
Qed.

Section completes.
Context {C : Crypto} (sessionSecret : string).

(** *** Filters *)

Lemma filter_andb {A} (f g : A → bool) (l : list A) : List.filter (λ x, f x && g x) l = List.filter g (List.filter f l).
Proof. induction l as [|x l IH]; [done|]. cbn. destruct (f x); cbn; [|done]. by destruct (g x); rewrite IH. Qed.

Lemma filter_swap {A} (f g : A → bool) (l : list A) : List.filter f (List.filter g l) = List.filter g (List.filter f l).
Proof. rewrite <-!filter_andb. apply List.filter_ext. intros x. apply andb_comm. Qed.

Lemma filter_no_element {A} (f : A → bool) (l : list A) : (∀ x, x ∈ l → f x = false) → List.filter f l = [].
Proof. induction l as [|x l IH]; [done|]. intros H. cbn. rewrite (H x) by left. apply IH. intros y Hy. apply H. by right. Qed.

Lemma find_filter {A} (f : A → bool) (l : list A) : List.find f l = head (List.filter f l).
Proof. induction l as [|x l IH]; [done|]. cbn. by destruct (f x). Qed.

(** *** A challenge stays in the store *)

Definition sameID (id : string) (c : StepUpChallenge) : bool := (SC_ID c =? id)%string.

(** The challenge is in the store, confirmed or not, and no other one has its identifier. *)
Definition held (item : StepUpChallenge) (st : StepUpStore) : Prop :=
  List.filter (sameID (SC_ID item)) (SS_Challenges st) = [item] ∨ List.filter (sameID (SC_ID item)) (SS_Challenges st) = [consumeChallenge item].

Lemma create_held now new item st : textBefore now (SC_ExpiresAt item) = true → held item st → held item (CreateStepUpChallenge now new st).2.
Proof.
  intros Hlive. unfold held, CreateStepUpChallenge. cbv zeta. set (live := λ c, negb (textAtMost (SC_ExpiresAt c) now)). set (new' := withWebAuthn _ new).
  assert (∀ l, (List.filter (sameID (SC_ID item)) l = [item] ∨ List.filter (sameID (SC_ID item)) l = [consumeChallenge item]) →
            List.filter (sameID (SC_ID item)) (List.filter live l) = List.filter (sameID (SC_ID item)) l) as Hkept.
  { intros l. rewrite filter_swap. intros [->| ->]; unfold live, textAtMost; cbn; by rewrite Hlive. }
  intros Hh. destruct (existsb _ _) eqn:Hex; cbn [snd SS_Challenges]; [by rewrite Hkept|]. rewrite List.filter_app, Hkept by done. cbn [List.filter].
  destruct (sameID (SC_ID item) new') eqn:Hs; [|by rewrite app_nil_r]. exfalso. apply String.eqb_eq in Hs.
  assert (∃ c, c ∈ List.filter live (SS_Challenges st) ∧ SC_ID c = SC_ID item) as (c & Hc & Hid).
  { assert (∃ c, c ∈ List.filter (sameID (SC_ID item)) (List.filter live (SS_Challenges st))) as [c Hc].
    { rewrite Hkept by done. destruct Hh as [->| ->]; eexists; left. }
    rewrite list_elem_of_In in Hc. apply filter_In in Hc as [Hc Heq]. exists c. split; [by apply list_elem_of_In|by apply String.eqb_eq]. }
  assert (existsb (λ c, String.eqb (SC_ID c) (SC_ID new') || String.eqb (SC_Nonce c) (SC_Nonce new')) (List.filter live (SS_Challenges st)) = true) as Hyes; [|congruence].
  apply List.existsb_exists. exists c. rewrite <-list_elem_of_In, Hid, Hs, String.eqb_refl. done.
Qed.

Lemma consume_held now id item st : held item st → held item (ConsumeStepUpChallenge now id st).2.
Proof.
  unfold held, ConsumeStepUpChallenge. cbv zeta. cbn [snd SS_Challenges]. set (g := λ c : StepUpChallenge, if (SC_ID c =? id)%string && negb (SC_Consumed c) && textBefore now (SC_ExpiresAt c) then consumeChallenge c else c).
  assert (∀ l, List.filter (sameID (SC_ID item)) (g <$> l) = g <$> List.filter (sameID (SC_ID item)) l) as ->.
  { induction l as [|c l IH]; [done|]. cbn. replace (sameID (SC_ID item) (g c)) with (sameID (SC_ID item) c) by (unfold g; by case_match).
    destruct (sameID _ c); cbn; by rewrite IH. }
  assert (g item = item ∨ g item = consumeChallenge item) as Hg by (unfold g; case_match; auto).
  assert (g (consumeChallenge item) = consumeChallenge item) as Hc by (unfold g; by case_match).
  intros [->| ->]; cbn; rewrite ?Hc; [|by right]. destruct Hg as [->| ->]; auto.
Qed.

Lemma begin_store caller purpose resourceType id nonce cid passkey now stored st : let st' := (stepUpBegin caller purpose resourceType id nonce cid passkey now stored st).2 in
  st' = st ∨ ∃ new, st' = (CreateStepUpChallenge stored new st).2.
Proof.
  unfold stepUpBegin. destruct caller; [|by left]. cbv zeta. case_match; [by left|]. destruct (stepUpResource _ _ _); [|by left].
  destruct (RandomToken nonce), (RandomToken cid); try by left. right. match goal with |- context [CreateStepUpChallenge stored ?new st] => exists new end. by destruct (CreateStepUpChallenge _ _ _).
Qed.

Lemma finish_store caller cid read consumed now st : let st' := (finishStepUp sessionSecret caller cid read consumed now st).2 in
  st' = st ∨ ∃ id, st' = (ConsumeStepUpChallenge consumed id st).2.
Proof.
  unfold finishStepUp. destruct caller; [|by left]. destruct (GetStepUpChallenge _ _ _) as [item|]; [|by left]. cbv zeta. case_match; [by left|].
  right. exists (SC_ID item). destruct (ConsumeStepUpChallenge _ _ _) as [[] st']; cbn; [|done]. by destruct (SignStepUpToken _ _).
Qed.

Lemma use_challenges key caller token purpose now stored st : SS_Challenges (consumeWith sessionSecret key caller token purpose now stored st).2 = SS_Challenges st.
Proof.
  unfold consumeWith. destruct (verifyStepUpToken _ _ _ _ _); [|done]. destruct (key _); [|done]. unfold consumeStepUpKey, ConsumeStepUpToken. cbv zeta.
  by destruct (existsb _ _).
Qed.

Lemma Unix_mono a b : a ≤ b → Unix a ≤ Unix b.
Proof. unfold Unix, second. intros. apply Z.div_le_mono; lia. Qed.

Lemma step_held t st a t' st' item : step sessionSecret (t, st) a (t', st') → Unix t' < Unix (SC_ExpiresAt item) → held item st → held item st'.
Proof.
  intros Hstep Hlive Hh.
  assert (∀ caller cid read consumed now, consumed ≤ now → held item (finishStepUp sessionSecret caller cid read consumed now st).2) as Hfinish.
  { intros caller cid read consumed now _. destruct (finish_store caller cid read consumed now st) as [->|[id ->]]; [done|by apply consume_held]. }
  assert (∀ key caller token purpose now stored r, consumeWith sessionSecret key caller token purpose now stored st = (r, st') → held item st') as Huse.
  { intros key caller token purpose now stored r Hc. pose proof (use_challenges key caller token purpose now stored st) as Hu. rewrite Hc in Hu. cbn in Hu. unfold held. by rewrite Hu. }
  inversion Hstep; subst; clear Hstep; try (by eapply Huse).
  - match goal with |- held _ (stepUpBegin ?a ?b ?c ?d ?e ?f ?g ?h ?i ?j).2 => destruct (begin_store a b c d e f g h i j) as [->|[new ->]]; [done|] end.
    apply create_held; [|done]. by apply textBefore_second.
  - unfold stepUpPassword. destruct caller; [|done]. case_match; [done|]. by apply Hfinish.
  - unfold stepUpPasskeyFinish. destruct caller; [|done]. destruct (GetStepUpChallenge _ _ _); [|done]. case_match; [done|]. destruct (passkey _); [by apply Hfinish|done].
Qed.

Lemma run_held s accepted s' item : run sessionSecret s accepted s' → Unix s'.1 < Unix (SC_ExpiresAt item) → held item s.2 → held item s'.2.
Proof.
  intros Hrun Hlive. assert (∀ s accepted s', run sessionSecret s accepted s' → s.1 ≤ s'.1) as Hclock.
  { clear. induction 1 as [|[t st] [t' st'] s'' a accepted Hstep Hrun IH]; [done|]. apply step_spec in Hstep as [Hle _ _]. cbn in *. lia. }
  induction Hrun as [|[t st] [t' st'] s'' a accepted Hstep Hrun IH]; [done|]. intros Hh. apply IH; [done|]. cbn [snd] in *.
  apply (step_held _ _ _ _ _ _ Hstep); [|done]. pose proof (Unix_mono _ _ (Hclock _ _ _ Hrun)). cbn in *. lia.
Qed.

(** *** The confirmation *)

Record canStepUp (u : Caller) (purpose : string) : Prop := {
  can_secret : sessionSecret ≠ ""%string;
  can_user : 0 < CA_UserID u ≤ int64_max;
  can_version : int64 (CA_SessionVersion u);
  can_session : CA_SessionID u ≠ ""%string ∧ contains "|" (CA_SessionID u) = false;
  can_purpose : validStepUpPurpose purpose = true }.

Lemma purpose_clean purpose : validStepUpPurpose purpose = true → TrimSpace purpose = purpose ∧ contains "|" purpose = false ∧ purpose ≠ ""%string.
Proof.
  unfold validStepUpPurpose. intros H%bool_decide_eq_true. unfold stepUpPurposes in H.
  repeat (apply elem_of_cons in H as [->|H]; [by vm_compute|]). by apply not_elem_of_nil in H.
Qed.

Lemma token_text_clean l : contains "|" (encode64 URLEncoding l) = false.
Proof. apply bool_decide_eq_false, encode64_not. vm_compute. reflexivity. Qed.

Lemma encode64_nonempty l : l ≠ [] → encode64 URLEncoding l ≠ ""%string.
Proof. intros Hl. by destruct l as [|a [|b [|c l]]]. Qed.

(** The challenge that a begin leaves in the store. *)
Definition challengeFor (u : Caller) (purpose resourceType rid : string) (nonce cid : list ascii) (passkey : string) (now : Z) : StepUpChallenge :=
  {| SC_ID := "suc_" +:+ encode64 URLEncoding cid; SC_UserID := CA_UserID u; SC_SessionID := CA_SessionID u; SC_SessionVersion := CA_SessionVersion u;
     SC_Purpose := purpose; SC_ResourceType := resourceType; SC_ResourceID := rid; SC_Nonce := encode64 URLEncoding nonce;
     SC_WebAuthnSessionJSON := passkey; SC_Consumed := false; SC_ExpiresAt := now + challengeTTL |}.

Lemma begin_challenge u purpose resourceType id nonce cid passkey now stored st challenge st' rid : validStepUpPurpose purpose = true →
  TrimSpace resourceType = resourceType → stepUpResource purpose resourceType id = Ok rid →
  stepUpBegin (Some u) purpose resourceType id (Some nonce) (Some cid) passkey now stored st = (Ok challenge, st') →
  ∃ json, let item := challengeFor u purpose resourceType rid nonce cid json now in
    challenge = SC_ID item ∧ held item st' ∧ json = (if (passkey =? "")%string then "{}" else passkey)%string.
Proof.
  intros Hp Ht Hr. unfold stepUpBegin. destruct (purpose_clean purpose Hp) as (-> & _). rewrite Hp, Ht, Hr. cbn [negb RandomToken fmap option_fmap option_map].
  unfold CreateStepUpChallenge. cbv zeta. destruct (existsb _ _) eqn:Hex; [done|]. intros [[= <-] <-]%pair_eq.
  exists (if (passkey =? "")%string then "{}" else passkey)%string. split_and!; [done| |done]. unfold held. cbn [SS_Challenges]. rewrite List.filter_app. cbn [List.filter].
  match goal with |- context [sameID ?i ?c] => replace (sameID i c) with true by (symmetry; apply String.eqb_refl) end.
  rewrite (filter_no_element _ (List.filter _ _)); [by left|]. intros c Hc. destruct (sameID _ c) eqn:Hs; [|done]. rewrite <-Hex. symmetry. apply List.existsb_exists. exists c.
  split; [by apply list_elem_of_In|]. unfold sameID in Hs. cbn in Hs |- *. by rewrite Hs.
Qed.

(** The token of a challenge. *)
Definition claimsFor (item : StepUpChallenge) (now : Z) : StepUpTokenClaims :=
  {| SU_UserID := SC_UserID item; SU_SessionID := SC_SessionID item; SU_SessionVersion := SC_SessionVersion item; SU_Purpose := SC_Purpose item;
     SU_ResourceType := SC_ResourceType item; SU_ResourceID := SC_ResourceID item; SU_Nonce := SC_Nonce item; SU_IssuedAt := now; SU_ExpiresAt := now + StepUpTokenTTL |}.

Lemma sign_claims u purpose resourceType rid nonce cid json begun now : let claims := claimsFor (challengeFor u purpose resourceType rid nonce cid json begun) now in
  canStepUp u purpose → nonce ≠ [] → SignStepUpToken sessionSecret claims = Ok (signedToken sessionSecret (Join (stepUpFields claims) "|")).
Proof.
  intros claims [Hsec Hu Hv [Hs Hsc] Hp] Hnonce. destruct (purpose_clean purpose Hp) as (_ & _ & Hpn). unfold SignStepUpToken. cbn.
  rewrite (proj2 (String.eqb_neq _ _) Hsec), (proj2 (Z.leb_gt _ _)), (proj2 (String.eqb_neq _ _) Hs), (proj2 (String.eqb_neq _ _) Hpn) by lia.
  by rewrite (proj2 (String.eqb_neq _ _) (encode64_nonempty nonce Hnonce)).
Qed.

Lemma held_get item read st : held item st → (∀ c, c ∈ SS_Challenges st → SC_ID c = SC_ID item → SC_Consumed c = false) → read < SC_ExpiresAt item →
  List.filter (sameID (SC_ID item)) (SS_Challenges st) = [item] ∧ GetStepUpChallenge read (SC_ID item) st = Some item.
Proof.
  intros Hh Hopen Hread. assert (List.filter (sameID (SC_ID item)) (SS_Challenges st) = [item]) as Hf.
  { destruct Hh as [Hh|Hh]; [done|]. exfalso.
    assert (consumeChallenge item ∈ SS_Challenges st) as Hin; [|by specialize (Hopen _ Hin eq_refl)].
    apply list_elem_of_In. eapply (proj1 (filter_In (sameID (SC_ID item)) _ _)). rewrite Hh. by left. }
  split; [done|]. unfold GetStepUpChallenge. change (λ c, (SC_ID c =? SC_ID item)%string) with (sameID (SC_ID item)). rewrite find_filter, Hf. cbn.
  by rewrite (proj2 (Z.ltb_lt _ _) Hread).
Qed.

Lemma finish_held u purpose resourceType rid nonce cid json begun read consumed now st : let item := challengeFor u purpose resourceType rid nonce cid json begun in
  canStepUp u purpose → nonce ≠ [] → List.filter (sameID (SC_ID item)) (SS_Challenges st) = [item] → GetStepUpChallenge read (SC_ID item) st = Some item →
  Unix consumed < Unix (begun + challengeTTL) →
  ∃ st', finishStepUp sessionSecret (Some u) (SC_ID item) read consumed now st = (Ok (signedToken sessionSecret (Join (stepUpFields (claimsFor item now)) "|")), st').
Proof.
  intros item Hcan Hnonce Hf Hget Hcons. unfold finishStepUp. rewrite Hget.
  change (SC_UserID item) with (CA_UserID u). change (SC_SessionID item) with (CA_SessionID u). change (SC_SessionVersion item) with (CA_SessionVersion u).
  rewrite !Z.eqb_refl, String.eqb_refl. cbn [negb orb]. unfold ConsumeStepUpChallenge. cbv zeta.
  match goal with |- context [List.filter ?f (SS_Challenges st)] => rewrite (List.filter_ext f (λ c, sameID (SC_ID item) c && (negb (SC_Consumed c) && textBefore consumed (SC_ExpiresAt c))))
    by (intros c; by rewrite andb_assoc) end.
  rewrite filter_andb, Hf. cbn [List.filter]. change (SC_Consumed item) with false. change (SC_ExpiresAt item) with (begun + challengeTTL). cbn [negb andb].
  rewrite textBefore_second by done. cbn [length Nat.eqb negb].
  match goal with |- context [SignStepUpToken sessionSecret ?c] => change c with (claimsFor item now) end. unfold item. rewrite sign_claims by done. eauto.
Qed.

(** A confirmation by the user: with the password, or with a passkey when the challenge has one
    and the passkey library accepts the assertion. *)
Inductive confirmation (u : Caller) (passkey challenge : string) (read consumed now : Z) (st : StepUpStore) : result StepUpErr string * StepUpStore → Prop :=
| by_password password : VerifyPassword password (CA_PasswordHash u) = true →
    confirmation u passkey challenge read consumed now st (stepUpPassword sessionSecret (Some u) challenge password read consumed now st)
| by_passkey verify first : first ≤ read → passkey ≠ ""%string → verify passkey = Ok tt →
    confirmation u passkey challenge read consumed now st (stepUpPasskeyFinish sessionSecret (Some u) challenge verify first read consumed now st).

(** C20. A user who asks for a step-up on a server, by its number or in a set, and confirms it in
    the same session, with the password or a passkey, gets a token, whatever requests came in
    between, if the challenge was not confirmed before and the confirmation is recorded in a second
    before that of the expiry. The token is accepted for every requested server until it
    expires, unless its slot for the server was used. *)
Theorem step_up_completes u purpose resourceType id server nonce cid passkey begun stored st challenge st1 accepted t st2 read consumed now answer :
  canStepUp u purpose → asksFor purpose resourceType id server → nonce ≠ [] →
  stepUpBegin (Some u) purpose resourceType id (Some nonce) (Some cid) passkey begun stored st = (Ok challenge, st1) →
  run sessionSecret (stored, st1) accepted (t, st2) → (∀ c, c ∈ SS_Challenges st2 → SC_ID c = challenge → SC_Consumed c = false) →
  t ≤ read → read ≤ consumed → Unix consumed < Unix (begun + challengeTTL) → timeRange now → timeRange (now + StepUpTokenTTL) →
  confirmation u passkey challenge read consumed now st2 answer →
  ∃ token claims st3, answer = (Ok token, st3) ∧
    ∀ server, asksFor purpose resourceType id server →
    ∀ use recorded st4, use < cutTime (now + StepUpTokenTTL) → (∀ e, (slotKey token server claims, e) ∉ SS_Tokens st4) →
      ∃ st5, consumeStepUpForServer sessionSecret (Some u) token purpose server use recorded st4 = (Ok tt, st5).
Proof.
  intros Hcan Hask Hnonce Hbegin Hrun Hopen Ht Hrc Hcons Hnow Hexp Hconf. pose proof Hcan as [Hsec Hu Hv [Hs Hsc] Hp].
  destruct (asks_resource _ _ _ _ Hask) as (Htrim & Htc & rid & Hr & Hridc & _).
  destruct (begin_challenge _ _ _ _ _ _ _ _ _ _ _ _ _ Hp Htrim Hr Hbegin) as (json & -> & Hheld & Hjson). set (item := challengeFor u purpose resourceType rid nonce cid json begun) in *.
  assert (read < begun + challengeTTL) as Hread by (apply Znot_ge_lt; intros Hge; pose proof (Unix_mono (begun + challengeTTL) consumed); lia).
  apply (run_held _ _ _ item) in Hrun; [|cbn; pose proof (Unix_mono t consumed); lia|done]. cbn [snd] in Hrun.
  destruct (held_get _ read _ Hrun Hopen Hread) as [Hf Hget].
  destruct (finish_held u purpose resourceType rid nonce cid json begun read consumed now st2 Hcan Hnonce Hf Hget Hcons) as [st3 Hfin]. fold item in Hfin.
  exists (signedToken sessionSecret (Join (stepUpFields (claimsFor item now)) "|")), (cutClaims (claimsFor item now)), st3. split.
  - rewrite <-Hfin. destruct Hconf as [password Hpw|verify first Hfirst Hne Hok]; [unfold stepUpPassword; by rewrite Hpw|]. unfold stepUpPasskeyFinish.
    destruct (held_get _ first _ Hrun Hopen) as [_ ->]; [cbn; lia|]. change (SC_UserID item) with (CA_UserID u). change (SC_WebAuthnSessionJSON item) with json.
    apply String.eqb_neq in Hne. rewrite Hne in Hjson. subst json. by rewrite Z.eqb_refl, Hne, Hok.
  - clear Hask Hconf server. intros server Hask use recorded st4 Huse Hfree. destruct (asks_resource _ _ _ _ Hask) as (_ & _ & rid' & Hr' & _ & Hsrv).
    assert (rid' = rid) as -> by congruence. setoid_rewrite consumeWith_Ok. setoid_rewrite serverKey_Ok.
    destruct (purpose_clean purpose Hp) as (_ & Hpc & Hpn).
    match type of Hfree with ∀ e, (?k, e) ∉ _ => destruct (ConsumeStepUpToken recorded k (SU_ExpiresAt (cutClaims (claimsFor item now))) st4) as [ok st5] eqn:Hc; exists st5, u, (cutClaims (claimsFor item now)), k end.
    split_and!; [done| |by apply Hsrv|done|by rewrite Hc, (consumeToken_fresh _ _ _ _ _ _ Hfree Hc)].
    split; try done. apply verify_claims. split; [|done]. eexists. split; [apply open_signed|].
    rewrite stepUpClaims_payload by (done || unfold int64, int64_min in *; cbn; lia). unfold stepUpClean. cbn [forallb SU_SessionID SU_Purpose SU_ResourceType SU_ResourceID SU_Nonce claimsFor item challengeFor SC_SessionID SC_Purpose SC_ResourceType SC_ResourceID SC_Nonce].
    by rewrite Hsc, Hpc, Htc, Hridc, token_text_clean.
Qed.
End completes.

(** ** Concrete runs *)

Definition admin : Caller :=
  {| CA_UserID := 7; CA_PasswordHash := default "" (@HashPassword plainCrypto "secret" (Some (bytes_of "0123456789abcdef"))); CA_SessionID := "s1"; CA_SessionVersion := 3 |}.

Definition noTokens : StepUpStore := {| SS_Challenges := []; SS_Tokens := [] |}.

Definition seconds (n : Z) : Z := n * second.

Definition terminalToken : string := @signedToken plainCrypto "key" (Join (stepUpFields terminalClaims) "|").

Definition useTerminal (token : string) (now stored : Z) (st : StepUpStore) : result StepUpErr unit * StepUpStore :=
  @consumeStepUpForServer plainCrypto "key" (Some admin) token "remote_terminal" 5 now stored st.

Definition terminalUse (now stored : Z) : Acceptance :=
  {| A_Token := terminalToken; A_Server := Some 5; A_Claims := cutClaims terminalClaims; A_Now := now; A_Stored := stored |}.

(** The second use is verified a second before the expiry and recorded at the expiry. *)
Definition usedOnce : StepUpStore := (useTerminal terminalToken (seconds 1700000001) (seconds 1700000001) noTokens).2.
Definition usedTwice : StepUpStore := (useTerminal terminalToken (seconds 1700000119) (seconds 1700000120) usedOnce).2.

Lemma race_run : @run plainCrypto "key" (0, noTokens)
  [terminalUse (seconds 1700000001) (seconds 1700000001); terminalUse (seconds 1700000119) (seconds 1700000120)] (seconds 1700000120, usedTwice).
Proof.
  refine (run_step "key" _ (seconds 1700000001, usedOnce) _ (Some (terminalUse (seconds 1700000001) (seconds 1700000001))) _ _ _).
  { apply (step_use_server "key" _ _ _ (Some admin) _ "remote_terminal"); [done..|vm_compute; reflexivity|vm_compute; reflexivity]. }
  refine (run_step "key" _ (seconds 1700000120, usedTwice) _ (Some (terminalUse (seconds 1700000119) (seconds 1700000120))) _ _ (run_nil _ _)).
  apply (step_use_server "key" _ _ _ (Some admin) _ "remote_terminal"); [done..|vm_compute; reflexivity|vm_compute; reflexivity].
Qed.

Lemma step_up_single_use_witness : seconds 1700000119 < SU_ExpiresAt (cutClaims terminalClaims) ≤ seconds 1700000120.
Proof.
  apply (step_up_single_use "key" (0, noTokens) _ (seconds 1700000120, usedTwice) 0 1 (terminalUse (seconds 1700000001) (seconds 1700000001))
    (terminalUse (seconds 1700000119) (seconds 1700000120)) race_run); (lia || reflexivity).
Defined.

(** A token that was used is accepted again with a line break before it. *)
Lemma used_token_replayed : ∃ st, useTerminal (String (ascii_of_nat 10) terminalToken) (seconds 1700000002) (seconds 1700000002) usedOnce = (Ok tt, st).
Proof.
  apply (reencoded_token_accepted "key" admin terminalToken "remote_terminal" 5 (seconds 1700000001) (seconds 1700000001) noTokens usedOnce
    (seconds 1700000002) (seconds 1700000002) (cutClaims terminalClaims)); [vm_compute; reflexivity..|].
  intros e. vm_compute. intros H. inversion H as [|? ? ? H']; subst. inversion H'.
Qed.

Lemma server_set_roundtrip_witness : ∃ ids, parseStepUpServerSet "3,12" = Ok ids ∧ NoDup ids ∧
  (∀ id, id ∈ ids ↔ ∃ f, f ∈ Split (TrimSpace " 12, 3,12") "," ∧ serverID f = Some id) ∧ canonicalStepUpServerSet "3,12" = Ok "3,12"%string.
Proof. apply (server_set_roundtrip " 12, 3,12" "3,12"). vm_compute. reflexivity. Defined.

Lemma admin_can : @canStepUp "key" admin "remote_terminal".
Proof. split; try done. all: unfold int64; repeat split; try (apply Z.leb_le; reflexivity); vm_compute; reflexivity. Qed.

Definition beginAt (challenge nonce : string) (at_ : Z) (st : StepUpStore) : result StepUpErr string * StepUpStore :=
  stepUpBegin (Some admin) "remote_terminal" "server_set" (IDText " 12, 5,12") (Some (bytes_of nonce)) (Some (bytes_of challenge)) "session" at_ at_ st.

Definition challengeText : string := "suc_" +:+ encode64 URLEncoding (bytes_of "challenge").

(** The challenge is confirmed after another one was asked for. *)
Definition begunStore : StepUpStore := (beginAt "challenge" "nonce" (seconds 1700000000) noTokens).2.
Definition laterStore : StepUpStore := (beginAt "other" "another" (seconds 1700000005) begunStore).2.

Lemma step_up_completes_witness : ∃ token claims st3,
  @stepUpPasskeyFinish plainCrypto "key" (Some admin) challengeText (λ _, Ok tt) (seconds 1700000010) (seconds 1700000010) (seconds 1700000010) (seconds 1700000010) laterStore = (Ok token, st3) ∧
  ∀ server, asksFor "remote_terminal" "server_set" (IDText " 12, 5,12") server →
  ∀ use recorded st4, use < cutTime (seconds 1700000010 + StepUpTokenTTL) → (∀ e, (@slotKey plainCrypto token server claims, e) ∉ SS_Tokens st4) →
    ∃ st5, @consumeStepUpForServer plainCrypto "key" (Some admin) token "remote_terminal" server use recorded st4 = (Ok tt, st5).
Proof.
  apply (step_up_completes "key" admin "remote_terminal" "server_set" (IDText " 12, 5,12") 5 (bytes_of "nonce") (bytes_of "challenge") "session" (seconds 1700000000)
    (seconds 1700000000) noTokens challengeText begunStore [] (seconds 1700000005) laterStore (seconds 1700000010) (seconds 1700000010) (seconds 1700000010)).
  - exact admin_can.
  - apply (asks_set _ " 12, 5,12" "5,12" " 5"); [done|vm_compute; reflexivity| |vm_compute; reflexivity]. vm_compute. right. left.
  - done.
  - vm_compute. reflexivity.
  - refine (run_step "key" _ (seconds 1700000005, laterStore) _ None [] _ (run_nil _ _)). apply step_begin; apply Z.leb_le; reflexivity.
  - intros c Hc _. vm_compute in Hc. apply elem_of_cons in Hc as [->|[->|[]%not_elem_of_nil]%elem_of_cons]; reflexivity.
  - apply Z.leb_le. reflexivity.
  - apply Z.leb_le. reflexivity.
  - apply Z.ltb_lt. reflexivity.
  - unfold timeRange, int64; repeat split; apply Z.leb_le; reflexivity.
  - unfold timeRange, int64; repeat split; apply Z.leb_le; reflexivity.
  - by apply by_passkey.
Defined.
