(* ===== verification/Credentials.v ===== *)
(** * Data plane credentials ([internal/core/device_identity.go], [internal/core/protocols.go])

    Which accounts carry which proxy credentials: the identities of accounts, the persisted
    credential that belongs to a route, the users an inbound or a path serves, the listeners an
    inbound gets, and the scopes that need a credential.

    An account is the record of the fields of [model.User] that the data plane reads.  The
    clock is the argument [at] of the functions that read it. *)

From S2P Require Import Prelude Model NodeKeys NetAddr ListenResources AccessSnapshot ProxyPathNames PlanPreview.

Local Open Scope Z_scope.
Local Open Scope go_scope.

(** [time.Time{}], the first of January of year 1, in nanoseconds since 1970. *)
Definition zeroTime : Z := -62135596800000000000.

Record ProxyCredential := {
  PC_DeviceTransitionAllowed : bool;
  PC_ID : string;
  PC_UserID : Z;
  PC_InboundID : Z;
  PC_PathID : Z;
  PC_DeviceIDHash : string;
  PC_CredentialEpoch : Z;
  PC_Protocol : string;
  PC_Status : string;
  PC_Username : string;
  PC_Password : string;
  PC_UUID : string }.

#[export] Instance ProxyCredential_eq_dec : EqDecision ProxyCredential.
Proof. solve_decision. Defined.

Record Account := {
  AC_ID : Z;
  AC_Username : string;
  AC_Status : string;
  AC_ProxyUUID : string;
  AC_ProxyPassword : string;
  AC_ProxyUsername : string;
  AC_AuthorizationKey : string;
  AC_ProxyCredentials : list ProxyCredential;
  AC_DeviceTransitionUntil : Z;
  AC_DeviceIDHash : string;
  AC_CredentialEpoch : Z;
  AC_CredentialStatus : string }.

#[export] Instance Account_eq_dec : EqDecision Account.
Proof. solve_decision. Defined.

Definition accountActive (u : Account) : bool := (AC_Status u =? "active")%string.

(** ** Identities *)

Definition ConsistentDeviceCredentialIdentity (deviceIDHash : string) (credentialEpoch : Z) : bool :=
  if (TrimSpace deviceIDHash =? "")%string then credentialEpoch =? 0 else 0 <? credentialEpoch.

Definition withUsername (name : string) (u : Account) : Account :=
  {| AC_ID := AC_ID u; AC_Username := name; AC_Status := AC_Status u; AC_ProxyUUID := AC_ProxyUUID u; AC_ProxyPassword := AC_ProxyPassword u;
     AC_ProxyUsername := AC_ProxyUsername u; AC_AuthorizationKey := AC_AuthorizationKey u; AC_ProxyCredentials := AC_ProxyCredentials u;
     AC_DeviceTransitionUntil := AC_DeviceTransitionUntil u; AC_DeviceIDHash := AC_DeviceIDHash u; AC_CredentialEpoch := AC_CredentialEpoch u;
     AC_CredentialStatus := AC_CredentialStatus u |}.

Definition withDevice (hash : string) (epoch : Z) (u : Account) : Account :=
  {| AC_ID := AC_ID u; AC_Username := AC_Username u; AC_Status := AC_Status u; AC_ProxyUUID := AC_ProxyUUID u; AC_ProxyPassword := AC_ProxyPassword u;
     AC_ProxyUsername := AC_ProxyUsername u; AC_AuthorizationKey := AC_AuthorizationKey u; AC_ProxyCredentials := AC_ProxyCredentials u;
     AC_DeviceTransitionUntil := AC_DeviceTransitionUntil u; AC_DeviceIDHash := hash; AC_CredentialEpoch := epoch;
     AC_CredentialStatus := AC_CredentialStatus u |}.

Definition legacyIdentity (u : Account) (hash : string) (epoch : Z) : Account :=
  withUsername (AC_Username u +:+ "-d" +:+ hash) (withDevice hash epoch u).

Definition transitional (c : ProxyCredential) : bool :=
  PC_DeviceTransitionAllowed c && (PC_Status c =? "active")%string && negb (PC_DeviceIDHash c =? "")%string && (0 <? PC_CredentialEpoch c).

(** The loop over the credentials, with the devices it has seen. *)
Fixpoint legacyIdentities (u : Account) (credentials : list ProxyCredential) (seen : gset (string * Z)) : list Account :=
  match credentials with
  | [] => []
  | c :: rest =>
      let device := (PC_DeviceIDHash c, PC_CredentialEpoch c) in
      if negb (transitional c) || bool_decide (device ∈ seen) then legacyIdentities u rest seen
      else legacyIdentity u device.1 device.2 :: legacyIdentities u rest ({[device]} ∪ seen)
  end.

Definition identitiesOf (at_ : Z) (u : Account) : list Account :=
  if negb (accountActive u) then []
  else if negb (AC_DeviceIDHash u =? "")%string || negb (at_ <? AC_DeviceTransitionUntil u) then [u]
  else u :: legacyIdentities u (AC_ProxyCredentials u) ∅.

Definition DataPlaneIdentitiesAt (users : list Account) (at_ : Z) : list Account := users ≫= identitiesOf at_.

(** ** The credential of a route *)

Definition withSecrets (username password uuid key : string) (u : Account) : Account :=
  {| AC_ID := AC_ID u; AC_Username := AC_Username u; AC_Status := AC_Status u; AC_ProxyUUID := uuid; AC_ProxyPassword := password;
     AC_ProxyUsername := username; AC_AuthorizationKey := key; AC_ProxyCredentials := AC_ProxyCredentials u;
     AC_DeviceTransitionUntil := AC_DeviceTransitionUntil u; AC_DeviceIDHash := AC_DeviceIDHash u; AC_CredentialEpoch := AC_CredentialEpoch u;
     AC_CredentialStatus := AC_CredentialStatus u |}.

Definition credentialRefused (u : Account) : bool :=
  negb (accountActive u) || (AC_CredentialStatus u =? "revoked")%string || (AC_CredentialStatus u =? "disabled")%string.

Definition routeCredential (u : Account) (inboundID pathID : Z) (protocol : string) (c : ProxyCredential) : bool :=
  ((AC_DeviceIDHash u =? "")%string || PC_DeviceTransitionAllowed c) && (PC_Status c =? "active")%string &&
  (PC_UserID c =? AC_ID u) && (PC_InboundID c =? inboundID) && (PC_PathID c =? pathID) && (PC_Protocol c =? protocol)%string &&
  (PC_DeviceIDHash c =? AC_DeviceIDHash u)%string && (PC_CredentialEpoch c =? AC_CredentialEpoch u) &&
  negb (PC_ID c =? "")%string && negb (PC_Username c =? "")%string && negb (PC_Password c =? "")%string && negb (PC_UUID c =? "")%string.

Definition UserCredentialForRouteAt (u : Account) (inboundID pathID : Z) (protocol : string) (at_ : Z) : Account :=
  if AC_ID u <=? 0 then u
  else
    let u := withSecrets "" "" "" "" u in
    if credentialRefused u then u
    else if negb (ConsistentDeviceCredentialIdentity (AC_DeviceIDHash u) (AC_CredentialEpoch u)) ||
            (negb (AC_DeviceIDHash u =? "")%string && negb (at_ <? AC_DeviceTransitionUntil u)) then u
    else match List.find (routeCredential u inboundID pathID protocol) (AC_ProxyCredentials u) with
         | Some c => withSecrets (PC_Username c) (PC_Password c) (PC_UUID c) (PC_ID c) u
         | None => u
         end.

(** *** The path in the name of an identity *)

Definition pathMarker : list ascii := bytes_of "__oboard_path_".

(** What follows the last occurrence: [strings.LastIndex]. *)
Fixpoint afterLast (marker s : list ascii) : option (list ascii) :=
  match s with
  | [] => None
  | _ :: rest => match afterLast marker rest with
                 | Some after => Some after
                 | None => if hasPrefix marker s then Some (drop (length marker) s) else None
                 end
  end.

Definition runtimePathIDFromUsername (username : string) : Z :=
  match afterLast pathMarker (bytes_of username) with
  | None => 0
  | Some rest => match ParseInt (of_bytes rest) with
                 | Some pathID => if pathID <=? 0 then 0 else pathID
                 | None => 0
                 end
  end.

Definition proxyPathBranchUsername (username : string) (pathID : Z) : string := username +:+ "__oboard_path_" +:+ FormatInt pathID.

Definition proxyPathBranchUser (path : ProxyPath) (inbound : Inbound) (u : Account) (at_ : Z) : Account :=
  UserCredentialForRouteAt (withUsername (proxyPathBranchUsername (AC_Username u) (ProxyPath_ID path)) u)
    (Inbound_ID inbound) (ProxyPath_ID path) (Inbound_Protocol inbound) at_.

Definition credentialUsersForInbound (users : list Account) (inbound : Inbound) (at_ : Z) : list Account :=
  List.filter (λ u, (AC_ID u <=? 0) || negb (AC_AuthorizationKey u =? "")%string)
    ((λ u, UserCredentialForRouteAt u (Inbound_ID inbound) (runtimePathIDFromUsername (AC_Username u)) (Inbound_Protocol inbound) at_) <$> users).

(** ** The users of an inbound and of a path *)

(** Bindings are a slice that may be nil, which stands for no restriction. *)
Definition boundToInbound (inbound : Inbound) (bindings : list InboundUser) : gset Z :=
  list_to_set (InboundUser_UserID <$> List.filter (λ b, (InboundUser_InboundID b =? Inbound_ID inbound) && InboundUser_Enabled b) bindings).

Definition usersForInbound (inbound : Inbound) (users : list Account) (bindings : option (list InboundUser)) : list Account :=
  match bindings with
  | None => List.filter accountActive users
  | Some bindings => List.filter (λ u, accountActive u && bool_decide (AC_ID u ∈ boundToInbound inbound bindings)) users
  end.

Definition boundToPath (path : ProxyPath) (bindings : list ProxyPathUser) : gset Z :=
  list_to_set (ProxyPathUser_UserID <$> List.filter (λ b, ProxyPathUser_Enabled b && (ProxyPathUser_ProxyPathID b =? ProxyPath_ID path)) bindings).

Definition usersForProxyPath (path : ProxyPath) (inbound : Inbound) (users : list Account) (inboundUsers : option (list InboundUser))
    (pathUsers : option (list ProxyPathUser)) : list Account :=
  match pathUsers with
  | None => usersForInbound inbound users inboundUsers
  | Some bindings => List.filter (λ u, bool_decide (AC_ID u ∈ boundToPath path bindings)) users
  end.

Definition proxyPathsForRootInbound (inboundID : Z) (paths : list ProxyPath) : list ProxyPath :=
  sort_slice (ltc (onc ProxyPath_ID Z.compare)) (List.filter (λ p, ProxyPath_Enabled p && (ProxyPath_InboundID p =? inboundID)) paths).

Definition hasInternalName (u : Account) : bool := hasPrefix (bytes_of "__oboard_") (bytes_of (AC_Username u)).

Definition proxyPathBranchUsersForPath (path : ProxyPath) (inbound : Inbound) (users : list Account) (at_ : Z) : list Account :=
  if bool_decide (users = []) || negb (ProxyPath_Enabled path) || negb (ProxyPath_InboundID path =? Inbound_ID inbound) then []
  else List.filter (λ u, negb (AC_AuthorizationKey u =? "")%string)
         ((λ u, proxyPathBranchUser path inbound u at_) <$> List.filter (λ u, accountActive u && negb (hasInternalName u)) users).

(** A branch that users reach: a direct exit or a path with steps. *)
Definition servedPath (steps : list ProxyPathStep) (path : ProxyPath) : bool :=
  (ProxyPath_Kind path =? ProxyPathKindDirect)%string || bool_decide (ProxyPath_ID path ∈ Step_PathID <$> steps).

Definition proxyPathBranchUsersForInbound (inbound : Inbound) (users : list Account) (inboundUsers : option (list InboundUser))
    (pathUsers : option (list ProxyPathUser)) (paths : list ProxyPath) (steps : list ProxyPathStep) (at_ : Z) : list Account :=
  if bool_decide (users = []) then []
  else List.filter (servedPath steps) (proxyPathsForRootInbound (Inbound_ID inbound) paths) ≫=
         λ path, proxyPathBranchUsersForPath path inbound (usersForProxyPath path inbound users inboundUsers pathUsers) at_.

(** ** The listeners of an inbound *)

(** The digests that derive secrets of internal identities, and the secret of a path. *)
Class SecretDerivation := {
  deterministicUUID : string → string;
  deterministicSecret : string → string;
  pathSecret : ProxyPath → string }.

Section listeners.
Context {SD : SecretDerivation}.

Definition internalAccount (id : Z) (username uuid password : string) : Account :=
  {| AC_ID := id; AC_Username := username; AC_Status := "active"; AC_ProxyUUID := uuid; AC_ProxyPassword := password; AC_ProxyUsername := "";
     AC_AuthorizationKey := ""; AC_ProxyCredentials := []; AC_DeviceTransitionUntil := zeroTime; AC_DeviceIDHash := ""; AC_CredentialEpoch := 0;
     AC_CredentialStatus := "" |}.

Definition proxyPathLinkUser (path : ProxyPath) (inbound : Inbound) : Account :=
  let seed := if (TrimSpace (pathSecret path) =? "")%string
              then "path:" +:+ FormatInt (ProxyPath_ID path) +:+ ":inbound:" +:+ FormatInt (Inbound_ID inbound)
              else pathSecret path in
  internalAccount (- ProxyPath_ID path)
    ("__oboard_path_" +:+ FormatInt (ProxyPath_ID path) +:+ "_inbound_" +:+ FormatInt (Inbound_ID inbound))
    (deterministicUUID (seed +:+ ":uuid")) (deterministicSecret (seed +:+ ":password")).

(** The loop over the steps, with the paths it has seen. *)
Fixpoint pathLinks (pathByID : gmap Z ProxyPath) (inbound : Inbound) (steps : list ProxyPathStep) (seen : gset Z) : list Account :=
  match steps with
  | [] => []
  | step :: rest =>
      if negb (Step_NodeType step =? ProxyPathStepServerInbound)%string || negb (bool_decide (Step_InboundID step = Some (Inbound_ID inbound)))
      then pathLinks pathByID inbound rest seen
      else match pathByID !! Step_PathID step with
           | None => pathLinks pathByID inbound rest seen
           | Some path => if bool_decide (ProxyPath_ID path ∈ seen) then pathLinks pathByID inbound rest seen
                          else proxyPathLinkUser path inbound :: pathLinks pathByID inbound rest ({[ProxyPath_ID path]} ∪ seen)
           end
  end.

Definition pathLinkUsersForInbound (inbound : Inbound) (paths : list ProxyPath) (steps : list ProxyPathStep) : list Account :=
  pathLinks (indexBy ProxyPath_ID (List.filter ProxyPath_Enabled paths)) inbound steps ∅.

(** [random] is what the two calls of the random generator return, [None] its error. *)
Definition placeholderUsersForInbound (inbound : Inbound) (serverSecret : string) (random : option (string * string)) : option (list Account) :=
  let secret := TrimSpace serverSecret in
  let username := "__oboard_placeholder_inbound_" +:+ FormatInt (Inbound_ID inbound) in
  if negb (secret =? "")%string then
    let seed := secret +:+ ":placeholder:inbound:" +:+ FormatInt (Inbound_ID inbound) in
    Some [internalAccount 0 username (deterministicUUID (seed +:+ ":uuid")) (deterministicSecret (seed +:+ ":password"))]
  else match random with
       | Some (uuid, password) => Some [internalAccount 0 username uuid password]
       | None => None
       end.

Record ConfigOptions := {
  CO_ProxyPaths : list ProxyPath;
  CO_ProxyPathSteps : list ProxyPathStep;
  CO_InboundUsers : option (list InboundUser);
  CO_ProxyPathUsers : option (list ProxyPathUser);
  CO_AccessSnapshot : option EffectiveAccessSnapshot }.

(** The accounted users and the listeners; [None] is the error of the random generator. *)
Definition resolveInboundUsers (inbound : Inbound) (users : list Account) (opts : ConfigOptions) (serverSecret : string)
    (random : option (string * string)) (at_ : Z) : option (list Account * list Account) :=
  let accounted :=
    if bool_decide (proxyPathsForRootInbound (Inbound_ID inbound) (CO_ProxyPaths opts) = [])
    then usersForInbound inbound users (CO_InboundUsers opts)
    else proxyPathBranchUsersForInbound inbound users (CO_InboundUsers opts) (CO_ProxyPathUsers opts) (CO_ProxyPaths opts)
           (CO_ProxyPathSteps opts) at_ in
  let accounted := credentialUsersForInbound accounted inbound at_ in
  let listeners := accounted ++ pathLinkUsersForInbound inbound (CO_ProxyPaths opts) (CO_ProxyPathSteps opts) in
  if bool_decide (listeners = []) && negb (Inbound_Protocol inbound =? ProtocolSnell)%string
  then match placeholderUsersForInbound inbound serverSecret random with
       | Some placeholders => Some (accounted, placeholders)
       | None => None
       end
  else Some (accounted, listeners).
End listeners.

(** ** The scopes that need a credential *)

Definition SSHDirectBranchPathID (inboundID : Z) : Z := inboundID.

Definition SSHDirectBranchIdentity (inboundID : Z) (username : string) : string * string * Z :=
  let pathID := SSHDirectBranchPathID inboundID in
  ("in-" +:+ FormatInt inboundID, proxyPathBranchUsername username pathID, pathID).

Definition scopeOf (u : Account) (inbound : Inbound) (pathID : Z) : ProxyCredential :=
  {| PC_DeviceTransitionAllowed := false; PC_ID := ""; PC_UserID := AC_ID u; PC_InboundID := Inbound_ID inbound; PC_PathID := pathID;
     PC_DeviceIDHash := AC_DeviceIDHash u; PC_CredentialEpoch := AC_CredentialEpoch u; PC_Protocol := Inbound_Protocol inbound;
     PC_Status := ""; PC_Username := ""; PC_Password := ""; PC_UUID := "" |}.

(** The guards of [appendScope]. *)
Definition entitled (u : Account) (inbound : Inbound) (pathID : Z) (at_ : Z) : bool :=
  (0 <? AC_ID u) && negb (credentialRefused u) && ConsistentDeviceCredentialIdentity (AC_DeviceIDHash u) (AC_CredentialEpoch u) &&
  ((AC_DeviceIDHash u =? "")%string ||
   negb (AC_AuthorizationKey (UserCredentialForRouteAt u (Inbound_ID inbound) pathID (Inbound_Protocol inbound) at_) =? "")%string).

Definition appendScope (at_ : Z) (inbound : Inbound) (pathID : Z) (out : list ProxyCredential) (u : Account) : list ProxyCredential :=
  if negb (entitled u inbound pathID at_) then out
  else if bool_decide (scopeOf u inbound pathID ∈ out) then out else out ++ [scopeOf u inbound pathID].

Definition scopeCmp : ProxyCredential → ProxyCredential → comparison :=
  lexc (onc PC_UserID Z.compare) (lexc (onc PC_InboundID Z.compare) (lexc (onc PC_PathID Z.compare)
    (lexc (onc PC_DeviceIDHash String.compare) (lexc (onc PC_CredentialEpoch Z.compare) (onc PC_Protocol String.compare))))).

Section scopes.
Context {MR : MapRange Z (list Z)}.

(** The bindings of a call: those of the snapshot when there is one, and none instead of nil. *)
Definition inboundBindings (opts : ConfigOptions) : list InboundUser :=
  match CO_AccessSnapshot opts with Some s => InboundUserBindings s | None => default [] (CO_InboundUsers opts) end.
Definition pathBindings (opts : ConfigOptions) : list ProxyPathUser :=
  match CO_AccessSnapshot opts with Some s => ProxyPathUserBindings s | None => default [] (CO_ProxyPathUsers opts) end.

Definition directPathID (inbound : Inbound) : Z :=
  if (Inbound_Protocol inbound =? ProtocolSSH)%string then SSHDirectBranchPathID (Inbound_ID inbound) else 0.

(** The routes of an inbound with the users of each. *)
Definition inboundRoutes (users : list Account) (opts : ConfigOptions) (inbound : Inbound) : list (Z * list Account) :=
  match proxyPathsForRootInbound (Inbound_ID inbound) (CO_ProxyPaths opts) with
  | [] => [(directPathID inbound, usersForInbound inbound users (Some (inboundBindings opts)))]
  | paths => (λ path, (ProxyPath_ID path, usersForProxyPath path inbound users (Some (inboundBindings opts)) (Some (pathBindings opts)))) <$>
               List.filter (servedPath (CO_ProxyPathSteps opts)) paths
  end.

Definition inboundScopes (at_ : Z) (users : list Account) (opts : ConfigOptions) (out : list ProxyCredential) (inbound : Inbound) :
    list ProxyCredential :=
  if negb (Inbound_Enabled inbound) || (Inbound_ID inbound <=? 0) then out
  else foldl (λ out '(pathID, users), foldl (appendScope at_ inbound pathID) out users) out (inboundRoutes users opts inbound).

Definition ProxyCredentialScopes (users : list Account) (inbounds : list Inbound) (opts : ConfigOptions) (at_ : Z) : list ProxyCredential :=
  sort_slice (ltc scopeCmp) (foldl (inboundScopes at_ (DataPlaneIdentitiesAt users at_) opts) [] inbounds).
End scopes.

(** ** Names that users may register *)

Inductive UsernameErr := UsernameLength | UsernameCharacters | UsernameReserved.

(** Each of the admitted characters is one byte, and no byte of another character is among them. *)
Definition usernameCharacter (ch : ascii) : bool :=
  let n := nat_of_ascii ch in
  ((97 <=? n) && (n <=? 122) || (65 <=? n) && (n <=? 90) || (48 <=? n) && (n <=? 57))%nat ||
  Ascii.eqb ch "_" || Ascii.eqb ch "-" || Ascii.eqb ch ".".

(** [None] is success. *)
Definition validateRegistrationUsername (username : string) : option UsernameErr :=
  let name := bytes_of username in
  if (length name <? 3)%nat || (32 <? length name)%nat then Some UsernameLength
  else if negb (forallb usernameCharacter name) then Some UsernameCharacters
  else if hasPrefix (bytes_of "__oboard_") name then Some UsernameReserved
  else None.
