(* ===== verification/CredentialSafety.v ===== *)
(** * What the data plane credentials guarantee

    A route gets the secrets of a persisted credential of exactly its scope or none; the scopes
    that need a credential are exactly the routes the access snapshot grants to identities in
    good standing; and an inbound accepts exactly the identities with a persisted credential
    of such a scope. *)

From S2P Require Import Prelude Model NodeKeys NetAddr ListenResources AccessSnapshot ProxyPathNames ProxyPathNameSafety PlanPreview Credentials.

Local Open Scope Z_scope.

(** ** The credential of a route *)

(** The account is active, its credentials are not withdrawn, and a device identity is
    coherent and within its transition. *)
Definition inGoodStanding (u : Account) (at_ : Z) : bool :=
  negb (credentialRefused u) && ConsistentDeviceCredentialIdentity (AC_DeviceIDHash u) (AC_CredentialEpoch u) &&
  ((AC_DeviceIDHash u =? "")%string || (at_ <? AC_DeviceTransitionUntil u)).

Definition selected (u : Account) (inboundID pathID : Z) (protocol : string) (at_ : Z) : option ProxyCredential :=
  if inGoodStanding u at_ then List.find (routeCredential u inboundID pathID protocol) (AC_ProxyCredentials u) else None.

Lemma route_selected u inboundID pathID protocol at_ : 0 < AC_ID u →
  UserCredentialForRouteAt u inboundID pathID protocol at_ =
  match selected u inboundID pathID protocol at_ with
  | Some c => withSecrets (PC_Username c) (PC_Password c) (PC_UUID c) (PC_ID c) u
  | None => withSecrets "" "" "" "" u
  end.
Proof.
  intros Hid. unfold UserCredentialForRouteAt, selected, inGoodStanding. rewrite (proj2 (Z.leb_gt _ _) Hid). cbv zeta.
  change (credentialRefused (withSecrets "" "" "" "" u)) with (credentialRefused u).
  change (routeCredential (withSecrets "" "" "" "" u)) with (routeCredential u).
  cbn [AC_DeviceIDHash AC_CredentialEpoch AC_DeviceTransitionUntil AC_ProxyCredentials withSecrets].
  destruct (credentialRefused u); [done|]. cbn [negb andb].
  destruct (ConsistentDeviceCredentialIdentity _ _); [|done]. cbn [negb andb orb].
  destruct (AC_DeviceIDHash u =? "")%string; cbn; [by destruct (List.find _ _)|].
  destruct (at_ <? AC_DeviceTransitionUntil u); cbn; [by destruct (List.find _ _)|done].
Qed.

Lemma routeCredential_ID u inboundID pathID protocol c : routeCredential u inboundID pathID protocol c = true → PC_ID c ≠ ""%string.
Proof.
  unfold routeCredential. rewrite !andb_true_iff, !negb_true_iff, !String.eqb_neq. tauto.
Qed.

Lemma selected_Some u inboundID pathID protocol at_ c :
  selected u inboundID pathID protocol at_ = Some c →
  inGoodStanding u at_ = true ∧ c ∈ AC_ProxyCredentials u ∧ routeCredential u inboundID pathID protocol c = true.
Proof.
  unfold selected. destruct (inGoodStanding u at_); [|done]. intros H%find_some. by rewrite list_elem_of_In.
Qed.

Lemma selected_is_Some u inboundID pathID protocol at_ :
  is_Some (selected u inboundID pathID protocol at_) ↔
  inGoodStanding u at_ = true ∧ ∃ c, c ∈ AC_ProxyCredentials u ∧ routeCredential u inboundID pathID protocol c = true.
Proof.
  split; [intros [c Hc%selected_Some]; naive_solver|]. intros [Hg (c & Hin & Hr)]. unfold selected. rewrite Hg.
  destruct (List.find _ _) as [c'|] eqn:Hf; [eauto|].
  apply list_elem_of_In in Hin. pose proof (List.find_none _ _ Hf c Hin) as Hno. cbv beta in Hno. congruence.
Qed.

Lemma route_key u inboundID pathID protocol at_ : 0 < AC_ID u →
  AC_AuthorizationKey (UserCredentialForRouteAt u inboundID pathID protocol at_) ≠ ""%string ↔ is_Some (selected u inboundID pathID protocol at_).
Proof.
  intros Hid. rewrite route_selected by done. destruct (selected _ _ _ _ _) as [c|] eqn:Hs; cbn.
  - apply selected_Some in Hs as (_ & _ & Hr%routeCredential_ID). split; [eauto|done].
  - split; [done|by intros [? ?]].
Qed.

(** The user of a route has an authorization key exactly when the account is in good
    standing and owns an active persisted credential of exactly this account, inbound, path,
    protocol and device; then the secrets are those of such a credential, and otherwise there
    are none: neither the secrets of the account nor derived ones are used. *)
Theorem route_credential_exact u inboundID pathID protocol at_ : 0 < AC_ID u →
  let v := UserCredentialForRouteAt u inboundID pathID protocol at_ in
  (AC_AuthorizationKey v ≠ ""%string ↔
   inGoodStanding u at_ = true ∧ ∃ c, c ∈ AC_ProxyCredentials u ∧ routeCredential u inboundID pathID protocol c = true) ∧
  (v = withSecrets "" "" "" "" u ∨
   ∃ c, c ∈ AC_ProxyCredentials u ∧ routeCredential u inboundID pathID protocol c = true ∧
        v = withSecrets (PC_Username c) (PC_Password c) (PC_UUID c) (PC_ID c) u).
Proof.
  intros Hid. cbv zeta. split; [by rewrite route_key, selected_is_Some|]. rewrite route_selected by done.
  destruct (selected _ _ _ _ _) as [c|] eqn:Hs; [|by left]. right. apply selected_Some in Hs as (_ & ? & ?). eauto.
Qed.

(** ** Names of identities *)

Lemma hasPrefix_digit (a : ascii) l : is_digit a = true → hasPrefix pathMarker (a :: l) = false.
Proof. intros Ha. cbn. rewrite bool_decide_false; [done|]. by intros <-. Qed.

Lemma afterLast_digits l : Forall (λ a, is_digit a = true) l → afterLast pathMarker l = None.
Proof.
  induction 1 as [|a l Ha _ IH]; [done|]. cbn [afterLast]. by rewrite IH, hasPrefix_digit.
Qed.

Lemma afterLast_marker l : Forall (λ a, is_digit a = true) l → afterLast pathMarker (pathMarker ++ l) = Some l.
Proof.
  intros Hl. pose proof (afterLast_digits l Hl) as Hn.
  change (pathMarker ++ l) with ("_"%char :: bytes_of "_oboard_path_" ++ l).
  destruct l as [|a l]; [vm_compute; done|]. apply Forall_cons in Hl as [Ha Hl].
  assert (bool_decide ("_"%char = a) = false) as Ha' by (apply bool_decide_eq_false; by intros <-).
  cbn [bytes_of app]. repeat (progress cbn [afterLast app]). cbn [afterLast] in Hn. rewrite Hn. cbn. by rewrite Ha'.
Qed.

Lemma afterLast_app marker s t r : afterLast marker t = Some r → afterLast marker (s ++ t) = Some r.
Proof. intros H. induction s as [|a s IH]; [done|]. cbn [app afterLast]. by rewrite IH. Qed.

(** The name of a branch identity carries the identifier of its path. *)
Lemma path_username_roundtrip username pathID : 0 < pathID ≤ int64_max →
  runtimePathIDFromUsername (proxyPathBranchUsername username pathID) = pathID.
Proof.
  intros Hid. unfold runtimePathIDFromUsername, proxyPathBranchUsername. rewrite !bytes_of_app.
  rewrite (afterLast_app _ _ _ (bytes_of (FormatInt pathID))).
  - rewrite of_bytes_bytes_of, ParseInt_FormatInt by done. by rewrite (proj2 (Z.leb_gt _ _)) by lia.
  - apply (afterLast_marker (bytes_of (FormatInt pathID))). rewrite FormatInt_pos by lia. apply digits_go. constructor.
Qed.

(** ** Identities *)

(** A device identity of an account within its transition. *)
Definition deviceIdentity (at_ : Z) (u v : Account) : Prop :=
  AC_DeviceIDHash u = ""%string ∧ at_ < AC_DeviceTransitionUntil u ∧
  ∃ c, c ∈ AC_ProxyCredentials u ∧ transitional c = true ∧ v = legacyIdentity u (PC_DeviceIDHash c) (PC_CredentialEpoch c).

Lemma elem_of_legacy u credentials seen v :
  v ∈ legacyIdentities u credentials seen ↔
  ∃ c, c ∈ credentials ∧ transitional c = true ∧ (PC_DeviceIDHash c, PC_CredentialEpoch c) ∉ seen ∧
       v = legacyIdentity u (PC_DeviceIDHash c) (PC_CredentialEpoch c).
Proof.
  revert seen; induction credentials as [|c rest IH]; intros seen; cbn [legacyIdentities].
  { rewrite elem_of_nil. split; [done|]. by intros (? & ?%not_elem_of_nil & _). }
  setoid_rewrite elem_of_cons. destruct (transitional c) eqn:Ht; cbn [negb orb].
  - case_bool_decide as Hs; [rewrite IH|rewrite elem_of_cons, IH]; cbn [fst snd].
    + split; [naive_solver|]. intros (c' & [->|Hin] & ? & ? & ?); [done|eauto 8].
    + split.
      * intros [->|(c' & ? & ? & ? & ?)]; [exists c; auto|]. exists c'. split_and!; [by right|done|set_solver|done].
      * intros (c' & [->|Hin] & ? & ? & ->); [by left|].
        destruct (decide ((PC_DeviceIDHash c', PC_CredentialEpoch c') = (PC_DeviceIDHash c, PC_CredentialEpoch c))) as [[= -> ->]|Hne]; [by left|].
        right. exists c'. split_and!; [done..|set_solver|done].
  - rewrite IH. split; [naive_solver|]. intros (c' & [->|Hin] & ? & ? & ?); [congruence|eauto 8].
Qed.

Lemma elem_of_identities users at_ v :
  v ∈ DataPlaneIdentitiesAt users at_ ↔ ∃ u, u ∈ users ∧ accountActive u = true ∧ (v = u ∨ deviceIdentity at_ u v).
Proof.
  unfold DataPlaneIdentitiesAt. rewrite list_elem_of_bind. unfold identitiesOf, deviceIdentity. split.
  - intros (u & Hv & Hu). exists u. split; [done|]. destruct (accountActive u); cbn [negb] in Hv; [|by apply not_elem_of_nil in Hv].
    split; [done|]. destruct (String.eqb_spec (AC_DeviceIDHash u) ""); cbn [negb orb] in Hv; [|left; by apply list_elem_of_singleton in Hv].
    destruct (Z.ltb_spec at_ (AC_DeviceTransitionUntil u)); cbn [negb] in Hv; [|left; by apply list_elem_of_singleton in Hv].
    apply elem_of_cons in Hv as [->|Hv]; [by left|]. right. apply elem_of_legacy in Hv. naive_solver.
  - intros (u & Hu & Ha & Hv). exists u. split; [|done]. rewrite Ha. cbn [negb].
    destruct Hv as [->|(-> & Hat & c & ? & ? & ->)].
    + case_match; [by apply list_elem_of_singleton|by left].
    + cbn. rewrite (proj2 (Z.ltb_lt _ _) Hat). cbn. right. apply elem_of_legacy. set_solver.
Qed.

Lemma identity_active users at_ v : v ∈ DataPlaneIdentitiesAt users at_ → accountActive v = true.
Proof. rewrite elem_of_identities. intros (u & _ & Ha & [->|(_ & _ & c & _ & _ & ->)]); done. Qed.

(** ** Bindings *)

Section bindings.
Context {MR : MapRange Z (list Z)}.

Lemma boundToInbound_snapshot s inbound id : id ∈ boundToInbound inbound (InboundUserBindings s) ↔ id ∈ mlist (InboundUsers s) (Inbound_ID inbound).
Proof.
  unfold boundToInbound, InboundUserBindings, mlist.
  rewrite elem_of_list_to_set, list_elem_of_fmap. setoid_rewrite list_elem_of_In. setoid_rewrite filter_In. setoid_rewrite <-list_elem_of_In.
  setoid_rewrite elem_of_sort_slice. setoid_rewrite list_elem_of_bind. split.
  - intros (b & -> & ([i us] & Hb & Hin%elem_of_map_range) & Hf). apply list_elem_of_fmap in Hb as (u & -> & Hu). cbn in *.
    rewrite andb_true_r in Hf. apply Z.eqb_eq in Hf as <-. by rewrite Hin.
  - destruct (InboundUsers s !! Inbound_ID inbound) as [us|] eqn:Hl; [|by intros ?%not_elem_of_nil]. intros Hid.
    exists {| InboundUser_InboundID := Inbound_ID inbound; InboundUser_UserID := id; InboundUser_Enabled := true |}.
    split_and!; [done| |cbn; by rewrite Z.eqb_refl]. exists (Inbound_ID inbound, us). split; [|by apply elem_of_map_range].
    by apply (list_elem_of_fmap_2 (λ u, {| InboundUser_InboundID := Inbound_ID inbound; InboundUser_UserID := u; InboundUser_Enabled := true |})).
Qed.

Lemma boundToPath_snapshot s path id : id ∈ boundToPath path (ProxyPathUserBindings s) ↔ id ∈ mlist (ProxyPathUsers s) (ProxyPath_ID path).
Proof.
  unfold boundToPath, ProxyPathUserBindings, mlist.
  rewrite elem_of_list_to_set, list_elem_of_fmap. setoid_rewrite list_elem_of_In. setoid_rewrite filter_In. setoid_rewrite <-list_elem_of_In.
  setoid_rewrite elem_of_sort_slice. setoid_rewrite list_elem_of_bind. split.
  - intros (b & -> & ([i us] & Hb & Hin%elem_of_map_range) & Hf). apply list_elem_of_fmap in Hb as (u & -> & Hu). cbn in *.
    apply Z.eqb_eq in Hf as <-. by rewrite Hin.
  - destruct (ProxyPathUsers s !! ProxyPath_ID path) as [us|] eqn:Hl; [|by intros ?%not_elem_of_nil]. intros Hid.
    set (bind u := {| ProxyPathUser_ProxyPathID := ProxyPath_ID path; ProxyPathUser_InboundID := default 0 (PathInboundIDs s !! ProxyPath_ID path);
                      ProxyPathUser_UserID := u; ProxyPathUser_Enabled := true |}).
    exists (bind id). split_and!; [done| |cbn; by rewrite Z.eqb_refl]. exists (ProxyPath_ID path, us).
    split; [|by apply elem_of_map_range]. by apply (list_elem_of_fmap_2 bind).
Qed.
End bindings.

Lemma elem_of_usersForInbound inbound users bindings u :
  u ∈ usersForInbound inbound users (Some bindings) ↔ u ∈ users ∧ accountActive u = true ∧ AC_ID u ∈ boundToInbound inbound bindings.
Proof. unfold usersForInbound. rewrite list_elem_of_In, filter_In, <-list_elem_of_In, andb_true_iff, bool_decide_eq_true. done. Qed.

Lemma elem_of_usersForProxyPath path inbound users inboundUsers bindings u :
  u ∈ usersForProxyPath path inbound users inboundUsers (Some bindings) ↔ u ∈ users ∧ AC_ID u ∈ boundToPath path bindings.
Proof. unfold usersForProxyPath. rewrite list_elem_of_In, filter_In, <-list_elem_of_In, bool_decide_eq_true. done. Qed.

Lemma elem_of_rootPaths inboundID paths p :
  p ∈ proxyPathsForRootInbound inboundID paths ↔ p ∈ paths ∧ ProxyPath_Enabled p = true ∧ ProxyPath_InboundID p = inboundID.
Proof.
  unfold proxyPathsForRootInbound. rewrite elem_of_sort_slice, list_elem_of_In, filter_In, <-list_elem_of_In, andb_true_iff, Z.eqb_eq. done.
Qed.

(** ** Scopes *)

Section scopes.
Context {MR : MapRange Z (list Z)}.

Lemma elem_of_appendScope at_ inbound pathID out u c :
  c ∈ appendScope at_ inbound pathID out u ↔ c ∈ out ∨ entitled u inbound pathID at_ = true ∧ c = scopeOf u inbound pathID.
Proof.
  unfold appendScope. destruct (entitled _ _ _ _); cbn [negb]; [|naive_solver]. case_bool_decide.
  - split; [by left|]. by intros [?|[_ ->]].
  - rewrite elem_of_app, list_elem_of_singleton. naive_solver.
Qed.

Lemma appendScope_NoDup at_ inbound pathID out u : NoDup out → NoDup (appendScope at_ inbound pathID out u).
Proof.
  intros Hn. unfold appendScope. case_match; [done|]. case_bool_decide as Hin; [done|].
  apply NoDup_app. split_and!; [done| |apply NoDup_singleton]. intros x Hx ->%list_elem_of_singleton. done.
Qed.

Lemma inboundScopes_NoDup at_ users opts out inbound : NoDup out → NoDup (inboundScopes at_ users opts out inbound).
Proof.
  intros Hn. unfold inboundScopes. case_match; [done|]. apply (foldl_inv NoDup); [done|]. intros t [pathID us] _ Ht.
  apply (foldl_inv NoDup); [done|]. intros t' u _. apply appendScope_NoDup.
Qed.

(** A user of a route of an inbound. *)
Definition routeUser (users : list Account) (opts : ConfigOptions) (inbound : Inbound) (pathID : Z) (u : Account) : Prop :=
  ∃ us, (pathID, us) ∈ inboundRoutes users opts inbound ∧ u ∈ us.

Lemma elem_of_inboundScopes at_ users opts out inbound c :
  c ∈ inboundScopes at_ users opts out inbound ↔
  c ∈ out ∨ Inbound_Enabled inbound = true ∧ 0 < Inbound_ID inbound ∧
    ∃ pathID u, routeUser users opts inbound pathID u ∧ entitled u inbound pathID at_ = true ∧ c = scopeOf u inbound pathID.
Proof.
  unfold inboundScopes, routeUser. destruct (Inbound_Enabled inbound); cbn [negb orb]; [|naive_solver].
  destruct (Z.leb_spec (Inbound_ID inbound) 0); [naive_solver lia|].
  rewrite (foldl_iff (λ out, c ∈ out) (λ e, ∃ u, u ∈ e.2 ∧ entitled u inbound e.1 at_ = true ∧ c = scopeOf u inbound e.1)).
  - f_equiv. split; [intros ([pathID us] & ? & u & ? & ? & ?); eauto 10|].
    intros (_ & _ & pathID & u & (us & ? & ?) & ? & ?). exists (pathID, us). eauto.
  - intros t [pathID us] _. rewrite (foldl_iff (λ out, c ∈ out) (λ u, entitled u inbound pathID at_ = true ∧ c = scopeOf u inbound pathID)); [done|].
    intros t' u _. apply elem_of_appendScope.
Qed.

Lemma elem_of_scopes users inbounds opts at_ c :
  c ∈ ProxyCredentialScopes users inbounds opts at_ ↔
  ∃ inbound pathID u, inbound ∈ inbounds ∧ Inbound_Enabled inbound = true ∧ 0 < Inbound_ID inbound ∧
    routeUser (DataPlaneIdentitiesAt users at_) opts inbound pathID u ∧ entitled u inbound pathID at_ = true ∧ c = scopeOf u inbound pathID.
Proof.
  unfold ProxyCredentialScopes. rewrite elem_of_sort_slice.
  rewrite (foldl_iff (λ out, c ∈ out) (λ inbound, Inbound_Enabled inbound = true ∧ 0 < Inbound_ID inbound ∧
    ∃ pathID u, routeUser (DataPlaneIdentitiesAt users at_) opts inbound pathID u ∧ entitled u inbound pathID at_ = true ∧ c = scopeOf u inbound pathID)).
  - rewrite elem_of_nil. split; [intros [[]|(i & ? & ? & ? & p & u & ?)]; naive_solver|]. intros (i & p & u & ? & ? & ? & ?). right. eauto 10.
  - intros t i _. apply elem_of_inboundScopes.
Qed.

Lemma scopes_NoDup users inbounds opts at_ : NoDup (ProxyCredentialScopes users inbounds opts at_).
Proof.
  unfold ProxyCredentialScopes. rewrite NoDup_sort_slice. apply (foldl_inv NoDup); [constructor|]. intros t i _. apply inboundScopes_NoDup.
Qed.

(** A user of a route, with the grants written out. *)
Lemma routeUser_iff users opts inbound pathID u :
  routeUser users opts inbound pathID u ↔ u ∈ users ∧
  ((∀ p, p ∈ CO_ProxyPaths opts → ProxyPath_Enabled p = true → ProxyPath_InboundID p ≠ Inbound_ID inbound) ∧ pathID = directPathID inbound ∧
     accountActive u = true ∧ AC_ID u ∈ boundToInbound inbound (inboundBindings opts) ∨
   ∃ p, p ∈ CO_ProxyPaths opts ∧ ProxyPath_Enabled p = true ∧ ProxyPath_InboundID p = Inbound_ID inbound ∧
     servedPath (CO_ProxyPathSteps opts) p = true ∧ pathID = ProxyPath_ID p ∧ AC_ID u ∈ boundToPath p (pathBindings opts)).
Proof.
  unfold routeUser, inboundRoutes.
  assert (∀ p, p ∈ proxyPathsForRootInbound (Inbound_ID inbound) (CO_ProxyPaths opts) ↔ p ∈ CO_ProxyPaths opts ∧ ProxyPath_Enabled p = true ∧
    ProxyPath_InboundID p = Inbound_ID inbound) as Hr by (intros p; apply elem_of_rootPaths).
  destruct (proxyPathsForRootInbound _ _) as [|first rest].
  - setoid_rewrite list_elem_of_singleton. setoid_rewrite elem_of_nil in Hr. split.
    + intros (us & [-> ->]%pair_eq & Hu). apply elem_of_usersForInbound in Hu as (? & ? & ?). split; [done|]. left. naive_solver.
    + intros [Hu [(Hno & -> & ? & ?)|(p & ? & ? & ? & _)]]; [|naive_solver]. eexists. split; [done|]. by apply elem_of_usersForInbound.
  - split.
    + intros (us & Hin & Hu). apply list_elem_of_fmap in Hin as (p & [-> ->]%pair_eq & Hp). apply elem_of_usersForProxyPath in Hu as [? ?].
      apply list_elem_of_In, filter_In in Hp as [Hp ?]. apply list_elem_of_In, Hr in Hp as (? & ? & ?). split; [done|]. right. exists p. done.
    + intros [Hu [(Hno & _)|(p & ? & ? & ? & ? & -> & ?)]].
      { destruct (proj1 (Hr first) (list_elem_of_here _ _)) as (? & ? & ?). by destruct (Hno first). }
      eexists. split; [|by apply elem_of_usersForProxyPath; split]. apply list_elem_of_fmap. exists p. split; [done|].
      apply list_elem_of_In, filter_In. split; [by apply list_elem_of_In, Hr|done].
Qed.
End scopes.

(** What the access snapshot grants to a user on a route of an inbound. *)
Definition granted (s : EffectiveAccessSnapshot) (opts : ConfigOptions) (inbound : Inbound) (pathID userID : Z) : Prop :=
  (∀ p, p ∈ CO_ProxyPaths opts → ProxyPath_Enabled p = true → ProxyPath_InboundID p ≠ Inbound_ID inbound) ∧ pathID = directPathID inbound ∧
    userID ∈ mlist (InboundUsers s) (Inbound_ID inbound) ∨
  ∃ p, p ∈ CO_ProxyPaths opts ∧ ProxyPath_Enabled p = true ∧ ProxyPath_InboundID p = Inbound_ID inbound ∧
    servedPath (CO_ProxyPathSteps opts) p = true ∧ pathID = ProxyPath_ID p ∧ userID ∈ mlist (ProxyPathUsers s) (ProxyPath_ID p).

Lemma routeUser_granted {MR : MapRange Z (list Z)} users at_ opts s inbound pathID u : CO_AccessSnapshot opts = Some s →
  routeUser (DataPlaneIdentitiesAt users at_) opts inbound pathID u ↔
  u ∈ DataPlaneIdentitiesAt users at_ ∧ granted s opts inbound pathID (AC_ID u).
Proof.
  intros Hs. rewrite routeUser_iff. unfold granted, inboundBindings, pathBindings. rewrite Hs. setoid_rewrite boundToPath_snapshot.
  rewrite boundToInbound_snapshot. split; [tauto|]. intros [Hu Hg]. pose proof (identity_active _ _ _ Hu). tauto.
Qed.

(** The scopes that need a credential are listed in order and once each: exactly those of the
    routes, through enabled inbounds, that the access snapshot grants to an identity of an
    active account which may hold a credential there. *)
Theorem credential_scopes_exact {MR : MapRange Z (list Z)} users inbounds opts at_ s : CO_AccessSnapshot opts = Some s →
  let scopes := ProxyCredentialScopes users inbounds opts at_ in
  NoDup scopes ∧ StronglySorted (le_of (ltc scopeCmp)) scopes ∧
  ∀ c, c ∈ scopes ↔ ∃ inbound pathID u, inbound ∈ inbounds ∧ Inbound_Enabled inbound = true ∧ 0 < Inbound_ID inbound ∧
    u ∈ DataPlaneIdentitiesAt users at_ ∧ granted s opts inbound pathID (AC_ID u) ∧ entitled u inbound pathID at_ = true ∧
    c = scopeOf u inbound pathID.
Proof.
  intros Hs. cbv zeta. split_and!; [apply scopes_NoDup|apply sort_slice_sorted, _|]. intros c. rewrite elem_of_scopes.
  setoid_rewrite (routeUser_granted users at_ opts s _ _ _ Hs). naive_solver.
Qed.

(** Without a snapshot and without bindings nobody needs a credential. *)
Lemma no_bindings_no_scopes {MR : MapRange Z (list Z)} users inbounds opts at_ :
  CO_AccessSnapshot opts = None → CO_InboundUsers opts = None → CO_ProxyPathUsers opts = None →
  ProxyCredentialScopes users inbounds opts at_ = [].
Proof.
  intros Hs Hi Hp. apply elem_of_nil_inv. intros c. rewrite elem_of_scopes. intros (inbound & pathID & u & _ & _ & _ & Hr & _).
  apply routeUser_iff in Hr as [_ [(_ & _ & _ & H)|(p & _ & _ & _ & _ & _ & H)]].
  - unfold inboundBindings in H. rewrite Hs, Hi in H. cbn in H. by apply not_elem_of_empty in H.
  - unfold pathBindings in H. rewrite Hs, Hp in H. cbn in H. by apply not_elem_of_empty in H.
Qed.

(** ** Listeners *)

Lemma selected_withSecrets a b c d u inboundID pathID protocol at_ :
  selected (withSecrets a b c d u) inboundID pathID protocol at_ = selected u inboundID pathID protocol at_.
Proof. done. Qed.

Lemma selected_withUsername name u inboundID pathID protocol at_ :
  selected (withUsername name u) inboundID pathID protocol at_ = selected u inboundID pathID protocol at_.
Proof. done. Qed.

(** The route of an identity leaves everything but its secrets. *)
Lemma route_keeps u inboundID pathID protocol at_ :
  ∃ a b c d, UserCredentialForRouteAt u inboundID pathID protocol at_ = withSecrets a b c d u.
Proof.
  destruct (Z.leb_spec (AC_ID u) 0) as [H|H].
  - unfold UserCredentialForRouteAt. rewrite (proj2 (Z.leb_le _ _) H). exists (AC_ProxyUsername u), (AC_ProxyPassword u), (AC_ProxyUUID u), (AC_AuthorizationKey u).
    by destruct u.
  - rewrite route_selected by done. case_match; eauto.
Qed.

Lemma elem_of_credentialUsers users inbound at_ v : 0 < AC_ID v →
  v ∈ credentialUsersForInbound users inbound at_ ↔
  ∃ u, u ∈ users ∧ is_Some (selected u (Inbound_ID inbound) (runtimePathIDFromUsername (AC_Username u)) (Inbound_Protocol inbound) at_) ∧
       v = UserCredentialForRouteAt u (Inbound_ID inbound) (runtimePathIDFromUsername (AC_Username u)) (Inbound_Protocol inbound) at_.
Proof.
  intros Hv. unfold credentialUsersForInbound. rewrite list_elem_of_In, filter_In, <-list_elem_of_In, list_elem_of_fmap.
  rewrite (proj2 (Z.leb_gt _ _) Hv). cbn [orb]. rewrite negb_true_iff, String.eqb_neq. split.
  - intros [(u & -> & Hu) Hk]. exists u. split; [done|]. split; [|done]. apply route_key; [|done].
    by destruct (route_keeps u (Inbound_ID inbound) (runtimePathIDFromUsername (AC_Username u)) (Inbound_Protocol inbound) at_) as (? & ? & ? & ? & Heq);
      rewrite Heq in Hv.
  - intros (u & Hu & Hs & ->). split; [eauto|]. apply route_key; [|done].
    by destruct (route_keeps u (Inbound_ID inbound) (runtimePathIDFromUsername (AC_Username u)) (Inbound_Protocol inbound) at_) as (? & ? & ? & ? & Heq);
      rewrite Heq in Hv.
Qed.

Lemma elem_of_branchUsers inbound users inboundUsers bindings paths steps at_ w :
  w ∈ proxyPathBranchUsersForInbound inbound users inboundUsers (Some bindings) paths steps at_ ↔
  ∃ p u, p ∈ paths ∧ ProxyPath_Enabled p = true ∧ ProxyPath_InboundID p = Inbound_ID inbound ∧ servedPath steps p = true ∧
    u ∈ users ∧ AC_ID u ∈ boundToPath p bindings ∧ accountActive u = true ∧ hasInternalName u = false ∧
    w = proxyPathBranchUser p inbound u at_ ∧ AC_AuthorizationKey w ≠ ""%string.
Proof.
  assert (∀ p us, w ∈ proxyPathBranchUsersForPath p inbound us at_ ↔ ProxyPath_Enabled p = true ∧ ProxyPath_InboundID p = Inbound_ID inbound ∧
    ∃ u, u ∈ us ∧ accountActive u = true ∧ hasInternalName u = false ∧ w = proxyPathBranchUser p inbound u at_ ∧ AC_AuthorizationKey w ≠ ""%string) as Hpath.
  { intros p us. unfold proxyPathBranchUsersForPath. destruct (ProxyPath_Enabled p); [|rewrite orb_true_r; cbn; rewrite elem_of_nil; naive_solver].
    destruct (Z.eqb_spec (ProxyPath_InboundID p) (Inbound_ID inbound)) as [Heq|]; [|rewrite !orb_true_r, elem_of_nil; naive_solver].
    cbn [negb]. rewrite !orb_false_r. case_bool_decide as Hus.
    { subst us. rewrite elem_of_nil. split; [done|]. by intros (_ & _ & u & ?%not_elem_of_nil & _). }
    rewrite list_elem_of_In, filter_In, <-list_elem_of_In, list_elem_of_fmap, negb_true_iff, String.eqb_neq.
    setoid_rewrite list_elem_of_In. setoid_rewrite filter_In. setoid_rewrite <-list_elem_of_In. setoid_rewrite andb_true_iff.
    setoid_rewrite negb_true_iff. naive_solver. }
  unfold proxyPathBranchUsersForInbound. case_bool_decide as Hus.
  { subst users. rewrite elem_of_nil. split; [done|]. by intros (p & u & _ & _ & _ & _ & ?%not_elem_of_nil & _). }
  rewrite list_elem_of_bind. split.
  - intros (p & Hw & Hp). apply list_elem_of_In, filter_In in Hp as [Hp ?]. apply list_elem_of_In, elem_of_rootPaths in Hp as (? & ? & ?).
    apply Hpath in Hw as (_ & _ & u & Hu & ? & ? & ? & ?). apply elem_of_usersForProxyPath in Hu as [? ?]. exists p, u. done.
  - intros (p & u & ? & ? & ? & ? & ? & ? & ? & ? & ? & ?). exists p. split.
    + apply Hpath. split_and!; [done..|]. exists u. split; [by apply elem_of_usersForProxyPath|done].
    + apply list_elem_of_In, filter_In. split; [by apply list_elem_of_In, elem_of_rootPaths|done].
Qed.

(** The two lookups of the credential of a branch identity agree. *)
Lemma branch_route p inbound u at_ : 0 < AC_ID u → 0 < ProxyPath_ID p ≤ int64_max →
  let w := proxyPathBranchUser p inbound u at_ in
  runtimePathIDFromUsername (AC_Username w) = ProxyPath_ID p ∧
  UserCredentialForRouteAt w (Inbound_ID inbound) (ProxyPath_ID p) (Inbound_Protocol inbound) at_ = w ∧
  (AC_AuthorizationKey w ≠ ""%string ↔ is_Some (selected u (Inbound_ID inbound) (ProxyPath_ID p) (Inbound_Protocol inbound) at_)) ∧
  AC_ID w = AC_ID u ∧ ∀ pathID, scopeOf w inbound pathID = scopeOf u inbound pathID.
Proof.
  intros Hu Hp. cbv zeta. unfold proxyPathBranchUser. set (n := withUsername _ u). assert (0 < AC_ID n) as Hn by done.
  destruct (route_keeps n (Inbound_ID inbound) (ProxyPath_ID p) (Inbound_Protocol inbound) at_) as (a & b & c & d & Heq).
  split_and!; [rewrite Heq; by apply path_username_roundtrip| |by rewrite route_key|by rewrite Heq|by rewrite Heq].
  rewrite Heq, route_selected, selected_withSecrets by done. rewrite route_selected in Heq by done.
  destruct (selected n _ _ _ _); by rewrite <-Heq.
Qed.

Lemma identity_unique users at_ u v : NoDup (AC_ID <$> users) → u ∈ DataPlaneIdentitiesAt users at_ → v ∈ DataPlaneIdentitiesAt users at_ →
  AC_ID u = AC_ID v → AC_DeviceIDHash u = AC_DeviceIDHash v → AC_CredentialEpoch u = AC_CredentialEpoch v → u = v.
Proof.
  intros Hnd Hu Hv Hid Hh He. apply elem_of_identities in Hu as (a & Ha & _ & Hu). apply elem_of_identities in Hv as (b & Hb & _ & Hv).
  assert (a = b) as <-.
  { apply (NoDup_fmap_key AC_ID users); [done..|].
    destruct Hu as [->|(_ & _ & ? & _ & _ & ->)], Hv as [->|(_ & _ & ? & _ & _ & ->)]; done. }
  assert (∀ c, transitional c = true → PC_DeviceIDHash c ≠ ""%string) as Hc.
  { intros c. unfold transitional. rewrite !andb_true_iff, negb_true_iff, String.eqb_neq. tauto. }
  destruct Hu as [->|(H1 & _ & c & _ & Ht & ->)], Hv as [->|(H2 & _ & c' & _ & Ht' & ->)]; [done| | |].
  - rewrite H2 in Hh. by destruct (Hc c' Ht').
  - rewrite H1 in Hh. by destruct (Hc c Ht).
  - cbn in Hh, He. by rewrite Hh, He.
Qed.

(** An identity with a persisted credential of the scope. *)
Definition holdsCredential (users : list Account) (at_ : Z) (scope : ProxyCredential) : Prop :=
  ∃ u, u ∈ DataPlaneIdentitiesAt users at_ ∧ AC_ID u = PC_UserID scope ∧ AC_DeviceIDHash u = PC_DeviceIDHash scope ∧
       AC_CredentialEpoch u = PC_CredentialEpoch scope ∧
       is_Some (selected u (PC_InboundID scope) (PC_PathID scope) (PC_Protocol scope) at_).

(** The names of an account: no path is read from them, and they are not internal ones. *)
Definition plainNames (users : list Account) (at_ userID : Z) : Prop :=
  ∀ u, u ∈ DataPlaneIdentitiesAt users at_ → AC_ID u = userID → runtimePathIDFromUsername (AC_Username u) = 0 ∧ hasInternalName u = false.

Lemma selected_entitled u inbound pathID at_ : 0 < AC_ID u →
  is_Some (selected u (Inbound_ID inbound) pathID (Inbound_Protocol inbound) at_) → entitled u inbound pathID at_ = true.
Proof.
  intros Hid Hs. pose proof (proj1 (selected_is_Some _ _ _ _ _) Hs) as [Hg _]. apply (route_key _ _ _ _ _ Hid) in Hs.
  unfold inGoodStanding in Hg. apply andb_true_iff in Hg as [[Hr Hc]%andb_true_iff _]. unfold entitled.
  rewrite (proj2 (Z.ltb_lt _ _) Hid), Hr, Hc, (proj2 (String.eqb_neq _ _) Hs). by rewrite orb_true_r.
Qed.

Section listeners.
Context {MR : MapRange Z (list Z)} {SD : SecretDerivation}.
Context (users : list Account) (opts : ConfigOptions) (inbound : Inbound) (at_ : Z).
Context (Hinbound : CO_InboundUsers opts = Some (inboundBindings opts)) (Hpath : CO_ProxyPathUsers opts = Some (pathBindings opts)).
Context (Hids : ∀ p, p ∈ CO_ProxyPaths opts → 0 < ProxyPath_ID p ≤ int64_max).
Context (scope : ProxyCredential) (Hnames : plainNames users at_ (PC_UserID scope)).
Context (Hssh : Inbound_Protocol inbound ≠ ProtocolSSH).

Lemma accounted_direct pathID : proxyPathsForRootInbound (Inbound_ID inbound) (CO_ProxyPaths opts) = [] →
  (∃ v, v ∈ credentialUsersForInbound (usersForInbound inbound (DataPlaneIdentitiesAt users at_) (CO_InboundUsers opts)) inbound at_ ∧ 0 < AC_ID v ∧
              runtimePathIDFromUsername (AC_Username v) = pathID ∧ scope = scopeOf v inbound pathID) ↔
  ∃ u, 0 < AC_ID u ∧ routeUser (DataPlaneIdentitiesAt users at_) opts inbound pathID u ∧
       is_Some (selected u (Inbound_ID inbound) pathID (Inbound_Protocol inbound) at_) ∧ scope = scopeOf u inbound pathID.
Proof.
  intros Hroot. setoid_rewrite routeUser_iff.
  assert (∀ p, p ∈ CO_ProxyPaths opts → ProxyPath_Enabled p = true → ProxyPath_InboundID p ≠ Inbound_ID inbound) as Hno.
  { intros p Hp He Hi. assert (p ∈ proxyPathsForRootInbound (Inbound_ID inbound) (CO_ProxyPaths opts)) as Hin by (by apply elem_of_rootPaths).
    rewrite Hroot in Hin. by apply not_elem_of_nil in Hin. }
  assert (directPathID inbound = 0) as Hd by (unfold directPathID; by rewrite (proj2 (String.eqb_neq _ _) Hssh)).
  rewrite Hinbound. split.
  + intros (v & Hv & Hid & Hpid & Hscope). apply elem_of_credentialUsers in Hv as (u & Hu & Hs & ->); [|done].
    apply elem_of_usersForInbound in Hu as (Hu & Ha & Hb).
    destruct (route_keeps u (Inbound_ID inbound) (runtimePathIDFromUsername (AC_Username u)) (Inbound_Protocol inbound) at_) as (a & b & c & d & Heq).
    destruct (Hnames u Hu) as [Hz _]; [by rewrite Hscope, Heq|]. rewrite Hscope. clear Hscope Hnames.
    rewrite Heq in Hpid, Hid |- *. cbn in Hpid, Hid. rewrite Hz in Hpid, Hs. subst pathID. exists u. split_and!; [done|done| |done|done].
    left. by rewrite Hd.
  + intros (u & Hid & [Hu Hg] & Hs & Hscope). destruct Hg as [(_ & -> & Ha & Hb)|(p & Hp & He & Hi & _)]; [|by destruct (Hno p)].
    rewrite Hd in *. destruct (Hnames u Hu) as [Hz _]; [by rewrite Hscope|]. rewrite Hscope. clear Hscope Hnames.
    exists (UserCredentialForRouteAt u (Inbound_ID inbound) 0 (Inbound_Protocol inbound) at_).
    destruct (route_keeps u (Inbound_ID inbound) 0 (Inbound_Protocol inbound) at_) as (a & b & c & d & Heq).
    split_and!; [|by rewrite Heq..]. apply elem_of_credentialUsers; [by rewrite Heq|]. exists u. rewrite Hz. split_and!; [|done|done].
    by apply elem_of_usersForInbound.
Qed.

Lemma accounted_branch pathID : proxyPathsForRootInbound (Inbound_ID inbound) (CO_ProxyPaths opts) ≠ [] →
  (∃ v, v ∈ credentialUsersForInbound (proxyPathBranchUsersForInbound inbound (DataPlaneIdentitiesAt users at_) (CO_InboundUsers opts)
                (CO_ProxyPathUsers opts) (CO_ProxyPaths opts) (CO_ProxyPathSteps opts) at_) inbound at_ ∧ 0 < AC_ID v ∧
              runtimePathIDFromUsername (AC_Username v) = pathID ∧ scope = scopeOf v inbound pathID) ↔
  ∃ u, 0 < AC_ID u ∧ routeUser (DataPlaneIdentitiesAt users at_) opts inbound pathID u ∧
       is_Some (selected u (Inbound_ID inbound) pathID (Inbound_Protocol inbound) at_) ∧ scope = scopeOf u inbound pathID.
Proof.
  intros Hroot. setoid_rewrite routeUser_iff.
  rewrite Hpath. split.
  + intros (v & Hv & Hid & Hpid & Hscope). rewrite Hscope. clear Hscope Hnames. apply elem_of_credentialUsers in Hv as (w & Hw & Hs & ->); [|done].
    apply elem_of_branchUsers in Hw as (p & u & Hp & He & Hi & Hsv & Hu & Hb & Ha & Hn & -> & Hk).
    assert (0 < AC_ID u) as Hu0.
    { destruct (route_keeps (proxyPathBranchUser p inbound u at_) (Inbound_ID inbound) (runtimePathIDFromUsername (AC_Username (proxyPathBranchUser p inbound u at_)))
        (Inbound_Protocol inbound) at_) as (? & ? & ? & ? & Heq). rewrite Heq in Hid. cbn in Hid. unfold proxyPathBranchUser in Hid.
      match type of Hid with context [UserCredentialForRouteAt ?n ?i ?q ?r ?t] => destruct (route_keeps n i q r t) as (? & ? & ? & ? & Heq') end.
      by rewrite Heq' in Hid. }
    destruct (branch_route p inbound u at_ Hu0 (Hids p Hp)) as (Hr & Heq & Hkey & _ & Hsc). rewrite Hr, Heq in Hpid, Hid |- *. rewrite Hr in Hpid.
    subst pathID. exists u. rewrite Hsc. split_and!; [done|done| |by apply Hkey|done]. right. exists p. done.
  + intros (u & Hid & [Hu Hg] & Hs & Hscope).
    destruct (Hnames u Hu) as [_ Hn]; [by rewrite Hscope|]. rewrite Hscope. clear Hscope Hnames.
    destruct Hg as [(Hno & _)|(p & Hp & He & Hi & Hsv & -> & Hb)].
    { exfalso. apply Hroot. apply elem_of_nil_inv. intros p (? & ? & ?)%elem_of_rootPaths. by destruct (Hno p). }
    destruct (branch_route p inbound u at_ Hid (Hids p Hp)) as (Hr & Heq & Hkey & Hwid & Hsc).
    exists (proxyPathBranchUser p inbound u at_). rewrite Hwid, Hr, Hsc. split_and!; [|done..].
    apply elem_of_credentialUsers; [by rewrite Hwid|]. exists (proxyPathBranchUser p inbound u at_). rewrite Hr, Heq. split_and!; [| |done].
    * apply elem_of_branchUsers. exists p, u. pose proof (identity_active _ _ _ Hu).
      split_and!; try done. by apply Hkey.
    * apply (route_key (proxyPathBranchUser p inbound u at_)); [by rewrite Hwid|]. rewrite Heq. by apply Hkey.
Qed.

(** The accounted users of an inbound are the identities with a credential for one of its routes. *)
Lemma accounted_iff serverSecret random accounted listeners pathID :
  resolveInboundUsers inbound (DataPlaneIdentitiesAt users at_) opts serverSecret random at_ = Some (accounted, listeners) →
  (∃ v, v ∈ accounted ∧ 0 < AC_ID v ∧ runtimePathIDFromUsername (AC_Username v) = pathID ∧ scope = scopeOf v inbound pathID) ↔
  ∃ u, 0 < AC_ID u ∧ routeUser (DataPlaneIdentitiesAt users at_) opts inbound pathID u ∧
       is_Some (selected u (Inbound_ID inbound) pathID (Inbound_Protocol inbound) at_) ∧ scope = scopeOf u inbound pathID.
Proof.
  unfold resolveInboundUsers. cbv zeta. set (base := if bool_decide _ then _ else _). intros Hres.
  assert (accounted = credentialUsersForInbound base inbound at_) as ->.
  { case_match; [case_match; [|done]|]; by injection Hres as <- _. }
  clear Hres. subst base. case_bool_decide; [by apply accounted_direct|by apply accounted_branch].
Qed.
End listeners.

(** C19. An enabled inbound, other than an SSH one, whose bindings are given accepts exactly the
    identities that need and have a credential. A scope of the inbound belongs to one of its
    accounted users if and only if the scope is among those that need a credential and the
    identity it names holds a persisted credential of the scope. The claim is about every account
    whose own name is not an internal one and has no runtime path in it, whatever the other accounts are
    called; registration admits names with a path in them, and [marked_name_locked_out] shows
    what becomes of such an account. *)
Theorem listeners_exact {MR : MapRange Z (list Z)} {SD : SecretDerivation} users inbounds opts at_ inbound serverSecret random accounted listeners :
  NoDup (AC_ID <$> users) → NoDup (Inbound_ID <$> inbounds) → inbound ∈ inbounds → Inbound_Enabled inbound = true → 0 < Inbound_ID inbound →
  Inbound_Protocol inbound ≠ ProtocolSSH → (∀ u, u ∈ users → 0 < AC_ID u) → (∀ p, p ∈ CO_ProxyPaths opts → 0 < ProxyPath_ID p ≤ int64_max) →
  CO_InboundUsers opts = Some (inboundBindings opts) → CO_ProxyPathUsers opts = Some (pathBindings opts) →
  resolveInboundUsers inbound (DataPlaneIdentitiesAt users at_) opts serverSecret random at_ = Some (accounted, listeners) →
  ∀ scope, plainNames users at_ (PC_UserID scope) →
    (∃ v, v ∈ accounted ∧ 0 < AC_ID v ∧ scope = scopeOf v inbound (runtimePathIDFromUsername (AC_Username v))) ↔
    scope ∈ ProxyCredentialScopes users inbounds opts at_ ∧ PC_InboundID scope = Inbound_ID inbound ∧ holdsCredential users at_ scope.
Proof.
  intros Hnd Hndi Hin Hen Hi0 Hssh Hpos Hids Hib Hpb Hres scope Hnames.
  assert (∀ pathID, _) as Hacc by (intros pathID; exact (accounted_iff users opts inbound at_ Hib Hpb Hids scope Hnames Hssh serverSecret random _ _ pathID Hres)).
  clear Hnames.
  split.
  - intros (v & Hv & Hid & Hscope). destruct (proj1 (Hacc (runtimePathIDFromUsername (AC_Username v)))) as (u & Hu0 & Hr & Hs & ->); [eauto 8|].
    split_and!; [|done|].
    + apply elem_of_scopes. exists inbound, (runtimePathIDFromUsername (AC_Username v)), u. split_and!; try done. by apply selected_entitled.
    + exists u. apply routeUser_iff in Hr as [Hu _]. done.
  - intros (Hsc & Hinb & u' & Hu' & Huid & Hh & He & Hs). apply elem_of_scopes in Hsc as (i & pathID & u & Hi & _ & _ & Hr & Hent & ->). cbn in *.
    assert (i = inbound) as -> by (by apply (NoDup_fmap_key Inbound_ID inbounds)).
    assert (u' = u) as ->.
    { apply (identity_unique users at_); try done. by apply routeUser_iff in Hr as [? _]. }
    assert (0 < AC_ID u) as Hu0.
    { unfold entitled in Hent. rewrite !andb_true_iff, Z.ltb_lt in Hent. tauto. }
    destruct (proj2 (Hacc pathID) ltac:(eauto 8)) as (v & Hv & Hv0 & <- & Heq). eauto.
Qed.

(** ** An account on a path *)

Definition demoCredential : ProxyCredential :=
  {| PC_DeviceTransitionAllowed := false; PC_ID := "k1"; PC_UserID := 1; PC_InboundID := 10; PC_PathID := 4; PC_DeviceIDHash := "";
     PC_CredentialEpoch := 0; PC_Protocol := ProtocolVLESS; PC_Status := "active"; PC_Username := "u1"; PC_Password := "p1"; PC_UUID := "id1" |}.

Definition demoAccount : Account :=
  {| AC_ID := 1; AC_Username := "alice"; AC_Status := "active"; AC_ProxyUUID := "account"; AC_ProxyPassword := "account"; AC_ProxyUsername := "";
     AC_AuthorizationKey := ""; AC_ProxyCredentials := [demoCredential]; AC_DeviceTransitionUntil := zeroTime; AC_DeviceIDHash := "";
     AC_CredentialEpoch := 0; AC_CredentialStatus := "" |}.

Definition demoInbound : Inbound :=
  {| Inbound_ID := 10; Inbound_ServerID := 1; Inbound_Name := "entry"; Inbound_Protocol := ProtocolVLESS; Inbound_ListenIP := "";
     Inbound_Port := 443; Inbound_ConfigJSON := ""; Inbound_Enabled := true; Inbound_EntryIPMode := ""; Inbound_ExternalIP := "" |}.

Definition demoOptions : ConfigOptions :=
  {| CO_ProxyPaths := [namePath 4 "" "" [] 10]; CO_ProxyPathSteps := [nameStep 1 4 1 ProxyPathStepServerInbound (Some 2) None];
     CO_InboundUsers := Some []; CO_ProxyPathUsers := Some [{| ProxyPathUser_ProxyPathID := 4; ProxyPathUser_InboundID := 10;
       ProxyPathUser_UserID := 1; ProxyPathUser_Enabled := true |}]; CO_AccessSnapshot := None |}.

Definition demoDerivation : SecretDerivation := {| deterministicUUID s := s; deterministicSecret s := s; pathSecret _ := "" |}.

Lemma route_credential_exact_witness :
  0 < AC_ID demoAccount ∧ AC_AuthorizationKey (UserCredentialForRouteAt demoAccount 10 4 ProtocolVLESS 0) ≠ ""%string.
Proof.
  split; [done|]. apply (route_credential_exact demoAccount 10 4 ProtocolVLESS 0); [done|]. split; [done|].
  exists demoCredential. split; [left|done].
Defined.

Lemma listeners_exact_witness :
  ∃ v, v ∈ credentialUsersForInbound (proxyPathBranchUsersForInbound demoInbound [demoAccount] (Some []) (CO_ProxyPathUsers demoOptions)
             (CO_ProxyPaths demoOptions) (CO_ProxyPathSteps demoOptions) 0) demoInbound 0 ∧
       AC_Username v = "alice__oboard_path_4"%string ∧ AC_ProxyPassword v = "p1"%string.
Proof.
  destruct (resolveInboundUsers (SD := demoDerivation) demoInbound (DataPlaneIdentitiesAt [demoAccount] 0) demoOptions "s" None 0)
    as [[accounted listeners]|] eqn:Hres; [|vm_compute in Hres; discriminate].
  destruct (listeners_exact (MR := map_range_default _ _) (SD := demoDerivation) [demoAccount] [demoInbound] demoOptions 0 demoInbound "s" None
    accounted listeners) with (scope := scopeOf demoAccount demoInbound 4) as [_ Hback].
  - apply (bool_decide_unpack _); vm_compute; exact I.
  - apply (bool_decide_unpack _); vm_compute; exact I.
  - left.
  - done.
  - done.
  - done.
  - intros u ->%list_elem_of_singleton. done.
  - intros p ->%list_elem_of_singleton. done.
  - reflexivity.
  - reflexivity.
  - exact Hres.
  - intros u ->%list_elem_of_singleton _. split; vm_compute; done.
  - destruct Hback as (v & Hv & _ & _).
    + split_and!; [|done|].
      * apply (bool_decide_unpack _). vm_compute. exact I.
      * exists demoAccount. split; [left|]. split_and!; [done..|]. vm_compute. eauto.
    + exists v. vm_compute in Hres. injection Hres as <- _. apply list_elem_of_singleton in Hv as ->. split; [vm_compute; left|done].
Defined.

Definition demoSnapshot : EffectiveAccessSnapshot :=
  {| At := 0; Users := ∅; UserNodes := ∅; InboundUsers := ∅; ProxyPathUsers := {[4 := [1]]}; ExternalOutboundUsers := ∅; NodeUsers := ∅;
     UserPolicies := ∅; PathInboundIDs := {[4 := 10]} |}.

Definition demoSnapshotOptions : ConfigOptions :=
  {| CO_ProxyPaths := CO_ProxyPaths demoOptions; CO_ProxyPathSteps := CO_ProxyPathSteps demoOptions; CO_InboundUsers := None;
     CO_ProxyPathUsers := None; CO_AccessSnapshot := Some demoSnapshot |}.

Lemma credential_scopes_exact_witness :
  scopeOf demoAccount demoInbound 4 ∈ ProxyCredentialScopes (MR := map_range_default _ _) [demoAccount] [demoInbound] demoSnapshotOptions 0.
Proof.
  apply (credential_scopes_exact (MR := map_range_default _ _) [demoAccount] [demoInbound] demoSnapshotOptions 0 demoSnapshot eq_refl).
  exists demoInbound, 4, demoAccount. split_and!; [left|done|done|left| |done|done].
  right. exists (namePath 4 "" "" [] 10). split_and!; [left|done..|vm_compute; left].
Defined.

(** ** An account whose name has a path in it *)

Definition markedAccount : Account :=
  withUsername "ab__oboard_path_9" {| AC_ID := 1; AC_Username := ""; AC_Status := "active"; AC_ProxyUUID := "account"; AC_ProxyPassword := "account";
    AC_ProxyUsername := ""; AC_AuthorizationKey := "";
    AC_ProxyCredentials := [{| PC_DeviceTransitionAllowed := false; PC_ID := "k1"; PC_UserID := 1; PC_InboundID := 10; PC_PathID := 0; PC_DeviceIDHash := "";
      PC_CredentialEpoch := 0; PC_Protocol := ProtocolVLESS; PC_Status := "active"; PC_Username := "u1"; PC_Password := "p1"; PC_UUID := "id1" |}];
    AC_DeviceTransitionUntil := zeroTime; AC_DeviceIDHash := ""; AC_CredentialEpoch := 0; AC_CredentialStatus := "" |}.

Definition directOptions : ConfigOptions :=
  {| CO_ProxyPaths := []; CO_ProxyPathSteps := []; CO_ProxyPathUsers := Some []; CO_AccessSnapshot := None;
     CO_InboundUsers := Some [{| InboundUser_InboundID := 10; InboundUser_UserID := 1; InboundUser_Enabled := true |}] |}.

(** Registration refuses internal names and admits this one, which is read as path 9: the account
    is bound to the inbound and has an active credential of the direct route, and the inbound
    does not accept it. *)
Example marked_name_locked_out :
  let scope := scopeOf markedAccount demoInbound 0 in
  validateRegistrationUsername (AC_Username markedAccount) = None ∧
  validateRegistrationUsername "__oboard_path_9" = Some UsernameReserved ∧
  scope ∈ ProxyCredentialScopes (MR := map_range_default _ _) [markedAccount] [demoInbound] directOptions 0 ∧
  holdsCredential [markedAccount] 0 scope ∧
  fst <$> resolveInboundUsers (SD := demoDerivation) demoInbound (DataPlaneIdentitiesAt [markedAccount] 0) directOptions "s" None 0 = Some [].
Proof.
  split_and!; [done|done|apply (bool_decide_unpack _); vm_compute; exact I| |done].
  exists markedAccount. split; [left|]. split_and!; [done..|]. vm_compute. eauto.
Qed.
