(* ===== verification/CredentialStore.v ===== *)
(** * Persisted credentials ([internal/store/proxy_credentials.go])

    The rows of proxy credentials with the tables of the retirement of device credentials, the
    reconciliation that issues and revokes credentials for the authorized scopes, and the load
    that attaches the secrets to accounts.

    A reconciliation is one transaction: it either commits the modelled rows or, on an error,
    leaves the store as it was.  Deadlines are times; the texts they are stored as only matter
    where the database compares them ([minText]).  Reading the material back from JSON is a
    parameter ([CredentialCodec]). *)

From S2P Require Import Prelude Model NodeKeys AccessSnapshot PlanPreview Encodings JsonText StoredTimes Security Credentials.

Local Open Scope Z_scope.
Local Open Scope go_scope.

(** ** Rows *)

Record CredentialRow := {
  CR_ID : string;
  CR_UserID : Z;
  CR_InboundID : Z;
  CR_PathID : Z;
  CR_DeviceIDHash : string;
  CR_CredentialEpoch : Z;
  CR_Protocol : string;
  CR_Status : string;
  CR_Material : string }.

#[export] Instance CredentialRow_eq_dec : EqDecision CredentialRow.
Proof. solve_decision. Defined.

Record UserDevice := {
  UD_UserID : Z;
  UD_DeviceIDHash : string;
  UD_CredentialEpoch : Z;
  UD_Status : string;
  UD_SubscriptionSuspended : bool;
  UD_ProxyAccessState : string }.

Record RetirementBatch := { RB_ID : Z; RB_State : string; RB_Deadline : Z }.
Record RetirementAccount := { RA_BatchID : Z; RA_UserID : Z; RA_Decision : string }.
Record RetirementScope := { RS_BatchID : Z; RS_UserID : Z; RS_CredentialID : string }.

Record CredentialStore := {
  CS_Credentials : list CredentialRow;
  CS_Devices : list UserDevice;
  CS_Batches : list RetirementBatch;
  CS_Accounts : list RetirementAccount;
  CS_RetirementScopes : list RetirementScope;
  CS_InitialGrace : option Z;
  CS_GraceScopes : gset string;
  CS_Reviews : gmap Z string }.

Definition setCredentials (rows : list CredentialRow) (st : CredentialStore) : CredentialStore :=
  {| CS_Credentials := rows; CS_Devices := CS_Devices st; CS_Batches := CS_Batches st; CS_Accounts := CS_Accounts st;
     CS_RetirementScopes := CS_RetirementScopes st; CS_InitialGrace := CS_InitialGrace st; CS_GraceScopes := CS_GraceScopes st; CS_Reviews := CS_Reviews st |}.

Definition setReviews (reviews : gmap Z string) (st : CredentialStore) : CredentialStore :=
  {| CS_Credentials := CS_Credentials st; CS_Devices := CS_Devices st; CS_Batches := CS_Batches st; CS_Accounts := CS_Accounts st;
     CS_RetirementScopes := CS_RetirementScopes st; CS_InitialGrace := CS_InitialGrace st; CS_GraceScopes := CS_GraceScopes st; CS_Reviews := reviews |}.

Definition setGrace (grace : option Z) (scopes : gset string) (st : CredentialStore) : CredentialStore :=
  {| CS_Credentials := CS_Credentials st; CS_Devices := CS_Devices st; CS_Batches := CS_Batches st; CS_Accounts := CS_Accounts st;
     CS_RetirementScopes := CS_RetirementScopes st; CS_InitialGrace := grace; CS_GraceScopes := scopes; CS_Reviews := CS_Reviews st |}.

(** [proxyCredentialScope] *)
Definition proxyCredentialScope : Type := Z * Z * Z * Z * string * string.

Definition scopeKey (userID inboundID pathID epoch : Z) (device protocol : string) : proxyCredentialScope :=
  (userID, inboundID, pathID, epoch, device, protocol).

Definition credentialScope (c : ProxyCredential) : proxyCredentialScope :=
  scopeKey (PC_UserID c) (PC_InboundID c) (PC_PathID c) (PC_CredentialEpoch c) (PC_DeviceIDHash c) (PC_Protocol c).

Definition rowScope (r : CredentialRow) : proxyCredentialScope :=
  scopeKey (CR_UserID r) (CR_InboundID r) (CR_PathID r) (CR_CredentialEpoch r) (CR_DeviceIDHash r) (CR_Protocol r).

(** The scope of the account behind a device scope. *)
Definition accountScope (r : CredentialRow) : proxyCredentialScope :=
  scopeKey (CR_UserID r) (CR_InboundID r) (CR_PathID r) 0 "" (CR_Protocol r).

Definition rowActive (r : CredentialRow) : bool := (CR_Status r =? "active")%string.
Definition isDevice (r : CredentialRow) : bool := negb (CR_DeviceIDHash r =? "")%string.

Definition revokeRow (r : CredentialRow) : CredentialRow :=
  {| CR_ID := CR_ID r; CR_UserID := CR_UserID r; CR_InboundID := CR_InboundID r; CR_PathID := CR_PathID r; CR_DeviceIDHash := CR_DeviceIDHash r;
     CR_CredentialEpoch := CR_CredentialEpoch r; CR_Protocol := CR_Protocol r; CR_Status := "revoked"; CR_Material := "" |}.

(** [update proxy_credentials set status='revoked',material_encrypted='' where id=?] *)
Definition revokeID (id : string) (rows : list CredentialRow) : list CredentialRow :=
  (λ r, if (CR_ID r =? id)%string then revokeRow r else r) <$> rows.

(** The triggers on a rotation of the secrets of a user and on its deletion. *)
Definition revokeUser (userID : Z) (st : CredentialStore) : CredentialStore :=
  setCredentials ((λ r, if (CR_UserID r =? userID) && rowActive r then revokeRow r else r) <$> CS_Credentials st) st.

Definition listProxyCredentials (st : CredentialStore) : list CredentialRow := sort_slice (ltc (onc CR_ID String.compare)) (CS_Credentials st).

(** ** Reconciliation *)

Inductive CredErr :=
| SecretRequired | DeviceIssuance | InvalidScope | InvalidProtocol
| RandomFailed | EncryptFailed (e : SecretErr) | ConstraintViolated
| DecryptFailed (id : string) (e : SecretErr) | DecodeFailed | IncompleteMaterial.

Record proxyCredentialMaterial := { CM_Username : string; CM_Password : string; CM_UUID : string }.

(** The material as JSON. *)
Definition encodeMaterial (m : proxyCredentialMaterial) : string :=
  jsonStruct [("username", FieldString (CM_Username m)); ("password", FieldString (CM_Password m)); ("uuid", FieldString (CM_UUID m))]%string.

Class CredentialCodec := { decodeMaterial : string → option proxyCredentialMaterial }.

(** The identifier and the material made of 80 random bytes. *)
Definition newProxyCredentialMaterial (entropy : list ascii) : string * proxyCredentialMaterial :=
  (hexEncode (slice 0 16 entropy),
   {| CM_Username := "u" +:+ hexEncode (slice 16 32 entropy); CM_Password := encode64 URLEncoding (slice 32 64 entropy);
      CM_UUID := uuidText (uuidBytes (slice 64 80 entropy)) |}).

Definition credentialProtocols : list string :=
  [ProtocolVLESS; ProtocolHY2; ProtocolAnyTLS; ProtocolSS; ProtocolSocks; ProtocolSnell; ProtocolMieru; ProtocolSSH].

(** One desired scope; [scopes] holds the requested scopes, and [authorized] has the same keys. *)
Definition checkScope (c : ProxyCredential) (scopes : gmap proxyCredentialScope ProxyCredential) :
    result CredErr (gmap proxyCredentialScope ProxyCredential) :=
  if negb (PC_DeviceIDHash c =? "")%string then Err DeviceIssuance
  else if (PC_UserID c <=? 0) || (PC_InboundID c <=? 0) || (PC_PathID c <? 0) || (PC_CredentialEpoch c <? 0) ||
          (negb (PC_DeviceIDHash c =? "")%string && (PC_CredentialEpoch c <=? 0)) ||
          ((PC_DeviceIDHash c =? "")%string && negb (PC_CredentialEpoch c =? 0)) then Err InvalidScope
  else if negb (bool_decide (PC_Protocol c ∈ credentialProtocols)) then Err InvalidProtocol
  else Ok (<[credentialScope c := c]> scopes).

Definition restrictedDevice (d : UserDevice) : bool :=
  negb (UD_Status d =? "active")%string || UD_SubscriptionSuspended d || negb (UD_ProxyAccessState d =? "active")%string.

Definition batchesOf (st : CredentialStore) (id : Z) : list RetirementBatch := List.filter (λ b, RB_ID b =? id) (CS_Batches st).

(** An account whose review of a started batch authorized it. *)
Definition reviewedAccount (st : CredentialStore) (userID : Z) : bool :=
  existsb (λ a, (RA_UserID a =? userID) && (RA_Decision a =? "account_authorized")%string &&
                existsb (λ b, negb (RB_State b =? "review")%string) (batchesOf st (RA_BatchID a))) (CS_Accounts st).

(** The first statement: accounts with restricted devices are held for review. *)
Definition holdReviews (st : CredentialStore) : gmap Z string :=
  foldl (λ reviews d, if restrictedDevice d && negb (reviewedAccount st (UD_UserID d))
                      then <[UD_UserID d := "legacy_device_restriction"%string]> reviews else reviews) (CS_Reviews st) (CS_Devices st).

Definition heldUser (reviews : gmap Z string) (userID : Z) : bool :=
  match reviews !! userID with Some reason => negb (reason =? "transition_pending")%string | None => false end.

Definition graceLength : Z := 14 * 24 * 3600 * 1000000000.

(** The loop that freezes the upgrade window at the first active device credential. *)
Definition freezeGrace (existing : list CredentialRow) (at_ : Z) (st : CredentialStore) : CredentialStore * bool :=
  if existsb (λ r, isDevice r && rowActive r) existing && bool_decide (CS_Batches st = []) && bool_decide (CS_InitialGrace st = None)
  then (setGrace (Some (at_ + graceLength)) (CS_GraceScopes st) st, true)
  else (st, false).

Definition deviceInUse (st : CredentialStore) (r : CredentialRow) : bool :=
  existsb (λ d, (UD_UserID d =? CR_UserID r) && (UD_DeviceIDHash d =? CR_DeviceIDHash r)%string && (UD_CredentialEpoch d =? CR_CredentialEpoch r) &&
                (UD_Status d =? "active")%string && (UD_ProxyAccessState d =? "active")%string && negb (UD_SubscriptionSuspended d)) (CS_Devices st).

(** The two inserts for a device credential that stays. *)
Definition keepDevice (initialGrace : bool) (r : CredentialRow) (st : CredentialStore) : CredentialStore :=
  let st := if initialGrace && deviceInUse st r && bool_decide (CS_Batches st = [])
            then setGrace (CS_InitialGrace st) ({[CR_ID r]} ∪ CS_GraceScopes st) st else st in
  setReviews (match CS_Reviews st !! CR_UserID r with
              | Some _ => CS_Reviews st
              | None => <[CR_UserID r := "transition_pending"%string]> (CS_Reviews st)
              end) st.

(** One existing credential. *)
Definition settleRow (authorized : gset proxyCredentialScope) (initialGrace : bool)
    (state : gmap proxyCredentialScope ProxyCredential * CredentialStore) (r : CredentialRow) :
    gmap proxyCredentialScope ProxyCredential * CredentialStore :=
  let '(scopes, st) := state in
  if negb (rowActive r) then (scopes, st)
  else if isDevice r && bool_decide (accountScope r ∈ authorized) then (scopes, keepDevice initialGrace r st)
  else match scopes !! rowScope r with
       | Some _ => (delete (rowScope r) scopes, st)
       | None => (scopes, setCredentials (revokeID (CR_ID r) (CS_Credentials st)) st)
       end.

(** The constraints of the table: the primary key, and one active credential for every scope. *)
Definition rowFits (r : CredentialRow) (rows : list CredentialRow) : bool :=
  negb (existsb (λ x, (CR_ID x =? CR_ID r)%string || rowActive x && bool_decide (rowScope x = rowScope r)) rows).

Section reconcile.
Context {C : Crypto} {MS : MapRange proxyCredentialScope ProxyCredential}.

Definition purposeOf (id : string) : string := "proxy-credential:" +:+ id.

Definition newRow (id encrypted : string) (c : ProxyCredential) : CredentialRow :=
  {| CR_ID := id; CR_UserID := PC_UserID c; CR_InboundID := PC_InboundID c; CR_PathID := PC_PathID c; CR_DeviceIDHash := PC_DeviceIDHash c;
     CR_CredentialEpoch := PC_CredentialEpoch c; CR_Protocol := PC_Protocol c; CR_Status := "active"; CR_Material := encrypted |}.

(** One missing scope.  [random n] holds the bytes the [n]-th credential reads: those of its
    material, and the nonce of its encryption. *)
Definition issueScope (secret : string) (held : Z → bool) (random : nat → option (list ascii) * option (list ascii))
    (e : proxyCredentialScope * ProxyCredential) (state : nat * list CredentialRow) : result CredErr (nat * list CredentialRow) :=
  let '(calls, rows) := state in
  let c := e.2 in
  if (PC_DeviceIDHash c =? "")%string && held (PC_UserID c) then Ok state
  else match (random calls).1 with
       | None => Err RandomFailed
       | Some entropy =>
           let '(id, material) := newProxyCredentialMaterial entropy in
           match EncryptSecret secret (purposeOf id) (encodeMaterial material) (random calls).2 with
           | Err e => Err (EncryptFailed e)
           | Ok encrypted => if rowFits (newRow id encrypted c) rows then Ok (S calls, rows ++ [newRow id encrypted c]) else Err ConstraintViolated
           end
       end.

Definition reconcileProxyCredentialsAt (secret : string) (desired : list ProxyCredential) (at_ : Z)
    (random : nat → option (list ascii) * option (list ascii)) (st : CredentialStore) : result CredErr CredentialStore :=
  if (secret =? "")%string then Err SecretRequired
  else
    let* scopes := foldM checkScope desired ∅ in
    let authorized : gset proxyCredentialScope := dom scopes in
    let reviews := holdReviews st in
    let st := setReviews reviews st in
    let existing := listProxyCredentials st in
    let '(st, initialGrace) := freezeGrace existing at_ st in
    let '(missing, st) := foldl (settleRow authorized initialGrace) (scopes, st) existing in
    let* issued := foldM (issueScope secret (heldUser reviews) random) (map_range missing) (0%nat, CS_Credentials st) in
    Ok (setCredentials issued.2 st).
End reconcile.

(** ** Loading *)

(** The deadlines of the transitions of a user: three parts of a union. *)
Definition transitionDeadlines (st : CredentialStore) (userID : Z) : list Z :=
  (List.filter (λ a, (RA_UserID a =? userID) && (RA_Decision a =? "account_authorized")%string) (CS_Accounts st) ≫=
     λ a, RB_Deadline <$> List.filter (λ b, (RB_State b =? "transition")%string) (batchesOf st (RA_BatchID a))) ++
  (List.filter (λ r, (CR_UserID r =? userID) && bool_decide (CR_ID r ∈ CS_GraceScopes st)) (CS_Credentials st) ≫=
     λ _, match CS_InitialGrace st with Some deadline => [deadline] | None => [] end) ++
  (List.filter (λ r, (CR_UserID r =? userID) && bool_decide (CR_ID r ∈ CS_GraceScopes st)) (CS_Credentials st) ≫=
     λ _, RB_Deadline <$> CS_Batches st).

(** A device credential a reviewed batch allows during its transition. *)
Definition reviewedScope (st : CredentialStore) (r : CredentialRow) : bool :=
  existsb (λ s, (RS_CredentialID s =? CR_ID r)%string && (RS_UserID s =? CR_UserID r) &&
    existsb (λ b, (RB_State b =? "transition")%string &&
      existsb (λ a, (RA_BatchID a =? RB_ID b) && (RA_UserID a =? RS_UserID s) && (RA_Decision a =? "account_authorized")%string) (CS_Accounts st))
      (batchesOf st (RS_BatchID s))) (CS_RetirementScopes st) &&
  (bool_decide (CS_InitialGrace st = None) || bool_decide (CR_ID r ∈ CS_GraceScopes st)).

(** A device credential of the initial grace. *)
Definition graceScope (st : CredentialStore) (r : CredentialRow) : bool :=
  bool_decide (CR_ID r ∈ CS_GraceScopes st) &&
  negb (existsb (λ b, negb (bool_decide (RB_State b ∈ ["review"; "transition"]%string))) (CS_Batches st)) &&
  negb (existsb (λ a, (RA_UserID a =? CR_UserID r) && (RA_Decision a =? "retain_restriction")%string) (CS_Accounts st)).

Definition transitionAllowed (st : CredentialStore) (r : CredentialRow) : bool :=
  deviceInUse st r && (reviewedScope st r || graceScope st r).

Section load.
Context {C : Crypto} {CC : CredentialCodec}.

Definition transitionUntil (st : CredentialStore) (userID at_ : Z) : Z :=
  match transitionDeadlines st userID with
  | [] => zeroTime
  | first :: rest => let until := minText first rest in if at_ <? until then until else zeroTime
  end.

Definition withCredentials (credentials : list ProxyCredential) (until : Z) (u : Account) : Account :=
  {| AC_ID := AC_ID u; AC_Username := AC_Username u; AC_Status := AC_Status u; AC_ProxyUUID := AC_ProxyUUID u; AC_ProxyPassword := AC_ProxyPassword u;
     AC_ProxyUsername := AC_ProxyUsername u; AC_AuthorizationKey := AC_AuthorizationKey u; AC_ProxyCredentials := credentials;
     AC_DeviceTransitionUntil := until; AC_DeviceIDHash := AC_DeviceIDHash u; AC_CredentialEpoch := AC_CredentialEpoch u;
     AC_CredentialStatus := AC_CredentialStatus u |}.

Definition incomplete (m : proxyCredentialMaterial) : bool :=
  (CM_Username m =? "")%string || (CM_Password m =? "")%string || (CM_UUID m =? "")%string.

Definition openRow (secret : string) (st : CredentialStore) (r : CredentialRow) : result CredErr ProxyCredential :=
  match DecryptSecret secret (purposeOf (CR_ID r)) (CR_Material r) with
  | Err e => Err (DecryptFailed (CR_ID r) e)
  | Ok plain =>
      match decodeMaterial plain with
      | None => Err DecodeFailed
      | Some m => if incomplete m then Err IncompleteMaterial
                  else Ok {| PC_DeviceTransitionAllowed := transitionAllowed st r; PC_ID := CR_ID r; PC_UserID := CR_UserID r; PC_InboundID := CR_InboundID r;
                             PC_PathID := CR_PathID r; PC_DeviceIDHash := CR_DeviceIDHash r; PC_CredentialEpoch := CR_CredentialEpoch r;
                             PC_Protocol := CR_Protocol r; PC_Status := CR_Status r; PC_Username := CM_Username m; PC_Password := CM_Password m;
                             PC_UUID := CM_UUID m |}
      end
  end.

(** The rows the query returns: active, of a listed user, ordered by identifier. *)
Definition loadedRows (st : CredentialStore) (users : list Account) : list CredentialRow :=
  List.filter (λ r, rowActive r && bool_decide (CR_UserID r ∈ AC_ID <$> users)) (listProxyCredentials st).

Definition openRows (secret : string) (st : CredentialStore) (rows : list CredentialRow) : result CredErr (list ProxyCredential) :=
  foldM (λ r opened, match openRow secret st r with Ok c => Ok (opened ++ [c]) | Err e => Err e end) rows [].

Definition loadProxyCredentialsAt (secret : string) (users : list Account) (at_ : Z) (st : CredentialStore) : result CredErr (list Account) :=
  if (secret =? "")%string then Err SecretRequired
  else
    let* opened := openRows secret st (loadedRows st users) in
    Ok ((λ u, withCredentials (List.filter (λ c, PC_UserID c =? AC_ID u) opened) (transitionUntil st (AC_ID u) at_) u) <$> users).
End load.

(** ** Moving to another secret *)

(** [update proxy_credentials set material_encrypted=? where id=?] *)
Definition setMaterial (id encrypted : string) (r : CredentialRow) : CredentialRow :=
  if (CR_ID r =? id)%string then
    {| CR_ID := CR_ID r; CR_UserID := CR_UserID r; CR_InboundID := CR_InboundID r; CR_PathID := CR_PathID r; CR_DeviceIDHash := CR_DeviceIDHash r;
       CR_CredentialEpoch := CR_CredentialEpoch r; CR_Protocol := CR_Protocol r; CR_Status := CR_Status r; CR_Material := encrypted |}
  else r.

Section rewrap.
Context {C : Crypto}.

(** One active credential, encrypted for the new secret with the [n]-th nonce. *)
Definition rewrapRow (sourceSecret targetSecret : string) (nonce : nat → option (list ascii)) (r : CredentialRow) (state : nat * list CredentialRow) :
    result CredErr (nat * list CredentialRow) :=
  let '(calls, rows) := state in
  match DecryptSecret sourceSecret (purposeOf (CR_ID r)) (CR_Material r) with
  | Err e => Err (DecryptFailed (CR_ID r) e)
  | Ok plain => match EncryptSecret targetSecret (purposeOf (CR_ID r)) plain (nonce calls) with
                | Err e => Err (EncryptFailed e)
                | Ok encrypted => Ok (S calls, setMaterial (CR_ID r) encrypted <$> rows)
                end
  end.

(** [rewrapProxyCredentials]: the rows are listed before the first is written. *)
Definition rewrapProxyCredentials (sourceSecret targetSecret : string) (nonce : nat → option (list ascii)) (st : CredentialStore) : result CredErr CredentialStore :=
  let* state := foldM (rewrapRow sourceSecret targetSecret nonce) (List.filter rowActive (CS_Credentials st)) (0%nat, CS_Credentials st) in
  Ok (setCredentials state.2 st).
End rewrap.
