(* ===== verification/CredentialStoreSafety.v ===== *)
(** * What persisted credentials guarantee

    A reconciliation leaves exactly the authorized scopes with an active credential, keeps the
    secrets of those that had one, erases the others and never renews the window for device
    credentials.  With the load, an account can use a route exactly when the route is
    authorized and its account is not held for review. *)

From S2P Require Import Prelude Model NodeKeys AccessSnapshot ProxyPathNames PlanPreview Encodings JsonText StoredTimes Security SecuritySafety Credentials CredentialSafety CredentialStore.

Local Open Scope Z_scope.

(** ** The store *)

Definition activeRow (st : CredentialStore) (k : proxyCredentialScope) (r : CredentialRow) : Prop :=
  r ∈ CS_Credentials st ∧ rowActive r = true ∧ rowScope r = k.

Definition activeScope (st : CredentialStore) (k : proxyCredentialScope) : Prop := ∃ r, activeRow st k r.

Record rowsValid (rows : list CredentialRow) : Prop := {
  rows_ids : NoDup (CR_ID <$> rows);
  rows_named : ∀ r, r ∈ rows → CR_ID r ≠ ""%string;
  rows_scopes : NoDup (rowScope <$> List.filter rowActive rows) }.

Definition userOf (k : proxyCredentialScope) : Z := k.1.1.1.1.1.
Definition deviceOf (k : proxyCredentialScope) : string := k.1.2.

(** ** Checking the scopes *)

Definition scopeValid (c : ProxyCredential) : Prop :=
  PC_DeviceIDHash c = ""%string ∧ PC_CredentialEpoch c = 0 ∧ 0 < PC_UserID c ∧ 0 < PC_InboundID c ∧ 0 ≤ PC_PathID c ∧ PC_Protocol c ∈ credentialProtocols.

Lemma checkScope_ok c scopes out : checkScope c scopes = Ok out ↔ scopeValid c ∧ out = <[credentialScope c := c]> scopes.
Proof.
  unfold checkScope, scopeValid. destruct (String.eqb_spec (PC_DeviceIDHash c) "") as [->|]; cbn [negb andb]; [|naive_solver].
  destruct (Z.leb_spec (PC_UserID c) 0); cbn [orb]; [naive_solver lia|]. destruct (Z.leb_spec (PC_InboundID c) 0); cbn [orb]; [naive_solver lia|].
  destruct (Z.ltb_spec (PC_PathID c) 0); cbn [orb]; [naive_solver lia|]. destruct (Z.ltb_spec (PC_CredentialEpoch c) 0); cbn [orb]; [naive_solver lia|].
  destruct (Z.eqb_spec (PC_CredentialEpoch c) 0); cbn [negb]; [|naive_solver]. case_bool_decide; cbn [negb]; [|naive_solver].
  split; [intros [= <-]; done|]. intros [_ ->]. done.
Qed.

(** The requested scopes, each with a request for it. *)
Definition requested (desired : list ProxyCredential) (scopes : gmap proxyCredentialScope ProxyCredential) : Prop :=
  (∀ k c, scopes !! k = Some c → credentialScope c = k ∧ scopeValid c) ∧ ∀ k, is_Some (scopes !! k) ↔ k ∈ credentialScope <$> desired.

Lemma checkScopes desired : Forall scopeValid desired ↔ ∃ scopes, foldM checkScope desired ∅ = Ok scopes.
Proof.
  assert (∀ scopes, Forall scopeValid desired ↔ ∃ out, foldM checkScope desired scopes = Ok out) as H; [|apply H].
  induction desired as [|c desired IH]; intros scopes; cbn [foldM]; [naive_solver|]. rewrite Forall_cons.
  destruct (checkScope c scopes) as [m|e] eqn:Hc.
  - rewrite (IH m). apply checkScope_ok in Hc as [? _]. tauto.
  - split; [|by intros [? ?]]. intros [Hv _]. assert (checkScope c scopes = Ok (<[credentialScope c := c]> scopes)) by (by apply checkScope_ok). congruence.
Qed.

Lemma checkScopes_requested desired scopes : foldM checkScope desired ∅ = Ok scopes → requested desired scopes.
Proof.
  assert (∀ m out, foldM checkScope desired m = Ok out → (∀ k c, m !! k = Some c → credentialScope c = k ∧ scopeValid c) →
    (∀ k c, out !! k = Some c → credentialScope c = k ∧ scopeValid c) ∧ ∀ k, is_Some (out !! k) ↔ is_Some (m !! k) ∨ k ∈ credentialScope <$> desired) as H.
  { induction desired as [|c desired IH]; intros m out; cbn [foldM].
    - intros [= <-] Hm. split; [done|]. intros k. cbn. rewrite elem_of_nil. tauto.
    - destruct (checkScope c m) as [m'|] eqn:Hc; [|done]. apply checkScope_ok in Hc as [Hv ->]. intros Hf Hm.
      destruct (IH _ _ Hf) as [H1 H2].
      + intros k c' Hl. apply lookup_insert_Some in Hl as [[<- <-]|[_ Hl]]; [done|by apply Hm].
      + split; [done|]. intros k. rewrite H2, fmap_cons, elem_of_cons, lookup_insert_is_Some'. naive_solver. }
  intros Hf. destruct (H ∅ scopes Hf) as [H1 H2]; [by intros k c|]. split; [done|]. intros k. rewrite H2, lookup_empty.
  split; [intros [[? ?]|?]; done|tauto].
Qed.

(** ** Settling the existing credentials *)

(** An active credential that is neither authorized nor that of a device of an authorized account. *)
Definition dropped (authorized : gset proxyCredentialScope) (r : CredentialRow) : bool :=
  rowActive r && negb (isDevice r && bool_decide (accountScope r ∈ authorized)) && negb (bool_decide (rowScope r ∈ authorized)).

Definition settledRow (authorized : gset proxyCredentialScope) (r : CredentialRow) : CredentialRow :=
  if dropped authorized r then revokeRow r else r.

Lemma revoke_fold (P : CredentialRow → bool) l rows :
  foldl (λ rows r, if P r then revokeID (CR_ID r) rows else rows) rows l =
  (λ x, if existsb (λ r, P r && (CR_ID r =? CR_ID x)%string) l then revokeRow x else x) <$> rows.
Proof.
  revert rows; induction l as [|r l IH]; intros rows; cbn [foldl existsb]; [by rewrite list_fmap_id|]. rewrite IH.
  destruct (P r); cbn [andb orb]; [|done]. unfold revokeID. rewrite <-list_fmap_compose. apply list_fmap_ext. intros i x _. cbn.
  rewrite (String.eqb_sym (CR_ID r)). destruct (String.eqb_spec (CR_ID x) (CR_ID r)); cbn; [by case_match|done].
Qed.

Lemma foldl_ext_in {A S} (f g : S → A → S) l s : (∀ t x, x ∈ l → f t x = g t x) → foldl f s l = foldl g s l.
Proof.
  revert s; induction l as [|x l IH]; intros s H; [done|]. cbn [foldl]. rewrite (H s x) by left. apply IH. intros t y Hy. apply H. by right.
Qed.

Lemma keepDevice_credentials g r st : CS_Credentials (keepDevice g r st) = CS_Credentials st.
Proof. unfold keepDevice. cbv zeta. by destruct (g && deviceInUse st r && _). Qed.

Lemma settle_fold authorized g l scopes st :
  (∀ k, is_Some (scopes !! k) → deviceOf k = ""%string) → NoDup (rowScope <$> List.filter rowActive l) →
  let '(missing, st') := foldl (settleRow authorized g) (scopes, st) l in
  (∀ k c, missing !! k = Some c ↔ scopes !! k = Some c ∧ k ∉ rowScope <$> List.filter rowActive l) ∧
  CS_Credentials st' =
    foldl (λ rows r, if rowActive r && negb (isDevice r && bool_decide (accountScope r ∈ authorized)) && bool_decide (scopes !! rowScope r = None)
                     then revokeID (CR_ID r) rows else rows) (CS_Credentials st) l.
Proof.
  revert scopes st; induction l as [|r l IH]; intros scopes st Hdev Hnd; cbn [foldl].
  { split; [|done]. intros k c. cbn. rewrite elem_of_nil. tauto. }
  cbn [List.filter] in Hnd. unfold settleRow at 2. destruct (rowActive r) eqn:Ha; cbn [negb andb].
  2: { destruct (foldl _ _ l) as [missing st'] eqn:Hf. pose proof (IH scopes st Hdev Hnd) as H. rewrite Hf in H. cbn [List.filter]. by rewrite Ha. }
  rewrite fmap_cons, NoDup_cons in Hnd. destruct Hnd as [Hr Hnd]. cbn [List.filter]. rewrite Ha, fmap_cons.
  assert (∀ k, isDevice r = true → is_Some (scopes !! k) → k ≠ rowScope r) as Hd.
  { intros k Hi Hk ->. apply Hdev in Hk. unfold isDevice in Hi. apply negb_true_iff, String.eqb_neq in Hi. done. }
  destruct (isDevice r && bool_decide (accountScope r ∈ authorized)) eqn:Hk; cbn [negb].
  - destruct (foldl _ _ l) as [missing st'] eqn:Hf. pose proof (IH scopes (keepDevice g r st) Hdev Hnd) as H. rewrite Hf in H.
    destruct H as [H1 H2]. rewrite keepDevice_credentials in H2. split; [|done]. intros k c. rewrite H1, not_elem_of_cons. apply andb_true_iff in Hk as [Hi _].
    split; [|tauto]. intros [Hl ?]. split_and!; [done| |done]. apply Hd; [done|]. by rewrite Hl.
  - destruct (scopes !! rowScope r) as [c0|] eqn:Hl; [rewrite bool_decide_false by done|rewrite bool_decide_true by done].
    + destruct (foldl _ _ l) as [missing st'] eqn:Hf. pose proof (IH (delete (rowScope r) scopes) st) as H. rewrite Hf in H. destruct H as [H1 H2]; [|done|].
      { intros k [c Hc]. apply lookup_delete_Some in Hc as [_ Hc]. by apply Hdev. }
      split.
      * intros k c. rewrite H1, lookup_delete_Some, not_elem_of_cons. naive_solver.
      * rewrite H2. apply foldl_ext_in.
        intros rows x Hx. destruct (rowActive x) eqn:Hxa; [|done]. rewrite lookup_delete_ne; [done|]. intros Heq. apply Hr. rewrite Heq.
        apply list_elem_of_fmap_2, list_elem_of_In, filter_In. by rewrite <-list_elem_of_In.
    + destruct (foldl _ _ l) as [missing st'] eqn:Hf. pose proof (IH scopes (setCredentials (revokeID (CR_ID r) (CS_Credentials st)) st) Hdev Hnd) as H.
      rewrite Hf in H. destruct H as [H1 H2]. split; [|done]. intros k c. rewrite H1, not_elem_of_cons. split; [|tauto].
      intros [Hc ?]. split_and!; [done| |done]. intros ->. congruence.
Qed.

Lemma existsb_own (P : CredentialRow → bool) rows l x : NoDup (CR_ID <$> rows) → l ≡ₚ rows → x ∈ rows →
  existsb (λ r, P r && (CR_ID r =? CR_ID x)%string) l = P x.
Proof.
  intros Hnd Hl Hx. apply eq_true_iff_eq. rewrite List.existsb_exists. setoid_rewrite <-list_elem_of_In. setoid_rewrite Hl.
  setoid_rewrite andb_true_iff. setoid_rewrite String.eqb_eq. split; [|by eauto].
  intros (r & Hr & HP & Hid). assert (r = x) as <- by (by apply (NoDup_fmap_key CR_ID rows)). done.
Qed.

Lemma settled_fields authorized r : CR_ID (settledRow authorized r) = CR_ID r ∧ rowScope (settledRow authorized r) = rowScope r ∧
  rowActive (settledRow authorized r) = rowActive r && negb (dropped authorized r).
Proof. unfold settledRow. destruct (dropped authorized r); cbn [negb]; split_and!; try done; [by rewrite andb_false_r|by rewrite andb_true_r]. Qed.

Lemma settled_valid authorized rows : rowsValid rows → rowsValid (settledRow authorized <$> rows).
Proof.
  intros [Hids Hnamed Hscopes]. split.
  - rewrite <-list_fmap_compose. rewrite (list_fmap_ext _ CR_ID rows); [done|]. intros i r _. apply settled_fields.
  - intros r' (r & -> & Hr)%list_elem_of_fmap. destruct (settled_fields authorized r) as [-> _]. by apply Hnamed.
  - assert (rowScope <$> List.filter rowActive (settledRow authorized <$> rows) `sublist_of` rowScope <$> List.filter rowActive rows) as Hsub.
    { clear. induction rows as [|r rows IH]; cbn; [done|]. destruct (settled_fields authorized r) as (_ & Hsc & Hact). rewrite Hact.
      destruct (rowActive r); cbn; [|done]. destruct (dropped authorized r); cbn; [by apply sublist_cons|]. rewrite Hsc. by apply sublist_skip. }
    by apply (sublist_NoDup _ _ Hscopes Hsub).
Qed.

Lemma list_perm st : listProxyCredentials st ≡ₚ CS_Credentials st.
Proof. apply sort_slice_perm. Qed.

Lemma settle_rows g scopes st : rowsValid (CS_Credentials st) → (∀ k, is_Some (scopes !! k) → deviceOf k = ""%string) →
  let '(missing, st') := foldl (settleRow (dom scopes) g) (scopes, st) (listProxyCredentials st) in
  (∀ k c, missing !! k = Some c ↔ scopes !! k = Some c ∧ ¬ activeScope st k) ∧
  CS_Credentials st' = settledRow (dom scopes) <$> CS_Credentials st.
Proof.
  intros [Hids _ Hsc] Hdev. pose proof (settle_fold (dom scopes) g (listProxyCredentials st) scopes st Hdev) as H.
  destruct (foldl _ _ _) as [missing st']. destruct H as [H1 H2].
  { by rewrite list_perm. }
  split.
  - intros k c. rewrite H1. f_equiv. unfold activeScope, activeRow. rewrite list_perm, list_elem_of_fmap. f_equiv.
    setoid_rewrite list_elem_of_In. setoid_rewrite filter_In. setoid_rewrite <-list_elem_of_In. split; naive_solver.
  - rewrite H2, revoke_fold. apply list_fmap_ext. intros i r Hr%list_elem_of_lookup_2.
    rewrite (existsb_own _ (CS_Credentials st)); [|done|apply list_perm|done]. unfold settledRow, dropped.
    replace (bool_decide (scopes !! rowScope r = None)) with (negb (bool_decide (rowScope r ∈ dom scopes))); [done|].
    rewrite <-bool_decide_not. apply bool_decide_ext. by rewrite not_elem_of_dom.
Qed.

(** ** Issuing the missing credentials *)

Section issue.
Context {C : Crypto} (secret : string) (held : Z → bool) (random : nat → option (list ascii) * option (list ascii)).

(** The credential that the random bytes make. *)
Definition drawn (n : nat) : option (string * proxyCredentialMaterial) := newProxyCredentialMaterial <$> (random n).1.

(** A row that was issued for a scope. *)
Definition issuedFor (e : proxyCredentialScope * ProxyCredential) (r : CredentialRow) : Prop :=
  ∃ n id material encrypted, drawn n = Some (id, material) ∧ EncryptSecret secret (purposeOf id) (encodeMaterial material) (random n).2 = Ok encrypted ∧
    r = newRow id encrypted e.2.

Definition issuable (e : proxyCredentialScope * ProxyCredential) : bool := negb ((PC_DeviceIDHash e.2 =? "")%string && held (PC_UserID e.2)).

(** Reads of random bytes give as many as were asked for. *)
Definition fullReads : Prop := ∀ n, (∀ bytes, (random n).1 = Some bytes → length bytes = 80%nat) ∧ ∀ nonce, (random n).2 = Some nonce → length nonce = nonceSize.

Lemma hexEncode_length l : String.length (hexEncode l) = (2 * length l)%nat.
Proof.
  unfold hexEncode. rewrite <-length_bytes_of, bytes_of_of_bytes. induction l as [|a l IH]; [done|]. change ((a :: l) ≫= hexByte) with (hexByte a ++ (l ≫= hexByte)).
  rewrite length_app, IH. cbn. lia.
Qed.

Lemma drawn_named n id material : fullReads → drawn n = Some (id, material) → id ≠ ""%string.
Proof.
  intros Hfull. unfold drawn. destruct (random n).1 as [bytes|] eqn:Hb; [|done]. destruct (Hfull n) as [Hlen _]. specialize (Hlen bytes Hb).
  intros [= <- _] Hid. apply (f_equal String.length) in Hid. rewrite hexEncode_length in Hid. unfold slice in Hid. rewrite length_take, length_drop, Hlen in Hid. discriminate Hid.
Qed.

Lemma rowFits_valid rows r : rowsValid rows → CR_ID r ≠ ""%string → rowFits r rows = true → rowsValid (rows ++ [r]).
Proof.
  intros [Hids Hnamed Hsc] Hid Hfit. unfold rowFits in Hfit. apply negb_true_iff in Hfit.
  assert (∀ x, x ∈ rows → CR_ID x ≠ CR_ID r ∧ (rowActive x = true → rowScope x ≠ rowScope r)) as Hf.
  { intros x Hin. assert (∀ f : CredentialRow → bool, existsb f rows = false → f x = false) as Hall.
    { intros f Hf. destruct (f x) eqn:Hfx; [|done]. rewrite <-Hf. symmetry. apply List.existsb_exists. exists x. by rewrite <-list_elem_of_In. }
    apply Hall in Hfit as Hx. cbn in Hx. apply orb_false_iff in Hx as [Hx1%String.eqb_neq Hx2]. split; [done|]. intros Ha. rewrite Ha in Hx2. cbn in Hx2. by apply bool_decide_eq_false in Hx2. }
  split.
  - rewrite fmap_app. apply NoDup_app. split_and!; [done| |apply NoDup_singleton]. intros k (x & -> & Hx)%list_elem_of_fmap Heq%list_elem_of_singleton.
    by destruct (Hf x Hx).
  - intros x [Hx| ->%list_elem_of_singleton]%elem_of_app; [by apply Hnamed|done].
  - rewrite List.filter_app, fmap_app. apply NoDup_app. split_and!; [done| |cbn; case_match; [apply NoDup_singleton|constructor]].
    intros k (x & -> & Hx)%list_elem_of_fmap Hk. apply list_elem_of_In, filter_In in Hx as [Hx%list_elem_of_In Ha].
    cbn in Hk. case_match; [|by apply not_elem_of_nil in Hk]. apply list_elem_of_singleton in Hk. by apply (Hf x Hx).
Qed.

Lemma issue_fold l n rows n' out : fullReads → foldM (issueScope secret held random) l (n, rows) = Ok (n', out) →
  ∃ new, out = rows ++ new ∧ Forall2 issuedFor (List.filter issuable l) new ∧ (rowsValid rows → rowsValid out).
Proof.
  intros Hrand. revert n rows; induction l as [|e l IH]; intros n rows; cbn [foldM].
  { intros [= <- <-]. exists []. rewrite app_nil_r. done. }
  unfold issueScope at 1. cbn [List.filter]. destruct (issuable e) eqn:Hi; unfold issuable in Hi; [apply negb_true_iff in Hi|apply negb_false_iff in Hi];
    rewrite Hi; [|apply IH].
  destruct (random n).1 as [bytes|] eqn:He; [|done]. destruct (newProxyCredentialMaterial bytes) as [id material] eqn:Hmat.
  destruct (EncryptSecret _ _ _ _) as [encrypted|] eqn:Henc; [|done]. destruct (rowFits _ _) eqn:Hfit; [|done].
  assert (drawn n = Some (id, material)) as Hd by (unfold drawn; by rewrite He, <-Hmat). intros Hf. apply IH in Hf as (new & -> & Hnew & Hv).
  exists (newRow id encrypted e.2 :: new). rewrite <-app_assoc. split_and!; [done| |].
  - constructor; [|done]. exists n, id, material, encrypted. done.
  - intros Hrows. rewrite <-app_assoc in Hv. apply Hv. apply rowFits_valid; [done| |done]. by apply (drawn_named n id material).
Qed.
End issue.

(** *** Success *)

(** A random generator that works for some credentials and gives them fresh identifiers. *)
Record goodRandom (rows : list CredentialRow) (count : nat) (random : nat → option (list ascii) * option (list ascii)) : Prop := {
  random_works : ∀ n, (n < count)%nat → is_Some (random n).1 ∧ is_Some (random n).2;
  random_full : fullReads random;
  random_fresh : ∀ n id m, (n < count)%nat → drawn random n = Some (id, m) → id ∉ CR_ID <$> rows;
  random_distinct : ∀ n n' id m m', (n < count)%nat → (n' < count)%nat → drawn random n = Some (id, m) → drawn random n' = Some (id, m') → n = n' }.

Section succeeds.
Context {C : Crypto} {CL : CryptoLaws C} (secret : string) (held : Z → bool) (random : nat → option (list ascii) * option (list ascii)).
Context (Hsecret : secret ≠ ""%string).

Lemma issue_succeeds l n rows count : NoDup l.*1 → (n + length l ≤ count)%nat → (∀ n, (n < count)%nat → is_Some (random n).1 ∧ is_Some (random n).2) → fullReads random →
  (∀ n n' id m m', (n < count)%nat → (n' < count)%nat → drawn random n = Some (id, m) → drawn random n' = Some (id, m') → n = n') →
  (∀ n' id m, (n ≤ n' < count)%nat → drawn random n' = Some (id, m) → id ∉ CR_ID <$> rows) →
  (∀ e, e ∈ l → credentialScope e.2 = e.1 ∧ ∀ r, r ∈ rows → rowActive r = true → rowScope r ≠ e.1) →
  ∃ n' out, foldM (issueScope secret held random) l (n, rows) = Ok (n', out).
Proof.
  intros Hnd Hcount Htotal Hfull Hinj. revert n rows Hcount; induction l as [|e l IH]; intros n rows Hcount Hfresh Hl; cbn [foldM]; [eauto|]. cbn [length] in Hcount.
  rewrite fmap_cons, NoDup_cons in Hnd. destruct Hnd as [He Hnd].
  assert (∀ e', e' ∈ l → credentialScope e'.2 = e'.1 ∧ ∀ r, r ∈ rows → rowActive r = true → rowScope r ≠ e'.1) as Hl' by (intros e' ?; apply Hl; by right).
  unfold issueScope at 1. destruct (_ && held _); [apply IH; (done || lia)|].
  destruct (Htotal n) as [[bytes Hb] [nonce Hnonce]]; [lia|]. rewrite Hb, Hnonce. destruct (newProxyCredentialMaterial bytes) as [id m] eqn:Hm.
  assert (drawn random n = Some (id, m)) as Hn by (unfold drawn; by rewrite Hb, <-Hm).
  destruct (encrypt_decrypt secret (purposeOf id) (encodeMaterial m) nonce Hsecret) as (encrypted & -> & _); [by apply (Hfull n)|].
  destruct (Hl e (list_elem_of_here _ _)) as [Hsc Hact].
  assert (rowFits (newRow id encrypted e.2) rows = true) as ->.
  { unfold rowFits. apply negb_true_iff. apply not_true_iff_false. rewrite List.existsb_exists. intros (x & Hx%list_elem_of_In & Hor).
    apply orb_true_iff in Hor as [Hid%String.eqb_eq|[Ha Hs]%andb_true_iff].
    - apply (Hfresh n id m); [lia|done|]. cbn in Hid. rewrite <-Hid. by apply list_elem_of_fmap_2.
    - apply bool_decide_eq_true in Hs. apply (Hact x Hx Ha). rewrite Hs. exact Hsc. }
  apply IH; [done|lia| |].
  - intros n' id' m' Hle He' Hin. rewrite fmap_app, elem_of_app in Hin. destruct Hin as [Hin|Heq%list_elem_of_singleton].
    + by apply (Hfresh n' id' m') in Hin; [|lia|].
    + cbn in Heq. subst id'. pose proof (Hinj n n' _ _ _ ltac:(lia) ltac:(lia) Hn He'). lia.
  - intros e' He'. destruct (Hl' e' He') as [Hsc' Hact']. split; [done|]. intros r [Hr| ->%list_elem_of_singleton]%elem_of_app Ha; [by apply Hact'|].
    intros Heq. apply He. assert (e'.1 = e.1) as <- by (rewrite <-Heq; exact Hsc). by apply list_elem_of_fmap_2.
Qed.
End succeeds.

(** ** Reconciliation *)

Definition authorizedScopes (desired : list ProxyCredential) : gset proxyCredentialScope := list_to_set (credentialScope <$> desired).

(** A device credential of an account whose scope is authorized. *)
Definition retainedDevice (st : CredentialStore) (desired : list ProxyCredential) (k : proxyCredentialScope) : Prop :=
  ∃ r, activeRow st k r ∧ isDevice r = true ∧ accountScope r ∈ authorizedScopes desired.

(** What a reconciliation leaves in the table. *)
Record reconciled (st : CredentialStore) (desired : list ProxyCredential) (st' : CredentialStore) : Prop := {
  reconciled_valid : rowsValid (CS_Credentials st');
  reconciled_kept : ∀ r, r ∈ CS_Credentials st → settledRow (authorizedScopes desired) r ∈ CS_Credentials st';
  reconciled_active : ∀ k, activeScope st' k ↔
    k ∈ authorizedScopes desired ∧ (activeScope st k ∨ heldUser (holdReviews st) (userOf k) = false) ∨ retainedDevice st desired k }.

Lemma requested_dom desired scopes : requested desired scopes → dom scopes = authorizedScopes desired.
Proof. intros [_ H]. apply set_eq. intros k. unfold authorizedScopes. by rewrite elem_of_dom, H, elem_of_list_to_set. Qed.

Lemma requested_account desired scopes k : requested desired scopes → is_Some (scopes !! k) → deviceOf k = ""%string.
Proof. intros [H _] [c Hc]. destruct (H k c Hc) as [<- (Hd & _)]. exact Hd. Qed.

Section reconcile.
Context {C : Crypto} {MS : MapRange proxyCredentialScope ProxyCredential}.

Lemma freezeGrace_credentials existing at_ st : CS_Credentials (freezeGrace existing at_ st).1 = CS_Credentials st.
Proof. unfold freezeGrace. by case_match. Qed.

(** The scopes a reconciliation issues credentials for. *)
Definition missingScopes (scopes : gmap proxyCredentialScope ProxyCredential) (at_ : Z) (st : CredentialStore) :
    gmap proxyCredentialScope ProxyCredential * CredentialStore :=
  let st := setReviews (holdReviews st) st in
  let '(st, initialGrace) := freezeGrace (listProxyCredentials st) at_ st in
  foldl (settleRow (dom scopes) initialGrace) (scopes, st) (listProxyCredentials st).

Lemma reconcile_eq secret desired at_ random st :
  reconcileProxyCredentialsAt secret desired at_ random st =
  if (secret =? "")%string then Err SecretRequired
  else rbind (foldM checkScope desired ∅) (λ scopes,
    rbind (foldM (issueScope secret (heldUser (holdReviews st)) random) (map_range (missingScopes scopes at_ st).1)
             (0%nat, CS_Credentials (missingScopes scopes at_ st).2)) (λ issued,
    Ok (setCredentials issued.2 (missingScopes scopes at_ st).2))).
Proof.
  unfold reconcileProxyCredentialsAt. case_match; [done|]. destruct (foldM checkScope desired ∅) as [scopes|]; [|done]. cbn [rbind]. cbv zeta.
  unfold missingScopes. cbv zeta. pose proof (freezeGrace_credentials (listProxyCredentials (setReviews (holdReviews st) st)) at_ (setReviews (holdReviews st) st)) as Hc.
  destruct (freezeGrace _ _ _) as [st1 g]. cbn [fst] in Hc.
  assert (listProxyCredentials st1 = listProxyCredentials (setReviews (holdReviews st) st)) as -> by (unfold listProxyCredentials; by rewrite Hc).
  by destruct (foldl _ _ _) as [missing st2].
Qed.

Lemma missing_spec scopes desired at_ st : requested desired scopes → rowsValid (CS_Credentials st) →
  (∀ k c, (missingScopes scopes at_ st).1 !! k = Some c ↔ scopes !! k = Some c ∧ ¬ activeScope st k) ∧
  CS_Credentials (missingScopes scopes at_ st).2 = settledRow (authorizedScopes desired) <$> CS_Credentials st.
Proof.
  intros Hreq Hv. unfold missingScopes. cbv zeta.
  pose proof (freezeGrace_credentials (listProxyCredentials (setReviews (holdReviews st) st)) at_ (setReviews (holdReviews st) st)) as Hc.
  destruct (freezeGrace _ _ _) as [st1 g]. cbn [fst] in Hc. change (CS_Credentials (setReviews _ st)) with (CS_Credentials st) in Hc.
  pose proof (settle_rows g scopes st1) as H. destruct (foldl _ _ _) as [missing st2]. destruct H as [H1 H2].
  - by rewrite Hc.
  - intros k. by apply (requested_account desired).
  - cbn [fst snd]. split; [|by rewrite H2, Hc, (requested_dom desired)]. intros k c. rewrite H1. unfold activeScope, activeRow. by rewrite Hc.
Qed.
End reconcile.

Lemma activeScope_elem st k : activeScope st k ↔ k ∈ rowScope <$> List.filter rowActive (CS_Credentials st).
Proof.
  unfold activeScope, activeRow. rewrite list_elem_of_fmap. setoid_rewrite list_elem_of_In. setoid_rewrite filter_In.
  setoid_rewrite <-list_elem_of_In. naive_solver.
Qed.

Lemma dropped_false authorized r : rowActive r = true →
  dropped authorized r = false ↔ isDevice r = true ∧ accountScope r ∈ authorized ∨ rowScope r ∈ authorized.
Proof.
  intros Ha. unfold dropped. rewrite Ha. cbn [andb]. destruct (isDevice r); cbn [andb negb]; repeat case_bool_decide; cbn; naive_solver.
Qed.

Section reconcile_spec.
Context {C : Crypto} {MS : MapRange proxyCredentialScope ProxyCredential}.
Context (secret : string) (random : nat → option (list ascii) * option (list ascii)).

(** The active scopes of the settled rows and of the issued ones. *)
Lemma settled_active st desired k :
  (∃ r, r ∈ settledRow (authorizedScopes desired) <$> CS_Credentials st ∧ rowActive r = true ∧ rowScope r = k) ↔
  k ∈ authorizedScopes desired ∧ activeScope st k ∨ retainedDevice st desired k.
Proof.
  unfold retainedDevice, activeScope, activeRow. split.
  - intros (r' & Hr' & Ha & <-). apply list_elem_of_fmap in Hr' as (r & -> & Hr).
    destruct (settled_fields (authorizedScopes desired) r) as (_ & Hs & Hact). rewrite Hact in Ha. apply andb_true_iff in Ha as [Ha Hd%negb_true_iff].
    rewrite Hs. apply dropped_false in Hd as [[? ?]|?]; [right|left|done]; eauto 8.
  - intros [[Hk (r & Hr & Ha & <-)]|(r & (Hr & Ha & <-) & Hd & Hacc)]; exists (settledRow (authorizedScopes desired) r);
      destruct (settled_fields (authorizedScopes desired) r) as (_ & -> & ->); rewrite Ha; (split; [by apply list_elem_of_fmap_2|]); split; try done;
      cbn; apply negb_true_iff, dropped_false; auto.
Qed.

Lemma issued_active scopes desired at_ st new k : requested desired scopes → rowsValid (CS_Credentials st) →
  Forall2 (issuedFor secret random) (List.filter (issuable (heldUser (holdReviews st))) (map_range (missingScopes scopes at_ st).1)) new →
  (∃ r, r ∈ new ∧ rowActive r = true ∧ rowScope r = k) ↔
  k ∈ authorizedScopes desired ∧ ¬ activeScope st k ∧ heldUser (holdReviews st) (userOf k) = false.
Proof.
  intros Hreq Hv Hnew. destruct (missing_spec scopes desired at_ st Hreq Hv) as [Hmiss _].
  assert (∀ e, e ∈ map_range (missingScopes scopes at_ st).1 → credentialScope e.2 = e.1 ∧ scopeValid e.2 ∧ ¬ activeScope st e.1 ∧
    e.1 ∈ authorizedScopes desired) as Hin.
  { intros [k' c] He%elem_of_map_range. apply Hmiss in He as [Hl Hna]. destruct (proj1 Hreq k' c Hl) as [? ?]. split_and!; try done.
    rewrite <-(requested_dom desired scopes Hreq). by apply elem_of_dom. }
  assert (∀ e, e ∈ map_range (missingScopes scopes at_ st).1 → issuable (heldUser (holdReviews st)) e = negb (heldUser (holdReviews st) (userOf e.1))) as Hiss.
  { intros e He. destruct (Hin e He) as (<- & (Hd & _) & _). unfold issuable. by rewrite Hd. }
  split.
  - intros (r & Hr & _ & <-). apply list_elem_of_lookup in Hr as [i Hi]. destruct (Forall2_lookup_r _ _ _ _ _ Hnew Hi) as (e & He & n & id & m & enc & _ & _ & ->).
    apply list_elem_of_lookup_2, list_elem_of_In, filter_In in He as [He%list_elem_of_In Hi']. rewrite Hiss in Hi' by done.
    destruct (Hin e He) as (Hs & _ & Hna & HA). change (rowScope (newRow id enc e.2)) with (credentialScope e.2). rewrite Hs.
    split_and!; [done..|]. by apply negb_true_iff.
  - intros (HA & Hna & Hh). rewrite <-(requested_dom desired scopes Hreq) in HA. apply elem_of_dom in HA as [c Hc].
    assert ((missingScopes scopes at_ st).1 !! k = Some c) as Hm by (by apply Hmiss).
    assert ((k, c) ∈ map_range (missingScopes scopes at_ st).1) as He by (by apply elem_of_map_range).
    assert ((k, c) ∈ List.filter (issuable (heldUser (holdReviews st))) (map_range (missingScopes scopes at_ st).1)) as [i Hi]%list_elem_of_lookup.
    { apply list_elem_of_In, filter_In. split; [by apply list_elem_of_In|]. rewrite Hiss by done. cbn. by rewrite Hh. }
    destruct (Forall2_lookup_l _ _ _ _ _ Hnew Hi) as (r & Hr & n & id & m & enc & _ & _ & ->). exists (newRow id enc c).
    split; [by apply list_elem_of_lookup_2 in Hr|]. split; [done|]. destruct (Hin _ He) as [Hs _]. exact Hs.
Qed.

Lemma reconcile_spec desired at_ st st' : rowsValid (CS_Credentials st) → fullReads random →
  reconcileProxyCredentialsAt secret desired at_ random st = Ok st' → reconciled st desired st'.
Proof.
  intros Hv Hrand. rewrite reconcile_eq. case_match; [done|]. destruct (foldM checkScope desired ∅) as [scopes|] eqn:Hs; [|done]. cbn [rbind].
  pose proof (checkScopes_requested _ _ Hs) as Hreq. destruct (missing_spec scopes desired at_ st Hreq Hv) as [_ Hrows].
  destruct (foldM (issueScope _ _ _) _ _) as [[n out]|] eqn:Hf; [|done]. cbn [rbind]. intros [= <-].
  apply issue_fold in Hf as (new & -> & Hnew & Hval); [|done]. rewrite Hrows in Hval |- *. split.
  - apply Hval. by apply settled_valid.
  - intros r Hr. cbn. apply elem_of_app. left. by apply list_elem_of_fmap_2.
  - intros k. unfold activeScope at 1, activeRow at 1. cbn. setoid_rewrite elem_of_app.
    transitivity ((∃ r, r ∈ settledRow (authorizedScopes desired) <$> CS_Credentials st ∧ rowActive r = true ∧ rowScope r = k) ∨
                  ∃ r, r ∈ new ∧ rowActive r = true ∧ rowScope r = k); [naive_solver|].
    rewrite settled_active, (issued_active scopes desired at_ st new k Hreq Hv Hnew), activeScope_elem.
    destruct (decide (k ∈ rowScope <$> List.filter rowActive (CS_Credentials st))); tauto.
Qed.

Lemma missing_length (desired : list ProxyCredential) (scopes missing : gmap proxyCredentialScope ProxyCredential) : requested desired scopes →
  (∀ k c, missing !! k = Some c → scopes !! k = Some c) → (length (map_range missing) ≤ length desired)%nat.
Proof.
  intros [_ Hreq] Hsub. rewrite <-(length_fmap fst), <-(length_fmap credentialScope desired). apply submseteq_length. apply NoDup_submseteq; [apply NoDup_map_range|].
  intros k ([k' c] & -> & Hin%elem_of_map_range)%list_elem_of_fmap. apply Hreq. exists c. by apply Hsub.
Qed.

Lemma reconcile_succeeds {CL : CryptoLaws C} desired at_ st : rowsValid (CS_Credentials st) → secret ≠ ""%string → Forall scopeValid desired →
  goodRandom (CS_Credentials st) (length desired) random → ∃ st', reconcileProxyCredentialsAt secret desired at_ random st = Ok st'.
Proof.
  intros Hv Hsec Hdes [Hworks Hfull Hfresh Hinj]. rewrite reconcile_eq, (proj2 (String.eqb_neq _ _) Hsec).
  apply checkScopes in Hdes as [scopes Hs]. rewrite Hs. cbn [rbind]. pose proof (checkScopes_requested _ _ Hs) as Hreq.
  destruct (missing_spec scopes desired at_ st Hreq Hv) as [Hmiss Hrows].
  destruct (issue_succeeds secret (heldUser (holdReviews st)) random Hsec (map_range (missingScopes scopes at_ st).1) 0
    (CS_Credentials (missingScopes scopes at_ st).2) (length desired)) as (n & out & ->); try done; [| | | |cbn; eauto].
  - apply NoDup_map_range.
  - cbn. apply (missing_length desired scopes); [done|]. intros k c Hl. by apply Hmiss in Hl as [? _].
  - intros n id m [_ Hlt] Hn Hid. apply (Hfresh n id m Hlt Hn).
    rewrite Hrows, <-list_fmap_compose in Hid. rewrite (list_fmap_ext _ CR_ID (CS_Credentials st)) in Hid; [done|]. intros i r _. apply settled_fields.
  - intros [k c] He%elem_of_map_range. apply Hmiss in He as [Hl Hna]. split; [by apply Hreq|]. cbn. intros r Hr Ha Hk. apply Hna. rewrite Hrows in Hr.
    apply list_elem_of_fmap in Hr as (x & -> & Hx). destruct (settled_fields (authorizedScopes desired) x) as (_ & Hsc & Hact).
    rewrite Hact in Ha. apply andb_true_iff in Ha as [Ha _]. exists x. rewrite <-Hk, Hsc. done.
Qed.

(** An active credential of the result is one of before, or was issued. *)
Lemma reconcile_rows desired at_ st st' r : rowsValid (CS_Credentials st) → fullReads random →
  reconcileProxyCredentialsAt secret desired at_ random st = Ok st' → r ∈ CS_Credentials st' → rowActive r = true →
  r ∈ CS_Credentials st ∨ ∃ e, issuedFor secret random e r.
Proof.
  intros Hv Hfull. rewrite reconcile_eq. case_match; [done|]. destruct (foldM checkScope desired ∅) as [scopes|] eqn:Hs; [|done]. cbn [rbind].
  pose proof (checkScopes_requested _ _ Hs) as Hreq. destruct (missing_spec scopes desired at_ st Hreq Hv) as [_ Hrows].
  destruct (foldM (issueScope _ _ _) _ _) as [[n out]|] eqn:Hf; [|done]. cbn [rbind]. intros [= <-] Hr Ha.
  apply issue_fold in Hf as (new & -> & Hnew & _); [|done]. cbn in Hr. rewrite Hrows in Hr. apply elem_of_app in Hr as [Hr|Hr].
  - left. apply list_elem_of_fmap in Hr as (x & -> & Hx). unfold settledRow in *. by destruct (dropped _ x).
  - right. apply list_elem_of_lookup in Hr as [i Hi]. destruct (Forall2_lookup_r _ _ _ _ _ Hnew Hi) as (e & _ & He). by exists e.
Qed.

(** C11. A reconciliation of valid scopes on a store without conflicting rows succeeds.  Then every
    credential is kept, or revoked and erased when its scope is no longer authorized and it is not
    that of a device of an authorized account; and a scope has an active credential exactly when
    it is authorized, unless its account is held for review and it had none, or when it is such a
    device scope.  Rows keep distinct identifiers and scopes. *)
Theorem reconcile_exact {CL : CryptoLaws C} desired at_ st : rowsValid (CS_Credentials st) → secret ≠ ""%string → Forall scopeValid desired →
  goodRandom (CS_Credentials st) (length desired) random → ∃ st', reconcileProxyCredentialsAt secret desired at_ random st = Ok st' ∧ reconciled st desired st'.
Proof.
  intros Hv Hsec Hdes Hrandom. destruct (reconcile_succeeds desired at_ st Hv Hsec Hdes Hrandom) as [st' Hst']. exists st'. split; [done|].
  apply (reconcile_spec desired at_ st st' Hv (random_full _ _ _ Hrandom) Hst').
Qed.
End reconcile_spec.

(** ** The upgrade window *)

Lemma settleRow_window authorized g scopes st r : g = false →
  CS_InitialGrace (settleRow authorized g (scopes, st) r).2 = CS_InitialGrace st ∧ CS_GraceScopes (settleRow authorized g (scopes, st) r).2 = CS_GraceScopes st.
Proof.
  intros ->. unfold settleRow. destruct (rowActive r); cbn [negb]; [|done]. case_match; [|by case_match]. done.
Qed.

(** Once the window for device credentials is set, no reconciliation renews or widens it. *)
Lemma window_frozen {C : Crypto} {MS : MapRange proxyCredentialScope ProxyCredential} secret desired at_ random st st' deadline :
  CS_InitialGrace st = Some deadline → reconcileProxyCredentialsAt secret desired at_ random st = Ok st' →
  CS_InitialGrace st' = Some deadline ∧ CS_GraceScopes st' = CS_GraceScopes st.
Proof.
  intros Hd. rewrite reconcile_eq. case_match; [done|]. destruct (foldM checkScope desired ∅) as [scopes|]; [|done]. cbn [rbind].
  destruct (foldM (issueScope _ _ _) _ _) as [[n out]|]; [|done]. cbn [rbind]. intros [= <-]. cbn. unfold missingScopes, freezeGrace. cbv zeta.
  rewrite (bool_decide_false (CS_InitialGrace (setReviews (holdReviews st) st) = None)) by (cbn; by rewrite Hd). rewrite andb_false_r.
  assert (∀ l scopes st0, CS_InitialGrace (foldl (settleRow (dom scopes) false) (scopes, st0) l).2 = CS_InitialGrace st0 ∧
                          CS_GraceScopes (foldl (settleRow (dom scopes) false) (scopes, st0) l).2 = CS_GraceScopes st0) as H'.
  { intros l sc st0. generalize (dom sc). intros A. revert sc st0; induction l as [|r l IH]; intros sc st0; [done|]. cbn [foldl].
    destruct (settleRow_window A false sc st0 r eq_refl) as [H1 H2]. destruct (settleRow A false (sc, st0) r) as [sc1 st1]. destruct (IH sc1 st1) as [H3 H4]. cbn in *. split; congruence. }
  destruct (H' (listProxyCredentials (setReviews (holdReviews st) st)) scopes (setReviews (holdReviews st) st)) as [-> ->]. done.
Qed.
