(* ===== verification/CredentialLifecycle.v ===== *)
(** * Credentials from issue to use

    What is issued can be loaded: after a reconciliation an account has the secrets of a route
    exactly when the route is authorized for it and the account is not held for review.  Moving
    the store to another secret changes no credential. *)

From S2P Require Import Prelude Model NodeKeys AccessSnapshot ProxyPathNames PlanPreview Encodings JsonText StoredTimes Security SecuritySafety Credentials CredentialSafety CredentialStore CredentialStoreSafety.

Local Open Scope Z_scope.

(** ** The material of an issued credential *)

Lemma ascii_validUTF8 s : Forall (λ a, asciiByte a = true) (bytes_of s) → validUTF8 s = true.
Proof.
  unfold validUTF8. rewrite <-length_bytes_of. generalize (bytes_of s). induction 1 as [|a l Ha _ IH]; [done|]. cbn [length utf8b]. by rewrite Ha.
Qed.

Lemma hexChar_ascii c : hexChar c = true → asciiByte c = true.
Proof. unfold hexChar, within, asciiByte. rewrite !orb_true_iff, !andb_true_iff, !Z.leb_le, Z.ltb_lt. lia. Qed.

Lemma hexEncode_ascii l : Forall (λ a, asciiByte a = true) (bytes_of (hexEncode l)).
Proof.
  unfold hexEncode. rewrite bytes_of_of_bytes. apply Forall_forall. intros c (a & Hc & _)%list_elem_of_bind.
  destruct (hexByte_chars a) as (x & y & Hx & H1 & H2). rewrite Hx in Hc. apply hexChar_ascii. apply elem_of_cons in Hc as [->|Hc]; [done|].
  apply list_elem_of_singleton in Hc as ->. done.
Qed.

Lemma encode64_ascii l : Forall (λ a, asciiByte a = true) (bytes_of (encode64 URLEncoding l)).
Proof.
  apply Forall_forall. intros c (d & Hd & ->)%encode64_chars.
  assert (forallb (λ i, asciiByte (encodeDigit URLEncoding (Z.of_nat i))) (seq 0 64) = true) as H by (vm_compute; reflexivity).
  rewrite forallb_forall in H. specialize (H (Z.to_nat d)). rewrite in_seq, Z2Nat.id in H by lia. apply H. lia.
Qed.

Lemma uuid_ascii v : ValidUUID v = true → Forall (λ a, asciiByte a = true) (bytes_of v) ∧ v ≠ ""%string.
Proof.
  unfold ValidUUID. intros [Hl Hc]%andb_true_iff. split; [|by intros ->]. apply Forall_forall. intros c [i Hi]%list_elem_of_lookup.
  rewrite forallb_forall in Hc. specialize (Hc (i, c)). rewrite <-list_elem_of_In in Hc. assert (uuidChar i c = true) as Hu.
  { apply Hc. apply (list_elem_of_lookup_2 _ i). rewrite list_lookup_imap, Hi. done. }
  unfold uuidChar in Hu. case_bool_decide; [apply bool_decide_eq_true in Hu as ->; done|by apply hexChar_ascii].
Qed.

Definition goodCodec (CC : CredentialCodec) : Prop := ∀ m, validUTF8 (CM_Username m) = true → validUTF8 (CM_Password m) = true → validUTF8 (CM_UUID m) = true →
  decodeMaterial (encodeMaterial m) = Some m.

Lemma material_complete bytes id m : length bytes = 80%nat → newProxyCredentialMaterial bytes = (id, m) →
  incomplete m = false ∧ validUTF8 (CM_Username m) = true ∧ validUTF8 (CM_Password m) = true ∧ validUTF8 (CM_UUID m) = true.
Proof.
  intros Hl [= _ <-]. cbn [CM_Username CM_Password CM_UUID].
  assert (∀ a b, (a ≤ b ≤ 80)%nat → length (slice a b bytes) = (b - a)%nat) as Hs by (intros a b ?; unfold slice; rewrite length_take, length_drop; lia).
  destruct (uuid_ascii _ (uuid_valid (slice 64 80 bytes) (Hs 64%nat 80%nat ltac:(lia)))) as [Hu Hne]. split_and!.
  - unfold incomplete. cbn [CM_Username CM_Password CM_UUID]. rewrite (proj2 (String.eqb_neq _ _) Hne), orb_false_r. change ("u" +:+ ?x) with (String "u" x). cbn [String.eqb orb].
    apply String.eqb_neq. intros H. apply (f_equal (decode64 URLEncoding)) in H. rewrite decode64_encode64 in H by done. injection H as H.
    pose proof (Hs 32%nat 64%nat ltac:(lia)) as Hlen. rewrite H in Hlen. done.
  - apply ascii_validUTF8. change ("u" +:+ ?x) with (String "u" x). cbn [bytes_of]. constructor; [done|]. apply hexEncode_ascii.
  - apply ascii_validUTF8, encode64_ascii.
  - by apply ascii_validUTF8.
Qed.

(** ** Loading *)

Section load.
Context {C : Crypto} {CC : CredentialCodec} (secret : string).

(** A row whose material can be read. *)
Definition readable (r : CredentialRow) : Prop :=
  ∃ plain m, DecryptSecret secret (purposeOf (CR_ID r)) (CR_Material r) = Ok plain ∧ decodeMaterial plain = Some m ∧ incomplete m = false.

Definition readableRows (st : CredentialStore) : Prop := ∀ r, r ∈ CS_Credentials st → rowActive r = true → readable r.

(** The credential a row becomes. *)
Definition opens (st : CredentialStore) (r : CredentialRow) (c : ProxyCredential) : Prop := openRow secret st r = Ok c.

Lemma open_readable st r : readable r ↔ ∃ c, opens st r c.
Proof.
  unfold readable, opens, openRow. split.
  - intros (plain & m & -> & -> & ->). eauto.
  - intros [c Hc]. destruct (DecryptSecret _ _ _) as [plain|]; [|done]. destruct (decodeMaterial plain) as [m|] eqn:Hm; [|done]. destruct (incomplete m) eqn:Hi; [done|]. eauto 6.
Qed.

Lemma opens_fields st r c : opens st r c →
  PC_ID c = CR_ID r ∧ credentialScope c = rowScope r ∧ PC_Status c = CR_Status r ∧ PC_Username c ≠ ""%string ∧ PC_Password c ≠ ""%string ∧ PC_UUID c ≠ ""%string.
Proof.
  unfold opens, openRow. destruct (DecryptSecret _ _ _) as [plain|]; [|done]. destruct (decodeMaterial plain) as [m|]; [|done]. destruct (incomplete m) eqn:Hi; [done|].
  intros [= <-]. cbn. unfold incomplete in Hi. rewrite !orb_false_iff, !String.eqb_neq in Hi. tauto.
Qed.

Lemma openRows_spec st rows : (∀ r, r ∈ rows → readable r) → ∃ opened, openRows secret st rows = Ok opened ∧ ∀ c, c ∈ opened ↔ ∃ r, r ∈ rows ∧ opens st r c.
Proof.
  unfold openRows. intros Hread. assert (∀ acc, ∃ opened, foldM (λ r opened, match openRow secret st r with Ok c => Ok (opened ++ [c]) | Err e => Err e end) rows acc = Ok opened ∧
    ∀ c, c ∈ opened ↔ c ∈ acc ∨ ∃ r, r ∈ rows ∧ opens st r c) as H.
  { induction rows as [|r rows IH]; intros acc; cbn [foldM].
    - exists acc. split; [done|]. intros c. split; [auto|]. by intros [?|(r & ?%not_elem_of_nil & _)].
    - destruct (proj1 (open_readable st r) (Hread r (list_elem_of_here _ _))) as [c0 Hc0]. unfold opens in Hc0. rewrite Hc0.
      destruct (IH (λ r' H, Hread r' (list_elem_of_further _ _ _ H)) (acc ++ [c0])) as (opened & -> & Hin). exists opened. split; [done|]. intros c.
      rewrite Hin, elem_of_app, list_elem_of_singleton. setoid_rewrite elem_of_cons. unfold opens. split; [naive_solver|].
      intros [?|(r' & [->|?] & ?)]; [auto|left; right; congruence|eauto]. }
  destruct (H []) as (opened & Ho & Hin). exists opened. split; [done|]. intros c. rewrite Hin. split; [by intros [?%not_elem_of_nil|?]|auto].
Qed.

Definition loadedAccount (st : CredentialStore) (at_ : Z) (opened : list ProxyCredential) (u : Account) : Account :=
  withCredentials (List.filter (λ c, PC_UserID c =? AC_ID u) opened) (transitionUntil st (AC_ID u) at_) u.

(** Loading a store whose active credentials can be read gives every account its own. *)
Lemma load_spec st users at_ : secret ≠ ""%string → readableRows st → ∃ opened,
  loadProxyCredentialsAt secret users at_ st = Ok (loadedAccount st at_ opened <$> users) ∧
  ∀ c, c ∈ opened ↔ ∃ r, r ∈ CS_Credentials st ∧ rowActive r = true ∧ CR_UserID r ∈ AC_ID <$> users ∧ opens st r c.
Proof.
  intros Hs Hread. unfold loadProxyCredentialsAt. rewrite (proj2 (String.eqb_neq _ _) Hs).
  assert (∀ r, r ∈ loadedRows st users ↔ r ∈ CS_Credentials st ∧ rowActive r = true ∧ CR_UserID r ∈ AC_ID <$> users) as Hrows.
  { intros r. unfold loadedRows. rewrite list_elem_of_In, filter_In, <-list_elem_of_In, andb_true_iff, bool_decide_eq_true, list_perm. done. }
  destruct (openRows_spec st (loadedRows st users)) as (opened & -> & Hin).
  - intros r (? & ? & _)%Hrows. by apply Hread.
  - exists opened. split; [done|]. intros c. rewrite Hin. setoid_rewrite Hrows. naive_solver.
Qed.

(** An account as such, not one of its devices. *)
Record accountLevel (u : Account) : Prop := {
  account_id : 0 < AC_ID u;
  account_device : AC_DeviceIDHash u = ""%string;
  account_epoch : AC_CredentialEpoch u = 0;
  account_standing : credentialRefused u = false }.

Lemma account_route st (users : list Account) at_ (opened : list ProxyCredential) u inboundID pathID protocol : rowsValid (CS_Credentials st) → readableRows st → accountLevel u → u ∈ users →
  (∀ c, c ∈ opened ↔ ∃ r, r ∈ CS_Credentials st ∧ rowActive r = true ∧ CR_UserID r ∈ AC_ID <$> users ∧ opens st r c) →
  AC_AuthorizationKey (UserCredentialForRouteAt (loadedAccount st at_ opened u) inboundID pathID protocol at_) ≠ ""%string ↔
  activeScope st (scopeKey (AC_ID u) inboundID pathID 0 "" protocol).
Proof.
  intros Hv Hread [Hid Hdev Hep Hst] Hu Hin. rewrite route_key by done. rewrite selected_is_Some.
  assert (inGoodStanding (loadedAccount st at_ opened u) at_ = true) as Hg.
  { unfold inGoodStanding. change (credentialRefused (loadedAccount st at_ opened u)) with (credentialRefused u). cbn. by rewrite Hst, Hdev, Hep. }
  rewrite Hg. unfold activeScope, activeRow. split.
  - intros (_ & c & Hc & Hr). cbn in Hc. apply list_elem_of_In, filter_In in Hc as [Hc%list_elem_of_In _]. apply Hin in Hc as (r & Hr1 & Ha & _ & Ho). exists r.
    split_and!; try done. destruct (opens_fields _ _ _ Ho) as (_ & <- & _). unfold routeCredential in Hr. cbn in Hr. rewrite !andb_true_iff, !Z.eqb_eq, !String.eqb_eq in Hr.
    unfold credentialScope. destruct_and!. congruence.
  - intros (r & Hr & Ha & Hsc). split; [done|]. destruct (proj1 (open_readable st r) (Hread r Hr Ha)) as [c Ho].
    destruct (opens_fields _ _ _ Ho) as (HID & Hcs & Hstatus & Hn1 & Hn2 & Hn3). rewrite Hsc in Hcs. unfold credentialScope, scopeKey in Hcs. injection Hcs as H1 H2 H3 H4 H5 H6.
    exists c. split.
    + cbn. apply list_elem_of_In, filter_In. split; [|by apply Z.eqb_eq]. apply list_elem_of_In, Hin. exists r. split_and!; try done.
      unfold rowScope, scopeKey in Hsc. injection Hsc as -> _ _ _ _ _. by apply list_elem_of_fmap_2.
    + unfold routeCredential. cbn. rewrite Hdev, Hep, H1, H2, H3, H4, H5, H6, Hstatus, HID, !Z.eqb_refl, !String.eqb_refl. cbn [andb orb].
      unfold rowActive in Ha. rewrite Ha. cbn [andb]. rewrite (proj2 (String.eqb_neq _ _) (rows_named _ Hv r Hr)).
      by rewrite (proj2 (String.eqb_neq _ _) Hn1), (proj2 (String.eqb_neq _ _) Hn2), (proj2 (String.eqb_neq _ _) Hn3).
Qed.
End load.

(** ** From the authorized scopes to the routes *)

Section lifecycle.
Context {C : Crypto} {CL : CryptoLaws C} {CC : CredentialCodec} {MS : MapRange proxyCredentialScope ProxyCredential}.
Context (secret : string) (random : nat → option (list ascii) * option (list ascii)).

Lemma issued_readable e r : secret ≠ ""%string → goodCodec CC → fullReads random → issuedFor secret random e r → readable secret r.
Proof.
  intros Hs Hcodec Hfull (n & id & m & encrypted & Hd & He & ->). unfold drawn in Hd. destruct (random n).1 as [bytes|] eqn:Hb; [|done].
  assert (newProxyCredentialMaterial bytes = (id, m)) as Hm by (by apply (inj Some)).
  destruct (material_complete bytes id m (proj1 (Hfull n) bytes Hb) Hm) as (Hi & H1 & H2 & H3).
  destruct (random n).2 as [nonce|] eqn:Hn; [|unfold EncryptSecret in He; by repeat case_match].
  destruct (encrypt_decrypt secret (purposeOf id) (encodeMaterial m) nonce Hs (proj2 (Hfull n) nonce Hn)) as (encrypted' & He' & Hdec).
  assert (encrypted' = encrypted) as -> by congruence. exists (encodeMaterial m), m. split_and!; [done| |done]. by apply Hcodec.
Qed.

Lemma reconcile_readable desired at_ st st' : secret ≠ ""%string → goodCodec CC → rowsValid (CS_Credentials st) → fullReads random → readableRows secret st →
  reconcileProxyCredentialsAt secret desired at_ random st = Ok st' → readableRows secret st'.
Proof.
  intros Hs Hcodec Hv Hfull Hread Hst' r Hr Ha. destruct (reconcile_rows secret random desired at_ st st' r Hv Hfull Hst' Hr Ha) as [Hr'|[e He]]; [by apply Hread|].
  by apply (issued_readable e).
Qed.

Lemma not_device_retained st desired userID inboundID pathID protocol : ¬ retainedDevice st desired (scopeKey userID inboundID pathID 0 "" protocol).
Proof.
  intros (r & (_ & _ & Hsc) & Hdev & _). unfold isDevice in Hdev. apply negb_true_iff, String.eqb_neq in Hdev. unfold rowScope, scopeKey in Hsc. by injection Hsc as _ _ _ _ ? _.
Qed.

(** After a reconciliation the credentials load, and an account in good standing has the secrets
    of a route exactly when the route is authorized and had a credential or the account is not held. *)
Lemma issued_routes desired at_ st users u inboundID pathID protocol :
  rowsValid (CS_Credentials st) → readableRows secret st → secret ≠ ""%string → goodCodec CC → Forall scopeValid desired → goodRandom (CS_Credentials st) (length desired) random →
  u ∈ users → accountLevel u →
  let scope := scopeKey (AC_ID u) inboundID pathID 0 "" protocol in
  ∃ st' out loaded, reconcileProxyCredentialsAt secret desired at_ random st = Ok st' ∧ loadProxyCredentialsAt secret users at_ st' = Ok out ∧
    loaded ∈ out ∧ AC_ID loaded = AC_ID u ∧
    (AC_AuthorizationKey (UserCredentialForRouteAt loaded inboundID pathID protocol at_) ≠ ""%string ↔
     scope ∈ authorizedScopes desired ∧ (activeScope st scope ∨ heldUser (holdReviews st) (AC_ID u) = false)).
Proof.
  intros Hv Hread Hs Hcodec Hdes Hrandom Hu Hacc. cbv zeta. destruct (reconcile_succeeds secret random desired at_ st Hv Hs Hdes Hrandom) as [st' Hst'].
  destruct (reconcile_spec secret random desired at_ st st' Hv (random_full _ _ _ Hrandom) Hst') as [Hv' _ Hactive].
  pose proof (reconcile_readable desired at_ st st' Hs Hcodec Hv (random_full _ _ _ Hrandom) Hread Hst') as Hread'.
  destruct (load_spec secret st' users at_ Hs Hread') as (opened & Hload & Hin). exists st', (loadedAccount st' at_ opened <$> users), (loadedAccount st' at_ opened u).
  split_and!; [done|done|by apply list_elem_of_fmap_2|done|].
  rewrite (account_route secret st' users at_ opened u inboundID pathID protocol Hv' Hread' Hacc Hu Hin), Hactive.
  pose proof (not_device_retained st desired (AC_ID u) inboundID pathID protocol). change (userOf (scopeKey (AC_ID u) inboundID pathID 0 "" protocol)) with (AC_ID u). tauto.
Qed.
End lifecycle.

(** ** Moving to another secret *)

Lemma Forall2_impl_elem {A B} (P Q : A → B → Prop) l k : Forall2 P l k → (∀ x y, x ∈ l → P x y → Q x y) → Forall2 Q l k.
Proof. induction 1 as [|x y l k Hxy H IH]; intros Himpl; constructor; [apply Himpl; [left|done]|]. apply IH. intros a b Ha. apply Himpl. by right. Qed.

Section rewrap.
Context {C : Crypto} {CL : CryptoLaws C} (source target : string) (nonce : nat → option (list ascii)).

(** The material of a row under a secret. *)
Definition material (secret : string) (r : CredentialRow) : result SecretErr string := DecryptSecret secret (purposeOf (CR_ID r)) (CR_Material r).

Definition withMaterial (encrypted : string) (r : CredentialRow) : CredentialRow :=
  {| CR_ID := CR_ID r; CR_UserID := CR_UserID r; CR_InboundID := CR_InboundID r; CR_PathID := CR_PathID r; CR_DeviceIDHash := CR_DeviceIDHash r;
     CR_CredentialEpoch := CR_CredentialEpoch r; CR_Protocol := CR_Protocol r; CR_Status := CR_Status r; CR_Material := encrypted |}.

(** A row after the move: the same but for the encryption. *)
Definition moved (r r' : CredentialRow) : Prop := ∃ encrypted, r' = withMaterial encrypted r ∧ material target r' = material source r.

Hypothesis Htarget : target ≠ ""%string.
Hypothesis Hnonce : ∀ n, ∃ bytes, nonce n = Some bytes ∧ length bytes = nonceSize.

Lemma setMaterial_other id encrypted r : CR_ID r ≠ id → setMaterial id encrypted r = r.
Proof. intros H. unfold setMaterial. by rewrite (proj2 (String.eqb_neq _ _) H). Qed.

Lemma setMaterial_own encrypted r : setMaterial (CR_ID r) encrypted r = withMaterial encrypted r.
Proof. unfold setMaterial. by rewrite String.eqb_refl. Qed.

Lemma rewrap_fold l n rows : NoDup (CR_ID <$> l) → NoDup (CR_ID <$> rows) → (∀ r, r ∈ l → r ∈ rows ∧ ∃ plain, material source r = Ok plain) →
  ∃ n' out, foldM (rewrapRow source target nonce) l (n, rows) = Ok (n', out) ∧
    Forall2 (λ r r', if bool_decide (CR_ID r ∈ CR_ID <$> l) then moved r r' else r' = r) rows out.
Proof.
  revert n rows; induction l as [|x l IH]; intros n rows Hl Hrows Hsub; cbn [foldM].
  { exists n, rows. split; [done|]. apply Forall2_same_length_lookup_2; [done|]. intros i a b Ha Hb. rewrite bool_decide_false by apply not_elem_of_nil. congruence. }
  rewrite fmap_cons, NoDup_cons in Hl. destruct Hl as [Hx Hl]. destruct (Hsub x (list_elem_of_here _ _)) as [Hin [plain Hplain]].
  unfold rewrapRow at 1. unfold material in Hplain. rewrite Hplain. destruct (Hnonce n) as (bytes & -> & Hb).
  destruct (encrypt_decrypt target (purposeOf (CR_ID x)) plain bytes Htarget Hb) as (encrypted & -> & Hdec).
  assert (CR_ID <$> (setMaterial (CR_ID x) encrypted <$> rows) = CR_ID <$> rows) as Hids.
  { rewrite <-list_fmap_compose. apply list_fmap_ext. intros i r _. cbn. unfold setMaterial. by case_match. }
  destruct (IH (S n) (setMaterial (CR_ID x) encrypted <$> rows) Hl) as (n' & out & -> & Hout).
  - by rewrite Hids.
  - intros r Hr. destruct (Hsub r (list_elem_of_further _ _ _ Hr)) as [Hr' ?]. split; [|done]. rewrite <-(setMaterial_other (CR_ID x) encrypted r); [by apply list_elem_of_fmap_2|].
    intros Heq. apply Hx. rewrite <-Heq. by apply list_elem_of_fmap_2.
  - exists n', out. split; [done|]. rewrite Forall2_fmap_l in Hout. apply (Forall2_impl_elem _ _ _ _ Hout). intros r r' Hr H. cbn in H.
    rewrite fmap_cons. destruct (decide (CR_ID r = CR_ID x)) as [Heq|Hne].
    + assert (r = x) as -> by (by apply (NoDup_fmap_key CR_ID rows)). rewrite bool_decide_true by left. rewrite setMaterial_own in H. cbn in H. rewrite bool_decide_false in H by done. subst r'.
      exists encrypted. split; [done|]. unfold material. cbn. by rewrite Hdec, Hplain.
    + rewrite setMaterial_other in H by done. rewrite (bool_decide_ext _ (CR_ID r ∈ CR_ID <$> l)); [done|]. rewrite elem_of_cons. naive_solver.
Qed.

(** C29. Moving the store to another secret, when every active credential can be read, changes only
    the encryption: every active credential has under the new secret the material it had under
    the old one, and the other rows stay as they are. *)
Theorem rewrap_exact st : NoDup (CR_ID <$> CS_Credentials st) → (∀ r, r ∈ CS_Credentials st → rowActive r = true → ∃ plain, material source r = Ok plain) →
  ∃ st', rewrapProxyCredentials source target nonce st = Ok st' ∧
    Forall2 (λ r r', if rowActive r then moved r r' else r' = r) (CS_Credentials st) (CS_Credentials st').
Proof.
  intros Hnd Hread. assert (∀ r, r ∈ List.filter rowActive (CS_Credentials st) ↔ r ∈ CS_Credentials st ∧ rowActive r = true) as Hf.
  { intros r. by rewrite list_elem_of_In, filter_In, <-list_elem_of_In. }
  destruct (rewrap_fold (List.filter rowActive (CS_Credentials st)) 0 (CS_Credentials st)) as (n & out & Hfold & Hout); [|done| |].
  - apply (sublist_NoDup _ _ Hnd). clear. induction (CS_Credentials st) as [|r l IH]; cbn; [done|]. destruct (rowActive r); [by apply sublist_skip|by apply sublist_cons].
  - intros r [Hr Ha]%Hf. split; [done|]. by apply Hread.
  - exists (setCredentials out st). split; [unfold rewrapProxyCredentials; by rewrite Hfold|]. cbn. apply (Forall2_impl_elem _ _ _ _ Hout). intros r r' Hr H. cbn in H.
    replace (bool_decide (CR_ID r ∈ CR_ID <$> List.filter rowActive (CS_Credentials st))) with (rowActive r) in H; [done|]. apply eq_true_iff_eq. rewrite bool_decide_eq_true. split.
    + intros Ha. apply list_elem_of_fmap_2, Hf. done.
    + intros (x & Hid & [Hx Ha]%Hf)%list_elem_of_fmap. by assert (r = x) as -> by (by apply (NoDup_fmap_key CR_ID (CS_Credentials st))).
Qed.
End rewrap.

(** ** Concrete runs *)

(** A reader of the material as it is written. *)
Fixpoint unquote (fuel : nat) (l : list ascii) : option (list ascii * list ascii) :=
  match fuel, l with
  | S fuel, a :: rest => if bool_decide (a = quote) then Some ([], rest)
                         else match readUnit l with
                              | Some (u, r) => (λ '(b, r'), (u ++ b, r')) <$> unquote fuel r
                              | None => None
                              end
  | _, _ => None
  end.

Lemma unquote_escape f l g r : utf8 l → (length l ≤ f)%nat → (length (escape f l) < g)%nat → unquote g (escape f l ++ quote :: r) = Some (l, r).
Proof.
  revert l g; induction f as [|f IH]; intros l [|g] Hu Hl Hg; try lia.
  all: destruct (decide (l = [])) as [->|Hne]; [rewrite escape_nil; done|]; try (destruct l; [done|cbn in Hl; lia]).
  destruct (read_step f l Hu Hne Hl) as (u & rest & code & -> & Hrest & Hlen & He & Hr). rewrite He in Hg |- *. rewrite <-app_assoc. rewrite length_app in Hg.
  assert (code ≠ []) as Hcode by (intros ->; specialize (Hr []); done).
  specialize (Hr (escape f rest ++ quote :: r)). destruct (code ++ escape f rest ++ quote :: r) as [|a t] eqn:Hc; [done|]. cbn [unquote].
  rewrite bool_decide_false; [|by intros ->]. rewrite Hr. destruct code as [|b code]; [done|]. cbn in Hg. rewrite IH by (done || lia). done.
Qed.

Definition readString (l : list ascii) : option (string * list ascii) :=
  match l with
  | q :: rest => if bool_decide (q = quote) then (λ '(b, r), (of_bytes b, r)) <$> unquote (length l) rest else None
  | [] => None
  end.

Lemma readString_jsonString s r : validUTF8 s = true → readString (jsonString s ++ r) = Some (s, r).
Proof.
  intros Hs%utf8b_utf8. unfold readString, jsonString. cbn [app]. rewrite bool_decide_true by done. rewrite <-app_assoc. change ([quote] ++ r) with (quote :: r).
  rewrite unquote_escape; [cbn; by rewrite of_bytes_bytes_of|done|by rewrite length_bytes_of|]. cbn [length]. rewrite length_app. lia.
Qed.

Definition expect (p l : list ascii) : option (list ascii) := if bool_decide (take (length p) l = p) then Some (drop (length p) l) else None.

Lemma expect_app p l : expect p (p ++ l) = Some l.
Proof. unfold expect. rewrite take_app_length, drop_app_length. by rewrite bool_decide_true. Qed.

Definition member (first : ascii) (name : string) : list ascii := first :: jsonString name ++ [":"%char].

Definition plainDecode (s : string) : option proxyCredentialMaterial :=
  l ← expect (member "{" "username") (bytes_of s); '(username, l) ← readString l;
  l ← expect (member "," "password") l; '(password, l) ← readString l;
  l ← expect (member "," "uuid") l; '(uuid, l) ← readString l;
  Some {| CM_Username := username; CM_Password := password; CM_UUID := uuid |}.

Definition plainCodec : CredentialCodec := {| decodeMaterial := plainDecode |}.

Lemma plainCodec_good : goodCodec plainCodec.
Proof.
  intros [u p i] Hu Hp Hi. cbn [CM_Username CM_Password CM_UUID] in *. cbn [decodeMaterial plainCodec]. unfold plainDecode.
  assert (bytes_of (encodeMaterial {| CM_Username := u; CM_Password := p; CM_UUID := i |}) =
    member "{" "username" ++ jsonString u ++ member "," "password" ++ jsonString p ++ member "," "uuid" ++ jsonString i ++ ["}"%char]) as ->.
  { unfold encodeMaterial, jsonStruct. rewrite bytes_of_of_bytes. unfold member, jsonMember. cbn [fmap list_fmap joinBytes fst snd jsonField CM_Username CM_Password CM_UUID].
    rewrite <-?app_assoc. cbn [app]. rewrite <-?app_assoc. cbn [app]. rewrite <-?app_assoc. done. }
  rewrite expect_app. cbn [mbind option_bind]. rewrite readString_jsonString by done. cbn [mbind option_bind].
  rewrite expect_app. cbn [mbind option_bind]. rewrite readString_jsonString by done. cbn [mbind option_bind].
  rewrite expect_app. cbn [mbind option_bind]. rewrite readString_jsonString by done. done.
Qed.

Definition emptyStore : CredentialStore :=
  {| CS_Credentials := []; CS_Devices := []; CS_Batches := []; CS_Accounts := []; CS_RetirementScopes := []; CS_InitialGrace := None; CS_GraceScopes := ∅; CS_Reviews := ∅ |}.

Definition demoRandom (n : nat) : option (list ascii) * option (list ascii) := (Some (replicate 80 "a"%char), Some (replicate 12 "b"%char)).

Definition demoDesired : list ProxyCredential := [scopeOf demoAccount demoInbound 4].

Lemma demoDesired_valid : Forall scopeValid demoDesired.
Proof. repeat constructor; vm_compute; (reflexivity || discriminate || left). Qed.

Lemma demoRandom_good rows : (hexEncode (replicate 16 "a"%char)) ∉ CR_ID <$> rows → goodRandom rows (length demoDesired) demoRandom.
Proof.
  intros Hrows. split.
  - intros n _. split; by eexists.
  - intros n. split; intros bytes [= <-]; reflexivity.
  - intros n id m _ [= <- _]. exact Hrows.
  - intros n n' id m m' Hn Hn' _ _. cbn in Hn, Hn'. lia.
Qed.

Lemma emptyStore_valid : rowsValid (CS_Credentials emptyStore).
Proof. split; [constructor|by intros r ?%not_elem_of_nil|constructor]. Qed.

Lemma reconcile_exact_witness : ∃ st',
  @reconcileProxyCredentialsAt plainCrypto (map_range_default _ _) "key" demoDesired 0 demoRandom emptyStore = Ok st' ∧ reconciled emptyStore demoDesired st'.
Proof.
  apply (@reconcile_exact plainCrypto (map_range_default _ _) "key" demoRandom plainLaws demoDesired 0 emptyStore emptyStore_valid).
  - done.
  - exact demoDesired_valid.
  - apply demoRandom_good. apply not_elem_of_nil.
Defined.

Definition oldRow : CredentialRow :=
  {| CR_ID := "k1"; CR_UserID := 1; CR_InboundID := 10; CR_PathID := 4; CR_DeviceIDHash := ""; CR_CredentialEpoch := 0; CR_Protocol := ProtocolVLESS; CR_Status := "active";
     CR_Material := match @EncryptSecret plainCrypto "old" (purposeOf "k1") "{}" (Some (replicate 12 "b"%char)) with Ok text => text | Err _ => "" end |}.

Lemma rewrap_exact_witness : ∃ st', @rewrapProxyCredentials plainCrypto "old" "new" (λ _, Some (replicate 12 "c"%char)) (setCredentials [oldRow] emptyStore) = Ok st' ∧
  Forall2 (λ r r', if rowActive r then @moved plainCrypto "old" "new" r r' else r' = r) [oldRow] (CS_Credentials st').
Proof.
  apply (@rewrap_exact plainCrypto plainLaws "old" "new" (λ _, Some (replicate 12 "c"%char))).
  - done.
  - intros n. eexists. split; reflexivity.
  - apply NoDup_singleton.
  - intros r ->%list_elem_of_singleton _. eexists. vm_compute. reflexivity.
Defined.
