(* ===== verification/CredentialSync.v ===== *)
(** * Credentials follow access ([internal/controller/authorization_lease.go])

    The pass that keeps persisted credentials in step with access: the scopes of the access
    snapshots are reconciled in the store and the result is loaded.  With the lemmas of the
    snapshot, the scopes, the store and the routes, an account has the secrets of a route
    exactly when a snapshot grants it the route.

    The snapshots are those of access, of subscriptions and of the prepared changes; the
    routing data and its revision are arguments.  A pass reads the clock several times within a
    moment; the model has one reading [at]. *)

From S2P Require Import Prelude Model NodeKeys AccessSnapshot ProxyPathNames PlanPreview Encodings JsonText StoredTimes Security SecuritySafety Credentials CredentialSafety CredentialStore CredentialStoreSafety CredentialLifecycle.

Local Open Scope Z_scope.
Local Open Scope go_scope.

Record FullRoutingConfig := {
  FR_Users : list Account;
  FR_Inbounds : list Inbound;
  FR_ProxyPaths : list ProxyPath;
  FR_ProxyPathSteps : list ProxyPathStep }.

(** The revision of the last pass, and the store. *)
Record CredentialServer := {
  KS_Revision : Z;
  KS_Store : CredentialStore }.

Section sync.
Context {C : Crypto} {CC : CredentialCodec} {MR : MapRange Z (list Z)} {MS : MapRange proxyCredentialScope ProxyCredential}.

Definition credentialOptions (data : FullRoutingConfig) (s : EffectiveAccessSnapshot) : ConfigOptions :=
  {| CO_ProxyPaths := FR_ProxyPaths data; CO_ProxyPathSteps := FR_ProxyPathSteps data; CO_InboundUsers := Some (InboundUserBindings s);
     CO_ProxyPathUsers := Some (ProxyPathUserBindings s); CO_AccessSnapshot := Some s |}.

Definition desiredScopes (data : FullRoutingConfig) (snapshots : list EffectiveAccessSnapshot) (at_ : Z) : list ProxyCredential :=
  snapshots ≫= λ s, ProxyCredentialScopes (FR_Users data) (FR_Inbounds data) (credentialOptions data s) at_.

Definition accountScopes (desired : list ProxyCredential) : list ProxyCredential := List.filter (λ c, (PC_DeviceIDHash c =? "")%string) desired.

(** A pass at [revision].  A failure to load is reported after the reconciliation was committed. *)
Definition reconcileProxyCredentials (sessionSecret : string) (revision : Z) (data : FullRoutingConfig) (snapshots : list EffectiveAccessSnapshot) (at_ : Z)
    (random : nat → option (list ascii) * option (list ascii)) (server : CredentialServer) : result CredErr unit * CredentialServer :=
  if negb (KS_Revision server =? 0) && (KS_Revision server =? revision) then (Ok tt, server)
  else match reconcileProxyCredentialsAt sessionSecret (accountScopes (desiredScopes data snapshots at_)) at_ random (KS_Store server) with
       | Err e => (Err e, server)
       | Ok st => match loadProxyCredentialsAt sessionSecret (FR_Users data) at_ st with
                  | Err e => (Err e, {| KS_Revision := KS_Revision server; KS_Store := st |})
                  | Ok _ => (Ok tt, {| KS_Revision := revision; KS_Store := st |})
                  end
       end.

(** ** The scopes of an account *)

(** Routing data as the database holds it. *)
Record routingValid (data : FullRoutingConfig) : Prop := {
  routing_users : NoDup (AC_ID <$> FR_Users data);
  routing_inbounds : NoDup (Inbound_ID <$> FR_Inbounds data);
  routing_protocols : ∀ i, i ∈ FR_Inbounds data → Inbound_Protocol i ∈ credentialProtocols;
  routing_paths : ∀ p, p ∈ FR_ProxyPaths data → 0 ≤ ProxyPath_ID p }.

Lemma elem_of_accountScopes data snapshots at_ c : c ∈ accountScopes (desiredScopes data snapshots at_) ↔
  PC_DeviceIDHash c = ""%string ∧ ∃ s inbound pathID u, s ∈ snapshots ∧ inbound ∈ FR_Inbounds data ∧ Inbound_Enabled inbound = true ∧ 0 < Inbound_ID inbound ∧
    u ∈ DataPlaneIdentitiesAt (FR_Users data) at_ ∧ granted s (credentialOptions data s) inbound pathID (AC_ID u) ∧ entitled u inbound pathID at_ = true ∧ c = scopeOf u inbound pathID.
Proof.
  unfold accountScopes, desiredScopes. rewrite list_elem_of_In, filter_In, <-list_elem_of_In, String.eqb_eq, list_elem_of_bind.
  setoid_rewrite elem_of_scopes. setoid_rewrite (λ s i p u, routeUser_granted (FR_Users data) at_ (credentialOptions data s) s i p u eq_refl). split.
  - intros [(s & (i & p & u & ? & ? & ? & [? ?] & ? & ?) & ?) ?]. split; [done|]. exists s, i, p, u. done.
  - intros [? (s & i & p & u & ? & ? & ? & ? & ? & ? & ? & ?)]. split; [|done]. exists s. split; [|done]. exists i, p, u. done.
Qed.

Lemma accountScopes_valid data snapshots at_ : routingValid data → Forall scopeValid (accountScopes (desiredScopes data snapshots at_)).
Proof.
  intros [_ _ Hproto Hpaths]. apply Forall_forall. intros c (Hdev & s & i & p & u & _ & Hi & _ & Hid & _ & Hg & He & ->)%elem_of_accountScopes.
  unfold entitled in He. rewrite !andb_true_iff, Z.ltb_lt in He. destruct He as [[[Hu _] Hcons] _]. cbn in Hdev. split_and!; cbn; try done.
  - unfold ConsistentDeviceCredentialIdentity in Hcons. rewrite Hdev in Hcons. by apply Z.eqb_eq.
  - destruct Hg as [(_ & -> & _)|(q & Hq & _ & _ & _ & -> & _)]; [|by apply Hpaths]. unfold directPathID, SSHDirectBranchPathID. case_match; lia.
  - by apply Hproto.
Qed.

Lemma account_scope data snapshots at_ u inbound pathID : routingValid data → u ∈ FR_Users data → accountLevel u → inbound ∈ FR_Inbounds data →
  Inbound_Enabled inbound = true → 0 < Inbound_ID inbound →
  scopeKey (AC_ID u) (Inbound_ID inbound) pathID 0 "" (Inbound_Protocol inbound) ∈ authorizedScopes (accountScopes (desiredScopes data snapshots at_)) ↔
  ∃ s, s ∈ snapshots ∧ granted s (credentialOptions data s) inbound pathID (AC_ID u).
Proof.
  intros [Hnu Hni _ _] Hu [Hid Hdev Hep Hst] Hi Hen Hi0. unfold authorizedScopes. rewrite elem_of_list_to_set, list_elem_of_fmap. split.
  - intros (c & Hk & (Hcd & s & i & p & v & Hs & Hi' & _ & _ & Hv & Hg & _ & ->)%elem_of_accountScopes). unfold credentialScope, scopeKey in Hk. cbn in Hk, Hcd.
    injection Hk as H1 H2 H3 _ _ _. exists s. split; [done|]. assert (i = inbound) as -> by (by apply (NoDup_fmap_key Inbound_ID (FR_Inbounds data))). rewrite H1, H3. done.
  - intros (s & Hs & Hg). exists (scopeOf u inbound pathID). split; [unfold credentialScope; cbn; by rewrite Hdev, Hep|]. apply elem_of_accountScopes. split; [done|].
    exists s, inbound, pathID, u. split_and!; try done.
    + apply elem_of_identities. exists u. split_and!; [done| |by left]. unfold credentialRefused in Hst. rewrite !orb_false_iff, negb_false_iff in Hst. tauto.
    + unfold entitled. rewrite (proj2 (Z.ltb_lt _ _) Hid), Hst, Hdev, Hep. done.
Qed.

(** C2. A pass over valid routing data and a readable store succeeds and brings credentials in step
    with access: a load then gives an account in good standing the secrets of a route of an
    enabled inbound exactly when one of the snapshots grants the account this route, and the
    account had a credential for it or is not held for review. *)
Theorem access_grants_routes {CL : CryptoLaws C} sessionSecret revision data snapshots at_ random server u inbound pathID :
  routingValid data → rowsValid (CS_Credentials (KS_Store server)) → readableRows sessionSecret (KS_Store server) → sessionSecret ≠ ""%string → goodCodec CC →
  goodRandom (CS_Credentials (KS_Store server)) (length (accountScopes (desiredScopes data snapshots at_))) random →
  KS_Revision server = 0 ∨ KS_Revision server ≠ revision →
  u ∈ FR_Users data → accountLevel u → inbound ∈ FR_Inbounds data → Inbound_Enabled inbound = true → 0 < Inbound_ID inbound →
  let scope := scopeKey (AC_ID u) (Inbound_ID inbound) pathID 0 "" (Inbound_Protocol inbound) in
  ∃ st' out loaded, reconcileProxyCredentials sessionSecret revision data snapshots at_ random server = (Ok tt, {| KS_Revision := revision; KS_Store := st' |}) ∧
    loadProxyCredentialsAt sessionSecret (FR_Users data) at_ st' = Ok out ∧ loaded ∈ out ∧ AC_ID loaded = AC_ID u ∧
    (AC_AuthorizationKey (UserCredentialForRouteAt loaded (Inbound_ID inbound) pathID (Inbound_Protocol inbound) at_) ≠ ""%string ↔
     (∃ s, s ∈ snapshots ∧ granted s (credentialOptions data s) inbound pathID (AC_ID u)) ∧
     (activeScope (KS_Store server) scope ∨ heldUser (holdReviews (KS_Store server)) (AC_ID u) = false)).
Proof.
  intros Hdata Hv Hread Hs Hcodec Hrandom Hrev Hu Hacc Hi Hen Hi0. cbv zeta.
  destruct (issued_routes sessionSecret random (accountScopes (desiredScopes data snapshots at_)) at_ (KS_Store server) (FR_Users data) u (Inbound_ID inbound) pathID (Inbound_Protocol inbound)
    Hv Hread Hs Hcodec (accountScopes_valid data snapshots at_ Hdata) Hrandom Hu Hacc) as (st' & out & loaded & Hrec & Hload & Hin & Hid & Hroute).
  exists st', out, loaded. split_and!; try done.
  - unfold reconcileProxyCredentials. rewrite Hrec, Hload. destruct (Z.eqb_spec (KS_Revision server) 0); cbn [negb andb]; [done|]. destruct (Z.eqb_spec (KS_Revision server) revision); [|done]. tauto.
  - rewrite Hroute, account_scope by done. done.
Qed.
End sync.

(** ** A pass for one account *)

Definition demoData : FullRoutingConfig :=
  {| FR_Users := [demoAccount]; FR_Inbounds := [demoInbound]; FR_ProxyPaths := CO_ProxyPaths demoOptions; FR_ProxyPathSteps := CO_ProxyPathSteps demoOptions |}.

Definition demoServer : CredentialServer := {| KS_Revision := 0; KS_Store := emptyStore |}.

Lemma demoData_valid : routingValid demoData.
Proof.
  split; [apply NoDup_singleton|apply NoDup_singleton| |].
  - intros i ->%list_elem_of_singleton. vm_compute. left.
  - intros p ->%list_elem_of_singleton. done.
Qed.

Lemma access_grants_routes_witness : ∃ st' out loaded,
  @reconcileProxyCredentials plainCrypto plainCodec (map_range_default _ _) (map_range_default _ _) "key" 8 demoData [demoSnapshot] 0 demoRandom demoServer =
    (Ok tt, {| KS_Revision := 8; KS_Store := st' |}) ∧
  @loadProxyCredentialsAt plainCrypto plainCodec "key" [demoAccount] 0 st' = Ok out ∧ loaded ∈ out ∧ AC_ID loaded = AC_ID demoAccount ∧
  AC_AuthorizationKey (UserCredentialForRouteAt loaded 10 4 ProtocolVLESS 0) ≠ ""%string.
Proof.
  destruct (@access_grants_routes plainCrypto plainCodec (map_range_default _ _) (map_range_default _ _) plainLaws "key" 8 demoData [demoSnapshot] 0 demoRandom demoServer demoAccount demoInbound 4
    demoData_valid emptyStore_valid) as (st' & out & loaded & H1 & H2 & H3 & H4 & H5).
  - by intros r ?%not_elem_of_nil.
  - done.
  - exact plainCodec_good.
  - assert (length (accountScopes (desiredScopes (MR := map_range_default _ _) demoData [demoSnapshot] 0)) = length demoDesired) as -> by (vm_compute; reflexivity).
    apply demoRandom_good. apply not_elem_of_nil.
  - by left.
  - left.
  - done.
  - left.
  - done.
  - done.
  - exists st', out, loaded. split_and!; [exact H1|exact H2|exact H3|exact H4|]. apply H5. split.
    + exists demoSnapshot. split; [left|]. right. eexists. split_and!; [left|done..|vm_compute; left].
    + right. vm_compute. reflexivity.
Defined.
